(* ===== verification/_CoqProject ===== *)
-Q . S2P
Prelude.v
Text.v
Json.v
TextProps.v
Utf8.v
Truncate.v
CompactionText.v
HunkTypes.v
HunkDiff.v
HunkDiffProps.v
FileUtils.v
Tracker.v
TrackerActions.v
TrackerMutations.v
TrackerQueries.v
TrackerActor.v
TrackerInv.v
TrackerOps.v
TrackerSafety.v
TrackerReview.v
LocSink.v
TrackerStable.v
TrackerRender.v
TrackerTheorems.v
TrackerSync.v
Breaker.v
BreakerProps.v
BreakerConfig.v
TokenEstimation.v
Interjection.v
CompactionSelect.v
Conversation.v
ToolPairing.v
ToolPairingProps.v
Headroom.v
HeadroomProps.v
ChatUsage.v
ChatRequest.v
CompactionUtils.v
CodeCompaction.v
CodeCompactionProps.v
CompactionHistory.v
CompactionHistoryProps.v
CompactionPasses.v
CompactionPassesProps.v
ChatState.v
ChatStateProps.v
ShellCommands.v
Permission.v
PermissionProps.v
PermissionText.v
ToolFs.v
ApplyPatch.v
ApplyPatchProps.v
ApplyPatchText.v
SearchReplace.v
SearchReplaceProps.v
SearchReplaceTool.v
Sampling.v
SamplingProps.v
SamplerTask.v
SamplerProps.v
SamplerActor.v
HookData.v
HookLoad.v
HookRun.v
HookRunProps.v
HookNetProps.v
HookLoadProps.v
Paths.v
SessionLog.v
SessionLogProps.v
FileState.v
FileStateProps.v
RewindSerial.v
CheckpointStore.v
Checkpoints.v
SessionRewind.v
RewindTools.v
RewindHandler.v
