(* ===== verification/Prelude.v ===== *)
(** * Verification of the DS Build core

    DS Build is a terminal coding agent written in Rust.  This library models
    the parts of it that keep the user's work and the agent's requests in
    order, and proves what makes them correct:

    - the hunk tracker ([src/crates/codegen/ds-hunk-tracker]), an actor that
      records which lines of which files changed against git HEAD, attributes
      them to agent turns or to the user, and accepts or rejects them;
    - the circuit breaker ([src/crates/common/ds-circuit-breaker]), which sheds
      requests to a failing service and is shared between threads;
    - the token estimation ([src/crates/codegen/ds-token-estimation]), the
      arithmetic of the context-window gates;
    - the interjection queue ([src/crates/common/ds-interjection-core]), through
      which messages sent during a turn reach the model;
    - compaction ([src/crates/common/ds-compaction]): what to compact, the summary
      of the model and the history rebuilt from it;
    - the sampler ([src/crates/codegen/ds-sampler], [ds-sampling-types]), which
      sends a request to the model API and retries it;
    - the chat state ([src/crates/codegen/ds-chat-state]), an actor that owns the
      conversation, mirrors it to disk and builds the requests;
    - headroom ([src/crates/codegen/ds-headroom]), which compresses large tool
      results and stores the originals;
    - the permission policy ([src/crates/codegen/ds-workspace/src/permission]),
      which decides what the agent's tools may do;
    - the tools that edit files ([src/crates/codegen/ds-tools]): patches, search
      and replace, and the truncation of output;
    - the hooks ([src/crates/codegen/ds-hooks]), commands and URLs of the user that
      are told of events and may deny a tool call;
    - rewinds ([src/crates/codegen/ds-workspace/src/session],
      [src/crates/codegen/ds-shell/src/session]), which undo what the agent did to the
      files, the hunks and git since the beginning of a prompt, and what was said.

    The chat state calls the tool pairing, the estimation, headroom and the usage
    ledger, and the model composes them the same way.  The tools report the files they
    write; a bridge in the shell hands the reports to the rewind points, and a rewind
    also restores the hunk tracker; the rewind of the shell calls the chat state, the rewind
    points and the replay of the session's log: these calls are composed, too.  The other
    parts do not call each other: the shell of the program connects them, and it is not
    modelled, but for that bridge, its gate of a tool call, which asks the hooks, and the
    log and the rewind of a session.

    ** Hunk tracker

    The actor is one task that owns its state and handles commands one at a
    time.  Its methods are functions on the record [Actor] of [Tracker.v], which
    holds the fields of [HunkTrackerActor], the events sent, the file system
    and the number of identifiers drawn.  What the world does during a command
    is the record [Env]: the identifier generator, the clock, the outcome of
    each file operation (failures and short reads included), and git as the
    [gix] crate reports it.  The [similar] crate, which computes line diffs, is
    the class [DiffEngine]; the class [DiffLaws] states what its documentation
    promises; [greedy_engine] is an executable instance.

    - [Text.v], [TextProps.v], [Utf8.v]: byte strings, lines, trimming,
      characters, UTF-8 validity, slices between characters, and the occurrences of one
      text in another, for all parts;
    - [HunkTypes.v]: [types.rs], [events.rs], [actor/state.rs];
    - [HunkDiff.v], [HunkDiffProps.v]: [diff.rs]; patching from the last hunk to
      the first replaces exactly the selected runs of lines;
    - [FileUtils.v]: [actor/file_utils.rs]; the bounded read agrees with the
      classification of the whole content;
    - [Tracker.v]: the state, [actor/git.rs], [actor/hunks.rs];
    - [TrackerActions.v]: [actor/actions.rs]; [TrackerMutations.v]:
      [actor/mutations.rs]; [TrackerQueries.v]: [actor/queries.rs], snapshots;
    - [TrackerActor.v]: [commands.rs], coalescing and the loop of
      [actor/mod.rs], as the step relation [actor_step]: clients send
      commands, other programs change files, the actor starts, handles the head
      of its queue or the whole queue as a coalesced batch, or stops;
    - [TrackerInv.v], [TrackerOps.v], [TrackerSafety.v]: the invariants, every
      operation keeps them, and so does every run;
    - [TrackerReview.v]: what accepting and rejecting achieve;
      [TrackerStable.v]: recomputation without a change, and the tracking modes;
      [TrackerRender.v]: rendering, the summary, batches and path rewriting;
    - [LocSink.v]: [loc/mod.rs], the line-count records;
    - [TrackerTheorems.v], [TrackerSync.v]: the properties with concrete runs
      at which their hypotheses hold, and runs in which the tracker departs from its
      documentation.

    The theorems show that in every reachable state hunks are the diff of the
    two contents of their file, identifiers are unique and the turn index
    agrees with the hunks; that rejecting puts the old text back on disk and
    accepting adopts the new one; that a notification brings a file up to date;
    that snapshots, path rewriting and line-count records are lossless; and what
    a failed file operation leaves behind.

    ** Circuit breaker

    [Breaker.v] models [window.rs], [state.rs] and [breaker.rs].  A method is a
    program of atomic accesses to the shared record [Inner]; it is run alone or
    interleaved with other threads ([thread_step]).  [BreakerProps.v] gives the
    abstract machine ([acheck], [arecord] on the states closed, open since,
    half open with claims) and the simulation; [BreakerConfig.v] models
    [config.rs], [registry.rs] and [retry_policy.rs] and holds the
    properties: the window is exact and bounded under every interleaving,
    [check] and [record] refine the abstract machine, the breaker always
    recovers, and two interleavings that contradict comments of the source.

    ** Token estimation and interjections

    [TokenEstimation.v] and [Interjection.v] model their crates whole, with
    their properties: the gates compute their documented inequality as long as
    the threshold product is a [u64]; queue histories are first-in first-out
    and lossless; truncation ends at a character boundary.

    ** Compaction

    The crate is generic over the items of a conversation and over its host; the traits
    of its seams are classes, and the laws of a class state what the trait documents.

    - [CompactionSelect.v]: [select.rs] over the trait of [item.rs]: the newest items
      that fit the budget are kept, and no tool result is separated from its request;
    - [CompactionText.v]: [code_compaction/summary.rs] and
      [failure.rs]: the cleaned summary holds no live control token, and a summary in the
      requested form is kept as it is;
    - [CodeCompaction.v], [CodeCompactionProps.v]: [sampler.rs] (the call of the model is
      the class [CompactionSampler]) and the rest of [code_compaction], with the assembler
      of the chat state: the retries are exact, the new history has the documented parts,
      the two assemblers agree;
    - [CompactionHistory.v], [CompactionHistoryProps.v]: [history/], [reminder.rs]: the
      queries of the user survive every further compaction, the reminder names all that
      is still running;
    - [CompactionPasses.v], [CompactionPassesProps.v]: [intra_compaction/] over the class
      [CompactionStreamProc] with [StreamProcLaws], and [inter_compaction/]: what a pass
      commits, what an error leaves behind, and that every turn is summarised once.

    ** Sampler

    - [Sampling.v], [SamplingProps.v]: the errors, the labels of detected loops
      with the collector of one attempt, backoff and classification ([error.rs],
      both [doom_loop.rs], [retry.rs]); the collector is exact, the backoff is
      bounded;
    - [SamplerTask.v], [SamplerProps.v]: [actor/request_task.rs], the attempts of
      one request.  What the client and the stream transforms do is the class
      [Network], with the class [NetworkLaws] for what they promise; the demo
      network of [SamplerProps.v] is an instance.  Every task ends, answers its
      caller exactly once, and accepts only answers it should accept;
    - [SamplerActor.v]: [actor/mod.rs] and [actor/state.rs], the requests in
      flight and their cancellation, as the reachable states [reach].

    ** Conversations and the chat state

    - [Conversation.v]: the items of a conversation, from
      [ds-sampling-types/src/conversation.rs]; the sampler uses the same types;
    - [ToolPairing.v], [ToolPairingProps.v]: the repairs of a history (duplicate,
      missing and displaced tool results), with reference definitions on runs of
      results: the in-place scans compute the references, and a repaired history
      is what model APIs require;
    - [ChatUsage.v]: [usage.rs]; the ledger refines the list of the bills;
    - [ChatRequest.v]: token estimates, image eviction,
      pruning, compression and the memory reminder ([actor/state.rs],
      [actor/request_builder.rs], [headroom.rs]); what each of them may change of an item,
      as relations ([evicted_item], [trimmed_item], [compressed_item], [reminded]);
    - [CompactionUtils.v]: [compaction_utils.rs], what is
      sent to the summariser; the fit to a budget keeps calls and results paired;
    - [ChatState.v]: the actor ([actor/mod.rs], [mutations.rs], [queries.rs]): its
      state, every command with its reply, its events and its calls to the
      persistence.  A command that panics is [None];
    - [ChatStateProps.v]: requests are well paired and differ from the conversation only
      by these relations, the disk mirrors the
      conversation, a captured turn is what was pushed, rewinds and snapshots are
      exact, and the cases in which the actor departs from its documentation.

    ** Headroom

    [Headroom.v] and [HeadroomProps.v] model the crate: the store is a bounded
    first-in first-out queue, and a compressed result is found again verbatim.
    The hash, JSON and the environment are the class [HeadroomEnv] with the laws
    [HeadroomLaws]; [demo_env] is an instance.

    ** Permissions

    - [ShellCommands.v]: [bash_command_splitting.rs], the commands of a script from
      its syntax tree (tree-sitter is the class [ShellParser]) and the wrappers
      that hide a command; against the tree ([runs_command]) and a grammar of the wrappers
      ([wraps], [bared]);
    - [Permission.v]: [types.rs], [rules.rs], [policy.rs] and parts of
      [resolution.rs]; globs, URLs and Unicode lower-casing are the class
      [PermissionEnv];
    - [PermissionProps.v]: the precedence of rules, the completeness of the policy
      on scripts, the lock on blanket grants, the policy on MCP servers, and
      ways around a deny rule;
    - [PermissionText.v]: rules are read back from their printed text.

    ** Tools

    - [ToolFs.v]: files with the errors of their operations (when one fails, and what a
      failed write leaves of the file, is the class [FsErrors]) and the notification of a
      written file;
    - [ApplyPatch.v], [ApplyPatchProps.v], [ApplyPatchText.v]:
      [codex/apply_patch], from the text of a patch to the files: the new contents
      are exact, a patch that cannot be placed changes nothing, one that succeeds
      does what it says, and patches are read back from their text;
    - [SearchReplace.v], [SearchReplaceProps.v], [SearchReplaceTool.v]:
      [ds_build/search_replace]; every call answers, and an applied edit replaces the
      occurrences from left to right, exact ones or, with the fallback, those of the normal
      form of the text that are whole stretches of the file, and nothing else;
    - [Truncate.v]: [util/truncate.rs]; cuts are the longest that fall between
      characters and keep the limit, wrapping loses nothing.

    ** Hooks

    - [Json.v]: JSON values, which the sampler uses, too;
    - [HookData.v]: [event.rs], [matcher.rs] and the table of tool names of other agents
      ([ds-tools/src/types/claude_alias.rs]), [env_expand.rs] and the scans of
      [runner/command.rs] for variables; the [regex] crate is the class [RegexCrate];
    - [HookLoad.v]: [config.rs], [discovery.rs], [trust.rs], over the classes [Serde] (JSON
      texts, orders of hash maps) and [Environment] and the file system [HookFs];
    - [HookRun.v]: [runner/], [dispatcher.rs] and the gate in the session, over the class
      [HookWorld]: what the [i]-th run of a hook meets;
    - [HookRunProps.v], [HookNetProps.v]: a tool call is stopped by the first active hook
      that denies, or by a callback of the client, and by nothing else; the variables that
      tell a hook what it runs for are the runner's; a request only goes to [https] hosts
      without private addresses, against the ranges as networks; what is cut stays UTF-8;
    - [HookLoadProps.v]: the tools a matcher selects; what a file
      and the sources yield, whatever the order of the hash maps; a registry that is sent
      and read back; disabling and enabling a hook.

    ** Rewinds

    - [Paths.v]: [ds-paths/src/lib.rs] over [std::path]; lexical normalisation leads to the
      same file in a file system without links;
    - [FileState.v]: [session/file_state.rs] and the local file system: the snapshots of a
      prompt, the tracker with its lazy load, the rewind of the files.  [serde_json] and
      [chrono] are the class [RewindSerde], the order of hash maps is the class
      [HashOrder], the failures of file operations are [FsErrors] of [ToolFs.v];
    - [FileStateProps.v]: the maps of the tracker as unions, what merging
      keeps; what a rewind does to each file when any operation may fail, a write halfway
      included;
    - [RewindSerial.v]: rewind points are read back from their lines, and a tracker that
      loads its history on demand answers as one that has it from the start; the worker of
      [persistence.rs] that writes them: what the file holds after any messages and any
      outcomes of the writes, torn records included;
    - [SessionRewind.v]: the bridge [tools/notification_bridge.rs] and the life of a
      session; the specification keeps a copy of the disk for every prompt, and the
      tracker refines it;
    - [RewindTools.v]: a patch and a search-and-replace, reported, recorded and undone;
      runs in which a rewind does not bring back what was;
    - [CheckpointStore.v]: [session/checkpoint_store.rs] over a disk any of whose
      operations may fail ([DiskErrors]; a process that dies is a run in which all later
      ones do): the store is a map of the newest checkpoints, what is read back after
      any failures was stored, and the directory of a session stays below its root;
    - [Checkpoints.v]: [session/checkpoint.rs] and the soft restore of [session/git.rs]
      over the class [Git]: what the end of a prompt captures, what a rewind does in
      every domain, and that git is not touched before uncommitted work is in a stash;
    - [SessionLog.v]: the readers of [updates.jsonl]: [helpers/replay.rs] and, of
      [storage/mod.rs], the filter of undone updates, the cut of a fork and the texts of the
      prompts; and the cut of a conversation of [conversation.rs].  The checkpoint files are
      the class [CheckpointFiles];
    - [SessionLogProps.v]: a session is a sequence of events with a timeline of the turns
      that are not undone and the log they leave; every reader answers what the timeline
      says, and the replay does not panic on any log; logs on which the readers differ;
    - [RewindHandler.v]: [acp_session_impl/rewind.rs], which composes the chat state actor,
      the tracker of the files and the replay, up to the file of the rewind points that the
      next process loads.

    ** Integers, bounds, termination

    Integers whose overflow the code decides are in [Z] at their width, with
    saturation or wrap-around written out; line numbers and counts, which are
    bounded by the one-megabyte limit of diffed files, are in [nat].  The
    loops of the source run over lists and are structural, except the following.
    The retry loop of the sampler, [run_loop], has fuel, and [task_terminates]
    shows that one unit per attempt of the budgets is enough: the retries, one
    attempt that strips the images, and the doom-loop resamples.  The scans of the
    tool pairing have the number of items as fuel, which [tool_repairs_equivalent]
    shows to be enough; [strip_tag] has the length of the text, since every round
    removes a tag; so have [peel_analysis], [collapse_blank_lines] and [split_blocks], whose
    rounds make the text shorter ([summary_seed_inert], [user_queries_survive]); the parser
    of patches has the number of lines as fuel, and always
    answers ([patch_all_or_nothing]); [walk] has the number of nodes of the tree ([walk_spec]); the
    scans of a command for variables have its length, which [refs_fuel] and
    [assignments_fuel] show to be enough; the
    eight levels of nested scripts are the bound of the source itself.  The
    floating-point error rate is compared exhaustively with the exact fraction
    for windows of up to 64 samples.

    ** Not modelled

    The other crates of the repository (the tools that read, search, run commands or
    use the web, the rest of the shell, terminal interface, the
    rest of the workspace, protocol clients), the host of the compaction in the shell (triggers, gathering of
    the input, rendering of reminders), the client and the stream
    transforms of the sampler, the permission manager with its prompts and the
    static analysis of file accesses in scripts, serialisation,
    logging, the asynchronous runtime (a task that is cancelled in the middle of
    a command, the parallelism of reads within one command), weak memory
    orderings, and, except for the hooks, the iteration order of hash maps, for which the
    model takes the order of [map_to_list].  Of the hooks: killing a process that
    timed out, the counters of tracing, the adapter of plugins and the reading of the
    client's registrations.  Of [diff.rs], [generate_unified_patch] is the
    formatter of the [similar] crate and left out.  Of the rewinds: the parsing of the
    lines of the log and messages to it that are still under way, the list of rewind points
    that a client picks from, metrics, and files of the working tree that are those of the
    checkpoint store.

    This file is the prelude: machine integers, iterator functions of the
    Rust standard library, tactics and shared lemmas. *)

From stdpp Require Export prelude gmap strings.
From stdpp Require Export sorting.
From Stdlib Require Export Ascii.

(** ** Machine-width integers *)

(** [usize] and [u64] values are unsigned 64-bit integers.  Line numbers and
    counters are kept in [nat] (they index lists); the operations the source
    writes with an explicit overflow behaviour go through [Z], so that they
    stay executable near the bound. *)
Definition u64_max : Z := 2 ^ 64 - 1.

Definition usize_saturating_add (a b : nat) : nat :=
  Z.to_nat (Z.min (Z.of_nat a + Z.of_nat b) u64_max).

(** Release-mode [+] on [usize]: wraps around. *)
Definition usize_add (a b : nat) : nat :=
  Z.to_nat ((Z.of_nat a + Z.of_nat b) mod 2 ^ 64).

Definition usize_abs_diff (a b : nat) : nat := (a - b) + (b - a).

(** [u64] operations on [Z]. *)
(** Release-mode [+] on [u64]: wraps around. *)
Definition u64_add (a b : Z) : Z := (a + b) mod 2 ^ 64.
Definition u64_saturating_add (a b : Z) : Z := Z.min (a + b) u64_max.
Definition u64_saturating_mul (a b : Z) : Z := Z.min (a * b) u64_max.
Definition u64_saturating_sub (a b : Z) : Z := Z.max (a - b) 0.
Definition as_u64 (a : Z) : Z := a mod 2 ^ 64.

(** The range of [i64], and its saturating sum. *)
Definition i64_max : Z := 2 ^ 63 - 1.
Definition i64_saturating_add (a b : Z) : Z := Z.max (- 2 ^ 63) (Z.min (a + b) i64_max).

(** Values that a [u64] (or a [usize]) can hold. *)
Definition is_u64 (a : Z) : Prop := (0 <= a <= u64_max)%Z.

(** [u32] operations on [Z]. *)
Definition u32_max : Z := 2 ^ 32 - 1.
Definition is_u32 (a : Z) : Prop := (0 <= a <= u32_max)%Z.
Definition u32_saturating_add (a b : Z) : Z := Z.min (a + b) u32_max.
Definition u32_add (a b : Z) : Z := (a + b) mod 2 ^ 32.

(** ** Iterator and slice functions of the Rust standard library *)

(** [Iterator::min_by_key]: the first of the elements with the least key. *)
Fixpoint min_by_key {A} (f : A → nat) (l : list A) : option A :=
  match l with
  | [] => None
  | x :: l' =>
      match min_by_key f l' with
      | None => Some x
      | Some y => if f y <? f x then Some y else Some x
      end
  end.

(** [Iterator::max_by_key]: the last of the elements with the greatest key. *)
Fixpoint max_by_key {A} (f : A → nat) (l : list A) : option A :=
  match l with
  | [] => None
  | x :: l' =>
      match max_by_key f l' with
      | None => Some x
      | Some y => if f x <=? f y then Some y else Some x
      end
  end.

(** [slice::sort_by_key(|x| Reverse(key(x)))]: a stable sort by descending
    key, written as insertion sort. *)
Fixpoint insert_by_desc {A} (f : A → nat) (x : A) (l : list A) : list A :=
  match l with
  | [] => [x]
  | y :: l' => if f y <=? f x then x :: y :: l' else y :: insert_by_desc f x l'
  end.

Definition sort_by_key_rev {A} (f : A → nat) (l : list A) : list A :=
  foldr (insert_by_desc f) [] l.

(** [slice::sort_by_key]: a stable sort by ascending key. *)
Fixpoint insert_by_asc {A} (f : A → nat) (x : A) (l : list A) : list A :=
  match l with
  | [] => [x]
  | y :: l' => if f x <=? f y then x :: y :: l' else y :: insert_by_asc f x l'
  end.

Definition sort_by_key {A} (f : A → nat) (l : list A) : list A :=
  foldr (insert_by_asc f) [] l.

(** [Iterator::find] and [Iterator::any] with a boolean predicate. *)
Fixpoint find_b {A} (p : A → bool) (l : list A) : option A :=
  match l with
  | [] => None
  | x :: l' => if p x then Some x else find_b p l'
  end.

Definition any_b {A} (p : A → bool) (l : list A) : bool := existsb p l.

(** [Vec::retain] and [Iterator::filter] with a boolean predicate. *)
Definition filter_b {A} (p : A → bool) (l : list A) : list A := List.filter p l.

(** ** Tactics and hint databases *)

Create HintDb dsb discriminated.

(** Splits every [match] and [if] of the goal, naming nothing. *)
Ltac split_matches :=
  repeat (case_match; simplify_eq/=; try done).

(** Turns boolean comparisons in the context into propositions. *)
Ltac breflect :=
  repeat match goal with
  | H : (_ <? _) = true |- _ => apply Nat.ltb_lt in H
  | H : (_ <? _) = false |- _ => apply Nat.ltb_ge in H
  | H : (_ <=? _) = true |- _ => apply Nat.leb_le in H
  | H : (_ <=? _) = false |- _ => apply Nat.leb_gt in H
  | H : (_ =? _) = true |- _ => apply Nat.eqb_eq in H
  | H : (_ =? _) = false |- _ => apply Nat.eqb_neq in H
  | H : (_ <? _)%Z = true |- _ => apply Z.ltb_lt in H
  | H : (_ <? _)%Z = false |- _ => apply Z.ltb_ge in H
  | H : (_ <=? _)%Z = true |- _ => apply Z.leb_le in H
  | H : (_ <=? _)%Z = false |- _ => apply Z.leb_gt in H
  | H : (_ =? _)%Z = true |- _ => apply Z.eqb_eq in H
  | H : (_ =? _)%Z = false |- _ => apply Z.eqb_neq in H
  | H : bool_decide _ = true |- _ => apply bool_decide_eq_true in H
  | H : bool_decide _ = false |- _ => apply bool_decide_eq_false in H
  | H : _ && _ = true |- _ => apply andb_true_iff in H as [? ?]
  | H : _ || _ = false |- _ => apply orb_false_iff in H as [? ?]
  | H : negb _ = true |- _ => apply negb_true_iff in H
  | H : negb _ = false |- _ => apply negb_false_iff in H
  end.

(** ** Lemmas on the machine integers *)

Lemma usize_saturating_add_small a b :
  (Z.of_nat a + Z.of_nat b <= u64_max)%Z → usize_saturating_add a b = a + b.
Proof. unfold usize_saturating_add. intros. rewrite Z.min_l by done. lia. Qed.

Lemma usize_add_small a b :
  (Z.of_nat a + Z.of_nat b <= u64_max)%Z → usize_add a b = a + b.
Proof.
  unfold usize_add, u64_max. intros. rewrite Z.mod_small by lia. lia.
Qed.

Lemma usize_saturating_add_le a b : (Z.of_nat (usize_saturating_add a b) <= u64_max)%Z.
Proof. unfold usize_saturating_add, u64_max. lia. Qed.

Lemma usize_saturating_add_comm a b :
  usize_saturating_add a b = usize_saturating_add b a.
Proof. unfold usize_saturating_add. f_equal. lia. Qed.

Lemma usize_abs_diff_0 a b : usize_abs_diff a b = 0 ↔ a = b.
Proof. unfold usize_abs_diff. lia. Qed.

(** ** Lemmas on the iterator functions *)

Section sort_asc.
Context {A : Type} (f : A → nat).

Lemma insert_by_asc_Permutation x l : insert_by_asc f x l ≡ₚ x :: l.
Proof.
  induction l as [|y l IH]; simpl; [done|]. case_match; [done|]. rewrite IH. apply Permutation_swap.
Qed.

Lemma sort_by_key_Permutation l : sort_by_key f l ≡ₚ l.
Proof.
  unfold sort_by_key. induction l as [|x l IH]; simpl; [done|].
  by rewrite insert_by_asc_Permutation, IH.
Qed.

Lemma insert_by_asc_sorted x l :
  StronglySorted (λ a b, f a <= f b) l → StronglySorted (λ a b, f a <= f b) (insert_by_asc f x l).
Proof.
  induction 1 as [|y l Hs IH Hall]; simpl; [repeat constructor|]. case_match; breflect.
  - constructor; [by constructor|]. constructor; [done|].
    eapply Forall_impl; [done|]. simpl. intros z ?. lia.
  - constructor; [done|]. rewrite insert_by_asc_Permutation. constructor; [lia|done].
Qed.

Lemma sort_by_key_sorted l : StronglySorted (λ a b, f a <= f b) (sort_by_key f l).
Proof.
  unfold sort_by_key. induction l as [|x l IH]; simpl; [constructor|]. by apply insert_by_asc_sorted.
Qed.

End sort_asc.


Section iterators.
Context {A : Type}.
Implicit Types (l : list A) (f : A → nat) (p : A → bool).

Lemma min_by_key_None f l : min_by_key f l = None ↔ l = [].
Proof. destruct l; simpl; [done|]. split_matches. Qed.

Lemma max_by_key_None f l : max_by_key f l = None ↔ l = [].
Proof. destruct l; simpl; [done|]. split_matches. Qed.

Lemma min_by_key_spec f l x :
  min_by_key f l = Some x → x ∈ l ∧ ∀ y, y ∈ l → f x <= f y.
Proof.
  revert x. induction l as [|z l IH]; simpl; intros x Hx; [done|].
  destruct (min_by_key f l) as [w|] eqn:E.
  - destruct (IH w eq_refl) as [Hin Hle].
    destruct (f w <? f z) eqn:C; simplify_eq; breflect;
      (split; [by constructor|]);
      intros y [->|Hy]%elem_of_cons; try lia; specialize (Hle _ Hy); lia.
  - apply min_by_key_None in E as ->. simplify_eq.
    split; [by constructor|]. by intros y ->%list_elem_of_singleton.
Qed.

Lemma max_by_key_spec f l x :
  max_by_key f l = Some x → x ∈ l ∧ ∀ y, y ∈ l → f y <= f x.
Proof.
  revert x. induction l as [|z l IH]; simpl; intros x Hx; [done|].
  destruct (max_by_key f l) as [w|] eqn:E.
  - destruct (IH w eq_refl) as [Hin Hle].
    destruct (f z <=? f w) eqn:C; simplify_eq; breflect;
      (split; [by constructor|]);
      intros y [->|Hy]%elem_of_cons; try lia; specialize (Hle _ Hy); lia.
  - apply max_by_key_None in E as ->. simplify_eq.
    split; [by constructor|]. by intros y ->%list_elem_of_singleton.
Qed.

Lemma find_b_Some p l x : find_b p l = Some x → x ∈ l ∧ p x = true.
Proof.
  induction l as [|y l IH]; simpl; [done|].
  destruct (p y) eqn:E; intros; simplify_eq; set_solver.
Qed.

Lemma find_b_None p l : find_b p l = None ↔ ∀ x, x ∈ l → p x = false.
Proof.
  induction l as [|y l IH]; simpl.
  - split; [set_solver|done].
  - destruct (p y) eqn:E; [split; [done|]|].
    + intros H. specialize (H y). rewrite E in H. set_solver.
    + rewrite IH. split; [|set_solver].
      intros H x [->|?]%elem_of_cons; auto.
Qed.

Lemma any_b_true p l : any_b p l = true ↔ ∃ x, x ∈ l ∧ p x = true.
Proof.
  unfold any_b. rewrite existsb_exists. by setoid_rewrite list_elem_of_In.
Qed.

Lemma any_b_false p l : any_b p l = false ↔ ∀ x, x ∈ l → p x = false.
Proof.
  rewrite <-not_true_iff_false, any_b_true. split.
  - intros H x Hx. destruct (p x) eqn:E; [|done]. naive_solver.
  - intros H (x & Hx & E). rewrite (H _ Hx) in E. done.
Qed.

Lemma elem_of_filter_b p l x : x ∈ filter_b p l ↔ x ∈ l ∧ p x = true.
Proof. unfold filter_b. by rewrite !list_elem_of_In, filter_In. Qed.

Lemma filter_b_sublist p l : filter_b p l `sublist_of` l.
Proof.
  induction l as [|x l IH]; simpl; [constructor|].
  destruct (p x); by constructor.
Qed.

Lemma filter_b_app p l k : filter_b p (l ++ k) = filter_b p l ++ filter_b p k.
Proof. apply List.filter_app. Qed.

Lemma filter_b_all p l : (∀ x, x ∈ l → p x = true) → filter_b p l = l.
Proof.
  induction l as [|x l IH]; simpl; intros H; [done|].
  rewrite H by set_solver. f_equal. apply IH. set_solver.
Qed.

Lemma filter_b_none p l : (∀ x, x ∈ l → p x = false) → filter_b p l = [].
Proof.
  induction l as [|x l IH]; simpl; intros H; [done|].
  rewrite H by set_solver. apply IH. set_solver.
Qed.

(** *** The stable sort by descending key *)

Lemma insert_by_desc_Permutation f x l : insert_by_desc f x l ≡ₚ x :: l.
Proof.
  induction l as [|y l IH]; simpl; [done|].
  case_match; [done|]. rewrite IH. apply Permutation_swap.
Qed.

Lemma sort_by_key_rev_Permutation f l : sort_by_key_rev f l ≡ₚ l.
Proof.
  induction l as [|x l IH]; simpl; [done|].
  by rewrite insert_by_desc_Permutation, IH.
Qed.

Lemma insert_by_desc_snoc f x l :
  (∀ y, y ∈ l → f x < f y) → insert_by_desc f x l = l ++ [x].
Proof.
  induction l as [|y l IH]; simpl; intros H; [done|].
  destruct (f y <=? f x) eqn:E.
  - breflect. specialize (H y). set_solver by lia.
  - f_equal. apply IH. set_solver.
Qed.

(** On a list whose keys strictly increase, sorting by descending key is
    reversal: this is the order in which batched patches are applied. *)
Lemma sort_by_key_rev_increasing f l :
  StronglySorted (λ x y, f x < f y) l → sort_by_key_rev f l = reverse l.
Proof.
  induction 1 as [|x l Hs IH Hx]; simpl; [done|].
  rewrite IH, reverse_cons. apply insert_by_desc_snoc.
  intros y Hy. rewrite elem_of_reverse in Hy.
  rewrite Forall_forall in Hx. by apply Hx.
Qed.

End iterators.

Lemma Forall_sublist_of {A} (P : A → Prop) (l k : list A) :
  l `sublist_of` k → Forall P k → Forall P l.
Proof. induction 1; inversion 1; subst; eauto using Forall. Qed.

Lemma StronglySorted_sublist {A} (R : relation A) (l k : list A) :
  l `sublist_of` k → StronglySorted R k → StronglySorted R l.
Proof.
  induction 1 as [|x l k Hs IH|x l k Hs IH]; inversion 1; subst; eauto.
  constructor; [by apply IH|]. by eapply Forall_sublist_of.
Qed.

(** A sublist of the same length is the list. *)
Lemma sublist_same_length {A} (l1 l2 : list A) :
  l1 `sublist_of` l2 → length l2 <= length l1 → l1 = l2.
Proof.
  induction 1 as [|x l1 l2 Hs IH|x l1 l2 Hs IH]; simpl; intros Hl; [done| |].
  - f_equal. apply IH. lia.
  - apply sublist_length in Hs. lia.
Qed.

#[export] Hint Resolve filter_b_sublist : dsb.
