(* ===== verification/Text.v ===== *)
(** * Text: Rust string slices and their line functions

    A [&str] is modelled by the list of its bytes ([ascii] is an 8-bit byte).
    The functions below are those of the Rust standard library the modelled
    crates call: [str::split_inclusive('\n')], [str::lines], [slice::join],
    [str::ends_with], [str::strip_suffix], [String::from_utf8].  The lemmas
    relate [lines], [join] and [concat] on texts whose lines are all
    LF-terminated and CR-free ([lf_text]). *)

From S2P Require Import Prelude.
From stdpp Require Export pretty.

Notation text := (list ascii).

Definition LF : ascii := ascii_of_nat 10.
Definition CR : ascii := ascii_of_nat 13.
Definition NUL : ascii := ascii_of_nat 0.

(** Literals. *)
Definition txt (s : string) : text := String.list_ascii_of_string s.

(** [txtln "a"] is the line [a] with its terminator. *)
Definition txtln (s : string) : text := txt s ++ [LF].

(** [str::split_inclusive('\n')]: the terminator stays at the end of each
    piece; there is no empty last piece. *)
Fixpoint split_inclusive (s : text) : list text :=
  match s with
  | [] => []
  | c :: s' =>
      if decide (c = LF) then [c] :: split_inclusive s'
      else match split_inclusive s' with
           | [] => [[c]]
           | p :: ps => (c :: p) :: ps
           end
  end.

(** [str::strip_suffix(c)] for one byte. *)
Definition strip_last (c : ascii) (s : text) : option text :=
  match reverse s with
  | d :: r => if decide (d = c) then Some (reverse r) else None
  | [] => None
  end.

(** The closure [str::lines] maps over [split_inclusive('\n')]: one trailing
    LF goes, and then one trailing CR; a piece without LF is left alone. *)
Definition strip_eol (l : text) : text :=
  match strip_last LF l with
  | None => l
  | Some l' => match strip_last CR l' with None => l' | Some l'' => l'' end
  end.

(** [str::lines]. *)
Definition lines (s : text) : list text := strip_eol <$> split_inclusive s.

(** [str::ends_with(c)] for one byte. *)
Definition ends_with (c : ascii) (s : text) : bool :=
  match strip_last c s with Some _ => true | None => false end.

(** [str::strip_suffix("\r\n")], [str::strip_suffix('\n')]. *)
Definition strip_crlf (s : text) : option text :=
  match strip_last LF s with Some s' => strip_last CR s' | None => None end.

(** [slice::join("\n")]. *)
Fixpoint join_lf (ls : list text) : text :=
  match ls with
  | [] => []
  | [l] => l
  | l :: ls' => l ++ LF :: join_lf ls'
  end.

(** The text whose lines are [ls], each with its terminator. *)
Definition unlines (ls : list text) : text := concat ((λ l, l ++ [LF]) <$> ls).

(** [slice::starts_with]. *)
Fixpoint starts_with (p s : text) : bool :=
  match p, s with
  | [], _ => true
  | a :: p', b :: s' => bool_decide (a = b) && starts_with p' s'
  | _ :: _, [] => false
  end.

(** A text with LF line ends only: no CR at all, and every line (the last one
    too) is terminated. *)
Definition clean_line (l : text) : Prop := LF ∉ l ∧ CR ∉ l.
Definition lf_text (s : text) : Prop := CR ∉ s ∧ (s = [] ∨ ends_with LF s = true).

(** ** UTF-8 validity ([String::from_utf8], [str::from_utf8]) *)

Definition byte_val (c : ascii) : N := N_of_ascii c.

(** A continuation byte [10xxxxxx]. *)
Definition is_cont (c : ascii) : bool := ((128 <=? byte_val c) && (byte_val c <=? 191))%N.
Definition byte_in (lo hi : N) (c : ascii) : bool := ((lo <=? byte_val c) && (byte_val c <=? hi))%N.

(** The well-formed byte sequences of Unicode's table 3-7, which
    [str::from_utf8] accepts and nothing else. *)
Fixpoint utf8_valid (s : text) : bool :=
  match s with
  | [] => true
  | a :: s1 =>
      if byte_in 0 127 a then utf8_valid s1
      else match s1 with
      | [] => false
      | b :: s2 =>
          if byte_in 194 223 a then is_cont b && utf8_valid s2
          else match s2 with
          | [] => false
          | c :: s3 =>
              if byte_in 224 239 a then
                (if byte_in 224 224 a then byte_in 160 191 b
                 else if byte_in 237 237 a then byte_in 128 159 b else is_cont b)
                && is_cont c && utf8_valid s3
              else match s3 with
              | [] => false
              | d :: s4 =>
                  byte_in 240 244 a
                  && (if byte_in 240 240 a then byte_in 144 191 b
                      else if byte_in 244 244 a then byte_in 128 143 b else is_cont b)
                  && is_cont c && is_cont d && utf8_valid s4
              end
          end
      end
  end.

(** [String::from_utf8_lossy]: every maximal prefix of a sequence that is not
    well-formed becomes U+FFFD. *)
Definition REPLACEMENT_CHARACTER : text := [ascii_of_nat 239; ascii_of_nat 191; ascii_of_nat 189].

(** The second byte that may follow a first byte of three or four. *)
Definition second_ok (a b : ascii) : bool :=
  if byte_in 224 224 a then byte_in 160 191 b
  else if byte_in 237 237 a then byte_in 128 159 b
  else if byte_in 240 240 a then byte_in 144 191 b
  else if byte_in 244 244 a then byte_in 128 143 b
  else is_cont b.

Fixpoint from_utf8_lossy (s : text) : text :=
  match s with
  | [] => []
  | a :: s1 =>
      if byte_in 0 127 a then a :: from_utf8_lossy s1
      else match s1 with
      | [] => REPLACEMENT_CHARACTER
      | b :: s2 =>
          if byte_in 194 223 a then
            if is_cont b then a :: b :: from_utf8_lossy s2
            else REPLACEMENT_CHARACTER ++ from_utf8_lossy s1
          else if byte_in 224 244 a && second_ok a b then
            match s2 with
            | [] => REPLACEMENT_CHARACTER
            | c :: s3 =>
                if is_cont c then
                  if byte_in 224 239 a then a :: b :: c :: from_utf8_lossy s3
                  else match s3 with
                  | [] => REPLACEMENT_CHARACTER
                  | d :: s4 =>
                      if is_cont d then a :: b :: c :: d :: from_utf8_lossy s4
                      else REPLACEMENT_CHARACTER ++ from_utf8_lossy s3
                  end
                else REPLACEMENT_CHARACTER ++ from_utf8_lossy s2
            end
          else REPLACEMENT_CHARACTER ++ from_utf8_lossy s1
      end
  end.

(** ** [str::parse] for integers and booleans *)

Definition digit_value (c : ascii) : option Z :=
  let n := Z.of_nat (nat_of_ascii c) in
  if ((48 <=? n) && (n <=? 57))%Z then Some (n - 48)%Z else None.

(** The digits of an unsigned integer of at most [max]. *)
Fixpoint parse_digits (max : Z) (acc : Z) (s : text) : option Z :=
  match s with
  | [] => Some acc
  | c :: s' =>
      d ← digit_value c;
      let acc := (acc * 10 + d)%Z in
      if (max <? acc)%Z then None else parse_digits max acc s'
  end.

(** [str::parse] at an unsigned integer type: an optional plus sign and at
    least one digit. *)
Definition parse_uint (max : Z) (s : text) : option Z :=
  let digits := match s with c :: s' => if decide (c = "+"%char) then s' else s | [] => [] end in
  match digits with [] => None | _ => parse_digits max 0 digits end.

Definition parse_bool (s : text) : option bool :=
  if decide (s = txt "true") then Some true
  else if decide (s = txt "false") then Some false else None.

(** ** Searching *)

(** [str::contains]. *)
Fixpoint contains (s needle : text) : bool :=
  starts_with needle s || match s with [] => false | _ :: s' => contains s' needle end.

(** [str::to_ascii_lowercase]. *)
Definition to_ascii_lowercase (s : text) : text :=
  (λ c, if byte_in 65 90 c then ascii_of_N (byte_val c + 32) else c) <$> s.

(** [str::split_once(c)]. *)
Fixpoint split_once (c : ascii) (s : text) : option (text * text) :=
  match s with
  | [] => None
  | d :: s' =>
      if decide (d = c) then Some ([], s')
      else (λ '(a, b), (d :: a, b)) <$> split_once c s'
  end.

(** [str::strip_prefix]. *)
Fixpoint text_strip_prefix (p s : text) : option text :=
  match p, s with
  | [], _ => Some s
  | a :: p', b :: s' => if decide (a = b) then text_strip_prefix p' s' else None
  | _ :: _, [] => None
  end.

(** [slice::join(sep)]. *)
Fixpoint join_with (sep : text) (ls : list text) : text :=
  match ls with
  | [] => []
  | [l] => l
  | l :: ls' => l ++ sep ++ join_with sep ls'
  end.

(** ** Characters *)

(** [str::chars], each character as its bytes: a character starts at every byte
    that is not a continuation byte. *)
Fixpoint chars (s : text) : list text :=
  match s with
  | [] => []
  | a :: s' =>
      match chars s' with
      | [] => [[a]]
      | c :: cs => if any_b is_cont (take 1 c) then (a :: c) :: cs else [a] :: c :: cs
      end
  end.

(** [str::is_char_boundary]. *)
Definition is_char_boundary (s : text) (i : nat) : bool :=
  match s !! i with
  | None => Nat.eqb i (length s)
  | Some c => negb (is_cont c)
  end.

(** [char::is_whitespace]: Unicode's [White_Space] characters, as their bytes. *)
Definition is_whitespace_char (c : text) : bool :=
  match byte_val <$> c with
  | [a] => (((9 <=? a) && (a <=? 13)) || (a =? 32))%N
  | [a; b] => ((a =? 194) && ((b =? 133) || (b =? 160)))%N
  | [a; b; d] =>
      (((a =? 225) && (b =? 154) && (d =? 128))
       || ((a =? 226) && (b =? 128) && (((128 <=? d) && (d <=? 138)) || (d =? 168) || (d =? 169) || (d =? 175)))
       || ((a =? 226) && (b =? 129) && (d =? 159))
       || ((a =? 227) && (b =? 128) && (d =? 128)))%N
  | _ => false
  end.

Fixpoint drop_while {A} (p : A → bool) (l : list A) : list A :=
  match l with
  | [] => []
  | x :: l' => if p x then drop_while p l' else l
  end.

(** [str::trim_start], [str::trim_end], [str::trim]. *)
Definition trim_start (s : text) : text := concat (drop_while is_whitespace_char (chars s)).
Definition trim_end (s : text) : text :=
  concat (reverse (drop_while is_whitespace_char (reverse (chars s)))).
Definition trim (s : text) : text := trim_end (trim_start s).

(** [str::split_whitespace]: the words between white space. *)
Fixpoint words_from (word : text) (cs : list text) : list text :=
  match cs with
  | [] => if decide (word = []) then [] else [word]
  | c :: cs' =>
      if is_whitespace_char c then
        if decide (word = []) then words_from [] cs' else word :: words_from [] cs'
      else words_from (word ++ c) cs'
  end.
Definition split_whitespace (s : text) : list text := words_from [] (chars s).

(** [str::trim_end_matches] of a set of ASCII characters. *)
Definition trim_end_matches (p : ascii → bool) (s : text) : text :=
  reverse (drop_while p (reverse s)).

(** [str::find]: the offset of the first occurrence. *)
Fixpoint find_text (needle s : text) : option nat :=
  if starts_with needle s then Some 0
  else match s with [] => None | _ :: s' => S <$> find_text needle s' end.

(** The number of bytes, [str::len]. *)
Definition len (s : text) : Z := Z.of_nat (length s).

(** A decimal number, as [{}] prints an integer. *)
Definition show_Z (n : Z) : text := txt (pretty n).

(** [str::split] at every occurrence of a character: never empty. *)
Fixpoint split_on (c : ascii) (s : text) : list text :=
  match s with
  | [] => [[]]
  | a :: s' =>
      if decide (a = c) then [] :: split_on c s'
      else match split_on c s' with [] => [[a]] | p :: ps => (a :: p) :: ps end
  end.

(** [str::replace] of an ASCII character. *)
Definition replace_char (c : ascii) (r : text) (s : text) : text :=
  concat ((λ a, if decide (a = c) then r else [a]) <$> s).

(** [str::replace] of a text of two characters. *)
Fixpoint replace_pair (a b : ascii) (r : text) (s : text) : text :=
  match s with
  | x :: s' =>
      match s' with
      | y :: s'' =>
          if decide (x = a ∧ y = b) then r ++ replace_pair a b r s'' else x :: replace_pair a b r s'
      | [] => s
      end
  | [] => []
  end.

(** [str::replace] of a pattern that is not empty; [skip] bytes belong to the last
    occurrence. *)
Fixpoint replace_from (old new : text) (skip : nat) (s : text) : text :=
  match s with
  | [] => []
  | c :: s' =>
      match skip with
      | S skip => replace_from old new skip s'
      | 0 =>
          if starts_with old s then new ++ replace_from old new (length old - 1) s'
          else c :: replace_from old new 0 s'
      end
  end.

Definition replace_all (old new s : text) : text := replace_from old new 0 s.

(** [str::rfind]: the offset of the last occurrence. *)
Fixpoint rfind_text (needle s : text) : option nat :=
  match s with
  | [] => if starts_with needle s then Some 0 else None
  | _ :: s' =>
      match rfind_text needle s' with
      | Some i => Some (S i)
      | None => if starts_with needle s then Some 0 else None
      end
  end.

(** [str::ends_with] of a text. *)
Definition ends_with_text (p s : text) : bool := starts_with (reverse p) (reverse s).

(** The greatest character boundary up to [end_], and the least from [start] on. *)
Fixpoint floor_boundary (s : text) (end_ : nat) : nat :=
  match end_ with
  | 0 => 0
  | S end' => if is_char_boundary s end_ then end_ else floor_boundary s end'
  end.

Fixpoint skip_cont (s : text) : text :=
  match s with
  | [] => []
  | a :: s' => if is_cont a then skip_cont s' else s
  end.

(** [&s[a..b]], which panics unless both ends are boundaries in order. *)
Definition slice (s : text) (a b : nat) : option text :=
  if (a <=? b) && is_char_boundary s a && is_char_boundary s b then Some (take (b - a) (drop a s))
  else None.

(** [str::match_indices] of a pattern that is not empty: the offsets of the
    occurrences that do not overlap, from the left; [skip] bytes belong to the last
    occurrence. *)
Fixpoint match_indices_from (old : text) (skip i : nat) (s : text) : list nat :=
  match s with
  | [] => []
  | _ :: s' =>
      match skip with
      | S skip => match_indices_from old skip (S i) s'
      | 0 =>
          if starts_with old s then i :: match_indices_from old (length old - 1) (S i) s'
          else match_indices_from old 0 (S i) s'
      end
  end.

Definition match_indices (old s : text) : list nat := match_indices_from old 0 0 s.

(** ** Debug formatting *)

(** The code point of a character. *)
Definition code_point (c : text) : N :=
  match byte_val <$> c with
  | [a] => a
  | [a; b] => (a - 192) * 64 + (b - 128)
  | [a; b; d] => (a - 224) * 4096 + (b - 128) * 64 + (d - 128)
  | [a; b; d; e] => (a - 240) * 262144 + (b - 128) * 4096 + (d - 128) * 64 + (e - 128)
  | _ => 0
  end%N.

Definition hex_digit (n : N) : ascii :=
  ascii_of_N (if n <? 10 then 48 + n else 87 + n)%N.

(** The hexadecimal digits of a code point, which has at most six. *)
Fixpoint hex_from (fuel : nat) (n : N) (acc : text) : text :=
  match fuel with
  | 0 => acc
  | S fuel =>
      let acc := hex_digit (n mod 16)%N :: acc in
      if (n <? 16)%N then acc else hex_from fuel (n / 16)%N acc
  end.

Definition unicode_escape (c : text) : text := txt "\u{" ++ hex_from 6 (code_point c) [] ++ txt "}".

(** A character as [{:?}] prints it; [verbatim] are the characters outside ASCII
    that Unicode has as printable and that do not extend a grapheme. *)
Definition debug_char (verbatim : text → bool) (c : text) : text :=
  match byte_val <$> c with
  | [a] =>
      if (a =? 0)%N then txt "\0" else if (a =? 9)%N then txt "\t"
      else if (a =? 10)%N then txt "\n" else if (a =? 13)%N then txt "\r"
      else if ((a =? 34) || (a =? 92))%N then txt "\" ++ c
      else if ((a <? 32) || (a =? 127))%N then unicode_escape c else c
  | _ => if verbatim c then c else unicode_escape c
  end.

(** A text in double quotes, and as [{:?}] prints it. *)
Definition quoted (s : text) : text := [ascii_of_nat 34] ++ s ++ [ascii_of_nat 34].
Definition debug_str (verbatim : text → bool) (s : text) : text :=
  quoted (concat (debug_char verbatim <$> chars s)).

(** ** Lemmas *)

Lemma strip_last_snoc c s : strip_last c (s ++ [c]) = Some s.
Proof.
  unfold strip_last. rewrite reverse_snoc, decide_True by done.
  by rewrite reverse_involutive.
Qed.

Lemma strip_last_Some c s s' : strip_last c s = Some s' → s = s' ++ [c].
Proof.
  unfold strip_last. destruct (reverse s) as [|d r] eqn:E; [done|].
  case_decide; intros; simplify_eq.
  by rewrite <-(reverse_involutive s), E, reverse_cons.
Qed.

Lemma strip_last_not_elem c s : c ∉ s → strip_last c s = None.
Proof.
  destruct (strip_last c s) as [s'|] eqn:E; [|done].
  apply strip_last_Some in E as ->. set_solver.
Qed.

Lemma ends_with_spec c s : ends_with c s = true ↔ ∃ s', s = s' ++ [c].
Proof.
  unfold ends_with. split.
  - destruct (strip_last c s) eqn:E; [|done]. eauto using strip_last_Some.
  - intros [s' ->]. by rewrite strip_last_snoc.
Qed.

Lemma concat_split_inclusive s : concat (split_inclusive s) = s.
Proof.
  induction s as [|c s IH]; simpl; [done|]. case_decide; simpl.
  - by rewrite IH.
  - destruct (split_inclusive s) as [|p ps]; simpl in *; by rewrite <-IH.
Qed.

Lemma split_inclusive_nil s : split_inclusive s = [] ↔ s = [].
Proof.
  destruct s; simpl; [done|]. split; [|done].
  case_decide; [done|]. by case_match.
Qed.

Lemma split_inclusive_app_line l s :
  LF ∉ l → split_inclusive ((l ++ [LF]) ++ s) = (l ++ [LF]) :: split_inclusive s.
Proof.
  induction l as [|c l IH]; simpl; intros H; [done|].
  rewrite decide_False by set_solver. rewrite IH by set_solver. done.
Qed.

Lemma unlines_cons l ls : unlines (l :: ls) = (l ++ [LF]) ++ unlines ls.
Proof. done. Qed.

Lemma unlines_app ls1 ls2 : unlines (ls1 ++ ls2) = unlines ls1 ++ unlines ls2.
Proof. unfold unlines. by rewrite fmap_app, concat_app. Qed.

Lemma unlines_nil ls : unlines ls = [] ↔ ls = [].
Proof.
  destruct ls as [|l ls]; [done|]. rewrite unlines_cons.
  split; [|done]. intros H. by destruct l.
Qed.

Lemma split_inclusive_unlines ls :
  Forall clean_line ls → split_inclusive (unlines ls) = (λ l, l ++ [LF]) <$> ls.
Proof.
  induction 1 as [|l ls [Hl _] _ IH]; [done|].
  rewrite unlines_cons, split_inclusive_app_line by done. by rewrite IH.
Qed.

Lemma strip_eol_line l : clean_line l → strip_eol (l ++ [LF]) = l.
Proof.
  intros [_ HCR]. unfold strip_eol.
  by rewrite strip_last_snoc, strip_last_not_elem.
Qed.

Lemma lines_unlines ls : Forall clean_line ls → lines (unlines ls) = ls.
Proof.
  intros H. unfold lines. rewrite split_inclusive_unlines by done.
  clear -H. induction H; csimpl; [done|]. by rewrite strip_eol_line, IHForall.
Qed.

Lemma join_lf_cons l ls : ls ≠ [] → join_lf (l :: ls) = l ++ LF :: join_lf ls.
Proof. by destruct ls. Qed.

Lemma join_lf_unlines ls : ls ≠ [] → join_lf ls ++ [LF] = unlines ls.
Proof.
  induction ls as [|l ls IH]; intros H; [done|].
  destruct ls as [|l' ls].
  - by rewrite unlines_cons, app_nil_r.
  - rewrite join_lf_cons, unlines_cons by done.
    rewrite <-IH by done. by rewrite <-!app_assoc.
Qed.

(** [join] loses nothing but a single empty line. *)
Lemma join_lf_nil ls : join_lf ls = [] ↔ ls = [] ∨ ls = [[]].
Proof.
  destruct ls as [|l [|l' ls]]; simpl; [naive_solver|naive_solver|].
  split; [|naive_solver]. intros H. by destruct l.
Qed.

(** Splitting off the first line. *)
Lemma lf_text_cons s :
  lf_text s → s ≠ [] →
  ∃ l s', s = (l ++ [LF]) ++ s' ∧ clean_line l ∧ lf_text s'.
Proof.
  intros [HCR HE] Hne. destruct HE as [->|HE]; [done|]. clear Hne.
  induction s as [|c s IH]; [done|].
  destruct (decide (c = LF)) as [->|Hc].
  - exists [], s. split; [done|]. split; [split; set_solver|].
    split; [set_solver|]. apply ends_with_spec in HE as [s' HE].
    destruct s'; simplify_eq/=; [by left|]. right. apply ends_with_spec. eauto.
  - destruct IH as (l & s' & -> & [Hl1 Hl2] & Hs').
    + set_solver.
    + apply ends_with_spec in HE as [s' HE]. destruct s'; simplify_eq/=.
      apply ends_with_spec. eauto.
    + exists (c :: l), s'. split; [done|]. split; [split; set_solver|done].
Qed.

(** Every LF text is [unlines] of clean lines. *)
Lemma lf_text_unlines s : lf_text s → ∃ ls, Forall clean_line ls ∧ s = unlines ls.
Proof.
  remember (length s) as n eqn:Hn. revert s Hn.
  induction (lt_wf n) as [n _ IH]. intros s -> Hs.
  destruct (decide (s = [])) as [->|Hne]; [by exists []|].
  destruct (lf_text_cons s Hs Hne) as (l & s' & -> & Hl & Hs').
  destruct (IH (length s')) with (s := s') as (ls & Hls & ->); [|done|done|].
  - rewrite !length_app. simpl. lia.
  - exists (l :: ls). by split; [constructor|].
Qed.

Lemma unlines_lf_text ls : Forall clean_line ls → lf_text (unlines ls).
Proof.
  intros H. split.
  - induction H as [|l ls [Hl1 Hl2] _ IH]; [set_solver|].
    rewrite unlines_cons. rewrite !elem_of_app, list_elem_of_singleton. naive_solver.
  - destruct (decide (ls = [])) as [->|Hne]; [by left|]. right.
    rewrite <-join_lf_unlines by done. apply ends_with_spec. eauto.
Qed.

(** The lines of an LF text are clean, and they determine the text. *)
Lemma lf_text_lines s : lf_text s → Forall clean_line (lines s) ∧ unlines (lines s) = s.
Proof.
  intros (ls & Hls & ->)%lf_text_unlines. by rewrite lines_unlines.
Qed.

Lemma lf_text_split s :
  lf_text s → split_inclusive s = (λ l, l ++ [LF]) <$> lines s.
Proof.
  intros (ls & Hls & ->)%lf_text_unlines.
  by rewrite split_inclusive_unlines, lines_unlines.
Qed.

#[export] Hint Resolve unlines_lf_text : dsb.

(** ** Substrings *)

Lemma starts_with_app p s : starts_with p s = true ↔ ∃ r, s = p ++ r.
Proof.
  revert s. induction p as [|a p IH]; intros s; simpl; [naive_solver|].
  destruct s as [|b s]; [naive_solver|].
  rewrite andb_true_iff, bool_decide_eq_true, IH. naive_solver.
Qed.

Lemma contains_spec s n : contains s n = true ↔ ∃ a b, s = a ++ n ++ b.
Proof.
  revert n. induction s as [|c s IH]; intros n; simpl; rewrite orb_true_iff, starts_with_app.
  - split; [intros [[b ->]|]; [by exists [], b|done]|]. intros (a & b & Hs). left. exists b.
    symmetry in Hs. by apply app_nil in Hs as [-> Hs].
  - rewrite IH. split.
    + intros [[b ->]|(a & b & ->)]; [by exists [], b|by exists (c :: a), b].
    + intros ([|x a] & b & Hs); simplify_eq/=; [left|right]; eauto.
Qed.

Lemma join_split_on c s : join_with [c] (split_on c s) = s.
Proof.
  induction s as [|a s IH]; [done|]. cbn [split_on]. case_decide as Ha.
  - subst a. destruct (split_on c s) as [|p ps] eqn:E.
    + destruct s as [|b s']; [done|]. cbn in E. case_decide; [done|]. by destruct (split_on c s').
    + cbn [join_with app] in *. by rewrite IH.
  - destruct (split_on c s) as [|p ps]; [by cbn in IH; subst|].
    destruct ps; cbn [join_with app] in *; by rewrite IH.
Qed.

Lemma concat_chars s : concat (chars s) = s.
Proof.
  induction s as [|a s IH]; [done|]. cbn [chars]. destruct (chars s) as [|c cs].
  - cbn in *. by rewrite <- IH.
  - destruct (any_b is_cont (take 1 c)); cbn in *; by rewrite IH.
Qed.
