(* ===== verification/Json.v ===== *)
(** * JSON values

    [serde_json::Value] with the accessors the modelled crates use.  A number is
    kept as it is written; the members of an object are in the order in which the
    map yields them, with distinct keys. *)

From S2P Require Import Prelude Text.

(** [serde_json::Value]. *)
Inductive Json :=
| JNull
| JBool (b : bool)
| JNumber (repr : text)
| JString (t : text)
| JArray (l : list Json)
| JObject (fields : list (text * Json)).

Fixpoint assoc (k : text) (fields : list (text * Json)) : option Json :=
  match fields with
  | [] => None
  | (k', v) :: fields => if decide (k' = k) then Some v else assoc k fields
  end.

(** [Value::get] with a string key. *)
Definition json_get (k : text) (v : Json) : option Json :=
  match v with JObject fields => assoc k fields | _ => None end.

(** [Value::pointer], of keys that are not array indices. *)
Definition pointer (keys : list text) (v : Json) : option Json :=
  foldl (λ ov k, ov ≫= json_get k) (Some v) keys.

Definition as_str (v : Json) : option text := match v with JString t => Some t | _ => None end.
Definition as_array (v : Json) : option (list Json) :=
  match v with JArray l => Some l | _ => None end.
