(* ===== verification/TextProps.v ===== *)
(** * Texts: trimming and characters

    Lemmas on [str::trim] and [str::chars] that the printers share. *)

From S2P Require Import Prelude Text.

Open Scope nat_scope.

(** ** Trimming *)

Definition begins_solid (s : text) : Prop := ∀ c, head (chars s) = Some c → is_whitespace_char c = false.
Definition ends_solid (s : text) : Prop := ∀ c, last (chars s) = Some c → is_whitespace_char c = false.

Lemma trim_start_solid s : begins_solid s → trim_start s = s.
Proof.
  unfold begins_solid, trim_start. intros Hs. rewrite <- (concat_chars s) at 2. f_equal.
  destruct (chars s) as [|c cs]; [done|]. cbn. by rewrite (Hs c).
Qed.

Lemma trim_end_solid s : ends_solid s → trim_end s = s.
Proof.
  unfold ends_solid, trim_end. intros Hs. rewrite <- (concat_chars s) at 2. f_equal.
  destruct (chars s) as [|c cs _] using rev_ind; [done|].
  rewrite reverse_snoc. cbn [drop_while]. rewrite (Hs c) by apply last_snoc.
  by rewrite reverse_cons, reverse_involutive.
Qed.

Lemma trim_solid s : begins_solid s → ends_solid s → trim s = s.
Proof. intros Hb He. unfold trim. rewrite trim_start_solid by done. by apply trim_end_solid. Qed.

Lemma chars_non_empty s : Forall (λ c, 0 < length c) (chars s).
Proof.
  induction s as [|a s IH]; [constructor|]. cbn [chars].
  destruct (chars s) as [|c cs]; [by repeat constructor|].
  apply Forall_cons in IH as [? IH].
  destruct (any_b is_cont (take 1 c)); repeat constructor; cbn; auto with lia.
Qed.

Lemma drop_while_suffix {A} (p : A → bool) l : drop_while p l `suffix_of` l.
Proof.
  induction l as [|x l IH]; [done|]. cbn. destruct (p x); [|done]. by apply suffix_cons_r.
Qed.

Lemma concat_length_suffix (l l' : list text) :
  l `suffix_of` l' → length (concat l) <= length (concat l').
Proof. intros [k ->]. rewrite concat_app, length_app. lia. Qed.

Lemma concat_length_reverse (l : list text) : length (concat (reverse l)) = length (concat l).
Proof.
  induction l as [|x l IH]; [done|].
  rewrite reverse_cons, concat_app, length_app, IH. cbn. rewrite app_nil_r, length_app. lia.
Qed.

Lemma trim_end_length s : length (trim_end s) <= length s.
Proof.
  unfold trim_end. rewrite concat_length_reverse.
  rewrite <- (concat_chars s) at 2. rewrite <- (concat_length_reverse (chars s)).
  apply concat_length_suffix, drop_while_suffix.
Qed.

Lemma drop_while_length p (l : list text) x l' :
  l = x :: l' → p x = true → 0 < length x → length (concat (drop_while p l)) < length (concat l).
Proof.
  intros -> Hp Hx. cbn. rewrite Hp, length_app.
  pose proof (concat_length_suffix _ _ (drop_while_suffix p l')). lia.
Qed.

(** A text that trimming does not change has no blank at either end. *)
Lemma trim_id_solid s : trim s = s → begins_solid s ∧ ends_solid s.
Proof.
  intros Ht. assert (begins_solid s) as Hb.
  { intros c Hc. destruct (is_whitespace_char c) eqn:Hw; [|done]. exfalso.
    pose proof (chars_non_empty s) as Hne. destruct (chars s) as [|c' cs] eqn:Hs; [done|].
    injection Hc as ->. apply Forall_cons in Hne as [Hne _].
    pose proof (drop_while_length is_whitespace_char (chars s) c cs Hs Hw Hne) as Hlt.
    rewrite concat_chars in Hlt. fold (trim_start s) in Hlt.
    pose proof (trim_end_length (trim_start s)) as Hle. fold (trim s) in Hle.
    rewrite Ht in Hle. lia. }
  split; [done|]. unfold trim in Ht. rewrite (trim_start_solid s Hb) in Ht.
  intros c Hc. destruct (is_whitespace_char c) eqn:Hw; [|done]. exfalso.
  apply last_Some in Hc as [cs Hs]. pose proof (chars_non_empty s) as Hne.
  rewrite Hs in Hne. apply Forall_app in Hne as [_ [Hne _]%Forall_cons].
  assert (reverse (chars s) = c :: reverse cs) as Hr by (rewrite Hs; apply reverse_snoc).
  pose proof (drop_while_length is_whitespace_char _ c (reverse cs) Hr Hw Hne) as Hlt.
  rewrite concat_length_reverse, concat_chars in Hlt. rewrite <- concat_length_reverse in Hlt.
  fold (trim_end s) in Hlt. rewrite Ht in Hlt. lia.
Qed.

(** ** Characters *)

Definition continues (s : text) : bool := match s with a :: _ => is_cont a | [] => false end.

Lemma chars_head s : match chars s with c :: _ => continues c = continues s | [] => s = [] end.
Proof.
  destruct s as [|a s]; [done|]. cbn [chars]. destruct (chars s) as [|c cs]; [done|].
  by destruct (any_b is_cont (take 1 c)).
Qed.

Lemma any_cont_take c : any_b is_cont (take 1 c) = continues c.
Proof. destruct c as [|a c]; [done|]. cbn. apply orb_false_r. Qed.

Lemma chars_cons a s :
  chars (a :: s) =
    match chars s with
    | c :: cs => if continues s then (a :: c) :: cs else [a] :: c :: cs
    | [] => [[a]]
    end.
Proof.
  cbn [chars]. pose proof (chars_head s) as Hh. destruct (chars s) as [|c cs]; [done|].
  by rewrite any_cont_take, Hh.
Qed.

Lemma chars_cons_new a s : continues s = false → chars (a :: s) = [a] :: chars s.
Proof. intros Hc. rewrite chars_cons, Hc. by destruct (chars s). Qed.

Lemma chars_snoc s a : is_cont a = false → chars (s ++ [a]) = chars s ++ [[a]].
Proof.
  intros Ha. induction s as [|x s IH]; [done|]. cbn [app]. rewrite !chars_cons, IH.
  assert (continues (s ++ [a]) = continues s) as -> by (destruct s; [exact Ha|done]).
  pose proof (chars_head s) as Hh. destruct (chars s) as [|c cs].
  - subst. cbn. done.
  - cbn. by destruct (continues s).
Qed.

Lemma find_b_seq (p : nat → bool) a n k :
  a <= k < a + n → p k = true → (∀ i, a <= i < k → p i = false) → find_b p (seq a n) = Some k.
Proof.
  revert a. induction n as [|n IH]; intros a Hk Hp Hn; [lia|]. cbn.
  destruct (decide (a = k)) as [->|Hne]; [by rewrite Hp|].
  rewrite Hn by lia. apply IH; [lia|done|]. intros i Hi. apply Hn. lia.
Qed.

Lemma text_strip_prefix_app p s : text_strip_prefix p (p ++ s) = Some s.
Proof. induction p as [|a p IH]; [done|]. cbn. by rewrite decide_True. Qed.

Lemma text_strip_prefix_None p s : starts_with p s = false → text_strip_prefix p s = None.
Proof.
  revert s. induction p as [|a p IH]; intros [|b s]; cbn; try done.
  intros Hs. case_decide as Hab; [|done]. apply IH. subst.
  by rewrite bool_decide_eq_true_2 in Hs.
Qed.

Lemma drop_while_snoc {A} (p : A → bool) l x : p x = false → drop_while p (l ++ [x]) = drop_while p l ++ [x].
Proof. intros Hx. induction l as [|y l IH]; cbn; [by rewrite Hx|]. by destruct (p y). Qed.

(** A text that starts with a character that is no blank does not vanish. *)
Lemma trim_not_empty s : begins_solid s → s ≠ [] → trim s ≠ [].
Proof.
  intros Hb Hne. unfold trim. rewrite trim_start_solid by done. unfold trim_end.
  pose proof (chars_non_empty s) as Hc. pose proof (chars_head s) as Hh.
  unfold begins_solid in Hb. destruct (chars s) as [|c cs]; [done|].
  apply Forall_cons in Hc as [Hc _].
  rewrite reverse_cons, drop_while_snoc, reverse_snoc by auto. cbn.
  intros [-> _]%app_nil. cbn in Hc. lia.
Qed.

(** The lines of a text of lines without line ends, the last of them not empty. *)
Lemma lines_join ls :
  Forall clean_line ls → last ls ≠ Some [] → lines (join_with [LF] ls) = ls.
Proof.
  unfold lines. induction ls as [|l ls IH]; [done|]. intros [Hl Hls]%Forall_cons Hlast.
  destruct ls as [|l' ls].
  - cbn. destruct l as [|a l]; [done|]. clear IH Hlast.
    assert (split_inclusive (a :: l) = [a :: l]) as ->.
    { destruct Hl as [Hl _]. revert a Hl. induction l as [|b l IHl]; intros a Hl; cbn.
      - rewrite decide_False; [done|set_solver].
      - rewrite decide_False by set_solver. cbn in IHl. rewrite IHl; [done|set_solver]. }
    cbn. f_equal. unfold strip_eol. rewrite strip_last_not_elem; [done|by destruct Hl].
  - change (join_with [LF] (l :: l' :: ls)) with (l ++ [LF] ++ join_with [LF] (l' :: ls)).
    rewrite app_assoc, split_inclusive_app_line by (by destruct Hl). cbn [fmap list_fmap].
    rewrite strip_eol_line by done. f_equal. apply IH; [done|]. by destruct ls.
Qed.

(** Well-formed bytes are read as they are. *)
Lemma from_utf8_lossy_valid s : utf8_valid s = true → from_utf8_lossy s = s.
Proof.
  remember (length s) as n eqn:Hn. revert s Hn. induction (lt_wf n) as [n _ IH]. intros s -> Hv.
  destruct s as [|a s1]; [done|]. cbn in Hv |- *.
  destruct (byte_in 0 127 a); [f_equal; eapply IH; [|reflexivity|exact Hv]; cbn; lia|].
  destruct s1 as [|b s2]; [done|]. destruct (byte_in 194 223 a) eqn:H2.
  { apply andb_prop in Hv as [-> Hv]. do 2 f_equal. eapply IH; [|reflexivity|exact Hv]; cbn; lia. }
  destruct s2 as [|c s3]; [done|]. destruct (byte_in 224 239 a) eqn:H3.
  - apply andb_prop in Hv as [[Hb ->]%andb_prop Hv].
    assert (byte_in 224 244 a && second_ok a b = true) as ->.
    { unfold byte_in, second_ok, byte_in in *. rewrite !andb_true_iff, !N.leb_le in H3.
      apply andb_true_iff. split; [rewrite andb_true_iff, !N.leb_le; lia|].
      destruct (_ && _); [done|]. destruct (_ && _); [done|].
      rewrite (proj2 (N.leb_gt 240 (byte_val a))), (proj2 (N.leb_gt 244 (byte_val a))) by lia. done. }
    do 3 f_equal. eapply IH; [|reflexivity|exact Hv]; cbn; lia.
  - destruct s3 as [|d s4]; [done|].
    apply andb_prop in Hv as [[[[Ha Hb]%andb_prop ->]%andb_prop ->]%andb_prop Hv].
    assert (byte_in 224 244 a && second_ok a b = true) as ->.
    { unfold byte_in, second_ok, byte_in in *. rewrite !andb_true_iff, !N.leb_le in Ha.
      apply andb_true_iff. split; [rewrite andb_true_iff, !N.leb_le; lia|].
      rewrite (proj2 (N.leb_gt (byte_val a) 224)), (proj2 (N.leb_gt (byte_val a) 237)), !andb_false_r by lia.
      done. }
    do 4 f_equal. eapply IH; [|reflexivity|exact Hv]; cbn; lia.
Qed.

Lemma replacement_valid r : utf8_valid (REPLACEMENT_CHARACTER ++ r) = utf8_valid r.
Proof. done. Qed.

(** What is read is well-formed, whatever the bytes. *)
Lemma utf8_lossy_valid s : utf8_valid (from_utf8_lossy s) = true.
Proof.
  remember (length s) as n eqn:Hn. revert s Hn. induction (lt_wf n) as [n _ IH]. intros s ->.
  assert (∀ k, length k < length s → utf8_valid (from_utf8_lossy k) = true) as Hk by eauto. clear IH.
  destruct s as [|a s1]; [done|]. cbn [from_utf8_lossy].
  destruct (byte_in 0 127 a) eqn:H1; [cbn [utf8_valid]; rewrite H1; apply Hk; cbn; lia|].
  destruct s1 as [|b s2]; [done|]. destruct (byte_in 194 223 a) eqn:H2.
  { destruct (is_cont b) eqn:Hb; [|rewrite replacement_valid; apply Hk; cbn; lia].
    cbn [utf8_valid]. rewrite H1, H2, Hb. apply Hk. cbn. lia. }
  destruct (byte_in 224 244 a && second_ok a b) eqn:H3;
    [|rewrite replacement_valid; apply Hk; cbn; lia].
  apply andb_prop in H3 as [H3 Hb]. destruct s2 as [|c s3]; [done|].
  destruct (is_cont c) eqn:Hc; [|rewrite replacement_valid; apply Hk; cbn; lia].
  assert (∀ lo hi, byte_in lo hi a = true ↔ (lo <= byte_val a <= hi)%N) as Hin
    by (intros; unfold byte_in; rewrite andb_true_iff, !N.leb_le; done).
  apply Hin in H3.
  destruct (byte_in 224 239 a) eqn:H4.
  { apply Hin in H4 as H4'. cbn [utf8_valid]. rewrite H1, H2, H4, Hc.
    rewrite (Hk s3) by (cbn; lia). rewrite !andb_true_r. unfold second_ok in Hb.
    destruct (byte_in 224 224 a), (byte_in 237 237 a); try done.
    destruct (byte_in 240 240 a) eqn:Q; [apply Hin in Q; lia|].
    destruct (byte_in 244 244 a) eqn:Q'; [apply Hin in Q'; lia|done]. }
  destruct s3 as [|d s4]; [done|].
  destruct (is_cont d) eqn:Hd; [|rewrite replacement_valid; apply Hk; cbn; lia].
  assert (byte_in 240 244 a = true) as H5.
  { apply Hin. apply not_true_iff_false in H4. rewrite Hin in H4. lia. }
  apply Hin in H5 as H5'. cbn [utf8_valid]. rewrite H1, H2, H4, H5, Hc, Hd.
  rewrite (Hk s4) by (cbn; lia). rewrite !andb_true_r. cbn [andb]. unfold second_ok in Hb.
  destruct (byte_in 224 224 a) eqn:Q; [apply Hin in Q; lia|].
  destruct (byte_in 237 237 a) eqn:Q'; [apply Hin in Q'; lia|done].
Qed.
