(* ===== verification/Utf8.v ===== *)
(** * Well-formed texts

    [str::char_indices], whole characters, induction on a well-formed text character
    by character, and the slices of a text between characters.  Then the pieces of a text
    between the occurrences of another, which [find], [rfind], [match_indices], [replace]
    and [contains] are about. *)

From S2P Require Import Prelude Text TextProps.

Open Scope nat_scope.

(** [char::len_utf8] of the character whose first byte is [a]. *)
Definition char_len (a : ascii) : nat :=
  if byte_in 0 127 a then 1 else if byte_in 0 223 a then 2
  else if byte_in 0 239 a then 3 else 4.

(** [str::char_indices]: the byte offset and the length of every character.
    Characters start at the bytes that are not continuation bytes. *)
Fixpoint char_indices (i : nat) (s : text) : list (nat * nat) :=
  match s with
  | [] => []
  | a :: s' =>
      if is_cont a then char_indices (S i) s' else (i, char_len a) :: char_indices (S i) s'
  end.

(** ** Lemmas on characters *)

Lemma byte_in_true lo hi c : byte_in lo hi c = true ↔ (lo <= byte_val c <= hi)%N.
Proof. unfold byte_in. by rewrite andb_true_iff, !N.leb_le. Qed.

Lemma byte_in_false lo hi c : byte_in lo hi c = false ↔ ¬ (lo <= byte_val c <= hi)%N.
Proof. rewrite <-byte_in_true. by destruct (byte_in lo hi c). Qed.

#[local] Arguments char_len : simpl never.

(** [is_cont] and [char_len] of a leading byte of a known range. *)
Lemma lead_not_cont lo hi a :
  byte_in lo hi a = true → (hi < 128 ∨ 191 < lo)%N → is_cont a = false.
Proof.
  intros H%byte_in_true Hr. change (byte_in 128 191 a = false). apply byte_in_false. lia.
Qed.

Lemma char_len_lead a :
  (byte_in 0 127 a = true → char_len a = 1)
  ∧ (byte_in 194 223 a = true → char_len a = 2)
  ∧ (byte_in 224 239 a = true → char_len a = 3)
  ∧ (byte_in 240 244 a = true → char_len a = 4).
Proof.
  unfold char_len. split_and!; intros H%byte_in_true;
    repeat match goal with
    | |- context [byte_in ?lo ?hi a] =>
        let E := fresh in destruct (byte_in lo hi a) eqn:E;
        [apply byte_in_true in E|apply byte_in_false in E]
    end; lia.
Qed.

(** A second byte that is in a restricted range is a continuation byte. *)
Lemma second_byte_cont (b : ascii) (c1 c2 : bool) lo1 hi1 lo2 hi2 :
  (128 <= lo1)%N → (hi1 <= 191)%N → (128 <= lo2)%N → (hi2 <= 191)%N →
  (if c1 then byte_in lo1 hi1 b else if c2 then byte_in lo2 hi2 b else is_cont b) = true →
  is_cont b = true.
Proof.
  intros. change (byte_in 128 191 b = true). destruct c1; [|destruct c2];
    first [done|apply byte_in_true; match goal with H : byte_in _ _ _ = true |- _ =>
      apply byte_in_true in H; lia end].
Qed.

(** One whole character. *)
Definition is_char (ch : text) : Prop :=
  ∃ a conts, ch = a :: conts ∧ is_cont a = false ∧ Forall (λ c, is_cont c = true) conts
    ∧ length ch = char_len a ∧ length ch <= 4
    ∧ ∀ r, utf8_valid (ch ++ r) = utf8_valid r.

(** A valid text is empty or starts with one whole character. *)
Lemma utf8_valid_char s :
  utf8_valid s = true → s ≠ [] →
  ∃ ch rest, s = ch ++ rest ∧ is_char ch ∧ utf8_valid rest = true.
Proof.
  destruct s as [|a s1]; [done|]. intros Hv _.
  destruct (char_len_lead a) as (L1 & L2 & L3 & L4). simpl in Hv.
  destruct (byte_in 0 127 a) eqn:E1.
  { exists [a], s1. split_and!; [done| |done]. exists a, []. split_and!; simpl; try lia; try done.
    - eapply lead_not_cont; [done|lia].
    - intros r. by rewrite E1. }
  destruct s1 as [|b s2]; [done|]. destruct (byte_in 194 223 a) eqn:E2.
  { apply andb_true_iff in Hv as [Hb Hv].
    exists [a; b], s2. split_and!; [done| |done]. exists a, [b]. split_and!; simpl; try lia; try done.
    - eapply lead_not_cont; [exact E2|lia].
    - by repeat constructor.
    - intros r. by rewrite E1, E2, Hb. }
  destruct s2 as [|c s3]; [done|]. destruct (byte_in 224 239 a) eqn:E3.
  { apply andb_true_iff in Hv as [[Hb Hc]%andb_true_iff Hv].
    exists [a; b; c], s3. split_and!; [done| |done].
    exists a, [b; c]. split_and!; simpl; try lia; try done.
    - eapply lead_not_cont; [exact E3|lia].
    - repeat constructor; [|done]. eapply second_byte_cont, Hb; lia.
    - intros r. by rewrite E1, E2, E3, Hb, Hc. }
  destruct s3 as [|d s4]; [done|].
  apply andb_true_iff in Hv as [[[[E4 Hb]%andb_true_iff Hc]%andb_true_iff Hd]%andb_true_iff Hv].
  exists [a; b; c; d], s4. split_and!; [done| |done].
  exists a, [b; c; d]. split_and!; simpl; try lia; try done.
  - eapply lead_not_cont; [exact E4|lia].
  - repeat constructor; [|done..]. eapply second_byte_cont, Hb; lia.
  - by rewrite L4.
  - intros r. by rewrite E1, E2, E3, E4, Hb, Hc, Hd.
Qed.

(** Induction on a valid text, character by character. *)
Lemma utf8_valid_ind (P : text → Prop) :
  P [] → (∀ ch rest, is_char ch → utf8_valid rest = true → P rest → P (ch ++ rest)) →
  ∀ s, utf8_valid s = true → P s.
Proof.
  intros H0 Hch s. remember (length s) as n eqn:Hn. revert s Hn.
  induction (lt_wf n) as [n _ IH]. intros s -> Hv.
  destruct (decide (s = [])) as [->|Hne]; [done|].
  destruct (utf8_valid_char s Hv Hne) as (ch & rest & -> & Hc & Hr).
  apply Hch; [done..|]. eapply IH; [|done|done].
  destruct Hc as (a & conts & -> & _). rewrite length_app. simpl. lia.
Qed.

Lemma utf8_valid_app s t : utf8_valid s = true → utf8_valid (s ++ t) = utf8_valid t.
Proof.
  intros H. revert H. revert s. apply utf8_valid_ind; [done|].
  intros ch rest Hc _ IH. destruct Hc as (a & conts & -> & _ & _ & _ & _ & Hr).
  by rewrite <-app_assoc, Hr.
Qed.

Lemma char_indices_conts i conts s :
  Forall (λ c, is_cont c = true) conts →
  char_indices i (conts ++ s) = char_indices (i + length conts) s.
Proof.
  intros H. revert i. induction H as [|c conts Hc _ IH]; intros i; simpl.
  - by rewrite Nat.add_0_r.
  - rewrite Hc, IH. f_equal. lia.
Qed.

Lemma char_indices_char i ch s :
  is_char ch →
  char_indices i (ch ++ s) = (i, length ch) :: char_indices (i + length ch) s.
Proof.
  intros (a & conts & -> & Ha & Hcs & Hl & _). simpl. rewrite Ha, char_indices_conts by done.
  f_equal; [simpl in *; congruence|]. f_equal. lia.
Qed.

(** ** Boundaries of valid texts *)

Lemma valid_head s : utf8_valid s = true → continues s = false.
Proof.
  intros Hv. destruct (decide (s = [])) as [->|Hne]; [done|].
  destruct (utf8_valid_char s Hv Hne) as (ch & rest & -> & (a & conts & -> & Ha & _) & _). done.
Qed.

(** A valid text that is cut before a byte that starts a character is valid on
    both sides. *)
Lemma valid_split a b :
  utf8_valid (a ++ b) = true → continues b = false → utf8_valid a = true ∧ utf8_valid b = true.
Proof.
  remember (a ++ b) as s eqn:Hs. intros Hv. revert a b Hs. revert s Hv.
  apply (utf8_valid_ind (λ s, ∀ a b, s = a ++ b → continues b = false →
    utf8_valid a = true ∧ utf8_valid b = true)).
  { intros a b [-> ->]%eq_sym%app_nil. done. }
  intros ch rest Hc Hr IH a b Heq Hb. destruct a as [|x a].
  { cbn in Heq. subst b. split; [done|].
    destruct Hc as (y & conts & -> & _ & _ & _ & _ & Hv). by rewrite Hv. }
  apply eq_sym, app_eq_inv in Heq as [(k & -> & Hk)|(k & Hk & ->)].
  - destruct (IH k b Hk Hb) as [Hkv Hbv]. split; [|done].
    destruct Hc as (y & conts & -> & _ & _ & _ & _ & Hv). by rewrite Hv.
  - destruct Hc as (y & conts & -> & Hy & Hcs & _ & _ & Hv). destruct k as [|z k].
    + rewrite app_nil_r in Hk. rewrite <- Hk. split; [|done].
      rewrite <- (app_nil_r (y :: conts)). by rewrite Hv.
    + exfalso. rewrite <- app_comm_cons in Hk. injection Hk as _ Hk.
      rewrite Hk in Hcs. apply Forall_app in Hcs as [_ [Hz _]%Forall_cons]. cbn in Hb. congruence.
Qed.

Lemma boundary_at a b : continues b = false → is_char_boundary (a ++ b) (length a) = true.
Proof.
  intros Hb. unfold is_char_boundary. destruct b as [|c b].
  - rewrite app_nil_r, lookup_ge_None_2 by lia. by apply Nat.eqb_eq.
  - rewrite list_lookup_middle by done. cbn in Hb. by rewrite Hb.
Qed.

(** The slice between two places that start characters. *)
Lemma slice_middle a b c :
  continues b = false → continues c = false → continues (b ++ c) = false →
  slice (a ++ b ++ c) (length a) (length a + length b) = Some b.
Proof.
  intros _ Hc Hbc. unfold slice. rewrite (proj2 (Nat.leb_le _ _)) by lia.
  rewrite boundary_at by done.
  rewrite app_assoc, <- length_app, boundary_at by done. cbn [andb].
  rewrite length_app, <- app_assoc, drop_app_length. f_equal.
  replace (length a + length b - length a) with (length b) by lia. apply take_app_length.
Qed.

Lemma slice_valid a b c :
  utf8_valid b = true → utf8_valid c = true →
  slice (a ++ b ++ c) (length a) (length a + length b) = Some b.
Proof.
  intros Hb Hc. apply slice_middle; [by apply valid_head..|].
  apply valid_head. by rewrite utf8_valid_app.
Qed.

Lemma valid_app a b : utf8_valid a = true → utf8_valid b = true → utf8_valid (a ++ b) = true.
Proof. intros Ha Hb. by rewrite utf8_valid_app. Qed.

Lemma slice_prefix a b : utf8_valid a = true → utf8_valid b = true → slice (a ++ b) 0 (length a) = Some a.
Proof. intros Ha Hb. by apply (slice_valid [] a b). Qed.

Lemma chars_conts a conts rest :
  Forall (λ c, is_cont c = true) conts → continues rest = false →
  chars (a :: conts ++ rest) = (a :: conts) :: chars rest.
Proof.
  intros Hc Hr. revert a. induction Hc as [|c conts Hc Hcs IH]; intros a.
  - by apply chars_cons_new.
  - rewrite chars_cons. cbn [app]. rewrite IH. cbn [continues]. by rewrite Hc.
Qed.

Lemma chars_char ch rest : is_char ch → utf8_valid rest = true → chars (ch ++ rest) = ch :: chars rest.
Proof. intros (a & conts & -> & _ & Hcs & _) Hr. apply chars_conts; [done|by apply valid_head]. Qed.

Lemma is_char_valid ch : is_char ch → utf8_valid ch = true.
Proof. intros (a & conts & -> & _ & _ & _ & _ & Hv). by rewrite <- (app_nil_r (a :: conts)), Hv. Qed.

Lemma chars_app a b : utf8_valid a = true → utf8_valid b = true → chars (a ++ b) = chars a ++ chars b.
Proof.
  intros Ha Hb. pattern a. revert a Ha. apply utf8_valid_ind; [done|].
  intros ch rest Hc Hr IH. rewrite <- app_assoc, (chars_char ch (rest ++ b)), (chars_char ch rest)
    by (done || by apply valid_app). by rewrite IH.
Qed.

Lemma chars_valid s : utf8_valid s = true → Forall is_char (chars s).
Proof.
  revert s. apply utf8_valid_ind; [constructor|]. intros ch rest Hc Hr IH.
  rewrite chars_char by done. by constructor.
Qed.

Lemma concat_valid cs : Forall is_char cs → utf8_valid (concat cs) = true.
Proof.
  induction 1 as [|c cs Hc _ IH]; [done|]. cbn. apply valid_app; [by apply is_char_valid|done].
Qed.

Lemma chars_concat cs : Forall is_char cs → chars (concat cs) = cs.
Proof.
  induction 1 as [|c cs Hc Hcs IH]; [done|]. cbn [concat]. rewrite chars_char, IH; [done|done|].
  by apply concat_valid.
Qed.

Lemma chars_length_le s : length (chars s) <= length s.
Proof.
  rewrite <- (concat_chars s) at 2. pose proof (chars_non_empty s) as Hn.
  induction Hn as [|c cs Hc _ IH]; [done|]. cbn. rewrite length_app. lia.
Qed.

(** ** Trimming *)

Lemma drop_while_split {A} (p : A → bool) l :
  ∃ k, l = k ++ drop_while p l ∧ ∀ x, head (drop_while p l) = Some x → p x = false.
Proof.
  induction l as [|a l (k & Hk & Hh)]; [by exists []|]. cbn [drop_while].
  destruct (p a) eqn:E; [exists (a :: k); split; [by rewrite Hk at 1|done]|].
  exists []. split; [done|]. by intros x [= <-].
Qed.

(** The blanks around the text between them. *)
Lemma trim_split s :
  utf8_valid s = true →
  ∃ a b, s = a ++ trim s ++ b ∧ utf8_valid (trim s) = true ∧ begins_solid (trim s) ∧ ends_solid (trim s).
Proof.
  intros Hv. pose proof (chars_valid s Hv) as Hc. unfold trim.
  destruct (drop_while_split is_whitespace_char (chars s)) as (k & Hk & Hh).
  set (m := drop_while is_whitespace_char (chars s)) in *.
  assert (Forall is_char m) as Hm by (rewrite Hk in Hc; by apply Forall_app in Hc as [_ ?]).
  assert (trim_start s = concat m) as -> by done. unfold trim_end. rewrite chars_concat by done.
  destruct (drop_while_split is_whitespace_char (reverse m)) as (k' & Hk' & Hh').
  set (n := drop_while is_whitespace_char (reverse m)) in *.
  assert (m = reverse n ++ reverse k') as Hmn by (by rewrite <- reverse_app, <- Hk', reverse_involutive).
  assert (Forall is_char (reverse n)) as Hn by (rewrite Hmn in Hm; by apply Forall_app in Hm as [? _]).
  exists (concat k), (concat (reverse k')). split_and!.
  - by rewrite <- concat_app, <- Hmn, <- concat_app, <- Hk, concat_chars.
  - by apply concat_valid.
  - intros c. rewrite chars_concat by done. intros Hr. apply Hh. rewrite Hmn.
    destruct (reverse n); [done|]. exact Hr.
  - intros c. rewrite chars_concat by done. intros Hr. apply Hh'.
    destruct n as [|x n]; [done|]. rewrite reverse_cons, last_snoc in Hr. done.
Qed.

Lemma trim_valid s : utf8_valid s = true → utf8_valid (trim s) = true.
Proof. intros Hv. by destruct (trim_split s Hv) as (_ & _ & _ & ? & _). Qed.

Lemma trim_idem s : utf8_valid s = true → trim (trim s) = trim s.
Proof. intros Hv. destruct (trim_split s Hv) as (_ & _ & _ & _ & ? & ?). by apply trim_solid. Qed.

Lemma trim_start_valid s : utf8_valid s = true → utf8_valid (trim_start s) = true.
Proof.
  intros Hv. pose proof (chars_valid s Hv) as Hc. unfold trim_start. apply concat_valid.
  destruct (drop_while_split is_whitespace_char (chars s)) as (k & Hk & _).
  rewrite Hk in Hc. by apply Forall_app in Hc as [_ ?].
Qed.

(** Leading blanks do not matter. *)
Lemma trim_blank_start c s :
  is_char c → is_whitespace_char c = true → utf8_valid s = true → trim (c ++ s) = trim s.
Proof. intros Hc Hw Hs. unfold trim, trim_start. rewrite chars_char by done. cbn. by rewrite Hw. Qed.

(** Nor do trailing ones. *)
Lemma trim_blank_end c s :
  is_char c → is_whitespace_char c = true → utf8_valid s = true → begins_solid s → s ≠ [] →
  trim (s ++ c) = trim s.
Proof.
  intros Hc Hw Hs Hb Hne. assert (chars (s ++ c) = chars s ++ [c]) as Hch.
  { rewrite chars_app by (done || by apply is_char_valid). f_equal.
    pose proof (chars_char c [] Hc eq_refl) as Hcc. by rewrite app_nil_r in Hcc. }
  unfold trim. rewrite !trim_start_solid; [|done|].
  - unfold trim_end. by rewrite Hch, reverse_snoc; cbn [drop_while]; rewrite Hw.
  - intros x. rewrite Hch. destruct (chars s) as [|y ys] eqn:Hy.
    + pose proof (concat_chars s) as Hcs. rewrite Hy in Hcs. by destruct Hne.
    + intros Hx. apply Hb. by rewrite Hy.
Qed.

(** ** Slices of a well-formed text *)

Lemma slice_suffix a b : utf8_valid b = true → slice (a ++ b) (length a) (length (a ++ b)) = Some b.
Proof.
  intros Hb. pose proof (slice_valid a b [] Hb eq_refl) as Hs. by rewrite app_nil_r, <- length_app in Hs.
Qed.

(** ** Occurrences *)

(** The pieces of a text between the occurrences of [old] that do not overlap, from
    the left. *)
Inductive pieces (old : text) : text → list text → Prop :=
| pieces_last p : contains p old = false → pieces old p [p]
| pieces_step p s ps :
    find_text old (p ++ old) = Some (length p) → pieces old s ps → pieces old (p ++ old ++ s) (p :: ps).

Lemma pieces_join old t ps : pieces old t ps → ps ≠ [] ∧ join_with old ps = t.
Proof.
  induction 1 as [p|p s ps _ Hp [Hne IH]]; [done|]. split; [done|].
  destruct ps as [|q ps]; [done|]. cbn [join_with] in *. by rewrite IH.
Qed.

Lemma find_text_Some old s k :
  find_text old s = Some k →
  k <= length s ∧ starts_with old (drop k s) = true ∧ ∀ j, j < k → starts_with old (drop j s) = false.
Proof.
  revert k. induction s as [|a s IH]; intros k; cbn [find_text].
  - destruct (starts_with old []) eqn:E; [|done]. intros [= <-]. split_and!; [lia|done|lia].
  - destruct (starts_with old (a :: s)) eqn:E; [intros [= <-]; split_and!; [lia|done|lia]|].
    destruct (find_text old s) as [k'|] eqn:Hf; [|done]. intros [= <-].
    destruct (IH k' eq_refl) as (Hl & Hs & Hn). cbn. split_and!; [lia|done|].
    intros [|j] Hj; [done|]. apply Hn. lia.
Qed.

Lemma find_text_None old s : find_text old s = None → contains s old = false.
Proof.
  induction s as [|a s IH]; cbn [find_text contains]; destruct (starts_with old _) eqn:E; try done.
  destruct (find_text old s); [done|]. intros _. by apply IH.
Qed.

Lemma match_from_skip old k i s :
  match_indices_from old k i s = match_indices_from old 0 (i + k) (drop k s).
Proof.
  revert i s. induction k as [|k IH]; intros i s; [by rewrite Nat.add_0_r, drop_0|].
  destruct s as [|a s]; [done|]. cbn [match_indices_from drop]. rewrite IH. f_equal. lia.
Qed.

Lemma match_from_none old i s :
  contains s old = false → match_indices_from old 0 i s = [].
Proof.
  revert i. induction s as [|a s IH]; intros i; [done|]. cbn [contains match_indices_from].
  destruct (starts_with old (a :: s)); [done|]. apply IH.
Qed.

Lemma match_from_scan old p s i :
  (∀ j, j < length p → starts_with old (drop j (p ++ s)) = false) →
  match_indices_from old 0 i (p ++ s) = match_indices_from old 0 (i + length p) s.
Proof.
  revert i. induction p as [|a p IH]; intros i Hn; [cbn; by rewrite Nat.add_0_r|].
  cbn [app match_indices_from].
  assert (starts_with old (a :: p ++ s) = false) as -> by (apply (Hn 0); cbn; lia). rewrite IH.
  - f_equal. cbn. lia.
  - intros j Hj. apply (Hn (S j)). cbn. lia.
Qed.

Lemma starts_with_prefix old s : starts_with old (old ++ s) = true.
Proof. apply starts_with_app. by exists s. Qed.

(** An occurrence that starts before the first one in [p ++ old] does not start in a
    longer text either. *)
Lemma first_occurrence old p s :
  find_text old (p ++ old) = Some (length p) →
  ∀ j, j < length p → starts_with old (drop j (p ++ old ++ s)) = false.
Proof.
  intros (_ & _ & Hn)%find_text_Some j Hj. destruct (starts_with old (drop j (p ++ old ++ s))) eqn:E; [|done].
  exfalso. specialize (Hn j Hj). apply starts_with_app in E as [r Hr].
  assert (drop j (p ++ old) = old ++ take (length p - j) r) as Hd.
  { apply (f_equal (take (length p + length old - j))) in Hr.
    rewrite app_assoc, drop_app_le in Hr by (rewrite length_app; lia).
    rewrite take_app_length' in Hr by (rewrite length_drop, length_app; lia).
    rewrite Hr, take_app_ge by lia. do 2 f_equal. lia. }
  rewrite Hd, starts_with_prefix in Hn. done.
Qed.

Lemma match_from_step old p s i :
  old ≠ [] → find_text old (p ++ old) = Some (length p) →
  match_indices_from old 0 i (p ++ old ++ s)
  = (i + length p) :: match_indices_from old 0 (i + length p + length old) s.
Proof.
  intros Hne Hf. rewrite match_from_scan by (by apply first_occurrence).
  destruct old as [|a old]; [done|]. cbn [app match_indices_from].
  rewrite (app_comm_cons old s a), starts_with_prefix, match_from_skip.
  cbn [length]. rewrite Nat.sub_succ, Nat.sub_0_r, drop_app_length. do 2 f_equal. lia.
Qed.

Lemma find_text_intro old s k :
  k <= length s → starts_with old (drop k s) = true →
  (∀ j, j < k → starts_with old (drop j s) = false) → find_text old s = Some k.
Proof.
  revert k. induction s as [|a s IH]; intros k Hk Hs Hn.
  - cbn in Hk. assert (k = 0) as -> by lia. cbn [find_text]. rewrite drop_0 in Hs. by rewrite Hs.
  - cbn [find_text]. destruct k as [|k]; [rewrite drop_0 in Hs; by rewrite Hs|].
    assert (starts_with old (a :: s) = false) as -> by (apply (Hn 0); lia).
    rewrite (IH k); [done|cbn in Hk; lia|done|]. intros j Hj. apply (Hn (S j)). lia.
Qed.

Lemma first_occurrence_intro old p s :
  (∀ j, j < length p → starts_with old (drop j (p ++ old ++ s)) = false) →
  find_text old (p ++ old) = Some (length p).
Proof.
  intros Hn. apply find_text_intro.
  - rewrite length_app. lia.
  - rewrite drop_app_length. apply starts_with_app. exists []. by rewrite app_nil_r.
  - intros j Hj. specialize (Hn j Hj). destruct (starts_with old (drop j (p ++ old))) eqn:E; [|done].
    apply starts_with_app in E as [r Hr].
    rewrite app_assoc, drop_app_le, Hr, <- app_assoc, starts_with_prefix in Hn
      by (rewrite length_app; lia). done.
Qed.

(** Every text has its pieces. *)
Lemma pieces_exist old t : old ≠ [] → ∃ ps, pieces old t ps.
Proof.
  intros Hne. remember (length t) as n eqn:Hn. revert t Hn.
  induction (lt_wf n) as [n _ IH]. intros t ->.
  destruct (find_text old t) as [k|] eqn:Hf; [|exists [t]; constructor; by apply find_text_None].
  apply find_text_Some in Hf as (Hk & Hs & Hno). apply starts_with_app in Hs as [r Hr].
  assert (∃ p, t = p ++ old ++ r ∧ length p = k) as (p & -> & <-).
  { exists (take k t). rewrite <- Hr, take_drop, length_take. split; [done|lia]. }
  destruct (IH (length r)) with (t := r) as [ps Hps]; [|done|].
  { rewrite !length_app. destruct old; [done|]. cbn. lia. }
  exists (p :: ps). constructor; [|done]. by apply (first_occurrence_intro old p r).
Qed.

Lemma match_indices_nil old s : old ≠ [] → match_indices old s = [] ↔ contains s old = false.
Proof.
  intros Hne. unfold match_indices. generalize 0 at 2 as i.
  induction s as [|a s IH]; intros i; [by destruct old|].
  cbn [match_indices_from contains]. destruct (starts_with old (a :: s)); [naive_solver|].
  apply IH.
Qed.

(** ** Well-formed pieces *)

(** A valid text around an occurrence of a valid text. *)
Lemma valid_around p old s :
  old ≠ [] → utf8_valid old = true → utf8_valid (p ++ old ++ s) = true →
  utf8_valid p = true ∧ utf8_valid s = true.
Proof.
  intros Hne Ho Hv. destruct (valid_split p (old ++ s)) as [Hp Hos]; [done| |].
  - apply valid_head in Ho. by destruct old.
  - split; [done|]. by rewrite utf8_valid_app in Hos.
Qed.

Lemma pieces_valid old t ps :
  old ≠ [] → utf8_valid old = true → utf8_valid t = true → pieces old t ps →
  Forall (λ p, utf8_valid p = true) ps.
Proof.
  intros Hne Ho Hv Hp. revert Hv. induction Hp as [p Hc|p s ps Hf _ IH]; intros Hv; [by constructor|].
  apply valid_around in Hv as [? ?]; [|done..]. constructor; auto.
Qed.

Lemma join_cons sep p ps : ps ≠ [] → join_with sep (p :: ps) = p ++ sep ++ join_with sep ps.
Proof. by destruct ps. Qed.

Lemma join_valid sep ps :
  utf8_valid sep = true → Forall (λ p, utf8_valid p = true) ps → utf8_valid (join_with sep ps) = true.
Proof.
  intros Hs. induction 1 as [|p ps Hp Hps IH]; [done|]. destruct ps as [|q ps]; [done|].
  rewrite join_cons by done. by repeat apply valid_app.
Qed.

(** ** [contains] *)

Lemma contains_false s n : contains s n = false ↔ ∀ a b, s ≠ a ++ n ++ b.
Proof.
  split.
  - intros Hc a b ->. assert (contains (a ++ n ++ b) n = true) by (apply contains_spec; eauto). congruence.
  - intros Hn. destruct (contains s n) eqn:E; [|done].
    apply contains_spec in E as (a & b & ->). by destruct (Hn a b).
Qed.

Lemma contains_infix a s b n : contains (a ++ s ++ b) n = false → contains s n = false.
Proof.
  rewrite !contains_false. intros Hn x y ->. apply (Hn (a ++ x) (y ++ b)). by rewrite <- !app_assoc.
Qed.

(** A place that an occurrence does not cover cuts the search in two. *)
Lemma contains_cut p q n :
  n ≠ [] → (∀ x y, n = x ++ y → x ≠ [] → y ≠ [] → ¬ (x `suffix_of` p ∧ y `prefix_of` q)) →
  contains (p ++ q) n = contains p n || contains q n.
Proof.
  intros Hne Hcut. apply eq_true_iff_eq. rewrite orb_true_iff, !contains_spec. split.
  - intros (a & b & Heq). apply app_eq_inv in Heq as [(k & -> & Hk)|(k & -> & ->)].
    + apply app_eq_inv in Hk as [(k' & Hn & ->)|(k' & -> & ->)].
      * destruct (decide (k = [])) as [->|Hk]; [right; exists [], b; by rewrite Hn|].
        destruct (decide (k' = [])) as [->|Hk'].
        { left. exists a, []. by rewrite Hn, !app_nil_r. }
        exfalso. apply (Hcut k k' Hn Hk Hk'). split; [by exists a|by exists b].
      * left. by exists a, k'.
    + right. by exists k, b.
  - intros [(a & b & ->)|(a & b & ->)].
    + exists a, (b ++ q). by rewrite <- !app_assoc.
    + exists (p ++ a), b. by rewrite <- !app_assoc.
Qed.

(** ** [replace] and [rfind] *)

Lemma replace_from_skip old new k s : replace_from old new k s = replace_from old new 0 (drop k s).
Proof. revert s. induction k as [|k IH]; intros s; [by rewrite drop_0|]. by destruct s as [|c s]; [|apply IH]. Qed.

Lemma replace_from_scan old new p s :
  (∀ j, j < length p → starts_with old (drop j (p ++ s)) = false) →
  replace_from old new 0 (p ++ s) = p ++ replace_from old new 0 s.
Proof.
  induction p as [|a p IH]; intros Hn; [done|]. cbn [app replace_from].
  assert (starts_with old (a :: p ++ s) = false) as -> by (apply (Hn 0); cbn; lia).
  f_equal. apply IH. intros j Hj. apply (Hn (S j)). cbn. lia.
Qed.

(** [replace] joins the pieces with the new text. *)
Lemma replace_all_pieces old new s ps :
  old ≠ [] → pieces old s ps → replace_all old new s = join_with new ps.
Proof.
  intros Hne. unfold replace_all. induction 1 as [p Hc|p s ps Hf Hp IH].
  - rewrite <- (app_nil_r p). rewrite replace_from_scan; [by rewrite !app_nil_r|]. intros j Hj.
    rewrite app_nil_r. destruct (starts_with old (drop j p)) eqn:E; [|done]. exfalso.
    apply starts_with_app in E as [r Hr]. rewrite contains_false in Hc. apply (Hc (take j p) r).
    by rewrite <- Hr, take_drop.
  - rewrite replace_from_scan by (by apply first_occurrence). destruct old as [|a old]; [done|].
    cbn [app replace_from]. rewrite (app_comm_cons old s a), starts_with_prefix, replace_from_skip.
    cbn [length]. rewrite Nat.sub_succ, Nat.sub_0_r, drop_app_length, IH.
    apply pieces_join in Hp as [Hps _]. by rewrite join_cons.
Qed.

Lemma replace_all_valid old new s :
  old ≠ [] → utf8_valid old = true → utf8_valid new = true → utf8_valid s = true →
  utf8_valid (replace_all old new s) = true.
Proof.
  intros Hne Ho Hn Hs. destruct (pieces_exist old s Hne) as [ps Hps].
  rewrite (replace_all_pieces _ _ _ _ Hne Hps). apply join_valid; [done|]. by eapply pieces_valid.
Qed.

(** No piece holds an occurrence. *)
Lemma pieces_free old s ps : old ≠ [] → pieces old s ps → Forall (λ p, contains p old = false) ps.
Proof.
  intros Hne. induction 1 as [p Hc|p s ps Hf Hp IH]; [by constructor|]. constructor; [|done].
  apply contains_false. intros a b ->. apply find_text_Some in Hf as (_ & _ & Hn).
  specialize (Hn (length a)). rewrite <- !app_assoc, drop_app_length, starts_with_prefix in Hn.
  discriminate Hn. rewrite !length_app. destruct old; [done|]. cbn. lia.
Qed.

(** A text that is absent before is absent from every piece. *)
Lemma pieces_absent old s ps n :
  pieces old s ps → contains s n = false → Forall (λ p, contains p n = false) ps.
Proof.
  induction 1 as [p Hc|p s ps Hf Hp IH]; intros Hs; [by constructor|]. constructor.
  - apply (contains_infix [] p (old ++ s)). done.
  - apply IH. apply (contains_infix (p ++ old) s []). by rewrite app_nil_r, <- app_assoc.
Qed.

Lemma rfind_text_Some needle s k :
  rfind_text needle s = Some k → ∃ a b, s = a ++ needle ++ b ∧ length a = k.
Proof.
  revert k. induction s as [|c s IH]; intros k; cbn [rfind_text].
  - destruct (starts_with needle []) eqn:E; [|done]. intros [= <-]. apply starts_with_app in E as [r Hr].
    exists [], r. done.
  - destruct (rfind_text needle s) as [i|].
    + intros [= <-]. destruct (IH i eq_refl) as (a & b & -> & <-). by exists (c :: a), b.
    + destruct (starts_with needle (c :: s)) eqn:E; [|done]. intros [= <-].
      apply starts_with_app in E as [r Hr]. exists [], r. done.
Qed.

Lemma find_text_split needle s k :
  find_text needle s = Some k → ∃ a b, s = a ++ needle ++ b ∧ length a = k.
Proof.
  intros (Hk & Hs & _)%find_text_Some. apply starts_with_app in Hs as [b Hb].
  exists (take k s), b. rewrite <- Hb, take_drop, length_take. split; [done|lia].
Qed.

(** What the first occurrence leaves in front of it. *)
Lemma find_text_before needle s k :
  needle ≠ [] → find_text needle s = Some k →
  ∃ a b, s = a ++ needle ++ b ∧ length a = k ∧ contains a needle = false.
Proof.
  intros Hne Hf. pose proof Hf as (_ & _ & Hn)%find_text_Some.
  destruct (find_text_split _ _ _ Hf) as (a & b & -> & Hk). exists a, b. split_and!; [done..|].
  apply contains_false. intros x y ->. specialize (Hn (length x)).
  rewrite <- !app_assoc, drop_app_length, starts_with_prefix in Hn. rewrite !length_app in Hk.
  destruct needle; [done|]. cbn in Hk. specialize (Hn ltac:(lia)). done.
Qed.

Lemma find_text_first needle s k :
  find_text needle s = Some k → contains (take (k + length needle - 1) s) needle = false ∨ needle = [].
Proof.
  intros (Hk & Hs & Hn)%find_text_Some. destruct (decide (needle = [])) as [->|Hne]; [by right|]. left.
  apply contains_false. intros a b Heq.
  assert (length a < k) as Hlt.
  { apply (f_equal length) in Heq. rewrite length_take, !length_app in Heq. destruct needle; [done|]. cbn in *. lia. }
  specialize (Hn _ Hlt). rewrite <- (take_drop (k + length needle - 1) s), Heq, <- !app_assoc in Hn.
  by rewrite drop_app_length, starts_with_prefix in Hn.
Qed.
