(* ===== verification/Truncate.v ===== *)
(** * Truncation of tool output

    [ds-tools/src/util/truncate.rs]: cuts of a text to a number of bytes, characters or
    lines, and the wrapping of long lines.  A panic is [None]: a slice that is not cut
    between characters, a division by zero.  Theorems: cuts fall between characters and
    keep their limits, wrapping loses nothing. *)

From S2P Require Import Prelude Text TextProps Utf8.

Open Scope nat_scope.

Definition PREVIEW_SIZE : nat := Z.to_nat 2000.
Definition DEFAULT_SOFT_WRAP_WIDTH : nat := Z.to_nat 2000.
Definition TRUNCATION_MARKER : text := [ascii_of_nat 226; ascii_of_nat 128; ascii_of_nat 166].

(** [s.char_indices().nth(n).map(|(i, _)| i)]. *)
Definition nth_char (s : text) (n : nat) : option nat := fst <$> char_indices 0 s !! n.

Definition truncate_line (line : text) (max_chars : nat) : option text :=
  if length line <=? max_chars then Some line
  else
    let char_count := length (chars line) in
    if char_count <=? max_chars then Some line
    else
      let end_byte := default (length line) (nth_char line max_chars) in
      kept ← slice line 0 end_byte;
      Some (kept ++ txt " [... truncated (" ++ show_Z (Z.of_nat char_count) ++ txt " chars total)]").

(** The loop with the text so far and the characters on the current line. *)
Fixpoint wrap_loop (wrap_width : nat) (cs : list text) (result : text) (on_line : nat) : text :=
  match cs with
  | [] => result
  | ch :: cs' =>
      if wrap_width <=? on_line then wrap_loop wrap_width cs' (result ++ [LF] ++ ch) 1
      else wrap_loop wrap_width cs' (result ++ ch) (S on_line)
  end.

Definition soft_wrap_line (line : text) (wrap_width : nat) : option text :=
  if length line <=? wrap_width then Some line
  else
    let char_count := length (chars line) in
    if char_count <=? wrap_width then Some line
    else if wrap_width =? 0 then None
    else Some (wrap_loop wrap_width (chars line) [] 0).

(** [while !s.is_char_boundary(end) { end -= 1 }]: the least value of [end] is zero,
    which is a boundary. *)
Definition truncate_str (s : text) (max_bytes : nat) : option text :=
  if length s <=? max_bytes then Some s else slice s 0 (floor_boundary s max_bytes).

Definition truncate_with_preview (output : text) (max_bytes preview_bytes : nat)
    (footer_hint : option text) : option (text * bool) :=
  if length output <=? max_bytes then Some (output, false)
  else
    preview ← truncate_str output (Nat.min preview_bytes (length output));
    let total := show_Z (Z.of_nat (length output)) in
    let footer :=
      match footer_hint with
      | Some hint => txt "[Output truncated - " ++ total ++ txt " bytes total. " ++ hint ++ txt "]"
      | None => txt "[Output truncated - " ++ total ++ txt " bytes total]"
      end in
    Some (preview ++ [LF; LF] ++ footer, true).

Definition truncate_str_with_marker (s : text) (max_bytes : nat) : option text :=
  if length s <=? max_bytes then Some s
  else if max_bytes <? length TRUNCATION_MARKER then truncate_str s max_bytes
  else
    kept ← slice s 0 (floor_boundary s (max_bytes - length TRUNCATION_MARKER));
    Some (kept ++ TRUNCATION_MARKER).

Definition floor_char_boundary (s : text) (index : nat) : nat :=
  if length s <=? index then length s else floor_boundary s index.

(** The steps up from [i], at most [n] of them. *)
Fixpoint ceil_from (s : text) (n i : nat) : nat :=
  match n with
  | 0 => i
  | S n => if (i <? length s) && negb (is_char_boundary s i) then ceil_from s n (S i) else i
  end.

Definition ceil_char_boundary (s : text) (index : nat) : nat :=
  if length s <=? index then length s else ceil_from s (length s - index) index.

Definition soft_wrap_lines (t : text) (wrap_width : nat) : option text :=
  ls ← mapM (λ line, soft_wrap_line line wrap_width) (lines t);
  let result := join_with [LF] ls in
  Some (if ends_with LF t && negb (bool_decide (t = [])) then result ++ [LF] else result).

Definition ELLIPSIS : text := [LF; LF] ++ txt "... (output truncated) ..." ++ [LF; LF].

Definition truncate_front_and_back (s : text) (max_chars : nat) : option (text * bool) :=
  if length s <=? max_chars then Some (s, false)
  else
    let half := max_chars / 2 in
    let front_end := default (length s) (nth_char s half) in
    let back_start :=
      let total_chars := length (chars s) in
      if total_chars <=? half then 0 else default 0 (nth_char s (total_chars - half)) in
    front ← slice s 0 front_end;
    back ← slice s back_start (length s);
    Some (front ++ ELLIPSIS ++ back, true).

Definition MARKER : text := txt "...".

Definition truncate_middle (s : text) (max_chars : nat) : option text :=
  let char_count := length (chars s) in
  if char_count <=? max_chars then Some s
  else
    let remaining := max_chars - length MARKER in
    let front_count := remaining / 2 in
    let back_count := remaining - front_count in
    let front_end := default (length s) (nth_char s front_count) in
    let back_start :=
      if char_count <=? back_count then 0 else default 0 (nth_char s (char_count - back_count)) in
    front ← slice s 0 front_end;
    back ← slice s back_start (length s);
    Some (front ++ MARKER ++ back).

(** [str::rfind] of a byte. *)
Fixpoint rfind (c : ascii) (s : text) : option nat :=
  match s with
  | [] => None
  | a :: s' =>
      match rfind c s' with
      | Some i => Some (S i)
      | None => if decide (a = c) then Some 0 else None
      end
  end.

Definition truncate_lines_to_char_budget (content : text) (budget : nat) : option (text * bool) :=
  let trimmed := trim content in
  if length trimmed <=? budget then Some (trimmed, false)
  else
    let byte_end := Nat.min budget (length trimmed) in
    let safe_end := floor_boundary trimmed byte_end in
    truncated ← slice trimmed 0 safe_end;
    match rfind LF truncated with
    | Some idx => kept ← slice trimmed 0 idx; Some (trim kept, true)
    | None => Some (txt "... [First line would be too large to fit within character budget] ...", true)
    end.

(** ** Cuts at a number of bytes *)

Lemma boundary_split s k :
  utf8_valid s = true → is_char_boundary s k = true →
  ∃ p r, s = p ++ r ∧ length p = k ∧ utf8_valid p = true ∧ utf8_valid r = true.
Proof.
  intros Hv Hb. exists (take k s), (drop k s). rewrite take_drop. unfold is_char_boundary in Hb.
  assert (k <= length s ∧ continues (drop k s) = false) as [Hk Hc].
  { destruct (s !! k) as [c|] eqn:Hl.
    - pose proof (lookup_lt_Some _ _ _ Hl). split; [lia|]. rewrite (drop_S _ _ _ Hl).
      cbn. by destruct (is_cont c).
    - breflect. split; [lia|]. by rewrite drop_ge by lia. }
  rewrite length_take, Nat.min_l by done. split_and!; [done..| |];
    rewrite <- (take_drop k s) in Hv; by apply valid_split in Hv as [??].
Qed.

Lemma floor_boundary_le s k : floor_boundary s k <= k.
Proof. induction k as [|k IH]; [done|]. cbn [floor_boundary]. case_match; lia. Qed.

Lemma floor_boundary_max s k j :
  j <= k → is_char_boundary s j = true → j <= floor_boundary s k.
Proof.
  induction k as [|k IH]; intros Hj Hb; [lia|]. cbn [floor_boundary].
  destruct (is_char_boundary s (S k)) eqn:E; [lia|].
  apply IH; [|done]. destruct (decide (j = S k)) as [->|]; [congruence|lia].
Qed.

Lemma floor_boundary_ok s k : continues s = false → is_char_boundary s (floor_boundary s k) = true.
Proof.
  intros Hv. induction k as [|k IH]; cbn [floor_boundary].
  - by apply (boundary_at [] s).
  - by destruct (is_char_boundary s (S k)) eqn:E.
Qed.

(** The cut at most [k] bytes into the text: the longest one between characters, which
    leaves fewer than four of the bytes unused. *)
Lemma floor_split s k :
  utf8_valid s = true →
  ∃ p r, s = p ++ r ∧ floor_boundary s k = length p ∧ slice s 0 (floor_boundary s k) = Some p
    ∧ utf8_valid p = true ∧ utf8_valid r = true ∧ length p <= k ∧ (r = [] ∨ k < length p + 4).
Proof.
  intros Hv. pose proof (floor_boundary_ok s k (valid_head s Hv)) as Hb.
  destruct (boundary_split s _ Hv Hb) as (p & r & -> & Hl & Hp & Hr).
  pose proof (floor_boundary_le (p ++ r) k). exists p, r.
  split_and!; [done|done| |done..|lia|].
  - rewrite <- Hl. by apply slice_prefix.
  - destruct (decide (r = [])) as [->|Hne]; [by left|]. right.
    destruct (utf8_valid_char r Hr Hne) as (ch & r' & -> & Hc & Hr').
    destruct (decide (k < length p + 4)) as [|Hge]; [done|]. exfalso.
    assert (length (p ++ ch) <= floor_boundary (p ++ ch ++ r') k) as Hmax.
    { apply floor_boundary_max.
      - destruct Hc as (a & conts & -> & _ & _ & _ & Hlen & _). rewrite length_app. lia.
      - rewrite app_assoc. by apply boundary_at, valid_head. }
    destruct Hc as (a & conts & -> & _). rewrite <- Hl, length_app in Hmax. cbn in Hmax. lia.
Qed.

(** ** Cuts at a number of characters *)

Lemma char_indices_nth s :
  utf8_valid s = true → ∀ i n,
  (fst <$> char_indices i s !! n)
  = if n <? length (chars s) then Some (i + length (concat (take n (chars s)))) else None.
Proof.
  intros Hv. pattern s. revert s Hv. apply utf8_valid_ind; [by intros i []|].
  intros ch rest Hc Hr IH i n. rewrite chars_char, char_indices_char by done.
  destruct n as [|n]; [cbn; f_equal; lia|]. cbn [lookup list_lookup length take concat].
  change (list_lookup n ?l) with (l !! n). rewrite IH. cbn [Nat.ltb].
  change (S n <? S ?m) with (n <? m). destruct (n <? _); [|done]. f_equal. rewrite length_app. lia.
Qed.

Lemma nth_char_eq s n :
  utf8_valid s = true →
  nth_char s n = if n <? length (chars s) then Some (length (concat (take n (chars s)))) else None.
Proof. intros Hv. unfold nth_char. by rewrite char_indices_nth. Qed.

(** The first [n] characters and the others. *)
Definition first_chars (n : nat) (s : text) : text := concat (take n (chars s)).
Definition other_chars (n : nat) (s : text) : text := concat (drop n (chars s)).

Lemma chars_split n s : first_chars n s ++ other_chars n s = s.
Proof. unfold first_chars, other_chars. by rewrite <- concat_app, take_drop, concat_chars. Qed.

Lemma split_valid n s :
  utf8_valid s = true → utf8_valid (first_chars n s) = true ∧ utf8_valid (other_chars n s) = true.
Proof.
  intros Hv. apply chars_valid in Hv. rewrite <- (take_drop n) in Hv. apply Forall_app in Hv as [H1 H2].
  split; by apply concat_valid.
Qed.

Lemma first_chars_count n s :
  utf8_valid s = true → length (chars (first_chars n s)) = Nat.min n (length (chars s)).
Proof.
  intros Hv. unfold first_chars. rewrite chars_concat, length_take; [done|].
  by apply Forall_take, chars_valid.
Qed.

Lemma other_chars_count n s :
  utf8_valid s = true → length (chars (other_chars n s)) = length (chars s) - n.
Proof.
  intros Hv. unfold other_chars. rewrite chars_concat, length_drop; [done|].
  by apply Forall_drop, chars_valid.
Qed.

Lemma slice_first n s :
  utf8_valid s = true → slice s 0 (default (length s) (nth_char s n)) = Some (first_chars n s).
Proof.
  intros Hv. destruct (split_valid n s Hv) as [H1 H2].
  assert (default (length s) (nth_char s n) = length (first_chars n s)) as ->.
  { rewrite nth_char_eq by done. destruct (n <? length (chars s)) eqn:E; [done|]. breflect. cbn.
    unfold first_chars. by rewrite take_ge, concat_chars by lia. }
  rewrite <- (chars_split n s) at 1. by apply slice_prefix.
Qed.

Lemma slice_last n s :
  utf8_valid s = true → 0 < n →
  slice s (if length (chars s) <=? n then 0 else default 0 (nth_char s (length (chars s) - n)))
    (length s) = Some (other_chars (length (chars s) - n) s).
Proof.
  intros Hv Hn. set (k := length (chars s) - n). destruct (split_valid k s Hv) as [H1 H2].
  assert ((if length (chars s) <=? n then 0 else default 0 (nth_char s k)) = length (first_chars k s)) as ->.
  { destruct (length (chars s) <=? n) eqn:E; breflect; [by replace k with 0 by lia|].
    rewrite nth_char_eq by done. rewrite (proj2 (Nat.ltb_lt _ _)) by lia. done. }
  pose proof (slice_valid (first_chars k s) (other_chars k s) [] H2 eq_refl) as Hs.
  rewrite app_nil_r, <- length_app, chars_split in Hs. done.
Qed.

(** With no character to keep, the back is the whole text. *)
Lemma slice_last_none s :
  utf8_valid s = true →
  slice s (if length (chars s) <=? 0 then 0 else default 0 (nth_char s (length (chars s) - 0)))
    (length s) = Some s.
Proof.
  intros Hv. assert ((if length (chars s) <=? 0 then 0
    else default 0 (nth_char s (length (chars s) - 0))) = 0) as ->.
  { destruct (_ <=? _); [done|]. rewrite nth_char_eq by done. by rewrite (proj2 (Nat.ltb_ge _ _)) by lia. }
  pose proof (slice_prefix s [] Hv eq_refl) as Hs. by rewrite app_nil_r in Hs.
Qed.

(** ** Limits *)

Lemma truncate_str_cut s n :
  utf8_valid s = true →
  ∃ p r, s = p ++ r ∧ truncate_str s n = Some p ∧ utf8_valid p = true ∧ length p <= n
    ∧ (length s <= n → r = []) ∧ (r = [] ∨ n < length p + 4).
Proof.
  intros Hv. unfold truncate_str. destruct (length s <=? n) eqn:E; breflect.
  - exists s, []. rewrite app_nil_r. split_and!; [done..|by left].
  - destruct (floor_split s n Hv) as (p & r & -> & _ & -> & Hp & _ & Hl & Hr).
    exists p, r. split_and!; [done..|lia|done].
Qed.

Lemma floor_slice s k : continues s = false → is_Some (slice s 0 (floor_boundary s k)).
Proof.
  intros Hc. unfold slice. rewrite floor_boundary_ok by done.
  pose proof (boundary_at [] s Hc) as Hz. cbn [app length] in Hz. rewrite Hz. by eexists.
Qed.

(** A cut does not panic when the text starts with a character. *)
Lemma marker_total s n : continues s = false → is_Some (truncate_str_with_marker s n).
Proof.
  intros Hc. unfold truncate_str_with_marker, truncate_str. destruct (_ <=? _); [by eexists|].
  destruct (_ <? _); [by apply floor_slice|].
  destruct (floor_slice s (n - length TRUNCATION_MARKER) Hc) as [p ->]. by eexists.
Qed.

(** [p] is the longest part of whole characters at the start of [s] with at most [n] bytes. *)
Definition longest_cut (s : text) (n : nat) (p : text) : Prop :=
  (∃ r, s = p ++ r) ∧ utf8_valid p = true ∧ length p <= n
  ∧ ∀ q r, s = q ++ r → utf8_valid q = true → length q <= n → length q <= length p.

Lemma longest_cut_whole s n : utf8_valid s = true → length s <= n → longest_cut s n s.
Proof.
  intros Hv Hl. split_and!; [by exists []; rewrite app_nil_r|done..|]. intros q r -> _ _. rewrite length_app. lia.
Qed.

Lemma floor_longest s n :
  utf8_valid s = true → ∃ p, slice s 0 (floor_boundary s n) = Some p ∧ longest_cut s n p.
Proof.
  intros Hv. destruct (floor_split s n Hv) as (p & r & Hs & Hl & Hsl & Hp & _ & Hn & _).
  exists p. split; [done|]. split_and!; [by exists r|done..|]. intros q r' -> Hq Hqn.
  rewrite <- Hl. apply floor_boundary_max; [done|]. rewrite utf8_valid_app in Hv by done.
  by apply boundary_at, valid_head.
Qed.

Lemma truncate_str_longest s n :
  utf8_valid s = true → ∃ p, truncate_str s n = Some p ∧ longest_cut s n p.
Proof.
  intros Hv. unfold truncate_str. destruct (length s <=? n) eqn:E; breflect; [|by apply floor_longest].
  exists s. split; [done|by apply longest_cut_whole].
Qed.


(** ** Wrapping *)

(** The characters in groups of at most [w], the first of which continues a line. *)
Lemma wrap_loop_groups w cs result on_line :
  0 < w → on_line <= w →
  ∃ g gs, concat (g :: gs) = cs ∧ on_line + length g <= w ∧ Forall (λ g, 0 < length g <= w) gs
    ∧ wrap_loop w cs result on_line
      = result ++ join_with [LF] (@concat ascii <$> g :: gs).
Proof.
  intros Hw. revert result on_line. induction cs as [|c cs IH]; intros result n Hn.
  { exists [], []. cbn. rewrite app_nil_r. split_and!; [done|lia|constructor|done]. }
  cbn [wrap_loop]. destruct (w <=? n) eqn:E; breflect.
  - destruct (IH (result ++ [LF] ++ c) 1) as (g & gs & Hcat & Hl & Hgs & ->); [lia|].
    exists [], ((c :: g) :: gs). cbn [concat app fmap list_fmap] in *. split_and!.
    + by rewrite <- Hcat.
    + cbn. lia.
    + constructor; [cbn; lia|done].
    + rewrite <- app_assoc. destruct gs; cbn; by rewrite ?app_assoc.
  - destruct (IH (result ++ c) (S n)) as (g & gs & Hcat & Hl & Hgs & ->); [lia|].
    exists (c :: g), gs. cbn [concat app fmap list_fmap] in *. split_and!.
    + by rewrite <- Hcat.
    + cbn. lia.
    + done.
    + rewrite <- app_assoc. destruct gs; cbn; by rewrite ?app_assoc.
Qed.

(** Wrapping keeps every character of a line: what [soft_wrap_line] returns is lines of
    at most the given width, which is not zero, that make up the line when they are put
    together; a line within the width is one of them.  A width of zero panics on every
    line that is not empty. *)
Theorem wrap_keeps_text (s : text) (w : nat) :
  utf8_valid s = true →
  (soft_wrap_line s w = None ↔ w = 0 ∧ s ≠ [])
  ∧ ∀ out, soft_wrap_line s w = Some out →
      ∃ ls, out = join_with [LF] ls ∧ concat ls = s ∧ Forall (λ l, length (chars l) <= w) ls
        ∧ (length (chars s) <= w → ls = [s]).
Proof.
  intros Hv. unfold soft_wrap_line. pose proof (chars_length_le s) as Hle.
  destruct (length s <=? w) eqn:E; breflect.
  { split; [split; [done|]; intros [-> Hs]; destruct s; [done|cbn in E; lia]|]. intros out [= <-]. exists [s]. cbn.
    rewrite app_nil_r. split_and!; [done|done|constructor; [lia|done]|done]. }
  destruct (length (chars s) <=? w) eqn:E'; breflect.
  { split.
    - split; [done|]. intros [-> Hs]. destruct (chars s) as [|c cs] eqn:Hc; [|cbn in E'; lia].
      by rewrite <- (concat_chars s), Hc in Hs.
    - intros out [= <-]. exists [s]. cbn. rewrite app_nil_r.
      split_and!; [done|done|constructor; [lia|done]|done]. }
  destruct (w =? 0) eqn:Ew; breflect.
  { split; [split; [intros _|done]|done]. split; [done|]. intros ->. cbn in E. lia. }
  split; [split; [done|lia]|]. intros out [= <-].
  destruct (wrap_loop_groups w (chars s) [] 0) as (g & gs & Hcat & Hl & Hgs & ->); [lia..|].
  assert (Forall (λ g, Forall is_char g ∧ length g <= w) (g :: gs)) as Hall.
  { pose proof (chars_valid s Hv) as Hcv. rewrite <- Hcat in Hcv. apply Forall_concat in Hcv.
    apply Forall_and. split; [done|]. constructor; [lia|]. eapply Forall_impl; [exact Hgs|]. cbn. lia. }
  exists (@concat ascii <$> g :: gs). split_and!; [done| | |lia].
  - rewrite <- (concat_chars s), <- Hcat. clear. induction (g :: gs) as [|x xs IH]; [done|].
    cbn [fmap list_fmap concat]. change (list_fmap _ _ ?f xs) with (f <$> xs). by rewrite concat_app, IH.
  - apply Forall_fmap. eapply Forall_impl; [exact Hall|]. intros x [Hx Hw]. cbn. by rewrite chars_concat.
Qed.

(** Both ends of a text: with a budget of at least two and more characters than it, the
    first and the last half of the budget around the mark. *)
Theorem front_and_back_exact (s : text) (n : nat) :
  utf8_valid s = true → 2 <= n → n < length s →
  truncate_front_and_back s n
  = Some (first_chars (n / 2) s ++ ELLIPSIS ++ other_chars (length (chars s) - n / 2) s, true).
Proof.
  intros Hv Hn Hl. unfold truncate_front_and_back. rewrite (proj2 (Nat.leb_gt _ _)) by done.
  rewrite slice_first by done. cbn [mbind option_bind]. rewrite slice_last; [done|done|].
  apply Nat.div_str_pos. lia.
Qed.

(** ** Concrete cuts *)


Lemma wrap_keeps_text_witness :
  (soft_wrap_line (txt "hello") 2 = None ↔ 2 = 0 ∧ txt "hello" ≠ [])
  ∧ ∀ out, soft_wrap_line (txt "hello") 2 = Some out →
      ∃ ls, out = join_with [LF] ls ∧ concat ls = txt "hello" ∧ Forall (λ l, length (chars l) <= 2) ls
        ∧ (length (chars (txt "hello")) <= 2 → ls = [txt "hello"]).
Proof. apply (wrap_keeps_text (txt "hello") 2). reflexivity. Defined.

(** A budget in characters that is compared with the bytes: three characters of four
    bytes exceed a budget of ten, and are returned twice. *)
Definition smile : text := ascii_of_nat <$> [240; 159; 152; 128].

Example front_and_back_doubles :
  truncate_front_and_back (smile ++ smile ++ smile) 10
  = Some (smile ++ smile ++ smile ++ ELLIPSIS ++ smile ++ smile ++ smile, true).
Proof. vm_compute. reflexivity. Qed.

(** A budget that has no room for the marker: the whole text is kept behind it. *)
Example middle_keeps_all : truncate_middle (txt "abcdef") 3 = Some (txt "...abcdef").
Proof. vm_compute. reflexivity. Qed.

(** The same with a budget of one for both ends. *)
Example front_and_back_keeps_all :
  truncate_front_and_back (txt "abcdef") 1 = Some (ELLIPSIS ++ txt "abcdef", true).
Proof. vm_compute. reflexivity. Qed.
