(* ===== verification/CompactionText.v ===== *)
(** * Compaction: the summary text

    [ds-compaction/src/code_compaction/summary.rs] and [failure.rs]: the cleaning of the
    summary that the model wrote into the seed of the next turn, the continuation text,
    and the classification of failures.  [ds-chat-state/src/compaction_utils.rs] holds a
    second copy of the functions on the summary.  A slice that panics is [None].
    Theorems: the cleaned summary holds no live control token, and a summary in the
    requested form is kept as it is. *)

From S2P Require Import Prelude Text TextProps Utf8 Truncate.

Open Scope nat_scope.

(** ** summary.rs *)

Definition ANALYSIS : text := txt "<analysis>".
Definition ANALYSIS_END : text := txt "</analysis>".
Definition SUMMARY : text := txt "<summary>".
Definition SUMMARY_END : text := txt "</summary>".

(** Whether the block that starts at [start] is a leading scratchpad. *)
Definition is_leading (result : text) (start : nat) : option bool :=
  match find_text SUMMARY result with
  | Some sp =>
      if start <? sp then Some true
      else
        between ← slice result (sp + length SUMMARY) start;
        Some (bool_decide (trim between = []))
  | None => before ← slice result 0 start; Some (bool_decide (trim before = []))
  end.

(** Step 1: the loop that peels leading blocks; each round makes the text shorter. *)
Fixpoint peel_analysis (fuel : nat) (result : text) : option text :=
  match find_text ANALYSIS result with
  | None => Some result
  | Some start =>
      leading ← is_leading result start;
      if negb leading then Some result
      else
        before ← slice result 0 start;
        rest ← slice result start (length result);
        match find_text ANALYSIS_END rest with
        | Some rel =>
            after ← slice result (start + rel + length ANALYSIS_END) (length result);
            match fuel with
            | 0 => None
            | S fuel => peel_analysis fuel (before ++ after)
            end
        | None =>
            let drop_to :=
              match find_text SUMMARY rest with Some rel => start + rel | None => length result end in
            after ← slice result drop_to (length result);
            Some (before ++ after)
        end
  end.

Definition is_decoration (c : ascii) : bool :=
  bool_decide (c ∈ ["#"; "*"; "-"; ">"; " "; "009"]%char).

Definition starts_with_digit (s : text) : bool :=
  match s with c :: _ => byte_in 48 57 c | [] => false end.

Definition strip_leading_scratchpad (inner : text) : option text :=
  let s := trim inner in
  let lead := drop_while is_decoration s in
  s ← (if starts_with_digit lead then Some s
       else match rfind_text ANALYSIS_END s with
            | Some pos => rest ← slice s (pos + length ANALYSIS_END) (length s); Some (trim_start rest)
            | None => Some s
            end);
  Some (match text_strip_prefix SUMMARY s with Some rest => trim_start rest | None => s end).

(** Step 2: the wrapper becomes a heading. *)
Definition unwrap_summary (result : text) : option text :=
  match find_text SUMMARY result, rfind_text SUMMARY_END result with
  | Some start, Some end_ =>
      if start <? end_ then
        before ← slice result 0 start;
        after ← slice result (end_ + length SUMMARY_END) (length result);
        wrapped ← slice result (start + length SUMMARY) end_;
        inner ← strip_leading_scratchpad (trim wrapped);
        Some (before ++ txtln "Summary:" ++ inner ++ after)
      else Some result
  | _, _ => Some result
  end.

(** The zero-width space U+200B. *)
Definition ZERO_WIDTH_SPACE : text := ascii_of_nat <$> [226; 128; 139].

Definition CONTROL_TOKENS : list string :=
  ["/summary>"; "summary>"; "/analysis>"; "analysis>"; "/summary_request>"; "summary_request>"].

Definition token (t : string) : text := "<"%char :: txt t.
Definition defused (t : string) : text := "<"%char :: ZERO_WIDTH_SPACE ++ txt t.

(** Step 3. *)
Definition neutralize_compaction_control_tokens (s : text) : text :=
  foldl (λ s t, replace_all (token t) (defused t) s) s CONTROL_TOKENS.

(** Step 4: every round makes the text shorter. *)
Fixpoint collapse_blank_lines (fuel : nat) (s : text) : text :=
  match fuel with
  | 0 => s
  | S fuel =>
      if contains s [LF; LF; LF] then collapse_blank_lines fuel (replace_all [LF; LF; LF] [LF; LF] s)
      else s
  end.

Definition format_compact_summary (summary : text) : option text :=
  result ← peel_analysis (length summary) summary;
  result ← unwrap_summary result;
  let result := neutralize_compaction_control_tokens result in
  Some (trim (collapse_blank_lines (length result) result)).

Definition MIN_SUMMARY_SEED_CHARS : nat := Z.to_nat 500.

Definition is_degenerate_summary (raw_summary : text) : option bool :=
  cleaned ← format_compact_summary raw_summary;
  Some (length (chars cleaned) <? MIN_SUMMARY_SEED_CHARS).

Definition CONTINUATION : text :=
  txt "This session is being continued from a previous conversation that ran out of context. The summary below covers the earlier portion of the conversation."
  ++ [LF; LF].

Definition format_compact_summary_content (raw_summary : text) : option text :=
  cleaned ← format_compact_summary raw_summary; Some (CONTINUATION ++ cleaned).

Definition wrap_user_query (t : text) : text :=
  txtln "<user_query>" ++ t ++ [LF] ++ txt "</user_query>".

(** ** failure.rs *)

Inductive FailureKind := Deterministic | Transient.

Definition is_context_length_error (message : text) : bool :=
  let m := to_ascii_lowercase message in
  any_b (λ s, contains m (txt s))
    ["too long for this model"; "prompt is too long"; "maximum prompt length"; "maximum context length";
     "context_length_exceeded"]%string.

Definition client_error (status : Z) : bool :=
  (400 <=? status)%Z && (status <? 500)%Z && negb (status =? 408)%Z && negb (status =? 429)%Z.

Definition classify_http_status (status : Z) (message : text) : FailureKind :=
  if is_context_length_error message || client_error status then Deterministic else Transient.

Definition INVALID_REQUEST : text := txt "invalid_request_error".

Definition classify_stream_event_error (code : option text) (message : text) : FailureKind :=
  if bool_decide (code = Some INVALID_REQUEST) || contains message INVALID_REQUEST then Deterministic
  else if match code ≫= parse_uint (2 ^ 16 - 1) with Some status => client_error status | None => false end
  then Deterministic
  else if is_context_length_error message then Deterministic
  else Transient.

(** ** Texts that a separator keeps out *)

(** Putting [sep] between two texts makes no occurrence of [n]. *)
Definition separates (sep n : text) : Prop :=
  ∀ p q, contains p n = false → contains q n = false → contains (p ++ sep ++ q) n = false.

Lemma join_absent sep n ps :
  n ≠ [] → separates sep n → Forall (λ p, contains p n = false) ps → contains (join_with sep ps) n = false.
Proof.
  intros Hne Hs. induction 1 as [|p ps Hp Hps IH]; [by destruct n|]. destruct ps as [|q ps]; [done|].
  rewrite join_cons by done. by apply Hs.
Qed.

Lemma replace_keeps_absent old new n s :
  old ≠ [] → n ≠ [] → separates new n → contains s n = false →
  contains (replace_all old new s) n = false.
Proof.
  intros Ho Hne Hs Hc. destruct (pieces_exist old s Ho) as [ps Hps].
  rewrite (replace_all_pieces _ _ _ _ Ho Hps). apply join_absent; [done..|]. by eapply pieces_absent.
Qed.

Lemma replace_removes old new s :
  old ≠ [] → separates new old → contains (replace_all old new s) old = false.
Proof.
  intros Ho Hs. destruct (pieces_exist old s Ho) as [ps Hps].
  rewrite (replace_all_pieces _ _ _ _ Ho Hps). apply join_absent; [done..|]. by eapply pieces_free.
Qed.

Lemma replace_absent old new s : old ≠ [] → contains s old = false → replace_all old new s = s.
Proof. intros Ho Hc. by rewrite (replace_all_pieces old new s [s] Ho (pieces_last old s Hc)). Qed.

(** Two texts that meet in a place that is not inside [n]. *)
Lemma contains_apart p q n :
  n ≠ [] → (∀ x y, n = x ++ y → x ≠ [] → y ≠ [] → ¬ (x `suffix_of` p ∧ y `prefix_of` q)) →
  contains p n = false → contains q n = false → contains (p ++ q) n = false.
Proof. intros Hne Hcut Hp Hq. by rewrite contains_cut, Hp, Hq. Qed.

Lemma separates_lf n k : n ≠ [] → LF ∉ n → separates (replicate (S k) LF) n.
Proof.
  intros Hne Hlf p q Hp Hq. apply contains_apart; [done| |done|].
  - intros x y -> _ Hy [_ [r Hr]]. destruct y as [|b y]; [done|]. injection Hr as <- _.
    apply Hlf. rewrite elem_of_app. right. left.
  - apply contains_apart; [done| | |done].
    + intros x y -> Hx _ [[r Hr] _]. apply Hlf. rewrite elem_of_app. left.
      destruct x as [|b x] using rev_ind; [done|]. clear IHx.
      assert (b ∈ replicate (S k) LF) as Hb by (rewrite Hr, !elem_of_app; right; right; left).
      apply elem_of_replicate in Hb as [-> _]. rewrite elem_of_app. right. left.
    + apply contains_false. intros a b Heq. destruct n as [|c n]; [done|].
      assert (c ∈ replicate (S k) LF) as Hc by (rewrite Heq, elem_of_app; right; left).
      apply elem_of_replicate in Hc as [-> _]. apply Hlf. left.
Qed.

(** ** Tags *)

(** A text that starts with [<] and holds no other. *)
Definition tag (n : text) : Prop := ∃ r, n = "<"%char :: r ∧ "<"%char ∉ r ∧ r ≠ [].

Lemma tag_tail n x y : tag n → n = x ++ y → x ≠ [] → "<"%char ∉ y.
Proof.
  intros (r & -> & Hr & _) Heq Hx. destruct x as [|a x]; [done|]. injection Heq as _ ->. set_solver.
Qed.

Lemma tag_head n x y : tag n → n = x ++ y → x ≠ [] → head x = Some "<"%char.
Proof. intros (r & -> & _) Heq Hx. destruct x as [|a x]; [done|]. by injection Heq as <- _. Qed.

(** A tag is not found across a place where another one starts, nor across the end of a
    text without [<]. *)
Lemma tag_apart_start n p q :
  tag n → head q = Some "<"%char → contains p n = false → contains q n = false →
  contains (p ++ q) n = false.
Proof.
  intros Ht Hq. apply contains_apart; [destruct Ht as (? & -> & _); done|].
  intros x y Heq Hx Hy [_ [r ->]]. apply (tag_tail n x y Ht Heq Hx). destruct y as [|b y]; [done|].
  cbn in Hq. injection Hq as ->. left.
Qed.

Lemma tag_apart_free n p q :
  tag n → "<"%char ∉ p → contains q n = false → contains (p ++ q) n = false.
Proof.
  intros Ht Hp Hq. assert (n ≠ []) as Hne by (destruct Ht as (? & -> & _); done).
  apply contains_apart; [done| | |done].
  - intros x y Heq Hx Hy [[r ->] _]. pose proof (tag_head n x y Ht Heq Hx) as Hh.
    destruct x as [|a x]; [done|]. injection Hh as ->. set_solver.
  - apply contains_false. intros a b ->. destruct Ht as (r & -> & _). set_solver.
Qed.

(** A tag that starts behind the start of another starts behind its end. *)
Lemma tag_disjoint n m a b x y :
  tag n → head m = Some "<"%char → a ++ n ++ b = x ++ m ++ y → length a < length x →
  ∃ k, x = a ++ n ++ k ∧ b = k ++ m ++ y.
Proof.
  intros Hn Hm Heq Hl. apply app_eq_inv in Heq as [(k & -> & Hk)|(k & -> & Hk)].
  { rewrite length_app in Hl. lia. }
  apply app_eq_inv in Hk as [(k' & Hn' & Hy)|(k' & -> & ->)]; [|by exists k'].
  destruct k' as [|c k'].
  { exists []. rewrite app_nil_r in Hn'. subst k. by rewrite app_nil_r. }
  exfalso. apply (tag_tail n k (c :: k') Hn Hn').
  - intros ->. rewrite app_nil_r in Hl. lia.
  - destruct m as [|d m]; [done|]. injection Hm as ->. injection Hy as -> _. left.
Qed.

Lemma tag_find n p q : tag n → contains p n = false → find_text n (p ++ n ++ q) = Some (length p).
Proof.
  intros Ht Hp. apply find_text_intro.
  - rewrite length_app. lia.
  - by rewrite drop_app_length, starts_with_prefix.
  - intros j Hj. destruct (starts_with n (drop j (p ++ n ++ q))) eqn:E; [|done]. exfalso.
    apply starts_with_app in E as [r Hr]. rewrite contains_false in Hp.
    assert (p ++ n ++ q = take j p ++ n ++ r) as Heq.
    { rewrite <- Hr. rewrite <- (take_drop j (p ++ n ++ q)) at 1. by rewrite take_app_le by lia. }
    pose proof (take_drop j p) as Hpd.
    assert (drop j p ++ n ++ q = n ++ r) as Hd.
    { apply (app_inv_head (take j p)). by rewrite <- Heq, app_assoc, Hpd. }
    apply app_eq_inv in Hd as [(k & Hk & _)|(k & Hn & Hk)].
    + apply (Hp (take j p) k). by rewrite <- Hk.
    + destruct k as [|c k].
      { apply (Hp (take j p) []). by rewrite app_nil_r, Hn, app_nil_r. }
      apply (tag_tail n (drop j p) (c :: k) Ht Hn).
      * intros Hnil. apply (f_equal length) in Hnil. rewrite length_drop in Hnil. cbn in Hnil. lia.
      * destruct Ht as (t & Ht & _). rewrite Ht in Hk. injection Hk as <- _. left.
Qed.

Lemma tag_rfind n p q : tag n → contains q n = false → rfind_text n (p ++ n ++ q) = Some (length p).
Proof.
  intros Ht Hq. induction p as [|a p IH].
  - assert (∀ s, contains s n = false → rfind_text n s = None) as Hnone.
    { induction s as [|c s IH]; cbn [contains rfind_text]; intros [-> Hc]%orb_false_iff; [done|].
      by rewrite IH. }
    destruct Ht as (r & -> & Hr & Hne). cbn [app rfind_text]. rewrite Hnone.
    + rewrite (app_comm_cons r q), starts_with_prefix. done.
    + apply tag_apart_free; [by exists r|done..].
  - cbn [app rfind_text]. by rewrite IH.
Qed.

(** ** The control tokens *)

Definition sound_token (t : string) : Prop :=
  txt t ≠ [] ∧ "<"%char ∉ txt t ∧ head (txt t) ≠ Some (ascii_of_nat 226).

#[export] Instance sound_token_dec t : Decision (sound_token t).
Proof. unfold sound_token. apply _. Defined.

Lemma control_tokens_sound : Forall sound_token CONTROL_TOKENS.
Proof. by apply (bool_decide_unpack _). Qed.

Lemma token_tag t : sound_token t → tag (token t).
Proof. intros (Hne & Hlt & _). exists (txt t). done. Qed.

(** A defused token keeps every token out. *)
Lemma separates_defused t t' : sound_token t → sound_token t' → separates (defused t') (token t).
Proof.
  intros Ht Ht' p q Hp Hq. pose proof (token_tag t Ht) as Htag. destruct Ht as (Hne & Hlt & Hh).
  apply tag_apart_start; [done|done|done|]. unfold defused.
  change ("<"%char :: ZERO_WIDTH_SPACE ++ txt t') with ([ "<"%char ] ++ ZERO_WIDTH_SPACE ++ txt t').
  rewrite <- app_assoc. apply contains_apart; [done| | |].
  - intros x y Heq Hx Hy [[z Hz] [r Hr]]. destruct y as [|b y]; [done|].
    injection Hr as <- _. destruct x as [|a x] using rev_ind; [done|]. clear IHx.
    assert (x = []) as ->.
    { destruct x as [|c x]; [done|]. exfalso. apply (f_equal length) in Hz.
      rewrite !length_app in Hz. cbn in Hz. lia. }
    unfold token in Heq. injection Heq as _ Heq. by rewrite Heq in Hh.
  - apply contains_false. intros a b Heq. apply (f_equal length) in Heq. unfold token in Heq.
    rewrite !length_app in Heq. cbn in Heq. destruct (txt t); [done|]. cbn in Heq. lia.
  - apply tag_apart_free; [done| |done].
    destruct Ht' as (_ & Hlt' & _). rewrite elem_of_app. intros [Hin|?]; [|done]. cbn in Hin. set_solver.
Qed.

Lemma neutralize_absent ts s t :
  Forall sound_token ts → sound_token t → t ∈ ts ∨ contains s (token t) = false →
  contains (foldl (λ s t, replace_all (token t) (defused t) s) s ts) (token t) = false.
Proof.
  intros Hts Ht. revert s. induction Hts as [|t' ts Ht' Hts IH]; intros s; cbn [foldl]; [set_solver|].
  intros Hin. apply IH. destruct (decide (t = t')) as [->|Hne].
  - right. apply replace_removes; [done|]. by apply separates_defused.
  - destruct Hin as [Hin|Hc]; [left; set_solver|]. right.
    apply replace_keeps_absent; [done|done| |done]. by apply separates_defused.
Qed.

Lemma neutralize_inert s t :
  t ∈ CONTROL_TOKENS → contains (neutralize_compaction_control_tokens s) (token t) = false.
Proof.
  intros Ht. apply neutralize_absent; [apply control_tokens_sound| |by left].
  pose proof control_tokens_sound as Hs. by eapply Forall_forall in Hs.
Qed.

Lemma neutralize_id ts s :
  (∀ t, t ∈ ts → contains s (token t) = false) →
  foldl (λ s t, replace_all (token t) (defused t) s) s ts = s.
Proof.
  revert s. induction ts as [|t ts IH]; intros s Hc; cbn [foldl]; [done|].
  rewrite replace_absent by (done || apply Hc; set_solver). apply IH. set_solver.
Qed.

Lemma neutralize_valid s :
  utf8_valid s = true → utf8_valid (neutralize_compaction_control_tokens s) = true.
Proof.
  unfold neutralize_compaction_control_tokens. intros Hv.
  assert (Forall (λ t, utf8_valid (token t) = true ∧ utf8_valid (defused t) = true) CONTROL_TOKENS) as Hts
    by (by apply (bool_decide_unpack _)).
  revert s Hv. induction Hts as [|t ts [Ht Hd] _ IH]; intros s Hv; cbn [foldl]; [done|].
  apply IH. by apply replace_all_valid.
Qed.

(** ** Blank lines *)

Notation LF3 := [LF; LF; LF].
Notation LF2 := [LF; LF].

Lemma join_length sep ps : ps ≠ [] → length (join_with sep ps) = length (concat ps) + (length ps - 1) * length sep.
Proof.
  induction ps as [|p ps IH]; [done|]. intros _. destruct ps as [|q ps]; [cbn; rewrite app_nil_r; lia|].
  rewrite join_cons by done. rewrite !length_app, IH by done. cbn [concat length].
  rewrite !length_app. cbn [concat]. rewrite ?length_app. nia.
Qed.

Lemma collapse_shorter s :
  contains s LF3 = true → length (replace_all LF3 LF2 s) < length s.
Proof.
  intros Hc. destruct (pieces_exist LF3 s ltac:(done)) as [ps Hps].
  rewrite (replace_all_pieces LF3 LF2 s ps ltac:(done) Hps).
  destruct (pieces_join _ _ _ Hps) as [Hne Hj]. rewrite <- Hj. rewrite !join_length by done.
  assert (2 <= length ps).
  { destruct Hps as [p Hp|p s ps Hf Hps]; [congruence|]. apply pieces_join in Hps as [Hps _].
    destruct ps; [done|]. cbn. lia. }
  cbn [length]. lia.
Qed.

Lemma collapse_done fuel s : length s <= fuel → contains (collapse_blank_lines fuel s) LF3 = false.
Proof.
  revert s. induction fuel as [|fuel IH]; intros s Hl; cbn [collapse_blank_lines].
  - by destruct s; [|cbn in Hl; lia].
  - destruct (contains s LF3) eqn:E; [|done]. apply IH. apply collapse_shorter in E. lia.
Qed.

Lemma collapse_keeps_absent fuel s n :
  n ≠ [] → LF ∉ n → contains s n = false → contains (collapse_blank_lines fuel s) n = false.
Proof.
  intros Hne Hlf. revert s. induction fuel as [|fuel IH]; intros s Hc; cbn [collapse_blank_lines]; [done|].
  destruct (contains s LF3); [|done]. apply IH. apply replace_keeps_absent; [done..| |done].
  apply (separates_lf n 1 Hne Hlf).
Qed.

Lemma collapse_valid fuel s : utf8_valid s = true → utf8_valid (collapse_blank_lines fuel s) = true.
Proof.
  revert s. induction fuel as [|fuel IH]; intros s Hv; cbn [collapse_blank_lines]; [done|].
  destruct (contains s LF3); [|done]. apply IH. by apply replace_all_valid.
Qed.

Lemma collapse_id fuel s : contains s LF3 = false → collapse_blank_lines fuel s = s.
Proof. intros Hc. destruct fuel; cbn [collapse_blank_lines]; [done|]. by rewrite Hc. Qed.

Lemma find_text_absent n s : contains s n = false → find_text n s = None.
Proof.
  rewrite contains_false. intros Hc. destruct (find_text n s) eqn:E; [|done].
  apply find_text_split in E as (a & b & -> & _). by destruct (Hc a b).
Qed.

(** ** The cleaning always answers *)

Lemma summary_tag : tag SUMMARY.
Proof. exists (txt "summary>"). split_and!; [done|by apply (bool_decide_unpack _)|done]. Qed.
Lemma summary_end_tag : tag SUMMARY_END.
Proof. exists (txt "/summary>"). split_and!; [done|by apply (bool_decide_unpack _)|done]. Qed.
Lemma analysis_end_tag : tag ANALYSIS_END.
Proof. exists (txt "/analysis>"). split_and!; [done|by apply (bool_decide_unpack _)|done]. Qed.
#[local] Hint Resolve summary_tag summary_end_tag analysis_end_tag : core.

(** The peel of leading blocks answers with a well-formed text. *)
Lemma is_leading_total s a b :
  utf8_valid s = true → s = a ++ ANALYSIS ++ b → is_Some (is_leading s (length a)).
Proof.
  intros Hv Hs. assert (utf8_valid a = true) as Ha.
  { subst s. by eapply valid_around in Hv as [? _]. }
  assert (utf8_valid (ANALYSIS ++ b) = true) as Hb by (by rewrite Hs, utf8_valid_app in Hv).
  unfold is_leading. destruct (find_text SUMMARY s) as [sp|] eqn:Hf.
  - destruct (length a <? sp) eqn:Hlt; [by eexists|]. breflect.
    destruct (find_text_split _ _ _ Hf) as (x & y & Hxy & <-).
    destruct (tag_disjoint SUMMARY ANALYSIS x y a b) as (k & -> & _); [done|done|by rewrite <- Hxy| |].
    { destruct (decide (length x = length a)) as [He|]; [|lia]. exfalso. rewrite Hs in Hxy.
      apply app_inj_1 in Hxy as [_ Hxy]; [discriminate Hxy|done]. }
    assert (utf8_valid k = true) as Hkv.
    { apply valid_around in Ha as [_ Ha]; [|done..]. done. }
    rewrite <- app_assoc, (app_assoc x) in Hs. subst s. rewrite <- !app_assoc.
    rewrite (app_assoc x), !length_app, Nat.add_assoc, <- length_app.
    rewrite slice_valid by done. by eexists.
  - subst s. rewrite slice_prefix by done. by eexists.
Qed.

Lemma peel_total fuel s :
  utf8_valid s = true → length s <= fuel → ∃ r, peel_analysis fuel s = Some r ∧ utf8_valid r = true.
Proof.
  revert s. induction fuel as [|fuel IH]; intros s Hv Hl.
  { destruct s; [|cbn in Hl; lia]. by exists []. }
  cbn [peel_analysis]. destruct (find_text ANALYSIS s) as [start|] eqn:Hf; [|by exists s].
  destruct (find_text_split _ _ _ Hf) as (a & b & Heq & <-).
  destruct (is_leading_total s a b Hv Heq) as [l ->]. cbn [mbind option_bind].
  destruct l; cbn [negb]; [|by exists s]. subst s.
  destruct (valid_around a ANALYSIS b) as [Ha Hb]; [done..|].
  assert (utf8_valid (ANALYSIS ++ b) = true) as Hab by by apply valid_app.
  rewrite slice_prefix, slice_suffix by done. cbn [mbind option_bind].
  destruct (find_text ANALYSIS_END (ANALYSIS ++ b)) as [rel|] eqn:Hf'.
  - destruct (find_text_split _ _ _ Hf') as (x & y & Hxy & <-). rewrite Hxy in Hab |- *.
    destruct (valid_around x ANALYSIS_END y) as [Hx Hy]; [done..|].
    assert (a ++ x ++ ANALYSIS_END ++ y = (a ++ x ++ ANALYSIS_END) ++ y) as -> by (by rewrite <- !app_assoc).
    replace (length a + length x + length ANALYSIS_END) with (length (a ++ x ++ ANALYSIS_END))
      by (rewrite !length_app; lia).
    rewrite slice_suffix by done. cbn [mbind option_bind]. apply IH; [by apply valid_app|].
    apply (f_equal length) in Hxy. rewrite !length_app in *. cbn in *. lia.
  - destruct (find_text SUMMARY (ANALYSIS ++ b)) as [rel|] eqn:Hs.
    + destruct (find_text_split _ _ _ Hs) as (x & y & Hxy & <-). rewrite Hxy in Hab |- *.
      destruct (valid_around x SUMMARY y) as [Hx Hy]; [done..|]. rewrite app_assoc, <- length_app.
      rewrite slice_suffix by (by apply valid_app). cbn [mbind option_bind]. eexists. split; [done|].
      by repeat apply valid_app.
    + pose proof (slice_suffix (a ++ ANALYSIS ++ b) [] eq_refl) as Hz. rewrite app_nil_r in Hz. rewrite Hz.
      cbn [mbind option_bind]. exists a. by rewrite app_nil_r.
Qed.

Lemma scratchpad_total s :
  utf8_valid s = true → ∃ r, strip_leading_scratchpad s = Some r ∧ utf8_valid r = true.
Proof.
  intros Hv. apply trim_valid in Hv. unfold strip_leading_scratchpad. set (t := trim s) in *.
  assert (∃ r, (if starts_with_digit (drop_while is_decoration t) then Some t
    else match rfind_text ANALYSIS_END t with
         | Some pos => rest ← slice t (pos + length ANALYSIS_END) (length t); Some (trim_start rest)
         | None => Some t
         end) = Some r ∧ utf8_valid r = true) as (r & -> & Hr).
  { destruct (starts_with_digit _); [by exists t|].
    destruct (rfind_text ANALYSIS_END t) as [pos|] eqn:Hf; [|by exists t].
    destruct (rfind_text_Some _ _ _ Hf) as (a & b & Hab & <-). rewrite Hab in Hv |- *.
    destruct (valid_around a ANALYSIS_END b) as [Ha Hb]; [done..|]. rewrite app_assoc, <- length_app.
    rewrite slice_suffix by done. eexists. split; [done|]. by apply trim_start_valid. }
  cbn [mbind option_bind]. eexists. split; [done|].
  destruct (text_strip_prefix SUMMARY r) as [rest|] eqn:Hp; [|done].
  apply trim_start_valid. destruct (starts_with SUMMARY r) eqn:Hs.
  - apply starts_with_app in Hs as [q ->]. rewrite text_strip_prefix_app in Hp. injection Hp as <-.
    by rewrite utf8_valid_app in Hr.
  - rewrite text_strip_prefix_None in Hp by done. done.
Qed.

Lemma unwrap_total s :
  utf8_valid s = true → ∃ r, unwrap_summary s = Some r ∧ utf8_valid r = true.
Proof.
  intros Hv. unfold unwrap_summary. destruct (find_text SUMMARY s) as [start|] eqn:Hf; [|by exists s].
  destruct (rfind_text SUMMARY_END s) as [end_|] eqn:Hr; [|by exists s].
  destruct (start <? end_) eqn:Hlt; [|by exists s]. breflect.
  destruct (find_text_split _ _ _ Hf) as (a & b & Hab & <-).
  destruct (rfind_text_Some _ _ _ Hr) as (x & y & Hxy & <-).
  destruct (tag_disjoint SUMMARY SUMMARY_END a b x y) as (k & -> & ->); [done|done|congruence|done|].
  clear Hf Hr Hxy Hlt. subst s.
  destruct (valid_around a SUMMARY (k ++ SUMMARY_END ++ y)) as [Ha Hb]; [done..|].
  destruct (valid_around k SUMMARY_END y) as [Hk Hy]; [done..|].
  rewrite slice_prefix by done. cbn [mbind option_bind].
  assert (slice (a ++ SUMMARY ++ k ++ SUMMARY_END ++ y) (length (a ++ SUMMARY ++ k) + length SUMMARY_END)
    (length (a ++ SUMMARY ++ k ++ SUMMARY_END ++ y)) = Some y) as ->.
  { assert (a ++ SUMMARY ++ k ++ SUMMARY_END ++ y = ((a ++ SUMMARY ++ k) ++ SUMMARY_END) ++ y) as ->
      by (by rewrite <- !app_assoc).
    rewrite <- length_app. by apply slice_suffix. }
  cbn [mbind option_bind].
  assert (slice (a ++ SUMMARY ++ k ++ SUMMARY_END ++ y) (length a + length SUMMARY)
    (length (a ++ SUMMARY ++ k)) = Some k) as ->.
  { rewrite app_assoc, <- length_app, (app_assoc a SUMMARY k), (length_app (a ++ SUMMARY) k).
    by apply slice_valid. }
  cbn [mbind option_bind]. destruct (scratchpad_total (trim k)) as (r & -> & Hr); [by apply trim_valid|].
  cbn [mbind option_bind]. eexists. split; [done|]. apply valid_app; [done|].
  change (utf8_valid (txtln "Summary:" ++ r ++ y) = true). repeat apply valid_app; done.
Qed.

(** The last steps of the cleaning, and what they leave. *)
Definition finish (r : text) : text :=
  let n := neutralize_compaction_control_tokens r in trim (collapse_blank_lines (length n) n).

Lemma format_finish raw :
  utf8_valid raw = true →
  ∃ r, utf8_valid r = true ∧ format_compact_summary raw = Some (finish r).
Proof.
  intros Hv. unfold format_compact_summary.
  destruct (peel_total (length raw) raw Hv (le_n _)) as (r1 & -> & H1). cbn [mbind option_bind].
  destruct (unwrap_total r1 H1) as (r2 & -> & H2). by exists r2.
Qed.

Lemma finish_valid r : utf8_valid r = true → utf8_valid (finish r) = true.
Proof. intros Hr. by apply trim_valid, collapse_valid, neutralize_valid. Qed.

Lemma finish_trimmed r : utf8_valid r = true → trim (finish r) = finish r.
Proof. intros Hr. by apply trim_idem, collapse_valid, neutralize_valid. Qed.

Lemma finish_part r :
  utf8_valid r = true →
  let n := neutralize_compaction_control_tokens r in
  ∃ a b, collapse_blank_lines (length n) n = a ++ finish r ++ b.
Proof.
  intros Hr n. destruct (trim_split (collapse_blank_lines (length n) n)) as (a & b & Heq & _).
  - by apply collapse_valid, neutralize_valid.
  - by exists a, b.
Qed.

Lemma finish_inert r t :
  utf8_valid r = true → t ∈ CONTROL_TOKENS → contains (finish r) (token t) = false.
Proof.
  intros Hr Ht. destruct (finish_part r Hr) as (a & b & Heq). apply (contains_infix a _ b). rewrite <- Heq.
  pose proof control_tokens_sound as Hs. eapply Forall_forall in Hs as (Hne & Hlt & Hh); [|exact Ht].
  apply collapse_keeps_absent; [done| |by apply neutralize_inert].
  assert (Forall (λ t, LF ∉ token t) CONTROL_TOKENS) as Hlf by (by apply (bool_decide_unpack _)).
  by eapply Forall_forall in Hlf.
Qed.

Lemma finish_single r : utf8_valid r = true → contains (finish r) LF3 = false.
Proof.
  intros Hr. destruct (finish_part r Hr) as (a & b & Heq). apply (contains_infix a _ b). rewrite <- Heq.
  by apply collapse_done.
Qed.

(** The cleaned summary of every well-formed answer of the model exists, and nothing in
    it can be read as a command: it holds none of the opening and closing tags of
    summaries, scratchpads and summary requests, no two blank lines in a row, and no
    blank at either end. *)
Theorem summary_seed_inert (raw : text) :
  utf8_valid raw = true →
  ∃ seed, format_compact_summary raw = Some seed ∧ utf8_valid seed = true ∧ trim seed = seed
    ∧ (∀ t, t ∈ CONTROL_TOKENS → contains seed (token t) = false)
    ∧ contains seed [LF; LF; LF] = false.
Proof.
  intros (r & Hr & ->)%format_finish. exists (finish r).
  split_and!; [done|by apply finish_valid|by apply finish_trimmed|by intros; apply finish_inert|].
  by apply finish_single.
Qed.

(** ** A summary in the requested form *)

Lemma lf_char : is_char [LF].
Proof. exists LF, []. split_and!; try done. cbn. lia. Qed.

(** The first number of a numbered summary, behind its decoration. *)
Definition numbered (body : text) : Prop := starts_with_digit (drop_while is_decoration body) = true.

(** No opening or closing tag of a summary, a scratchpad or a summary request. *)
Definition inert (s : text) : Prop := ∀ t, t ∈ CONTROL_TOKENS → contains s (token t) = false.

Lemma inert_tag (n : string) s : inert s → n ∈ CONTROL_TOKENS → contains s (token n) = false.
Proof. intros Hi. apply Hi. Qed.

Section requested_form.
Context (draft body : text).
Hypotheses (Hdraft : utf8_valid draft = true) (Hend : contains draft ANALYSIS_END = false).
Hypotheses (Hbody : utf8_valid body = true) (Hsolid : trim body = body) (Hnum : numbered body).
Hypotheses (Hinert : inert body).

Definition wrapped_body : text := LF2 ++ SUMMARY ++ [LF] ++ body ++ [LF] ++ SUMMARY_END.

Lemma body_not_empty : body ≠ [].
Proof using All. intros Hb. unfold numbered in Hnum. by rewrite Hb in Hnum. Qed.

(** The heading keeps the summary trimmed and without blank lines in a row. *)
Lemma trim_heading : trim (LF2 ++ txtln "Summary:" ++ body) = txtln "Summary:" ++ body.
Proof using All.
  destruct (trim_id_solid _ Hsolid) as [Hs He].
  change (LF2 ++ txtln "Summary:" ++ body) with ([LF] ++ [LF] ++ txtln "Summary:" ++ body).
  rewrite (trim_blank_start [LF]) by (done || apply lf_char || by repeat apply valid_app).
  rewrite (trim_blank_start [LF]) by (done || apply lf_char || by repeat apply valid_app).
  apply trim_solid; intros c; rewrite chars_app by done; intros Hc.
  - cbn in Hc. by injection Hc as <-.
  - apply He. rewrite last_app in Hc. destruct (last (chars body)) eqn:Hl; [by rewrite <- Hc|].
    apply last_None in Hl. pose proof (concat_chars body) as Hcat. rewrite Hl in Hcat.
    by destruct body_not_empty.
Qed.

Lemma heading_single : contains body LF3 = false → contains (LF2 ++ txtln "Summary:" ++ body) LF3 = false.
Proof using All.
  intros H3. destruct (trim_id_solid _ Hsolid) as [Hs _].
  assert (contains (LF :: body) LF3 = false) as Hb.
  { cbn [contains]. rewrite H3, orb_false_r. destruct body as [|c b]; [done|].
    destruct (starts_with LF3 (LF :: c :: b)) eqn:E; [|done]. exfalso.
    apply starts_with_app in E as [r Hr]. injection Hr as -> Hr.
    assert (is_whitespace_char [LF] = false) as Hw; [|done].
    apply Hs. change (LF :: b) with ([LF] ++ b). by rewrite (chars_char [LF] b lf_char). }
  change (txtln "Summary:") with (txt "Summary:" ++ [LF]). rewrite <- (app_assoc (txt _)), app_assoc.
  apply contains_apart; [done| |by vm_compute|done].
  intros x y Hxy Hx Hy [[r Hr] _]. destruct x as [|c x] using rev_ind; [done|]. clear IHx.
  rewrite app_assoc in Hr. apply (f_equal last) in Hr. rewrite last_snoc in Hr. vm_compute in Hr.
  injection Hr as <-. assert (":"%char ∈ LF3) as Hin by (rewrite Hxy, !elem_of_app; left; right; left).
  revert Hin. by apply (bool_decide_unpack (":"%char ∉ LF3)).
Qed.

Lemma wrapped_no_analysis : contains wrapped_body ANALYSIS = false.
Proof using All.
  assert (LF ∉ ANALYSIS) as Hlf by (by apply (bool_decide_unpack _)).
  unfold wrapped_body. rewrite (app_assoc LF2). apply (separates_lf _ 0); [done..|].
  apply (separates_lf _ 0); [done|done| |done]. apply (Hinert "analysis>"). set_solver.
Qed.

Lemma peel_wrapped :
  peel_analysis (length (ANALYSIS ++ draft ++ ANALYSIS_END ++ wrapped_body))
    (ANALYSIS ++ draft ++ ANALYSIS_END ++ wrapped_body) = Some wrapped_body.
Proof using All.
  assert (utf8_valid wrapped_body = true) as Hw.
  { unfold wrapped_body. rewrite (app_assoc LF2). repeat apply valid_app; done. }
  set (s := ANALYSIS ++ draft ++ ANALYSIS_END ++ wrapped_body).
  assert (utf8_valid s = true) as Hs by (repeat apply valid_app; done).
  assert (find_text ANALYSIS s = Some 0) as Hf.
  { unfold s. apply (tag_find ANALYSIS []); [|done].
    exists (txt "analysis>"); split_and!; [done|by apply (bool_decide_unpack _)|done]. }
  assert (is_leading s 0 = Some true) as Hl.
  { unfold is_leading. destruct (find_text SUMMARY s) as [sp|] eqn:Hsp; [|done].
    destruct sp; [|done]. apply find_text_Some in Hsp as (_ & Hsp & _). discriminate Hsp. }
  assert (slice s 0 (length s) = Some s) as Hsl.
  { pose proof (slice_prefix s [] Hs eq_refl) as Hp. by rewrite app_nil_r in Hp. }
  assert (find_text ANALYSIS_END s = Some (length (ANALYSIS ++ draft))) as Hfe.
  { unfold s. rewrite app_assoc. apply tag_find; [done|].
    apply contains_apart; [done| |done|done]. intros x y Hxy Hx Hy [[z Hz] _].
    pose proof (tag_head ANALYSIS_END x y ltac:(done) Hxy Hx) as Hh.
    destruct x as [|c x]; [done|]. injection Hh as ->. destruct z as [|c z].
    { cbn [app] in Hz. rewrite <- Hz in Hxy. discriminate Hxy. }
    change ANALYSIS with ("<"%char :: txt "analysis>") in Hz. apply (f_equal tail) in Hz. cbn [tail app] in Hz.
    assert ("<"%char ∈ txt "analysis>") as Hin by (setoid_rewrite Hz; rewrite elem_of_app; right; left).
    revert Hin. by apply (bool_decide_unpack ("<"%char ∉ txt "analysis>")). }
  assert (slice s (length (ANALYSIS ++ draft) + length ANALYSIS_END) (length s) = Some wrapped_body) as Hsw.
  { unfold s. rewrite (app_assoc ANALYSIS draft), (app_assoc _ ANALYSIS_END), <- length_app.
    by apply slice_suffix. }
  assert (∃ n, length s = S n) as [n Hn] by by eexists.
  rewrite Hn at 1. cbn [peel_analysis]. rewrite Hf, Hl. cbn [mbind option_bind negb].
  rewrite Hsl. cbn [mbind option_bind]. rewrite Hfe. rewrite Nat.add_0_l, Hsw.
  change (slice s 0 0) with (Some ([] : text)). cbn [mbind option_bind app].
  destruct n; cbn [peel_analysis]; by rewrite (find_text_absent _ _ wrapped_no_analysis).
Qed.

Lemma unwrap_wrapped : unwrap_summary wrapped_body = Some (LF2 ++ txtln "Summary:" ++ body).
Proof using All.
  assert (contains ([LF] ++ body ++ [LF] ++ SUMMARY_END) SUMMARY = false) as Hns.
  { assert (LF ∉ SUMMARY) as Hlf by (by apply (bool_decide_unpack _)).
    apply (separates_lf SUMMARY 0 ltac:(done) Hlf []); [done|].
    apply (separates_lf _ 0); [done|done| |done]. apply (Hinert "summary>"). set_solver. }
  assert (find_text SUMMARY wrapped_body = Some 2) as Hf by (by apply (tag_find SUMMARY LF2)).
  assert (wrapped_body = (LF2 ++ SUMMARY ++ [LF] ++ body ++ [LF]) ++ SUMMARY_END ++ []) as Hw.
  { unfold wrapped_body. by rewrite app_nil_r, <- !app_assoc. }
  assert (rfind_text SUMMARY_END wrapped_body = Some (length (LF2 ++ SUMMARY ++ [LF] ++ body ++ [LF]))) as Hr.
  { rewrite Hw. by apply tag_rfind. }
  unfold unwrap_summary. rewrite Hf, Hr.
  destruct (2 <? _) eqn:Hlt; [|breflect; rewrite !length_app in Hlt; cbn in Hlt; lia].
  assert (slice wrapped_body 0 2 = Some LF2) as ->.
  { apply (slice_prefix LF2); [done|]. rewrite app_assoc. repeat apply valid_app; done. }
  cbn [mbind option_bind].
  assert (slice wrapped_body (length (LF2 ++ SUMMARY ++ [LF] ++ body ++ [LF]) + length SUMMARY_END)
    (length wrapped_body) = Some []) as ->.
  { rewrite Hw, <- length_app, app_assoc. by apply slice_suffix. }
  cbn [mbind option_bind].
  assert (slice wrapped_body (2 + length SUMMARY) (length (LF2 ++ SUMMARY ++ [LF] ++ body ++ [LF]))
    = Some ([LF] ++ body ++ [LF])) as ->.
  { rewrite Hw, app_nil_r, (app_assoc LF2 SUMMARY), (length_app (LF2 ++ SUMMARY)), <- app_assoc.
    apply (slice_valid (LF2 ++ SUMMARY)); [|done]. repeat apply valid_app; done. }
  cbn [mbind option_bind].
  assert (trim ([LF] ++ body ++ [LF]) = body) as ->.
  { destruct (trim_id_solid _ Hsolid) as [Hb He].
    rewrite trim_blank_start by (done || apply lf_char || by apply valid_app).
    rewrite trim_blank_end; [done|apply lf_char|done..|apply body_not_empty]. }
  unfold strip_leading_scratchpad. rewrite Hsolid.
  unfold numbered in Hnum. rewrite Hnum. cbn [mbind option_bind].
  destruct (text_strip_prefix SUMMARY body) as [r|] eqn:Hp.
  - exfalso. destruct (starts_with SUMMARY body) eqn:E; [|by rewrite text_strip_prefix_None in Hp].
    apply starts_with_app in E as [q Hq].
    assert (contains body SUMMARY = false) as Hc by (apply (Hinert "summary>"); set_solver).
    rewrite contains_false in Hc. by apply (Hc [] q).
  - by rewrite app_nil_r.
Qed.

End requested_form.

(** A summary in the requested form, a scratchpad and then a numbered summary between
    its tags, becomes the heading [Summary:] and the summary as it is: the scratchpad and
    the tags are gone and nothing of the summary is lost. *)
Theorem summary_seed_exact (draft body : text) :
  utf8_valid draft = true → contains draft ANALYSIS_END = false →
  utf8_valid body = true → trim body = body → numbered body → inert body → contains body LF3 = false →
  format_compact_summary (ANALYSIS ++ draft ++ ANALYSIS_END ++ wrapped_body body)
    = Some (txtln "Summary:" ++ body).
Proof.
  intros Hd He Hb Hs Hn Hi H3. unfold format_compact_summary.
  rewrite peel_wrapped by done. cbn [mbind option_bind]. rewrite (unwrap_wrapped draft) by done.
  cbn [mbind option_bind]. unfold neutralize_compaction_control_tokens.
  rewrite neutralize_id.
  2:{ intros t Ht. rewrite app_assoc. apply tag_apart_free; [| |by apply Hi].
      - apply token_tag. pose proof control_tokens_sound as Hc. by eapply Forall_forall in Hc.
      - by apply (bool_decide_unpack _). }
  rewrite collapse_id; [f_equal; by apply (trim_heading draft)|by apply (heading_single draft)].
Qed.

Definition sample_body : text := txt "1. Primary Request: port the parser." ++ LF2 ++ txt "2. Files: src/lib.rs (done).".

(** Both theorems on a short answer. *)
Lemma summary_seed_exact_witness :
  numbered sample_body ∧ format_compact_summary
    (ANALYSIS ++ txt "plan <summary>" ++ ANALYSIS_END ++ wrapped_body sample_body)
    = Some (txtln "Summary:" ++ sample_body).
Proof.
  split; [by vm_compute|]. apply summary_seed_exact; [by vm_compute..| |by vm_compute].
  unfold inert. apply Forall_forall. by apply (bool_decide_unpack _).
Defined.

Lemma summary_seed_inert_witness :
  let raw := SUMMARY ++ txt "1. Goal <analysis>" ++ SUMMARY_END in
  utf8_valid raw = true ∧ ∃ seed, format_compact_summary raw = Some seed ∧ utf8_valid seed = true
    ∧ trim seed = seed ∧ (∀ t, t ∈ CONTROL_TOKENS → contains seed (token t) = false)
    ∧ contains seed LF3 = false.
Proof. split; [by vm_compute|apply summary_seed_inert; by vm_compute]. Defined.
