(* ===== verification/HunkTypes.v ===== *)
(** * Hunk tracker: data types

    The types of [ds-hunk-tracker] ([types.rs], [events.rs],
    [actor/state.rs], [commands.rs]) with their methods: hunks, their line
    information and source, content states and views, session statistics,
    snapshots, events.  A [PathBuf] is the list of its components (Rust
    compares paths component-wise), the root being the component ["/"]; a
    [HunkId] is the string of its UUID.  [Arc<T>] is [T]: the tracker never
    mutates a shared hunk. *)

From S2P Require Import Prelude Text.
From stdpp Require Export pretty.

(** ** Paths ([std::path]) *)

Notation Path := (list string).
Notation HunkId := string.

Definition is_absolute (p : Path) : bool := bool_decide (head p = Some "/").

(** [Path::join]: an absolute argument replaces the path. *)
Definition path_join (p q : Path) : Path := if is_absolute q then q else p ++ q.

(** [Path::strip_prefix]. *)
Fixpoint path_strip_prefix (p pre : Path) : option Path :=
  match pre, p with
  | [], _ => Some p
  | a :: pre', b :: p' => if decide (a = b) then path_strip_prefix p' pre' else None
  | _ :: _, [] => None
  end.

(** [Path::display]: components separated by slashes. *)
Fixpoint display_components (p : Path) : text :=
  match p with
  | [] => []
  | [c] => txt c
  | c :: p' => txt c ++ txt "/" ++ display_components p'
  end.

Definition path_display (p : Path) : text :=
  match p with
  | "/" :: p' => txt "/" ++ display_components p'
  | _ => display_components p
  end.

(** A decimal number, as [{}] prints a [usize]. *)
Definition show_nat (n : nat) : text := txt (pretty n).

(** ** Hunks *)

Record HunkLineInfo := mkLineInfo {
  old_start : nat;
  old_count : nat;
  new_start : nat;
  new_count : nat;
}.

Inductive HunkSource :=
  | AgentEdit (prompt_index : nat)
  | ExternalEditOnAgentFile
  | External.

Record Hunk := mkHunk {
  hunk_id : HunkId;
  hunk_path : Path;
  line_info : HunkLineInfo;
  hunk_source : HunkSource;
  old_text : option text;
  new_text : text;
  hunk_patch : option text;
  created_at : Z;
  selected : bool;
}.

Inductive HunkAction := Accept | Reject.

Inductive HunkActionError :=
  | HunkNotFound (id : HunkId)
  | WriteError (path : Path)
  | DeleteError (path : Path)
  | ReadError (path : Path).

Inductive HunkSourceFilter := FilterAgent | FilterExternal.

Inductive TrackingMode := AgentOnly | AllDirty.

(** [impl Display for HunkLineInfo]. *)
Definition show_line_info (li : HunkLineInfo) : text :=
  txt "@@ -" ++ show_nat (old_start li) ++ txt "," ++ show_nat (old_count li)
  ++ txt " +" ++ show_nat (new_start li) ++ txt "," ++ show_nat (new_count li)
  ++ txt " @@".

Definition is_agent_edit (s : HunkSource) : bool :=
  match s with AgentEdit _ => true | _ => false end.

Definition is_agent_tracked (s : HunkSource) : bool :=
  match s with AgentEdit _ | ExternalEditOnAgentFile => true | External => false end.

Definition is_external (s : HunkSource) : bool :=
  match s with External | ExternalEditOnAgentFile => true | AgentEdit _ => false end.

Definition prompt_index (s : HunkSource) : option nat :=
  match s with AgentEdit i => Some i | _ => None end.

(** [Hunk::file_created] and [Hunk::file_deleted]; [id] and [now] are what
    [HunkId::new()] and [Utc::now()] return. *)
Definition file_created (id : HunkId) (now : Z) (path : Path) (content : text)
    (source : HunkSource) : Hunk :=
  let line_count := Nat.max (length (lines content)) 1 in
  mkHunk id path (mkLineInfo 0 0 1 line_count) source None content None now false.

Definition file_deleted (id : HunkId) (now : Z) (path : Path) (content : text)
    (source : HunkSource) : Hunk :=
  let line_count := Nat.max (length (lines content)) 1 in
  mkHunk id path (mkLineInfo 1 line_count 0 0) source (Some content) [] None now false.

(** [Hunk::summary]. *)
Definition summary (h : Hunk) : text :=
  let additions := length (lines (new_text h)) in
  let deletions :=
    match old_text h with Some t => length (lines t) | None => 0 end in
  txt "+" ++ show_nat additions ++ txt "/-" ++ show_nat deletions.

(** [Hunk::display_path]. *)
Definition display_path (h : Hunk) : text :=
  path_display (hunk_path h) ++ txt ":" ++ show_nat (new_start (line_info h)).

(** Functional updates of the fields the tracker assigns. *)
Definition set_hunk_id (i : HunkId) (h : Hunk) : Hunk :=
  mkHunk i (hunk_path h) (line_info h) (hunk_source h) (old_text h) (new_text h)
    (hunk_patch h) (created_at h) (selected h).
Definition set_hunk_source (s : HunkSource) (h : Hunk) : Hunk :=
  mkHunk (hunk_id h) (hunk_path h) (line_info h) s (old_text h) (new_text h)
    (hunk_patch h) (created_at h) (selected h).
Definition set_hunk_path (p : Path) (h : Hunk) : Hunk :=
  mkHunk (hunk_id h) p (line_info h) (hunk_source h) (old_text h) (new_text h)
    (hunk_patch h) (created_at h) (selected h).
Definition set_hunk_patch (p : option text) (h : Hunk) : Hunk :=
  mkHunk (hunk_id h) (hunk_path h) (line_info h) (hunk_source h) (old_text h) (new_text h)
    p (created_at h) (selected h).

(** ** Content states and views *)

Inductive FileContentState :=
  | Missing
  | Binary (byte_len : option nat)
  | TooLarge (byte_len : nat)
  | LfsPointer (byte_len : nat)
  | Symlink
  | Full (content : text).

Definition as_str (s : FileContentState) : option text :=
  match s with Full t => Some t | _ => None end.

Definition is_diffable (s : FileContentState) : bool :=
  match s with Full _ => true | _ => false end.

Definition byte_len (s : FileContentState) : option nat :=
  match s with
  | Missing => Some 0
  | Binary n => n
  | TooLarge n => Some n
  | LfsPointer n => Some n
  | Symlink => None
  | Full t => Some (length t)
  end.

Inductive FileContentStatus :=
  | StatusMissing | StatusBinary | StatusTooLarge | StatusLfsPointer
  | StatusSymlink | StatusFull.

Record FileContentView := mkView {
  view_status : FileContentStatus;
  view_byte_len : option nat;
  view_content : option text;
}.

(** [FileContentView::from_content_state] with the constructors it calls. *)
Definition from_content_state (s : FileContentState) : FileContentView :=
  match s with
  | Missing => mkView StatusMissing None None
  | Binary n => mkView StatusBinary n None
  | TooLarge n => mkView StatusTooLarge (Some n) None
  | LfsPointer n => mkView StatusLfsPointer (Some n) None
  | Symlink => mkView StatusSymlink None None
  | Full t => mkView StatusFull (Some (length t)) (Some t)
  end.

(** [FileHunkState]: the state of one tracked file. *)
Record FileHunkState := mkFileState {
  baseline : FileContentState;
  current_content : FileContentState;
  hunks : list Hunk;
  is_agent_file : bool;
  baseline_accepted : bool;
}.

Record FileContentEntry := mkContentEntry {
  entry_path : Path;
  entry_baseline : FileContentView;
  entry_current : FileContentView;
  entry_is_agent_file : bool;
  entry_staged : bool;
}.

Record FileHunkData := mkFileHunkData {
  data_hunks : list Hunk;
  data_baseline : FileContentView;
  data_current : FileContentView;
  data_baseline_content : option text;
  data_current_content : option text;
}.

(** ** Session statistics, summaries, snapshots *)

Record SessionStats := mkStats {
  accepted_hunks : nat;
  rejected_hunks : nat;
  accepted_lines_added : nat;
  accepted_lines_removed : nat;
  rejected_lines_added : nat;
  rejected_lines_removed : nat;
}.

Definition default_stats : SessionStats := mkStats 0 0 0 0 0 0.

Record TurnSummary := mkTurnSummary {
  turn_prompt_index : nat;
  turn_files : gset Path;
  turn_pending_hunks : list Hunk;
  turn_lines_added : nat;
  turn_lines_removed : nat;
}.

Record SessionSummary := mkSummary {
  sum_stats : SessionStats;
  sum_turns : list TurnSummary;
  sum_files_modified : nat;
  sum_files_with_pending : nat;
  sum_pending_hunks : nat;
  sum_pending_lines_added : nat;
  sum_pending_lines_removed : nat;
  sum_unattributed_pending : nat;
}.

Record FileHunkStateSnapshot := mkFileSnapshot {
  snap_baseline : FileContentState;
  snap_current_content : FileContentState;
  snap_hunks : list Hunk;
  snap_is_agent_file : bool;
  snap_baseline_accepted : bool;
}.

Record HunkTrackerSnapshot := mkSnapshot {
  snap_file_states : gmap Path FileHunkStateSnapshot;
  snap_turn_index : gmap nat (gset HunkId);
  snap_session_stats : SessionStats;
}.

Record HunkTurnDelta := mkTurnDelta {
  delta_prompt_index : nat;
  delta_file_states : gmap Path FileHunkStateSnapshot;
  delta_hunk_ids : gset HunkId;
}.

(** ** Events *)

Inductive HunkRemovalReason := Accepted | Rejected | Superseded.

Inductive HunkEvent :=
  | HunkAdded (path : Path) (hunk : Hunk)
  | HunkRemoved (path : Path) (id : HunkId) (reason : HunkRemovalReason)
  | HunkMoved (path : Path) (id : HunkId) (new_line_info : HunkLineInfo)
  | HunkContentChanged (path : Path) (hunk : Hunk) (trigger_source : HunkSource)
      (prev_lines_added prev_lines_removed : nat)
  | FileAdded (path : Path) (agent : bool)
  | FileRemoved (path : Path)
  | BaselineUpdated (path : Path).

(** ** Decidable equality *)

#[export] Instance HunkLineInfo_eq_dec : EqDecision HunkLineInfo.
Proof. solve_decision. Defined.
#[export] Instance HunkSource_eq_dec : EqDecision HunkSource.
Proof. solve_decision. Defined.
#[export] Instance Hunk_eq_dec : EqDecision Hunk.
Proof. solve_decision. Defined.
#[export] Instance HunkAction_eq_dec : EqDecision HunkAction.
Proof. solve_decision. Defined.
#[export] Instance HunkActionError_eq_dec : EqDecision HunkActionError.
Proof. solve_decision. Defined.
#[export] Instance FileContentState_eq_dec : EqDecision FileContentState.
Proof. solve_decision. Defined.
#[export] Instance TrackingMode_eq_dec : EqDecision TrackingMode.
Proof. solve_decision. Defined.
#[export] Instance HunkRemovalReason_eq_dec : EqDecision HunkRemovalReason.
Proof. solve_decision. Defined.
#[export] Instance HunkEvent_eq_dec : EqDecision HunkEvent.
Proof. solve_decision. Defined.

(** ** Lemmas *)

Lemma path_strip_prefix_Some p pre q : path_strip_prefix p pre = Some q ↔ p = pre ++ q.
Proof.
  revert p. induction pre as [|a pre IH]; intros [|b p]; simpl; [naive_solver..|].
  case_decide; [subst; rewrite IH; naive_solver|naive_solver].
Qed.

Lemma path_strip_prefix_app pre q : path_strip_prefix (pre ++ q) pre = Some q.
Proof. by apply path_strip_prefix_Some. Qed.

(** The three source predicates partition the sources. *)
Lemma is_external_negb s : is_external s = negb (is_agent_edit s).
Proof. by destruct s. Qed.

Lemma prompt_index_Some s i : prompt_index s = Some i ↔ s = AgentEdit i.
Proof. destruct s; naive_solver. Qed.

Lemma is_agent_edit_prompt s : is_agent_edit s = true ↔ is_Some (prompt_index s).
Proof. destruct s; simpl; split; intros; try done; try naive_solver; by eexists. Qed.

Lemma is_diffable_Full s : is_diffable s = true ↔ ∃ t, s = Full t.
Proof. destruct s; naive_solver. Qed.
