(* ===== verification/HunkDiff.v ===== *)
(** * Hunk tracker: diffing and patching

    [ds-hunk-tracker/src/diff.rs]: computing hunks from a line diff
    ([compute_hunks] and its [HunkBuilder]), patching a text
    ([patch_lines]), matching hunks of successive diffs
    ([find_matching_old_hunk] and the predicates it uses) and rendering
    them.

    The [similar] crate, which computes the line diff, is the class
    [DiffEngine]; what its documentation promises of [diff_lines] is the class
    [DiffLaws]: the equal and deleted lines, in order, are the lines of the
    old text, and the equal and inserted ones those of the new text.
    [similar] also ends a line at a bare CR, so the laws speak of CR-free
    texts only.  [greedy_engine] is an instance that satisfies them. *)

From S2P Require Import Prelude Text HunkTypes.

Definition CONTEXT_LINES : nat := 3.
(** [DIFF_TIMEOUT], in nanoseconds. *)
Definition DIFF_TIMEOUT : Z := 10 * 1000000000.
Definition MAX_DIFF_FILE_SIZE : Z := 1024 * 1024.

(** [similar::ChangeTag]. *)
Inductive ChangeTag := Equal | Delete | Insert.

Notation Change := (ChangeTag * text)%type.

(** ** The diff engine *)

Class DiffEngine := {
  (** [TextDiff::configure().timeout(_).diff_lines(old, new).iter_all_changes()] *)
  diff_lines : text → text → list Change;
  (** the time that call took, in nanoseconds *)
  diff_elapsed : text → text → Z;
}.

(** The two sides of a change script. *)
Inductive side := Old | New.

Definition other (s : side) : side := match s with Old => New | New => Old end.

Definition on_side (s : side) (t : ChangeTag) : bool :=
  match t, s with
  | Equal, _ | Delete, Old | Insert, New => true
  | _, _ => false
  end.

Definition script_lines (s : side) (chs : list Change) : list text :=
  snd <$> filter_b (λ ch, on_side s ch.1) chs.

Class DiffLaws (D : DiffEngine) : Prop := {
  diff_old_lines b c : CR ∉ b → CR ∉ c → script_lines Old (diff_lines b c) = split_inclusive b;
  diff_new_lines b c : CR ∉ b → CR ∉ c → script_lines New (diff_lines b c) = split_inclusive c;
}.

(** ** HunkBuilder *)

Record HunkBuilder := mkBuilder {
  hb_old_start : nat;
  hb_new_start : nat;
  hb_old_lines : list text;
  hb_new_lines : list text;
}.

(** [HunkBuilder::new]. *)
Definition builder_new (old_start new_start : nat) : HunkBuilder :=
  mkBuilder old_start new_start [] [].

Definition add_old_line (line : text) (hb : HunkBuilder) : HunkBuilder :=
  mkBuilder (hb_old_start hb) (hb_new_start hb) (hb_old_lines hb ++ [line]) (hb_new_lines hb).

Definition add_new_line (line : text) (hb : HunkBuilder) : HunkBuilder :=
  mkBuilder (hb_old_start hb) (hb_new_start hb) (hb_old_lines hb) (hb_new_lines hb ++ [line]).

(** [HunkBuilder::build]; [id] and [now] are what [HunkId::new()] and
    [Utc::now()] return. *)
Definition build (id : HunkId) (now : Z) (path : Path) (source : HunkSource)
    (hb : HunkBuilder) : Hunk :=
  let old_text :=
    match hb_old_lines hb with [] => None | ls => Some (concat ls) end in
  let new_text := concat (hb_new_lines hb) in
  mkHunk id path
    (mkLineInfo (hb_old_start hb) (length (hb_old_lines hb))
                (hb_new_start hb) (length (hb_new_lines hb)))
    source old_text new_text None now false.

(** ** compute_hunks *)

(** The local variables of the loop of [compute_hunks]; [ds_seed] counts the
    identifiers drawn so far. *)
Record diff_state := mkDiffState {
  ds_hunks : list Hunk;
  ds_old_line : nat;
  ds_new_line : nat;
  ds_current : option HunkBuilder;
  ds_seed : nat;
}.

Section compute.
Context `{D : DiffEngine} (uuid : nat → HunkId) (now : Z).

(** [if let Some(builder) = current_hunk.take() { hunks.push(...) }] *)
Definition finalize (path : Path) (source : HunkSource) (st : diff_state) : diff_state :=
  match ds_current st with
  | None => st
  | Some hb =>
      mkDiffState (ds_hunks st ++ [build (uuid (ds_seed st)) now path source hb])
        (ds_old_line st) (ds_new_line st) None (S (ds_seed st))
  end.

(** [current_hunk.get_or_insert_with(...)] *)
Definition get_or_new (st : diff_state) : HunkBuilder :=
  match ds_current st with
  | Some hb => hb
  | None => builder_new (ds_old_line st) (ds_new_line st)
  end.

(** The body of the loop over [diff.iter_all_changes()]. *)
Definition diff_step (path : Path) (source : HunkSource) (st : diff_state)
    (ch : Change) : diff_state :=
  match ch with
  | (Equal, _) =>
      let st := finalize path source st in
      mkDiffState (ds_hunks st) (S (ds_old_line st)) (S (ds_new_line st))
        (ds_current st) (ds_seed st)
  | (Delete, v) =>
      mkDiffState (ds_hunks st) (S (ds_old_line st)) (ds_new_line st)
        (Some (add_old_line v (get_or_new st))) (ds_seed st)
  | (Insert, v) =>
      mkDiffState (ds_hunks st) (ds_old_line st) (S (ds_new_line st))
        (Some (add_new_line v (get_or_new st))) (ds_seed st)
  end.

(** The hunks of a change script, and the next identifier seed. *)
Definition script_hunks (path : Path) (source : HunkSource) (seed : nat)
    (chs : list Change) : list Hunk * nat :=
  let st := foldl (diff_step path source) (mkDiffState [] 1 1 None seed) chs in
  let st := finalize path source st in
  (ds_hunks st, ds_seed st).

Definition compute_hunks (path : Path) (baseline current : text)
    (source : HunkSource) (seed : nat) : list Hunk * nat :=
  if decide (baseline = current) then ([], seed)
  else if ((MAX_DIFF_FILE_SIZE <? Z.of_nat (length baseline))
           || (MAX_DIFF_FILE_SIZE <? Z.of_nat (length current)))%Z then ([], seed)
  else if (DIFF_TIMEOUT <=? diff_elapsed baseline current)%Z then ([], seed)
  else script_hunks path source seed (diff_lines baseline current).

End compute.

(** ** patch_lines *)

Definition patch_lines (content : text) (start_line remove_count : nat)
    (insert_text : text) : text :=
  let ls := lines content in
  let start_idx := start_line - 1 in
  let before := take (Nat.min start_idx (length ls)) ls in
  let inserted := if decide (insert_text = []) then [] else lines insert_text in
  let end_idx := Nat.min (start_idx + remove_count) (length ls) in
  let output := join_lf (before ++ inserted ++ drop end_idx ls) in
  if ends_with LF content && negb (bool_decide (output = [])) then output ++ [LF]
  else output.

(** ** Rendering *)

(** [writeln!(output, "{prefix}{line}")] for every line. *)
Definition write_lines (prefix : string) (ls : list text) : text :=
  concat ((λ l, txt prefix ++ l ++ [LF]) <$> ls).

(** [format_unified_diff]. *)
Definition format_unified_diff (h : Hunk) : text :=
  txt "--- a/" ++ path_display (hunk_path h) ++ [LF]
  ++ txt "+++ b/" ++ path_display (hunk_path h) ++ [LF]
  ++ show_line_info (line_info h) ++ [LF]
  ++ (match old_text h with Some t => write_lines "-" (lines t) | None => [] end)
  ++ write_lines "+" (lines (new_text h)).

(** [for i in lo..hi { if let Some(line) = v.get(i) { writeln!(" {}") } }] *)
Definition context_lines (v : list text) (lo hi : nat) : text :=
  write_lines " " (take (hi - lo) (drop lo v)).

(** A [usize] subtraction; [None] is the underflow, a panic where overflow
    checks are on and a wrapped count where they are off. *)
Definition usize_checked_sub (a b : nat) : option nat :=
  if b <=? a then Some (a - b) else None.

Definition generate_hunk_patch (baseline current : text) (h : Hunk) : option text :=
  let old_lines := lines baseline in
  let new_lines := lines current in
  let li := line_info h in
  let old_start_idx := old_start li - 1 in
  let new_start_idx := new_start li - 1 in
  let context_before_start := old_start_idx - CONTEXT_LINES in
  let context_before_end := old_start_idx in
  let changes_end_new := new_start_idx + new_count li in
  let context_after_end := Nat.min (changes_end_new + CONTEXT_LINES) (length new_lines) in
  let changes_end_old := old_start_idx + old_count li in
  let context_after_end_old := Nat.min (changes_end_old + CONTEXT_LINES) (length old_lines) in
  before ← usize_checked_sub context_before_end context_before_start;
  after_old ← usize_checked_sub context_after_end_old changes_end_old;
  after_new ← usize_checked_sub context_after_end changes_end_new;
  let total_old_lines := before + old_count li + after_old in
  let total_new_lines := before + new_count li + after_new in
  let header_old_start := context_before_start + 1 in
  let header_new_start := context_before_start + 1 in
  Some (txt "@@ -" ++ show_nat header_old_start ++ txt "," ++ show_nat total_old_lines
    ++ txt " +" ++ show_nat header_new_start ++ txt "," ++ show_nat total_new_lines
    ++ txt " @@" ++ [LF]
    ++ context_lines old_lines context_before_start context_before_end
    ++ (match old_text h with Some t => write_lines "-" (lines t) | None => [] end)
    ++ write_lines "+" (lines (new_text h))
    ++ context_lines new_lines changes_end_new context_after_end).

(** ** Matching hunks of successive diffs *)

Definition hunks_match_content (a b : Hunk) : bool :=
  bool_decide (hunk_path a = hunk_path b) && bool_decide (old_text a = old_text b)
  && bool_decide (new_text a = new_text b).

Definition hunk_moved (old new : Hunk) : bool :=
  hunks_match_content old new && negb (bool_decide (line_info old = line_info new)).

Definition hunks_overlap (a b : Hunk) : bool :=
  if decide (hunk_path a = hunk_path b) then
    let a_start := old_start (line_info a) in
    let a_end := usize_saturating_add a_start (old_count (line_info a)) in
    let b_start := old_start (line_info b) in
    let b_end := usize_saturating_add b_start (old_count (line_info b)) in
    if (old_count (line_info a) =? 0) && (old_count (line_info b) =? 0) then a_start =? b_start
    else if old_count (line_info a) =? 0 then (b_start <=? a_start) && (a_start <=? b_end)
    else if old_count (line_info b) =? 0 then (a_start <=? b_start) && (b_start <=? a_end)
    else negb ((a_end <? b_start) || (b_end <? a_start))
  else false.

Definition calculate_overlap_size (a b : HunkLineInfo) : nat :=
  let a_start := old_start a in
  let a_end := usize_add (old_start a) (old_count a) in
  let b_start := old_start b in
  let b_end := usize_add (old_start b) (old_count b) in
  Nat.min a_end b_end - Nat.max a_start b_start.

Definition find_matching_old_hunk (new_hunk : Hunk) (old_hunks : list Hunk) : option Hunk :=
  match filter_b (λ o, hunks_match_content o new_hunk) old_hunks with
  | [] =>
      max_by_key (λ o, calculate_overlap_size (line_info o) (line_info new_hunk))
        (filter_b (λ o, hunks_overlap o new_hunk) old_hunks)
  | content_matches =>
      min_by_key (λ o, usize_abs_diff (new_start (line_info o)) (new_start (line_info new_hunk)))
        content_matches
  end.

Definition find_overlapping_hunks (new_hunk : Hunk) (old_hunks : list Hunk) : list Hunk :=
  filter_b (λ o, hunks_overlap o new_hunk) old_hunks.

(** ** A diff engine *)

(** Lines of [ys] before the first occurrence of [x], and those after it. *)
Fixpoint break_at (x : text) (ys : list text) : option (list text * list text) :=
  match ys with
  | [] => None
  | y :: ys' =>
      if decide (x = y) then Some ([], ys')
      else match break_at x ys' with
           | Some (pre, post) => Some (y :: pre, post)
           | None => None
           end
  end.

Fixpoint greedy_script (xs ys : list text) : list Change :=
  match xs with
  | [] => (Insert,.) <$> ys
  | x :: xs' =>
      match break_at x ys with
      | Some (pre, post) => ((Insert,.) <$> pre) ++ (Equal, x) :: greedy_script xs' post
      | None => (Delete, x) :: greedy_script xs' ys
      end
  end.

#[export] Instance greedy_engine : DiffEngine := {|
  diff_lines b c := greedy_script (split_inclusive b) (split_inclusive c);
  diff_elapsed _ _ := 0%Z;
|}.
