(* ===== verification/HunkDiffProps.v ===== *)
(** * Hunk tracker: properties of diffing and patching

    The hunks of a diff, in the order [compute_hunks] builds them, are the
    maximal runs of changed lines ([raw_hunks]); they are separated by at least
    one unchanged line, so no two of them overlap.  Patching any selection of
    them from the last to the first, as the batched actions do, yields exactly
    the text in which the selected runs are replaced and the others kept
    ([patch_side_mix], [patch_text_mix]).  The order is what makes the line
    numbers of the remaining hunks stay valid. *)

From S2P Require Import Prelude Text HunkTypes HunkDiff.

(** ** The runs of a change script *)

(** [compute_hunks] without identifiers: the builders it finalizes. *)
Fixpoint raw_hunks (ol nl : nat) (cur : option HunkBuilder) (chs : list Change)
    : list HunkBuilder :=
  match chs with
  | [] => option_list cur
  | (Equal, _) :: chs' => option_list cur ++ raw_hunks (S ol) (S nl) None chs'
  | (Delete, v) :: chs' =>
      raw_hunks (S ol) nl (Some (add_old_line v (default (builder_new ol nl) cur))) chs'
  | (Insert, v) :: chs' =>
      raw_hunks ol (S nl) (Some (add_new_line v (default (builder_new ol nl) cur))) chs'
  end.

Definition b_start (s : side) (hb : HunkBuilder) : nat :=
  match s with Old => hb_old_start hb | New => hb_new_start hb end.

Definition b_lines (s : side) (hb : HunkBuilder) : list text :=
  match s with Old => hb_old_lines hb | New => hb_new_lines hb end.

(** The line number just after the lines of a builder. *)
Definition b_end (s : side) (hb : HunkBuilder) : nat := b_start s hb + length (b_lines s hb).

(** What a selection of runs yields: the lines of side [s], with the selected
    runs replaced by those of the other side. *)
Definition pick (s : side) (sel : HunkBuilder → bool) (hb : HunkBuilder) : list text :=
  if sel hb then b_lines (other s) hb else b_lines s hb.

Definition pick_cur (s : side) (sel : HunkBuilder → bool) (cur : option HunkBuilder) : list text :=
  match cur with None => [] | Some hb => pick s sel hb end.

Fixpoint mix (s : side) (sel : HunkBuilder → bool) (ol nl : nat)
    (cur : option HunkBuilder) (chs : list Change) : list text :=
  match chs with
  | [] => pick_cur s sel cur
  | (Equal, v) :: chs' => pick_cur s sel cur ++ v :: mix s sel (S ol) (S nl) None chs'
  | (Delete, v) :: chs' =>
      mix s sel (S ol) nl (Some (add_old_line v (default (builder_new ol nl) cur))) chs'
  | (Insert, v) :: chs' =>
      mix s sel ol (S nl) (Some (add_new_line v (default (builder_new ol nl) cur))) chs'
  end.

(** Replacing [rm] lines from line [start] (1-indexed). *)
Definition splice (start rm : nat) (ins L : list text) : list text :=
  take (start - 1) L ++ ins ++ drop (start - 1 + rm) L.

(** Replacing one run, on side [s], by its lines of the other side. *)
Definition splice_hb (s : side) (hb : HunkBuilder) (L : list text) : list text :=
  splice (b_start s hb) (length (b_lines s hb)) (b_lines (other s) hb) L.

(** The line of side [s] the loop stands at. *)
Definition line_of (s : side) (ol nl : nat) : nat := match s with Old => ol | New => nl end.

(** [cur] is the run being built when the loop stands at lines [ol], [nl]. *)
Definition cur_at (ol nl : nat) (cur : option HunkBuilder) : Prop :=
  match cur with
  | None => 1 <= ol ∧ 1 <= nl
  | Some hb =>
      1 <= hb_old_start hb ∧ 1 <= hb_new_start hb
      ∧ b_end Old hb = ol ∧ b_end New hb = nl
      ∧ 1 <= length (hb_old_lines hb) + length (hb_new_lines hb)
  end.

(** ** [compute_hunks] builds exactly the runs *)

Lemma default_get_or_new st :
  default (builder_new (ds_old_line st) (ds_new_line st)) (ds_current st) = get_or_new st.
Proof. by destruct st as [??? [|] ?]. Qed.

Section props.
Context `{D : DiffEngine} (uuid : nat → HunkId) (now : Z).

(** The hunks built from runs, drawing identifiers in order. *)
Definition number_hunks (path : Path) (source : HunkSource) (seed : nat)
    (hbs : list HunkBuilder) : list Hunk :=
  imap (λ i hb, build (uuid (seed + i)) now path source hb) hbs.

Lemma number_hunks_cons path source seed hb hbs :
  number_hunks path source seed (hb :: hbs)
  = build (uuid seed) now path source hb :: number_hunks path source (S seed) hbs.
Proof.
  unfold number_hunks. simpl. f_equal; [by rewrite Nat.add_0_r|].
  apply imap_ext. intros i hb' _. simpl. by rewrite Nat.add_succ_r.
Qed.

Lemma script_loop path source chs st :
  let st' := finalize uuid now path source (foldl (diff_step uuid now path source) st chs) in
  let hbs := raw_hunks (ds_old_line st) (ds_new_line st) (ds_current st) chs in
  ds_hunks st' = ds_hunks st ++ number_hunks path source (ds_seed st) hbs
  ∧ ds_seed st' = ds_seed st + length hbs.
Proof.
  revert st. induction chs as [|[t v] chs IH]; intros st; simpl.
  - destruct st as [hs ol nl [hb|] seed]; simpl.
    + rewrite number_hunks_cons. simpl. split; [done|lia].
    + by rewrite app_nil_r.
  - specialize (IH (diff_step uuid now path source st (t, v))). simpl in IH.
    destruct IH as [-> ->].
    destruct t; simpl; rewrite ?default_get_or_new; [|done..].
    destruct st as [hs ol nl [hb|] seed]; simpl; [|done].
    rewrite number_hunks_cons, <-app_assoc. split; [done|lia].
Qed.

Lemma script_hunks_raw path source seed chs :
  script_hunks uuid now path source seed chs
  = (number_hunks path source seed (raw_hunks 1 1 None chs),
     seed + length (raw_hunks 1 1 None chs)).
Proof.
  pose proof (script_loop path source chs (mkDiffState [] 1 1 None seed)) as [H1 H2].
  unfold script_hunks. simpl in *. by rewrite H1, H2.
Qed.

End props.

(** ** Positions of the runs *)

Definition cur_lines (s : side) (cur : option HunkBuilder) : list text :=
  match cur with None => [] | Some hb => b_lines s hb end.

(** The first line of side [s] that runs still to come may cover. *)
Definition lower (s : side) (ol nl : nat) (cur : option HunkBuilder) : nat :=
  match cur with None => line_of s ol nl | Some hb => b_start s hb end.

Definition well_placed (hb : HunkBuilder) : Prop :=
  1 <= hb_old_start hb ∧ 1 <= hb_new_start hb
  ∧ 1 <= length (hb_old_lines hb) + length (hb_new_lines hb).

(** Two successive runs have an unchanged line between them, on both sides. *)
Definition separated (a b : HunkBuilder) : Prop := ∀ s, b_end s a < b_start s b.

Lemma cur_at_delete ol nl cur v :
  cur_at ol nl cur →
  cur_at (S ol) nl (Some (add_old_line v (default (builder_new ol nl) cur))).
Proof.
  destruct cur as [hb|]; unfold cur_at, b_end; simpl; rewrite ?length_app; simpl; lia.
Qed.

Lemma cur_at_insert ol nl cur v :
  cur_at ol nl cur →
  cur_at ol (S nl) (Some (add_new_line v (default (builder_new ol nl) cur))).
Proof.
  destruct cur as [hb|]; unfold cur_at, b_end; simpl; rewrite ?length_app; simpl; lia.
Qed.

Lemma cur_at_equal ol nl cur : cur_at ol nl cur → cur_at (S ol) (S nl) None.
Proof. destruct cur as [hb|]; unfold cur_at, b_end; simpl; lia. Qed.

Lemma lower_delete s ol nl cur v :
  lower s (S ol) nl (Some (add_old_line v (default (builder_new ol nl) cur)))
  = lower s ol nl cur.
Proof. by destruct cur, s. Qed.

Lemma lower_insert s ol nl cur v :
  lower s ol (S nl) (Some (add_new_line v (default (builder_new ol nl) cur)))
  = lower s ol nl cur.
Proof. by destruct cur, s. Qed.

Lemma lower_equal s ol nl cur : cur_at ol nl cur → lower s ol nl cur <= lower s (S ol) (S nl) None.
Proof. destruct cur as [hb|], s; unfold cur_at, b_end; simpl; lia. Qed.

#[local] Hint Resolve cur_at_delete cur_at_insert cur_at_equal : dsb.

Lemma raw_hunks_well_placed ol nl cur chs :
  cur_at ol nl cur → Forall well_placed (raw_hunks ol nl cur chs).
Proof.
  revert ol nl cur. induction chs as [|[[] v] chs IH]; intros ol nl cur Hc; simpl;
    [|apply Forall_app; split|..]; eauto with dsb.
  all: destruct cur as [hb|]; simpl; repeat constructor; unfold cur_at in Hc; simpl; lia.
Qed.

Lemma raw_hunks_lower s ol nl cur chs :
  cur_at ol nl cur → Forall (λ hb, lower s ol nl cur <= b_start s hb) (raw_hunks ol nl cur chs).
Proof.
  revert ol nl cur. induction chs as [|[[] v] chs IH]; intros ol nl cur Hc; simpl.
  - destruct cur; simpl; auto.
  - apply Forall_app; split; [destruct cur; simpl; auto|].
    eapply Forall_impl; [apply IH; eauto with dsb|]. simpl. intros hb.
    pose proof (lower_equal s ol nl cur Hc). simpl in *. lia.
  - rewrite <-(lower_delete s ol nl cur v). eauto with dsb.
  - rewrite <-(lower_insert s ol nl cur v). eauto with dsb.
Qed.

Lemma raw_hunks_separated ol nl cur chs :
  cur_at ol nl cur → StronglySorted separated (raw_hunks ol nl cur chs).
Proof.
  revert ol nl cur. induction chs as [|[[] v] chs IH]; intros ol nl cur Hc; simpl.
  - destruct cur; simpl; repeat constructor.
  - destruct cur as [hb|]; simpl; [|eauto with dsb].
    constructor; [eauto with dsb|]. rewrite Forall_forall. intros hb' Hin s.
    assert (lower s (S ol) (S nl) None <= b_start s hb') as Hlow.
    { revert hb' Hin. apply Forall_forall, raw_hunks_lower. eauto with dsb. }
    unfold cur_at in Hc. destruct s; simpl in *; lia.
  - eauto with dsb.
  - eauto with dsb.
Qed.

(** ** Patching a selection of runs *)

Lemma splice_app pre mid post ins start rm :
  length pre + 1 = start → length mid = rm →
  splice start rm ins (pre ++ mid ++ post) = pre ++ ins ++ post.
Proof.
  intros <- <-. unfold splice. rewrite Nat.add_sub.
  rewrite take_app_length. f_equal. f_equal.
  rewrite <-length_app, app_assoc. apply drop_app_length.
Qed.

Lemma pick_cur_splice s sel cur pre post :
  length pre + 1 = lower s 0 0 cur ∨ cur = None →
  foldr (splice_hb s) (pre ++ cur_lines s cur ++ post) (filter_b sel (option_list cur))
  = pre ++ pick_cur s sel cur ++ post.
Proof.
  destruct cur as [hb|]; simpl; [|done]. intros [H|?]; [|done].
  unfold pick. destruct (sel hb); [|done]. simpl. by apply splice_app.
Qed.

(** Patching the selected runs from the last to the first yields the text in
    which exactly the selected runs are replaced. *)
Lemma patch_side_mix s sel ol nl cur chs pre :
  cur_at ol nl cur → length pre + 1 = lower s ol nl cur →
  foldr (splice_hb s) (pre ++ cur_lines s cur ++ script_lines s chs)
    (filter_b sel (raw_hunks ol nl cur chs))
  = pre ++ mix s sel ol nl cur chs.
Proof.
  revert ol nl cur pre. induction chs as [|[t v] chs IH]; intros ol nl cur pre Hc Hpre.
  - simpl. rewrite pick_cur_splice, app_nil_r; [done|].
    destruct cur; [by left|by right].
  - destruct t.
    + simpl. rewrite filter_b_app, foldr_app.
      specialize (IH (S ol) (S nl) None (pre ++ cur_lines s cur ++ [v])).
      simpl in IH. rewrite <-!app_assoc in IH. simpl in IH.
      assert (script_lines s ((Equal, v) :: chs) = v :: script_lines s chs) as -> by by destruct s.
      rewrite IH; [|by eapply cur_at_equal|].
      2:{ rewrite !length_app; simpl. destruct cur as [hb|], s; unfold cur_at, b_end in Hc;
            simpl in *; lia. }
      rewrite pick_cur_splice; [done|]. destruct cur; [by left|by right].
    + assert (cur_lines s cur ++ script_lines s ((Delete, v) :: chs)
        = cur_lines s (Some (add_old_line v (default (builder_new ol nl) cur)))
          ++ script_lines s chs) as ->.
      { destruct s, cur; simpl; by rewrite <-?app_assoc. }
      apply (IH (S ol) nl (Some _)); [by apply cur_at_delete|by rewrite lower_delete].
    + assert (cur_lines s cur ++ script_lines s ((Insert, v) :: chs)
        = cur_lines s (Some (add_new_line v (default (builder_new ol nl) cur)))
          ++ script_lines s chs) as ->.
      { destruct s, cur; simpl; by rewrite <-?app_assoc. }
      apply (IH ol (S nl) (Some _)); [by apply cur_at_insert|by rewrite lower_insert].
Qed.

(** Selecting every run yields the other side; selecting none changes
    nothing. *)
Lemma mix_all s ol nl cur chs :
  mix s (λ _, true) ol nl cur chs = cur_lines (other s) cur ++ script_lines (other s) chs.
Proof.
  revert ol nl cur. induction chs as [|[[] v] chs IH]; intros ol nl cur; simpl.
  - destruct cur; simpl; by rewrite ?app_nil_r.
  - rewrite IH. destruct cur, s; done.
  - rewrite IH. destruct cur, s; simpl; by rewrite <-?app_assoc.
  - rewrite IH. destruct cur, s; simpl; by rewrite <-?app_assoc.
Qed.

Lemma mix_none s ol nl cur chs :
  mix s (λ _, false) ol nl cur chs = cur_lines s cur ++ script_lines s chs.
Proof.
  revert ol nl cur. induction chs as [|[[] v] chs IH]; intros ol nl cur; simpl.
  - destruct cur; simpl; by rewrite ?app_nil_r.
  - rewrite IH. destruct cur, s; done.
  - rewrite IH. destruct cur, s; simpl; by rewrite <-?app_assoc.
  - rewrite IH. destruct cur, s; simpl; by rewrite <-?app_assoc.
Qed.

(** ** From lines to texts *)

(** A line with its terminator, as [similar] yields them. *)
Definition lf_piece (v : text) : Prop := ∃ l, v = l ++ [LF] ∧ clean_line l.

(** Some unchanged line is not blank. *)
Definition kept_line (chs : list Change) : Prop := ∃ v, (Equal, v) ∈ chs ∧ v ≠ [LF].

Definition cur_pieces (cur : option HunkBuilder) : Prop :=
  match cur with
  | None => True
  | Some hb => Forall lf_piece (hb_old_lines hb) ∧ Forall lf_piece (hb_new_lines hb)
  end.

#[export] Instance HunkBuilder_eq_dec : EqDecision HunkBuilder.
Proof. solve_decision. Defined.

#[local] Instance add_lf_inj : Inj (=) (=) (λ l : text, l ++ [LF]).
Proof. intros ?? [? _]%app_inj_2; done. Qed.

Lemma lf_text_pieces s : lf_text s → Forall lf_piece (split_inclusive s).
Proof.
  intros H. rewrite lf_text_split by done. apply lf_text_lines in H as [H _].
  induction H; csimpl; constructor; [by eexists|done].
Qed.

Lemma pieces_unlines vs :
  Forall lf_piece vs → ∃ ls, vs = ((λ l, l ++ [LF]) <$> ls) ∧ Forall clean_line ls.
Proof.
  induction 1 as [|v vs (l & -> & Hl) _ (ls & -> & Hls)]; [by exists []|].
  exists (l :: ls). by split; [|constructor].
Qed.

Lemma concat_pieces vs :
  Forall lf_piece vs → lf_text (concat vs) ∧ split_inclusive (concat vs) = vs.
Proof.
  intros (ls & -> & Hls)%pieces_unlines. fold (unlines ls).
  by rewrite split_inclusive_unlines; auto with dsb.
Qed.

Lemma splice_fmap {f : text → text} start rm ins L :
  f <$> splice start rm ins L = splice start rm (f <$> ins) (f <$> L).
Proof. unfold splice. by rewrite !fmap_app, fmap_take, fmap_drop. Qed.

Lemma Forall_splice (P : text → Prop) start rm ins L :
  Forall P ins → Forall P L → Forall P (splice start rm ins L).
Proof.
  intros. unfold splice. rewrite !Forall_app.
  eauto using Forall_take, Forall_drop.
Qed.

(** What [patch_lines] does to LF texts: it replaces whole lines, except that
    a result of one blank line loses its terminator and an empty content has
    none to give. *)
Lemma patch_lines_splice L vs start rm :
  Forall lf_piece L → Forall lf_piece vs →
  (L ≠ [] ∨ splice start rm vs L = []) → splice start rm vs L ≠ [[LF]] →
  patch_lines (concat L) start rm (concat vs) = concat (splice start rm vs L).
Proof.
  intros HL Hvs Hne Hblank.
  pose proof (Forall_splice _ start rm _ _ Hvs HL) as HR.
  apply pieces_unlines in HL as (ll & -> & HL).
  apply pieces_unlines in Hvs as (vl & -> & Hvs).
  apply pieces_unlines in HR as (rl & HRe & HR).
  rewrite HRe in Hne, Hblank |- *. rewrite <-splice_fmap in HRe.
  apply (inj (fmap (λ l : text, l ++ [LF]))) in HRe.
  fold (unlines ll) (unlines vl) (unlines rl). unfold patch_lines.
  assert ((if decide (unlines vl = []) then [] else lines (unlines vl)) = vl) as ->.
  { case_decide as E; [by apply unlines_nil in E|by apply lines_unlines]. }
  rewrite lines_unlines by done.
  assert (take (Nat.min (start - 1) (length ll)) ll ++ vl
          ++ drop (Nat.min (start - 1 + rm) (length ll)) ll = rl) as ->.
  { rewrite <-HRe. unfold splice. f_equal; [|f_equal].
    - destruct (decide (start - 1 <= length ll)); [f_equal; lia|].
      rewrite Nat.min_r, !take_ge by lia. done.
    - destruct (decide (start - 1 + rm <= length ll)); [f_equal; lia|].
      rewrite Nat.min_r, drop_all, drop_ge by lia. done. }
  destruct (decide (rl = [])) as [->|Hrl].
  { simpl. by destruct (ends_with _ _). }
  assert (join_lf rl ≠ []) as Hj.
  { rewrite join_lf_nil. intros [?| ->]; done. }
  rewrite bool_decide_eq_false_2 by done. rewrite andb_true_r.
  assert (ends_with LF (unlines ll) = true) as ->.
  { destruct Hne as [Hne|Hne]; [|by destruct rl].
    destruct (unlines_lf_text ll HL) as [_ [->%unlines_nil|?]]; done. }
  by apply join_lf_unlines.
Qed.

Lemma cur_pieces_extend (ol nl : nat) cur v :
  cur_pieces cur → lf_piece v →
  cur_pieces (Some (add_old_line v (default (builder_new ol nl) cur)))
  ∧ cur_pieces (Some (add_new_line v (default (builder_new ol nl) cur))).
Proof.
  intros Hc Hv. destruct cur as [hb|]; simpl in *; rewrite ?Forall_app;
    repeat split; try apply Hc; repeat constructor; done.
Qed.

Lemma script_pieces chs :
  Forall lf_piece (script_lines Old chs) → Forall lf_piece (script_lines New chs) →
  Forall (λ ch : Change, lf_piece ch.2) chs.
Proof.
  induction chs as [|[[] v] chs IH]; [constructor|..]; unfold script_lines; csimpl;
    rewrite ?Forall_cons; naive_solver.
Qed.

Lemma raw_hunks_pieces ol nl cur chs :
  Forall (λ ch : Change, lf_piece ch.2) chs → cur_pieces cur →
  Forall (λ hb, cur_pieces (Some hb)) (raw_hunks ol nl cur chs).
Proof.
  intros Hp. revert ol nl cur. induction Hp as [|[[] v] chs Hv Hp IH]; intros ol nl cur Hc; simpl.
  - destruct cur; simpl; auto.
  - apply Forall_app; split; [destruct cur; simpl; auto|]. by apply IH.
  - by apply IH, cur_pieces_extend.
  - by apply IH, cur_pieces_extend.
Qed.

Lemma mix_pieces s sel ol nl cur chs :
  Forall (λ ch : Change, lf_piece ch.2) chs → cur_pieces cur →
  Forall lf_piece (mix s sel ol nl cur chs).
Proof.
  assert (∀ cur, cur_pieces cur → Forall lf_piece (pick_cur s sel cur)) as Hpick.
  { intros [hb|] Hc; [|constructor]. simpl. unfold pick.
    destruct (sel hb), s; apply Hc. }
  intros Hp. revert ol nl cur. induction Hp as [|[[] v] chs Hv Hp IH]; intros ol nl cur Hc; simpl.
  - by apply Hpick.
  - apply Forall_app; split; [by apply Hpick|]. constructor; [done|by apply IH].
  - by apply IH, cur_pieces_extend.
  - by apply IH, cur_pieces_extend.
Qed.

(** Unchanged lines survive every selection. *)
Lemma mix_equal s sel ol nl cur chs v : (Equal, v) ∈ chs → v ∈ mix s sel ol nl cur chs.
Proof.
  revert ol nl cur. induction chs as [|[t w] chs IH]; intros ol nl cur Hin; [set_solver|].
  apply elem_of_cons in Hin as [Hin|Hin].
  - simplify_eq. simpl. set_solver.
  - destruct t; simpl; eauto. rewrite elem_of_app, elem_of_cons. eauto.
Qed.

Lemma separated_irrefl hb : ¬ separated hb hb.
Proof. intros H. specialize (H Old). unfold b_end in H. lia. Qed.

Lemma raw_hunks_NoDup chs : NoDup (raw_hunks 1 1 None chs).
Proof.
  assert (cur_at 1 1 None) as Hc by (simpl; lia).
  pose proof (raw_hunks_separated 1 1 None chs Hc) as Hs.
  induction Hs as [|hb l Hs IH Hall]; constructor; [|done].
  intros Hin. rewrite Forall_forall in Hall. by apply (separated_irrefl hb), Hall.
Qed.

Lemma filter_b_tail {A} `{EqDecision A} (sel : A → bool) (l : list A) x l' :
  NoDup l → filter_b sel l = x :: l' →
  sel x = true ∧ x ∈ l ∧ filter_b (λ y, sel y && negb (bool_decide (y = x))) l = l'.
Proof.
  intros Hnd. induction Hnd as [|y l Hy Hnd IH]; simpl; [done|].
  destruct (sel y) eqn:E; simpl.
  - intros; simplify_eq. rewrite bool_decide_eq_true_2 by done. simpl.
    split; [done|]. split; [set_solver|]. clear IH.
    assert (∀ k, x ∉ k → filter_b (λ y, sel y && negb (bool_decide (y = x))) k = filter_b sel k) as H.
    { induction k as [|z k IHk]; simpl; intros Hz; [done|].
      rewrite bool_decide_eq_false_2 by set_solver. rewrite andb_true_r, IHk by set_solver. done. }
    by apply H.
  - intros [? [? Hf]]%IH. split; [done|]. split; [set_solver|done].
Qed.

(** Patching the texts of the runs, last run first. *)
Definition patch_hb (s : side) (hb : HunkBuilder) (content : text) : text :=
  patch_lines content (b_start s hb) (length (b_lines s hb)) (concat (b_lines (other s) hb)).

Section patch_texts.
Context (s : side) (chs : list Change).
Hypothesis Hpieces : Forall (λ ch : Change, lf_piece ch.2) chs.
Hypothesis Hkept : kept_line chs.

Notation runs := (raw_hunks 1 1 None chs).

Lemma mix_from_splices sel :
  foldr (splice_hb s) (script_lines s chs) (filter_b sel runs) = mix s sel 1 1 None chs.
Proof.
  assert (cur_at 1 1 None) as Hc by (simpl; lia).
  apply (patch_side_mix s sel 1 1 None chs []); [done|]. by destruct s.
Qed.

Lemma mix_not_degenerate sel :
  mix s sel 1 1 None chs ≠ [] ∧ mix s sel 1 1 None chs ≠ [[LF]].
Proof.
  destruct Hkept as (v & Hv & Hne). apply (mix_equal s sel 1 1 None) in Hv.
  split; intros E; rewrite E in Hv; set_solver.
Qed.

Lemma patch_texts_mix sel :
  foldr (patch_hb s) (concat (script_lines s chs)) (filter_b sel runs)
  = concat (mix s sel 1 1 None chs).
Proof.
  remember (filter_b sel runs) as l eqn:El. symmetry in El. revert sel El.
  induction l as [|x l IH]; intros sel El; simpl.
  { rewrite <-mix_from_splices, El. done. }
  destruct (filter_b_tail sel runs x l (raw_hunks_NoDup chs) El) as (Hx & Hin & El').
  rewrite (IH _ El'). set (sel' := λ y, sel y && _) in *.
  assert (splice_hb s x (mix s sel' 1 1 None chs) = mix s sel 1 1 None chs) as Hsp.
  { by rewrite <-!mix_from_splices, El, El'. }
  rewrite <-Hsp. unfold patch_hb, splice_hb. apply patch_lines_splice.
  - by apply mix_pieces.
  - assert (cur_pieces (Some x)) as Hc.
    { by apply (proj1 (Forall_forall _ _) (raw_hunks_pieces 1 1 None chs Hpieces I)). }
    destruct s; apply Hc.
  - left. apply mix_not_degenerate.
  - fold (splice_hb s x (mix s sel' 1 1 None chs)). rewrite Hsp. apply mix_not_degenerate.
Qed.

End patch_texts.

(** ** Hunks and the diff they come from *)

(** What of a hunk the diff determines: everything but its identity, source
    and time stamp. *)
Definition hunk_core (h : Hunk) : Path * HunkLineInfo * option text * text :=
  (hunk_path h, line_info h, old_text h, new_text h).

(** [h] is the hunk of the run [hb] in file [path]. *)
Definition from_builder (path : Path) (hb : HunkBuilder) (h : Hunk) : Prop :=
  hunk_core h = hunk_core (build "" 0 path External hb).

(** Reverting a hunk in the new text ([New]) or applying it to the old text
    ([Old]): the two calls of [patch_lines] of the actions. *)
Definition patch_hunk (s : side) (content : text) (h : Hunk) : text :=
  match s with
  | New => patch_lines content (new_start (line_info h)) (new_count (line_info h))
             (default [] (old_text h))
  | Old => patch_lines content (old_start (line_info h)) (old_count (line_info h)) (new_text h)
  end.

Definition start_on (s : side) (h : Hunk) : nat :=
  match s with New => new_start (line_info h) | Old => old_start (line_info h) end.

(** [hs] are, up to identity, source and time stamp, the hunks of the diff of
    [b] and [c]. *)
Definition is_diff_of `{D : DiffEngine} (path : Path) (b c : text) (hs : list Hunk) : Prop :=
  hunk_core <$> hs = hunk_core <$> (compute_hunks (λ _, "") 0 path b c External 0).1.

Lemma patch_hunk_from_builder s path hb h content :
  from_builder path hb h → patch_hunk s content h = patch_hb s hb content.
Proof.
  unfold from_builder, hunk_core, patch_hunk, patch_hb. destruct h, hb as [os ns ols nls].
  intros; simplify_eq/=. destruct s; [done|]. by destruct ols.
Qed.

Lemma start_on_from_builder s path hb h : from_builder path hb h → start_on s h = b_start s hb.
Proof.
  unfold from_builder, hunk_core. destruct h, hb, s; intros; simplify_eq/=; done.
Qed.

Lemma from_builder_core_list path hbs hs :
  hunk_core <$> hs = (λ hb, hunk_core (build "" 0 path External hb)) <$> hbs →
  Forall2 (from_builder path) hbs hs.
Proof.
  revert hs. induction hbs as [|hb hbs IH]; intros [|h hs]; csimpl; try done.
  intros [= ????]. constructor; [|by apply IH]. unfold from_builder, hunk_core. simpl. congruence.
Qed.

Lemma number_hunks_core uuid now path source seed hbs :
  hunk_core <$> number_hunks uuid now path source seed hbs
  = (λ hb, hunk_core (build "" 0 path External hb)) <$> hbs.
Proof.
  revert seed. induction hbs as [|hb hbs IH]; intros seed; [done|].
  rewrite number_hunks_cons. csimpl. by rewrite IH.
Qed.

Lemma foldl_reverse {A B} (f : B → A → B) (x : B) (l : list A) :
  foldl f x (reverse l) = foldr (λ a b, f b a) x l.
Proof.
  induction l as [|a l IH]; [done|]. rewrite reverse_cons, foldl_snoc. simpl. by rewrite IH.
Qed.

Lemma foldr_patch_from_builders s path hbs hs content :
  Forall2 (from_builder path) hbs hs →
  foldr (λ h t, patch_hunk s t h) content hs = foldr (patch_hb s) content hbs.
Proof.
  induction 1 as [|hb h hbs hs Hf _ IH]; simpl; [done|].
  by rewrite IH, (patch_hunk_from_builder s path hb h).
Qed.

(** A selection of hunks is a selection of runs. *)
Lemma select_builders {A B} `{EqDecision A} (R : A → B → Prop) (xs : list A) (ys : list B)
    (p : B → bool) :
  NoDup xs → Forall2 R xs ys →
  ∃ sel, Forall2 R (filter_b sel xs) (filter_b p ys)
    ∧ Forall2 (λ x y, sel x = p y) xs ys.
Proof.
  intros Hnd H. induction H as [|x y xs ys Hxy Hxys IH].
  { exists (λ _, true). by repeat constructor. }
  apply NoDup_cons in Hnd as [Hx Hnd]. destruct (IH Hnd) as (sel & H1 & H2).
  exists (λ z, if decide (z = x) then p y else sel z). simpl. rewrite decide_True by done.
  assert (∀ k, x ∉ k → filter_b (λ z, if decide (z = x) then p y else sel z) k = filter_b sel k) as He.
  { induction k as [|z k IHk]; simpl; intros Hz; [done|].
    rewrite decide_False, IHk by set_solver. done. }
  rewrite He by done. split; [destruct (p y); [by constructor|done]|].
  constructor; [by rewrite decide_True|]. clear -Hx H2.
  induction H2 as [|z w xs ys Hzw _ IH]; constructor.
  - rewrite decide_False by set_solver. done.
  - apply IH. set_solver.
Qed.

Lemma starts_sorted s path hbs hs :
  StronglySorted separated hbs → Forall2 (from_builder path) hbs hs →
  StronglySorted (λ a b, start_on s a < start_on s b) hs.
Proof.
  intros Hs. revert hs. induction Hs as [|hb hbs Hs IH Hall]; intros hs H;
    inversion H as [|? h ? hs' Hf Hfs]; subst; constructor; [by apply IH|].
  clear IH Hs H. rewrite (start_on_from_builder s path hb h Hf).
  induction Hfs as [|hb' h' hbs' hs'' Hf' _ IH']; constructor; inversion Hall as [|?? Hsep]; subst.
  - rewrite (start_on_from_builder s path hb' h' Hf'). specialize (Hsep s). unfold b_end in Hsep. lia.
  - by apply IH'.
Qed.

Section diff_hunks.
Context `{D : DiffEngine}.

Lemma compute_hunks_core uuid now path b c source seed :
  is_diff_of path b c (compute_hunks uuid now path b c source seed).1.
Proof.
  unfold is_diff_of, compute_hunks. repeat case_match; [done..|].
  rewrite !script_hunks_raw. simpl. by rewrite !number_hunks_core.
Qed.

Lemma is_diff_of_runs path b c hs :
  is_diff_of path b c hs → hs ≠ [] →
  b ≠ c ∧ Forall2 (from_builder path) (raw_hunks 1 1 None (diff_lines b c)) hs.
Proof.
  unfold is_diff_of, compute_hunks.
  intros Hd Hne. repeat case_match; try by destruct hs.
  rewrite script_hunks_raw in Hd. simpl in Hd. rewrite number_hunks_core in Hd.
  split; [done|]. by apply from_builder_core_list.
Qed.

Context `{!DiffLaws D}.

Lemma diff_script_pieces b c :
  lf_text b → lf_text c → Forall (λ ch : Change, lf_piece ch.2) (diff_lines b c).
Proof.
  intros Hb Hc. apply script_pieces.
  - rewrite diff_old_lines by apply Hb || apply Hc. by apply lf_text_pieces.
  - rewrite diff_new_lines by apply Hb || apply Hc. by apply lf_text_pieces.
Qed.

Lemma diff_side_text s b c :
  lf_text b → lf_text c →
  concat (script_lines s (diff_lines b c)) = match s with Old => b | New => c end.
Proof.
  intros Hb Hc. destruct s.
  - rewrite diff_old_lines by apply Hb || apply Hc. apply concat_split_inclusive.
  - rewrite diff_new_lines by apply Hb || apply Hc. apply concat_split_inclusive.
Qed.

(** Patching a selection [p] of the hunks of a diff, sorted by descending
    start, on either side. *)
Lemma patch_selected_hunks s path b c hs p :
  lf_text b → lf_text c → kept_line (diff_lines b c) → is_diff_of path b c hs → hs ≠ [] →
  ∃ sel, Forall2 (λ hb h, sel hb = p h) (raw_hunks 1 1 None (diff_lines b c)) hs
    ∧ foldl (patch_hunk s) (match s with Old => b | New => c end)
        (sort_by_key_rev (start_on s) (filter_b p hs))
      = concat (mix s sel 1 1 None (diff_lines b c)).
Proof.
  intros Hb Hc Hk Hd Hne. destruct (is_diff_of_runs _ _ _ _ Hd Hne) as [_ Hf].
  assert (cur_at 1 1 None) as Hcur by (simpl; lia).
  destruct (select_builders _ _ _ p (raw_hunks_NoDup _) Hf) as (sel & Hsel & Hp).
  exists sel. split; [done|].
  rewrite sort_by_key_rev_increasing.
  - rewrite foldl_reverse, (foldr_patch_from_builders s path _ _ _ Hsel).
    rewrite <-(diff_side_text s b c Hb Hc). apply patch_texts_mix; [|done].
    by apply diff_script_pieces.
  - eapply StronglySorted_sublist; [apply filter_b_sublist|].
    eapply starts_sorted; [by apply raw_hunks_separated|done].
Qed.

(** Patching every hunk yields the other side. *)
Lemma patch_all_hunks s path b c hs :
  lf_text b → lf_text c → kept_line (diff_lines b c) → is_diff_of path b c hs → hs ≠ [] →
  foldl (patch_hunk s) (match s with Old => b | New => c end) (sort_by_key_rev (start_on s) hs)
  = match s with Old => c | New => b end.
Proof.
  intros Hb Hc Hk Hd Hne. destruct (is_diff_of_runs _ _ _ _ Hd Hne) as [_ Hf].
  assert (cur_at 1 1 None) as Hcur by (simpl; lia).
  rewrite sort_by_key_rev_increasing.
  2:{ eapply starts_sorted; [by apply raw_hunks_separated|done]. }
  rewrite foldl_reverse, (foldr_patch_from_builders s path _ _ _ Hf).
  rewrite <-(diff_side_text s b c Hb Hc).
  rewrite <-(filter_b_all (λ _, true) (raw_hunks 1 1 None (diff_lines b c))) by done.
  rewrite patch_texts_mix by (done || by apply diff_script_pieces).
  rewrite mix_all. simpl. rewrite diff_side_text by done. by destruct s.
Qed.

End diff_hunks.

(** ** Overlap and matching *)

Lemma usize_saturating_add_le_sum a b : usize_saturating_add a b <= a + b.
Proof. unfold usize_saturating_add. lia. Qed.

Lemma hunks_match_content_spec a b :
  hunks_match_content a b = true
  ↔ hunk_path a = hunk_path b ∧ old_text a = old_text b ∧ new_text a = new_text b.
Proof.
  unfold hunks_match_content. rewrite !andb_true_iff, !bool_decide_eq_true. naive_solver.
Qed.

Lemma hunks_overlap_core a b a' b' :
  hunk_core a = hunk_core a' → hunk_core b = hunk_core b' →
  hunks_overlap a b = hunks_overlap a' b'.
Proof.
  unfold hunk_core. intros [= Hp Hl _ _] [= Hp' Hl' _ _]. unfold hunks_overlap.
  by rewrite Hp, Hl, Hp', Hl'.
Qed.

Lemma hunks_overlap_symm a b : hunks_overlap a b = hunks_overlap b a.
Proof.
  unfold hunks_overlap. destruct (decide (hunk_path a = hunk_path b)) as [E|E].
  2:{ by rewrite decide_False by congruence. }
  rewrite decide_True by congruence.
  destruct (old_count (line_info a) =? 0) eqn:Ea, (old_count (line_info b) =? 0) eqn:Eb;
    simpl; try done.
  - apply Nat.eqb_sym.
  - by rewrite orb_comm.
Qed.

Lemma separated_no_overlap path hb hb' h h' :
  separated hb hb' → from_builder path hb h → from_builder path hb' h' →
  hunks_overlap h h' = false.
Proof.
  intros Hs Hh Hh'. specialize (Hs Old). unfold b_end in Hs. simpl in Hs.
  unfold from_builder, hunk_core in *. destruct h, h', hb, hb'; simplify_eq/=.
  unfold hunks_overlap; simpl in *. rewrite decide_True by done.
  repeat match goal with |- context [usize_saturating_add ?x ?y] =>
    pose proof (usize_saturating_add_le_sum x y);
    generalize dependent (usize_saturating_add x y); intros end.
  repeat case_match; breflect; rewrite ?andb_false_iff, ?negb_false_iff, ?orb_true_iff,
    ?Nat.leb_gt, ?Nat.ltb_lt, ?Nat.eqb_neq; lia.
Qed.

Section overlap.
Context `{D : DiffEngine}.

Lemma is_diff_of_disjoint path b c hs :
  is_diff_of path b c hs →
  StronglySorted (λ a b, hunks_overlap a b = false ∧ ∀ s, start_on s a < start_on s b) hs.
Proof.
  intros Hd. destruct (decide (hs = [])) as [->|Hne]; [constructor|].
  destruct (is_diff_of_runs _ _ _ _ Hd Hne) as [_ Hf]. clear Hd Hne.
  assert (cur_at 1 1 None) as Hc by (simpl; lia).
  pose proof (raw_hunks_separated 1 1 None (diff_lines b c) Hc) as Hs.
  revert hs Hf. induction Hs as [|hb hbs Hs IH Hall]; intros hs Hf;
    inversion Hf as [|? h ? hs' Hh Hfs]; subst; constructor; [by apply IH|].
  clear IH Hs Hf.
  induction Hfs as [|hb' h' hbs' hs'' Hf' _ IH']; constructor; inversion Hall as [|?? Hsep]; subst.
  - split; [by eapply separated_no_overlap|]. intros s.
    rewrite (start_on_from_builder s path hb h Hh), (start_on_from_builder s path hb' h' Hf').
    specialize (Hsep s). unfold b_end in Hsep. lia.
  - by apply IH'.
Qed.

Lemma is_diff_of_path path b c hs h : is_diff_of path b c hs → h ∈ hs → hunk_path h = path.
Proof.
  intros Hd Hh. assert (hs ≠ []) as Hne by (intros ->; by apply not_elem_of_nil in Hh).
  destruct (is_diff_of_runs _ _ _ _ Hd Hne) as [_ Hf].
  apply list_elem_of_lookup in Hh as [i Hi].
  destruct (Forall2_lookup_r _ _ _ _ _ Hf Hi) as (hb & _ & Hb).
  unfold from_builder, hunk_core in Hb. by injection Hb.
Qed.

(** In the hunks of one diff a hunk is found by its own content and position. *)
Lemma find_matching_self path b c hs h h' :
  is_diff_of path b c hs → h' ∈ hs → hunk_core h = hunk_core h' →
  find_matching_old_hunk h hs = Some h'.
Proof.
  intros Hd Hh' Hcore. unfold find_matching_old_hunk.
  assert (line_info h = line_info h') as Hli by by injection Hcore.
  assert (h' ∈ filter_b (λ o, hunks_match_content o h) hs) as Hin.
  { apply elem_of_filter_b. split; [done|]. apply hunks_match_content_spec.
    unfold hunk_core in Hcore. naive_solver. }
  destruct (filter_b _ hs) as [|x xs] eqn:E; [set_solver|]. rewrite <-E in Hin |- *.
  set (f := λ o, usize_abs_diff (new_start (line_info o)) (new_start (line_info h))).
  assert (f h' = 0) as Hf0.
  { unfold f. apply usize_abs_diff_0. by rewrite Hli. }
  destruct (min_by_key f _) as [m|] eqn:Em.
  2:{ apply min_by_key_None in Em. rewrite Em in Hin. set_solver. }
  apply min_by_key_spec in Em as [Hm Hle]. specialize (Hle _ Hin).
  apply elem_of_filter_b in Hm as [Hm _]. f_equal.
  assert (start_on New m = start_on New h') as Hst.
  { assert (f m = 0) as Hz by lia. apply (proj1 (usize_abs_diff_0 _ _)) in Hz. simpl. by rewrite Hz, Hli. }
  apply is_diff_of_disjoint in Hd. clear -Hd Hm Hh' Hst.
  induction Hd as [|x l Hs IH Hall]; [set_solver|]. rewrite Forall_forall in Hall.
  apply elem_of_cons in Hm as [->|Hm], Hh' as [->|Hh']; [done|..|by apply IH].
  - destruct (Hall _ Hh') as [_ H]. specialize (H New). lia.
  - destruct (Hall _ Hm) as [_ H]. specialize (H New). lia.
Qed.

End overlap.

(** ** The greedy engine satisfies the laws *)

Lemma break_at_Some x ys pre post : break_at x ys = Some (pre, post) → ys = pre ++ x :: post.
Proof.
  revert pre post. induction ys as [|y ys IH]; simpl; intros pre post H; [done|].
  case_decide; simplify_eq; [done|]. case_match; [|done]. case_match. simplify_eq/=.
  by rewrite (IH _ _ eq_refl).
Qed.

Lemma script_lines_app s a b : script_lines s (a ++ b) = script_lines s a ++ script_lines s b.
Proof. unfold script_lines. by rewrite filter_b_app, fmap_app. Qed.

Lemma script_lines_inserts s ys :
  script_lines s ((Insert,.) <$> ys) = match s with Old => [] | New => ys end.
Proof.
  unfold script_lines. induction ys as [|y ys IH]; [by destruct s|].
  destruct s; csimpl; [done|]. by rewrite IH.
Qed.

Lemma greedy_script_lines xs ys :
  script_lines Old (greedy_script xs ys) = xs ∧ script_lines New (greedy_script xs ys) = ys.
Proof.
  revert ys. induction xs as [|x xs IH]; intros ys; simpl.
  { by rewrite !script_lines_inserts. }
  destruct (break_at x ys) as [[pre post]|] eqn:E.
  - apply break_at_Some in E as ->. destruct (IH post) as [H1 H2].
    rewrite !script_lines_app, !script_lines_inserts. unfold script_lines in *. csimpl.
    by rewrite H1, H2.
  - destruct (IH ys) as [H1 H2]. unfold script_lines in *. csimpl. by rewrite H1, H2.
Qed.

#[export] Instance greedy_laws : DiffLaws greedy_engine.
Proof. split; intros b c _ _; apply greedy_script_lines. Qed.
