(* ===== verification/FileUtils.v ===== *)
(** * Hunk tracker: classifying and reading file contents

    [ds-hunk-tracker/src/actor/file_utils.rs].  The file system is a finite
    map from paths to nodes; what the operating system decides on each call
    (whether an open, read or write succeeds, how many bytes a read returns)
    is the record [IoEnv]. *)

From S2P Require Import Prelude Text HunkTypes.

Definition MAX_TRACKED_TEXT_BYTES : Z := 1024 * 1024.

(** [LFS_POINTER_PREFIX]. *)
Definition LFS_POINTER_PREFIX : text := txtln "version https://git-lfs.github.com/spec/v1".

(** The number of bytes the binary heuristic looks at. *)
Definition BINARY_CHECK_LEN : nat := Z.to_nat 8000.

Definition is_lfs_pointer (bytes : text) : bool :=
  (Z.of_nat (length bytes) <? 1024)%Z && starts_with LFS_POINTER_PREFIX bytes.

Definition is_binary (content : text) : bool :=
  let check_len := Nat.min (length content) BINARY_CHECK_LEN in
  bool_decide (NUL ∈ take check_len content).

Definition classify_bytes (bytes : text) : FileContentState :=
  let byte_len := length bytes in
  if (MAX_TRACKED_TEXT_BYTES <? Z.of_nat byte_len)%Z then TooLarge byte_len
  else if is_lfs_pointer bytes then LfsPointer byte_len
  else if is_binary bytes then Binary (Some byte_len)
  else if utf8_valid bytes then Full bytes
  else Binary (Some byte_len).

Definition classify_string (s : text) : FileContentState :=
  let byte_len := length s in
  if (MAX_TRACKED_TEXT_BYTES <? Z.of_nat byte_len)%Z then TooLarge byte_len
  else if is_lfs_pointer s then LfsPointer byte_len
  else if is_binary s then Binary (Some byte_len)
  else Full s.

Definition missing_content : FileContentState := Missing.

(** ** The file system *)

(** What [symlink_metadata] (lstat) finds at a path. *)
Inductive FsNode :=
  | RegularFile (bytes : text)
  | SymlinkNode
  | DirNode (metadata_len : nat).

Notation Fs := (gmap Path FsNode).

Record IoEnv := mkIoEnv {
  (** [File::open] succeeds *)
  io_open : Path → bool;
  (** the bytes the first [read] returns into a buffer of the given size;
      [None] is an error *)
  io_first_read : Path → nat → option nat;
  (** [read_to_end] succeeds *)
  io_read_rest : Path → bool;
  (** [tokio::fs::write] and [tokio::fs::remove_file] succeed *)
  io_write : Path → bool;
  io_remove : Path → bool;
  (** [Path::exists] and [Path::is_dir] of a symbolic link's target *)
  io_link_exists : Path → bool;
  io_link_is_dir : Path → bool;
}.

Definition path_exists (io : IoEnv) (fs : Fs) (path : Path) : bool :=
  match fs !! path with
  | None => false
  | Some SymlinkNode => io_link_exists io path
  | Some _ => true
  end.

Definition path_is_dir (io : IoEnv) (fs : Fs) (path : Path) : bool :=
  match fs !! path with
  | Some (DirNode _) => true
  | Some SymlinkNode => io_link_is_dir io path
  | _ => false
  end.

(** [read_file_bounded].  Reading a directory is an error. *)
Definition read_file_bounded (io : IoEnv) (fs : Fs) (path : Path) : FileContentState :=
  match fs !! path with
  | None => missing_content
  | Some SymlinkNode => Symlink
  | Some (DirNode len) =>
      if (MAX_TRACKED_TEXT_BYTES <? Z.of_nat len)%Z then TooLarge len else missing_content
  | Some (RegularFile bytes) =>
      let byte_len := length bytes in
      if (MAX_TRACKED_TEXT_BYTES <? Z.of_nat byte_len)%Z then TooLarge byte_len
      else if negb (io_open io path) then missing_content
      else
        let prefix_size := Nat.min BINARY_CHECK_LEN byte_len in
        match io_first_read io path prefix_size with
        | None => missing_content
        | Some n =>
            let n := Nat.min n prefix_size in
            let prefix_buf := take n bytes in
            if is_lfs_pointer prefix_buf then LfsPointer byte_len
            else if is_binary prefix_buf then Binary (Some byte_len)
            else if (prefix_size <? byte_len) && negb (io_read_rest io path) then missing_content
            else
              let full_buf :=
                if prefix_size <? byte_len then prefix_buf ++ drop n bytes else prefix_buf in
              if utf8_valid full_buf then Full full_buf else Binary (Some byte_len)
        end
  end.

#[global] Arguments BINARY_CHECK_LEN : simpl never.

(** ** Properties *)

Lemma LFS_POINTER_PREFIX_valid : utf8_valid LFS_POINTER_PREFIX = true.
Proof. reflexivity. Qed.

Lemma is_binary_take n bytes :
  Nat.min BINARY_CHECK_LEN (length bytes) <= n → is_binary (take n bytes) = is_binary bytes.
Proof.
  unfold is_binary. intros Hn. rewrite length_take, take_take.
  replace (Nat.min (Nat.min (Nat.min n (length bytes)) BINARY_CHECK_LEN) n)
    with (Nat.min (length bytes) BINARY_CHECK_LEN) by lia.
  done.
Qed.

Lemma starts_with_take p n s :
  length p <= n → starts_with p (take n s) = starts_with p s.
Proof.
  revert n s. induction p as [|a p IH]; simpl; intros n s Hn; [done|].
  destruct n as [|n]; [lia|]. destruct s as [|b s]; simpl; [done|].
  rewrite IH by lia. done.
Qed.

Lemma is_lfs_pointer_take bytes :
  is_lfs_pointer (take (Nat.min BINARY_CHECK_LEN (length bytes)) bytes) = is_lfs_pointer bytes.
Proof.
  unfold is_lfs_pointer. rewrite length_take.
  destruct (decide (length bytes <= BINARY_CHECK_LEN)) as [Hle|Hgt].
  - rewrite (Nat.min_r BINARY_CHECK_LEN) by done. by rewrite take_ge, Nat.min_id.
  - unfold BINARY_CHECK_LEN in *. rewrite Nat.min_l by lia.
    replace (Z.of_nat (length bytes) <? 1024)%Z with false by (symmetry; apply Z.ltb_ge; lia).
    rewrite (proj2 (Z.ltb_ge _ _)) by lia. done.
Qed.

(** A read of a regular file that returns what was asked classifies it as
    [classify_bytes] classifies its bytes: the bounded read of the prefix
    loses nothing. *)
Lemma read_file_bounded_classify (io : IoEnv) (fs : Fs) (path : Path) bytes :
  fs !! path = Some (RegularFile bytes) → io_open io path = true →
  io_first_read io path (Nat.min BINARY_CHECK_LEN (length bytes))
    = Some (Nat.min BINARY_CHECK_LEN (length bytes)) →
  io_read_rest io path = true →
  read_file_bounded io fs path = classify_bytes bytes.
Proof.
  intros Hfs Ho Hr Hrest. unfold read_file_bounded, classify_bytes. rewrite Hfs, Ho, Hr, Hrest.
  case_match; [done|]. cbn [negb]. rewrite Nat.min_id, is_lfs_pointer_take, is_binary_take by done.
  case_match; [done|]. case_match; [done|]. rewrite andb_false_r. cbn iota.
  destruct (_ <? length bytes) eqn:E; breflect.
  - by rewrite take_drop.
  - by rewrite take_ge by lia.
Qed.

(** Only text of a tracked size is ever retained. *)
Lemma classify_bytes_Full bytes t :
  classify_bytes bytes = Full t →
  t = bytes ∧ (Z.of_nat (length t) <= MAX_TRACKED_TEXT_BYTES)%Z ∧ utf8_valid t = true
  ∧ is_binary t = false ∧ is_lfs_pointer t = false.
Proof. unfold classify_bytes. repeat case_match; intros; simplify_eq; breflect; auto. Qed.

(** On valid UTF-8 the two classifiers agree. *)
Lemma classify_string_bytes s : utf8_valid s = true → classify_string s = classify_bytes s.
Proof. unfold classify_string, classify_bytes. intros ->. done. Qed.

(** ** Theorems *)

(** Reading a file in two bounded steps classifies it as its whole content
    is classified, when the reads return what was asked; in particular the
    working copy and the HEAD version of the same bytes get the same state, and
    retained text is valid UTF-8 of at most [MAX_TRACKED_TEXT_BYTES] bytes
    without a NUL in its first 8000. *)
Theorem read_file_refines (io : IoEnv) (fs : Fs) (path : Path) (bytes : text) :
  fs !! path = Some (RegularFile bytes) → io_open io path = true →
  io_first_read io path (Nat.min BINARY_CHECK_LEN (length bytes))
    = Some (Nat.min BINARY_CHECK_LEN (length bytes)) →
  io_read_rest io path = true →
  read_file_bounded io fs path = classify_bytes bytes
  ∧ ∀ t, read_file_bounded io fs path = Full t →
      t = bytes ∧ (Z.of_nat (length t) <= MAX_TRACKED_TEXT_BYTES)%Z ∧ utf8_valid t = true
      ∧ NUL ∉ take BINARY_CHECK_LEN t.
Proof.
  intros Hfs Ho Hr Hrest. rewrite (read_file_bounded_classify io fs path bytes) by done.
  split; [done|]. intros t Ht. destruct (classify_bytes_Full bytes t Ht) as (-> & ? & ? & Hbin & _).
  split; [done|]. split; [done|]. split; [done|]. unfold is_binary in Hbin. breflect.
  intros Hin. apply Hbin. destruct (decide (length bytes <= BINARY_CHECK_LEN)).
  - rewrite take_ge in * by lia. done.
  - by rewrite Nat.min_r by lia.
Qed.

Lemma read_file_refines_witness :
  read_file_bounded (mkIoEnv (λ _, true) (λ _ n, Some n) (λ _, true) (λ _, true) (λ _, true)
    (λ _, true) (λ _, false)) {[ ["/"; "f"] := RegularFile (txtln "hello") ]} ["/"; "f"]
  = classify_bytes (txtln "hello").
Proof. apply read_file_refines; vm_compute; reflexivity. Defined.
