(* ===== verification/Tracker.v ===== *)
(** * Hunk tracker: actor state, git access, recomputation

    The state [HunkTrackerActor] owns ([actor/mod.rs], [actor/state.rs]),
    its git reads ([actor/git.rs]) and [recompute_hunks] with the events it
    emits ([actor/hunks.rs]).

    The actor is one task that handles commands one at a time, so its methods
    are functions on the record [Actor].  The record holds the fields of the
    Rust struct and what the actor changes outside itself: the events sent on
    [event_tx], the file system, and the number of UUIDs drawn.  [Env] is the
    rest of the world during one command: the UUID generator, the clock, the
    outcome of file operations, and git as the [gix] crate reports it.

    Iterating a [HashMap] visits its entries in an unspecified order; the
    model uses the order of [map_to_list], and no property depends on it. *)

From S2P Require Import Prelude Text HunkTypes HunkDiff FileUtils.

(** ** The environment *)

(** An entry of the HEAD tree. *)
Inductive HeadEntry := HeadLink | HeadBlob (data : text).

(** One item of [gix]'s status iterator: its repo-relative path and whether
    it is a [TreeIndex] (staged) item. *)
Notation StatusItem := (Path * bool)%type.

Record RepoSyncState := mkSyncState {
  head_oid : option string;
  index_mtime : option Z;
}.

Record Env := mkEnv {
  uuid : nat → HunkId;
  utc_now : Z;
  io : IoEnv;
  (** [dunce::canonicalize] *)
  canonicalize : Path → option Path;
  (** [gix::discover(dir)] and then [repo.workdir()] *)
  gix_discover : Path → option Path;
  (** the entry of the HEAD tree at a repo-relative path; [None] covers every
      failure on the way to it *)
  head_entry : Path → option HeadEntry;
  (** the index file is there and not empty *)
  index_present : bool;
  (** the items of [repo.status(..).into_iter(pathspecs)]; an empty list of
      pathspecs scans the whole worktree; [None] is an error *)
  git_status : list Path → option (list StatusItem);
  repo_head_oid : option string;
  repo_index_mtime : option Z;
}.

(** ** The actor *)

(** [GitRepoState]; of a discovered repository only the prefix matters here,
    the handle being the environment's. *)
Inductive GitRepoState := Unknown | NotARepo | Discovered (prefix : Path).

Record Actor := mkActor {
  working_dir : Path;
  file_states : gmap Path FileHunkState;
  turn_index : gmap nat (gset HunkId);
  git_dirty_cache : gset Path;
  git_staged_cache : gset Path;
  git_repo_state : GitRepoState;
  repo_sync_state : RepoSyncState;
  mode : TrackingMode;
  session_stats : SessionStats;
  (** outside the actor *)
  events : list HunkEvent;
  seed : nat;
  fs : Fs;
}.

(** [HunkTrackerActor::new], in a world with file system [f] where [n] UUIDs
    were drawn. *)
Definition new_actor (wd : Path) (m : TrackingMode) (n : nat) (f : Fs) : Actor :=
  mkActor wd ∅ ∅ ∅ ∅ Unknown (mkSyncState None None) m default_stats [] n f.

#[export] Instance GitRepoState_eq_dec : EqDecision GitRepoState.
Proof. solve_decision. Defined.
#[export] Instance RepoSyncState_eq_dec : EqDecision RepoSyncState.
Proof. solve_decision. Defined.

(** Assignments to one field. *)
Definition set_file_states (m : gmap Path FileHunkState) (a : Actor) : Actor :=
  mkActor (working_dir a) m (turn_index a) (git_dirty_cache a) (git_staged_cache a)
    (git_repo_state a) (repo_sync_state a) (mode a) (session_stats a) (events a) (seed a) (fs a).
Definition set_turn_index (t : gmap nat (gset HunkId)) (a : Actor) : Actor :=
  mkActor (working_dir a) (file_states a) t (git_dirty_cache a) (git_staged_cache a)
    (git_repo_state a) (repo_sync_state a) (mode a) (session_stats a) (events a) (seed a) (fs a).
Definition set_git_caches (d s : gset Path) (a : Actor) : Actor :=
  mkActor (working_dir a) (file_states a) (turn_index a) d s
    (git_repo_state a) (repo_sync_state a) (mode a) (session_stats a) (events a) (seed a) (fs a).
Definition set_git_repo_state (g : GitRepoState) (a : Actor) : Actor :=
  mkActor (working_dir a) (file_states a) (turn_index a) (git_dirty_cache a) (git_staged_cache a)
    g (repo_sync_state a) (mode a) (session_stats a) (events a) (seed a) (fs a).
Definition set_repo_sync_state (r : RepoSyncState) (a : Actor) : Actor :=
  mkActor (working_dir a) (file_states a) (turn_index a) (git_dirty_cache a) (git_staged_cache a)
    (git_repo_state a) r (mode a) (session_stats a) (events a) (seed a) (fs a).
Definition set_mode_field (m : TrackingMode) (a : Actor) : Actor :=
  mkActor (working_dir a) (file_states a) (turn_index a) (git_dirty_cache a) (git_staged_cache a)
    (git_repo_state a) (repo_sync_state a) m (session_stats a) (events a) (seed a) (fs a).
Definition set_session_stats (s : SessionStats) (a : Actor) : Actor :=
  mkActor (working_dir a) (file_states a) (turn_index a) (git_dirty_cache a) (git_staged_cache a)
    (git_repo_state a) (repo_sync_state a) (mode a) s (events a) (seed a) (fs a).
Definition set_seed (n : nat) (a : Actor) : Actor :=
  mkActor (working_dir a) (file_states a) (turn_index a) (git_dirty_cache a) (git_staged_cache a)
    (git_repo_state a) (repo_sync_state a) (mode a) (session_stats a) (events a) n (fs a).
Definition set_fs (f : Fs) (a : Actor) : Actor :=
  mkActor (working_dir a) (file_states a) (turn_index a) (git_dirty_cache a) (git_staged_cache a)
    (git_repo_state a) (repo_sync_state a) (mode a) (session_stats a) (events a) (seed a) f.

(** [send_event], for a run of events. *)
Definition send_events (es : list HunkEvent) (a : Actor) : Actor :=
  mkActor (working_dir a) (file_states a) (turn_index a) (git_dirty_cache a) (git_staged_cache a)
    (git_repo_state a) (repo_sync_state a) (mode a) (session_stats a) (events a ++ es) (seed a) (fs a).
Definition send_event (e : HunkEvent) (a : Actor) : Actor := send_events [e] a.

(** [self.file_states.insert(path, state)] and assignment through
    [self.file_states.get_mut(path)]. *)
Definition put_file (path : Path) (st : FileHunkState) (a : Actor) : Actor :=
  set_file_states (<[path := st]> (file_states a)) a.

(** ** Git ([actor/git.rs]) *)

(** [Path::parent] and [Path::file_name]. *)
Definition path_parent (p : Path) : option Path :=
  match reverse p with
  | [] => None
  | ["/"] => None
  | _ :: r => Some (reverse r)
  end.

Definition path_file_name (p : Path) : option string :=
  match reverse p with
  | [] => None
  | c :: _ => if decide (c = "/" ∨ c = "..") then None else Some c
  end.

Section git.
Context (env : Env).

(** [open_or_discover]: the prefix, and whether it was discovered just now. *)
Definition open_or_discover (cached : GitRepoState) (wd : Path) : option (Path * bool) :=
  match cached with
  | Discovered prefix => Some (prefix, false)
  | Unknown =>
      repo_root ← gix_discover env wd;
      let canonical_working_dir := default wd (canonicalize env wd) in
      let canonical_repo_root := default repo_root (canonicalize env repo_root) in
      prefix ← path_strip_prefix canonical_working_dir canonical_repo_root;
      Some (prefix, true)
  | NotARepo => None
  end.

Definition canonicalize_or_parent (path : Path) : Path :=
  match canonicalize env path with
  | Some p => p
  | None =>
      default path
        (parent ← path_parent path;
         cp ← canonicalize env parent;
         f ← path_file_name path;
         Some (path_join cp [f]))
  end.

(** The repository state after a call: what the first call discovered. *)
Definition after_discovery (cached : GitRepoState) (r : option (Path * bool)) : GitRepoState :=
  match r, cached with
  | None, Unknown => NotARepo
  | Some (prefix, true), _ => Discovered prefix
  | _, _ => cached
  end.

(** The content of [path] at HEAD in a repository with this prefix. *)
Definition head_content (wd prefix path : Path) : FileContentState :=
  let canonical_wd := default wd (canonicalize env wd) in
  match path_strip_prefix (canonicalize_or_parent path) canonical_wd with
  | None => missing_content
  | Some rel =>
      match head_entry env (path_join prefix rel) with
      | None => missing_content
      | Some HeadLink => Symlink
      | Some (HeadBlob data) => classify_bytes data
      end
  end.

Definition read_baseline (path : Path) (a : Actor) : FileContentState * Actor :=
  match git_repo_state a with
  | NotARepo => (missing_content, a)
  | cached =>
      let r := open_or_discover cached (working_dir a) in
      let content :=
        match r with
        | None => missing_content
        | Some (prefix, _) => head_content (working_dir a) prefix path
        end in
      (content, set_git_repo_state (after_discovery cached r) a)
  end.

Definition read_baselines_batch (paths : list Path) (a : Actor)
    : gmap Path FileContentState * Actor :=
  match paths, git_repo_state a with
  | [], _ | _, NotARepo => (∅, a)
  | _, cached =>
      let r := open_or_discover cached (working_dir a) in
      let content path :=
        match r with
        | None => missing_content
        | Some (prefix, _) => head_content (working_dir a) prefix path
        end in
      (list_to_map ((λ p, (p, content p)) <$> paths),
       set_git_repo_state (after_discovery cached r) a)
  end.

Definition read_repo_sync_state (a : Actor) : option RepoSyncState * Actor :=
  match git_repo_state a with
  | NotARepo => (None, a)
  | cached =>
      let r := open_or_discover cached (working_dir a) in
      (match r with
       | None => None
       | Some _ => Some (mkSyncState (repo_head_oid env) (repo_index_mtime env))
       end,
       set_git_repo_state (after_discovery cached r) a)
  end.

(** The blocking part of [refresh_git_dirty_cache]: the dirty and staged
    paths, relative to the working directory. *)
Definition collect_status (prefix : Path) (items : list StatusItem) : gset Path * gset Path :=
  let rels := omap (λ '(p, staged), (λ rel, (rel, staged)) <$> path_strip_prefix p prefix) items in
  (list_to_set (fst <$> rels), list_to_set (fst <$> filter_b (λ x : Path * bool, x.2) rels)).

Definition scan_status (a : Actor) (scope : option (list Path)) : gset Path * gset Path :=
  match open_or_discover (git_repo_state a) (working_dir a) with
  | None => (∅, ∅)
  | Some (prefix, _) =>
      if index_present env then
        let pathspecs := path_join prefix <$> default [] scope in
        match git_status env pathspecs with
        | Some items => collect_status prefix items
        | None => (∅, ∅)
        end
      else (∅, ∅)
  end.

End git.

(** ** Recomputing the hunks of a file ([actor/hunks.rs]) *)

(** [set.remove(&hunk.id)] in the turn index, under the hunk's prompt. *)
Definition remove_from_turn_index (id : HunkId) (source : HunkSource)
    (t : gmap nat (gset HunkId)) : gmap nat (gset HunkId) :=
  match prompt_index source with
  | Some i => alter (λ s, s ∖ {[id]}) i t
  | None => t
  end.

(** [turn_index.entry(i).or_default().insert(id)]. *)
Definition add_to_turn_index (id : HunkId) (source : HunkSource)
    (t : gmap nat (gset HunkId)) : gmap nat (gset HunkId) :=
  match prompt_index source with
  | Some i => <[i := {[id]} ∪ default ∅ (t !! i)]> t
  | None => t
  end.

(** The loop that keeps the identity, and an agent's authorship, of the old
    hunk each new hunk continues. *)
Fixpoint preserve_ids (old_hunks : list Hunk) (claimed : gset HunkId) (new_hunks : list Hunk)
    : list Hunk :=
  match new_hunks with
  | [] => []
  | h :: rest =>
      match find_matching_old_hunk h old_hunks with
      | None => h :: preserve_ids old_hunks claimed rest
      | Some m =>
          if decide (hunk_id m ∈ claimed) then h :: preserve_ids old_hunks claimed rest
          else
            let h1 := set_hunk_id (hunk_id m) h in
            let h2 :=
              if is_external (hunk_source h1) && is_agent_edit (hunk_source m)
              then set_hunk_source (hunk_source m) h1 else h1 in
            h2 :: preserve_ids old_hunks ({[hunk_id m]} ∪ claimed) rest
      end
  end.

(** [emit_hunk_diff_events]: the events, in order. *)
Definition removed_events (path : Path) (old_hunks new_hunks : list Hunk) : list HunkEvent :=
  omap (λ o,
    if any_b (λ n, hunks_overlap o n || hunks_match_content o n) new_hunks then None
    else Some (HunkRemoved path (hunk_id o) Superseded)) old_hunks.

Definition changed_event (path : Path) (old_hunks : list Hunk) (trigger : HunkSource)
    (n : Hunk) : HunkEvent :=
  let prev :=
    match find_b (λ o, bool_decide (hunk_id o = hunk_id n)) old_hunks with
    | Some o => Some o
    | None => find_b (λ o, hunks_overlap o n) old_hunks
    end in
  let '(pa, pr) :=
    match prev with
    | Some p => (new_count (line_info p), old_count (line_info p))
    | None => (0, 0)
    end in
  HunkContentChanged path n trigger pa pr.

Definition added_events (path : Path) (old_hunks new_hunks : list Hunk)
    (trigger : HunkSource) : list HunkEvent :=
  omap (λ n,
    match find_b (λ o, hunks_match_content o n) old_hunks with
    | Some o =>
        if hunk_moved o n then Some (HunkMoved path (hunk_id o) (line_info n)) else None
    | None =>
        if any_b (λ o, hunks_overlap o n) old_hunks
        then Some (changed_event path old_hunks trigger n)
        else Some (HunkAdded path n)
    end) new_hunks.

Definition emit_hunk_diff_events (path : Path) (old_hunks new_hunks : list Hunk)
    (trigger : HunkSource) : list HunkEvent :=
  removed_events path old_hunks new_hunks ++ added_events path old_hunks new_hunks trigger.

Section recompute.
Context `{D : DiffEngine} (env : Env).

(** The hunks of a pair of content states. *)
Definition content_hunks (path : Path) (base cur : FileContentState) (source : HunkSource)
    (n : nat) : list Hunk * nat :=
  match base, cur with
  | Full b, Full c => compute_hunks (uuid env) (utc_now env) path b c source n
  | Full b, Missing =>
      if decide (b = []) then ([], n)
      else ([file_deleted (uuid env n) (utc_now env) path b source], S n)
  | Missing, Full c =>
      if decide (c = []) then ([], n)
      else ([file_created (uuid env n) (utc_now env) path c source], S n)
  | _, _ => ([], n)
  end.

Definition recompute_hunks (path : Path) (new_current : option FileContentState)
    (source : HunkSource) (a : Actor) : Actor :=
  match file_states a !! path with
  | None => a
  | Some st =>
      let old_hunks := hunks st in
      let cur := default missing_content new_current in
      let '(fresh, n) := content_hunks path (baseline st) cur source (seed a) in
      let new_hunks := preserve_ids old_hunks ∅ fresh in
      let st' := mkFileState (baseline st) cur new_hunks (is_agent_file st) (baseline_accepted st) in
      let t := foldl (λ t h, remove_from_turn_index (hunk_id h) (hunk_source h) t)
                 (turn_index a) old_hunks in
      let t := foldl (λ t h, add_to_turn_index (hunk_id h) (hunk_source h) t) t new_hunks in
      send_events (emit_hunk_diff_events path old_hunks new_hunks source)
        (set_turn_index t (set_seed n (put_file path st' a)))
  end.

End recompute.
