(* ===== verification/TrackerActions.v ===== *)
(** * Hunk tracker: accepting and rejecting hunks

    [ds-hunk-tracker/src/actor/actions.rs].  Accepting patches the baseline,
    rejecting patches the file on disk; both recompute the remaining hunks.
    An action that fails returns [Err] with the state it leaves behind. *)

From S2P Require Import Prelude Text HunkTypes HunkDiff FileUtils Tracker.

Inductive result (A : Type) :=
  | Ok (x : A)
  | Err (e : HunkActionError).
Arguments Ok {A} _.
Arguments Err {A} _.

(** [update_session_stats]. *)
Definition update_session_stats (li : HunkLineInfo) (accepted : bool) (s : SessionStats)
    : SessionStats :=
  let lines_added := new_count li in
  let lines_removed := old_count li in
  if accepted then
    mkStats (usize_saturating_add (accepted_hunks s) 1) (rejected_hunks s)
      (usize_saturating_add (accepted_lines_added s) lines_added)
      (usize_saturating_add (accepted_lines_removed s) lines_removed)
      (rejected_lines_added s) (rejected_lines_removed s)
  else
    mkStats (accepted_hunks s) (usize_saturating_add (rejected_hunks s) 1)
      (accepted_lines_added s) (accepted_lines_removed s)
      (usize_saturating_add (rejected_lines_added s) lines_added)
      (usize_saturating_add (rejected_lines_removed s) lines_removed).

(** Statistics and turn index, before a hunk is acted on. *)
Definition account_hunk (accepted : bool) (a : Actor) (h : Hunk) : Actor :=
  set_turn_index (remove_from_turn_index (hunk_id h) (hunk_source h) (turn_index a))
    (set_session_stats (update_session_stats (line_info h) accepted (session_stats a)) a).

(** [state.hunks.retain(|h| !hunk_ids.contains(&h.id))]. *)
Definition retain_hunks (gone : list Hunk) (hs : list Hunk) : list Hunk :=
  filter_b (λ h, negb (bool_decide (hunk_id h ∈ (hunk_id <$> gone)))) hs.

Definition set_baseline_hunks (b : FileContentState) (hs : list Hunk) (st : FileHunkState)
    : FileHunkState :=
  mkFileState b (current_content st) hs (is_agent_file st) true.

Definition set_current_hunks (c : FileContentState) (hs : list Hunk) (st : FileHunkState)
    : FileHunkState :=
  mkFileState (baseline st) c hs (is_agent_file st) (baseline_accepted st).

Definition removed_event (path : Path) (reason : HunkRemovalReason) (h : Hunk) : HunkEvent :=
  HunkRemoved path (hunk_id h) reason.

(** [state.hunks.first().map(|h| h.source).unwrap_or(HunkSource::External)]. *)
Definition remaining_source (path : Path) (a : Actor) : HunkSource :=
  match file_states a !! path with
  | Some st => match hunks st with h :: _ => hunk_source h | [] => External end
  | None => External
  end.

(** [tokio::fs::write] and [tokio::fs::remove_file]. *)
Definition fs_write (env : Env) (path : Path) (content : text) (a : Actor) : option Actor :=
  if io_write (io env) path then Some (set_fs (<[path := RegularFile content]> (fs a)) a) else None.

Definition fs_remove (env : Env) (path : Path) (a : Actor) : option Actor :=
  if io_remove (io env) path then Some (set_fs (delete path (fs a)) a) else None.

Section actions.
Context `{D : DiffEngine} (env : Env).

(** ** One hunk *)

Definition accept_hunk (path : Path) (h : Hunk) (a : Actor) : Actor :=
  match file_states a !! path with
  | None => a
  | Some st =>
      let hs := retain_hunks [h] (hunks st) in
      let note := [removed_event path Accepted h; BaselineUpdated path] in
      match baseline st with
      | Missing =>
          send_events note (put_file path (set_baseline_hunks (current_content st) hs st) a)
      | b =>
          let b' :=
            match b with
            | Full t =>
                Full (patch_lines t (old_start (line_info h)) (old_count (line_info h)) (new_text h))
            | _ => b
            end in
          let a := send_events note (put_file path (set_baseline_hunks b' hs st) a) in
          recompute_hunks env path (Some (current_content st)) (remaining_source path a) a
      end
  end.

Inductive RejectAction :=
  | RestoreDeleted (baseline : text)
  | DeleteCreated
  | RevertChange (patched : text)
  | NoOp.

(** What [reject_hunk] decides to do. *)
Definition reject_action (st : FileHunkState) (h : Hunk) : RejectAction :=
  match baseline st, current_content st with
  | Full b, Missing => RestoreDeleted b
  | Missing, Full _ => DeleteCreated
  | _, Full c =>
      RevertChange
        (patch_lines c (new_start (line_info h)) (new_count (line_info h)) (default [] (old_text h)))
  | _, _ => NoOp
  end.

Definition reject_hunk (path : Path) (h : Hunk) (a : Actor) : Actor * result unit :=
  match file_states a !! path with
  | None => (a, Ok tt)
  | Some st =>
      let hs := retain_hunks [h] (hunks st) in
      let note := [removed_event path Rejected h] in
      match reject_action st h with
      | RestoreDeleted b =>
          match fs_write env path b a with
          | None => (a, Err (WriteError path))
          | Some a =>
              (send_events note (put_file path (set_current_hunks (Full b) hs st) a), Ok tt)
          end
      | DeleteCreated =>
          match fs_remove env path a with
          | None => (a, Err (DeleteError path))
          | Some a =>
              (send_events note (put_file path (set_current_hunks Missing hs st) a), Ok tt)
          end
      | RevertChange patched =>
          match fs_write env path patched a with
          | None => (a, Err (WriteError path))
          | Some a =>
              let a := send_events note (put_file path (set_current_hunks (Full patched) hs st) a) in
              (recompute_hunks env path (Some (Full patched)) (remaining_source path a) a, Ok tt)
          end
      | NoOp => (a, Ok tt)
      end
  end.

(** The file that holds a hunk, and the hunk: the [find_map] of
    [apply_hunk_action]. *)
Definition find_in_files (id : HunkId) (files : list (Path * FileHunkState))
    : option (Path * Hunk) :=
  match omap (λ '(p, st), (λ h, (p, h)) <$> find_b (λ h, bool_decide (hunk_id h = id)) (hunks st))
          files with
  | x :: _ => Some x
  | [] => None
  end.

Definition apply_hunk_action (id : HunkId) (action : HunkAction) (a : Actor) : Actor * result unit :=
  match find_in_files id (map_to_list (file_states a)) with
  | None => (a, Err (HunkNotFound id))
  | Some (path, h) =>
      let a := account_hunk (bool_decide (action = Accept)) a h in
      match action with
      | Accept => (accept_hunk path h a, Ok tt)
      | Reject => reject_hunk path h a
      end
  end.

(** ** Several hunks of a file *)

Definition accept_hunks_batch (path : Path) (hs : list Hunk) (a : Actor) : Actor :=
  match hs, file_states a !! path with
  | [], _ | _, None => a
  | _, Some st =>
      let rest := retain_hunks hs (hunks st) in
      let note := (removed_event path Accepted <$> hs) ++ [BaselineUpdated path] in
      match baseline st with
      | Missing =>
          send_events note (put_file path (set_baseline_hunks (current_content st) rest st) a)
      | b =>
          let sorted := sort_by_key_rev (λ h, old_start (line_info h)) hs in
          let patch b h :=
            match b with
            | Full t =>
                Full (patch_lines t (old_start (line_info h)) (old_count (line_info h)) (new_text h))
            | _ => b
            end in
          let b' := foldl patch b sorted in
          let a := send_events note (put_file path (set_baseline_hunks b' rest st) a) in
          recompute_hunks env path (Some (current_content st)) (remaining_source path a) a
      end
  end.

Definition reject_hunks_batch (path : Path) (hs : list Hunk) (a : Actor) : Actor * result unit :=
  match hs, file_states a !! path with
  | [], _ | _, None => (a, Ok tt)
  | _, Some st =>
      let rest := retain_hunks hs (hunks st) in
      let note := removed_event path Rejected <$> hs in
      match baseline st, current_content st with
      | Full b, Missing =>
          match fs_write env path b a with
          | None => (a, Err (WriteError path))
          | Some a => (send_events note (put_file path (set_current_hunks (baseline st) rest st) a), Ok tt)
          end
      | Missing, Full _ =>
          match fs_remove env path a with
          | None => (a, Err (DeleteError path))
          | Some a => (send_events note (put_file path (set_current_hunks Missing rest st) a), Ok tt)
          end
      | _, Full c =>
          let sorted := sort_by_key_rev (λ h, new_start (line_info h)) hs in
          let patch c h :=
            patch_lines c (new_start (line_info h)) (new_count (line_info h))
              (default [] (old_text h)) in
          let c' := foldl patch c sorted in
          match fs_write env path c' a with
          | None => (a, Err (WriteError path))
          | Some a =>
              let a := send_events note (put_file path (set_current_hunks (Full c') rest st) a) in
              (recompute_hunks env path (Some (Full c')) (remaining_source path a) a, Ok tt)
          end
      | _, _ => (a, Ok tt)
      end
  end.

(** [apply_action_batch]: the first error stops the loop. *)
Fixpoint apply_action_batch (files : list (Path * list Hunk)) (action : HunkAction)
    (affected : list HunkId) (a : Actor) : Actor * result (list HunkId) :=
  match files with
  | [] => (a, Ok affected)
  | (path, hs) :: files' =>
      let a := foldl (account_hunk (bool_decide (action = Accept))) a hs in
      let affected := affected ++ (hunk_id <$> hs) in
      match action with
      | Accept => apply_action_batch files' action affected (accept_hunks_batch path hs a)
      | Reject =>
          match reject_hunks_batch path hs a with
          | (a, Ok _) => apply_action_batch files' action affected a
          | (a, Err e) => (a, Err e)
          end
      end
  end.

Definition apply_file_action (path : Path) (action : HunkAction) (a : Actor)
    : Actor * result (list HunkId) :=
  match file_states a !! path with
  | None => (a, Ok [])
  | Some st =>
      match hunks st with
      | [] => (a, Ok [])
      | hs => apply_action_batch [(path, hs)] action [] a
      end
  end.

(** The files with hunks that satisfy [p], and those hunks. *)
Definition files_with_hunks (p : Hunk → bool) (a : Actor) : list (Path * list Hunk) :=
  omap (λ '(path, st),
    match filter_b p (hunks st) with [] => None | hs => Some (path, hs) end)
    (map_to_list (file_states a)).

Definition apply_all_action (action : HunkAction) (a : Actor) : Actor * result (list HunkId) :=
  apply_action_batch (files_with_hunks (λ _, true) a) action [] a.

Definition apply_turn_action (i : nat) (action : HunkAction) (a : Actor)
    : Actor * result (list HunkId) :=
  apply_action_batch
    (files_with_hunks (λ h, bool_decide (prompt_index (hunk_source h) = Some i)) a) action [] a.

End actions.
