(* ===== verification/TrackerMutations.v ===== *)
(** * Hunk tracker: file changes

    [ds-hunk-tracker/src/actor/mutations.rs] and [refresh_git_dirty_cache] of
    [actor/git.rs]: agent writes, file-system notifications, baseline resets
    and refreshes, mode changes. *)

From S2P Require Import Prelude Text HunkTypes HunkDiff FileUtils Tracker.

(** [strip_single_trailing_newline]. *)
Definition strip_single_trailing_newline (content : text) : text :=
  match strip_crlf content with
  | Some s => s
  | None => default content (strip_last LF content)
  end.

(** [path.strip_prefix(&self.working_dir).unwrap_or(&path)]: the key of a path
    in the git caches. *)
Definition cache_key (a : Actor) (path : Path) : Path :=
  default path (path_strip_prefix path (working_dir a)).

Definition in_dirty_cache (a : Actor) (path : Path) : bool :=
  bool_decide (cache_key a path ∈ git_dirty_cache a).

(** The state of a file when it enters [file_states]. *)
Definition new_file_state (b c : FileContentState) (agent : bool) : FileHunkState :=
  mkFileState b c [] agent false.

Definition track_file (path : Path) (b c : FileContentState) (agent : bool) (a : Actor) : Actor :=
  send_event (FileAdded path agent) (put_file path (new_file_state b c agent) a).

(** The loop over [old_hunks] that takes each hunk out of the turn index and
    announces its removal, in [reset_baseline], [refresh_all_baselines_except]
    and [set_mode]. *)
Definition supersede_hunk (path : Path) (a : Actor) (h : Hunk) : Actor :=
  send_event (HunkRemoved path (hunk_id h) Superseded)
    (set_turn_index (remove_from_turn_index (hunk_id h) (hunk_source h) (turn_index a)) a).

Definition supersede_hunks (path : Path) (hs : list Hunk) (a : Actor) : Actor :=
  foldl (supersede_hunk path) a hs.

(** [if is_agent_file { ExternalEditOnAgentFile } else { External }]. *)
Definition external_source (path : Path) (a : Actor) : HunkSource :=
  match file_states a !! path with
  | Some st => if is_agent_file st then ExternalEditOnAgentFile else External
  | None => External
  end.

Section mutations.
Context `{D : DiffEngine} (env : Env).

(** ** Agent writes *)

Definition record_agent_write (path : Path) (content : text) (i : nat)
    (previous_content : option text) (a : Actor) : Actor :=
  let current := classify_string content in
  if negb (is_diffable current) then
    match file_states a !! path with
    | None =>
        let '(b, a) :=
          match previous_content with
          | Some prev => (classify_string prev, a)
          | None => read_baseline env path a
          end in
        track_file path b current true a
    | Some st => put_file path (mkFileState (baseline st) current [] true (baseline_accepted st)) a
    end
  else
    let a :=
      match file_states a !! path with
      | None =>
          let '(b, a) := read_baseline env path a in
          let b :=
            match b with
            | Missing => default missing_content (classify_string <$> previous_content)
            | other => other
            end in
          track_file path b current true a
      | Some st =>
          put_file path
            (mkFileState (baseline st) (current_content st) (hunks st) true (baseline_accepted st)) a
      end in
    recompute_hunks env path (Some current) (AgentEdit i) a.

(** ** File-system notifications *)

(** [match preloaded_baseline.take() { Some(b) => b, None => read_baseline }]. *)
Definition take_baseline (path : Path) (preloaded : option FileContentState) (a : Actor)
    : FileContentState * Actor :=
  match preloaded with
  | Some b => (b, a)
  | None => read_baseline env path a
  end.

(** Not in HEAD and not dirty: git ignores the file. *)
Definition is_ignored (path : Path) (b : FileContentState) (a : Actor) : bool :=
  bool_decide (mode a = AllDirty) && bool_decide (b = Missing)
  && negb (path_is_dir (io env) (fs a) path) && negb (in_dirty_cache a path).

Definition content_matches_head (a : Actor) (path : Path) (current head : FileContentState) : bool :=
  match current, head with
  | Full c, Full h =>
      bool_decide (strip_single_trailing_newline c = strip_single_trailing_newline h)
  | Missing, Missing | Binary _, Binary _ | TooLarge _, TooLarge _
  | LfsPointer _, LfsPointer _ | Symlink, Symlink => true
  | Symlink, Full _ | Full _, Symlink => negb (in_dirty_cache a path)
  | _, _ => false
  end.

(** An untracked file whose content cannot be diffed. *)
Definition track_non_diffable (path : Path) (preloaded : option FileContentState)
    (current : FileContentState) (a : Actor) : Actor :=
  let '(b, a) :=
    if decide (mode a = AllDirty) then take_baseline path preloaded a
    else (missing_content, a) in
  if is_ignored path b a then a
  else
    let a := track_file path b current false a in
    if is_diffable b then recompute_hunks env path None External a else a.

Definition process_file_change (path : Path) (preloaded : option FileContentState) (a : Actor)
    : Actor :=
  let recompute current a :=
    recompute_hunks env path (Some current) (external_source path a) a in
  match file_states a !! path with
  | None =>
      if decide (mode a = AgentOnly) then a
      else
        let current := read_file_bounded (io env) (fs a) path in
        if negb (is_diffable current) then track_non_diffable path preloaded current a
        else
          let '(b, a) := take_baseline path preloaded a in
          if is_ignored path b a then a
          else recompute current (track_file path b missing_content false a)
  | Some st =>
      let current := read_file_bounded (io env) (fs a) path in
      if baseline_accepted st then
        let '(head, a) := take_baseline path preloaded a in
        if content_matches_head a path current head
        then put_file path (mkFileState head head [] (is_agent_file st) false) a
        else recompute current a
      else recompute current a
  end.

Definition handle_file_change (path : Path) (a : Actor) : Actor :=
  process_file_change path None a.

(** The paths of a batch whose baseline has to be read. *)
Definition needs_baseline (a : Actor) (path : Path) : bool :=
  match file_states a !! path with
  | None => negb (bool_decide (mode a = AgentOnly))
  | Some st => baseline_accepted st
  end.

(** The loop over the batch: each preloaded baseline is used once. *)
Fixpoint process_file_changes (paths : list Path) (baselines : gmap Path FileContentState)
    (a : Actor) : Actor :=
  match paths with
  | [] => a
  | path :: paths' =>
      process_file_changes paths' (delete path baselines)
        (process_file_change path (baselines !! path) a)
  end.

Definition handle_file_changes_batch (paths : list Path) (a : Actor) : Actor :=
  match paths with
  | [] => a
  | _ =>
      let baseline_paths := filter_b (needs_baseline a) paths in
      let '(baselines, a) := read_baselines_batch env baseline_paths a in
      process_file_changes paths baselines a
  end.

Definition handle_file_deleted (path : Path) (a : Actor) : Actor :=
  match file_states a !! path with
  | None =>
      if decide (mode a = AgentOnly) then a
      else if path_exists (io env) (fs a) path then a
      else
        let '(b, a) := read_baseline env path a in
        match b with
        | Missing => a
        | _ => recompute_hunks env path None External (track_file path b missing_content false a)
        end
  | Some _ =>
      if path_exists (io env) (fs a) path then handle_file_change path a
      else recompute_hunks env path None (external_source path a) a
  end.

(** ** Git *)

(** [refresh_git_dirty_cache]. *)
Definition refresh_git_dirty_cache (scope : option (list Path)) (a : Actor) : Actor :=
  match git_repo_state a with
  | NotARepo => a
  | cached =>
      let '(dirty, staged) := scan_status env a scope in
      let a := set_git_repo_state
                 (after_discovery cached (open_or_discover env cached (working_dir a))) a in
      let paths_to_track :=
        filter_b (λ rel, bool_decide (file_states a !! path_join (working_dir a) rel = None))
          (elements dirty) in
      let a := set_git_caches dirty staged a in
      if decide (mode a = AllDirty) then
        foldl (λ a rel, handle_file_change (path_join (working_dir a) rel) a) a paths_to_track
      else a
  end.

Definition reset_baseline (path : Path) (a : Actor) : Actor :=
  match file_states a !! path with
  | None => a
  | Some st =>
      let c := current_content st in
      send_event (BaselineUpdated path)
        (supersede_hunks path (hunks st)
           (put_file path (mkFileState c c [] (is_agent_file st) false) a))
  end.

(** The [is_clean] match of [refresh_all_baselines_except]. *)
Definition is_clean (a : Actor) (path : Path) (b c : FileContentState) : bool :=
  match b, c with
  | Full b, Full c =>
      bool_decide (strip_single_trailing_newline b = strip_single_trailing_newline c)
  | Binary _, Binary _ | TooLarge _, TooLarge _ | LfsPointer _, LfsPointer _ | Symlink, Symlink =>
      negb (in_dirty_cache a path)
  | LfsPointer _, _ | _, LfsPointer _ => negb (in_dirty_cache a path)
  | Symlink, Full _ | Full _, Symlink => negb (in_dirty_cache a path)
  | Missing, Missing => negb (path_exists (io env) (fs a) path)
  | Missing, _ => negb (in_dirty_cache a path)
  | _, _ => false
  end.

(** One iteration of the refresh loop. *)
Definition refresh_file (path : Path) (b c : FileContentState) (a : Actor) : Actor :=
  match file_states a !! path with
  | None => a
  | Some st =>
      let a := put_file path (mkFileState b c (hunks st) (is_agent_file st) false) a in
      if is_clean a path b c then
        if is_agent_file st then
          send_event (BaselineUpdated path)
            (supersede_hunks path (hunks st)
               (put_file path (mkFileState b c [] (is_agent_file st) false) a))
        else
          send_event (FileRemoved path)
            (supersede_hunks path (hunks st)
               (set_file_states (delete path (file_states a)) a))
      else
        let source := if is_agent_file st then ExternalEditOnAgentFile else External in
        send_event (BaselineUpdated path) (recompute_hunks env path (Some c) source a)
  end.

(** The loop of the refresh over the tracked paths outside [skip], with the
    baselines and contents read before it. *)
Definition refresh_files (skip : gset Path) (a : Actor) : Actor :=
  let paths := filter_b (λ p, negb (bool_decide (p ∈ skip))) (map_to_list (file_states a)).*1 in
  let '(baselines, a) := read_baselines_batch env paths a in
  let contents : gmap Path FileContentState :=
    list_to_map ((λ p, (p, read_file_bounded (io env) (fs a) p)) <$> paths) in
  foldl (λ a path,
    refresh_file path (default missing_content (baselines !! path))
      (default missing_content (contents !! path)) a) a paths.

(** The dirty and staged caches, before the loop. *)
Definition refresh_caches (a : Actor) : Actor :=
  match mode a with
  | AllDirty => refresh_git_dirty_cache None a
  | AgentOnly =>
      match omap (λ p, path_strip_prefix p (working_dir a)) (map_to_list (file_states a)).*1 with
      | [] => set_git_caches ∅ ∅ a
      | rels => refresh_git_dirty_cache (Some rels) a
      end
  end.

Definition refresh_all_baselines_except (skip : gset Path) (a : Actor) : Actor :=
  if decide (mode a = AgentOnly ∧ file_states a = ∅) then a
  else
    let '(sync, a) := read_repo_sync_state env a in
    match sync with
    | Some s =>
        if decide (s = repo_sync_state a) then a
        else refresh_files skip (refresh_caches (set_repo_sync_state s a))
    | None => refresh_files skip (refresh_caches a)
    end.

Definition refresh_all_baselines (a : Actor) : Actor := refresh_all_baselines_except ∅ a.

(** ** Mode *)

(** One iteration of the loop that forgets the files no agent wrote. *)
Definition drop_file (a : Actor) (path : Path) : Actor :=
  match file_states a !! path with
  | None => a
  | Some st =>
      send_event (FileRemoved path)
        (supersede_hunks path (hunks st) (set_file_states (delete path (file_states a)) a))
  end.

Definition set_mode (m : TrackingMode) (a : Actor) : Actor :=
  let old_mode := mode a in
  let a := set_mode_field m a in
  match old_mode, m with
  | AgentOnly, AllDirty => refresh_git_dirty_cache None a
  | AllDirty, AgentOnly =>
      let non_agent_paths :=
        (filter_b (λ x : Path * FileHunkState, negb (is_agent_file x.2))
           (map_to_list (file_states a))).*1 in
      foldl drop_file a non_agent_paths
  | _, _ => a
  end.

End mutations.
