(* ===== verification/TrackerQueries.v ===== *)
(** * Hunk tracker: queries, snapshots

    The read-only queries of [ds-hunk-tracker/src/actor/queries.rs], the
    snapshots of [actor/mod.rs], and [HunkTrackerSnapshot::rewrite_paths] of
    [types.rs]. *)

From S2P Require Import Prelude Text HunkTypes HunkDiff FileUtils Tracker.

(** ** Queries *)

(** [self.file_states.values()]. *)
Definition file_values (a : Actor) : list FileHunkState := (map_to_list (file_states a)).*2.

Definition get_all_hunks (a : Actor) : list Hunk := file_values a ≫= hunks.

Definition get_hunks_for_path (a : Actor) (path : Path) : list Hunk :=
  default [] (hunks <$> file_states a !! path).

(** [get_file_hunk_data]; an underflow in [generate_hunk_patch] is [None]. *)
Definition hunk_with_patch (baseline_text current_text : option text) (h : Hunk) : option Hunk :=
  match baseline_text, current_text with
  | Some b, Some c => p ← generate_hunk_patch b c h; Some (set_hunk_patch (Some p) h)
  | None, Some c => p ← generate_hunk_patch [] c h; Some (set_hunk_patch (Some p) h)
  | Some b, None => p ← generate_hunk_patch b [] h; Some (set_hunk_patch (Some p) h)
  | None, None => Some (set_hunk_patch None h)
  end.

(** [FileHunkData::default()]. *)
Definition default_hunk_data : FileHunkData :=
  mkFileHunkData [] (from_content_state Missing) (from_content_state Missing) None None.

Definition get_file_hunk_data (a : Actor) (path : Path) : option FileHunkData :=
  match file_states a !! path with
  | None => Some default_hunk_data
  | Some st =>
      hs ← mapM (hunk_with_patch (as_str (baseline st)) (as_str (current_content st))) (hunks st);
      let b := from_content_state (baseline st) in
      let c := from_content_state (current_content st) in
      Some (mkFileHunkData hs b c (view_content b) (view_content c))
  end.

Definition get_all_tracked_paths (a : Actor) : list Path := (map_to_list (file_states a)).*1.

Definition get_hunks_by_source (a : Actor) (source : HunkSourceFilter) : list Hunk :=
  filter_b (λ h,
    match source with
    | FilterAgent => is_agent_edit (hunk_source h)
    | FilterExternal => is_external (hunk_source h)
    end) (get_all_hunks a).

Definition get_hunk (a : Actor) (id : HunkId) : option Hunk :=
  find_b (λ h, bool_decide (hunk_id h = id)) (get_all_hunks a).

Definition get_hunks_for_turn (a : Actor) (i : nat) : list Hunk :=
  match turn_index a !! i with
  | None => []
  | Some ids => omap (get_hunk a) (elements ids)
  end.

Definition is_agent_file_query (a : Actor) (path : Path) : bool :=
  default false (is_agent_file <$> file_states a !! path).

Definition get_staged_files (a : Actor) : gset Path :=
  set_map (path_join (working_dir a)) (git_staged_cache a).

Definition get_all_file_contents (a : Actor) : list FileContentEntry :=
  (λ '(path, st),
    let rel := default path (path_strip_prefix path (working_dir a)) in
    mkContentEntry path (from_content_state (baseline st)) (from_content_state (current_content st))
      (is_agent_file st) (bool_decide (rel ∈ git_staged_cache a)))
  <$> map_to_list (file_states a).

(** ** Session summary *)

(** [TurnData], under its prompt index. *)
Definition turn_data (i : nat) (m : gmap nat TurnSummary) : TurnSummary :=
  default (mkTurnSummary i ∅ [] 0 0) (m !! i).

(** One hunk of [path] in the accumulation loop: the summaries by prompt, the
    number of unattributed hunks, and [has_agent_hunks]. *)
Definition summary_step (path : Path) (acc : gmap nat TurnSummary * nat * bool) (h : Hunk)
    : gmap nat TurnSummary * nat * bool :=
  let '(by_prompt, unattributed, agent) := acc in
  match prompt_index (hunk_source h) with
  | Some i =>
      let e := turn_data i by_prompt in
      let e := mkTurnSummary i ({[path]} ∪ turn_files e) (turn_pending_hunks e ++ [h])
                 (usize_add (turn_lines_added e) (new_count (line_info h)))
                 (usize_add (turn_lines_removed e) (old_count (line_info h))) in
      (<[i := e]> by_prompt, unattributed, true)
  | None => (by_prompt, usize_add unattributed 1, agent)
  end.

(** The accumulation over the files. *)
Fixpoint summary_files (files : list (Path * FileHunkState)) (by_prompt : gmap nat TurnSummary)
    (unattributed : nat) (pending : gset Path) : gmap nat TurnSummary * nat * gset Path :=
  match files with
  | [] => (by_prompt, unattributed, pending)
  | (path, st) :: files' =>
      let '(m, u, agent) := foldl (summary_step path) (by_prompt, unattributed, false) (hunks st) in
      summary_files files' m u (if agent : bool then {[path]} ∪ pending else pending)
  end.

Definition usize_sum (l : list nat) : nat := foldl usize_add 0 l.

Definition compute_session_summary (a : Actor) : SessionSummary :=
  let '(by_prompt, unattributed, pending) :=
    summary_files (map_to_list (file_states a)) ∅ 0 ∅ in
  let turns := sort_by_key turn_prompt_index (map_to_list by_prompt).*2 in
  mkSummary (session_stats a) turns (size pending) (size pending)
    (usize_sum ((λ t, length (turn_pending_hunks t)) <$> turns))
    (usize_sum (turn_lines_added <$> turns))
    (usize_sum (turn_lines_removed <$> turns))
    unattributed.

(** ** Snapshots *)

Definition snapshot_file_state (st : FileHunkState) : FileHunkStateSnapshot :=
  mkFileSnapshot (baseline st) (current_content st) (hunks st) (is_agent_file st)
    (baseline_accepted st).

Definition take_snapshot (a : Actor) : HunkTrackerSnapshot :=
  mkSnapshot (snapshot_file_state <$> file_states a) (turn_index a) (session_stats a).

Definition take_turn_delta (a : Actor) (i : nat) : HunkTurnDelta :=
  let hunk_ids := default ∅ (turn_index a !! i) in
  let touched st := any_b (λ h, bool_decide (hunk_id h ∈ hunk_ids)) (hunks st) in
  mkTurnDelta i
    (snapshot_file_state <$> base.filter (λ x, touched x.2 = true) (file_states a)) hunk_ids.

(** The [FileHunkState] a snapshot is restored to. *)
Definition restore_file_state (snap : FileHunkStateSnapshot) : FileHunkState :=
  mkFileState (snap_baseline snap) (snap_current_content snap) (snap_hunks snap)
    (snap_is_agent_file snap) (snap_baseline_accepted snap).

Definition restore_snapshot (s : HunkTrackerSnapshot) (a : Actor) : Actor :=
  set_session_stats (snap_session_stats s)
    (set_turn_index (snap_turn_index s)
       (set_file_states (restore_file_state <$> snap_file_states s) a)).

(** [rewrite_single_path]. *)
Definition rewrite_single_path (path old_cwd canonical_old new_cwd : Path) : option Path :=
  let relative :=
    match path_strip_prefix path canonical_old with
    | Some rel => Some rel
    | None => path_strip_prefix path old_cwd
    end in
  path_join new_cwd <$> relative.

(** One entry of [HunkTrackerSnapshot::rewrite_paths]. *)
Definition rewrite_entry (old_cwd canonical_old new_cwd : Path)
    (e : Path * FileHunkStateSnapshot) : Path * FileHunkStateSnapshot :=
  let '(path, st) := e in
  let target := default path (rewrite_single_path path old_cwd canonical_old new_cwd) in
  (target,
   mkFileSnapshot (snap_baseline st) (snap_current_content st)
     (set_hunk_path target <$> snap_hunks st) (snap_is_agent_file st) (snap_baseline_accepted st)).

(** [rewrite_paths]; collecting into a [HashMap] keeps the last of the entries
    that end up at one path. *)
Definition rewrite_paths (old_cwd canonical_old new_cwd : Path) (s : HunkTrackerSnapshot)
    : HunkTrackerSnapshot :=
  let rewritten := rewrite_entry old_cwd canonical_old new_cwd
                     <$> map_to_list (snap_file_states s) in
  mkSnapshot (list_to_map (reverse rewritten)) (snap_turn_index s) (snap_session_stats s).
