(* ===== verification/TrackerActor.v ===== *)
(** * Hunk tracker: commands, coalescing, the actor loop

    [ds-hunk-tracker/src/commands.rs] and the command handling of
    [actor/mod.rs].  A reply channel of a command becomes the reply that
    [handle_command] returns.  The loop [run] is a step relation: the
    environment enqueues commands and changes files, the actor handles the
    command at the head of the queue, or the whole queue as one coalesced
    batch. *)

From S2P Require Import Prelude Text HunkTypes HunkDiff FileUtils Tracker TrackerActions.
From S2P Require Import TrackerMutations TrackerQueries.

Inductive HunkTrackerCommand :=
  | RecordAgentWrite (path : Path) (content : text) (prompt_index : nat)
      (previous_content : option text)
  | HandleFileChange (path : Path)
  | HandleFileDeleted (path : Path)
  | RefreshGitDirtyCache
  | ResetBaseline (path : Path)
  | SetMode (mode : TrackingMode)
  | CmdHunkAction (hunk_id : HunkId) (action : HunkAction)
  | CmdFileAction (path : Path) (action : HunkAction)
  | CmdAllAction (action : HunkAction)
  | CmdTurnAction (prompt_index : nat) (action : HunkAction)
  | GetAllHunks
  | GetHunksForPath (path : Path)
  | GetFileHunkData (path : Path)
  | GetHunksBySource (source : HunkSourceFilter)
  | GetHunk (hunk_id : HunkId)
  | IsAgentFile (path : Path)
  | GetAllTrackedPaths
  | GetStagedFiles
  | GetAllFileContents
  | GetSessionSummary
  | GetTurnHunks (prompt_index : nat)
  | ResetStats
  | RefreshAllBaselines
  | SnapshotState
  | SnapshotTurnDelta (prompt_index : nat)
  | RestoreState (snapshot : HunkTrackerSnapshot).

(** What is sent on a command's [oneshot] channel.  [ReplyPanic] stands for
    the panic of an arithmetic underflow while a patch is generated, which
    ends the actor's task. *)
Inductive Reply :=
  | NoReply
  | ReplyPanic
  | ReplyAction (r : result unit)
  | ReplyAffected (r : result (list HunkId))
  | ReplyHunks (hs : list Hunk)
  | ReplyHunkData (d : FileHunkData)
  | ReplyHunk (h : option Hunk)
  | ReplyBool (b : bool)
  | ReplyPaths (ps : list Path)
  | ReplyPathSet (ps : gset Path)
  | ReplyContents (es : list FileContentEntry)
  | ReplySummary (s : SessionSummary)
  | ReplySnapshot (s : HunkTrackerSnapshot)
  | ReplyDelta (d : HunkTurnDelta).

(** ** Coalescing *)

Inductive CoalescedPathAction := Changed | Deleted | DeletedThenChanged.

Record CoalescedBatch := mkBatch {
  file_actions : gmap Path CoalescedPathAction;
  refresh_all : bool;
  refresh_dirty : bool;
  other_commands : list HunkTrackerCommand;
  command_count : nat;
}.

(** [CoalescedBatch::new]. *)
Definition new_batch : CoalescedBatch := mkBatch ∅ false false [] 0.

(** [CoalescedBatch::add]. *)
Definition batch_add (b : CoalescedBatch) (cmd : HunkTrackerCommand) : CoalescedBatch :=
  let count := usize_add (command_count b) 1 in
  match cmd with
  | HandleFileChange path =>
      let action :=
        match file_actions b !! path with
        | Some Deleted => DeletedThenChanged
        | Some action => action
        | None => Changed
        end in
      mkBatch (<[path := action]> (file_actions b)) (refresh_all b) (refresh_dirty b)
        (other_commands b) count
  | HandleFileDeleted path =>
      mkBatch (<[path := Deleted]> (file_actions b)) (refresh_all b) (refresh_dirty b)
        (other_commands b) count
  | RefreshAllBaselines =>
      mkBatch (file_actions b) true (refresh_dirty b) (other_commands b) count
  | RefreshGitDirtyCache =>
      mkBatch (file_actions b) (refresh_all b) true (other_commands b) count
  | cmd =>
      mkBatch (file_actions b) (refresh_all b) (refresh_dirty b) (other_commands b ++ [cmd]) count
  end.

Definition is_coalescable (cmd : HunkTrackerCommand) : bool :=
  match cmd with
  | HandleFileChange _ | HandleFileDeleted _ | RefreshAllBaselines | RefreshGitDirtyCache => true
  | _ => false
  end.

(** [drain_and_coalesce]: [queue] is what [try_recv] yields. *)
Definition drain_and_coalesce (first : HunkTrackerCommand) (queue : list HunkTrackerCommand)
    : CoalescedBatch :=
  foldl batch_add (batch_add new_batch first) queue.

Section actor.
Context `{D : DiffEngine} (env : Env).

(** ** One command *)

(** [handle_command]: the state, the reply, and whether the actor goes on. *)
Definition handle_command (cmd : HunkTrackerCommand) (a : Actor) : Actor * Reply * bool :=
  match cmd with
  | RecordAgentWrite path content i prev =>
      (record_agent_write env path content i prev a, NoReply, true)
  | HandleFileChange path => (handle_file_change env path a, NoReply, true)
  | HandleFileDeleted path => (handle_file_deleted env path a, NoReply, true)
  | RefreshGitDirtyCache => (refresh_git_dirty_cache env None a, NoReply, true)
  | ResetBaseline path => (reset_baseline path a, NoReply, true)
  | SetMode m => (set_mode env m a, NoReply, true)
  | CmdHunkAction id action =>
      let '(a, r) := apply_hunk_action env id action a in (a, ReplyAction r, true)
  | CmdFileAction path action =>
      let '(a, r) := apply_file_action env path action a in (a, ReplyAffected r, true)
  | CmdAllAction action =>
      let '(a, r) := apply_all_action env action a in (a, ReplyAffected r, true)
  | CmdTurnAction i action =>
      let '(a, r) := apply_turn_action env i action a in (a, ReplyAffected r, true)
  | GetAllHunks => (a, ReplyHunks (get_all_hunks a), true)
  | GetHunksForPath path => (a, ReplyHunks (get_hunks_for_path a path), true)
  | GetFileHunkData path =>
      match get_file_hunk_data a path with
      | Some d => (a, ReplyHunkData d, true)
      | None => (a, ReplyPanic, false)
      end
  | GetHunksBySource source => (a, ReplyHunks (get_hunks_by_source a source), true)
  | GetHunk id => (a, ReplyHunk (get_hunk a id), true)
  | IsAgentFile path => (a, ReplyBool (is_agent_file_query a path), true)
  | GetAllTrackedPaths => (a, ReplyPaths (get_all_tracked_paths a), true)
  | GetStagedFiles => (a, ReplyPathSet (get_staged_files a), true)
  | GetAllFileContents => (a, ReplyContents (get_all_file_contents a), true)
  | GetSessionSummary => (a, ReplySummary (compute_session_summary a), true)
  | GetTurnHunks i => (a, ReplyHunks (get_hunks_for_turn a i), true)
  | ResetStats => (set_session_stats default_stats a, NoReply, true)
  | RefreshAllBaselines => (refresh_all_baselines env a, NoReply, true)
  | SnapshotState => (a, ReplySnapshot (take_snapshot a), true)
  | SnapshotTurnDelta i => (a, ReplyDelta (take_turn_delta a i), true)
  | RestoreState s => (restore_snapshot s a, NoReply, true)
  end.

(** ** One batch *)

(** The loop over [file_actions] before a refresh of all baselines. *)
Fixpoint handle_actions_refresh (actions : list (Path * CoalescedPathAction))
    (already_processed : gset Path) (a : Actor) : gset Path * Actor :=
  match actions with
  | [] => (already_processed, a)
  | (path, Changed) :: rest | (path, DeletedThenChanged) :: rest =>
      match file_states a !! path with
      | None =>
          handle_actions_refresh rest ({[path]} ∪ already_processed) (handle_file_change env path a)
      | Some _ => handle_actions_refresh rest already_processed a
      end
  | (path, Deleted) :: rest =>
      match file_states a !! path with
      | Some _ => handle_actions_refresh rest already_processed (handle_file_deleted env path a)
      | None => handle_actions_refresh rest already_processed a
      end
  end.

(** The loop over [file_actions] without one: deletions at once, changed paths
    collected. *)
Fixpoint handle_actions (actions : list (Path * CoalescedPathAction)) (changed : list Path)
    (a : Actor) : list Path * Actor :=
  match actions with
  | [] => (changed, a)
  | (path, Changed) :: rest | (path, DeletedThenChanged) :: rest =>
      handle_actions rest (changed ++ [path]) a
  | (path, Deleted) :: rest => handle_actions rest changed (handle_file_deleted env path a)
  end.

Fixpoint handle_commands (cmds : list HunkTrackerCommand) (replies : list Reply) (a : Actor)
    : Actor * list Reply * bool :=
  match cmds with
  | [] => (a, replies, true)
  | cmd :: rest =>
      match handle_command cmd a with
      | (a, r, true) => handle_commands rest (replies ++ [r]) a
      | (a, r, false) => (a, replies ++ [r], false)
      end
  end.

(** The part of [handle_coalesced_batch] before the other commands. *)
Definition handle_batch_files (batch : CoalescedBatch) (a : Actor) : Actor :=
  let a := if refresh_dirty batch && negb (refresh_all batch)
           then refresh_git_dirty_cache env None a else a in
  let actions := map_to_list (file_actions batch) in
  if refresh_all batch then
    let '(done, a) := handle_actions_refresh actions ∅ a in
    refresh_all_baselines_except env done a
  else
    let '(changed, a) := handle_actions actions [] a in
    handle_file_changes_batch env changed a.

Definition handle_coalesced_batch (batch : CoalescedBatch) (a : Actor)
    : Actor * list Reply * bool :=
  handle_commands (other_commands batch) [] (handle_batch_files batch a).

(** One iteration of the loop of [run] when [cmd] is received and [queue] is
    behind it: the state, the replies, what is left of the queue, and whether
    the loop goes on. *)
Definition run_iteration (cmd : HunkTrackerCommand) (queue : list HunkTrackerCommand) (a : Actor)
    : Actor * list Reply * list HunkTrackerCommand * bool :=
  if is_coalescable cmd then
    let '(a, rs, go) := handle_coalesced_batch (drain_and_coalesce cmd queue) a in
    (a, rs, [], go)
  else
    let '(a, r, go) := handle_command cmd a in (a, [r], queue, go).

(** The start of [run]. *)
Definition run_start (a : Actor) : Actor :=
  if decide (mode a = AllDirty) then refresh_git_dirty_cache env None a else a.

End actor.

(** ** The actor among its clients *)

Inductive RunState := Starting | Running | Stopped.

Record System := mkSystem {
  sys_actor : Actor;
  sys_queue : list HunkTrackerCommand;
  sys_replies : list Reply;
  sys_run : RunState;
}.

(** What can happen next: a client sends an [allowed] command, another program
    changes files or draws UUIDs, the actor starts, handles commands, is
    cancelled or finds its channel closed.  Every iteration of the loop runs in
    an environment of its own that satisfies [world]. *)
Inductive actor_step `{D : DiffEngine} (world : Env → Prop)
    (allowed : Actor → HunkTrackerCommand → Prop) : System → System → Prop :=
  | step_send a q rs st cmd :
      allowed a cmd →
      actor_step world allowed (mkSystem a q rs st) (mkSystem a (q ++ [cmd]) rs st)
  | step_files a q rs st f :
      actor_step world allowed (mkSystem a q rs st) (mkSystem (set_fs f a) q rs st)
  | step_uuid a q rs st n :
      seed a <= n →
      actor_step world allowed (mkSystem a q rs st) (mkSystem (set_seed n a) q rs st)
  | step_start env a q rs :
      world env →
      actor_step world allowed (mkSystem a q rs Starting) (mkSystem (run_start env a) q rs Running)
  | step_handle env a cmd q rs a' rs' q' go :
      world env →
      run_iteration env cmd q a = (a', rs', q', go) →
      actor_step world allowed (mkSystem a (cmd :: q) rs Running)
        (mkSystem a' q' (rs ++ rs') (if go : bool then Running else Stopped))
  | step_cancel a q rs :
      actor_step world allowed (mkSystem a q rs Running) (mkSystem a q rs Stopped).

Definition actor_steps `{D : DiffEngine} (world : Env → Prop)
    (allowed : Actor → HunkTrackerCommand → Prop) : System → System → Prop :=
  rtc (actor_step world allowed).

Definition initial_system (wd : Path) (m : TrackingMode) (f : Fs) : System :=
  mkSystem (new_actor wd m 0 f) [] [] Starting.
