(* ===== verification/TrackerInv.v ===== *)
(** * Hunk tracker: invariants of the actor's state

    Two invariants tie the fields of the actor together.

    [files_ok]: the hunks of a tracked file are either none or exactly the
    diff of its baseline and its current content.

    [ids_inv]: hunk identifiers are drawn from the generator and used once
    across all files, and the turn index is the inverse of the hunks' sources.
    It is stated on the fields alone, so that it speaks of an actor and of a
    snapshot.  The set [X] holds identifiers already taken out of the turn
    index, while an action is under way.

    Here they are shown for the steps all operations are built from:
    [recompute_hunks], assignments to a file, removal from the turn index. *)

From S2P Require Import Prelude Text HunkTypes HunkDiff HunkDiffProps FileUtils Tracker.

(** ** The hunks of a pair of contents *)

Definition is_content_diff `{D : DiffEngine} (path : Path) (b c : FileContentState)
    (hs : list Hunk) : Prop :=
  match b, c with
  | Full b, Full c => is_diff_of path b c hs
  | Full b, Missing =>
      (b = [] ∧ hs = [])
      ∨ ∃ h, hs = [h] ∧ b ≠ [] ∧ hunk_core h = hunk_core (file_deleted "" 0 path b External)
  | Missing, Full c =>
      (c = [] ∧ hs = [])
      ∨ ∃ h, hs = [h] ∧ c ≠ [] ∧ hunk_core h = hunk_core (file_created "" 0 path c External)
  | _, _ => hs = []
  end.

Definition file_ok `{D : DiffEngine} (path : Path) (st : FileHunkState) : Prop :=
  hunks st = [] ∨ is_content_diff path (baseline st) (current_content st) (hunks st).

(** All files but those at paths in [X]. *)
Definition files_ok_but `{D : DiffEngine} (X : gset Path) (F : gmap Path FileHunkState) : Prop :=
  ∀ path st, path ∉ X → F !! path = Some st → file_ok path st.

Notation files_ok := (files_ok_but ∅).

(** ** Identifiers and the turn index *)

Definition live (F : gmap Path FileHunkState) (path : Path) (h : Hunk) : Prop :=
  ∃ st, F !! path = Some st ∧ h ∈ hunks st.

Definition turn_ids (T : gmap nat (gset HunkId)) (i : nat) : gset HunkId := default ∅ (T !! i).

Definition drawn (gen : nat → HunkId) (n : nat) (id : HunkId) : Prop := ∃ k, k < n ∧ id = gen k.

Record ids_inv (gen : nat → HunkId) (X : gset HunkId) (F : gmap Path FileHunkState)
    (T : gmap nat (gset HunkId)) (n : nat) : Prop := {
  ids_drawn path h : live F path h → drawn gen n (hunk_id h);
  ids_nodup path st : F !! path = Some st → NoDup (hunk_id <$> hunks st);
  ids_disjoint p q h h' : live F p h → live F q h' → hunk_id h = hunk_id h' → p = q;
  turn_drawn i id : id ∈ turn_ids T i → drawn gen n id;
  turn_complete path h i :
    live F path h → hunk_id h ∉ X → prompt_index (hunk_source h) = Some i →
    hunk_id h ∈ turn_ids T i;
  turn_sound path h i :
    live F path h → hunk_id h ∈ turn_ids T i → prompt_index (hunk_source h) = Some i;
}.

Notation actor_ids gen X a := (ids_inv gen X (file_states a) (turn_index a) (seed a)).

(** ** Lemmas on hunks and indices *)

Lemma NoDup_fmap_eq {A B} (f : A → B) (l : list A) x y :
  NoDup (f <$> l) → x ∈ l → y ∈ l → f x = f y → x = y.
Proof.
  intros Hnd. induction l as [|z l IH]; [intros H; by apply not_elem_of_nil in H|].
  rewrite fmap_cons in Hnd. apply NoDup_cons in Hnd as [Hz Hnd].
  intros [->|Hx]%elem_of_cons [->|Hy]%elem_of_cons E; [done|..|by apply IH].
  - destruct Hz. rewrite E. by apply list_elem_of_fmap_2.
  - destruct Hz. rewrite <-E. by apply list_elem_of_fmap_2.
Qed.

Lemma fmap_sublist_of {A B} (f : A → B) (l k : list A) :
  sublist l k → sublist (f <$> l) (f <$> k).
Proof. induction 1; csimpl; by constructor. Qed.

Lemma drawn_mono gen n n' id : drawn gen n id → n <= n' → drawn gen n' id.
Proof. intros (k & ? & ->) ?. exists k. split; [lia|done]. Qed.

#[export] Hint Resolve drawn_mono : dsb.

Lemma turn_ids_remove id s T i :
  turn_ids (remove_from_turn_index id s T) i
  = if decide (prompt_index s = Some i) then turn_ids T i ∖ {[id]} else turn_ids T i.
Proof.
  unfold remove_from_turn_index, turn_ids.
  destruct (prompt_index s) as [j|]; [|by rewrite decide_False].
  destruct (decide (i = j)) as [->|Hne].
  - rewrite decide_True, lookup_alter_eq by done. destruct (T !! j); simpl; set_solver.
  - rewrite decide_False by congruence. by rewrite lookup_alter_ne.
Qed.

Lemma turn_ids_add id s T i :
  turn_ids (add_to_turn_index id s T) i
  = if decide (prompt_index s = Some i) then {[id]} ∪ turn_ids T i else turn_ids T i.
Proof.
  unfold add_to_turn_index, turn_ids.
  destruct (prompt_index s) as [j|]; [|by rewrite decide_False].
  destruct (decide (i = j)) as [->|Hne].
  - by rewrite decide_True, lookup_insert_eq by done.
  - rewrite decide_False by congruence. by rewrite lookup_insert_ne.
Qed.

Lemma elem_of_turn_ids_remove_all hs T i id :
  id ∈ turn_ids (foldl (λ t h, remove_from_turn_index (hunk_id h) (hunk_source h) t) T hs) i
  ↔ id ∈ turn_ids T i
    ∧ ∀ h, h ∈ hs → hunk_id h = id → prompt_index (hunk_source h) ≠ Some i.
Proof.
  revert T. induction hs as [|h hs IH]; intros T; simpl.
  { split; [|by intros [? _]]. intros ?. split; [done|]. by intros h Hh%not_elem_of_nil. }
  rewrite IH, turn_ids_remove. setoid_rewrite elem_of_cons. case_decide; set_solver.
Qed.

Lemma elem_of_turn_ids_add_all hs T i id :
  id ∈ turn_ids (foldl (λ t h, add_to_turn_index (hunk_id h) (hunk_source h) t) T hs) i
  ↔ id ∈ turn_ids T i
    ∨ ∃ h, h ∈ hs ∧ hunk_id h = id ∧ prompt_index (hunk_source h) = Some i.
Proof.
  revert T. induction hs as [|h hs IH]; intros T; simpl.
  { split; [by left|]. intros [?|(h & Hh & _)]; [done|]. by apply not_elem_of_nil in Hh. }
  rewrite IH, turn_ids_add. setoid_rewrite elem_of_cons. case_decide; set_solver.
Qed.

(** ** [preserve_ids] *)

Lemma preserve_ids_core old C fresh :
  hunk_core <$> preserve_ids old C fresh = hunk_core <$> fresh.
Proof.
  revert C. induction fresh as [|h fresh IH]; intros C; simpl; [done|].
  destruct (find_matching_old_hunk h old) as [m|]; csimpl; [|by rewrite IH].
  case_decide; csimpl; rewrite IH; [done|]. by case_match.
Qed.

Lemma find_matching_elem h old m : find_matching_old_hunk h old = Some m → m ∈ old.
Proof.
  unfold find_matching_old_hunk. destruct (filter_b _ old) as [|x xs] eqn:E.
  - intros [H _]%max_by_key_spec. by apply elem_of_filter_b in H as [? _].
  - intros [H _]%min_by_key_spec. rewrite <-E in H. by apply elem_of_filter_b in H as [? _].
Qed.

(** The identifiers: fresh ones, or unclaimed ones of old hunks, once each. *)
Lemma preserve_ids_spec old C fresh :
  NoDup (hunk_id <$> fresh) →
  (∀ h o, h ∈ fresh → o ∈ old → hunk_id h ≠ hunk_id o) →
  NoDup (hunk_id <$> preserve_ids old C fresh)
  ∧ ∀ h, h ∈ preserve_ids old C fresh →
      (∃ f, f ∈ fresh ∧ hunk_id h = hunk_id f)
      ∨ (∃ o, o ∈ old ∧ hunk_id h = hunk_id o ∧ hunk_id h ∉ C).
Proof.
  revert C. induction fresh as [|h fresh IH]; intros C Hnd Hdisj; simpl.
  { split; [constructor|]. by intros h Hh%not_elem_of_nil. }
  rewrite fmap_cons in Hnd. apply NoDup_cons in Hnd as [Hh Hnd].
  assert (∀ h' o, h' ∈ fresh → o ∈ old → hunk_id h' ≠ hunk_id o) as Hdisj' by set_solver.
  assert (∀ C, NoDup (hunk_id <$> h :: preserve_ids old C fresh)
    ∧ ∀ h', h' ∈ h :: preserve_ids old C fresh →
      (∃ f, f ∈ h :: fresh ∧ hunk_id h' = hunk_id f)
      ∨ (∃ o, o ∈ old ∧ hunk_id h' = hunk_id o ∧ hunk_id h' ∉ C)) as Hskip.
  { intros C'. destruct (IH C' Hnd Hdisj') as [H1 H2]. split.
    - rewrite fmap_cons. apply NoDup_cons. split; [|done].
      intros (h' & E & Hin)%list_elem_of_fmap. destruct (H2 _ Hin) as [(f & Hf & Ef)|(o & Ho & Eo & _)].
      + apply Hh. rewrite E, Ef. by apply list_elem_of_fmap_2.
      + apply (Hdisj h o); [by left|done|congruence].
    - intros h' [->|Hin]%elem_of_cons; [left; set_solver|].
      destruct (H2 _ Hin) as [(f & Hf & Ef)|?]; [left; set_solver|by right]. }
  destruct (find_matching_old_hunk h old) as [m|] eqn:Em; [|by apply Hskip].
  case_decide as Hcl; [by apply Hskip|]. apply find_matching_elem in Em.
  destruct (IH ({[hunk_id m]} ∪ C) Hnd Hdisj') as [H1 H2].
  set (h2 := if _ && _ then _ else _).
  assert (hunk_id h2 = hunk_id m) as Eid by (unfold h2; by case_match).
  split.
  - rewrite fmap_cons. apply NoDup_cons. split; [|done]. rewrite Eid.
    intros (h' & E & Hin)%list_elem_of_fmap. destruct (H2 _ Hin) as [(f & Hf & Ef)|(o & _ & _ & Hn)].
    + apply (Hdisj' f m); [done|done|congruence].
    + set_solver.
  - intros h' [->|Hin]%elem_of_cons; [right; exists m; by rewrite Eid|].
    destruct (H2 _ Hin) as [(f & Hf & Ef)|(o & Ho & Eo & Hn)]; [left; set_solver|].
    right. exists o. set_solver.
Qed.

(** ** The hunks of a pair of contents: cores and identifiers *)

Lemma number_hunks_ids gen now path source n hbs :
  hunk_id <$> number_hunks gen now path source n hbs = gen <$> seq n (length hbs).
Proof.
  revert n. induction hbs as [|hb hbs IH]; intros n; [done|].
  rewrite number_hunks_cons. csimpl. by rewrite IH.
Qed.

Lemma number_hunks_length gen now path source n hbs :
  length (number_hunks gen now path source n hbs) = length hbs.
Proof. unfold number_hunks. by rewrite length_imap. Qed.

Section content.
Context `{D : DiffEngine} (env : Env).

(** [x] are hunks with the next identifiers, and the next seed. *)
Definition draws (n : nat) (x : list Hunk * nat) : Prop :=
  hunk_id <$> x.1 = uuid env <$> seq n (length x.1) ∧ x.2 = n + length x.1.

Lemma draws_nil n : draws n ([], n).
Proof. split; simpl; [done|lia]. Qed.

Lemma compute_hunks_draws path b c source n :
  draws n (compute_hunks (uuid env) (utc_now env) path b c source n).
Proof.
  unfold compute_hunks. repeat (case_match; [apply draws_nil|]).
  rewrite script_hunks_raw. unfold draws. simpl.
  by rewrite number_hunks_ids, number_hunks_length.
Qed.

Lemma content_hunks_draws path b c source n : draws n (content_hunks env path b c source n).
Proof.
  unfold content_hunks.
  destruct b, c; try apply draws_nil; try apply compute_hunks_draws;
    (case_decide; [apply draws_nil|split; simpl; [done|lia]]).
Qed.

Lemma content_hunks_diff path b c source n :
  is_content_diff path b c (content_hunks env path b c source n).1.
Proof.
  destruct b, c; simpl; try done; [case_decide; simpl; [by left|right; by eexists]..|].
  apply compute_hunks_core.
Qed.

(** Every computed hunk has the source of the recomputation. *)
Lemma content_hunks_source path b c source n :
  Forall (λ h, hunk_source h = source) (content_hunks env path b c source n).1.
Proof.
  unfold content_hunks. destruct b, c; try done;
    try (case_decide; [done|repeat constructor]).
  unfold compute_hunks. repeat (case_match; [done|]). rewrite script_hunks_raw. simpl.
  generalize (raw_hunks 1 1 None (diff_lines content content0)) as l. intros l. revert n.
  induction l as [|hb l IH]; intros n; [constructor|].
  rewrite number_hunks_cons. constructor; [done|apply IH].
Qed.

Lemma is_content_diff_core path b c hs hs' :
  hunk_core <$> hs = hunk_core <$> hs' → is_content_diff path b c hs' → is_content_diff path b c hs.
Proof.
  intros E. assert (hs' = [] → hs = []) as Hnil by (intros ->; by destruct hs).
  destruct b, c; simpl; try done.
  - intros [[??]|(h & -> & Hne & Eh)]; [left; auto|right].
    destruct hs as [|h0 [|]]; try done. injection E as E1. exists h0. split; [done|]. split; [done|]. unfold hunk_core in *; congruence.
  - intros [[??]|(h & -> & Hne & Eh)]; [left; auto|right].
    destruct hs as [|h0 [|]]; try done. injection E as E1. exists h0. split; [done|]. split; [done|]. unfold hunk_core in *; congruence.
  - unfold is_diff_of. congruence.
Qed.

(** ** [recompute_hunks] *)

Lemma recompute_file path cur source a st :
  file_states a !! path = Some st →
  ∃ hs n,
    content_hunks env path (baseline st) (default missing_content cur) source (seed a) = (hs, n)
    ∧ file_states (recompute_hunks env path cur source a)
      = <[path := mkFileState (baseline st) (default missing_content cur)
           (preserve_ids (hunks st) ∅ hs) (is_agent_file st) (baseline_accepted st)]> (file_states a)
    ∧ seed (recompute_hunks env path cur source a) = n
    ∧ turn_index (recompute_hunks env path cur source a)
      = foldl (λ t h, add_to_turn_index (hunk_id h) (hunk_source h) t)
          (foldl (λ t h, remove_from_turn_index (hunk_id h) (hunk_source h) t)
             (turn_index a) (hunks st))
          (preserve_ids (hunks st) ∅ hs).
Proof.
  intros Hst. unfold recompute_hunks. rewrite Hst.
  destruct (content_hunks _ _ _ _ _ _) as [hs n]. by exists hs, n.
Qed.

(** The hunks a recomputation keeps are the diff. *)
Lemma recomputed_diff path b cur source a old hs n :
  content_hunks env path b cur source (seed a) = (hs, n) →
  is_content_diff path b cur (preserve_ids old ∅ hs).
Proof.
  intros Ehs. eapply is_content_diff_core; [apply preserve_ids_core|].
  pose proof (content_hunks_diff path b cur source (seed a)) as H. by rewrite Ehs in H.
Qed.

Lemma recompute_files_ok X path cur source a :
  files_ok_but ({[path]} ∪ X) (file_states a) →
  files_ok_but X (file_states (recompute_hunks env path cur source a)).
Proof.
  intros Hok. destruct (file_states a !! path) as [st|] eqn:Hst.
  - destruct (recompute_file path cur source a st Hst) as (hs & n & Ehs & -> & _).
    intros p st' HX. destruct (decide (p = path)) as [->|Hne].
    + rewrite lookup_insert_eq. intros; simplify_eq. right. simpl. by eapply recomputed_diff.
    + rewrite lookup_insert_ne by done. intros. apply Hok; [set_solver|done].
  - unfold recompute_hunks. rewrite Hst. intros p st' HX Hp. apply Hok; [|done].
    set_unfold. naive_solver congruence.
Qed.

End content.

(** ** Assignments and the identifiers *)

Section ids.
Context (gen : nat → HunkId).
Implicit Types (F : gmap Path FileHunkState) (T : gmap nat (gset HunkId)).

Lemma live_insert F path st p h :
  live (<[path := st]> F) p h ↔ (p = path ∧ h ∈ hunks st) ∨ (p ≠ path ∧ live F p h).
Proof.
  unfold live. destruct (decide (p = path)) as [->|Hne].
  - rewrite lookup_insert_eq. naive_solver.
  - rewrite lookup_insert_ne by done. naive_solver.
Qed.

Lemma live_delete F path p h : live (delete path F) p h → live F p h.
Proof. intros (st & Hp & Hh). apply lookup_delete_Some in Hp as [_ Hp]. by exists st. Qed.

(** Fewer hunks. *)
Lemma ids_inv_fewer X F F' T n :
  ids_inv gen X F T n →
  (∀ path st', F' !! path = Some st' →
     NoDup (hunk_id <$> hunks st') ∧ ∀ h, h ∈ hunks st' → live F path h) →
  ids_inv gen X F' T n.
Proof.
  intros [H1 H2 H3 H4 H5 H6] HF.
  assert (∀ p h, live F' p h → live F p h) as Hl.
  { intros p h (st & Hp & Hh). by apply (HF p st Hp). }
  split; eauto. intros path st Hp. by apply (HF path st Hp).
Qed.

Lemma ids_inv_put X F T n path st' :
  ids_inv gen X F T n →
  (hunks st' = [] ∨ ∃ st, F !! path = Some st ∧ sublist (hunks st') (hunks st)) →
  ids_inv gen X (<[path := st']> F) T n.
Proof.
  intros Hinv Hst. eapply ids_inv_fewer; [done|]. intros p st0 Hp.
  destruct (decide (p = path)) as [->|Hne].
  - rewrite lookup_insert_eq in Hp. simplify_eq. destruct Hst as [->|(st & Hst & Hsub)].
    { split; [constructor|]. by intros h Hh%not_elem_of_nil. }
    split.
    + eapply sublist_NoDup; [apply (ids_nodup _ _ _ _ _ Hinv path st Hst)|].
      by apply fmap_sublist_of.
    + intros h Hh. exists st. split; [done|]. by eapply elem_of_sublist.
  - rewrite lookup_insert_ne in Hp by done.
    split; [by eapply ids_nodup|]. intros h Hh. by exists st0.
Qed.

Lemma ids_inv_delete X F T n path : ids_inv gen X F T n → ids_inv gen X (delete path F) T n.
Proof.
  intros Hinv. eapply ids_inv_fewer; [done|]. intros p st [_ Hp]%lookup_delete_Some.
  split; [by eapply ids_nodup|]. intros h Hh. by exists st.
Qed.

Lemma ids_inv_mono X F T n n' : ids_inv gen X F T n → n <= n' → ids_inv gen X F T n'.
Proof. intros [H1 H2 H3 H4 H5 H6] ?. split; eauto with dsb. Qed.

(** Taking an identifier out of the turn index. *)
Lemma ids_inv_remove X F T n id s :
  ids_inv gen X F T n → ids_inv gen ({[id]} ∪ X) F (remove_from_turn_index id s T) n.
Proof.
  intros [H1 H2 H3 H4 H5 H6].
  assert (∀ i x, x ∈ turn_ids (remove_from_turn_index id s T) i → x ∈ turn_ids T i) as Hsub.
  { intros i x. rewrite turn_ids_remove. case_decide; set_solver. }
  split; eauto. intros path h i Hl HX Hi. specialize (H5 path h i Hl). rewrite turn_ids_remove.
  case_decide; set_solver.
Qed.

Lemma ids_inv_forget X Y F T n :
  ids_inv gen (Y ∪ X) F T n → (∀ p h, live F p h → hunk_id h ∉ Y) → ids_inv gen X F T n.
Proof. intros [H1 H2 H3 H4 H5 H6] HX. split; eauto.
  intros path h i Hl ? ?. eapply H5; [done|specialize (HX path h Hl); set_solver|done].
Qed.

Lemma ids_inv_remove_all X F T n hs :
  ids_inv gen X F T n →
  ids_inv gen (list_to_set (hunk_id <$> hs) ∪ X) F
    (foldl (λ t h, remove_from_turn_index (hunk_id h) (hunk_source h) t) T hs) n.
Proof.
  revert X T. induction hs as [|h hs IH]; intros X T Hinv; csimpl.
  - by rewrite (left_id_L ∅ (∪)).
  - apply (ids_inv_remove _ _ _ _ (hunk_id h) (hunk_source h)), IH in Hinv.
    replace ({[hunk_id h]} ∪ list_to_set (hunk_id <$> hs) ∪ X)
      with (list_to_set (hunk_id <$> hs) ∪ ({[hunk_id h]} ∪ X) : gset HunkId) by set_solver.
    exact Hinv.
Qed.

(** Hunks that no file holds any more leave the index without a trace. *)
Lemma ids_inv_drop X F F' T n hs :
  ids_inv gen X F T n →
  (∀ path st', F' !! path = Some st' →
     NoDup (hunk_id <$> hunks st') ∧ ∀ h, h ∈ hunks st' → live F path h) →
  (∀ p h h', live F' p h → h' ∈ hs → hunk_id h ≠ hunk_id h') →
  ids_inv gen X F' (foldl (λ t h, remove_from_turn_index (hunk_id h) (hunk_source h) t) T hs) n.
Proof.
  intros Hinv HF Hgone. apply ids_inv_forget with (list_to_set (hunk_id <$> hs)).
  - apply ids_inv_remove_all. by eapply ids_inv_fewer.
  - intros p h Hl. rewrite elem_of_list_to_set.
    intros (h' & E & Hh')%list_elem_of_fmap. by eapply Hgone.
Qed.

Hypothesis gen_inj : Inj (=) (=) gen.

Lemma drawn_fresh n k id : drawn gen n id → n <= k → id ≠ gen k.
Proof. intros (j & ? & ->) ? ?%gen_inj. lia. Qed.

Lemma fresh_spec n (hs : list Hunk) h :
  hunk_id <$> hs = gen <$> seq n (length hs) → h ∈ hs →
  ∃ k, n <= k < n + length hs ∧ hunk_id h = gen k.
Proof.
  intros E Hh. apply (list_elem_of_fmap_2 hunk_id) in Hh. rewrite E in Hh.
  apply list_elem_of_fmap in Hh as (k & Hk & Hin). apply elem_of_seq in Hin. eauto with lia.
Qed.

(** Replacing the hunks of a file by a recomputed list. *)
Lemma ids_inv_recompute X F T n path st st' hs :
  ids_inv gen X F T n → F !! path = Some st →
  hunk_id <$> hs = gen <$> seq n (length hs) →
  hunks st' = preserve_ids (hunks st) ∅ hs →
  ids_inv gen X (<[path := st']> F)
    (foldl (λ t h, add_to_turn_index (hunk_id h) (hunk_source h) t)
       (foldl (λ t h, remove_from_turn_index (hunk_id h) (hunk_source h) t) T (hunks st))
       (preserve_ids (hunks st) ∅ hs))
    (n + length hs).
Proof.
  intros Hinv Hst Hids Est'. pose proof Hinv as [H1 H2 H3 H4 H5 H6].
  assert (∀ h, h ∈ hunks st → live F path h) as Hold by (intros h Hh; by exists st).
  destruct (preserve_ids_spec (hunks st) ∅ hs) as [Hnd Hsrc].
  { rewrite Hids. apply NoDup_fmap_2; [done|]. apply NoDup_seq. }
  { intros h o Hh Ho E. destruct (fresh_spec n hs h Hids Hh) as (k & ? & Ek).
    apply (drawn_fresh n k (hunk_id o)); [eauto|lia|congruence]. }
  rewrite <-Est' in *.
  (* an identifier of the new list: fresh, or of an old hunk *)
  assert (∀ h, h ∈ hunks st' → (∃ k, n <= k < n + length hs ∧ hunk_id h = gen k)
    ∨ ∃ o, o ∈ hunks st ∧ hunk_id h = hunk_id o) as Hid.
  { intros h [(f & Hf & ->)|(o & Ho & -> & _)]%Hsrc; [left; by apply fresh_spec|right; by exists o]. }
  split.
  - intros p h [[-> Hh]|[_ Hl]]%live_insert; [|eauto with dsb lia].
    destruct (Hid _ Hh) as [(k & ? & ->)|(o & Ho & ->)]; [exists k; split; [lia|done]|].
    eapply drawn_mono; [eauto|lia].
  - intros p st0. destruct (decide (p = path)) as [->|Hne].
    + rewrite lookup_insert_eq. naive_solver.
    + rewrite lookup_insert_ne by done. eauto.
  - assert (∀ q h h', h ∈ hunks st' → q ≠ path → live F q h' → hunk_id h ≠ hunk_id h') as Hx.
    { intros q h h' Hh Hq Hl E. destruct (Hid _ Hh) as [(k & ? & Ek)|(o & Ho & Eo)].
      - apply (drawn_fresh n k (hunk_id h')); [eauto|lia|congruence].
      - apply Hq. eapply H3; [done|by apply Hold|congruence]. }
    intros p q h h' [[-> Hh]|[Hp Hl]]%live_insert [[-> Hh']|[Hq Hl']]%live_insert E; eauto;
      [destruct (Hx q h h')|destruct (Hx p h' h)]; done.
  - intros i id [[? _]%elem_of_turn_ids_remove_all|(h & Hh & <- & _)]%elem_of_turn_ids_add_all;
      [eapply drawn_mono; [eauto|lia]|].
    destruct (Hid _ Hh) as [(k & ? & ->)|(o & Ho & ->)]; [exists k; split; [lia|done]|].
    eapply drawn_mono; [eauto|lia].
  - intros p h i [[-> Hh]|[Hp Hl]]%live_insert HX Hi; apply elem_of_turn_ids_add_all; [right; eauto|].
    left. apply elem_of_turn_ids_remove_all. split; [eauto|].
    intros o Ho E _. apply Hp. eapply H3; [done|by apply Hold|done].
  - intros p h i Hl [Hi|(h' & Hh' & E & Hi)]%elem_of_turn_ids_add_all.
    + apply elem_of_turn_ids_remove_all in Hi as [Hi Hnot].
      apply live_insert in Hl as [[-> Hh]|[Hp Hl]]; [|eauto].
      destruct (Hid _ Hh) as [(k & ? & Ek)|(o & Ho & Eo)].
      * destruct (drawn_fresh n k (hunk_id h)); [eauto|lia|done].
      * destruct (Hnot o Ho); [done|]. apply (H6 path o); [by apply Hold|by rewrite <-Eo].
    + apply live_insert in Hl as [[-> Hh]|[Hp Hl]].
      * by rewrite (NoDup_fmap_eq hunk_id (hunks st') h h').
      * destruct (Hid _ Hh') as [(k & ? & Ek)|(o & Ho & Eo)].
        -- destruct (drawn_fresh n k (hunk_id h)); [eauto|lia|congruence].
        -- destruct Hp. eapply H3; [done|by apply Hold|congruence].
Qed.

Lemma recompute_ids `{D : DiffEngine} X env path cur source a :
  uuid env = gen → actor_ids gen X a →
  actor_ids gen X (recompute_hunks env path cur source a)
  ∧ seed a <= seed (recompute_hunks env path cur source a).
Proof.
  intros Hgen Hinv. destruct (file_states a !! path) as [st|] eqn:Hst.
  2:{ unfold recompute_hunks. rewrite Hst. done. }
  destruct (recompute_file env path cur source a st Hst) as (hs & n & Ehs & -> & -> & ->).
  pose proof (content_hunks_draws env path (baseline st) (default missing_content cur)
    source (seed a)) as [Hids Hn].
  rewrite Ehs in Hids, Hn. rewrite Hgen in Hids. simpl in Hids, Hn. subst n. split; [|lia].
  by eapply ids_inv_recompute.
Qed.

End ids.
