(* ===== verification/TrackerOps.v ===== *)
(** * Hunk tracker: every operation keeps the invariants

    [good] is the conjunction of the invariants of [TrackerInv].  The relation
    [good_to] says that an operation keeps it and only draws identifiers; it is
    a preorder, so an operation keeps the invariants because the steps it is
    composed of do. *)

From S2P Require Import Prelude Text HunkTypes HunkDiff HunkDiffProps FileUtils Tracker.
From S2P Require Import TrackerActions TrackerMutations TrackerQueries TrackerActor TrackerInv.

Definition good `{D : DiffEngine} (gen : nat → HunkId) (X : gset HunkId) (a : Actor) : Prop :=
  files_ok (file_states a) ∧ actor_ids gen X a.

Definition good_to `{D : DiffEngine} (gen : nat → HunkId) (X : gset HunkId) (a a' : Actor) : Prop :=
  good gen X a → good gen X a' ∧ seed a <= seed a'.

(** ** Steps *)

Section steps.
Context `{D : DiffEngine} (gen : nat → HunkId) (X : gset HunkId).

#[export] Instance good_to_preorder : PreOrder (good_to gen X).
Proof.
  split; [by intros a|]. intros a b c Hab Hbc Ha.
  destruct (Hab Ha) as [Hb ?]. destruct (Hbc Hb) as [Hc ?]. split; [done|lia].
Qed.

Lemma good_to_foldl {A} (f : Actor → A → Actor) (l : list A) a :
  (∀ a x, good_to gen X a (f a x)) → good_to gen X a (foldl f a l).
Proof.
  intros Hf. revert a. induction l as [|x l IH]; intros a; simpl; [done|].
  transitivity (f a x); [apply Hf|apply IH].
Qed.

(** Assignments to fields the invariants do not mention. *)
Lemma good_to_same a a' :
  file_states a' = file_states a → turn_index a' = turn_index a → seed a' = seed a →
  good_to gen X a a'.
Proof. unfold good_to, good. intros -> -> ->. split; [done|lia]. Qed.

Lemma files_ok_insert F path st :
  files_ok_but {[path]} F → file_ok path st → files_ok (<[path := st]> F).
Proof.
  intros HF Hst p st0 _. destruct (decide (p = path)) as [->|Hne].
  - rewrite lookup_insert_eq. naive_solver.
  - rewrite lookup_insert_ne by done. apply HF. set_solver.
Qed.

Lemma files_ok_but_insert F path st : files_ok F → files_ok_but {[path]} (<[path := st]> F).
Proof.
  intros HF p st0 Hp. rewrite lookup_insert_ne by set_solver. apply HF. set_solver.
Qed.

Lemma files_ok_weaken P F : files_ok F → files_ok_but P F.
Proof. intros HF p st0 _. apply HF. set_solver. Qed.

(** A file enters, or loses all its hunks. *)
Lemma good_to_put_nil path st a : hunks st = [] → good_to gen X a (put_file path st a).
Proof.
  intros Hst [HF Hids]. split; [|done]. split; simpl.
  - apply files_ok_insert; [by apply files_ok_weaken|by left].
  - apply ids_inv_put; auto.
Qed.

(** A file keeps its contents and its hunks. *)
Lemma good_to_put_same path st st' a :
  file_states a !! path = Some st →
  baseline st' = baseline st → current_content st' = current_content st → hunks st' = hunks st →
  good_to gen X a (put_file path st' a).
Proof.
  intros Hst Hb Hc Hh [HF Hids]. split; [|done]. split; simpl.
  - apply files_ok_insert; [by apply files_ok_weaken|].
    unfold file_ok. rewrite Hb, Hc, Hh. by apply HF.
  - apply ids_inv_put; [done|]. right. exists st. by rewrite Hh.
Qed.

(** ** Superseded hunks *)

Lemma supersede_hunks_fields path hs a :
  file_states (supersede_hunks path hs a) = file_states a
  ∧ seed (supersede_hunks path hs a) = seed a
  ∧ turn_index (supersede_hunks path hs a)
    = foldl (λ t h, remove_from_turn_index (hunk_id h) (hunk_source h) t) (turn_index a) hs.
Proof.
  unfold supersede_hunks. revert a. induction hs as [|h hs IH]; intros a; [done|].
  apply (IH (supersede_hunk path a h)).
Qed.

(** All hunks of a file go. *)
Lemma good_to_supersede path st a a' :
  file_states a !! path = Some st →
  (file_states a' = delete path (file_states a)
   ∨ ∃ st', hunks st' = [] ∧ file_states a' = <[path := st']> (file_states a)) →
  turn_index a' = turn_index a → seed a' = seed a →
  good_to gen X a (supersede_hunks path (hunks st) a').
Proof.
  intros Hst HF' HT' Hn' [HF Hids].
  destruct (supersede_hunks_fields path (hunks st) a') as (E1 & E2 & E3).
  unfold good. rewrite E1, E2, E3, HT', Hn'. split; [|done].
  assert (∀ p st0, file_states a' !! p = Some st0 →
    hunks st0 = [] ∨ p ≠ path ∧ file_states a !! p = Some st0) as Hcase.
  { intros p st0 Hp. destruct HF' as [HF'|(st' & Hnil & HF')]; rewrite HF' in Hp.
    - apply lookup_delete_Some in Hp as [? ?]. by right.
    - apply lookup_insert_Some in Hp as [[<- <-]|[? ?]]; [by left|by right]. }
  split.
  - intros p st0 _ [?|[_ Hp]]%Hcase; [by left|]. apply (HF p); [set_solver|done].
  - eapply ids_inv_drop; [done|..].
    + intros p st0 [->|[_ Hp]]%Hcase.
      * split; [constructor|]. by intros h Hh%not_elem_of_nil.
      * split; [by eapply ids_nodup|]. intros h Hh. by exists st0.
    + intros p h h' (st0 & Hp & Hh) Hh' E. destruct (Hcase _ _ Hp) as [Hnil|[Hne Hp']].
      * rewrite Hnil in Hh. by apply not_elem_of_nil in Hh.
      * apply Hne. eapply (ids_disjoint _ _ _ _ _ Hids p path h h'); [by exists st0|by exists st|done].
Qed.

(** ** Recomputation *)

Context (gen_inj : Inj (=) (=) gen) (env : Env) (Hgen : uuid env = gen).

Lemma recompute_good path cur source a :
  files_ok_but {[path]} (file_states a) → actor_ids gen X a →
  good gen X (recompute_hunks env path cur source a)
  ∧ seed a <= seed (recompute_hunks env path cur source a).
Proof.
  intros HF Hids. destruct (recompute_ids gen gen_inj X env path cur source a Hgen Hids) as [H1 H2].
  split; [|done]. split; [|done]. apply recompute_files_ok. by rewrite (right_id_L ∅ (∪)).
Qed.

Lemma good_to_recompute path cur source a : good_to gen X a (recompute_hunks env path cur source a).
Proof. intros [HF Hids]. apply recompute_good; [by apply files_ok_weaken|done]. Qed.

(** A file is assigned, keeping some of its hunks, and its hunks are
    recomputed. *)
Lemma good_to_put_recompute path st st' cur source a a' :
  file_states a !! path = Some st → sublist (hunks st') (hunks st) →
  file_states a' = <[path := st']> (file_states a) → turn_index a' = turn_index a →
  seed a' = seed a →
  good_to gen X a (recompute_hunks env path cur source a').
Proof.
  intros Hst Hsub HF' HT' Hn' [HF Hids]. rewrite <-Hn'. apply recompute_good.
  - rewrite HF'. by apply files_ok_but_insert.
  - rewrite HF', HT', Hn'. apply ids_inv_put; eauto.
Qed.

End steps.

(** ** File changes *)

Section mutations.
Context `{D : DiffEngine} (gen : nat → HunkId) (X : gset HunkId) (gen_inj : Inj (=) (=) gen).
Context (env : Env) (Hgen : uuid env = gen).

Lemma good_to_send es a a' : good_to gen X a a' → good_to gen X a (send_events es a').
Proof. intros H. transitivity a'; [done|by apply good_to_same]. Qed.

Lemma good_to_read_baseline path a : good_to gen X a (read_baseline env path a).2.
Proof. unfold read_baseline. case_match; by apply good_to_same. Qed.

Lemma read_baseline_files path a : file_states (read_baseline env path a).2 = file_states a.
Proof. unfold read_baseline. by case_match. Qed.

Lemma take_baseline_fields path pre a :
  file_states (take_baseline env path pre a).2 = file_states a
  ∧ turn_index (take_baseline env path pre a).2 = turn_index a
  ∧ seed (take_baseline env path pre a).2 = seed a.
Proof. unfold take_baseline, read_baseline. by repeat case_match. Qed.

Lemma good_to_take_baseline path pre a : good_to gen X a (take_baseline env path pre a).2.
Proof. destruct (take_baseline_fields path pre a) as (?&?&?). by apply good_to_same. Qed.

Lemma good_to_read_baselines paths a : good_to gen X a (read_baselines_batch env paths a).2.
Proof. unfold read_baselines_batch. repeat case_match; by apply good_to_same. Qed.

Lemma good_to_track path b c agent a : good_to gen X a (track_file path b c agent a).
Proof. unfold track_file, send_event. apply good_to_send. by apply good_to_put_nil. Qed.

Notation good_to_recompute := (good_to_recompute gen X gen_inj env Hgen).

Lemma good_to_agent_write path content i prev a :
  good_to gen X a (record_agent_write env path content i prev a).
Proof.
  unfold record_agent_write. destruct (negb _).
  - destruct (file_states a !! path) as [st|]; [by apply good_to_put_nil|].
    destruct prev as [t|]; simpl; [apply good_to_track|].
    pose proof (good_to_read_baseline path a) as H. destruct (read_baseline env path a) as [b a'].
    transitivity a'; [done|apply good_to_track].
  - etrans; [|apply good_to_recompute]. destruct (file_states a !! path) as [st|] eqn:Hst.
    + by eapply good_to_put_same.
    + pose proof (good_to_read_baseline path a) as H. destruct (read_baseline env path a) as [b a'].
      transitivity a'; [done|apply good_to_track].
Qed.

Lemma good_to_track_non_diffable path pre cur a :
  good_to gen X a (track_non_diffable env path pre cur a).
Proof.
  unfold track_non_diffable.
  assert (∀ b a', good_to gen X a a' → good_to gen X a
    (if is_ignored env path b a' then a'
     else let a := track_file path b cur false a' in
          if is_diffable b then recompute_hunks env path None External a else a)) as H.
  { intros b a' Ha. destruct (is_ignored _ _ _ _); [done|]. cbn zeta.
    transitivity (track_file path b cur false a'); [etrans; [done|apply good_to_track]|].
    destruct (is_diffable b); [apply good_to_recompute|done]. }
  case_decide; [|by apply H].
  pose proof (good_to_take_baseline path pre a) as Ht.
  destruct (take_baseline env path pre a) as [b a']. by apply H.
Qed.

Lemma good_to_process path pre a : good_to gen X a (process_file_change env path pre a).
Proof.
  unfold process_file_change. cbn zeta.
  pose proof (good_to_take_baseline path pre a) as Ht.
  destruct (file_states a !! path) as [st|] eqn:Hst.
  - destruct (baseline_accepted st); [|apply good_to_recompute].
    destruct (take_baseline env path pre a) as [b a'].
    transitivity a'; [done|]. destruct (content_matches_head _ _ _ _); [by apply good_to_put_nil|].
    apply good_to_recompute.
  - case_decide; [done|]. destruct (negb _); [apply good_to_track_non_diffable|].
    destruct (take_baseline env path pre a) as [b a'].
    transitivity a'; [done|]. destruct (is_ignored _ _ _ _); [done|].
    etrans; [apply good_to_track|apply good_to_recompute].
Qed.

Lemma good_to_process_all paths baselines a :
  good_to gen X a (process_file_changes env paths baselines a).
Proof.
  revert baselines a. induction paths as [|path paths IH]; intros bs a; simpl; [done|].
  etrans; [apply good_to_process|apply IH].
Qed.

Lemma good_to_changes_batch paths a : good_to gen X a (handle_file_changes_batch env paths a).
Proof.
  unfold handle_file_changes_batch. destruct paths as [|p paths]; [done|].
  pose proof (good_to_read_baselines (filter_b (needs_baseline a) (p :: paths)) a) as H.
  destruct (read_baselines_batch _ _ _) as [bs a']. etrans; [done|apply good_to_process_all].
Qed.

Lemma good_to_deleted path a : good_to gen X a (handle_file_deleted env path a).
Proof.
  unfold handle_file_deleted. destruct (file_states a !! path) as [st|].
  - destruct (path_exists _ _ _); [apply good_to_process|apply good_to_recompute].
  - case_decide; [done|]. destruct (path_exists _ _ _); [done|].
    pose proof (good_to_read_baseline path a) as Hr. destruct (read_baseline env path a) as [b a'].
    transitivity a'; [done|].
    destruct b; [done|..]; (etrans; [apply good_to_track|apply good_to_recompute]).
Qed.

Lemma good_to_refresh_dirty scope a : good_to gen X a (refresh_git_dirty_cache env scope a).
Proof.
  unfold refresh_git_dirty_cache.
  destruct (git_repo_state a); [|done|]; destruct (scan_status _ _ _) as [d s]; cbn zeta;
    (case_decide; [|by apply good_to_same]);
    (etrans; [|apply good_to_foldl; intros; apply good_to_process]); by apply good_to_same.
Qed.

Lemma good_to_reset path a : good_to gen X a (reset_baseline path a).
Proof.
  unfold reset_baseline, send_event. destruct (file_states a !! path) as [st|] eqn:Hst; [|done].
  apply good_to_send. eapply good_to_supersede; [done|right; eexists; by split; [|reflexivity]|done..].
Qed.

Lemma good_to_refresh_file path b c a : good_to gen X a (refresh_file env path b c a).
Proof.
  unfold refresh_file, send_event. destruct (file_states a !! path) as [st|] eqn:Hst; [|done].
  cbn zeta. destruct (is_clean _ _ _ _ _).
  - destruct (is_agent_file st); apply good_to_send.
    + eapply good_to_supersede; [done|right|done..]. simpl. rewrite insert_insert_eq. eexists. by split; [|reflexivity].
    + eapply good_to_supersede; [done|left|done..]. simpl. by rewrite delete_insert_eq.
  - apply good_to_send. eapply good_to_put_recompute; [done..| |reflexivity|done|done]. done.
Qed.

Lemma good_to_refresh_files skip a : good_to gen X a (refresh_files env skip a).
Proof.
  unfold refresh_files.
  match goal with |- context [read_baselines_batch env ?ps a] =>
    pose proof (good_to_read_baselines ps a) as H; destruct (read_baselines_batch env ps a) as [bs a'] end.
  etrans; [done|]. apply good_to_foldl. intros. apply good_to_refresh_file.
Qed.

Lemma good_to_refresh_caches a : good_to gen X a (refresh_caches env a).
Proof.
  unfold refresh_caches. repeat case_match; try apply good_to_refresh_dirty. by apply good_to_same.
Qed.

Lemma good_to_refresh_all skip a : good_to gen X a (refresh_all_baselines_except env skip a).
Proof.
  unfold refresh_all_baselines_except. case_decide; [done|].
  assert (good_to gen X a (read_repo_sync_state env a).2) as Hr.
  { unfold read_repo_sync_state. case_match; by apply good_to_same. }
  destruct (read_repo_sync_state env a) as [[s|] a']; (etrans; [done|]).
  - case_decide; [done|]. transitivity (set_repo_sync_state s a'); [by apply good_to_same|].
    etrans; [apply good_to_refresh_caches|apply good_to_refresh_files].
  - etrans; [apply good_to_refresh_caches|apply good_to_refresh_files].
Qed.

Lemma good_to_set_mode m a : good_to gen X a (set_mode env m a).
Proof.
  unfold set_mode. cbn zeta. transitivity (set_mode_field m a); [by apply good_to_same|].
  destruct (mode a), m; [done|apply good_to_refresh_dirty| |done].
  apply good_to_foldl. intros a' path. unfold drop_file, send_event.
  destruct (file_states a' !! path) as [st|] eqn:Hst; [|done].
  apply good_to_send. eapply good_to_supersede; [done|by left|done..].
Qed.

End mutations.

(** ** Actions *)

Section actions.
Context `{D : DiffEngine} (gen : nat → HunkId) (X : gset HunkId) (gen_inj : Inj (=) (=) gen).
Context (env : Env) (Hgen : uuid env = gen).

(** An action on one hunk is the batched action on that hunk. *)
Lemma accept_hunk_batch path h a : accept_hunk env path h a = accept_hunks_batch env path [h] a.
Proof.
  unfold accept_hunk, accept_hunks_batch. destruct (file_states a !! path) as [st|]; [|done].
  by destruct (baseline st).
Qed.

Lemma reject_hunk_batch path h a : reject_hunk env path h a = reject_hunks_batch env path [h] a.
Proof.
  unfold reject_hunk, reject_hunks_batch, reject_action.
  destruct (file_states a !! path) as [st|]; [|done].
  destruct (baseline st) eqn:Eb, (current_content st) eqn:Ec; simpl; rewrite ?Eb; try done.
Qed.

Lemma retain_hunks_sublist gone hs : sublist (retain_hunks gone hs) hs.
Proof. apply filter_b_sublist. Qed.

Lemma retain_hunks_gone gone hs h h' :
  h ∈ retain_hunks gone hs → h' ∈ gone → hunk_id h ≠ hunk_id h'.
Proof.
  unfold retain_hunks. rewrite elem_of_filter_b. intros [_ H] Hh' E. breflect.
  apply H. rewrite E. by apply list_elem_of_fmap_2.
Qed.

Lemma retain_hunks_all hs : retain_hunks hs hs = [].
Proof.
  apply filter_b_none. intros h Hh. apply negb_false_iff, bool_decide_eq_true.
  by apply list_elem_of_fmap_2.
Qed.

Lemma account_hunks_fields acc hs a :
  file_states (foldl (account_hunk acc) a hs) = file_states a
  ∧ seed (foldl (account_hunk acc) a hs) = seed a
  ∧ turn_index (foldl (account_hunk acc) a hs)
    = foldl (λ t h, remove_from_turn_index (hunk_id h) (hunk_source h) t) (turn_index a) hs
  ∧ fs (foldl (account_hunk acc) a hs) = fs a.
Proof.
  revert a. induction hs as [|h hs IH]; intros a; [done|]. apply (IH (account_hunk acc a h)).
Qed.

(** The set of identifiers an action on [hs] takes out of the index. *)
Definition ids_of (hs : list Hunk) : gset HunkId := list_to_set (hunk_id <$> hs).

Lemma account_good acc hs a : good gen X a → good gen (ids_of hs ∪ X) (foldl (account_hunk acc) a hs).
Proof.
  intros [HF Hids]. destruct (account_hunks_fields acc hs a) as (E1 & E2 & E3 & _).
  unfold good. rewrite E1, E2, E3. split; [done|]. by apply ids_inv_remove_all.
Qed.

(** The file the action is on, without the hunks acted on. *)
Lemma ids_inv_retain F T n path st st' hs :
  ids_inv gen (ids_of hs ∪ X) F T n → F !! path = Some st → sublist hs (hunks st) →
  hunks st' = retain_hunks hs (hunks st) → ids_inv gen X (<[path := st']> F) T n.
Proof.
  intros Hids Hst Hsub Hst'. apply ids_inv_forget with (ids_of hs).
  - apply ids_inv_put; [done|]. right. exists st. rewrite Hst'. split; [done|].
    apply retain_hunks_sublist.
  - intros p h Hl. unfold ids_of. rewrite elem_of_list_to_set.
    intros (h' & E & Hh')%list_elem_of_fmap.
    apply live_insert in Hl as [[-> Hh]|[Hne Hl]].
    + rewrite Hst' in Hh. by apply (retain_hunks_gone _ _ _ _ Hh Hh').
    + apply Hne. eapply (ids_disjoint _ _ _ _ _ Hids p path h h'); [done| |done].
      exists st. split; [done|]. by eapply elem_of_sublist.
Qed.

(** A file that is created or deleted has one hunk at most. *)
Lemma one_hunk path b c hs st :
  file_ok path st → baseline st = b → current_content st = c →
  match b, c with Full _, Full _ => False | _, _ => True end →
  hs ≠ [] → sublist hs (hunks st) → retain_hunks hs (hunks st) = [].
Proof.
  intros Hok <- <- Hbc Hne Hsub.
  assert (length (hunks st) <= 1) as Hlen.
  { destruct Hok as [->|Hd]; [simpl; lia|].
    destruct (baseline st), (current_content st); simpl in Hd; try done;
      try (rewrite Hd; simpl; lia); destruct Hd as [[_ ->]|(h & -> & _)]; simpl; lia. }
  destruct (hunks st) as [|h [|h2 k]] eqn:E; simpl in Hlen; [done| |lia].
  destruct hs as [|h' hs]; [done|].
  inversion Hsub as [| |? ? ? Hs]; subst; [|by apply sublist_nil_r in Hs].
  match goal with H : sublist hs [] |- _ => apply sublist_nil_r in H as -> end.
  apply retain_hunks_all.
Qed.

Lemma put_nil_good path st st' a a' hs :
  good gen (ids_of hs ∪ X) a → file_states a !! path = Some st → sublist hs (hunks st) →
  retain_hunks hs (hunks st) = [] → hunks st' = [] →
  file_states a' = <[path := st']> (file_states a) → turn_index a' = turn_index a →
  seed a' = seed a → good gen X a' ∧ seed a <= seed a'.
Proof.
  intros [HF Hids] Hst Hsub Hr Hst' EF ET En. unfold good. rewrite EF, ET, En. split; [|lia].
  split; [apply files_ok_insert; [by apply files_ok_weaken|by left]|].
  eapply ids_inv_retain; [done..|]. by rewrite Hr.
Qed.

Lemma put_recompute_good path st st' a a' hs cur source :
  good gen (ids_of hs ∪ X) a → file_states a !! path = Some st → sublist hs (hunks st) →
  hunks st' = retain_hunks hs (hunks st) →
  file_states a' = <[path := st']> (file_states a) → turn_index a' = turn_index a →
  seed a' = seed a →
  good gen X (recompute_hunks env path cur source a')
  ∧ seed a <= seed (recompute_hunks env path cur source a').
Proof.
  intros [HF Hids] Hst Hsub Hst' EF ET En. rewrite <-En. apply recompute_good; [done..| |].
  - rewrite EF. by apply files_ok_but_insert.
  - rewrite EF, ET, En. by eapply ids_inv_retain.
Qed.

Lemma accept_batch_good path hs st a :
  good gen (ids_of hs ∪ X) a → file_states a !! path = Some st → sublist hs (hunks st) →
  hs ≠ [] →
  good gen X (accept_hunks_batch env path hs a) ∧ seed a <= seed (accept_hunks_batch env path hs a).
Proof.
  intros Hg Hst Hsub Hne. unfold accept_hunks_batch. destruct hs as [|h hs]; [done|]. rewrite Hst.
  destruct (baseline st) eqn:Eb;
    try (eapply put_recompute_good; [done..| |reflexivity|done|done]; done).
  assert (retain_hunks (h :: hs) (hunks st) = []) as Hr.
  { eapply one_hunk; [by apply (proj1 Hg path)|done|reflexivity|done|done|done]. }
  eapply put_nil_good; [done..| |reflexivity|done|done]. done.
Qed.

(** Every write and removal succeeds. *)
Definition io_succeeds : Prop := ∀ p, io_write (io env) p = true ∧ io_remove (io env) p = true.

(** The identifiers missing from the index after an action on [hs] with
    result [r]: those of [hs] when it failed. *)
Definition left_out {A} (r : result A) (hs : list Hunk) : gset HunkId :=
  match r with Ok _ => X | Err _ => ids_of hs ∪ X end.

Lemma reject_batch_good path hs st a :
  good gen (ids_of hs ∪ X) a → file_states a !! path = Some st → sublist hs (hunks st) →
  hs ≠ [] →
  let '(a', r) := reject_hunks_batch env path hs a in
  good gen (left_out r hs) a' ∧ seed a <= seed a' ∧ (io_succeeds → r = Ok tt).
Proof.
  intros Hg Hst Hsub Hne. unfold reject_hunks_batch. destruct hs as [|h hs]; [done|]. rewrite Hst.
  assert (∀ (P : Prop), hunks st = [] → P) as Hsome.
  { intros P E. rewrite E in Hsub. by apply sublist_nil_r in Hsub. }
  assert (file_ok path st) as Hok by (by apply (proj1 Hg path)).
  assert (match baseline st, current_content st with Full _, Full _ => False | _, _ => True end →
    retain_hunks (h :: hs) (hunks st) = []) as Hone.
  { intros Hbc. by eapply one_hunk. }
  assert (∀ a0 st', file_states a0 = <[path := st']> (file_states a) → turn_index a0 = turn_index a →
    seed a0 = seed a → retain_hunks (h :: hs) (hunks st) = [] → hunks st' = [] →
    good gen X a0 ∧ seed a <= seed a0 ∧ (io_succeeds → Ok tt = @Ok unit tt)) as Hput.
  { intros a0 st' EF ET En Hr Hn. destruct (put_nil_good path st st' a a0 (h :: hs)); done. }
  unfold fs_write, fs_remove, left_out.
  destruct (baseline st) eqn:Eb, (current_content st) eqn:Ec;
    try (destruct Hok as [Hok|Hok]; [by apply Hsome|];
         rewrite Eb, Ec in Hok; by apply Hsome).
  - destruct (io_remove (io env) path) eqn:E; cbn zeta iota.
    + eapply Hput; [reflexivity|done|done|by apply Hone|by apply Hone].
    + split; [done|]. split; [done|]. intros Hio. destruct (Hio path). congruence.
  - destruct (io_write (io env) path) eqn:E; cbn zeta iota.
    + eapply Hput; [reflexivity|done|done|by apply Hone|by apply Hone].
    + split; [done|]. split; [done|]. intros Hio. destruct (Hio path). congruence.
  - destruct (io_write (io env) path) eqn:E; cbn zeta iota.
    + match goal with |- good _ _ (recompute_hunks _ _ ?c ?s ?a') ∧ _ =>
        destruct (put_recompute_good path st
          (set_current_hunks (default Missing c) (retain_hunks (h :: hs) (hunks st)) st)
          a a' (h :: hs) c s) end; done.
    + split; [done|]. split; [done|]. intros Hio. destruct (Hio path). congruence.
Qed.

End actions.

Section others.
Context `{D : DiffEngine} (env : Env).

(** Recomputing and acting on a file leave the other files alone. *)
Lemma recompute_other path cur source a q :
  q ≠ path → file_states (recompute_hunks env path cur source a) !! q = file_states a !! q.
Proof.
  intros Hq. unfold recompute_hunks. case_match; [|done]. case_match. simpl.
  by rewrite lookup_insert_ne.
Qed.

Lemma accept_batch_other path hs a q :
  q ≠ path → file_states (accept_hunks_batch env path hs a) !! q = file_states a !! q.
Proof.
  intros Hq. unfold accept_hunks_batch. repeat case_match; try done;
    rewrite ?recompute_other by done; simpl; by rewrite lookup_insert_ne.
Qed.

Lemma reject_batch_other path hs a q :
  q ≠ path → file_states (reject_hunks_batch env path hs a).1 !! q = file_states a !! q.
Proof.
  intros Hq. unfold reject_hunks_batch, fs_write, fs_remove. repeat case_match; simplify_eq; try done;
    cbn [fst]; rewrite ?recompute_other by done; simpl; by rewrite lookup_insert_ne.
Qed.

(** The files of a batch: distinct tracked paths with hunks of theirs. *)
Definition batch_ok (a : Actor) (files : list (Path * list Hunk)) : Prop :=
  NoDup files.*1
  ∧ ∀ path hs, (path, hs) ∈ files →
      hs ≠ [] ∧ ∃ st, file_states a !! path = Some st ∧ sublist hs (hunks st).

Lemma files_with_hunks_ok p a : batch_ok a (files_with_hunks p a).
Proof.
  unfold files_with_hunks, batch_ok.
  assert (∀ l : list (Path * FileHunkState), NoDup l.*1 →
    let k := omap (λ '(path, st), match filter_b p (hunks st) with
      [] => None | hs => Some (path, hs) end) l in
    NoDup k.*1 ∧ ∀ path hs, (path, hs) ∈ k →
      hs ≠ [] ∧ ∃ st, (path, st) ∈ l ∧ sublist hs (hunks st)) as H.
  { induction l as [|[q st] l IH]; intros Hnd; cbn zeta.
    { split; [constructor|]. by intros ?? Hh%not_elem_of_nil. }
    apply NoDup_cons in Hnd as [Hq Hnd]. destruct (IH Hnd) as [H1 H2]. csimpl.
    pose proof (filter_b_sublist p (hunks st)) as Hsub.
    destruct (filter_b p (hunks st)) as [|h hs] eqn:E.
    - split; [done|]. intros path hs Hin. destruct (H2 _ _ Hin) as [? (st0 & ? & ?)]. set_solver.
    - split.
      + csimpl. apply NoDup_cons. split; [|done]. intros ([q' hs'] & Eq & Hin)%list_elem_of_fmap.
        simpl in Eq. subst q'. destruct (H2 _ _ Hin) as [_ (st0 & Hin0 & _)].
        apply Hq. by apply (list_elem_of_fmap_2 fst _ (q, st0)).
      + intros path hs' [[= -> ->]|Hin]%elem_of_cons.
        * split; [done|]. exists st. split; [by left|done].
        * destruct (H2 _ _ Hin) as [? (st0 & ? & ?)]. set_solver. }
  destruct (H (map_to_list (file_states a))) as [H1 H2]; [apply NoDup_fst_map_to_list|].
  split; [done|]. intros path hs Hin. destruct (H2 _ _ Hin) as [? (st & Hin' & ?)].
  split; [done|]. exists st. by rewrite elem_of_map_to_list in Hin'.
Qed.

Lemma find_in_files_spec id a path h :
  find_in_files id (map_to_list (file_states a)) = Some (path, h) →
  hunk_id h = id ∧ live (file_states a) path h.
Proof.
  unfold find_in_files. set (f := λ '(p, st), _).
  destruct (omap f _) as [|x l] eqn:E; [done|]. intros [= ->].
  assert ((path, h) ∈ omap f (map_to_list (file_states a))) as Hin by (rewrite E; by left).
  apply list_elem_of_omap in Hin as ([q st] & Hq & Ef). unfold f in Ef.
  apply fmap_Some in Ef as (h' & Hf & [= -> ->]). apply find_b_Some in Hf as [Hh Hid].
  apply bool_decide_eq_true in Hid. apply elem_of_map_to_list in Hq. split; [done|]. by exists st.
Qed.

End others.

Section batches.
Context `{D : DiffEngine} (gen : nat → HunkId) (gen_inj : Inj (=) (=) gen).
Context (env : Env) (Hgen : uuid env = gen).

Lemma batch_ok_tail a a' path hs files :
  batch_ok a ((path, hs) :: files) →
  (∀ q, q ≠ path → file_states a' !! q = file_states a !! q) → batch_ok a' files.
Proof.
  intros [Hnd Hf] Hsame. apply NoDup_cons in Hnd as [Hp Hnd]. split; [done|].
  intros q hs' Hin. destruct (Hf q hs') as [? (st & Hst & ?)]; [set_solver|].
  split; [done|]. exists st. rewrite Hsame; [done|].
  intros ->. apply Hp. by apply (list_elem_of_fmap_2 fst _ (path, hs')).
Qed.

(** What an action leaves: the invariant, with some identifiers missing from
    the index only when it failed, and it fails only when a file operation
    does. *)
Definition action_ok {A} (X : gset HunkId) (a a' : Actor) (r : result A) : Prop :=
  (∃ X', X ⊆ X' ∧ good gen X' a' ∧ ∀ x, r = Ok x → X' = X)
  ∧ seed a <= seed a' ∧ (io_succeeds env → ∃ x, r = Ok x).

Lemma action_ok_trans {A} X a a1 a2 (r : result A) :
  seed a <= seed a1 → action_ok X a1 a2 r → action_ok X a a2 r.
Proof. intros ? (? & ? & ?). split; [done|]. split; [lia|done]. Qed.

Lemma action_batch_ok X files action aff a :
  good gen X a → batch_ok a files →
  let '(a', r) := apply_action_batch env files action aff a in action_ok X a a' r.
Proof.
  revert aff a. induction files as [|[path hs] files IH]; intros aff a Hg Hb; simpl.
  { split; [by exists X|]. split; [done|]. by eexists. }
  destruct (proj2 Hb path hs) as [Hne (st & Hst & Hsub)]; [set_solver|].
  set (acc := bool_decide (action = Accept)). set (a1 := foldl (account_hunk acc) a hs).
  destruct (account_hunks_fields acc hs a) as (E1 & E2 & _ & _). fold a1 in E1, E2.
  assert (good gen (ids_of hs ∪ X) a1) as Hg1 by by apply account_good.
  destruct action.
  - destruct (accept_batch_good gen X gen_inj env Hgen path hs st a1) as [Hg2 Hs2];
      [done|by rewrite E1|done..|].
    specialize (IH (aff ++ (hunk_id <$> hs)) _ Hg2).
    destruct (apply_action_batch env files Accept _ _) as [a' r].
    eapply action_ok_trans; [|apply IH]; [lia|]. eapply batch_ok_tail; [done|].
    intros q Hq. by rewrite (accept_batch_other env), E1.
  - pose proof (reject_batch_good gen X gen_inj env Hgen path hs st a1 Hg1) as Hr.
    rewrite E1 in Hr. specialize (Hr Hst Hsub Hne).
    pose proof (reject_batch_other env path hs a1) as Ho.
    destruct (reject_hunks_batch env path hs a1) as [a2 [[]|e]]; destruct Hr as (Hg2 & Hs2 & Hio).
    + specialize (IH (aff ++ (hunk_id <$> hs)) _ Hg2).
      destruct (apply_action_batch env files Reject _ _) as [a' r].
      eapply action_ok_trans; [|apply IH]; [lia|]. eapply batch_ok_tail; [done|].
      intros q Hq. rewrite <-E1. by apply Ho.
    + split; [exists (ids_of hs ∪ X); split; [set_solver|by split]|]. split; [lia|].
      intros H. by apply Hio in H.
Qed.

Lemma hunk_action_ok X id action a :
  good gen X a →
  let '(a', r) := apply_hunk_action env id action a in
  (∃ X', X ⊆ X' ∧ good gen X' a' ∧ ∀ x, r = Ok x → X' = X)
  ∧ seed a <= seed a' ∧ (io_succeeds env → r = Err (HunkNotFound id) ∨ r = Ok tt)
  ∧ (r = Err (HunkNotFound id) → a' = a).
Proof.
  intros Hg. unfold apply_hunk_action. destruct (find_in_files _ _) as [[path h]|] eqn:Ef.
  2:{ split; [by exists X|]. by eauto. }
  apply find_in_files_spec in Ef as [_ (st & Hst & Hh)]. cbn zeta.
  set (acc := bool_decide (action = Accept)).
  assert (good gen (ids_of [h] ∪ X) (account_hunk acc a h)) as Hg1 by apply (account_good gen X acc [h] a Hg).
  assert (sublist [h] (hunks st)) as Hsub by (by apply singleton_sublist_l).
  destruct action.
  - rewrite accept_hunk_batch.
    destruct (accept_batch_good gen X gen_inj env Hgen path [h] st _ Hg1 Hst Hsub) as [Hg2 Hs2]; [done|].
    split; [by exists X|]. split; [done|]. split; [by right|done].
  - rewrite reject_hunk_batch.
    pose proof (reject_batch_good gen X gen_inj env Hgen path [h] st _ Hg1 Hst Hsub) as Hr.
    assert (∀ a'', reject_hunks_batch env path [h] (account_hunk acc a h)
      ≠ (a'', Err (HunkNotFound id))) as Hnf.
    { intros a''. unfold reject_hunks_batch. repeat case_match; done. }
    destruct (reject_hunks_batch _ _ _ _) as [a2 r].
    destruct Hr as (Hg2 & Hs2 & Hio); [done|].
    split; [exists (left_out X r [h]); split; [destruct r; simpl; set_solver|]; split; [done|]; by intros x ->|].
    split; [done|]. split; [by right; apply Hio|]. intros ->. by destruct (Hnf a2).
Qed.

Lemma file_action_ok X path action a :
  good gen X a →
  let '(a', r) := apply_file_action env path action a in action_ok X a a' r.
Proof.
  intros Hg. unfold apply_file_action.
  assert (action_ok X a a (Ok ([] : list HunkId))) as Hnil.
  { split; [by exists X|]. split; [done|by eexists]. }
  destruct (file_states a !! path) as [st|] eqn:Hst; [|done].
  destruct (hunks st) as [|h hs] eqn:E; [done|]. apply action_batch_ok; [done|].
  split; [repeat constructor; apply not_elem_of_nil|].
  intros q hs' [= -> ->]%list_elem_of_singleton. split; [done|]. exists st. by rewrite E.
Qed.

Lemma all_action_ok X action a :
  good gen X a →
  let '(a', r) := apply_all_action env action a in action_ok X a a' r.
Proof. intros Hg. apply action_batch_ok; [done|apply files_with_hunks_ok]. Qed.

Lemma turn_action_ok X i action a :
  good gen X a →
  let '(a', r) := apply_turn_action env i action a in action_ok X a a' r.
Proof. intros Hg. apply action_batch_ok; [done|apply files_with_hunks_ok]. Qed.

End batches.
