(* ===== verification/TrackerSafety.v ===== *)
(** * Hunk tracker: the invariants along every run

    From the initial state, whatever commands clients send and whatever other
    programs do to the files, every state the actor reaches satisfies the
    invariants.  The client-facing consequences: the hunks of a file are the
    diff of its contents, and the hunks reported for a turn are exactly the
    pending hunks of that turn. *)

From S2P Require Import Prelude Text HunkTypes HunkDiff HunkDiffProps FileUtils Tracker.
From S2P Require Import TrackerActions TrackerMutations TrackerQueries TrackerActor TrackerInv.
From S2P Require Import TrackerOps.

(** A snapshot that can be restored once [n] identifiers were drawn. *)
Definition snapshot_ok `{D : DiffEngine} (gen : nat → HunkId) (n : nat)
    (s : HunkTrackerSnapshot) : Prop :=
  files_ok (restore_file_state <$> snap_file_states s)
  ∧ ids_inv gen ∅ (restore_file_state <$> snap_file_states s) (snap_turn_index s) n.

(** Clients restore such snapshots only. *)
Definition cmd_ok `{D : DiffEngine} (gen : nat → HunkId) (a : Actor) (cmd : HunkTrackerCommand)
    : Prop :=
  match cmd with RestoreState s => snapshot_ok gen (seed a) s | _ => True end.

(** ** Coalescing *)

(** The commands of a batch that are not file changes or refreshes, in order. *)
Lemma batch_add_other b cmd :
  other_commands (batch_add b cmd)
  = other_commands b ++ filter_b (λ c, negb (is_coalescable c)) [cmd].
Proof. destruct cmd; simpl; by rewrite ?app_nil_r. Qed.

Lemma foldl_batch_other b cmds :
  other_commands (foldl batch_add b cmds)
  = other_commands b ++ filter_b (λ c, negb (is_coalescable c)) cmds.
Proof.
  revert b. induction cmds as [|cmd cmds IH]; intros b; cbn [foldl].
  - by rewrite app_nil_r.
  - rewrite IH, batch_add_other, <-app_assoc, <-filter_b_app. done.
Qed.

Lemma drain_other first queue :
  other_commands (drain_and_coalesce first queue)
  = filter_b (λ c, negb (is_coalescable c)) (first :: queue).
Proof.
  unfold drain_and_coalesce. rewrite foldl_batch_other, batch_add_other.
  simpl. by destruct (is_coalescable first).
Qed.

(** ** Commands and batches *)

Section commands.
Context `{D : DiffEngine} (gen : nat → HunkId) (gen_inj : Inj (=) (=) gen).

Lemma ids_inv_weaken X Y F T n : ids_inv gen X F T n → X ⊆ Y → ids_inv gen Y F T n.
Proof. intros [H1 H2 H3 H4 H5 H6] HXY. split; eauto. Qed.

Lemma snapshot_ok_mono n n' s : snapshot_ok gen n s → n <= n' → snapshot_ok gen n' s.
Proof. intros [HF Hids] ?. split; [done|]. by eapply ids_inv_mono. Qed.

Lemma cmd_ok_mono a a' cmd : seed a <= seed a' → cmd_ok gen a cmd → cmd_ok gen a' cmd.
Proof. intros Hs. destruct cmd; simpl; try done. intros H. by eapply snapshot_ok_mono. Qed.

(** The invariant from [a] to [a'], with identifiers missing from the index in
    the end only if a file operation of [env] failed. *)
Definition moves (env : Env) (X : gset HunkId) (a a' : Actor) : Prop :=
  (∃ X', X ⊆ X' ∧ good gen X' a' ∧ (io_succeeds env → X' = X)) ∧ seed a <= seed a'.

Lemma moves_good_to env X a a' : good gen X a → good_to gen X a a' → moves env X a a'.
Proof. intros Hg Ht. destruct (Ht Hg). split; [by exists X|done]. Qed.

Lemma moves_action {A} env X a a' (r : result A) :
  action_ok gen env X a a' r → moves env X a a'.
Proof.
  intros ((X' & ? & ? & HX) & Hs & Hio). split; [|done]. exists X'. split; [done|]. split; [done|].
  intros Hi. destruct (Hio Hi) as [x Hx]. by eapply HX.
Qed.

Lemma moves_refl env X a : good gen X a → moves env X a a.
Proof. intros Hg. by apply moves_good_to. Qed.

Lemma moves_trans env X a b c :
  moves env X a b →
  (∀ X', X ⊆ X' → good gen X' b → moves env X' b c) → moves env X a c.
Proof.
  intros [(X1 & HX1 & Hb & Hio1) Hs1] H2.
  destruct (H2 X1 HX1 Hb) as [(X2 & HX2 & Hc & Hio2) Hs2]. split; [|lia].
  exists X2. split; [set_solver|]. split; [done|]. intros H. by rewrite Hio2, Hio1.
Qed.

Section one_env.
Context (env : Env) (Hgen : uuid env = gen).

Lemma moves_command X cmd a :
  good gen X a → cmd_ok gen a cmd → moves env X a (handle_command env cmd a).1.1.
Proof.
  intros Hg Hcmd.
  assert (∀ a', good_to gen X a a' → moves env X a a') as Hmut.
  { intros a' H. by apply moves_good_to. }
  destruct cmd; simpl;
    try (by apply moves_refl); try (by apply Hmut, good_to_same).
  - apply Hmut. by apply good_to_agent_write.
  - apply Hmut. by apply good_to_process.
  - apply Hmut. by apply good_to_deleted.
  - apply Hmut. by apply good_to_refresh_dirty.
  - apply Hmut. by apply good_to_reset.
  - apply Hmut. by apply good_to_set_mode.
  - pose proof (hunk_action_ok gen gen_inj env Hgen X hunk_id action a Hg) as H.
    destruct (apply_hunk_action env hunk_id action a) as [a' r].
    destruct H as ((X' & HX' & Hg' & HX) & Hs & Hio & Hnf). split; [|done].
    destruct r as [[]|e].
    + exists X. rewrite (HX tt eq_refl) in Hg'. done.
    + destruct (decide (e = HunkNotFound hunk_id)) as [->|E].
      * rewrite (Hnf eq_refl). by exists X.
      * exists X'. split; [done|]. split; [done|]. intros Hi. destruct (Hio Hi); by simplify_eq.
  - pose proof (file_action_ok gen gen_inj env Hgen X path action a Hg) as H.
    destruct (apply_file_action env path action a). by eapply moves_action.
  - pose proof (all_action_ok gen gen_inj env Hgen X action a Hg) as H.
    destruct (apply_all_action env action a). by eapply moves_action.
  - pose proof (turn_action_ok gen gen_inj env Hgen X prompt_index action a Hg) as H.
    destruct (apply_turn_action env prompt_index action a). by eapply moves_action.
  - destruct (get_file_hunk_data a path); by apply moves_refl.
  - apply Hmut. by apply good_to_refresh_all.
  - destruct Hcmd as [HF Hids]. split; [|done]. exists X. split; [done|]. split; [|done].
    split; [done|]. simpl. by eapply ids_inv_weaken.
Qed.

Lemma moves_commands X cmds rs a :
  good gen X a → Forall (cmd_ok gen a) cmds → moves env X a (handle_commands env cmds rs a).1.1.
Proof.
  revert X rs a. induction cmds as [|cmd cmds IH]; intros X rs a Hg Hc; simpl; [by apply moves_refl|].
  inversion Hc as [|?? Hcmd Hcmds]; subst.
  pose proof (moves_command X cmd a Hg Hcmd) as Hm.
  destruct (handle_command env cmd a) as [[a1 r] [|]]; [|done].
  eapply moves_trans; [done|]. intros X' HX' Hg'. apply IH; [done|].
  eapply Forall_impl; [done|]. intros c. apply cmd_ok_mono, Hm.
Qed.

Lemma good_to_actions X actions changed a :
  good_to gen X a (handle_actions env actions changed a).2.
Proof.
  revert changed a. induction actions as [|[path act] actions IH]; intros changed a; simpl; [done|].
  destruct act; [apply IH| |apply IH]. etrans; [by apply good_to_deleted|apply IH].
Qed.

Lemma good_to_actions_refresh X actions already a :
  good_to gen X a (handle_actions_refresh env actions already a).2.
Proof.
  revert already a. induction actions as [|[path act] actions IH]; intros already a; simpl; [done|].
  destruct act; destruct (file_states a !! path); simpl; try apply IH;
    (etrans; [|apply IH]); by (apply good_to_process || apply good_to_deleted).
Qed.

Lemma good_to_batch_files X batch a : good_to gen X a (handle_batch_files env batch a).
Proof.
  unfold handle_batch_files. cbn zeta. set (a0 := if _ && _ then _ else a).
  transitivity a0. { unfold a0. case_match; [by apply good_to_refresh_dirty|done]. }
  destruct (refresh_all batch).
  - pose proof (good_to_actions_refresh X (map_to_list (file_actions batch)) ∅ a0) as H.
    destruct (handle_actions_refresh _ _ _ _). etrans; [done|by apply good_to_refresh_all].
  - pose proof (good_to_actions X (map_to_list (file_actions batch)) [] a0) as H.
    destruct (handle_actions _ _ _ _). etrans; [done|by apply good_to_changes_batch].
Qed.

Lemma moves_iteration X cmd q a a' rs q' go :
  good gen X a → Forall (cmd_ok gen a) (cmd :: q) →
  run_iteration env cmd q a = (a', rs, q', go) →
  moves env X a a' ∧ Forall (cmd_ok gen a) q'.
Proof.
  intros Hg Hq. unfold run_iteration. destruct (is_coalescable cmd).
  - unfold handle_coalesced_batch.
    set (b := drain_and_coalesce cmd q). intros E.
    assert (moves env X a (handle_commands env (other_commands b) [] (handle_batch_files env b a)).1.1)
      as Hm.
    { pose proof (moves_good_to env X a _ Hg (good_to_batch_files X b a)) as Hm.
      eapply moves_trans; [done|]. intros X' _ Hg'. apply moves_commands; [done|].
      rewrite (drain_other cmd q : other_commands b = _). rewrite Forall_forall in Hq |- *.
      intros c [Hc _]%elem_of_filter_b. eapply cmd_ok_mono; [apply Hm|by apply Hq]. }
    destruct (handle_commands _ _ _ _) as [[??]?]. simplify_eq. by split.
  - inversion Hq as [|?? Hcmd Hqs]; subst. pose proof (moves_command X cmd a Hg Hcmd) as Hm.
    destruct (handle_command env cmd a) as [[??]?]. intros. by simplify_eq.
Qed.

End one_env.
End commands.

(** ** Runs *)

Section runs.
Context `{D : DiffEngine} (gen : nat → HunkId) (gen_inj : Inj (=) (=) gen).

Definition system_ok (X : gset HunkId) (s : System) : Prop :=
  good gen X (sys_actor s) ∧ Forall (cmd_ok gen (sys_actor s)) (sys_queue s).

(** The identifiers come from one generator. *)
Definition one_generator (env : Env) : Prop := uuid env = gen.

(** Also, every write and removal succeeds. *)
Definition reliable (env : Env) : Prop := uuid env = gen ∧ io_succeeds env.

Lemma initial_ok wd m f : system_ok ∅ (initial_system wd m f).
Proof.
  split; [|constructor]. split; [intros p st _; simpl; by rewrite lookup_empty|].
  split; simpl; unfold live, turn_ids; setoid_rewrite lookup_empty; naive_solver set_solver.
Qed.

Lemma Forall_cmd_ok_mono a a' q :
  seed a <= seed a' → Forall (cmd_ok gen a) q → Forall (cmd_ok gen a') q.
Proof. intros Hs Hq. eapply Forall_impl; [done|]. intros c. by apply cmd_ok_mono. Qed.

Lemma system_step (world : Env → Prop) X s s' :
  (∀ env, world env → uuid env = gen) →
  actor_step world (cmd_ok gen) s s' → system_ok X s →
  ∃ X', system_ok X' s' ∧ ((∀ env, world env → io_succeeds env) → X' = X).
Proof.
  intros Hw Hstep [Hg Hq].
  destruct Hstep as [a q rs st cmd Hcmd|a q rs st f|a q rs st n Hn|env a q rs He
    |env a cmd q rs a' rs' q' go He Hrun|a q rs]; simpl in *.
  - exists X. split; [|done]. split; [done|]. apply Forall_app. by repeat constructor.
  - exists X. split; [|done]. by split.
  - exists X. split; [|done]. destruct Hg as [HF Hids]. split; [split; [done|by eapply ids_inv_mono]|].
    by apply (Forall_cmd_ok_mono a).
  - exists X. split; [|done]. unfold run_start. case_decide; [|done].
    destruct (good_to_refresh_dirty gen X gen_inj env (Hw _ He) None a Hg) as [Hg' Hs].
    split; [done|]. by apply (Forall_cmd_ok_mono a).
  - destruct (moves_iteration gen gen_inj env (Hw _ He) X cmd q a a' rs' q' go Hg Hq Hrun)
      as [[(X' & _ & Hg' & Hio) Hs] Hq'].
    exists X'. split; [split; [done|by apply (Forall_cmd_ok_mono a)]|]. intros H. by eapply Hio, H.
  - exists X. by split.
Qed.

Lemma system_steps (world : Env → Prop) X s s' :
  (∀ env, world env → uuid env = gen) →
  actor_steps world (cmd_ok gen) s s' → system_ok X s →
  ∃ X', system_ok X' s' ∧ ((∀ env, world env → io_succeeds env) → X' = X).
Proof.
  intros Hw Hsteps. revert X. induction Hsteps as [s|s1 s2 s3 Hstep _ IH]; intros X Hok.
  - by exists X.
  - destruct (system_step world X s1 s2 Hw Hstep Hok) as (X1 & Hok1 & H1).
    destruct (IH X1 Hok1) as (X2 & Hok2 & H2). exists X2. split; [done|].
    intros H. rewrite H2, H1; done.
Qed.

Lemma reliable_ids wd m f s :
  actor_steps reliable (cmd_ok gen) (initial_system wd m f) s → system_ok ∅ s.
Proof.
  intros Hs.
  destruct (system_steps reliable ∅ (initial_system wd m f) s) as (X & Hok & HX);
    [by intros env [? _]|done|apply initial_ok|]. rewrite HX in Hok; [done|by intros env [_ ?]].
Qed.

End runs.

(** ** Queries against the invariant *)

Section queries.
Context `{D : DiffEngine} (gen : nat → HunkId).

Lemma elem_of_all_hunks a h : h ∈ get_all_hunks a ↔ ∃ path, live (file_states a) path h.
Proof.
  unfold get_all_hunks, file_values, live. rewrite list_elem_of_bind. split.
  - intros (st & Hh & Hst). apply list_elem_of_fmap in Hst as ([path st'] & -> & Hin).
    apply elem_of_map_to_list in Hin. eauto.
  - intros (path & st & Hst & Hh). exists st. split; [done|].
    apply elem_of_map_to_list in Hst. by apply (list_elem_of_fmap_2 snd _ (path, st)).
Qed.

Lemma all_hunks_nodup X a : actor_ids gen X a → NoDup (hunk_id <$> get_all_hunks a).
Proof.
  intros Hids. unfold get_all_hunks, file_values.
  assert (∀ l : list (Path * FileHunkState), NoDup l.*1 →
    (∀ path st, (path, st) ∈ l → file_states a !! path = Some st) →
    NoDup (hunk_id <$> (l.*2 ≫= hunks))) as H.
  { induction l as [|[p st] l IH]; intros Hnd Hin; csimpl; [constructor|].
    apply NoDup_cons in Hnd as [Hp Hnd]. rewrite fmap_app. apply NoDup_app.
    split; [eapply ids_nodup; [done|apply Hin; by left]|].
    split; [|apply IH; [done|set_solver]].
    intros x (h & -> & Hh)%list_elem_of_fmap (h' & E & Hh')%list_elem_of_fmap.
    apply list_elem_of_bind in Hh' as (st' & Hh' & Hst').
    apply list_elem_of_fmap in Hst' as ([q st''] & -> & Hq). simpl in Hh'.
    apply Hp. replace p with q; [by apply (list_elem_of_fmap_2 fst _ (q, st''))|].
    eapply (ids_disjoint _ _ _ _ _ Hids q p h' h); [exists st''|exists st|done];
      (split; [|done]); apply Hin; set_solver. }
  apply H; [apply NoDup_fst_map_to_list|]. intros path st. by rewrite elem_of_map_to_list.
Qed.

Lemma get_hunk_spec X a id h :
  actor_ids gen X a →
  get_hunk a id = Some h ↔ hunk_id h = id ∧ h ∈ get_all_hunks a.
Proof.
  intros Hids. unfold get_hunk. split.
  - intros [Hh Hid]%find_b_Some. apply bool_decide_eq_true in Hid. done.
  - intros [Hid Hh]. destruct (find_b _ _) as [h'|] eqn:E.
    + apply find_b_Some in E as [Hh' Hid']. apply bool_decide_eq_true in Hid'. f_equal.
      eapply (NoDup_fmap_eq hunk_id); [by eapply all_hunks_nodup|done..|congruence].
    + pose proof (proj1 (find_b_None _ _) E h Hh) as H. by apply bool_decide_eq_false in H.
Qed.

Lemma turn_hunks_nodup X a i : actor_ids gen X a → NoDup (get_hunks_for_turn a i).
Proof.
  intros Hids. unfold get_hunks_for_turn. destruct (turn_index a !! i) as [ids|]; [|constructor].
  pose proof (NoDup_elements ids) as Hnd. induction Hnd as [|id l Hid Hnd IH]; csimpl; [constructor|].
  destruct (get_hunk a id) as [h|] eqn:Eh; [|done]. apply NoDup_cons. split; [|done].
  intros (id' & Hid' & Eh')%list_elem_of_omap.
  apply (get_hunk_spec X) in Eh as [<- _], Eh' as [<- _]; done.
Qed.

Lemma turn_hunks_exact a i :
  actor_ids gen ∅ a →
  get_hunks_for_turn a i
  ≡ₚ filter_b (λ h, bool_decide (prompt_index (hunk_source h) = Some i)) (get_all_hunks a).
Proof.
  intros Hids. apply NoDup_Permutation.
  - by eapply turn_hunks_nodup.
  - eapply sublist_NoDup; [|apply filter_b_sublist].
    eapply NoDup_fmap_1, all_hunks_nodup. done.
  - intros h. rewrite elem_of_filter_b, bool_decide_eq_true.
    unfold get_hunks_for_turn. transitivity (h ∈ omap (get_hunk a) (elements (turn_ids (turn_index a) i))).
    { unfold turn_ids. destruct (turn_index a !! i); [done|]. simpl. by rewrite elements_empty. }
    rewrite list_elem_of_omap. setoid_rewrite elem_of_elements.
    setoid_rewrite (get_hunk_spec ∅); [|done]. split.
    + intros (id & Hin & <- & Hh). split; [done|]. apply elem_of_all_hunks in Hh as [p Hl].
      by eapply (turn_sound _ _ _ _ _ Hids).
    + intros [Hh Hi]. exists (hunk_id h). split; [|done].
      apply elem_of_all_hunks in Hh as [p Hl]. eapply (turn_complete _ _ _ _ _ Hids); [done|set_solver|done].
Qed.

(** ** Snapshots *)

Lemma restore_take_states a :
  restore_file_state <$> snap_file_states (take_snapshot a) = file_states a.
Proof.
  unfold take_snapshot. simpl. rewrite <-map_fmap_compose. apply map_eq. intros p.
  rewrite lookup_fmap. by destruct (file_states a !! p) as [[]|].
Qed.

End queries.
