(* ===== verification/TrackerReview.v ===== *)
(** * Hunk tracker: what accepting and rejecting achieve

    The effect of the batched actions on contents and disk.  Rejecting all
    hunks of a file puts its baseline back on disk; accepting them makes the
    current content the baseline; rejecting a selection reverts exactly the
    selected runs of changed lines. *)

From S2P Require Import Prelude Text HunkTypes HunkDiff HunkDiffProps FileUtils Tracker.
From S2P Require Import TrackerActions TrackerInv TrackerOps.

(** What a content state looks like on disk. *)
Definition disk_node (c : FileContentState) : option FsNode :=
  match c with Full t => Some (RegularFile t) | _ => None end.

(** Texts the line patches are exact on: LF-terminated lines without CR, and at
    least one unchanged line that is not blank. *)
Definition reviewable `{D : DiffEngine} (b c : FileContentState) : Prop :=
  match b, c with
  | Full b, Full c => lf_text b ∧ lf_text c ∧ kept_line (diff_lines b c)
  | _, _ => True
  end.

(** The baseline after accepting every hunk of a file: its content, a deleted
    file becoming an empty one. *)
Definition accepted_baseline (c : FileContentState) : FileContentState :=
  match c with Missing => Full [] | _ => c end.

Section review.
Context `{D : DiffEngine} (env : Env).

Lemma recompute_fs path cur source a : fs (recompute_hunks env path cur source a) = fs a.
Proof. unfold recompute_hunks. case_match; [|done]. by case_match. Qed.

Lemma recompute_stats path cur source a :
  session_stats (recompute_hunks env path cur source a) = session_stats a.
Proof. unfold recompute_hunks. case_match; [|done]. by case_match. Qed.

Lemma content_hunks_equal path b source n :
  content_hunks env path (Full b) (Full b) source n = ([], n).
Proof. unfold content_hunks, compute_hunks. by rewrite decide_True. Qed.

(** Recomputing a file whose content is its baseline leaves no hunk. *)
Lemma recompute_equal path b source a st :
  file_states a !! path = Some st → baseline st = Full b →
  file_states (recompute_hunks env path (Some (Full b)) source a) !! path
  = Some (mkFileState (Full b) (Full b) [] (is_agent_file st) (baseline_accepted st)).
Proof.
  intros Hst Hb.
  destruct (recompute_file env path (Some (Full b)) source a st Hst) as (hs & n & Ehs & -> & _).
  rewrite lookup_insert_eq. change (default missing_content (Some (Full b))) with (Full b) in *.
  rewrite Hb, content_hunks_equal in Ehs. simplify_eq. by rewrite Hb.
Qed.

(** In general: the content is set, the baseline and the flags stay. *)
Lemma recompute_contents path c source a st :
  file_states a !! path = Some st →
  ∃ hs, file_states (recompute_hunks env path (Some c) source a) !! path
  = Some (mkFileState (baseline st) c hs (is_agent_file st) (baseline_accepted st)).
Proof.
  intros Hst. destruct (recompute_file env path (Some c) source a st Hst) as (hs & n & _ & -> & _).
  rewrite lookup_insert_eq. eauto.
Qed.

Lemma content_hunks_cases path st h :
  file_ok path st → h ∈ hunks st →
  (∃ b c, baseline st = Full b ∧ current_content st = Full c ∧ is_diff_of path b c (hunks st))
  ∨ (∃ b, baseline st = Full b ∧ current_content st = Missing ∧ hunks st = [h]
       ∧ line_info h = mkLineInfo 1 (Nat.max (length (lines b)) 1) 0 0 ∧ new_text h = [])
  ∨ (∃ c, baseline st = Missing ∧ current_content st = Full c ∧ hunks st = [h]).
Proof.
  intros Hok Hh. assert (hunks st ≠ []) as Hne by (intros E; rewrite E in Hh; by apply not_elem_of_nil in Hh).
  destruct Hok as [Hok|Hok]; [done|].
  destruct (baseline st) eqn:Eb, (current_content st) eqn:Ec; simpl in Hok; try done;
    try (destruct Hok as [[_ ?]|(h' & E & _ & Hcore)]; [done|]; rewrite E in Hh;
         apply list_elem_of_singleton in Hh as ->; injection Hcore as ? ? ? ?).
  - right. right. eauto.
  - right. left. eexists; eauto 10.
  - left. eauto.
Qed.

Context `{!DiffLaws D}.

(** ** All hunks of a file *)

(** The text on one side of a pair. *)
Lemma patch_all_current path b c hs :
  lf_text b → lf_text c → kept_line (diff_lines b c) → is_diff_of path b c hs → hs ≠ [] →
  foldl (patch_hunk New) c (sort_by_key_rev (λ h, new_start (line_info h)) hs) = b.
Proof. intros. by apply (patch_all_hunks New path b c hs). Qed.

Lemma patch_all_baseline path b c hs :
  lf_text b → lf_text c → kept_line (diff_lines b c) → is_diff_of path b c hs → hs ≠ [] →
  foldl (patch_hunk Old) b (sort_by_key_rev (λ h, old_start (line_info h)) hs) = c.
Proof. intros. by apply (patch_all_hunks Old path b c hs). Qed.

(** Removing every line of a text. *)
Lemma patch_lines_all b n : length (lines b) <= n → patch_lines b 1 n [] = [].
Proof.
  intros Hn. unfold patch_lines. rewrite decide_True by done. cbn [Nat.sub Nat.min Nat.add take app].
  rewrite drop_ge by lia. cbn [join_lf]. by rewrite andb_false_r.
Qed.

Lemma reject_all_batch path st a :
  file_states a !! path = Some st → file_ok path st → hunks st ≠ [] →
  reviewable (baseline st) (current_content st) →
  io_write (io env) path = true → io_remove (io env) path = true →
  ∃ a', reject_hunks_batch env path (hunks st) a = (a', Ok tt)
    ∧ file_states a' !! path
      = Some (mkFileState (baseline st) (baseline st) [] (is_agent_file st) (baseline_accepted st))
    ∧ fs a' !! path = disk_node (baseline st).
Proof.
  intros Hst Hok Hne Hrev Hw Hr.
  pose proof (retain_hunks_all (hunks st)) as Hret.
  destruct (hunks st) as [|h hs] eqn:Ehs; [done|].
  destruct (content_hunks_cases path st h Hok) as [(b & c & Eb & Ec & Hd)|[(b & Eb & Ec & _)|(c & Eb & Ec & _)]];
    [rewrite Ehs; by left|..]; unfold reject_hunks_batch, fs_write, fs_remove;
    rewrite Hst, Eb, Ec, Ehs, Hret, ?Hw, ?Hr; cbn zeta iota.
  - rewrite Eb, Ec in Hrev. destruct Hrev as (Hb & Hc & Hk).
    change (foldl _ c _) with
      (foldl (patch_hunk New) c (sort_by_key_rev (λ h, new_start (line_info h)) (h :: hs))).
    rewrite (patch_all_current path b c (h :: hs)) by congruence.
    eexists. split; [done|]. rewrite recompute_fs. simpl. split; [|by rewrite lookup_insert_eq].
    rewrite (recompute_equal path b _ _ (set_current_hunks (Full b) [] st));
      [done|simpl; by rewrite lookup_insert_eq|done].
  - eexists. split; [done|]. simpl. rewrite !lookup_insert_eq. unfold set_current_hunks. by rewrite Eb.
  - eexists. split; [done|]. simpl. rewrite lookup_insert_eq, lookup_delete_eq.
    unfold set_current_hunks. by rewrite Eb.
Qed.

Lemma accept_all_batch path st a :
  file_states a !! path = Some st → file_ok path st → hunks st ≠ [] →
  reviewable (baseline st) (current_content st) →
  let a' := accept_hunks_batch env path (hunks st) a in
  file_states a' !! path
  = Some (mkFileState (accepted_baseline (current_content st)) (current_content st) []
            (is_agent_file st) true)
  ∧ fs a' = fs a.
Proof.
  intros Hst Hok Hne Hrev. cbn zeta.
  pose proof (retain_hunks_all (hunks st)) as Hret.
  destruct (hunks st) as [|h hs] eqn:Ehs; [done|].
  destruct (content_hunks_cases path st h Hok) as [(b & c & Eb & Ec & Hd)|[(b & Eb & Ec & Eh & Hli & Hnew)|(c & Eb & Ec & _)]];
    [rewrite Ehs; by left|..].
  - rewrite Eb, Ec in Hrev. destruct Hrev as (Hb & Hc & Hk).
    unfold accept_hunks_batch. rewrite Hst, Eb, Ec, Ehs, Hret. cbn zeta iota.
    assert (∀ l t, foldl (λ b h, match b with
      | Full t => Full (patch_lines t (old_start (line_info h)) (old_count (line_info h)) (new_text h))
      | _ => b end) (Full t) l = Full (foldl (patch_hunk Old) t l)) as Hfold.
    { induction l as [|x l IH]; intros t; simpl; [done|]. apply IH. }
    rewrite Hfold, (patch_all_baseline path b c (h :: hs)) by congruence.
    rewrite recompute_fs. split; [|done].
    rewrite (recompute_equal path c _ _ (set_baseline_hunks (Full c) [] st));
      [by rewrite ?Ec|simpl; by rewrite lookup_insert_eq|done].
  - rewrite Ehs in Eh. injection Eh as ->.
    unfold accept_hunks_batch. rewrite Hst, Eb, Ec, Ehs, Hret. cbn zeta iota. cbn [sort_by_key_rev foldr insert_by_desc foldl].
    rewrite Hli, Hnew. cbn [old_start old_count]. rewrite patch_lines_all, recompute_fs by lia.
    split; [|done].
    match goal with |- file_states (recompute_hunks _ _ (Some ?c) ?s ?a') !! _ = _ =>
      destruct (recompute_file env path (Some c) s a' (set_baseline_hunks (Full []) [] st))
        as (k & n & Ek & -> & _); [simpl; by rewrite lookup_insert_eq|] end.
    rewrite lookup_insert_eq. cbn in Ek. rewrite decide_True in Ek by done. by simplify_eq.
  - unfold accept_hunks_batch. rewrite Hst, Eb, Ec, Ehs, Hret. cbn zeta iota. simpl.
    rewrite lookup_insert_eq. unfold set_baseline_hunks. by rewrite Ec.
Qed.

(** ** A selection of the hunks of a file *)

Lemma reject_selected_batch path b c st p a :
  file_states a !! path = Some st → baseline st = Full b → current_content st = Full c →
  is_diff_of path b c (hunks st) → filter_b p (hunks st) ≠ [] →
  lf_text b → lf_text c → kept_line (diff_lines b c) →
  io_write (io env) path = true →
  ∃ a' sel hs',
    reject_hunks_batch env path (filter_b p (hunks st)) a = (a', Ok tt)
    ∧ Forall2 (λ run h, sel run = p h) (raw_hunks 1 1 None (diff_lines b c)) (hunks st)
    ∧ file_states a' !! path
      = Some (mkFileState (Full b) (Full (concat (mix New sel 1 1 None (diff_lines b c)))) hs'
                (is_agent_file st) (baseline_accepted st))
    ∧ fs a' !! path = Some (RegularFile (concat (mix New sel 1 1 None (diff_lines b c)))).
Proof.
  intros Hst Eb Ec Hd Hne Hb Hc Hk Hw.
  assert (hunks st ≠ []) as Hne' by (intros E; by rewrite E in Hne).
  destruct (patch_selected_hunks New path b c (hunks st) p Hb Hc Hk Hd Hne') as (sel & Hsel & Hmix).
  unfold reject_hunks_batch, fs_write. rewrite Hst, Eb, Ec, Hw.
  destruct (filter_b p (hunks st)) as [|h hs] eqn:Ef; [done|]. cbn zeta iota.
  change (foldl _ c _) with (foldl (patch_hunk New) c (sort_by_key_rev (start_on New) (h :: hs))).
  rewrite Hmix. set (c' := concat _).
  match goal with |- context [recompute_hunks env path (Some (Full c')) ?s ?a0] =>
    destruct (recompute_contents path (Full c') s a0
      (set_current_hunks (Full c') (retain_hunks (h :: hs) (hunks st)) st)) as [hs' Hfin] end.
  { simpl. by rewrite lookup_insert_eq. }
  eexists _, sel, hs'. split; [done|]. split; [done|]. split; [rewrite Hfin; simpl; by rewrite Eb|].
  rewrite recompute_fs. simpl. by rewrite lookup_insert_eq.
Qed.

End review.

(** ** Several files *)

Section files.
Context `{D : DiffEngine} (env : Env).

Lemma account_file acc hs a path :
  file_states (foldl (account_hunk acc) a hs) !! path = file_states a !! path
  ∧ fs (foldl (account_hunk acc) a hs) !! path = fs a !! path.
Proof. destruct (account_hunks_fields acc hs a) as (-> & _ & _ & ->). done. Qed.

Lemma reject_batch_other_fs path hs a q :
  q ≠ path → fs (reject_hunks_batch env path hs a).1 !! q = fs a !! q.
Proof.
  intros Hq. unfold reject_hunks_batch, fs_write, fs_remove. repeat case_match; simplify_eq; try done;
    cbn [fst]; rewrite ?recompute_fs; simpl; by rewrite ?lookup_insert_ne, ?lookup_delete_ne.
Qed.

Lemma accept_batch_fs path hs a : fs (accept_hunks_batch env path hs a) = fs a.
Proof.
  unfold accept_hunks_batch. repeat case_match; try done; by rewrite recompute_fs.
Qed.

(** A rejected batch that succeeds did on every file what rejecting the hunks
    of that file alone does. *)
Lemma reject_files_each files aff a a' ids :
  NoDup files.*1 → apply_action_batch env files Reject aff a = (a', Ok ids) →
  ids = aff ++ concat ((λ f : Path * list Hunk, hunk_id <$> f.2) <$> files)
  ∧ (∀ q, q ∉ files.*1 →
       file_states a' !! q = file_states a !! q ∧ fs a' !! q = fs a !! q)
  ∧ ∀ path hs, (path, hs) ∈ files →
      ∃ a0 a1,
        file_states a0 !! path = file_states a !! path ∧ fs a0 !! path = fs a !! path
        ∧ reject_hunks_batch env path hs a0 = (a1, Ok tt)
        ∧ file_states a' !! path = file_states a1 !! path ∧ fs a' !! path = fs a1 !! path.
Proof.
  revert aff a. induction files as [|[path hs] files IH]; intros aff a Hnd Hrun; simpl in Hrun.
  { simplify_eq. rewrite app_nil_r. split; [done|]. split; [done|]. by intros ?? ?%not_elem_of_nil. }
  csimpl in Hnd. apply NoDup_cons in Hnd as [Hp Hnd].
  set (a0 := foldl _ a hs) in Hrun.
  pose proof (account_file false hs a) as Hacc. fold a0 in Hacc.
  pose proof (reject_batch_other env path hs a0) as Ho.
  pose proof (reject_batch_other_fs path hs a0) as Hof.
  destruct (reject_hunks_batch env path hs a0) as [a1 [[]|e]] eqn:Er; [|done]. simpl in Ho, Hof.
  destruct (IH _ _ Hnd Hrun) as (Hids & Hrest & Hin). split; [|split].
  - rewrite Hids. csimpl. by rewrite <-app_assoc.
  - intros q Hq. csimpl in Hq. apply not_elem_of_cons in Hq as [Hne Hq].
    destruct (Hrest q Hq) as [-> ->]. rewrite Ho, Hof by done. apply Hacc.
  - intros q hs' [[= -> ->]|Hq]%elem_of_cons.
    + exists a0, a1. destruct (Hacc path) as [-> ->]. destruct (Hrest path Hp) as [-> ->]. done.
    + destruct (Hin q hs' Hq) as (b0 & b1 & H1 & H2 & H3).
      assert (q ≠ path) as Hne.
      { intros ->. apply Hp. by apply (list_elem_of_fmap_2 fst _ (path, hs')). }
      exists b0, b1. rewrite H1, H2, Ho, Hof by done. destruct (Hacc q) as [-> ->]. done.
Qed.

Lemma accept_files_each files aff a a' r :
  NoDup files.*1 → apply_action_batch env files Accept aff a = (a', r) →
  r = Ok (aff ++ concat ((λ f : Path * list Hunk, hunk_id <$> f.2) <$> files))
  ∧ fs a' = fs a
  ∧ (∀ q, q ∉ files.*1 → file_states a' !! q = file_states a !! q)
  ∧ ∀ path hs, (path, hs) ∈ files →
      ∃ a0, file_states a0 !! path = file_states a !! path
        ∧ file_states a' !! path = file_states (accept_hunks_batch env path hs a0) !! path.
Proof.
  revert aff a. induction files as [|[path hs] files IH]; intros aff a Hnd Hrun; simpl in Hrun.
  { simplify_eq. rewrite app_nil_r. split; [done|]. split; [done|].
    split; [done|]. by intros ?? ?%not_elem_of_nil. }
  csimpl in Hnd. apply NoDup_cons in Hnd as [Hp Hnd].
  set (a0 := foldl _ a hs) in Hrun.
  pose proof (account_hunks_fields true hs a) as (Hf & _ & _ & Hfs).
  fold a0 in Hf, Hfs. pose proof (accept_batch_other env path hs a0) as Ho.
  destruct (IH _ _ Hnd Hrun) as (Hids & Hfs' & Hrest & Hin). split; [|split; [|split]].
  - rewrite Hids. csimpl. by rewrite <-app_assoc.
  - by rewrite Hfs', accept_batch_fs.
  - intros q Hq. csimpl in Hq. apply not_elem_of_cons in Hq as [Hne Hq].
    by rewrite (Hrest q Hq), Ho, Hf.
  - intros q hs' [[= -> ->]|Hq]%elem_of_cons.
    + exists a0. by rewrite (Hrest path Hp), Hf.
    + destruct (Hin q hs' Hq) as (b0 & H1 & H2).
      assert (q ≠ path) as Hne.
      { intros ->. apply Hp. by apply (list_elem_of_fmap_2 fst _ (path, hs')). }
      exists b0. by rewrite H1, Ho, Hf.
Qed.

(** The files a selection of hunks touches. *)
Lemma files_with_hunks_elem p a path hs :
  (path, hs) ∈ files_with_hunks p a
  ↔ hs ≠ [] ∧ ∃ st, file_states a !! path = Some st ∧ hs = filter_b p (hunks st).
Proof.
  unfold files_with_hunks. rewrite list_elem_of_omap. split.
  - intros ([q st] & Hin & E). apply elem_of_map_to_list in Hin.
    destruct (filter_b p (hunks st)) as [|h l] eqn:Ef; simplify_eq.
    split; [done|]. by exists st.
  - intros (Hne & st & Hst & ->). exists (path, st). split; [by apply elem_of_map_to_list|].
    by destruct (filter_b p (hunks st)).
Qed.

End files.
