(* ===== verification/LocSink.v ===== *)
(** * Hunk tracker: LOC attribution

    [ds-hunk-tracker/src/loc/mod.rs]: the task that turns hunk events into
    attribution records.  Every record is a signed contribution of a hunk to
    the session's line counts; the accumulated contribution of each pending
    hunk is kept in [acc], to be negated when the hunk is rejected or
    superseded.

    Line counts are [i64] values with wrap-around.  The writer, a trait in the
    source, is the predicate [write_ok] of the records it persists; a failed
    write is logged and dropped.  The clock is [now]. *)

From S2P Require Import Prelude Text HunkTypes.

Inductive AuthorType := Agent | Human.
Inductive SourceType := SourceAgentEdit | SourceExternalEditOnAgentFile | SourceExternal.
Inductive EventType := Added | Updated | Removed.

Record HunkRecord := mkRecord {
  rec_hunk_id : HunkId;
  rec_file_path : Path;
  rec_hunk_start : nat;
  rec_hunk_end : nat;
  rec_lines_added : Z;
  rec_lines_removed : Z;
  rec_author_type : option AuthorType;
  rec_author_id : option string;
  rec_agent_id : string;
  rec_session_id : string;
  rec_timestamp : Z;
  rec_prompt_index : option nat;
  rec_source_type : option SourceType;
  rec_event_type : EventType;
  rec_removal_reason : option HunkRemovalReason;
}.

Inductive LocAggregate :=
  | LinesChanged (author_type : AuthorType) (lines_added lines_removed : Z) (file_path : Path)
  | LinesReverted (lines_added_reverted lines_removed_reverted : Z).

Record LocSinkContext := mkLocContext {
  ctx_session_id : string;
  ctx_agent_id : string;
  ctx_user_id : option string;
  (** whether there is an [aggregate_tx] *)
  ctx_aggregate : bool;
}.

(** [as i64] and the wrapping operations of release builds. *)
Definition as_i64 (z : Z) : Z := (z + 2 ^ 63) mod 2 ^ 64 - 2 ^ 63.
Definition i64_add (a b : Z) : Z := as_i64 (a + b).
Definition i64_sub (a b : Z) : Z := as_i64 (a - b).
Definition i64_neg (a : Z) : Z := as_i64 (- a).
Definition usize_as_i64 (n : nat) : Z := as_i64 (Z.of_nat n).

(** [HunkRecord::from_hunk]. *)
Definition from_hunk (h : Hunk) (session_id agent_id : string) (user_id : option string)
    (event_type : EventType) (attribution_source : HunkSource) : HunkRecord :=
  let '(author_type, author_id, prompt, source_type) :=
    match attribution_source with
    | AgentEdit i => (Agent, Some agent_id, Some i, SourceAgentEdit)
    | ExternalEditOnAgentFile => (Human, user_id, None, SourceExternalEditOnAgentFile)
    | External => (Human, user_id, None, SourceExternal)
    end in
  let li := line_info h in
  let '(start, count) :=
    if new_count li =? 0 then (old_start li, old_count li) else (new_start li, new_count li) in
  let end_ := if count =? 0 then start else usize_add start count - 1 in
  mkRecord (hunk_id h) (hunk_path h) start end_ (usize_as_i64 (new_count li))
    (usize_as_i64 (old_count li)) (Some author_type) author_id agent_id session_id (created_at h)
    prompt (Some source_type) event_type None.

(** The state of the task: [acc], the records written, the aggregates sent. *)
Record LocState := mkLocState {
  acc : gmap HunkId (Z * Z);
  written : list HunkRecord;
  aggregates : list LocAggregate;
}.

Section sink.
Context (write_ok : HunkRecord → bool) (now : Z) (ctx : LocSinkContext).

Definition write_record (r : HunkRecord) (s : LocState) : LocState :=
  if write_ok r then mkLocState (acc s) (written s ++ [r]) (aggregates s) else s.

Definition send_aggregate (g : LocAggregate) (s : LocState) : LocState :=
  if ctx_aggregate ctx then mkLocState (acc s) (written s) (aggregates s ++ [g]) else s.

(** [entry.0 += ..; entry.1 += ..]. *)
Definition accumulate (id : HunkId) (da dr : Z) (s : LocState) : LocState :=
  let '(x, y) := default (0, 0)%Z (acc s !! id) in
  mkLocState (<[id := (i64_add x da, i64_add y dr)]> (acc s)) (written s) (aggregates s).

Definition set_lines (da dr : Z) (r : HunkRecord) : HunkRecord :=
  mkRecord (rec_hunk_id r) (rec_file_path r) (rec_hunk_start r) (rec_hunk_end r) da dr
    (rec_author_type r) (rec_author_id r) (rec_agent_id r) (rec_session_id r) (rec_timestamp r)
    (rec_prompt_index r) (rec_source_type r) (rec_event_type r) (rec_removal_reason r).

(** The end of the two branches that record a change. *)
Definition record_change (r : HunkRecord) (fallback : AuthorType) (s : LocState) : LocState :=
  let s := accumulate (rec_hunk_id r) (rec_lines_added r) (rec_lines_removed r) s in
  let s := send_aggregate (LinesChanged (default fallback (rec_author_type r)) (rec_lines_added r)
             (rec_lines_removed r) (rec_file_path r)) s in
  write_record r s.

(** The record that negates a hunk's contribution. *)
Definition removed_record (path : Path) (id : HunkId) (reason : HunkRemovalReason)
    (total_added total_removed : Z) : HunkRecord :=
  mkRecord id path 0 0 (i64_neg total_added) (i64_neg total_removed) None None
    (ctx_agent_id ctx) (ctx_session_id ctx) now None None Removed (Some reason).

Definition handle_event (s : LocState) (e : HunkEvent) : LocState :=
  match e with
  | HunkAdded _ h =>
      record_change (from_hunk h (ctx_session_id ctx) (ctx_agent_id ctx) (ctx_user_id ctx) Added
        (hunk_source h)) Agent s
  | HunkContentChanged _ h trigger prev_added prev_removed =>
      let r := from_hunk h (ctx_session_id ctx) (ctx_agent_id ctx) (ctx_user_id ctx) Updated trigger in
      let r := set_lines
        (i64_sub (usize_as_i64 (new_count (line_info h))) (usize_as_i64 prev_added))
        (i64_sub (usize_as_i64 (old_count (line_info h))) (usize_as_i64 prev_removed)) r in
      record_change r Human s
  | HunkRemoved _ id Accepted =>
      mkLocState (delete id (acc s)) (written s) (aggregates s)
  | HunkRemoved path id reason =>
      match acc s !! id with
      | None => s
      | Some (ta, tr) =>
          let s := mkLocState (delete id (acc s)) (written s) (aggregates s) in
          if (negb (ta =? 0) || negb (tr =? 0))%Z then
            let s := send_aggregate (LinesReverted (Z.max ta 0) (Z.max tr 0)) s in
            write_record (removed_record path id reason ta tr) s
          else s
      end
  | _ => s
  end.

(** [drain_remaining]: what is queued when the task is cancelled. *)
Definition drain_remaining (queued : list HunkEvent) (s : LocState) : LocState :=
  foldl handle_event s queued.

(** [run_loc_sink]: [received] before the cancellation, [queued] at it. *)
Definition run_loc_sink (received queued : list HunkEvent) : LocState :=
  drain_remaining queued (foldl handle_event (mkLocState ∅ [] []) received).

End sink.

(** ** Sums of the records *)

(** What the records say of a hunk: the sums a consumer computes. *)
Definition sum_of (f : HunkRecord → Z) (id : HunkId) (rs : list HunkRecord) : Z :=
  foldr (λ r n, if bool_decide (rec_hunk_id r = id) then f r + n else n)%Z 0%Z rs.

Lemma as_i64_add_l x y : as_i64 (as_i64 x + y) = as_i64 (x + y).
Proof.
  unfold as_i64. f_equal.
  rewrite <-Z.add_sub_swap, Z.sub_add. rewrite Z.add_comm, <-(Z.add_comm ((x + 2^63) mod _)).
  rewrite Zplus_mod_idemp_l. f_equal. lia.
Qed.

Lemma as_i64_small z : (- 2 ^ 63 <= z < 2 ^ 63)%Z → as_i64 z = z.
Proof. intros. unfold as_i64. rewrite Z.mod_small; lia. Qed.

Lemma as_i64_idemp z : as_i64 (as_i64 z) = as_i64 z.
Proof. pose proof (as_i64_add_l z 0) as H. by rewrite !Z.add_0_r in H. Qed.

Lemma sum_of_app f id rs rs' : sum_of f id (rs ++ rs') = (sum_of f id rs + sum_of f id rs')%Z.
Proof.
  unfold sum_of in *. induction rs as [|r rs IH]; cbn [app foldr]; [lia|].
  rewrite IH. case_bool_decide; lia.
Qed.

Lemma sum_of_snoc f id rs r :
  sum_of f id (rs ++ [r])
  = (sum_of f id rs + if bool_decide (rec_hunk_id r = id) then f r else 0)%Z.
Proof. rewrite sum_of_app. unfold sum_of at 2. cbn [foldr]. case_bool_decide; lia. Qed.

Section conservation.
Context (write_ok : HunkRecord → bool) (now : Z) (ctx : LocSinkContext).
Hypothesis writes : ∀ r, write_ok r = true.

(** The records of [id] sum up to what is accumulated for it. *)
Definition balanced (id : HunkId) (s : LocState) : Prop :=
  let '(x, y) := default (0, 0)%Z (acc s !! id) in
  as_i64 (sum_of rec_lines_added id (written s)) = x
  ∧ as_i64 (sum_of rec_lines_removed id (written s)) = y.

Lemma record_change_fields r fallback s :
  acc (record_change write_ok ctx r fallback s)
  = (let '(x, y) := default (0, 0)%Z (acc s !! rec_hunk_id r) in
     <[rec_hunk_id r := (i64_add x (rec_lines_added r), i64_add y (rec_lines_removed r))]> (acc s))
  ∧ written (record_change write_ok ctx r fallback s) = written s ++ [r].
Proof.
  unfold record_change, write_record, send_aggregate, accumulate. rewrite writes.
  destruct (default _ _) as [x y]. by destruct (ctx_aggregate ctx).
Qed.

Lemma record_change_balanced id r fallback s :
  balanced id s → balanced id (record_change write_ok ctx r fallback s).
Proof.
  destruct (record_change_fields r fallback s) as [Ha Hw]. unfold balanced. rewrite Ha, Hw.
  rewrite !sum_of_snoc. destruct (decide (rec_hunk_id r = id)) as [<-|Hne].
  - rewrite bool_decide_eq_true_2 by done. destruct (default _ _) as [x y].
    rewrite lookup_insert_eq. simpl. intros [<- <-]. unfold i64_add. by rewrite !as_i64_add_l.
  - rewrite bool_decide_eq_false_2 by done. rewrite !Z.add_0_r.
    destruct (default _ (acc s !! rec_hunk_id r)) as [x y]. by rewrite lookup_insert_ne.
Qed.

(** Rejecting or superseding a hunk settles its balance. *)
Lemma settle_balanced id path id' reason s :
  reason ≠ Accepted → balanced id s →
  let s' := handle_event write_ok now ctx s (HunkRemoved path id' reason) in
  balanced id s' ∧ (id = id' → acc s' !! id = None).
Proof.
  intros Hreason Hbal. cbn zeta.
  assert (handle_event write_ok now ctx s (HunkRemoved path id' reason)
    = match acc s !! id' with
      | None => s
      | Some (ta, tr) =>
          let s := mkLocState (delete id' (acc s)) (written s) (aggregates s) in
          if (negb (ta =? 0) || negb (tr =? 0))%Z then
            write_record write_ok (removed_record now ctx path id' reason ta tr)
              (send_aggregate ctx (LinesReverted (Z.max ta 0) (Z.max tr 0)) s)
          else s
      end) as ->.
  { by destruct reason. }
  destruct (acc s !! id') as [[ta tr]|] eqn:E; [|split; [done|congruence]]. cbn zeta.
  set (s1 := mkLocState (delete id' (acc s)) (written s) (aggregates s)).
  set (r := removed_record now ctx path id' reason ta tr).
  assert (∀ g, acc (write_record write_ok r (send_aggregate ctx g s1)) = delete id' (acc s)
    ∧ written (write_record write_ok r (send_aggregate ctx g s1)) = written s ++ [r]) as Hfields.
  { intros g. unfold write_record, send_aggregate. rewrite writes. by destruct (ctx_aggregate ctx). }
  unfold balanced in *.
  destruct (Hfields (LinesReverted (Z.max ta 0) (Z.max tr 0))) as [Ea Ew].
  destruct (decide (id = id')) as [->|Hne].
  - rewrite E in Hbal. simpl in Hbal. destruct Hbal as [Hx Hy].
    destruct (negb (ta =? 0) || negb (tr =? 0))%Z eqn:Ez.
    + rewrite Ea, Ew, lookup_delete_eq, !sum_of_snoc, bool_decide_eq_true_2 by done.
      split; [|done]. cbn [default r removed_record rec_lines_added rec_lines_removed].
      unfold i64_neg. rewrite <-(as_i64_add_l (sum_of rec_lines_added _ _)), Hx.
      rewrite <-(as_i64_add_l (sum_of rec_lines_removed _ _)), Hy.
      rewrite (Z.add_comm ta), (Z.add_comm tr), !as_i64_add_l, !Z.add_opp_diag_l. done.
    + breflect. subst. cbn [acc written s1]. rewrite lookup_delete_eq. done.
  - split; [|done]. destruct (negb (ta =? 0) || negb (tr =? 0))%Z.
    + rewrite Ea, Ew, lookup_delete_ne, !sum_of_snoc, bool_decide_eq_false_2 by done.
      by rewrite !Z.add_0_r.
    + cbn [acc written s1]. by rewrite lookup_delete_ne.
Qed.

Lemma handle_event_balanced id s e :
  (∀ path, e ≠ HunkRemoved path id Accepted) → balanced id s →
  balanced id (handle_event write_ok now ctx s e).
Proof.
  intros Hacc Hbal. destruct e as [path h|path id' reason| |path h tr pa pr| | |]; simpl; try done.
  - by apply record_change_balanced.
  - destruct (decide (reason = Accepted)) as [->|Hne]; [|by apply settle_balanced].
    assert (id ≠ id') by (intros ->; by apply (Hacc path)).
    unfold balanced. simpl. by rewrite lookup_delete_ne.
  - by apply record_change_balanced.
Qed.

Lemma events_balanced id evs s :
  (∀ path, HunkRemoved path id Accepted ∉ evs) → balanced id s →
  balanced id (foldl (handle_event write_ok now ctx) s evs).
Proof.
  revert s. induction evs as [|e evs IH]; intros s Hacc Hbal; simpl; [done|].
  apply IH; [set_solver|]. apply handle_event_balanced; [set_solver|done].
Qed.

Lemma run_balanced id received queued :
  (∀ path, HunkRemoved path id Accepted ∉ received ++ queued) →
  balanced id (run_loc_sink write_ok now ctx received queued).
Proof.
  intros Hacc. apply events_balanced; [set_solver|]. apply events_balanced; [set_solver|].
  unfold balanced. simpl. by rewrite lookup_empty.
Qed.

End conservation.

(** Cancellation loses nothing: only the order of the events matters. *)
Lemma run_loc_sink_app write_ok now ctx received queued :
  run_loc_sink write_ok now ctx received queued
  = run_loc_sink write_ok now ctx (received ++ queued) [].
Proof. unfold run_loc_sink, drain_remaining. by rewrite foldl_app. Qed.

(** ** Theorems *)

(** The records of a hunk that was never accepted add up, in [i64]
    arithmetic, to what is accumulated for it; once it is rejected or
    superseded they add up to zero and nothing is kept for it.  This holds
    however the events are split by a cancellation, while writes succeed. *)
Theorem loc_records_settle (write_ok : HunkRecord → bool) (now : Z) (ctx : LocSinkContext)
    (received queued : list HunkEvent) (path : Path) (id : HunkId) (reason : HunkRemovalReason) :
  (∀ r, write_ok r = true) →
  (∀ p, HunkRemoved p id Accepted ∉ received ++ queued) → reason ≠ Accepted →
  let s := run_loc_sink write_ok now ctx received queued in
  let s' := run_loc_sink write_ok now ctx received (queued ++ [HunkRemoved path id reason]) in
  (as_i64 (sum_of rec_lines_added id (written s)), as_i64 (sum_of rec_lines_removed id (written s)))
  = default (0, 0)%Z (acc s !! id)
  ∧ as_i64 (sum_of rec_lines_added id (written s')) = 0%Z
  ∧ as_i64 (sum_of rec_lines_removed id (written s')) = 0%Z
  ∧ acc s' !! id = None.
Proof.
  intros Hw Hacc Hreason. cbn zeta.
  pose proof (run_balanced write_ok now ctx Hw id received queued Hacc) as Hbal.
  set (s := run_loc_sink write_ok now ctx received queued) in *.
  replace (run_loc_sink write_ok now ctx received (queued ++ [HunkRemoved path id reason]))
    with (handle_event write_ok now ctx s (HunkRemoved path id reason)).
  2:{ unfold s, run_loc_sink, drain_remaining. by rewrite foldl_snoc. }
  destruct (settle_balanced write_ok now ctx Hw id path id reason s Hreason Hbal) as [Hbal' Hnone].
  specialize (Hnone eq_refl). unfold balanced in *. rewrite Hnone in Hbal'.
  destruct (default (0, 0)%Z (acc s !! id)) as [x y]. destruct Hbal as [-> ->].
  split; [done|]. simpl in Hbal'. naive_solver.
Qed.

Definition demo_ctx : LocSinkContext := mkLocContext "s" "agent" None true.
Definition demo_added : HunkEvent :=
  HunkAdded ["/"; "f"] (mkHunk "h" ["/"; "f"] (mkLineInfo 2 1 2 3) (AgentEdit 1) None [] None 0 false).

Lemma loc_records_settle_witness :
  sum_of rec_lines_added "h" (written (run_loc_sink (λ _, true) 0 demo_ctx [demo_added] [])) = 3%Z
  ∧ as_i64 (sum_of rec_lines_added "h" (written (run_loc_sink (λ _, true) 0 demo_ctx [demo_added]
      [HunkRemoved ["/"; "f"] "h" Rejected]))) = 0%Z.
Proof.
  split; [vm_compute; reflexivity|].
  apply (loc_records_settle (λ _, true) 0 demo_ctx [demo_added] [] ["/"; "f"] "h" Rejected).
  - reflexivity.
  - intros p [E|H]%elem_of_cons; [discriminate E|by apply not_elem_of_nil in H].
  - discriminate.
Defined.
