(* ===== verification/TrackerStable.v ===== *)
(** * Hunk tracker: recomputation is stable

    Recomputing a file whose contents did not change keeps every hunk: its
    identifier, its content and place, and an agent's authorship when the
    trigger is external.  Then the tracking modes: what each of them shows and keeps. *)

From S2P Require Import Prelude Text HunkTypes HunkDiff HunkDiffProps FileUtils Tracker TrackerInv TrackerActions.
From S2P Require Import TrackerMutations TrackerQueries TrackerActor TrackerOps TrackerSafety.

(** What [preserve_ids] makes of a hunk that continues [o]. *)
Definition continue_hunk (h o : Hunk) : Hunk :=
  let h1 := set_hunk_id (hunk_id o) h in
  if is_external (hunk_source h1) && is_agent_edit (hunk_source o)
  then set_hunk_source (hunk_source o) h1 else h1.

Lemma continue_hunk_id h o : hunk_id (continue_hunk h o) = hunk_id o.
Proof. unfold continue_hunk. by case_match. Qed.

Lemma continue_hunk_core h o : hunk_core (continue_hunk h o) = hunk_core h.
Proof. unfold continue_hunk. by case_match. Qed.

Lemma continue_hunk_source h o :
  hunk_source (continue_hunk h o)
  = if is_external (hunk_source h) && is_agent_edit (hunk_source o)
    then hunk_source o else hunk_source h.
Proof. unfold continue_hunk. simpl. by case_match. Qed.

(** When each new hunk finds an old one of its own. *)
Lemma preserve_ids_paired old C fresh olds :
  Forall2 (λ h o, find_matching_old_hunk h old = Some o) fresh olds →
  NoDup (hunk_id <$> olds) → (∀ o, o ∈ olds → hunk_id o ∉ C) →
  preserve_ids old C fresh = zip_with continue_hunk fresh olds.
Proof.
  intros Hf. revert C. induction Hf as [|h o fresh olds Hho _ IH]; intros C Hnd HC; simpl; [done|].
  rewrite fmap_cons in Hnd. apply NoDup_cons in Hnd as [Ho Hnd]. rewrite Hho.
  rewrite decide_False by (apply HC; by left). f_equal. apply IH; [done|].
  intros o' Ho'. specialize (HC o'). apply not_elem_of_union. split; [|set_solver].
  apply not_elem_of_singleton. intros E. apply Ho. rewrite <-E. by apply list_elem_of_fmap_2.
Qed.

Lemma zip_continue_ids fresh olds :
  length fresh = length olds → hunk_id <$> zip_with continue_hunk fresh olds = hunk_id <$> olds.
Proof.
  revert olds. induction fresh as [|h fresh IH]; intros [|o olds]; csimpl; try done.
  intros [= E]. by rewrite continue_hunk_id, IH.
Qed.

Section stable.
Context `{D : DiffEngine} (env : Env).

(** Hunks with the cores of [hs] find their counterparts in [hs]. *)
Lemma content_diff_paired path b c hs fresh :
  is_content_diff path b c hs → hunk_core <$> fresh = hunk_core <$> hs →
  Forall2 (λ h o, find_matching_old_hunk h hs = Some o) fresh hs.
Proof.
  intros Hd Hcore.
  assert (∀ h o, o ∈ hs → hunk_core h = hunk_core o → find_matching_old_hunk h hs = Some o) as Hfind.
  { intros h o Ho E.
    assert (hs = [o] → find_matching_old_hunk h hs = Some o) as Hone.
    { intros ->. unfold find_matching_old_hunk. cbn [filter_b List.filter].
      replace (hunks_match_content o h) with true; [done|]. symmetry.
      apply hunks_match_content_spec. unfold hunk_core in E. naive_solver. }
    destruct b, c; simpl in Hd; try (rewrite Hd in Ho; by apply not_elem_of_nil in Ho);
      try (destruct Hd as [[_ ->]|(o' & -> & _)]; [by apply not_elem_of_nil in Ho|];
           apply list_elem_of_singleton in Ho as ->; by apply Hone).
    by eapply find_matching_self. }
  assert (∀ l, (∀ o, o ∈ l → o ∈ hs) → ∀ k, hunk_core <$> k = hunk_core <$> l →
    Forall2 (λ h o, find_matching_old_hunk h hs = Some o) k l) as Hgen.
  { induction l as [|o l IH]; intros Hl [|h k] E; csimpl in E; try done; constructor.
    - apply Hfind; [apply Hl; by left|]. unfold hunk_core in *. congruence.
    - apply IH; [set_solver|]. unfold hunk_core in *. congruence. }
  by apply Hgen.
Qed.

Lemma content_diff_unique path b c hs hs' :
  is_content_diff path b c hs → is_content_diff path b c hs' → hunk_core <$> hs' = hunk_core <$> hs.
Proof.
  unfold is_content_diff, is_diff_of. intros H H'.
  destruct b, c; try congruence;
    destruct H as [[??]|(h & -> & ? & E)], H' as [[??]|(h' & -> & ? & E')]; subst; csimpl; congruence.
Qed.

Lemma recompute_stable path source a st :
  file_states a !! path = Some st →
  is_content_diff path (baseline st) (current_content st) (hunks st) →
  NoDup (hunk_id <$> hunks st) →
  ∃ fresh, length fresh = length (hunks st)
    ∧ hunk_core <$> fresh = hunk_core <$> hunks st
    ∧ Forall (λ h, hunk_source h = source) fresh
    ∧ file_states (recompute_hunks env path (Some (current_content st)) source a)
      = <[path := mkFileState (baseline st) (current_content st)
           (zip_with continue_hunk fresh (hunks st)) (is_agent_file st) (baseline_accepted st)]>
          (file_states a)
    ∧ events (recompute_hunks env path (Some (current_content st)) source a)
      = events a ++ emit_hunk_diff_events path (hunks st)
                      (zip_with continue_hunk fresh (hunks st)) source.
Proof.
  intros Hst Hd Hnd.
  destruct (recompute_file env path (Some (current_content st)) source a st Hst)
    as (fresh & n & Efresh & EF & _ & _).
  assert (hunk_core <$> fresh = hunk_core <$> hunks st) as Hcore.
  { pose proof (content_hunks_diff env path (baseline st) (current_content st) source (seed a)) as Hd'.
    change (default missing_content (Some (current_content st))) with (current_content st) in Efresh.
    rewrite Efresh in Hd'. by eapply content_diff_unique. }
  pose proof (content_diff_paired _ _ _ _ _ Hd Hcore) as Hpair.
  rewrite (preserve_ids_paired _ ∅ _ _ Hpair) in EF by set_solver.
  exists fresh. split; [by apply Forall2_length in Hpair|]. split; [done|].
  split.
  { pose proof (content_hunks_source env path (baseline st) (current_content st) source (seed a)) as H.
    change (default missing_content (Some (current_content st))) with (current_content st) in Efresh.
    by rewrite Efresh in H. }
  split; [done|]. unfold recompute_hunks. rewrite Hst, Efresh. simpl.
  by rewrite (preserve_ids_paired _ ∅ _ _ Hpair) by set_solver.
Qed.

(** ** Events of an unchanged file *)

Lemma zip_continue_core fresh olds :
  hunk_core <$> fresh = hunk_core <$> olds →
  Forall2 (λ n o, hunk_core n = hunk_core o ∧ hunk_id n = hunk_id o)
    (zip_with continue_hunk fresh olds) olds.
Proof.
  revert olds. induction fresh as [|h fresh IH]; intros [|o olds]; csimpl; intros E; try done;
    constructor; [|apply IH; unfold hunk_core in *; congruence].
  rewrite continue_hunk_core, continue_hunk_id. split; [|done]. unfold hunk_core in *; congruence.
Qed.

Lemma zip_continue_spec source fresh olds :
  hunk_core <$> fresh = hunk_core <$> olds → Forall (λ h, hunk_source h = source) fresh →
  Forall2 (λ n o, hunk_id n = hunk_id o ∧ hunk_core n = hunk_core o
             ∧ (is_external source = true → is_agent_edit (hunk_source o) = true →
                hunk_source n = hunk_source o)) (zip_with continue_hunk fresh olds) olds.
Proof.
  revert olds. induction fresh as [|h fresh IH]; intros [|o olds]; csimpl; intros E Hsrc; try done;
    inversion Hsrc as [|?? Hh Hsrc']; subst; constructor; [|apply IH; [unfold hunk_core in *; congruence|done]].
  rewrite continue_hunk_core, continue_hunk_id, continue_hunk_source.
  split; [done|]. split; [unfold hunk_core in *; congruence|]. by intros -> ->.
Qed.

(** What two hunks with the same text share. *)
Definition hunk_texts (h : Hunk) : option text * text := (old_text h, new_text h).

Lemma match_content_core a b : hunk_core a = hunk_core b → hunks_match_content a b = true.
Proof. intros E. apply hunks_match_content_spec. unfold hunk_core in E. naive_solver. Qed.

Lemma unchanged_no_events path olds news source :
  Forall2 (λ n o, hunk_core n = hunk_core o ∧ hunk_id n = hunk_id o) news olds →
  NoDup (hunk_texts <$> olds) → emit_hunk_diff_events path olds news source = [].
Proof.
  intros Hf Hnd. unfold emit_hunk_diff_events.
  assert (∀ {A B} (f : A → option B) l, (∀ x, x ∈ l → f x = None) → omap f l = []) as Homap.
  { intros A B f l. induction l as [|x l IH]; intros H; csimpl; [done|].
    rewrite (H x) by (by left). apply IH. intros y Hy. apply H. by right. }
  replace (removed_events path olds news) with ([] : list HunkEvent).
  2:{ symmetry. apply Homap. intros o Ho. apply list_elem_of_lookup in Ho as [i Hi].
      destruct (Forall2_lookup_r _ _ _ _ _ Hf Hi) as (n & Hn & Hcore & _).
      replace (any_b _ news) with true; [done|]. symmetry. apply any_b_true. exists n.
      split; [by eapply list_elem_of_lookup_2|].
      apply orb_true_iff. right. by apply match_content_core. }
  apply Homap. intros n Hn. apply list_elem_of_lookup in Hn as [i Hi].
  destruct (Forall2_lookup_l _ _ _ _ _ Hf Hi) as (o & Ho & Hcore & _).
  assert (o ∈ olds) as Hin by by eapply list_elem_of_lookup_2.
  destruct (find_b _ olds) as [o'|] eqn:E.
  - apply find_b_Some in E as [Ho' Hm%hunks_match_content_spec].
    assert (o' = o) as ->.
    { eapply (NoDup_fmap_eq hunk_texts); [done..|]. unfold hunk_texts, hunk_core in *. naive_solver congruence. }
    unfold hunk_moved. rewrite bool_decide_eq_true_2; [by rewrite andb_false_r|].
    unfold hunk_core in Hcore. congruence.
  - pose proof (proj1 (find_b_None _ _) E o Hin) as Hf'. simpl in Hf'.
    rewrite match_content_core in Hf'; done.
Qed.

End stable.

Definition agent_files_only (a : Actor) : Prop :=
  mode a = AgentOnly → ∀ path st, file_states a !! path = Some st → is_agent_file st = true.

Definition agent_to (a a' : Actor) : Prop :=
  mode a' = mode a ∧ (agent_files_only a → agent_files_only a').

#[export] Instance agent_to_preorder : PreOrder agent_to.
Proof.
  split; [done|]. intros a b c [H1 H2] [H3 H4]. split; [congruence|auto].
Qed.

Lemma agent_to_foldl {A} (f : Actor → A → Actor) (l : list A) a :
  (∀ a x, agent_to a (f a x)) → agent_to a (foldl f a l).
Proof.
  intros Hf. revert a. induction l as [|x l IH]; intros a; simpl; [done|].
  transitivity (f a x); [apply Hf|apply IH].
Qed.

Lemma agent_to_same a a' :
  mode a' = mode a → file_states a' = file_states a → agent_to a a'.
Proof. intros Hm HF. split; [done|]. unfold agent_files_only. by rewrite Hm, HF. Qed.

(** A tracked file is assigned and stays as much an agent's file as it was. *)
Lemma agent_to_put path st' a a' :
  mode a' = mode a → file_states a' = <[path := st']> (file_states a) →
  (is_agent_file st' = true ∨ mode a = AllDirty
   ∨ ∃ st, file_states a !! path = Some st ∧ is_agent_file st' = is_agent_file st) →
  agent_to a a'.
Proof.
  intros Hm HF Hst. split; [done|]. unfold agent_files_only. rewrite Hm, HF.
  intros H HA p st0. destruct (decide (p = path)) as [->|Hne].
  - rewrite lookup_insert_eq. intros [= <-].
    destruct Hst as [?|[?|(st & Hst & ->)]]; [done|congruence|eauto].
  - rewrite lookup_insert_ne by done. eauto.
Qed.

Lemma agent_to_delete path a a' :
  mode a' = mode a → file_states a' = delete path (file_states a) → agent_to a a'.
Proof.
  intros Hm HF. split; [done|]. unfold agent_files_only. rewrite Hm, HF.
  intros H HA p st0 [_ Hp]%lookup_delete_Some. eauto.
Qed.

Lemma agent_to_supersede path hs a : agent_to a (supersede_hunks path hs a).
Proof. apply agent_to_foldl. intros. by apply agent_to_same. Qed.

Lemma agent_to_track path b c agent a :
  agent = true ∨ mode a = AllDirty → agent_to a (track_file path b c agent a).
Proof. intros H. eapply agent_to_put; [done|reflexivity|]. simpl. naive_solver. Qed.

Section modes.
Context `{D : DiffEngine} (env : Env).

Lemma recompute_mode path cur source a : mode (recompute_hunks env path cur source a) = mode a.
Proof. unfold recompute_hunks. case_match; [|done]. by case_match. Qed.

Lemma agent_to_recompute path cur source a : agent_to a (recompute_hunks env path cur source a).
Proof.
  destruct (file_states a !! path) as [st|] eqn:Hst.
  - destruct (recompute_file env path cur source a st Hst) as (hs & n & _ & HF & _).
    eapply agent_to_put; [apply recompute_mode|done|]. right. right. by exists st.
  - unfold recompute_hunks. by rewrite Hst.
Qed.

Lemma agent_to_read_baseline path a : agent_to a (read_baseline env path a).2.
Proof. unfold read_baseline. case_match; by apply agent_to_same. Qed.

Lemma take_baseline_mode path pre a : mode (take_baseline env path pre a).2 = mode a.
Proof. unfold take_baseline, read_baseline. by repeat case_match. Qed.

Lemma agent_to_take_baseline path pre a : agent_to a (take_baseline env path pre a).2.
Proof.
  destruct (take_baseline_fields env path pre a) as (HF & _).
  apply agent_to_same; [apply take_baseline_mode|done].
Qed.

Lemma agent_to_agent_write path content i prev a :
  agent_to a (record_agent_write env path content i prev a).
Proof.
  unfold record_agent_write.
  pose proof (agent_to_read_baseline path a) as Hr. destruct (read_baseline env path a) as [b a'].
  destruct (negb _).
  - destruct (file_states a !! path) as [st|] eqn:Hst.
    + eapply agent_to_put; [done|reflexivity|by left].
    + destruct prev as [t|]; simpl; [apply agent_to_track; by left|].
      transitivity a'; [done|]. apply agent_to_track; by left.
  - etrans; [|apply agent_to_recompute]. destruct (file_states a !! path) as [st|] eqn:Hst.
    + eapply agent_to_put; [done|reflexivity|by left].
    + transitivity a'; [done|]. apply agent_to_track; by left.
Qed.

Lemma agent_to_track_non_diffable path pre cur a :
  mode a = AllDirty → agent_to a (track_non_diffable env path pre cur a).
Proof.
  intros Hm. unfold track_non_diffable. rewrite decide_True by done.
  pose proof (agent_to_take_baseline path pre a) as Ht. pose proof (take_baseline_mode path pre a) as Hm'.
  destruct (take_baseline env path pre a) as [b a']. transitivity a'; [done|].
  destruct (is_ignored _ _ _ _); [done|]. cbn zeta.
  transitivity (track_file path b cur false a'); [apply agent_to_track; right; simpl in Hm'; congruence|].
  destruct (is_diffable b); [apply agent_to_recompute|done].
Qed.

Lemma agent_to_process path pre a : agent_to a (process_file_change env path pre a).
Proof.
  unfold process_file_change. cbn zeta.
  pose proof (agent_to_take_baseline path pre a) as Ht. pose proof (take_baseline_mode path pre a) as Hm'.
  destruct (take_baseline_fields env path pre a) as (HF & _).
  destruct (file_states a !! path) as [st|] eqn:Hst.
  - destruct (baseline_accepted st); [|apply agent_to_recompute].
    destruct (take_baseline env path pre a) as [b a']. transitivity a'; [done|]. simpl in HF.
    destruct (content_matches_head _ _ _ _); [|apply agent_to_recompute].
    eapply agent_to_put; [done|reflexivity|]. right. right. exists st. by rewrite HF.
  - case_decide; [done|]. assert (mode a = AllDirty) as Hm by (by destruct (mode a)).
    destruct (negb _); [by apply agent_to_track_non_diffable|].
    destruct (take_baseline env path pre a) as [b a']. transitivity a'; [done|].
    destruct (is_ignored _ _ _ _); [done|].
    etrans; [apply agent_to_track; right; simpl in Hm'; congruence|apply agent_to_recompute].
Qed.

Lemma agent_to_read_baselines paths a : agent_to a (read_baselines_batch env paths a).2.
Proof. unfold read_baselines_batch. repeat case_match; by apply agent_to_same. Qed.

Lemma agent_to_changes_batch paths a : agent_to a (handle_file_changes_batch env paths a).
Proof.
  unfold handle_file_changes_batch. destruct paths as [|p paths]; [done|].
  pose proof (agent_to_read_baselines (filter_b (needs_baseline a) (p :: paths)) a) as H.
  destruct (read_baselines_batch _ _ _) as [bs a']. transitivity a'; [done|]. clear H.
  generalize (p :: paths); intros ps. revert bs a'.
  induction ps as [|q ps IH]; intros bs a'; simpl; [done|].
  etrans; [apply agent_to_process|apply IH].
Qed.

Lemma agent_to_deleted path a : agent_to a (handle_file_deleted env path a).
Proof.
  unfold handle_file_deleted. destruct (file_states a !! path) as [st|].
  - destruct (path_exists _ _ _); [apply agent_to_process|apply agent_to_recompute].
  - case_decide; [done|]. assert (mode a = AllDirty) as Hm by (by destruct (mode a)).
    destruct (path_exists _ _ _); [done|].
    pose proof (agent_to_read_baseline path a) as Hr. destruct (read_baseline env path a) as [b a'].
    transitivity a'; [done|]. destruct Hr as [Hm' _]. simpl in Hm'.
    destruct b; [done|..];
      (etrans; [apply agent_to_track; right; congruence|apply agent_to_recompute]).
Qed.

Lemma agent_to_refresh_dirty scope a : agent_to a (refresh_git_dirty_cache env scope a).
Proof.
  unfold refresh_git_dirty_cache.
  destruct (git_repo_state a); [|done|]; destruct (scan_status _ _ _) as [d s]; cbn zeta;
    (case_decide; [|by apply agent_to_same]);
    (etrans; [|apply agent_to_foldl; intros; apply agent_to_process]); by apply agent_to_same.
Qed.

Lemma agent_to_reset path a : agent_to a (reset_baseline path a).
Proof.
  unfold reset_baseline. destruct (file_states a !! path) as [st|] eqn:Hst; [|done].
  etrans; [|by apply agent_to_same]. etrans; [|apply agent_to_supersede].
  eapply agent_to_put; [done|reflexivity|]. right. right. by exists st.
Qed.

Lemma agent_to_refresh_file path b c a : agent_to a (refresh_file env path b c a).
Proof.
  unfold refresh_file. destruct (file_states a !! path) as [st|] eqn:Hst; [|done]. cbn zeta.
  assert (∀ hs, agent_to a (put_file path (mkFileState b c hs (is_agent_file st) false) a)) as Hput.
  { intros hs. eapply agent_to_put; [done|reflexivity|]. right. right. by exists st. }
  destruct (is_clean _ _ _ _ _).
  - destruct (is_agent_file st) eqn:Ea; (etrans; [|by apply agent_to_same]);
      (etrans; [|apply agent_to_supersede]).
    + eapply (agent_to_put path (mkFileState b c [] true false)); [done| |by left].
      simpl. by rewrite insert_insert_eq.
    + apply (agent_to_delete path); [done|]. simpl. by rewrite delete_insert_eq.
  - etrans; [|by apply agent_to_same]. etrans; [apply Hput|apply agent_to_recompute].
Qed.

Lemma agent_to_refresh_files skip a : agent_to a (refresh_files env skip a).
Proof.
  unfold refresh_files.
  match goal with |- context [read_baselines_batch env ?ps a] =>
    pose proof (agent_to_read_baselines ps a) as H; destruct (read_baselines_batch env ps a) as [bs a'] end.
  transitivity a'; [done|]. apply agent_to_foldl. intros. apply agent_to_refresh_file.
Qed.

Lemma agent_to_refresh_caches a : agent_to a (refresh_caches env a).
Proof.
  unfold refresh_caches. repeat case_match; try apply agent_to_refresh_dirty. by apply agent_to_same.
Qed.

Lemma agent_to_refresh_all skip a : agent_to a (refresh_all_baselines_except env skip a).
Proof.
  unfold refresh_all_baselines_except. case_decide; [done|].
  assert (agent_to a (read_repo_sync_state env a).2) as Hr.
  { unfold read_repo_sync_state. case_match; by apply agent_to_same. }
  destruct (read_repo_sync_state env a) as [[s|] a']; (transitivity a'; [done|]).
  - case_decide; [done|]. transitivity (set_repo_sync_state s a'); [by apply agent_to_same|].
    etrans; [apply agent_to_refresh_caches|apply agent_to_refresh_files].
  - etrans; [apply agent_to_refresh_caches|apply agent_to_refresh_files].
Qed.

(** ** Actions *)

Lemma agent_to_accept path hs a : agent_to a (accept_hunks_batch env path hs a).
Proof.
  unfold accept_hunks_batch. destruct hs as [|h hs]; [done|].
  destruct (file_states a !! path) as [st|] eqn:Hst; [|done].
  assert (∀ b k es, agent_to a (send_events es (put_file path (set_baseline_hunks b k st) a))) as Hput.
  { intros b k es. eapply agent_to_put; [done|reflexivity|]. right. right. by exists st. }
  destruct (baseline st); cbn zeta; try apply Hput; (etrans; [apply Hput|apply agent_to_recompute]).
Qed.

Lemma agent_to_reject path hs a : agent_to a (reject_hunks_batch env path hs a).1.
Proof.
  unfold reject_hunks_batch, fs_write, fs_remove. destruct hs as [|h hs]; [done|].
  destruct (file_states a !! path) as [st|] eqn:Hst; [|done].
  assert (∀ c k es f, agent_to a
    (send_events es (put_file path (set_current_hunks c k st) (set_fs f a)))) as Hput.
  { intros c k es f. eapply agent_to_put; [done|reflexivity|]. right. right. by exists st. }
  destruct (baseline st), (current_content st); cbn zeta; try done;
    try destruct (io_write (io env) path); try destruct (io_remove (io env) path); cbn [fst];
    try done; try apply Hput; (etrans; [apply Hput|apply agent_to_recompute]).
Qed.

Lemma agent_to_account acc hs a : agent_to a (foldl (account_hunk acc) a hs).
Proof. apply agent_to_foldl. intros. by apply agent_to_same. Qed.

Lemma agent_to_batch files action aff a :
  agent_to a (apply_action_batch env files action aff a).1.
Proof.
  revert aff a. induction files as [|[path hs] files IH]; intros aff a; simpl; [done|].
  etrans; [apply (agent_to_account (bool_decide (action = Accept)) hs a)|]. destruct action.
  - etrans; [apply agent_to_accept|apply IH].
  - pose proof (agent_to_reject path hs (foldl (account_hunk (bool_decide (Reject = Accept))) a hs)) as H.
    destruct (reject_hunks_batch _ _ _ _) as [a' [x|e]]; [|done]. etrans; [done|apply IH].
Qed.

Lemma agent_to_hunk_action id action a : agent_to a (apply_hunk_action env id action a).1.
Proof.
  unfold apply_hunk_action. destruct (find_in_files _ _) as [[path h]|]; [|done]. cbn zeta.
  etrans; [apply (agent_to_account (bool_decide (action = Accept)) [h] a)|]. destruct action.
  - rewrite accept_hunk_batch. apply agent_to_accept.
  - rewrite reject_hunk_batch. apply agent_to_reject.
Qed.

(** ** Commands *)

(** Switching the mode. *)
Lemma set_mode_agent m a : agent_files_only a → agent_files_only (set_mode env m a).
Proof.
  unfold set_mode. cbn zeta. destruct (mode a) eqn:Em, m; intros Ha.
  - intros _. simpl. by apply Ha.
  - apply agent_to_refresh_dirty. done.
  - intros _ path st.
    set (paths := (filter_b _ _).*1).
    assert (∀ l b, (∀ p st, file_states b !! p = Some st →
        file_states a !! p = Some st ∧ (is_agent_file st = true ∨ p ∈ l)) →
      ∀ p st, file_states (foldl drop_file b l) !! p = Some st →
        file_states a !! p = Some st ∧ is_agent_file st = true) as Hloop.
    { induction l as [|q l IH]; intros b Hb p st' Hp; simpl in Hp.
      - destruct (Hb p st' Hp) as [? [?|Hin]]; [done|by apply not_elem_of_nil in Hin].
      - eapply IH; [|done]. intros p' st0 Hp'.
        assert (file_states (drop_file b q) = delete q (file_states b)) as Hdrop.
        { unfold drop_file. destruct (file_states b !! q) eqn:Eq.
          - cbn. by destruct (supersede_hunks_fields q (hunks f) (set_file_states (delete q (file_states b)) b)) as (-> & _).
          - by rewrite delete_id. }
        rewrite Hdrop in Hp'. apply lookup_delete_Some in Hp' as [Hne Hp'].
        destruct (Hb p' st0 Hp') as [? [?|Hin]]; [auto|]. split; [done|right].
        apply elem_of_cons in Hin as [->|?]; done. }
    intros Hp. eapply Hloop; [|done]. intros p st0 Hp0. split; [done|].
    destruct (is_agent_file st0) eqn:Est; [by left|right].
    apply (list_elem_of_fmap_2 fst _ (p, st0)). apply elem_of_filter_b.
    split; [by apply elem_of_map_to_list|]. simpl. by rewrite Est.
  - intros H. simpl in H. congruence.
Qed.

End modes.

(** Clients restore snapshots of agent files only. *)
Definition restores_agent_files (a : Actor) (cmd : HunkTrackerCommand) : Prop :=
  match cmd with
  | RestoreState s =>
      ∀ path snap, snap_file_states s !! path = Some snap → snap_is_agent_file snap = true
  | _ => True
  end.

Section runs.
Context `{D : DiffEngine}.

Lemma command_agent env cmd a :
  restores_agent_files a cmd → agent_files_only a →
  agent_files_only (handle_command env cmd a).1.1.
Proof.
  intros Hcmd Ha.
  assert (∀ a', agent_to a a' → agent_files_only a') as Hto by (intros a' [_ H]; auto).
  destruct cmd; simpl; try done; try (by apply Hto, agent_to_same).
  - apply Hto, agent_to_agent_write.
  - apply Hto, agent_to_process.
  - apply Hto, agent_to_deleted.
  - apply Hto, agent_to_refresh_dirty.
  - apply Hto, agent_to_reset.
  - by apply set_mode_agent.
  - pose proof (agent_to_hunk_action env hunk_id action a).
    destruct (apply_hunk_action _ _ _ _). by apply Hto.
  - apply Hto. unfold apply_file_action. repeat case_match; simplify_eq; try done;
      match goal with H : apply_action_batch _ ?f _ _ _ = _ |- _ =>
        by pose proof (agent_to_batch env f action [] a) as Hx; rewrite H in Hx end.
  - pose proof (agent_to_batch env (files_with_hunks (λ _, true) a) action [] a) as H.
    unfold apply_all_action. destruct (apply_action_batch _ _ _ _ _). by apply Hto.
  - match goal with |- context [apply_turn_action env ?i action a] =>
      pose proof (agent_to_batch env (files_with_hunks
        (λ h, bool_decide (HunkTypes.prompt_index (hunk_source h) = Some i)) a) action [] a) as H end.
    unfold apply_turn_action. destruct (apply_action_batch _ _ _ _ _). by apply Hto.
  - destruct (get_file_hunk_data a path); done.
  - apply Hto, agent_to_refresh_all.
  - intros _ path st. simpl. rewrite lookup_fmap. intros Hst.
    destruct (snap_file_states snapshot !! path) as [snap|] eqn:Es; simplify_eq/=. eauto.
Qed.

Lemma commands_agent env cmds rs a :
  Forall (restores_agent_files a) cmds → agent_files_only a →
  agent_files_only (handle_commands env cmds rs a).1.1.
Proof.
  revert rs a. induction cmds as [|cmd cmds IH]; intros rs a Hc Ha; simpl; [done|].
  inversion Hc as [|?? Hcmd Hcmds]; subst.
  pose proof (command_agent env cmd a Hcmd Ha) as Ha'.
  destruct (handle_command env cmd a) as [[a1 r] [|]]; [|done]. by apply IH.
Qed.

Lemma agent_to_batch_files env batch a : agent_to a (handle_batch_files env batch a).
Proof.
  unfold handle_batch_files. cbn zeta. set (a0 := if _ && _ then _ else a).
  transitivity a0. { unfold a0. case_match; [by apply agent_to_refresh_dirty|done]. }
  assert (∀ acts changed a, agent_to a (handle_actions env acts changed a).2) as H1.
  { induction acts as [|[path []] acts IH]; intros changed b; simpl; [done|apply IH| |apply IH].
    etrans; [apply agent_to_deleted|apply IH]. }
  assert (∀ acts already a, agent_to a (handle_actions_refresh env acts already a).2) as H2.
  { induction acts as [|[path act] acts IH]; intros already b; simpl; [done|].
    destruct act, (file_states b !! path); simpl; try apply IH;
      (etrans; [|apply IH]); apply agent_to_process || apply agent_to_deleted. }
  destruct (refresh_all batch).
  - specialize (H2 (map_to_list (file_actions batch)) ∅ a0).
    destruct (handle_actions_refresh _ _ _ _) as [ps a']. transitivity a'; [done|apply agent_to_refresh_all].
  - specialize (H1 (map_to_list (file_actions batch)) [] a0).
    destruct (handle_actions _ _ _ _) as [ps a']. transitivity a'; [done|apply agent_to_changes_batch].
Qed.

Lemma iteration_agent env cmd q a a' rs q' go :
  agent_files_only a → Forall (restores_agent_files a) (cmd :: q) →
  run_iteration env cmd q a = (a', rs, q', go) →
  agent_files_only a' ∧ Forall (restores_agent_files a) q'.
Proof.
  intros Ha Hq. unfold run_iteration. destruct (is_coalescable cmd).
  - unfold handle_coalesced_batch. set (b := drain_and_coalesce cmd q). intros E.
    assert (agent_files_only
      (handle_commands env (other_commands b) [] (handle_batch_files env b a)).1.1) as Hm.
    { apply commands_agent; [|by apply agent_to_batch_files].
      rewrite (drain_other cmd q : other_commands b = _), Forall_forall in *.
      intros c [Hc _]%elem_of_filter_b. by apply Hq. }
    destruct (handle_commands _ _ _ _) as [[??]?]. simplify_eq. by split.
  - inversion Hq as [|?? Hcmd Hqs]; subst. pose proof (command_agent env cmd a Hcmd Ha) as Hm.
    destruct (handle_command env cmd a) as [[??]?]. intros. by simplify_eq.
Qed.

Lemma steps_agent world s s' :
  actor_steps world restores_agent_files s s' →
  agent_files_only (sys_actor s) ∧ Forall (restores_agent_files (sys_actor s)) (sys_queue s) →
  agent_files_only (sys_actor s') ∧ Forall (restores_agent_files (sys_actor s')) (sys_queue s').
Proof.
  induction 1 as [s|s1 s2 s3 Hstep _ IH]; [done|]. intros H. apply IH. clear IH.
  destruct H as [Ha Hq].
  destruct Hstep as [a q rs st cmd Hcmd|a q rs st f|a q rs st n Hn|env a q rs He
    |env a cmd q rs a' rs' q' go He Hrun|a q rs]; simpl in *; try done.
  - split; [done|]. apply Forall_app. by repeat constructor.
  - unfold run_start. case_decide; [|done]. split; [by apply agent_to_refresh_dirty|done].
  - destruct (iteration_agent env cmd q a a' rs' q' go Ha Hq Hrun) as [Ha' Hq'].
    split; [done|]. eapply Forall_impl; [exact Hq'|]. by intros [].
Qed.

End runs.
