(* ===== verification/TrackerRender.v ===== *)
(** * Hunk tracker: rendering and summarising

    [generate_hunk_patch] never underflows on the hunks a file really has, so
    [get_file_hunk_data] always answers; the session summary counts every
    pending hunk once.  Then the coalescing of batches, and snapshots under changed
    paths. *)

From S2P Require Import Prelude Text HunkTypes HunkDiff HunkDiffProps FileUtils Tracker.
From S2P Require Import TrackerActions TrackerMutations TrackerQueries TrackerActor TrackerInv TrackerOps TrackerSafety.
From S2P Require Import TrackerReview.

(** ** Hunks lie within the texts *)

Lemma raw_hunks_upper s ol nl cur chs :
  cur_at ol nl cur →
  Forall (λ hb, b_end s hb <= line_of s ol nl + length (script_lines s chs))
    (raw_hunks ol nl cur chs).
Proof.
  assert (∀ t v chs, length (script_lines s ((t, v) :: chs))
    = (if on_side s t then 1 else 0) + length (script_lines s chs)) as Hlen.
  { intros t v l. unfold script_lines. csimpl. by destruct (on_side s t). }
  revert ol nl cur. induction chs as [|[t v] chs IH]; intros ol nl cur Hc.
  - simpl. destruct cur as [hb|]; simpl; repeat constructor.
    destruct s; unfold cur_at in Hc; simpl in *; lia.
  - rewrite Hlen. destruct t; simpl.
    + apply Forall_app. split.
      * destruct cur as [hb|]; simpl; repeat constructor.
        destruct s; unfold cur_at in Hc; simpl in *; lia.
      * eapply Forall_impl; [apply IH; by eapply cur_at_equal|]. intros hb. destruct s; simpl; lia.
    + eapply Forall_impl; [apply IH; by apply cur_at_delete|]. intros hb. destruct s; simpl; lia.
    + eapply Forall_impl; [apply IH; by apply cur_at_insert|]. intros hb. destruct s; simpl; lia.
Qed.

(** A hunk whose lines lie within the two texts has a patch. *)
Lemma generate_in_bounds b c h :
  old_start (line_info h) - 1 + old_count (line_info h) <= length (lines b) →
  new_start (line_info h) - 1 + new_count (line_info h) <= length (lines c) →
  is_Some (generate_hunk_patch b c h).
Proof.
  intros Hb Hc. unfold generate_hunk_patch, usize_checked_sub, CONTEXT_LINES. cbn zeta.
  rewrite !(proj2 (Nat.leb_le _ _)) by lia. simpl. by eexists.
Qed.

Section render.
Context `{D : DiffEngine} `{!DiffLaws D}.

Lemma length_lines t : length (lines t) = length (split_inclusive t).
Proof. unfold lines. by rewrite length_fmap. Qed.

Lemma diff_hunks_in_bounds path b c hs h :
  CR ∉ b → CR ∉ c → is_diff_of path b c hs → h ∈ hs → is_Some (generate_hunk_patch b c h).
Proof.
  intros Hb Hc Hd Hh. assert (hs ≠ []) as Hne by (intros ->; by apply not_elem_of_nil in Hh).
  destruct (is_diff_of_runs _ _ _ _ Hd Hne) as [_ Hf].
  apply list_elem_of_lookup in Hh as [i Hi].
  destruct (Forall2_lookup_r _ _ _ _ _ Hf Hi) as (hb & Hhb & Hcore).
  apply list_elem_of_lookup_2 in Hhb.
  assert (cur_at 1 1 None) as Hcur by (simpl; lia).
  pose proof (proj1 (Forall_forall _ _) (raw_hunks_upper Old 1 1 None (diff_lines b c) Hcur) _ Hhb) as Ho.
  pose proof (proj1 (Forall_forall _ _) (raw_hunks_upper New 1 1 None (diff_lines b c) Hcur) _ Hhb) as Hn.
  pose proof (proj1 (Forall_forall _ _) (raw_hunks_well_placed 1 1 None (diff_lines b c) Hcur) _ Hhb) as Hw.
  rewrite diff_old_lines in Ho by done. rewrite diff_new_lines in Hn by done.
  unfold from_builder, hunk_core in Hcore. injection Hcore as _ Hli _ _.
  unfold b_end, well_placed in *. simpl in Ho, Hn.
  apply generate_in_bounds; rewrite Hli, length_lines; simpl; lia.
Qed.

(** Every hunk of a file with CR-free texts can be rendered. *)
Definition cr_free (s : FileContentState) : Prop :=
  match s with Full t => CR ∉ t | _ => True end.

Lemma lines_nonempty t : t ≠ [] → 1 <= length (lines t).
Proof.
  intros Ht. rewrite length_lines. destruct (split_inclusive t) eqn:E; simpl; [|lia].
  by apply split_inclusive_nil in E.
Qed.

Lemma file_hunk_renders path st h :
  file_ok path st → cr_free (baseline st) → cr_free (current_content st) → h ∈ hunks st →
  is_Some (hunk_with_patch (as_str (baseline st)) (as_str (current_content st)) h).
Proof.
  intros Hok Hb Hc Hh.
  assert (∀ b c, is_Some (generate_hunk_patch b c h) →
    is_Some (p ← generate_hunk_patch b c h; Some (set_hunk_patch (Some p) h))) as Hbind.
  { intros b c [p ->]. by eexists. }
  assert (hunks st ≠ []) as Hne by (intros E; rewrite E in Hh; by apply not_elem_of_nil in Hh).
  destruct Hok as [?|Hd]; [done|].
  destruct (baseline st) as [| | | | |b] eqn:Eb, (current_content st) as [| | | | |c] eqn:Ec;
    simpl in Hd; try done; simpl; apply Hbind.
  - destruct Hd as [[_ ?]|(h' & E & Hne' & Hcore)]; [done|]. rewrite E in Hh.
    apply list_elem_of_singleton in Hh as ->. injection Hcore as _ Hli _ _.
    pose proof (lines_nonempty c Hne'). apply generate_in_bounds; rewrite Hli; simpl; lia.
  - destruct Hd as [[_ ?]|(h' & E & Hne' & Hcore)]; [done|]. rewrite E in Hh.
    apply list_elem_of_singleton in Hh as ->. injection Hcore as _ Hli _ _.
    pose proof (lines_nonempty b Hne'). apply generate_in_bounds; rewrite Hli; simpl; lia.
  - by eapply diff_hunks_in_bounds.
Qed.

Lemma hunk_data_answers a path st :
  file_states a !! path = Some st → file_ok path st →
  cr_free (baseline st) → cr_free (current_content st) →
  ∃ d, get_file_hunk_data a path = Some d
    ∧ hunk_id <$> data_hunks d = hunk_id <$> hunks st
    ∧ data_baseline_content d = as_str (baseline st)
    ∧ data_current_content d = as_str (current_content st).
Proof.
  intros Hst Hok Hb Hc. unfold get_file_hunk_data. rewrite Hst.
  set (f := hunk_with_patch (as_str (baseline st)) (as_str (current_content st))).
  assert (∀ h h', f h = Some h' → hunk_id h' = hunk_id h) as Hid.
  { intros h h' Eh. unfold f, hunk_with_patch in Eh. clear -Eh.
    destruct (as_str (baseline st)), (as_str (current_content st));
      try (apply bind_Some in Eh as (p & _ & Eh)); by simplify_eq. }
  assert (is_Some (mapM f (hunks st))) as [k Ek].
  { apply mapM_is_Some_2, Forall_forall. intros h Hh. by eapply file_hunk_renders. }
  rewrite Ek. simpl. eexists. split; [done|]. simpl. split.
  - apply mapM_Some_1 in Ek. induction Ek as [|h h' l k' Eh _ IH]; csimpl; [done|].
    by rewrite (Hid _ _ Eh), IH.
  - by destruct (baseline st), (current_content st).
Qed.

End render.

(** ** The session summary *)

Section summary.

Definition pending_of (m : gmap nat TurnSummary) : nat :=
  sum_list ((λ t, length (turn_pending_hunks t)) <$> (map_to_list m).*2).

Lemma pending_insert m i e :
  pending_of (<[i := e]> m) + length (turn_pending_hunks (turn_data i m))
  = pending_of m + length (turn_pending_hunks e).
Proof.
  unfold pending_of, turn_data. destruct (m !! i) as [e0|] eqn:E; simpl.
  - rewrite <-insert_delete_eq, map_to_list_insert by apply lookup_delete_eq.
    rewrite <-(insert_delete_id m i e0 E) at 2.
    rewrite (map_to_list_insert (delete i m) i e0) by apply lookup_delete_eq. csimpl. lia.
  - rewrite map_to_list_insert by done. csimpl. lia.
Qed.

Lemma summary_step_pending path m u agent h m' u' agent' :
  summary_step path (m, u, agent) h = (m', u', agent') →
  (Z.of_nat u + 1 <= u64_max)%Z →
  pending_of m' + u' = S (pending_of m + u) ∧ u <= u' <= S u.
Proof.
  unfold summary_step. intros H Hu. destruct (prompt_index (hunk_source h)) as [i|]; simplify_eq.
  - match goal with |- pending_of (<[i := ?e]> m) + _ = _ ∧ _ => pose proof (pending_insert m i e) as H end.
    simpl in H. rewrite length_app in H. simpl in H. lia.
  - rewrite usize_add_small by done. lia.
Qed.

Lemma summary_fold_pending path hs m u agent m' u' agent' :
  foldl (summary_step path) (m, u, agent) hs = (m', u', agent') →
  (Z.of_nat (u + length hs) <= u64_max)%Z →
  pending_of m' + u' = pending_of m + u + length hs ∧ u <= u' <= u + length hs.
Proof.
  revert m u agent. induction hs as [|h hs IH]; intros m u agent H Hu; cbn [foldl length] in *.
  { simplify_eq. lia. }
  destruct (summary_step path (m, u, agent) h) as [[m1 u1] agent1] eqn:E.
  apply summary_step_pending in E as [E1 E2]; [|lia].
  apply IH in H as [H1 H2]; [lia|lia].
Qed.

Lemma summary_files_pending files m u p m' u' p' :
  summary_files files m u p = (m', u', p') →
  (Z.of_nat (u + length (files.*2 ≫= hunks)) <= u64_max)%Z →
  pending_of m' + u' = pending_of m + u + length (files.*2 ≫= hunks).
Proof.
  revert m u p. induction files as [|[path st] files IH]; intros m u p H Hu; cbn [summary_files] in H; csimpl in *.
  { simplify_eq. lia. }
  rewrite length_app in *.
  destruct (foldl _ _ _) as [[m1 u1] agent] eqn:E.
  apply summary_fold_pending in E as [E1 E2]; [|lia]. apply IH in H; [|lia]. lia.
Qed.

Lemma usize_sum_small l :
  (Z.of_nat (sum_list l) <= u64_max)%Z → usize_sum l = sum_list l.
Proof.
  unfold usize_sum. assert (∀ k n, (Z.of_nat (n + sum_list k) <= u64_max)%Z →
    foldl usize_add n k = n + sum_list k) as H.
  { induction k as [|x k IH]; intros n Hn; simpl in *; [lia|].
    rewrite usize_add_small by lia. rewrite IH by lia. lia. }
  intros Hl. by rewrite H.
Qed.

Lemma summary_counts a :
  (Z.of_nat (length (get_all_hunks a)) <= u64_max)%Z →
  sum_pending_hunks (compute_session_summary a) + sum_unattributed_pending (compute_session_summary a)
  = length (get_all_hunks a)
  ∧ StronglySorted (λ t t', turn_prompt_index t <= turn_prompt_index t')
      (sum_turns (compute_session_summary a)).
Proof.
  intros Hb. unfold compute_session_summary, get_all_hunks, file_values in *.
  destruct (summary_files _ _ _ _) as [[m u] p] eqn:E.
  apply summary_files_pending in E; [|done].
  cbn [sum_pending_hunks sum_unattributed_pending sum_turns]. split; [|apply sort_by_key_sorted].
  assert (sum_list ((λ t, length (turn_pending_hunks t))
    <$> sort_by_key turn_prompt_index (map_to_list m).*2) = pending_of m) as Hs.
  { unfold pending_of. by rewrite sort_by_key_Permutation. }
  assert (pending_of ∅ = 0) as H0 by done. rewrite usize_sum_small; rewrite Hs; lia.
Qed.

End summary.

(** ** Coalescing *)

(** The notifications about a path, in order; [true] is a deletion. *)
Definition path_events (p : Path) (cmds : list HunkTrackerCommand) : list bool :=
  omap (λ c, match c with
             | HandleFileChange q => if decide (q = p) then Some false else None
             | HandleFileDeleted q => if decide (q = p) then Some true else None
             | _ => None
             end) cmds.

(** The last notification decides, and a change after a deletion is told from
    a plain one. *)
Definition coalesced (evs : list bool) : option CoalescedPathAction :=
  match last evs with
  | None => None
  | Some true => Some Deleted
  | Some false => Some (if any_b id evs then DeletedThenChanged else Changed)
  end.

Definition is_refresh_all (c : HunkTrackerCommand) : bool :=
  match c with RefreshAllBaselines => true | _ => false end.
Definition is_refresh_dirty (c : HunkTrackerCommand) : bool :=
  match c with RefreshGitDirtyCache => true | _ => false end.

Lemma path_events_snoc p cmds c : path_events p (cmds ++ [c]) = path_events p cmds ++ path_events p [c].
Proof. apply omap_app. Qed.

Lemma any_b_snoc {A} (f : A → bool) l x : any_b f (l ++ [x]) = any_b f l || f x.
Proof. unfold any_b. rewrite existsb_app. simpl. by rewrite orb_false_r. Qed.

Lemma coalesced_change evs :
  coalesced (evs ++ [false])
  = Some (match coalesced evs with
          | Some Deleted => DeletedThenChanged
          | Some act => act
          | None => Changed
          end).
Proof.
  unfold coalesced. rewrite last_snoc, any_b_snoc, orb_false_r. f_equal.
  induction evs as [|e evs IH] using rev_ind; [done|]. rewrite last_snoc, any_b_snoc.
  destruct e; simpl; [by rewrite orb_true_r|]. rewrite orb_false_r. by case_match.
Qed.

Lemma batch_actions cmds p :
  file_actions (foldl batch_add new_batch cmds) !! p = coalesced (path_events p cmds).
Proof.
  induction cmds as [|c cmds IH] using rev_ind; [apply lookup_empty|].
  rewrite foldl_snoc, path_events_snoc. set (b := foldl batch_add new_batch cmds) in *.
  assert (path_events p [c] = [] → file_actions (batch_add b c) !! p = file_actions b !! p →
    file_actions (batch_add b c) !! p = coalesced (path_events p cmds ++ path_events p [c])) as Hsame.
  { intros -> ->. by rewrite app_nil_r. }
  destruct c; try (by apply Hsame); destruct (decide (path = p)) as [->|Hne].
  - csimpl. rewrite decide_True by done. simpl. rewrite lookup_insert_eq, coalesced_change, IH.
    by destruct (coalesced _) as [[]|].
  - apply Hsame; [csimpl; by rewrite decide_False|]. simpl. by rewrite lookup_insert_ne.
  - csimpl. rewrite decide_True by done. simpl. rewrite lookup_insert_eq.
    unfold coalesced. by rewrite last_snoc.
  - apply Hsame; [csimpl; by rewrite decide_False|]. simpl. by rewrite lookup_insert_ne.
Qed.

Lemma batch_flags cmds :
  refresh_all (foldl batch_add new_batch cmds) = any_b is_refresh_all cmds
  ∧ refresh_dirty (foldl batch_add new_batch cmds) = any_b is_refresh_dirty cmds.
Proof.
  induction cmds as [|c cmds [IH1 IH2]] using rev_ind; [done|].
  rewrite foldl_snoc, !any_b_snoc, <-IH1, <-IH2.
  destruct c; simpl; rewrite ?orb_false_r, ?orb_true_r; done.
Qed.

(** ** Moving a snapshot *)

(** A path below [cwd]. *)
Definition below (cwd path : Path) : Prop := ∃ rel, path = cwd ++ rel ∧ is_absolute rel = false.

Lemma rewrite_below cwd cwd' rel :
  is_absolute rel = false → rewrite_single_path (cwd ++ rel) cwd cwd cwd' = Some (cwd' ++ rel).
Proof.
  intros Hrel. unfold rewrite_single_path. rewrite path_strip_prefix_app. simpl.
  unfold path_join. by rewrite Hrel.
Qed.

Section moving.
Context (cwd cwd' : Path) (s : HunkTrackerSnapshot).
Hypothesis Hbelow : ∀ path snap, snap_file_states s !! path = Some snap → below cwd path.

Let moved := rewrite_entry cwd cwd cwd'.

Lemma moved_lookup rel snap :
  is_absolute rel = false →
  snap_file_states (rewrite_paths cwd cwd cwd' s) !! (cwd' ++ rel) = Some snap
  ↔ ∃ snap0, snap_file_states s !! (cwd ++ rel) = Some snap0
      ∧ snap = (rewrite_entry cwd cwd cwd' (cwd ++ rel, snap0)).2.
Proof.
  intros Hrel. unfold rewrite_paths. simpl.
  assert (∀ e, e ∈ map_to_list (snap_file_states s) → ∃ r, e.1 = cwd ++ r ∧ is_absolute r = false
    ∧ (moved e).1 = cwd' ++ r) as Hkeys.
  { intros [path sn] He%elem_of_map_to_list. destruct (Hbelow _ _ He) as (r & -> & Hr).
    exists r. split; [done|]. split; [done|]. unfold moved. simpl. by rewrite rewrite_below. }
  assert (NoDup (moved <$> map_to_list (snap_file_states s)).*1) as Hnd.
  { pose proof (NoDup_fst_map_to_list (snap_file_states s)) as Hnd. revert Hkeys Hnd.
    generalize (map_to_list (snap_file_states s)) as l. induction l as [|e l IH]; csimpl;
      intros Hkeys Hnd; [constructor|].
    apply NoDup_cons in Hnd as [He Hnd]. apply NoDup_cons.
    split; [|apply IH; [set_solver|done]].
    intros (x & Ex & Hx)%list_elem_of_fmap. apply list_elem_of_fmap in Hx as (e' & -> & He').
    destruct (Hkeys e) as (r & E1 & _ & E2); [by left|].
    destruct (Hkeys e') as (r' & E1' & _ & E2'); [by right|].
    rewrite E2, E2' in Ex. apply app_inv_head in Ex as ->. apply He. rewrite E1, <-E1'.
    by apply list_elem_of_fmap_2. }
  rewrite <-elem_of_list_to_map by (by rewrite fmap_reverse, reverse_Permutation).
  rewrite elem_of_reverse, list_elem_of_fmap. split.
  - intros ([path sn] & E & Hin). destruct (Hkeys _ Hin) as (r & E1 & _ & E2). simpl in E1. subst path.
    assert (r = rel) as ->.
    { apply (app_inv_head cwd'). rewrite <-E2. unfold moved. by rewrite <-E. }
    exists sn. split; [by apply elem_of_map_to_list|]. by apply (f_equal snd) in E.
  - intros (sn & Hsn & ->). exists (cwd ++ rel, sn). split; [|by apply elem_of_map_to_list].
    simpl. by rewrite rewrite_below.
Qed.

Lemma moved_below path snap :
  snap_file_states (rewrite_paths cwd cwd cwd' s) !! path = Some snap → below cwd' path.
Proof.
  unfold rewrite_paths. simpl. intros H%elem_of_list_to_map_2.
  rewrite elem_of_reverse, list_elem_of_fmap in H. destruct H as ([p sn] & E & Hin%elem_of_map_to_list).
  destruct (Hbelow _ _ Hin) as (r & -> & Hr). simpl in E. rewrite rewrite_below in E by done.
  simplify_eq/=. by exists r.
Qed.

End moving.

(** Moving a snapshot and moving it back. *)
Lemma rewrite_paths_back cwd cwd' s :
  (∀ path snap, snap_file_states s !! path = Some snap →
     below cwd path ∧ ∀ h, h ∈ snap_hunks snap → hunk_path h = path) →
  rewrite_paths cwd' cwd' cwd (rewrite_paths cwd cwd cwd' s) = s.
Proof.
  intros Hs.
  assert (∀ path snap, snap_file_states s !! path = Some snap → below cwd path) as Hb by naive_solver.
  assert (∀ h p p', hunk_path h = p → set_hunk_path p (set_hunk_path p' h) = h) as Hset.
  { intros [] p p'; simpl. by intros ->. }
  destruct s as [F T st]. unfold rewrite_paths at 1. cbn [snap_turn_index snap_session_stats rewrite_paths].
  f_equal. change (snap_file_states (rewrite_paths cwd' cwd' cwd (rewrite_paths cwd cwd cwd' (mkSnapshot F T st))) = F).
  apply map_eq. intros path. apply option_eq. intros snap.
  assert (∀ rel, is_absolute rel = false →
    snap_file_states (rewrite_paths cwd' cwd' cwd (rewrite_paths cwd cwd cwd' (mkSnapshot F T st)))
      !! (cwd ++ rel) = Some snap ↔ F !! (cwd ++ rel) = Some snap) as Hat.
  { intros rel Hrel. rewrite moved_lookup; [|by apply moved_below|done].
    setoid_rewrite moved_lookup; [|done|done]. simpl.
    assert (∀ sn, F !! (cwd ++ rel) = Some sn →
      (rewrite_entry cwd' cwd' cwd (cwd' ++ rel, (rewrite_entry cwd cwd cwd' (cwd ++ rel, sn)).2)).2 = sn)
      as Hid.
    { intros sn Hsn. simpl. rewrite !rewrite_below by done. simpl.
      destruct sn as [b c hs ag ba]. simpl. f_equal. rewrite <-list_fmap_compose.
      rewrite <-(list_fmap_id hs) at 2. apply list_fmap_ext. intros i h Hh. simpl.
      apply Hset. apply (Hs _ _ Hsn). simpl. by eapply list_elem_of_lookup_2. }
    split.
    - intros (sn1 & (sn & Hsn & ->) & ->). rewrite <-(Hid _ Hsn) in Hsn. exact Hsn.
    - intros Hsn. eexists. split; [by exists snap|]. symmetry. exact (Hid _ Hsn). }
  split; intros H.
  - destruct (moved_below cwd' cwd _ (moved_below cwd cwd' _ Hb) path snap H) as (rel & -> & Hrel).
    by apply Hat.
  - destruct (Hb _ _ H) as (rel & -> & Hrel). by apply Hat.
Qed.
