(* ===== verification/TrackerTheorems.v ===== *)
(** * Hunk tracker: theorems

    The properties of the hunk tracker, each with a concrete run at which its
    hypotheses hold.  The runs use [greedy_engine] for the diff, a generator of
    numbered identifiers and a repository with one committed file. *)

From S2P Require Import Prelude Text HunkTypes HunkDiff HunkDiffProps FileUtils Tracker.
From S2P Require Import TrackerActions TrackerMutations TrackerQueries TrackerActor TrackerInv.
From S2P Require Import TrackerOps TrackerSafety TrackerReview TrackerStable.
From S2P Require Import TrackerRender.

(** ** A concrete world *)

Definition demo_gen (n : nat) : HunkId := pretty n.

#[export] Instance demo_gen_inj : Inj (=) (=) demo_gen.
Proof. unfold demo_gen. apply _. Defined.

Definition demo_text (ls : list string) : text := concat (txtln <$> ls).

Definition demo_base : text := demo_text ["a"; "b"; "c"; "d"; "e"].
(** The agent's version of the file, and what the user makes of it. *)
Definition demo_edit1 : text := demo_text ["a"; "X"; "c"; "d"; "e"].
Definition demo_edit2 : text := demo_text ["a"; "X"; "c"; "d"; "Y"].

Definition demo_wd : Path := ["/"; "w"].
Definition demo_path : Path := ["/"; "w"; "f"].

Definition demo_io (ok : bool) : IoEnv :=
  mkIoEnv (λ _, true) (λ _ n, Some n) (λ _, true) (λ _, ok) (λ _, ok) (λ _, true) (λ _, false).

(** [ok] is whether writes succeed. *)
Definition demo_env (ok : bool) : Env :=
  mkEnv demo_gen 0 (demo_io ok) Some (λ _, Some demo_wd)
    (λ p, if decide (p = ["f"]) then Some (HeadBlob demo_base) else None)
    true (λ _, Some []) (Some "c0") None.

Definition demo_fs : Fs := {[ demo_path := RegularFile demo_edit2 ]}.

Definition demo_write : HunkTrackerCommand :=
  RecordAgentWrite demo_path demo_edit1 1 (Some demo_base).

(** The actor after its start, after the agent's write of turn 1, and after
    the notification of the user's edit. *)
Definition demo_start : Actor := run_start (demo_env true) (new_actor demo_wd AgentOnly 0 demo_fs).
Definition demo_actor1 : Actor :=
  record_agent_write (demo_env true) demo_path demo_edit1 1 (Some demo_base) demo_start.
Definition demo_actor2 : Actor := handle_file_changes_batch (demo_env true) [demo_path] demo_actor1.

Definition demo_system2 : System := mkSystem demo_actor2 [] [NoReply] Running.

Lemma demo_steps (world : Env → Prop) (allowed : Actor → HunkTrackerCommand → Prop) :
  world (demo_env true) →
  (∀ a, allowed a demo_write) → (∀ a, allowed a (HandleFileChange demo_path)) →
  actor_steps world allowed (initial_system demo_wd AgentOnly demo_fs) demo_system2.
Proof.
  intros Hw H1 H2.
  eapply rtc_l; [apply (step_send _ _ _ _ _ _ demo_write); apply H1|].
  eapply rtc_l; [apply (step_send _ _ _ _ _ _ (HandleFileChange demo_path)); apply H2|].
  eapply rtc_l; [apply (step_start _ _ (demo_env true)); exact Hw|].
  eapply rtc_l; [eapply (step_handle _ _ (demo_env true)); [exact Hw|reflexivity]|].
  eapply rtc_l; [eapply (step_handle _ _ (demo_env true)); [exact Hw|reflexivity]|].
  apply rtc_refl.
Qed.

(** The file of [demo_actor2]: two hunks, the agent's and the user's. *)
Definition demo_file : FileHunkState := default (new_file_state Missing Missing false)
  (file_states demo_actor2 !! demo_path).

Lemma demo_file_hunks :
  (λ h, (hunk_source h, line_info h)) <$> hunks demo_file
  = [(AgentEdit 1, mkLineInfo 2 1 2 1); (ExternalEditOnAgentFile, mkLineInfo 5 1 5 1)].
Proof. vm_compute. reflexivity. Qed.

Lemma demo_file_lookup : file_states demo_actor2 !! demo_path = Some demo_file.
Proof. vm_compute. reflexivity. Qed.

Lemma demo_file_baseline : baseline demo_file = Full demo_base.
Proof. vm_compute. reflexivity. Qed.

Lemma demo_file_current : current_content demo_file = Full demo_edit2.
Proof. vm_compute. reflexivity. Qed.

Lemma demo_file_nonempty : hunks demo_file ≠ [].
Proof. intros E. pose proof demo_file_hunks as H. rewrite E in H. discriminate H. Qed.

(** ** Invariants along runs *)

(** C1: in every state the actor reaches, whatever commands were sent (only
    sound snapshots being restored) and whatever happened to the files, the
    hunks of a tracked file are none or exactly the diff of its baseline and
    current content: the line runs that differ, one hunk for a created or
    deleted file, and none for contents that cannot be diffed.  File-system
    failures do not break this. *)
Theorem tracker_hunks_are_diffs `{D : DiffEngine} (gen : nat → HunkId) (wd : Path)
    (m : TrackingMode) (f : Fs) (s : System) (path : Path) (st : FileHunkState) :
  Inj (=) (=) gen →
  actor_steps (one_generator gen) (cmd_ok gen) (initial_system wd m f) s →
  file_states (sys_actor s) !! path = Some st →
  hunks st = [] ∨ is_content_diff path (baseline st) (current_content st) (hunks st).
Proof.
  intros Hinj Hs Hst.
  destruct (system_steps gen Hinj (one_generator gen) ∅ (initial_system wd m f) s
    (λ _ H, H) Hs (initial_ok gen Hinj wd m f)) as (X & [[HF _] _] & _).
  by apply (HF path st).
Qed.

Lemma tracker_hunks_are_diffs_witness :
  length (hunks demo_file) = 2
  ∧ (hunks demo_file = []
     ∨ is_content_diff demo_path (baseline demo_file) (current_content demo_file) (hunks demo_file)).
Proof.
  split; [vm_compute; reflexivity|].
  apply (tracker_hunks_are_diffs demo_gen demo_wd AgentOnly demo_fs demo_system2).
  - apply demo_gen_inj.
  - apply demo_steps; intros; exact I || reflexivity.
  - apply demo_file_lookup.
Defined.

(** In every reachable state no two pending hunks, of one file or of
    several, have the same identifier, so a hunk is found by its identifier
    alone. *)
Theorem tracker_ids_unique `{D : DiffEngine} (gen : nat → HunkId) (wd : Path)
    (m : TrackingMode) (f : Fs) (s : System) :
  Inj (=) (=) gen →
  actor_steps (one_generator gen) (cmd_ok gen) (initial_system wd m f) s →
  NoDup (hunk_id <$> get_all_hunks (sys_actor s))
  ∧ ∀ h, h ∈ get_all_hunks (sys_actor s) → get_hunk (sys_actor s) (hunk_id h) = Some h.
Proof.
  intros Hinj Hs.
  destruct (system_steps gen Hinj (one_generator gen) ∅ (initial_system wd m f) s
    (λ _ H, H) Hs (initial_ok gen Hinj wd m f)) as (X & [[_ Hids] _] & _).
  split; [by eapply all_hunks_nodup|]. intros h Hh. by eapply get_hunk_spec.
Qed.

Lemma tracker_ids_unique_witness :
  length (get_all_hunks demo_actor2) = 2 ∧ NoDup (hunk_id <$> get_all_hunks demo_actor2).
Proof.
  split; [vm_compute; reflexivity|].
  apply (tracker_ids_unique demo_gen demo_wd AgentOnly demo_fs demo_system2).
  - apply demo_gen_inj.
  - apply demo_steps; intros; exact I || reflexivity.
Defined.

(** In every state reached while file operations succeed, the hunks
    reported for a turn through the turn index are exactly the pending hunks
    attributed to that turn: the index and the files agree, although every
    operation maintains them separately. *)
Theorem turn_query_exact `{D : DiffEngine} (gen : nat → HunkId) (wd : Path)
    (m : TrackingMode) (f : Fs) (s : System) (i : nat) :
  Inj (=) (=) gen →
  actor_steps (reliable gen) (cmd_ok gen) (initial_system wd m f) s →
  get_hunks_for_turn (sys_actor s) i
  ≡ₚ filter_b (λ h, bool_decide (prompt_index (hunk_source h) = Some i))
       (get_all_hunks (sys_actor s)).
Proof.
  intros Hinj Hs. destruct (reliable_ids gen Hinj wd m f s Hs) as [[_ Hids] _].
  by apply (turn_hunks_exact gen).
Qed.

Lemma turn_query_exact_witness :
  length (get_hunks_for_turn demo_actor2 1) = 1
  ∧ get_hunks_for_turn demo_actor2 1
    ≡ₚ filter_b (λ h, bool_decide (prompt_index (hunk_source h) = Some 1)) (get_all_hunks demo_actor2).
Proof.
  split; [vm_compute; reflexivity|].
  apply (turn_query_exact demo_gen demo_wd AgentOnly demo_fs demo_system2 1).
  - apply demo_gen_inj.
  - apply demo_steps; intros; exact I || (split; [reflexivity|intros p; split; reflexivity]).
Defined.

(** In [AgentOnly] mode every tracked file was written by an agent, after
    any run from the start in which only snapshots of agent files are
    restored: notifications and refreshes of other files are ignored, and
    switching to the mode drops them. *)
Theorem agent_only_tracks_agent_files `{D : DiffEngine} (world : Env → Prop) (wd : Path)
    (m : TrackingMode) (f : Fs) (s : System) (path : Path) (st : FileHunkState) :
  actor_steps world restores_agent_files (initial_system wd m f) s →
  mode (sys_actor s) = AgentOnly →
  file_states (sys_actor s) !! path = Some st → is_agent_file st = true.
Proof.
  intros Hs Hm Hst. apply steps_agent in Hs as [Ha _]; [by eapply Ha|].
  split; [|constructor]. intros _ p st'. simpl. by rewrite lookup_empty.
Qed.

Lemma agent_only_tracks_agent_files_witness :
  mode demo_actor2 = AgentOnly ∧ is_agent_file demo_file = true.
Proof.
  split; [reflexivity|].
  apply (agent_only_tracks_agent_files (λ _, True) demo_wd AgentOnly demo_fs demo_system2 demo_path).
  - apply demo_steps; intros; exact I.
  - reflexivity.
  - apply demo_file_lookup.
Defined.

(** In every reachable state, [GetFileHunkData] on a file with CR-free
    contents is answered: no subtraction in the rendering of its hunks
    underflows, and the answer lists every hunk and both texts. *)
Theorem file_data_answered `{D : DiffEngine} `{!DiffLaws D} (gen : nat → HunkId) (wd : Path)
    (m : TrackingMode) (f : Fs) (s : System) (path : Path) (st : FileHunkState) :
  Inj (=) (=) gen →
  actor_steps (one_generator gen) (cmd_ok gen) (initial_system wd m f) s →
  file_states (sys_actor s) !! path = Some st →
  cr_free (baseline st) → cr_free (current_content st) →
  ∃ d, get_file_hunk_data (sys_actor s) path = Some d
    ∧ hunk_id <$> data_hunks d = hunk_id <$> hunks st
    ∧ data_baseline_content d = as_str (baseline st)
    ∧ data_current_content d = as_str (current_content st).
Proof.
  intros Hinj Hs Hst Hb Hc.
  destruct (system_steps gen Hinj (one_generator gen) ∅ (initial_system wd m f) s
    (λ _ H, H) Hs (initial_ok gen Hinj wd m f)) as (X & [[HF _] _] & _).
  apply hunk_data_answers; [done|by apply (HF path st)|done..].
Qed.

Lemma file_data_answered_witness :
  ∃ d, get_file_hunk_data demo_actor2 demo_path = Some d
    ∧ hunk_id <$> data_hunks d = hunk_id <$> hunks demo_file
    ∧ data_baseline_content d = as_str (baseline demo_file)
    ∧ data_current_content d = as_str (current_content demo_file).
Proof.
  apply (file_data_answered demo_gen demo_wd AgentOnly demo_fs demo_system2).
  - apply demo_gen_inj.
  - apply demo_steps; intros; exact I || reflexivity.
  - apply demo_file_lookup.
  - apply (bool_decide_unpack (CR ∉ demo_base)). vm_compute. exact I.
  - apply (bool_decide_unpack (CR ∉ demo_edit2)). vm_compute. exact I.
Defined.

(** ** Reviewing *)

Lemma filter_b_true {A} (l : list A) : filter_b (λ _, true) l = l.
Proof. by apply filter_b_all. Qed.

(** The hunks of all files, file by file. *)
Lemma all_hunk_ids (a : Actor) :
  concat ((λ f : Path * list Hunk, hunk_id <$> f.2) <$> files_with_hunks (λ _, true) a)
  = map_to_list (file_states a) ≫= λ e, hunk_id <$> hunks e.2.
Proof.
  unfold files_with_hunks. induction (map_to_list (file_states a)) as [|[p st] l IH]; [done|].
  csimpl. rewrite filter_b_true, <- IH. by destruct (hunks st).
Qed.

(** C25: rejecting everything undoes every pending change.  When the hunks of
    every file are its diff, the texts are made of LF-terminated lines with an
    unchanged non-blank one, and file operations succeed, [AllAction] with
    [Reject] answers the identifiers of all pending hunks, each as often as it is pending; each file that had
    hunks is back to its baseline on disk and in memory and has none left; every
    other path, tracked or not, is untouched. *)
Theorem reject_all_restores `{D : DiffEngine} `{!DiffLaws D} (gen : nat → HunkId) (env : Env)
    (a : Actor) :
  Inj (=) (=) gen → uuid env = gen → good gen ∅ a → io_succeeds env →
  (∀ path st, file_states a !! path = Some st → hunks st ≠ [] →
     reviewable (baseline st) (current_content st)) →
  ∃ a' ids, apply_all_action env Reject a = (a', Ok ids)
    ∧ ids ≡ₚ (map_to_list (file_states a) ≫= λ e, hunk_id <$> hunks e.2)
    ∧ (∀ path, (∀ st, file_states a !! path = Some st → hunks st = []) →
         file_states a' !! path = file_states a !! path ∧ fs a' !! path = fs a !! path)
    ∧ ∀ path st, file_states a !! path = Some st → hunks st ≠ [] →
          file_states a' !! path
          = Some (mkFileState (baseline st) (baseline st) [] (is_agent_file st)
                    (baseline_accepted st))
          ∧ fs a' !! path = disk_node (baseline st).
Proof.
  intros Hinj Hgen Hg Hio Hrev. pose proof (all_hunk_ids a) as Hids.
  set (files := files_with_hunks (λ _, true) a) in *.
  pose proof (all_action_ok gen Hinj env Hgen ∅ Reject a Hg) as Hok.
  pose proof (files_with_hunks_ok (λ _, true) a) as [Hnd _].
  unfold apply_all_action in *.
  destruct (apply_action_batch env _ Reject [] a) as [a' r] eqn:Hrun.
  destruct Hok as (_ & _ & Hr). destruct (Hr Hio) as [ids ->].
  exists a', ids. split; [done|].
  destruct (reject_files_each env files [] a a' ids Hnd Hrun) as (-> & Hrest & Hin).
  split; [by rewrite app_nil_l, Hids|]. split.
  - intros path Hnone. apply Hrest. intros ([q hs] & -> & Hq)%list_elem_of_fmap.
    apply files_with_hunks_elem in Hq as (Hne & st' & Hst' & ->). simplify_eq/=.
    rewrite filter_b_true in Hne. by rewrite (Hnone st') in Hne.
  - intros path st Hst Hh. destruct (Hin path (hunks st)) as (a0 & a1 & E1 & E2 & Hrej & -> & ->).
    { apply files_with_hunks_elem. split; [done|]. exists st. by rewrite filter_b_true. }
    rewrite Hst in E1.
    destruct (reject_all_batch env path st a0 E1) as (a2 & Ha2 & H1 & H2);
      [by apply (proj1 Hg path st)|done|by eapply Hrev|apply Hio|apply Hio|].
    rewrite Hrej in Ha2. by simplify_eq.
Qed.

Lemma demo_good : good demo_gen ∅ demo_actor2.
Proof.
  apply (reliable_ids demo_gen demo_gen_inj demo_wd AgentOnly demo_fs demo_system2).
  apply demo_steps; intros; exact I || (split; [reflexivity|intros p; split; reflexivity]).
Qed.

Lemma demo_io_succeeds : io_succeeds (demo_env true).
Proof. intros p. split; reflexivity. Qed.

Lemma demo_text_lf ls : Forall clean_line (txt <$> ls) → lf_text (demo_text ls).
Proof.
  intros H. replace (demo_text ls) with (unlines (txt <$> ls)); [by apply unlines_lf_text|].
  unfold demo_text. clear H. induction ls as [|l ls IH]; [done|]. csimpl.
  rewrite unlines_cons, IH. done.
Qed.

Lemma demo_clean c : c ≠ LF → c ≠ CR → clean_line [c].
Proof. intros H1 H2. unfold clean_line. set_solver. Qed.

Lemma demo_reviewable : reviewable (baseline demo_file) (current_content demo_file).
Proof.
  rewrite demo_file_baseline, demo_file_current. split; [|split].
  - apply (demo_text_lf ["a"; "b"; "c"; "d"; "e"]). repeat constructor; by apply demo_clean.
  - apply (demo_text_lf ["a"; "X"; "c"; "d"; "Y"]). repeat constructor; by apply demo_clean.
  - exists (txtln "a"). split; [|done]. vm_compute. by left.
Qed.

Lemma demo_all_reviewable path st :
  file_states demo_actor2 !! path = Some st → reviewable (baseline st) (current_content st).
Proof.
  intros Hst. assert (path = demo_path) as ->.
  { assert (file_states demo_actor2 = {[ demo_path := demo_file ]}) as E by (vm_compute; reflexivity).
    rewrite E in Hst. apply lookup_singleton_Some in Hst. naive_solver. }
  rewrite demo_file_lookup in Hst. simplify_eq. apply demo_reviewable.
Qed.

Lemma reject_all_restores_witness :
  ∃ a' ids, apply_all_action (demo_env true) Reject demo_actor2 = (a', Ok ids)
    ∧ fs a' !! demo_path = Some (RegularFile demo_base).
Proof.
  destruct (reject_all_restores demo_gen (demo_env true) demo_actor2) as (a' & ids & Hrun & _ & _ & H).
  - apply demo_gen_inj.
  - reflexivity.
  - apply demo_good.
  - apply demo_io_succeeds.
  - intros path st Hst _. by apply (demo_all_reviewable path).
  - exists a', ids. split; [exact Hrun|].
    specialize (H demo_path demo_file demo_file_lookup demo_file_nonempty). destruct H as [_ H].
    rewrite demo_file_baseline in H. exact H.
Defined.

(** Accepting everything adopts every pending change.  Under the same
    hypotheses on hunks and texts, [AllAction] with [Accept] cannot fail, does
    not touch the disk, and answers the identifiers of all pending hunks; the
    baseline of each file that had hunks becomes its current content (a deleted
    file's becomes empty) and no hunk is left. *)
Theorem accept_all_adopts `{D : DiffEngine} `{!DiffLaws D} (env : Env) (a : Actor) :
  files_ok (file_states a) →
  (∀ path st, file_states a !! path = Some st → hunks st ≠ [] →
     reviewable (baseline st) (current_content st)) →
  ∃ a' ids, apply_all_action env Accept a = (a', Ok ids) ∧ fs a' = fs a
    ∧ ids = concat ((λ f : Path * list Hunk, hunk_id <$> f.2) <$> files_with_hunks (λ _, true) a)
    ∧ ∀ path st, file_states a !! path = Some st →
        if decide (hunks st = []) then file_states a' !! path = Some st
        else
          file_states a' !! path
          = Some (mkFileState (accepted_baseline (current_content st)) (current_content st) []
                    (is_agent_file st) true).
Proof.
  intros HF Hrev. set (files := files_with_hunks (λ _, true) a).
  pose proof (files_with_hunks_ok (λ _, true) a) as [Hnd _].
  unfold apply_all_action.
  destruct (apply_action_batch env _ Accept [] a) as [a' r] eqn:Hrun.
  destruct (accept_files_each env files [] a a' r Hnd Hrun) as (-> & Hfs & Hrest & Hin).
  eexists a', _. split; [done|]. split; [done|]. split; [done|].
  intros path st Hst. case_decide as Hh.
  - rewrite (Hrest path); [done|]. intros ([q hs] & -> & Hq)%list_elem_of_fmap.
    apply files_with_hunks_elem in Hq as (Hne & st' & Hst' & ->). simplify_eq/=.
    by rewrite Hh in Hne.
  - destruct (Hin path (hunks st)) as (a0 & E1 & ->).
    { apply files_with_hunks_elem. split; [done|]. exists st. by rewrite filter_b_true. }
    rewrite Hst in E1. apply accept_all_batch; [done|done|by apply (HF path st)|done|by eapply Hrev].
Qed.

Lemma accept_all_adopts_witness :
  ∃ a' ids, apply_all_action (demo_env true) Accept demo_actor2 = (a', Ok ids)
    ∧ file_states a' !! demo_path
      = Some (mkFileState (Full demo_edit2) (Full demo_edit2) [] (is_agent_file demo_file) true).
Proof.
  destruct (accept_all_adopts (demo_env true) demo_actor2) as (a' & ids & Hrun & _ & _ & H).
  - apply demo_good.
  - intros path st Hst _. by apply (demo_all_reviewable path).
  - exists a', ids. split; [exact Hrun|].
    specialize (H demo_path demo_file demo_file_lookup).
    rewrite decide_False in H by apply demo_file_nonempty.
    rewrite demo_file_current in H. exact H.
Defined.

(** Rejecting a turn reverts exactly that turn's changes.  When
    [TurnAction] with [Reject] succeeds, the file on disk is made of the
    unchanged lines, of the old lines of every changed run whose hunk belongs
    to the turn, and of the new lines of the other runs; the baseline stays. *)
Theorem reject_turn_mixes `{D : DiffEngine} `{!DiffLaws D} (env : Env) (a a' : Actor) (i : nat)
    (ids : list HunkId) (path : Path) (st : FileHunkState) (b c : text) :
  apply_turn_action env i Reject a = (a', Ok ids) →
  file_states a !! path = Some st → baseline st = Full b → current_content st = Full c →
  file_ok path st →
  any_b (λ h, bool_decide (prompt_index (hunk_source h) = Some i)) (hunks st) = true →
  lf_text b → lf_text c → kept_line (diff_lines b c) → io_write (io env) path = true →
  ∃ sel,
    Forall2 (λ run h, sel run = bool_decide (prompt_index (hunk_source h) = Some i))
      (raw_hunks 1 1 None (diff_lines b c)) (hunks st)
    ∧ fs a' !! path = Some (RegularFile (concat (mix New sel 1 1 None (diff_lines b c))))
    ∧ ∃ st', file_states a' !! path = Some st' ∧ baseline st' = Full b
        ∧ current_content st' = Full (concat (mix New sel 1 1 None (diff_lines b c))).
Proof.
  intros Hrun Hst Eb Ec Hok Hany Hb Hc Hk Hw. unfold apply_turn_action in Hrun.
  set (p := λ h, bool_decide (prompt_index (hunk_source h) = Some i)) in *.
  pose proof (files_with_hunks_ok p a) as [Hnd _].
  destruct (reject_files_each env _ [] a a' ids Hnd Hrun) as (_ & _ & Hin).
  apply any_b_true in Hany as (h & Hh & Hp).
  assert (filter_b p (hunks st) ≠ []) as Hne.
  { intros E. assert (h ∈ filter_b p (hunks st)) as H by (by apply elem_of_filter_b).
    rewrite E in H. by apply not_elem_of_nil in H. }
  destruct (Hin path (filter_b p (hunks st))) as (a0 & a1 & E1 & E2 & Hrej & HF & Hfs).
  { apply files_with_hunks_elem. split; [done|]. by exists st. }
  rewrite Hst in E1.
  destruct (content_hunks_cases path st h Hok Hh) as [(b' & c' & Eb' & Ec' & Hd)|[(b' & ? & ? & _)|(c' & ? & ? & _)]];
    [|congruence..]. rewrite Eb in Eb'. rewrite Ec in Ec'.
  injection Eb' as <-. injection Ec' as <-.
  destruct (reject_selected_batch env path b c st p a0 E1 Eb Ec Hd Hne Hb Hc Hk Hw)
    as (a2 & sel & hs' & Ha2 & Hsel & H1 & H2).
  rewrite Hrej in Ha2. injection Ha2 as <-. exists sel. split; [done|]. split; [congruence|].
  eexists. split; [by rewrite HF|done].
Qed.

Lemma demo_turn_result :
  (apply_turn_action (demo_env true) 1 Reject demo_actor2).2 = Ok ["0"].
Proof. vm_compute. reflexivity. Qed.

(** Rejecting turn 1 of the example keeps the user's change of line 5. *)
Lemma reject_turn_mixes_witness :
  ∃ sel,
    Forall2 (λ run h, sel run = bool_decide (prompt_index (hunk_source h) = Some 1))
      (raw_hunks 1 1 None (diff_lines demo_base demo_edit2)) (hunks demo_file)
    ∧ fs (apply_turn_action (demo_env true) 1 Reject demo_actor2).1 !! demo_path
      = Some (RegularFile (concat (mix New sel 1 1 None (diff_lines demo_base demo_edit2)))).
Proof.
  pose proof demo_reviewable as Hrev. rewrite demo_file_baseline, demo_file_current in Hrev.
  destruct Hrev as (Hb & Hc & Hk).
  destruct (apply_turn_action (demo_env true) 1 Reject demo_actor2) as [a' r] eqn:Hrun.
  pose proof demo_turn_result as Hr. rewrite Hrun in Hr. cbn [snd] in Hr. subst r.
  destruct (reject_turn_mixes (demo_env true) demo_actor2 a' 1 _ demo_path demo_file
    demo_base demo_edit2 Hrun demo_file_lookup demo_file_baseline demo_file_current)
    as (sel & H1 & H2 & _).
  - exact (proj1 demo_good demo_path demo_file (not_elem_of_empty _) demo_file_lookup).
  - vm_compute. reflexivity.
  - exact Hb.
  - exact Hc.
  - exact Hk.
  - reflexivity.
  - exists sel. split; [exact H1|exact H2].
Defined.

(** Recomputing a file whose contents did not change keeps every hunk with
    its identifier, place and text; hunks of an agent keep their turn when the
    trigger is external; and no event is sent, provided no two of the hunks
    have the same texts. *)
Theorem recompute_keeps_hunks `{D : DiffEngine} (env : Env) (a : Actor) (path : Path)
    (source : HunkSource) (st : FileHunkState) :
  file_states a !! path = Some st →
  is_content_diff path (baseline st) (current_content st) (hunks st) →
  NoDup (hunk_id <$> hunks st) →
  let a' := recompute_hunks env path (Some (current_content st)) source a in
  ∃ st', file_states a' !! path = Some st'
    ∧ baseline st' = baseline st ∧ current_content st' = current_content st
    ∧ Forall2 (λ n o, hunk_id n = hunk_id o ∧ hunk_core n = hunk_core o
                 ∧ (is_external source = true → is_agent_edit (hunk_source o) = true →
                    hunk_source n = hunk_source o)) (hunks st') (hunks st)
    ∧ (NoDup (hunk_texts <$> hunks st) → events a' = events a).
Proof.
  intros Hst Hd Hnd. cbn zeta.
  destruct (recompute_stable env path source a st Hst Hd Hnd) as (fresh & Hlen & Hcore & Hsrc & HF & Hev).
  eexists. rewrite HF, lookup_insert_eq. split; [done|]. simpl. split; [done|]. split; [done|].
  split; [by eapply zip_continue_spec|].
  intros Htexts. rewrite Hev, unchanged_no_events; [by rewrite app_nil_r|by apply zip_continue_core|done].
Qed.

Lemma recompute_keeps_hunks_witness :
  NoDup (hunk_texts <$> hunks demo_file)
  ∧ events (recompute_hunks (demo_env true) demo_path (Some (current_content demo_file)) External
              demo_actor2) = events demo_actor2.
Proof.
  assert (NoDup (hunk_texts <$> hunks demo_file)) as Htexts.
  { apply (bool_decide_unpack _). vm_compute. exact I. }
  split; [exact Htexts|].
  destruct (recompute_keeps_hunks (demo_env true) demo_actor2 demo_path External demo_file)
    as (st' & _ & _ & _ & _ & H).
  - apply demo_file_lookup.
  - destruct (proj1 demo_good demo_path demo_file (not_elem_of_empty _) demo_file_lookup) as [E|H];
      [destruct (demo_file_nonempty E)|exact H].
  - apply (bool_decide_unpack _). vm_compute. exact I.
  - exact (H Htexts).
Defined.

(** ** Batches, snapshots *)

(** A coalesced batch is determined by the commands drained.  A path is
    absent when no notification concerns it, [Deleted] when its last one is a
    deletion, and otherwise [DeletedThenChanged] or [Changed] as one of them is
    a deletion or none; the flags say whether a refresh was requested; the
    other commands are kept in order. *)
Theorem coalesce_exact (first : HunkTrackerCommand) (queue : list HunkTrackerCommand) :
  let batch := drain_and_coalesce first queue in
  (∀ p, file_actions batch !! p = coalesced (path_events p (first :: queue)))
  ∧ refresh_all batch = any_b is_refresh_all (first :: queue)
  ∧ refresh_dirty batch = any_b is_refresh_dirty (first :: queue)
  ∧ other_commands batch = filter_b (λ c, negb (is_coalescable c)) (first :: queue).
Proof.
  cbn zeta. split; [intros p; apply (batch_actions (first :: queue))|].
  destruct (batch_flags (first :: queue)) as [H1 H2].
  split; [exact H1|]. split; [exact H2|]. apply drain_other.
Qed.

(** A snapshot of a tracker restores it.  Restoring into any tracker the
    snapshot of one that satisfies the invariants gives it the files, the turn
    index and the statistics of the first, and such a snapshot is one a client
    may restore at any later time. *)
Theorem snapshot_restores `{D : DiffEngine} (gen : nat → HunkId) (a b : Actor) :
  good gen ∅ a → seed a <= seed b →
  let b' := restore_snapshot (take_snapshot a) b in
  file_states b' = file_states a ∧ turn_index b' = turn_index a
  ∧ session_stats b' = session_stats a
  ∧ take_snapshot b' = take_snapshot a
  ∧ good gen ∅ b' ∧ cmd_ok gen b (RestoreState (take_snapshot a)).
Proof.
  intros Hg Hseed. cbn zeta. pose proof (restore_take_states a) as E.
  assert (good gen ∅ (restore_snapshot (take_snapshot a) b)) as Hg'.
  { destruct Hg as [HF Hids]. unfold good, restore_snapshot. simpl in *. rewrite E.
    split; [done|]. by eapply ids_inv_mono. }
  split; [exact E|]. split; [done|]. split; [done|]. split; [|split; [done|exact Hg']].
  unfold take_snapshot at 1. unfold restore_snapshot. simpl in *. by rewrite E.
Qed.

Lemma snapshot_restores_witness :
  file_states (restore_snapshot (take_snapshot demo_actor2) demo_actor2) = file_states demo_actor2.
Proof. apply (snapshot_restores demo_gen demo_actor2 demo_actor2); [apply demo_good|reflexivity]. Defined.

(** Moving a snapshot from one directory to another and back yields the
    snapshot, when its files lie below the first directory and its hunks carry
    the paths of their files. *)
Theorem rewrite_paths_roundtrip (cwd cwd' : Path) (s : HunkTrackerSnapshot) :
  (∀ path snap, snap_file_states s !! path = Some snap →
     below cwd path ∧ ∀ h, h ∈ snap_hunks snap → hunk_path h = path) →
  rewrite_paths cwd' cwd' cwd (rewrite_paths cwd cwd cwd' s) = s.
Proof. apply rewrite_paths_back. Qed.

(** The snapshot of the example, moved to a worktree and back. *)
Definition demo_hunk : Hunk :=
  mkHunk "0" demo_path (mkLineInfo 0 0 1 1) (AgentEdit 1) None demo_edit1 None 0 false.
Definition demo_snapshot : HunkTrackerSnapshot :=
  mkSnapshot {[ demo_path := mkFileSnapshot Missing (Full demo_edit1) [demo_hunk] true false ]}
    {[ 1 := {[ "0" ]} ]} default_stats.

Lemma rewrite_paths_roundtrip_witness :
  rewrite_paths ["/"; "t"] ["/"; "t"] demo_wd (rewrite_paths demo_wd demo_wd ["/"; "t"] demo_snapshot)
  = demo_snapshot.
Proof.
  apply (rewrite_paths_roundtrip demo_wd ["/"; "t"] demo_snapshot).
  intros path snap H. unfold demo_snapshot in H. cbn [snap_file_states] in H.
  apply lookup_singleton_Some in H as [<- <-]. split; [by exists ["f"]|].
  by intros h ->%list_elem_of_singleton.
Defined.

(** ** Error paths, attribution, summary *)

(** A rejection whose file operation fails reports the error and leaves
    the file, its hunks and the disk as they were; but the hunk has been
    counted as rejected and taken out of the turn index, so it stays pending
    and is no longer reported for its turn. *)
Theorem reject_failure_keeps_file `{D : DiffEngine} (env : Env) (a : Actor) (id : HunkId)
    (path : Path) (h : Hunk) (st : FileHunkState) :
  find_in_files id (map_to_list (file_states a)) = Some (path, h) →
  file_states a !! path = Some st → file_ok path st →
  io_write (io env) path = false → io_remove (io env) path = false →
  ∃ e a', apply_hunk_action env id Reject a = (a', Err e)
    ∧ (e = WriteError path ∨ e = DeleteError path)
    ∧ file_states a' = file_states a ∧ fs a' = fs a ∧ events a' = events a
    ∧ session_stats a' = update_session_stats (line_info h) false (session_stats a)
    ∧ turn_index a' = remove_from_turn_index id (hunk_source h) (turn_index a).
Proof.
  intros Hfind Hst Hok Hw Hr. unfold apply_hunk_action. rewrite Hfind.
  apply find_in_files_spec in Hfind as [<- (st' & Hst' & Hh)].
  rewrite Hst in Hst'. injection Hst' as <-. cbn zeta. unfold reject_hunk, reject_action. simpl. rewrite Hst.
  destruct (content_hunks_cases path st h Hok Hh)
    as [(b & c & -> & -> & _)|[(b & -> & -> & _)|(c & -> & -> & _)]];
    unfold fs_write, fs_remove; rewrite ?Hw, ?Hr; eexists _, _; (split; [reflexivity|]); eauto 10.
Qed.

Lemma reject_failure_keeps_file_witness :
  ∃ e a', apply_hunk_action (demo_env false) "0" Reject demo_actor2 = (a', Err e)
    ∧ file_states a' = file_states demo_actor2
    ∧ length (get_hunks_for_turn demo_actor2 1) = 1.
Proof.
  destruct (find_in_files "0" (map_to_list (file_states demo_actor2))) as [[p h]|] eqn:Ef.
  2:{ exfalso. revert Ef. vm_compute. discriminate. }
  assert (p = demo_path) as ->.
  { assert (fst <$> find_in_files "0" (map_to_list (file_states demo_actor2)) = Some demo_path) as E
      by (vm_compute; reflexivity). rewrite Ef in E. by injection E. }
  destruct (reject_failure_keeps_file (demo_env false) demo_actor2 "0" demo_path h demo_file)
    as (e & a' & Hrun & _ & HF & _).
  - exact Ef.
  - apply demo_file_lookup.
  - exact (proj1 demo_good demo_path demo_file (not_elem_of_empty _) demo_file_lookup).
  - reflexivity.
  - reflexivity.
  - exists e, a'. split; [exact Hrun|]. split; [exact HF|]. vm_compute. reflexivity.
Defined.

Lemma preserve_ids_agent i old C fresh :
  Forall (λ h, hunk_source h = AgentEdit i) fresh →
  Forall (λ h, hunk_source h = AgentEdit i) (preserve_ids old C fresh).
Proof.
  intros H. revert C. induction H as [|h fresh Hh _ IH]; intros C; simpl; [constructor|].
  destruct (find_matching_old_hunk h old) as [m|]; [|by constructor].
  case_decide; [by constructor|]. rewrite Hh. simpl. by constructor.
Qed.

Lemma recompute_agent `{D : DiffEngine} env path cur i a st :
  file_states (recompute_hunks env path cur (AgentEdit i) a) !! path = Some st →
  Forall (λ h, hunk_source h = AgentEdit i) (hunks st).
Proof.
  destruct (file_states a !! path) as [st0|] eqn:Hst0.
  - destruct (recompute_file env path cur (AgentEdit i) a st0 Hst0) as (hs & n & Ehs & -> & _).
    rewrite lookup_insert_eq. intros; simplify_eq/=. apply preserve_ids_agent.
    pose proof (content_hunks_source env path (baseline st0) (default missing_content cur)
      (AgentEdit i) (seed a)) as H. by rewrite Ehs in H.
  - unfold recompute_hunks. rewrite Hst0. congruence.
Qed.

(** After an agent's write of diffable text in turn [i], the file is
    tracked as an agent file with that content, its hunks are exactly the diff
    from its baseline, and all of them, whoever made them, are attributed to
    turn [i]; the other files are unchanged. *)
Theorem agent_write_attributes `{D : DiffEngine} (env : Env) (a : Actor) (path : Path)
    (content : text) (i : nat) (prev : option text) :
  is_diffable (classify_string content) = true →
  let a' := record_agent_write env path content i prev a in
  (∃ st, file_states a' !! path = Some st ∧ current_content st = Full content
     ∧ is_agent_file st = true ∧ is_content_diff path (baseline st) (Full content) (hunks st)
     ∧ Forall (λ h, hunk_source h = AgentEdit i) (hunks st))
  ∧ ∀ q, q ≠ path → file_states a' !! q = file_states a !! q.
Proof.
  intros Hd. cbn zeta. unfold record_agent_write. rewrite Hd. cbn [negb].
  assert (classify_string content = Full content) as Ec.
  { revert Hd. unfold classify_string. by repeat case_match. }
  set (a1 := match file_states a !! path with None => _ | Some _ => _ end).
  assert ((∃ st, file_states a1 !! path = Some st ∧ is_agent_file st = true)
    ∧ ∀ q, q ≠ path → file_states a1 !! q = file_states a !! q) as [(st & Hst & Hag) Hoth].
  { unfold a1. destruct (file_states a !! path) as [st|] eqn:E.
    - simpl. rewrite lookup_insert_eq. split; [by eexists|]. intros q Hq. by rewrite lookup_insert_ne.
    - pose proof (read_baseline_files env path a) as HF.
      destruct (read_baseline env path a) as [b a0]. simpl in *. rewrite lookup_insert_eq.
      split; [by eexists|]. intros q Hq. by rewrite lookup_insert_ne, HF. }
  split.
  - destruct (recompute_file env path (Some (classify_string content)) (AgentEdit i) a1 st Hst)
      as (hs & n & Ehs & HF & _).
    eexists. split; [rewrite HF; apply lookup_insert_eq|]. simpl. split; [done|]. split; [done|].
    split; [rewrite <-Ec; by eapply recomputed_diff|].
    eapply (recompute_agent env path (Some (classify_string content)) i a1 (mkFileState _ _ _ _ _)).
    rewrite HF. apply lookup_insert_eq.
  - intros q Hq. by rewrite recompute_other, Hoth.
Qed.

Lemma agent_write_attributes_witness :
  ∃ st, file_states demo_actor1 !! demo_path = Some st ∧ current_content st = Full demo_edit1
    ∧ is_agent_file st = true
    ∧ is_content_diff demo_path (baseline st) (Full demo_edit1) (hunks st)
    ∧ Forall (λ h, hunk_source h = AgentEdit 1) (hunks st).
Proof.
  apply (agent_write_attributes (demo_env true) demo_start demo_path demo_edit1 1 (Some demo_base)).
  vm_compute. reflexivity.
Defined.

(** The session summary counts every pending hunk once: those attributed
    to a turn plus the unattributed ones are all pending hunks, while there are
    fewer than 2^64 of them; and the turns are listed in order. *)
Theorem summary_counts_hunks (a : Actor) :
  (Z.of_nat (length (get_all_hunks a)) <= u64_max)%Z →
  sum_pending_hunks (compute_session_summary a)
  + sum_unattributed_pending (compute_session_summary a) = length (get_all_hunks a)
  ∧ StronglySorted (λ t t', turn_prompt_index t <= turn_prompt_index t')
      (sum_turns (compute_session_summary a)).
Proof. apply summary_counts. Qed.

Lemma summary_counts_hunks_witness :
  sum_pending_hunks (compute_session_summary demo_actor2)
  + sum_unattributed_pending (compute_session_summary demo_actor2)
  = length (get_all_hunks demo_actor2).
Proof.
  apply (summary_counts_hunks demo_actor2).
  assert (length (get_all_hunks demo_actor2) = 2) as -> by (vm_compute; reflexivity).
  vm_compute. discriminate.
Defined.

(** The hunks of a diff are in file order on both sides and no two of them
    overlap, so that the actions can patch them one after the other. *)
Theorem compute_hunks_ordered `{D : DiffEngine} (uuid : nat → HunkId) (now : Z) (path : Path)
    (b c : text) (source : HunkSource) (n : nat) :
  StronglySorted (λ h h', hunks_overlap h h' = false ∧ hunks_overlap h' h = false
      ∧ old_start (line_info h) < old_start (line_info h')
      ∧ new_start (line_info h) < new_start (line_info h'))
    (compute_hunks uuid now path b c source n).1.
Proof.
  pose proof (is_diff_of_disjoint path b c _ (compute_hunks_core uuid now path b c source n)) as H.
  induction H as [|h l Hs IH Hall]; constructor; [done|].
  eapply Forall_impl; [done|]. intros h' [Ho Hst]. rewrite (hunks_overlap_symm h' h).
  split; [done|]. split; [done|]. split; [apply (Hst Old)|apply (Hst New)].
Qed.
