(* ===== verification/TrackerSync.v ===== *)
(** * Hunk tracker: a notification brings a file up to date

    What one handled file notification leaves behind, on every path through
    [process_file_change] of [actor/mutations.rs]; and runs in which the tracker departs
    from its documentation. *)

From S2P Require Import Prelude Text HunkTypes HunkDiff HunkDiffProps FileUtils Tracker.
From S2P Require Import TrackerActions TrackerMutations TrackerQueries TrackerActor TrackerInv.
From S2P Require Import TrackerOps TrackerTheorems.

#[local] Arguments take_baseline : simpl never.

Section sync.
Context `{D : DiffEngine} (env : Env).

(** A file state whose hunks are the diff of its contents, with this content
    and this authorship. *)
Definition synced (path : Path) (cur : FileContentState) (agent : bool) (st : FileHunkState) : Prop :=
  current_content st = cur ∧ is_agent_file st = agent
  ∧ is_content_diff path (baseline st) cur (hunks st).

Lemma recompute_synced path cur source a st :
  file_states a !! path = Some st →
  ∃ st', file_states (recompute_hunks env path cur source a) !! path = Some st'
    ∧ baseline st' = baseline st
    ∧ synced path (default missing_content cur) (is_agent_file st) st'.
Proof.
  intros Hst. destruct (recompute_file env path cur source a st Hst) as (hs & n & Ehs & HF & _).
  eexists. rewrite HF, lookup_insert_eq. split; [done|]. split; [done|].
  split; [done|]. split; [done|]. by eapply recomputed_diff.
Qed.

Lemma track_file_lookup path b c agent a :
  file_states (track_file path b c agent a) !! path = Some (new_file_state b c agent).
Proof. simpl. apply lookup_insert_eq. Qed.

Lemma non_diffable_synced path b c agent :
  is_diffable b = false → is_diffable c = false →
  is_content_diff path b c (hunks (new_file_state b c agent)).
Proof. by destruct b, c. Qed.

Lemma same_content_synced path c : is_content_diff path c c [].
Proof.
  destruct c; simpl; try done. unfold is_diff_of, compute_hunks. by rewrite decide_True.
Qed.

(** Reading a baseline changes only what is known of the repository. *)
Lemma take_baseline_frame path pre a :
  file_states (take_baseline env path pre a).2 = file_states a
  ∧ mode (take_baseline env path pre a).2 = mode a
  ∧ fs (take_baseline env path pre a).2 = fs a
  ∧ in_dirty_cache (take_baseline env path pre a).2 path = in_dirty_cache a path.
Proof. unfold take_baseline, read_baseline, in_dirty_cache, cache_key. by repeat case_match. Qed.

Lemma is_ignored_spec path b a :
  is_ignored env path b a = true →
  b = Missing ∧ in_dirty_cache a path = false.
Proof.
  unfold is_ignored. intros H. by breflect.
Qed.

(** One handled change of a tracked file. *)
Lemma tracked_synced path a st :
  file_states a !! path = Some st →
  let disk := read_file_bounded (io env) (fs a) path in
  ∃ st', file_states (handle_file_change env path a) !! path = Some st'
    ∧ synced path (current_content st') (is_agent_file st) st'
    ∧ (current_content st' = disk
       ∨ (baseline_accepted st = true ∧ baseline st' = current_content st'
          ∧ content_matches_head a path disk (current_content st') = true)).
Proof.
  intros Hst. cbn zeta. unfold handle_file_change, process_file_change. rewrite Hst.
  set (disk := read_file_bounded (io env) (fs a) path).
  assert (∀ a1, file_states a1 = file_states a →
    ∃ st', file_states (recompute_hunks env path (Some disk) (external_source path a1) a1) !! path
             = Some st'
      ∧ synced path (current_content st') (is_agent_file st) st' ∧ current_content st' = disk) as Hrec.
  { intros a1 HF.
    destruct (recompute_synced path (Some disk) (external_source path a1) a1 st)
      as (st' & E & _ & Hc & Hr); [by rewrite HF|].
    exists st'. rewrite Hc. by split. }
  destruct (baseline_accepted st) eqn:Hacc; [|destruct (Hrec a eq_refl) as (st' & ? & ? & ?); eauto].
  destruct (take_baseline_frame path None a) as (HF & _ & _ & Hdc).
  destruct (take_baseline env path None a) as [head a1]. simpl in HF, Hdc.
  destruct (content_matches_head a1 path disk head) eqn:Hm;
    [|destruct (Hrec a1 HF) as (st' & ? & ? & ?); eauto].
  simpl. rewrite lookup_insert_eq. eexists. split; [done|]. split.
  - split; [done|]. split; [done|]. apply same_content_synced.
  - right. split; [done|]. split; [done|].
    unfold content_matches_head in *. by rewrite <-Hdc.
Qed.

(** One handled change of an untracked file. *)
Lemma untracked_synced path a :
  file_states a !! path = None → mode a = AllDirty →
  let disk := read_file_bounded (io env) (fs a) path in
  match file_states (handle_file_change env path a) !! path with
  | None => (read_baseline env path a).1 = Missing ∧ in_dirty_cache a path = false
  | Some st =>
      synced path (current_content st) false st
      ∧ (current_content st = disk
         ∨ is_diffable disk = false ∧ is_diffable (baseline st) = true
           ∧ current_content st = Missing)
  end.
Proof.
  intros Hst Hmode. cbn zeta. unfold handle_file_change, process_file_change, track_non_diffable.
  rewrite Hst, decide_False, decide_True by (rewrite Hmode; done).
  change (read_baseline env path a).1 with (take_baseline env path None a).1.
  set (disk := read_file_bounded (io env) (fs a) path).
  destruct (take_baseline_frame path None a) as (HF & _ & _ & Hdc).
  destruct (take_baseline env path None a) as [b a1]. simpl in HF, Hdc |- *.
  destruct (is_ignored env path b a1) eqn:Hig.
  { apply is_ignored_spec in Hig as [-> Hig]. rewrite Hdc in Hig.
    destruct (is_diffable disk); simpl; by rewrite HF, Hst. }
  destruct (is_diffable disk) eqn:Hd; simpl.
  - destruct (recompute_synced path (Some disk)
      (external_source path (track_file path b missing_content false a1))
      _ _ (track_file_lookup path b missing_content false a1)) as (st' & -> & _ & Hc & Hr).
    rewrite Hc. split; [done|by left].
  - destruct (is_diffable b) eqn:Hb.
    + destruct (recompute_synced path None External _ _
        (track_file_lookup path b disk false a1)) as (st' & -> & Eb & Hc & Hr).
      rewrite Hc. split; [done|]. right. by rewrite Eb.
    + rewrite track_file_lookup. split; [|by left].
      split; [done|]. split; [done|]. by apply non_diffable_synced.
Qed.

End sync.

(** A notification brings a file up to date.  Once a change of a path is
    handled, in [AllDirty] mode or for a tracked file, the hunks of the file
    are exactly the diff of its two contents, and its content is the one read
    from disk, with two exceptions of the code: an untracked file whose content
    cannot be diffed although its HEAD version can is recorded as missing, and
    a file restored to HEAD after an acceptance takes HEAD as both contents.
    Only a file that is not in HEAD and not reported dirty stays untracked. *)
Theorem file_change_synced `{D : DiffEngine} (env : Env) (a : Actor) (path : Path) :
  mode a = AllDirty ∨ is_Some (file_states a !! path) →
  let disk := read_file_bounded (io env) (fs a) path in
  match file_states a !! path, file_states (handle_file_change env path a) !! path with
  | None, None => (read_baseline env path a).1 = Missing ∧ in_dirty_cache a path = false
  | Some _, None => False
  | old, Some st =>
      synced path (current_content st) (default false (is_agent_file <$> old)) st
      ∧ (current_content st = disk
         ∨ old = None ∧ is_diffable disk = false ∧ is_diffable (baseline st) = true
           ∧ current_content st = Missing
         ∨ (baseline_accepted <$> old = Some true ∧ baseline st = current_content st
            ∧ content_matches_head a path disk (current_content st) = true))
  end.
Proof.
  intros Hmode. cbn zeta. destruct (file_states a !! path) as [st|] eqn:Hst.
  - destruct (tracked_synced env path a st Hst) as (st' & -> & Hs & [Hc|(? & ? & ?)]);
      (split; [done|]); [by left|right; right].
    split; [simpl; by f_equal|done].
  - destruct Hmode as [Hmode|[? ?]]; [|done].
    pose proof (untracked_synced env path a Hst Hmode) as H.
    destruct (file_states (handle_file_change env path a) !! path); [|done].
    destruct H as (Hs & [Hc|Hc]); (split; [done|]); [by left|right; left; by split].
Qed.

(** The user's edit of the agent's file, notified: the file's hunks are the
    diff from the committed text to what is on disk. *)
Lemma file_change_synced_witness :
  match file_states (handle_file_change (demo_env true) demo_path demo_actor1) !! demo_path with
  | Some st => current_content st = Full demo_edit2
      ∧ is_content_diff demo_path (baseline st) (current_content st) (hunks st)
  | None => False
  end.
Proof.
  pose proof (file_change_synced (demo_env true) demo_actor1 demo_path) as H.
  assert (mode demo_actor1 = AllDirty ∨ is_Some (file_states demo_actor1 !! demo_path)) as Hm.
  { right. eexists. vm_compute. reflexivity. }
  specialize (H Hm). cbn zeta in H.
  destruct (file_states demo_actor1 !! demo_path) as [st0|] eqn:E0; [|destruct Hm as [?|[? ?]]; discriminate].
  destruct (file_states (handle_file_change _ _ _) !! demo_path) as [st|] eqn:E; [|exact H].
  split.
  - assert (current_content <$> file_states (handle_file_change (demo_env true) demo_path demo_actor1)
      !! demo_path = Some (Full demo_edit2)) as Hc by (vm_compute; reflexivity).
    rewrite E in Hc. injection Hc as Hc. exact Hc.
  - apply H.
Defined.

(** ** Attribution *)

Definition nine : list string := ["a"; "b"; "c"; "d"; "e"; "f"; "g"; "h"; "i"].

(** An agent's hunk on line 2 (turn 1) and the user's on lines 5 and 8. *)
Definition mixed_env : Env :=
  mkEnv demo_gen 0 (demo_io true) Some (λ _, Some demo_wd)
    (λ _, Some (HeadBlob (demo_text nine))) true (λ _, Some []) (Some "c0") None.
Definition mixed_fs : Fs :=
  {[ demo_path := RegularFile (demo_text ["a"; "X"; "c"; "d"; "U"; "f"; "g"; "V"; "i"]) ]}.
Definition mixed_actor : Actor :=
  handle_file_change mixed_env demo_path
    (record_agent_write mixed_env demo_path
       (demo_text ["a"; "X"; "c"; "d"; "e"; "f"; "g"; "h"; "i"]) 1 None
       (new_actor demo_wd AgentOnly 0 mixed_fs)).

Definition sources_of (a : Actor) : list HunkSource :=
  hunk_source <$> get_hunks_for_path a demo_path.

Example mixed_sources :
  sources_of mixed_actor = [AgentEdit 1; ExternalEditOnAgentFile; ExternalEditOnAgentFile].
Proof. vm_compute. reflexivity. Qed.

(** Accepting the user's last hunk attributes the user's other hunk to the
    agent's turn, so that rejecting the turn afterwards reverts the user's
    line 5. *)
Definition after_accept : Actor :=
  match get_hunks_for_path mixed_actor demo_path with
  | [_; _; h] => (apply_hunk_action mixed_env (hunk_id h) Accept mixed_actor).1
  | _ => mixed_actor
  end.

Example accept_misattributes_user_hunk : sources_of after_accept = [AgentEdit 1; AgentEdit 1].
Proof. vm_compute. reflexivity. Qed.

Example reject_turn_reverts_user_line :
  fs (apply_turn_action mixed_env 1 Reject after_accept).1 !! demo_path
  = Some (RegularFile (demo_text ["a"; "b"; "c"; "d"; "e"; "f"; "g"; "V"; "i"])).
Proof. vm_compute. reflexivity. Qed.

(** A later write by the agent elsewhere in the file attributes the user's
    hunks to the agent's new turn. *)
Example agent_write_misattributes :
  sources_of (record_agent_write mixed_env demo_path
    (demo_text ["A"; "X"; "c"; "d"; "U"; "f"; "g"; "V"; "i"]) 2 None mixed_actor)
  = [AgentEdit 2; AgentEdit 2; AgentEdit 2].
Proof. vm_compute. reflexivity. Qed.

(** ** Patching *)

(** Removing the second of two lines, the first being blank, loses the blank
    line's newline. *)
Example patch_loses_blank_line : patch_lines (txtln "" ++ txtln "x") 2 1 [] = [].
Proof. vm_compute. reflexivity. Qed.

(** Patching a line of a CRLF text rewrites the other line endings. *)
Example patch_rewrites_crlf :
  patch_lines (txt "a" ++ [CR; LF] ++ txt "b" ++ [CR; LF]) 2 1 (txtln "c") = demo_text ["a"; "c"].
Proof. vm_compute. reflexivity. Qed.

(** Accepting text into an empty baseline leaves it without its final newline,
    so the hunk stays. *)
Example accept_into_empty : patch_lines [] 1 0 (txtln "a") = txt "a".
Proof. vm_compute. reflexivity. Qed.

(** The header of a hunk's patch gives the start in the old file for the new
    one: after an insertion above it, the new side starts a line later. *)
Example patch_header_new_start :
  take 16 <$> generate_hunk_patch (demo_text nine)
    (demo_text ["0"; "a"; "b"; "c"; "d"; "e"; "f"; "g"; "X"; "i"])
    (mkHunk "h" demo_path (mkLineInfo 8 1 9 1) External (Some (txtln "h")) (txtln "X") None 0 false)
  = Some (txt "@@ -5,5 +5,5 @@" ++ [LF]).
Proof. vm_compute. reflexivity. Qed.

(** ** Events *)

(** Two insertions of the same text: recomputing the unchanged file announces
    that the first one moved to the place of the second. *)
Definition twins_env : Env :=
  mkEnv demo_gen 0 (demo_io true) Some (λ _, Some demo_wd)
    (λ _, Some (HeadBlob (demo_text ["a"; "b"; "c"]))) true (λ _, Some []) (Some "c0") None.
Definition twins_text : text := demo_text ["x"; "a"; "b"; "x"; "c"].
Definition twins_actor : Actor :=
  record_agent_write twins_env demo_path twins_text 1 None
    (new_actor demo_wd AgentOnly 0 {[ demo_path := RegularFile twins_text ]}).

Example unchanged_file_reports_move :
  drop (length (events twins_actor)) (events (handle_file_change twins_env demo_path twins_actor))
  = [HunkMoved demo_path "0" (mkLineInfo 3 0 4 1)].
Proof. vm_compute. reflexivity. Qed.

(** Writing binary content drops the pending hunks of a file without any event
    and leaves them in the turn index. *)
Definition binary_text : text := txt "a" ++ [NUL].
Definition after_binary : Actor :=
  record_agent_write (demo_env true) demo_path binary_text 2 None demo_actor1.

Example binary_write_drops_hunks_silently :
  get_hunks_for_path after_binary demo_path = []
  ∧ events after_binary = events demo_actor1
  ∧ turn_index after_binary !! 1 = Some {[ "0" ]}.
Proof. vm_compute. split; [reflexivity|]. split; reflexivity. Qed.

(** ** Files *)

(** A file committed as text that is binary on disk is recorded as deleted when
    it is first noticed, and rejecting that deletion overwrites it. *)
Definition binary_fs : Fs := {[ demo_path := RegularFile binary_text ]}.
Definition binary_actor : Actor :=
  handle_file_change (demo_env true) demo_path (new_actor demo_wd AllDirty 0 binary_fs).

Example binary_file_recorded_as_deleted :
  (current_content <$> file_states binary_actor !! demo_path) = Some Missing
  ∧ old_text <$> get_hunks_for_path binary_actor demo_path = [Some demo_base]
  ∧ fs (apply_all_action (demo_env true) Reject binary_actor).1 !! demo_path
    = Some (RegularFile demo_base).
Proof. vm_compute. split; [reflexivity|]. split; reflexivity. Qed.

(** A read that returns fewer bytes than a small file has truncates it. *)
Example short_read_truncates :
  read_file_bounded (mkIoEnv (λ _, true) (λ _ _, Some 2) (λ _, true) (λ _, true) (λ _, true)
    (λ _, true) (λ _, false)) {[ demo_path := RegularFile (txtln "hello") ]} demo_path
  = Full (txt "he").
Proof. vm_compute. reflexivity. Qed.

(** After an accepted deletion the baseline is an empty file: rejecting the
    file's re-creation leaves an empty file on disk. *)
Definition deleted_actor : Actor :=
  (apply_all_action (demo_env true) Accept
     (handle_file_deleted (demo_env true) demo_path (new_actor demo_wd AllDirty 0 ∅))).1.
Definition recreated_actor : Actor :=
  record_agent_write (demo_env true) demo_path (txtln "new") 1 None deleted_actor.

Example reject_recreated_leaves_empty_file :
  fs (apply_all_action (demo_env true) Reject recreated_actor).1 !! demo_path
  = Some (RegularFile []).
Proof. vm_compute. reflexivity. Qed.
