(* ===== verification/Breaker.v ===== *)
(** * Circuit breaker

    [ds-circuit-breaker]: the sliding window ([window.rs]), the breaker's state
    machine ([breaker.rs], [state.rs]), and the record and presets of its
    configuration ([config.rs]).  The environment, the registry and the retry
    policy are in [BreakerConfig].

    A breaker is shared between threads, which run its methods concurrently on
    atomics and on a mutex-protected window.  A method is a [prog]: a sequence
    of atomic accesses to the shared record [Inner].  [run] executes a method
    alone; [thread_step] interleaves the accesses of several.  The accesses are
    taken to be sequentially consistent: what is shown to go wrong also goes
    wrong under the weaker orderings of the source.

    An [Instant] is a number of nanoseconds, a [Duration] too.  [f64] values are
    the Standard Library's [spec_float] with the parameters of binary64. *)

From S2P Require Import Prelude Text.
From Stdlib Require Import Floats.SpecFloat.

(** ** [f64] *)

Definition f64_prec : Z := 53.
Definition f64_emax : Z := 1024.

(** [usize as f64], exact up to 2^53. *)
Definition f64_of_nat (n : nat) : spec_float :=
  binary_normalize f64_prec f64_emax (Z.of_nat n) 0 false.
Definition f64_div (a b : spec_float) : spec_float := SFdiv f64_prec f64_emax a b.
(** [a >= b] *)
Definition f64_ge (a b : spec_float) : bool := SFleb b a.
Definition f64_zero : spec_float := S754_zero false.
(** The constant [0.5]. *)
Definition f64_half : spec_float := f64_div (f64_of_nat 1) (f64_of_nat 2).

(** ** Sliding window ([window.rs]) *)

Definition MAX_WINDOW_ENTRIES : nat := Z.to_nat 10000.

Record SlidingWindow := mkWindow {
  entries : list (Z * bool);
  failures : nat;
}.

Definition window_new : SlidingWindow := mkWindow [] 0.

Definition window_push (is_failure : bool) (at_ : Z) (w : SlidingWindow) : SlidingWindow :=
  let '(es, f) :=
    if MAX_WINDOW_ENTRIES <=? length (entries w) then
      match entries w with
      | (_, was_failure) :: es => (es, if was_failure : bool then failures w - 1 else failures w)
      | [] => ([], failures w)
      end
    else (entries w, failures w) in
  mkWindow (es ++ [(at_, is_failure)]) (if is_failure then f + 1 else f).

(** The loop of [evict]. *)
Fixpoint evict_before (cutoff : Z) (es : list (Z * bool)) (f : nat) : SlidingWindow :=
  match es with
  | [] => mkWindow [] f
  | (ts, was_failure) :: es' =>
      if (ts <? cutoff)%Z then evict_before cutoff es' (if was_failure : bool then f - 1 else f)
      else mkWindow es f
  end.

(** [evict]; [instant_min] is the least [Instant] of the platform, below which
    [checked_sub] fails. *)
Definition window_evict (instant_min window now : Z) (w : SlidingWindow) : SlidingWindow :=
  let cutoff := (now - window)%Z in
  if (cutoff <? instant_min)%Z then w else evict_before cutoff (entries w) (failures w).

Definition window_error_rate (w : SlidingWindow) : spec_float :=
  match entries w with
  | [] => f64_zero
  | es => f64_div (f64_of_nat (failures w)) (f64_of_nat (length es))
  end.

Definition sample_count (w : SlidingWindow) : nat := length (entries w).

Definition window_clear (w : SlidingWindow) : SlidingWindow := mkWindow [] 0.

(** ** State, outcome, configuration *)

Inductive BreakerState := Closed | Open | HalfOpen.
Inductive Outcome := Success | Failure.

#[export] Instance BreakerState_eq_dec : EqDecision BreakerState.
Proof. solve_decision. Defined.

(** [state as u8] and [BreakerState::from_u8]. *)
Definition to_u8 (s : BreakerState) : nat :=
  match s with Closed => 0 | Open => 1 | HalfOpen => 2 end.
Definition from_u8 (v : nat) : BreakerState :=
  match v with 0 => Closed | 1 => Open | 2 => HalfOpen | _ => Closed end.

(** [check]'s result: [Err] holds [retry_after]. *)
Inductive admission := Allowed | BreakerOpen (retry_after : Z).

Record BreakerConfig := mkConfig {
  window_duration : Z;
  min_samples : nat;
  error_rate_threshold : spec_float;
  open_duration : Z;
  half_open_max_probes : Z;
  failure_codes : gset Z;
  enabled : bool;
}.

Definition secs (n : Z) : Z := n * 1000000000.

Definition default_failure_codes : gset Z := {[ 429; 500; 502; 503; 504 ]}%Z.

(** The presets. *)
Definition config_server : BreakerConfig :=
  mkConfig (secs 60) 10 f64_half (secs 10) 1 default_failure_codes true.
Definition config_client : BreakerConfig :=
  mkConfig (secs 60) 5 f64_half (secs 60) 1 {[ 401%Z ]} true.

Definition is_failure_status (c : BreakerConfig) (status : Z) : bool :=
  bool_decide (status ∈ failure_codes c).

(** ** The shared record ([CircuitBreakerInner]) *)

(** Calls of the observer. *)
Inductive observation :=
  | on_state_change (old new : BreakerState) (reason : string)
  | on_probe_admission (allowed : bool)
  | on_outcome (o : Outcome) (status : BreakerState).

Record Inner := mkInner {
  state_u8 : nat;
  baseline_at : Z;
  opened_at_millis : Z;
  half_open_probes : Z;
  probe_claimed_at_millis : Z;
  is_open_fast : bool;
  window : SlidingWindow;
  (** outside the record: the clock and the calls the observer received *)
  clock_now : Z;
  observed : list observation;
}.

Definition set_state (v : nat) (s : Inner) : Inner :=
  mkInner v (baseline_at s) (opened_at_millis s) (half_open_probes s) (probe_claimed_at_millis s)
    (is_open_fast s) (window s) (clock_now s) (observed s).
Definition set_opened_at (v : Z) (s : Inner) : Inner :=
  mkInner (state_u8 s) (baseline_at s) v (half_open_probes s) (probe_claimed_at_millis s)
    (is_open_fast s) (window s) (clock_now s) (observed s).
Definition set_probes (v : Z) (s : Inner) : Inner :=
  mkInner (state_u8 s) (baseline_at s) (opened_at_millis s) v (probe_claimed_at_millis s)
    (is_open_fast s) (window s) (clock_now s) (observed s).
Definition set_claimed_at (v : Z) (s : Inner) : Inner :=
  mkInner (state_u8 s) (baseline_at s) (opened_at_millis s) (half_open_probes s) v
    (is_open_fast s) (window s) (clock_now s) (observed s).
Definition set_fast (v : bool) (s : Inner) : Inner :=
  mkInner (state_u8 s) (baseline_at s) (opened_at_millis s) (half_open_probes s)
    (probe_claimed_at_millis s) v (window s) (clock_now s) (observed s).
Definition set_window (v : SlidingWindow) (s : Inner) : Inner :=
  mkInner (state_u8 s) (baseline_at s) (opened_at_millis s) (half_open_probes s)
    (probe_claimed_at_millis s) (is_open_fast s) v (clock_now s) (observed s).
Definition set_clock (v : Z) (s : Inner) : Inner :=
  mkInner (state_u8 s) (baseline_at s) (opened_at_millis s) (half_open_probes s)
    (probe_claimed_at_millis s) (is_open_fast s) (window s) v (observed s).
Definition add_observed (o : observation) (s : Inner) : Inner :=
  mkInner (state_u8 s) (baseline_at s) (opened_at_millis s) (half_open_probes s)
    (probe_claimed_at_millis s) (is_open_fast s) (window s) (clock_now s) (observed s ++ [o]).

(** [with_clock]: the configuration and the record, at time [now]. *)
Definition clamp_probes (c : BreakerConfig) : BreakerConfig :=
  mkConfig (window_duration c) (min_samples c) (error_rate_threshold c) (open_duration c)
    (Z.max (half_open_max_probes c) 1) (failure_codes c) (enabled c).
Definition with_clock (c : BreakerConfig) (now : Z) : BreakerConfig * Inner :=
  (clamp_probes c, mkInner (to_u8 Closed) now 0 0 0 false window_new now []).

(** ** Programs of atomic accesses *)

Inductive prog (A : Type) :=
  | Ret (x : A)
  | Act {B : Set} (f : Inner → Inner * B) (k : B → prog A).
Arguments Ret {A} _.
Arguments Act {A B} _ _.

Fixpoint bind {A B} (p : prog A) (k : A → prog B) : prog B :=
  match p with
  | Ret x => k x
  | Act f k' => Act f (λ x, bind (k' x) k)
  end.

(** Running alone. *)
Fixpoint run {A} (p : prog A) (s : Inner) : Inner * A :=
  match p with
  | Ret x => (s, x)
  | Act f k => let '(s', x) := f s in run (k x) s'
  end.

Declare Scope prog_scope.
Delimit Scope prog_scope with prog.
Bind Scope prog_scope with prog.
Notation "'let*' x := p 'in' q" := (bind p (λ x, q))
  (at level 200, x name, p at level 100, q at level 200, right associativity) : prog_scope.
Notation "p ;; q" := (bind p (λ _, q)) (at level 100, q at level 200, right associativity) : prog_scope.

(** An atomic read, write, read-modify-write. *)
Definition get {A : Set} (f : Inner → A) : prog A := Act (λ s, (s, f s)) Ret.
Definition update (f : Inner → Inner) : prog unit := Act (λ s, (f s, tt)) Ret.
Definition rmw {A : Set} (f : Inner → Inner * A) : prog A := Act f Ret.

(** Wrap-around on the [AtomicUsize] probe counter. *)
Definition usize_wrap (z : Z) : Z := z mod 2 ^ 64.

Section breaker.
Context (instant_min : Z) (config : BreakerConfig).
Local Open Scope prog_scope.

Definition observe (o : observation) : prog unit := update (add_observed o).

Definition state : prog BreakerState := get (λ s, from_u8 (state_u8 s)).

Definition is_open : prog bool := get is_open_fast.

Definition now : prog Z := get clock_now.

(** [saturating_duration_since(..).as_millis() as u64]. *)
Definition millis_at (s : Inner) : Z :=
  as_u64 (Z.max (clock_now s - baseline_at s) 0 / 1000000)%Z.

Definition elapsed_millis : prog Z := get millis_at.

Definition from_millis (n : Z) : Z := n * 1000000.

Definition duration_saturating_sub (a b : Z) : Z := Z.max (a - b) 0.

Definition cas_state (from to : BreakerState) : prog bool :=
  rmw (λ s, if state_u8 s =? to_u8 from then (set_state (to_u8 to) s, true) else (s, false)).

(** ** The methods *)

Definition trip (prev : BreakerState) (reason : string) : prog unit :=
  update (set_state (to_u8 Open));;
  let* ms := elapsed_millis in
  update (set_opened_at ms);;
  update (set_probes 0);;
  update (set_fast true);;
  if decide (prev = Open) then Ret tt else observe (on_state_change prev Open reason).

Definition close (prev : BreakerState) (reason : string) : prog unit :=
  update (set_state (to_u8 Closed));;
  update (λ s, set_window (window_clear (window s)) s);;
  update (set_probes 0);;
  update (set_fast false);;
  if decide (prev = Closed) then Ret tt else observe (on_state_change prev Closed reason).

Definition HALF_OPEN_PROBE_BACKOFF : Z := 50 * 1000000.

Definition try_half_open_probe : prog admission :=
  let* now := elapsed_millis in
  let* prev := rmw (λ s, (set_probes (usize_wrap (half_open_probes s + 1)) s,
                          half_open_probes s)) in
  if (prev <? half_open_max_probes config)%Z then
    update (set_claimed_at now);;
    observe (on_probe_admission true);;
    Ret Allowed
  else
    update (λ s, set_probes (usize_wrap (half_open_probes s - 1)) s);;
    let lease_millis := as_u64 (open_duration config / 1000000) in
    let* claimed := get probe_claimed_at_millis in
    let* reclaimed :=
      if (lease_millis <=? u64_saturating_sub now claimed)%Z then
        rmw (λ s, if (probe_claimed_at_millis s =? claimed)%Z
                  then (set_claimed_at now s, true) else (s, false))
      else Ret false in
    if reclaimed : bool then
      observe (on_probe_admission true);;
      Ret Allowed
    else
      observe (on_probe_admission false);;
      Ret (BreakerOpen (Z.min HALF_OPEN_PROBE_BACKOFF (open_duration config))).

(** The time since the breaker opened, from two reads. *)
Definition open_elapsed (opened now : Z) : Z := from_millis (u64_saturating_sub now opened).

Definition check_open : prog admission :=
  let* opened := get opened_at_millis in
  let* now := elapsed_millis in
  let elapsed := open_elapsed opened now in
  if (open_duration config <=? elapsed)%Z then
    let* won := cas_state Open HalfOpen in
    if won : bool then
      update (set_fast false);;
      observe (on_state_change Open HalfOpen "open_elapsed");;
      try_half_open_probe
    else
      let* st := state in
      match st with
      | Closed => Ret Allowed
      | HalfOpen => try_half_open_probe
      | Open =>
          let* opened := get opened_at_millis in
          let* now := elapsed_millis in
          Ret (BreakerOpen (duration_saturating_sub (open_duration config) (open_elapsed opened now)))
      end
  else Ret (BreakerOpen (duration_saturating_sub (open_duration config) elapsed)).

Definition check : prog admission :=
  if enabled config then
    let* st := state in
    match st with
    | Closed => Ret Allowed
    | Open => check_open
    | HalfOpen => try_half_open_probe
    end
  else Ret Allowed.

(** [push] and [evict], under the window's lock. *)
Definition window_record (is_failure : bool) (now : Z) (w : SlidingWindow) : SlidingWindow :=
  window_evict instant_min (window_duration config) now (window_push is_failure now w).

Definition should_trip (w : SlidingWindow) : bool :=
  (min_samples config <=? sample_count w)
  && f64_ge (window_error_rate w) (error_rate_threshold config).

Definition record (outcome : Outcome) : prog unit :=
  if enabled config then
    let is_failure := match outcome with Failure => true | Success => false end in
    let* t := now in
    let* prev_state := state in
    (match prev_state with
     | Closed =>
         let* tripped := rmw (λ s, let w := window_record is_failure t (window s) in
                                   (set_window w s, should_trip w)) in
         if tripped : bool then trip prev_state "trip" else Ret tt
     | HalfOpen =>
         if is_failure then trip prev_state "probe_failure" else close prev_state "probe_success"
     | Open => update (λ s, set_window (window_record is_failure t (window s)) s)
     end);;
    let* new_state := state in
    observe (on_outcome outcome new_state)
  else Ret tt.

Definition error_rate : prog spec_float :=
  let* t := now in
  rmw (λ s, let w := window_evict instant_min (window_duration config) t (window s) in
            (set_window w s, window_error_rate w)).

(** [force_half_open], a test hook. *)
Definition force_half_open : prog unit :=
  let* prev := state in
  update (set_state (to_u8 HalfOpen));;
  update (set_fast false);;
  update (set_probes 0);;
  if decide (prev = HalfOpen) then Ret tt
  else observe (on_state_change prev HalfOpen "force_half_open").

(** ** Threads *)

(** What a thread runs: a method, its result dropped. *)
Inductive method := MCheck | MRecord (o : Outcome) | MErrorRate | MForceHalfOpen.

Definition method_prog (m : method) : prog unit :=
  match m with
  | MCheck => check;; Ret tt
  | MRecord o => record o
  | MErrorRate => error_rate;; Ret tt
  | MForceHalfOpen => force_half_open
  end.

(** One step of a system of threads: a thread makes an access, the clock
    advances, or a thread with nothing to do calls a method. *)
Inductive thread_step : list (prog unit) * Inner → list (prog unit) * Inner → Prop :=
  | step_access ts s i (B : Set) (f : Inner → Inner * B) (k : B → prog unit) s' x :
      ts !! i = Some (Act f k) → f s = (s', x) →
      thread_step (ts, s) (<[i := k x]> ts, s')
  | step_tick ts s t :
      (clock_now s <= t)%Z → thread_step (ts, s) (ts, set_clock t s)
  | step_call ts s m : thread_step (ts, s) (ts ++ [method_prog m], s).

(** A schedule names the threads in the order of their accesses. *)
Fixpoint schedule (order : list nat) (ts : list (prog unit)) (s : Inner) : list (prog unit) * Inner :=
  match order with
  | [] => (ts, s)
  | i :: order' =>
      match ts !! i with
      | Some (Act f k) => let '(s', x) := f s in schedule order' (<[i := k x]> ts) s'
      | _ => schedule order' ts s
      end
  end.

End breaker.
