(* ===== verification/BreakerProps.v ===== *)
(** * Circuit breaker: properties

    The sliding window keeps its failure count under every operation and every
    interleaving of threads.  A breaker used by one thread at a time keeps the
    mirror of its state, admits no more probes than configured, and always
    recovers: once the cool-down has passed since it opened, or since the last
    probe was claimed, a request is admitted, whether or not probes reported
    back. *)

From S2P Require Import Prelude Text Breaker.
From Stdlib Require Import Floats.SpecFloat.

(** ** The window *)

Definition count_failures (es : list (Z * bool)) : nat := length (filter_b (λ e, e.2) es).

Definition window_ok (w : SlidingWindow) : Prop :=
  failures w = count_failures (entries w) ∧ length (entries w) <= MAX_WINDOW_ENTRIES.

#[global] Arguments MAX_WINDOW_ENTRIES : simpl never.

Lemma count_failures_cons t b es :
  count_failures ((t, b) :: es) = (if b then 1 else 0) + count_failures es.
Proof. by destruct b. Qed.

Lemma count_failures_snoc t b es :
  count_failures (es ++ [(t, b)]) = count_failures es + (if b then 1 else 0).
Proof. unfold count_failures. rewrite filter_b_app, length_app. by destruct b. Qed.

Lemma window_new_ok : window_ok window_new.
Proof. split; simpl; [done|]. unfold MAX_WINDOW_ENTRIES. lia. Qed.

Lemma window_push_ok b t w : window_ok w → window_ok (window_push b t w).
Proof.
  intros [Hf Hl]. unfold window_push. assert (0 < MAX_WINDOW_ENTRIES) by (unfold MAX_WINDOW_ENTRIES; lia).
  destruct (MAX_WINDOW_ENTRIES <=? length (entries w)) eqn:E; breflect.
  - destruct w as [[|[t0 b0] es] f]; simpl in *; [lia|]. subst f.
    split; simpl; [|rewrite length_app; simpl; lia].
    rewrite count_failures_snoc, count_failures_cons. destruct b, b0; lia.
  - split; simpl; [|rewrite length_app; simpl; lia].
    rewrite count_failures_snoc, Hf. destruct b; lia.
Qed.

Lemma evict_before_spec cutoff es f :
  f = count_failures es →
  let w := evict_before cutoff es f in
  failures w = count_failures (entries w)
  ∧ ∃ gone, es = gone ++ entries w ∧ Forall (λ e, (e.1 < cutoff)%Z) gone
      ∧ match head (entries w) with Some e => (cutoff <= e.1)%Z | None => True end.
Proof.
  revert f. induction es as [|[t b] es IH]; intros f Hf; simpl.
  { split; [done|]. by exists []. }
  destruct (t <? cutoff)%Z eqn:E; breflect.
  - rewrite count_failures_cons in Hf.
    destruct (IH (if b then f - 1 else f)) as (H1 & gone & H2 & H3 & H4); [destruct b; lia|].
    split; [done|]. exists ((t, b) :: gone). simpl. rewrite <-H2. split; [done|].
    split; [by constructor|done].
  - split; [done|]. exists []. simpl. split; [done|]. split; [constructor|done].
Qed.

Lemma window_evict_ok m d t w : window_ok w → window_ok (window_evict m d t w).
Proof.
  intros [Hf Hl]. unfold window_evict. case_match; [done|].
  destruct (evict_before_spec (t - d) (entries w) (failures w) Hf) as (H1 & gone & H2 & _ & _).
  split; [done|]. apply (f_equal length) in H2. rewrite length_app in H2. lia.
Qed.

(** ** Every access keeps what each one keeps *)

(** Whatever the interleaving, a property that every access of a program keeps
    is kept. *)
Fixpoint keeps {A} (P : Inner → Prop) (p : prog A) : Prop :=
  match p with
  | Ret _ => True
  | Act f k => ∀ s, P s → P (f s).1 ∧ keeps P (k (f s).2)
  end.

Lemma keeps_bind {A B} P (p : prog A) (k : A → prog B) :
  keeps P p → (∀ x, keeps P (k x)) → keeps P (bind p k).
Proof.
  intros Hp Hk. induction p as [x|C f k' IH]; simpl in *; [done|].
  intros s Hs. destruct (Hp s Hs) as [H1 H2]. split; [done|]. by apply IH.
Qed.

Lemma keeps_get {A : Set} P (f : Inner → A) : keeps P (get f).
Proof. done. Qed.

Lemma keeps_update P (f : Inner → Inner) : (∀ s, P s → P (f s)) → keeps P (update f).
Proof. intros H s Hs. split; [by apply H|done]. Qed.

Lemma keeps_rmw {A : Set} P (f : Inner → Inner * A) : (∀ s, P s → P (f s).1) → keeps P (rmw f).
Proof. intros H s Hs. split; [by apply H|done]. Qed.

Lemma keeps_run {A} P (p : prog A) s : keeps P p → P s → P (run p s).1.
Proof.
  revert s. induction p as [x|C f k IH]; intros s; simpl; [done|]. intros Hk Hs.
  destruct (Hk s Hs) as [H1 H2]. destruct (f s) as [s' x]. by apply IH.
Qed.

#[export] Hint Resolve keeps_bind keeps_get : dsb.

(** Splits a program into its accesses. *)
Ltac keeps_tac :=
  repeat (intros; first
    [ exact I
    | apply keeps_get
    | apply keeps_bind
    | apply keeps_update
    | apply keeps_rmw
    | match goal with |- keeps _ _ => case_match end ]).

Section breaker.
Context (instant_min : Z) (config : BreakerConfig).

(** ** Under every interleaving *)

Definition inner_safe (s : Inner) : Prop := window_ok (window s) ∧ state_u8 s <= 2.

Lemma window_record_ok b t w : window_ok w → window_ok (window_record instant_min config b t w).
Proof. intros H. by apply window_evict_ok, window_push_ok. Qed.

(** Assignments keep it. *)
Lemma safe_set_state st s : inner_safe s → inner_safe (set_state (to_u8 st) s).
Proof. intros [H _]. split; [done|]. destruct st; simpl; lia. Qed.

Lemma safe_same s s' :
  inner_safe s → window s' = window s → state_u8 s' = state_u8 s → inner_safe s'.
Proof. unfold inner_safe. by intros ? -> ->. Qed.

Lemma safe_set_window w s : inner_safe s → window_ok w → inner_safe (set_window w s).
Proof. intros [_ ?] ?. by split. Qed.

Ltac safe_tac :=
  first [ assumption
        | by apply safe_set_state
        | by (eapply safe_same; [eassumption|..])
        | by (apply safe_set_window; [assumption|]; first
            [ apply window_new_ok
            | apply window_record_ok; match goal with H : inner_safe _ |- _ => apply H end
            | apply window_evict_ok; match goal with H : inner_safe _ |- _ => apply H end ])
        | match goal with |- context [if ?b then _ else _] => destruct b; cbn [fst]; safe_tac end ].

Lemma method_keeps_safe m : keeps inner_safe (method_prog instant_min config m).
Proof.
  destruct m; unfold method_prog, check, check_open, try_half_open_probe, record, error_rate,
    force_half_open, trip, close, observe, cas_state, state, elapsed_millis, now;
    keeps_tac; intros; safe_tac.
Qed.

Lemma thread_step_safe ts s ts' s' :
  thread_step instant_min config (ts, s) (ts', s') →
  inner_safe s ∧ Forall (keeps inner_safe) ts → inner_safe s' ∧ Forall (keeps inner_safe) ts'.
Proof.
  intros Hstep [Hs Hts]. inversion Hstep as [? ? i B f k ? x Hi Hf|? ? t Ht|? ? m]; subst.
  - pose proof (proj1 (Forall_forall _ _) Hts _ (list_elem_of_lookup_2 _ _ _ Hi) s Hs) as [H1 H2].
    rewrite Hf in H1, H2. split; [done|]. by apply Forall_insert.
  - done.
  - split; [done|]. apply Forall_app. split; [done|]. constructor; [apply method_keeps_safe|done].
Qed.

(** ** One thread at a time *)

(** What a breaker is to its user: closed, open since a time, or half open with
    some probes claimed, the last at a time.  Times are milliseconds since the
    breaker was made. *)
Inductive abreaker :=
  | AClosed
  | AOpen (since : Z)
  | AHalfOpen (claims last_claim : Z).

(** Claiming a probe. *)
Definition aprobe (now claims last_claim : Z) : abreaker * admission :=
  if (claims <? half_open_max_probes config)%Z then (AHalfOpen (claims + 1) now, Allowed)
  else if (open_duration config / 1000000 <=? u64_saturating_sub now last_claim)%Z
  then (AHalfOpen claims now, Allowed)
  else (AHalfOpen claims last_claim,
        BreakerOpen (Z.min HALF_OPEN_PROBE_BACKOFF (open_duration config))).

Definition acheck (now : Z) (b : abreaker) : abreaker * admission :=
  match b with
  | AClosed => (AClosed, Allowed)
  | AOpen since =>
      let elapsed := (u64_saturating_sub now since * 1000000)%Z in
      if (open_duration config <=? elapsed)%Z then (AHalfOpen 1 now, Allowed)
      else (AOpen since, BreakerOpen (open_duration config - elapsed)%Z)
  | AHalfOpen claims last_claim => aprobe now claims last_claim
  end.

Definition arecord (now t : Z) (o : Outcome) (b : abreaker) (w : SlidingWindow)
    : abreaker * SlidingWindow :=
  let w' := window_record instant_min config (match o with Failure => true | Success => false end) t w in
  match b, o with
  | AClosed, _ => (if should_trip config w' then AOpen now else AClosed, w')
  | AOpen since, _ => (AOpen since, w')
  | AHalfOpen _ _, Failure => (AOpen now, w)
  | AHalfOpen _ _, Success => (AClosed, window_new)
  end.

Definition abs (s : Inner) : abreaker :=
  match from_u8 (state_u8 s) with
  | Closed => AClosed
  | Open => AOpen (opened_at_millis s)
  | HalfOpen => AHalfOpen (half_open_probes s) (probe_claimed_at_millis s)
  end.

(** A configuration a breaker can have: [with_clock] makes the number of probes
    positive; durations are below 2^64 milliseconds. *)
Definition config_ok : Prop :=
  enabled config = true
  ∧ (1 <= half_open_max_probes config < u64_max)%Z
  ∧ (0 < open_duration config < 1000000 * 2 ^ 64)%Z.

(** The record between method calls: the mirror agrees with the state, probes
    are claimed only while half open and at most as many as configured. *)
Record rest_ok (s : Inner) : Prop := {
  rest_safe : inner_safe s;
  rest_mirror : is_open_fast s = bool_decide (from_u8 (state_u8 s) = Open);
  rest_probes : (0 <= half_open_probes s <= half_open_max_probes config)%Z;
  rest_no_probes : from_u8 (state_u8 s) ≠ HalfOpen → half_open_probes s = 0%Z;
}.

Lemma run_bind {A B} (p : prog A) (k : A → prog B) s :
  run (bind p k) s = let '(s', x) := run p s in run (k x) s'.
Proof.
  revert s. induction p as [x|C f k' IH]; intros s; simpl; [done|]. destruct (f s) as [s' x]. apply IH.
Qed.

Lemma usize_wrap_small z : (0 <= z <= u64_max)%Z → usize_wrap z = z.
Proof. unfold usize_wrap, u64_max. intros. by rewrite Z.mod_small by lia. Qed.

Hypothesis Hconfig : config_ok.

Lemma lease_millis_small : as_u64 (open_duration config / 1000000) = (open_duration config / 1000000)%Z.
Proof.
  destruct Hconfig as (_ & _ & [H1 H2]). unfold as_u64. apply Z.mod_small. split.
  - apply Z.div_pos; lia.
  - apply Z.div_lt_upper_bound; lia.
Qed.

Lemma max_probes_bound : (1 <= half_open_max_probes config < u64_max)%Z.
Proof. apply Hconfig. Qed.

(** The fields a claim does not touch. *)
Definition same_but_probes (s s' : Inner) : Prop :=
  state_u8 s' = state_u8 s ∧ is_open_fast s' = is_open_fast s ∧ window s' = window s
  ∧ opened_at_millis s' = opened_at_millis s.

(** Claiming, alone. *)
Lemma run_probe s :
  (0 <= half_open_probes s <= half_open_max_probes config)%Z →
  let '(s', r) := run (try_half_open_probe config) s in
  (AHalfOpen (half_open_probes s') (probe_claimed_at_millis s'), r)
  = aprobe (millis_at s) (half_open_probes s) (probe_claimed_at_millis s)
  ∧ same_but_probes s s' ∧ (0 <= half_open_probes s' <= half_open_max_probes config)%Z.
Proof.
  intros Hp. pose proof max_probes_bound as Hmax.
  assert (usize_wrap (half_open_probes s + 1) = half_open_probes s + 1)%Z as Hadd.
  { apply usize_wrap_small. lia. }
  assert (usize_wrap (half_open_probes s + 1 - 1) = half_open_probes s) as Hsub.
  { rewrite usize_wrap_small; lia. }
  unfold try_half_open_probe, aprobe. rewrite lease_millis_small. simpl. rewrite Hadd.
  destruct (half_open_probes s <? half_open_max_probes config)%Z eqn:E; simpl.
  { breflect. split; [done|]. split; [done|]. simpl. lia. }
  rewrite Hsub. destruct (_ <=? _)%Z; simpl; [rewrite Z.eqb_refl; simpl|];
    (split; [done|split; [done|simpl; lia]]).
Qed.

Opaque try_half_open_probe.

Lemma abs_state s :
  match abs s with
  | AClosed => from_u8 (state_u8 s) = Closed
  | AOpen _ => from_u8 (state_u8 s) = Open
  | AHalfOpen _ _ => from_u8 (state_u8 s) = HalfOpen
  end.
Proof. unfold abs. by destruct (from_u8 (state_u8 s)). Qed.

Lemma rest_same_but_probes s s' :
  rest_ok s → from_u8 (state_u8 s) = HalfOpen → same_but_probes s s' →
  (0 <= half_open_probes s' <= half_open_max_probes config)%Z → rest_ok s'.
Proof.
  intros [H1 H2 H3 H4] Hst (E1 & E2 & E3 & E4) Hp.
  split; rewrite ?E1, ?E2; auto; [|congruence]. by eapply safe_same.
Qed.

(** [check] refines its specification. *)
Lemma run_check_refines s :
  rest_ok s →
  let '(s', r) := run (check config) s in
  rest_ok s' ∧ (abs s', r) = acheck (millis_at s) (abs s) ∧ window s' = window s.
Proof.
  intros Hs. pose proof Hs as [H1 H2 H3 H4]. destruct Hconfig as (Hen & Hmax & Hd).
  unfold check. rewrite Hen. simpl. unfold abs at 2.
  destruct (from_u8 (state_u8 s)) eqn:Est; simpl.
  - split; [done|]. unfold abs. by rewrite Est.
  - destruct (open_duration config <=? open_elapsed (opened_at_millis s) (millis_at s))%Z eqn:E;
      unfold open_elapsed, from_millis in E; rewrite E; simpl.
    + assert (state_u8 s = 1) as Hu.
      { destruct H1 as [_ H1]. destruct (state_u8 s) as [|[|[|]]]; simpl in Est; congruence || lia. }
      rewrite Hu. simpl.
      set (s0 := add_observed _ _).
      assert (half_open_probes s0 = 0%Z) as Hp0 by (simpl; apply H4; congruence).
      pose proof (run_probe s0) as Hrun. rewrite Hp0 in Hrun. specialize (Hrun ltac:(lia)).
      destruct (run (try_half_open_probe config) s0) as [s' r]. destruct Hrun as (Ha & Hsame & Hp).
      unfold aprobe in Ha. rewrite (proj2 (Z.ltb_lt _ _)) in Ha by lia.
      injection Ha as Hn Hc Hr. subst r. pose proof Hsame as (E1 & E2 & E3 & E4).
      split; [|split].
      * eapply (rest_same_but_probes s0); [|done|done|done].
        split; simpl; [by apply (safe_set_state HalfOpen)|done|lia|done].
      * unfold abs. rewrite E1. simpl. by rewrite Hn, Hc.
      * by rewrite E3.
    + split; [done|]. split; [|done]. unfold abs. rewrite Est.
      unfold duration_saturating_sub, open_elapsed, from_millis. breflect. do 2 f_equal. lia.
  - pose proof (run_probe s H3) as Hrun.
    destruct (run (try_half_open_probe config) s) as [s' r]. destruct Hrun as (Ha & Hsame & Hp).
    pose proof Hsame as (E1 & E2 & E3 & E4).
    split; [by eapply rest_same_but_probes|]. split; [|done].
    unfold abs. rewrite E1, Est. done.
Qed.

Lemma run_trip prev reason s :
  prev ≠ Open →
  run (trip prev reason) s
  = (add_observed (on_state_change prev Open reason)
       (set_fast true (set_probes 0 (set_opened_at (millis_at s) (set_state (to_u8 Open) s)))), tt).
Proof. intros H. unfold trip. cbn. by rewrite decide_False. Qed.

Lemma run_close prev reason s :
  prev ≠ Closed →
  run (close prev reason) s
  = (add_observed (on_state_change prev Closed reason)
       (set_fast false (set_probes 0 (set_window window_new (set_state (to_u8 Closed) s)))), tt).
Proof. intros H. unfold close. cbn. by rewrite decide_False. Qed.

(** [record] refines its specification. *)
Lemma run_record_refines o s :
  rest_ok s →
  let s' := (run (record instant_min config o) s).1 in
  rest_ok s'
  ∧ (abs s', window s') = arecord (millis_at s) (clock_now s) o (abs s) (window s)
  ∧ observed s' = observed s
      ++ (match abs s, abs s' with
          | AClosed, AOpen _ => [on_state_change Closed Open "trip"]
          | AHalfOpen _ _, AOpen _ => [on_state_change HalfOpen Open "probe_failure"]
          | AHalfOpen _ _, AClosed => [on_state_change HalfOpen Closed "probe_success"]
          | _, _ => []
          end)
      ++ [on_outcome o (from_u8 (state_u8 s'))].
Proof.
  intros Hs. pose proof Hs as [H1 H2 H3 H4]. destruct Hconfig as (Hen & Hmax & Hd).
  unfold record. rewrite Hen. cbn [run bind now state get]. rewrite run_bind.
  set (w' := window_record instant_min config (match o with Failure => true | Success => false end)
    (clock_now s) (window s)).
  assert (window_ok w') as Hw' by (apply window_record_ok, H1).
  unfold arecord, abs. destruct (from_u8 (state_u8 s)) eqn:Est.
  - rewrite run_bind. cbn [run bind rmw]. fold w'.
    destruct (should_trip config w') eqn:Et.
    + rewrite run_trip by done. cbn. rewrite <-?app_assoc.
      split; [|done]. split; simpl; [by split; simpl; [|lia]|done|lia|done].
    + cbn. rewrite Est. split; [|done].
      split; simpl; rewrite ?Est; [by split; simpl; [|apply H1]|done|done|done].
  - cbn. fold w'. rewrite Est. split; [|done].
    split; simpl; rewrite ?Est; [by split; simpl; [|apply H1]|done|done|done].
  - destruct o; rewrite ?run_trip, ?run_close by done; cbn; rewrite <-?app_assoc; (split; [|done]);
      (split; simpl; [split; simpl; [first [apply window_new_ok|apply H1]|lia]|done|lia|done]).
Qed.

(** The other two methods keep the record at rest. *)
Lemma run_error_rate_rest s :
  rest_ok s → rest_ok (run (error_rate instant_min config) s).1
  ∧ abs (run (error_rate instant_min config) s).1 = abs s.
Proof.
  intros [H1 H2 H3 H4]. split; [|done]. simpl. split; simpl; [|done..].
  apply safe_set_window; [done|]. apply window_evict_ok, H1.
Qed.

Lemma run_force_rest s : rest_ok s → rest_ok (run force_half_open s).1.
Proof.
  intros [H1 H2 H3 H4].
  assert (rest_ok (set_probes 0 (set_fast false (set_state (to_u8 HalfOpen) s)))) as H.
  { split; simpl; [|done|lia|done]. split; simpl; [apply H1|lia]. }
  unfold force_half_open. cbn. destruct (decide (from_u8 (state_u8 s) = HalfOpen)); cbn; [done|].
  destruct H. by split.
Qed.

Lemma method_rest m s : rest_ok s → rest_ok (run (method_prog instant_min config m) s).1.
Proof.
  intros Hs. destruct m; cbn [method_prog]; rewrite ?run_bind.
  - pose proof (run_check_refines s Hs) as H. destruct (run (check config) s). by destruct H.
  - by apply (run_record_refines o).
  - apply (run_error_rate_rest s Hs).
  - by apply run_force_rest.
Qed.

(** ** Recovery *)

(** The cool-down has passed at [t] since the breaker opened, or since its last
    probe was claimed. *)
Definition cooled_down (t : Z) (s : Inner) : Prop :=
  let ms := millis_at (set_clock t s) in
  match from_u8 (state_u8 s) with
  | Closed => True
  | Open => (open_duration config <= (ms - opened_at_millis s) * 1000000)%Z
  | HalfOpen => (open_duration config / 1000000 <= ms - probe_claimed_at_millis s)%Z
  end.

Lemma recovers t s :
  rest_ok s → cooled_down t s → (run (check config) (set_clock t s)).2 = Allowed.
Proof.
  intros Hs Hc. assert (rest_ok (set_clock t s)) as Hs' by (destruct Hs; by split).
  pose proof (run_check_refines _ Hs') as H. destruct (run (check config) (set_clock t s)) as [s' r].
  destruct H as (_ & Ha & _). simpl. unfold cooled_down in Hc. unfold acheck, abs in Ha. simpl in Ha.
  destruct Hconfig as (_ & _ & Hd).
  destruct (from_u8 (state_u8 s)); simpl in Ha.
  - congruence.
  - rewrite (proj2 (Z.leb_le _ _)) in Ha; [congruence|].
    unfold u64_saturating_sub. etrans; [done|]. apply Z.mul_le_mono_nonneg_r; lia.
  - unfold aprobe in Ha. destruct (_ <? _)%Z; [congruence|].
    rewrite (proj2 (Z.leb_le _ _)) in Ha; [congruence|].
    unfold u64_saturating_sub. lia.
Qed.

End breaker.

Lemma with_clock_rest c now : rest_ok (clamp_probes c) (with_clock c now).2.
Proof.
  split; simpl; [|done|lia|done]. split; [apply window_new_ok|simpl; lia].
Qed.
