(* ===== verification/BreakerConfig.v ===== *)
(** * Circuit breaker: configuration, registry, retry policy

    [config.rs] (environment variables), [registry.rs] and [retry_policy.rs] of
    [ds-circuit-breaker].  The environment is a function from variable names to
    values.  [str::parse] is written out for unsigned integers and booleans; for
    [f64] it is the parameter [parse_f64].  The properties of the whole crate follow, and
    two interleavings that contradict comments of the source. *)

From S2P Require Import Prelude Text Breaker BreakerProps.
From Stdlib Require Import Floats.SpecFloat.

(** ** Parsing *)

(** [str::split(',')]: always at least one piece. *)
Fixpoint split_comma (s : text) : list text :=
  match s with
  | [] => [[]]
  | c :: s' =>
      if decide (c = ","%char) then [] :: split_comma s'
      else match split_comma s' with
           | p :: ps => (c :: p) :: ps
           | [] => [[c]]
           end
  end.

(** [str::trim], on ASCII white space. *)
Definition is_space (c : ascii) : bool :=
  let n := nat_of_ascii c in (n =? 32) || ((9 <=? n) && (n <=? 13)).
Fixpoint trim_start (s : text) : text :=
  match s with c :: s' => if is_space c then trim_start s' else s | [] => [] end.
Definition trim (s : text) : text := reverse (trim_start (reverse (trim_start s))).

Definition u16_max : Z := 65535.

Definition parse_failure_codes (s : text) : gset Z :=
  list_to_set (omap (λ c, parse_uint u16_max (trim c)) (split_comma s)).

(** ** [from_lookup_with_prefix] *)

Definition lookup_or {A} (get : string → option text) (key : string) (parse : text → option A)
    (default : A) : A :=
  match get key with
  | Some v => match parse v with Some x => x | None => default end
  | None => default
  end.

Section lookup.
Context (parse_f64 : text → option spec_float).

Definition from_lookup_with_prefix (prefix : string) (get : string → option text) : BreakerConfig :=
  let key k := (prefix +:+ k) in
  let codes :=
    match get (key "FAILURE_CODES") with
    | Some raw =>
        let codes := parse_failure_codes raw in
        if decide (codes = ∅) then default_failure_codes else codes
    | None => default_failure_codes
    end in
  mkConfig
    (secs (lookup_or get (key "WINDOW_SECS") (parse_uint u64_max) 60%Z))
    (Z.to_nat (lookup_or get (key "MIN_SAMPLES") (parse_uint u64_max) 10%Z))
    (lookup_or get (key "ERROR_RATE_THRESHOLD") parse_f64 f64_half)
    (secs (lookup_or get (key "OPEN_DURATION_SECS") (parse_uint u64_max) 10%Z))
    (Z.max (lookup_or get (key "HALF_OPEN_MAX_PROBES") (parse_uint u64_max) 1%Z) 1)
    codes
    (lookup_or get (key "ENABLED") parse_bool true).

End lookup.

(** ** Registry *)

(** The breakers by key; a breaker is its slot in the store of those created
    ([Arc<CircuitBreaker>]). *)
Record Registry := mkRegistry {
  reg_config : BreakerConfig;
  reg_breakers : gmap string nat;
  reg_created : list (BreakerConfig * Inner);
}.

(** [CircuitBreakerRegistry::new] and [get], at time [now]. *)
Definition registry_new (c : BreakerConfig) : Registry := mkRegistry c ∅ [].

Definition registry_get (now : Z) (key : string) (r : Registry) : Registry * option nat :=
  if enabled (reg_config r) then
    match reg_breakers r !! key with
    | Some cb => (r, Some cb)
    | None =>
        let cb := length (reg_created r) in
        (mkRegistry (reg_config r) (<[key := cb]> (reg_breakers r))
           (reg_created r ++ [with_clock (reg_config r) now]), Some cb)
    end
  else (r, None).

(** ** Retry policy *)

Inductive Disposition := Retryable | AuthRefresh | Terminal.

Record RetryPolicy := mkPolicy {
  retryable : list Z;
  auth_refresh : list Z;
  terminal : list Z;
  default_disposition : Disposition;
}.

Definition classify (p : RetryPolicy) (status : Z) : option Disposition :=
  if ((200 <=? status) && (status <? 300))%Z then None
  else if bool_decide (status ∈ auth_refresh p) then Some AuthRefresh
  else if bool_decide (status ∈ terminal p) then Some Terminal
  else if bool_decide (status ∈ retryable p) || ((500 <=? status) && (status <? 600))%Z
  then Some Retryable
  else Some (default_disposition p).

Definition should_retry (p : RetryPolicy) (status : Z) : bool :=
  match classify p status with Some Retryable => true | _ => false end.

Definition policy_server : RetryPolicy := mkPolicy [429%Z] [] [] Terminal.
Definition policy_client_storage : RetryPolicy :=
  mkPolicy [] [401%Z] [400%Z; 403%Z; 404%Z] Retryable.

(** ** Properties *)

(** The registry hands out one breaker per key, and keys never share one. *)
Definition registry_ok (r : Registry) : Prop :=
  (∀ k cb, reg_breakers r !! k = Some cb → cb < length (reg_created r))
  ∧ (∀ k k' cb, reg_breakers r !! k = Some cb → reg_breakers r !! k' = Some cb → k = k').

Lemma registry_new_ok c : registry_ok (registry_new c).
Proof. split; intros *; simpl; by rewrite lookup_empty. Qed.

Lemma registry_get_ok now key r : registry_ok r → registry_ok (registry_get now key r).1.
Proof.
  intros [H1 H2]. unfold registry_get. case_match; [|done]. case_match; [done|]. split; simpl.
  - intros k cb. rewrite length_app. simpl. destruct (decide (k = key)) as [->|Hne].
    + rewrite lookup_insert_eq. intros; simplify_eq. lia.
    + rewrite lookup_insert_ne by done. intros ?%H1. lia.
  - intros k k' cb Hk Hk'. apply lookup_insert_Some in Hk, Hk'.
    destruct Hk as [[<- <-]|[? Hk]], Hk' as [[<- ?]|[? Hk']]; eauto;
      [apply H1 in Hk'|apply H1 in Hk]; lia.
Qed.

Lemma registry_get_same now key r :
  enabled (reg_config r) = true →
  ∃ cb, (registry_get now key r).2 = Some cb
    ∧ reg_breakers (registry_get now key r).1 !! key = Some cb
    ∧ reg_config (registry_get now key r).1 = reg_config r
    ∧ ∀ k x, reg_breakers r !! k = Some x → reg_breakers (registry_get now key r).1 !! k = Some x.
Proof.
  intros He. unfold registry_get. rewrite He. destruct (reg_breakers r !! key) as [cb|] eqn:E.
  - exists cb. eauto.
  - eexists. split; [done|]. simpl. rewrite lookup_insert_eq. split; [done|]. split; [done|].
    intros k x Hk. rewrite lookup_insert_ne; [done|congruence].
Qed.

(** A breaker of the client preset, made at time 0. *)
Definition demo_config : BreakerConfig := (with_clock config_client 0).1.
Definition demo_inner : Inner := (with_clock config_client 0).2.

Lemma demo_config_ok : config_ok demo_config.
Proof. split; [reflexivity|]. split; split; reflexivity || (vm_compute; discriminate). Qed.

(** A run of calls by one thread at a time: each sets the clock and runs a
    method to its end. *)
Definition run_call (instant_min : Z) (c : BreakerConfig) (s : Inner) (call : Z * method) : Inner :=
  (run (method_prog instant_min c call.2) (set_clock call.1 s)).1.

Definition run_calls (instant_min : Z) (c : BreakerConfig) (calls : list (Z * method)) (s : Inner)
    : Inner := foldl (run_call instant_min c) s calls.

Lemma run_calls_rest instant_min c calls s :
  config_ok c → rest_ok c s → rest_ok c (run_calls instant_min c calls s).
Proof.
  intros Hc. unfold run_calls. revert s. induction calls as [|[t m] calls IH]; intros s Hs; simpl; [done|].
  apply IH. apply method_rest; [done|]. destruct Hs. by split.
Qed.

(** C38: under every interleaving of any number of threads, the window of a
    fresh breaker counts its failures exactly and holds at most
    [MAX_WINDOW_ENTRIES] samples, so that no decrement of the count underflows
    and memory is bounded; and the state is always one of the three. *)
Theorem window_safe_concurrently (instant_min : Z) (c : BreakerConfig) (now : Z)
    (ts : list (prog unit)) (s : Inner) :
  rtc (thread_step instant_min (with_clock c now).1) ([], (with_clock c now).2) (ts, s) →
  failures (window s) = length (filter_b (λ e, e.2) (entries (window s)))
  ∧ length (entries (window s)) <= MAX_WINDOW_ENTRIES
  ∧ state_u8 s ∈ [to_u8 Closed; to_u8 Open; to_u8 HalfOpen].
Proof.
  intros Hsteps.
  assert (inner_safe s ∧ Forall (keeps inner_safe) ts) as [[[Hf Hl] Hst] _].
  { remember ([], (with_clock c now).2) as x eqn:Ex. remember (ts, s) as y eqn:Ey.
    assert (inner_safe x.2 ∧ Forall (keeps inner_safe) x.1) as Hx.
    { subst x. split; [|constructor]. apply (with_clock_rest c now). }
    replace s with y.2 by (by subst y). replace ts with y.1 by (by subst y). clear Ex Ey.
    induction Hsteps as [x|[ts1 s1] [ts2 s2] z Hstep _ IH]; [done|].
    apply IH. by eapply thread_step_safe. }
  split; [done|]. split; [done|]. destruct (state_u8 s) as [|[|[|]]]; [set_solver..|lia].
Qed.

Lemma window_safe_concurrently_witness :
  let s := (schedule [0; 0; 0; 0; 0] [method_prog 0 demo_config (MRecord Failure)] demo_inner).2 in
  failures (window s) = 1
  ∧ failures (window s) = length (filter_b (λ e, e.2) (entries (window s))).
Proof.
  split; [vm_compute; reflexivity|].
  eapply (window_safe_concurrently 0 config_client 0).
  eapply rtc_l; [apply (step_call _ _ [] _ (MRecord Failure))|].
  do 5 (eapply rtc_l; [eapply (step_access _ _ _ _ 0); [reflexivity|reflexivity]|]).
  apply rtc_refl.
Defined.

(** Used by one thread at a time, [check] implements its contract: a
    closed breaker admits; an open one rejects with the rest of the cool-down
    as [retry_after] until the cool-down has passed, and then admits the first
    probe and is half open; a half-open one admits while probe slots are free,
    takes over a claim older than the cool-down, and otherwise rejects with a
    short back-off.  The record stays consistent. *)
Theorem check_refines (c : BreakerConfig) (s : Inner) :
  config_ok c → rest_ok c s →
  let '(s', r) := run (check c) s in
  rest_ok c s' ∧ (abs s', r) = acheck c (millis_at s) (abs s) ∧ window s' = window s.
Proof. intros. by apply run_check_refines. Qed.

Lemma check_refines_witness :
  let '(s', r) := run (check demo_config) demo_inner in
  rest_ok demo_config s' ∧ (abs s', r) = acheck demo_config (millis_at demo_inner) (abs demo_inner)
  ∧ window s' = window demo_inner.
Proof.
  apply (check_refines demo_config demo_inner); [apply demo_config_ok|apply with_clock_rest].
Defined.

(** Used by one thread at a time, [record] implements its contract: while
    closed the sample enters the window, which trips the breaker when it has
    [min_samples] and the error rate reaches the threshold; while open it only
    enters the window; while half open a failure opens the breaker again from
    now on and a success closes it with an empty window.  The observer hears of
    the transition, if any, and then of the outcome with the final state. *)
Theorem record_refines (instant_min : Z) (c : BreakerConfig) (o : Outcome) (s : Inner) :
  config_ok c → rest_ok c s →
  let s' := (run (record instant_min c o) s).1 in
  rest_ok c s'
  ∧ (abs s', window s') = arecord instant_min c (millis_at s) (clock_now s) o (abs s) (window s)
  ∧ observed s' = observed s
      ++ (match abs s, abs s' with
          | AClosed, AOpen _ => [on_state_change Closed Open "trip"]
          | AHalfOpen _ _, AOpen _ => [on_state_change HalfOpen Open "probe_failure"]
          | AHalfOpen _ _, AClosed => [on_state_change HalfOpen Closed "probe_success"]
          | _, _ => []
          end)
      ++ [on_outcome o (from_u8 (state_u8 s'))].
Proof. intros. by apply run_record_refines. Qed.

Lemma record_refines_witness :
  let s' := (run (record 0 demo_config Failure) demo_inner).1 in
  (abs s', window s')
  = arecord 0 demo_config (millis_at demo_inner) (clock_now demo_inner) Failure (abs demo_inner)
      (window demo_inner).
Proof.
  apply (record_refines 0 demo_config Failure demo_inner); [apply demo_config_ok|apply with_clock_rest].
Defined.

(** After any sequence of calls by one thread at a time, [is_open] agrees
    with the state, no more probes are claimed than configured, and none
    outside the half-open state. *)
Theorem mirror_agrees (instant_min : Z) (c : BreakerConfig) (start : Z) (calls : list (Z * method)) :
  config_ok (clamp_probes c) →
  let s := run_calls instant_min (clamp_probes c) calls (with_clock c start).2 in
  (run is_open s).2 = bool_decide ((run state s).2 = Open)
  ∧ (0 <= half_open_probes s <= half_open_max_probes (clamp_probes c))%Z
  ∧ ((run state s).2 ≠ HalfOpen → half_open_probes s = 0%Z).
Proof.
  intros Hc. cbn zeta.
  destruct (run_calls_rest instant_min _ calls _ Hc (with_clock_rest c start)) as [_ H2 H3 H4].
  simpl. split; [exact H2|]. split; [exact H3|exact H4].
Qed.

(** Five failures open the breaker of the client preset. *)
Definition demo_failures : list (Z * method) := (λ t, (t, MRecord Failure)) <$> [1; 2; 3; 4; 5]%Z.
Definition demo_open : Inner := run_calls 0 demo_config demo_failures demo_inner.

Lemma mirror_agrees_witness :
  (run is_open demo_open).2 = true
  ∧ (run is_open demo_open).2 = bool_decide ((run state demo_open).2 = Open).
Proof.
  split; [vm_compute; reflexivity|].
  apply (mirror_agrees 0 config_client 0 demo_failures), demo_config_ok.
Defined.

(** C40: the breaker always recovers.  After any sequence of calls, lost probes
    included, a [check] made once the cool-down has passed since the breaker
    opened, or since the last probe was claimed, is admitted. *)
Theorem breaker_recovers (instant_min : Z) (c : BreakerConfig) (start : Z)
    (calls : list (Z * method)) (t : Z) :
  config_ok (clamp_probes c) →
  let s := run_calls instant_min (clamp_probes c) calls (with_clock c start).2 in
  cooled_down (clamp_probes c) t s →
  (run (check (clamp_probes c)) (set_clock t s)).2 = Allowed.
Proof.
  intros Hc. cbn zeta. intros Hcool. apply recovers; [done| |done].
  by apply run_calls_rest; [|apply with_clock_rest].
Qed.

Lemma breaker_recovers_witness :
  (run (check demo_config) demo_open).2 = BreakerOpen (secs 60)
  ∧ (run (check demo_config) (set_clock (secs 61) demo_open)).2 = Allowed.
Proof.
  split; [vm_compute; reflexivity|].
  apply (breaker_recovers 0 config_client 0 demo_failures (secs 61)).
  - apply demo_config_ok.
  - vm_compute. discriminate.
Defined.

(** Exhaustive comparison of the floating-point test with the rational one. *)
Definition rate_agrees (n : nat) : bool :=
  forallb (λ f, Bool.eqb (f64_ge (f64_div (f64_of_nat f) (f64_of_nat n)) f64_half) (n <=? 2 * f))
    (seq 0 (S n)).

Lemma rate_agrees_all : forallb rate_agrees (seq 1 64) = true.
Proof. vm_compute. reflexivity. Qed.

Lemma half_rate_exact w :
  window_ok w → 1 <= sample_count w <= 64 →
  f64_ge (window_error_rate w) f64_half = (sample_count w <=? 2 * failures w).
Proof.
  intros [Hf _] Hn. unfold window_error_rate, sample_count in *.
  destruct (entries w) as [|e es] eqn:E; [simpl in Hn; lia|]. rewrite <-E in *.
  pose proof rate_agrees_all as H. rewrite forallb_forall in H.
  specialize (H (length (entries w))). rewrite in_seq in H. specialize (H ltac:(lia)).
  unfold rate_agrees in H. rewrite forallb_forall in H.
  specialize (H (failures w)). rewrite in_seq in H.
  apply eqb_prop, H. split; [lia|]. rewrite Hf. unfold count_failures, filter_b.
  pose proof (filter_length_le (λ e : Z * bool, e.2) (entries w)). lia.
Qed.

(** With the presets' threshold of one half, the floating-point test trips
    the breaker exactly when at least half of the samples are failures, for
    windows of up to 64 samples (checked exhaustively). *)
Theorem half_threshold_exact (c : BreakerConfig) (w : SlidingWindow) :
  error_rate_threshold c = f64_half → window_ok w → 1 <= sample_count w <= 64 →
  should_trip c w = (min_samples c <=? sample_count w) && (sample_count w <=? 2 * failures w).
Proof. intros Hc Hw Hn. unfold should_trip. rewrite Hc. by rewrite half_rate_exact. Qed.

Lemma half_threshold_exact_witness :
  should_trip demo_config (window demo_open)
  = (min_samples demo_config <=? sample_count (window demo_open))
    && (sample_count (window demo_open) <=? 2 * failures (window demo_open)).
Proof.
  apply (half_threshold_exact demo_config (window demo_open)).
  - reflexivity.
  - apply (run_calls_rest 0 demo_config demo_failures demo_inner demo_config_ok (with_clock_rest _ _)).
  - assert (sample_count (window demo_open) = 5) as -> by (vm_compute; reflexivity). lia.
Defined.

(** The environment cannot produce an unusable configuration: with no
    variable set it is the server preset; whatever the variables hold, at least
    one probe is allowed and some status counts as a failure. *)
Theorem from_env_usable (parse_f64 : text → option spec_float) (prefix : string)
    (get : string → option text) :
  from_lookup_with_prefix parse_f64 prefix (λ _, None) = config_server
  ∧ let c := from_lookup_with_prefix parse_f64 prefix get in
    (1 <= half_open_max_probes c)%Z ∧ (∃ status, is_failure_status c status = true).
Proof.
  split; [reflexivity|]. cbn zeta. split; [simpl; lia|].
  assert (failure_codes (from_lookup_with_prefix parse_f64 prefix get) ≠ ∅) as Hne.
  { simpl. case_match; [case_decide|]; [|done|]; unfold default_failure_codes; set_solver. }
  apply set_choose_L in Hne as [x Hx]. exists x. unfold is_failure_status.
  by rewrite bool_decide_eq_true.
Qed.

(** ** Interleavings against the documentation *)

(** A breaker that trips on its first failure, with a cool-down of 10 ms, one
    second after it was made. *)
Definition race_config : BreakerConfig :=
  mkConfig (secs 60) 1 f64_half (10 * 1000000) 1 ∅ true.
Definition race_start : Inner := set_clock (secs 1) (with_clock race_config 0).2.

(** Thread 0 trips the breaker; after its store of [Open], thread 1 still reads
    the old opening time, takes the breaker to [HalfOpen] and gets a probe;
    thread 0 then resets the probe count and sets the mirror. *)
Example trip_races_with_check :
  let s := (schedule (replicate 4 0 ++ replicate 10 1 ++ replicate 7 0)
              [method_prog 0 race_config (MRecord Failure); method_prog 0 race_config MCheck]
              race_start).2 in
  from_u8 (state_u8 s) = HalfOpen ∧ is_open_fast s = true ∧ half_open_probes s = 0%Z
  ∧ on_probe_admission true ∈ observed s.
Proof. vm_compute. repeat split. right. left. Qed.

(** Thread 0 finds the probe slots taken and is about to undo its increment;
    thread 1's probe fails and resets the count; the decrement then wraps the
    count around. *)
Definition race_half_open : Inner :=
  mkInner (to_u8 HalfOpen) 0 500 1 1000 false window_new (secs 1) [].

Example probe_count_wraps :
  let s := (schedule ([0; 0; 0] ++ replicate 10 1 ++ [0])
              [method_prog 0 race_config MCheck; method_prog 0 race_config (MRecord Failure)]
              race_half_open).2 in
  from_u8 (state_u8 s) = Open ∧ half_open_probes s = u64_max.
Proof. vm_compute. split; reflexivity. Qed.

(** ** The registry *)

(** The results of a sequence of [get] calls, each at its time. *)
Fixpoint registry_gets (r : Registry) (calls : list (Z * string)) : list (option nat) * Registry :=
  match calls with
  | [] => ([], r)
  | (now, key) :: calls' =>
      let '(r1, cb) := registry_get now key r in
      let '(cbs, r2) := registry_gets r1 calls' in (cb :: cbs, r2)
  end.

(** Every answer is the breaker the final registry holds for that key. *)
Lemma registry_gets_final r calls :
  enabled (reg_config r) = true → registry_ok r →
  let '(cbs, r') := registry_gets r calls in
  registry_ok r' ∧ (∀ k x, reg_breakers r !! k = Some x → reg_breakers r' !! k = Some x)
  ∧ Forall2 (λ c cb, cb = reg_breakers r' !! c.2 ∧ is_Some cb) calls cbs.
Proof.
  revert r. induction calls as [|[now key] calls IH]; intros r He Hok; simpl; [done|].
  pose proof (registry_get_ok now key r Hok) as Hok1.
  destruct (registry_get_same now key r He) as (cb & E2 & Ek & Ec & Hmono).
  destruct (registry_get now key r) as [r1 cb1]. simpl in *. subst cb1.
  specialize (IH r1). rewrite Ec in IH. specialize (IH He Hok1).
  destruct (registry_gets r1 calls) as [cbs r2]. destruct IH as (Hok2 & Hm2 & HF).
  split_and!; [done|eauto|]. constructor; [|done]. simpl. split; [|done]. symmetry. eauto.
Qed.

(** An enabled registry answers every [get] with a breaker, and two
    calls of any sequence get the same breaker exactly when they ask for the
    same key, whatever is asked in between; a disabled one never creates or
    returns a breaker. *)
Theorem registry_one_breaker_per_key (c : BreakerConfig) (calls : list (Z * string))
    (i j : nat) (ci cj : Z * string) :
  calls !! i = Some ci → calls !! j = Some cj →
  let '(cbs, r) := registry_gets (registry_new c) calls in
  if enabled c then
    ∃ bi bj, cbs !! i = Some (Some bi) ∧ cbs !! j = Some (Some bj) ∧ (bi = bj ↔ ci.2 = cj.2)
  else cbs !! i = Some None ∧ reg_created r = [].
Proof.
  intros Hi Hj. destruct (enabled c) eqn:He.
  - pose proof (registry_gets_final (registry_new c) calls He (registry_new_ok c)) as H.
    destruct (registry_gets (registry_new c) calls) as [cbs r]. destruct H as ([_ Hinj] & _ & HF).
    destruct (Forall2_lookup_l _ _ _ _ _ HF Hi) as (cbi & Ei & Ebi & [bi ->]).
    destruct (Forall2_lookup_l _ _ _ _ _ HF Hj) as (cbj & Ej & Ebj & [bj ->]).
    exists bi, bj. split_and!; [done..|]. split; [|intros E; congruence].
    intros <-. eauto.
  - assert (registry_gets (registry_new c) calls = (replicate (length calls) None, registry_new c)) as ->.
    { clear Hi Hj. induction calls as [|[now key] calls IH]; simpl; [done|].
      unfold registry_get. simpl. rewrite He, IH. done. }
    split; [|done]. apply lookup_replicate_2. by eapply lookup_lt_Some.
Qed.

Lemma registry_one_breaker_per_key_witness :
  (registry_gets (registry_new config_server) [(0%Z, "a"); (5%Z, "b"); (9%Z, "a")]).1
    = [Some 0; Some 1; Some 0]
  ∧ ∃ bi bj, [Some 0; Some 1; Some 0] !! 0 = Some (Some bi)
      ∧ [Some 0; Some 1; Some 0] !! 2 = Some (Some bj) ∧ (bi = bj ↔ "a" = "a").
Proof.
  split; [vm_compute; reflexivity|].
  exact (registry_one_breaker_per_key config_server [(0%Z, "a"); (5%Z, "b"); (9%Z, "a")]
           0 2 (0%Z, "a") (9%Z, "a") eq_refl eq_refl).
Defined.
