(* ===== verification/TokenEstimation.v ===== *)
(** * TokenEstimation: the context-window arithmetic

    [src/crates/codegen/ds-token-estimation/src/lib.rs], the arithmetic behind
    the auto-compact gate, the preflight overflow check and the displayed usage.
    A [u64] is a [Z]; the saturating operations of the source are kept, so the
    functions are those of the code at every [u64] input, and the theorem says
    up to which size they compute the exact inequality.  [f64] is the Standard
    Library's [spec_float] at binary64. *)

From S2P Require Import Prelude Text.
From Stdlib Require Import Floats.SpecFloat.

Open Scope Z_scope.

Definition BYTES_PER_TOKEN : Z := 4.
Definition IMAGE_TOKEN_ESTIMATE : Z := 765.

Definition estimate_tokens (s : text) : Z := as_u64 (Z.of_nat (length s)) / BYTES_PER_TOKEN.
Definition estimate_chars (tokens : Z) : Z := u64_saturating_mul tokens BYTES_PER_TOKEN.
Definition estimate_image_tokens (image_count : Z) : Z :=
  u64_saturating_mul image_count IMAGE_TOKEN_ESTIMATE.

(** [u64 as f64] rounds to nearest, ties to even. *)
Definition f64_of_u64 (a : Z) : spec_float := binary_normalize 53 1024 a 0 false.

(** [f64::min]: a NaN argument gives the other one. *)
Definition f64_min (a b : spec_float) : spec_float :=
  match a, b with
  | S754_nan, _ => b
  | _, S754_nan => a
  | _, _ => if SFltb b a then b else a
  end.

(** [f64::round], half away from zero, then the saturating cast to the unsigned
    integers up to [max]. *)
Definition f64_round_as (max : Z) (a : spec_float) : Z :=
  match a with
  | S754_zero _ | S754_nan => 0
  | S754_infinity s => if s then 0 else max
  | S754_finite s m e =>
      let r :=
        if 0 <=? e then Zpos m * 2 ^ e
        else (2 * Zpos m + 2 ^ (- e)) / (2 * 2 ^ (- e)) in
      if s then 0 else Z.min r max
  end.

Definition round_as_u8 : spec_float → Z := f64_round_as 255.

Definition f64_mul : spec_float → spec_float → spec_float := SFmul 53 1024.
Definition f64_div : spec_float → spec_float → spec_float := SFdiv 53 1024.

Definition usage_percentage (used total : Z) : spec_float :=
  if total =? 0 then S754_zero false
  else
    f64_min
      (f64_mul (f64_div (f64_of_u64 used) (f64_of_u64 total)) (f64_of_u64 100))
      (f64_of_u64 100).

Definition usage_percentage_u8 (used total : Z) : Z := round_as_u8 (usage_percentage used total).

Definition usage_percentage_truncated_u8 (used total : Z) : Z :=
  if total =? 0 then 0
  else Z.min (u64_saturating_mul used 100 / total) 100 mod 256.

Definition free_tokens (total used : Z) : Z := u64_saturating_sub total used.

Definition exceeds_threshold (used context_window threshold_percent : Z) : bool :=
  if context_window =? 0 then false
  else u64_saturating_mul context_window threshold_percent <=? u64_saturating_mul used 100.

Definition exceeds_threshold_with_headroom
    (used context_window threshold_percent headroom : Z) : bool :=
  if context_window =? 0 then false
  else
    u64_saturating_sub (u64_saturating_mul context_window threshold_percent)
      (u64_saturating_mul headroom 100)
    <=? u64_saturating_mul used 100.

(** ** The rows of the crate's own tests, evaluated *)

Example usage_percentage_rows :
  usage_percentage_u8 85 200 = 43 ∧ usage_percentage_u8 7 8 = 88
  ∧ usage_percentage_u8 12700 256000 = 5 ∧ usage_percentage_u8 150 100 = 100
  ∧ usage_percentage_truncated_u8 85 200 = 42 ∧ usage_percentage_truncated_u8 u64_max 1 = 100.
Proof. by vm_compute. Qed.

(** ** Lemmas *)

Lemma truncated_spec used total :
  is_u64 used → 0 < total →
  usage_percentage_truncated_u8 used total = Z.min (u64_saturating_mul used 100 / total) 100.
Proof.
  intros [H0 _] Ht. unfold usage_percentage_truncated_u8.
  rewrite (proj2 (Z.eqb_neq _ _)) by lia. apply Z.mod_small.
  assert (0 <= u64_saturating_mul used 100 / total); [|lia].
  apply Z.div_pos; [|done]. unfold u64_saturating_mul, u64_max. lia.
Qed.

Lemma saturated_ge x b : b <= u64_max → (b <=? u64_saturating_mul x 100) = (b <=? 100 * x).
Proof.
  intros Hb. unfold u64_saturating_mul. apply eq_bool_prop_intro.
  rewrite !Is_true_true, !Z.leb_le. lia.
Qed.

(** The auto-compact gate computes exactly its documented inequality as
    long as [context_window * threshold_percent] is a [u64], whatever the
    values of [used] and of the headroom (the saturation of the other
    products is harmless); with that, the gate of threshold [p] fires exactly
    when the truncated percentage has reached [p], which stays within 0..100,
    a larger headroom only makes the gate fire earlier, and a gate without
    headroom is the plain one. *)
Theorem threshold_gates_exact (used window p h : Z) :
  is_u64 used → is_u64 window → 0 < window → 0 <= p <= 100 → is_u64 h →
  window * p <= u64_max →
  exceeds_threshold used window p = (window * p <=? 100 * used)
  ∧ exceeds_threshold_with_headroom used window p h = (window * p <=? 100 * (used + h))
  ∧ exceeds_threshold_with_headroom used window p 0 = exceeds_threshold used window p
  ∧ exceeds_threshold used window p = (p <=? usage_percentage_truncated_u8 used window)
  ∧ 0 <= usage_percentage_truncated_u8 used window <= 100.
Proof.
  intros Hu Hw Hpos Hp Hh Hfit.
  assert ((window =? 0) = false) as Hz by (apply Z.eqb_neq; lia).
  assert (u64_saturating_mul window p = window * p) as Hm
    by (unfold u64_saturating_mul; lia).
  assert (exceeds_threshold used window p = (window * p <=? 100 * used)) as E1.
  { unfold exceeds_threshold. rewrite Hz, Hm. by apply saturated_ge. }
  assert (∀ k, is_u64 k →
    exceeds_threshold_with_headroom used window p k = (window * p <=? 100 * (used + k))) as E2.
  { intros k [Hk _]. unfold exceeds_threshold_with_headroom. rewrite Hz, Hm, saturated_ge.
    - unfold u64_saturating_sub, u64_saturating_mul. destruct Hu. apply eq_bool_prop_intro.
      rewrite !Is_true_true, !Z.leb_le. lia.
    - unfold u64_saturating_sub, u64_saturating_mul, u64_max in *. lia. }
  rewrite E1, !E2, Z.add_0_r by (done || (unfold is_u64, u64_max; lia)).
  rewrite truncated_spec by done.
  assert (0 <= u64_saturating_mul used 100 / window) as Hq.
  { apply Z.div_pos; [|done]. destruct Hu. unfold u64_saturating_mul, u64_max. lia. }
  split_and!; [done..| |lia|lia].
  rewrite <-(saturated_ge used (window * p)) by done. apply eq_bool_prop_intro.
  rewrite !Is_true_true, !Z.leb_le. split; intros H.
  - apply Z.min_glb; [|lia]. by apply Z.div_le_lower_bound.
  - etrans; [apply Z.mul_le_mono_nonneg_l; [lia|]|apply (Z.mul_div_le _ window Hpos)]. lia.
Qed.

(** The 85 percent gate of a 128k window with 108,799 tokens used and a
    headroom of 4,000: the plain gate does not fire, the one with headroom does. *)
Lemma threshold_gates_exact_witness :
  exceeds_threshold 108799 128000 85 = false
  ∧ exceeds_threshold_with_headroom 108799 128000 85 4000 = true
  ∧ exceeds_threshold_with_headroom 108799 128000 85 0 = false.
Proof.
  assert (∀ a, (0 <=? a) && (a <=? 2 ^ 64 - 1) = true → is_u64 a) as Hr.
  { intros a [? ?]%andb_true_iff. unfold is_u64, u64_max. lia. }
  destruct (threshold_gates_exact 108799 128000 85 4000) as (E1 & E2 & E3 & _);
    [by apply Hr|by apply Hr|lia|lia|by apply Hr|unfold u64_max; lia|].
  rewrite E3, E1, E2. split_and!; reflexivity.
Defined.

(** The hypothesis on [context_window * threshold_percent] is needed: past it
    both sides of the gate saturate and it fires at 3 percent usage. *)
Example saturated_gate_fires_early :
  exceeds_threshold (2 ^ 58) (2 ^ 63) 50 = true
  ∧ usage_percentage_truncated_u8 (2 ^ 58) (2 ^ 63) = 1.
Proof. by vm_compute. Qed.
