(* ===== verification/Interjection.v ===== *)
(** * Interjection: the mid-turn message queue

    [src/crates/common/ds-interjection-core/src/]: [events.rs] (the shared
    event queue), [buffer.rs] (interjections as a queue of pending messages)
    and [format.rs] (the envelope a drained message gets).

    Every method of [EventQueue] takes the mutex once and holds it for its whole
    body, so a concurrent history of the queue is a sequence of method calls;
    clones share the one vector.  A queue is the list of its events, oldest
    first, and a method is a function on it. *)

From S2P Require Import Prelude Text TextProps Utf8.

(** ** events.rs *)

Section event_queue.
Context {E : Type}.

Record EventQueue := mkQueue { events : list E }.

Definition queue_new : EventQueue := mkQueue [].

Definition queue_push (q : EventQueue) (event : E) : EventQueue :=
  mkQueue (events q ++ [event]).

Definition queue_push_capped (q : EventQueue) (event : E) (max : nat) : EventQueue :=
  let q1 := events q ++ [event] in
  if max <? length q1 then mkQueue (drop (length q1 - max) q1) else mkQueue q1.

Definition queue_len (q : EventQueue) : nat := length (events q).

Definition queue_is_empty (q : EventQueue) : bool :=
  match events q with [] => true | _ => false end.

(** [Iterator::partition]. *)
Fixpoint partition_b (take : E → bool) (l : list E) : list E * list E :=
  match l with
  | [] => ([], [])
  | e :: l' =>
      let '(matched, kept) := partition_b take l' in
      if take e then (e :: matched, kept) else (matched, e :: kept)
  end.

Definition drain_matching (q : EventQueue) (take : E → bool) : list E * EventQueue :=
  let '(matched, kept) := partition_b take (events q) in (matched, mkQueue kept).

Definition drain_all (q : EventQueue) : list E * EventQueue := (events q, queue_new).

Definition queue_clear (q : EventQueue) : EventQueue := queue_new.

Definition queue_snapshot (q : EventQueue) : list E := events q.

End event_queue.
Arguments EventQueue : clear implicits.

(** ** format.rs *)

Definition LARGE_PROMPT_THRESHOLD : nat := Z.to_nat 25000.

Definition user_query (user_message : text) : text :=
  txtln "<user_query>" ++ user_message ++ [LF] ++ txt "</user_query>".

(** [Iterator::take_while]. *)
Fixpoint take_while {A} (p : A → bool) (l : list A) : list A :=
  match l with
  | [] => []
  | x :: l' => if p x then x :: take_while p l' else []
  end.

(** The byte at which the text is cut. *)
Definition truncation_end (text_ : text) : nat :=
  match last (take_while (λ '(i, _), i <? LARGE_PROMPT_THRESHOLD) (char_indices 0 text_)) with
  | Some (i, len) => i + len
  | None => length text_
  end.

Definition format_interjection (text_ : text) : text :=
  let truncated :=
    if LARGE_PROMPT_THRESHOLD <? length text_
    then take (truncation_end text_) text_ ++ txt "... [truncated]"
    else text_ in
  txtln "The user sent a message while you were working:" ++ user_query truncated.

(** ** buffer.rs *)

Section buffer.
Context {Attachment : Type}.

Record PendingInterjection :=
  mkPending { pi_text : text; pi_attachments : list Attachment }.
Record FormattedInterjection :=
  mkFormatted { fi_text : text; fi_attachments : list Attachment }.

Definition format_entry (sanitize_text : text → text) (entry : PendingInterjection)
    : FormattedInterjection :=
  mkFormatted (format_interjection (sanitize_text (pi_text entry))) (pi_attachments entry).

Definition drain_formatted (buffer : EventQueue PendingInterjection)
    (sanitize_text : text → text) : list FormattedInterjection * EventQueue PendingInterjection :=
  let '(entries, buffer') := drain_all buffer in (format_entry sanitize_text <$> entries, buffer').

End buffer.
Arguments PendingInterjection : clear implicits.
Arguments FormattedInterjection : clear implicits.

(** ** Histories of a queue *)

Section history.
Context {E : Type}.

(** The calls that change the queue. *)
Inductive queue_op :=
| OpPush (e : E)
| OpPushCapped (e : E) (max : nat)
| OpDrainMatching (take : E → bool)
| OpDrainAll
| OpClear.

Definition op_pushes (o : queue_op) : list E :=
  match o with OpPush e | OpPushCapped e _ => [e] | _ => [] end.

(** The events the call returns, and the queue it leaves. *)
Definition run_op (q : EventQueue E) (o : queue_op) : list E * EventQueue E :=
  match o with
  | OpPush e => ([], queue_push q e)
  | OpPushCapped e max => ([], queue_push_capped q e max)
  | OpDrainMatching take => drain_matching q take
  | OpDrainAll => drain_all q
  | OpClear => ([], queue_clear q)
  end.

(** A call that may drop events that nobody has read. *)
Definition lossy (o : queue_op) : bool :=
  match o with OpPushCapped _ _ | OpClear => true | _ => false end.

(** What every drain of a history returned, in order, and the final queue. *)
Fixpoint run_ops (q : EventQueue E) (os : list queue_op) : list (list E) * EventQueue E :=
  match os with
  | [] => ([], q)
  | o :: os' =>
      let '(r, q1) := run_op q o in
      let '(rs, q2) := run_ops q1 os' in (r :: rs, q2)
  end.

(** ** Lemmas *)

Lemma partition_b_filter (p : E → bool) l :
  partition_b p l = (filter_b p l, filter_b (λ e, negb (p e)) l).
Proof. induction l as [|e l IH]; simpl; [done|]. rewrite IH. by destruct (p e). Qed.

Lemma filter_b_Permutation (p : E → bool) l : l ≡ₚ filter_b p l ++ filter_b (λ e, negb (p e)) l.
Proof.
  induction l as [|e l IH]; simpl; [done|]. destruct (p e); simpl.
  - by rewrite <-IH.
  - by rewrite <-Permutation_middle, <-IH.
Qed.

Lemma run_op_sublist q o :
  (run_op q o).1 `sublist_of` events q ++ op_pushes o
  ∧ events (run_op q o).2 `sublist_of` events q ++ op_pushes o.
Proof.
  destruct o; simpl; rewrite ?app_nil_r.
  - split; [apply sublist_nil_l|done].
  - split; [apply sublist_nil_l|]. unfold queue_push_capped. case_match; simpl; [|done].
    apply sublist_drop.
  - unfold drain_matching. rewrite partition_b_filter. simpl. split; apply filter_b_sublist.
  - split; [done|apply sublist_nil_l].
  - split; apply sublist_nil_l.
Qed.

Lemma run_op_lossless q o :
  lossy o = false →
  (run_op q o).1 ++ events (run_op q o).2 ≡ₚ events q ++ op_pushes o.
Proof.
  destruct o; simpl; intros; try done; rewrite ?app_nil_r; try done.
  unfold drain_matching. rewrite partition_b_filter. simpl. symmetry. apply filter_b_Permutation.
Qed.

(** Whatever a history drains, and whatever it leaves, comes from the events
    queued before it and those pushed by it. *)
Lemma run_ops_lossless q os :
  Forall (λ o, lossy o = false) os →
  concat (run_ops q os).1 ++ events (run_ops q os).2 ≡ₚ events q ++ (os ≫= op_pushes).
Proof.
  intros H. revert q. induction H as [|o os Ho _ IH]; intros q; simpl; [by rewrite app_nil_r|].
  pose proof (run_op_lossless q o Ho) as Hop. destruct (run_op q o) as [r q1].
  specialize (IH q1). destruct (run_ops q1 os) as [rs q2]. simpl in *.
  rewrite <-app_assoc, IH, app_assoc, Hop. by rewrite <-app_assoc.
Qed.

Lemma run_ops_sublist q os :
  Forall (λ r, r `sublist_of` events q ++ (os ≫= op_pushes)) (run_ops q os).1
  ∧ events (run_ops q os).2 `sublist_of` events q ++ (os ≫= op_pushes).
Proof.
  revert q. induction os as [|o os IH]; intros q; simpl; [split; [constructor|by rewrite app_nil_r]|].
  destruct (run_op_sublist q o) as [Hr Hq]. destruct (run_op q o) as [r q1]. simpl in *.
  destruct (IH q1) as [IH1 IH2]. destruct (run_ops q1 os) as [rs q2]. simpl in *.
  assert (events q1 ++ (os ≫= op_pushes)
    `sublist_of` events q ++ op_pushes o ++ (os ≫= op_pushes)) as Hm.
  { rewrite app_assoc. by apply sublist_app. }
  split; [constructor|etrans; [exact IH2|exact Hm]].
  - etrans; [exact Hr|]. rewrite app_assoc. by apply sublist_inserts_r.
  - eapply Forall_impl; [exact IH1|]. intros x Hx. etrans; [exact Hx|exact Hm].
Qed.

End history.
Arguments queue_op : clear implicits.

(** ** The cut *)

(** The cut: the end of the last character that starts before byte [N]. *)
Lemma last_char_before (N : nat) s :
  utf8_valid s = true → ∀ i, i < N → N < i + length s →
  ∃ j l, last (take_while (λ '(i, _), i <? N) (char_indices i s)) = Some (j, l)
    ∧ N <= j + l <= N + 3 ∧ i <= j + l <= i + length s
    ∧ utf8_valid (take (j + l - i) s) = true.
Proof.
  intros Hs. pattern s. revert s Hs. apply utf8_valid_ind; [simpl; lia|].
  intros ch rest Hc Hv IH i Hi Hlen. rewrite length_app in Hlen.
  rewrite char_indices_char by done. simpl. rewrite (proj2 (Nat.ltb_lt _ _) Hi).
  assert (utf8_valid ch = true ∧ length ch <= 4) as [Hvc Hl4].
  { destruct Hc as (a & conts & -> & _ & _ & _ & ? & Hr). split; [|done].
    specialize (Hr []). by rewrite app_nil_r in Hr. }
  destruct (decide (i + length ch < N)) as [Hlt|Hge].
  - destruct (IH (i + length ch)) as (j & l & E & ? & ? & Ht); [done|lia|].
    exists j, l. rewrite last_cons, E, length_app. split_and!; [done|lia..|].
    rewrite take_app_ge, utf8_valid_app by (done || lia).
    by replace (j + l - i - length ch) with (j + l - (i + length ch)) by lia.
  - exists i, (length ch). rewrite length_app. split_and!; [|lia..|].
    + assert (take_while (λ '(i0, _), i0 <? N) (char_indices (i + length ch) rest) = []) as ->; [|done].
      destruct (decide (rest = [])) as [->|Hne]; [done|].
      destruct (utf8_valid_char rest Hv Hne) as (ch' & r' & -> & Hc' & _).
      rewrite char_indices_char by done. simpl. by rewrite (proj2 (Nat.ltb_ge _ _)) by lia.
    + by rewrite Nat.add_comm, Nat.add_sub, take_app_length.
Qed.

(** ** Theorems *)

(** In every history of a shared queue, each batch a drain returns and
    the queue left at the end are in the order the events were pushed (each is
    a sublist of the pushed sequence); a history without capped pushes and
    clears neither loses nor duplicates an event, however its drains select;
    a selective drain returns all the matching events and leaves none of them;
    and a capped push keeps exactly the newest [max] events. *)
Theorem queue_history_fifo {E : Type} (os : list (queue_op E)) (q : EventQueue E)
    (take : E → bool) (e : E) (max : nat) :
  (Forall (λ r, r `sublist_of` os ≫= op_pushes) (run_ops queue_new os).1
   ∧ events (run_ops queue_new os).2 `sublist_of` os ≫= op_pushes)
  ∧ (Forall (λ o, lossy o = false) os →
     concat (run_ops queue_new os).1 ++ events (run_ops queue_new os).2 ≡ₚ os ≫= op_pushes)
  ∧ ((drain_matching q take).1 = filter_b take (events q)
     ∧ Forall (λ x, take x = false) (events (drain_matching q take).2))
  ∧ (queue_len (queue_push_capped q e max) = min max (S (queue_len q))
     ∧ events (queue_push_capped q e max) `suffix_of` events q ++ [e]).
Proof.
  split_and!.
  - apply (run_ops_sublist queue_new).
  - apply (run_ops_sublist queue_new).
  - apply (run_ops_lossless queue_new).
  - unfold drain_matching. by rewrite partition_b_filter.
  - unfold drain_matching. rewrite partition_b_filter. simpl. apply Forall_forall.
    intros x [_ Hx]%elem_of_filter_b. by apply negb_true_iff.
  - unfold queue_push_capped, queue_len. case_match; breflect; simpl;
      rewrite ?length_drop, ?length_app in *; simpl in *; lia.
  - unfold queue_push_capped. case_match; simpl; [|done].
    eexists. symmetry. apply take_drop.
Qed.

Definition demo_ops : list (queue_op nat) :=
  [OpPush 1; OpPush 2; OpDrainMatching Nat.even; OpPush 3; OpDrainAll; OpPush 4].

Lemma queue_history_fifo_witness :
  run_ops queue_new demo_ops = ([[]; []; [2]; []; [1; 3]; []], mkQueue [4])
  ∧ concat (run_ops queue_new demo_ops).1 ++ events (run_ops queue_new demo_ops).2
    ≡ₚ demo_ops ≫= op_pushes.
Proof.
  split; [reflexivity|].
  apply (queue_history_fifo demo_ops queue_new Nat.even 0 0). repeat constructor.
Defined.

(** The message built for an interjection is valid UTF-8 whenever the
    text is, so the byte slice of the code never splits a character: a text of
    at most 25,000 bytes is kept whole, a longer one is cut to a prefix that
    ends at a character boundary and has 25,000 to 25,003 bytes. *)
Theorem format_interjection_bounded (s : text) :
  utf8_valid s = true →
  utf8_valid (format_interjection s) = true
  ∧ ∃ body,
      format_interjection s =
        txtln "The user sent a message while you were working:" ++ user_query body
      ∧ (length s <= LARGE_PROMPT_THRESHOLD → body = s)
      ∧ (LARGE_PROMPT_THRESHOLD < length s →
         ∃ p, p `prefix_of` s ∧ utf8_valid p = true
           ∧ LARGE_PROMPT_THRESHOLD <= length p <= LARGE_PROMPT_THRESHOLD + 3
           ∧ body = p ++ txt "... [truncated]").
Proof.
  intros Hv.
  assert (∀ body, utf8_valid body = true →
    utf8_valid (txtln "The user sent a message while you were working:" ++ user_query body) = true)
    as Henv.
  { intros body Hb. rewrite utf8_valid_app by done. unfold user_query.
    rewrite utf8_valid_app by done. by rewrite utf8_valid_app. }
  unfold format_interjection. destruct (LARGE_PROMPT_THRESHOLD <? length s) eqn:Hl; breflect.
  - destruct (last_char_before LARGE_PROMPT_THRESHOLD s Hv 0) as (j & l & E & Hb & Hle & Ht);
      [unfold LARGE_PROMPT_THRESHOLD; lia|lia|].
    rewrite Nat.sub_0_r in Ht. unfold truncation_end. rewrite E. split.
    + apply Henv. by rewrite utf8_valid_app.
    + eexists. split_and!; [done|lia|]. intros _. exists (take (j + l) s).
      split_and!; [eexists; symmetry; apply take_drop|done|rewrite length_take; lia..|done].
  - split; [by apply Henv|]. eexists. split_and!; [done|done|lia].
Qed.

(** A text of one ASCII byte and twenty thousand two-byte characters: the
    25,000-byte limit falls inside a character. *)
Definition long_text : text :=
  txt "a" ++ concat (replicate (Z.to_nat 20000) [ascii_of_nat 195; ascii_of_nat 169]).

Lemma long_text_valid n c : utf8_valid c = true → utf8_valid (concat (replicate n c)) = true.
Proof. intros Hc. induction n; simpl; [done|]. by rewrite utf8_valid_app. Qed.

Lemma length_concat_replicate {A} n (c : list A) : length (concat (replicate n c)) = n * length c.
Proof. induction n; simpl; [done|]. rewrite length_app. lia. Qed.

Lemma format_interjection_bounded_witness :
  utf8_valid (format_interjection long_text) = true
  ∧ ∃ p, p `prefix_of` long_text ∧ LARGE_PROMPT_THRESHOLD <= length p <= LARGE_PROMPT_THRESHOLD + 3
      ∧ format_interjection long_text =
        txtln "The user sent a message while you were working:"
        ++ user_query (p ++ txt "... [truncated]").
Proof.
  destruct (format_interjection_bounded long_text) as (Hv & body & E & _ & Hlong).
  { unfold long_text. rewrite utf8_valid_app by reflexivity. by apply long_text_valid. }
  split; [exact Hv|]. destruct Hlong as (p & Hp & _ & Hl & Hb).
  { unfold long_text, LARGE_PROMPT_THRESHOLD.
    rewrite length_app, length_concat_replicate.
    change (length (txt "a")) with 1. change (length [_; _]) with 2. lia. }
  exists p. rewrite E, Hb. split_and!; [exact Hp|exact (proj1 Hl)|exact (proj2 Hl)|reflexivity].
Defined.

(** A history of an interjection buffer: pushes by the host and drains at the
    turn's safe points, with what each drain returned. *)
Inductive buffer_op {A} := BufferPush (entry : PendingInterjection A) | BufferDrain.
Arguments buffer_op : clear implicits.

Definition buffer_pushes {A} (os : list (buffer_op A)) : list (PendingInterjection A) :=
  os ≫= λ o, match o with BufferPush entry => [entry] | BufferDrain => [] end.

Fixpoint run_buffer {A} (sanitize_text : text → text)
    (b : EventQueue (PendingInterjection A)) (os : list (buffer_op A))
    : list (FormattedInterjection A) * EventQueue (PendingInterjection A) :=
  match os with
  | [] => ([], b)
  | BufferPush entry :: os' => run_buffer sanitize_text (queue_push b entry) os'
  | BufferDrain :: os' =>
      let '(out, b1) := drain_formatted b sanitize_text in
      let '(outs, b2) := run_buffer sanitize_text b1 os' in (out ++ outs, b2)
  end.

Lemma run_buffer_spec {A} f (b : EventQueue (PendingInterjection A)) os :
  (run_buffer f b os).1 ++ (format_entry f <$> events (run_buffer f b os).2)
  = format_entry f <$> events b ++ buffer_pushes os.
Proof.
  revert b. induction os as [|[entry|] os IH]; intros b; simpl; rewrite ?app_nil_r; [done|..].
  - rewrite IH. simpl. by rewrite <-app_assoc.
  - specialize (IH queue_new). unfold drain_formatted. simpl.
    destruct (run_buffer f queue_new os) as [outs b2]. simpl in *.
    by rewrite <-app_assoc, IH, <-fmap_app.
Qed.

(** Interjections reach the model exactly once, in the order they were
    sent and one message each: over any history that ends with a drain, the
    messages drained are the formatted pushed entries, attachments unchanged,
    and nothing is left in the buffer. *)
Theorem interjections_delivered {A} (sanitize_text : text → text) (os : list (buffer_op A)) :
  run_buffer sanitize_text queue_new (os ++ [BufferDrain]) =
    ((λ entry, mkFormatted (format_interjection (sanitize_text (pi_text entry)))
                 (pi_attachments entry)) <$> buffer_pushes os, queue_new).
Proof.
  assert (∀ b, (run_buffer sanitize_text b (os ++ [BufferDrain])).2 = queue_new) as H2.
  { induction os as [|[entry|] os IH]; intros b; simpl; [done|apply IH|].
    specialize (IH queue_new). by destruct (run_buffer sanitize_text queue_new _). }
  pose proof (run_buffer_spec sanitize_text queue_new (os ++ [BufferDrain])) as H.
  rewrite H2 in H. simpl in H. rewrite app_nil_r in H.
  rewrite (surjective_pairing (run_buffer _ _ _)), H2, H. f_equal.
  unfold buffer_pushes. by rewrite bind_app, app_nil_r.
Qed.
