(* ===== verification/CompactionSelect.v ===== *)
(** * Compaction: choosing what to compact

    [src/crates/common/ds-compaction/src/select.rs] over the trait of
    [item.rs].  The history is split so that the newest items fit a token budget
    and no tool result is separated from the request it answers.  Token counts
    are [u32] values, added with saturation.

    The trait [CompactionItem], which the hosts implement, is a class with the
    trait's required methods; its default method is a definition. *)

From S2P Require Import Prelude Text.

Open Scope Z_scope.

(** ** item.rs *)

Inductive CompactionRole := RoleSystem | RoleDeveloper | RoleUser | RoleAssistant | RoleTool.

Record CompactionFileRef := mkFileRef { ref_id : text; ref_name : text }.

Class CompactionItem (T : Type) := {
  role : T → CompactionRole;
  item_text : T → option text;
  has_tool_requests : T → bool;
  is_compaction_summary : T → bool;
  attachment_refs : T → list CompactionFileRef;
}.

Definition is_tool_result {T} `{CompactionItem T} (x : T) : bool :=
  match role x with RoleTool => true | _ => false end.

(** ** select.rs *)

Record SplitPlan := mkPlan { split_idx : nat; tokens_to_compact : Z }.

(** The backward walk, over the counts from the newest to the oldest: the
    index after the first item that does not fit, 0 when all of them do. *)
Fixpoint walk_back (target_tokens kept : Z) (rev_counts : list Z) : nat :=
  match rev_counts with
  | [] => 0
  | count :: rest =>
      if target_tokens <? u32_saturating_add kept count then S (length rest)
      else walk_back target_tokens (u32_saturating_add kept count) rest
  end.

(** The [while] loop of [snap_to_safe_boundary], from [idx] on. *)
Fixpoint skip_tool_results {T} `{CompactionItem T} (idx : nat) (items : list T) : nat :=
  match items with
  | [] => idx
  | x :: rest => if is_tool_result x then skip_tool_results (S idx) rest else idx
  end.

Definition snap_to_safe_boundary {T} `{CompactionItem T} (items : list T) (candidate : nat) : nat :=
  match items !! candidate with
  | None => length items
  | Some x =>
      if is_tool_result x then skip_tool_results candidate (drop candidate items) else candidate
  end.

(** [None] is a panic: a count is missing for an item.  (The assertion that the
    two lengths are equal is a debug assertion.) *)
Definition select_turns_to_compact {T} `{CompactionItem T} (item_token_counts : list Z)
    (items : list T) (target_tokens min_compactable : Z) : option (option SplitPlan) :=
  let total := length items in
  if decide (total = 0%nat) then Some None
  else if decide (length item_token_counts < total)%nat then None
  else
    let split_idx := walk_back target_tokens 0 (reverse (take total item_token_counts)) in
    if decide (split_idx = 0%nat) then Some None
    else
      let safe_split_idx := snap_to_safe_boundary items split_idx in
      if decide (total <= safe_split_idx)%nat then Some None
      else
        let tokens := foldl u32_saturating_add 0 (take safe_split_idx item_token_counts) in
        if tokens <? min_compactable then Some None
        else Some (Some (mkPlan safe_split_idx tokens)).

(** ** Lemmas *)

Definition sum (l : list Z) : Z := foldr Z.add 0 l.

Lemma sum_cons x l : sum (x :: l) = x + sum l.
Proof. done. Qed.

Lemma sum_app l k : sum (l ++ k) = sum l + sum k.
Proof. induction l; simpl; [done|]. fold (sum (l ++ k)). lia. Qed.

Lemma sum_reverse l : sum (reverse l) = sum l.
Proof.
  induction l as [|x l IH]; [done|]. rewrite reverse_cons, sum_app, IH. unfold sum. simpl. lia.
Qed.

Lemma sum_nonneg l : Forall is_u32 l → 0 <= sum l.
Proof. induction 1 as [|x l [? _] _ IH]; simpl; [done|]. unfold sum in *. lia. Qed.

(** A saturating sum is the sum, up to the bound. *)
Lemma fold_saturating l a :
  0 <= a → Forall is_u32 l →
  foldl u32_saturating_add (Z.min a u32_max) l = Z.min (a + sum l) u32_max.
Proof.
  intros Ha Hl. revert a Ha. induction Hl as [|x l Hx Hl IH]; intros a Ha; simpl.
  - unfold sum. simpl. f_equal. lia.
  - pose proof (sum_nonneg l Hl). destruct Hx.
    replace (u32_saturating_add (Z.min a u32_max) x) with (Z.min (a + x) u32_max)
      by (unfold u32_saturating_add; lia).
    rewrite IH by lia. unfold sum. simpl. f_equal. lia.
Qed.

(** The walk: what it keeps fits, and one item more does not. *)
Lemma walk_back_spec target kept rc :
  target < u32_max → 0 <= kept <= target → Forall is_u32 rc →
  let s := walk_back target kept rc in
  (s <= length rc)%nat
  ∧ kept + sum (take (length rc - s) rc) <= target
  ∧ (s = 0%nat ∨ target < kept + sum (take (S (length rc - s)) rc)).
Proof.
  intros Ht Hk Hrc. revert kept Hk. induction Hrc as [|c rc [Hc1 Hc2] Hrc IH]; intros kept Hk; simpl.
  { split; [lia|]. split; [unfold sum; simpl; lia|by left]. }
  destruct (target <? u32_saturating_add kept c) eqn:E; breflect; unfold u32_saturating_add in E.
  - rewrite Nat.sub_diag. simpl. unfold sum. simpl. split; [lia|]. split; [lia|]. right. lia.
  - unfold u32_saturating_add. rewrite Z.min_l by lia.
    destruct (IH (kept + c)) as (H1 & H2 & H3); [lia|].
    set (s := walk_back target (kept + c) rc) in *.
    replace (S (length rc) - s)%nat with (S (length rc - s)) by lia.
    cbn [firstn]. rewrite !sum_cons. split; [lia|]. split; [lia|].
    destruct H3 as [H3|H3]; [by left|right]. lia.
Qed.

Section snap.
Context {T : Type} `{CompactionItem T}.
Implicit Types (items : list T).

Lemma skip_tool_results_spec idx items :
  let s := skip_tool_results idx items in
  (idx <= s <= idx + length items)%nat
  ∧ Forall (λ x, is_tool_result x = true) (take (s - idx) items)
  ∧ ∀ x, items !! (s - idx)%nat = Some x → is_tool_result x = false.
Proof.
  revert idx. induction items as [|x items IH]; intros idx; simpl.
  { split; [lia|]. rewrite Nat.sub_diag. split; [constructor|done]. }
  destruct (is_tool_result x) eqn:E.
  - destruct (IH (S idx)) as (H1 & H2 & H3).
    set (s := skip_tool_results (S idx) items) in *.
    replace (s - idx)%nat with (S (s - S idx)) by lia. simpl.
    split; [lia|]. split; [by constructor|done].
  - rewrite Nat.sub_diag. simpl. split; [lia|]. split; [constructor|]. by intros; simplify_eq.
Qed.

(** The boundary is the next item that is not a tool result. *)
Lemma snap_spec items candidate :
  (candidate <= length items)%nat →
  let s := snap_to_safe_boundary items candidate in
  (candidate <= s <= length items)%nat
  ∧ Forall (λ x, is_tool_result x = true) (take (s - candidate) (drop candidate items))
  ∧ ∀ x, items !! s = Some x → is_tool_result x = false.
Proof.
  intros Hc. unfold snap_to_safe_boundary. destruct (items !! candidate) as [x|] eqn:E; simpl.
  - destruct (is_tool_result x) eqn:Ex.
    + destruct (skip_tool_results_spec candidate (drop candidate items)) as (H1 & H2 & H3).
      rewrite length_drop in H1. split; [lia|]. split; [done|]. intros y Hy. apply H3.
      rewrite lookup_drop. replace (candidate + _)%nat
        with (skip_tool_results candidate (drop candidate items)) by lia. done.
    + rewrite Nat.sub_diag. split; [lia|]. split; [constructor|]. intros; by simplify_eq.
  - apply lookup_ge_None in E. assert (candidate = length items) as -> by lia.
    rewrite Nat.sub_diag. split; [lia|]. split; [constructor|].
    intros y Hy%lookup_lt_Some. lia.
Qed.

(** Every tool result follows a tool result or a request, [open] saying
    whether one comes before the list. *)
Fixpoint paired (open : bool) (items : list T) : Prop :=
  match items with
  | [] => True
  | x :: rest =>
      (is_tool_result x = true → open = true)
      ∧ paired (is_tool_result x || has_tool_requests x) rest
  end.

Lemma paired_drop n open items :
  paired open items →
  (∀ x, drop n items !! 0%nat = Some x → is_tool_result x = false) →
  paired false (drop n items).
Proof.
  revert open items. induction n as [|n IH]; intros open items Hp Hh.
  - destruct items as [|x items]; simpl in *; [done|]. destruct Hp as [_ Hp].
    split; [|done]. intros E. specialize (Hh x eq_refl). congruence.
  - destruct items as [|x items]; simpl in *; [done|]. destruct Hp as [_ Hp]. by eapply IH.
Qed.

End snap.

(** ** Theorems *)

(** The tokens of the items from [n] on. *)
Definition suffix_tokens (counts : list Z) (n : nat) : Z := sum (drop n counts).

(** [n] is the budget's boundary: the items from [n] on fit, one more does
    not. *)
Definition budget_boundary (counts : list Z) (target : Z) (n : nat) : Prop :=
  (0 < n <= length counts)%nat ∧ suffix_tokens counts n <= target
  ∧ target < suffix_tokens counts (n - 1).

Lemma walk_back_boundary counts target :
  Forall is_u32 counts → 0 <= target < u32_max →
  let s := walk_back target 0 (reverse counts) in
  if decide (s = 0%nat) then sum counts <= target else budget_boundary counts target s.
Proof.
  intros Hc Ht. destruct (walk_back_spec target 0 (reverse counts)) as (H1 & H2 & H3);
    [lia|lia|by rewrite Forall_reverse|].
  cbn zeta. set (s := walk_back target 0 (reverse counts)) in *.
  rewrite length_reverse in *. rewrite Z.add_0_l in *.
  rewrite !take_reverse, !sum_reverse in *.
  replace (length counts - (length counts - s))%nat with s in H2 by lia.
  case_decide as Hs.
  - by rewrite Hs, drop_0 in H2.
  - destruct H3 as [?|H3]; [done|]. split; [lia|]. split; [done|].
    replace (length counts - S (length counts - s))%nat with (s - 1)%nat in H3 by lia. done.
Qed.

Lemma suffix_tokens_mono counts n s :
  Forall is_u32 counts → (n <= s)%nat → suffix_tokens counts s <= suffix_tokens counts n.
Proof.
  intros Hc Hns. unfold suffix_tokens.
  assert (drop n counts = take (s - n) (drop n counts) ++ drop s counts) as ->.
  { replace s with (n + (s - n))%nat at 2 by lia. by rewrite <-drop_drop, take_drop. }
  rewrite sum_app.
  pose proof (sum_nonneg (take (s - n) (drop n counts)) (Forall_take _ _ _ (Forall_drop _ _ _ Hc))).
  lia.
Qed.

(** The split of a history for compaction is exact.  With one count per
    item and a budget below [u32::MAX] it never panics.  When it answers a plan,
    the kept items fit the budget and start at the first item, from the place
    where the budget ends, that is not a tool result, so a history without
    orphaned tool results is kept without any; the tokens to compact are the
    saturated sum of the others and reach the minimum.  When it answers none,
    everything fits, or only tool results follow the place where the budget
    ends, or too little would be compacted. *)
Theorem compaction_split_exact {T} `{CompactionItem T} (counts : list Z) (items : list T)
    (target minc : Z) :
  length counts = length items → Forall is_u32 counts → 0 <= target < u32_max →
  ∃ r, select_turns_to_compact counts items target minc = Some r
  ∧ match r with
    | Some plan =>
        let s := split_idx plan in
        ∃ n, budget_boundary counts target n ∧ (n <= s < length items)%nat
          ∧ Forall (λ x, is_tool_result x = true) (take (s - n) (drop n items))
          ∧ (∃ x, items !! s = Some x ∧ is_tool_result x = false)
          ∧ suffix_tokens counts s <= target
          ∧ tokens_to_compact plan = Z.min (sum (take s counts)) u32_max
          ∧ minc <= tokens_to_compact plan
          ∧ (paired false items → paired false (drop s items))
    | None =>
        sum counts <= target
        ∨ ∃ n, budget_boundary counts target n
            ∧ (Forall (λ x, is_tool_result x = true) (drop n items)
               ∨ ∃ s, (n <= s < length items)%nat
                   ∧ Forall (λ x, is_tool_result x = true) (take (s - n) (drop n items))
                   ∧ Z.min (sum (take s counts)) u32_max < minc)
    end.
Proof.
  intros Hlen Hc Ht. unfold select_turns_to_compact. rewrite <-Hlen.
  rewrite (firstn_all counts). case_decide as H0.
  { eexists. split; [done|]. left. destruct counts; [|done]. unfold sum. simpl. lia. }
  rewrite decide_False by lia.
  pose proof (walk_back_boundary counts target Hc Ht) as Hb. cbn zeta in Hb.
  set (n := walk_back target 0 (reverse counts)) in *.
  case_decide as Hn; [eexists; split; [done|by left]|].
  assert ((n <= length items)%nat) as Hnl by (destruct Hb; lia).
  destruct (snap_spec items n Hnl) as (Hs1 & Hs2 & Hs3).
  set (s := snap_to_safe_boundary items n) in *.
  assert (foldl u32_saturating_add 0 (take s counts) = Z.min (sum (take s counts)) u32_max) as ->.
  { apply (fold_saturating (take s counts) 0); [lia|]. by apply Forall_take. }
  case_decide as Hst.
  { eexists. split; [done|]. right. exists n. split; [done|]. left.
    rewrite take_ge in Hs2; [done|]. rewrite length_drop. lia. }
  case_match eqn:Hm; breflect; (eexists; split; [done|]).
  { right. exists n. split; [done|]. right. exists s. by split; [lia|]. }
  destruct (lookup_lt_is_Some_2 items s) as [x Hx]; [lia|].
  exists n. simpl. split; [done|]. split; [lia|]. split; [done|]. split; [by eauto|].
  split. { etrans; [apply (suffix_tokens_mono counts n); [done|lia]|]. apply Hb. }
  split; [done|]. split; [done|]. intros Hp. eapply paired_drop; [done|].
  intros y. rewrite lookup_drop, Nat.add_0_r. apply Hs3.
Qed.

(** A history [user, assistant, request, result, result, answer], as in the
    tests of the source. *)
#[export] Instance demo_item : CompactionItem (CompactionRole * bool) := {|
  role := fst;
  item_text _ := None;
  has_tool_requests := snd;
  is_compaction_summary _ := false;
  attachment_refs _ := [];
|}.

Definition demo_items : list (CompactionRole * bool) :=
  [(RoleUser, false); (RoleAssistant, false); (RoleAssistant, true); (RoleTool, false);
   (RoleTool, false); (RoleAssistant, false)].
Definition demo_counts : list Z := [10; 10; 10; 50; 50; 10].

Lemma compaction_split_exact_witness :
  select_turns_to_compact demo_counts demo_items 60 5 = Some (Some (mkPlan 5 130))
  ∧ paired false (drop 5 demo_items) ∧ suffix_tokens demo_counts 5 <= 60.
Proof.
  split; [reflexivity|].
  destruct (compaction_split_exact demo_counts demo_items 60 5) as (r & E & Hr);
    [reflexivity|repeat (constructor; [unfold is_u32, u32_max; lia|]); constructor
    |unfold u32_max; lia|].
  assert (r = Some (mkPlan 5 130)) as ->.
  { assert (Some r = Some (Some (mkPlan 5 130))) as Er by (rewrite <-E; reflexivity).
    injection Er as Er. exact Er. }
  destruct Hr as (n & _ & _ & _ & _ & Hs & _ & _ & Hp). split; [|exact Hs].
  apply Hp. simpl. repeat split; intros; discriminate || reflexivity.
Defined.

(** With a newest item that alone exceeds the budget the boundary is the end
    of the history and nothing is compacted, however long the history is. *)
Example oversized_newest_item :
  select_turns_to_compact [1000; 1000; 1000; 61] (take 4 demo_items) 60 5 = Some None.
Proof. reflexivity. Qed.
