(* ===== verification/Conversation.v ===== *)
(** * Conversations

    The data of [ds-sampling-types/src/conversation.rs] that the chat state and
    the sampler share: the items of a conversation with their parts, what is
    asked of them, and the response of the model.  The types of the Responses
    API that the source wraps (reasoning items, backend tool calls) have the
    fields the program reads.  A [panic] of the source is [None]. *)

From S2P Require Import Prelude Text.

Open Scope Z_scope.

(** ** Items *)

Inductive ContentPart := TextPart (t : text) | ImagePart (url : text).

Inductive SyntheticReason :=
| CompactionMeta | SystemReminder | ProjectInstructions | AutoContinue | AutoRecovery
| Interjection | TaskCompleted | SubagentCompleted | NotificationDrain | GoalSummary
| GoalClassifierNudge | SchedulerFired | UnknownReason.

Definition starts_prompt_turn (r : SyntheticReason) : bool :=
  match r with
  | TaskCompleted | SubagentCompleted | NotificationDrain | GoalClassifierNudge
  | SchedulerFired => true
  | CompactionMeta | SystemReminder | ProjectInstructions | AutoContinue | AutoRecovery
  | Interjection | GoalSummary | UnknownReason => false
  end.

Inductive PriorTurnInterrupt :=
| MidTurnAbort | PermissionRejected | PermissionCancelled | UnknownInterrupt.

Record UserItem := mkUser {
  user_content : list ContentPart;
  synthetic_reason : option SyntheticReason;
  prior_turn_interrupt : option PriorTurnInterrupt;
  user_prompt_index : option nat;
}.

Record ToolCall := mkToolCall {
  call_id : text;
  call_name : text;
  call_arguments : text;
}.

Inductive ReasoningEffort := EffortNone | EffortLow | EffortHigh | EffortMax.

Record AssistantItem := mkAssistant {
  content : text;
  tool_calls : list ToolCall;
  model_id : option text;
  model_fingerprint : option text;
  reasoning_effort : option ReasoningEffort;
}.

Record ToolResultItem := mkToolResult {
  tool_call_id : text;
  tr_content : text;
  tr_images : list ContentPart;
}.

Record ReasoningItem := mkReasoning {
  r_id : text;
  r_summary : list text;
  r_content : option (list text);
  r_encrypted_content : option text;
}.

Inductive WebSearchAction :=
| Search (query : text)
| OpenPage (url : option text)
| FindInPage (pattern url : text).

Inductive BackendToolKind :=
| WebSearch (id : text) (action : WebSearchAction)
| XSearch (id name input : text)
| CodeInterpreter (id : text) (code : option text).

Inductive ConversationItem :=
| System (t : text)
| User (u : UserItem)
| Assistant (a : AssistantItem)
| ToolResult (t : ToolResultItem)
| BackendToolCall (kind : BackendToolKind)
| Reasoning (r : ReasoningItem).

#[export] Instance ContentPart_eq_dec : EqDecision ContentPart.
Proof. solve_decision. Defined.
#[export] Instance SyntheticReason_eq_dec : EqDecision SyntheticReason.
Proof. solve_decision. Defined.
#[export] Instance PriorTurnInterrupt_eq_dec : EqDecision PriorTurnInterrupt.
Proof. solve_decision. Defined.
#[export] Instance UserItem_eq_dec : EqDecision UserItem.
Proof. solve_decision. Defined.
#[export] Instance ToolCall_eq_dec : EqDecision ToolCall.
Proof. solve_decision. Defined.
#[export] Instance ReasoningEffort_eq_dec : EqDecision ReasoningEffort.
Proof. solve_decision. Defined.
#[export] Instance AssistantItem_eq_dec : EqDecision AssistantItem.
Proof. solve_decision. Defined.
#[export] Instance ToolResultItem_eq_dec : EqDecision ToolResultItem.
Proof. solve_decision. Defined.
#[export] Instance ReasoningItem_eq_dec : EqDecision ReasoningItem.
Proof. solve_decision. Defined.
#[export] Instance WebSearchAction_eq_dec : EqDecision WebSearchAction.
Proof. solve_decision. Defined.
#[export] Instance BackendToolKind_eq_dec : EqDecision BackendToolKind.
Proof. solve_decision. Defined.
#[export] Instance ConversationItem_eq_dec : EqDecision ConversationItem.
Proof. solve_decision. Defined.

(** ** Constructors and accessors *)

(** [ConversationItem::user] and [ConversationItem::tool_result]. *)
Definition user_text (t : text) : ConversationItem := User (mkUser [TextPart t] None None None).
Definition tool_result (id result : text) : ConversationItem :=
  ToolResult (mkToolResult id result []).

Definition is_user (i : ConversationItem) : bool := match i with User _ => true | _ => false end.
Definition is_result (i : ConversationItem) : bool :=
  match i with ToolResult _ => true | _ => false end.
Definition is_system (i : ConversationItem) : bool :=
  match i with System _ => true | _ => false end.

Definition is_image (p : ContentPart) : bool := match p with ImagePart _ => true | _ => false end.

(** [BackendToolCallItem::text_summary].  The preview of the code is the slice
    [&c[..100]], which panics inside a character. *)
Definition code_preview (code : option text) : option text :=
  match code with
  | None => Some []
  | Some c =>
      if (100 <? Z.of_nat (length c))%Z then
        if is_char_boundary c 100 then Some (take 100 c ++ txt "...") else None
      else Some c
  end.

Definition text_summary (k : BackendToolKind) : option text :=
  match k with
  | WebSearch _ action =>
      let action_desc :=
        match action with
        | Search query => txt "search: " ++ query
        | OpenPage url => txt "open: " ++ default (txt "?") url
        | FindInPage pattern url => txt "find " ++ quoted pattern ++ txt " in " ++ url
        end in
      Some (txt "[backend web_search] " ++ action_desc)
  | XSearch _ name input =>
      Some (txt "[backend x_search] " ++ name ++ txt "(" ++ input ++ txt ")")
  | CodeInterpreter _ code => (λ p, txt "[backend code_interpreter] " ++ p) <$> code_preview code
  end.

Definition reasoning_item_text (r : ReasoningItem) : text :=
  join_with [LF] (r_summary r ++ default [] (r_content r)).

(** ** Images *)

Definition IMAGE_PLACEHOLDER : text := txt "[image removed — not sent to the model]".

Definition strip_part (p : ContentPart) : ContentPart :=
  if is_image p then TextPart IMAGE_PLACEHOLDER else p.

Definition set_user_content (parts : list ContentPart) (u : UserItem) : UserItem :=
  mkUser parts (synthetic_reason u) (prior_turn_interrupt u) (user_prompt_index u).

(** One iteration of the loop of [ConversationRequest::strip_images]. *)
Definition strip_item (item : ConversationItem) : ConversationItem * nat :=
  match item with
  | User u =>
      (User (set_user_content (strip_part <$> user_content u) u),
       length (filter_b is_image (user_content u)))
  | ToolResult t =>
      (ToolResult (mkToolResult (tool_call_id t) (tr_content t) []), length (tr_images t))
  | _ => (item, 0%nat)
  end.

Definition strip_images (items : list ConversationItem) : list ConversationItem * nat :=
  ((strip_item <$> items).*1, sum_list (strip_item <$> items).*2).

(** [ConversationItem::text_content]. *)
Definition part_text (p : ContentPart) : option text :=
  match p with TextPart t => Some t | ImagePart _ => None end.

Definition text_content (i : ConversationItem) : option text :=
  match i with
  | System t => Some t
  | User u => Some (join_with [LF] (omap part_text (user_content u)))
  | Assistant a => Some (content a)
  | ToolResult t => Some (tr_content t)
  | BackendToolCall k => text_summary k
  | Reasoning r => Some (reasoning_item_text r)
  end.

(** ** Sampling configuration *)

Inductive ApiBackend := ChatCompletions | Responses | Messages.

(** ** Responses *)

Inductive StopReason := Stop | Length | ToolCalls | ContentFilter.

Definition stop_reason_str (s : StopReason) : text :=
  txt match s with
      | Stop => "stop" | Length => "length" | ToolCalls => "tool_calls"
      | ContentFilter => "content_filter"
      end.

(** The counts are [u32]. *)
Record TokenUsage := mkUsage {
  prompt_tokens : Z;
  completion_tokens : Z;
  usage_total_tokens : Z;
  reasoning_tokens : Z;
  cached_prompt_tokens : Z;
}.

Definition reported_cost_ticks (raw : option Z) : option Z :=
  match raw with Some t => if 0 <? t then Some t else None | None => None end.
