(* ===== verification/ToolPairing.v ===== *)
(** * Tool calls and their results

    The repairs of [ds-sampling-types/src/conversation.rs] (duplicate results,
    unanswered calls), and of [ds-chat-state/src/compaction_utils.rs] (displaced
    results, the full repair of a history).  Model APIs reject a conversation in
    which the results that follow an assistant message are not exactly those of
    its calls.

    The source scans with indices, removes and splices in place, and scans again
    after a removal; these loops are modelled as they are, with fuel where an
    iteration does not advance.  The second half of the file gives the reference:
    a conversation is cut into runs of results, each with the calls of the item
    before it, and every repair is a function on runs. *)

From S2P Require Import Prelude Text Conversation.

Open Scope nat_scope.

(** ** conversation.rs *)

Inductive DanglingToolCallReason := UserCancelled | HarnessHalted (class : text).

Definition synthetic_dangling_result_text (name : text) (reason : DanglingToolCallReason) : text :=
  match reason with
  | UserCancelled =>
      txt "Tool execution was cancelled by the user (tool `" ++ name ++ txt "` was not executed)."
  | HarnessHalted class =>
      txt "Tool execution was halted by the harness (" ++ class ++ txt "); the tool `" ++ name
      ++ txt "` was not executed."
  end.

(** The tool calls of an assistant message; none for another item. *)
Definition calls_of (i : ConversationItem) : list ToolCall :=
  match i with Assistant a => tool_calls a | _ => [] end.

(** The length of the run of results a list starts with. *)
Fixpoint run_length (l : list ConversationItem) : nat :=
  match l with ToolResult _ :: l' => S (run_length l') | _ => 0 end.

Definition result_id (i : ConversationItem) : option text :=
  match i with ToolResult t => Some (tool_call_id t) | _ => None end.

(** The identifiers answered by the items from [start] to [end_]. *)
Definition answered (conversation : list ConversationItem) (start end_ : nat) : list text :=
  omap result_id (take (end_ - start) (drop start conversation)).

Definition unanswered (calls : list ToolCall) (ids : list text) : list ToolCall :=
  filter_b (λ c, negb (bool_decide (call_id c ∈ ids))) calls.

Definition synthetic_result (reason : DanglingToolCallReason) (c : ToolCall) : ToolResultItem :=
  mkToolResult (call_id c) (synthetic_dangling_result_text (call_name c) reason) [].

(** Phase 1 of [repair_dangling_tool_calls]; the fuel is the number of items
    left. *)
Fixpoint repair_scan (fuel : nat) (reason : DanglingToolCallReason)
    (conversation : list ConversationItem) (i : nat) : list (nat * list ConversationItem) :=
  match fuel, conversation !! i with
  | 0, _ | _, None => []
  | S fuel, Some item =>
      match calls_of item with
      | [] => repair_scan fuel reason conversation (i + 1)
      | calls =>
          let j := i + 1 + run_length (drop (i + 1) conversation) in
          let synthetic :=
            (λ c, ToolResult (synthetic_result reason c)) <$>
              unanswered calls (answered conversation (i + 1) j) in
          let rest := repair_scan fuel reason conversation j in
          match synthetic with [] => rest | _ => (j, synthetic) :: rest end
      end
  end.

(** [Vec::splice(at..at, items)]. *)
Definition splice {A} (at_ : nat) (items l : list A) : list A := take at_ l ++ items ++ drop at_ l.

(** Phase 2 applies the repairs from the last to the first. *)
Definition repair_dangling_tool_calls (conversation : list ConversationItem)
    (reason : DanglingToolCallReason) : list ConversationItem * nat :=
  let repairs := repair_scan (length conversation) reason conversation 0 in
  (foldr (λ '(at_, s) l, splice at_ s l) conversation repairs,
   sum_list (length <$> repairs.*2)).

Fixpoint has_dangling_scan (fuel : nat) (conversation : list ConversationItem) (i : nat) : bool :=
  match fuel, conversation !! i with
  | 0, _ | _, None => false
  | S fuel, Some item =>
      match calls_of item with
      | [] => has_dangling_scan fuel conversation (i + 1)
      | calls =>
          let j := i + 1 + run_length (drop (i + 1) conversation) in
          let ids := answered conversation (i + 1) j in
          if any_b (λ c, negb (bool_decide (call_id c ∈ ids))) calls then true
          else has_dangling_scan fuel conversation j
      end
  end.

Definition has_dangling_tool_calls (conversation : list ConversationItem) : bool :=
  has_dangling_scan (length conversation) conversation 0.

(** The indices of the earlier of two results with the same identifier, in the
    order in which the later ones are met; [seen] has the last index of each. *)
Fixpoint window_duplicates (seen : gmap text nat) (idx : nat) (window : list ConversationItem)
    : list nat :=
  match window with
  | [] => []
  | item :: rest =>
      match result_id item with
      | Some id =>
          let found := window_duplicates (<[id := idx]> seen) (S idx) rest in
          match seen !! id with Some prev => prev :: found | None => found end
      | None => window_duplicates seen (S idx) rest
      end
  end.

Fixpoint dedup_loop (fuel : nat) (conversation : list ConversationItem) (i total_removed : nat)
    : list ConversationItem * nat :=
  match fuel, conversation !! i with
  | 0, _ | _, None => (conversation, total_removed)
  | S fuel, Some item =>
      match calls_of item with
      | [] => dedup_loop fuel conversation (i + 1) total_removed
      | _ =>
          let start := i + 1 in
          let end_ := start + run_length (drop start conversation) in
          let to_remove :=
            window_duplicates ∅ start (take (end_ - start) (drop start conversation)) in
          match to_remove with
          | [] => dedup_loop fuel conversation end_ total_removed
          | _ =>
              let to_remove := reverse (sort_by_key id to_remove) in
              dedup_loop fuel (foldl (λ l idx, delete idx l) conversation to_remove) i
                (total_removed + length to_remove)
          end
      end
  end.

Definition dedup_duplicate_tool_results (conversation : list ConversationItem)
    : list ConversationItem * nat :=
  dedup_loop (length conversation) conversation 0 0.

(** ** compaction_utils.rs *)

Definition validate_step (acc : gset text * list text) (item : ConversationItem)
    : gset text * list text :=
  let '(seen_ids, invalid_ids) := acc in
  match item with
  | Assistant a => (list_to_set (call_id <$> tool_calls a) ∪ seen_ids, invalid_ids)
  | ToolResult tr =>
      (seen_ids,
       if decide (tool_call_id tr ∈ seen_ids) then invalid_ids
       else invalid_ids ++ [tool_call_id tr])
  | _ => acc
  end.

Definition validate_compacted_history (items : list ConversationItem) : list text :=
  (foldl validate_step (∅, []) items).2.

(** The filter of [sanitize_compacted_history] with the set it has seen. *)
Fixpoint sanitize_from (seen_ids : gset text) (items : list ConversationItem)
    : list ConversationItem * list text :=
  match items with
  | [] => ([], [])
  | Assistant a :: rest =>
      let '(kept, stripped) := sanitize_from (list_to_set (call_id <$> tool_calls a) ∪ seen_ids) rest in
      (Assistant a :: kept, stripped)
  | ToolResult tr :: rest =>
      let '(kept, stripped) := sanitize_from seen_ids rest in
      if decide (tool_call_id tr ∈ seen_ids) then (ToolResult tr :: kept, stripped)
      else (kept, tool_call_id tr :: stripped)
  | item :: rest =>
      let '(kept, stripped) := sanitize_from seen_ids rest in (item :: kept, stripped)
  end.

Definition sanitize_compacted_history (items : list ConversationItem)
    : list ConversationItem * list text := sanitize_from ∅ items.

(** [Vec::retain] with the identifiers of the current run. *)
Fixpoint strip_from (run_ids : gset text) (items : list ConversationItem)
    : list ConversationItem * list text :=
  match items with
  | [] => ([], [])
  | Assistant a :: rest =>
      let '(kept, stripped) := strip_from (list_to_set (call_id <$> tool_calls a)) rest in
      (Assistant a :: kept, stripped)
  | ToolResult tr :: rest =>
      let '(kept, stripped) := strip_from run_ids rest in
      if decide (tool_call_id tr ∈ run_ids) then (ToolResult tr :: kept, stripped)
      else (kept, tool_call_id tr :: stripped)
  | item :: rest => let '(kept, stripped) := strip_from ∅ rest in (item :: kept, stripped)
  end.

Definition strip_displaced_tool_results (items : list ConversationItem)
    : list ConversationItem * list text := strip_from ∅ items.

Record HistoryRepairReport := mkReport {
  duplicates_removed : nat;
  stripped_tool_result_ids : list text;
  synthetic_results_inserted : nat;
}.

Definition report_changed (r : HistoryRepairReport) : bool :=
  (0 <? duplicates_removed r) || negb (bool_decide (stripped_tool_result_ids r = []))
  || (0 <? synthetic_results_inserted r).

Definition repair_history (items : list ConversationItem)
    : list ConversationItem * HistoryRepairReport :=
  let '(items, duplicates_removed) := dedup_duplicate_tool_results items in
  let '(items, stripped) := strip_displaced_tool_results items in
  let '(items, inserted) :=
    repair_dangling_tool_calls items (HarnessHalted (txt "history_repair")) in
  (items, mkReport duplicates_removed stripped inserted).

(** ** Runs of results *)

(** The run a list starts with, and the rest with [f] applied to every later
    run and the calls of the item before it. *)
Fixpoint split_runs (f : list ToolCall → list ToolResultItem → list ToolResultItem)
    (l : list ConversationItem) : list ToolResultItem * list ConversationItem :=
  match l with
  | [] => ([], [])
  | ToolResult t :: l' => let '(run, rest) := split_runs f l' in (t :: run, rest)
  | x :: l' =>
      let '(run, rest) := split_runs f l' in ([], x :: (ToolResult <$> f (calls_of x) run) ++ rest)
  end.

(** [f] on every run; the first one has no calls. *)
Definition map_runs (f : list ToolCall → list ToolResultItem → list ToolResultItem)
    (l : list ConversationItem) : list ConversationItem :=
  let '(run, rest) := split_runs f l in (ToolResult <$> f [] run) ++ rest.

Fixpoint runs_of (l : list ConversationItem)
    : list ToolResultItem * list (list ToolCall * list ToolResultItem) :=
  match l with
  | [] => ([], [])
  | ToolResult t :: l' => let '(run, rs) := runs_of l' in (t :: run, rs)
  | x :: l' => let '(run, rs) := runs_of l' in ([], (calls_of x, run) :: rs)
  end.

(** The runs of a conversation with their calls. *)
Definition runs (l : list ConversationItem) : list (list ToolCall * list ToolResultItem) :=
  let '(run, rs) := runs_of l in ([], run) :: rs.

Definition ids (run : list ToolResultItem) : list text := tool_call_id <$> run.

(** Of the results with the same identifier, the last one. *)
Fixpoint keep_last (run : list ToolResultItem) : list ToolResultItem :=
  match run with
  | [] => []
  | t :: run' => if decide (tool_call_id t ∈ ids run') then keep_last run' else t :: keep_last run'
  end.

Definition dedup_run (calls : list ToolCall) (run : list ToolResultItem) : list ToolResultItem :=
  match calls with [] => run | _ => keep_last run end.

Definition strip_run (calls : list ToolCall) (run : list ToolResultItem) : list ToolResultItem :=
  filter_b (λ t, bool_decide (tool_call_id t ∈ call_id <$> calls)) run.

Definition answer_run (reason : DanglingToolCallReason) (calls : list ToolCall)
    (run : list ToolResultItem) : list ToolResultItem :=
  run ++ (synthetic_result reason <$> unanswered calls (ids run)).

(** The results are exactly those of the calls, one for each. *)
Definition paired (calls : list ToolCall) (run : list ToolResultItem) : Prop :=
  NoDup (ids run) ∧ ∀ id, id ∈ ids run ↔ id ∈ call_id <$> calls.

Definition well_paired (l : list ConversationItem) : Prop :=
  Forall (λ r, paired r.1 r.2) (runs l).

(** No message calls twice with the same identifier. *)
Definition calls_distinct (l : list ConversationItem) : Prop :=
  Forall (λ i, NoDup (call_id <$> calls_of i)) l.
