(* ===== verification/ToolPairingProps.v ===== *)
(** * Tool calls and their results: properties

    The scans of [ToolPairing] compute the functions on runs, for every
    conversation, and the full repair pairs calls and results. *)

From S2P Require Import Prelude Text Conversation ToolPairing.

Open Scope nat_scope.

Notation run_map := (list ToolCall → list ToolResultItem → list ToolResultItem) (only parsing).

(** ** Runs *)

Lemma run_split l :
  ∃ W post, l = (ToolResult <$> W) ++ post ∧ run_length post = 0 ∧ run_length l = length W.
Proof.
  induction l as [|x l (W & post & -> & Hp & Hl)]; [by exists [], []|].
  destruct x; try (by eexists [], _).
  exists (t :: W), post. simpl. by rewrite Hl.
Qed.

Lemma split_runs_results (f : run_map) W post :
  split_runs f ((ToolResult <$> W) ++ post) = (W ++ (split_runs f post).1, (split_runs f post).2).
Proof.
  induction W as [|t W IH]; [simpl; by destruct (split_runs f post)|].
  rewrite fmap_cons, <-!app_comm_cons. cbn [split_runs]. by rewrite IH.
Qed.

Lemma split_runs_other (f : run_map) post : run_length post = 0 → (split_runs f post).1 = [].
Proof. destruct post as [|[] post]; simpl; try done; by destruct (split_runs f post). Qed.

Lemma split_runs_item (f : run_map) x l :
  is_result x = false →
  split_runs f (x :: l) =
    ([], x :: (ToolResult <$> f (calls_of x) (split_runs f l).1) ++ (split_runs f l).2).
Proof. destruct x; simpl; try done; by destruct (split_runs f l). Qed.

Lemma map_runs_unfold (f : run_map) l :
  map_runs f l = (ToolResult <$> f [] (split_runs f l).1) ++ (split_runs f l).2.
Proof. unfold map_runs. by destruct (split_runs f l). Qed.

(** An item, its run, and what follows. *)
Lemma map_runs_block (f : run_map) x W post :
  f [] [] = [] → is_result x = false → run_length post = 0 →
  map_runs f (x :: (ToolResult <$> W) ++ post) =
    x :: (ToolResult <$> f (calls_of x) W) ++ map_runs f post.
Proof.
  intros Hf Hx Hp. rewrite !map_runs_unfold, split_runs_item, split_runs_results by done. simpl.
  rewrite Hf, (split_runs_other f post Hp), app_nil_r. simpl. by rewrite Hf.
Qed.

(** An item without calls, for a function that leaves such runs alone. *)
Lemma map_runs_plain (f : run_map) x l :
  (∀ run, f [] run = run) → calls_of x = [] → map_runs f (x :: l) = x :: map_runs f l.
Proof.
  intros Hf Hx. destruct (is_result x) eqn:Hr.
  - destruct x; try done. rewrite !map_runs_unfold. simpl.
    destruct (split_runs f l). simpl. by rewrite !Hf.
  - rewrite !map_runs_unfold, split_runs_item by done. simpl. by rewrite Hx, !Hf.
Qed.

Lemma runs_unfold l : runs l = ([], (runs_of l).1) :: (runs_of l).2.
Proof. unfold runs. by destruct (runs_of l). Qed.

Lemma runs_of_item x l :
  is_result x = false → runs_of (x :: l) = ([], (calls_of x, (runs_of l).1) :: (runs_of l).2).
Proof. destruct x; simpl; try done; by destruct (runs_of l). Qed.

Lemma runs_of_results W post :
  runs_of ((ToolResult <$> W) ++ post) = (W ++ (runs_of post).1, (runs_of post).2).
Proof.
  induction W as [|t W IH]; [simpl; by destruct (runs_of post)|].
  rewrite fmap_cons, <-!app_comm_cons. cbn [runs_of]. by rewrite IH.
Qed.

Lemma runs_of_split_runs (f : run_map) l :
  runs_of (split_runs f l).2 = ([], (λ r, (r.1, f r.1 r.2)) <$> (runs_of l).2) ∧
  (split_runs f l).1 = (runs_of l).1.
Proof.
  induction l as [|x l [IH1 IH2]]; [done|]. destruct (is_result x) eqn:Hx.
  - destruct x; try done. simpl. destruct (split_runs f l), (runs_of l); simpl in *. by subst.
  - rewrite split_runs_item, runs_of_item by done. cbn [fst snd].
    rewrite (runs_of_item x _ Hx), runs_of_results, IH1. simpl. by rewrite app_nil_r, IH2.
Qed.

Lemma runs_map_runs (f : run_map) l : runs (map_runs f l) = (λ r, (r.1, f r.1 r.2)) <$> runs l.
Proof.
  destruct (runs_of_split_runs f l) as [H1 H2].
  rewrite map_runs_unfold, !runs_unfold, runs_of_results, H1. simpl. by rewrite app_nil_r, H2.
Qed.

(** Two functions that agree on every run of a conversation. *)
Lemma map_runs_ext (f g : run_map) l :
  Forall (λ r, f r.1 r.2 = g r.1 r.2) (runs l) → map_runs f l = map_runs g l.
Proof.
  rewrite runs_unfold, !map_runs_unfold. intros [H0 H]%Forall_cons. simpl in H0.
  rewrite (proj2 (runs_of_split_runs f l)), (proj2 (runs_of_split_runs g l)), H0. f_equal. clear H0.
  assert (split_runs f l = split_runs g l) as ->; [|done].
  induction l as [|x l IH]; [done|]. destruct (is_result x) eqn:Hx.
  - destruct x; try done. cbn [runs_of split_runs] in *. destruct (runs_of l). by rewrite IH.
  - rewrite runs_of_item in H by done. apply Forall_cons in H as [Hh Ht]. simpl in Hh.
    rewrite !split_runs_item, (IH Ht) by done.
    by rewrite (proj2 (runs_of_split_runs g l)), Hh.
Qed.

Lemma map_runs_id l : map_runs (λ _ run, run) l = l.
Proof.
  induction l as [|x l IH]; [done|]. destruct (calls_of x) eqn:Hx.
  { by rewrite map_runs_plain, IH. }
  assert (is_result x = false) as Hr by by destruct x.
  rewrite map_runs_unfold, split_runs_item by done. simpl.
  rewrite map_runs_unfold in IH. by rewrite IH.
Qed.

Lemma map_runs_compose (f g : run_map) l :
  map_runs g (map_runs f l) = map_runs (λ c run, g c (f c run)) l.
Proof.
  rewrite (map_runs_unfold f), (map_runs_unfold g), split_runs_results, map_runs_unfold.
  assert (H : split_runs g (split_runs f l).2 = ([], (split_runs (λ c run, g c (f c run)) l).2) ∧
    (split_runs f l).1 = (split_runs (λ c run, g c (f c run)) l).1).
  { induction l as [|x l [IH1 IH2]]; [done|]. destruct (is_result x) eqn:Hx.
    - destruct x; try done. simpl. destruct (split_runs f l), (split_runs _ l); simpl in *. by subst.
    - rewrite !split_runs_item by done. cbn [fst snd].
      rewrite (split_runs_item g) by done. rewrite split_runs_results, IH1. simpl.
      by rewrite app_nil_r, IH2. }
  destruct H as [-> ->]. simpl. by rewrite app_nil_r.
Qed.

(** The items other than results are not touched. *)
Lemma map_runs_others (f : run_map) l :
  filter_b (λ i, negb (is_result i)) (map_runs f l) = filter_b (λ i, negb (is_result i)) l.
Proof.
  assert (Hres : ∀ W, filter_b (λ i, negb (is_result i)) (ToolResult <$> W) = []).
  { intros W. apply filter_b_none. by intros i (t & -> & _)%list_elem_of_fmap. }
  rewrite map_runs_unfold, filter_b_app, Hres. simpl.
  induction l as [|x l IH]; [done|]. destruct (is_result x) eqn:Hx.
  - destruct x; try done. simpl. by destruct (split_runs f l).
  - rewrite split_runs_item by done. simpl. rewrite Hx. simpl.
    by rewrite filter_b_app, Hres, IH.
Qed.

(** ** The scan for unanswered calls *)

Lemma omap_result_id W : omap result_id (ToolResult <$> W) = ids W.
Proof. induction W as [|t W IH]; [done|]. simpl. f_equal. exact IH. Qed.

Lemma run_length_results W post :
  run_length post = 0 → run_length ((ToolResult <$> W) ++ post) = length W.
Proof. intros Hp. induction W as [|t W IH]; simpl; [done|]. f_equal. exact IH. Qed.

(** The window of the item at the end of [pre]. *)
Lemma window_of pre x W post :
  run_length post = 0 →
  let conv := pre ++ x :: (ToolResult <$> W) ++ post in
  conv !! length pre = Some x ∧
  drop (length pre + 1) conv = (ToolResult <$> W) ++ post ∧
  run_length (drop (length pre + 1) conv) = length W ∧
  take (length W) (drop (length pre + 1) conv) = ToolResult <$> W.
Proof.
  intros Hp conv. assert (Hd : drop (length pre + 1) conv = (ToolResult <$> W) ++ post).
  { unfold conv. by rewrite drop_app_add. }
  split_and!; [unfold conv; by rewrite list_lookup_middle|done| |].
  - rewrite Hd. by apply run_length_results.
  - rewrite Hd, take_app_length'; [done|]. by rewrite length_fmap.
Qed.

Lemma lookup_head {A} (pre : list A) rest : (pre ++ rest) !! length pre = head rest.
Proof. rewrite lookup_app_r, Nat.sub_diag by lia. by destruct rest. Qed.

Lemma answer_run_no_calls reason run : answer_run reason [] run = run.
Proof. unfold answer_run. simpl. by rewrite app_nil_r. Qed.

Lemma splice_behind_app {A} (pre s rest : list A) : splice (length pre) s (pre ++ rest) = pre ++ s ++ rest.
Proof. unfold splice. by rewrite take_app_length, drop_app_length. Qed.

Definition apply_repairs (repairs : list (nat * list ConversationItem)) (l : list ConversationItem) :=
  foldr (λ '(at_, s) l, splice at_ s l) l repairs.

Lemma repair_scan_spec reason fuel pre rest :
  length rest <= fuel →
  apply_repairs (repair_scan fuel reason (pre ++ rest) (length pre)) (pre ++ rest) =
    pre ++ map_runs (answer_run reason) rest.
Proof.
  revert pre rest. induction fuel as [|fuel IH]; intros pre rest Hf.
  { destruct rest; [|simpl in Hf; lia].
    change (map_runs (answer_run reason) []) with (@nil ConversationItem). by rewrite !app_nil_r. }
  destruct rest as [|x rest]; cbn [repair_scan].
  { rewrite lookup_head.
    change (map_runs (answer_run reason) []) with (@nil ConversationItem). by rewrite !app_nil_r. }
  simpl in Hf. rewrite lookup_head. cbn [head]. destruct (calls_of x) as [|c cs] eqn:Hc.
  - rewrite map_runs_plain by (done || intros; apply answer_run_no_calls).
    rewrite (cons_middle x pre rest), (app_assoc pre [x] rest).
    replace (length pre + 1) with (length (pre ++ [x])) by (rewrite length_app; done).
    rewrite IH by lia. by rewrite <-app_assoc.
  - destruct (run_split rest) as (W & post & -> & Hp & _).
    assert (Hx : is_result x = false) by by destruct x.
    destruct (window_of pre x W post Hp) as (_ & Hd & Hl & Ht).
    rewrite map_runs_block by (done || apply answer_run_no_calls). rewrite Hl.
    assert (Hans : answered (pre ++ x :: (ToolResult <$> W) ++ post) (length pre + 1)
      (length pre + 1 + length W) = ids W).
    { unfold answered. replace (length pre + 1 + length W - (length pre + 1)) with (length W) by lia.
      by rewrite Ht, omap_result_id. }
    rewrite Hans.
    set (pre' := pre ++ x :: (ToolResult <$> W)).
    assert (Hpre : pre ++ x :: (ToolResult <$> W) ++ post = pre' ++ post)
      by (unfold pre'; by rewrite <-app_assoc).
    assert (Hlen : length pre + 1 + length W = length pre').
    { unfold pre'. rewrite length_app. simpl. rewrite length_fmap. lia. }
    rewrite length_app, length_fmap in Hf.
    specialize (IH pre' post ltac:(lia)). rewrite Hpre, Hlen.
    assert (Hgoal : pre' ++ ((λ c, ToolResult (synthetic_result reason c)) <$>
        unanswered (c :: cs) (ids W)) ++ map_runs (answer_run reason) post =
      pre ++ x :: (ToolResult <$> answer_run reason (calls_of x) W) ++ map_runs (answer_run reason) post).
    { unfold pre', answer_run. rewrite Hc, fmap_app, <-list_fmap_compose, <-!app_assoc.
      by rewrite <-app_comm_cons. }
    rewrite <-Hc, <-Hgoal, Hc.
    destruct (_ <$> unanswered (c :: cs) (ids W)) as [|s ss] eqn:Es; [exact IH|].
    unfold apply_repairs in *. simpl. rewrite IH. by rewrite splice_behind_app.
Qed.

Lemma repair_equiv conv reason :
  (repair_dangling_tool_calls conv reason).1 = map_runs (answer_run reason) conv.
Proof. exact (repair_scan_spec reason (length conv) [] conv (Nat.le_refl _)). Qed.

Lemma apply_repairs_length repairs l :
  length (apply_repairs repairs l) = length l + sum_list (length <$> repairs.*2).
Proof.
  induction repairs as [|[at_ s] repairs IH]; [simpl; lia|].
  change (apply_repairs ((at_, s) :: repairs) l) with (splice at_ s (apply_repairs repairs l)).
  change (sum_list (length <$> ((at_, s) :: repairs).*2))
    with (length s + sum_list (length <$> repairs.*2)).
  unfold splice. rewrite !length_app, length_take, length_drop, IH. lia.
Qed.

Lemma repair_count conv reason :
  length (repair_dangling_tool_calls conv reason).1 =
    length conv + (repair_dangling_tool_calls conv reason).2.
Proof. apply apply_repairs_length. Qed.

(** ** Removing by index *)

Section removal.
Context {A : Type}.
Implicit Types (l : list A) (D : list nat).

Fixpoint drop_idx D (k : nat) l : list A :=
  match l with
  | [] => []
  | x :: l' => if decide (k ∈ D) then drop_idx D (S k) l' else x :: drop_idx D (S k) l'
  end.

Lemma drop_idx_app D k l1 l2 :
  drop_idx D k (l1 ++ l2) = drop_idx D k l1 ++ drop_idx D (k + length l1) l2.
Proof.
  revert k. induction l1 as [|x l1 IH]; intros k; simpl; [by rewrite Nat.add_0_r|].
  rewrite IH, Nat.add_succ_r. by case_decide.
Qed.

Lemma drop_idx_out D k l : (∀ e, e ∈ D → e < k ∨ k + length l <= e) → drop_idx D k l = l.
Proof.
  revert k. induction l as [|x l IH]; intros k H; simpl; [done|]. simpl in H. rewrite decide_False.
  - rewrite IH; [done|]. intros e He. specialize (H e He). lia.
  - intros Hk. specialize (H k Hk). lia.
Qed.

Lemma drop_idx_delete D d k l :
  (∀ e, e ∈ D → e < k + d) → drop_idx D k (delete d l) = drop_idx (k + d :: D) k l.
Proof.
  revert d k. induction l as [|x l IH]; intros [|d] k H; simpl; try done.
  - rewrite decide_True by (rewrite Nat.add_0_r; set_solver).
    rewrite !drop_idx_out; [done| |]; intros e He; specialize (H e); set_solver by lia.
  - rewrite IH by (intros e He; specialize (H e He); lia).
    replace (S k + d) with (k + S d) by lia.
    destruct (decide (k ∈ D)); [rewrite decide_True by set_solver; done|].
    rewrite decide_False; [done|]. rewrite elem_of_cons. intros [?|?]; [lia|done].
Qed.

Lemma drop_idx_proper D D' k l : (∀ e, e ∈ D ↔ e ∈ D') → drop_idx D k l = drop_idx D' k l.
Proof.
  intros H. revert k. induction l as [|x l IH]; intros k; simpl; [done|].
  rewrite IH. by rewrite (decide_ext _ _ _ _ (H k)).
Qed.

Lemma foldl_delete_desc D l :
  StronglySorted (λ a b, b < a) D → foldl (λ l i, delete i l) l D = drop_idx D 0 l.
Proof.
  revert l. induction D as [|d D IH]; intros l Hs; [by rewrite drop_idx_out by set_solver|].
  apply StronglySorted_inv in Hs as [Hs Hd]. simpl. rewrite IH by done.
  rewrite drop_idx_delete; [done|]. by apply Forall_forall.
Qed.

End removal.

Lemma sorted_desc_reverse (D : list nat) :
  NoDup D → StronglySorted (λ a b, b < a) (reverse (sort_by_key id D)).
Proof.
  intros Hn. rewrite <-(sort_by_key_Permutation id) in Hn.
  pose proof (sort_by_key_sorted id D) as Hs. revert Hn Hs.
  generalize (sort_by_key id D). clear D. intros D Hn Hs.
  induction Hs as [|d D Hs IH Hd]; [constructor|].
  apply NoDup_cons in Hn as [Hnd Hn]. rewrite reverse_cons.
  assert (Hlt : Forall (λ e, d < e) D).
  { apply Forall_forall. intros e He. rewrite Forall_forall in Hd. specialize (Hd e He).
    assert (d ≠ e) by (intros ->; done). unfold id in Hd. lia. }
  specialize (IH Hn). clear Hs Hd Hnd Hn. rewrite <-(reverse_Permutation D) in Hlt.
  revert IH Hlt. generalize (reverse D). clear D. intros D IH Hlt.
  induction IH as [|e D Hs IH He]; simpl; [repeat constructor|].
  apply Forall_cons in Hlt as [He' Hlt]. constructor; [by apply IH|].
  apply Forall_app. split; [done|]. by constructor.
Qed.

(** ** The scan for duplicate results *)

(** The [k]-th result has a later one with its identifier. *)
Definition later (W : list ToolResultItem) (k : nat) : Prop :=
  ∃ t, W !! k = Some t ∧ tool_call_id t ∈ ids (drop (S k) W).

Lemma later_cons t W k :
  later (t :: W) k ↔ (k = 0 ∧ tool_call_id t ∈ ids W) ∨ (∃ k', k = S k' ∧ later W k').
Proof.
  unfold later. destruct k as [|k]; simpl.
  - split; [intros (u & [= ->] & H); auto|intros [[_ H]|(k' & ? & _)]; [eauto|lia]].
  - split; [intros (u & Hu & H); right; eauto|].
    intros [[? _]|(k' & [= <-] & u & Hu & H)]; [lia|eauto].
Qed.

Lemma window_duplicates_elem seen idx W p :
  p ∈ window_duplicates seen idx (ToolResult <$> W) ↔
    (∃ i, seen !! i = Some p ∧ i ∈ ids W) ∨ (∃ k, p = idx + k ∧ later W k).
Proof.
  revert seen idx. induction W as [|t W IH]; intros seen idx.
  - simpl. split; [by intros ?%not_elem_of_nil|].
    intros [(i & _ & ?%not_elem_of_nil)|(k & _ & t & ? & _)]; done.
  - rewrite fmap_cons. cbn [window_duplicates result_id].
    assert (Hrec : p ∈ window_duplicates (<[tool_call_id t:=idx]> seen) (S idx) (ToolResult <$> W) ↔
      (∃ i, i ≠ tool_call_id t ∧ seen !! i = Some p ∧ i ∈ ids W) ∨
      (∃ k, p = idx + k ∧ later (t :: W) k)).
    { rewrite IH. setoid_rewrite later_cons. split.
      - intros [(i & Hi & Hin)|(k & -> & Hk)]; [|right; exists (S k); split; [lia|eauto]].
        apply lookup_insert_Some in Hi as [[<- <-]|[? ?]]; [|left; eauto].
        right. exists 0. split; [lia|auto].
      - intros [(i & Hne & Hi & Hin)|(k & -> & [[-> Hin]|(k' & -> & Hk)])].
        + left. exists i. rewrite lookup_insert_ne by done. auto.
        + left. exists (tool_call_id t). rewrite lookup_insert_eq, Nat.add_0_r. auto.
        + right. exists k'. split; [lia|done]. }
    assert (Hfirst : (∃ i, seen !! i = Some p ∧ i ∈ ids (t :: W)) ↔
      seen !! tool_call_id t = Some p ∨ ∃ i, i ≠ tool_call_id t ∧ seen !! i = Some p ∧ i ∈ ids W).
    { unfold ids. rewrite fmap_cons. setoid_rewrite elem_of_cons. split.
      - intros (i & Hi & [->|Hin]); [auto|].
        destruct (decide (i = tool_call_id t)) as [->|]; [auto|right; eauto].
      - intros [?|(i & _ & ? & ?)]; eauto. }
    rewrite Hfirst. destruct (seen !! tool_call_id t) as [prev|].
    + rewrite elem_of_cons, Hrec. naive_solver.
    + rewrite Hrec. naive_solver.
Qed.

Lemma window_duplicates_NoDup seen idx W :
  (∀ i p, seen !! i = Some p → p < idx) →
  (∀ i j p, seen !! i = Some p → seen !! j = Some p → i = j) →
  NoDup (window_duplicates seen idx (ToolResult <$> W)).
Proof.
  revert seen idx. induction W as [|t W IH]; intros seen idx Hlt Hinj; [constructor|].
  rewrite fmap_cons. cbn [window_duplicates result_id].
  assert (NoDup (window_duplicates (<[tool_call_id t:=idx]> seen) (S idx) (ToolResult <$> W))).
  { apply IH.
    - intros i p [[_ <-]|[_ H%Hlt]]%lookup_insert_Some; lia.
    - intros i j p [[<- <-]|[? Hi]]%lookup_insert_Some [[<- ?]|[? Hj]]%lookup_insert_Some; try done.
      + apply Hlt in Hj. lia.
      + subst. apply Hlt in Hi. lia.
      + eauto. }
  destruct (seen !! tool_call_id t) as [prev|] eqn:E; [|done]. apply NoDup_cons. split; [|done].
  rewrite window_duplicates_elem. intros [(i & Hi & _)|(k & -> & _)].
  - apply lookup_insert_Some in Hi as [[_ <-]|[Hne Hi]]; [apply Hlt in E; lia|].
    apply Hne. by eapply Hinj.
  - apply Hlt in E. lia.
Qed.

Lemma drop_idx_keep_last D idx W :
  (∀ k, k < length W → idx + k ∈ D ↔ later W k) →
  drop_idx D idx (ToolResult <$> W) = ToolResult <$> keep_last W.
Proof.
  revert idx. induction W as [|t W IH]; intros idx H; [done|].
  rewrite fmap_cons. cbn [drop_idx keep_last]. simpl in H.
  rewrite IH.
  - pose proof (H 0 ltac:(lia)) as H0. rewrite later_cons, Nat.add_0_r in H0.
    destruct (decide (tool_call_id t ∈ ids W)).
    + rewrite decide_True; [done|]. apply H0. auto.
    + rewrite decide_False; [done|]. rewrite H0. intros [[_ ?]|(? & ? & _)]; [done|lia].
  - intros k Hk. replace (S idx + k) with (idx + S k) by lia. rewrite H by lia.
    rewrite later_cons. split; [intros [[? _]|(k' & [= <-] & ?)]; [lia|done]|eauto].
Qed.

Lemma keep_last_ids W i : i ∈ ids (keep_last W) ↔ i ∈ ids W.
Proof.
  unfold ids. induction W as [|t W IH]; [done|]. cbn [keep_last]. rewrite fmap_cons, elem_of_cons.
  case_decide as Hd; [rewrite IH|rewrite fmap_cons, elem_of_cons, IH]; [|done].
  unfold ids in Hd. split; [auto|intros [->|?]; done].
Qed.

Lemma keep_last_NoDup W : NoDup (ids (keep_last W)).
Proof.
  induction W as [|t W IH]; [constructor|]. cbn [keep_last]. case_decide as Hd; [done|].
  unfold ids. rewrite fmap_cons. apply NoDup_cons. split; [|done]. by rewrite (keep_last_ids W).
Qed.

Lemma keep_last_id W : NoDup (ids W) → keep_last W = W.
Proof.
  induction W as [|t W IH]; [done|]. unfold ids. rewrite fmap_cons. intros [Ht Hn]%NoDup_cons.
  cbn [keep_last]. rewrite decide_False by done. by rewrite IH.
Qed.

Lemma keep_last_sublist W : keep_last W `sublist_of` W.
Proof.
  induction W as [|t W IH]; [done|]. cbn [keep_last].
  case_decide; [by apply sublist_cons|by apply sublist_skip].
Qed.

Lemma no_later_NoDup W : (∀ k, ¬ later W k) → NoDup (ids W).
Proof.
  induction W as [|t W IH]; intros H; [constructor|]. unfold ids. rewrite fmap_cons.
  apply NoDup_cons. split.
  - intros Hin. apply (H 0), later_cons. auto.
  - apply IH. intros k Hk. apply (H (S k)), later_cons. eauto.
Qed.

(** One removal step of the loop. *)
Lemma remove_window pre x W post :
  run_length post = 0 →
  let conv := pre ++ x :: (ToolResult <$> W) ++ post in
  let D := window_duplicates ∅ (length pre + 1) (ToolResult <$> W) in
  foldl (λ l idx, delete idx l) conv (reverse (sort_by_key id D)) =
    pre ++ x :: (ToolResult <$> keep_last W) ++ post ∧
  length D = length W - length (keep_last W).
Proof.
  intros Hp conv D.
  assert (Hn : NoDup D).
  { apply window_duplicates_NoDup; intros i; [intros ?|intros ? ?]; by rewrite lookup_empty. }
  assert (HD : ∀ p, p ∈ D ↔ ∃ k, p = length pre + 1 + k ∧ later W k).
  { intros p. unfold D. rewrite window_duplicates_elem. split; [|auto].
    intros [(i & Hi & _)|?]; [by rewrite lookup_empty in Hi|done]. }
  assert (Hr : ∀ p, p ∈ D → length pre + 1 <= p < length pre + 1 + length W).
  { intros p (k & -> & t & Ht%lookup_lt_Some & _)%HD. lia. }
  assert (Heq : foldl (λ l idx, delete idx l) conv (reverse (sort_by_key id D)) =
    pre ++ x :: (ToolResult <$> keep_last W) ++ post).
  { rewrite foldl_delete_desc by (by apply sorted_desc_reverse).
    rewrite (drop_idx_proper _ D) by (intros e; by rewrite reverse_Permutation, sort_by_key_Permutation).
    unfold conv. change (x :: (ToolResult <$> W) ++ post) with ([x] ++ (ToolResult <$> W) ++ post).
    rewrite !drop_idx_app.
    rewrite (drop_idx_out D _ pre), (drop_idx_out D _ [x]), (drop_idx_out D _ post).
    - rewrite Nat.add_0_l. change (length [x]) with 1. rewrite (drop_idx_keep_last D); [done|].
      intros k Hk. rewrite HD. split; [intros (k' & ? & ?); by replace k with k' by lia|eauto].
    - rewrite length_fmap. simpl. intros e ?%Hr. lia.
    - simpl. intros e ?%Hr. lia.
    - intros e ?%Hr. lia. }
  split; [done|]. apply (f_equal length) in Heq.
  assert (Hlen : ∀ E (l : list ConversationItem), StronglySorted (λ a b, b < a) E →
    Forall (λ e, e < length l) E → length (foldl (λ l idx, delete idx l) l E) = length l - length E).
  { clear. induction E as [|e E IH]; intros l Hs Hb; simpl; [lia|].
    apply StronglySorted_inv in Hs as [Hs He]. apply Forall_cons in Hb as [Hb Hbs].
    assert (Hdel : length (delete e l) = length l - 1).
    { apply lookup_lt_is_Some_2 in Hb as [y Hy]. by rewrite (length_delete l e) by eauto. }
    rewrite IH; [lia|done|]. rewrite Hdel. eapply Forall_impl; [exact He|]. simpl. intros. lia. }
  rewrite Hlen in Heq.
  - rewrite (Permutation_length (reverse_Permutation _)),
      (Permutation_length (sort_by_key_Permutation id D)) in Heq.
    unfold conv in Heq. rewrite !length_app in Heq. simpl in Heq.
    rewrite !length_app, !length_fmap in Heq.
    assert (length D <= length W).
    { transitivity (length (seq (length pre + 1) (length W))); [|by rewrite length_seq].
      apply submseteq_length, NoDup_submseteq; [done|]. intros p ?%Hr. apply elem_of_seq. lia. }
    pose proof (sublist_length _ _ (keep_last_sublist W)). lia.
  - by apply sorted_desc_reverse.
  - apply Forall_forall. intros e. rewrite reverse_Permutation, sort_by_key_Permutation.
    intros ?%Hr. unfold conv. rewrite length_app. simpl. rewrite length_app, length_fmap. lia.
Qed.

Lemma dedup_run_no_calls run : dedup_run [] run = run.
Proof. done. Qed.

Lemma map_runs_dedup_le l : length (map_runs dedup_run l) <= length l.
Proof.
  rewrite map_runs_unfold. simpl. rewrite length_app, length_fmap.
  induction l as [|x l IH]; [done|]. destruct (is_result x) eqn:Hx.
  - destruct x; try done. simpl. destruct (split_runs dedup_run l); simpl in *. lia.
  - rewrite split_runs_item by done. simpl. rewrite length_app, length_fmap.
    assert (length (dedup_run (calls_of x) (split_runs dedup_run l).1) <=
      length (split_runs dedup_run l).1); [|lia].
    unfold dedup_run. destruct (calls_of x); [done|apply sublist_length, keep_last_sublist].
Qed.

Lemma dedup_loop_spec fuel pre rest n :
  length rest <= fuel →
  dedup_loop fuel (pre ++ rest) (length pre) n =
    (pre ++ map_runs dedup_run rest, n + (length rest - length (map_runs dedup_run rest))).
Proof.
  revert pre rest n. induction fuel as [|fuel IH]; intros pre rest n Hf.
  { destruct rest; [|simpl in Hf; lia]. simpl. f_equal. lia. }
  destruct rest as [|x rest]; cbn [dedup_loop].
  { rewrite lookup_head. simpl. f_equal. lia. }
  simpl in Hf. rewrite lookup_head. cbn [head]. destruct (calls_of x) as [|c cs] eqn:Hc.
  - rewrite map_runs_plain by done. rewrite (cons_middle x pre rest), (app_assoc pre [x] rest).
    replace (length pre + 1) with (length (pre ++ [x])) by (rewrite length_app; done).
    rewrite IH by lia. rewrite <-app_assoc. simpl. done.
  - destruct (run_split rest) as (W & post & -> & Hp & _).
    assert (Hx : is_result x = false) by by destruct x.
    destruct (window_of pre x W post Hp) as (_ & Hd & Hl & Ht).
    rewrite Hl. replace (length pre + 1 + length W - (length pre + 1)) with (length W) by lia.
    rewrite Ht. rewrite length_app, length_fmap in Hf.
    destruct (remove_window pre x W post Hp) as [Hrem Hlen].
    assert (Hblock : ∀ W', keep_last W' = keep_last W →
      map_runs dedup_run (x :: (ToolResult <$> W') ++ post) =
      x :: (ToolResult <$> keep_last W) ++ map_runs dedup_run post).
    { intros W' HW'. rewrite map_runs_block by done. unfold dedup_run at 1. by rewrite Hc, HW'. }
    pose proof (map_runs_dedup_le post) as Hle.
    destruct (window_duplicates ∅ (length pre + 1) (ToolResult <$> W)) as [|d D] eqn:ED.
    + assert (HW : keep_last W = W).
      { apply keep_last_id, no_later_NoDup. intros k Hk.
        assert (Hin : length pre + 1 + k ∈ window_duplicates ∅ (length pre + 1) (ToolResult <$> W))
          by (apply window_duplicates_elem; eauto). rewrite ED in Hin. by apply not_elem_of_nil in Hin. }
      set (pre' := pre ++ x :: (ToolResult <$> W)).
      replace (pre ++ x :: (ToolResult <$> W) ++ post) with (pre' ++ post)
        by (unfold pre'; by rewrite <-app_assoc).
      replace (length pre + 1 + length W) with (length pre')
        by (unfold pre'; rewrite length_app; simpl; rewrite length_fmap; lia).
      rewrite IH by lia. rewrite Hblock, HW by done. unfold pre'.
      rewrite <-app_assoc. f_equal. simpl. rewrite !length_app, !length_fmap. lia.
    + set (E := reverse (sort_by_key id (d :: D))) in *.
      assert (HE : length E = length W - length (keep_last W)).
      { unfold E. by rewrite (Permutation_length (reverse_Permutation _)),
          (Permutation_length (sort_by_key_Permutation id (d :: D))). }
      cbv zeta in Hrem. rewrite Hrem. simpl in Hlen.
      rewrite (IH pre).
      * rewrite !Hblock by (done || apply keep_last_id, keep_last_NoDup). f_equal.
        simpl. rewrite !length_app, !length_fmap, HE. lia.
      * simpl. rewrite length_app, length_fmap. lia.
Qed.

Lemma dedup_equiv conv :
  dedup_duplicate_tool_results conv =
    (map_runs dedup_run conv, length conv - length (map_runs dedup_run conv)).
Proof. exact (dedup_loop_spec (length conv) [] conv 0 (Nat.le_refl _)). Qed.

(** ** The filter for displaced results *)

Lemma filter_b_ext {A} (p q : A → bool) (l : list A) : (∀ x, p x = q x) → filter_b p l = filter_b q l.
Proof.
  intros H. unfold filter_b. induction l as [|x l IH]; [done|]. simpl. by rewrite H, IH.
Qed.

Lemma strip_from_spec (S : gset text) l :
  (strip_from S l).1 =
    (ToolResult <$> filter_b (λ t, bool_decide (tool_call_id t ∈ S)) (split_runs strip_run l).1)
    ++ (split_runs strip_run l).2.
Proof.
  assert (Hset : ∀ (calls : list ToolCall) run,
    filter_b (λ t, bool_decide (tool_call_id t ∈ (list_to_set (call_id <$> calls) : gset text))) run
    = strip_run calls run).
  { intros calls run. apply filter_b_ext. intros t. apply bool_decide_ext, elem_of_list_to_set. }
  assert (Hnone : ∀ run,
    filter_b (λ t, bool_decide (tool_call_id t ∈ (∅ : gset text))) run = strip_run [] run).
  { intros run. apply filter_b_ext. intros t. apply bool_decide_ext. set_solver. }
  revert S. induction l as [|x l IH]; intros S; [done|].
  destruct x; cbn [strip_from split_runs];
    first [pose proof (IH (list_to_set (call_id <$> tool_calls a))) as IHx; rewrite Hset in IHx
          |pose proof (IH S) as IHx; pose proof (IH ∅) as IHe; rewrite Hnone in IHe].
  all: destruct (split_runs strip_run l) as [run rest]; simpl in *.
  4: { destruct (strip_from S l); simpl in *. rewrite IHx.
       case_decide; [rewrite bool_decide_true|rewrite bool_decide_false]; done. }
  all: try (destruct (strip_from ∅ l); simpl in *; by rewrite IHe).
  destruct (strip_from _ l); simpl in *. by rewrite IHx.
Qed.

Lemma strip_equiv l : (strip_displaced_tool_results l).1 = map_runs strip_run l.
Proof.
  unfold strip_displaced_tool_results. by rewrite strip_from_spec, map_runs_unfold.
Qed.

Lemma strip_from_length S l :
  length (strip_from S l).1 + length (strip_from S l).2 = length l ∧
  (strip_from S l).1 `sublist_of` l.
Proof.
  revert S. induction l as [|x l IH]; intros S; [done|].
  destruct x; simpl;
    first [pose proof (IH (list_to_set (call_id <$> tool_calls a)) : _ ∧ _) as [IHx Hs]
          |pose proof (IH S) as [IHx Hs]; pose proof (IH ∅) as [IHe He]].
  4: { destruct (strip_from S l); simpl in *. case_decide; simpl;
       (split; [lia|by constructor]). }
  all: try (destruct (strip_from ∅ l); simpl in *; split; [lia|by constructor]).
  destruct (strip_from _ l); simpl in *; split; [lia|by constructor].
Qed.

Lemma strip_unchanged l :
  (strip_displaced_tool_results l).2 = [] ↔ (strip_displaced_tool_results l).1 = l.
Proof.
  destruct (strip_from_length ∅ l) as [Hl Hs]. unfold strip_displaced_tool_results. split; intros H.
  - rewrite H in Hl. simpl in Hl. apply sublist_same_length; [done|]. lia.
  - rewrite H in Hl. apply nil_length_inv. lia.
Qed.

(** ** Unchanged conversations *)

Lemma map_runs_sublist (f : run_map) l :
  (∀ c run, f c run `sublist_of` run) → map_runs f l `sublist_of` l.
Proof.
  intros Hf. rewrite map_runs_unfold.
  assert (Hm : ∀ c run, (ToolResult <$> f c run) `sublist_of` (ToolResult <$> run))
    by (intros; apply fmap_sublist, Hf).
  etrans; [apply sublist_app; [apply Hm|reflexivity]|].
  induction l as [|x l IH]; [done|]. destruct (is_result x) eqn:Hx.
  - destruct x; try done. cbn [split_runs]. destruct (split_runs f l); simpl in *.
    by constructor.
  - rewrite split_runs_item by done. simpl. constructor.
    etrans; [apply sublist_app; [apply Hm|reflexivity]|done].
Qed.

Lemma dedup_run_sublist c run : dedup_run c run `sublist_of` run.
Proof. destruct c; [done|apply keep_last_sublist]. Qed.

Lemma dedup_unchanged l :
  (dedup_duplicate_tool_results l).2 = 0 ↔ (dedup_duplicate_tool_results l).1 = l.
Proof.
  rewrite dedup_equiv. simpl. split; intros H.
  - apply sublist_same_length; [apply map_runs_sublist, dedup_run_sublist|].
    pose proof (map_runs_dedup_le l). lia.
  - rewrite H. lia.
Qed.

Lemma repair_unchanged l reason :
  (repair_dangling_tool_calls l reason).2 = 0 ↔ (repair_dangling_tool_calls l reason).1 = l.
Proof.
  pose proof (repair_count l reason) as Hc. split; intros H; [|rewrite H in Hc; lia].
  revert H. unfold repair_dangling_tool_calls. cbn [fst snd].
  assert (Hne : ∀ fuel conv i, Forall (λ r, r.2 ≠ []) (repair_scan fuel reason conv i)).
  { induction fuel as [|fuel IH]; intros conv i; simpl; [constructor|].
    destruct (conv !! i); [|constructor]. destruct (calls_of c); [done|].
    case_match; [done|]. by constructor. }
  specialize (Hne (length l) l 0). destruct (repair_scan _ _ _ _) as [|[at_ [|x s]] rs]; [done| |done].
  by apply Forall_cons in Hne as [? _].
Qed.

(** ** The full repair *)

Definition repair_run (calls : list ToolCall) (run : list ToolResultItem) : list ToolResultItem :=
  answer_run (HarnessHalted (txt "history_repair")) calls (strip_run calls (dedup_run calls run)).

Lemma repair_history_run l : (repair_history l).1 = map_runs repair_run l.
Proof.
  unfold repair_history. pose proof (dedup_equiv l) as Hd.
  destruct (dedup_duplicate_tool_results l) as [l1 n]. injection Hd as -> _.
  pose proof (strip_equiv (map_runs dedup_run l)) as Hs.
  destruct (strip_displaced_tool_results _) as [l2 ss]. simpl in Hs. subst l2.
  pose proof (repair_equiv (map_runs strip_run (map_runs dedup_run l))
    (HarnessHalted (txt "history_repair"))) as Hr.
  destruct (repair_dangling_tool_calls _ _) as [l3 k]. simpl in *. subst l3.
  by rewrite !map_runs_compose.
Qed.

Lemma elem_of_unanswered c calls known :
  c ∈ unanswered calls known ↔ c ∈ calls ∧ call_id c ∉ known.
Proof.
  unfold unanswered. rewrite elem_of_filter_b, negb_true_iff, bool_decide_eq_false. done.
Qed.

Lemma ids_answer reason calls run :
  ids (answer_run reason calls run) = ids run ++ (call_id <$> unanswered calls (ids run)).
Proof. unfold ids, answer_run. rewrite fmap_app. by rewrite <-list_fmap_compose. Qed.

Lemma elem_of_ids_answer reason calls run i :
  i ∈ ids (answer_run reason calls run) ↔ i ∈ ids run ∨ i ∈ call_id <$> calls.
Proof.
  rewrite ids_answer, elem_of_app, !list_elem_of_fmap. setoid_rewrite elem_of_unanswered.
  destruct (decide (i ∈ ids run)); [|]; naive_solver.
Qed.

Lemma answer_run_NoDup reason calls run :
  NoDup (call_id <$> calls) → NoDup (ids run) → NoDup (ids (answer_run reason calls run)).
Proof.
  intros Hc Hr. rewrite ids_answer, NoDup_app. split_and!; [done| |].
  - intros i Hi (c & -> & [_ ?]%elem_of_unanswered)%list_elem_of_fmap. done.
  - eapply sublist_NoDup; [exact Hc|]. apply fmap_sublist, filter_b_sublist.
Qed.

Lemma elem_of_ids_strip calls run i :
  i ∈ ids (strip_run calls run) ↔ i ∈ ids run ∧ i ∈ call_id <$> calls.
Proof.
  unfold ids, strip_run. rewrite !(list_elem_of_fmap tool_call_id). setoid_rewrite elem_of_filter_b.
  setoid_rewrite bool_decide_eq_true. naive_solver.
Qed.

Lemma dedup_run_NoDup calls run : calls ≠ [] → NoDup (ids (dedup_run calls run)).
Proof. destruct calls; [done|]. intros _. apply keep_last_NoDup. Qed.

Lemma repair_run_paired calls run :
  NoDup (call_id <$> calls) → paired calls (repair_run calls run).
Proof.
  intros Hc. unfold repair_run. split.
  - apply answer_run_NoDup; [done|]. destruct (decide (calls = [])) as [->|Hne].
    + unfold strip_run. rewrite filter_b_none; [constructor|]. intros t _.
      apply bool_decide_eq_false. simpl. apply not_elem_of_nil.
    + eapply sublist_NoDup; [by apply (dedup_run_NoDup calls run)|].
      apply fmap_sublist, filter_b_sublist.
  - intros i. rewrite elem_of_ids_answer, elem_of_ids_strip. naive_solver.
Qed.

(** A paired run is left alone by each of the passes. *)
Lemma paired_unchanged reason calls run :
  paired calls run →
  dedup_run calls run = run ∧ strip_run calls run = run ∧ answer_run reason calls run = run.
Proof.
  intros [Hn Hi]. split_and!.
  - destruct calls; [done|]. by apply keep_last_id.
  - apply filter_b_all. intros t Ht. apply bool_decide_eq_true, Hi. by apply list_elem_of_fmap_2.
  - unfold answer_run, unanswered. rewrite filter_b_none; [by rewrite app_nil_r|].
    intros c Hc. apply negb_false_iff, bool_decide_eq_true, Hi. by apply list_elem_of_fmap_2.
Qed.

Lemma well_paired_unchanged reason l :
  well_paired l →
  map_runs dedup_run l = l ∧ map_runs strip_run l = l ∧ map_runs (answer_run reason) l = l.
Proof.
  intros Hw. rewrite <-(map_runs_id l) at 2 4 6.
  split_and!; apply map_runs_ext; (eapply Forall_impl; [exact Hw|]);
    intros r (? & ? & ?)%(paired_unchanged reason); done.
Qed.

Lemma runs_calls_distinct l : calls_distinct l → Forall (λ r, NoDup (call_id <$> r.1)) (runs l).
Proof.
  rewrite runs_unfold. intros H. constructor; [constructor|].
  induction H as [|x l Hx _ IH]; [constructor|]. destruct (is_result x) eqn:Hr.
  - destruct x; try done. simpl. by destruct (runs_of l).
  - rewrite runs_of_item by done. by constructor.
Qed.

Lemma calls_distinct_others l l' :
  filter_b (λ i, negb (is_result i)) l = filter_b (λ i, negb (is_result i)) l' →
  calls_distinct l → calls_distinct l'.
Proof.
  intros Ho Hd. apply Forall_forall. intros i Hi. destruct (is_result i) eqn:Hr.
  - destruct i; try done. constructor.
  - assert (Hin : i ∈ filter_b (λ i, negb (is_result i)) l') by (apply elem_of_filter_b; by rewrite Hr).
    rewrite <-Ho in Hin. apply elem_of_filter_b in Hin as [Hin _].
    unfold calls_distinct in Hd. rewrite Forall_forall in Hd. by apply Hd.
Qed.

Lemma well_paired_repaired l : calls_distinct l → well_paired (map_runs repair_run l).
Proof.
  intros Hd. unfold well_paired. rewrite runs_map_runs, Forall_fmap.
  eapply Forall_impl; [by apply runs_calls_distinct|]. intros r Hr. by apply repair_run_paired.
Qed.

Lemma report_unchanged l : report_changed (repair_history l).2 = false → (repair_history l).1 = l.
Proof.
  unfold repair_history, report_changed.
  pose proof (dedup_unchanged l) as [Hd _]. destruct (dedup_duplicate_tool_results l) as [l1 n].
  pose proof (strip_unchanged l1) as [Hs _]. destruct (strip_displaced_tool_results l1) as [l2 ss].
  pose proof (repair_unchanged l2 (HarnessHalted (txt "history_repair"))) as [Hr _].
  destruct (repair_dangling_tool_calls l2 _) as [l3 k]. simpl in *. intros H.
  apply orb_false_iff in H as [[H1 H2]%orb_false_iff H3]. breflect.
  rewrite Hr, Hs, Hd; [done|lia|done|lia].
Qed.

Lemma well_paired_report l : well_paired l → report_changed (repair_history l).2 = false.
Proof.
  intros Hw. unfold repair_history, report_changed.
  destruct (well_paired_unchanged (HarnessHalted (txt "history_repair")) l Hw) as (H1 & H2 & H3).
  pose proof (dedup_unchanged l) as [_ Hd]. pose proof (dedup_equiv l) as He.
  destruct (dedup_duplicate_tool_results l) as [l1 n]. injection He as Hl1 _.
  cbn [fst snd] in Hd. rewrite H1 in Hl1. subst l1.
  pose proof (strip_unchanged l) as [_ Hs]. pose proof (strip_equiv l) as He.
  destruct (strip_displaced_tool_results l) as [l2 ss]. cbn [fst snd] in *. rewrite H2 in He. subst l2.
  pose proof (repair_unchanged l (HarnessHalted (txt "history_repair"))) as [_ Hr].
  pose proof (repair_equiv l (HarnessHalted (txt "history_repair"))) as He.
  destruct (repair_dangling_tool_calls l _) as [l3 k]. cbn [fst snd] in *. rewrite H3 in He.
  cbn. by rewrite (Hd eq_refl), (Hs eq_refl), (Hr He).
Qed.

(** ** The scan for dangling calls *)

Lemma any_unanswered calls known :
  any_b (λ c, negb (bool_decide (call_id c ∈ known))) calls = false ↔ unanswered calls known = [].
Proof.
  unfold unanswered. rewrite any_b_false. split; [apply filter_b_none|].
  intros H c Hc. apply not_true_iff_false. intros Hp.
  assert (Hin : c ∈ filter_b (λ c, negb (bool_decide (call_id c ∈ known))) calls)
    by (by apply elem_of_filter_b). rewrite H in Hin. by apply not_elem_of_nil in Hin.
Qed.

Lemma runs_plain (P : list ToolCall * list ToolResultItem → Prop) x l :
  (∀ run, P ([], run)) → calls_of x = [] → Forall P (runs (x :: l)) ↔ Forall P (runs l).
Proof.
  intros HP Hx. rewrite !runs_unfold. destruct (is_result x) eqn:Hr.
  - destruct x; try done. cbn [runs_of]. destruct (runs_of l). simpl.
    rewrite !Forall_cons. naive_solver.
  - rewrite runs_of_item, Hx by done. simpl. rewrite !Forall_cons. naive_solver.
Qed.

Lemma runs_block (P : list ToolCall * list ToolResultItem → Prop) x W post :
  (∀ run, P ([], run)) → is_result x = false → run_length post = 0 →
  Forall P (runs (x :: (ToolResult <$> W) ++ post)) ↔ P (calls_of x, W) ∧ Forall P (runs post).
Proof.
  intros HP Hx Hp. rewrite !runs_unfold, runs_of_item, runs_of_results by done. simpl.
  assert ((runs_of post).1 = []) as ->; [|rewrite app_nil_r, !Forall_cons; naive_solver].
  destruct post as [|[] post]; simpl in *; try done; by destruct (runs_of post).
Qed.

Definition run_answered (r : list ToolCall * list ToolResultItem) : Prop :=
  unanswered r.1 (ids r.2) = [].

Lemma has_dangling_scan_spec fuel pre rest :
  length rest <= fuel →
  has_dangling_scan fuel (pre ++ rest) (length pre) = false ↔ Forall run_answered (runs rest).
Proof.
  assert (Hno : ∀ run, run_answered ([], run)) by done.
  revert pre rest. induction fuel as [|fuel IH]; intros pre rest Hf.
  { destruct rest; [|simpl in Hf; lia]. simpl. split; [by repeat constructor|done]. }
  destruct rest as [|x rest]; cbn [has_dangling_scan]; rewrite lookup_head; cbn [head].
  { split; [by repeat constructor|done]. }
  simpl in Hf. destruct (calls_of x) as [|c cs] eqn:Hc.
  - rewrite runs_plain by done. rewrite (cons_middle x pre rest), (app_assoc pre [x] rest).
    replace (length pre + 1) with (length (pre ++ [x])) by (rewrite length_app; done).
    apply IH. lia.
  - destruct (run_split rest) as (W & post & -> & Hp & _).
    assert (Hx : is_result x = false) by by destruct x.
    destruct (window_of pre x W post Hp) as (_ & Hd & Hl & Ht).
    rewrite runs_block by done. rewrite Hl. unfold answered.
    replace (length pre + 1 + length W - (length pre + 1)) with (length W) by lia.
    rewrite Ht, omap_result_id, Hc. rewrite length_app, length_fmap in Hf.
    unfold run_answered at 1. cbn [fst snd]. rewrite <-any_unanswered.
    destruct (any_b _ (c :: cs)); [naive_solver|].
    replace (length pre + 1 + length W) with (length (pre ++ x :: (ToolResult <$> W)))
      by (rewrite length_app; simpl; rewrite length_fmap; lia).
    rewrite app_comm_cons, (app_assoc pre (x :: (ToolResult <$> W)) post).
    rewrite IH by lia. naive_solver.
Qed.

Lemma has_dangling_runs l :
  has_dangling_tool_calls l = false ↔ Forall run_answered (runs l).
Proof. exact (has_dangling_scan_spec (length l) [] l (Nat.le_refl _)). Qed.

Lemma has_dangling_equiv l reason :
  has_dangling_tool_calls l = false ↔ (repair_dangling_tool_calls l reason).2 = 0.
Proof.
  rewrite has_dangling_runs, repair_unchanged, repair_equiv. split.
  - intros H. rewrite <-(map_runs_id l) at 2. apply map_runs_ext.
    eapply Forall_impl; [exact H|]. intros r Hr. unfold answer_run. rewrite Hr. apply app_nil_r.
  - intros H. apply (f_equal runs) in H. rewrite runs_map_runs in H.
    revert H. generalize (runs l). induction l0 as [|r rs IH]; [constructor|].
    rewrite fmap_cons. intros [= H1 H2]. constructor; [|by apply IH].
    destruct r as [c run]. injection H1 as H1. unfold run_answered, answer_run in *. simpl in *.
    apply (f_equal length) in H1. rewrite length_app, length_fmap in H1.
    apply nil_length_inv. lia.
Qed.

(** ** Changes that keep the pairing *)

(** Two items with the same calls, and the same identifier if they are results. *)
Definition same_role (i j : ConversationItem) : Prop :=
  calls_of i = calls_of j ∧ result_id i = result_id j.

#[export] Instance same_role_refl : Reflexive same_role.
Proof. done. Qed.
#[export] Instance same_role_trans : Transitive same_role.
Proof. intros i j k [] []. split; congruence. Qed.

Lemma map_same_role f l : (∀ i, same_role i (f i)) → Forall2 same_role l (f <$> l).
Proof. intros Hf. apply Forall2_fmap_r, Forall_Forall2_diag, Forall_true, Hf. Qed.

(** Two runs with the same calls and identifiers. *)
Definition same_run (r r' : list ToolCall * list ToolResultItem) : Prop :=
  r.1 = r'.1 ∧ ids r.2 = ids r'.2.

Lemma runs_of_same l l' :
  Forall2 same_role l l' →
  ids (runs_of l).1 = ids (runs_of l').1 ∧ Forall2 same_run (runs_of l).2 (runs_of l').2.
Proof.
  induction 1 as [|i j l l' [Hc Hr] _ [IH1 IH2]]; [done|].
  destruct (is_result i) eqn:Hi.
  - destruct i as [| | |t| |]; try done. destruct j as [| | |t'| |]; try done.
    injection Hr as Hr. cbn [runs_of]. destruct (runs_of l), (runs_of l'). cbn in *.
    split; [|done]. rewrite Hr. f_equal. done.
  - assert (is_result j = false) as Hj by by destruct i, j.
    rewrite !runs_of_item by done. split; [done|]. by repeat constructor.
Qed.

Lemma runs_same l l' : Forall2 same_role l l' → Forall2 same_run (runs l) (runs l').
Proof. intros [H1 H2]%runs_of_same. rewrite !runs_unfold. by repeat constructor. Qed.

(** A property of calls and identifiers holds of all runs or of none. *)
Lemma runs_same_Forall (P : list ToolCall → list text → Prop) l l' :
  Forall2 same_role l l' → Forall (λ r, P r.1 (ids r.2)) (runs l) →
  Forall (λ r, P r.1 (ids r.2)) (runs l').
Proof.
  intros H%runs_same. induction H as [|r r' rs rs' [H1 H2] _ IH]; [done|].
  rewrite !Forall_cons, H1, H2. tauto.
Qed.

Lemma well_paired_same l l' : Forall2 same_role l l' → well_paired l → well_paired l'.
Proof.
  apply (runs_same_Forall (λ calls known, NoDup known ∧ ∀ i, i ∈ known ↔ i ∈ call_id <$> calls)).
Qed.

Lemma paired_none run : paired [] run → run = [].
Proof.
  intros [_ H]. destruct run as [|t run]; [done|]. exfalso.
  apply (not_elem_of_nil (tool_call_id t)), H. left.
Qed.

Lemma runs_of_other l : run_length l = 0 → (runs_of l).1 = [].
Proof. destruct l as [|[] l]; cbn; try done; by destruct (runs_of l). Qed.

(** The items from one that is not a result on. *)
Lemma well_paired_suffix pre l : run_length l = 0 → well_paired (pre ++ l) → well_paired l.
Proof.
  intros Hl. unfold well_paired. rewrite !runs_unfold, !Forall_cons.
  rewrite (runs_of_other l Hl). intros [_ H]. split; [by split; [constructor|]|].
  revert H. induction pre as [|x pre IH]; [done|]. cbn [app]. destruct (is_result x) eqn:Hx.
  - destruct x; try done. cbn [runs_of]. destruct (runs_of (pre ++ l)). apply IH.
  - rewrite runs_of_item by done. cbn [snd]. intros [_ H]%Forall_cons. by apply IH.
Qed.

(** An item with its results, and the rest. *)
Lemma well_paired_item x W post :
  is_result x = false → run_length post = 0 →
  well_paired (x :: (ToolResult <$> W) ++ post) ↔ paired (calls_of x) W ∧ well_paired post.
Proof.
  intros Hx Hp. unfold well_paired. rewrite !runs_unfold, runs_of_item, runs_of_results by done.
  cbn [fst snd]. rewrite (runs_of_other post Hp), app_nil_r, !Forall_cons. cbn [fst snd].
  assert (paired [] []) by (split; [constructor|done]). tauto.
Qed.

Lemma well_paired_nil : well_paired [].
Proof. repeat constructor; by intros ?%not_elem_of_nil. Qed.

Lemma well_paired_system t l : well_paired (System t :: l) ↔ well_paired l.
Proof.
  unfold well_paired. rewrite !runs_unfold, runs_of_item by done. cbn [fst snd].
  rewrite !Forall_cons. cbn [fst snd calls_of].
  assert (paired [] []) by (split; [constructor|done]). tauto.
Qed.

(** ** Theorems *)

(** C36: the in-place repairs of a conversation compute their reference.  The
    scan that removes duplicate results and scans again after a removal ends and
    keeps, in every run of results behind an assistant message with calls, the
    last result of each identifier; the scan that splices synthetic results
    appends one for every unanswered call, in call order; the filter of displaced
    results keeps in each run those of its calls; each returns the exact number of
    items it removed or inserted, and the read-only check reports a dangling call
    exactly when the splice would insert something. *)
Theorem tool_repairs_equivalent (l : list ConversationItem) (reason : DanglingToolCallReason) :
  dedup_duplicate_tool_results l =
    (map_runs dedup_run l, length l - length (map_runs dedup_run l)) ∧
  (repair_dangling_tool_calls l reason).1 = map_runs (answer_run reason) l ∧
  length (repair_dangling_tool_calls l reason).1 =
    length l + (repair_dangling_tool_calls l reason).2 ∧
  (strip_displaced_tool_results l).1 = map_runs strip_run l ∧
  length (strip_displaced_tool_results l).1 + length (strip_displaced_tool_results l).2 = length l ∧
  (has_dangling_tool_calls l = false ↔ (repair_dangling_tool_calls l reason).2 = 0).
Proof.
  split_and!.
  - apply dedup_equiv.
  - apply repair_equiv.
  - apply repair_count.
  - apply strip_equiv.
  - apply (strip_from_length ∅ l).
  - apply has_dangling_equiv.
Qed.

(** The repair of a history restores what model APIs require.  When no
    message calls twice with the same identifier, the result of [repair_history]
    has behind every message exactly one result for each of its calls and nothing
    else; all other items are kept in order; the report says that nothing changed
    exactly when the history was already well paired, and then it is returned as
    it was; and a second repair changes nothing. *)
Theorem repair_history_pairs (l : list ConversationItem) :
  calls_distinct l →
  let l' := (repair_history l).1 in
  well_paired l' ∧
  filter_b (λ i, negb (is_result i)) l' = filter_b (λ i, negb (is_result i)) l ∧
  (report_changed (repair_history l).2 = false ↔ well_paired l) ∧
  (report_changed (repair_history l).2 = false → l' = l) ∧
  (repair_history l').1 = l' ∧ report_changed (repair_history l').2 = false.
Proof.
  intros Hd l'. assert (Hl : l' = map_runs repair_run l) by apply repair_history_run.
  assert (Hw : well_paired l') by (rewrite Hl; by apply well_paired_repaired).
  split_and!; [done| | |apply report_unchanged| |by apply well_paired_report].
  - rewrite Hl. apply map_runs_others.
  - split; [|apply well_paired_report]. intros Hr. apply report_unchanged in Hr.
    by rewrite <-Hr.
  - by apply report_unchanged, well_paired_report.
Qed.

Definition demo_call (i : string) : ToolCall := mkToolCall (txt i) (txt "read_file") (txt "{}").
Definition demo_assistant (is_ : list string) : ConversationItem :=
  Assistant (mkAssistant [] (demo_call <$> is_) None None None).
Definition demo_result (i r : string) : ConversationItem := tool_result (txt i) (txt r).

(** An orphan, a duplicate, a displaced result and an unanswered call. *)
Definition demo_broken : list ConversationItem :=
  [demo_result "z" "orphan"; demo_assistant ["a"; "b"]; demo_result "a" "cancelled";
   demo_result "a" "real"; user_text (txt "go on"); demo_result "b" "late"].

Lemma demo_broken_distinct : calls_distinct demo_broken.
Proof. apply (bool_decide_eq_true_1 _). by vm_compute. Qed.

Lemma repair_history_pairs_witness :
  well_paired (repair_history demo_broken).1 ∧
  (repair_history (repair_history demo_broken).1).1 = (repair_history demo_broken).1.
Proof.
  destruct (repair_history_pairs demo_broken demo_broken_distinct) as (H1 & _ & _ & _ & H2 & _).
  exact (conj H1 H2).
Defined.

Example demo_broken_repaired :
  (repair_history demo_broken).1 =
    [demo_assistant ["a"; "b"]; demo_result "a" "real";
     ToolResult (synthetic_result (HarnessHalted (txt "history_repair")) (demo_call "b"));
     user_text (txt "go on")] ∧
  report_changed (repair_history demo_broken).2 = true.
Proof. by vm_compute. Qed.

(** Calls that share an identifier get two synthetic results, which the next
    repair takes for duplicates: the repair is then not idempotent. *)
Example repeated_identifier_not_idempotent :
  let l := (repair_history [demo_assistant ["a"; "a"]]).1 in
  length l = 3 ∧ length (repair_history l).1 = 2.
Proof. by vm_compute. Qed.
