(* ===== verification/Headroom.v ===== *)
(** * Headroom: large tool results out of the request

    [ds-headroom/src/lib.rs]: a large tool result is replaced in the request by a
    preview with a hash, and its content is kept in a bounded store of the
    process, from which the model can ask for it.

    The globals of the process are one record: the toggles and overrides, the
    environment variables and the store.  SHA-256, the JSON parser and printer
    and the Unicode tables behind [{:?}] are third-party code: a class of
    operations with the law the store relies on.  A [usize] is a [Z]. *)

From S2P Require Import Prelude Text TokenEstimation.

Open Scope Z_scope.

(** ** Code of other crates *)

(** [serde_json::Value]; the workspace builds it with [preserve_order]. *)
Inductive json :=
| JNull
| JBool (b : bool)
| JNumber (n : text)
| JString (s : text)
| JArray (l : list json)
| JObject (m : list (text * json)).

(** A lower-case hexadecimal digit. *)
Definition is_lower_hex (c : ascii) : bool := byte_in 48 57 c || byte_in 97 102 c.

Class HeadroomEnv := {
  sha256_hex : text → text;
  json_parse : text → option json;
  json_pretty : json → text;
  debug_verbatim : text → bool;
}.

(** A digest is 32 bytes, printed as two digits each. *)
Class HeadroomLaws {E : HeadroomEnv} : Prop :=
  sha256_hex_digits s : length (sha256_hex s) = 64%nat ∧ forallb is_lower_hex (sha256_hex s) = true.

(** ** Constants *)

Definition DEFAULT_MIN_CHARS : Z := 2000.
Definition DEFAULT_MAX_SEGMENTS : Z := 12.
Definition DEFAULT_KEEP_LINES : Z := 40.
Definition DEFAULT_MAX_STORE_ENTRIES : Z := 256.
Definition DEFAULT_MAX_STORE_CHARS : Z := 16 * 1024 * 1024.
Definition DEFAULT_RETRIEVE_MAX_CHARS : Z := 12000.
Definition DEFAULT_RETRIEVE_MAX_MATCHES : Z := 50.
Definition DEFAULT_RETRIEVE_CONTEXT_LINES : Z := 0.
Definition MAX_SUMMARY_CHARS : Z := 8000.
Definition MAX_JSON_PREVIEW_INPUT : Z := 1024 * 1024.
Definition DEFAULT_JSON_ITEMS : nat := 8.
Definition HEADROOM_RETRIEVE_TOOL_NAME : text := txt "headroom_retrieve".
Definition ENV_HEADROOM : text := txt "DS_HEADROOM".
Definition ENV_MIN_CHARS : text := txt "DS_HEADROOM_MIN_CHARS".
Definition ENV_MAX_SEGMENTS : text := txt "DS_HEADROOM_MAX_SEGMENTS".
Definition ENV_KEEP_LINES : text := txt "DS_HEADROOM_KEEP_LINES".
Definition ENV_MAX_STORE_ENTRIES : text := txt "DS_HEADROOM_MAX_STORE_ENTRIES".
Definition ENV_MAX_STORE_CHARS : text := txt "DS_HEADROOM_MAX_STORE_CHARS".

(** ** Data *)

Record CompressionStats := mkCStats {
  c_attempted : Z;
  c_compressed : Z;
  c_failed : Z;
  c_tokens_before : Z;
  c_tokens_after : Z;
  c_tokens_saved : Z;
  c_hashes : list text;
}.

Definition CompressionStats_default : CompressionStats := mkCStats 0 0 0 0 0 0 [].

Record StoredContent := mkStored {
  s_hash : text;
  s_content : text;
  original_chars : Z;
  compressed_chars : Z;
  s_tool_call_id : option text;
}.

Record SessionStats := mkSStats {
  s_attempted : Z;
  s_compressed : Z;
  s_failed : Z;
  s_tokens_before : Z;
  s_tokens_after : Z;
  s_tokens_saved : Z;
  last_error : option text;
}.

Record RetrieveOptions := mkRetrieve {
  query : option text;
  max_chars : option Z;
  max_matches : option Z;
  context_lines : option Z;
}.

Inductive RetrieveError := InvalidHash | NotFound.

Record Store := mkStore {
  entries : gmap text StoredContent;
  order : list text;
  total_chars : Z;
  session : SessionStats;
}.

Definition Store_new : Store := mkStore ∅ [] 0 (mkSStats 0 0 0 0 0 0 None).

(** The globals.  [with_store] creates the store at its first use. *)
Record Process := mkProcess {
  ENABLED_SET : bool;
  ENABLED_OVERRIDE : bool;
  MIN_CHARS_OVERRIDE : Z;
  KEEP_LINES_OVERRIDE : Z;
  MAX_STORE_ENTRIES_OVERRIDE : Z;
  MAX_STORE_CHARS_OVERRIDE : Z;
  env_vars : gmap text text;
  STORE : Store;
}.

Definition with_store (f : Store → Store) (p : Process) : Process :=
  mkProcess (ENABLED_SET p) (ENABLED_OVERRIDE p) (MIN_CHARS_OVERRIDE p) (KEEP_LINES_OVERRIDE p)
    (MAX_STORE_ENTRIES_OVERRIDE p) (MAX_STORE_CHARS_OVERRIDE p) (env_vars p) (f (STORE p)).

(** ** Settings *)

Definition env_headroom_enabled (p : Process) : bool :=
  match env_vars p !! ENV_HEADROOM with
  | None => true
  | Some v =>
      negb (bool_decide (to_ascii_lowercase (trim v) ∈
        [txt "0"; txt "false"; txt "no"; txt "off"; txt "disable"; txt "disabled"]))
  end.

Definition is_enabled (p : Process) : bool :=
  if ENABLED_SET p then ENABLED_OVERRIDE p else env_headroom_enabled p.

Definition set_enabled (enabled : bool) (p : Process) : Process :=
  mkProcess true enabled (MIN_CHARS_OVERRIDE p) (KEEP_LINES_OVERRIDE p)
    (MAX_STORE_ENTRIES_OVERRIDE p) (MAX_STORE_CHARS_OVERRIDE p)
    (<[ENV_HEADROOM := if enabled then txt "1" else txt "0"]> (env_vars p)) (STORE p).

Definition positive (n : Z) : option Z := if 0 <? n then Some n else None.

Definition positive_usize_env (name : text) (dflt cap : Z) (p : Process) : Z :=
  match env_vars p !! name ≫= (λ v, parse_uint u64_max (trim v) ≫= positive) with
  | Some n => Z.min n cap
  | None => dflt
  end.

Definition min_chars (p : Process) : Z :=
  let o := MIN_CHARS_OVERRIDE p in
  if 0 <? o then o else positive_usize_env ENV_MIN_CHARS DEFAULT_MIN_CHARS 1000000 p.

Definition keep_lines (p : Process) : Z :=
  let o := KEEP_LINES_OVERRIDE p in
  if 0 <? o then o else positive_usize_env ENV_KEEP_LINES DEFAULT_KEEP_LINES 1000 p.

Definition max_store_entries (p : Process) : Z :=
  let o := MAX_STORE_ENTRIES_OVERRIDE p in
  if 0 <? o then o else positive_usize_env ENV_MAX_STORE_ENTRIES DEFAULT_MAX_STORE_ENTRIES 4096 p.

Definition max_store_chars (p : Process) : Z :=
  let o := MAX_STORE_CHARS_OVERRIDE p in
  if 0 <? o then o
  else positive_usize_env ENV_MAX_STORE_CHARS DEFAULT_MAX_STORE_CHARS (128 * 1024 * 1024) p.

(** ** Text helpers *)

Definition char_count (s : text) : Z := Z.of_nat (length (chars s)).

Definition take_chars_prefix (s : text) (max : Z) : text := concat (take (Z.to_nat max) (chars s)).

Definition take_chars_suffix (s : text) (max : Z) : text :=
  let total := char_count s in
  if total <=? max then s else concat (drop (Z.to_nat (total - max)) (chars s)).

Definition truncate_chars (s : text) (max : Z) : text :=
  if char_count s <=? max then s else take_chars_prefix s max ++ txt "…".

Definition take_bytes_prefix_safe (s : text) (max : Z) : text :=
  if len s <=? max then s else take (floor_boundary s (Z.to_nat max)) s.

Definition take_bytes_suffix_safe (s : text) (max : Z) : text :=
  if len s <=? max then s else skip_cont (drop (Z.to_nat (len s - max)) s).

Definition escape_attr (s : text) : text :=
  replace_char "<"%char (txt "&lt;")
    (replace_char (ascii_of_nat 34) (txt "&quot;") (replace_char "&"%char (txt "&amp;") s)).

Definition truncate_bytes_message (s : text) (max : Z) : text :=
  if len s <=? max then s
  else
    take_bytes_prefix_safe s (u64_saturating_sub max 80) ++ [LF; LF]
    ++ txt "[… retrieve output truncated at " ++ show_Z max
    ++ txt " bytes; narrow `query` or raise max_chars …]".

Definition normalize_hash (hash : text) : option text :=
  let h := to_ascii_lowercase (trim hash) in
  let h := default h (text_strip_prefix (txt "0x") h) in
  if (len h =? 64) && forallb (λ c, is_lower_hex c || byte_in 65 70 c) h then Some h else None.

(** ** Previews *)

Definition summarize_value (value : json) : json :=
  match value with
  | JArray a => JString (txt "[array:" ++ show_Z (Z.of_nat (length a)) ++ txt "]")
  | JObject o => JString (txt "{object:" ++ show_Z (Z.of_nat (length o)) ++ txt "}")
  | JString s => if 200 <? len s then JString (take_chars_prefix s 200 ++ txt "...") else value
  | _ => value
  end.

(** [Map::insert]: in place if the key is there, at the end if not. *)
Fixpoint json_insert (k : text) (v : json) (m : list (text * json)) : list (text * json) :=
  match m with
  | [] => [(k, v)]
  | (k', v') :: m' => if decide (k' = k) then (k, v) :: m' else (k', v') :: json_insert k v m'
  end.

Definition json_usize (n : nat) : json := JNumber (show_Z (Z.of_nat n)).

(** [levels] is [max_depth - depth]. *)
Fixpoint preview_json (levels : nat) (max_array max_keys : nat) (value : json) : json :=
  match levels with
  | 0%nat => summarize_value value
  | S levels =>
      match value with
      | JArray arr =>
          if (length arr <=? max_array)%nat then
            JArray (preview_json levels max_array max_keys <$> arr)
          else
            JArray
              ((preview_json levels max_array max_keys <$> take max_array arr)
               ++ [JObject [(txt "__headroom_omitted_items", json_usize (length arr - max_array));
                            (txt "__headroom_total_items", json_usize (length arr))]])
      | JObject map =>
          let out :=
            foldl (λ out '(k, v), json_insert k (preview_json levels max_array max_keys v) out) []
              (take max_keys map) in
          JObject
            (if (max_keys <? length map)%nat then
               json_insert (txt "__headroom_omitted_keys")
                 (JArray (JString <$> (drop max_keys map).*1)) out
             else out)
      | other => other
      end
  end.

Definition summarize_plain_text (p : Process) (s : text) : option text :=
  if forallb is_whitespace_char (chars s) then None
  else
    let keep := keep_lines p in
    let lines := split_on LF s in
    let line_count := Z.of_nat (length lines) in
    if u64_add keep 4 <? line_count then
      let head_count := (keep + 1) / 2 in
      let tail_count := keep / 2 in
      let head := join_with [LF] (take (Z.to_nat (Z.min head_count line_count)) lines) in
      let tail_start := u64_saturating_sub line_count tail_count in
      let tail := join_with [LF] (drop (Z.to_nat tail_start) lines) in
      let omitted := u64_saturating_sub line_count (u64_add head_count tail_count) in
      Some (txt "Text output compressed by Headroom local line preview (" ++ show_Z line_count
        ++ txt " lines, " ++ show_Z (len s) ++ txt " chars)." ++ [LF]
        ++ txt "First " ++ show_Z head_count ++ txt " lines:" ++ [LF] ++ head ++ [LF; LF]
        ++ txt "[... " ++ show_Z omitted
        ++ txt " lines omitted; retrieve hash for exact content ...]" ++ [LF; LF]
        ++ txt "Last " ++ show_Z tail_count ++ txt " lines:" ++ [LF] ++ tail)
    else
      let excerpt := Z.max (MAX_SUMMARY_CHARS / 2) 1000 in
      if char_count s <=? excerpt * 2 + 200 then None
      else
        let head := take_chars_prefix s excerpt in
        let tail := take_chars_suffix s excerpt in
        let omitted := u64_saturating_sub (char_count s) (char_count head + char_count tail) in
        Some (txt "Text output compressed by Headroom local character preview (" ++ show_Z (len s)
          ++ txt " chars)." ++ [LF]
          ++ txt "First " ++ show_Z excerpt ++ txt " chars:" ++ [LF] ++ head ++ [LF; LF]
          ++ txt "[... " ++ show_Z omitted
          ++ txt " chars omitted; retrieve hash for exact content ...]" ++ [LF; LF]
          ++ txt "Last " ++ show_Z excerpt ++ txt " chars:" ++ [LF] ++ tail).

(** Tool names whose results are left alone. *)
Definition should_skip_tool_name (name : text) : bool :=
  let n := trim name in
  bool_decide (n ∈
    [txt "headroom_retrieve"; txt "spawn_subagent"; txt "get_command_or_subagent_output";
     txt "get_task_output"; txt "kill_command_or_subagent"; txt "kill_task"; txt "monitor";
     txt "Task"; txt "task"; txt "TodoWrite"; txt "todo_write"; txt "update_goal";
     txt "UpdateGoal"])
  || ends_with_text (txt ":headroom_retrieve") n
  || ends_with_text (txt ":spawn_subagent") n
  || ends_with_text (txt ":get_command_or_subagent_output") n
  || ends_with_text (txt ":get_task_output") n
  || contains n (txt "spawn_subagent")
  || contains n (txt "get_command_or_subagent_output")
  || contains n (txt "get_task_output").

Definition is_protected_content (s : text) : bool :=
  starts_with (txt "<headroom_compressed") s
  || starts_with (txt "HEADROOM_ORIGINAL ") s
  || starts_with (txt "<headroom_original") s
  || (contains s (txt "`" ++ HEADROOM_RETRIEVE_TOOL_NAME ++ txt "`")
      && contains s (txt "hash=" ++ [ascii_of_nat 34])
      && (len s <? DEFAULT_MIN_CHARS * 2)).

(** ** The store *)

(** [entries.remove(oldest)] with the total. *)
Definition drop_entry (h : text) (s : Store) : Store :=
  mkStore (delete h (entries s)) (order s)
    (match entries s !! h with
     | Some old => u64_saturating_sub (total_chars s) (original_chars old)
     | None => total_chars s
     end) (session s).

Definition over_limit (max_entries max_chars : Z) (entry : StoredContent) (s : Store) : bool :=
  (max_entries <=? Z.of_nat (size (entries s)))
  || (max_chars <? u64_saturating_add (total_chars s) (original_chars entry)).

Definition set_order (o : list text) (s : Store) : Store :=
  mkStore (entries s) o (total_chars s) (session s).

(** The eviction loop, which returns [false] when nothing is left to evict. *)
Fixpoint evict_loop (max_entries max_chars : Z) (entry : StoredContent) (s : Store)
    (order : list text) : Store * bool :=
  if over_limit max_entries max_chars entry s then
    match order with
    | [] => (set_order [] s, false)
    | oldest :: order' => evict_loop max_entries max_chars entry (drop_entry oldest s) order'
    end
  else (set_order order s, true).

Definition insert_entry (entry : StoredContent) (s : Store) : Store :=
  mkStore (<[s_hash entry := entry]> (entries s)) (order s ++ [s_hash entry])
    (u64_saturating_add (total_chars s) (original_chars entry)) (session s).

Definition remember_in (max_entries max_chars : Z) (entry : StoredContent) (s : Store)
    : Store * bool :=
  if (max_chars <? original_chars entry) || (max_entries =? 0) then (s, false)
  else
    let s :=
      match entries s !! s_hash entry with
      | Some _ =>
          let s := drop_entry (s_hash entry) s in
          set_order (filter_b (λ h, negb (bool_decide (h = s_hash entry))) (order s)) s
      | None => s
      end in
    match evict_loop max_entries max_chars entry s (order s) with
    | (s, false) => (s, false)
    | (s, true) =>
        if over_limit max_entries max_chars entry s then (s, false)
        else (insert_entry entry s, true)
    end.

Definition remember (entry : StoredContent) (p : Process) : Process * bool :=
  let '(s, ok) := remember_in (max_store_entries p) (max_store_chars p) entry (STORE p) in
  (with_store (λ _, s) p, ok).

(** ** Compression *)

Section compression.
Context `{HeadroomEnv}.

Definition summarize_json (s : text) : option text :=
  if MAX_JSON_PREVIEW_INPUT <? len s then None
  else
    let trimmed := trim s in
    if starts_with (txt "{") trimmed || starts_with (txt "[") trimmed then
      match json_parse trimmed with
      | None => None
      | Some value =>
          let preview := preview_json 5 DEFAULT_JSON_ITEMS 24 value in
          let preview_text := truncate_chars (json_pretty preview) MAX_SUMMARY_CHARS in
          let kind :=
            match value with
            | JArray a => txt "array with " ++ show_Z (Z.of_nat (length a)) ++ txt " item(s)"
            | JObject o =>
                txt "object with " ++ show_Z (Z.of_nat (length o)) ++ txt " top-level key(s)"
            | JString _ => txt "string"
            | _ => txt "value"
            end in
          Some (txt "JSON " ++ kind ++ txt " compressed by Headroom local structural preview."
            ++ [LF] ++ txt "Preview:" ++ [LF] ++ preview_text)
      end
    else None.

Definition build_compressed_text (p : Process) (s hash : text) (tool_call_id : option text)
    : text :=
  match match summarize_json s with Some x => Some x | None => summarize_plain_text p s end with
  | None => s
  | Some summary =>
      let summary := truncate_chars summary MAX_SUMMARY_CHARS in
      let tool_attr :=
        match tool_call_id with
        | Some id => txt " tool_call_id=" ++ quoted (escape_attr id)
        | None => []
        end in
      txt "<headroom_compressed hash=" ++ quoted hash ++ txt " original_chars="
      ++ quoted (show_Z (len s)) ++ tool_attr ++ txt ">" ++ [LF]
      ++ txt "Original content is stored in this DS session. Use the `"
      ++ HEADROOM_RETRIEVE_TOOL_NAME ++ txt "` tool with hash " ++ quoted hash
      ++ txt " if exact content is needed." ++ [LF]
      ++ txt "Prefer `query` on `" ++ HEADROOM_RETRIEVE_TOOL_NAME
      ++ txt "` to fetch middle lines without reloading the full body." ++ [LF; LF]
      ++ summary ++ [LF]
      ++ txt "</headroom_compressed>"
  end.

Definition on_session (f : SessionStats → SessionStats) (s : Store) : Store :=
  mkStore (entries s) (order s) (total_chars s) (f (session s)).

Definition note_failed (stats : CompressionStats) (reason : text) (p : Process)
    : CompressionStats * Process :=
  (mkCStats (c_attempted stats) (c_compressed stats) (u32_add (c_failed stats) 1)
     (c_tokens_before stats) (c_tokens_after stats) (c_tokens_saved stats) (c_hashes stats),
   with_store (on_session (λ x,
     mkSStats (s_attempted x) (s_compressed x) (u32_add (s_failed x) 1) (s_tokens_before x)
       (s_tokens_after x) (s_tokens_saved x) (Some reason))) p).

Definition count_attempt (stats : CompressionStats) (p : Process) : CompressionStats * Process :=
  (mkCStats (u32_add (c_attempted stats) 1) (c_compressed stats) (c_failed stats)
     (c_tokens_before stats) (c_tokens_after stats) (c_tokens_saved stats) (c_hashes stats),
   with_store (on_session (λ x,
     mkSStats (u32_add (s_attempted x) 1) (s_compressed x) (s_failed x) (s_tokens_before x)
       (s_tokens_after x) (s_tokens_saved x) (last_error x))) p).

Definition count_success (before after : Z) (hash : text) (stats : CompressionStats) (p : Process)
    : CompressionStats * Process :=
  let saved := u64_saturating_sub before after in
  (mkCStats (c_attempted stats) (u32_add (c_compressed stats) 1) (c_failed stats)
     (u64_add (c_tokens_before stats) before) (u64_add (c_tokens_after stats) after)
     (u64_add (c_tokens_saved stats) saved) (c_hashes stats ++ [hash]),
   with_store (on_session (λ x,
     mkSStats (s_attempted x) (u32_add (s_compressed x) 1) (s_failed x)
       (u64_add (s_tokens_before x) before) (u64_add (s_tokens_after x) after)
       (u64_add (s_tokens_saved x) saved) (last_error x))) p).

Definition compress_one (s : text) (tool_call_id : option text) (stats : CompressionStats)
    (p : Process) : option text * (CompressionStats * Process) :=
  let '(stats, p) := count_attempt stats p in
  if max_store_chars p <? len s then
    (None, note_failed stats (txt "content exceeds max store chars") p)
  else
    let before := estimate_tokens s in
    let hash := sha256_hex s in
    let compressed := build_compressed_text p s hash tool_call_id in
    if decide (compressed = s) then
      (None, note_failed stats (txt "no smaller summary produced") p)
    else
      let after := estimate_tokens compressed in
      if (before <=? after) || (len s <=? len compressed) then
        (None, note_failed stats (txt "compressed form not smaller") p)
      else
        match remember (mkStored hash s (len s) (len compressed) tool_call_id) p with
        | (p, false) => (None, note_failed stats (txt "store rejected entry") p)
        | (p, true) => (Some compressed, count_success before after hash stats p)
        end.

Definition maybe_compress_content (s : text) (tool_call_id : option text)
    (stats : CompressionStats) (p : Process) : option text * (CompressionStats * Process) :=
  if negb (is_enabled p) then (None, (stats, p))
  else if (len s <? min_chars p) || is_protected_content s then (None, (stats, p))
  else compress_one s tool_call_id stats p.

(** ** Retrieval *)

(** The indices of the lines that contain the query. *)
Definition matching (q : text) (lines : list text) : list nat :=
  filter_b (λ i, match lines !! i with Some l => contains l q | None => false end)
    (seq 0 (length lines)).

(** The lines shown: those within the context of a match. *)
Definition shown (context_lines : Z) (line_count : nat) (match_idxs : list nat) (i : nat) : bool :=
  any_b (λ idx,
    let start := u64_saturating_sub (Z.of_nat idx) context_lines in
    let end_ := Z.min (u64_add (u64_add (Z.of_nat idx) context_lines) 1) (Z.of_nat line_count) in
    (start <=? Z.of_nat i) && (Z.of_nat i <? end_)) match_idxs.

(** The loop that prints them, from line [i] on. *)
Fixpoint print_shown (include : nat → bool) (last_included : option nat) (i : nat)
    (lines : list text) : text :=
  match lines with
  | [] => []
  | line :: rest =>
      if include i then
        (match last_included with
         | Some prev =>
             if (prev + 1 <? i)%nat then
               txt "... (lines " ++ show_Z (Z.of_nat (prev + 2)) ++ txt "-" ++ show_Z (Z.of_nat i)
               ++ txt " omitted) ..." ++ [LF]
             else []
         | None => []
         end) ++ show_Z (Z.of_nat (i + 1)) ++ txt ":" ++ line ++ [LF]
        ++ print_shown include (Some i) (S i) rest
      else print_shown include last_included (S i) rest
  end.

Definition filter_lines (content query : text) (max_matches context_lines : Z) : text :=
  let lines := split_on LF content in
  let all := matching query lines in
  let match_idxs := take (Z.to_nat max_matches) all in
  match match_idxs with
  | [] => txt "(no lines containing " ++ debug_str debug_verbatim query ++ txt ")"
  | _ =>
      (if (length match_idxs <? length all)%nat then
         txt "(showing " ++ show_Z (Z.of_nat (length match_idxs)) ++ txt " of "
         ++ show_Z (Z.of_nat (length all)) ++ txt " matching lines)" ++ [LF]
       else [])
      ++ print_shown (shown context_lines (length lines) match_idxs) None 0 lines
  end.

Definition retrieved_header (entry : StoredContent) : text :=
  txt "HEADROOM_ORIGINAL hash=" ++ s_hash entry ++ txt " original_chars="
  ++ show_Z (original_chars entry) ++ [LF].

Definition format_retrieved (entry : StoredContent) (opts : RetrieveOptions) : text :=
  let max_chars := default DEFAULT_RETRIEVE_MAX_CHARS (max_chars opts ≫= positive) in
  let header := retrieved_header entry in
  match (match trim <$> query opts with Some [] => None | q => q end) with
  | Some query =>
      let max_matches := default DEFAULT_RETRIEVE_MAX_MATCHES (max_matches opts ≫= positive) in
      let context := default DEFAULT_RETRIEVE_CONTEXT_LINES (context_lines opts) in
      let body := filter_lines (s_content entry) query max_matches context in
      let body := truncate_bytes_message body max_chars in
      header ++ txt "Query filter: " ++ debug_str debug_verbatim query ++ txt " (max_matches="
      ++ show_Z max_matches ++ txt ", context_lines=" ++ show_Z context ++ txt ")" ++ [LF]
      ++ txt "Matching content follows." ++ [LF; LF] ++ body
  | None =>
      if len (s_content entry) <=? max_chars then
        header ++ txt "Exact original content follows." ++ [LF; LF] ++ s_content entry
      else
        let half := max_chars / 2 in
        let head := take_bytes_prefix_safe (s_content entry) half in
        let tail :=
          take_bytes_suffix_safe (s_content entry) (Z.max (u64_saturating_sub half 200) 1) in
        let omitted := u64_saturating_sub (len (s_content entry)) (len head + len tail) in
        header ++ txt "Exact original is " ++ show_Z (original_chars entry)
        ++ txt " chars; returning first/last ~" ++ show_Z half ++ txt " bytes (omitted ~"
        ++ show_Z omitted ++ txt "). Pass `query` to fetch middle lines without the full body."
        ++ [LF; LF] ++ head ++ [LF; LF]
        ++ txt "[... " ++ show_Z omitted
        ++ txt " bytes omitted; re-call headroom_retrieve with query=... ...]" ++ [LF; LF]
        ++ tail
  end.

Definition retrieve (hash : text) (p : Process) : option StoredContent :=
  normalize_hash hash ≫= (λ key, entries (STORE p) !! key).

Definition retrieve_formatted (hash : text) (opts : RetrieveOptions) (p : Process)
    : RetrieveError + text :=
  match normalize_hash hash with
  | None => inl InvalidHash
  | Some key =>
      match entries (STORE p) !! key with
      | None => inl NotFound
      | Some entry => inr (format_retrieved entry opts)
      end
  end.

(** ** Reports *)

Definition session_stats (p : Process) : SessionStats := session (STORE p).

Definition store_stats (p : Process) : Z * Z * Z * Z :=
  (Z.of_nat (size (entries (STORE p))), max_store_entries p, total_chars (STORE p),
   max_store_chars p).

Definition format_stats_report (p : Process) : text :=
  let st := session_stats p in
  let '(entries, max_e, chars, max_c) := store_stats p in
  txt "Headroom " ++ (if is_enabled p then txt "enabled" else txt "disabled")
  ++ txt " (built-in local compression)" ++ [LF]
  ++ txt "Segments: " ++ show_Z (s_compressed st) ++ txt "/" ++ show_Z (s_attempted st)
  ++ txt " compressed, " ++ show_Z (s_failed st) ++ txt " failed" ++ [LF]
  ++ txt "Tokens: " ++ show_Z (s_tokens_before st) ++ txt " -> " ++ show_Z (s_tokens_after st)
  ++ txt " (saved " ++ show_Z (s_tokens_saved st) ++ txt ")" ++ [LF]
  ++ txt "Store: " ++ show_Z entries ++ txt "/" ++ show_Z max_e ++ txt " originals, "
  ++ show_Z chars ++ txt "/" ++ show_Z max_c ++ txt " chars"
  ++ match last_error st with Some e => [LF] ++ txt "Last error: " ++ e | None => [] end.

End compression.
