(* ===== verification/HeadroomProps.v ===== *)
(** * Headroom: the store and the round trip

    The store is a bounded first-in first-out queue whose counters are exact; what
    is compressed is smaller and can be asked for by the hash in its place. *)

From S2P Require Import Prelude Text TokenEstimation Headroom.

Open Scope Z_scope.

(** ** The invariant of the store *)

Definition weight (m : gmap text StoredContent) (h : text) : Z :=
  match m !! h with Some e => original_chars e | None => 0 end.

Definition chars_in (m : gmap text StoredContent) (o : list text) : Z :=
  foldr Z.add 0 (weight m <$> o).

(** The store holds exactly the entries of [o], in this order of age. *)
Record holds (s : Store) (o : list text) : Prop := {
  holds_nodup : NoDup o;
  holds_keys h : h ∈ o ↔ is_Some (entries s !! h);
  holds_entry h e : entries s !! h = Some e → s_hash e = h ∧ original_chars e = len (s_content e);
  holds_total : total_chars s = chars_in (entries s) o;
  holds_u64 : total_chars s <= u64_max;
}.

Definition store_ok (s : Store) : Prop := holds s (order s).

Lemma store_new_ok : store_ok Store_new.
Proof.
  split; cbn; [constructor| |done|done|done].
  intros h. rewrite lookup_empty. split; [by intros ?%not_elem_of_nil|by intros [? ?]].
Qed.

Lemma chars_in_ext m m' o : (∀ h, h ∈ o → m !! h = m' !! h) → chars_in m o = chars_in m' o.
Proof.
  intros E. unfold chars_in. f_equal. apply list_fmap_ext. intros i h Hh.
  unfold weight. rewrite E; [done|]. by eapply list_elem_of_lookup_2.
Qed.

Lemma chars_in_app m o o' : chars_in m (o ++ o') = chars_in m o + chars_in m o'.
Proof.
  unfold chars_in. rewrite fmap_app. induction (weight m <$> o) as [|x l IH]; cbn; [done|]. lia.
Qed.

Lemma chars_in_Permutation m o o' : o ≡ₚ o' → chars_in m o = chars_in m o'.
Proof.
  unfold chars_in. induction 1 as [|x l l' _ IH|x y l|l1 l2 l3 _ IH1 _ IH2]; cbn in *; lia.
Qed.

Lemma holds_size s o : holds s o → size (entries s) = length o.
Proof.
  intros H. rewrite <- size_dom.
  assert (dom (entries s) = list_to_set o) as ->.
  { apply set_eq. intros h. rewrite elem_of_dom, elem_of_list_to_set. symmetry. apply H. }
  apply size_list_to_set, H.
Qed.

Lemma weight_nonneg s o h : holds s o → 0 <= weight (entries s) h.
Proof.
  intros H. unfold weight. destruct (entries s !! h) as [e|] eqn:E; [|done].
  apply H in E as [_ ->]. unfold len. lia.
Qed.

Lemma chars_in_nonneg s o k : holds s o → 0 <= chars_in (entries s) k.
Proof.
  intros H. unfold chars_in. induction k as [|h k IH]; [done|]. rewrite fmap_cons. cbn.
  pose proof (weight_nonneg s o h H). lia.
Qed.

(** Removing an entry, wherever it is in the order. *)
Lemma drop_entry_holds s o h o' :
  holds s o → o ≡ₚ h :: o' → holds (drop_entry h s) o'.
Proof.
  intros H Hp. pose proof (holds_nodup _ _ H) as Hnd. rewrite Hp in Hnd.
  apply NoDup_cons in Hnd as [Hh Hnd].
  assert (∀ x, x ∈ o' → delete h (entries s) !! x = entries s !! x) as Hsame.
  { intros x Hx. apply lookup_delete_ne. by intros ->. }
  assert (is_Some (entries s !! h)) as [e He] by (apply H; rewrite Hp; left).
  assert (chars_in (entries s) o = original_chars e + chars_in (entries s) o') as Hc.
  { rewrite (chars_in_Permutation _ _ _ Hp). unfold chars_in. rewrite fmap_cons. cbn.
    unfold weight at 1. by rewrite He. }
  assert (total_chars (drop_entry h s) = chars_in (entries s) o') as Ht.
  { unfold drop_entry. cbn. rewrite He. unfold u64_saturating_sub.
    rewrite (holds_total _ _ H), Hc. pose proof (chars_in_nonneg _ _ o' H). lia. }
  split.
  - done.
  - intros x. cbn. destruct (decide (x = h)) as [->|Hne].
    + rewrite lookup_delete_eq. split; [done|by intros [? ?]].
    + rewrite lookup_delete_ne by done. rewrite <- (holds_keys _ _ H), Hp. set_solver.
  - intros x y. cbn. intros [_ Hx]%lookup_delete_Some. by apply H.
  - rewrite Ht. apply chars_in_ext. intros x Hx. symmetry. by apply Hsame.
  - rewrite Ht. pose proof (holds_u64 _ _ H) as Hu. rewrite (holds_total _ _ H), Hc in Hu.
    pose proof (weight_nonneg s o h H) as Hw. unfold weight in Hw. rewrite He in Hw. lia.
Qed.

Lemma drop_entry_others s h x : x ≠ h → entries (drop_entry h s) !! x = entries s !! x.
Proof. intros. cbn. by apply lookup_delete_ne. Qed.

Lemma set_order_holds s o o' : holds s o → holds (set_order o' s) o.
Proof. by intros []; split. Qed.

(** ** Eviction *)

Lemma over_limit_spec me mc e s o :
  holds s o → 0 <= original_chars e → mc < u64_max →
  over_limit me mc e s = true
  ↔ me <= Z.of_nat (length o) ∨ mc < chars_in (entries s) o + original_chars e.
Proof.
  intros H He Hmc. unfold over_limit. rewrite orb_true_iff, Z.leb_le, Z.ltb_lt.
  rewrite (holds_size s o H), (holds_total _ _ H).
  unfold u64_saturating_add. pose proof (chars_in_nonneg s o o H). lia.
Qed.

(** The loop evicts the least number of oldest entries that makes room. *)
Lemma evict_loop_spec me mc e s o :
  holds s o → 0 < me → 0 <= original_chars e <= mc → mc < u64_max →
  ∃ k s', evict_loop me mc e s o = (s', true) ∧ order s' = drop k o ∧ holds s' (drop k o)
    ∧ (∀ h, h ∈ drop k o → entries s' !! h = entries s !! h)
    ∧ over_limit me mc e s' = false
    ∧ ∀ j, (j < k)%nat →
        me <= Z.of_nat (length (drop j o))
        ∨ mc < chars_in (entries s) (drop j o) + original_chars e.
Proof.
  revert s. induction o as [|h o IH]; intros s H Hme Hoc Hmc; cbn [evict_loop].
  - destruct (over_limit me mc e s) eqn:E.
    + apply (over_limit_spec _ _ _ _ _ H) in E; [cbn in E; lia|lia|done].
    + exists 0%nat, (set_order [] s). split_and!; [done|done|by apply set_order_holds|done|done|lia].
  - destruct (over_limit me mc e s) eqn:E.
    + apply (over_limit_spec _ _ _ _ _ H) in E; [|lia|done].
      pose proof (drop_entry_holds s _ h o H ltac:(done)) as Hd.
      pose proof (holds_nodup _ _ H) as [Hh _]%NoDup_cons.
      destruct (IH (drop_entry h s) Hd) as (k & s' & E1 & E2 & E3 & E4 & E5 & E6); [done..|].
      exists (S k), s'. split_and!; [done|done|done| |done|].
      * intros x Hx. rewrite E4 by done. apply drop_entry_others. intros ->.
        apply Hh. by eapply subseteq_drop.
      * intros [|j] Hj; [done|]. cbn [drop].
        destruct (E6 j ltac:(lia)) as [?|Hc]; [by left|right].
        rewrite (chars_in_ext _ (entries s)) in Hc; [done|].
        intros x Hx. apply drop_entry_others. intros ->. apply Hh. by eapply subseteq_drop.
    + exists 0%nat, (set_order (h :: o) s).
      split_and!; [done|done|by apply set_order_holds|done|done|lia].
Qed.

(** The entries other than that of a hash, oldest first. *)
Definition others (h : text) (s : Store) : list text :=
  filter_b (λ x, negb (bool_decide (x = h))) (order s).

Lemma elem_of_others h s x : x ∈ others h s ↔ x ∈ order s ∧ x ≠ h.
Proof. unfold others. rewrite elem_of_filter_b, negb_true_iff, bool_decide_eq_false. done. Qed.

Lemma others_perm h s : NoDup (order s) → h ∈ order s → order s ≡ₚ h :: others h s.
Proof.
  intros Hnd Hh. apply NoDup_Permutation; [done| |].
  - constructor; [rewrite elem_of_others; naive_solver|].
    eapply sublist_NoDup; [exact Hnd|]. apply filter_b_sublist.
  - intros x. rewrite elem_of_cons, elem_of_others. destruct (decide (x = h)); naive_solver.
Qed.

Lemma others_absent h s : h ∉ order s → others h s = order s.
Proof.
  intros Hh. apply filter_b_all. intros x Hx. apply negb_true_iff, bool_decide_eq_false.
  by intros ->.
Qed.

(** Replacing an entry of the same hash starts with its removal. *)
Lemma remove_old_spec e s :
  store_ok s →
  let s1 :=
    match entries s !! s_hash e with
    | Some _ =>
        let s := drop_entry (s_hash e) s in
        set_order (filter_b (λ h, negb (bool_decide (h = s_hash e))) (order s)) s
    | None => s
    end in
  order s1 = others (s_hash e) s ∧ holds s1 (others (s_hash e) s)
  ∧ (∀ h, h ∈ others (s_hash e) s → entries s1 !! h = entries s !! h).
Proof.
  intros H s1. subst s1. destruct (entries s !! s_hash e) as [old|] eqn:E.
  - assert (s_hash e ∈ order s) as Hin by by apply H.
    split_and!; [done| |].
    + apply set_order_holds. eapply drop_entry_holds; [exact H|].
      apply others_perm; [apply H|done].
    + intros h [_ Hne]%elem_of_others. cbn. by apply lookup_delete_ne.
  - rewrite others_absent; [done|]. rewrite (holds_keys _ _ H), E. by intros [? ?].
Qed.

Lemma insert_entry_holds e s o mc :
  holds s o → order s = o → s_hash e ∉ o → original_chars e = len (s_content e) →
  chars_in (entries s) o + original_chars e <= mc → mc < u64_max →
  store_ok (insert_entry e s) ∧ total_chars (insert_entry e s) <= mc.
Proof.
  intros H Ho Hne Hoc Hfit Hmc.
  assert (chars_in (<[s_hash e := e]> (entries s)) (o ++ [s_hash e])
    = chars_in (entries s) o + original_chars e) as Hc.
  { rewrite chars_in_app. f_equal.
    - apply chars_in_ext. intros h Hh. apply lookup_insert_ne. by intros <-.
    - unfold chars_in, weight. cbn. rewrite lookup_insert_eq. lia. }
  assert (total_chars (insert_entry e s) = chars_in (entries s) o + original_chars e) as Ht.
  { cbn. rewrite (holds_total _ _ H). unfold u64_saturating_add. lia. }
  split; [|lia]. split; cbn [insert_entry entries order]; rewrite ?Ho.
  - apply NoDup_app. split_and!; [apply H| |apply NoDup_singleton].
    by intros x Hx ->%list_elem_of_singleton.
  - intros h. rewrite elem_of_app, list_elem_of_singleton, (holds_keys _ _ H).
    destruct (decide (h = s_hash e)) as [->|Hd].
    + rewrite lookup_insert_eq. naive_solver.
    + rewrite lookup_insert_ne by done. naive_solver.
  - intros h x. intros [[<- <-]|[_ Hx]]%lookup_insert_Some; [done|]. by apply H.
  - by rewrite Ht.
  - lia.
Qed.

Lemma remember_rejects max_entries max_chars e s :
  max_chars < original_chars e ∨ max_entries = 0 →
  remember_in max_entries max_chars e s = (s, false).
Proof.
  intros Hno. unfold remember_in. replace (_ || _) with true; [done|]. symmetry.
  rewrite orb_true_iff, Z.ltb_lt, Z.eqb_eq. done.
Qed.

(** What a successful [remember] leaves. *)
Definition remembered (max_entries max_chars : Z) (e : StoredContent) (s : Store) (k : nat)
    (s' : Store) : Prop :=
  store_ok s'
  ∧ order s' = drop k (others (s_hash e) s) ++ [s_hash e]
  ∧ entries s' !! s_hash e = Some e
  ∧ (∀ h, h ∈ drop k (others (s_hash e) s) → entries s' !! h = entries s !! h)
  ∧ Z.of_nat (size (entries s')) <= max_entries ∧ total_chars s' <= max_chars
  ∧ ∀ j, (j < k)%nat →
      max_entries <= Z.of_nat (length (drop j (others (s_hash e) s)))
      ∨ max_chars < chars_in (entries s) (drop j (others (s_hash e) s)) + original_chars e.

Lemma remember_success max_entries max_chars e s :
  store_ok s → original_chars e = len (s_content e) → max_chars < u64_max →
  original_chars e <= max_chars → 0 < max_entries →
  ∃ k s', remember_in max_entries max_chars e s = (s', true)
    ∧ remembered max_entries max_chars e s k s'.
Proof.
  intros H Hoc Hmc Hfit Hpos. unfold remember_in.
  replace (_ || _) with false
    by (symmetry; rewrite orb_false_iff, Z.ltb_ge, Z.eqb_neq; lia).
  destruct (remove_old_spec e s H) as (Ho1 & H1 & Hsame). revert Ho1 H1 Hsame.
  match goal with |- context [evict_loop _ _ _ ?x _] => set (s1 := x) end. cbn zeta.
  intros Ho1 H1 Hsame. rewrite Ho1.
  assert (0 <= original_chars e) by (rewrite Hoc; unfold len; lia).
  destruct (evict_loop_spec max_entries max_chars e s1 _ H1) as (k & s' & -> & E2 & E3 & E4 & E5 & E6);
    [done|done|done|]. cbn [fst snd]. rewrite E5.
  assert (¬ (max_entries <= Z.of_nat (length (drop k (others (s_hash e) s)))
    ∨ max_chars < chars_in (entries s') (drop k (others (s_hash e) s)) + original_chars e)) as Hroom.
  { rewrite <- (over_limit_spec _ _ _ _ _ E3) by done. by rewrite E5. }
  assert (s_hash e ∉ drop k (others (s_hash e) s)) as Hnew.
  { intros Hin%subseteq_drop%elem_of_others. by destruct Hin. }
  destruct (insert_entry_holds e s' _ max_chars E3 E2 Hnew) as [Hok Htot]; [done|lia|done|].
  exists k, (insert_entry e s'). split; [done|]. split_and!; [done|cbn; by rewrite E2|apply lookup_insert_eq| | |done|].
  - intros h Hh. cbn. rewrite lookup_insert_ne by (intros <-; done). rewrite E4 by done.
    apply Hsame. by eapply subseteq_drop.
  - rewrite (holds_size _ _ Hok). cbn. rewrite E2, length_app. cbn. lia.
  - intros j Hj. destruct (E6 j Hj) as [?|Hc]; [by left|right].
    rewrite (chars_in_ext _ (entries s)) in Hc; [done|].
    intros x Hx. apply Hsame. by eapply subseteq_drop.
Qed.

Lemma remember_in_ok max_entries max_chars e s :
  store_ok s → original_chars e = len (s_content e) → 0 <= max_entries → max_chars < u64_max →
  store_ok (remember_in max_entries max_chars e s).1.
Proof.
  intros H Hoc Hme Hmc.
  destruct (decide (max_chars < original_chars e ∨ max_entries = 0)) as [Hno|Hyes].
  - by rewrite remember_rejects.
  - destruct (remember_success max_entries max_chars e s) as (k & s' & -> & Hr); [done|done|done|lia|lia|].
    apply Hr.
Qed.

(** The store is a bounded first-in first-out queue.  [remember] rejects
    exactly an entry that could never fit, and then changes nothing; otherwise it
    replaces an entry of the same hash, evicts the least number of oldest entries
    that brings the store under both limits, and appends the new entry.  The
    invariant, that the order lists the keys once each and that the character
    count is the sum over the entries, is preserved, and both limits hold. *)
Theorem remember_fifo (max_entries max_chars : Z) (e : StoredContent) (s : Store) :
  store_ok s → original_chars e = len (s_content e) →
  0 <= max_entries → max_chars < u64_max →
  ((max_chars < original_chars e ∨ max_entries = 0) →
     remember_in max_entries max_chars e s = (s, false))
  ∧ (original_chars e <= max_chars → 0 < max_entries →
     ∃ k s', remember_in max_entries max_chars e s = (s', true)
       ∧ remembered max_entries max_chars e s k s').
Proof.
  intros H Hoc Hme Hmc. split; [apply remember_rejects|]. intros. by apply remember_success.
Qed.

Definition demo_entry (h c : text) : StoredContent := mkStored h c (len c) 1 None.

Definition demo_store : Store :=
  (remember_in 2 20 (demo_entry (txt "h2") (txt "second"))
     (remember_in 2 20 (demo_entry (txt "h1") (txt "first")) Store_new).1).1.

Lemma remember_fifo_witness :
  (order demo_store = [txt "h1"; txt "h2"]
   ∧ order (remember_in 2 20 (demo_entry (txt "h3") (txt "the third one")) demo_store).1
     = [txt "h2"; txt "h3"])
  ∧ ∃ k s', remember_in 2 20 (demo_entry (txt "h3") (txt "the third one")) demo_store = (s', true)
      ∧ remembered 2 20 (demo_entry (txt "h3") (txt "the third one")) demo_store k s'.
Proof.
  split; [by vm_compute|].
  apply (remember_fifo 2 20 (demo_entry (txt "h3") (txt "the third one")) demo_store);
    [|reflexivity|lia|reflexivity|by vm_compute|lia].
  unfold demo_store. apply remember_in_ok; [|reflexivity|lia|reflexivity].
  apply remember_in_ok; [|reflexivity|lia|reflexivity].
  apply store_new_ok.
Defined.

(** ** Hashes *)

Lemma lower_hex_not_cont c : is_lower_hex c = true → is_cont c = false.
Proof.
  unfold is_lower_hex, is_cont, byte_in.
  rewrite orb_true_iff, !andb_true_iff, andb_false_iff, !N.leb_le, !N.leb_gt. lia.
Qed.

Lemma lower_hex_not_white c : is_lower_hex c = true → is_whitespace_char [c] = false.
Proof.
  unfold is_lower_hex, byte_in. cbn. intros Hc.
  apply orb_true_iff in Hc. rewrite !andb_true_iff, !N.leb_le in Hc.
  apply orb_false_iff. rewrite andb_false_iff, !N.leb_gt, N.eqb_neq. lia.
Qed.

Lemma lower_hex_lower c : is_lower_hex c = true → byte_in 65 90 c = false.
Proof.
  unfold is_lower_hex, byte_in.
  rewrite orb_true_iff, !andb_true_iff, andb_false_iff, !N.leb_le, !N.leb_gt. lia.
Qed.

Lemma chars_hex s : forallb is_lower_hex s = true → chars s = (λ a, [a]) <$> s.
Proof.
  induction s as [|a s IH]; [done|]. cbn [forallb]. intros [Ha Hs]%andb_true_iff.
  cbn [chars]. rewrite IH by done. destruct s as [|b s]; [done|].
  rewrite fmap_cons. cbn [forallb] in Hs. apply andb_true_iff in Hs as [Hb _]. cbn.
  by rewrite (lower_hex_not_cont b Hb).
Qed.

Lemma concat_singletons {A} (s : list A) : concat ((λ a, [a]) <$> s) = s.
Proof. induction s as [|a s IH]; [done|]. rewrite fmap_cons. cbn. by rewrite IH. Qed.

Lemma drop_white_hex s :
  forallb is_lower_hex s = true →
  drop_while is_whitespace_char ((λ a, [a]) <$> s) = (λ a, [a]) <$> s.
Proof.
  destruct s as [|a s]; [done|]. cbn [forallb]. intros [Ha _]%andb_true_iff.
  rewrite fmap_cons. cbn [drop_while]. by rewrite (lower_hex_not_white a Ha).
Qed.

Lemma forallb_reverse {A} (p : A → bool) l : forallb p (reverse l) = forallb p l.
Proof.
  apply eq_bool_prop_intro. rewrite !Is_true_true, !forallb_forall.
  split; intros H x Hx; apply H; [apply list_elem_of_In, elem_of_reverse; by apply list_elem_of_In|].
  apply list_elem_of_In in Hx. by apply list_elem_of_In, elem_of_reverse.
Qed.

Lemma trim_hex s : forallb is_lower_hex s = true → trim s = s.
Proof.
  intros Hs. unfold trim, trim_end, trim_start.
  rewrite (chars_hex s Hs), (drop_white_hex s Hs), concat_singletons, (chars_hex s Hs).
  rewrite <- fmap_reverse, drop_white_hex by by rewrite forallb_reverse.
  by rewrite <- fmap_reverse, reverse_involutive, concat_singletons.
Qed.

Lemma lowercase_hex s : forallb is_lower_hex s = true → to_ascii_lowercase s = s.
Proof.
  intros Hs. unfold to_ascii_lowercase. rewrite <- (list_fmap_id s) at 2.
  apply list_fmap_ext. intros i a Ha. rewrite forallb_forall in Hs.
  rewrite lower_hex_lower; [done|]. apply Hs, list_elem_of_In. by eapply list_elem_of_lookup_2.
Qed.

(** A digest is its own normal form. *)
Lemma normalize_digest h :
  length h = 64%nat → forallb is_lower_hex h = true → normalize_hash h = Some h.
Proof.
  intros Hl Hh. unfold normalize_hash. rewrite (trim_hex h Hh), (lowercase_hex h Hh).
  assert (text_strip_prefix (txt "0x") h = None) as ->.
  { destruct h as [|a [|b h]]; [done|done|]. cbn [forallb] in Hh.
    apply andb_true_iff in Hh as [_ Hh]. apply andb_true_iff in Hh as [Hb _].
    cbn. case_decide; [|done]. case_decide; [by subst b|done]. }
  cbn [default]. unfold len. rewrite Hl. cbn.
  replace (forallb _ h) with true; [done|]. symmetry. rewrite forallb_forall in *.
  intros x Hx. by rewrite (Hh x Hx).
Qed.

(** ** Settings *)

(** The overrides are [usize] values, that of the characters below the maximum. *)
Definition settings_ok (p : Process) : Prop :=
  0 <= MAX_STORE_ENTRIES_OVERRIDE p ∧ MAX_STORE_CHARS_OVERRIDE p < u64_max.

Lemma positive_env_bounds name dflt cap p :
  0 < dflt <= cap → 0 < positive_usize_env name dflt cap p <= cap.
Proof.
  intros Hd. unfold positive_usize_env.
  destruct (_ ≫= _) as [n|] eqn:E; [|done].
  apply bind_Some in E as (v & _ & (m & _ & Hn)%bind_Some). unfold positive in Hn.
  destruct (0 <? m) eqn:Hm; simplify_eq. apply Z.ltb_lt in Hm. lia.
Qed.

Lemma max_store_entries_pos p : settings_ok p → 0 < max_store_entries p.
Proof.
  intros [Ho _]. unfold max_store_entries. destruct (0 <? _) eqn:E; [by apply Z.ltb_lt|].
  apply positive_env_bounds. unfold DEFAULT_MAX_STORE_ENTRIES. lia.
Qed.

Lemma max_store_chars_bound p : settings_ok p → max_store_chars p < u64_max.
Proof.
  intros [_ Ho]. unfold max_store_chars. destruct (0 <? _) eqn:E; [done|].
  pose proof (positive_env_bounds ENV_MAX_STORE_CHARS DEFAULT_MAX_STORE_CHARS (128 * 1024 * 1024) p
    ltac:(unfold DEFAULT_MAX_STORE_CHARS; lia)). unfold u64_max. lia.
Qed.

(** ** The round trip *)

Lemma on_session_ok f s : store_ok s → store_ok (on_session f s).
Proof. by intros []; split. Qed.

Lemma build_protected `{HeadroomEnv} p s h id :
  build_compressed_text p s h id ≠ s →
  ∃ rest, build_compressed_text p s h id = txt "<headroom_compressed hash=" ++ quoted h ++ rest.
Proof.
  unfold build_compressed_text. intros Hne.
  destruct (match summarize_json s with Some x => Some x | None => _ end); [|done].
  by eexists.
Qed.

Lemma protected_marker rest : is_protected_content (txt "<headroom_compressed hash=" ++ rest) = true.
Proof. done. Qed.

Lemma remember_true e p p' :
  store_ok (STORE p) → original_chars e = len (s_content e) → settings_ok p →
  remember e p = (p', true) →
  store_ok (STORE p') ∧ entries (STORE p') !! s_hash e = Some e.
Proof.
  intros Hok Hoc Hs. unfold remember.
  destruct (decide (max_store_chars p < original_chars e ∨ max_store_entries p = 0)) as [Hno|Hyes].
  - rewrite remember_rejects by done. by intros [=].
  - pose proof (max_store_entries_pos p Hs). pose proof (max_store_chars_bound p Hs).
    destruct (remember_success (max_store_entries p) (max_store_chars p) e (STORE p))
      as (k & s' & -> & Hr); [done|done|done|lia|lia|].
    intros [= <-]. split; apply Hr.
Qed.

Lemma remember_false e p p' :
  store_ok (STORE p) → original_chars e = len (s_content e) → settings_ok p →
  remember e p = (p', false) → STORE p' = STORE p.
Proof.
  intros Hok Hoc Hs. unfold remember.
  destruct (decide (max_store_chars p < original_chars e ∨ max_store_entries p = 0)) as [Hno|Hyes].
  - rewrite remember_rejects by done. by intros [= <-].
  - pose proof (max_store_entries_pos p Hs). pose proof (max_store_chars_bound p Hs).
    destruct (remember_success (max_store_entries p) (max_store_chars p) e (STORE p))
      as (k & s' & -> & Hr); [done|done|done|lia|lia|]. by intros [=].
Qed.

(** The entries, apart from the counters of the session. *)
Definition same_entries (p p' : Process) : Prop :=
  entries (STORE p') = entries (STORE p) ∧ order (STORE p') = order (STORE p)
  ∧ total_chars (STORE p') = total_chars (STORE p).

Section roundtrip.
Context `{E : HeadroomEnv}.

Definition stored_for (s : text) (c : text) (id : option text) : StoredContent :=
  mkStored (sha256_hex s) s (len s) (len c) id.

Lemma compress_one_outcome s id st p o st' p' :
  store_ok (STORE p) → settings_ok p → compress_one s id st p = (o, (st', p')) →
  match o with
  | Some c =>
      (∃ rest, c = txt "<headroom_compressed hash=" ++ quoted (sha256_hex s) ++ rest)
      ∧ len c < len s ∧ estimate_tokens c < estimate_tokens s
      ∧ store_ok (STORE p') ∧ entries (STORE p') !! sha256_hex s = Some (stored_for s c id)
  | None => same_entries p p'
  end.
Proof.
  intros Hok Hs. unfold compress_one. cbn [count_attempt].
  set (p1 := with_store _ p).
  assert (store_ok (STORE p1)) as Hok1 by by apply on_session_ok.
  assert (settings_ok p1) as Hs1 by done.
  destruct (max_store_chars p1 <? len s); [by intros [= <- _ <-]|].
  set (c := build_compressed_text p1 s (sha256_hex s) id).
  case_decide as Hc; [by intros [= <- _ <-]|].
  destruct ((estimate_tokens s <=? estimate_tokens c) || (len s <=? len c)) eqn:Hsmall;
    [by intros [= <- _ <-]|].
  apply orb_false_iff in Hsmall as [H1%Z.leb_gt H2%Z.leb_gt].
  destruct (remember _ p1) as [p2 [|]] eqn:Hr.
  - intros [= <- _ <-].
    apply remember_true in Hr as [Hok2 He2]; [|done..].
    split_and!; [by apply build_protected|done|done|by apply on_session_ok|exact He2].
  - intros [= <- _ <-]. apply remember_false in Hr; [|done..].
    unfold same_entries. cbn. by rewrite Hr.
Qed.

Lemma format_exact e n :
  len (s_content e) <= n → 0 < n →
  format_retrieved e (mkRetrieve None (Some n) None None)
  = retrieved_header e ++ txt "Exact original content follows." ++ [LF; LF] ++ s_content e.
Proof.
  intros Hn Hpos. unfold format_retrieved. cbn [query max_chars].
  assert (default DEFAULT_RETRIEVE_MAX_CHARS (Some n ≫= positive) = n) as ->.
  { cbn. unfold positive. by rewrite (proj2 (Z.ltb_lt 0 n) Hpos). }
  cbn [fmap option_fmap option_map]. by rewrite (proj2 (Z.leb_le _ _) Hn).
Qed.

(** C7: the round trip of a compressed tool result, for any hash whose digests
    are 64 lower-case hexadecimal digits.  If a body is compressed, the
    replacement is shorter in bytes and in estimated tokens, names the digest of
    the body, and is never compressed again; the store keeps its invariant, the
    digest finds the whole body with the identifier of its call, and asked for
    with a large enough limit it comes back verbatim.  If it is not compressed,
    the stored entries are unchanged. *)
Theorem headroom_roundtrip {L : HeadroomLaws} (s : text) (id : option text)
    (st st' : CompressionStats) (p p' : Process) (o : option text) :
  store_ok (STORE p) → settings_ok p →
  maybe_compress_content s id st p = (o, (st', p')) →
  match o with
  | Some c =>
      (∃ rest, c = txt "<headroom_compressed hash=" ++ quoted (sha256_hex s) ++ rest)
      ∧ len c < len s ∧ estimate_tokens c < estimate_tokens s
      ∧ (∀ id2 st2 p2, maybe_compress_content c id2 st2 p2 = (None, (st2, p2)))
      ∧ store_ok (STORE p')
      ∧ retrieve (sha256_hex s) p' = Some (stored_for s c id)
      ∧ (∀ n, len s <= n → 0 < n →
           retrieve_formatted (sha256_hex s) (mkRetrieve None (Some n) None None) p'
           = inr (retrieved_header (stored_for s c id) ++ txt "Exact original content follows."
                  ++ [LF; LF] ++ s))
  | None => same_entries p p'
  end.
Proof.
  intros Hok Hs. unfold maybe_compress_content.
  destruct (negb (is_enabled p)); [by intros [= <- _ <-]|].
  destruct ((len s <? min_chars p) || is_protected_content s); [by intros [= <- _ <-]|].
  intros Hc. pose proof (compress_one_outcome _ _ _ _ _ _ _ Hok Hs Hc) as Ho.
  destruct o as [c|]; [|done]. destruct Ho as (Hpre & Hlen & Htok & Hok' & He).
  destruct (sha256_hex_digits s) as [Hd1 Hd2].
  split_and!; [done|done|done| |done| |].
  - intros id2 st2 p2. destruct Hpre as [rest ->].
    change (is_protected_content _) with true. rewrite orb_true_r.
    by destruct (negb (is_enabled p2)).
  - unfold retrieve. rewrite normalize_digest by done. exact He.
  - intros n Hn Hpos. unfold retrieve_formatted. rewrite normalize_digest by done. rewrite He.
    f_equal. by apply format_exact.
Qed.

End roundtrip.

(** ** A concrete process *)

(** A digest function with the required form, and no JSON. *)
Definition demo_env : HeadroomEnv :=
  Build_HeadroomEnv (λ s, replicate 64 (if decide (s = []) then "0"%char else "a"%char))
    (λ _, None) (λ _, []) (λ _, true).

#[local] Instance demo_laws : @HeadroomLaws demo_env.
Proof. intros s. cbn. by case_decide. Qed.

Definition demo_process : Process := mkProcess true true 50 6 0 0 ∅ Store_new.

(** Forty lines of 30 bytes. *)
Definition demo_body : text := join_with [LF] (replicate 40 (replicate 30 "y"%char)).

Definition demo_compressed : option text * (CompressionStats * Process) :=
  @maybe_compress_content demo_env demo_body (Some (txt "call-1")) CompressionStats_default demo_process.

Lemma headroom_roundtrip_witness :
  len (default [] demo_compressed.1) = 794
  ∧ retrieve (replicate 64 "a"%char) demo_compressed.2.2
    = Some (mkStored (replicate 64 "a"%char) demo_body 1239 794 (Some (txt "call-1"))).
Proof.
  split; [by vm_compute|].
  pose proof (@headroom_roundtrip demo_env demo_laws demo_body (Some (txt "call-1"))
    CompressionStats_default demo_compressed.2.1 demo_process demo_compressed.2.2
    demo_compressed.1 store_new_ok ltac:(split; cbn; [lia|reflexivity])) as H.
  assert (demo_compressed.1 = Some (default [] demo_compressed.1)) as Hc by by vm_compute.
  rewrite Hc in H. destruct H as (_ & _ & _ & _ & _ & Hr & _).
  { rewrite <- Hc, <- (surjective_pairing demo_compressed.2), <- (surjective_pairing demo_compressed).
    reflexivity. }
  revert Hr. by vm_compute.
Defined.

(** The limit of a retrieval is not kept: the notice of the truncation is longer
    than the 80 bytes reserved for it. *)
Example retrieve_limit_exceeded :
  len (truncate_bytes_message (replicate 500 "y"%char) 200) = 205
  ∧ len (truncate_bytes_message (replicate 15000 "y"%char) 12000) = 12007.
Proof. by vm_compute. Qed.
