(* ===== verification/ChatUsage.v ===== *)
(** * Billing ledgers

    [ds-chat-state/src/usage.rs]: what the calls of a prompt, and of a session,
    have used, in total and by model.  An [IndexMap] is an association list in
    insertion order with distinct keys.

    The abstract ledger is a function of the list of what was billed: the totals
    are its saturated sums, and the entry of each model those of its own part, in
    the order in which the models were first billed.  The theorem says that the
    operations maintain it. *)

From S2P Require Import Prelude Text Conversation.

Open Scope Z_scope.

(** ** usage.rs *)

Record UsageTotals := mkTotals {
  input_tokens : Z;
  output_tokens : Z;
  cached_read_tokens : Z;
  t_reasoning_tokens : Z;
  model_calls : Z;
  api_duration_ms : Z;
  cost_usd_ticks : option Z;
  cost_missing_calls : Z;
}.

Definition UsageTotals_default : UsageTotals := mkTotals 0 0 0 0 0 0 None 0.

Definition from_call (usage : TokenUsage) (api_duration_ms cost_usd_ticks : option Z)
    : UsageTotals :=
  let cost := reported_cost_ticks cost_usd_ticks in
  mkTotals (prompt_tokens usage) (completion_tokens usage) (cached_prompt_tokens usage)
    (reasoning_tokens usage) 1 (default 0 api_duration_ms) cost
    (match cost with None => 1 | Some _ => 0 end).

Definition total_tokens_of (t : UsageTotals) : Z :=
  u64_saturating_add (input_tokens t) (output_tokens t).

Definition cost_is_partial (t : UsageTotals) : bool :=
  match cost_usd_ticks t with Some _ => 0 <? cost_missing_calls t | None => false end.

Definition merge_cost_ticks (a b : option Z) : option Z :=
  match a, b with
  | None, None => None
  | a, b => Some (i64_saturating_add (default 0 a) (default 0 b))
  end.

Definition fold_totals (self other : UsageTotals) : UsageTotals :=
  mkTotals
    (u64_saturating_add (input_tokens self) (input_tokens other))
    (u64_saturating_add (output_tokens self) (output_tokens other))
    (u64_saturating_add (cached_read_tokens self) (cached_read_tokens other))
    (u64_saturating_add (t_reasoning_tokens self) (t_reasoning_tokens other))
    (u64_saturating_add (model_calls self) (model_calls other))
    (u64_saturating_add (api_duration_ms self) (api_duration_ms other))
    (merge_cost_ticks (cost_usd_ticks self) (cost_usd_ticks other))
    (u64_saturating_add (cost_missing_calls self) (cost_missing_calls other)).

Record UsageLedger := mkLedger {
  totals : UsageTotals;
  by_model : list (text * UsageTotals);
  main_loop_model_calls : Z;
  incomplete : bool;
}.

Definition UsageLedger_default : UsageLedger := mkLedger UsageTotals_default [] 0 false.

(** [entry(model_id).or_default().fold_totals(totals)]. *)
Fixpoint fold_model (model_id : text) (t : UsageTotals) (m : list (text * UsageTotals))
    : list (text * UsageTotals) :=
  match m with
  | [] => [(model_id, fold_totals UsageTotals_default t)]
  | (k, old) :: m' =>
      if decide (k = model_id) then (k, fold_totals old t) :: m'
      else (k, old) :: fold_model model_id t m'
  end.

Definition fold_entry (model_id : text) (t : UsageTotals) (l : UsageLedger) : UsageLedger :=
  mkLedger (fold_totals (totals l) t) (fold_model model_id t (by_model l))
    (main_loop_model_calls l) (incomplete l).

Definition mark_incomplete (l : UsageLedger) : UsageLedger :=
  mkLedger (totals l) (by_model l) (main_loop_model_calls l) true.

Definition record_main_loop_call (model_id : text) (usage : TokenUsage)
    (api_duration_ms cost_usd_ticks : option Z) (l : UsageLedger) : UsageLedger :=
  let call := from_call usage api_duration_ms cost_usd_ticks in
  fold_entry model_id call
    (mkLedger (totals l) (by_model l) (u64_saturating_add (main_loop_model_calls l) 1)
       (incomplete l)).

Definition record_subagent (entries : list (text * UsageTotals)) (inc : bool) (l : UsageLedger)
    : UsageLedger :=
  let l := foldl (λ l '(model_id, t), fold_entry model_id t l) l entries in
  if inc then mark_incomplete l else l.

(** ** The abstract ledger *)

Definition saturated_sum (max : Z) (l : list Z) : Z := Z.min (foldr Z.add 0 l) max.

(** The cost of a list of bills: none if no bill has one. *)
Definition costs (l : list UsageTotals) : option Z :=
  match omap cost_usd_ticks l with
  | [] => None
  | known => Some (saturated_sum i64_max known)
  end.

Definition bill (l : list UsageTotals) : UsageTotals :=
  mkTotals
    (saturated_sum u64_max (input_tokens <$> l))
    (saturated_sum u64_max (output_tokens <$> l))
    (saturated_sum u64_max (cached_read_tokens <$> l))
    (saturated_sum u64_max (t_reasoning_tokens <$> l))
    (saturated_sum u64_max (model_calls <$> l))
    (saturated_sum u64_max (api_duration_ms <$> l))
    (costs l)
    (saturated_sum u64_max (cost_missing_calls <$> l)).

(** The models in the order of their first bill. *)
Definition first_uses (entries : list (text * UsageTotals)) : list text :=
  foldl (λ seen m, if decide (m ∈ seen) then seen else seen ++ [m]) [] entries.*1.

Definition bills_of (m : text) (entries : list (text * UsageTotals)) : list UsageTotals :=
  (filter_b (λ e, bool_decide (e.1 = m)) entries).*2.

Definition ledger_of (entries : list (text * UsageTotals)) (calls : Z) (inc : bool)
    : UsageLedger :=
  mkLedger (bill entries.*2) ((λ m, (m, bill (bills_of m entries))) <$> first_uses entries)
    (saturated_sum u64_max [calls]) inc.

(** What can be done to a ledger, and what each operation bills. *)
Inductive ledger_op :=
| MainLoopCall (model_id : text) (usage : TokenUsage) (duration cost : option Z)
| Subagent (entries : list (text * UsageTotals)) (inc : bool)
| MarkIncomplete.

Definition ledger_step (l : UsageLedger) (o : ledger_op) : UsageLedger :=
  match o with
  | MainLoopCall m u d c => record_main_loop_call m u d c l
  | Subagent es inc => record_subagent es inc l
  | MarkIncomplete => mark_incomplete l
  end.

Definition billed (o : ledger_op) : list (text * UsageTotals) :=
  match o with
  | MainLoopCall m u d c => [(m, from_call u d c)]
  | Subagent es _ => es
  | MarkIncomplete => []
  end.

Definition is_main_call (o : ledger_op) : bool :=
  match o with MainLoopCall _ _ _ _ => true | _ => false end.

Definition marks_incomplete (o : ledger_op) : bool :=
  match o with Subagent _ inc => inc | MarkIncomplete => true | _ => false end.

(** The counters of a bill are unsigned and its cost, if known, not negative. *)
Definition totals_ok (t : UsageTotals) : Prop :=
  0 <= input_tokens t ∧ 0 <= output_tokens t ∧ 0 <= cached_read_tokens t
  ∧ 0 <= t_reasoning_tokens t ∧ 0 <= model_calls t ∧ 0 <= api_duration_ms t
  ∧ (∀ c, cost_usd_ticks t = Some c → 0 <= c) ∧ 0 <= cost_missing_calls t.

(** ** Lemmas *)

Lemma foldr_add_nonneg l : Forall (λ x, 0 <= x) l → 0 <= foldr Z.add 0 l.
Proof. induction 1; simpl; lia. Qed.

Lemma foldr_add_snoc l x : foldr Z.add 0 (l ++ [x]) = foldr Z.add 0 l + x.
Proof. induction l as [|y l IH]; simpl; lia. Qed.

Lemma saturated_snoc max l x :
  0 <= max → Forall (λ x, 0 <= x) l → 0 <= x →
  Z.min (saturated_sum max l + x) max = saturated_sum max (l ++ [x]).
Proof.
  intros Hm Hl Hx. unfold saturated_sum. rewrite foldr_add_snoc.
  pose proof (foldr_add_nonneg l Hl). lia.
Qed.

Lemma counter_snoc (f : UsageTotals → Z) l x :
  (∀ t, totals_ok t → 0 <= f t) → Forall totals_ok l → totals_ok x →
  u64_saturating_add (saturated_sum u64_max (f <$> l)) (f x)
  = saturated_sum u64_max (f <$> (l ++ [x])).
Proof.
  intros Hf Hl Hx. rewrite fmap_app. apply saturated_snoc; [done| |by apply Hf].
  apply Forall_fmap. eapply Forall_impl; [exact Hl|]. intros t. apply Hf.
Qed.

Lemma costs_nonneg l : Forall totals_ok l → Forall (λ x, 0 <= x) (omap cost_usd_ticks l).
Proof.
  induction 1 as [|t l Ht _ IH]; [by constructor|]. cbn.
  destruct (cost_usd_ticks t) eqn:E; [|done]. constructor; [|done]. by apply Ht.
Qed.

Lemma costs_snoc l x :
  Forall totals_ok l → totals_ok x →
  merge_cost_ticks (costs l) (cost_usd_ticks x) = costs (l ++ [x]).
Proof.
  intros Hl%costs_nonneg Hx. unfold costs. rewrite omap_app. cbn.
  destruct (cost_usd_ticks x) as [c|] eqn:E.
  - assert (0 <= c) by by apply Hx.
    destruct (omap cost_usd_ticks l) as [|k ks]; cbn.
    + unfold saturated_sum, i64_saturating_add, i64_max. cbn. f_equal. lia.
    + f_equal. change (k :: ks ++ [c]) with ((k :: ks) ++ [c]).
      rewrite <- (saturated_snoc i64_max (k :: ks) c) by done.
      pose proof (foldr_add_nonneg _ Hl). unfold i64_saturating_add, saturated_sum, i64_max in *.
      lia.
  - rewrite app_nil_r. destruct (omap cost_usd_ticks l) as [|k ks]; [done|]. cbn. f_equal.
    pose proof (foldr_add_nonneg _ Hl).
    unfold i64_saturating_add, saturated_sum, i64_max in *. lia.
Qed.

Lemma bill_snoc l x :
  Forall totals_ok l → totals_ok x → fold_totals (bill l) x = bill (l ++ [x]).
Proof.
  intros Hl Hx. unfold fold_totals, bill. cbn [input_tokens output_tokens cached_read_tokens
    t_reasoning_tokens model_calls api_duration_ms cost_usd_ticks cost_missing_calls].
  rewrite costs_snoc by done.
  f_equal; (apply counter_snoc; [|done|done]); unfold totals_ok; tauto.
Qed.

Lemma bill_nil : bill [] = UsageTotals_default.
Proof. done. Qed.

Lemma first_uses_snoc es m t :
  first_uses (es ++ [(m, t)])
  = if decide (m ∈ first_uses es) then first_uses es else first_uses es ++ [m].
Proof. unfold first_uses. by rewrite fmap_app, foldl_app. Qed.

Lemma first_uses_spec es : NoDup (first_uses es) ∧ ∀ m, m ∈ first_uses es ↔ m ∈ es.*1.
Proof.
  induction es as [|[m t] es [IH1 IH2]] using rev_ind.
  { split; [constructor|]. set_solver. }
  rewrite first_uses_snoc, fmap_app. case_decide as Hd.
  - split; [done|]. set_solver.
  - split; [|set_solver]. apply NoDup_app. split_and!; [done| |apply NoDup_singleton].
    intros x Hx ->%list_elem_of_singleton. done.
Qed.

Lemma bills_of_snoc m es k t :
  bills_of m (es ++ [(k, t)]) = bills_of m es ++ (if decide (k = m) then [t] else []).
Proof.
  unfold bills_of. rewrite filter_b_app, fmap_app. f_equal. cbn. by repeat case_decide.
Qed.

Lemma bills_of_none m es : m ∉ es.*1 → bills_of m es = [].
Proof.
  intros Hm. unfold bills_of. rewrite filter_b_none; [done|].
  intros [k t] Hin. apply bool_decide_eq_false. cbn. intros ->. apply Hm.
  by apply (list_elem_of_fmap_2 fst _ (m, t)).
Qed.

Lemma bills_of_ok m es : Forall totals_ok es.*2 → Forall totals_ok (bills_of m es).
Proof.
  unfold bills_of. rewrite !Forall_fmap. intros H. by apply (Forall_sublist_of _ _ es); [apply filter_b_sublist|].
Qed.

Lemma fold_model_present (g : text → UsageTotals) ks m t :
  NoDup ks → m ∈ ks →
  fold_model m t ((λ k, (k, g k)) <$> ks)
  = (λ k, (k, if decide (m = k) then fold_totals (g k) t else g k)) <$> ks.
Proof.
  induction 1 as [|k ks Hk Hnd IH]; [intros Hm; by apply not_elem_of_nil in Hm|]. intros Hm.
  rewrite !fmap_cons. cbn [fold_model]. destruct (decide (k = m)) as [->|Hne].
  - rewrite decide_True by done. f_equal. apply list_fmap_ext. intros i x Hx.
    rewrite decide_False; [done|]. intros <-. apply Hk. by eapply list_elem_of_lookup_2.
  - rewrite (decide_False (P := m = k)) by congruence. f_equal. apply IH. set_solver.
Qed.

Lemma fold_model_absent (g : text → UsageTotals) ks m t :
  m ∉ ks →
  fold_model m t ((λ k, (k, g k)) <$> ks)
  = ((λ k, (k, g k)) <$> ks) ++ [(m, fold_totals UsageTotals_default t)].
Proof.
  induction ks as [|k ks IH]; [done|]. intros Hm. rewrite fmap_cons. cbn [fold_model].
  rewrite decide_False by set_solver. rewrite IH by set_solver. done.
Qed.

Lemma fold_entry_ledger es m t calls inc :
  Forall totals_ok es.*2 → totals_ok t →
  fold_entry m t (ledger_of es calls inc) = ledger_of (es ++ [(m, t)]) calls inc.
Proof.
  intros Hes Ht. unfold fold_entry, ledger_of. cbn [totals by_model main_loop_model_calls incomplete].
  destruct (first_uses_spec es) as [Hnd Hin]. f_equal.
  { rewrite fmap_app. by apply bill_snoc. }
  rewrite first_uses_snoc. case_decide as Hm.
  - rewrite fold_model_present by done. apply list_fmap_ext. intros i k _. f_equal.
    rewrite bills_of_snoc. case_decide; [|by rewrite app_nil_r].
    apply bill_snoc; [by apply bills_of_ok|done].
  - rewrite fold_model_absent by done. rewrite fmap_app. f_equal.
    + apply list_fmap_ext. intros i k Hk%list_elem_of_lookup_2. f_equal.
      rewrite bills_of_snoc, decide_False by congruence. by rewrite app_nil_r.
    + cbn. do 2 f_equal. rewrite bills_of_snoc, decide_True by done.
      rewrite bills_of_none by set_solver. rewrite <- bill_nil. by apply (bill_snoc []).
Qed.

Lemma fold_entries_ledger new es calls inc :
  Forall totals_ok es.*2 → Forall totals_ok new.*2 →
  foldl (λ l '(m, t), fold_entry m t l) (ledger_of es calls inc) new
  = ledger_of (es ++ new) calls inc.
Proof.
  intros Hes. revert es Hes. induction new as [|[m t] new IH]; intros es Hes Hnew.
  { by rewrite app_nil_r. }
  inversion Hnew as [|? ? H1 H2]; subst. cbn [foldl].
  rewrite fold_entry_ledger by done. rewrite IH; [|rewrite fmap_app; by apply Forall_app_2, Forall_singleton|done].
  by rewrite <- app_assoc.
Qed.

Lemma from_call_ok usage duration cost :
  0 <= prompt_tokens usage → 0 <= completion_tokens usage → 0 <= cached_prompt_tokens usage →
  0 <= reasoning_tokens usage → 0 <= default 0 duration → totals_ok (from_call usage duration cost).
Proof.
  intros. unfold from_call, totals_ok, reported_cost_ticks. cbn. split_and!; try done.
  - intros c. destruct cost as [c'|]; [|done]. destruct (0 <? c') eqn:E; [|done].
    intros [= <-]. by apply Z.ltb_lt, Z.lt_le_incl in E.
  - destruct cost as [c'|]; [|done]. by destruct (0 <? c').
Qed.

(** A run of operations on the ledger of what [es] billed. *)
Lemma ledger_run ops es calls inc :
  0 <= calls → Forall totals_ok es.*2 → Forall totals_ok (ops ≫= billed).*2 →
  foldl ledger_step (ledger_of es calls inc) ops
  = ledger_of (es ++ (ops ≫= billed)) (calls + Z.of_nat (length (filter_b is_main_call ops)))
      (inc || any_b marks_incomplete ops).
Proof.
  revert es calls inc. induction ops as [|o ops IH]; intros es calls inc Hc Hes Hops.
  { cbn. by rewrite app_nil_r, Z.add_0_r, orb_false_r. }
  rewrite bind_cons, fmap_app in Hops. apply Forall_app in Hops as [Ho Hops].
  assert (ledger_step (ledger_of es calls inc) o
    = ledger_of (es ++ billed o) (calls + if is_main_call o then 1 else 0)
        (inc || marks_incomplete o)) as Hstep.
  { destruct o as [m u d c|new b|]; cbn [ledger_step billed is_main_call marks_incomplete] in *.
    - unfold record_main_loop_call. rewrite orb_false_r.
      rewrite <- fold_entry_ledger by (done || by inversion Ho).
      f_equal. unfold ledger_of. f_equal. cbn [main_loop_model_calls].
      unfold u64_saturating_add, saturated_sum. cbn. unfold u64_max. lia.
    - unfold record_subagent. rewrite fold_entries_ledger by done. rewrite Z.add_0_r.
      destruct b; [by rewrite orb_true_r|by rewrite orb_false_r].
    - rewrite app_nil_r, orb_true_r, Z.add_0_r. done. }
  cbn [foldl]. rewrite Hstep, IH.
  - rewrite bind_cons, <- app_assoc. f_equal.
    + unfold filter_b. cbn [List.filter]. destruct (is_main_call o); cbn [length]; lia.
    + cbn. by rewrite orb_assoc.
  - destruct (is_main_call o); lia.
  - rewrite fmap_app. by apply Forall_app.
  - done.
Qed.

(** Refinement of the abstract ledger.  After any sequence of main-loop
    calls, subagent folds and incomplete marks on a new ledger, the ledger is a
    function of what was billed: every counter of the totals is the saturated sum
    over all bills, the entry of a model the saturated sum over its own bills, the
    models are those billed, each once and in the order of their first bill, the
    cost is absent exactly if no bill reported one, only main-loop calls are
    counted as turns, and the mark is set exactly if some operation set it. *)
Theorem ledger_refines (ops : list ledger_op) :
  Forall totals_ok (ops ≫= billed).*2 →
  let l := foldl ledger_step UsageLedger_default ops in
  l = ledger_of (ops ≫= billed) (Z.of_nat (length (filter_b is_main_call ops)))
        (any_b marks_incomplete ops)
  ∧ NoDup (by_model l).*1
  ∧ (∀ m, m ∈ (by_model l).*1 ↔ m ∈ (ops ≫= billed).*1).
Proof.
  intros H l.
  assert (l = ledger_of (ops ≫= billed) (Z.of_nat (length (filter_b is_main_call ops)))
        (any_b marks_incomplete ops)) as E.
  { apply (ledger_run ops [] 0 false); [lia|constructor|done]. }
  split; [done|]. rewrite E. cbn [by_model ledger_of].
  rewrite <- list_fmap_compose, (list_fmap_ext _ id), list_fmap_id by done.
  apply first_uses_spec.
Qed.

Definition demo_usage (n : Z) : TokenUsage := mkUsage n (n / 2) n 0 0.

Definition demo_ops : list ledger_op :=
  [MainLoopCall (txt "a") (demo_usage 100) (Some 5) None;
   MainLoopCall (txt "b") (demo_usage 40) None (Some 70);
   Subagent [(txt "a", mkTotals u64_max 1 0 0 2 9 (Some 3) 0)] true].

Lemma ledger_refines_witness :
  foldl ledger_step UsageLedger_default demo_ops
  = mkLedger (mkTotals u64_max 71 0 0 4 14 (Some 73) 1)
      [(txt "a", mkTotals u64_max 51 0 0 3 14 (Some 3) 1); (txt "b", mkTotals 40 20 0 0 1 0 (Some 70) 0)]
      2 true
  ∧ NoDup (by_model (foldl ledger_step UsageLedger_default demo_ops)).*1.
Proof.
  split; [by vm_compute|]. apply ledger_refines.
  repeat constructor; cbn; try done; intros c Hc; by simplify_eq.
Defined.
