(* ===== verification/ChatRequest.v ===== *)
(** * Estimates and request transforms of the chat state

    The token estimates of [ds-chat-state/src/actor/state.rs], and what
    [actor/request_builder.rs] and [headroom.rs] do to the copy of the
    conversation that becomes a request: the eviction of images, the pruning and
    the compression of tool results, and the memory reminder.

    The estimate of a backend tool call prints its summary, whose panic is [None]
    throughout.  The lengths of JSON encodings come from [serde_json] and are
    parameters.  Counts of items and turns are [nat], byte counts [Z].  Theorems: what
    the transforms keep of a conversation. *)

From S2P Require Import Prelude Text TextProps Utf8 Conversation TokenEstimation ToolPairing ToolPairingProps Headroom.

Open Scope Z_scope.

(** ** Estimates (state.rs) *)

(** [Iterator::sum] of [u64] values wraps around. *)
Definition u64_sum (l : list Z) : Z := foldl u64_add 0 l.

Definition estimate_system_message_tokens (i : ConversationItem) : Z :=
  match i with System t => estimate_tokens t | _ => 0 end.

(** A tool definition; [td_parameters] is the JSON of its parameters. *)
Record ToolDefinition := mkToolDefinition {
  td_name : text;
  td_description : option text;
  td_parameters : text;
}.

Definition estimate_tool_definition_tokens (td : ToolDefinition) : Z :=
  as_u64 (len (td_name td) + len (default [] (td_description td)) + len (td_parameters td))
  / BYTES_PER_TOKEN.

Definition estimate_tool_definitions_tokens (tds : list ToolDefinition) : Z :=
  u64_sum (estimate_tool_definition_tokens <$> tds).

(** The bytes of the texts of a list of parts. *)
Definition text_bytes (parts : list ContentPart) : Z :=
  foldr Z.add 0 ((λ p, match p with TextPart t => len t | ImagePart _ => 0 end) <$> parts).

Definition estimate_item_tokens (i : ConversationItem) : option Z :=
  match i with
  | System t => Some (estimate_tokens t)
  | User u =>
      Some (u64_add (as_u64 (text_bytes (user_content u)) / BYTES_PER_TOKEN)
        (estimate_image_tokens (Z.of_nat (length (filter_b is_image (user_content u))))))
  | Assistant a =>
      Some (as_u64 (len (content a) + foldr Z.add 0 ((λ c, len (call_arguments c)) <$> tool_calls a))
            / BYTES_PER_TOKEN)
  | ToolResult t => Some (estimate_tokens (tr_content t))
  | BackendToolCall k => estimate_tokens <$> text_summary k
  | Reasoning r =>
      Some (as_u64 (len (reasoning_item_text r) + len (default [] (r_encrypted_content r)))
            / BYTES_PER_TOKEN)
  end.

Definition estimate_conversation_tokens (items : list ConversationItem) : option Z :=
  u64_sum <$> mapM estimate_item_tokens items.

Definition count_item_tokens (i : ConversationItem) : option Z :=
  (λ n, if n <=? u32_max then n else u32_max) <$> estimate_item_tokens i.

Definition estimate_messages_tokens (items : list ConversationItem) : option Z :=
  estimate_conversation_tokens (filter_b (λ i, negb (is_system i)) items).

(** ** Pruning *)

Record PruningConfig := mkPruning {
  pruning_enabled : bool;
  keep_last_n_turns : nat;
  soft_trim_threshold : nat;
  soft_trim_head : nat;
  soft_trim_tail : nat;
  hard_clear_age_turns : nat;
}.

Definition PruningConfig_default : PruningConfig := mkPruning true 3 4000 1500 1500 10.

Definition HARD_CLEAR_PLACEHOLDER : text := txt "[Tool result omitted — too old]".
Definition SOFT_TRIM_SEPARATOR : text := [LF; LF] ++ txt "[…trimmed…]" ++ [LF; LF].

Definition safe_char_slice (s : text) (start count : nat) : text :=
  concat (take count (drop start (chars s))).

Definition safe_char_slice_tail (s : text) (count : nat) : text :=
  let total := length (chars s) in
  if (total <=? count)%nat then s else concat (drop (total - count) (chars s)).

Definition should_prune (total_tokens context_window : Z) : bool :=
  context_window / 2 <? total_tokens.

Definition with_content (t : ToolResultItem) (c : text) : ToolResultItem :=
  mkToolResult (tool_call_id t) c (tr_images t).

(** What [prune_conversation] does to a result of a given age. *)
Definition prune_result (config : PruningConfig) (turn_from_end : nat) (t : ToolResultItem)
    : ToolResultItem :=
  if (turn_from_end <? keep_last_n_turns config)%nat then t
  else if (hard_clear_age_turns config <=? turn_from_end)%nat then
    if decide (tr_content t = HARD_CLEAR_PLACEHOLDER) then t
    else with_content t HARD_CLEAR_PLACEHOLDER
  else if (soft_trim_threshold config <? length (chars (tr_content t)))%nat then
    with_content t (safe_char_slice (tr_content t) 0 (soft_trim_head config) ++ SOFT_TRIM_SEPARATOR
      ++ safe_char_slice_tail (tr_content t) (soft_trim_tail config))
  else t.

(** The backward scan over the items from the last one: [f] at the age of each
    result, the number of user items after it less one. *)
Fixpoint backward_scan (f : nat → ToolResultItem → ToolResultItem) (turn_from_end : nat)
    (seen_first_user : bool) (rev_items : list ConversationItem) : list ConversationItem :=
  match rev_items with
  | [] => []
  | User u :: rest =>
      User u :: backward_scan f (if seen_first_user then S turn_from_end else turn_from_end) true rest
  | ToolResult t :: rest =>
      ToolResult (f turn_from_end t) :: backward_scan f turn_from_end seen_first_user rest
  | i :: rest => i :: backward_scan f turn_from_end seen_first_user rest
  end.

Definition prune_conversation (config : PruningConfig) (conversation : list ConversationItem)
    : list ConversationItem :=
  if pruning_enabled config then
    reverse (backward_scan (prune_result config) 0 false (reverse conversation))
  else conversation.

(** ** Images *)

Definition IMAGE_COMPACT_PLACEHOLDER : text :=
  txt "[An earlier image was removed to keep the request within its size limit and is no longer visible. Do not describe or reason about its contents from memory; ask the user to re-share it if you need to see it again.]".
Definition MAX_REQUEST_BYTES : Z := 50 * 1024 * 1024.
Definition IMAGE_COMPACT_TRIGGER_BYTES : Z := MAX_REQUEST_BYTES - 3 * 1024 * 1024.
Definition IMAGE_COMPACT_RECLAIM_TARGET_BYTES : Z := MAX_REQUEST_BYTES / 2.
Definition IMAGE_PART_FRAME_BYTES : Z :=
  len (txt "{" ++ quoted (txt "type") ++ txt ":" ++ quoted (txt "image") ++ txt ","
       ++ quoted (txt "url") ++ txt ":" ++ quoted [] ++ txt "}").

(** The lengths of the JSON encodings of a conversation and of a part. *)
Class JsonLengths := {
  conversation_json_bytes : list ConversationItem → Z;
  part_json_bytes : ContentPart → Z;
}.

Definition image_part_bytes (url : text) : Z := IMAGE_PART_FRAME_BYTES + len url.

Definition inline_image_count (conversation : list ConversationItem) : nat :=
  sum_list ((λ i, match i with User u => length (filter_b is_image (user_content u)) | _ => 0%nat end)
              <$> conversation).

Record ImageEvictionOutcome := mkEviction {
  evicted : nat;
  body_bytes_after : Z;
}.

Definition blank_part (p : ContentPart) : ContentPart :=
  match p with ImagePart _ => ImagePart [] | _ => p end.

Definition blank_item (i : ConversationItem) : ConversationItem :=
  match i with User u => User (set_user_content (blank_part <$> user_content u) u) | _ => i end.

Definition url_bytes (i : ConversationItem) : Z :=
  match i with
  | User u =>
      foldr Z.add 0
        ((λ p, match p with ImagePart url => len url | TextPart _ => 0 end) <$> user_content u)
  | _ => 0
  end.

Definition conversation_body_bytes `{JsonLengths} (conversation : list ConversationItem) : Z :=
  conversation_json_bytes (blank_item <$> conversation) + foldr Z.add 0 (url_bytes <$> conversation).

(** The images of a conversation, oldest first. *)
Definition image_positions (conversation : list ConversationItem) : list (nat * nat * Z) :=
  concat (imap (λ i item,
    match item with
    | User u =>
        concat (imap (λ j part,
          match part with ImagePart url => [(i, j, image_part_bytes url)] | _ => [] end)
          (user_content u))
    | _ => []
    end) conversation).

(** [conversation[i].content[j] = part], if there is such a part. *)
Definition set_part (i j : nat) (part : ContentPart) (conversation : list ConversationItem)
    : option (list ConversationItem) :=
  match conversation !! i with
  | Some (User u) =>
      match user_content u !! j with
      | Some _ => Some (<[i := User (set_user_content (<[j := part]> (user_content u)) u)]> conversation)
      | None => None
      end
  | _ => None
  end.

Fixpoint evict_images (placeholder_bytes target_bytes : Z) (images : list (nat * nat * Z))
    (conversation : list ConversationItem) (running : Z) (count : nat)
    : list ConversationItem * ImageEvictionOutcome :=
  match images with
  | [] => (conversation, mkEviction count running)
  | (i, j, image_bytes) :: rest =>
      if running <=? target_bytes then (conversation, mkEviction count running)
      else
        match set_part i j (TextPart IMAGE_COMPACT_PLACEHOLDER) conversation with
        | Some conversation =>
            evict_images placeholder_bytes target_bytes rest conversation
              (u64_saturating_sub running (u64_saturating_sub image_bytes placeholder_bytes))
              (S count)
        | None => evict_images placeholder_bytes target_bytes rest conversation running count
        end
  end.

Definition compact_images_to_byte_budget `{JsonLengths} (conversation : list ConversationItem)
    (current_bytes target_bytes : Z) : list ConversationItem * ImageEvictionOutcome :=
  if current_bytes <=? target_bytes then (conversation, mkEviction 0 current_bytes)
  else
    evict_images (part_json_bytes (TextPart IMAGE_COMPACT_PLACEHOLDER)) target_bytes
      (image_positions conversation) conversation current_bytes 0.

(** ** Memory reminder *)

Definition MEMORY_CONTEXT_OPEN_TAG : text := txt "<memory-context>".

Definition is_lf (c : ascii) : bool := bool_decide (c = LF).

Definition upsert_memory_reminder_text (system_prompt reminder : text) : text * bool :=
  let existing_start :=
    (λ idx, length (trim_end_matches is_lf (take idx system_prompt)))
      <$> find_text MEMORY_CONTEXT_OPEN_TAG system_prompt in
  let updated :=
    match existing_start with
    | Some prefix_len =>
        let prefix := trim_end_matches is_lf (take prefix_len system_prompt) in
        if decide (prefix = []) then reminder else prefix ++ [LF; LF] ++ reminder
    | None =>
        if decide (trim_end system_prompt = reminder) then system_prompt
        else if decide (system_prompt = []) then reminder
        else trim_end_matches is_lf system_prompt ++ [LF; LF] ++ reminder
    end in
  if decide (system_prompt = updated) then (system_prompt, false) else (updated, true).

Definition inject_memory_reminder (items : list ConversationItem) (reminder : text)
    : list ConversationItem * bool :=
  let reminder := trim reminder in
  if decide (reminder = []) then (items, false)
  else
    match items with
    | System sys :: rest =>
        let '(sys, changed) := upsert_memory_reminder_text sys reminder in (System sys :: rest, changed)
    | _ => (System reminder :: items, true)
    end.

(** ** Compression of tool results (headroom.rs) *)

(** The name of the tool of each call. *)
Definition tool_call_names (conversation : list ConversationItem) : gmap text text :=
  foldl (λ map i,
    match i with
    | Assistant a => foldl (λ map tc, <[call_id tc := call_name tc]> map) map (tool_calls a)
    | _ => map
    end) ∅ conversation.

Section headroom.
Context `{HeadroomEnv}.

Definition skips_result (tool_names : gmap text text) (t : ToolResultItem) : bool :=
  match tool_names !! tool_call_id t with
  | Some name => should_skip_tool_name name
  | None => false
  end.

Fixpoint compress_items (tool_names : gmap text text) (remaining : Z)
    (items : list ConversationItem) (stats : CompressionStats) (p : Process)
    : list ConversationItem * (CompressionStats * Process) :=
  if remaining =? 0 then (items, (stats, p))
  else
    match items with
    | [] => ([], (stats, p))
    | ToolResult t :: rest =>
        if skips_result tool_names t then
          let '(rest, r) := compress_items tool_names remaining rest stats p in
          (ToolResult t :: rest, r)
        else
          let '(o, (stats, p)) :=
            maybe_compress_content (tr_content t) (Some (tool_call_id t)) stats p in
          let '(t, remaining) :=
            match o with
            | Some compressed => (with_content t compressed, remaining - 1)
            | None => (t, remaining)
            end in
          let '(rest, r) := compress_items tool_names remaining rest stats p in
          (ToolResult t :: rest, r)
    | i :: rest =>
        let '(rest, r) := compress_items tool_names remaining rest stats p in (i :: rest, r)
    end.

Definition compress_tool_results (conversation : list ConversationItem) (p : Process)
    : list ConversationItem * (CompressionStats * Process) :=
  if negb (is_enabled p) then (conversation, (CompressionStats_default, p))
  else
    let max_segments :=
      match env_vars p !! ENV_MAX_SEGMENTS ≫= (λ v, parse_uint u64_max (trim v) ≫= positive) with
      | Some n => n
      | None => DEFAULT_MAX_SEGMENTS
      end in
    compress_items (tool_call_names conversation) max_segments conversation
      CompressionStats_default p.

End headroom.

Open Scope nat_scope.

(** ** Frames *)

(** No calls, and not a result. *)
Definition inert (i : ConversationItem) : Prop := calls_of i = [] ∧ result_id i = None.

(** [l'] has the roles of [l], after some inert items. *)
Definition framed (l l' : list ConversationItem) : Prop :=
  ∃ pre k, Forall inert pre ∧ l' = pre ++ k ∧ Forall2 same_role l k.

Lemma same_role_list_refl l : Forall2 same_role l l.
Proof. by apply Forall_Forall2_diag, Forall_true. Qed.

Lemma framed_same l l' : Forall2 same_role l l' → framed l l'.
Proof. intros H. by exists [], l'. Qed.

#[export] Instance framed_refl : Reflexive framed.
Proof. intros l. apply framed_same, same_role_list_refl. Qed.

#[export] Instance framed_trans : Transitive framed.
Proof.
  intros l l' l'' (pre & k & Hpre & -> & Hk) (pre' & k' & Hpre' & -> & Hk').
  apply Forall2_app_inv_l in Hk' as (p2 & k2 & Hp2 & Hk2 & ->).
  exists (pre' ++ p2), k2. split_and!; [|by rewrite app_assoc|].
  - apply Forall_app. split; [done|]. revert Hpre. induction Hp2 as [|i j p p' [H1 H2] _ IH]; [done|].
    rewrite !Forall_cons. unfold inert. rewrite H1, H2. naive_solver.
  - revert k2 Hk2. clear -Hk. induction Hk as [|i j l k Hij _ IH]; intros k2 Hk2.
    + apply Forall2_nil_inv_l in Hk2 as ->. constructor.
    + apply Forall2_cons_inv_l in Hk2 as (j' & k2' & Hj & Hk2 & ->).
      constructor; [by transitivity j|by apply IH].
Qed.

Lemma framed_cons i l : inert i → framed l (i :: l).
Proof. intros Hi. exists [i], l. split_and!; [by constructor|done|apply same_role_list_refl]. Qed.

(** A property of calls and identifiers that holds of no calls and no results. *)
Lemma framed_runs (P : list ToolCall → list text → Prop) l l' :
  P [] [] → framed l l' → Forall (λ r, P r.1 (ids r.2)) (runs l) →
  Forall (λ r, P r.1 (ids r.2)) (runs l').
Proof.
  intros HP (pre & k & Hpre & -> & Hk) Hl. apply (runs_same_Forall P _ _ Hk) in Hl.
  induction Hpre as [|i pre [Hc Hr] _ IH]; [done|]. cbn [app].
  rewrite runs_unfold in IH |- *. apply Forall_cons in IH as [IH1 IH2].
  rewrite runs_of_item by by destruct i. rewrite Hc. by repeat constructor.
Qed.

(** ** Transforms *)

Lemma with_content_role t c : same_role (ToolResult t) (ToolResult (with_content t c)).
Proof. done. Qed.

Lemma user_role u u' : same_role (User u) (User u').
Proof. done. Qed.

Lemma Forall2_reverse_r {A} (R : A → A → Prop) l l' :
  Forall2 R (reverse l) l' → Forall2 R l (reverse l').
Proof. intros H. rewrite <- (reverse_involutive l). by apply Forall2_reverse. Qed.

Lemma backward_scan_role f n b l :
  (∀ k t, tool_call_id (f k t) = tool_call_id t) → Forall2 same_role l (backward_scan f n b l).
Proof.
  intros Hf. revert n b. induction l as [|i l IH]; intros n b; [constructor|].
  destruct i; cbn [backward_scan]; constructor; try apply IH; try done.
  split; [done|]. cbn. by rewrite Hf.
Qed.

Lemma prune_result_id config n t : tool_call_id (prune_result config n t) = tool_call_id t.
Proof. unfold prune_result. by repeat case_match. Qed.

(** An item of the copy after the eviction: an image may have become its placeholder. *)
Inductive part_evicted : ContentPart → ContentPart → Prop :=
| part_same p : part_evicted p p
| part_removed url : part_evicted (ImagePart url) (TextPart IMAGE_COMPACT_PLACEHOLDER).

Inductive evicted_item : ConversationItem → ConversationItem → Prop :=
| evicted_same i : evicted_item i i
| evicted_images u parts :
    Forall2 part_evicted (user_content u) parts →
    evicted_item (User u) (User (set_user_content parts u)).

(** After the pruning: a tool result may be its placeholder, or its beginning and its end. *)
Inductive trimmed_item : ConversationItem → ConversationItem → Prop :=
| trimmed_same i : trimmed_item i i
| trimmed_cleared t : trimmed_item (ToolResult t) (ToolResult (with_content t HARD_CLEAR_PLACEHOLDER))
| trimmed_middle t front back :
    front `prefix_of` tr_content t → back `suffix_of` tr_content t →
    trimmed_item (ToolResult t) (ToolResult (with_content t (front ++ SOFT_TRIM_SEPARATOR ++ back))).

(** After the compression: a tool result may be what the compressor made of it. *)
Inductive compressed_item `{HeadroomEnv} : ConversationItem → ConversationItem → Prop :=
| compressed_same i : compressed_item i i
| compressed_result t compressed stats p r :
    maybe_compress_content (tr_content t) (Some (tool_call_id t)) stats p = (Some compressed, r) →
    compressed_item (ToolResult t) (ToolResult (with_content t compressed)).

#[export] Instance evicted_refl : Reflexive evicted_item.
Proof. constructor. Qed.
#[export] Instance part_evicted_refl : Reflexive part_evicted.
Proof. constructor. Qed.
#[export] Instance part_evicted_trans : Transitive part_evicted.
Proof. intros p q r [|] Hq; [done|]. inversion Hq; constructor. Qed.
#[export] Instance evicted_trans : Transitive evicted_item.
Proof.
  intros i j k [|u parts Hp] Hj; [done|]. inversion Hj as [|u' parts' Hp']; subst; [by constructor|].
  change (set_user_content parts' (set_user_content parts u)) with (set_user_content parts' u).
  constructor. cbn in Hp'. by etransitivity.
Qed.
#[export] Instance trimmed_refl : Reflexive trimmed_item.
Proof. constructor. Qed.
#[export] Instance compressed_refl `{HeadroomEnv} : Reflexive compressed_item.
Proof. constructor. Qed.

Lemma evicted_role i j : evicted_item i j → same_role i j.
Proof. by intros []. Qed.
Lemma trimmed_role i j : trimmed_item i j → same_role i j.
Proof. by intros []. Qed.
Lemma compressed_role `{HeadroomEnv} i j : compressed_item i j → same_role i j.
Proof. by intros []. Qed.

(** Pruning. *)
Lemma prune_result_trimmed config n t : trimmed_item (ToolResult t) (ToolResult (prune_result config n t)).
Proof.
  unfold prune_result. case_match; [done|]. case_match; [case_decide; [done|constructor]|].
  case_match; [|done]. constructor.
  - unfold safe_char_slice. rewrite drop_0. exists (concat (drop (soft_trim_head config) (chars (tr_content t)))).
    by rewrite <- concat_app, take_drop, concat_chars.
  - unfold safe_char_slice_tail. case_match; [done|]. set (k := _ - _).
    exists (concat (take k (chars (tr_content t)))). by rewrite <- concat_app, take_drop, concat_chars.
Qed.

Lemma backward_scan_trimmed config n b l : Forall2 trimmed_item l (backward_scan (prune_result config) n b l).
Proof.
  revert n b. induction l as [|i l IH]; intros n b; [constructor|].
  destruct i; cbn [backward_scan]; constructor; try apply IH; try done. apply prune_result_trimmed.
Qed.

Lemma prune_trimmed config l : Forall2 trimmed_item l (prune_conversation config l).
Proof.
  unfold prune_conversation. destruct (pruning_enabled config); [|done].
  apply Forall2_reverse_r, backward_scan_trimmed.
Qed.

(** Eviction: every position that is visited holds an image, or its placeholder already. *)
Definition image_at (l : list ConversationItem) (i j : nat) : Prop :=
  ∃ u p, l !! i = Some (User u) ∧ user_content u !! j = Some p
    ∧ part_evicted p (TextPart IMAGE_COMPACT_PLACEHOLDER).

Lemma set_part_evicted i j l l' :
  image_at l i j → set_part i j (TextPart IMAGE_COMPACT_PLACEHOLDER) l = Some l' →
  Forall2 evicted_item l l' ∧ ∀ i' j', image_at l i' j' → image_at l' i' j'.
Proof.
  intros (u & p & Hi & Hj & Hp). unfold set_part. rewrite Hi, Hj. intros [= <-]. split.
  - rewrite <- (list_insert_id l i (User u) Hi) at 1. apply Forall2_insert; [done|]. constructor.
    rewrite <- (list_insert_id (user_content u) j p Hj) at 1. by apply Forall2_insert.
  - intros i' j' (u' & p' & Hi' & Hj' & Hp'). destruct (decide (i' = i)) as [->|Hne].
    + rewrite Hi in Hi'. injection Hi' as <-. unfold image_at.
      rewrite list_lookup_insert_eq by by eapply lookup_lt_Some.
      destruct (decide (j' = j)) as [->|Hnj].
      * eexists _, (TextPart IMAGE_COMPACT_PLACEHOLDER). split; [done|]. cbn.
        rewrite list_lookup_insert_eq by by eapply lookup_lt_Some. split; [done|constructor].
      * eexists _, p'. split; [done|]. cbn. by rewrite list_lookup_insert_ne.
    + exists u', p'. by rewrite list_lookup_insert_ne by done.
Qed.

Lemma evict_images_evicted pb tb images l r n :
  (∀ i j b, (i, j, b) ∈ images → image_at l i j) →
  Forall2 evicted_item l (evict_images pb tb images l r n).1.
Proof.
  revert l r n. induction images as [|[[i j] b] images IH]; intros l r n Hat; cbn [evict_images fst]; [done|].
  destruct (r <=? tb)%Z; [done|].
  destruct (set_part i j _ l) as [l'|] eqn:E; [|apply IH; intros; eapply Hat; by right].
  apply set_part_evicted in E as [He Hkeep]; [|eapply Hat; by left].
  etransitivity; [exact He|]. apply IH. intros i' j' b' Hin. eapply Hkeep, Hat. by right.
Qed.

Lemma elem_of_concat {A} (x : A) ls : x ∈ concat ls ↔ ∃ l, x ∈ l ∧ l ∈ ls.
Proof.
  rewrite list_elem_of_In, in_concat. setoid_rewrite list_elem_of_In.
  split; intros (l & ? & ?); by exists l.
Qed.

Lemma image_positions_at l i j b : (i, j, b) ∈ image_positions l → image_at l i j.
Proof.
  unfold image_positions. intros (l1 & Hin & Hl1)%elem_of_concat.
  apply elem_of_lookup_imap in Hl1 as (k & item & -> & Hk). destruct item as [|u| | | |]; try by apply elem_of_nil in Hin.
  apply elem_of_concat in Hin as (l2 & Hin & Hl2). apply elem_of_lookup_imap in Hl2 as (m & p & -> & Hm).
  destruct p as [|url]; [by apply elem_of_nil in Hin|]. apply list_elem_of_singleton in Hin as [= -> -> ->].
  exists u, (ImagePart url). split_and!; [done..|constructor].
Qed.

Lemma compact_images_evicted `{JsonLengths} l c t :
  Forall2 evicted_item l (compact_images_to_byte_budget l c t).1.
Proof.
  unfold compact_images_to_byte_budget. destruct (c <=? t)%Z; [done|].
  apply evict_images_evicted, image_positions_at.
Qed.

(** Compression. *)
Lemma compress_items_compressed `{HeadroomEnv} names n l st p :
  Forall2 compressed_item l (compress_items names n l st p).1.
Proof.
  revert n st p. induction l as [|i l IH]; intros n st p; cbn [compress_items]; [by destruct (n =? 0)%Z|].
  destruct (n =? 0)%Z; [done|].
  destruct i as [| | |t| |];
    try (specialize (IH n st p); destruct (compress_items names n l st p); by constructor).
  destruct (skips_result names t).
  { specialize (IH n st p). destruct (compress_items names n l st p). by constructor. }
  destruct (maybe_compress_content _ _ st p) as [[c|] [st' p']] eqn:Hc.
  - specialize (IH (n - 1)%Z st' p'). destruct (compress_items names (n - 1)%Z l st' p').
    constructor; [by econstructor|done].
  - specialize (IH n st' p'). destruct (compress_items names n l st' p'). by constructor.
Qed.

Lemma compress_compressed `{HeadroomEnv} l p : Forall2 compressed_item l (compress_tool_results l p).1.
Proof.
  unfold compress_tool_results. destruct (negb (is_enabled p)); [done|]. apply compress_items_compressed.
Qed.

(** ** The memory reminder *)

(** The system prompt [s] with the reminder [r]: where the block of an earlier reminder
    begins, [r] stands for it and for all behind it; else [r] is appended, unless the prompt is [r];
    the line feeds before it become one blank line. *)
Inductive with_reminder (r s : text) : text → Prop :=
| reminder_replaced base lfs old :
    s = base ++ lfs ++ MEMORY_CONTEXT_OPEN_TAG ++ old →
    contains (base ++ lfs) MEMORY_CONTEXT_OPEN_TAG = false →
    Forall (λ c, c = LF) lfs → last base ≠ Some LF →
    with_reminder r s (if decide (base = []) then r else base ++ [LF; LF] ++ r)
| reminder_there : contains s MEMORY_CONTEXT_OPEN_TAG = false → trim_end s = r → with_reminder r s s
| reminder_alone : s = [] → trim_end s ≠ r → with_reminder r s r
| reminder_appended base lfs :
    s = base ++ lfs → s ≠ [] → contains s MEMORY_CONTEXT_OPEN_TAG = false → trim_end s ≠ r →
    Forall (λ c, c = LF) lfs → last base ≠ Some LF →
    with_reminder r s (base ++ [LF; LF] ++ r).

(** A conversation with the reminder: in its system prompt, or in one of its own; a blank
    reminder is none. *)
Definition reminded (reminder : option text) (l l' : list ConversationItem) : Prop :=
  match reminder with
  | None => l' = l
  | Some r =>
      if decide (trim r = []) then l' = l
      else match l with
           | System s :: rest => ∃ s', l' = System s' :: rest ∧ with_reminder (trim r) s s'
           | _ => l' = System (trim r) :: l
           end
  end.

Lemma trim_lf_split s :
  ∃ lfs, s = trim_end_matches is_lf s ++ lfs ∧ Forall (λ c, c = LF) lfs
    ∧ last (trim_end_matches is_lf s) ≠ Some LF.
Proof.
  induction s as [|c s IH] using rev_ind; [by exists []|].
  unfold trim_end_matches in *. rewrite reverse_app. change (reverse [c] ++ reverse s) with (c :: reverse s).
  cbn [drop_while]. destruct (is_lf c) eqn:Hc; [apply bool_decide_eq_true in Hc|apply bool_decide_eq_false in Hc].
  - destruct IH as (lfs & Hs & Hf & Hl). exists (lfs ++ [c]). split_and!; [by rewrite app_assoc, <- Hs| |done].
    apply Forall_app. split; [done|]. by constructor.
  - exists []. rewrite reverse_cons, reverse_involutive, app_nil_r. split_and!; [done..|].
    rewrite last_snoc. congruence.
Qed.

Lemma trim_lf_idle s : last s ≠ Some LF → trim_end_matches is_lf s = s.
Proof.
  destruct s as [|c s _] using rev_ind; [done|]. rewrite last_snoc. intros Hc.
  unfold trim_end_matches. rewrite reverse_app. change (reverse [c] ++ reverse s) with (c :: reverse s).
  cbn [drop_while]. unfold is_lf. rewrite bool_decide_false by congruence.
  by rewrite reverse_cons, reverse_involutive.
Qed.

Lemma upsert_with_reminder s r : with_reminder r s (upsert_memory_reminder_text s r).1.
Proof.
  unfold upsert_memory_reminder_text.
  match goal with |- context [if decide (s = ?u) then _ else _] => set (updated := u) end.
  assert (with_reminder r s updated) as Hw; [|by destruct (decide (s = updated)) as [<-|]].
  unfold updated. destruct (find_text MEMORY_CONTEXT_OPEN_TAG s) as [k|] eqn:Hf; cbn [fmap option_fmap option_map].
  - apply find_text_before in Hf as (a & old & -> & <- & Ha); [|done]. rewrite take_app_length.
    destruct (trim_lf_split a) as (lfs & Hs & Hlfs & Hlast). set (base := trim_end_matches is_lf a) in *.
    assert (take (length base) (a ++ MEMORY_CONTEXT_OPEN_TAG ++ old) = base) as ->.
    { rewrite Hs, <- app_assoc. apply take_app_length. }
    rewrite trim_lf_idle by done. rewrite Hs in Ha |- *. rewrite <- app_assoc. by eapply reminder_replaced.
  - pose proof (find_text_None _ _ Hf) as Hc. case_decide as Ht; [by apply reminder_there|].
    case_decide as Hs; [by apply reminder_alone|].
    destruct (trim_lf_split s) as (lfs & Hsp & Hlfs & Hlast). by eapply reminder_appended.
Qed.

Lemma inject_reminded l r : reminded (Some r) l (inject_memory_reminder l r).1.
Proof.
  unfold reminded, inject_memory_reminder. case_decide; [done|].
  destruct l as [|[t| | | | |] l]; try done.
  pose proof (upsert_with_reminder t (trim r)) as Hu. destruct (upsert_memory_reminder_text t (trim r)) as [t' c].
  by exists t'.
Qed.

Lemma inject_unchanged l r : (inject_memory_reminder l r).2 = false → (inject_memory_reminder l r).1 = l.
Proof.
  unfold inject_memory_reminder. case_decide; [done|].
  destruct l as [|[] l]; try done. unfold upsert_memory_reminder_text.
  by destruct (decide _).
Qed.

(** An injection that changed nothing changes nothing in a copy with the same system prompt. *)
Lemma inject_again l k r :
  (inject_memory_reminder l r).2 = false →
  match l with System s :: _ => ∃ k', k = System s :: k' | _ => True end →
  (inject_memory_reminder k r).1 = k.
Proof.
  unfold inject_memory_reminder. case_decide; [done|].
  destruct l as [|[s| | | | |] l]; try done. intros Hu [k' ->]. unfold upsert_memory_reminder_text in *.
  by destruct (decide _).
Qed.

Lemma reminded_framed r l l' : reminded r l l' → framed l l'.
Proof.
  unfold reminded. destruct r as [r|]; [|by intros ->]. case_decide; [by intros ->|].
  destruct l as [|[] l]; try (intros ->; by apply framed_cons).
  intros (s' & -> & _). apply framed_same. constructor; [done|apply same_role_list_refl].
Qed.

(** ** The age of a result *)

Definition users (l : list ConversationItem) : nat := length (filter_b is_user l).

Lemma users_cons i l : users (i :: l) = (if is_user i then 1 else 0) + users l.
Proof. unfold users, filter_b. cbn [List.filter]. by destruct (is_user i). Qed.

Lemma users_app l k : users (l ++ k) = users l + users k.
Proof. unfold users. by rewrite filter_b_app, length_app. Qed.

(** [f] at each result, given the number of user items after it less one. *)
Fixpoint scan_by_age (f : nat → ToolResultItem → ToolResultItem) (l : list ConversationItem)
    : list ConversationItem :=
  match l with
  | [] => []
  | ToolResult t :: l' => ToolResult (f (pred (users l')) t) :: scan_by_age f l'
  | i :: l' => i :: scan_by_age f l'
  end.

Lemma users_reverse l : users (reverse l) = users l.
Proof.
  induction l as [|i l IH]; [done|]. rewrite reverse_cons, users_app, IH, !users_cons.
  change (users []) with 0. lia.
Qed.

(** The scan from [l] reversed on, after items with [k] user items. *)
Lemma backward_scan_snoc f n b l i :
  backward_scan f n b (l ++ [i]) =
    backward_scan f n b l ++
    [match i with
     | ToolResult t => ToolResult (f (if b then n + users l else n + pred (users l)) t)
     | _ => i
     end].
Proof.
  revert n b. induction l as [|j l IH]; intros n b.
  { cbn. destruct b; rewrite ?Nat.add_0_r; by destruct i. }
  cbn [app backward_scan].
  destruct j; rewrite IH, users_cons; cbn [is_user]; try done.
  cbn [app]. f_equal. f_equal. f_equal. destruct i; try done. do 2 f_equal. destruct b; lia.
Qed.

(** The backward scan is the scan by age. *)
Lemma backward_scan_age f l : reverse (backward_scan f 0 false (reverse l)) = scan_by_age f l.
Proof.
  induction l as [|i l IH]; [done|].
  rewrite reverse_cons, backward_scan_snoc, reverse_app, IH, users_reverse. cbn. by destruct i.
Qed.
