(* ===== verification/CompactionUtils.v ===== *)
(** * Preparing a conversation for compaction

    The first half of [ds-chat-state/src/compaction_utils.rs]: the copies sent to
    the summarizer, the fit of a conversation to a budget of tokens, and the
    queries of the user behind the metadata of a message.  Costs are the
    estimates of the chat state, whose panic is [None].  Theorems: the fit keeps calls and
    results paired and the budget. *)

From S2P Require Import Prelude Text Conversation TokenEstimation ToolPairing ToolPairingProps ChatRequest.

Open Scope Z_scope.

(** ** Summarizer input *)

Definition set_content (c : text) (calls : list ToolCall) (a : AssistantItem) : AssistantItem :=
  mkAssistant c calls (model_id a) (model_fingerprint a) (reasoning_effort a).

(** The calls of an assistant message as a line of its text. *)
Definition flatten_calls (a : AssistantItem) : AssistantItem :=
  match tool_calls a with
  | [] => a
  | calls =>
      let tool_info :=
        [LF] ++ txt "[Called tools: " ++ join_with (txt ", ") (call_name <$> calls) ++ txt "]" in
      set_content (if decide (content a = []) then tool_info else content a ++ tool_info) [] a
  end.

Definition strip_tool_messages_for_conversation_item (conversation : list ConversationItem)
    : list ConversationItem :=
  omap (λ i,
    match i with
    | ToolResult _ => None
    | Assistant a => Some (Assistant (flatten_calls a))
    | other => Some other
    end) conversation.

Definition is_reasoning (i : ConversationItem) : bool :=
  match i with Reasoning _ => true | _ => false end.

Definition strip_reasoning_blocks (conversation : list ConversationItem) : list ConversationItem :=
  filter_b (λ i, negb (is_reasoning i)) conversation.

(** [strip_images] of this module: a different placeholder, user items only. *)
Definition strip_user_images (conversation : list ConversationItem) : list ConversationItem :=
  (λ i,
    match i with
    | User u =>
        User (set_user_content
          ((λ p, if is_image p then TextPart (txt "[image]") else p) <$> user_content u) u)
    | other => other
    end) <$> conversation.

Definition prepare_conversation_for_summarization (conversation : list ConversationItem)
    (strip_reasoning : bool) : list ConversationItem :=
  let conversation := if strip_reasoning then strip_reasoning_blocks conversation else conversation in
  strip_user_images (strip_tool_messages_for_conversation_item conversation).

Definition prepare_conversation_for_segment (conversation : list ConversationItem)
    (strip_reasoning : bool) : list ConversationItem :=
  let conversation := if strip_reasoning then strip_reasoning_blocks conversation else conversation in
  strip_user_images conversation.

Definition has_calls (i : ConversationItem) : bool :=
  match i with Assistant a => match tool_calls a with [] => false | _ => true end | _ => false end.

Definition truncate_trailing_incomplete_tool_call (conversation : list ConversationItem)
    : list ConversationItem :=
  reverse (drop_while has_calls (reverse conversation)).

Definition prepare_conversation_for_verbatim_summarization (conversation : list ConversationItem)
    (strip_reasoning : bool) : list ConversationItem :=
  let conversation := if strip_reasoning then strip_reasoning_blocks conversation else conversation in
  truncate_trailing_incomplete_tool_call conversation.

(** ** Fitting a budget *)

Definition MARKER_RESERVE : Z := 64.

Definition truncate_text_to_bytes (s : text) (max_bytes : Z) : option text :=
  if len s <=? max_bytes then None
  else
    let keep := u64_saturating_sub max_bytes MARKER_RESERVE in
    let end_ := floor_boundary s (Z.to_nat (Z.min keep (len s))) in
    let dropped := len s - Z.of_nat end_ in
    Some (take end_ s ++ [LF] ++ txt "[... truncated " ++ show_Z dropped
          ++ txt " bytes to fit the compaction window ...]").

Definition truncate_or_keep (s : text) (max_bytes : Z) : text :=
  default s (truncate_text_to_bytes s max_bytes).

Definition truncate_item_to_tokens (item : ConversationItem) (max_tokens : Z) : ConversationItem :=
  let max_bytes := u64_saturating_mul max_tokens 4 in
  match item with
  | ToolResult t => ToolResult (with_content t (truncate_or_keep (tr_content t) max_bytes))
  | Assistant a =>
      Assistant (set_content (truncate_or_keep (content a) max_bytes) (tool_calls a) a)
  | User u =>
      User (set_user_content
        ((λ p, match p with TextPart t => TextPart (truncate_or_keep t max_bytes) | _ => p end)
           <$> user_content u) u)
  | other => other
  end.

(** The trailing results of a list, and what is before them. *)
Fixpoint split_trailing_results (rev_body : list ConversationItem) (results : list ConversationItem)
    : list ConversationItem * list ConversationItem :=
  match rev_body with
  | ToolResult t :: rest => split_trailing_results rest (ToolResult t :: results)
  | _ => (rev_body, results)
  end.

Definition recover_truncated_tail_unit (body : list ConversationItem) (budget : Z)
    : option (list ConversationItem) :=
  let '(rev_body, results) := split_trailing_results (reverse body) [] in
  match results with
  | [] =>
      Some match rev_body with
           | item :: _ => [truncate_item_to_tokens item budget]
           | [] => []
           end
  | _ =>
      let owner := match rev_body with i :: _ => if has_calls i then Some i else None | [] => None end in
      owner_cost ← (match owner with Some o => estimate_item_tokens o | None => Some 0 end);
      let result_budget := u64_saturating_sub budget owner_cost in
      let per := Z.max (result_budget / Z.of_nat (length results)) 1 in
      Some (option_list owner ++ ((λ r, truncate_item_to_tokens r per) <$> results))
  end.

(** The backward loop that takes items while they fit: the index of the first
    one taken. *)
Fixpoint fit_start (rev_body : list ConversationItem) (remaining : Z) (start : nat) : option nat :=
  match rev_body with
  | [] => Some start
  | item :: rest =>
      cost ← estimate_item_tokens item;
      if remaining <? cost then Some start else fit_start rest (remaining - cost) (pred start)
  end.

Definition fit_conversation_to_budget (conversation : list ConversationItem) (max_tokens : Z)
    : option (list ConversationItem) :=
  total ← estimate_conversation_tokens conversation;
  if total <=? max_tokens then Some conversation
  else
    let '(head, body) :=
      match conversation with
      | System t :: rest => ([System t], rest)
      | _ => ([], conversation)
      end in
    head_cost ← estimate_conversation_tokens head;
    let budget := u64_saturating_sub max_tokens head_cost in
    start ← fit_start (reverse body) budget (length body);
    let start := (start + run_length (drop start body))%nat in
    if (start <? length body)%nat then Some (head ++ drop start body)
    else
      unit ← recover_truncated_tail_unit body budget;
      Some (head ++ unit).

(** ** User queries *)

Definition SYSTEM_TAGS : list text :=
  txt <$> ["user_info"; "project_layout"; "git_status"; "fork-context"; "system-reminder";
           "agent-memory"; "system_reminder"; "background_context"; "command-name";
           "command-message"; "command-args"].

(** The loop for one tag; every iteration shortens the text. *)
Fixpoint strip_tag (fuel : nat) (open close result : text) : text :=
  match fuel with
  | 0%nat => result
  | S fuel =>
      match find_text open result with
      | None => result
      | Some start =>
          match find_text close (drop start result) with
          | None => result
          | Some rel_end =>
              let end_pos := (start + rel_end + length close)%nat in
              strip_tag fuel open close (take start result ++ drop end_pos result)
          end
      end
  end.

Definition strip_system_tags (s : text) : text :=
  trim (foldl (λ result tag,
    strip_tag (length result) (txt "<" ++ tag ++ txt ">") (txt "</" ++ tag ++ txt ">") result)
    s SYSTEM_TAGS).

Definition extract_user_query (s : text) : text :=
  match find_text (txt "<user_query>") s with
  | Some start =>
      let content_start := (start + length (txt "<user_query>"))%nat in
      match find_text (txt "</user_query>") (drop content_start s) with
      | Some end_ => strip_system_tags (trim (take end_ (drop content_start s)))
      | None => strip_system_tags s
      end
  | None => strip_system_tags s
  end.

(** The query of a user item, whose text never panics. *)
Definition user_query (i : ConversationItem) : text :=
  extract_user_query (default [] (text_content i)).

Definition extract_last_user_query (conversation : list ConversationItem) : option text :=
  match find_b is_user (reverse conversation) with
  | None => None
  | Some i => let q := user_query i in if decide (q = []) then None else Some q
  end.

Definition AUTO_CONTINUE_PROMPT : text :=
  txt "Continue the conversation from where it left off without asking the user any further questions. Resume directly - do not acknowledge the summary, do not recap what was happening, do not preface with "
  ++ quoted (txt "I'll continue") ++ txt " or similar." ++ [LF]
  ++ txt "Pick up the last task as if the break never happened.".

Definition is_synthetic_extracted_query (s : text) : bool :=
  bool_decide (s = []) || bool_decide (s = txt "__auto_continue__")
  || bool_decide (s = AUTO_CONTINUE_PROMPT).

Definition is_real_user_turn (i : ConversationItem) : bool :=
  match i with
  | User u =>
      match synthetic_reason u with
      | Some _ => false
      | None =>
          if any_b is_image (user_content u) then true
          else negb (is_synthetic_extracted_query (user_query i))
      end
  | _ => false
  end.

Definition extract_real_user_queries (conversation : list ConversationItem) : list text :=
  user_query <$> filter_b is_real_user_turn conversation.

Definition extract_last_real_user_query (conversation : list ConversationItem) : option text :=
  user_query <$> find_b is_real_user_turn (reverse conversation).

(** The tail items that are kept: assistant messages and results without content. *)
Definition tail_item (i : ConversationItem) : option ConversationItem :=
  match i with
  | Assistant a => Some (Assistant a)
  | ToolResult t => Some (ToolResult (mkToolResult (tool_call_id t) (txt "Tool call omitted...") []))
  | _ => None
  end.

Fixpoint take_while {A} (p : A → bool) (l : list A) : list A :=
  match l with
  | [] => []
  | x :: l' => if p x then x :: take_while p l' else []
  end.

Definition extract_messages_since_last_user (conversation : list ConversationItem)
    : list ConversationItem :=
  reverse (omap tail_item (take_while (λ i, negb (is_user i)) (reverse conversation))).

(** [Iterator::rposition]. *)
Fixpoint rposition {A} (p : A → bool) (l : list A) : option nat :=
  match l with
  | [] => None
  | x :: l' =>
      match rposition p l' with
      | Some i => Some (S i)
      | None => if p x then Some 0%nat else None
      end
  end.

Definition extract_messages_since_last_real_user (conversation : list ConversationItem)
    : list ConversationItem :=
  let start := match rposition is_real_user_turn conversation with Some idx => S idx | None => 0%nat end in
  omap tail_item (drop start conversation).

Open Scope Z_scope.

(** ** Costs *)

(** The exact sum of the estimates of a list of items, if none panics. *)
Definition cost_of (l : list ConversationItem) : option Z :=
  foldr Z.add 0 <$> mapM estimate_item_tokens l.

Lemma cost_of_cons i l c d :
  estimate_item_tokens i = Some c → cost_of l = Some d → cost_of (i :: l) = Some (c + d).
Proof.
  unfold cost_of. cbn. intros -> Hd. destruct (mapM estimate_item_tokens l); by simplify_eq/=.
Qed.

Lemma mapM_app_Some {A B} (f : A → option B) l k x y :
  mapM f l = Some x → mapM f k = Some y → mapM f (l ++ k) = Some (x ++ y).
Proof.
  intros Hl Hk. apply mapM_Some. apply Forall2_app; by apply mapM_Some.
Qed.

Lemma fit_start_spec pre post rem d st :
  fit_start (reverse pre) rem (length pre) = Some st → 0 <= rem → cost_of post = Some d →
  (st <= length pre)%nat ∧ ∃ c, cost_of (drop st pre ++ post) = Some (c + d) ∧ c <= rem.
Proof.
  revert post rem d. induction pre as [|x pre IH] using rev_ind; intros post rem d Hst Hrem Hd.
  { cbn in Hst. simplify_eq. split; [done|]. exists 0. cbn. by rewrite Z.add_0_l. }
  rewrite reverse_snoc, length_app in Hst. cbn [fit_start length] in Hst.
  apply bind_Some in Hst as (cost & Hc & Hst). rewrite length_app. cbn [length].
  destruct (rem <? cost) eqn:Hlt.
  - simplify_eq. split; [done|]. exists 0. rewrite drop_ge by (rewrite length_app; cbn; lia).
    by rewrite Z.add_0_l.
  - apply Z.ltb_ge in Hlt. rewrite Nat.add_1_r in Hst. cbn [pred] in Hst.
    destruct (IH (x :: post) (rem - cost) (cost + d) Hst) as (Hle & c & Hcost & Hrem').
    + lia.
    + by apply cost_of_cons.
    + split; [lia|]. exists (c + cost). rewrite drop_app_le by done.
      rewrite <- app_assoc. cbn. rewrite Hcost. split; [f_equal|]; lia.
Qed.

Lemma fit_start_total rev_body rem st :
  Forall (λ i, is_Some (estimate_item_tokens i)) rev_body → is_Some (fit_start rev_body rem st).
Proof.
  intros H. revert rem st. induction H as [|i l [c Hc] _ IH]; intros rem st; cbn; [done|].
  rewrite Hc. cbn. destruct (rem <? c); [done|apply IH].
Qed.

(** ** The tail unit *)

Lemma split_trailing_spec body acc :
  ∃ pre W, body = pre ++ (ToolResult <$> W)
    ∧ split_trailing_results (reverse body) acc = (reverse pre, (ToolResult <$> W) ++ acc)
    ∧ (∀ t pre', pre ≠ pre' ++ [ToolResult t]).
Proof.
  revert acc. induction body as [|x body IH] using rev_ind; intros acc.
  { exists [], []. split_and!; [done|done|]. intros t pre' H. by apply app_cons_not_nil in H. }
  destruct (is_result x) eqn:Hx.
  - destruct x as [| | |t| |]; try done. rewrite reverse_snoc. cbn [split_trailing_results].
    destruct (IH (ToolResult t :: acc)) as (pre & W & -> & -> & Hpre).
    exists pre, (W ++ [t]). rewrite fmap_app, <- !app_assoc. by split_and!.
  - exists (body ++ [x]), []. rewrite reverse_snoc. cbn. rewrite app_nil_r.
    split_and!; [done|by destruct x|]. intros t pre' [_ H]%app_inj_tail. by subst x.
Qed.

Lemma truncate_same_role i n : same_role i (truncate_item_to_tokens i n).
Proof. by destruct i. Qed.

(** The unit has the roles of the end of the body, from an item on. *)
Lemma recover_spec body budget u :
  well_paired body → recover_truncated_tail_unit body budget = Some u →
  ∃ pre tl, body = pre ++ tl ∧ run_length tl = 0%nat ∧ Forall2 same_role tl u.
Proof.
  intros Hw. unfold recover_truncated_tail_unit.
  destruct (split_trailing_spec body []) as (pre & W & -> & -> & Hpre).
  rewrite app_nil_r. destruct W as [|w W].
  - cbn. rewrite app_nil_r. intros [= <-].
    destruct pre as [|x pre _] using rev_ind; [by exists [], []|].
    rewrite reverse_snoc. exists pre, [x]. split_and!; [done| |].
    + destruct x; try done. by destruct (Hpre t pre).
    + constructor; [apply truncate_same_role|constructor].
  - destruct pre as [|x pre _] using rev_ind.
    { exfalso. unfold well_paired in Hw. cbn [app] in Hw. rewrite runs_unfold in Hw.
      rewrite <- (app_nil_r (ToolResult <$> _)), runs_of_results in Hw. cbn in Hw.
      apply Forall_cons in Hw as [Hw _]. by apply paired_none in Hw. }
    assert (is_result x = false) as Hx by (destruct x; try done; by destruct (Hpre t pre)).
    rewrite <- app_assoc in *. cbn [app] in *.
    assert (paired (calls_of x) (w :: W)) as [_ Hids].
    { apply (well_paired_suffix pre) in Hw; [|by destruct x].
      rewrite <- (app_nil_r (ToolResult <$> _)) in Hw. by apply well_paired_item in Hw as [? _]. }
    rewrite reverse_snoc. assert (has_calls x = true) as ->.
    { destruct x as [| |a| | |]; cbn in *; try by apply Hids in Hids || done.
      all: try (exfalso; apply (not_elem_of_nil (tool_call_id w)), Hids; left).
      destruct (tool_calls a); [|done]. exfalso. apply (not_elem_of_nil (tool_call_id w)), Hids. left. }
    intros (cost & _ & Hu)%bind_Some. apply (inj Some) in Hu. subst u. exists pre, (x :: (ToolResult <$> w :: W)).
    split_and!; [done|by destruct x|]. cbn [option_list app]. constructor; [done|].
    apply map_same_role. intros. apply truncate_same_role.
Qed.

(** ** Theorems *)

(** The system message a conversation starts with, and the rest. *)
Definition system_head (l : list ConversationItem) : list ConversationItem :=
  match l with System t :: _ => [System t] | _ => [] end.
Definition after_head (l : list ConversationItem) : list ConversationItem :=
  match l with System _ :: l' => l' | _ => l end.

Lemma head_split l : l = system_head l ++ after_head l.
Proof. by destruct l as [|[] l]. Qed.

Lemma system_head_paired l k : well_paired (system_head l ++ k) ↔ well_paired k.
Proof. destruct l as [|[] l]; cbn [system_head app]; try done. apply well_paired_system. Qed.

Lemma fit_unfold l n :
  fit_conversation_to_budget l n =
    (total ← estimate_conversation_tokens l;
     if total <=? n then Some l
     else
       head_cost ← estimate_conversation_tokens (system_head l);
       let budget := u64_saturating_sub n head_cost in
       start ← fit_start (reverse (after_head l)) budget (length (after_head l));
       let start := (start + run_length (drop start (after_head l)))%nat in
       if (start <? length (after_head l))%nat then Some (system_head l ++ drop start (after_head l))
       else unit ← recover_truncated_tail_unit (after_head l) budget; Some (system_head l ++ unit)).
Proof. by destruct l as [|[] l]. Qed.

Lemma run_length_drop l : run_length (drop (run_length l) l) = 0%nat.
Proof. induction l as [|[] l IH]; cbn; done. Qed.

(** Dropping the results at the start of a list makes it cheaper. *)
Lemma cost_drop n l c : cost_of l = Some c → ∃ d, cost_of (drop n l) = Some d ∧ d <= c.
Proof.
  unfold cost_of. revert l c. induction n as [|n IH]; intros l c Hc; [by exists c|].
  destruct l as [|i l]; [by exists c|]. cbn [drop]. cbn in Hc.
  destruct (estimate_item_tokens i) as [a|] eqn:Ha; [|done].
  destruct (mapM estimate_item_tokens l) as [cs|] eqn:Hm; [|done]. cbn in Hc. simplify_eq.
  destruct (IH l (foldr Z.add 0 cs)) as (d & Hd & Hle); [by rewrite Hm|].
  exists d. split; [done|].
  assert (0 <= a); [|lia].
  destruct i as [t|u|a'|t|k|r]; cbn in Ha; simplify_eq; try by apply Z.div_pos; [apply Z.mod_pos_bound|].
  - unfold u64_add. by apply Z.mod_pos_bound.
  - apply fmap_Some in Ha as (s & _ & ->). by apply Z.div_pos; [apply Z.mod_pos_bound|].
Qed.

(** No item has a summary that panics. *)
Definition estimable (l : list ConversationItem) : Prop :=
  Forall (λ i, is_Some (estimate_item_tokens i)) l.

Lemma estimable_sum l : estimable l → is_Some (estimate_conversation_tokens l).
Proof. intros H. unfold estimate_conversation_tokens. apply fmap_is_Some, mapM_is_Some, H. Qed.

Lemma recover_total body budget : estimable body → is_Some (recover_truncated_tail_unit body budget).
Proof.
  intros H. unfold recover_truncated_tail_unit.
  destruct (split_trailing_spec body []) as (pre & W & -> & -> & _).
  destruct ((ToolResult <$> W) ++ []); [done|].
  destruct pre as [|x pre _] using rev_ind; [done|]. rewrite reverse_snoc.
  destruct (has_calls x); [|done].
  apply Forall_app in H as [[_ [[k Hk] _]%Forall_cons]%Forall_app _]. by rewrite Hk.
Qed.

Lemma fit_total l n : estimable l → is_Some (fit_conversation_to_budget l n).
Proof.
  intros H. rewrite fit_unfold. destruct (estimable_sum l H) as [total ->]. cbn [mbind option_bind].
  destruct (total <=? n); [done|].
  rewrite (head_split l) in H. apply Forall_app in H as [Hh Hb].
  destruct (estimable_sum _ Hh) as [h ->]. cbn [mbind option_bind]. cbv zeta.
  destruct (fit_start_total (reverse (after_head l)) (u64_saturating_sub n h) (length (after_head l)))
    as [st ->]; [by apply Forall_reverse|]. cbn [mbind option_bind].
  destruct (_ <? _)%nat; [done|].
  by destruct (recover_total (after_head l) (u64_saturating_sub n h) Hb) as [u ->].
Qed.

(** [fit_conversation_to_budget] never breaks the pairing of tool calls and
    results.  On a conversation whose results are exactly those of its calls, the
    result has the same property: it is the conversation itself, or its system
    message with a suffix that starts at an item that is not a result and whose
    exact cost is within the budget left by the system message, or the system
    message with the last unit of the conversation, role by role.  There always is
    a result, provided that no summary of a backend tool call panics. *)
Theorem fit_keeps_pairing (l : list ConversationItem) (n : Z) :
  well_paired l → 0 <= n → estimable l →
  ∃ res, fit_conversation_to_budget l n = Some res
  ∧ well_paired res
  ∧ (res = l
     ∨ ∃ pre tl, after_head l = pre ++ tl ∧ run_length tl = 0%nat
         ∧ ((res = system_head l ++ tl ∧ tl ≠ []
             ∧ ∃ h c, estimate_conversation_tokens (system_head l) = Some h ∧ cost_of tl = Some c
                 ∧ c <= u64_saturating_sub n h)
            ∨ ∃ u, res = system_head l ++ u ∧ Forall2 same_role tl u)).
Proof.
  intros Hw Hn He. destruct (fit_total l n He) as [res Hfit]. exists res. split; [done|].
  assert (well_paired (after_head l)) as Hwb
    by (rewrite (head_split l), system_head_paired in Hw; exact Hw).
  rewrite fit_unfold in Hfit. apply bind_Some in Hfit as (total & _ & Hfit).
  destruct (total <=? n); [simplify_eq; split; [done|by left]|].
  apply bind_Some in Hfit as (h & Hh & Hfit).
  cbv zeta in Hfit. apply bind_Some in Hfit as (start & Hst & Hfit).
  destruct (fit_start_spec _ [] _ 0 _ Hst) as (Hle & c & Hc & Hcn);
    [unfold u64_saturating_sub; lia|done|].
  rewrite app_nil_r, Z.add_0_r in Hc.
  set (start' := (start + run_length (drop start (after_head l)))%nat) in *.
  assert (run_length (drop start' (after_head l)) = 0%nat) as Hrun.
  { unfold start'. rewrite <- drop_drop. apply run_length_drop. }
  destruct (start' <? length (after_head l))%nat eqn:Hlt.
  - apply Nat.ltb_lt in Hlt. simplify_eq. split.
    + apply system_head_paired. eapply well_paired_suffix; [exact Hrun|].
      rewrite take_drop. exact Hwb.
    + right. exists (take start' (after_head l)), (drop start' (after_head l)).
      rewrite take_drop. split_and!; [done|done|]. left. split_and!; [done| |].
      * intros E%(f_equal length). rewrite length_drop in E. cbn in E. lia.
      * destruct (cost_drop (run_length (drop start (after_head l))) _ _ Hc) as (d & Hd & Hdc).
        rewrite drop_drop in Hd. exists h, d. split_and!; [done|exact Hd|lia].
  - apply bind_Some in Hfit as (u & Hu & Hfit). simplify_eq.
    destruct (recover_spec _ _ _ Hwb Hu) as (pre & tl & Hb & Htl & Hsame). split.
    + apply system_head_paired. eapply well_paired_same; [exact Hsame|].
      eapply well_paired_suffix; [exact Htl|]. rewrite <- Hb. exact Hwb.
    + right. exists pre, tl. split_and!; [done|done|]. right. by exists u.
Qed.

Definition demo_call (n : text) : ToolCall := mkToolCall n (txt "run") (txt "{}").

(** A system message, a long turn, and a call with its result. *)
Definition demo_long : list ConversationItem :=
  [System (txt "sys"); user_text (replicate 400 "x"%char);
   Assistant (mkAssistant [] [demo_call (txt "c1")] None None None);
   tool_result (txt "c1") (replicate 400 "y"%char);
   user_text (txt "next"); Assistant (mkAssistant (txt "done") [] None None None)].

Lemma demo_long_paired : well_paired demo_long.
Proof.
  unfold well_paired, runs, demo_long. cbn.
  repeat (apply Forall_cons; split); try done.
  all: split; cbn; [try constructor; try constructor; set_solver|intros; set_solver].
Qed.

Lemma fit_keeps_pairing_witness :
  fit_conversation_to_budget demo_long 50
    = Some [System (txt "sys"); user_text (txt "next");
            Assistant (mkAssistant (txt "done") [] None None None)]
  ∧ ∃ res, fit_conversation_to_budget demo_long 50 = Some res ∧ well_paired res.
Proof.
  split; [by vm_compute|].
  destruct (fit_keeps_pairing demo_long 50 demo_long_paired ltac:(lia)) as (res & H1 & H2 & _).
  - repeat constructor; by eexists.
  - by exists res.
Defined.
