(* ===== verification/CodeCompaction.v ===== *)
(** * Compaction: sampling a summary and replacing the history

    [ds-compaction]: [sampler.rs], [prompt.rs] and [code_compaction/{sample,compact,
    assemble,observer,config,prompt}.rs], and [build_compacted_history] of
    [ds-chat-state/src/compaction_utils.rs].

    The call of the model is the class [CompactionSampler]: an operation on a state [W]
    of the world.  What the observer is told, and the pauses between two attempts, are
    the events of a trace.  Errors are on the left of a sum; a panic is [None].  The
    prompt templates, data files, are arguments. *)

From S2P Require Import Prelude Text Conversation CompactionText.

Open Scope Z_scope.

(** ** sampler.rs, prompt.rs *)

Record LlmCompactionOutput := mkOutput { response : text; thinking : text }.

Inductive CompactionSampleError :=
| SampleTimeout (timeout_secs collected_bytes : Z)
| SampleBuild (msg : text)
| SampleStart (msg : text)
| SampleEmptyResponse
| SampleOther (e : text).

(** [Display]. *)
Definition sample_error_text (e : CompactionSampleError) : text :=
  match e with
  | SampleTimeout timeout_secs collected_bytes =>
      txt "Compaction sampling timed out after " ++ show_Z timeout_secs ++ txt "s (collected "
        ++ show_Z collected_bytes ++ txt " bytes so far)"
  | SampleBuild msg => txt "Compaction sampler build failed: " ++ msg
  | SampleStart msg => txt "Compaction sampler start failed: " ++ msg
  | SampleEmptyResponse => txt "Compaction sampler returned no response channel content"
  | SampleOther e => e
  end.

Definition is_deterministic (e : CompactionSampleError) : bool :=
  match e with
  | SampleTimeout _ _ | SampleEmptyResponse => false
  | SampleBuild _ | SampleStart _ => true
  | SampleOther msg =>
      contains msg (txt "Failed to build AgenticScheduler")
      || contains msg (txt "Failed to start compaction sample")
  end.

Record CompactionPrompt := mkPrompt { prompt_system : text; prompt_user : text }.

Class CompactionSampler (W T : Type) :=
  sample_compaction :
    W → list T → CompactionPrompt → Z → W * (CompactionSampleError + LlmCompactionOutput).

(** ** observer.rs, prompt.rs *)

Inductive FullReplaceAttemptOutcome :=
| AttemptSuccess (summary : text)
| AttemptEmptyResponse (will_retry : bool)
| AttemptDegenerate (summary : text) (will_retry : bool)
| AttemptFailure (message : text) (deterministic context_overflow will_retry : bool).

Inductive PassEvent :=
| OnAttempt (attempt : Z) (outcome : FullReplaceAttemptOutcome)
| Slept (delay : Z)
| OnPassSuccess (attempts : Z) (summary_chars : nat)
| OnPassError (attempts : Z).

Definition build_summary_prompt (template : text) (user_context : option text) : text :=
  let user_context_section :=
    match user_context with
    | Some context =>
        [LF; LF] ++ txtln "**User-provided context for this compaction:**" ++ context ++ [LF; LF]
        ++ txt "Please incorporate this context into your summary, ensuring it is prominently addressed in the relevant sections."
        ++ [LF; LF]
    | None => []
    end in
  replace_all (txt "{user_context_section}") user_context_section template.

(** ** sample.rs *)

Record SampledSummary := mkSampled { summary : text; attempts : Z }.

Inductive SampleRetryError :=
| RetryEmpty (attempts : Z)
| RetryFailure (message : text) (deterministic context_overflow : bool) (attempts : Z).

Definition is_blank_text (s : text) : bool := bool_decide (trim s = []).

Section sample.
Context {W T : Type} `{!CompactionSampler W T}.
Context (turns : list T) (prompt : CompactionPrompt) (max_attempts retry_delay timeout : Z).

(** The loop from attempt [attempt] on, with [remaining] attempts left. *)
Fixpoint sample_from (remaining : nat) (attempt : Z) (w : W) (tr : list PassEvent)
    : option (W * list PassEvent * (SampleRetryError + SampledSummary)) :=
  match remaining with
  | O => Some (w, tr, inl (RetryEmpty max_attempts))
  | S remaining =>
      let will_retry := attempt <? max_attempts in
      let '(w, answer) := sample_compaction w turns prompt timeout in
      match answer with
      | inr output =>
          if negb (is_blank_text (response output)) then
            degenerate ← is_degenerate_summary (response output);
            if (degenerate : bool) then
              let tr := tr ++ [OnAttempt attempt (AttemptDegenerate (response output) will_retry)] in
              if negb will_retry then Some (w, tr, inl (RetryEmpty attempt))
              else sample_from remaining (attempt + 1) w (tr ++ [Slept retry_delay])
            else
              Some (w, tr ++ [OnAttempt attempt (AttemptSuccess (response output))],
                    inr (mkSampled (response output) attempt))
          else
            let tr := tr ++ [OnAttempt attempt (AttemptEmptyResponse will_retry)] in
            if negb will_retry then Some (w, tr, inl (RetryEmpty attempt))
            else sample_from remaining (attempt + 1) w (tr ++ [Slept retry_delay])
      | inl e =>
          let message := sample_error_text e in
          let context_overflow := is_context_length_error message in
          let deterministic := is_deterministic e || context_overflow in
          let retrying := will_retry && negb deterministic in
          let tr := tr ++ [OnAttempt attempt
                             (AttemptFailure message deterministic context_overflow retrying)] in
          if deterministic then
            Some (w, tr, inl (RetryFailure message true context_overflow attempt))
          else if negb will_retry then
            Some (w, tr, inl (RetryFailure message false false attempt))
          else sample_from remaining (attempt + 1) w (tr ++ [Slept retry_delay])
      end
  end.

End sample.

Definition sample_summary_with_retries {W T} `{!CompactionSampler W T} (w : W) (turns : list T)
    (prompt : CompactionPrompt) (max_attempts retry_delay timeout : Z)
    : option (W * list PassEvent * (SampleRetryError + SampledSummary)) :=
  let max_attempts := Z.max max_attempts 1 in
  sample_from turns prompt max_attempts retry_delay timeout (Z.to_nat max_attempts) 1 w [].

(** ** assemble.rs *)

Class CompactionItemFactory (T : Type) := {
  new_user : text → T;
  new_user_meta : text → T;
  new_project_instructions : text → T;
  new_system_reminder : text → T;
}.

Record CompactedHistoryParts (T : Type) := mkParts {
  system_message : T;
  user_message_prefix : text;
  agents_md_reminder : option text;
  last_user_query : option text;
  recent_messages : list T;
  compaction_summary : text;
  system_reminder : option text;
  transcript_hint : option text;
}.
#[global] Arguments mkParts {T}.
#[global] Arguments system_message {T}.
#[global] Arguments user_message_prefix {T}.
#[global] Arguments agents_md_reminder {T}.
#[global] Arguments last_user_query {T}.
#[global] Arguments recent_messages {T}.
#[global] Arguments compaction_summary {T}.
#[global] Arguments system_reminder {T}.
#[global] Arguments transcript_hint {T}.

Definition push_some {A T} (f : A → T) (o : option A) (l : list T) : list T :=
  match o with Some a => l ++ [f a] | None => l end.

Definition assemble_compacted_history {T} `{!CompactionItemFactory T}
    (parts : CompactedHistoryParts T) : option (list T) :=
  let compacted := [system_message parts; new_user_meta (user_message_prefix parts)] in
  let compacted := push_some new_project_instructions (agents_md_reminder parts) compacted in
  let compacted := push_some (λ q, new_user (wrap_user_query q)) (last_user_query parts) compacted in
  formatted_summary ← format_compact_summary_content (compaction_summary parts);
  let formatted_summary := formatted_summary ++ default [] (transcript_hint parts) in
  let summary_item := new_user_meta formatted_summary in
  let compacted := compacted ++ recent_messages parts in
  let compacted := compacted ++ [summary_item] in
  Some (push_some new_system_reminder (system_reminder parts) compacted).

(** ** compact.rs *)

Record FullReplaceConfig := mkFullReplaceConfig {
  max_attempts : Z;
  retry_delay_secs : Z;
  sampling_timeout_secs : Z;
}.

Definition default_full_replace_config : FullReplaceConfig := mkFullReplaceConfig 3 3 120.

Record FullReplaceContext (T : Type) := mkFullReplaceContext {
  ctx_system_message : T;
  ctx_user_message_prefix : text;
  ctx_agents_md_reminder : option text;
  ctx_last_user_query : option text;
  ctx_recent_messages : list T;
  ctx_system_reminder : option text;
  ctx_transcript_hint : option text;
}.
#[global] Arguments mkFullReplaceContext {T}.
#[global] Arguments ctx_system_message {T}.
#[global] Arguments ctx_user_message_prefix {T}.
#[global] Arguments ctx_agents_md_reminder {T}.
#[global] Arguments ctx_last_user_query {T}.
#[global] Arguments ctx_recent_messages {T}.
#[global] Arguments ctx_system_reminder {T}.
#[global] Arguments ctx_transcript_hint {T}.

Inductive FullReplaceError :=
| FullReplaceNothing
| FullReplaceEmptyResponse
| FullReplaceSampler (message : text) (deterministic context_overflow : bool).

Definition full_replace_error_text (e : FullReplaceError) : text :=
  match e with
  | FullReplaceNothing => txt "nothing to compact"
  | FullReplaceEmptyResponse => txt "compaction model returned an empty summary"
  | FullReplaceSampler message _ _ => txt "compaction sampling failed: " ++ message
  end.

Record FullReplaceOutput (T : Type) := mkFullReplaceOutput {
  out_history : list T;
  out_summary : text;
  out_attempts : Z;
}.
#[global] Arguments mkFullReplaceOutput {T}.
#[global] Arguments out_history {T}.
#[global] Arguments out_summary {T}.
#[global] Arguments out_attempts {T}.

Section full_replace.
Context {W T : Type} `{!CompactionSampler W T} (template : text).

Definition sample_full_replace_summary (w : W) (llm_turns : list T) (user_context : option text)
    (config : FullReplaceConfig) : option (W * list PassEvent * (FullReplaceError + SampledSummary)) :=
  if decide (llm_turns = []) then Some (w, [], inl FullReplaceNothing)
  else
    let prompt := mkPrompt [] (build_summary_prompt template user_context) in
    '(w, tr, r) ← sample_summary_with_retries w llm_turns prompt (max_attempts config)
                    (retry_delay_secs config) (sampling_timeout_secs config);
    Some match r with
         | inr s => (w, tr ++ [OnPassSuccess (attempts s) (length (chars (summary s)))], inr s)
         | inl (RetryEmpty n) => (w, tr ++ [OnPassError n], inl FullReplaceEmptyResponse)
         | inl (RetryFailure message deterministic context_overflow n) =>
             (w, tr ++ [OnPassError n], inl (FullReplaceSampler message deterministic context_overflow))
         end.

Definition parts_of (ctx : FullReplaceContext T) (s : text) : CompactedHistoryParts T :=
  mkParts (ctx_system_message ctx) (ctx_user_message_prefix ctx) (ctx_agents_md_reminder ctx)
    (ctx_last_user_query ctx) (ctx_recent_messages ctx) s (ctx_system_reminder ctx)
    (ctx_transcript_hint ctx).

Definition apply_full_replace_compaction `{!CompactionItemFactory T} (w : W) (llm_turns : list T)
    (user_context : option text) (ctx : FullReplaceContext T) (config : FullReplaceConfig)
    : option (W * list PassEvent * (FullReplaceError + FullReplaceOutput T)) :=
  '(w, tr, r) ← sample_full_replace_summary w llm_turns user_context config;
  match r with
  | inl e => Some (w, tr, inl e)
  | inr s =>
      history ← assemble_compacted_history (parts_of ctx (summary s));
      Some (w, tr, inr (mkFullReplaceOutput history (summary s) (attempts s)))
  end.

End full_replace.

(** ** The items of the build agent *)

(** [ConversationItem::user_meta], [system_reminder], [project_instructions]. *)
Definition user_with (reason : SyntheticReason) (t : text) : ConversationItem :=
  User (mkUser [TextPart t] (Some reason) None None).
Definition item_user_meta : text → ConversationItem := user_with CompactionMeta.
Definition item_system_reminder : text → ConversationItem := user_with SystemReminder.
Definition item_project_instructions : text → ConversationItem := user_with ProjectInstructions.

#[export] Instance ConversationItem_factory : CompactionItemFactory ConversationItem := {|
  new_user := user_text;
  new_user_meta := item_user_meta;
  new_project_instructions := item_project_instructions;
  new_system_reminder := item_system_reminder;
|}.

(** [CompactedHistoryInput] of the chat state, with the two fields of the state context
    that are read, and [summary_count] and [summary_before_recent], which are not. *)
Record CompactedHistoryInput := mkInput {
  in_system_message : ConversationItem;
  in_user_message_prefix : text;
  in_agents_md_reminder : option text;
  in_recent_messages : list ConversationItem;
  in_last_user_query : option text;
  in_compaction_summary : text;
  in_system_reminder : option text;
  in_summary_before_recent : bool;
  in_transcript_hint : option text;
  in_summary_count : Z;
}.

Definition summary_before_recent_carrier (input : CompactedHistoryInput) : option text := None.

Definition build_compacted_history (input : CompactedHistoryInput) : option (list ConversationItem) :=
  let carrier := summary_before_recent_carrier input in
  let summary_first := match carrier with Some _ => true | None => false end in
  summary_item ←
    match carrier with
    | Some c => Some (item_user_meta c)
    | None =>
        formatted_summary ← format_compact_summary_content (in_compaction_summary input);
        Some (item_user_meta (formatted_summary ++ default [] (in_transcript_hint input)))
    end;
  let compacted := [in_system_message input; item_user_meta (in_user_message_prefix input)] in
  let compacted := push_some item_project_instructions (in_agents_md_reminder input) compacted in
  let compacted := push_some (λ q, user_text (wrap_user_query q)) (in_last_user_query input) compacted in
  let compacted :=
    if summary_first then (compacted ++ [summary_item]) ++ in_recent_messages input
    else (compacted ++ in_recent_messages input) ++ [summary_item] in
  Some (push_some item_system_reminder (in_system_reminder input) compacted).
