(* ===== verification/CodeCompactionProps.v ===== *)
(** * Compaction: sampling a summary and replacing the history, theorems

    What the retry loop answers, in terms of the answers of the model; the history that
    a full replace leaves; and the agreement of the two assemblers. *)

From S2P Require Import Prelude Text TextProps Utf8 Conversation ToolPairing CompactionText CodeCompaction.

Open Scope Z_scope.

Lemma degenerate_total s : utf8_valid s = true → is_Some (is_degenerate_summary s).
Proof. intros (r & _ & Hf)%format_finish. unfold is_degenerate_summary. rewrite Hf. by eexists. Qed.

(** ** The retry loop *)

(** What one answer of the model means for the loop. *)
Inductive Verdict :=
| Usable (s : text)
| Weak
| Fatal (message : text) (context_overflow : bool)
| Passing (message : text).

Definition judge (answer : CompactionSampleError + LlmCompactionOutput) : Verdict :=
  match answer with
  | inr o =>
      if is_blank_text (response o) then Weak
      else if default true (is_degenerate_summary (response o)) then Weak else Usable (response o)
  | inl e =>
      let m := sample_error_text e in
      if is_context_length_error m then Fatal m true
      else if is_deterministic e then Fatal m false else Passing m
  end.

Definition retryable (v : Verdict) : Prop := v = Weak ∨ ∃ m, v = Passing m.

Definition is_pause (e : PassEvent) : bool := match e with Slept _ => true | _ => false end.

Section loop.
Context {W T : Type} `{!CompactionSampler W T}.
Context (turns : list T) (prompt : CompactionPrompt) (timeout : Z).

(** The world after [k] calls, and the answer to the call after them. *)
Fixpoint after_calls (k : nat) (w : W) : W :=
  match k with O => w | S k => after_calls k (sample_compaction w turns prompt timeout).1 end.

Definition answer_at (k : nat) (w : W) : CompactionSampleError + LlmCompactionOutput :=
  (sample_compaction (after_calls k w) turns prompt timeout).2.

(** Every text that the model answers is well formed. *)
Definition speaks_utf8 : Prop :=
  ∀ w o, (sample_compaction w turns prompt timeout).2 = inr o → utf8_valid (response o) = true.

(** The result after [k] calls of at most [n]. *)
Definition concludes (n k : Z) (v : Verdict) (r : SampleRetryError + SampledSummary) : Prop :=
  match v with
  | Usable s => r = inr (mkSampled s k)
  | Fatal m o => r = inl (RetryFailure m true o k)
  | Weak => k = n ∧ r = inl (RetryEmpty k)
  | Passing m => k = n ∧ r = inl (RetryFailure m false false k)
  end.

(** One round of the loop, by the verdict on its answer. *)
Lemma sample_step (Hutf : speaks_utf8) n delay remaining attempt w tr :
  ∃ o, let w1 := (sample_compaction w turns prompt timeout).1 in
  let tr1 := tr ++ [OnAttempt attempt o] in
  sample_from turns prompt n delay timeout (S remaining) attempt w tr =
    match judge (answer_at 0 w) with
    | Usable s => Some (w1, tr1, inr (mkSampled s attempt))
    | Fatal m c => Some (w1, tr1, inl (RetryFailure m true c attempt))
    | v =>
        if attempt <? n then
          sample_from turns prompt n delay timeout remaining (attempt + 1) w1 (tr1 ++ [Slept delay])
        else
          Some (w1, tr1, inl match v with Passing m => RetryFailure m false false attempt
                             | _ => RetryEmpty attempt end)
    end.
Proof using All.
  unfold answer_at. cbn [after_calls sample_from]. specialize (Hutf w).
  destruct (sample_compaction w turns prompt timeout) as [w1 [e|out]]; cbn [fst snd] in *.
  - cbn [judge]. destruct (is_context_length_error (sample_error_text e)), (is_deterministic e),
      (attempt <? n); by eexists.
  - cbn [judge]. destruct (is_blank_text (response out)); cbn [negb].
    { destruct (attempt <? n); by eexists. }
    destruct (degenerate_total (response out)) as [d Hd]; [by apply Hutf|].
    rewrite Hd. cbn [mbind option_bind default]. destruct d, (attempt <? n); by eexists.
Qed.

Lemma sample_from_exact (Hutf : speaks_utf8) n delay remaining attempt w tr :
  attempt + Z.of_nat remaining = n →
  ∃ k tr' r, sample_from turns prompt n delay timeout (S remaining) attempt w tr
      = Some (after_calls (S k) w, tr', r)
    ∧ (k <= remaining)%nat
    ∧ (∀ j, (j < k)%nat → retryable (judge (answer_at j w)))
    ∧ concludes n (attempt + Z.of_nat k) (judge (answer_at k w)) r
    ∧ length (filter_b is_pause tr') = (length (filter_b is_pause tr) + k)%nat.
Proof using All.
  revert attempt w tr. induction remaining as [|remaining IH]; intros attempt w tr Hn.
  - destruct (sample_step Hutf n delay 0 attempt w tr) as [o Ho]. cbn zeta in Ho. rewrite Ho. clear Ho.
    assert (attempt = n) as -> by lia. rewrite Z.ltb_irrefl.
    exists 0%nat, (tr ++ [OnAttempt n o]). unfold filter_b. rewrite List.filter_app. cbn.
    rewrite app_nil_r, Z.add_0_r, Nat.add_0_r.
    destruct (judge (answer_at 0 w)); eexists; (split_and!; [done|lia|intros; lia|done|done]).
  - destruct (sample_step Hutf n delay (S remaining) attempt w tr) as [o Ho]. cbn zeta in Ho. rewrite Ho.
    clear Ho. assert (attempt <? n = true) as -> by (apply Z.ltb_lt; lia).
    set (tr1 := tr ++ [OnAttempt attempt o]). set (w1 := (sample_compaction w turns prompt timeout).1).
    assert (length (filter_b is_pause tr1) = length (filter_b is_pause tr)) as Ht1.
    { unfold tr1, filter_b. rewrite List.filter_app. cbn. by rewrite app_nil_r. }
    assert (length (filter_b is_pause (tr1 ++ [Slept delay])) = S (length (filter_b is_pause tr))) as Ht2.
    { unfold filter_b in *. rewrite List.filter_app, length_app. cbn. lia. }
    destruct (IH (attempt + 1) w1 (tr1 ++ [Slept delay])) as (k & tr' & r & Hr & Hk & Hj & Hc & Hp); [lia|].
    assert (retryable (judge (answer_at 0 w)) →
      ∃ k tr' r, sample_from turns prompt n delay timeout (S remaining) (attempt + 1) w1 (tr1 ++ [Slept delay])
        = Some (after_calls (S k) w, tr', r)
        ∧ (k <= S remaining)%nat ∧ (∀ j, (j < k)%nat → retryable (judge (answer_at j w)))
        ∧ concludes n (attempt + Z.of_nat k) (judge (answer_at k w)) r
        ∧ length (filter_b is_pause tr') = (length (filter_b is_pause tr) + k)%nat) as Hgo.
    { intros H0. exists (S k), tr', r. split_and!; [done|lia| | |lia].
      - intros [|j] Hlt; [done|]. apply (Hj j). lia.
      - by replace (attempt + Z.of_nat (S k)) with (attempt + 1 + Z.of_nat k) by lia. }
    destruct (judge (answer_at 0 w)) eqn:Hv; try (apply Hgo; unfold retryable; eauto).
    all: exists 0%nat, tr1; eexists; rewrite Z.add_0_r, Nat.add_0_r; cbn; rewrite Hv.
    all: split_and!; [done|lia|intros; lia|done|done].
Qed.

End loop.

(** The retry loop asks the model at least once and at most [max_attempts] times, with a
    pause between two calls.  Every call but the last was answered by something worth a
    retry: nothing usable, or a passing failure.  The last answer decides: a usable
    summary is the result as it was written, with the number of calls; a failure that
    another call cannot help is reported at once; anything else is reported only when the
    attempts are used up. *)
Theorem retries_exact {W T} `{!CompactionSampler W T} (w : W) (turns : list T)
    (prompt : CompactionPrompt) (max_attempts delay timeout : Z) :
  speaks_utf8 (W := W) turns prompt timeout →
  let n := Z.max max_attempts 1 in
  ∃ k tr r, sample_summary_with_retries w turns prompt max_attempts delay timeout
      = Some (after_calls turns prompt timeout (S k) w, tr, r)
    ∧ 1 <= Z.of_nat (S k) <= n
    ∧ (∀ j, (j < k)%nat → retryable (judge (answer_at turns prompt timeout j w)))
    ∧ concludes n (Z.of_nat (S k)) (judge (answer_at turns prompt timeout k w)) r
    ∧ length (filter_b is_pause tr) = k.
Proof.
  intros Hutf n. unfold sample_summary_with_retries. fold n.
  replace (Z.to_nat n) with (S (Z.to_nat n - 1)) by lia.
  destruct (sample_from_exact turns prompt timeout Hutf n delay (Z.to_nat n - 1) 1 w [])
    as (k & tr & r & Hr & Hk & Hj & Hc & Hp); [lia|].
  exists k, tr, r. split_and!; [done|lia|lia|done| |done].
  by replace (Z.of_nat (S k)) with (1 + Z.of_nat k) by lia.
Qed.

(** ** Full replace *)

(** The compacted history around a seed: system prompt, user prefix, project
    instructions, last query, recent messages, summary, reminder. *)
Definition compacted {T} `{!CompactionItemFactory T} (parts : CompactedHistoryParts T) (seed : text) : list T :=
  [system_message parts; new_user_meta (user_message_prefix parts)]
  ++ option_list (new_project_instructions <$> agents_md_reminder parts)
  ++ option_list ((λ q, new_user (wrap_user_query q)) <$> last_user_query parts)
  ++ recent_messages parts
  ++ [new_user_meta (CONTINUATION ++ seed ++ default [] (transcript_hint parts))]
  ++ option_list (new_system_reminder <$> system_reminder parts).

Lemma push_some_list {A T} (f : A → T) o l : push_some f o l = l ++ option_list (f <$> o).
Proof. destruct o; [done|]. by rewrite app_nil_r. Qed.

Lemma assemble_compacted {T} `{!CompactionItemFactory T} (parts : CompactedHistoryParts T) :
  assemble_compacted_history parts = compacted parts <$> format_compact_summary (compaction_summary parts).
Proof.
  unfold assemble_compacted_history, format_compact_summary_content, compacted.
  destruct (format_compact_summary _) as [seed|]; [|done]. cbn [mbind option_bind fmap option_map option_fmap].
  rewrite !push_some_list, <- !app_assoc. done.
Qed.

Lemma usable_seed a s :
  judge a = Usable s →
  ∃ o, a = inr o ∧ response o = s ∧ (utf8_valid s = true → ∃ r, utf8_valid r = true
    ∧ format_compact_summary s = Some (finish r) ∧ (500 <= length (chars (finish r)))%nat).
Proof.
  destruct a as [e|o]; cbn [judge].
  { destruct (is_context_length_error _), (is_deterministic e); done. }
  destruct (is_blank_text (response o)); [done|].
  destruct (default true (is_degenerate_summary (response o))) eqn:Hd; [done|].
  intros [= <-]. exists o. split_and!; [done..|]. intros (r & Hr & Hf)%format_finish. exists r.
  split_and!; [done..|]. unfold is_degenerate_summary in Hd. rewrite Hf in Hd.
  cbn [mbind option_bind default] in Hd. apply Nat.ltb_ge in Hd. exact Hd.
Qed.

(** A full replace never panics and reports exactly what the last answer of the model
    means.  On success the new history is the system prompt, the user prefix, the project
    instructions, the last query in its tags, the recent messages, the continuation text
    with the cleaned summary and the reminder, in this order and nothing else; the cleaned
    summary has at least 500 characters and no live control token. *)
Theorem full_replace_exact {W T} `{!CompactionSampler W T} `{!CompactionItemFactory T}
    (template : text) (w : W) (llm_turns : list T) (user_context : option text)
    (ctx : FullReplaceContext T) (config : FullReplaceConfig) :
  let prompt := mkPrompt [] (build_summary_prompt template user_context) in
  let timeout := sampling_timeout_secs config in
  llm_turns ≠ [] → speaks_utf8 (W := W) llm_turns prompt timeout →
  ∃ k tr r, apply_full_replace_compaction template w llm_turns user_context ctx config
      = Some (after_calls llm_turns prompt timeout (S k) w, tr, r)
    ∧ Z.of_nat (S k) <= Z.max (max_attempts config) 1
    ∧ match judge (answer_at llm_turns prompt timeout k w) with
      | Usable s =>
          ∃ seed, format_compact_summary s = Some seed ∧ (500 <= length (chars seed))%nat ∧ inert seed
            ∧ r = inr (mkFullReplaceOutput (compacted (parts_of ctx s) seed) s (Z.of_nat (S k)))
      | Weak => r = inl FullReplaceEmptyResponse
      | Fatal m overflow => r = inl (FullReplaceSampler m true overflow)
      | Passing m => r = inl (FullReplaceSampler m false false)
      end.
Proof.
  intros prompt timeout Hne Hutf. unfold apply_full_replace_compaction, sample_full_replace_summary.
  rewrite decide_False by done. fold prompt timeout. unfold sample_summary_with_retries.
  set (n := Z.max (max_attempts config) 1).
  replace (Z.to_nat n) with (S (Z.to_nat n - 1)) by lia.
  destruct (sample_from_exact llm_turns prompt timeout Hutf n (retry_delay_secs config)
    (Z.to_nat n - 1) 1 w []) as (k & tr & r & -> & Hk & _ & Hc & _); [lia|].
  cbn [mbind option_bind]. replace (1 + Z.of_nat k) with (Z.of_nat (S k)) in Hc by lia.
  set (a := answer_at llm_turns prompt timeout k w) in *. destruct (judge a) as [s| |m o|m] eqn:Hj; cbn in Hc.
  - rewrite Hc. destruct (usable_seed a s Hj) as (o & Ha & Ho & Hs).
    destruct Hs as (c & Hv & Hf & Hl). { rewrite <- Ho. by eapply Hutf. }
    cbn [mbind option_bind]. rewrite assemble_compacted. cbn [compaction_summary parts_of summary].
    rewrite Hf. cbn [fmap option_map option_fmap mbind option_bind attempts].
    exists k. do 2 eexists. split_and!; [done|lia|]. fold a. rewrite Hj. exists (finish c). split_and!; [done..| |done].
    intros t Ht. by apply finish_inert.
  - destruct Hc as [_ ->]. cbn [mbind option_bind]. exists k. do 2 eexists. fold a. rewrite Hj. by split_and!; [|lia|].
  - rewrite Hc. cbn [mbind option_bind]. exists k. do 2 eexists. fold a. rewrite Hj. by split_and!; [|lia|].
  - destruct Hc as [_ ->]. cbn [mbind option_bind]. exists k. do 2 eexists. fold a. rewrite Hj. by split_and!; [|lia|].
Qed.

(** ** The two assemblers *)

Definition input_parts (input : CompactedHistoryInput) : CompactedHistoryParts ConversationItem :=
  mkParts (in_system_message input) (in_user_message_prefix input) (in_agents_md_reminder input)
    (in_last_user_query input) (in_recent_messages input) (in_compaction_summary input)
    (in_system_reminder input) (in_transcript_hint input).

Definition carries_no_call (i : ConversationItem) : bool :=
  match i with Assistant _ | ToolResult _ => false | _ => true end.

Lemma validate_skip l acc : forallb carries_no_call l = true → foldl validate_step acc l = acc.
Proof.
  revert acc. induction l as [|i l IH]; intros acc; cbn [forallb foldl]; [done|].
  intros [Hi Hl]%andb_prop. destruct acc as [seen inv]. rewrite IH by done. by destruct i.
Qed.

(** The chat state assembles the same history as the shared assembler, whatever its flag
    on the order and its counter say, and the history holds a tool result without its
    call exactly when the recent messages do. *)
Theorem assemblers_agree (input : CompactedHistoryInput) :
  build_compacted_history input = assemble_compacted_history (input_parts input)
  ∧ ∀ h, build_compacted_history input = Some h → carries_no_call (in_system_message input) = true →
      validate_compacted_history h = validate_compacted_history (in_recent_messages input).
Proof.
  assert (build_compacted_history input = assemble_compacted_history (input_parts input)) as Heq.
  { unfold build_compacted_history, assemble_compacted_history, summary_before_recent_carrier, input_parts.
    cbn [compaction_summary]. by destruct (format_compact_summary_content _). }
  split; [done|]. intros h. rewrite Heq, assemble_compacted.
  destruct (format_compact_summary _) as [seed|]; [|done]. intros [= <-] Hs.
  unfold validate_compacted_history, compacted, input_parts. cbn [system_message user_message_prefix
    agents_md_reminder last_user_query recent_messages transcript_hint system_reminder].
  rewrite !foldl_app.
  rewrite (validate_skip [_; _]) by (unfold forallb; by rewrite Hs).
  rewrite (validate_skip (option_list (_ <$> in_agents_md_reminder input))) by by destruct (in_agents_md_reminder input).
  rewrite (validate_skip (option_list (_ <$> in_last_user_query input))) by by destruct (in_last_user_query input).
  rewrite (validate_skip (option_list (_ <$> in_system_reminder input))) by by destruct (in_system_reminder input).
  by rewrite (validate_skip [_]).
Qed.

(** ** Witnesses *)

(** A model that first runs out of time, then says nothing, then answers [summary]. *)
#[local] Instance demo_sampler : CompactionSampler nat ConversationItem :=
  λ w _ _ _, (S w, match w with
                   | 0%nat => inl (SampleTimeout 5 0)
                   | 1%nat => inr (mkOutput [LF] [])
                   | _ => inr (mkOutput (txt "<summary>1. Goal: " ++ replicate 600 "x"%char ++ txt "</summary>") [])
                   end).

Lemma demo_speaks turns prompt timeout : speaks_utf8 (W := nat) turns prompt timeout.
Proof. intros [|[|w]] o; cbn; intros [= <-]; by vm_compute. Defined.

Lemma retries_exact_witness :
  speaks_utf8 (W := nat) [user_text (txt "hi")] (mkPrompt [] []) 120 ∧
  ∃ k tr r, sample_summary_with_retries 0%nat [user_text (txt "hi")] (mkPrompt [] []) 3 3 120
      = Some (after_calls [user_text (txt "hi")] (mkPrompt [] []) 120 (S k) 0%nat, tr, r)
    ∧ length (filter_b is_pause tr) = k.
Proof.
  split; [apply demo_speaks|].
  destruct (retries_exact 0%nat [user_text (txt "hi")] (mkPrompt [] []) 3 3 120) as (k & tr & r & H1 & _ & _ & _ & H2).
  { apply demo_speaks. }
  exists k, tr, r. split; [exact H1|exact H2].
Defined.

Definition demo_context : FullReplaceContext ConversationItem :=
  mkFullReplaceContext (System (txt "system")) (txt "info") None (Some (txt "fix it")) [] None None.

Lemma full_replace_exact_witness :
  [user_text (txt "hi")] ≠ [] ∧
  ∃ k tr r, apply_full_replace_compaction (txt "Summarize.") 0%nat [user_text (txt "hi")] None demo_context
      default_full_replace_config
    = Some (after_calls [user_text (txt "hi")] (mkPrompt [] (txt "Summarize.")) 120 (S k) 0%nat, tr, r).
Proof.
  split; [done|].
  destruct (full_replace_exact (txt "Summarize.") 0%nat [user_text (txt "hi")] None demo_context
    default_full_replace_config) as (k & tr & r & H1 & _); [done|apply demo_speaks|].
  exists k, tr, r. exact H1.
Defined.

(** The third answer is kept; two pauses were made. *)
Example demo_result :
  match apply_full_replace_compaction (txt "Summarize.") 0%nat [user_text (txt "hi")] None demo_context
      default_full_replace_config with
  | Some (w, tr, inr out) => w = 3%nat ∧ out_attempts out = 3 ∧ length (out_history out) = 4%nat
      ∧ length tr = 6%nat
  | _ => False
  end.
Proof. by vm_compute. Qed.

Lemma assemblers_agree_witness :
  build_compacted_history (mkInput (System []) [] None [] None [] None true None 1) =
    assemble_compacted_history (mkParts (System []) [] None None [] [] None None).
Proof. apply (assemblers_agree (mkInput (System []) [] None [] None [] None true None 1)). Defined.
