(* ===== verification/CompactionHistory.v ===== *)
(** * Compaction: histories and user queries

    [ds-compaction/src/history/{filter,validate,types}.rs], [reminder.rs] and
    [inter_compaction/compact.rs]: which items the model is shown, the block of user
    queries that is carried from one compaction to the next, the reminder of running
    work, and the pipeline that compacts a history chunk by chunk.

    The cuts of [split_prior_compaction_text] are at the ends of ASCII tags, so that its
    slices are [take] and [drop]. *)

From S2P Require Import Prelude Text CompactionSelect CodeCompaction.

Open Scope nat_scope.

(** ** item.rs: the constructive part *)

Class CompactionItemBuilder (T : Type) := {
  builder_item :: CompactionItem T;
  compaction_summary_item : text → T;
  strip_tool_content : T → option T;
}.

(** ** filter.rs *)

Section filter.
Context {T : Type} `{!CompactionItemBuilder T}.

Definition keep_turn_for_basic_compaction (turn : T) : bool :=
  match role turn with
  | RoleSystem => false
  | RoleDeveloper => is_compaction_summary turn
  | _ => true
  end.

Definition filter_turns_for_basic (turns : list T) : list T :=
  filter_b keep_turn_for_basic_compaction turns.

Definition inter_turn (turn : T) : option T :=
  match role turn with
  | RoleTool | RoleSystem => None
  | RoleDeveloper => if is_compaction_summary turn then Some turn else None
  | RoleUser => Some turn
  | RoleAssistant => strip_tool_content turn
  end.

Definition filter_turns_for_inter_compaction (turns : list T) : list T := omap inter_turn turns.
End filter.

Definition QUERIES : text := txt "<ds_user_queries>".
Definition QUERIES_END : text := txt "</ds_user_queries>".

(** A further part of the rest. *)
Definition push_rest (rest part : text) : text :=
  if decide (part = []) then rest else if decide (rest = []) then part else rest ++ [LF] ++ part.

(** The loop, on the text from the cursor on; each round makes it shorter. *)
Fixpoint split_blocks (fuel : nat) (t : text) (user_sections : list text) (rest : text)
    : list text * text :=
  match find_text QUERIES t with
  | None => (user_sections, push_rest rest (trim t))
  | Some start =>
      match find_text QUERIES_END (drop start t) with
      | None => (user_sections, push_rest rest (trim t))
      | Some end_ =>
          let rest := push_rest rest (trim (take start t)) in
          let user_sections := user_sections ++ [take (end_ + length QUERIES_END) (drop start t)] in
          match fuel with
          | 0 => (user_sections, rest)
          | S fuel => split_blocks fuel (drop (start + end_ + length QUERIES_END) t) user_sections rest
          end
      end
  end.

Definition split_prior_compaction_text (t : text) : option text * text :=
  let '(user_sections, rest) := split_blocks (length t) t [] [] in
  if decide (user_sections = []) then (None, t) else (Some (join_with [LF] user_sections), rest).

Definition TRUNCATED : text := txt "...[truncated]...".

(** [truncate_middle] of this crate. *)
Definition truncate_query (msg : text) (max_chars : nat) : option text :=
  let char_count := length (chars msg) in
  if char_count <=? max_chars then None
  else
    let front_len := max_chars / 2 in
    let back_len := max_chars - front_len in
    let front := concat (take front_len (chars msg)) in
    let back := concat (drop (char_count - back_len) (chars msg)) in
    Some (front ++ TRUNCATED ++ back).

Definition file_line (att : CompactionFileRef) : text :=
  txt "<ds_file id=" ++ quoted (ref_id att) ++ txt " name=" ++ quoted (ref_name att) ++ txt " />" ++ [LF].

Section queries.
Context {T : Type} `{!CompactionItemBuilder T}.

(** What one item adds to the block. *)
Definition query_of (threshold : nat) (turn : T) : option text :=
  match role turn with
  | RoleUser =>
      let t := default [] (item_text turn) in
      let attachments := attachment_refs turn in
      if bool_decide (t = []) && bool_decide (length attachments = 0) then None
      else
        Some (txt "<ds_query>" ++ default t (truncate_query t threshold)
              ++ (if decide (length attachments = 0) then []
                  else [LF] ++ concat (file_line <$> attachments))
              ++ txt "</ds_query>" ++ [LF])
  | _ => None
  end.

Definition extract_user_queries_from_turns (turns : list T) (user_truncate_chars : nat) : option text :=
  match omap (query_of user_truncate_chars) turns with
  | [] => None
  | qs => Some (QUERIES ++ [LF] ++ concat qs ++ QUERIES_END)
  end.

Record SeparatedHistoryTurns := mkSeparated {
  turns_for_llm : list T;
  prior_user_queries : option text;
  has_prior_compaction : bool;
}.

Definition separate_step (acc : SeparatedHistoryTurns) (turn : T) : SeparatedHistoryTurns :=
  if is_compaction_summary turn then
    let content := default [] (item_text turn) in
    let '(user_section, rest) := split_prior_compaction_text content in
    let prior :=
      match user_section with
      | Some user_sec =>
          Some match prior_user_queries acc with
               | Some existing => existing ++ [LF] ++ user_sec
               | None => user_sec
               end
      | None => prior_user_queries acc
      end in
    mkSeparated
      (if decide (rest = []) then turns_for_llm acc
       else turns_for_llm acc ++ [compaction_summary_item rest])
      prior true
  else mkSeparated (turns_for_llm acc ++ [turn]) (prior_user_queries acc) (has_prior_compaction acc).

Definition separate_prior_user_queries (turns : list T) : SeparatedHistoryTurns :=
  foldl separate_step (mkSeparated [] None false) turns.

Definition extract_prior_user_queries (turns : list T) : option text :=
  prior_user_queries (separate_prior_user_queries turns).

Definition assemble_user_queries_preamble (prior current : option text) : text :=
  default [] ((λ p, p ++ [LF; LF]) <$> prior) ++ default [] ((λ c, c ++ [LF; LF]) <$> current).

Definition build_user_queries_preamble (turns : list T) (current : option text) : text :=
  assemble_user_queries_preamble (extract_prior_user_queries turns) current.
End queries.
#[global] Arguments SeparatedHistoryTurns T : clear implicits.

Definition wrap_chunk_analysis (index : nat) (thinking : text) : text :=
  let trimmed := trim thinking in
  if decide (trimmed = []) then []
  else txt "<chunk_analysis index=" ++ quoted (show_Z (Z.of_nat index)) ++ txt ">" ++ [LF] ++ trimmed
       ++ [LF] ++ txt "</chunk_analysis>" ++ [LF; LF].

(** ** types.rs, validate.rs *)

Inductive CompactionStrategy := Basic | DivideAndConquer | StrategyFullReplace.

Definition strategy_label (s : CompactionStrategy) : text :=
  match s with
  | Basic => txt "basic"
  | DivideAndConquer => txt "divide_and_conquer"
  | StrategyFullReplace => txt "full_replace"
  end.

Inductive CompactionValidationError :=
| EmptyContent
| UnbalancedChunkTags (open_ close : nat).

(** [None] accepts. *)
Definition validate_compaction_text (text_content : text) (strategy : CompactionStrategy)
    : option CompactionValidationError :=
  if is_blank_text text_content then Some EmptyContent
  else
    match strategy with
    | DivideAndConquer =>
        let open_count := length (match_indices (txt "<chunk_summary") text_content) in
        let close_count := length (match_indices (txt "</chunk_summary>") text_content) in
        if negb (open_count =? close_count) then Some (UnbalancedChunkTags open_count close_count) else None
    | _ => None
    end.

(** ** reminder.rs *)

Record SubagentToolNames := mkToolNames { poll : text; cancel : text }.

Inductive TodoStatus := TodoPending | TodoInProgress | TodoCompleted | TodoCancelled.
#[export] Instance TodoStatus_eq_dec : EqDecision TodoStatus.
Proof. solve_decision. Defined.

Definition is_actionable (s : TodoStatus) : bool :=
  match s with TodoPending | TodoInProgress => true | _ => false end.

Definition todo_tag (s : TodoStatus) : text :=
  txt match s with
      | TodoPending => "[pending]"
      | TodoInProgress => "[in_progress]"
      | TodoCompleted => "[completed]"
      | TodoCancelled => "[cancelled]"
      end.

Record TodoItem := mkTodo { todo_id : text; todo_content : text; todo_status : TodoStatus }.

Record BackgroundTask := mkTask {
  task_id : text;
  command : text;
  task_status : text;
  tool_name : option text;
}.

Record RunningSubagent := mkSubagent {
  subagent_id : text;
  subagent_type : option text;
  description : option text;
  elapsed_secs : Z;
}.

Record ActiveAgentReminderState := mkReminderState {
  running_commands : list BackgroundTask;
  todos : list TodoItem;
  running_subagents : list RunningSubagent;
}.

Definition has_actionable_todos (st : ActiveAgentReminderState) : bool :=
  any_b (λ t, is_actionable (todo_status t)) (todos st).

Definition reminder_state_is_empty (st : ActiveAgentReminderState) : bool :=
  bool_decide (length (running_commands st) = 0) && bool_decide (length (running_subagents st) = 0)
  && negb (has_actionable_todos st).

Definition task_line (t : BackgroundTask) : text :=
  txt "- " ++ quoted (task_id t) ++ txt ": `" ++ command t ++ txt "` (" ++ task_status t
  ++ match tool_name t with Some tool => txt ", " ++ tool | None => [] end ++ txt ")".

Definition section_background_tasks (tasks : list BackgroundTask) : option text :=
  if decide (length tasks = 0) then None
  else Some (txtln "## Running Background Tasks" ++ txtln "These tasks are still running:"
             ++ join_with [LF] (task_line <$> tasks)).

Definition section_todo_list (todos : list TodoItem) : option text :=
  let active :=
    (λ t, txt "- " ++ todo_tag (todo_status t) ++ txt " " ++ todo_id t ++ txt ": " ++ todo_content t)
      <$> filter_b (λ t, is_actionable (todo_status t)) todos in
  if decide (length active = 0) then None
  else
    let completed := length (filter_b (λ t, bool_decide (todo_status t = TodoCompleted)) todos) in
    let cancelled := length (filter_b (λ t, bool_decide (todo_status t = TodoCancelled)) todos) in
    let show n := show_Z (Z.of_nat n) in
    let trailer :=
      match completed, cancelled with
      | 0, 0 => []
      | c, 0 => [LF] ++ txt "(" ++ show c ++ txt " completed)"
      | 0, k => [LF] ++ txt "(" ++ show k ++ txt " cancelled)"
      | c, k => [LF] ++ txt "(" ++ show c ++ txt " completed, " ++ show k ++ txt " cancelled)"
      end in
    Some (txtln "## TODO List"
          ++ txtln "This is your task list from before the conversation was compacted — it is still active. Keep working through the items below and update their status as you make progress:"
          ++ join_with [LF] active ++ trailer).

Definition format_subagent_line (s : RunningSubagent) : text :=
  let head := txt "subagent_id: `" ++ subagent_id s ++ txt "`" in
  let head := match subagent_type s with Some ty => head ++ txt ", type: `" ++ ty ++ txt "`" | None => head end in
  let head := match description s with Some desc => head ++ txt ", task: " ++ quoted desc | None => head end in
  txt "- " ++ head ++ txt " (running for " ++ show_Z (elapsed_secs s) ++ txt "s)".

Definition section_running_subagents (subagents : list RunningSubagent) (tools : SubagentToolNames)
    : option text :=
  if decide (length subagents = 0) then None
  else
    Some (txtln "## Running Subagents"
          ++ txt "These subagents were launched before this compaction and are still running. Use `"
          ++ poll tools ++ txt "` with the subagent_id to check their status or retrieve results. Use `"
          ++ cancel tools ++ txtln "` with the subagent_id to cancel a subagent."
          ++ join_with [LF] (format_subagent_line <$> subagents)).

Definition format_active_agent_sections (state : ActiveAgentReminderState)
    (subagent_tools : option SubagentToolNames) : list text :=
  option_list (section_background_tasks (running_commands state))
  ++ option_list (section_todo_list (todos state))
  ++ option_list (subagent_tools ≫= section_running_subagents (running_subagents state)).

Definition wrap_system_reminder (sections : list text) : option text :=
  let body :=
    foldl (λ body s,
      if is_blank_text s then body
      else (if decide (body = []) then body else body ++ [LF; LF]) ++ s) [] sections in
  if decide (body = []) then None
  else Some (txtln "<system-reminder>" ++ body ++ [LF] ++ txt "</system-reminder>").

Definition format_active_agent_reminder (state : ActiveAgentReminderState)
    (subagent_tools : option SubagentToolNames) : option text :=
  wrap_system_reminder (format_active_agent_sections state subagent_tools).

Definition append_reminder_block (summary : text) (reminder : option text) : text :=
  match reminder with
  | Some r => if negb (is_blank_text r) then summary ++ [LF; LF] ++ r else summary
  | None => summary
  end.
