(* ===== verification/CompactionPasses.v ===== *)
(** * Compaction: the passes of the chat host

    [ds-compaction/src/intra_compaction/{config,traits,trigger,compact}.rs] and
    [inter_compaction/{config,compact}.rs].

    The host's stream processor is a class over its state [P]; the sampler is threaded
    as in [CodeCompaction].  What the observers are told is a trace.  The elapsed time of
    a result is not modelled.  Errors are on the left of a sum; a panic is [None].
    [f64] values are the Standard Library's [spec_float], as in [Breaker]. *)

From Stdlib Require Import SpecFloat.
From S2P Require Import Prelude Text Breaker CompactionSelect CompactionText CodeCompaction CompactionHistory.

Open Scope Z_scope.

(** ** [f64] *)

Definition f64_of_Z (n : Z) : spec_float := binary_normalize f64_prec f64_emax n 0 false.
Definition f64_mul (a b : spec_float) : spec_float := SFmul f64_prec f64_emax a b.

(** [x as uN], [max] the largest value of the type. *)
Definition f64_as_uint (max : Z) (x : spec_float) : Z :=
  match x with
  | S754_infinity false => max
  | S754_finite false m e =>
      Z.min max (if 0 <=? e then Zpos m * 2 ^ e else Zpos m / 2 ^ (- e))
  | _ => 0
  end.

(** [x.ceil() as uN]. *)
Definition f64_ceil_as_uint (max : Z) (x : spec_float) : Z :=
  match x with
  | S754_infinity false => max
  | S754_finite false m e =>
      Z.min max (if 0 <=? e then Zpos m * 2 ^ e else - (- Zpos m / 2 ^ (- e)))
  | _ => 0
  end.

(** ** intra_compaction/config.rs *)

Inductive IntraCompactionMode := FullReplace | StepsOnly | HistoryOnly | HistoryThenSteps.
#[export] Instance IntraCompactionMode_eq_dec : EqDecision IntraCompactionMode.
Proof. solve_decision. Defined.

Inductive IntraSummarizer := Shared | Legacy.

Record IntraCompactionConfig := mkIntraConfig {
  enabled : bool;
  mode : IntraCompactionMode;
  trigger_threshold_percent : Z;
  min_steps_before_compact : Z;
  min_compactable_tokens : Z;
  max_reduction_ratio : spec_float;
  compaction_model_name : option text;
  intra_sampling_timeout_secs : Z;
  intra_max_attempts : Z;
  intra_retry_delay_secs : Z;
  compaction_version : text;
  summarizer : IntraSummarizer;
  target_threshold_percent : Z;
  steps_trigger_ratio : spec_float;
  user_message_truncate_chars : nat;
}.

Definition DEFAULT_COMPACTION_MODEL_NAME : text := txt "deepseek-v4-pro.20".

Definition effective_compaction_model_name (c : IntraCompactionConfig) : text :=
  match trim <$> compaction_model_name c with
  | Some s => if decide (s = []) then DEFAULT_COMPACTION_MODEL_NAME else s
  | None => DEFAULT_COMPACTION_MODEL_NAME
  end.

Definition default_intra_config : IntraCompactionConfig :=
  mkIntraConfig false FullReplace 85 3 5000 (f64_div (f64_of_Z 8) (f64_of_Z 10))
    (Some DEFAULT_COMPACTION_MODEL_NAME) 120 2 3 (txt "intra-v1") Shared 50
    (f64_div (f64_of_Z 3) (f64_of_Z 10)) (Z.to_nat 3000).

(** ** traits.rs, trigger.rs *)

Inductive CompactionTarget := TargetSteps | TargetHistory | TargetFullReplace.

Definition target_label (t : CompactionTarget) : text :=
  match t with
  | TargetSteps => txt "steps"
  | TargetHistory => txt "history"
  | TargetFullReplace => txt "full_replace"
  end.

Record IntraCompactionTrigger := mkTrigger {
  last_prompt_tokens : Z;
  context_window : Z;
  percent : Z;
  step : Z;
}.

Record IntraCompactionResult := mkIntraResult {
  tokens_before : Z;
  tokens_after : Z;
  turns_compacted : Z;
  intra_summary : text;
}.

Inductive IntraCompactionError :=
| NothingToCompact
| IntraTimeout
| IntraEmptyResponse
| InsufficientReduction (tokens_before tokens_after : Z)
| InvalidSplit (requested available : nat)
| Unsupported
| SamplerBuild (m : text)
| SamplerStart (m : text)
| SamplerStream (m : text)
| Apply (m : text).

Class CompactionStreamProc (P T : Type) := {
  get_accumulated_turns_for_compaction : P → list T;
  get_history_turns_for_compaction : P → list T;
  replace_with_compaction : P → CompactionTarget → nat → T → P * option IntraCompactionError;
}.

(** The default method. *)
Definition get_all_turns_for_compaction {P T} `{!CompactionStreamProc P T} (s : P) : list T :=
  get_history_turns_for_compaction s ++ get_accumulated_turns_for_compaction s.

(** [context_window as u64 * percent as u64 / 100] as [u32]. *)
Definition percent_of (window percent : Z) : Z := (window * percent / 100) mod 2 ^ 32.

Definition should_compact (policy : IntraCompactionConfig) (last_prompt_tokens context_window current_step : Z)
    : option IntraCompactionTrigger :=
  if negb (enabled policy) then None
  else if context_window =? 0 then None
  else if negb (bool_decide (mode policy = FullReplace)) && (current_step <? min_steps_before_compact policy)
  then None
  else
    let threshold := percent_of context_window (trigger_threshold_percent policy) in
    if last_prompt_tokens <=? threshold then None
    else
      let percent := Z.min (last_prompt_tokens * 100 / context_window) 100 in
      Some (mkTrigger last_prompt_tokens context_window percent current_step).

(** ** intra_compaction/compact.rs *)

Inductive IntraEvent :=
| OnIntraSuccess (target : CompactionTarget) (before after turns : Z)
| OnIntraError (status : text).

Definition error_status_label (e : IntraCompactionError) : text :=
  txt match e with
      | NothingToCompact => "nothing_to_compact"
      | IntraTimeout => "timeout"
      | IntraEmptyResponse => "empty_response"
      | InsufficientReduction _ _ => "insufficient_reduction"
      | InvalidSplit _ _ => "invalid_split"
      | Unsupported => "unsupported"
      | SamplerBuild _ => "sampler_build"
      | SamplerStart _ => "sampler_start"
      | SamplerStream _ => "sampler_stream"
      | Apply _ => "apply"
      end.

Definition compaction_sample_error_to_intra (e : CompactionSampleError) : IntraCompactionError :=
  match e with
  | SampleTimeout _ _ => IntraTimeout
  | SampleBuild msg => SamplerBuild msg
  | SampleStart msg => SamplerStart msg
  | SampleEmptyResponse => IntraEmptyResponse
  | SampleOther msg =>
      if contains msg (txt "Failed to build") then SamplerBuild msg
      else if contains msg (txt "Failed to start") then SamplerStart msg
      else if contains msg (txt "no response channel content") then IntraEmptyResponse
      else SamplerStream msg
  end.

Definition is_transient (e : IntraCompactionError) : bool :=
  match e with IntraTimeout | IntraEmptyResponse | SamplerStream _ | SamplerStart _ => true | _ => false end.

Section intra.
Context {P W T : Type} `{!CompactionStreamProc P T} `{!CompactionSampler W T} `{!CompactionItemBuilder T}.
Context (count_item_tokens : T → Z).
(** The prompts: of the steps, of the history, and the template of the full replace. *)
Context (steps_prompt history_prompt : CompactionPrompt) (template : text).

(** What a pass leaves: the processor, the sampler and the trace. *)
Definition outcome : Type := P * W * list IntraEvent * (IntraCompactionError + IntraCompactionResult).

(** The loop of [sample_compaction_with_retries], with [remaining] attempts left. *)
Fixpoint legacy_from (turns : list T) (prompt : CompactionPrompt) (timeout : Z) (remaining : nat)
    (last_err : option IntraCompactionError) (w : W) : W * (IntraCompactionError + text) :=
  match remaining with
  | O => (w, inl (default IntraEmptyResponse last_err))
  | S remaining =>
      let '(w, answer) := sample_compaction w turns prompt timeout in
      match answer with
      | inr output => (w, inr (response output))
      | inl e =>
          let intra_err := compaction_sample_error_to_intra e in
          if is_transient intra_err && (0 <? remaining)%nat then
            legacy_from turns prompt timeout remaining (Some intra_err) w
          else (w, inl intra_err)
      end
  end.

Definition sample_compaction_with_retries (w : W) (turns : list T) (prompt : CompactionPrompt)
    (timeout : Z) (policy : IntraCompactionConfig) : W * (IntraCompactionError + text) :=
  legacy_from turns prompt timeout (Z.to_nat (Z.max (intra_max_attempts policy) 1)) None w.

Definition sample_shared_summary_with_retries (w : W) (turns : list T) (policy : IntraCompactionConfig)
    : option (W * (IntraCompactionError + text)) :=
  let prompt := mkPrompt [] (build_summary_prompt template None) in
  '(w, _, r) ← sample_summary_with_retries w turns prompt (intra_max_attempts policy)
                 (intra_retry_delay_secs policy) (intra_sampling_timeout_secs policy);
  match r with
  | inr s => cleaned ← format_compact_summary (CodeCompaction.summary s); Some (w, inr cleaned)
  | inl (RetryEmpty _) => Some (w, inl IntraEmptyResponse)
  | inl (RetryFailure message deterministic _ _) =>
      Some (w, inl (if deterministic : bool then SamplerBuild message else SamplerStream message))
  end.

(** The guard: the largest summary that is worth committing. *)
Definition reduction_limit (before : Z) (policy : IntraCompactionConfig) : Z :=
  f64_as_uint u32_max (f64_mul (f64_of_Z before) (max_reduction_ratio policy)).

Definition insufficient (before after : Z) (policy : IntraCompactionConfig) : bool :=
  (0 <? before) && (reduction_limit before policy <? after).

(** The last steps of both kinds of pass: the carrier, the guard and the commit. *)
Definition commit_pass (s : P) (w : W) (policy : IntraCompactionConfig) (target : CompactionTarget)
    (before : Z) (n : nat) (final_summary_text : text) : outcome :=
  let compaction_turn := compaction_summary_item final_summary_text in
  let after := count_item_tokens compaction_turn in
  if insufficient before after policy then (s, w, [], inl (InsufficientReduction before after))
  else
    let '(s, r) := replace_with_compaction s target n compaction_turn in
    match r with
    | Some e => (s, w, [], inl e)
    | None =>
        let turns := Z.of_nat n mod 2 ^ 32 in
        (s, w, [OnIntraSuccess target before after turns],
         inr (mkIntraResult before after turns final_summary_text))
    end.

Definition apply_full_replace_pass (s : P) (w : W) (policy : IntraCompactionConfig)
    (active_reminder : option text) : option outcome :=
  let source_turns := get_all_turns_for_compaction s in
  if decide (length source_turns = 0%nat) then Some (s, w, [], inl NothingToCompact)
  else
    let before := foldl u32_add 0 (count_item_tokens <$> source_turns) in
    if before <? min_compactable_tokens policy then Some (s, w, [], inl NothingToCompact)
    else
      '(w, r) ← sample_shared_summary_with_retries w source_turns policy;
      Some match r with
           | inl e => (s, w, [], inl e)
           | inr summary_text =>
               commit_pass s w policy TargetFullReplace before (length source_turns)
                 (append_reminder_block summary_text active_reminder)
           end.

(** The turns that a pass reads; [None] is [unreachable!]. *)
Definition source_view (s : P) (target : CompactionTarget) : option (list T) :=
  match target with
  | TargetSteps => Some (get_accumulated_turns_for_compaction s)
  | TargetHistory => Some (get_history_turns_for_compaction s)
  | TargetFullReplace => None
  end.

(** Steps 3a and 3c: what the model is shown, and what is put before its summary. *)
Definition shown_turns (target : CompactionTarget) (turns : list T) : list T :=
  match target with
  | TargetHistory => turns_for_llm (separate_prior_user_queries turns)
  | _ => turns
  end.

Definition preamble_of (target : CompactionTarget) (policy : IntraCompactionConfig) (turns : list T) : text :=
  match target with
  | TargetHistory =>
      assemble_user_queries_preamble (prior_user_queries (separate_prior_user_queries turns))
        (extract_user_queries_from_turns turns (user_message_truncate_chars policy))
  | _ => []
  end.

(** Step 3b. *)
Definition sample_pass (w : W) (policy : IntraCompactionConfig) (target : CompactionTarget) (turns : list T)
    : option (W * (IntraCompactionError + text)) :=
  match summarizer policy with
  | Legacy =>
      let prompt := match target with TargetSteps => steps_prompt | _ => history_prompt end in
      Some (sample_compaction_with_retries w turns prompt (intra_sampling_timeout_secs policy) policy)
  | Shared => sample_shared_summary_with_retries w turns policy
  end.

Definition compact_one_pass (s : P) (w : W) (policy : IntraCompactionConfig)
    (trigger : IntraCompactionTrigger) (target : CompactionTarget) : option outcome :=
  source_turns ← source_view s target;
  if decide (length source_turns = 0%nat) then Some (s, w, [], inl NothingToCompact)
  else
    let token_counts := count_item_tokens <$> source_turns in
    let target_tokens := percent_of (context_window trigger) (target_threshold_percent policy) in
    plan ← select_turns_to_compact token_counts source_turns target_tokens (min_compactable_tokens policy);
    match plan with
    | None => Some (s, w, [], inl NothingToCompact)
    | Some plan =>
        let turns_to_compact := take (split_idx plan) source_turns in
        '(w, r) ← sample_pass w policy target (shown_turns target turns_to_compact);
        Some match r with
             | inl e => (s, w, [], inl e)
             | inr summary_text =>
                 commit_pass s w policy target (tokens_to_compact plan) (split_idx plan)
                   (preamble_of target policy turns_to_compact ++ summary_text)
             end
    end.

Definition join_summaries (h s : text) : text :=
  if decide (h = []) then s else if decide (s = []) then h else h ++ [LF; LF] ++ s.

Definition total_tokens (l : list T) : Z := foldl u64_add 0 (count_item_tokens <$> l).

(** The second half of [apply_history_then_steps], after the history pass. *)
Definition steps_after_history (s : P) (w : W) (tr : list IntraEvent) (policy : IntraCompactionConfig)
    (trigger : IntraCompactionTrigger) (history_result : option IntraCompactionResult) : option outcome :=
  let steps_tokens := total_tokens (get_accumulated_turns_for_compaction s) in
  let history_tokens := total_tokens (get_history_turns_for_compaction s) in
  let ratio_threshold_tokens :=
    f64_ceil_as_uint u64_max (f64_mul (f64_of_Z history_tokens) (steps_trigger_ratio policy)) in
  if negb (ratio_threshold_tokens <? steps_tokens) then
    Some (s, w, tr, match history_result with Some h => inr h | None => inl NothingToCompact end)
  else
    '(s, w, tr', steps_result) ← compact_one_pass s w policy trigger TargetSteps;
    Some (s, w, tr ++ tr',
      match history_result, steps_result with
      | Some h, inr r =>
          inr (mkIntraResult (u32_saturating_add (tokens_before h) (tokens_before r))
                 (u32_saturating_add (tokens_after h) (tokens_after r))
                 (u32_saturating_add (turns_compacted h) (turns_compacted r))
                 (join_summaries (intra_summary h) (intra_summary r)))
      | Some h, inl NothingToCompact => inr h
      | None, inr r => inr r
      | _, inl e => inl e
      end).

Definition apply_history_then_steps (s : P) (w : W) (policy : IntraCompactionConfig)
    (trigger : IntraCompactionTrigger) : option outcome :=
  '(s, w, tr, history_result) ← compact_one_pass s w policy trigger TargetHistory;
  match history_result with
  | inr h => steps_after_history s w tr policy trigger (Some h)
  | inl NothingToCompact => steps_after_history s w tr policy trigger None
  | inl e => Some (s, w, tr, inl e)
  end.

Definition apply_intra_compaction (s : P) (w : W) (policy : IntraCompactionConfig)
    (trigger : IntraCompactionTrigger) (active_reminder : option text) : option outcome :=
  '(s, w, tr, result) ←
    match mode policy with
    | FullReplace => apply_full_replace_pass s w policy active_reminder
    | StepsOnly => compact_one_pass s w policy trigger TargetSteps
    | HistoryOnly => compact_one_pass s w policy trigger TargetHistory
    | HistoryThenSteps => apply_history_then_steps s w policy trigger
    end;
  Some (s, w, match result with inl e => tr ++ [OnIntraError (error_status_label e)] | inr _ => tr end,
        result).
End intra.

(** ** inter_compaction/config.rs, compact.rs *)

Record InterCompactionConfig := mkInterConfig {
  inter_compaction_model_name : text;
  inter_sampling_timeout_secs : Z;
  compaction_strategy : CompactionStrategy;
  dnc_chunk_token_limit : Z;
  user_message_compact_threshold : Z;
}.

Definition UNBOUNDED_CHUNK_LIMIT : Z := u32_max.

Inductive InterEvent :=
| OnRecompaction (strategy : text)
| OnChunkSampled (success : bool)
| OnChunkCount (num_chunks : nat).

Record ChunkedCompactionOutput := mkChunked { combined_text : text; analysis_text : text }.

Definition chunk_block (i : nat) (output : LlmCompactionOutput) : text :=
  txt "<chunk_summary index=" ++ quoted (show_Z (Z.of_nat i)) ++ txt ">" ++ [LF] ++ response output
  ++ [LF] ++ txt "</chunk_summary>" ++ [LF; LF].

Section inter.
Context {W T : Type} `{!CompactionSampler W T} `{!CompactionItemBuilder T}.
Context (count_item_tokens : T → Z) (history_prompt : CompactionPrompt).

Definition flush_chunk (config : InterCompactionConfig) (w : W) (tr : list InterEvent) (turns : list T)
    : W * list InterEvent * (CompactionSampleError + LlmCompactionOutput) :=
  let '(w, result) := sample_compaction w turns history_prompt (inter_sampling_timeout_secs config) in
  (w, tr ++ [OnChunkSampled match result with inr _ => true | inl _ => false end], result).

(** The loop over the turns, with the current chunk and what came of those before it. *)
Fixpoint chunk_loop (config : InterCompactionConfig) (limit : Z) (turns compactable : list T)
    (chunk_tokens : Z) (outputs : list LlmCompactionOutput) (w : W) (tr : list InterEvent)
    : W * list InterEvent * (CompactionSampleError + list LlmCompactionOutput) :=
  match turns with
  | [] =>
      if decide (length compactable = 0%nat) then (w, tr, inr outputs)
      else
        let '(w, tr, r) := flush_chunk config w tr compactable in
        (w, tr, match r with inl e => inl e | inr output => inr (outputs ++ [output]) end)
  | turn :: turns =>
      let turn_tokens := count_item_tokens turn in
      if negb (bool_decide (length compactable = 0%nat)) && negb (limit =? UNBOUNDED_CHUNK_LIMIT)
         && (limit <? u32_saturating_add chunk_tokens turn_tokens)
      then
        let '(w, tr, r) := flush_chunk config w tr compactable in
        match r with
        | inl e => (w, tr, inl e)
        | inr output =>
            chunk_loop config limit turns [turn] (u32_add 0 turn_tokens) (outputs ++ [output]) w tr
        end
      else
        chunk_loop config limit turns (compactable ++ [turn]) (u32_add chunk_tokens turn_tokens) outputs w tr
  end.

Definition sample_compaction_chunked (w : W) (turns : list T) (current_user_queries : option text)
    (config : InterCompactionConfig)
    : W * list InterEvent * (CompactionSampleError + ChunkedCompactionOutput) :=
  match compaction_strategy config with
  | StrategyFullReplace =>
      (w, [], inl (SampleBuild (txt "full_replace must be routed through the event-proc compact_conversation helper")))
  | strategy =>
      let chunk_token_limit :=
        match strategy with Basic => UNBOUNDED_CHUNK_LIMIT | _ => dnc_chunk_token_limit config end in
      let filtered := filter_turns_for_inter_compaction turns in
      if decide (length filtered = 0%nat) then
        (w, [], inl (SampleOther (txt "No turns remaining after filtering")))
      else
        let separated := separate_prior_user_queries filtered in
        let '(w, tr, r) := chunk_loop config chunk_token_limit (turns_for_llm separated) [] 0 [] w [] in
        match r with
        | inl e => (w, tr, inl e)
        | inr outputs =>
            let tr := if has_prior_compaction separated then tr ++ [OnRecompaction (strategy_label strategy)] else tr in
            let preamble := assemble_user_queries_preamble (prior_user_queries separated) current_user_queries in
            (w, tr ++ [OnChunkCount (length outputs)],
             inr (mkChunked (preamble ++ concat (imap chunk_block outputs))
                    (concat (imap (λ i o, wrap_chunk_analysis i (thinking o)) outputs))))
        end
  end.
End inter.
