(* ===== verification/CompactionPassesProps.v ===== *)
(** * Compaction: the passes of the chat host, theorems

    What one pass commits, what an error leaves behind, and how the chunked pipeline
    divides a history. *)

From S2P Require Import Prelude Text TextProps Utf8 Breaker CompactionSelect CompactionText CodeCompaction CodeCompactionProps CompactionHistory CompactionHistoryProps CompactionPasses.

Open Scope Z_scope.

(** ** The host's stream processor *)

(** What [traits.rs] asks of [replace_with_compaction]: a refused commit changes nothing;
    a commit replaces the first turns of its view by the new one and leaves the other
    view alone. *)
Class StreamProcLaws (P T : Type) `{!CompactionStreamProc P T} := {
  replace_refuses (s s' : P) target n (x : T) e :
    replace_with_compaction s target n x = (s', Some e) → s' = s;
  replace_commits (s s' : P) target n (x : T) :
    replace_with_compaction s target n x = (s', None) →
    match target with
    | TargetSteps =>
        get_accumulated_turns_for_compaction s' = x :: drop n (get_accumulated_turns_for_compaction s)
        ∧ get_history_turns_for_compaction s' = get_history_turns_for_compaction s
    | TargetHistory =>
        get_history_turns_for_compaction s' = x :: drop n (get_history_turns_for_compaction s)
        ∧ get_accumulated_turns_for_compaction s' = get_accumulated_turns_for_compaction s
    | TargetFullReplace =>
        get_all_turns_for_compaction s' = x :: drop n (get_all_turns_for_compaction s)
    end;
}.

#[export] Instance IntraCompactionError_eq_dec : EqDecision IntraCompactionError.
Proof. solve_decision. Defined.

Lemma select_total {T} `{!CompactionItem T} counts (items : list T) target m :
  length counts = length items → is_Some (select_turns_to_compact counts items target m).
Proof.
  intros Hl. unfold select_turns_to_compact. case_decide; [by eexists|]. rewrite decide_False by lia.
  case_decide; [by eexists|]. case_decide; [by eexists|]. case_match; by eexists.
Qed.

Lemma walk_back_le target kept rc : (walk_back target kept rc <= length rc)%nat.
Proof.
  revert kept. induction rc as [|c rc IH]; intros kept; cbn; [lia|]. case_match; [lia|].
  etrans; [apply IH|]. lia.
Qed.

(** A plan takes some of the items and leaves some. *)
Lemma plan_bounds {T} `{!CompactionItem T} counts (items : list T) target m plan :
  select_turns_to_compact counts items target m = Some (Some plan) →
  (0 < split_idx plan < length items)%nat.
Proof.
  unfold select_turns_to_compact. case_decide; [done|]. case_decide; [done|].
  pose proof (walk_back_le target 0 (reverse (take (length items) counts))) as Hw.
  rewrite length_reverse, length_take in Hw.
  case_decide; [done|]. case_decide; [done|]. case_match; [done|]. intros [= <-]. cbn.
  edestruct (snap_spec items) as ([Hs _] & _); [|split; [|lia]; eapply Nat.lt_le_trans; [|exact Hs]]; lia.
Qed.

Section passes.
Context {P W T : Type} `{!CompactionStreamProc P T} `{!StreamProcLaws P T}.
Context `{!CompactionSampler W T} `{!CompactionItemBuilder T}.
Context (count : T → Z) (steps_prompt history_prompt : CompactionPrompt) (template : text).
Context (Hutf : ∀ (turns : list T) prompt timeout, speaks_utf8 (W := W) turns prompt timeout).

Lemma shared_total (w : W) (turns : list T) policy :
  is_Some (sample_shared_summary_with_retries template w turns policy).
Proof using Hutf.
  unfold sample_shared_summary_with_retries, sample_summary_with_retries.
  set (prompt := mkPrompt _ _). set (n := Z.max (intra_max_attempts policy) 1).
  replace (Z.to_nat n) with (S (Z.to_nat n - 1)) by lia.
  destruct (sample_from_exact turns prompt (intra_sampling_timeout_secs policy) (Hutf _ _ _) n
    (intra_retry_delay_secs policy) (Z.to_nat n - 1) 1 w []) as (k & tr & r & -> & _ & _ & Hc & _); [lia|].
  cbn [mbind option_bind]. set (a := answer_at _ _ _ k w) in *.
  destruct (judge a) as [s| |m o|m] eqn:Hj; cbn in Hc.
  - rewrite Hc. destruct (usable_seed a s Hj) as (o & Ha & Ho & Hs).
    destruct Hs as (c & _ & Hf & _). { rewrite <- Ho. by eapply Hutf. }
    cbn [CodeCompaction.summary]. rewrite Hf. by eexists.
  - destruct Hc as [_ ->]. by eexists.
  - rewrite Hc. by eexists.
  - destruct Hc as [_ ->]. by eexists.
Qed.

Lemma sample_pass_total (w : W) policy target (turns : list T) :
  is_Some (sample_pass steps_prompt history_prompt template w policy target turns).
Proof using Hutf. unfold sample_pass. destruct (summarizer policy); [apply shared_total|by eexists]. Qed.

(** What a committed pass on [n] turns leaves. *)
Definition committed (s s' : P) policy target before n final (tr : list IntraEvent) (res : IntraCompactionResult) : Prop :=
  let x := compaction_summary_item final in
  let turns := Z.of_nat n mod 2 ^ 32 in
  replace_with_compaction s target n x = (s', None)
  ∧ res = mkIntraResult before (count x) turns final
  ∧ tr = [OnIntraSuccess target before (count x) turns]
  ∧ (0 < before → count x <= reduction_limit before policy).

Lemma commit_exact (s s' : P) (w w' : W) policy target before n final tr r :
  commit_pass count s w policy target before n final = (s', w', tr, r) →
  w' = w ∧ match r with
           | inl e => s' = s ∧ tr = []
           | inr res => committed s s' policy target before n final tr res
           end.
Proof using All.
  unfold commit_pass, insufficient. destruct (_ && _) eqn:Hi; [by intros [= <- <- <- <-]|].
  destruct (replace_with_compaction s target n _) as [s1 [e|]] eqn:Hr; intros [= <- <- <- <-]; split; try done.
  - by apply replace_refuses in Hr.
  - split_and!; [done..|]. intros Hb. apply andb_false_iff in Hi as [Hi|Hi]; apply Z.ltb_ge in Hi; lia.
Qed.

(** One pass over a view: an error leaves everything as it was; otherwise the plan of the
    selection is committed with the summary behind the preamble. *)
Lemma one_pass_outcome (s : P) (w : W) policy trigger target :
  target ≠ TargetFullReplace →
  ∃ s' w' tr r, compact_one_pass count steps_prompt history_prompt template s w policy trigger target
      = Some (s', w', tr, r)
    ∧ match r with
      | inl e => s' = s ∧ tr = []
      | inr res =>
          ∃ view plan summary,
            source_view s target = Some view
            ∧ select_turns_to_compact (count <$> view) view
                (percent_of (context_window trigger) (target_threshold_percent policy))
                (min_compactable_tokens policy) = Some (Some plan)
            ∧ committed s s' policy target (tokens_to_compact plan) (split_idx plan)
                (preamble_of target policy (take (split_idx plan) view) ++ summary) tr res
      end.
Proof using All.
  intros Ht. unfold compact_one_pass.
  destruct (source_view s target) as [view|] eqn:Hv; [|by destruct target].
  cbn [mbind option_bind]. destruct (decide _); [by do 4 eexists|].
  set (tt := percent_of _ _). destruct (select_total (count <$> view) view tt (min_compactable_tokens policy))
    as [[plan|] Hp]; [apply length_fmap| |]; rewrite Hp; cbn [mbind option_bind]; [|by do 4 eexists].
  destruct (sample_pass_total w policy target (shown_turns target (take (split_idx plan) view)))
    as [[w1 [e|summary]] ->]; cbn [mbind option_bind]; [by do 4 eexists|].
  destruct (commit_pass _ _ _ _ _ _ _ _) as [[[s' w'] tr] r] eqn:Hc.
  apply commit_exact in Hc as [-> Hc]. exists s', w1, tr, r. split; [done|].
  destruct r as [e|res]; [done|]. by exists view, plan, summary.
Qed.

Lemma full_pass_outcome (s : P) (w : W) policy reminder :
  ∃ s' w' tr r, apply_full_replace_pass count template s w policy reminder = Some (s', w', tr, r)
    ∧ match r with
      | inl e => s' = s ∧ tr = []
      | inr res =>
          ∃ before summary,
            committed s s' policy TargetFullReplace before (length (get_all_turns_for_compaction s))
              (append_reminder_block summary reminder) tr res
      end.
Proof using All.
  unfold apply_full_replace_pass. destruct (decide _); [by do 4 eexists|].
  set (before := foldl _ _ _). destruct (before <? _); [by do 4 eexists|].
  destruct (shared_total w (get_all_turns_for_compaction s) policy) as [[w1 [e|summary]] ->];
    cbn [mbind option_bind]; [by do 4 eexists|].
  destruct (commit_pass _ _ _ _ _ _ _ _) as [[[s' w'] tr] r] eqn:Hc.
  apply commit_exact in Hc as [-> Hc]. exists s', w1, tr, r. split; [done|].
  destruct r as [e|res]; [done|]. by exists before, summary.
Qed.

(** The history pass of [HistoryThenSteps] was committed: the first turns of the history, at
    least one and not all, are one summary turn of their queries and a summary. *)
Definition history_committed (policy : IntraCompactionConfig) (s s' : P) (tr : list IntraEvent) : Prop :=
  let history := get_history_turns_for_compaction s in
  ∃ n summary before turns,
    let x := compaction_summary_item (preamble_of TargetHistory policy (take n history) ++ summary) in
    tr = [OnIntraSuccess TargetHistory before (count x) turns]
    ∧ (0 < n < length history)%nat
    ∧ get_history_turns_for_compaction s' = x :: drop n history
    ∧ get_accumulated_turns_for_compaction s' = get_accumulated_turns_for_compaction s.

Lemma history_then_steps_outcome (s : P) (w : W) policy trigger :
  ∃ s' w' tr r, apply_history_then_steps count steps_prompt history_prompt template s w policy trigger
      = Some (s', w', tr, r)
    ∧ match r with
      | inl e => (s' = s ∧ tr = []) ∨ (history_committed policy s s' tr ∧ e ≠ NothingToCompact)
      | inr _ => Forall (λ e, ∃ t b a n, e = OnIntraSuccess t b a n) tr ∧ tr ≠ []
      end.
Proof using All.
  unfold apply_history_then_steps.
  destruct (one_pass_outcome s w policy trigger TargetHistory ltac:(done)) as (s1 & w1 & tr1 & r1 & -> & H1).
  cbn [mbind option_bind].
  assert (∀ o, match o with None => s1 = s ∧ tr1 = [] | Some h => history_committed policy s s1 tr1 end →
    ∃ s' w' tr r, steps_after_history count steps_prompt history_prompt template s1 w1 tr1 policy trigger o
        = Some (s', w', tr, r)
      ∧ match r with
        | inl e => (s' = s ∧ tr = []) ∨ (history_committed policy s s' tr ∧ e ≠ NothingToCompact)
        | inr _ => Forall (λ e, ∃ t b a n, e = OnIntraSuccess t b a n) tr ∧ tr ≠ []
        end) as Hafter.
  { intros o Ho. unfold steps_after_history.
    assert (Forall (λ e, ∃ t b a n, e = OnIntraSuccess t b a n) tr1) as Hf1.
    { destruct o; [destruct Ho as (n & sm & b & turns & -> & _)|destruct Ho as [_ ->]]; [|constructor].
      constructor; [by do 4 eexists|constructor]. }
    destruct (negb _).
    { do 4 eexists. split; [done|]. destruct o; [|by left]. split; [done|].
      by destruct Ho as (n & sm & b & turns & -> & _). }
    destruct (one_pass_outcome s1 w1 policy trigger TargetSteps ltac:(done)) as (s2 & w2 & tr2 & r2 & -> & H2).
    cbn [mbind option_bind]. do 4 eexists. split; [done|]. destruct r2 as [e|res].
    - destruct H2 as [-> ->]. rewrite app_nil_r. destruct o as [h|].
      + destruct (decide (e = NothingToCompact)) as [->|Hne].
        * split; [done|]. by destruct Ho as (n & sm & b & turns & -> & _).
        * destruct e; try done; by right.
      + destruct Ho as [-> ->]. destruct e; by left.
    - destruct H2 as (view & plan & summary & _ & _ & (_ & _ & -> & _)).
      destruct o; (split; [|by destruct tr1]); apply Forall_app_2; try done;
        (constructor; [by do 4 eexists|constructor]). }
  destruct r1 as [e|h].
  - destruct H1 as [-> ->]. destruct e; try (do 4 eexists; split; [done|by left]). by apply Hafter.
  - destruct H1 as (view & plan & summary & Hv & Hp & (Hr & _ & -> & _)). apply (Hafter (Some h)).
    injection Hv as <-. apply plan_bounds in Hp. apply replace_commits in Hr as [Hh Ha].
    eexists _, summary, _, _. split; [done|]. split; [exact Hp|]. by split.
Qed.
End passes.

(** A pass over the steps or the history never panics.  When it answers an error nothing
    has changed.  When it succeeds, the first turns of its view, as many as the selection
    says, are replaced by one summary turn and the other view is as before; the text of
    that turn is the preamble of user queries and the model's summary; the summary's
    tokens are within the reduction limit of the tokens that it replaces; and the
    observer is told these numbers once. *)
Theorem compaction_pass_exact {P W T} `{!CompactionStreamProc P T} `{!StreamProcLaws P T}
    `{!CompactionSampler W T} `{!CompactionItemBuilder T} (count : T → Z)
    (steps_prompt history_prompt : CompactionPrompt) (template : text) (s : P) (w : W)
    (policy : IntraCompactionConfig) (trigger : IntraCompactionTrigger) (target : CompactionTarget) :
  (∀ (turns : list T) prompt timeout, speaks_utf8 (W := W) turns prompt timeout) →
  target ≠ TargetFullReplace →
  ∃ s' w' tr r, compact_one_pass count steps_prompt history_prompt template s w policy trigger target
      = Some (s', w', tr, r)
    ∧ match r with
      | inl e => s' = s ∧ tr = []
      | inr res =>
          ∃ view plan summary,
            source_view s target = Some view
            ∧ select_turns_to_compact (count <$> view) view
                (percent_of (context_window trigger) (target_threshold_percent policy))
                (min_compactable_tokens policy) = Some (Some plan)
            ∧ let n := split_idx plan in
              let carrier := compaction_summary_item (preamble_of target policy (take n view) ++ summary) in
              source_view s' target = Some (carrier :: drop n view)
              ∧ (target = TargetSteps →
                 get_history_turns_for_compaction s' = get_history_turns_for_compaction s)
              ∧ (target = TargetHistory →
                 get_accumulated_turns_for_compaction s' = get_accumulated_turns_for_compaction s)
              ∧ tokens_before res = tokens_to_compact plan ∧ tokens_after res = count carrier
              ∧ (0 < tokens_before res → tokens_after res <= reduction_limit (tokens_before res) policy)
              ∧ tr = [OnIntraSuccess target (tokens_before res) (tokens_after res) (turns_compacted res)]
      end.
Proof.
  intros Hutf Ht.
  destruct (one_pass_outcome count steps_prompt history_prompt template Hutf s w policy trigger target Ht)
    as (s' & w' & tr & r & Hr & Ho).
  exists s', w', tr, r. split; [done|]. destruct r as [e|res]; [done|].
  destruct Ho as (view & plan & summary & Hv & Hs & (Hc & -> & -> & Hl)).
  exists view, plan, summary. split_and!; [done..|]. cbn [tokens_before tokens_after turns_compacted].
  apply replace_commits in Hc. destruct target; [| |done]; cbn [source_view] in Hv |- *;
    injection Hv as <-; destruct Hc as [-> ?]; by split_and!.
Qed.

(** C27: an intra compaction never panics, and every error is told to the observer under its
    label.  An error leaves the conversation as it was, except in the mode
    [HistoryThenSteps], where the history pass may already be committed: then the first
    turns of the history, at least one but not all, are one summary turn, whose text is the preamble of their user
    queries and a summary, the others and the steps are as before, and the observer was told of that pass.  A success
    reports only successful passes, at least one. *)
Theorem intra_compaction_safe {P W T} `{!CompactionStreamProc P T} `{!StreamProcLaws P T}
    `{!CompactionSampler W T} `{!CompactionItemBuilder T} (count : T → Z)
    (steps_prompt history_prompt : CompactionPrompt) (template : text) (s : P) (w : W)
    (policy : IntraCompactionConfig) (trigger : IntraCompactionTrigger) (reminder : option text) :
  (∀ (turns : list T) prompt timeout, speaks_utf8 (W := W) turns prompt timeout) →
  ∃ s' w' tr r,
    apply_intra_compaction count steps_prompt history_prompt template s w policy trigger reminder
      = Some (s', w', tr, r)
    ∧ match r with
      | inl e =>
          let label := OnIntraError (error_status_label e) in
          (s' = s ∧ tr = [label])
          ∨ (mode policy = HistoryThenSteps ∧ e ≠ NothingToCompact
             ∧ ∃ tr', tr = tr' ++ [label] ∧ history_committed count policy s s' tr')
      | inr _ => Forall (λ e, ∃ t b a n, e = OnIntraSuccess t b a n) tr ∧ tr ≠ []
      end.
Proof.
  intros Hutf. unfold apply_intra_compaction. destruct (mode policy).
  - destruct (full_pass_outcome count steps_prompt history_prompt template Hutf s w policy reminder) as (s' & w' & tr & r & -> & Ho).
    cbn [mbind option_bind]. do 4 eexists. split; [done|]. destruct r as [e|res].
    + destruct Ho as [-> ->]. by left.
    + destruct Ho as (b & sm & (_ & _ & -> & _)). split; [|done]. constructor; [by do 4 eexists|constructor].
  - destruct (one_pass_outcome count steps_prompt history_prompt template Hutf s w policy trigger TargetSteps
      ltac:(done)) as (s' & w' & tr & r & -> & Ho).
    cbn [mbind option_bind]. do 4 eexists. split; [done|]. destruct r as [e|res].
    + destruct Ho as [-> ->]. by left.
    + destruct Ho as (v & p & sm & _ & _ & (_ & _ & -> & _)). split; [|done].
      constructor; [by do 4 eexists|constructor].
  - destruct (one_pass_outcome count steps_prompt history_prompt template Hutf s w policy trigger TargetHistory
      ltac:(done)) as (s' & w' & tr & r & -> & Ho).
    cbn [mbind option_bind]. do 4 eexists. split; [done|]. destruct r as [e|res].
    + destruct Ho as [-> ->]. by left.
    + destruct Ho as (v & p & sm & _ & _ & (_ & _ & -> & _)). split; [|done].
      constructor; [by do 4 eexists|constructor].
  - destruct (history_then_steps_outcome count steps_prompt history_prompt template Hutf s w policy trigger)
      as (s' & w' & tr & r & -> & Ho).
    cbn [mbind option_bind]. do 4 eexists. split; [done|]. destruct r as [e|res]; [|done].
    destruct Ho as [[-> ->]|[Hc Hne]]; [by left|right]. split_and!; [done..|]. by eexists.
Qed.

(** ** When a compaction starts *)

(** A compaction starts exactly when it is enabled, the window is known, the step is late
    enough for the mode, and the prompt is above the threshold; with a threshold of at
    most 100 percent the narrow cast loses nothing, and the reported percentage is at
    most 100. *)
Theorem should_compact_exact (policy : IntraCompactionConfig) (tokens window step_no : Z) :
  is_u32 window → is_u32 tokens → 0 <= trigger_threshold_percent policy <= 100 →
  match should_compact policy tokens window step_no with
  | Some t =>
      enabled policy = true ∧ 0 < window
      ∧ (mode policy = FullReplace ∨ min_steps_before_compact policy <= step_no)
      ∧ window * trigger_threshold_percent policy / 100 < tokens
      ∧ t = mkTrigger tokens window (percent t) step_no
      ∧ percent t = Z.min (tokens * 100 / window) 100 ∧ 0 <= percent t <= 100
  | None =>
      enabled policy = false ∨ window = 0
      ∨ (mode policy ≠ FullReplace ∧ step_no < min_steps_before_compact policy)
      ∨ tokens <= window * trigger_threshold_percent policy / 100
  end.
Proof.
  intros [Hw1 Hw2] [Ht1 Ht2] Hp. unfold should_compact.
  destruct (enabled policy); cbn [negb]; [|by left].
  destruct (window =? 0) eqn:Hw; breflect; [by right; left|].
  assert (percent_of window (trigger_threshold_percent policy)
    = window * trigger_threshold_percent policy / 100) as ->.
  { unfold percent_of. apply Z.mod_small. unfold u32_max in *. split; [apply Z.div_pos; nia|].
    apply Z.div_lt_upper_bound; nia. }
  destruct (negb _ && _) eqn:Hm.
  - apply andb_prop in Hm as [Hm Hs]. apply negb_true_iff, bool_decide_eq_false in Hm. apply Z.ltb_lt in Hs.
    by right; right; left.
  - apply andb_false_iff in Hm. rewrite negb_false_iff, bool_decide_eq_true, Z.ltb_ge in Hm.
    destruct (tokens <=? _) eqn:Ht; breflect; [by right; right; right|]. cbn [percent].
    split_and!; try done; try lia. apply Z.min_glb; [apply Z.div_pos; lia|lia].
Qed.

(** ** The chunked pipeline *)

(** The chunks of a history, by their tokens alone. *)
Fixpoint chunk_plan {T} (count : T → Z) (limit : Z) (turns compactable : list T) (tokens : Z) : list (list T) :=
  match turns with
  | [] => if decide (length compactable = 0%nat) then [] else [compactable]
  | turn :: turns =>
      if negb (bool_decide (length compactable = 0%nat)) && negb (limit =? UNBOUNDED_CHUNK_LIMIT)
         && (limit <? u32_saturating_add tokens (count turn))
      then compactable :: chunk_plan count limit turns [turn] (u32_add 0 (count turn))
      else chunk_plan count limit turns (compactable ++ [turn]) (u32_add tokens (count turn))
  end.

(** Sampling chunk by chunk, up to the first error. *)
Fixpoint sample_chunks {W T} `{!CompactionSampler W T} (prompt : CompactionPrompt)
    (config : InterCompactionConfig) (chunks : list (list T)) (outputs : list LlmCompactionOutput)
    (w : W) (tr : list InterEvent)
    : W * list InterEvent * (CompactionSampleError + list LlmCompactionOutput) :=
  match chunks with
  | [] => (w, tr, inr outputs)
  | c :: chunks =>
      let '(w, tr, r) := flush_chunk prompt config w tr c in
      match r with
      | inl e => (w, tr, inl e)
      | inr o => sample_chunks prompt config chunks (outputs ++ [o]) w tr
      end
  end.

Section chunks.
Context {W T : Type} `{!CompactionSampler W T} (count : T → Z) (prompt : CompactionPrompt).

Lemma chunk_loop_plan config limit (turns compactable : list T) tokens outputs (w : W) tr :
  chunk_loop count prompt config limit turns compactable tokens outputs w tr
  = sample_chunks prompt config (chunk_plan count limit turns compactable tokens) outputs w tr.
Proof.
  revert compactable tokens outputs w tr.
  induction turns as [|t turns IH]; intros compactable tokens outputs w tr; cbn [chunk_loop chunk_plan].
  - destruct (decide _); [done|]. cbn [sample_chunks].
    by destruct (flush_chunk prompt config w tr compactable) as [[w1 tr1] [e|o]].
  - destruct (_ && _ && _); [|apply IH]. cbn [sample_chunks].
    destruct (flush_chunk prompt config w tr compactable) as [[w1 tr1] [e|o]]; [done|apply IH].
Qed.

Lemma chunk_plan_concat limit (turns compactable : list T) tokens :
  concat (chunk_plan count limit turns compactable tokens) = compactable ++ turns
  ∧ Forall (λ c, c ≠ []) (chunk_plan count limit turns compactable tokens).
Proof.
  revert compactable tokens. induction turns as [|t turns IH]; intros compactable tokens; cbn [chunk_plan].
  - destruct (decide _) as [H0|Hne]; cbn [concat].
    + apply length_zero_iff_nil in H0 as ->. by split.
    + rewrite app_nil_r. split; [done|]. constructor; [by intros ->|constructor].
  - destruct (_ && _ && _) eqn:Hb; [|rewrite (cons_middle t compactable turns), app_assoc; apply IH].
    destruct (IH [t] (u32_add 0 (count t))) as [Hc Hf]. cbn [concat]. rewrite Hc. split; [done|].
    constructor; [|done]. intros ->. by cbn in Hb.
Qed.

(** Tokens of the chunk under construction. *)
Definition tokens_of (c : list T) : Z := sum (count <$> c).
Definition within (limit : Z) (c : list T) : Prop := length c = 1%nat ∨ tokens_of c <= limit.

Lemma chunk_plan_within limit (turns compactable : list T) tokens :
  limit < UNBOUNDED_CHUNK_LIMIT → (∀ t, is_u32 (count t)) →
  tokens = tokens_of compactable → is_u32 tokens → compactable = [] ∨ within limit compactable →
  Forall (within limit) (chunk_plan count limit turns compactable tokens).
Proof.
  intros Hl Hcount. revert compactable tokens.
  induction turns as [|t turns IH]; intros compactable tokens -> Hu Hw; cbn [chunk_plan].
  - destruct (decide _) as [|Hne]; [constructor|]. constructor; [|constructor].
    destruct Hw as [->|]; [done|done].
  - assert (limit =? UNBOUNDED_CHUNK_LIMIT = false) as -> by (apply Z.eqb_neq; lia). cbn [negb].
    rewrite andb_true_r. pose proof (Hcount t) as [Ht1 Ht2]. unfold is_u32, u32_max in *.
    assert (tokens_of [t] = count t) as Hone by (unfold tokens_of, sum; cbn; lia).
    assert (u32_add 0 (count t) = count t) as H0 by (unfold u32_add; apply Z.mod_small; lia).
    destruct (negb _ && _) eqn:Hb.
    + apply andb_prop in Hb as [Hne _]. apply negb_true_iff, bool_decide_eq_false in Hne.
      constructor; [by destruct Hw as [->|]|]. apply IH; [by rewrite H0, Hone|rewrite H0; lia|right; by left].
    + assert (tokens_of (compactable ++ [t]) = tokens_of compactable + count t) as Happ.
      { unfold tokens_of. rewrite fmap_app, sum_app. cbn. unfold sum. cbn. lia. }
      apply andb_false_iff in Hb as [Hb|Hb].
      * apply negb_false_iff, bool_decide_eq_true, length_zero_iff_nil in Hb as ->. cbn [app] in *.
        assert (tokens_of ([] : list T) = 0) as Hz by done. rewrite Hz in *.
        apply IH; [by rewrite H0, Hone|rewrite H0; lia|right; by left].
      * apply Z.ltb_ge in Hb. unfold u32_saturating_add, UNBOUNDED_CHUNK_LIMIT, u32_max in *.
        assert (u32_add (tokens_of compactable) (count t) = tokens_of compactable + count t) as Hadd
          by (unfold u32_add; apply Z.mod_small; lia).
        apply IH; [by rewrite Hadd, Happ|rewrite Hadd; lia|right; right; rewrite Happ; lia].
Qed.

Lemma chunk_plan_unbounded (turns compactable : list T) tokens :
  (length (chunk_plan count UNBOUNDED_CHUNK_LIMIT turns compactable tokens) <= 1)%nat.
Proof.
  revert compactable tokens. induction turns as [|t turns IH]; intros compactable tokens; cbn [chunk_plan].
  - destruct (decide _); cbn; lia.
  - rewrite Z.eqb_refl, andb_false_r. apply IH.
Qed.
End chunks.

(** The chunked pipeline shows the model the whole history.  The chunks that it samples,
    one after the other up to the first error, are the turns without the earlier queries,
    each turn once and in order, and none is empty.  The basic strategy makes one chunk;
    with a limit every chunk is within it, unless it is a single turn.  The text is the
    preamble of queries and one numbered block for each answer. *)
Theorem chunked_exact {W T} `{!CompactionSampler W T} `{!CompactionItemBuilder T} (count : T → Z)
    (prompt : CompactionPrompt) (w : W) (turns : list T) (current : option text)
    (config : InterCompactionConfig) :
  compaction_strategy config ≠ StrategyFullReplace →
  filter_turns_for_inter_compaction turns ≠ [] →
  (∀ t : T, is_u32 (count t)) →
  let separated := separate_prior_user_queries (filter_turns_for_inter_compaction turns) in
  ∃ chunks w' tr r,
    concat chunks = turns_for_llm separated ∧ Forall (λ c, c ≠ []) chunks
    ∧ (compaction_strategy config = Basic → (length chunks <= 1)%nat)
    ∧ (compaction_strategy config = DivideAndConquer → dnc_chunk_token_limit config < UNBOUNDED_CHUNK_LIMIT →
       Forall (within count (dnc_chunk_token_limit config)) chunks)
    ∧ sample_chunks prompt config chunks [] w [] = (w', tr, r)
    ∧ ∃ tr', sample_compaction_chunked count prompt w turns current config
      = (w', tr', match r with
                  | inl e => inl e
                  | inr outputs =>
                      inr (mkChunked
                        (assemble_user_queries_preamble (prior_user_queries separated) current
                         ++ concat (imap chunk_block outputs))
                        (concat (imap (λ i o, wrap_chunk_analysis i (thinking o)) outputs)))
                  end).
Proof.
  intros Hs Hf Hc separated. unfold sample_compaction_chunked. fold separated.
  assert (length (filter_turns_for_inter_compaction turns) ≠ 0%nat) as Hl.
  { intros H0%length_zero_iff_nil. by destruct Hf. }
  set (limit := match compaction_strategy config with Basic => UNBOUNDED_CHUNK_LIMIT
                | _ => dnc_chunk_token_limit config end).
  set (chunks := chunk_plan count limit (turns_for_llm separated) [] 0).
  destruct (sample_chunks prompt config chunks [] w []) as [[w' tr] r] eqn:Hr.
  destruct (chunk_plan_concat count limit (turns_for_llm separated) [] 0) as [Hcat Hne].
  exists chunks, w', tr, r. split_and!; [done|done| | |done|].
  - intros Hb. unfold chunks, limit. rewrite Hb. apply chunk_plan_unbounded.
  - intros Hd Hlim. unfold chunks, limit. rewrite Hd. apply chunk_plan_within; [done..| |by left].
    unfold is_u32, u32_max. lia.
  - destruct (compaction_strategy config); [| |done]; rewrite decide_False by done;
      rewrite chunk_loop_plan; fold limit chunks; rewrite Hr; destruct r as [e|outputs]; by eexists.
Qed.

(** ** A host *)

(** A processor that keeps its two views as lists. *)
Definition DemoProc : Type := list DemoTurn * list DemoTurn.

#[export] Instance DemoProc_stream : CompactionStreamProc DemoProc DemoTurn := {|
  get_accumulated_turns_for_compaction := snd;
  get_history_turns_for_compaction := fst;
  replace_with_compaction s target n x :=
    let refuse (view : list DemoTurn) := (s, Some (InvalidSplit n (length view))) in
    match target with
    | TargetSteps => if (n <=? length s.2)%nat then ((s.1, x :: drop n s.2), None) else refuse s.2
    | TargetHistory => if (n <=? length s.1)%nat then ((x :: drop n s.1, s.2), None) else refuse s.1
    | TargetFullReplace =>
        if (n <=? length (s.1 ++ s.2))%nat then ((x :: drop n (s.1 ++ s.2), []), None) else refuse (s.1 ++ s.2)
    end;
|}.

#[export] Instance DemoProc_laws : StreamProcLaws DemoProc DemoTurn.
Proof.
  split; cbn; intros s s' target n x.
  - intros e. destruct target; destruct (_ <=? _)%nat; by intros [= <- _].
  - destruct target; destruct (_ <=? _)%nat; intros [= <-]; [done..|].
    unfold get_all_turns_for_compaction. cbn. by rewrite app_nil_r.
Qed.

(** A model that answers once and is then not built any more. *)
#[local] Instance once_sampler : CompactionSampler nat DemoTurn :=
  λ w _ _ _, (S w, match w with
                   | 0%nat => inr (mkOutput (txt "short") (txt "hm"))
                   | _ => inl (SampleBuild (txt "gone"))
                   end).

Lemma once_speaks (turns : list DemoTurn) prompt timeout : speaks_utf8 (W := nat) turns prompt timeout.
Proof. intros [|w] o; cbn; [intros [= <-]; by vm_compute|done]. Defined.

Definition demo_count (t : DemoTurn) : Z := if turn_summary t then 1 else 20.

Definition demo_policy (m : IntraCompactionMode) : IntraCompactionConfig :=
  mkIntraConfig true m 85 3 1 (f64_div (f64_of_Z 8) (f64_of_Z 10)) None 120 2 3 [] Legacy 50
    (f64_div (f64_of_Z 3) (f64_of_Z 10)) 3000.

Definition demo_proc : DemoProc :=
  (user_turn <$> [txt "a"; txt "b"; txt "c"], user_turn <$> [txt "d"; txt "e"; txt "f"]).
Definition demo_trigger : IntraCompactionTrigger := mkTrigger 90 100 90 4.
Definition no_prompt : CompactionPrompt := mkPrompt [] [].

Definition demo_run (m : IntraCompactionMode) :=
  apply_intra_compaction demo_count no_prompt no_prompt [] demo_proc 0%nat (demo_policy m) demo_trigger None.

(** The steps pass fails after the history pass was committed: the caller is told an
    error, and the history is compacted. *)
Example error_after_commit :
  match demo_run HistoryThenSteps with
  | Some (s', _, tr, inl (SamplerBuild m)) =>
      m = txt "gone" ∧ s'.2 = demo_proc.2 ∧ length s'.1 = 3%nat ∧ length tr = 2%nat
      ∧ turn_summary <$> head s'.1 = Some true
  | _ => False
  end.
Proof. by vm_compute. Qed.

Lemma compaction_pass_exact_witness :
  (∀ (turns : list DemoTurn) prompt timeout, speaks_utf8 (W := nat) turns prompt timeout)
  ∧ TargetSteps ≠ TargetFullReplace
  ∧ is_Some (compact_one_pass demo_count no_prompt no_prompt [] demo_proc 0%nat (demo_policy StepsOnly)
               demo_trigger TargetSteps).
Proof.
  split; [exact once_speaks|]. split; [done|].
  destruct (compaction_pass_exact demo_count no_prompt no_prompt [] demo_proc 0%nat (demo_policy StepsOnly)
    demo_trigger TargetSteps once_speaks ltac:(done)) as (s' & w' & tr & r & H & _).
  rewrite H. by eexists.
Defined.

Lemma intra_compaction_safe_witness :
  (∀ (turns : list DemoTurn) prompt timeout, speaks_utf8 (W := nat) turns prompt timeout)
  ∧ is_Some (demo_run HistoryThenSteps).
Proof.
  split; [exact once_speaks|].
  destruct (intra_compaction_safe demo_count no_prompt no_prompt [] demo_proc 0%nat (demo_policy HistoryThenSteps)
    demo_trigger None once_speaks) as (s' & w' & tr & r & H & _).
  unfold demo_run. rewrite H. by eexists.
Defined.

Lemma should_compact_exact_witness :
  is_u32 100 ∧ is_u32 90 ∧ 0 <= trigger_threshold_percent (demo_policy StepsOnly) <= 100
  ∧ ∃ t, should_compact (demo_policy StepsOnly) 90 100 4 = Some t ∧ 0 <= percent t <= 100.
Proof.
  assert (is_u32 100) as H1 by (unfold is_u32, u32_max; lia).
  assert (is_u32 90) as H2 by (unfold is_u32, u32_max; lia).
  assert (0 <= trigger_threshold_percent (demo_policy StepsOnly) <= 100) as H3 by (cbn; lia).
  split; [exact H1|]. split; [exact H2|]. split; [exact H3|].
  pose proof (should_compact_exact (demo_policy StepsOnly) 90 100 4 H1 H2 H3) as H.
  destruct (should_compact (demo_policy StepsOnly) 90 100 4) as [t|] eqn:E; [|discriminate E].
  exists t. split; [reflexivity|apply H].
Defined.

(** Above 100 percent the cast wraps: the threshold of a large window is small. *)
Example threshold_wraps : percent_of (2 ^ 31) 200 = 0.
Proof. reflexivity. Qed.

Definition demo_inter : InterCompactionConfig := mkInterConfig [] 120 DivideAndConquer 45 3000.

Lemma chunked_exact_witness :
  compaction_strategy demo_inter ≠ StrategyFullReplace
  ∧ filter_turns_for_inter_compaction demo_proc.1 ≠ []
  ∧ ∃ w' tr r, sample_compaction_chunked demo_count no_prompt 0%nat demo_proc.1 None demo_inter = (w', tr, r).
Proof.
  split; [discriminate|]. split; [discriminate|].
  destruct (chunked_exact demo_count no_prompt 0%nat demo_proc.1 None demo_inter)
    as (chunks & w' & tr & r & _ & _ & _ & _ & _ & tr' & H); [discriminate|discriminate| |].
  { intros t. unfold demo_count, is_u32, u32_max. destruct (turn_summary t); lia. }
  rewrite H. by do 3 eexists.
Defined.
