(* ===== verification/ChatState.v ===== *)
(** * The chat state actor

    [ds-chat-state/src/actor]: the state of a chat ([state.rs]), its mutations
    ([mutations.rs]), its queries ([queries.rs]), the assembly of a request
    ([request_builder.rs]) and the dispatch of commands ([mod.rs]).

    The persistence trait is the log of its calls, and the event channel the list
    of events sent.  A command returns the new actor with its reply, or [None] if
    the code panics, which the estimate of a backend tool call can do.  The
    process-wide state of Headroom is threaded through.  The tracing of the source
    has no effect and is left out; where its arguments can panic they are
    evaluated. *)

From S2P Require Import Prelude Text Conversation TokenEstimation ToolPairing Headroom ChatUsage ChatRequest CompactionUtils.
From Stdlib Require Import Floats.SpecFloat.

Open Scope Z_scope.

(** ** Data *)

(** [f32] values are only carried: their bits. *)
Record SamplingConfig := mkSampling {
  base_url : text;
  model : text;
  max_completion_tokens : option Z;
  temperature : option Z;
  top_p : option Z;
  api_backend : ApiBackend;
  extra_headers : list (text * text);
  context_window : Z;
  sc_reasoning_effort : option ReasoningEffort;
  stream_tool_calls : option bool;
}.

Inductive AuthType := SessionToken | ApiKey.

Record Credentials := mkCredentials {
  api_key : option text;
  auth_type : AuthType;
  alpha_test_key : option text;
  client_version : option text;
}.

Definition Credentials_default : Credentials := mkCredentials None SessionToken None None.

Record TurnCaptureState := mkCapture {
  turn_start_offset : nat;
  pre_replacement_messages : list ConversationItem;
  compaction_occurred : bool;
}.

Record ChatState := mkChat {
  conversation : list ConversationItem;
  sampling_config : SamplingConfig;
  prompt_index : nat;
  prompt_texts : list text;
  total_tokens : Z;
  stream_start_ms : option Z;
  turn_start_ms : option Z;
  agent_edited_paths : gset text;
  last_compaction_prompt_index : option nat;
  credentials : Credentials;
  estimated_tokens_since_model : Z;
  estimate_at_last_response : Z;
  last_turn_usage : option TokenUsage;
  prompt_usage : option UsageLedger;
  session_usage : UsageLedger;
  turn_capture : option TurnCaptureState;
  harness_trace_buffer : list ConversationItem;
  harness_trace_turns : list (list ConversationItem);
}.

Record ChatStateSnapshot := mkSnapshot {
  snap_conversation : list ConversationItem;
  snap_sampling_config : SamplingConfig;
  snap_prompt_index : nat;
  snap_total_tokens : Z;
  snap_estimate_at_last_response : Z;
  snap_agent_edited_paths : gset text;
  snap_prompt_texts : list text;
  snap_stream_start_ms : option Z;
  snap_turn_start_ms : option Z;
  snap_last_compaction_prompt_index : option nat;
  snap_credentials : Credentials;
}.

Record TurnCapture := mkTurnCapture {
  tc_messages : list ConversationItem;
  tc_compaction_occurred : bool;
}.

Record ConversationCounts := mkCounts {
  count_total : nat;
  count_user : nat;
  count_assistant : nat;
  count_tool_result : nat;
}.

Record AutoCompactTrigger := mkTrigger {
  act_total_tokens : Z;
  act_context_window : Z;
  act_utilization_percent : Z;
}.

Record ModelMetadata := mkModelMetadata {
  resolved_model_id : option text;
  mm_model_fingerprint : option text;
}.

Record NotificationMeta := mkNotificationMeta {
  nm_stream_start_ms : option Z;
  nm_turn_start_ms : option Z;
}.

Inductive ChatStateEvent :=
| PromptIndexChanged (new_index : nat)
| TokensUpdated (total_tokens : Z)
| ConversationReset (new_len : nat)
| ImageBudget (body_bytes trigger_bytes reclaim_target_bytes : Z) (inline_images : nat)
    (needs_image_compaction : bool) (evicted : nat) (body_bytes_after : Z).

Inductive PersistenceRecord :=
| Message (i : ConversationItem)
| ReplaceHistory (items : list ConversationItem)
| FlushRecord.

Record ToolSpec := mkToolSpec {
  ts_name : text;
  ts_description : option text;
  ts_parameters : text;
}.

(** The fields of a request that [build_conversation_request] fills; the others
    are empty. *)
Record ConversationRequest := mkRequest {
  req_items : list ConversationItem;
  req_tools : list ToolSpec;
  req_model : option text;
  req_temperature : option Z;
  req_max_output_tokens : option Z;
  req_top_p : option Z;
  x_ds_conv_id : option text;
  x_ds_req_id : option text;
  req_trace : option text;
  req_reasoning_effort : option ReasoningEffort;
}.

Record Actor := mkActor {
  state : ChatState;
  pruning_config : PruningConfig;
  persistence : list PersistenceRecord;
  events : list ChatStateEvent;
  process : Process;
}.

(** ** Field updates *)

Definition set_conversation (x : list ConversationItem) (s : ChatState) : ChatState :=
  mkChat x (sampling_config s) (prompt_index s) (prompt_texts s) (total_tokens s)
    (stream_start_ms s) (turn_start_ms s) (agent_edited_paths s) (last_compaction_prompt_index s)
    (credentials s) (estimated_tokens_since_model s) (estimate_at_last_response s)
    (last_turn_usage s) (prompt_usage s) (session_usage s) (turn_capture s)
    (harness_trace_buffer s) (harness_trace_turns s).

Definition set_sampling_config (x : SamplingConfig) (s : ChatState) : ChatState :=
  mkChat (conversation s) x (prompt_index s) (prompt_texts s) (total_tokens s)
    (stream_start_ms s) (turn_start_ms s) (agent_edited_paths s) (last_compaction_prompt_index s)
    (credentials s) (estimated_tokens_since_model s) (estimate_at_last_response s)
    (last_turn_usage s) (prompt_usage s) (session_usage s) (turn_capture s)
    (harness_trace_buffer s) (harness_trace_turns s).

Definition set_prompts (i : nat) (texts : list text) (s : ChatState) : ChatState :=
  mkChat (conversation s) (sampling_config s) i texts (total_tokens s)
    (stream_start_ms s) (turn_start_ms s) (agent_edited_paths s) (last_compaction_prompt_index s)
    (credentials s) (estimated_tokens_since_model s) (estimate_at_last_response s)
    (last_turn_usage s) (prompt_usage s) (session_usage s) (turn_capture s)
    (harness_trace_buffer s) (harness_trace_turns s).

(** [total_tokens], [estimated_tokens_since_model], [estimate_at_last_response]. *)
Definition set_tokens (total since at_last : Z) (s : ChatState) : ChatState :=
  mkChat (conversation s) (sampling_config s) (prompt_index s) (prompt_texts s) total
    (stream_start_ms s) (turn_start_ms s) (agent_edited_paths s) (last_compaction_prompt_index s)
    (credentials s) since at_last
    (last_turn_usage s) (prompt_usage s) (session_usage s) (turn_capture s)
    (harness_trace_buffer s) (harness_trace_turns s).

(** [stream_start_ms], [turn_start_ms], [agent_edited_paths],
    [last_compaction_prompt_index], [credentials]. *)
Definition set_meta (stream turn : option Z) (paths : gset text) (compacted : option nat)
    (c : Credentials) (s : ChatState) : ChatState :=
  mkChat (conversation s) (sampling_config s) (prompt_index s) (prompt_texts s) (total_tokens s)
    stream turn paths compacted
    c (estimated_tokens_since_model s) (estimate_at_last_response s)
    (last_turn_usage s) (prompt_usage s) (session_usage s) (turn_capture s)
    (harness_trace_buffer s) (harness_trace_turns s).

(** [last_turn_usage], [prompt_usage], [session_usage]. *)
Definition set_usage (last : option TokenUsage) (prompt : option UsageLedger)
    (session : UsageLedger) (s : ChatState) : ChatState :=
  mkChat (conversation s) (sampling_config s) (prompt_index s) (prompt_texts s) (total_tokens s)
    (stream_start_ms s) (turn_start_ms s) (agent_edited_paths s) (last_compaction_prompt_index s)
    (credentials s) (estimated_tokens_since_model s) (estimate_at_last_response s)
    last prompt session (turn_capture s)
    (harness_trace_buffer s) (harness_trace_turns s).

Definition set_turn_capture (x : option TurnCaptureState) (s : ChatState) : ChatState :=
  mkChat (conversation s) (sampling_config s) (prompt_index s) (prompt_texts s) (total_tokens s)
    (stream_start_ms s) (turn_start_ms s) (agent_edited_paths s) (last_compaction_prompt_index s)
    (credentials s) (estimated_tokens_since_model s) (estimate_at_last_response s)
    (last_turn_usage s) (prompt_usage s) (session_usage s) x
    (harness_trace_buffer s) (harness_trace_turns s).

(** [harness_trace_buffer], [harness_trace_turns]. *)
Definition set_harness (buffer : list ConversationItem) (turns : list (list ConversationItem))
    (s : ChatState) : ChatState :=
  mkChat (conversation s) (sampling_config s) (prompt_index s) (prompt_texts s) (total_tokens s)
    (stream_start_ms s) (turn_start_ms s) (agent_edited_paths s) (last_compaction_prompt_index s)
    (credentials s) (estimated_tokens_since_model s) (estimate_at_last_response s)
    (last_turn_usage s) (prompt_usage s) (session_usage s) (turn_capture s)
    buffer turns.

Definition on_state (f : ChatState → ChatState) (a : Actor) : Actor :=
  mkActor (f (state a)) (pruning_config a) (persistence a) (events a) (process a).

Definition send_event (e : ChatStateEvent) (a : Actor) : Actor :=
  mkActor (state a) (pruning_config a) (persistence a) (events a ++ [e]) (process a).

Definition persist (r : PersistenceRecord) (a : Actor) : Actor :=
  mkActor (state a) (pruning_config a) (persistence a ++ [r]) (events a) (process a).

Definition set_process (p : Process) (a : Actor) : Actor :=
  mkActor (state a) (pruning_config a) (persistence a) (events a) p.

(** [self.state.conversation]. *)
Definition conv (a : Actor) : list ConversationItem := conversation (state a).

(** ** Creation *)

Definition ChatState_new (items : list ConversationItem) (config : SamplingConfig)
    : option ChatState :=
  let '(items, _) := dedup_duplicate_tool_results items in
  let '(items, _) := repair_dangling_tool_calls items UserCancelled in
  initial_tokens ← estimate_conversation_tokens items;
  Some (mkChat items config 0 [] initial_tokens None None ∅ None Credentials_default 0
    initial_tokens None None UsageLedger_default None [] []).

Definition seal_harness_trace_turn (s : ChatState) : ChatState :=
  match harness_trace_buffer s with
  | [] => s
  | turn => set_harness [] (harness_trace_turns s ++ [turn]) s
  end.

Definition spawn_with_pruning (items : list ConversationItem) (config : SamplingConfig)
    (pruning : PruningConfig) (p : Process) : option Actor :=
  s ← ChatState_new items config; Some (mkActor s pruning [] [] p).

(** ** Turn capture *)

(** Without debug assertions, an offset past the end gives no items. *)
Definition turn_tail (items : list ConversationItem) (offset : nat) : list ConversationItem :=
  drop offset items.

Definition snapshot_turn_slice (s : ChatState) : ChatState :=
  match turn_capture s with
  | Some cap =>
      set_turn_capture (Some (mkCapture (turn_start_offset cap)
        (pre_replacement_messages cap ++ turn_tail (conversation s) (turn_start_offset cap))
        (compaction_occurred cap))) s
  | None => s
  end.

Definition rebase_turn_capture_offset (s : ChatState) : ChatState :=
  match turn_capture s with
  | Some cap =>
      set_turn_capture (Some (mkCapture (length (conversation s)) (pre_replacement_messages cap)
        (compaction_occurred cap))) s
  | None => s
  end.

Definition begin_turn_capture (s : ChatState) : ChatState :=
  set_turn_capture (Some (mkCapture (length (conversation s)) [] false)) s.

(** ** Mutations *)

Definition ensure_conversation_integrity_with_reason (reason : DanglingToolCallReason) (a : Actor)
    : Actor :=
  let a := on_state snapshot_turn_slice a in
  let '(items, deduped) := dedup_duplicate_tool_results (conv a) in
  let '(items, repaired) := repair_dangling_tool_calls items reason in
  let a := on_state (set_conversation items) a in
  let a :=
    if ((0 <? repaired) || (0 <? deduped))%nat then persist (ReplaceHistory items) a else a in
  on_state rebase_turn_capture_offset a.

Definition ensure_conversation_integrity : Actor → Actor :=
  ensure_conversation_integrity_with_reason UserCancelled.

Definition repair_dangling_after_harness_halt (class : text) : Actor → Actor :=
  ensure_conversation_integrity_with_reason (HarnessHalted class).

(** The estimate after a compaction: the base estimate scaled by the provider's
    total over the estimate it was reported for. *)
Definition reseed_tokens (is_compaction : bool) (pre_replace_total at_last base : Z) : Z :=
  let estimated :=
    if is_compaction && (0 <? pre_replace_total) && (0 <? at_last) then
      f64_round_as u64_max
        (f64_mul (f64_of_u64 base) (f64_div (f64_of_u64 pre_replace_total) (f64_of_u64 at_last)))
    else base in
  if is_compaction && (0 <? pre_replace_total) then Z.min estimated pre_replace_total
  else estimated.

Definition mark_compaction (s : ChatState) : ChatState :=
  match turn_capture s with
  | Some cap =>
      set_turn_capture (Some (mkCapture (turn_start_offset cap) (pre_replacement_messages cap) true)) s
  | None => s
  end.

Definition replace_conversation (items : list ConversationItem) (is_compaction : bool) (a : Actor)
    : option Actor :=
  let a := on_state snapshot_turn_slice a in
  let a := if is_compaction then on_state mark_compaction a else a in
  let pre_replace_total := total_tokens (state a) in
  let a := persist (ReplaceHistory items) a in
  base_estimate ← estimate_conversation_tokens items;
  let estimated_tokens :=
    reseed_tokens is_compaction pre_replace_total (estimate_at_last_response (state a)) base_estimate in
  let a := on_state (λ s, set_tokens estimated_tokens 0 base_estimate (set_conversation items s)) a in
  let a := on_state rebase_turn_capture_offset a in
  let a := send_event (ConversationReset (length items)) a in
  Some (send_event (TokensUpdated estimated_tokens) a).

(** The conversation is taken out of the state before [replace_conversation]
    runs. *)
Definition repair_history_cmd (dry_run : bool) (a : Actor) : option (Actor * HistoryRepairReport) :=
  let '(items, report) := repair_history (conv a) in
  if dry_run then Some (a, report)
  else
    let a := on_state (set_conversation []) a in
    if report_changed report then
      a ← replace_conversation items false a; Some (a, report)
    else Some (on_state (set_conversation items) a, report).

Definition add_estimate (n : Z) (s : ChatState) : ChatState :=
  set_tokens (total_tokens s) (u64_add (estimated_tokens_since_model s) n)
    (estimate_at_last_response s) s.

Definition append_message (item : ConversationItem) (a : Actor) : Actor :=
  on_state (λ s, set_conversation (conversation s ++ [item]) s) (persist (Message item) a).

Definition push_message (item : ConversationItem) (a : Actor) : option Actor :=
  match item with
  | Assistant _ => Some (append_message item a)
  | _ =>
      estimated_tokens ← estimate_item_tokens item;
      Some (append_message item (on_state (add_estimate estimated_tokens) a))
  end.

(** The byte length of a summary, which the tracing of a prune evaluates. *)
Definition item_content_bytes (i : ConversationItem) : option Z :=
  match i with
  | System t => Some (len t)
  | User u =>
      Some (foldr Z.add 0
        ((λ p, match p with TextPart t => len t | ImagePart url => len url end) <$> user_content u))
  | Assistant a => Some (len (content a))
  | ToolResult t => Some (len (tr_content t))
  | BackendToolCall k => len <$> text_summary k
  | Reasoning r => Some (len (reasoning_item_text r) + len (default [] (r_encrypted_content r)))
  end.

Definition conversation_content_bytes (items : list ConversationItem) : option Z :=
  foldr Z.add 0 <$> mapM item_content_bytes items.

(** A result that old loses its content. *)
Definition clear_result (threshold turn_from_end : nat) (t : ToolResultItem) : ToolResultItem :=
  if (turn_from_end <? threshold)%nat then t
  else if decide (tr_content t = HARD_CLEAR_PLACEHOLDER) then t
  else with_content t HARD_CLEAR_PLACEHOLDER.

(** The number of positions at which two lists differ. *)
Definition changed_items (l l' : list ConversationItem) : nat :=
  length (filter_b (λ p, negb (bool_decide (p.1 = p.2))) (zip l l')).

Definition clear_threshold (config : PruningConfig) (prompt_index : nat)
    (items : list ConversationItem) : nat :=
  usize_saturating_add (hard_clear_age_turns config) (length (filter_b is_user items) - prompt_index).

Definition prune_retained_conversation (a : Actor) : option Actor :=
  let config := pruning_config a in
  if negb (pruning_enabled config) then Some a
  else if (prompt_index (state a) <? hard_clear_age_turns config)%nat then Some a
  else
    let effective_threshold := clear_threshold config (prompt_index (state a)) (conv a) in
    _ ← conversation_content_bytes (conv a);
    let items := reverse (backward_scan (clear_result effective_threshold) 0 false (reverse (conv a))) in
    if (0 <? changed_items (conv a) items)%nat then
      let a := on_state (set_conversation items) a in
      _ ← conversation_content_bytes (conv a);
      Some (persist (ReplaceHistory (conv a)) a)
    else Some a.

Definition push_user_message_with_repair_reason (item : ConversationItem)
    (reason : DanglingToolCallReason) (a : Actor) : option Actor :=
  let a := ensure_conversation_integrity_with_reason reason a in
  estimated_tokens ← estimate_item_tokens item;
  prune_retained_conversation (append_message item (on_state (add_estimate estimated_tokens) a)).

Definition push_user_message (item : ConversationItem) : Actor → option Actor :=
  push_user_message_with_repair_reason item UserCancelled.

Definition record_token_usage (total : Z) (a : Actor) : option Actor :=
  at_last ← estimate_conversation_tokens (conv a);
  Some (send_event (TokensUpdated total) (on_state (set_tokens total 0 at_last) a)).

Definition record_last_turn_usage (usage : TokenUsage) (a : Actor) : Actor :=
  on_state (λ s, set_usage (Some usage) (prompt_usage s) (session_usage s) s) a.

Definition record_model_call_usage (model_id : option text) (usage : TokenUsage)
    (api_duration_ms cost_usd_ticks : option Z) (a : Actor) : Actor :=
  on_state (λ s,
    let model_key :=
      match model_id with
      | Some id => if decide (id = []) then model (sampling_config s) else id
      | None => model (sampling_config s)
      end in
    let record := record_main_loop_call model_key usage api_duration_ms cost_usd_ticks in
    set_usage (last_turn_usage s)
      (Some (record (default UsageLedger_default (prompt_usage s))))
      (record (session_usage s)) s) a.

Definition record_subagent_usage (by_model : list (text * UsageTotals))
    (attribute_to_prompt incomplete : bool) (a : Actor) : Actor :=
  if bool_decide (by_model = []) && negb incomplete then a
  else
    on_state (λ s,
      set_usage (last_turn_usage s)
        (if attribute_to_prompt then
           Some (record_subagent by_model incomplete (default UsageLedger_default (prompt_usage s)))
         else prompt_usage s)
        (record_subagent by_model incomplete (session_usage s)) s) a.

Definition mark_usage_incomplete (prompt session : bool) (a : Actor) : Actor :=
  on_state (λ s,
    set_usage (last_turn_usage s)
      (if prompt then Some (mark_incomplete (default UsageLedger_default (prompt_usage s)))
       else prompt_usage s)
      (if session then mark_incomplete (session_usage s) else session_usage s) s) a.

Definition drop_prompt_usage (s : ChatState) : ChatState :=
  set_usage (last_turn_usage s) None (session_usage s) s.

Definition increment_prompt_index (a : Actor) : Actor :=
  let a :=
    on_state (λ s, set_prompts (S (prompt_index s)) (prompt_texts s) (drop_prompt_usage s)) a in
  send_event (PromptIndexChanged (prompt_index (state a))) a.

Definition is_line_end (c : ascii) : bool := bool_decide (c = LF) || bool_decide (c = CR).

Definition canonical_system_prompt_eq (a b : text) : bool :=
  bool_decide (trim_end_matches is_line_end a = trim_end_matches is_line_end b).

Definition replace_or_insert_system_head (items : list ConversationItem) (prompt : text)
    : list ConversationItem * bool :=
  match items with
  | System sys :: rest =>
      if canonical_system_prompt_eq sys prompt then (items, false) else (System prompt :: rest, true)
  | _ => (System prompt :: items, true)
  end.

Definition replace_system_head (prompt : text) (a : Actor) : option (Actor * bool) :=
  let same :=
    match conv a with System sys :: _ => canonical_system_prompt_eq sys prompt | _ => false end in
  if same then Some (a, false)
  else
    let '(items, changed) := replace_or_insert_system_head (conv a) prompt in
    a ← replace_conversation items false a;
    Some (a, changed).

Definition restore_snapshot (snap : ChatStateSnapshot) (a : Actor) : option Actor :=
  let a := on_state snapshot_turn_slice a in
  let a := on_state (set_conversation (snap_conversation snap)) a in
  let a := on_state rebase_turn_capture_offset a in
  at_last ←
    (if 0 <? snap_estimate_at_last_response snap then Some (snap_estimate_at_last_response snap)
     else estimate_conversation_tokens (conv a));
  Some (on_state (λ s,
    drop_prompt_usage
      (set_meta (snap_stream_start_ms snap) (snap_turn_start_ms snap)
         (snap_agent_edited_paths snap) (snap_last_compaction_prompt_index snap)
         (snap_credentials snap)
         (set_tokens (snap_total_tokens snap) 0 at_last
            (set_prompts (snap_prompt_index snap) (snap_prompt_texts snap)
               (set_sampling_config (snap_sampling_config snap) s))))) a).

(** ** Queries *)

Definition get_notification_meta (s : ChatState) : NotificationMeta :=
  mkNotificationMeta (stream_start_ms s) (turn_start_ms s).

Definition snapshot (s : ChatState) : ChatStateSnapshot :=
  mkSnapshot (conversation s) (sampling_config s) (prompt_index s) (total_tokens s)
    (estimate_at_last_response s) (agent_edited_paths s) (prompt_texts s) (stream_start_ms s)
    (turn_start_ms s) (last_compaction_prompt_index s) (credentials s).

(** The position of the user item number [target], or the length. *)
Fixpoint truncate_position (target user_count i : nat) (items : list ConversationItem) : nat :=
  match items with
  | [] => i
  | User _ :: rest =>
      if (user_count =? target)%nat then i else truncate_position target (S user_count) (S i) rest
  | _ :: rest => truncate_position target user_count (S i) rest
  end.

Definition truncate_to_prompt_index (target : nat) (a : Actor) : option Actor :=
  if (prompt_index (state a) <=? target)%nat then Some a
  else
    let items := take (truncate_position target 0 0 (conv a)) (conv a) in
    tokens ← estimate_conversation_tokens items;
    let a :=
      on_state (λ s,
        set_tokens tokens 0 tokens
          (set_prompts target (take target (prompt_texts s)) (set_conversation items s))) a in
    let a := persist (ReplaceHistory items) a in
    Some (send_event (ConversationReset (length items)) a).

Definition check_auto_compact_needed (threshold_percent : Z) (s : ChatState)
    : option AutoCompactTrigger :=
  let cw := context_window (sampling_config s) in
  if exceeds_threshold (total_tokens s) cw threshold_percent then
    Some (mkTrigger (total_tokens s) cw (usage_percentage_truncated_u8 (total_tokens s) cw))
  else None.

(** [find_map] over an iterator. *)
Fixpoint find_map {A B} (f : A → option B) (l : list A) : option B :=
  match l with
  | [] => None
  | x :: l' => match f x with Some y => Some y | None => find_map f l' end
  end.

Definition get_last_model_metadata (s : ChatState) : ModelMetadata :=
  default (mkModelMetadata None None)
    (find_map (λ i,
       match i with
       | Assistant a => Some (mkModelMetadata (model_id a) (model_fingerprint a))
       | _ => None
       end) (reverse (conversation s))).

Definition get_last_assistant_text (s : ChatState) : option text :=
  find_map (λ i,
    match i with
    | Assistant a => if decide (trim (content a) = []) then None else Some (content a)
    | _ => None
    end) (reverse (conversation s)).

Definition get_first_user_text (s : ChatState) : option text :=
  find_map (λ i, match i with User u => head (user_content u) ≫= part_text | _ => None end)
    (conversation s).

Definition get_conversation_counts (s : ChatState) : ConversationCounts :=
  mkCounts (length (conversation s)) (length (filter_b is_user (conversation s)))
    (length (filter_b (λ i, match i with Assistant _ => true | _ => false end) (conversation s)))
    (length (filter_b is_result (conversation s))).

Definition get_system_message (s : ChatState) : option ConversationItem :=
  find_b is_system (conversation s).

Definition take_turn_messages (s : ChatState) : option TurnCapture :=
  (λ cap,
    mkTurnCapture (pre_replacement_messages cap ++ turn_tail (conversation s) (turn_start_offset cap))
      (compaction_occurred cap)) <$> turn_capture s.

(** ** Requests *)

Section requests.
Context `{HeadroomEnv} `{JsonLengths}.

(** The memory reminder written to the actor's own conversation, if it is to be
    persisted, and the reminder that is left for the request. *)
Definition persist_reminder (memory_reminder : option text) (persist_memory_reminder : bool)
    (a : Actor) : Actor * option text :=
  match memory_reminder with
  | Some reminder =>
      if persist_memory_reminder then
        let a := on_state snapshot_turn_slice a in
        let '(items, injected) := inject_memory_reminder (conv a) reminder in
        let a := on_state (set_conversation items) a in
        let '(a, unused) :=
          if injected then (persist (ReplaceHistory items) a, None) else (a, Some reminder) in
        (on_state rebase_turn_capture_offset a, unused)
      else (a, Some reminder)
  | None => (a, None)
  end.

(** The copy of the conversation for the request, with the outcome of the image
    eviction. *)
Definition request_items (a : Actor) (needs_prune headroom_on needs_image_compaction : bool)
    (body_bytes : Z) (memory_reminder : option text)
    : list ConversationItem * option ImageEvictionOutcome * Process :=
  let '(items, eviction) :=
    if needs_image_compaction then
      let '(items, o) :=
        compact_images_to_byte_budget (conv a) body_bytes IMAGE_COMPACT_RECLAIM_TARGET_BYTES in
      (items, Some o)
    else (conv a, None) in
  let items := if needs_prune then prune_conversation (pruning_config a) items else items in
  let '(items, p) :=
    if headroom_on then
      let '(items, (_, p)) := compress_tool_results items (process a) in (items, p)
    else (items, process a) in
  let items :=
    match memory_reminder with
    | Some reminder => (inject_memory_reminder items reminder).1
    | None => items
    end in
  (items, eviction, p).

Definition build_conversation_request (tool_definitions : list ToolSpec)
    (memory_reminder : option text) (persist_memory_reminder : bool) (trace : option text)
    (conv_id req_id : text) (a : Actor) : Actor * ConversationRequest :=
  let needs_prune :=
    should_prune (total_tokens (state a)) (context_window (sampling_config (state a))) in
  let headroom_on := is_enabled (process a) in
  let '(a, memory_reminder) := persist_reminder memory_reminder persist_memory_reminder a in
  let body_bytes := conversation_body_bytes (conv a) in
  let inline_images := inline_image_count (conv a) in
  let needs_image_compaction := IMAGE_COMPACT_TRIGGER_BYTES <=? body_bytes in
  let needs_mutation :=
    needs_prune || bool_decide (is_Some memory_reminder) || needs_image_compaction || headroom_on in
  let '(items, eviction, p) :=
    if needs_mutation then
      request_items a needs_prune headroom_on needs_image_compaction body_bytes memory_reminder
    else (conv a, None, process a) in
  let a := set_process p a in
  let a :=
    if (0 <? inline_images)%nat then
      send_event (ImageBudget body_bytes IMAGE_COMPACT_TRIGGER_BYTES
        IMAGE_COMPACT_RECLAIM_TARGET_BYTES inline_images needs_image_compaction
        (match eviction with Some o => evicted o | None => 0%nat end)
        (match eviction with Some o => body_bytes_after o | None => body_bytes end)) a
    else a in
  let config := sampling_config (state a) in
  (a, mkRequest items tool_definitions (Some (model config)) (temperature config)
        (max_completion_tokens config) (top_p config) (Some conv_id) (Some req_id) trace
        (sc_reasoning_effort config)).

(** ** Commands *)

(** [turn_active] is the value of the flag when the command is processed. *)
Inductive ChatStateCommand :=
| PushUserMessage (item : ConversationItem)
| PushUserMessageAndAck (item : ConversationItem)
| PushUserMessageWithRepairReason (item : ConversationItem) (reason : DanglingToolCallReason)
| PushAssistantResponse (item : ConversationItem)
| PushToolResult (item : ConversationItem)
| RecordTokenUsage (total : Z)
| RecordLastTurnUsage (usage : TokenUsage)
| RecordModelCallUsage (model_id : option text) (usage : TokenUsage) (duration cost : option Z)
| RecordSubagentUsage (by_model : list (text * UsageTotals)) (attribute_to_prompt incomplete : bool)
| MarkUsageIncomplete (prompt session : bool)
| IncrementPromptIndex
| UpdateSamplingConfig (config : SamplingConfig)
| RecordAgentEditedPath (path : text)
| RecordStreamStart (timestamp_ms : Z)
| RecordTurnStart (timestamp_ms : Z)
| ReplaceConversation (items : list ConversationItem) (is_compaction : bool)
| RepairHistory (dry_run : bool) (turn_active : option bool)
| ReplaceSystemHead (prompt : text)
| CachePromptText (t : text)
| RecordCompactionAt (at_ : nat)
| Flush
| UpdateCredentials (c : Credentials)
| RestoreSnapshot (snap : ChatStateSnapshot)
| BeginTurnCapture
| AppendHarnessTraceItems (items : list ConversationItem)
| FlushHarnessTraceTurn
| RepairDanglingAfterHarnessHalt (class : text)
| BuildConversationRequest (tools : list ToolSpec) (memory_reminder : option text)
    (persist_memory_reminder : bool) (trace : option text) (conv_id req_id : text)
| GetConversation
| GetPromptIndex
| GetLastCompactionPromptIndex
| GetTotalTokens
| GetLastTurnUsage
| GetPromptUsage
| GetSessionUsage
| GetEstimatedTotalTokens
| GetEstimatedMessagesTokens
| GetSamplingConfig
| GetAgentEditedPaths
| GetNotificationMeta
| Snapshot
| TruncateToPromptIndex (target : nat)
| CheckAutoCompactNeeded (threshold_percent : Z)
| GetCredentials
| GetLastModelMetadata
| TakeTurnMessages
| TakeHarnessTraceTurns
| GetConversationLen
| HasDanglingToolCalls
| GetLastAssistantText
| GetFirstUserText
| GetConversationItemAt (index : nat)
| GetLastUserQueryText
| GetConversationCounts
| GetSystemMessage.

Inductive Reply :=
| NoReply
| RUnit
| RBool (b : bool)
| RNat (n : nat)
| ROptNat (n : option nat)
| RZ (n : Z)
| ROptText (t : option text)
| RItems (l : list ConversationItem)
| ROptItem (i : option ConversationItem)
| RTurns (l : list (list ConversationItem))
| ROptUsage (u : option TokenUsage)
| ROptLedger (l : option UsageLedger)
| RLedger (l : UsageLedger)
| RConfig (c : SamplingConfig)
| RPaths (s : gset text)
| RMeta (m : NotificationMeta)
| RSnapshot (s : ChatStateSnapshot)
| RTrigger (t : option AutoCompactTrigger)
| RCredentials (c : Credentials)
| RModel (m : ModelMetadata)
| RCapture (c : option TurnCapture)
| RCounts (c : ConversationCounts)
| RRequest (r : ConversationRequest)
| RRepair (r : option HistoryRepairReport).

(** A mutation that cannot panic, and a read. *)
Definition mutate (f : Actor → Actor) (r : Reply) (a : Actor) : option (Actor * Reply) :=
  Some (f a, r).
Definition mutate_opt (f : Actor → option Actor) (r : Reply) (a : Actor) : option (Actor * Reply) :=
  (λ a, (a, r)) <$> f a.
Definition reply (f : ChatState → Reply) (a : Actor) : option (Actor * Reply) :=
  Some (a, f (state a)).

Definition handle_command (cmd : ChatStateCommand) (a : Actor) : option (Actor * Reply) :=
  match cmd with
  | PushUserMessage item => mutate_opt (push_user_message item) NoReply a
  | PushUserMessageAndAck item => mutate_opt (push_user_message item) RUnit a
  | PushUserMessageWithRepairReason item reason =>
      mutate_opt (push_user_message_with_repair_reason item reason) NoReply a
  | PushAssistantResponse item => mutate_opt (push_message item) NoReply a
  | PushToolResult item => mutate_opt (push_message item) NoReply a
  | RecordTokenUsage total => mutate_opt (record_token_usage total) NoReply a
  | RecordLastTurnUsage usage => mutate (record_last_turn_usage usage) NoReply a
  | RecordModelCallUsage m u d c => mutate (record_model_call_usage m u d c) NoReply a
  | RecordSubagentUsage l b i => mutate (record_subagent_usage l b i) RUnit a
  | MarkUsageIncomplete p s => mutate (mark_usage_incomplete p s) RUnit a
  | IncrementPromptIndex => mutate increment_prompt_index NoReply a
  | UpdateSamplingConfig config => mutate (on_state (set_sampling_config config)) NoReply a
  | RecordAgentEditedPath path =>
      mutate (on_state (λ s,
        set_meta (stream_start_ms s) (turn_start_ms s) ({[path]} ∪ agent_edited_paths s)
          (last_compaction_prompt_index s) (credentials s) s)) NoReply a
  | RecordStreamStart t =>
      mutate (on_state (λ s,
        set_meta (Some t) (turn_start_ms s) (agent_edited_paths s)
          (last_compaction_prompt_index s) (credentials s) s)) NoReply a
  | RecordTurnStart t =>
      mutate (on_state (λ s,
        set_meta (stream_start_ms s) (Some t) (agent_edited_paths s)
          (last_compaction_prompt_index s) (credentials s) s)) NoReply a
  | ReplaceConversation items is_compaction =>
      mutate_opt (replace_conversation items is_compaction) NoReply a
  | RepairHistory dry_run turn_active =>
      if default false turn_active then Some (a, RRepair None)
      else '(a, report) ← repair_history_cmd dry_run a; Some (a, RRepair (Some report))
  | ReplaceSystemHead prompt =>
      '(a, changed) ← replace_system_head prompt a; Some (a, RBool changed)
  | CachePromptText t =>
      mutate (on_state (λ s, set_prompts (prompt_index s) (prompt_texts s ++ [t]) s)) NoReply a
  | RecordCompactionAt at_ =>
      mutate (on_state (λ s,
        set_meta (stream_start_ms s) (turn_start_ms s) (agent_edited_paths s) (Some at_)
          (credentials s) s)) NoReply a
  | Flush => mutate (persist FlushRecord) NoReply a
  | UpdateCredentials c =>
      mutate (on_state (λ s,
        set_meta (stream_start_ms s) (turn_start_ms s) (agent_edited_paths s)
          (last_compaction_prompt_index s) c s)) NoReply a
  | RestoreSnapshot snap => mutate_opt (restore_snapshot snap) NoReply a
  | BeginTurnCapture => mutate (on_state begin_turn_capture) NoReply a
  | AppendHarnessTraceItems items =>
      mutate (on_state (λ s,
        set_harness (harness_trace_buffer s ++ items) (harness_trace_turns s) s)) NoReply a
  | FlushHarnessTraceTurn => mutate (on_state seal_harness_trace_turn) NoReply a
  | RepairDanglingAfterHarnessHalt class =>
      mutate (repair_dangling_after_harness_halt class) NoReply a
  | BuildConversationRequest tools reminder persist_reminder trace conv_id req_id =>
      let a := ensure_conversation_integrity a in
      let '(a, request) :=
        build_conversation_request tools reminder persist_reminder trace conv_id req_id a in
      Some (a, RRequest request)
  | GetConversation => reply (λ s, RItems (conversation s)) a
  | GetPromptIndex => reply (λ s, RNat (prompt_index s)) a
  | GetLastCompactionPromptIndex => reply (λ s, ROptNat (last_compaction_prompt_index s)) a
  | GetTotalTokens => reply (λ s, RZ (total_tokens s)) a
  | GetLastTurnUsage => reply (λ s, ROptUsage (last_turn_usage s)) a
  | GetPromptUsage => reply (λ s, ROptLedger (prompt_usage s)) a
  | GetSessionUsage => reply (λ s, RLedger (session_usage s)) a
  | GetEstimatedTotalTokens =>
      reply (λ s, RZ (u64_add (total_tokens s) (estimated_tokens_since_model s))) a
  | GetEstimatedMessagesTokens =>
      n ← estimate_messages_tokens (conv a); Some (a, RZ n)
  | GetSamplingConfig => reply (λ s, RConfig (sampling_config s)) a
  | GetAgentEditedPaths => reply (λ s, RPaths (agent_edited_paths s)) a
  | GetNotificationMeta => reply (λ s, RMeta (get_notification_meta s)) a
  | Snapshot => reply (λ s, RSnapshot (snapshot s)) a
  | TruncateToPromptIndex target =>
      mutate_opt (λ a,
        (on_state (λ s, drop_prompt_usage (set_turn_capture None s)))
          <$> truncate_to_prompt_index target a) RUnit a
  | CheckAutoCompactNeeded threshold =>
      reply (λ s, RTrigger (check_auto_compact_needed threshold s)) a
  | GetCredentials => reply (λ s, RCredentials (credentials s)) a
  | GetLastModelMetadata => reply (λ s, RModel (get_last_model_metadata s)) a
  | TakeTurnMessages =>
      Some (on_state (set_turn_capture None) a, RCapture (take_turn_messages (state a)))
  | TakeHarnessTraceTurns =>
      let a := on_state seal_harness_trace_turn a in
      Some (on_state (λ s, set_harness (harness_trace_buffer s) [] s) a,
            RTurns (harness_trace_turns (state a)))
  | GetConversationLen => reply (λ s, RNat (length (conversation s))) a
  | HasDanglingToolCalls => reply (λ s, RBool (has_dangling_tool_calls (conversation s))) a
  | GetLastAssistantText => reply (λ s, ROptText (get_last_assistant_text s)) a
  | GetFirstUserText => reply (λ s, ROptText (get_first_user_text s)) a
  | GetConversationItemAt index => reply (λ s, ROptItem (conversation s !! index)) a
  | GetLastUserQueryText => reply (λ s, ROptText (extract_last_user_query (conversation s))) a
  | GetConversationCounts => reply (λ s, RCounts (get_conversation_counts s)) a
  | GetSystemMessage => reply (λ s, ROptItem (get_system_message s)) a
  end.

(** The commands of a channel in the order they are received, until one panics. *)
Definition step (r : option Actor) (cmd : ChatStateCommand) : option Actor :=
  a ← r; fst <$> handle_command cmd a.

Definition run (cmds : list ChatStateCommand) (a : Actor) : option Actor :=
  foldl step (Some a) cmds.

End requests.
