(* ===== verification/ChatStateProps.v ===== *)
(** * The chat state actor: theorems

    Requests are paired whatever the request builder does; the persisted history
    mirrors the conversation; a captured turn is exactly what was pushed; rewinds,
    snapshots, pruning and compaction do what they promise. *)

From S2P Require Import Prelude Text Conversation TokenEstimation ToolPairing ToolPairingProps Headroom HeadroomProps ChatUsage ChatRequest CompactionUtils ChatState.

Open Scope nat_scope.

(** ** Integrity *)

(** The repaired conversation. *)
Definition repaired (reason : DanglingToolCallReason) (l : list ConversationItem)
    : list ConversationItem := map_runs (answer_run reason) (map_runs dedup_run l).

Lemma integrity_items reason l :
  let '(l1, deduped) := dedup_duplicate_tool_results l in
  let '(l2, inserted) := repair_dangling_tool_calls l1 reason in
  l2 = repaired reason l ∧ (((0 <? inserted) || (0 <? deduped)) = false → l2 = l).
Proof.
  pose proof (dedup_equiv l) as He. pose proof (dedup_unchanged l) as [Hd _].
  destruct (dedup_duplicate_tool_results l) as [l1 n]. injection He as -> _. cbn [fst snd] in Hd.
  pose proof (repair_equiv (map_runs dedup_run l) reason) as He.
  pose proof (repair_unchanged (map_runs dedup_run l) reason) as [Hr _].
  destruct (repair_dangling_tool_calls _ reason) as [l2 m]. cbn [fst snd] in *. subst l2.
  split; [done|]. intros [H1 H2]%orb_false_iff. breflect.
  rewrite Hr by lia. apply Hd. lia.
Qed.

(** Every call of every message has a result behind it. *)
Lemma repaired_answered reason l : has_dangling_tool_calls (repaired reason l) = false.
Proof.
  apply has_dangling_runs. unfold repaired. rewrite runs_map_runs, Forall_fmap.
  apply Forall_true. intros [calls run]. unfold run_answered. cbn [fst snd compose].
  apply filter_b_none. intros c Hc. apply negb_false_iff, bool_decide_eq_true.
  apply elem_of_ids_answer. right. by apply list_elem_of_fmap_2.
Qed.

(** A run behind calls with distinct identifiers has no identifier twice. *)
Definition answered_once (calls : list ToolCall) (known : list text) : Prop :=
  calls ≠ [] → NoDup (call_id <$> calls) → NoDup known.

Lemma repaired_once reason l : Forall (λ r, answered_once r.1 (ids r.2)) (runs (repaired reason l)).
Proof.
  unfold repaired. rewrite !runs_map_runs, <- list_fmap_compose, Forall_fmap.
  apply Forall_true. intros [calls run] Hc Hd. cbn [fst snd compose] in *.
  apply answer_run_NoDup; [done|]. by apply dedup_run_NoDup.
Qed.

Lemma conv_snapshot a : conv (on_state snapshot_turn_slice a) = conv a.
Proof. unfold conv, snapshot_turn_slice. cbn. by destruct (turn_capture (state a)). Qed.
Lemma conv_rebase a : conv (on_state rebase_turn_capture_offset a) = conv a.
Proof. unfold conv, rebase_turn_capture_offset. cbn. by destruct (turn_capture (state a)). Qed.
Lemma conv_mark a : conv (on_state mark_compaction a) = conv a.
Proof. unfold conv, mark_compaction. cbn. by destruct (turn_capture (state a)). Qed.
Lemma conv_set l a : conv (on_state (set_conversation l) a) = l.
Proof. done. Qed.

Hint Rewrite conv_snapshot conv_rebase conv_mark conv_set : chat.

(** The integrity repair with its decision to persist. *)
Lemma ensure_unfold reason a :
  ∃ changed : bool,
    (changed = false → repaired reason (conv a) = conv a)
    ∧ ensure_conversation_integrity_with_reason reason a =
      let b := on_state (set_conversation (repaired reason (conv a))) (on_state snapshot_turn_slice a) in
      on_state rebase_turn_capture_offset
        (if changed then persist (ReplaceHistory (repaired reason (conv a))) b else b).
Proof.
  unfold ensure_conversation_integrity_with_reason. rewrite conv_snapshot.
  pose proof (integrity_items reason (conv a)) as Hi.
  destruct (dedup_duplicate_tool_results (conv a)) as [l1 n].
  destruct (repair_dangling_tool_calls l1 reason) as [l2 m]. destruct Hi as [-> Hi].
  by exists ((0 <? m) || (0 <? n)).
Qed.

Lemma ensure_conv reason a :
  conv (ensure_conversation_integrity_with_reason reason a) = repaired reason (conv a).
Proof.
  destruct (ensure_unfold reason a) as (changed & _ & ->). cbv zeta. rewrite conv_rebase.
  by destruct changed.
Qed.

(** What the repair leaves alone. *)
Lemma ensure_rest reason a :
  let b := ensure_conversation_integrity_with_reason reason a in
  total_tokens (state b) = total_tokens (state a)
  ∧ sampling_config (state b) = sampling_config (state a) ∧ process b = process a.
Proof.
  cbv zeta. destruct (ensure_unfold reason a) as (changed & _ & ->). cbv zeta.
  unfold snapshot_turn_slice, rebase_turn_capture_offset.
  destruct changed; cbn; repeat (case_match; cbn); done.
Qed.

(** ** Requests *)

Section requests.
Context `{HeadroomEnv} `{JsonLengths}.

(** The reminder in the actor's own conversation; what is left of it is for the copy. *)
Lemma persist_reminder_reminded (reminder : option text) (b : bool) (a : Actor) :
  reminded (if b then reminder else None) (conv a) (conv (persist_reminder reminder b a).1)
  ∧ ((persist_reminder reminder b a).2 = None ∧ (reminder = None ∨ b = true)
     ∨ ∃ r, reminder = Some r ∧ (persist_reminder reminder b a).2 = Some r
         ∧ (b = true → (inject_memory_reminder (conv (persist_reminder reminder b a).1) r).2 = false)).
Proof.
  unfold persist_reminder. destruct reminder as [r|]; [|destruct b; split; try done; left; auto].
  destruct b; [|split; [done|right; by exists r]].
  rewrite conv_snapshot. pose proof (inject_reminded (conv a) r) as Hr. pose proof (inject_unchanged (conv a) r) as Hu.
  destruct (inject_memory_reminder (conv a) r) as [items injected] eqn:E. cbn [fst snd] in *.
  destruct injected; cbn [fst snd]; rewrite !conv_rebase; split; try exact Hr; [left; auto|].
  right. exists r. split_and!; [done..|]. intros _. change (conv _) with items. by rewrite Hu, E.
Qed.

(** The stages of the copy, in order. *)
Lemma request_items_stages (a : Actor) (b1 b2 b3 : bool) (n : Z) (r0 : option text) :
  ∃ l1 l2 body,
    Forall2 evicted_item (conv a) l1 ∧ (b3 = false → l1 = conv a)
    ∧ Forall2 trimmed_item l1 l2 ∧ (b1 = false → l2 = l1)
    ∧ Forall2 compressed_item l2 body ∧ (b2 = false → body = l2)
    ∧ (request_items a b1 b2 b3 n r0).1.1 =
        match r0 with Some r => (inject_memory_reminder body r).1 | None => body end.
Proof.
  unfold request_items.
  pose proof (compact_images_evicted (conv a) n IMAGE_COMPACT_RECLAIM_TARGET_BYTES) as H1.
  destruct (compact_images_to_byte_budget _ _ _) as [items o]. cbn [fst] in H1.
  set (l1 := if b3 then items else conv a). set (l2 := if b1 then prune_conversation (pruning_config a) l1 else l1).
  pose proof (compress_compressed l2 (process a)) as H3.
  exists l1, l2, (if b2 then (compress_tool_results l2 (process a)).1 else l2).
  assert (Forall2 evicted_item (conv a) l1) as Hl1 by by destruct b3.
  assert (Forall2 trimmed_item l1 l2) as Hl2 by by (destruct b1; [apply prune_trimmed|]).
  split_and!; [done|by destruct b3|done|by destruct b1|by destruct b2|by destruct b2|].
  subst l2 l1. destruct b3; destruct b2; cbn zeta; try destruct (compress_tool_results _ _) as [? [??]]; done.
Qed.

(** The system prompt passes through the stages. *)
Lemma stages_head l l1 l2 body :
  Forall2 evicted_item l l1 → Forall2 trimmed_item l1 l2 → Forall2 compressed_item l2 body →
  match l with System s :: _ => ∃ k, body = System s :: k | _ => True end.
Proof.
  intros [|i j ? ? H1 _]; [done|]. destruct i; try done. inversion H1; subst.
  intros H2. apply Forall2_cons_inv_l in H2 as (? & ? & H2 & _ & ->). inversion H2; subst.
  intros H3. apply Forall2_cons_inv_l in H3 as (? & ? & H3 & _ & ->). inversion H3; subst. by eexists.
Qed.

(** What a build makes of the actor's conversation, with no change where the build had no
    reason for one. *)
Lemma build_stages tools (reminder : option text) (b : bool) trace cid rid (a : Actor) :
  let '(a', req) := build_conversation_request tools reminder b trace cid rid a in
  reminded (if b then reminder else None) (conv a) (conv a')
  ∧ ∃ l1 l2 body,
      Forall2 evicted_item (conv a') l1
      ∧ ((conversation_body_bytes (conv a') < IMAGE_COMPACT_TRIGGER_BYTES)%Z → l1 = conv a')
      ∧ Forall2 trimmed_item l1 l2
      ∧ (should_prune (total_tokens (state a)) (context_window (sampling_config (state a))) = false → l2 = l1)
      ∧ Forall2 compressed_item l2 body ∧ (is_enabled (process a) = false → body = l2)
      ∧ reminded (if b then None else reminder) body (req_items req).
Proof.
  unfold build_conversation_request.
  pose proof (persist_reminder_reminded reminder b a) as [Hp Hleft].
  destruct (persist_reminder reminder b a) as [a1 left1]. cbn [fst snd] in *.
  set (b1 := should_prune _ _). set (b2 := is_enabled (process a)).
  set (b3 := (IMAGE_COMPACT_TRIGGER_BYTES <=? _)%Z).
  set (c := b1 || _ || _ || _).
  assert (∃ l1 l2 body,
    Forall2 evicted_item (conv a1) l1 ∧ (b3 = false → l1 = conv a1)
    ∧ Forall2 trimmed_item l1 l2 ∧ (b1 = false → l2 = l1)
    ∧ Forall2 compressed_item l2 body ∧ (b2 = false → body = l2)
    ∧ (if c then request_items a1 b1 b2 b3 (conversation_body_bytes (conv a1)) left1
       else (conv a1, None, process a1)).1.1 =
        match left1 with Some r => (inject_memory_reminder body r).1 | None => body end)
    as (l1 & l2 & body & H1 & E1 & H2 & E2 & H3 & E3 & Hi).
  { destruct c eqn:Hc; [apply request_items_stages|].
    exists (conv a1), (conv a1), (conv a1). split_and!; try done. destruct left1 as [r|]; [|done].
    assert (c = true) as Hc'; [|congruence]. unfold c. rewrite bool_decide_true by done.
    by destruct b1. }
  destruct (if c then _ else _) as [[items ev] p]. cbn [fst] in Hi.
  pose proof (stages_head _ _ _ _ H1 H2 H3) as Hhead.
  assert (reminded (if b then None else reminder) body items) as Hr.
  { destruct Hleft as [[-> Hb]|(r & -> & -> & Hb)].
    - rewrite Hi. destruct Hb as [->| ->]; [by destruct b|done].
    - destruct b; [|rewrite Hi; apply inject_reminded].
      cbn. rewrite Hi. by eapply inject_again, Hhead; apply Hb. }
  destruct (0 <? inline_image_count (conv a1)); (split; [exact Hp|]);
    exists l1, l2, body; split_and!; try done; intros Hb; apply E1, Z.leb_gt, Hb.
Qed.

End requests.

(** C2: building a request never panics, whatever the state of the actor.  First the
    actor's conversation is repaired (every call gets one result, behind the message
    that makes it); a memory reminder that is to be kept is put into its system
    prompt, at its end or in place of an earlier reminder and all behind it, or into a
    system message of its own, and nothing else of it changes.  The request is a copy of that conversation, item by
    item, in which, in this order: images may have become the placeholder, only in
    user messages and only when the conversation has reached the trigger size; tool
    results may have become the notice that they are too old, or their beginning and
    their end, only when the tokens exceed half of the window; tool results may have
    become what the compressor makes of them, only when the compression is on; and a
    reminder that is not to be kept is put in as above.  All other contents are those
    of the conversation.  So the request has a result for every tool call, right
    behind the message that makes the call, and, behind calls with distinct
    identifiers, no two results of the same identifier. *)
Theorem request_is_paired `{HeadroomEnv} `{JsonLengths} (a : Actor) (tools : list ToolSpec)
    (reminder : option text) (b : bool) (trace : option text) (cid rid : text) :
  ∃ a' req l1 l2 body,
    handle_command (BuildConversationRequest tools reminder b trace cid rid) a = Some (a', RRequest req)
    ∧ reminded (if b then reminder else None) (repaired UserCancelled (conv a)) (conv a')
    ∧ Forall2 evicted_item (conv a') l1
    ∧ ((conversation_body_bytes (conv a') < IMAGE_COMPACT_TRIGGER_BYTES)%Z → l1 = conv a')
    ∧ Forall2 trimmed_item l1 l2
    ∧ (should_prune (total_tokens (state a)) (context_window (sampling_config (state a))) = false → l2 = l1)
    ∧ Forall2 compressed_item l2 body
    ∧ (is_enabled (process a) = false → body = l2)
    ∧ reminded (if b then None else reminder) body (req_items req)
    ∧ has_dangling_tool_calls (req_items req) = false
    ∧ Forall (λ r, answered_once r.1 (ids r.2)) (runs (req_items req)).
Proof.
  cbn [handle_command]. set (a0 := ensure_conversation_integrity a).
  pose proof (build_stages tools reminder b trace cid rid a0) as Hb.
  destruct (build_conversation_request _ _ _ _ _ _ _) as [a' req].
  destruct Hb as (Hr & l1 & l2 & body & H1 & E1 & H2 & E2 & H3 & E3 & Hr').
  unfold a0, ensure_conversation_integrity in *. rewrite ensure_conv in Hr.
  destruct (ensure_rest UserCancelled a) as (Et & Ec & Ep). rewrite Et, Ec in E2. rewrite Ep in E3.
  exists a', req, l1, l2, body.
  assert (framed (repaired UserCancelled (conv a)) (req_items req)) as Hf.
  { etransitivity; [by eapply reminded_framed|]. etransitivity; [|by eapply reminded_framed].
    etransitivity; [eapply framed_same, Forall2_impl; [done|apply evicted_role]|].
    etransitivity; eapply framed_same, Forall2_impl; [done|apply trimmed_role|done|apply compressed_role]. }
  split_and!; try done.
  - apply has_dangling_runs.
    apply (framed_runs (λ calls known, unanswered calls known = []) _ _ eq_refl Hf).
    apply has_dangling_runs, repaired_answered.
  - apply (framed_runs answered_once _ _ (λ _ _, NoDup_nil_2) Hf). apply repaired_once.
Qed.

(** ** Persistence *)

(** The history on disk after the calls to the persistence. *)
Definition write (h : list ConversationItem) (r : PersistenceRecord) : list ConversationItem :=
  match r with
  | Message i => h ++ [i]
  | ReplaceHistory l => l
  | FlushRecord => h
  end.

Definition disk (h : list ConversationItem) (a : Actor) : list ConversationItem :=
  foldl write h (persistence a).

Lemma disk_persist h r a : disk h (persist r a) = write (disk h a) r.
Proof. unfold disk. cbn. by rewrite foldl_app. Qed.

(** The history on disk is the conversation. *)
Definition mirrored (h : list ConversationItem) (a : Actor) : Prop := disk h a = conv a.

Lemma mirrored_state h f a :
  conversation (f (state a)) = conversation (state a) → mirrored h a → mirrored h (on_state f a).
Proof. intros Hf Hm. unfold mirrored, conv in *. cbn. by rewrite Hf. Qed.

Lemma mirrored_snapshot h a : mirrored h a → mirrored h (on_state snapshot_turn_slice a).
Proof. unfold mirrored. rewrite conv_snapshot. done. Qed.

Lemma mirrored_rebase h a : mirrored h a → mirrored h (on_state rebase_turn_capture_offset a).
Proof. unfold mirrored. rewrite conv_rebase. done. Qed.

Lemma mirrored_replace h l a :
  mirrored h (persist (ReplaceHistory l) (on_state (set_conversation l) a)).
Proof. unfold mirrored. by rewrite disk_persist. Qed.

Lemma mirrored_append h i a : mirrored h a → mirrored h (append_message i a).
Proof. unfold mirrored, append_message. intros Hm. unfold disk, conv in *. cbn. by rewrite foldl_app, Hm. Qed.

Lemma mirrored_ensure h reason a :
  mirrored h a → mirrored h (ensure_conversation_integrity_with_reason reason a).
Proof.
  intros Hm. destruct (ensure_unfold reason a) as (changed & Hc & ->). cbv zeta.
  apply mirrored_rebase. destruct changed; [apply mirrored_replace|].
  rewrite Hc by done. unfold mirrored. by rewrite conv_set.
Qed.

Lemma mirrored_replace_conversation h items b a a' :
  replace_conversation items b a = Some a' → mirrored h a'.
Proof.
  unfold replace_conversation. intros (base & _ & [= <-])%bind_Some.
  unfold mirrored, send_event, conv. cbn.
  set (a1 := if b then _ else _).
  unfold rebase_turn_capture_offset. cbn.
  destruct (turn_capture (state a1)); unfold disk; cbn; by rewrite foldl_app.
Qed.

Lemma mirrored_prune h a a' :
  mirrored h a → prune_retained_conversation a = Some a' → mirrored h a'.
Proof.
  intros Hm. unfold prune_retained_conversation.
  destruct (negb _); [by intros [= <-]|]. destruct (_ <? _)%nat; [by intros [= <-]|].
  cbv zeta. intros (n1 & _ & Hp)%bind_Some. revert Hp. destruct (0 <? _); [|by intros [= <-]].
  rewrite conv_set. intros (n2 & _ & [= <-])%bind_Some. apply mirrored_replace.
Qed.

Lemma mirrored_push_user h item reason a a' :
  mirrored h a → push_user_message_with_repair_reason item reason a = Some a' → mirrored h a'.
Proof.
  intros Hm. unfold push_user_message_with_repair_reason.
  intros (n & _ & Hp)%bind_Some. eapply mirrored_prune; [|exact Hp].
  apply mirrored_append, mirrored_state; [done|]. by apply mirrored_ensure.
Qed.

Lemma mirrored_push h item a a' : mirrored h a → push_message item a = Some a' → mirrored h a'.
Proof.
  intros Hm. unfold push_message.
  destruct item; try (intros (n & _ & [= <-])%bind_Some; apply mirrored_append, mirrored_state; done).
  intros [= <-]. by apply mirrored_append.
Qed.

Lemma mirrored_reminder h reminder b a : mirrored h a → mirrored h (persist_reminder reminder b a).1.
Proof.
  intros Hm. unfold persist_reminder. destruct reminder as [r|]; [|done]. destruct b; [|done].
  rewrite conv_snapshot. pose proof (inject_unchanged (conv a) r) as Hu.
  destruct (inject_memory_reminder (conv a) r) as [items injected]. cbn [fst snd] in *.
  destruct injected; cbn [fst]; apply mirrored_rebase; [apply mirrored_replace|].
  rewrite Hu by done. unfold mirrored. by rewrite conv_set.
Qed.

Lemma mirrored_build `{HeadroomEnv} `{JsonLengths} h tools reminder b trace cid rid a :
  mirrored h a → mirrored h (build_conversation_request tools reminder b trace cid rid a).1.
Proof.
  intros Hm. unfold build_conversation_request.
  apply (mirrored_reminder h reminder b) in Hm. destruct (persist_reminder reminder b a) as [a1 left1].
  destruct (if _ || _ then _ else _) as [[items ev] p].
  by destruct (0 <? inline_image_count (conv a1)).
Qed.

Lemma mirrored_repair h dry a a' r :
  mirrored h a → repair_history_cmd dry a = Some (a', r) → mirrored h a'.
Proof.
  intros Hm. unfold repair_history_cmd. pose proof (report_unchanged (conv a)) as Hu.
  destruct (repair_history (conv a)) as [items report]. cbn [fst snd] in Hu.
  destruct dry; [by intros [= <- _]|]. destruct (report_changed report).
  - intros (a1 & Ha1 & [= <- _])%bind_Some. by eapply mirrored_replace_conversation.
  - intros [= <- _]. rewrite Hu by done. exact Hm.
Qed.

Lemma mirrored_head h prompt a a' r :
  mirrored h a → replace_system_head prompt a = Some (a', r) → mirrored h a'.
Proof.
  intros Hm. unfold replace_system_head. destruct (match conv a with _ :: _ => _ | _ => _ end);
    [by intros [= <- _]|].
  destruct (replace_or_insert_system_head (conv a) prompt) as [items ch].
  intros (a1 & Ha1 & [= <- _])%bind_Some. by eapply mirrored_replace_conversation.
Qed.

Lemma mirrored_truncate h n a a' :
  mirrored h a → truncate_to_prompt_index n a = Some a' → mirrored h a'.
Proof.
  intros Hm. unfold truncate_to_prompt_index. destruct (_ <=? _); [by intros [= <-]|].
  intros (t & _ & [= <-])%bind_Some. unfold mirrored, disk, conv. cbn. by rewrite foldl_app.
Qed.

(** The one command that replaces the conversation and leaves the disk alone. *)
Definition restores (cmd : ChatStateCommand) : bool :=
  match cmd with RestoreSnapshot _ => true | _ => false end.

Lemma mirrored_step `{HeadroomEnv} `{JsonLengths} h cmd a a' r :
  mirrored h a → restores cmd = false → handle_command cmd a = Some (a', r) → mirrored h a'.
Proof.
  intros Hm Hr. destruct cmd; cbn [handle_command restores] in *; try done;
    unfold mutate, mutate_opt, reply;
    try (intros [= <- _]; exact Hm);
    try (intros (b & Hb & [= <- _])%fmap_Some;
         first [by eapply mirrored_push_user | by eapply mirrored_push
               |by eapply mirrored_replace_conversation]).
  - intros (b & (n & _ & [= <-])%bind_Some & [= -> _])%fmap_Some. exact Hm.
  - intros [= <- _]. unfold record_subagent_usage. destruct (_ && _); exact Hm.
  - destruct (default false turn_active); [by intros [= <- _]|].
    intros ([b rep] & Hb & [= <- _])%bind_Some. by eapply mirrored_repair.
  - intros ([b ch] & Hb & [= <- _])%bind_Some. by eapply mirrored_head.
  - intros [= <- _]. unfold mirrored. by rewrite disk_persist.
  - intros [= <- _]. apply mirrored_state; [|done]. unfold seal_harness_trace_turn.
    by destruct (harness_trace_buffer (state a)).
  - intros [= <- _]. by apply mirrored_ensure.
  - pose proof (mirrored_build h tools memory_reminder persist_memory_reminder trace conv_id req_id
      (ensure_conversation_integrity a)) as Hb.
    destruct (build_conversation_request _ _ _ _ _ _ _) as [b req]. intros [= <- _].
    apply Hb. by apply mirrored_ensure.
  - intros (n & _ & [= <- _])%bind_Some. exact Hm.
  - intros (b & (c & Hc & ->)%fmap_Some & [= -> _])%fmap_Some.
    apply mirrored_state; [done|]. by eapply mirrored_truncate.
  - intros [= <- _]. apply mirrored_state; [done|]. apply mirrored_state; [|done].
    unfold seal_harness_trace_turn. by destruct (harness_trace_buffer (state a)).
Qed.

(** Rule induction over the commands of a run. *)
Lemma run_ind `{HeadroomEnv} `{JsonLengths} (P : Actor → Prop) (ok : ChatStateCommand → Prop) :
  (∀ cmd a a' r, P a → ok cmd → handle_command cmd a = Some (a', r) → P a') →
  ∀ cmds a a', P a → Forall ok cmds → run cmds a = Some a' → P a'.
Proof.
  intros Hstep cmds. unfold run. induction cmds as [|cmd cmds IH]; intros a a' Ha Hok.
  { by intros [= <-]. }
  apply Forall_cons in Hok as [Hc Hok]. cbn [foldl]. unfold step at 2. cbn [mbind option_bind].
  destruct (handle_command cmd a) as [[b r]|] eqn:Hb; cbn.
  - apply IH; [|done]. by eapply Hstep.
  - intros Hn. exfalso. clear -Hn. induction cmds; cbn in *; [done|]. by apply IHcmds.
Qed.

Lemma new_conversation l config s :
  ChatState_new l config = Some s → conversation s = repaired UserCancelled l.
Proof.
  unfold ChatState_new. pose proof (integrity_items UserCancelled l) as Hi.
  destruct (dedup_duplicate_tool_results l) as [l1 n].
  destruct (repair_dangling_tool_calls l1 UserCancelled) as [l2 m]. destruct Hi as [-> _].
  by intros (t & _ & [= <-])%bind_Some.
Qed.

(** C8: the history on disk mirrors the conversation.  If it does at first, then
    after any sequence of commands but [RestoreSnapshot], replaying the calls to
    the persistence gives exactly the conversation in memory, and a process that
    starts again from the disk has that conversation, repaired. *)
Theorem disk_mirrors `{HeadroomEnv} `{JsonLengths} (h : list ConversationItem)
    (cmds : list ChatStateCommand) (a a' : Actor) :
  mirrored h a → Forall (λ cmd, restores cmd = false) cmds → run cmds a = Some a' →
  disk h a' = conv a'
  ∧ ∀ config s, ChatState_new (disk h a') config = Some s →
      conversation s = repaired UserCancelled (conv a').
Proof.
  intros Hm Hok Hrun.
  assert (mirrored h a') as Hm'.
  { eapply (run_ind (mirrored h) (λ cmd, restores cmd = false)); [|exact Hm|exact Hok|exact Hrun].
    intros. by eapply mirrored_step. }
  split; [exact Hm'|]. intros config s Hs. rewrite <- Hm'. by eapply new_conversation.
Qed.

(** ** Turn capture *)

Definition capture_ok (s : ChatState) : Prop :=
  ∀ cap, turn_capture s = Some cap → turn_start_offset cap <= length (conversation s).

(** More messages, and whether a compaction occurred. *)
Definition extend (new : list ConversationItem) (compacted : bool) (c : TurnCapture) : TurnCapture :=
  mkTurnCapture (tc_messages c ++ new) (tc_compaction_occurred c || compacted).

(** The capture of [a'] is that of [a], extended. *)
Definition captures (new : list ConversationItem) (compacted : bool) (a a' : Actor) : Prop :=
  capture_ok (state a')
  ∧ take_turn_messages (state a') = extend new compacted <$> take_turn_messages (state a).

Lemma extend_nil c : extend [] false c = c.
Proof. destruct c. unfold extend. cbn. by rewrite app_nil_r, orb_false_r. Qed.

Lemma captures_same a a' :
  capture_ok (state a) → conv a' = conv a → turn_capture (state a') = turn_capture (state a) →
  captures [] false a a'.
Proof.
  unfold captures, capture_ok, take_turn_messages, conv. intros Hok -> ->. split; [done|].
  destruct (turn_capture (state a)); cbn; [by rewrite extend_nil|done].
Qed.

Lemma captures_trans new1 new2 b1 b2 a1 a2 a3 :
  captures new1 b1 a1 a2 → captures new2 b2 a2 a3 → captures (new1 ++ new2) (b1 || b2) a1 a3.
Proof.
  intros [_ H1] [Hok H2]. split; [done|]. rewrite H2, H1.
  destruct (take_turn_messages (state a1)) as [c|]; [|done]. cbn. unfold extend. cbn.
  by rewrite app_assoc, orb_assoc.
Qed.

(** A change between a snapshot of the slice and a rebase of the offset. *)
Lemma captures_rewrite (compacted : bool) a b :
  turn_capture (state b) =
    turn_capture ((if compacted then mark_compaction else id) (snapshot_turn_slice (state a))) →
  captures [] compacted a (on_state rebase_turn_capture_offset b).
Proof.
  intros Hb. unfold captures, capture_ok, take_turn_messages, rebase_turn_capture_offset.
  cbn [state on_state]. unfold snapshot_turn_slice in Hb.
  destruct (turn_capture (state a)) as [cap|] eqn:Hc.
  - rewrite Hb. unfold mark_compaction.
    destruct compacted; cbn; (split; [by intros ? [= <-]|]); unfold extend, turn_tail; cbn;
      rewrite drop_all, !app_nil_r, ?orb_false_r, ?orb_true_r; done.
  - assert (turn_capture (state b) = None) as ->.
    { rewrite Hb. destruct compacted; [unfold mark_compaction; by rewrite Hc|done]. }
    rewrite Hb. destruct compacted; [unfold mark_compaction; rewrite Hc; cbn; by rewrite Hc|].
    cbn. by rewrite Hc.
Qed.

Lemma captures_append i a : capture_ok (state a) → captures [i] false a (append_message i a).
Proof.
  intros Hok. unfold captures, capture_ok, take_turn_messages, append_message. cbn.
  split.
  - intros cap Hcap. apply Hok in Hcap. rewrite length_app. lia.
  - destruct (turn_capture (state a)) as [cap|] eqn:Hc; [|done]. cbn. unfold extend, turn_tail. cbn.
    apply Hok in Hc. rewrite drop_app_le, app_assoc, orb_false_r by done. done.
Qed.

Lemma captures_ensure reason a :
  captures [] false a (ensure_conversation_integrity_with_reason reason a).
Proof.
  destruct (ensure_unfold reason a) as (changed & _ & ->). cbv zeta.
  apply captures_rewrite. by destruct changed.
Qed.

Lemma captures_replace items b a a' :
  replace_conversation items b a = Some a' → captures [] b a a'.
Proof.
  unfold replace_conversation. intros (base & _ & [= <-])%bind_Some.
  apply (captures_rewrite b a). by destruct b.
Qed.

(** After a user message, a prune changes no item of the captured tail. *)
Lemma prune_after_user u a a' :
  capture_ok (state a) → (∀ cap, turn_capture (state a) = Some cap →
    turn_start_offset cap = length (conv a)) →
  prune_retained_conversation (append_message (User u) a) = Some a' →
  captures [User u] false a a'.
Proof.
  intros Hok Hoff Hp. pose proof (captures_append (User u) a Hok) as Happ.
  unfold prune_retained_conversation in Hp.
  destruct (negb _); [by simplify_eq|]. destruct (_ <? hard_clear_age_turns _); [by simplify_eq|].
  cbv zeta in Hp. apply bind_Some in Hp as (n & _ & Hp). revert Hp.
  set (t := clear_threshold _ _ _).
  assert (∃ k, reverse (backward_scan (clear_result t) 0 false (reverse (conv (append_message (User u) a))))
    = k ++ [User u] ∧ length k = length (conv a)) as (k & -> & Hk).
  { change (conv (append_message (User u) a)) with (conv a ++ [User u]). rewrite reverse_snoc. cbn [backward_scan]. rewrite reverse_cons.
    eexists. split; [done|]. rewrite length_reverse.
    rewrite <- (length_reverse (conv a)). symmetry.
    eapply Forall2_length, (backward_scan_role (clear_result t)).
    intros j tr. unfold clear_result. by repeat case_match. }
  destruct (0 <? _); [|by intros [= <-]]. rewrite conv_set.
  intros (m & _ & [= <-])%bind_Some. destruct Happ as [_ Happ]. split.
  - intros cap Hcap. cbn in Hcap |- *. rewrite (Hoff cap Hcap), length_app, Hk. lia.
  - rewrite <- Happ. unfold take_turn_messages. cbn.
    destruct (turn_capture (state a)) as [cap|] eqn:Hc; [|done]. cbn. f_equal. f_equal. f_equal.
    unfold turn_tail. rewrite (Hoff cap eq_refl). rewrite drop_app_length'; [|done].
    by rewrite drop_app_length'.
Qed.

Lemma ensure_offset reason a cap :
  turn_capture (state (ensure_conversation_integrity_with_reason reason a)) = Some cap →
  turn_start_offset cap = length (conv (ensure_conversation_integrity_with_reason reason a)).
Proof.
  destruct (ensure_unfold reason a) as (changed & _ & ->). cbv zeta. rewrite conv_rebase.
  unfold rebase_turn_capture_offset. cbn [state on_state].
  destruct (turn_capture (state (if changed then _ else _))) as [c|] eqn:Hc; [|by rewrite Hc].
  cbn. by intros [= <-].
Qed.

Lemma captures_push_user u reason a a' :
  push_user_message_with_repair_reason (User u) reason a = Some a' → captures [User u] false a a'.
Proof.
  unfold push_user_message_with_repair_reason. intros (n & _ & Hp)%bind_Some.
  pose proof (captures_ensure reason a) as He.
  set (b := on_state (add_estimate n) (ensure_conversation_integrity_with_reason reason a)) in *.
  apply (captures_trans [] [User u] false false _ b).
  { destruct He as [H1 H2]. by split. }
  apply prune_after_user; [apply He| |done]. intros cap Hcap. by apply (ensure_offset reason a).
Qed.

Lemma captures_estimate new b n a a' :
  captures new b (on_state (add_estimate n) a) a' → captures new b a a'.
Proof. intros H. exact H. Qed.

Lemma captures_push item a a' :
  capture_ok (state a) → push_message item a = Some a' → captures [item] false a a'.
Proof.
  intros Hok. unfold push_message.
  destruct item;
    try (intros (n & _ & [= <-])%bind_Some; by eapply captures_estimate, captures_append).
  intros [= <-]. by apply captures_append.
Qed.

Lemma captures_reminder reminder b a :
  capture_ok (state a) → captures [] false a (persist_reminder reminder b a).1.
Proof.
  intros Hok. unfold persist_reminder.
  destruct reminder as [r|]; [|by apply captures_same]. destruct b; [|by apply captures_same].
  destruct (inject_memory_reminder _ r) as [items injected].
  destruct injected; by apply captures_rewrite.
Qed.

Lemma captures_build `{HeadroomEnv} `{JsonLengths} tools reminder b trace cid rid a :
  capture_ok (state a) →
  captures [] false a (build_conversation_request tools reminder b trace cid rid a).1.
Proof.
  intros Hok. unfold build_conversation_request. pose proof (captures_reminder reminder b a Hok) as Hr.
  destruct (persist_reminder reminder b a) as [a1 left1].
  destruct (if _ || _ then _ else _) as [[items ev] p].
  by destruct (0 <? inline_image_count (conv a1)).
Qed.

Lemma captures_restore snap a a' : restore_snapshot snap a = Some a' → captures [] false a a'.
Proof.
  unfold restore_snapshot. intros (n & _ & [= <-])%bind_Some.
  exact (captures_rewrite false a
    (on_state (set_conversation (snap_conversation snap)) (on_state snapshot_turn_slice a)) eq_refl).
Qed.

(** What a command pushes. *)
Definition pushed (cmd : ChatStateCommand) : list ConversationItem :=
  match cmd with
  | PushUserMessage i | PushUserMessageAndAck i | PushUserMessageWithRepairReason i _
  | PushAssistantResponse i | PushToolResult i => [i]
  | _ => []
  end.

Definition compacts (cmd : ChatStateCommand) : bool :=
  match cmd with ReplaceConversation _ b => b | _ => false end.

(** The commands of a turn: not those that begin, take or abandon a capture, no
    repair of the history, and only user items as user messages. *)
Definition within_turn (cmd : ChatStateCommand) : bool :=
  match cmd with
  | PushUserMessage i | PushUserMessageAndAck i | PushUserMessageWithRepairReason i _ => is_user i
  | BeginTurnCapture | TakeTurnMessages | TruncateToPromptIndex _ => false
  | RepairHistory dry active => dry || default false active
  | _ => true
  end.

Lemma captures_step `{HeadroomEnv} `{JsonLengths} cmd a a' r :
  capture_ok (state a) → within_turn cmd = true → handle_command cmd a = Some (a', r) →
  captures (pushed cmd) (compacts cmd) a a'.
Proof.
  intros Hok Hw. destruct cmd; cbn [handle_command pushed compacts within_turn] in *; try done;
    unfold mutate, mutate_opt, reply;
    try (intros [= <- _]; by apply captures_same);
    try (intros (b & Hb & [= -> _])%fmap_Some;
         first [destruct item; try done; by eapply captures_push_user | by eapply captures_push
               |by eapply captures_replace |by eapply captures_restore]).
  - intros (b & (n & _ & [= <-])%bind_Some & [= -> _])%fmap_Some. by apply captures_same.
  - intros [= <- _]. unfold record_subagent_usage. destruct (_ && _); by apply captures_same.
  - destruct (default false turn_active); [by intros [= <- _]; apply captures_same|].
    rewrite orb_false_r in Hw. subst dry_run. unfold repair_history_cmd.
    destruct (repair_history (conv a)) as [items report]. intros [= <- _]. by apply captures_same.
  - intros ([b ch] & Hb & [= <- _])%bind_Some. unfold replace_system_head in Hb.
    destruct (match conv a with _ :: _ => _ | _ => _ end); [simplify_eq; by apply captures_same|].
    destruct (replace_or_insert_system_head (conv a) prompt) as [items ch'].
    apply bind_Some in Hb as (a1 & Ha1 & [= <- _]). by eapply captures_replace.
  - intros [= <- _]. apply captures_same; [done| |]; unfold conv, seal_harness_trace_turn; cbn;
      by destruct (harness_trace_buffer (state a)).
  - intros [= <- _]. apply captures_ensure.
  - pose proof (captures_ensure UserCancelled a) as He.
    pose proof (captures_build tools memory_reminder persist_memory_reminder trace conv_id req_id
      (ensure_conversation_integrity a) (proj1 He)) as Hb.
    destruct (build_conversation_request _ _ _ _ _ _ _) as [b req]. intros [= <- _].
    exact (captures_trans [] [] false false _ _ _ He Hb).
  - intros (n & _ & [= <- _])%bind_Some. by apply captures_same.
  - intros [= <- _]. apply captures_same; [done| |]; unfold conv, seal_harness_trace_turn; cbn;
      by destruct (harness_trace_buffer (state a)).
Qed.

(** C10: a captured turn is exactly what was pushed.  After [BeginTurnCapture] and
    any commands of a turn, through integrity repairs, pruning, compactions,
    snapshot restores, changes of the system prompt and memory reminders, which
    all rewrite the conversation, [TakeTurnMessages] returns the items pushed since
    then, in order and unchanged, with the flag set exactly if a compaction
    occurred. *)
Theorem turn_capture_exact `{HeadroomEnv} `{JsonLengths} (cmds : list ChatStateCommand)
    (a a' : Actor) :
  Forall (λ cmd, within_turn cmd = true) cmds →
  run (BeginTurnCapture :: cmds) a = Some a' →
  snd <$> handle_command TakeTurnMessages a'
  = Some (RCapture (Some (mkTurnCapture (cmds ≫= pushed) (any_b compacts cmds)))).
Proof.
  intros Hw Hrun. cbn [handle_command fmap option_fmap option_map snd]. do 2 f_equal.
  assert (∀ new b l a1, Forall (λ cmd, within_turn cmd = true) l →
    capture_ok (state a1) → take_turn_messages (state a1) = Some (mkTurnCapture new b) →
    run l a1 = Some a' →
    take_turn_messages (state a') = Some (mkTurnCapture (new ++ (l ≫= pushed)) (b || any_b compacts l)))
    as Hind.
  { clear. intros new b l. revert new b. induction l as [|cmd l IH]; intros new b a1 Hw Hok Ht.
    { intros [= <-]. cbn. by rewrite app_nil_r, orb_false_r. }
    apply Forall_cons in Hw as [Hc Hw]. unfold run. cbn [foldl]. unfold step at 2.
    cbn [mbind option_bind]. destruct (handle_command cmd a1) as [[a2 r]|] eqn:Hh; cbn.
    - destruct (captures_step _ _ _ _ Hok Hc Hh) as [Hok2 Ht2]. rewrite Ht in Ht2. intros Hrun.
      rewrite (IH _ _ a2 Hw Hok2 Ht2 Hrun). cbn. by rewrite app_assoc, orb_assoc.
    - intros Hn. exfalso. clear -Hn. induction l; cbn in *; [done|]. by apply IHl. }
  apply (Hind [] false cmds (on_state begin_turn_capture a)); [done| | |exact Hrun].
  - intros cap [= <-]. done.
  - unfold take_turn_messages. cbn. unfold turn_tail. by rewrite drop_all.
Qed.

(** ** Rewind *)

Lemma truncate_position_spec target uc i l :
  uc <= target →
  ∃ n, truncate_position target uc i l = i + n ∧ n <= length l
    ∧ uc + users (take n l) <= target
    ∧ (n < length l → ∃ u, l !! n = Some (User u) ∧ uc + users (take n l) = target).
Proof.
  revert uc i. induction l as [|x l IH]; intros uc i Huc.
  { exists 0. cbn. split_and!; unfold users; cbn; lia. }
  destruct (is_user x) eqn:Hx.
  - destruct x as [|u| | | |]; try done. cbn [truncate_position].
    destruct (uc =? target) eqn:He; breflect.
    + exists 0. rewrite take_0. change (users []) with 0. split_and!; cbn; [lia|lia|lia|].
      intros _. exists u. split; [done|lia].
    + destruct (IH (S uc) (S i) ltac:(lia)) as (n & -> & H1 & H2 & H3).
      exists (S n). cbn [take length]. rewrite users_cons. cbn [is_user].
      split_and!; [lia|lia|lia|]. intros Hn. destruct (H3 ltac:(lia)) as (u' & Hu & Ht).
      exists u'. split; [done|lia].
  - assert (truncate_position target uc i (x :: l) = truncate_position target uc (S i) l) as ->
      by by destruct x.
    destruct (IH uc (S i) Huc) as (n & -> & H1 & H2 & H3).
    exists (S n). cbn [take length]. rewrite users_cons, Hx.
    split_and!; [lia|lia|lia|]. intros Hn. destruct (H3 ltac:(lia)) as (u' & Hu & Ht).
    exists u'. split; [done|lia].
Qed.

(** A rewind keeps a prefix of the conversation with at most the target
    number of user items, and cuts nothing or exactly at the user item that would
    exceed it; the prompt index, the cached prompts and the token counts are those
    of the prefix, the open capture and the open bill are dropped, and a rewind
    that is not to an earlier prompt changes neither conversation nor disk. *)
Theorem rewind_exact `{HeadroomEnv} `{JsonLengths} (target : nat) (a a' : Actor) (r : Reply) :
  handle_command (TruncateToPromptIndex target) a = Some (a', r) →
  (prompt_index (state a) <= target → conv a' = conv a ∧ persistence a' = persistence a)
  ∧ (target < prompt_index (state a) →
     ∃ n, conv a' = take n (conv a) ∧ users (conv a') <= target
       ∧ (n < length (conv a) →
          users (conv a') = target ∧ ∃ u, conv a !! n = Some (User u))
       ∧ prompt_index (state a') = target
       ∧ prompt_texts (state a') = take target (prompt_texts (state a))
       ∧ estimate_conversation_tokens (conv a') = Some (total_tokens (state a'))
       ∧ persistence a' = persistence a ++ [ReplaceHistory (conv a')])
  ∧ turn_capture (state a') = None ∧ prompt_usage (state a') = None.
Proof.
  cbn [handle_command]. intros (b & (c & Hc & ->)%fmap_Some & [= -> _])%fmap_Some.
  split_and!; [| |done|done]; intros Ht; unfold truncate_to_prompt_index in Hc.
  - rewrite (proj2 (Nat.leb_le _ _) Ht) in Hc. by simplify_eq.
  - rewrite (proj2 (Nat.leb_gt _ _) Ht) in Hc. apply bind_Some in Hc as (tokens & Hk & [= <-]).
    destruct (truncate_position_spec target 0 0 (conv a) ltac:(lia)) as (n & Hn & H1 & H2 & H3).
    rewrite Hn in *. exists n. unfold conv at 1 2. cbn [conversation state on_state].
    split_and!; [done|done| |done|done|done|done].
    intros Hlt. destruct (H3 Hlt) as (u & Hu & Hc). split; [done|by exists u].
Qed.

(** ** Snapshots *)

(** The round trip of a snapshot.  Restoring the snapshot of one state in any
    other actor gives a state with that very snapshot, provided that the snapshot
    has an estimate; the session bill, the harness traces and the calls to the
    persistence are those of the other actor, and its open bill is dropped. *)
Theorem snapshot_roundtrip `{HeadroomEnv} `{JsonLengths} (a b : Actor) :
  (0 < estimate_at_last_response (state a))%Z →
  ∃ b', handle_command (RestoreSnapshot (snapshot (state a))) b = Some (b', NoReply)
    ∧ handle_command Snapshot b' = Some (b', RSnapshot (snapshot (state a)))
    ∧ session_usage (state b') = session_usage (state b)
    ∧ prompt_usage (state b') = None
    ∧ harness_trace_turns (state b') = harness_trace_turns (state b)
    ∧ persistence b' = persistence b ∧ events b' = events b.
Proof.
  intros He. cbn [handle_command]. unfold mutate_opt, restore_snapshot.
  cbn [snap_estimate_at_last_response snapshot]. rewrite (proj2 (Z.ltb_lt _ _) He).
  cbn [mbind option_bind fmap option_fmap option_map].
  eexists. split; [done|]. unfold reply, snapshot, rebase_turn_capture_offset, snapshot_turn_slice.
  cbn. destruct (turn_capture (state b)) eqn:Hc; cbn; rewrite ?Hc; split_and!; done.
Qed.

(** ** Pruning *)

Lemma scan_by_age_lookup f l i :
  scan_by_age f l !! i =
    match l !! i with
    | Some (ToolResult t) => Some (ToolResult (f (pred (users (drop (S i) l))) t))
    | o => o
    end.
Proof.
  revert i. induction l as [|x l IH]; intros i; [done|].
  destruct i as [|i]; [by destruct x|]. by destruct x; cbn; rewrite IH.
Qed.

Lemma clear_result_changed thr n t :
  clear_result thr n t ≠ t → thr <= n ∧ clear_result thr n t = with_content t HARD_CLEAR_PLACEHOLDER.
Proof.
  unfold clear_result. destruct (n <? thr) eqn:E; [done|]. breflect.
  by case_decide.
Qed.

Lemma changed_items_0 l l' : length l = length l' → changed_items l l' = 0 → l = l'.
Proof.
  unfold changed_items. revert l'. induction l as [|x l IH]; intros [|y l'] Hl; try done.
  unfold filter_b in *. cbn. case_bool_decide as Hxy; cbn; [|done].
  intros Hz. f_equal; [exact Hxy|]. apply IH; [by injection Hl|exact Hz].
Qed.

(** The backward scans of both prunings are a map over the results by their
    age, the number of user items after them less one.  The pruning of the stored
    conversation touches nothing but results, and clears one only when its age has
    reached the configured turns plus the number of user items that are not turns,
    so never before that many real turns; it replaces the content and keeps the
    identifier and the images. *)
Theorem pruning_by_age (config : PruningConfig) (l : list ConversationItem) (a a' : Actor) :
  prune_retained_conversation a = Some a' →
  (Z.of_nat (hard_clear_age_turns (pruning_config a) + length (conv a)) <= u64_max)%Z →
  prune_conversation config l
    = (if pruning_enabled config then scan_by_age (prune_result config) l else l)
  ∧ length (conv a') = length (conv a)
  ∧ ∀ i, conv a' !! i ≠ conv a !! i →
      ∃ t, conv a !! i = Some (ToolResult t)
        ∧ conv a' !! i = Some (ToolResult (with_content t HARD_CLEAR_PLACEHOLDER))
        ∧ hard_clear_age_turns (pruning_config a) <= prompt_index (state a)
        ∧ hard_clear_age_turns (pruning_config a) + (users (conv a) - prompt_index (state a))
          <= pred (users (drop (S i) (conv a))).
Proof.
  intros Hp Hu. split.
  { unfold prune_conversation. by rewrite backward_scan_age. }
  unfold prune_retained_conversation in Hp.
  destruct (negb _); [by simplify_eq|].
  destruct (_ <? hard_clear_age_turns _) eqn:Hi; [by simplify_eq|]. breflect.
  cbv zeta in Hp. apply bind_Some in Hp as (n & _ & Hp). rewrite backward_scan_age in Hp.
  destruct (0 <? changed_items _ _); [|by simplify_eq]. rewrite conv_set in Hp.
  apply bind_Some in Hp as (m & _ & [= <-]).
  match goal with |- context [conv (persist (ReplaceHistory ?k) ?x)] =>
    change (conv (persist (ReplaceHistory k) x)) with k end. split.
  { rewrite <- backward_scan_age, length_reverse, <- (length_reverse (conv a)). symmetry.
    eapply Forall2_length, (backward_scan_role (clear_result _)).
    intros j tr. unfold clear_result. by repeat case_match. }
  intros i. rewrite scan_by_age_lookup.
  destruct (conv a !! i) as [[| | |t| |]|] eqn:Hl; try done. intros Hne.
  destruct (clear_result_changed (clear_threshold (pruning_config a) (prompt_index (state a)) (conv a))
    (pred (users (drop (S i) (conv a)))) t) as [Hthr Heq]; [congruence|].
  exists t. rewrite Heq. split_and!; [done|done|done|].
  unfold clear_threshold in Hthr. rewrite usize_saturating_add_small in Hthr; [exact Hthr|].
  assert (length (filter_b is_user (conv a)) <= length (conv a))
    by apply sublist_length, filter_b_sublist. lia.
Qed.

(** ** Token counts *)

Lemma f64_round_nonneg max x : (0 <= max)%Z → (0 <= f64_round_as max x)%Z.
Proof.
  intros Hm. unfold f64_round_as. destruct x as [| s | |s m e]; [done|by destruct s|done|].
  destruct s; [done|]. apply Z.min_glb; [|done]. destruct (0 <=? e)%Z eqn:He.
  - apply Z.mul_nonneg_nonneg; [lia|]. apply Z.pow_nonneg. lia.
  - apply Z.leb_gt in He. assert (0 < 2 ^ (- e))%Z by (apply Z.pow_pos_nonneg; lia).
    apply Z.div_pos; lia.
Qed.

Lemma u64_sum_nonneg l : (0 <= u64_sum l)%Z.
Proof.
  unfold u64_sum. destruct l as [|x l _] using rev_ind; [done|].
  rewrite foldl_app. cbn. unfold u64_add. apply Z.mod_pos_bound. lia.
Qed.

(** Replacing the conversation reseeds the token counts from it: the estimate
    at the last response is that of the new conversation and nothing is pending;
    without a compaction the total is that estimate, and a compaction scales it by
    the provider's ratio but never raises a known total. *)
Theorem replace_reseeds_tokens `{HeadroomEnv} `{JsonLengths} (items : list ConversationItem)
    (is_compaction : bool) (a a' : Actor) (r : Reply) :
  handle_command (ReplaceConversation items is_compaction) a = Some (a', r) →
  conv a' = items
  ∧ estimate_conversation_tokens items = Some (estimate_at_last_response (state a'))
  ∧ estimated_tokens_since_model (state a') = 0%Z
  ∧ (is_compaction = false → total_tokens (state a') = estimate_at_last_response (state a'))
  ∧ (is_compaction = true → (0 < total_tokens (state a))%Z →
     (0 <= total_tokens (state a') <= total_tokens (state a))%Z)
  ∧ events a' = events a ++ [ConversationReset (length items); TokensUpdated (total_tokens (state a'))].
Proof.
  cbn [handle_command]. intros (b & Hb & [= -> _])%fmap_Some. unfold replace_conversation in Hb.
  apply bind_Some in Hb as (base & Hbase & [= <-]).
  set (a1 := if is_compaction then _ else _).
  assert (total_tokens (state a1) = total_tokens (state a)
    ∧ estimate_at_last_response (state a1) = estimate_at_last_response (state a)
    ∧ events a1 = events a) as (Ht & He & Hev).
  { unfold a1, mark_compaction, snapshot_turn_slice. destruct is_compaction; cbn;
      destruct (turn_capture (state a)) eqn:Hc; cbn; rewrite ?Hc; done. }
  cbn [persist state]. rewrite Ht, He.
  set (est := reseed_tokens _ _ _ _).
  assert (is_compaction = false → est = base) as Hplain.
  { intros E. unfold est, reseed_tokens. by rewrite E. }
  assert (is_compaction = true → (0 < total_tokens (state a))%Z →
    (0 <= est <= total_tokens (state a))%Z) as Hcomp.
  { intros E Hpos. unfold est, reseed_tokens. rewrite E, (proj2 (Z.ltb_lt _ _) Hpos). cbn [andb].
    split; [|lia]. apply Z.min_glb; [|lia].
    destruct (0 <? estimate_at_last_response (state a))%Z; [apply f64_round_nonneg; unfold u64_max; lia|].
    unfold estimate_conversation_tokens in Hbase. apply fmap_Some in Hbase as (l & _ & ->).
    apply u64_sum_nonneg. }
  clearbody est. unfold conv, rebase_turn_capture_offset. cbn.
  destruct (turn_capture (state a1)); cbn; rewrite Hev, <- app_assoc; split_and!; done.
Qed.

(** ** A concrete session *)

#[local] Existing Instance demo_env.

#[local] Instance demo_json : JsonLengths :=
  {| conversation_json_bytes := λ l, Z.of_nat (length l); part_json_bytes := λ _, 0%Z |}.

Definition demo_config : SamplingConfig :=
  mkSampling [] (txt "m") None None None ChatCompletions [] 1000 None None.

Definition demo_ask (id : text) : ConversationItem :=
  Assistant (mkAssistant [] [mkToolCall id (txt "run") (txt "{}")] None None None).

Definition demo_items : list ConversationItem :=
  [System (txt "sys"); user_text (txt "hello there"); demo_ask (txt "c1")].

(** A session in its third prompt that clears results after one turn. *)
Definition demo_actor : Actor :=
  mkActor
    (mkChat demo_items demo_config 2 [txt "one"; txt "two"] 500 None None ∅ None
       Credentials_default 0 100 None None UsageLedger_default None [] [])
    (mkPruning true 3 4000 1500 1500 1) [] [] demo_process.

(** A turn with an unanswered call, a compaction and a request. *)
Definition demo_turn : list ChatStateCommand :=
  [PushUserMessage (user_text (txt "next")); PushAssistantResponse (demo_ask (txt "c2"));
   PushToolResult (tool_result (txt "c2") (txt "done"));
   ReplaceConversation [System (txt "sys"); user_text (txt "summary")] true;
   BuildConversationRequest [] (Some (txt "<memory-context>x")) true None [] [];
   PushUserMessage (user_text (txt "more"))].

Definition demo_after (cmds : list ChatStateCommand) : Actor :=
  default demo_actor (run cmds demo_actor).

Lemma disk_mirrors_witness :
  disk demo_items (demo_after demo_turn) = conv (demo_after demo_turn)
  ∧ length (conv (demo_after demo_turn)) = 3.
Proof.
  split; [|by vm_compute].
  refine (proj1 (disk_mirrors demo_items demo_turn demo_actor (demo_after demo_turn) _ _ _)).
  - reflexivity.
  - repeat constructor.
  - by vm_compute.
Defined.

Lemma turn_capture_exact_witness :
  snd <$> handle_command TakeTurnMessages (demo_after (BeginTurnCapture :: demo_turn))
  = Some (RCapture (Some (mkTurnCapture
      [user_text (txt "next"); demo_ask (txt "c2"); tool_result (txt "c2") (txt "done");
       user_text (txt "more")] true))).
Proof.
  apply (turn_capture_exact demo_turn demo_actor (demo_after (BeginTurnCapture :: demo_turn))).
  - repeat constructor.
  - by vm_compute.
Defined.

Lemma rewind_exact_witness :
  conv (demo_after [TruncateToPromptIndex 0]) = [System (txt "sys")]
  ∧ users (conv (demo_after [TruncateToPromptIndex 0])) <= 0
  ∧ turn_capture (state (demo_after [TruncateToPromptIndex 0])) = None.
Proof.
  split; [by vm_compute|].
  destruct (rewind_exact 0 demo_actor (demo_after [TruncateToPromptIndex 0]) RUnit) as (_ & H & Hc & _).
  - by vm_compute.
  - split; [|exact Hc]. destruct (H ltac:(cbn; lia)) as (n & _ & Hn & _). exact Hn.
Defined.

Lemma snapshot_roundtrip_witness :
  ∃ b', handle_command (RestoreSnapshot (snapshot (state demo_actor))) (demo_after demo_turn)
        = Some (b', NoReply)
    ∧ handle_command Snapshot b' = Some (b', RSnapshot (snapshot (state demo_actor))).
Proof.
  destruct (snapshot_roundtrip demo_actor (demo_after demo_turn)) as (b' & H1 & H2 & _);
    [reflexivity|]. by exists b'.
Defined.

(** Three user items, and a result before the second one. *)
Definition demo_old : Actor :=
  on_state (set_conversation
    [user_text (txt "a"); demo_ask (txt "c1"); tool_result (txt "c1") (txt "long output");
     user_text (txt "b"); user_text (txt "c")])
    (on_state (set_prompts 3 []) demo_actor).

Lemma pruning_by_age_witness :
  conv (default demo_old (prune_retained_conversation demo_old)) !! 2
    = Some (tool_result (txt "c1") HARD_CLEAR_PLACEHOLDER)
  ∧ length (conv (default demo_old (prune_retained_conversation demo_old))) = 5.
Proof.
  split; [by vm_compute|].
  apply (pruning_by_age PruningConfig_default [] demo_old); [by vm_compute|].
  cbn. unfold u64_max. lia.
Defined.

Lemma replace_reseeds_tokens_witness :
  (0 <= total_tokens (state (demo_after [ReplaceConversation demo_items true])) <= 500)%Z.
Proof.
  destruct (replace_reseeds_tokens demo_items true demo_actor
    (demo_after [ReplaceConversation demo_items true]) NoReply) as (_ & _ & _ & _ & H & _).
  - by vm_compute.
  - apply H; [reflexivity|cbn; lia].
Defined.

(** ** Deviations *)

(** The repair of a history during a turn loses the captured items: the
    conversation is taken out of the state before the slice is saved. *)
Example repair_loses_capture :
  snd <$> handle_command TakeTurnMessages
    (demo_after [BeginTurnCapture; PushAssistantResponse (demo_ask (txt "c2"));
                 RepairHistory false None])
  = Some (RCapture (Some (mkTurnCapture [] false))).
Proof. by vm_compute. Qed.

(** A backend tool call whose code has a two-byte character across byte 100
    panics when it is pushed. *)
Definition demo_code : ConversationItem :=
  BackendToolCall (CodeInterpreter (txt "id") (Some (replicate 99 "x"%char ++ txt "é and more"))).

Example code_preview_panics : handle_command (PushToolResult demo_code) demo_actor = None.
Proof. by vm_compute. Qed.

(** The first user message starts with an image: the text of a later one is
    returned. *)
Example first_user_text_scans_on :
  get_first_user_text
    (set_conversation
       [User (mkUser [ImagePart (txt "data:")] None None None); user_text (txt "later")]
       (state demo_actor))
  = Some (txt "later").
Proof. by vm_compute. Qed.
