(* ===== verification/ShellCommands.v ===== *)
(** * The commands of a shell script

    [ds-workspace/src/permission/bash_command_splitting.rs]: the plain commands of
    a script, from its syntax tree, and the wrappers ([timeout], [env], ...) that
    hide a command.  The parser is tree-sitter: its trees are data here, and the
    parse of a script is a parameter.

    The properties compare the walk with the nodes of the tree ([simple], [runs_command])
    and the scans of the wrappers with a grammar of their options ([wraps], [bared]). *)

From S2P Require Import Prelude Text.

Open Scope nat_scope.

(** ** Syntax trees *)

Inductive node :=
| Node (kind : text) (named : bool) (start_byte end_byte : nat) (children : list node).

Definition kind (n : node) : text := let 'Node k _ _ _ _ := n in k.
Definition is_named (n : node) : bool := let 'Node _ b _ _ _ := n in b.
Definition start_byte (n : node) : nat := let 'Node _ _ s _ _ := n in s.
Definition end_byte (n : node) : nat := let 'Node _ _ _ e _ := n in e.
Definition children (n : node) : list node := let 'Node _ _ _ _ c := n in c.

Fixpoint node_size (n : node) : nat :=
  let 'Node _ _ _ _ c := n in S (sum_list (map node_size c)).

Record Tree := mkTree { root_node : node; has_error : bool }.

Class ShellParser := { try_parse_shell : text → option Tree }.

Definition ALLOWED_KINDS : list text :=
  txt <$> ["program"; "list"; "pipeline"; "command"; "command_name"; "word"; "string";
           "string_content"; "raw_string"; "number"; "concatenation"; "variable_assignment";
           "variable_name"; "redirected_statement"; "file_redirect"; "file_descriptor"; "comment";
           "heredoc_redirect"; "heredoc_start"; "heredoc_body"; "heredoc_content"; "heredoc_end"].

Definition DQUOTE : ascii := ascii_of_nat 34.

Definition ALLOWED_PUNCT_TOKENS : list text :=
  [txt "&&"; txt "||"; txt ";"; txt "|"; [DQUOTE]; txt "'"; txt "="; txt ">"; txt ">>"; txt "<";
   txt "<<"; txt ">&"; txt "&>"; txt "&>>"].

(** ** Plain commands *)

Record PlainCommand := mkPlain {
  words : list text;
  span_start : nat;
  span_end : nat;
}.

(** [Node::utf8_text]: the bytes of the node, if they are valid UTF-8. *)
Definition utf8_text (src : text) (n : node) : option text :=
  let s := take (end_byte n - start_byte n) (drop (start_byte n) src) in
  if utf8_valid s then Some s else None.

(** A child adds a word and extends the span to its node. *)
Definition add_word (w : text) (n : node) (acc : list text * option nat * option nat)
    : list text * option nat * option nat :=
  let '(ws, s, _) := acc in
  (ws ++ [w], Some (default (start_byte n) s), Some (end_byte n)).

Definition strip_quotes (s : text) : option text :=
  s' ← text_strip_prefix (txt "'") s; strip_last "'"%char s'.

Definition parse_child (src : text) (acc : list text * option nat * option nat) (child : node)
    : option (list text * option nat * option nat) :=
  let k := kind child in
  if decide (k = txt "variable_assignment") then Some acc
  else if decide (k = txt "command_name") then
    word_node ← find_b is_named (children child);
    if decide (kind word_node = txt "word") then
      w ← utf8_text src word_node; Some (add_word w word_node acc)
    else None
  else if decide (k = txt "word" ∨ k = txt "number") then
    w ← utf8_text src child; Some (add_word w child acc)
  else if decide (k = txt "string") then
    match children child with
    | [q1; c; q2] =>
        if decide (kind q1 = [DQUOTE] ∧ kind c = txt "string_content" ∧ kind q2 = [DQUOTE]) then
          w ← utf8_text src c; Some (add_word w child acc)
        else None
    | _ => None
    end
  else if decide (k = txt "raw_string") then
    raw ← utf8_text src child;
    w ← strip_quotes raw;
    Some (add_word w child acc)
  else if decide (k = txt "concatenation") then
    w ← utf8_text src child; Some (add_word w child acc)
  else None.

Definition parse_plain_command_from_node (cmd : node) (src : text) : option PlainCommand :=
  if decide (kind cmd = txt "command") then
    '(ws, s, e) ←
      foldl (λ acc child, acc ≫= λ acc, parse_child src acc child) (Some ([], None, None))
        (filter_b is_named (children cmd));
    Some (mkPlain ws (default (start_byte cmd) s) (default (end_byte cmd) e))
  else None.

(** The test of a node of the tree. *)
Definition node_allowed (n : node) : bool :=
  let k := kind n in
  if is_named n then bool_decide (k ∈ ALLOWED_KINDS)
  else
    let listed := bool_decide (k ∈ ALLOWED_PUNCT_TOKENS) in
    negb (any_b (λ c, bool_decide (c ∈ txt "&;|")) k && negb listed)
    && (listed || bool_decide (trim k = [])).

Definition is_command_node (n : node) : bool := is_named n && bool_decide (kind n = txt "command").

(** The walk with a stack, whose top is the head; the fuel is the number of nodes. *)
Fixpoint walk (fuel : nat) (stack : list node) (command_nodes : list node) : option (list node) :=
  match stack with
  | [] => Some command_nodes
  | n :: stack =>
      match fuel with
      | 0 => None
      | S fuel =>
          if node_allowed n then
            walk fuel (reverse (children n) ++ stack)
              (if is_command_node n then command_nodes ++ [n] else command_nodes)
          else None
      end
  end.

Definition try_parse_word_only_commands_sequence (tree : Tree) (src : text)
    : option (list PlainCommand) :=
  if has_error tree then None
  else
    command_nodes ← walk (node_size (root_node tree)) [root_node tree] [];
    mapM (λ n, parse_plain_command_from_node n src) (sort_by_key start_byte command_nodes).

Definition is_setup_command (cmd : list text) : bool :=
  match cmd with
  | [] => true
  | c :: _ =>
      bool_decide (c ∈ [txt "cd"; txt "pushd"; txt "popd"; txt "export"; txt "unset"; txt "set";
                        txt "sleep"; txt "timeout"])
  end.

(** ** Wrappers *)

Definition is_ascii_alphabetic (c : ascii) : bool := byte_in 65 90 c || byte_in 97 122 c.
Definition is_ascii_alphanumeric (c : ascii) : bool := is_ascii_alphabetic c || byte_in 48 57 c.
Definition is_underscore (c : ascii) : bool := byte_in 95 95 c.

Definition is_env_assignment (tok : text) : bool :=
  match split_once "="%char tok with
  | Some (c :: name, _) =>
      (is_ascii_alphabetic c || is_underscore c)
      && forallb (λ b, is_ascii_alphanumeric b || is_underscore b) (c :: name)
  | _ => false
  end.

Definition is_dashed (tok : text) : bool := starts_with (txt "-") tok.

(** The scan of [env]'s arguments from index [i] on; [rest] is [cmd[i..]]. *)
Fixpoint env_scan_from (chdir : option text) (i : nat) (rest : list text) : option text * nat :=
  match rest with
  | [] => (chdir, i)
  | tok :: rest' =>
      if decide (tok = txt "--") then (chdir, i + 1)
      else if negb (bool_decide (tok = txt "-")) && is_dashed tok then
        if decide (tok = txt "-C" ∨ tok = txt "--chdir") then
          match rest' with
          | [] => (None, i + 2)
          | dir :: rest'' => env_scan_from (Some dir) (i + 2) rest''
          end
        else
          match text_strip_prefix (txt "--chdir=") tok with
          | Some dir => env_scan_from (Some dir) (i + 1) rest'
          | None =>
              match text_strip_prefix (txt "-C") tok with
              | Some (c :: dir) => env_scan_from (Some (c :: dir)) (i + 1) rest'
              | _ =>
                  if decide (tok ∈ [txt "-u"; txt "--unset"; txt "-S"; txt "--split-string"]) then
                    match rest' with
                    | [] => (chdir, i + 2)
                    | _ :: rest'' => env_scan_from chdir (i + 2) rest''
                    end
                  else env_scan_from chdir (i + 1) rest'
              end
          end
      else if is_env_assignment tok then env_scan_from chdir (i + 1) rest'
      else (chdir, i)
  end.

Definition env_scan (cmd : list text) : option text * nat := env_scan_from None 1 (drop 1 cmd).

(** The index after the options from [i] on, of which those of [with_arg] take an
    argument. *)
Fixpoint skip_options (with_arg : list text) (i : nat) (rest : list text) : nat :=
  match rest with
  | [] => i
  | tok :: rest' =>
      if is_dashed tok then
        if decide (tok ∈ with_arg) then
          match rest' with [] => i + 2 | _ :: rest'' => skip_options with_arg (i + 2) rest'' end
        else skip_options with_arg (i + 1) rest'
      else i
  end.

Definition is_separator (c : ascii) : bool := bool_decide (c = "/"%char) || bool_decide (c = "\"%char).

(** [rsplit(['/', '\\']).next()]: what follows the last separator. *)
Fixpoint basename (s : text) : text :=
  match s with
  | [] => []
  | c :: s' => if any_b is_separator s then (if any_b is_separator s' then basename s' else s') else s
  end.

(** The index at which the wrapped command starts, if there is one. *)
Definition wrapped_at (cmd : list text) : option nat :=
  match cmd with
  | [] => None
  | c :: args =>
      let head := basename c in
      if decide (head = txt "timeout") then
        let i := skip_options [txt "-k"; txt "-s"; txt "--kill-after"; txt "--signal"] 1 args in
        if (length cmd <=? i) then None else Some (i + 1)
      else if decide (head = txt "nice") then
        Some (skip_options [txt "-n"; txt "--adjustment"] 1 args)
      else if decide (head = txt "ionice") then
        Some (skip_options
          [txt "-c"; txt "-n"; txt "-p"; txt "-P"; txt "-u"; txt "--class"; txt "--classdata";
           txt "--pid"; txt "--pgid"; txt "--uid"] 1 args)
      else if decide (head = txt "chrt") then
        let i := skip_options [] 1 args in
        if (length cmd <=? i) then None else Some (i + 1)
      else if decide (head = txt "stdbuf") then
        Some (skip_options [txt "-i"; txt "-o"; txt "-e"] 1 args)
      else if decide (head = txt "env") then Some (env_scan cmd).2
      else None
  end.

(** [cmd.get(i..)] is absent past the end, and an empty command is none. *)
Definition strip_wrapper_command (cmd : list text) : option (list text) :=
  i ← wrapped_at cmd;
  match drop i cmd with [] => None | inner => Some inner end.

Definition is_wrapper_command (ws : list text) : bool :=
  match ws with
  | [] => false
  | w :: _ =>
      bool_decide (basename w ∈ [txt "timeout"; txt "nice"; txt "ionice"; txt "chrt"; txt "stdbuf";
                                 txt "env"])
  end.

Fixpoint unwrap_loop (n : nat) (current : list text) : list text :=
  match n with
  | 0 => current
  | S n =>
      match strip_wrapper_command current with
      | Some inner => unwrap_loop n inner
      | None => current
      end
  end.

Definition unwrap_wrappers (ws : list text) : list text := unwrap_loop 8 ws.

Fixpoint chdir_loop (n : nat) (current : list text) : bool :=
  match n with
  | 0 => false
  | S n =>
      if match current with
         | w :: _ => bool_decide (basename w = txt "env") && bool_decide (is_Some (env_scan current).1)
         | [] => false
         end
      then true
      else
        match strip_wrapper_command current with
        | Some inner => chdir_loop n inner
        | None => false
        end
  end.

Definition wrapper_has_chdir (ws : list text) : bool := chdir_loop 8 ws.

(** ** Scripts *)

(** The splitter, over characters; [current] is the word so far. *)
Fixpoint sh_split_from (in_single in_double : bool) (current : text) (cs : list text) : list text :=
  match cs with
  | [] => match current with [] => [] | _ => [current] end
  | c :: cs' =>
      if decide (c = txt "'") then
        if in_double then sh_split_from in_single in_double (current ++ c) cs'
        else sh_split_from (negb in_single) in_double current cs'
      else if decide (c = [DQUOTE]) then
        if in_single then sh_split_from in_single in_double (current ++ c) cs'
        else sh_split_from in_single (negb in_double) current cs'
      else if decide (c = txt "\") then
        match cs' with
        | [] => match current with [] => [] | _ => [current] end
        | next :: cs'' => sh_split_from in_single in_double (current ++ next) cs''
        end
      else if is_whitespace_char c && negb in_single && negb in_double then
        match current with
        | [] => sh_split_from in_single in_double [] cs'
        | _ => current :: sh_split_from in_single in_double [] cs'
        end
      else sh_split_from in_single in_double (current ++ c) cs'
  end.

Definition sh_split_simple (s : text) : list text := sh_split_from false false [] (chars s).

Record BashCommandHighlights := mkHighlights {
  prefix : list text;
  highlighted_words : list text;
  suffix : list text;
}.

Section scripts.
Context `{ShellParser}.

Definition all_commands_from_script (script : text) : option (list PlainCommand) :=
  tree ← try_parse_shell script; try_parse_word_only_commands_sequence tree script.

Definition primary_command_from_script (script : text) : option BashCommandHighlights :=
  commands ← all_commands_from_script script;
  primary ← find_b (λ c, negb (is_setup_command (words c))) commands;
  Some (mkHighlights (sh_split_simple (take (span_start primary) script)) (words primary)
          (sh_split_simple (drop (span_end primary) script))).

End scripts.

(** ** Properties *)

(** A node and all below it. *)
Fixpoint nodes (n : node) : list node := let 'Node _ _ _ _ c := n in n :: concat (map nodes c).

Lemma nodes_unfold n : nodes n = n :: concat (nodes <$> children n).
Proof. by destruct n. Qed.

Lemma nodes_length n : length (nodes n) = node_size n.
Proof.
  revert n. fix IH 1. intros [k b s e c]. cbn. f_equal.
  induction c as [|x c IHc]; [done|]. cbn. by rewrite length_app, IH, IHc.
Qed.

Lemma concat_Permutation {A} (l l' : list (list A)) : l ≡ₚ l' → concat l ≡ₚ concat l'.
Proof.
  induction 1 as [|x l l' _ IH|x y l|l1 l2 l3 _ IH1 _ IH2]; cbn; [done|by rewrite IH| |by rewrite IH1].
  rewrite !app_assoc. by rewrite (Permutation_app_comm x y).
Qed.

#[export] Instance filter_b_Permutation {A} (p : A → bool) :
  Proper ((≡ₚ) ==> (≡ₚ)) (filter_b p).
Proof.
  unfold filter_b. induction 1 as [|x l l' _ IH|x y l|l1 l2 l3 _ IH1 _ IH2]; cbn.
  - done.
  - destruct (p x); [by rewrite IH|done].
  - destruct (p x), (p y); [constructor|done|done|done].
  - by rewrite IH1.
Qed.

(** The walk visits every node once. *)
Lemma walk_spec fuel stack acc :
  length (concat (nodes <$> stack)) <= fuel →
  (forallb node_allowed (concat (nodes <$> stack)) = true →
     ∃ found, walk fuel stack acc = Some (acc ++ found)
       ∧ found ≡ₚ filter_b is_command_node (concat (nodes <$> stack)))
  ∧ (forallb node_allowed (concat (nodes <$> stack)) = false → walk fuel stack acc = None).
Proof.
  revert stack acc. induction fuel as [|fuel IH]; intros [|n stack] acc Hf.
  - split; [|done]. intros _. exists []. by rewrite app_nil_r.
  - rewrite fmap_cons in Hf. cbn in Hf. rewrite nodes_unfold in Hf. cbn in Hf. lia.
  - split; [|done]. intros _. exists []. by rewrite app_nil_r.
  - rewrite fmap_cons in Hf |- *. cbn [concat] in *. rewrite nodes_unfold in Hf |- *.
    cbn [app forallb length walk] in *.
    set (acc' := if is_command_node n then acc ++ [n] else acc).
    assert (concat (nodes <$> reverse (children n) ++ stack)
      ≡ₚ concat (nodes <$> children n) ++ concat (nodes <$> stack)) as Hp.
    { rewrite fmap_app, concat_app. f_equiv. apply concat_Permutation.
      by rewrite fmap_reverse, reverse_Permutation. }
    assert (forallb node_allowed (concat (nodes <$> reverse (children n) ++ stack))
      = forallb node_allowed (concat (nodes <$> children n) ++ concat (nodes <$> stack))) as Hall.
    { apply eq_bool_prop_intro. rewrite !Is_true_true, !forallb_forall.
      by split; intros Ha x Hx; apply Ha; [rewrite Hp|rewrite <- Hp]. }
    destruct (IH (reverse (children n) ++ stack) acc') as [IH1 IH2].
    { rewrite Hp. lia. }
    rewrite Hall in *. destruct (node_allowed n); cbn [andb]; [|done]. split; [|exact IH2].
    intros Ha. destruct (IH1 Ha) as (found & -> & Hfound). rewrite Hp in Hfound. unfold acc'.
    change (filter_b is_command_node (n :: ?l))
      with (if is_command_node n then n :: filter_b is_command_node l else filter_b is_command_node l).
    destruct (is_command_node n).
    + exists (n :: found). rewrite <- app_assoc. split; [done|]. by rewrite Hfound.
    + by exists found.
Qed.

(** ** What a script runs *)

(** What a part of a command adds to its words: an assignment nothing, any other part
    one word, without its quotes. *)
Inductive part_words (src : text) (n : node) : list text → Prop :=
| part_assignment : kind n = txt "variable_assignment" → part_words src n []
| part_name before word_node after w :
    kind n = txt "command_name" → children n = before ++ word_node :: after →
    Forall (λ c, is_named c = false) before → is_named word_node = true →
    kind word_node = txt "word" → utf8_text src word_node = Some w → part_words src n [w]
| part_plain w :
    kind n ∈ [txt "word"; txt "number"; txt "concatenation"] → utf8_text src n = Some w →
    part_words src n [w]
| part_quoted q1 c q2 w :
    kind n = txt "string" → children n = [q1; c; q2] → kind q1 = [DQUOTE] → kind q2 = [DQUOTE] →
    kind c = txt "string_content" → utf8_text src c = Some w → part_words src n [w]
| part_raw w :
    kind n = txt "raw_string" → utf8_text src n = Some (txt "'" ++ w ++ txt "'") → part_words src n [w].

(** The words of a command: those of its parts, in order. *)
Definition command_words (src : text) (n : node) (ws : list text) : Prop :=
  ∃ wss, Forall2 (part_words src) (filter_b is_named (children n)) wss ∧ ws = concat wss.

(** A node that a simple script may have. *)
Definition node_plain (n : node) : Prop :=
  if is_named n then kind n ∈ ALLOWED_KINDS
  else kind n ∈ ALLOWED_PUNCT_TOKENS ∨ trim (kind n) = [] ∧ ∀ c, c ∈ kind n → c ∉ txt "&;|".

Definition is_command (n : node) : Prop := is_named n = true ∧ kind n = txt "command".

Lemma find_b_split {A} (p : A → bool) l x :
  find_b p l = Some x ↔ ∃ a b, l = a ++ x :: b ∧ Forall (λ y, p y = false) a ∧ p x = true.
Proof.
  split.
  - induction l as [|y l IH]; [done|]. cbn. destruct (p y) eqn:Hy; [intros [= ->]; by exists [], l|].
    intros (a & b & -> & Ha & Hx)%IH. exists (y :: a), b. split_and!; [done|by constructor|done].
  - intros (a & b & -> & Ha & Hx). induction Ha as [|y a Hy _ IH]; cbn; [by rewrite Hx|by rewrite Hy].
Qed.

Lemma text_strip_prefix_Some p s r : text_strip_prefix p s = Some r ↔ s = p ++ r.
Proof.
  revert s. induction p as [|a p IH]; intros s; cbn; [naive_solver|].
  destruct s as [|b s]; [done|]. case_decide; [subst; rewrite IH; naive_solver|naive_solver].
Qed.

Lemma strip_quotes_Some s w : strip_quotes s = Some w ↔ s = txt "'" ++ w ++ txt "'".
Proof.
  unfold strip_quotes. split.
  - intros (s' & Hs & Hw)%bind_Some. apply text_strip_prefix_Some in Hs as ->.
    apply strip_last_Some in Hw as ->. done.
  - intros ->. apply bind_Some. exists (w ++ txt "'"). split; [by apply text_strip_prefix_Some|].
    apply strip_last_snoc.
Qed.

(** Kinds are told apart by computation. *)
Ltac solve_kind :=
  match goal with
  | H : kind ?n = _, H' : kind ?n = _ |- _ => rewrite H in H'; discriminate H'
  | H : kind ?n = _, H' : kind ?n ∈ _ |- _ =>
      rewrite H in H'; exfalso; revert H'; rewrite <- (bool_decide_spec (_ ∈ _)); vm_compute; done
  end.

Lemma part_words_unique src n l l' : part_words src n l → part_words src n l' → l = l'.
Proof.
  intros [A1|b1 n1 a1 w1 A1 E1 F1 N1 K1 T1|w1 A1 T1|q1 c1 r1 w1 A1 E1 P1 Q1 R1 T1|w1 A1 T1]
    [A2|b2 n2 a2 w2 A2 E2 F2 N2 K2 T2|w2 A2 T2|q2 c2 r2 w2 A2 E2 P2 Q2 R2 T2|w2 A2 T2];
    try solve_kind; try congruence.
  - assert (find_b is_named (children n) = Some n1) as Hf1 by (apply find_b_split; eauto).
    assert (find_b is_named (children n) = Some n2) as Hf2 by (apply find_b_split; eauto).
    congruence.
  - rewrite T1 in T2. injection T2 as T2. by apply app_inv_tail in T2 as ->.
Qed.

Lemma command_words_unique src n ws ws' : command_words src n ws → command_words src n ws' → ws = ws'.
Proof.
  intros (l & Hl & ->) (l' & Hl' & ->). f_equal. revert l' Hl'.
  induction Hl as [|c ps cs pss Hc _ IH]; intros l' Hl'; inversion Hl'; subst; [done|].
  f_equal; [by eapply part_words_unique|by apply IH].
Qed.

(** The parse of a part. *)
Lemma parse_child_words src acc n :
  match parse_child src acc n with
  | Some acc' => ∃ l, part_words src n l ∧ acc'.1.1 = acc.1.1 ++ l
  | None => ∀ l, ¬ part_words src n l
  end.
Proof.
  destruct acc as [[ws s] e]. unfold parse_child.
  case_decide as K1; [exists []; split; [by apply part_assignment|by rewrite app_nil_r]|].
  case_decide as K2.
  { destruct (find_b is_named (children n)) as [wn|] eqn:Hf; cbn [mbind option_bind].
    - pose proof Hf as (a & b & Hc & Ha & Hn)%find_b_split. case_decide as Kw.
      + destruct (utf8_text src wn) as [w|] eqn:Hw; cbn [mbind option_bind].
        * exists [w]. split; [by eapply part_name|done].
        * intros l Hl; inversion Hl; try solve_kind. assert (find_b is_named (children n) = Some word_node)
            by (apply find_b_split; eauto). congruence.
      + intros l Hl; inversion Hl; try solve_kind. assert (find_b is_named (children n) = Some word_node)
          by (apply find_b_split; eauto). congruence.
    - intros l Hl; inversion Hl; try solve_kind. assert (find_b is_named (children n) = Some word_node)
        by (apply find_b_split; eauto). congruence. }
  case_decide as K3.
  { destruct (utf8_text src n) as [w|] eqn:Hw; cbn [mbind option_bind].
    - exists [w]. split; [|done]. apply part_plain; [|done]. set_solver.
    - intros l Hl; inversion Hl; destruct K3; try solve_kind; congruence. }
  case_decide as K4.
  { assert (∀ l, part_words src n l → ∃ q1 c q2 w, children n = [q1; c; q2] ∧ kind q1 = [DQUOTE]
      ∧ kind q2 = [DQUOTE] ∧ kind c = txt "string_content" ∧ utf8_text src c = Some w) as Hinv
      by (intros l Hl; inversion Hl; try solve_kind; eauto 15).
    destruct (children n) as [|q1 [|c [|q2 [|]]]] eqn:Hc;
      try (intros ws' (? & ? & ? & ? & ? & _)%Hinv; done).
    case_decide as Kq; [|intros l (? & ? & ? & ? & [= -> -> ->] & ? & ? & ? & ?)%Hinv; naive_solver].
    destruct (utf8_text src c) as [w|] eqn:Hw; cbn [mbind option_bind].
    - destruct Kq as (? & ? & ?). exists [w]. split; [by eapply part_quoted|done].
    - intros l (? & ? & ? & ? & [= -> -> ->] & ? & ? & ? & ?)%Hinv. congruence. }
  case_decide as K5.
  { destruct (utf8_text src n) as [raw|] eqn:Hraw; cbn [mbind option_bind];
      [|intros l Hl; inversion Hl; try solve_kind; congruence].
    destruct (strip_quotes raw) as [w|] eqn:Hw; cbn [mbind option_bind].
    - apply strip_quotes_Some in Hw as ->. exists [w]. split; [by apply part_raw|done].
    - intros l Hl; inversion Hl; try solve_kind.
      assert (strip_quotes raw = Some w) by (apply strip_quotes_Some; congruence). congruence. }
  case_decide as K6.
  { destruct (utf8_text src n) as [w|] eqn:Hw; cbn [mbind option_bind].
    - exists [w]. split; [|done]. apply part_plain; [|done]. set_solver.
    - intros l Hl; inversion Hl; try solve_kind; congruence. }
  intros l Hl; inversion Hl; try done; set_solver.
Qed.

Lemma parse_fold_words src cs acc :
  match foldl (λ acc child, acc ≫= λ acc, parse_child src acc child) (Some acc) cs with
  | Some acc' => ∃ wss, Forall2 (part_words src) cs wss ∧ acc'.1.1 = acc.1.1 ++ concat wss
  | None => ∀ wss, ¬ Forall2 (part_words src) cs wss
  end.
Proof.
  revert acc. induction cs as [|c cs IH]; intros acc; cbn [foldl].
  { exists []. by rewrite app_nil_r. }
  pose proof (parse_child_words src acc c) as Hc. cbn [mbind option_bind].
  destruct (parse_child src acc c) as [acc'|].
  - destruct Hc as (l & Hl & Hacc). specialize (IH acc'). destruct (foldl _ (Some acc') cs) as [acc''|].
    + destruct IH as (wss & Hw & Hacc'). exists (l :: wss). split; [by constructor|].
      cbn. by rewrite Hacc', Hacc, <- app_assoc.
    + intros wss Hw. inversion Hw; subst. by eapply IH.
  - assert (foldl (λ acc child, acc ≫= λ acc, parse_child src acc child) None cs = None) as ->
      by (clear; by induction cs).
    intros wss Hw. inversion Hw; subst. by eapply Hc.
Qed.

Lemma parse_command_words src n :
  kind n = txt "command" →
  match parse_plain_command_from_node n src with
  | Some p => command_words src n (words p)
  | None => ∀ ws, ¬ command_words src n ws
  end.
Proof.
  intros Hk. unfold parse_plain_command_from_node. rewrite decide_True by done.
  pose proof (parse_fold_words src (filter_b is_named (children n)) ([], None, None)) as Hf.
  destruct (foldl _ _ _) as [[[ws s] e]|]; cbn.
  - destruct Hf as (wss & Hw & Hws). by exists wss.
  - intros ws (wss & Hw & _). by eapply Hf.
Qed.

Lemma node_allowed_plain n : node_allowed n = true ↔ node_plain n.
Proof.
  unfold node_allowed, node_plain. destruct (is_named n); [apply bool_decide_eq_true|].
  rewrite andb_true_iff, negb_true_iff, andb_false_iff, orb_true_iff, negb_false_iff, any_b_false,
    !bool_decide_eq_true.
  setoid_rewrite bool_decide_eq_false. naive_solver.
Qed.

Lemma is_command_true n : is_command_node n = true ↔ is_command n.
Proof. unfold is_command_node, is_command. by rewrite andb_true_iff, bool_decide_eq_true. Qed.

Section trees.
Context `{ShellParser}.

(** The script can be taken apart: it has a tree without errors, all of whose nodes are
    plain, and all of whose commands have words. *)
Definition simple (script : text) : Prop :=
  ∃ t, try_parse_shell script = Some t ∧ has_error t = false
    ∧ (∀ n, n ∈ nodes (root_node t) → node_plain n)
    ∧ ∀ n, n ∈ nodes (root_node t) → is_command n → ∃ ws, command_words script n ws.

(** A command of the script, wherever it stands in the tree. *)
Definition runs_command (script : text) (ws : list text) : Prop :=
  ∃ t n, try_parse_shell script = Some t ∧ n ∈ nodes (root_node t) ∧ is_command n
    ∧ command_words script n ws.

Lemma sort_elem {A} (f : A → nat) l x : x ∈ sort_by_key f l ↔ x ∈ l.
Proof. by rewrite sort_by_key_Permutation. Qed.

(** The commands of a script, against its tree. *)
Lemma all_commands_spec script :
  match all_commands_from_script script with
  | Some segments => simple script ∧ ∀ ws, (∃ p, p ∈ segments ∧ words p = ws) ↔ runs_command script ws
  | None => ¬ simple script
  end.
Proof.
  unfold all_commands_from_script, simple, runs_command.
  destruct (try_parse_shell script) as [t|]; cbn [mbind option_bind]; [|by intros (? & ? & _)].
  unfold try_parse_word_only_commands_sequence.
  destruct (has_error t) eqn:He; [intros (? & [= <-] & ? & _); congruence|].
  destruct (walk_spec (node_size (root_node t)) [root_node t] []) as [Hok Hbad].
  { cbn. by rewrite app_nil_r, nodes_length. }
  cbn [fmap list_fmap concat] in Hok, Hbad. rewrite app_nil_r in Hok, Hbad.
  destruct (forallb node_allowed (nodes (root_node t))) eqn:Hall.
  - destruct (Hok eq_refl) as (found & -> & Hfound). cbn [app mbind option_bind].
    assert (∀ n, n ∈ sort_by_key start_byte found ↔ n ∈ nodes (root_node t) ∧ is_command n) as Hin.
    { intros n. by rewrite sort_elem, Hfound, elem_of_filter_b, is_command_true. }
    rewrite forallb_forall in Hall. setoid_rewrite <- list_elem_of_In in Hall. setoid_rewrite node_allowed_plain in Hall.
    generalize dependent (sort_by_key start_byte found). intros l Hin.
    destruct (mapM _ l) as [segments|] eqn:Hm.
    + apply mapM_Some in Hm.
      assert (∀ n, n ∈ l → ∃ p, p ∈ segments ∧ command_words script n (words p)) as Hto.
      { intros n Hn. apply list_elem_of_lookup in Hn as [i Hi].
        destruct (Forall2_lookup_l _ _ _ _ _ Hm Hi) as (p & Hp & Hpn). exists p. split; [by eapply list_elem_of_lookup_2|].
        assert (n ∈ l) as [_ [_ Hk]]%Hin by by eapply list_elem_of_lookup_2.
        pose proof (parse_command_words script n Hk) as Hw. by rewrite Hpn in Hw. }
      split.
      * exists t. split_and!; [done..|]. intros n Hn Hc. destruct (Hto n) as (p & _ & ?); [by apply Hin|eauto].
      * intros ws. split.
        -- intros (p & Hp & <-). apply list_elem_of_lookup in Hp as [i Hi].
           destruct (Forall2_lookup_r _ _ _ _ _ Hm Hi) as (n & Hn & Hpn).
           assert (n ∈ l) as [Hnt [Hnm Hk]]%Hin by by eapply list_elem_of_lookup_2.
           pose proof (parse_command_words script n Hk) as Hw. rewrite Hpn in Hw. exists t, n. done.
        -- intros (? & n & [= <-] & Hn & Hc & Hw). destruct (Hto n) as (p & Hp & Hpw); [by apply Hin|].
           exists p. split; [done|]. by eapply command_words_unique.
    + intros (? & [= <-] & _ & _ & Hws). apply mapM_None in Hm.
      apply Exists_exists in Hm as (n & [Hn [Hnm Hk]]%Hin & Hpn).
      pose proof (parse_command_words script n Hk) as Hw. rewrite Hpn in Hw.
      destruct (Hws n Hn) as [ws Hcw]; [done|by eapply Hw].
  - rewrite Hbad by done. cbn. intros (? & [= <-] & _ & Hp & _).
    enough (forallb node_allowed (nodes (root_node t)) = true) by congruence.
    apply forallb_forall. intros n Hn. apply node_allowed_plain, Hp. by apply list_elem_of_In.
Qed.

End trees.

(** ** What a wrapper wraps *)

(** The program of a command: its path ends in [name]. *)
Definition program (path name : text) : Prop :=
  path = name ∨ ∃ dir sep, is_separator sep = true ∧ path = dir ++ sep :: name.

(** A run of options, of which those of [with_arg] take the next word. *)
Inductive options (with_arg : list text) : list text → Prop :=
| options_none : options with_arg []
| options_flag o ws : is_dashed o = true → o ∉ with_arg → options with_arg ws → options with_arg (o :: ws)
| options_arg o a ws :
    is_dashed o = true → o ∈ with_arg → options with_arg ws → options with_arg (o :: a :: ws).

(** A command that does not go on with options. *)
Definition operand (ws : list text) : Prop := match ws with w :: _ => is_dashed w = false | [] => False end.

(** [NAME=value]. *)
Definition assignment (w : text) : Prop :=
  ∃ c name value, w = c :: name ++ "="%char :: value
    ∧ is_ascii_alphabetic c || is_underscore c = true
    ∧ Forall (λ b, is_ascii_alphanumeric b || is_underscore b = true) name.

Definition ENV_WITH_ARG : list text :=
  txt <$> ["-C"; "--chdir"; "-u"; "--unset"; "-S"; "--split-string"].

(** Options and assignments of [env]; a lone dash is none. *)
Inductive env_settings : list text → Prop :=
| env_none : env_settings []
| env_assigns w ws : assignment w → env_settings ws → env_settings (w :: ws)
| env_flag o ws :
    is_dashed o = true → o ≠ txt "-" → o ≠ txt "--" → o ∉ ENV_WITH_ARG → env_settings ws →
    env_settings (o :: ws)
| env_arg o a ws : o ∈ ENV_WITH_ARG → env_settings ws → env_settings (o :: a :: ws).

Definition env_operand (ws : list text) : Prop :=
  match ws with w :: _ => w = txt "-" ∨ is_dashed w = false ∧ ¬ assignment w | [] => False end.

(** One layer: the command that a wrapper runs. *)
Inductive wraps : list text → list text → Prop :=
| wraps_timeout p opts duration inner :
    program p (txt "timeout") → options [txt "-k"; txt "-s"; txt "--kill-after"; txt "--signal"] opts →
    is_dashed duration = false → inner ≠ [] → wraps (p :: opts ++ duration :: inner) inner
| wraps_nice p opts inner :
    program p (txt "nice") → options [txt "-n"; txt "--adjustment"] opts → operand inner →
    wraps (p :: opts ++ inner) inner
| wraps_ionice p opts inner :
    program p (txt "ionice") →
    options [txt "-c"; txt "-n"; txt "-p"; txt "-P"; txt "-u"; txt "--class"; txt "--classdata";
             txt "--pid"; txt "--pgid"; txt "--uid"] opts → operand inner →
    wraps (p :: opts ++ inner) inner
| wraps_chrt p opts priority inner :
    program p (txt "chrt") → options [] opts → is_dashed priority = false → inner ≠ [] →
    wraps (p :: opts ++ priority :: inner) inner
| wraps_stdbuf p opts inner :
    program p (txt "stdbuf") → options [txt "-i"; txt "-o"; txt "-e"] opts → operand inner →
    wraps (p :: opts ++ inner) inner
| wraps_env p settings inner :
    program p (txt "env") → env_settings settings → env_operand inner →
    wraps (p :: settings ++ inner) inner
| wraps_env_end p settings inner :
    program p (txt "env") → env_settings settings → inner ≠ [] →
    wraps (p :: settings ++ txt "--" :: inner) inner.

(** At most [n] layers are taken off, as long as there is one. *)
Inductive bared : nat → list text → list text → Prop :=
| bared_spent ws : bared 0 ws ws
| bared_core n ws : (∀ inner, ¬ wraps ws inner) → bared n ws ws
| bared_layer n ws inner ws' : wraps ws inner → bared n inner ws' → bared (S n) ws ws'.

Lemma basename_program path name :
  any_b is_separator name = false → basename path = name ↔ program path name.
Proof.
  intros Hn. assert (∀ sep : ascii, is_separator sep = true → ∀ dir name', any_b is_separator (dir ++ sep :: name') = true)
    as Hsep.
  { intros sep Hs dir name'. apply any_b_true. exists sep. split; [set_solver|done]. }
  split.
  - intros <-. clear. unfold program. induction path as [|c path IH]; [by left|].
    cbn [basename]. destruct (any_b is_separator (c :: path)) eqn:E; [|by left].
    destruct (any_b is_separator path) eqn:E'.
    + destruct IH as [Hp|(dir & sep & Hs & Hp)].
      * exfalso. clear -E' Hp. revert E'. generalize (basename path) Hp. intros ? <-. intros E'.
        assert (∀ s, any_b is_separator (basename s) = false) as Hb.
        { clear. intros s. induction s as [|c s IH]; [done|]. cbn [basename].
          destruct (any_b is_separator (c :: s)) eqn:E; [|done]. by destruct (any_b is_separator s) eqn:E'. }
        rewrite Hp, Hb in E'. done.
      * right. exists (c :: dir), sep. split; [done|]. cbn. by rewrite Hp at 1.
    + right. exists [], c. split; [|done]. cbn in E. unfold any_b in *. by rewrite E', orb_false_r in E.
  - intros [->|(dir & sep & Hs & ->)].
    + destruct name as [|c name]; [done|]. cbn [basename]. by rewrite Hn.
    + induction dir as [|c dir IH]; cbn [app basename].
      * by rewrite (Hsep sep Hs [] name : any_b is_separator (sep :: name) = true), Hn.
      * rewrite (Hsep sep Hs (c :: dir) name : any_b is_separator (c :: dir ++ sep :: name) = true).
        by rewrite (Hsep sep Hs dir).
Qed.

Lemma skip_options_app wa opts tail i :
  options wa opts → skip_options wa i (opts ++ tail) = skip_options wa (i + length opts) tail.
Proof.
  intros Ho. revert i. induction Ho as [|o ws Hd Hn _ IH|o a ws Hd Hn _ IH]; intros i; cbn [app skip_options length].
  - by rewrite Nat.add_0_r.
  - rewrite Hd, decide_False, IH by done. f_equal. lia.
  - rewrite Hd, decide_True, IH by done. f_equal. lia.
Qed.

(** Either the options end before a word that is none, or all words are read. *)
Lemma skip_options_split wa rest i :
  (∃ opts tail, rest = opts ++ tail ∧ options wa opts ∧ operand tail ∧ skip_options wa i rest = i + length opts)
  ∨ i + length rest <= skip_options wa i rest.
Proof.
  remember (length rest) as n eqn:Hn. assert (length rest <= n) as Hle by lia. rewrite Hn. clear Hn.
  revert rest i Hle. induction n as [|n IH]; intros rest i Hle.
  { destruct rest; cbn in *; [right; lia|lia]. }
  destruct rest as [|o rest]; cbn [skip_options length] in *; [right; lia|].
  destruct (is_dashed o) eqn:Hd.
  - case_decide as Ho.
    + destruct rest as [|a rest]; [right; cbn; lia|]. cbn [length] in *.
      destruct (IH rest (i + 2)) as [(opts & tail & -> & Hopts & Ht & ->)|Hr]; [lia| |right; lia].
      left. exists (o :: a :: opts), tail. split_and!; [done|by apply options_arg|done|cbn; lia].
    + destruct (IH rest (i + 1)) as [(opts & tail & -> & Hopts & Ht & ->)|Hr]; [lia| |right; lia].
      left. exists (o :: opts), tail. split_and!; [done|by apply options_flag|done|cbn; lia].
  - left. exists [], (o :: rest). split_and!; [done|constructor|done|cbn; lia].
Qed.

Lemma skip_options_end wa opts tail i :
  options wa opts → operand tail → skip_options wa i (opts ++ tail) = i + length opts.
Proof.
  intros Ho Ht. rewrite skip_options_app by done. destruct tail as [|w tail]; [done|]. cbn in *. by rewrite Ht.
Qed.

Lemma split_once_name c name value :
  c ∉ name → split_once c (name ++ c :: value) = Some (name, value).
Proof.
  induction name as [|a name IH]; intros Hn; cbn; [by rewrite decide_True|].
  rewrite decide_False by set_solver. by rewrite IH by set_solver.
Qed.

Lemma split_once_join c s a b : split_once c s = Some (a, b) → s = a ++ c :: b.
Proof.
  revert a. induction s as [|d s IH]; intros a; [done|]. cbn. case_decide; [naive_solver|].
  destruct (split_once c s) as [[a' b']|]; [|done]. intros [= <- <-]. cbn. by rewrite <- IH.
Qed.

Lemma is_env_assignment_true w : is_env_assignment w = true ↔ assignment w.
Proof.
  unfold is_env_assignment, assignment. split.
  - destruct (split_once "="%char w) as [[[|c name] value]|] eqn:E; try done.
    apply split_once_join in E as ->. rewrite andb_true_iff, forallb_forall. intros [Hc Hall].
    exists c, name, value. split_and!; [done|done|]. apply Forall_forall. intros b Hb. apply Hall. right.
    by apply list_elem_of_In in Hb.
  - intros (c & name & value & -> & Hc & Hall).
    assert (forallb (λ b, is_ascii_alphanumeric b || is_underscore b) (c :: name) = true) as Hf.
    { cbn. apply andb_true_iff. split.
      - unfold is_ascii_alphanumeric. apply orb_true_iff in Hc as [->| ->]; [done|by rewrite orb_true_r].
      - apply forallb_forall. intros b Hb. rewrite Forall_forall in Hall. apply Hall. by apply list_elem_of_In. }
    change (c :: name ++ "="%char :: value) with ((c :: name) ++ "="%char :: value).
    rewrite split_once_name; [by rewrite Hc, Hf|]. intros Hin%list_elem_of_In.
    rewrite forallb_forall in Hf. specialize (Hf _ Hin). by vm_compute in Hf.
Qed.

Lemma assignment_undashed w : assignment w → is_dashed w = false.
Proof.
  intros (c & name & value & -> & Hc & _). unfold is_dashed. cbn. case_bool_decide as Hd; [|done].
  subst c. by vm_compute in Hc.
Qed.

(** The scan passes over a setting, with whatever directory. *)
Lemma env_scan_flag chdir i o rest :
  is_dashed o = true → o ≠ txt "-" → o ≠ txt "--" → o ∉ ENV_WITH_ARG →
  ∃ chdir', env_scan_from chdir i (o :: rest) = env_scan_from chdir' (i + 1) rest.
Proof.
  intros Hd H1 H2 H3. cbn [env_scan_from]. rewrite decide_False, bool_decide_false, Hd by done. cbn [negb andb].
  rewrite decide_False by (intros [->| ->]; apply H3; by apply (bool_decide_unpack _)).
  destruct (text_strip_prefix (txt "--chdir=") o); [by eexists|].
  assert (o ∉ [txt "-u"; txt "--unset"; txt "-S"; txt "--split-string"]) as H4.
  { intros Hin. apply H3. unfold ENV_WITH_ARG. cbn. set_solver. }
  destruct (text_strip_prefix (txt "-C") o) as [[|c dir]|]; [|by eexists|]; rewrite decide_False by done; by eexists.
Qed.

Lemma env_scan_arg chdir i o rest :
  o ∈ ENV_WITH_ARG →
  match rest with
  | [] => (env_scan_from chdir i [o]).2 = i + 2
  | a :: rest => ∃ chdir', env_scan_from chdir i (o :: a :: rest) = env_scan_from chdir' (i + 2) rest
  end.
Proof.
  unfold ENV_WITH_ARG. cbn [fmap list_fmap]. intros Ho.
  repeat (apply elem_of_cons in Ho as [->|Ho]; [destruct rest; [done|by eexists]|]). by apply elem_of_nil in Ho.
Qed.

Lemma env_scan_app chdir settings tail i :
  env_settings settings →
  ∃ chdir', env_scan_from chdir i (settings ++ tail) = env_scan_from chdir' (i + length settings) tail.
Proof.
  intros Hs. revert chdir i.
  induction Hs as [|w ws Hw _ IH|o ws Hd H1 H2 H3 _ IH|o a ws Ho _ IH]; intros chdir i; cbn [app length].
  - exists chdir. by rewrite Nat.add_0_r.
  - destruct (IH chdir (i + 1)) as [chdir' IH']. exists chdir'. cbn [env_scan_from].
    pose proof (assignment_undashed w Hw) as Hd. rewrite Hd, andb_false_r.
    apply is_env_assignment_true in Hw. rewrite Hw, decide_False, IH'; [f_equal; lia|].
    intros ->. by vm_compute in Hd.
  - destruct (env_scan_flag chdir i o (ws ++ tail)) as [c ->]; [done..|].
    destruct (IH c (i + 1)) as [c' ->]. exists c'. f_equal. lia.
  - destruct (env_scan_arg chdir i o (a :: ws ++ tail) Ho) as [c ->].
    destruct (IH c (i + 2)) as [c' ->]. exists c'. f_equal. lia.
Qed.

Lemma env_settings_app l l' : env_settings l → env_settings l' → env_settings (l ++ l').
Proof. induction 1; intros Hl'; cbn; [done|constructor; auto|by apply env_flag; auto|by apply env_arg; auto]. Qed.

(** Where the scan ends: before an operand, behind [--], or past the last word. *)
Definition env_ends (chdir : option text) (i : nat) (rest : list text) : Prop :=
  let e := (env_scan_from chdir i rest).2 in
  (∃ settings tail, rest = settings ++ tail ∧ env_settings settings
     ∧ (env_operand tail ∧ e = i + length settings
        ∨ ∃ tail', tail = txt "--" :: tail' ∧ e = i + length settings + 1))
  ∨ i + length rest <= e.

Lemma env_ends_after chdir chdir' i pre rest :
  env_settings pre → (env_scan_from chdir i (pre ++ rest)).2 = (env_scan_from chdir' (i + length pre) rest).2 →
  env_ends chdir' (i + length pre) rest → env_ends chdir i (pre ++ rest).
Proof.
  intros Hpre Hscan [(settings & tail & -> & Hs & Hend)|Hend]; unfold env_ends; rewrite Hscan.
  - left. exists (pre ++ settings), tail. rewrite length_app, Nat.add_assoc.
    split_and!; [by rewrite app_assoc|by apply env_settings_app|done].
  - right. rewrite length_app. lia.
Qed.

Lemma env_scan_split chdir rest i : env_ends chdir i rest.
Proof.
  remember (length rest) as n eqn:Hn. assert (length rest <= n) as Hle by lia. clear Hn.
  revert chdir rest i Hle. induction n as [|n IH]; intros chdir rest i Hle.
  { destruct rest; cbn in *; [right; cbn; lia|lia]. }
  destruct rest as [|o rest]; [right; cbn; lia|]. cbn [length] in *.
  assert (∀ c, env_settings [o] → (env_scan_from chdir i (o :: rest)).2 = (env_scan_from c (i + 1) rest).2 →
    env_ends chdir i (o :: rest)) as Hone.
  { intros c Hs He. apply (env_ends_after chdir c i [o] rest Hs He), IH. lia. }
  destruct (decide (o = txt "--")) as [->|H2].
  { left. exists [], (txt "--" :: rest). split_and!; [done|constructor|]. right. exists rest. by rewrite Nat.add_0_r. }
  destruct (decide (o ∈ ENV_WITH_ARG)) as [H3|H3].
  { pose proof (env_scan_arg chdir i o rest H3) as Ha. destruct rest as [|a rest]; [right; cbn [length]; lia|].
    destruct Ha as [c Ha]. apply (env_ends_after chdir c i [o; a] rest); [exact (env_arg o a [] H3 env_none)|exact (f_equal snd Ha)|].
    apply IH. cbn in *. lia. }
  destruct (is_env_assignment o) eqn:Ho.
  { pose proof Ho as Hd%is_env_assignment_true%assignment_undashed. apply (Hone chdir).
    - apply env_assigns; [by apply is_env_assignment_true|constructor].
    - cbn [env_scan_from]. by rewrite decide_False, Hd, andb_false_r, Ho by done. }
  assert (¬ assignment o) as Hna by (rewrite <- is_env_assignment_true; congruence).
  destruct (decide (o = txt "-")) as [->|H1].
  { left. exists [], (txt "-" :: rest). split_and!; [done|constructor|]. left. split; [by left|].
    exact (eq_sym (Nat.add_0_r i)). }
  destruct (is_dashed o) eqn:Hd.
  - destruct (env_scan_flag chdir i o rest) as [c Hc]; [done..|].
    apply (Hone c); [|by rewrite Hc]. apply env_flag; [done..|constructor].
  - left. exists [], (o :: rest). split_and!; [done|constructor|]. left. split; [by right|].
    cbn [env_scan_from]. rewrite decide_False, Hd, andb_false_r, Ho by done. cbn. lia.
Qed.

Lemma env_scan_end chdir settings tail i :
  env_settings settings → env_operand tail → (env_scan_from chdir i (settings ++ tail)).2 = i + length settings.
Proof.
  intros Hs Ht. destruct (env_scan_app chdir settings tail i Hs) as [c ->]. destruct tail as [|w tail]; [done|].
  cbn [env_scan_from]. destruct Ht as [->|[Hd Ha]]; [done|].
  rewrite decide_False, Hd, andb_false_r by (intros ->; by vm_compute in Hd).
  rewrite <- is_env_assignment_true in Ha. by destruct (is_env_assignment w).
Qed.

(** What is dropped is the wrapper. *)
Lemma drop_wrapper {A} (p : A) (opts inner : list A) : drop (1 + length opts) (p :: opts ++ inner) = inner.
Proof. cbn. apply drop_app_length. Qed.

(** The scan finds the layer. *)
Lemma wraps_strip ws inner : wraps ws inner → strip_wrapper_command ws = Some inner.
Proof.
  assert (∀ (p : text) opts x k, drop (1 + length opts + 1) (p :: opts ++ x :: k) = k) as Hdrop.
  { intros p opts x k. cbn. rewrite drop_app_add. done. }
  unfold strip_wrapper_command.
  intros [p opts x k Hp Ho Hx Hi|p opts k Hp Ho Hi|p opts k Hp Ho Hi|p opts x k Hp Ho Hx Hi
    |p opts k Hp Ho Hi|p opts k Hp Ho Hi|p opts k Hp Ho Hi];
    apply basename_program in Hp; try done; unfold wrapped_at; rewrite Hp; repeat (rewrite decide_False by done);
    rewrite decide_True by done; cbn zeta.
  - rewrite skip_options_end by done. destruct (_ <=? _) eqn:E; breflect.
    + exfalso. cbn in E. rewrite length_app in E. cbn in E. lia.
    + cbn [mbind option_bind]. rewrite Hdrop. by destruct k.
  - rewrite skip_options_end by done. cbn [mbind option_bind]. rewrite drop_wrapper. by destruct k.
  - rewrite skip_options_end by done. cbn [mbind option_bind]. rewrite drop_wrapper. by destruct k.
  - rewrite skip_options_end by done. destruct (_ <=? _) eqn:E; breflect.
    + exfalso. cbn in E. rewrite length_app in E. cbn in E. lia.
    + cbn [mbind option_bind]. rewrite Hdrop. by destruct k.
  - rewrite skip_options_end by done. cbn [mbind option_bind]. rewrite drop_wrapper. by destruct k.
  - unfold env_scan. rewrite skipn_cons, drop_0. rewrite env_scan_end by done. cbn [mbind option_bind]. rewrite drop_wrapper.
    by destruct k.
  - unfold env_scan. rewrite skipn_cons, drop_0. destruct (env_scan_app None opts (txt "--" :: k) 1 Ho) as [c ->].
    cbn [env_scan_from]. rewrite decide_True by done. cbn [mbind option_bind snd]. rewrite Hdrop. by destruct k.
Qed.

(** A scan that ends behind the last word finds no layer. *)
Lemma drop_past {A} (l : list A) i : length l <= i → drop i l = [].
Proof. intros Hl. by apply drop_ge. Qed.

Lemma skip_strip wa (p : text) args inner (k : nat) :
  (match drop (skip_options wa 1 args + k) (p :: args) with [] => None | inner => Some inner end) = Some inner →
  ∃ opts tail, args = opts ++ tail ∧ options wa opts ∧ operand tail ∧ drop k tail = inner ∧ inner ≠ [].
Proof.
  intros Hd. destruct (skip_options_split wa args 1) as [(opts & tail & -> & Ho & Ht & Hs)|Hs].
  - rewrite Hs in Hd. exists opts, tail. split_and!; try done.
    + replace (1 + length opts + k) with (S (length opts + k)) in Hd by lia. cbn [drop] in Hd.
      rewrite drop_app_add in Hd. destruct (drop k tail); congruence.
    + destruct (drop _ _); [done|]. by injection Hd as <-.
  - rewrite drop_past in Hd by (cbn; lia). done.
Qed.

Lemma strip_wraps ws inner : strip_wrapper_command ws = Some inner → wraps ws inner.
Proof.
  unfold strip_wrapper_command. destruct ws as [|p args]; [done|]. unfold wrapped_at. cbn zeta.
  case_decide as K1; [|case_decide as K2; [|case_decide as K3; [|case_decide as K4; [|case_decide as K5; [|case_decide as K6; [|done]]]]]].
  - destruct (_ <=? _); [done|]. cbn [mbind option_bind].
    intros (opts & [|x tail] & -> & Ho & Ht & Hd & Hi)%skip_strip; [done|]. cbn in Hd, Ht. rewrite drop_0 in Hd. subst tail.
    apply basename_program in K1; [|done]. by apply wraps_timeout.
  - cbn [mbind option_bind]. rewrite <- (Nat.add_0_r (skip_options _ _ _)).
    intros (opts & tail & -> & Ho & Ht & Hd & Hi)%skip_strip. rewrite drop_0 in Hd. subst tail.
    apply basename_program in K2; [|done]. by apply wraps_nice.
  - cbn [mbind option_bind]. rewrite <- (Nat.add_0_r (skip_options _ _ _)).
    intros (opts & tail & -> & Ho & Ht & Hd & Hi)%skip_strip. rewrite drop_0 in Hd. subst tail.
    apply basename_program in K3; [|done]. by apply wraps_ionice.
  - destruct (_ <=? _); [done|]. cbn [mbind option_bind].
    intros (opts & [|x tail] & -> & Ho & Ht & Hd & Hi)%skip_strip; [done|]. cbn in Hd, Ht. rewrite drop_0 in Hd. subst tail.
    apply basename_program in K4; [|done]. by apply wraps_chrt.
  - cbn [mbind option_bind]. rewrite <- (Nat.add_0_r (skip_options _ _ _)).
    intros (opts & tail & -> & Ho & Ht & Hd & Hi)%skip_strip. rewrite drop_0 in Hd. subst tail.
    apply basename_program in K5; [|done]. by apply wraps_stdbuf.
  - cbn [mbind option_bind]. unfold env_scan. rewrite skipn_cons, drop_0. apply basename_program in K6; [|done].
    destruct (env_scan_split None args 1) as [(settings & tail & -> & Hs & [[Ht He]|(tail' & -> & He)])|He].
    + rewrite He, drop_wrapper. destruct tail; [done|]. intros [= <-]. by apply wraps_env.
    + rewrite He. cbn [Nat.add drop]. rewrite drop_app_add. destruct tail' as [|y tail']; [done|]. intros [= <-].
      by apply wraps_env_end.
    + rewrite drop_past by (cbn; lia). done.
Qed.

Lemma strip_wrapper_spec ws inner : strip_wrapper_command ws = Some inner ↔ wraps ws inner.
Proof. split; [apply strip_wraps|apply wraps_strip]. Qed.

Lemma unwrap_bared n ws ws' : unwrap_loop n ws = ws' ↔ bared n ws ws'.
Proof.
  split.
  - intros <-. revert ws. induction n as [|n IH]; intros ws; cbn; [constructor|].
    destruct (strip_wrapper_command ws) as [inner|] eqn:Hs.
    + eapply bared_layer; [by apply strip_wrapper_spec|apply IH].
    + apply bared_core. intros inner Hw%strip_wrapper_spec. congruence.
  - induction 1 as [|n ws Hn|n ws inner ws' Hw _ IH]; [done| |].
    + destruct n as [|n]; [done|]. cbn. destruct (strip_wrapper_command ws) as [inner|] eqn:Hs; [|done].
      by apply strip_wrapper_spec, Hn in Hs.
    + apply strip_wrapper_spec in Hw. cbn. by rewrite Hw.
Qed.
