(* ===== verification/PermissionProps.v ===== *)
(** * Permissions: theorems

    The precedence of the rules, the evaluation of a shell script against every
    command that its tree shows ([runs_command], [bared], [dash_c]), the lock on blanket grants, the policy on MCP servers, and
    the textual form of a rule. *)

From S2P Require Import Prelude Text ShellCommands Permission.

Open Scope nat_scope.

(** ** Precedence *)

Section precedence.
Context `{PermissionEnv}.

(** The rule applies, with this action. *)
Definition applies_as (act : RuleAction) (access : AccessKind) (r : PermissionRule) : bool :=
  rule_applies access r && bool_decide (action r = act).

(** The reference: deny over ask over allow. *)
Definition precedence (access : AccessKind) (rs : list PermissionRule) : option Verdict :=
  match find_b (applies_as ActDeny access) rs with
  | Some r => Some (Reject (deny_reason r))
  | None =>
      if any_b (applies_as ActAsk access) rs then Some Ask
      else if any_b (applies_as ActAllow access) rs then Some Allow else None
  end.

Lemma evaluate_from_spec ask allow access rs :
  evaluate_from ask allow access rs =
    match find_b (applies_as ActDeny access) rs with
    | Some r => Some (Reject (deny_reason r))
    | None =>
        if ask || any_b (applies_as ActAsk access) rs then Some Ask
        else if allow || any_b (applies_as ActAllow access) rs then Some Allow else None
    end.
Proof.
  revert ask allow. induction rs as [|r rs IH]; intros ask allow; cbn.
  { by rewrite !orb_false_r. }
  unfold applies_as at 1 3 5. destruct (rule_applies access r); cbn; [|apply IH].
  destruct (action r) eqn:Ha; cbn; rewrite ?IH; cbn.
  - by rewrite orb_true_r.
  - done.
  - by rewrite orb_true_r.
Qed.

Lemma evaluate_precedence config access : evaluate config access = precedence access (rules config).
Proof. apply evaluate_from_spec. Qed.

(** The severity of a decision. *)
Definition sev (d : option Verdict) : nat := match d with Some v => decision_rank v | None => 0 end.

Lemma any_b_perm {A} (p : A → bool) l l' : l ≡ₚ l' → any_b p l = any_b p l'.
Proof.
  intros Hp. apply eq_bool_prop_intro. rewrite !Is_true_true, !any_b_true.
  by setoid_rewrite Hp.
Qed.

Lemma find_b_any {A} (p : A → bool) l : any_b p l = match find_b p l with Some _ => true | None => false end.
Proof. induction l as [|x l IH]; [done|]. cbn. by destruct (p x). Qed.

Lemma precedence_sev access rs :
  sev (precedence access rs) =
    if any_b (applies_as ActDeny access) rs then 3
    else if any_b (applies_as ActAsk access) rs then 2
    else if any_b (applies_as ActAllow access) rs then 1 else 0.
Proof.
  unfold precedence. rewrite (find_b_any (applies_as ActDeny access)).
  by destruct (find_b _ rs); repeat case_match.
Qed.

(** The evaluation of an access is deny over ask over allow among the rules
    that apply: the reason of a rejection is that of the first deny rule that
    applies, a request to ask or to allow needs that no rule of higher precedence
    applies, and no decision is made if no rule applies.  The order of the rules,
    and so of the files they come from, never changes more than that reason. *)
Theorem policy_precedence (config : PermissionConfig) (access : AccessKind)
    (rs : list PermissionRule) (p : PromptPolicy) :
  rs ≡ₚ rules config →
  evaluate config access = precedence access (rules config)
  ∧ sev (evaluate (mkConfig rs p) access) = sev (evaluate config access).
Proof.
  intros Hp. split; [apply evaluate_precedence|].
  rewrite !evaluate_precedence, !precedence_sev. cbn [rules].
  by rewrite !(any_b_perm _ _ _ Hp).
Qed.

End precedence.

(** A matcher for literal patterns, and one for a trailing star. *)
Definition demo_glob : PermissionEnv :=
  {| glob_valid := λ p, negb (bool_decide (p = txt "["));
     glob_match := λ p _ _ s,
       match strip_last "*"%char p with
       | Some q => starts_with q s
       | None => bool_decide (p = s)
       end;
     url_host_str := λ _, None;
     to_lowercase := to_ascii_lowercase |}.

Definition demo_rules : PermissionConfig :=
  mkConfig [mkRule ActAllow TBash None Glob; mkRule ActAsk TBash (Some (txt "git push")) Glob;
            mkRule ActDeny TBash (Some (txt "rm")) Glob] PromptAsk.

Lemma policy_precedence_witness :
  @evaluate demo_glob demo_rules (Bash (txt " rm -rf /"))
    = Some (Reject (@deny_reason (mkRule ActDeny TBash (Some (txt "rm")) Glob)))
  ∧ @evaluate demo_glob demo_rules (Bash (txt "git push origin")) = Some Ask
  ∧ @evaluate demo_glob demo_rules (Bash (txt "ls")) = Some Allow
  ∧ sev (@evaluate demo_glob (mkConfig (reverse (rules demo_rules)) PromptAsk) (Bash (txt "rm x")))
    = sev (@evaluate demo_glob demo_rules (Bash (txt "rm x"))).
Proof.
  split_and!; [by vm_compute..|].
  apply (@policy_precedence demo_glob demo_rules (Bash (txt "rm x")) (reverse (rules demo_rules))).
  apply reverse_Permutation.
Defined.

(** ** Shell scripts *)

Section scripts.
Context `{PermissionEnv} `{ShellParser}.

(** [-c], alone or in a cluster. *)
Definition c_flag (w : text) : Prop :=
  starts_with (txt "-") w = true ∧ starts_with (txt "--") w = false ∧ "c"%char ∈ w.

(** The script that a shell runs: the first operand behind the first [-c] flag; a lone dash, single
    or double, makes the next word the operand. *)
Inductive dash_c : list text → text → Prop :=
| dash_c_operand p shell before flag opts script after :
    program p shell → shell ∈ [txt "bash"; txt "sh"; txt "dash"; txt "zsh"; txt "ksh"] →
    Forall (λ w, ¬ c_flag w) before → c_flag flag →
    Forall (λ w, is_dashed w = true ∧ w ≠ txt "-" ∧ w ≠ txt "--") opts → is_dashed script = false →
    dash_c (p :: before ++ flag :: opts ++ script :: after) script
| dash_c_ended p shell before flag opts dash script after :
    program p shell → shell ∈ [txt "bash"; txt "sh"; txt "dash"; txt "zsh"; txt "ksh"] →
    Forall (λ w, ¬ c_flag w) before → c_flag flag →
    Forall (λ w, is_dashed w = true ∧ w ≠ txt "-" ∧ w ≠ txt "--") opts → dash ∈ [txt "-"; txt "--"] →
    dash_c (p :: before ++ flag :: opts ++ dash :: script :: after) script.

Lemma is_c_flag_true w : is_c_flag w = true ↔ c_flag w.
Proof.
  unfold is_c_flag, c_flag, is_dashed. rewrite !andb_true_iff, negb_true_iff, contains_spec.
  assert ((∃ a b, w = a ++ txt "c" ++ b) ↔ "c"%char ∈ w) as ->; [|tauto].
  split; [intros (a & b & ->); set_solver|]. intros (a & b & ->)%list_elem_of_split. by exists a, b.
Qed.

Lemma after_first_Some p l rest :
  after_first p l = Some rest ↔
    ∃ before flag, l = before ++ flag :: rest ∧ Forall (λ w, p w = false) before ∧ p flag = true.
Proof.
  split.
  - induction l as [|w l IH]; [done|]. cbn. destruct (p w) eqn:Hw; [intros [= ->]; by exists [], w|].
    intros (before & flag & -> & Hb & Hf)%IH. exists (w :: before), flag. split_and!; [done|by constructor|done].
  - intros (before & flag & -> & Hb & Hf). induction Hb as [|w before Hw _ IH]; cbn; [by rewrite Hf|by rewrite Hw].
Qed.

Lemma script_operand_Some rest script :
  script_operand rest = Some script ↔
    ∃ opts tail, rest = opts ++ tail
      ∧ Forall (λ w, is_dashed w = true ∧ w ≠ txt "-" ∧ w ≠ txt "--") opts
      ∧ ((∃ after, tail = script :: after ∧ is_dashed script = false)
         ∨ ∃ dash after, tail = dash :: script :: after ∧ dash ∈ [txt "-"; txt "--"]).
Proof.
  split.
  - induction rest as [|w rest IH]; [done|]. cbn [script_operand]. case_decide as Hw.
    + destruct rest as [|x rest]; [done|]. intros [= ->]. exists [], (w :: script :: rest). split_and!; [done|constructor|].
      right. exists w, rest. split; [done|]. set_solver.
    + destruct (is_dashed w) eqn:Hd; cbn [negb].
      * intros (opts & tail & -> & Ho & Ht)%IH. exists (w :: opts), tail. split_and!; [done| |done].
        constructor; [|done]. split_and!; [done|naive_solver|naive_solver].
      * intros [= <-]. exists [], (w :: rest). split_and!; [done|constructor|]. left. by exists rest.
  - intros (opts & tail & -> & Ho & Ht). induction Ho as [|w opts (Hd & H1 & H2) _ IH]; cbn [app script_operand].
    + destruct Ht as [(after & -> & Hd)|(dash & after & -> & Hd)]; cbn [script_operand].
      * rewrite decide_False by (intros [->| ->]; by vm_compute in Hd). by rewrite Hd.
      * rewrite decide_True by set_solver. done.
    + rewrite decide_False by naive_solver. by rewrite Hd.
Qed.

Lemma dash_c_script ws script : shell_dash_c_script ws = Some script ↔ dash_c ws script.
Proof.
  assert (∀ p, is_shell (basename p) = true ↔
    ∃ shell, program p shell ∧ shell ∈ [txt "bash"; txt "sh"; txt "dash"; txt "zsh"; txt "ksh"]) as Hshell.
  { intros p. unfold is_shell. rewrite bool_decide_eq_true. split.
    - intros Hin. exists (basename p). split; [|done]. apply basename_program; [|done].
      revert Hin. generalize (basename p). intros q Hq.
      repeat (apply elem_of_cons in Hq as [->|Hq]; [done|]). by apply elem_of_nil in Hq.
    - intros (shell & Hp & Hin). apply basename_program in Hp; [by rewrite Hp|].
      repeat (apply elem_of_cons in Hin as [->|Hin]; [done|]). by apply elem_of_nil in Hin. }
  assert (∀ l, Forall (λ w, is_c_flag w = false) l ↔ Forall (λ w, ¬ c_flag w) l) as Hno.
  { intros l. apply Forall_iff. intros w. rewrite <- is_c_flag_true. by destruct (is_c_flag w). }
  split.
  - destruct ws as [|p args]; [done|]. cbn. destruct (is_shell (basename p)) eqn:Hs; [|done].
    apply Hshell in Hs as (shell & Hp & Hin).
    intros (rest & (before & flag & -> & Hb%Hno & Hf%is_c_flag_true)%after_first_Some & Hr)%bind_Some.
    apply script_operand_Some in Hr as (opts & tail & -> & Ho & [(after & -> & Hd)|(dash & after & -> & Hd)]).
    + by eapply dash_c_operand.
    + by eapply dash_c_ended.
  - intros [p shell before flag opts scr after Hp Hin Hb Hf Ho Hd
           |p shell before flag opts dash scr after Hp Hin Hb Hf Ho Hd]; cbn.
    all: assert (is_shell (basename p) = true) as -> by (apply Hshell; eauto).
    all: apply bind_Some; eexists; split; [apply after_first_Some; exists before, flag;
           split_and!; [done|by apply Hno|by apply is_c_flag_true]|].
    all: apply script_operand_Some; eexists opts, _; split_and!; [done..|]; eauto 10.
Qed.

(** A command that the script runs itself, as written or without its wrappers, at most
    eight of them. *)
Definition form_of (cmd : text) (ws : list text) : Prop :=
  simple cmd ∧ ∃ raw, runs_command cmd raw ∧ (ws = raw ∨ bared 8 raw ws).

Lemma strip_wrapper_suffix cmd inner : strip_wrapper_command cmd = Some inner → inner `suffix_of` cmd.
Proof.
  unfold strip_wrapper_command. destruct (wrapped_at cmd) as [i|]; [|done]. cbn.
  intros Hi. exists (take i cmd). rewrite <- (take_drop i cmd) at 1.
  destruct (drop i cmd); by simplify_eq.
Qed.

Lemma unwrap_suffix n ws : unwrap_loop n ws `suffix_of` ws.
Proof.
  revert ws. induction n as [|n IH]; intros ws; cbn; [done|].
  destruct (strip_wrapper_command ws) as [inner|] eqn:Hs; [|done].
  transitivity inner; [apply IH|by apply strip_wrapper_suffix].
Qed.

Lemma elem_of_forms ws w : ws ∈ forms w ↔ ws = w ∨ ws = unwrap_wrappers w.
Proof.
  unfold forms. destruct (length (unwrap_wrappers w) =? length w) eqn:Hl; [|set_solver].
  apply Nat.eqb_eq in Hl.
  assert (unwrap_wrappers w `suffix_of` w) as [k Hk] by apply unwrap_suffix.
  assert (unwrap_wrappers w = w) as ->; [|set_solver].
  pose proof (f_equal length Hk) as Hlen. rewrite length_app in Hlen.
  destruct k; [done|cbn [length] in Hlen; lia].
Qed.

(** The forms of the commands that a script can run, through [-c] scripts, down to
    a number of levels. *)
Inductive reaches : nat → text → list text → Prop :=
| reach_here n cmd ws : form_of cmd ws → reaches (S n) cmd ws
| reach_inner n cmd ws inner ws' :
    form_of cmd ws → dash_c ws inner → reaches n inner ws' →
    reaches (S n) cmd ws'.

(** Some part of the script cannot be decomposed, or is too deep. *)
Inductive opaque : nat → text → Prop :=
| opaque_deep cmd : opaque 0 cmd
| opaque_parse n cmd : ¬ simple cmd → opaque (S n) cmd
| opaque_inner n cmd ws inner :
    form_of cmd ws → dash_c ws inner → opaque n inner → opaque (S n) cmd.

Lemma sev_combine a b : sev (combine_decisions a b) = max (sev a) (sev b).
Proof.
  destruct a as [a|], b as [b|]; cbn; try lia.
  destruct (decision_rank b <=? decision_rank a) eqn:E; breflect; cbn; lia.
Qed.

(** Nothing, a question or a rejection. *)
Definition escalation (d : option Verdict) : Prop :=
  d = None ∨ d = Some Ask ∨ ∃ r, d = Some (Reject r).

Lemma escalation_combine a b : escalation a → escalation b → escalation (combine_decisions a b).
Proof.
  unfold escalation. intros [->|[->|[ra ->]]] [->|[->|[rb ->]]]; cbn; eauto.
Qed.

Lemma evaluate_cases config access :
  evaluate config access = Some Allow ∨ escalation (evaluate config access).
Proof.
  rewrite evaluate_precedence. unfold precedence, escalation.
  destruct (find_b _ _); [eauto|]. repeat case_match; eauto.
Qed.

Lemma escalate_escalation config s : escalation (escalate config s).
Proof.
  unfold escalate. destruct (evaluate_cases config (Bash s)) as [->|He]; [by left|].
  destruct (evaluate config (Bash s)) as [[]|]; try done; by left.
Qed.

Lemma sev_escalate config s : 2 <= sev (escalate config s) ↔ 2 <= sev (evaluate config (Bash s)).
Proof.
  unfold escalate. destruct (evaluate config (Bash s)) as [[]|]; cbn; lia.
Qed.

Lemma sev_escalate_deny config s : 3 <= sev (escalate config s) ↔ 3 <= sev (evaluate config (Bash s)).
Proof. unfold escalate. destruct (evaluate config (Bash s)) as [[]|]; cbn; lia. Qed.

Lemma escalation_deny d : escalation d → 3 <= sev d ↔ ∃ r, d = Some (Reject r).
Proof. intros [->|[->|[r ->]]]; cbn; split; [lia|by intros [? ?]|lia|by intros [? ?]|eauto|lia]. Qed.

Lemma escalation_none d : escalation d → 2 <= sev d ↔ d ≠ None.
Proof. intros [->|[->|[r ->]]]; cbn; split; done || lia. Qed.

(** The fold over the forms of a script. *)
Definition fold_forms (f : text → option Verdict) (config : PermissionConfig)
    (d : option Verdict) (l : list (list text)) : option Verdict :=
  foldl (λ decision ws,
    let decision := combine_decisions decision (escalate config (join_with (txt " ") ws)) in
    match shell_dash_c_script ws with
    | Some inner => combine_decisions decision (f inner)
    | None => decision
    end) d l.

Lemma fold_forms_cons f config d ws l :
  fold_forms f config d (ws :: l) =
    fold_forms f config
      (match shell_dash_c_script ws with
       | Some inner =>
           combine_decisions (combine_decisions d (escalate config (join_with (txt " ") ws))) (f inner)
       | None => combine_decisions d (escalate config (join_with (txt " ") ws))
       end) l.
Proof. done. Qed.

Lemma fold_forms_sev f config d l n :
  0 < n →
  n <= sev (fold_forms f config d l)
  ↔ n <= sev d ∨ ∃ ws, ws ∈ l ∧
      (n <= sev (escalate config (join_with (txt " ") ws))
       ∨ ∃ inner, shell_dash_c_script ws = Some inner ∧ n <= sev (f inner)).
Proof.
  intros Hn. revert d. induction l as [|ws l IH]; intros d.
  { split; [by left|]. intros [?|(? & ?%not_elem_of_nil & _)]; done. }
  rewrite fold_forms_cons, IH.
  destruct (shell_dash_c_script ws) as [inner|] eqn:Hs; rewrite !sev_combine, !Nat.max_le_iff.
  - split.
    + intros [[[?|?]|?]|(w & ? & ?)]; [by left|right; exists ws; set_solver| |].
      * right. exists ws. split; [left|]. right. by exists inner.
      * right. exists w. split; [by right|done].
    + intros [?|(w & [->|Hw]%elem_of_cons & [?|(i & Hi & ?)])]; [by do 3 left|by left; left; right| | |].
      * left. right. congruence.
      * right. exists w. eauto.
      * right. exists w. eauto.
  - split.
    + intros [[?|?]|(w & ? & ?)]; [by left|right; exists ws; set_solver|].
      right. exists w. split; [by right|done].
    + intros [?|(w & [->|Hw]%elem_of_cons & [?|(i & Hi & ?)])]; [by do 2 left|by left; right|congruence| |].
      * right. exists w. eauto.
      * right. exists w. eauto.
Qed.

Lemma fold_forms_escalation f config d l :
  escalation d → (∀ s, escalation (f s)) → escalation (fold_forms f config d l).
Proof.
  intros Hd Hf. revert d Hd. induction l as [|ws l IH]; intros d Hd; [done|].
  rewrite fold_forms_cons. apply IH.
  destruct (shell_dash_c_script ws); repeat apply escalation_combine; eauto using escalate_escalation.
Qed.

Lemma segments_escalation n config cmd : escalation (evaluate_bash_command_segments n config cmd).
Proof.
  revert cmd. induction n as [|n IH]; intros cmd; cbn; [right; by left|].
  destruct (all_commands_from_script cmd) as [segments|]; [|right; by left].
  apply (fold_forms_escalation (evaluate_bash_command_segments n config)); [by left|apply IH].
Qed.

Lemma segments_unfold n config cmd segments :
  all_commands_from_script cmd = Some segments →
  evaluate_bash_command_segments (S n) config cmd =
    fold_forms (evaluate_bash_command_segments n config) config None
      (segments ≫= λ parsed, forms (words parsed)).
Proof. intros Hs. cbn. by rewrite Hs. Qed.

Lemma form_of_bind cmd segments ws :
  all_commands_from_script cmd = Some segments →
  form_of cmd ws ↔ ws ∈ (segments ≫= λ parsed, forms (words parsed)).
Proof.
  intros Hs. pose proof (all_commands_spec cmd) as Ha. rewrite Hs in Ha. destruct Ha as [Hsimple Ha].
  rewrite list_elem_of_bind. unfold form_of. setoid_rewrite <- Ha. setoid_rewrite elem_of_forms.
  setoid_rewrite <- unwrap_bared. unfold unwrap_wrappers. split.
  - intros (_ & raw & (p & Hp & <-) & Hf). exists p. split; [naive_solver|done].
  - intros (p & Hf & Hp). split; [done|]. exists (words p). split; [by exists p|naive_solver].
Qed.

Lemma reaches_inv n cmd ws :
  reaches (S n) cmd ws ↔
    form_of cmd ws
    ∨ ∃ w inner, form_of cmd w ∧ dash_c w inner ∧ reaches n inner ws.
Proof.
  split; [inversion 1; subst; [by left|right; eauto 10]|].
  intros [?|(w & inner & ? & ? & ?)]; [by constructor|by eapply reach_inner].
Qed.

(** A rule of this action applies to the command. *)
Definition ruled (act : RuleAction) (config : PermissionConfig) (ws : list text) : Prop :=
  ∃ r, r ∈ rules config ∧ action r = act ∧ rule_applies (Bash (join_with (txt " ") ws)) r = true.

Lemma ruled_any act config ws :
  ruled act config ws ↔ any_b (applies_as act (Bash (join_with (txt " ") ws))) (rules config) = true.
Proof.
  unfold ruled. rewrite any_b_true. split; intros (r & Hin & Hr); exists r; (split; [done|]);
    revert Hr; unfold applies_as; rewrite andb_true_iff, bool_decide_eq_true; tauto.
Qed.

Lemma sev_ruled_deny config ws :
  3 <= sev (evaluate config (Bash (join_with (txt " ") ws))) ↔ ruled ActDeny config ws.
Proof.
  rewrite evaluate_precedence, precedence_sev, ruled_any.
  destruct (any_b (applies_as ActDeny _) _); [split; [done|lia]|].
  destruct (any_b (applies_as ActAsk _) _); [split; [lia|done]|]. destruct (any_b _ _); split; lia || done.
Qed.

Lemma sev_ruled_ask config ws :
  2 <= sev (evaluate config (Bash (join_with (txt " ") ws))) ↔ ruled ActDeny config ws ∨ ruled ActAsk config ws.
Proof.
  rewrite evaluate_precedence, precedence_sev, !ruled_any.
  destruct (any_b (applies_as ActDeny _) _); [split; [auto|lia]|].
  destruct (any_b (applies_as ActAsk _) _); [split; [auto|lia]|].
  destruct (any_b _ _); (split; [lia|by intros [?|?]]).
Qed.

Lemma not_simple cmd : all_commands_from_script cmd = None → ¬ simple cmd.
Proof. intros Hs. pose proof (all_commands_spec cmd) as Ha. by rewrite Hs in Ha. Qed.

Lemma is_simple cmd segments : all_commands_from_script cmd = Some segments → simple cmd.
Proof. intros Hs. pose proof (all_commands_spec cmd) as Ha. rewrite Hs in Ha. by destruct Ha. Qed.

(** Severity 3 is a denied form that is reached. *)
Lemma segments_deny n config cmd :
  3 <= sev (evaluate_bash_command_segments n config cmd) ↔ ∃ ws, reaches n cmd ws ∧ ruled ActDeny config ws.
Proof.
  revert cmd. induction n as [|n IH]; intros cmd.
  { cbn. split; [lia|]. intros (ws & Hr & _). inversion Hr. }
  setoid_rewrite reaches_inv. destruct (all_commands_from_script cmd) as [segments|] eqn:Hs.
  - rewrite (segments_unfold n config cmd segments Hs), fold_forms_sev by lia.
    setoid_rewrite <- (form_of_bind cmd segments _ Hs). setoid_rewrite sev_escalate_deny.
    setoid_rewrite sev_ruled_deny. setoid_rewrite dash_c_script.
    setoid_rewrite IH. cbn. split.
    + intros [?|(ws & Hf & [?|(inner & Hi & w & Hw & ?)])]; [lia|by exists ws; eauto|].
      exists w. split; [right; eauto|done].
    + intros (ws & [Hf|(w & inner & Hf & Hi & Hr)] & ?); right; [by exists ws; eauto|].
      exists w. split; [done|]. right. exists inner. split; [done|]. by exists ws.
  - pose proof (not_simple cmd Hs) as Hn. cbn. rewrite Hs. cbn. split; [lia|].
    intros (ws & [[? _]|(w & inner & [? _] & _)] & _); done.
Qed.

(** Severity 2 is an opaque part, or a form that is denied or asked. *)
Lemma segments_ask n config cmd :
  2 <= sev (evaluate_bash_command_segments n config cmd)
  ↔ opaque n cmd ∨ ∃ ws, reaches n cmd ws ∧ (ruled ActDeny config ws ∨ ruled ActAsk config ws).
Proof.
  revert cmd. induction n as [|n IH]; intros cmd.
  { cbn. split; [left; constructor|lia]. }
  setoid_rewrite reaches_inv. destruct (all_commands_from_script cmd) as [segments|] eqn:Hs.
  - assert (opaque (S n) cmd ↔ ∃ ws inner, form_of cmd ws ∧ dash_c ws inner ∧ opaque n inner) as ->.
    { split; [inversion 1; subst; [by pose proof (is_simple cmd segments Hs)|eauto 10]|].
      intros (ws & inner & ? & ? & ?). by eapply opaque_inner. }
    rewrite (segments_unfold n config cmd segments Hs), fold_forms_sev by lia.
    setoid_rewrite <- (form_of_bind cmd segments _ Hs). setoid_rewrite sev_escalate.
    setoid_rewrite sev_ruled_ask. setoid_rewrite dash_c_script.
    setoid_rewrite IH. cbn. split.
    + intros [?|(ws & Hf & [?|(inner & Hi & [Ho|(w & Hw & ?)])])];
        [lia|right; exists ws; eauto|left; eauto 10|].
      right. exists w. split; [right; eauto|done].
    + intros [(ws & inner & ? & ? & ?)|(ws & [Hf|(w & inner & Hf & Hi & Hr)] & ?)]; right;
        [exists ws; eauto 10|exists ws; eauto|].
      exists w. split; [done|]. right. exists inner. split; [done|]. right. by exists ws.
  - cbn. rewrite Hs. cbn. split; [|lia]. intros _. left. by apply opaque_parse, not_simple.
Qed.

(** The rules that deny or ask about commands. *)
Definition restricted (config : PermissionConfig) : Prop :=
  ∃ r, r ∈ rules config ∧ action r ≠ ActAllow ∧ tool r ∈ [TBash; TAny].

Lemma restrictions_true config : has_bash_command_restrictions config = true ↔ restricted config.
Proof.
  unfold has_bash_command_restrictions, restricted. rewrite any_b_true. setoid_rewrite andb_true_iff.
  setoid_rewrite bool_decide_eq_true. unfold restricts. split; intros (r & ? & ? & ?); exists r.
  - split_and!; [done|by destruct (action r)|done].
  - split_and!; [done|by destruct (action r)|done].
Qed.

Lemma unrestricted_unruled config act ws :
  ¬ restricted config → act ≠ ActAllow → ¬ ruled act config ws.
Proof.
  intros Hn Hact (r & Hin & Ha & Hr). apply Hn. exists r. split_and!; [done|congruence|].
  unfold rule_applies in Hr. destruct (tool r); cbn in Hr; (done || set_solver).
Qed.

(** The reason of a rejection is that of a rule that rejects. *)
Lemma combine_reject a b r :
  combine_decisions a b = Some (Reject r) → a = Some (Reject r) ∨ b = Some (Reject r).
Proof. destruct a as [a|], b as [b|]; cbn; auto. destruct (_ <=? _); auto. Qed.

Lemma escalate_reason config ws why :
  escalate config (join_with (txt " ") ws) = Some (Reject why) →
  ∃ r, r ∈ rules config ∧ action r = ActDeny ∧ rule_applies (Bash (join_with (txt " ") ws)) r = true
    ∧ why = deny_reason r.
Proof.
  unfold escalate. rewrite evaluate_precedence. unfold precedence.
  destruct (find_b _ _) as [r|] eqn:Hf; [|repeat case_match; naive_solver].
  intros [= <-]. apply find_b_Some in Hf as [Hin Hp]. unfold applies_as in Hp.
  apply andb_true_iff in Hp as [? ?%bool_decide_eq_true]. by exists r.
Qed.

Lemma fold_forms_reason f config d l why :
  fold_forms f config d l = Some (Reject why) →
  d = Some (Reject why) ∨ ∃ ws, ws ∈ l ∧
    (escalate config (join_with (txt " ") ws) = Some (Reject why)
     ∨ ∃ inner, shell_dash_c_script ws = Some inner ∧ f inner = Some (Reject why)).
Proof.
  revert d. induction l as [|ws l IH]; intros d; [by left|]. rewrite fold_forms_cons.
  intros [Hd|(w & Hw & Hr)]%IH; [|right; exists w; split; [by right|done]].
  destruct (shell_dash_c_script ws) as [inner|] eqn:Hs.
  - apply combine_reject in Hd as [[Hd|Hd]%combine_reject|Hd]; [by left| |]; right; exists ws;
      (split; [by left|]); [by left|right; by exists inner].
  - apply combine_reject in Hd as [Hd|Hd]; [by left|]. right. exists ws. split; [by left|by left].
Qed.

Lemma segments_reason n config cmd why :
  evaluate_bash_command_segments n config cmd = Some (Reject why) →
  ∃ ws r, reaches n cmd ws ∧ r ∈ rules config ∧ action r = ActDeny
    ∧ rule_applies (Bash (join_with (txt " ") ws)) r = true ∧ why = deny_reason r.
Proof.
  revert cmd. induction n as [|n IH]; intros cmd; [done|].
  destruct (all_commands_from_script cmd) as [segments|] eqn:Hs; [|cbn; by rewrite Hs].
  rewrite (segments_unfold n config cmd segments Hs).
  intros [|(ws & Hin & [He|(inner & Hi & Hf)])]%fold_forms_reason; [done| |];
    apply (form_of_bind cmd segments _ Hs) in Hin.
  - apply escalate_reason in He as (r & ?). exists ws, r. split; [by constructor|done].
  - apply IH in Hf as (w & r & Hr & ?). exists w, r. split; [|done].
    eapply reach_inner; [done|by apply dash_c_script|done].
Qed.

(** C3: the command policy sees every command of a script.  A script is simple if its
    syntax tree has no error and none but the listed kinds of nodes, and every command
    in it is made of plain words.  The commands that are seen are those at any place in
    the tree of a simple script, each as written and without its wrappers, [timeout],
    [nice], [ionice], [chrt], [stdbuf] and [env] with the options and assignments that
    they take, of which at most eight are taken off; and, if a shell runs a script with
    [-c], those of that script, down to eight levels.  The policy rejects exactly if a
    deny rule applies to one of them, with the reason of such a rule.  It lets the
    script pass exactly if no rule denies or asks about commands at all, or if no deny
    or ask rule applies to any of these commands and every script among them is simple
    and within the eight levels.  Else it asks.  It never allows.  So what stands behind a
    ninth wrapper is not seen; the lone dash of [env -] counts as the command's first
    word, and the command in the argument of [env -S] as an argument. *)
Theorem bash_policy_complete (config : PermissionConfig) (cmd : text) :
  let d := evaluate_bash_command_policy config cmd in
  (d = None ∨ d = Some Ask
   ∨ ∃ ws r, d = Some (Reject (deny_reason r)) ∧ reaches 8 cmd ws ∧ r ∈ rules config ∧ action r = ActDeny
       ∧ rule_applies (Bash (join_with (txt " ") ws)) r = true)
  ∧ ((∃ why, d = Some (Reject why)) ↔ ∃ ws, reaches 8 cmd ws ∧ ruled ActDeny config ws)
  ∧ (d = None
     ↔ ¬ restricted config
       ∨ (¬ opaque 8 cmd
          ∧ ∀ ws, reaches 8 cmd ws → ¬ ruled ActDeny config ws ∧ ¬ ruled ActAsk config ws)).
Proof.
  intros d. pose proof (segments_escalation 8 config cmd) as He.
  unfold d, evaluate_bash_command_policy. destruct (has_bash_command_restrictions config) eqn:Hr.
  - apply restrictions_true in Hr. split_and!.
    + destruct He as [?|[?|[why Hwhy]]]; [by left|by right; left|]. right. right.
      destruct (segments_reason _ _ _ _ Hwhy) as (ws & r & ? & ? & ? & ? & ->). by exists ws, r.
    + by rewrite <- (escalation_deny _ He), segments_deny.
    + pose proof (segments_ask 8 config cmd) as Ha. rewrite (escalation_none _ He) in Ha.
      destruct (evaluate_bash_command_segments 8 config cmd); naive_solver.
  - assert (¬ restricted config) as Hn by (rewrite <- restrictions_true; congruence). split_and!; [by left| |].
    + split; [by intros [? ?]|]. intros (ws & _ & Hw). by apply unrestricted_unruled in Hw.
    + split; [by left|done].
Qed.

End scripts.

(** ** The lock on blanket grants *)

Section lock.
Context `{PermissionEnv}.

(** The rules that are not allow rules. *)
Definition restrictive (rs : list PermissionRule) : list PermissionRule :=
  filter_b (λ r, negb (bool_decide (action r = ActAllow))) rs.

Lemma applies_restrictive act access rs :
  act ≠ ActAllow →
  find_b (applies_as act access) (restrictive rs) = find_b (applies_as act access) rs.
Proof.
  intros Hact. unfold restrictive, applies_as. induction rs as [|r rs IH]; [done|]. cbn.
  destruct (decide (action r = ActAllow)) as [Ha|Ha].
  - rewrite (bool_decide_eq_true_2 (action r = ActAllow)), (bool_decide_eq_false_2 (action r = act))
      by congruence.
    cbn. by rewrite andb_false_r.
  - rewrite (bool_decide_eq_false_2 (action r = ActAllow)) by done. cbn. by case_match.
Qed.

(** Two sets of rules that differ only in their allow rules differ only where the
    larger allows. *)
Lemma evaluate_fewer_allows c1 c2 access :
  restrictive (rules c1) = restrictive (rules c2) → rules c1 ⊆ rules c2 →
  evaluate c1 access = evaluate c2 access
  ∨ (evaluate c1 access = None ∧ evaluate c2 access = Some Allow).
Proof.
  intros Hr Hsub. rewrite !evaluate_precedence. unfold precedence.
  rewrite !(find_b_any (applies_as ActAsk access)).
  rewrite <- (applies_restrictive ActDeny access (rules c1)), <- (applies_restrictive ActAsk access (rules c1)),
    Hr, !applies_restrictive by done.
  destruct (find_b _ _); [by left|]. destruct (find_b _ _); [by left|].
  destruct (any_b _ (rules c1)) eqn:E1, (any_b _ (rules c2)) eqn:E2; [by left| |by right|by left].
  apply any_b_true in E1 as (r & Hin & Hp). rewrite any_b_false in E2.
  rewrite (E2 r (Hsub r Hin)) in Hp. done.
Qed.

(** The configuration that is in force. *)
Definition resolved_config (i : ResolveInputs) : PermissionConfig :=
  match resolve_permissions i with Some r => res_config r | None => mkConfig [] PromptAsk end.

Definition without_lock (i : ResolveInputs) : ResolveInputs :=
  mkInputs None (requirements_rules i) (managed_permissions i) (managed_mode i) (managed_path i)
    (managed_config_rules i) (config_toml_rules i) (settings_json i).

(** The rules that the files list, those of the managed mode, and the user's. *)
Definition mode_rules (i : ResolveInputs) : list Sourced :=
  match managed_mode i with
  | Some mode =>
      tag_with_source (synthetic_rules_for_default_mode mode (policy_block i)).1.1
        (ManagedSettings (default (txt "managed-settings.json") (managed_path i)))
  | None => []
  end.

Definition settings_rules (i : ResolveInputs) : list Sourced :=
  match settings_json i with
  | Some (config, _, path) => tag_with_source (rules config) (Settings path)
  | None => []
  end.

Definition gathered (i : ResolveInputs) : list Sourced :=
  requirements_rules i ++ managed_permissions i ++ mode_rules i ++ managed_config_rules i
  ++ config_toml_rules i ++ settings_rules i.

Definition kept (i : ResolveInputs) : list Sourced :=
  (drop_untrusted_catchall_allows (gathered i) (policy_block i)).1.

Lemma resolve_unfold i :
  rules (resolved_config i) = value <$> kept i
  ∧ ∀ r, resolve_permissions i = Some r → res_sources r = source <$> kept i.
Proof.
  unfold resolved_config, resolve_permissions, kept, gathered, mode_rules, settings_rules.
  destruct (managed_mode i) as [mode|];
    [destruct (synthetic_rules_for_default_mode mode (policy_block i)) as [[syn sk] b]|];
    (destruct (settings_json i) as [[[config ss] path]|]; cbn [fst snd];
     destruct (drop_untrusted_catchall_allows _ _) as [rs dropped]; cbn [fst];
     (destruct (bool_decide (rs = []) && _ && _) eqn:Hb;
      [apply andb_prop in Hb as [[->%bool_decide_eq_true _]%andb_prop _]|]);
     (split; [done|]; intros r Hr; by simplify_eq/=)).
Qed.

Lemma kept_locked i reason :
  policy_block i = Some reason → kept i = filter_b (λ s, negb (is_dropped s)) (gathered i).
Proof. intros Hb. unfold kept, drop_untrusted_catchall_allows. by rewrite Hb. Qed.

Lemma restrictive_app l1 l2 : restrictive (l1 ++ l2) = restrictive l1 ++ restrictive l2.
Proof. apply List.filter_app. Qed.

Lemma restrictive_drop l :
  restrictive (value <$> filter_b (λ s, negb (is_dropped s)) l) = restrictive (value <$> l).
Proof.
  unfold restrictive. induction l as [|s l IH]; [done|]. cbn.
  unfold is_dropped at 1, is_catchall_allow.
  destruct (bool_decide_reflect (action (value s) ≠ ActAllow)) as [Ha|Ha]; cbn.
  - case_match; [f_equal|]; exact IH.
  - apply dec_stable in Ha. rewrite (bool_decide_eq_true_2 _ Ha). cbn.
    case_match; cbn; [|exact IH]. by rewrite (bool_decide_eq_true_2 _ Ha).
Qed.

(** The rules of a mode are allow rules. *)
Lemma mode_rules_allow i : restrictive (value <$> mode_rules i) = [].
Proof.
  unfold mode_rules, synthetic_rules_for_default_mode.
  destruct (managed_mode i) as [[]|], (policy_block i); done.
Qed.

Lemma mode_rules_locked i reason :
  policy_block i = Some reason →
  mode_rules i ⊆ mode_rules (without_lock i)
  ∧ ∀ s, s ∈ mode_rules i → is_catchall_allow (value s) = false.
Proof.
  intros Hb. unfold mode_rules, without_lock, synthetic_rules_for_default_mode. cbn.
  rewrite Hb. destruct (managed_mode i) as [[]|]; cbn; split; set_solver.
Qed.

Lemma settings_not_admin i s : s ∈ settings_rules i → is_admin_source (source s) = false.
Proof.
  unfold settings_rules, tag_with_source. destruct (settings_json i) as [[[config ss] path]|].
  - by intros (r & -> & _)%list_elem_of_fmap.
  - by intros ?%not_elem_of_nil.
Qed.

(** C37: when an administrator forbids the bypass mode, every blanket grant that
    stays in force was written in a file of the administrator: the mode grants
    none, and neither do the user's settings.  Sources stay aligned with rules,
    the order is kept, and the lock changes no decision but the allowances: what
    was denied or asked is denied, with the same reason, or asked still. *)
Theorem blanket_grants_locked (i : ResolveInputs) (reason : text) (r : ResolvedPermissions) :
  policy_block i = Some reason → resolve_permissions i = Some r →
  length (res_sources r) = length (rules (res_config r))
  ∧ (∀ k rule, rules (res_config r) !! k = Some rule → is_catchall_allow rule = true →
      ∃ s, s ∈ requirements_rules i ++ managed_permissions i ++ managed_config_rules i
                ++ config_toml_rules i
           ∧ value s = rule ∧ res_sources r !! k = Some (source s)
           ∧ is_admin_source (source s) = true)
  ∧ rules (res_config r) `sublist_of` (value <$> gathered i)
  ∧ (∀ access,
      evaluate (res_config r) access = evaluate (resolved_config (without_lock i)) access
      ∨ (evaluate (res_config r) access = None
         ∧ evaluate (resolved_config (without_lock i)) access = Some Allow)).
Proof.
  intros Hb Hr. destruct (resolve_unfold i) as [Hrules Hsrc]. specialize (Hsrc r Hr).
  unfold resolved_config in Hrules. rewrite Hr in Hrules.
  pose proof (kept_locked i reason Hb) as Hk. rewrite Hsrc, Hrules.
  destruct (mode_rules_locked i reason Hb) as [Hmode Hgrant]. split_and!.
  - by rewrite !length_fmap.
  - intros k rule. rewrite !list_lookup_fmap.
    destruct (kept i !! k) as [s|] eqn:Hl; [|done]. intros [= <-] Hc. exists s.
    apply list_elem_of_lookup_2 in Hl. rewrite Hk in Hl.
    apply list_elem_of_In, List.filter_In in Hl as [Hin%list_elem_of_In Hd].
    unfold is_dropped in Hd. rewrite Hc in Hd. cbn in Hd. rewrite negb_involutive in Hd.
    split_and!; try done. unfold gathered in Hin. rewrite !elem_of_app in Hin. rewrite !elem_of_app.
    destruct Hin as [?|[?|[Hm|[?|[?|Hs]]]]]; auto.
    + by rewrite (Hgrant s Hm) in Hc.
    + by rewrite (settings_not_admin i s Hs) in Hd.
  - rewrite Hk. clear. induction (gathered i) as [|s l IH]; [constructor|]. cbn.
    destruct (negb _); cbn; by constructor.
  - intros access. apply evaluate_fewer_allows; rewrite (proj1 (resolve_unfold (without_lock i))), Hrules, Hk.
    + rewrite restrictive_drop. unfold kept, gathered. cbn.
      rewrite !fmap_app, !restrictive_app. by rewrite !mode_rules_allow.
    + unfold kept, drop_untrusted_catchall_allows. cbn [policy_block without_lock fst].
      intros x (s & -> & Hs)%list_elem_of_fmap. apply list_elem_of_fmap_2.
      apply list_elem_of_In, List.filter_In in Hs as [Hs%list_elem_of_In _].
      unfold gathered in *. cbn. rewrite !elem_of_app in *. set_solver.
Qed.

End lock.

(** A locked configuration with a grant of the administrator, the bypass mode, and
    grants of the user. *)
Definition demo_inputs : ResolveInputs :=
  mkInputs (Some (txt "locked"))
    [mkSourced (mkRule ActDeny TBash (Some (txt "rm")) Glob) (Requirements (txt "r.toml"))]
    [mkSourced (mkRule ActAllow TMcp None Glob) (ManagedSettings (txt "m.json"))]
    (Some BypassPermissions) None []
    [mkSourced (mkRule ActAllow TBash (Some (txt "*")) Glob) (Config (txt "c.toml"))]
    (Some (mkConfig [allow_rule TAny; mkRule ActAllow TBash (Some (txt "ls")) Glob] PromptAsk, [],
           txt "s.json")).

Definition demo_resolved : ResolvedPermissions :=
  default (mkResolved (mkConfig [] PromptAsk) [] []) (@resolve_permissions demo_glob demo_inputs).

Lemma blanket_grants_locked_witness :
  (@is_catchall_allow demo_glob <$> rules (res_config demo_resolved)) = [false; true; false]
  ∧ (skipped_rule <$> res_skipped demo_resolved)
    = [txt "defaultMode=bypassPermissions"; txt "allow * (catch-all)"; txt "allow * (catch-all)"]
  ∧ length (res_sources demo_resolved) = length (rules (res_config demo_resolved)).
Proof.
  split_and!; [by vm_compute..|].
  refine (proj1 (@blanket_grants_locked demo_glob demo_inputs (txt "locked") demo_resolved _ _));
    by vm_compute.
Defined.

(** ** MCP servers *)

Section mcp.
Context `{PermissionEnv}.

(** The entry speaks of servers of this kind. *)
Definition entry_applies (server : McpServer) (e : AllowedMcpServer) : bool :=
  match e, server with
  | McpName _, _ => true
  | McpHttp _, (Http _ _ | Sse _ _) => true
  | McpStdio _, Stdio _ _ => true
  | _, _ => false
  end.

(** The entry allows the server, or denies it. *)
Definition entry_allows (server : McpServer) (e : AllowedMcpServer) : bool :=
  match e, server with
  | McpName n, _ => mcp_name_matches n (mcp_server_name server)
  | McpHttp p, (Http _ url | Sse _ url) => url_glob_matches p url
  | McpStdio c, Stdio _ command => bool_decide (c = command)
  | _, _ => false
  end.

Definition entry_denies (server : McpServer) (e : AllowedMcpServer) : bool :=
  match e, server with
  | McpName n, _ => mcp_name_matches n (mcp_server_name server)
  | McpHttp p, (Http _ url | Sse _ url) => url_deny_matches p url
  | McpStdio c, Stdio _ command => bool_decide (c = command)
  | _, _ => false
  end.

Lemma any_b_omap {A B} (g : A → option B) (p : B → bool) l :
  any_b p (omap g l) = any_b (λ x, match g x with Some y => p y | None => false end) l.
Proof. induction l as [|x l IH]; [done|]. unfold any_b in *. cbn in *. destruct (g x); cbn; by rewrite IH. Qed.

Lemma any_b_or {A} (p q : A → bool) l : any_b p l || any_b q l = any_b (λ x, p x || q x) l.
Proof.
  induction l as [|x l IH]; [done|]. cbn. unfold any_b in *. rewrite <- IH.
  by destruct (p x), (q x); rewrite ?orb_true_r.
Qed.

Lemma any_b_ext {A} (p q : A → bool) l : (∀ x, p x = q x) → any_b p l = any_b q l.
Proof. intros Hpq. induction l as [|x l IH]; [done|]. unfold any_b in *. cbn. by rewrite Hpq, IH. Qed.

Lemma any_b_elem (x : text) l : bool_decide (x ∈ l) = any_b (λ c, bool_decide (c = x)) l.
Proof.
  apply eq_bool_prop_intro. rewrite bool_decide_spec, Is_true_true, any_b_true.
  setoid_rewrite bool_decide_eq_true. naive_solver.
Qed.

Lemma dimension_spec pats m :
  dimension pats m = (any_b (λ _, true) pats, any_b m pats).
Proof. by destruct pats. Qed.

Lemma denied_spec p server :
  is_server_denied p server = any_b (entry_denies server) (deny_entries p).
Proof.
  unfold is_server_denied, names, url_patterns, commands.
  destruct server; rewrite ?any_b_elem, !any_b_omap, any_b_or; apply any_b_ext;
    intros []; cbn; by rewrite ?orb_false_r.
Qed.

Lemma unrestricted_spec p :
  is_restricted p = false → mcp_entries p = [] ∧ deny_entries p = [].
Proof.
  unfold is_restricted. intros [Hm Hd]%orb_false_elim.
  rewrite !negb_false_iff, !bool_decide_eq_true in *. done.
Qed.

(** A server is denied exactly if some entry of the denylist matches it, and
    it is allowed exactly if it is not denied and either some entry of the
    allowlist matches it or none speaks of servers of its kind.  So the denylist
    always wins, and an unrestricted policy allows everything. *)
Theorem mcp_policy_exact (p : McpServerAllowlist) (server : McpServer) :
  (is_server_denied p server = true
   ↔ ∃ e, e ∈ deny_entries p ∧ entry_denies server e = true)
  ∧ (is_server_allowed p server = true
     ↔ (∀ e, e ∈ deny_entries p → entry_denies server e = false)
       ∧ ((∀ e, e ∈ mcp_entries p → entry_applies server e = false)
          ∨ ∃ e, e ∈ mcp_entries p ∧ entry_allows server e = true)).
Proof.
  assert (is_server_allowed p server =
    negb (any_b (entry_denies server) (deny_entries p))
    && (negb (any_b (entry_applies server) (mcp_entries p))
        || any_b (entry_allows server) (mcp_entries p))) as ->.
  { unfold is_server_allowed. destruct (is_restricted p) eqn:Hr; cbn [negb].
    - rewrite denied_spec. destruct (any_b _ (deny_entries p)); [done|]. cbn [negb andb].
      unfold names, url_patterns, commands.
      destruct server; rewrite !dimension_spec, !any_b_omap, !any_b_or; (f_equal; [f_equal|]);
        apply any_b_ext; intros []; cbn; by rewrite ?orb_false_r.
    - apply unrestricted_spec in Hr as [-> ->]. done. }
  rewrite denied_spec, any_b_true. split; [done|].
  rewrite andb_true_iff, orb_true_iff, !negb_true_iff, !any_b_false, any_b_true. done.
Qed.

End mcp.

(** ** Ways around a deny rule *)

(** The tree of one command whose words are separated by single spaces. *)
Fixpoint word_nodes (pos : nat) (ws : list text) : list node :=
  match ws with
  | [] => []
  | w :: ws' => Node (txt "word") true pos (pos + length w) [] :: word_nodes (pos + length w + 1) ws'
  end.

Definition demo_shell : ShellParser :=
  {| try_parse_shell := λ s,
       match word_nodes 0 (split_on " "%char s) with
       | w :: ws =>
           Some (mkTree (Node (txt "program") true 0 (length s)
             [Node (txt "command") true 0 (length s)
                (Node (txt "command_name") true (start_byte w) (end_byte w) [w] :: ws)]) false)
       | [] => None
       end |}.

Definition nested_nice (n : nat) : text := concat (replicate n (txt "nice ")) ++ txt "rm x".

(** Eight wrappers are removed; behind nine, the denied command passes, and the
    whole command line is then allowed by the broader rule. *)
Example nine_wrappers_pass :
  @evaluate_bash_command_policy demo_glob demo_shell demo_rules (nested_nice 8)
    = Some (Reject (deny_reason (mkRule ActDeny TBash (Some (txt "rm")) Glob)))
  ∧ @evaluate_bash_command_policy demo_glob demo_shell demo_rules (nested_nice 9) = None
  ∧ @evaluate demo_glob demo_rules (Bash (nested_nice 9)) = Some Allow.
Proof. by vm_compute. Qed.

(** A lone dash of [env], or its split-string option, hides a denied command. *)
Example env_dash_hides :
  @evaluate_bash_command_policy demo_glob demo_shell demo_rules (txt "env rm x")
    = Some (Reject (deny_reason (mkRule ActDeny TBash (Some (txt "rm")) Glob)))
  ∧ @evaluate_bash_command_policy demo_glob demo_shell demo_rules (txt "env - rm x") = None
  ∧ @evaluate_bash_command_policy demo_glob demo_shell demo_rules (txt "env -S rm x") = None.
Proof. by vm_compute. Qed.

(** The host of an IPv6 address is cut at its first colon, which leaves a bracket,
    and a lone bracket is no valid glob: a deny entry for such a server matches no
    address, its own included. *)
Lemma ipv6_never_denied `{PermissionEnv} (n url : text) :
  glob_valid (txt "[") = false →
  is_server_denied (mkAllowlist [] [McpHttp (txt "http://[::1]:8080/")]) (Http n url) = false.
Proof.
  intros Hv. rewrite denied_spec. cbn [deny_entries any_b existsb entry_denies]. unfold url_deny_matches.
  assert (split_host_path (txt "http://[::1]:8080/") = (Some (txt "["), txt "/")) as -> by by vm_compute.
  destruct (split_host_path (strip_url_query url)) as [[h|] p]; [|done].
  unfold glob_match_lax. by rewrite Hv.
Qed.
