(* ===== verification/PermissionText.v ===== *)
(** * Permission rules as text

    The rule strings of [rules.rs] have a printer: every rule for a named tool whose
    content is printable is read back from its text. *)

From S2P Require Import Prelude Text TextProps ShellCommands Permission.

Open Scope nat_scope.

(** ** Escaping *)

(** A backslash before every character of the set. *)
Definition escape_char (set : list ascii) (c : ascii) : text :=
  if decide (c ∈ set) then [BACKSLASH; c] else [c].
Definition escape_with (set : list ascii) (s : text) : text := s ≫= escape_char set.

Definition PAREN_OPEN : ascii := "("%char.
Definition PAREN_CLOSE : ascii := ")"%char.
Definition escape (s : text) : text := escape_with [PAREN_OPEN; PAREN_CLOSE; BACKSLASH] s.

Lemma escape_with_cons set c s : escape_with set (c :: s) = escape_char set c ++ escape_with set s.
Proof. done. Qed.

Lemma escape_with_snoc set s c : escape_with set (s ++ [c]) = escape_with set s ++ escape_char set c.
Proof. unfold escape_with. rewrite bind_app. cbn. by rewrite app_nil_r. Qed.

(** The first character of an escaped text is not in the set, or is a backslash. *)
Lemma escape_with_head set s a r :
  escape_with set s = a :: r → a ∉ set ∨ a = BACKSLASH.
Proof.
  destruct s as [|c s]; [done|]. rewrite escape_with_cons. unfold escape_char.
  destruct (decide (c ∈ set)); cbn; intros [= <- _]; [by right|by left].
Qed.

Lemma replace_pair_other a b r x s : x ≠ a → replace_pair a b r (x :: s) = x :: replace_pair a b r s.
Proof.
  intros Hx. cbn. destruct s as [|y s]; [done|]. rewrite decide_False; [done|]. naive_solver.
Qed.

Lemma replace_pair_apart a b r s :
  (∀ y s', s = y :: s' → y ≠ b) → replace_pair a b r (a :: s) = a :: replace_pair a b r s.
Proof.
  intros Hs. cbn. destruct s as [|y s]; [done|]. rewrite decide_False; [done|].
  intros [_ Hy]. by apply (Hs y s).
Qed.

Lemma replace_pair_hit a b r s : replace_pair a b r (a :: b :: s) = r ++ replace_pair a b r s.
Proof. cbn. by rewrite decide_True. Qed.

(** Undoing the escape of one character leaves the escapes of the others. *)
Lemma unescape_one c set s :
  c ≠ BACKSLASH → c ∉ set → BACKSLASH ∈ set →
  replace_pair BACKSLASH c [c] (escape_with (c :: set) s) = escape_with set s.
Proof.
  intros Hc Hset Hb. induction s as [|x s IH]; [done|]. rewrite !escape_with_cons.
  assert (∀ y s', escape_with (c :: set) s = y :: s' → y ≠ c) as Hhead.
  { intros y s' Hy%escape_with_head. set_solver. }
  unfold escape_char. destruct (decide (x = c)) as [->|Hxc].
  - rewrite decide_True, decide_False by set_solver. cbn [app].
    by rewrite replace_pair_hit, IH.
  - destruct (decide (x ∈ set)) as [Hx|Hx].
    + rewrite decide_True by set_solver. cbn [app].
      rewrite replace_pair_apart by (intros ? ? [= -> _]; done). f_equal.
      destruct (decide (x = BACKSLASH)) as [->|Hxb].
      * by rewrite replace_pair_apart, IH.
      * by rewrite replace_pair_other, IH.
    + rewrite decide_False by set_solver. cbn [app].
      rewrite replace_pair_other, IH; [done|]. by intros ->.
Qed.

Lemma unescape_backslash s :
  replace_pair BACKSLASH BACKSLASH [BACKSLASH] (escape_with [BACKSLASH] s) = s.
Proof.
  induction s as [|x s IH]; [done|]. rewrite escape_with_cons. unfold escape_char.
  destruct (decide (x ∈ [BACKSLASH])) as [->%list_elem_of_singleton|Hx]; cbn [app].
  - by rewrite replace_pair_hit, IH.
  - rewrite replace_pair_other, IH; [done|]. set_solver.
Qed.

Lemma escape_plain s : any_b (λ c, bool_decide (c = BACKSLASH)) (escape s) = false → escape s = s.
Proof.
  rewrite any_b_false. intros Hn. unfold escape in *. induction s as [|x s IH]; [done|].
  rewrite escape_with_cons in *. unfold escape_char in *.
  destruct (decide (x ∈ _)).
  - specialize (Hn BACKSLASH). rewrite bool_decide_eq_true_2 in Hn by done. set_solver.
  - cbn [app] in *. f_equal. apply IH. intros y Hy. apply Hn. by right.
Qed.

Lemma unescape_escape s : unescape_rule_content (escape s) = s.
Proof.
  unfold unescape_rule_content. destruct (any_b _ (escape s)) eqn:Ha; cbn [negb].
  - unfold escape. rewrite (unescape_one PAREN_OPEN), (unescape_one PAREN_CLOSE), unescape_backslash;
      [done|set_solver..].
  - by apply escape_plain.
Qed.

(** The backslashes at the end of an escaped text are paired. *)
Lemma escape_even s : Nat.even (leading_backslashes (reverse (escape s))) = true.
Proof.
  unfold escape. induction s as [|c s IH] using rev_ind; [done|].
  rewrite escape_with_snoc, reverse_app. unfold escape_char.
  destruct (decide (c = BACKSLASH)) as [->|Hc].
  - rewrite decide_True by set_solver. cbn. by rewrite !decide_True.
  - by case_decide; cbn; rewrite decide_False.
Qed.

Definition special (c : text) : bool :=
  match c with a :: _ => bool_decide (a ∈ [PAREN_OPEN; PAREN_CLOSE; BACKSLASH]) | [] => false end.
Definition escape_chars (cs : list text) : list text :=
  cs ≫= λ c, if special c then [[BACKSLASH]; c] else [c].

Lemma special_not_cont c : special c = true → continues c = false.
Proof.
  destruct c as [|a c]; [done|]. cbn. rewrite bool_decide_eq_true.
  rewrite !elem_of_cons, elem_of_nil. by intros [->|[->|[->|?]]].
Qed.

Lemma escape_head s : escape s = [] ∧ s = [] ∨ continues (escape s) = continues s.
Proof.
  destruct s as [|c s]; [by left|right]. unfold escape. rewrite escape_with_cons. unfold escape_char.
  case_decide as Hc; [|done]. symmetry. apply (special_not_cont (c :: s)). cbn.
  by apply bool_decide_eq_true.
Qed.

Lemma chars_escape s : chars (escape s) = escape_chars (chars s).
Proof.
  induction s as [|a s IH]; [done|].
  assert (continues (escape s) = continues s) as Hcont.
  { destruct (escape_head s) as [[-> ->]|?]; done. }
  assert (chars (a :: escape s) =
    match chars s with
    | c :: cs => if continues s then (a :: c) :: escape_chars cs else [a] :: escape_chars (c :: cs)
    | [] => [[a]]
    end) as Hplain.
  { rewrite chars_cons, IH, Hcont. pose proof (chars_head s) as Hh.
    destruct (chars s) as [|c cs]; [done|]. cbn. destruct (special c) eqn:Hsp; cbn.
    - by rewrite <- Hh, (special_not_cont c Hsp).
    - done. }
  rewrite chars_cons. unfold escape. rewrite escape_with_cons. unfold escape_char.
  fold (escape s). case_decide as Ha; cbn [app].
  - rewrite chars_cons_new, Hplain.
    + destruct (chars s) as [|c cs]; cbn; [|destruct (continues s); cbn];
        by rewrite bool_decide_eq_true_2.
    + apply (special_not_cont (a :: escape s)). by apply bool_decide_eq_true.
  - rewrite Hplain. destruct (chars s) as [|c cs]; cbn; [|destruct (continues s); cbn];
      by rewrite bool_decide_eq_false_2.
Qed.

Lemma escape_solid s : begins_solid s → ends_solid s → begins_solid (escape s) ∧ ends_solid (escape s).
Proof.
  unfold begins_solid, ends_solid. rewrite chars_escape. intros Hb He. split; intros c Hc.
  - destruct (chars s) as [|x cs]; [done|]. cbn in Hc. destruct (special x); cbn in Hc.
    + by simplify_eq.
    + simplify_eq. by apply Hb.
  - destruct (chars s) as [|x cs _] using rev_ind; [done|].
    unfold escape_chars in Hc. rewrite bind_app, last_app in Hc. apply He.
    rewrite last_snoc. cbn in Hc. by destruct (special x).
Qed.

Lemma trim_escape s : trim s = s → trim (escape s) = escape s.
Proof. intros [Hb He]%trim_id_solid. apply trim_solid; by apply escape_solid. Qed.

(** ** The positions of the parentheses *)

Lemma leading_none s : BACKSLASH ∉ s → leading_backslashes (reverse s) = 0.
Proof.
  intros Hs. destruct (reverse s) as [|c r] eqn:Hr; [done|]. cbn. rewrite decide_False; [done|].
  intros ->. apply Hs. rewrite <- (reverse_involutive s), Hr. set_solver.
Qed.

Lemma find_first_open name rest :
  PAREN_OPEN ∉ name → BACKSLASH ∉ name →
  find_first_unescaped (name ++ PAREN_OPEN :: rest) PAREN_OPEN = Some (length name).
Proof.
  intros Hp Hb. unfold find_first_unescaped, unescaped_at, is_unescaped.
  apply find_b_seq; [rewrite length_app; cbn; lia| |].
  - rewrite list_lookup_middle, take_app_length, leading_none by done. by rewrite bool_decide_eq_true_2.
  - intros i Hi. rewrite bool_decide_eq_false_2; [done|]. rewrite lookup_app_l by lia.
    intros Hl%list_elem_of_lookup_2. done.
Qed.

Lemma find_last_close s :
  find_last_unescaped (escape s ++ [PAREN_CLOSE]) PAREN_CLOSE = Some (length (escape s)).
Proof.
  unfold find_last_unescaped. rewrite length_app. cbn [length]. rewrite Nat.add_1_r, seq_S, reverse_snoc.
  cbn [find_b]. unfold unescaped_at, is_unescaped.
  by rewrite Nat.add_0_l, list_lookup_middle, take_app_length, escape_even, bool_decide_eq_true_2.
Qed.

(** ** Printing a rule *)

Definition tool_name (t : ToolFilter) : text :=
  match t with
  | TAny => [] | TBash => txt "Bash" | TEdit => txt "Edit" | TRead => txt "Read" | TGrep => txt "Grep"
  | TMcp => txt "MCPTool" | TWebFetch => txt "WebFetch" | TWebSearch => txt "WebSearch"
  end.

(** The text between the parentheses, before escaping. *)
Definition content (r : PermissionRule) (p : text) : text :=
  match pattern_mode r with Domain => txt "domain:" ++ p | Glob => p end.

Definition print_rule (r : PermissionRule) : text :=
  match pattern r with
  | None => tool_name (tool r)
  | Some p => tool_name (tool r) ++ PAREN_OPEN :: escape (content r p) ++ [PAREN_CLOSE]
  end.

(** The rules that a text can express: a named tool, and a pattern that neither
    trimming, the lone star, the [domain:] prefix nor the [:*] suffix of shell
    commands rewrites. *)
Definition printable (r : PermissionRule) : bool :=
  negb (bool_decide (tool r = TAny))
  && match pattern r with
     | None => bool_decide (pattern_mode r = Glob)
     | Some p =>
         let q := content r p in
         bool_decide (p ≠ []) && bool_decide (trim q = q) && bool_decide (q ≠ txt "*")
         && negb (bool_decide (tool r = TBash) && ends_with_text (txt ":*") q)
         && negb (bool_decide (pattern_mode r = Glob) && starts_with (txt "domain:") p)
     end.

Lemma strip_bash_plain q : ends_with_text (txt ":*") q = false → strip_bash_colon_wildcard q = q.
Proof.
  intros Hq. unfold strip_bash_colon_wildcard. destruct (strip_last "*"%char q) as [a|] eqn:Ha; [|done].
  cbn. destruct (strip_last ":"%char a) as [b|] eqn:Hb; [|done].
  apply strip_last_Some in Ha, Hb. subst. exfalso. revert Hq. apply not_false_iff_true.
  apply starts_with_app. exists (reverse b). by rewrite !reverse_snoc.
Qed.

Lemma tool_name_back t : t ≠ TAny → tool_name_to_filter (tool_name t) = Some t.
Proof. by destruct t. Qed.

Lemma tool_name_clean t :
  PAREN_OPEN ∉ tool_name t ∧ BACKSLASH ∉ tool_name t ∧ trim (tool_name t) = tool_name t.
Proof. destruct t; (split_and!; [apply (bool_decide_unpack _); by vm_compute..|by vm_compute]). Qed.

Lemma printed_solid t s :
  t ≠ TAny → trim (tool_name t ++ PAREN_OPEN :: s ++ [PAREN_CLOSE])
             = tool_name t ++ PAREN_OPEN :: s ++ [PAREN_CLOSE].
Proof.
  intros Ht. apply trim_solid.
  - intros c. by destruct t; cbn [tool_name]; try done; cbn [txt String.list_ascii_of_string app];
      rewrite chars_cons_new by done; intros [= <-].
  - intros c. rewrite (app_comm_cons s [PAREN_CLOSE]), app_assoc.
    rewrite chars_snoc, last_snoc by done. by intros [= <-].
Qed.

(** The content is read back: the pattern and its mode. *)
Lemma content_back r p q :
  q = content r p → p ≠ [] → (pattern_mode r = Glob → starts_with (txt "domain:") p = false) →
  strip_domain_prefix q = (p, pattern_mode r).
Proof.
  intros -> Hp Hd. unfold strip_domain_prefix, content. destruct (pattern_mode r).
  - by rewrite text_strip_prefix_None by auto.
  - by rewrite text_strip_prefix_app.
Qed.

(** Every printable rule is read back from its text: the tool, the pattern
    with its parentheses and backslashes escaped, and the mode of the pattern. *)
Theorem rule_roundtrip (r : PermissionRule) :
  printable r = true → parse_permission_rule (print_rule r) (action r) = inr r.
Proof.
  unfold printable. intros [Ht%negb_true_iff Hp]%andb_prop. apply bool_decide_eq_false in Ht.
  destruct (tool_name_clean (tool r)) as (Hopen & Hback & Htrim).
  destruct r as [act t pat mode]; cbn [tool action pattern pattern_mode] in *.
  unfold print_rule, parse_permission_rule; cbn [tool pattern].
  destruct pat as [p|].
  - set (r := mkRule act t (Some p) mode) in *. set (q := content r p) in *.
    apply andb_prop in Hp as [[[[Hne Hq]%andb_prop Hstar]%andb_prop Hbash]%andb_prop Hdom].
    rewrite !bool_decide_eq_true in *. apply negb_true_iff in Hbash, Hdom.
    rewrite printed_solid, find_first_open, take_app_length, Htrim by done.
    rewrite (drop_app_add _ _ 1) by done. cbn [drop]. rewrite drop_0, find_last_close, take_app_length.
    rewrite trim_escape, tool_name_back by done.
    assert (¬ (escape q = [] ∨ escape q = txt "*")) as Hn.
    { intros [Hx|Hx]; apply (f_equal unescape_rule_content) in Hx; rewrite unescape_escape in Hx.
      - unfold q, content in Hx. by destruct mode.
      - by apply Hstar. }
    rewrite (decide_False _ _ Hn), unescape_escape.
    assert ((if decide (t = TBash) then strip_bash_colon_wildcard q else q) = q) as ->.
    { destruct (decide (t = TBash)) as [->|_]; [|reflexivity]. apply strip_bash_plain. by rewrite bool_decide_eq_true_2 in Hbash. }
    rewrite (content_back r p q); [|done|done|].
    + cbn. by destruct p.
    + cbn. intros ->. by rewrite bool_decide_eq_true_2 in Hdom.
  - apply bool_decide_eq_true in Hp as ->. rewrite Htrim.
    assert (find_first_unescaped (tool_name t) PAREN_OPEN = None) as Hf by (by destruct t).
    unfold PAREN_OPEN in Hf. by rewrite Hf, tool_name_back.
Qed.

Definition demo_rule : PermissionRule :=
  mkRule ActDeny TBash (Some (txt "echo \(a) (b\")) Glob.

Lemma rule_roundtrip_witness :
  print_rule demo_rule = txt "Bash(echo \\\(a\) \(b\\)"
  ∧ parse_permission_rule (print_rule demo_rule) ActDeny = inr demo_rule.
Proof. split; [by vm_compute|]. apply (rule_roundtrip demo_rule). by vm_compute. Defined.

(** Some contents are rewritten: a shell pattern loses a final colon and star, a
    lone star is no pattern, and a name that is no tool is refused. *)
Example unprintable_rules :
  parse_permission_rule (txt "Bash(git:*)") ActAllow = inr (mkRule ActAllow TBash (Some (txt "git")) Glob)
  ∧ parse_permission_rule (txt "Bash( * )") ActAllow = inr (mkRule ActAllow TBash None Glob)
  ∧ parse_permission_rule (txt "Agent(x)") ActAllow = inl (UnknownToolPrefix (txt "Agent"))
  ∧ parse_permission_rule (txt "Bash(x") ActAllow
    = inl (MalformedRule (txt "missing closing parenthesis")).
Proof. by vm_compute. Qed.
