(* ===== verification/ToolFs.v ===== *)
(** * The file system of the tools

    [ds-tools/src/computer]: the trait [AsyncFileSystem] with the errors of its
    operations ([types.rs]), as the local file system implements it
    ([local/file_system.rs]), and the notification of a write
    ([notification/types.rs]).  What the operating system answers is a parameter; a write
    that fails may leave the file as it was, empty, or with a part of the contents. *)

From S2P Require Import Prelude Text.

Open Scope nat_scope.

(** [std::io::ErrorKind], the kinds the tools tell apart. *)
Inductive ErrorKind :=
| NotFound | PermissionDenied | AlreadyExists | IsADirectory | InvalidFilename | OtherKind.

Inductive ComputerError :=
| IOError (m : text) (kind : option ErrorKind)
| CommandNotQuoted.

Definition io_error_kind (e : ComputerError) : option ErrorKind :=
  match e with IOError _ kind => kind | CommandNotQuoted => None end.

(** [Display]. *)
Definition error_text (e : ComputerError) : text :=
  match e with IOError m _ => txt "IO Error: " ++ m | CommandNotQuoted => txt "UnQuoted command" end.

(** The operations on files; the files are known by the text of their path. *)
Inductive FsOp :=
| ReadOp (p : text) | WriteOp (p : text) | DeleteOp (p : text) | MkdirOp (p : text) | StatOp (p : text).

(** The failures of the operating system: the message and the kind with which the
    n-th operation fails, if it does; how much of the content a write that fails has put
    into the file, if it has opened the file, which empties it; and the message for a
    missing file. *)
Class FsErrors := {
  fs_error : nat → FsOp → option (text * ErrorKind);
  fs_partial : nat → text → option nat;
  not_found : text;
}.

(** Without the identifier of the call, which all notifications of a run share. *)
Record FileWritten := mkWritten {
  absolute_path : text;
  content : text;
  previous_content : option text;
  is_new_file : bool;
}.

(** The files, the number of operations made, and the notifications sent. *)
Record World := mkWorld {
  files : gmap text text;
  ops : nat;
  notified : list FileWritten;
}.

Definition count_op (w : World) : World := mkWorld (files w) (S (ops w)) (notified w).
Definition set_files (fs : gmap text text) (w : World) : World := mkWorld fs (ops w) (notified w).

(** [send_file_written]. *)
Definition notify (n : FileWritten) (w : World) : World :=
  mkWorld (files w) (ops w) (notified w ++ [n]).

Section file_system.
Context `{FsErrors}.

Definition from_io (e : text * ErrorKind) : ComputerError := IOError e.1 (Some e.2).

Definition read_file (p : text) (w : World) : (ComputerError + text) * World :=
  (match fs_error (ops w) (ReadOp p) with
   | Some e => inl (from_io e)
   | None =>
       match files w !! p with
       | Some bytes => inr bytes
       | None => inl (from_io (not_found, NotFound))
       end
   end, count_op w).

(** What a write that fails leaves. *)
Definition torn_write (p data : text) (w : World) : World :=
  match fs_partial (ops w) p with
  | Some n => set_files (<[p := take n data]> (files w)) w
  | None => w
  end.

(** [create_dir_all] and [fs::write], which creates or empties the file and then writes. *)
Definition write_file (p data : text) (w : World) : option ComputerError * World :=
  match fs_error (ops w) (WriteOp p) with
  | Some e => (Some (from_io e), count_op (torn_write p data w))
  | None => (None, count_op (set_files (<[p := data]> (files w)) w))
  end.

(** The file [p] holds the first bytes of what a write that failed was to put in it. *)
Definition torn (p data : text) (w w' : World) : Prop :=
  ∃ i e n, fs_error i (WriteOp p) = Some e ∧ fs_partial i p = Some n
    ∧ files w' = <[p := take n data]> (files w).

Lemma torn_write_result p data w w0 e :
  files w = files w0 → fs_error (ops w) (WriteOp p) = Some e →
  notified (torn_write p data w) = notified w
  ∧ (files (torn_write p data w) = files w0 ∨ torn p data w0 (torn_write p data w)).
Proof.
  intros Hf He. unfold torn_write. destruct (fs_partial (ops w) p) as [n|] eqn:Hp; [|by auto].
  split; [done|right]. exists (ops w), e, n. split_and!; [done..|]. cbn. by rewrite Hf.
Qed.

Definition delete_file (p : text) (w : World) : option ComputerError * World :=
  match fs_error (ops w) (DeleteOp p), files w !! p with
  | Some e, _ => (Some (from_io e), count_op w)
  | None, None => (Some (from_io (not_found, NotFound)), count_op w)
  | None, Some _ => (None, count_op (set_files (delete p (files w)) w))
  end.

End file_system.
