(* ===== verification/ApplyPatch.v ===== *)
(** * The apply-patch tool

    [ds-tools/src/implementations/codex/apply_patch]: the parser of the patch format
    ([parser.rs]), the search for the lines of a chunk ([seek_sequence.rs]), the new
    contents of a file ([apply.rs]), and the tool, which computes all changes before
    it writes any ([tool.rs]).  A panic is [None]. *)

From S2P Require Import Prelude Text ToolFs.

Open Scope nat_scope.

(** ** seek_sequence.rs *)

Definition DASHES : list N := [8208; 8209; 8210; 8211; 8212; 8213; 8722]%N.
Definition SINGLE_QUOTES : list N := [8216; 8217; 8218; 8219]%N.
Definition DOUBLE_QUOTES : list N := [8220; 8221; 8222; 8223]%N.
Definition ODD_SPACES : list N :=
  [160; 8194; 8195; 8196; 8197; 8198; 8199; 8200; 8201; 8202; 8239; 8287; 12288]%N.

Definition normalise_char (c : text) : text :=
  let n := code_point c in
  if decide (n ∈ DASHES) then txt "-"
  else if decide (n ∈ SINGLE_QUOTES) then txt "'"
  else if decide (n ∈ DOUBLE_QUOTES) then [ascii_of_nat 34]
  else if decide (n ∈ ODD_SPACES) then txt " "
  else c.

Definition normalise (s : text) : text := concat (normalise_char <$> chars (trim s)).

(** The lines from [i] on agree with the pattern, up to [f]. *)
Definition matches_at (f : text → text) (lines pattern : list text) (i : nat) : bool :=
  bool_decide (f <$> take (length pattern) (drop i lines) = f <$> pattern).

(** One pass over [search_start..=lines.len() - pattern.len()]. *)
Definition pass (f : text → text) (lines pattern : list text) (search_start : nat) : option nat :=
  find_b (matches_at f lines pattern)
    (seq search_start (S (length lines - length pattern) - search_start)).

(** The passes, in order. *)
Definition PASSES : list (text → text) := [id; trim_end; trim; normalise].

Fixpoint first_pass (fs : list (text → text)) (lines pattern : list text) (search_start : nat)
    : option nat :=
  match fs with
  | [] => None
  | f :: fs =>
      match pass f lines pattern search_start with
      | Some i => Some i
      | None => first_pass fs lines pattern search_start
      end
  end.

Definition seek_sequence (lines pattern : list text) (start : nat) (eof : bool) : option nat :=
  match pattern with
  | [] => Some start
  | _ =>
      if length lines <? length pattern then None
      else
        let search_start := if eof then length lines - length pattern else start in
        first_pass PASSES lines pattern search_start
  end.

(** ** parser.rs *)

Definition BEGIN_PATCH_MARKER : text := txt "*** Begin Patch".
Definition END_PATCH_MARKER : text := txt "*** End Patch".
Definition ADD_FILE_MARKER : text := txt "*** Add File: ".
Definition DELETE_FILE_MARKER : text := txt "*** Delete File: ".
Definition UPDATE_FILE_MARKER : text := txt "*** Update File: ".
Definition MOVE_TO_MARKER : text := txt "*** Move to: ".
Definition EOF_MARKER : text := txt "*** End of File".
Definition CHANGE_CONTEXT_MARKER : text := txt "@@ ".
Definition EMPTY_CHANGE_CONTEXT_MARKER : text := txt "@@".

Record UpdateFileChunk := mkChunk {
  change_context : option text;
  old_lines : list text;
  new_lines : list text;
  is_end_of_file : bool;
}.

Inductive PatchHunk :=
| AddFile (path contents : text)
| DeleteFile (path : text)
| UpdateFile (path : text) (move_path : option text) (chunks : list UpdateFileChunk).

Record ParsedPatch := mkParsed {
  hunks : list PatchHunk;
  patch : text;
}.

Inductive ParseError :=
| InvalidPatchError (m : text)
| InvalidHunkError (message : text) (line_number : nat).

Definition check_start_and_end_lines_strict (first_line last_line : option text) : option ParseError :=
  match trim <$> first_line, trim <$> last_line with
  | Some first, last =>
      if decide (first = BEGIN_PATCH_MARKER) then
        if decide (last = Some END_PATCH_MARKER) then None
        else Some (InvalidPatchError (txt "The last line of the patch must be '*** End Patch'"))
      else Some (InvalidPatchError (txt "The first line of the patch must be '*** Begin Patch'"))
  | None, _ => Some (InvalidPatchError (txt "The last line of the patch must be '*** End Patch'"))
  end.

Definition check_patch_boundaries_strict (lines : list text) : option ParseError :=
  check_start_and_end_lines_strict (head lines) (last lines).

Definition HEREDOC_OPENERS : list text :=
  [txt "<<EOF"; txt "<<'EOF'"; txt "<<" ++ [ascii_of_nat 34] ++ txt "EOF" ++ [ascii_of_nat 34]].

Definition check_patch_boundaries_lenient (original_lines : list text) (e : ParseError)
    : ParseError + list text :=
  match original_lines with
  | first :: (_ :: _) as rest =>
      if decide (first ∈ HEREDOC_OPENERS)
      then
        if ends_with_text (txt "EOF") (default [] (last original_lines))
           && (4 <=? length original_lines)
        then
          let inner_lines := take (length original_lines - 2) (drop 1 original_lines) in
          match check_patch_boundaries_strict inner_lines with
          | None => inr inner_lines
          | Some e => inl e
          end
        else inl e
      else inl e
  | _ => inl e
  end.

Definition NO_LINES : text := txt "Update hunk does not contain any lines".

Definition in_quotes (s : text) : text := txt "'" ++ s ++ txt "'".

(** The loop over the lines of a chunk. *)
Fixpoint chunk_lines (line_number : nat) (lines : list text) (chunk : UpdateFileChunk)
    (parsed_lines : nat) : ParseError + (UpdateFileChunk * nat) :=
  match lines with
  | [] => inr (chunk, parsed_lines)
  | line :: rest =>
      if decide (line = EOF_MARKER) then
        if parsed_lines =? 0 then inl (InvalidHunkError NO_LINES (line_number + 1))
        else
          inr (mkChunk (change_context chunk) (old_lines chunk) (new_lines chunk) true, S parsed_lines)
      else
        let add o n :=
          chunk_lines line_number rest
            (mkChunk (change_context chunk) (old_lines chunk ++ o) (new_lines chunk ++ n)
               (is_end_of_file chunk)) (S parsed_lines) in
        match line with
        | [] => add [[]] [[]]
        | c :: s =>
            if decide (c = " "%char) then add [s] [s]
            else if decide (c = "+"%char) then add [] [s]
            else if decide (c = "-"%char) then add [s] []
            else if parsed_lines =? 0 then
              inl (InvalidHunkError
                (txt "Unexpected line found in update hunk: " ++ in_quotes line
                 ++ txt ". Every line should start with ' ' (context line), '+' (added line), or '-' (removed line)")
                (line_number + 1))
            else inr (chunk, parsed_lines)
        end
  end.

Definition parse_update_file_chunk (lines : list text) (line_number : nat)
    (allow_missing_context : bool) : ParseError + (UpdateFileChunk * nat) :=
  match lines with
  | [] => inl (InvalidHunkError NO_LINES line_number)
  | first :: _ =>
      let start :=
        if decide (first = EMPTY_CHANGE_CONTEXT_MARKER) then inr (None, 1)
        else
          match text_strip_prefix CHANGE_CONTEXT_MARKER first with
          | Some context => inr (Some context, 1)
          | None =>
              if allow_missing_context then inr (None, 0)
              else
                inl (InvalidHunkError
                  (txt "Expected update hunk to start with a @@ context marker, got: " ++ in_quotes first)
                  line_number)
          end in
      match start with
      | inl e => inl e
      | inr (change_context, start_index) =>
          if length lines <=? start_index then inl (InvalidHunkError NO_LINES (line_number + 1))
          else
            match
              chunk_lines line_number (drop start_index lines) (mkChunk change_context [] [] false) 0
            with
            | inl e => inl e
            | inr (chunk, parsed_lines) => inr (chunk, parsed_lines + start_index)
            end
      end
  end.

(** The added lines of a new file, and their number. *)
Fixpoint added_lines (lines : list text) : text * nat :=
  match lines with
  | line :: rest =>
      match text_strip_prefix (txt "+") line with
      | Some line_to_add =>
          let '(contents, n) := added_lines rest in (line_to_add ++ [LF] ++ contents, S n)
      | None => ([], 0)
      end
  | [] => ([], 0)
  end.

(** The chunks of an update, and the number of lines parsed; every round takes a
    line, so the number of lines is fuel enough. *)
Fixpoint parse_chunks (fuel : nat) (line_number : nat) (remaining_lines : list text)
    (chunks : list UpdateFileChunk) (parsed_lines : nat)
    : option (ParseError + (list UpdateFileChunk * nat)) :=
  match remaining_lines with
  | [] => Some (inr (chunks, parsed_lines))
  | line :: rest =>
      match fuel with
      | 0 => None
      | S fuel =>
          if decide (trim line = []) then parse_chunks fuel line_number rest chunks (S parsed_lines)
          else if starts_with (txt "***") line then Some (inr (chunks, parsed_lines))
          else
            match
              parse_update_file_chunk remaining_lines (line_number + parsed_lines)
                (bool_decide (chunks = []))
            with
            | inl e => Some (inl e)
            | inr (chunk, n) =>
                parse_chunks fuel line_number (drop n remaining_lines) (chunks ++ [chunk])
                  (parsed_lines + n)
            end
      end
  end.

Definition parse_one_hunk (lines : list text) (line_number : nat)
    : option (ParseError + (PatchHunk * nat)) :=
  match lines with
  | [] => None
  | line :: rest =>
      let first_line := trim line in
      match text_strip_prefix ADD_FILE_MARKER first_line with
      | Some path => let '(contents, n) := added_lines rest in Some (inr (AddFile path contents, S n))
      | None =>
          match text_strip_prefix DELETE_FILE_MARKER first_line with
          | Some path => Some (inr (DeleteFile path, 1))
          | None =>
              match text_strip_prefix UPDATE_FILE_MARKER first_line with
              | Some path =>
                  let move_path := head rest ≫= text_strip_prefix MOVE_TO_MARKER in
                  let '(remaining_lines, parsed_lines) :=
                    match move_path with Some _ => (drop 1 rest, 2) | None => (rest, 1) end in
                  match
                    parse_chunks (length remaining_lines) line_number remaining_lines [] parsed_lines
                  with
                  | None => None
                  | Some (inl e) => Some (inl e)
                  | Some (inr ([], _)) =>
                      Some (inl (InvalidHunkError
                        (txt "Update file hunk for path " ++ in_quotes path ++ txt " is empty")
                        line_number))
                  | Some (inr (chunks, n)) => Some (inr (UpdateFile path move_path chunks, n))
                  end
              | None =>
                  Some (inl (InvalidHunkError
                    (in_quotes first_line
                     ++ txt " is not a valid hunk header. Valid hunk headers: '*** Add File: {path}', '*** Delete File: {path}', '*** Update File: {path}'")
                    line_number))
              end
          end
      end
  end.

Fixpoint parse_hunks (fuel : nat) (remaining_lines : list text) (line_number : nat)
    (hunks : list PatchHunk) : option (ParseError + list PatchHunk) :=
  match remaining_lines with
  | [] => Some (inr hunks)
  | _ =>
      match fuel with
      | 0 => None
      | S fuel =>
          match parse_one_hunk remaining_lines line_number with
          | None => None
          | Some (inl e) => Some (inl e)
          | Some (inr (hunk, n)) =>
              parse_hunks fuel (drop n remaining_lines) (line_number + n) (hunks ++ [hunk])
          end
      end
  end.

(** [parse_patch], which always parses in the lenient mode. *)
Definition parse_patch (p : text) : option (ParseError + ParsedPatch) :=
  let all_lines := lines (trim p) in
  match
    match check_patch_boundaries_strict all_lines with
    | None => inr all_lines
    | Some e => check_patch_boundaries_lenient all_lines e
    end
  with
  | inl e => Some (inl e)
  | inr ls =>
      let inner := take (length ls - 2) (drop 1 ls) in
      match parse_hunks (length inner) inner 2 [] with
      | None => None
      | Some (inl e) => Some (inl e)
      | Some (inr hs) => Some (inr (mkParsed hs (join_with [LF] ls)))
      end
  end.

(** ** apply.rs *)

Inductive ApplyPatchError :=
| Parse (e : ParseError)
| ComputeReplacements (m : text)
| Io (context message : text) (path : option text).

Record replacement := mkRep {
  start_idx : nat;
  old_len : nat;
  new_segment : list text;
}.

Definition ends_empty (l : list text) : bool := bool_decide (last l = Some []).

(** What one chunk replaces, from [line_index] on, and the next [line_index]. *)
Definition place_chunk (original_lines : list text) (path : text) (line_index : nat)
    (chunk : UpdateFileChunk) : ApplyPatchError + (replacement * nat) :=
  match
    match change_context chunk with
    | None => inr line_index
    | Some ctx_line =>
        match seek_sequence original_lines [ctx_line] line_index false with
        | Some idx => inr (idx + 1)
        | None =>
            inl (ComputeReplacements
              (txt "Failed to find context " ++ in_quotes ctx_line ++ txt " in " ++ path))
        end
    end
  with
  | inl e => inl e
  | inr line_index =>
      match old_lines chunk with
      | [] =>
          let insertion_idx :=
            if ends_empty original_lines then length original_lines - 1 else length original_lines in
          inr (mkRep insertion_idx 0 (new_lines chunk), line_index)
      | _ =>
          let found := seek_sequence original_lines (old_lines chunk) line_index (is_end_of_file chunk) in
          let '(pattern, new_slice, found) :=
            if bool_decide (found = None) && ends_empty (old_lines chunk) then
              let pattern := take (length (old_lines chunk) - 1) (old_lines chunk) in
              let new_slice :=
                if ends_empty (new_lines chunk) then take (length (new_lines chunk) - 1) (new_lines chunk)
                else new_lines chunk in
              (pattern, new_slice, seek_sequence original_lines pattern line_index (is_end_of_file chunk))
            else (old_lines chunk, new_lines chunk, found) in
          match found with
          | Some start =>
              inr (mkRep start (length pattern) new_slice, start + length pattern)
          | None =>
              inl (ComputeReplacements
                (txt "Failed to find expected lines in " ++ path ++ txt ":" ++ [LF]
                 ++ join_with [LF] (old_lines chunk)))
          end
      end
  end.

(** The replacements of the chunks, in the order of the chunks. *)
Fixpoint place_chunks (original_lines : list text) (path : text) (line_index : nat)
    (chunks : list UpdateFileChunk) : ApplyPatchError + list replacement :=
  match chunks with
  | [] => inr []
  | chunk :: rest =>
      match place_chunk original_lines path line_index chunk with
      | inl e => inl e
      | inr (r, line_index) =>
          match place_chunks original_lines path line_index rest with
          | inl e => inl e
          | inr rs => inr (r :: rs)
          end
      end
  end.

Definition compute_replacements (original_lines : list text) (path : text)
    (chunks : list UpdateFileChunk) : ApplyPatchError + list replacement :=
  match place_chunks original_lines path 0 chunks with
  | inl e => inl e
  | inr rs => inr (sort_by_key start_idx rs)
  end.

(** [Vec::insert], which panics past the end. *)
Definition vec_insert {A} (i : nat) (x : A) (l : list A) : option (list A) :=
  if i <=? length l then Some (take i l ++ x :: drop i l) else None.

Fixpoint insert_lines (i : nat) (new_segment lines : list text) : option (list text) :=
  match new_segment with
  | [] => Some lines
  | new_line :: rest => lines ← vec_insert i new_line lines; insert_lines (S i) rest lines
  end.

(** Removing out of range does nothing, as the test of the loop says. *)
Definition apply_replacement (r : replacement) (lines : list text) : option (list text) :=
  insert_lines (start_idx r) (new_segment r) (Nat.iter (old_len r) (delete (start_idx r)) lines).

Definition apply_replacements (lines : list text) (rs : list replacement) : option (list text) :=
  foldl (λ acc r, acc ≫= apply_replacement r) (Some lines) (reverse rs).

Definition derive_new_contents (original_content path : text) (chunks : list UpdateFileChunk)
    : option (ApplyPatchError + text) :=
  let original_lines := split_on LF original_content in
  let original_lines :=
    if ends_empty original_lines then take (length original_lines - 1) original_lines
    else original_lines in
  match compute_replacements original_lines path chunks with
  | inl e => Some (inl e)
  | inr rs =>
      new_lines ← apply_replacements original_lines rs;
      let new_lines := if ends_empty new_lines then new_lines else new_lines ++ [[]] in
      Some (inr (join_with [LF] new_lines))
  end.

(** ** tool.rs *)

Inductive FileChange :=
| Add (path content : text)
| Delete (path original_content : text)
| Update (path original_content new_content : text)
| Move (source_path dest_path original_content new_content : text).

Record ApplyPatchFileResult := mkResult {
  r_path : text;
  r_action : text;
  old_text : option text;
  new_text : text;
  move_to : option text;
}.

Inductive ApplyPatchOutput :=
| Success (files : list ApplyPatchFileResult) (tool_output_for_prompt : text)
| OutParseError (m : text)
| ApplicationError (m : text)
| EmptyPatch (m : text).

(** [Path::join]. *)
Definition path_join (cwd p : text) : text :=
  if starts_with (txt "/") p then p
  else if bool_decide (cwd = []) || ends_with "/"%char cwd then cwd ++ p
  else cwd ++ txt "/" ++ p.

(** The path has a parent that is not empty. *)
Definition has_parent (p : text) : bool :=
  contains (trim_end_matches (λ c, bool_decide (c = "/"%char)) p) (txt "/").

Section tool.
Context `{FsErrors}.

Definition ensure_parent_dirs (p : text) (w : World) : option text * World :=
  if has_parent p then (fst <$> fs_error (ops w) (MkdirOp p), count_op w) else (None, w).

Definition read_file_as_string (p : text) (w : World) : (text + text) * World :=
  let '(r, w) := read_file p w in
  (match r with inl e => inl (error_text e) | inr bytes => inr (from_utf8_lossy bytes) end, w).

(** [Display] of the errors. *)
Definition apply_error_text (e : ApplyPatchError) : text :=
  match e with
  | Parse (InvalidPatchError m) => txt "invalid patch: " ++ m
  | Parse (InvalidHunkError message line_number) =>
      txt "invalid hunk at line " ++ show_Z (Z.of_nat line_number) ++ txt ", " ++ message
  | ComputeReplacements m => m
  | Io context message _ => context ++ txt ": " ++ message
  end.

(** The change of one hunk. *)
Definition compute_change (cwd : text) (hunk : PatchHunk) (w : World)
    : option ((text + FileChange) * World) :=
  match hunk with
  | AddFile path contents => Some (inr (Add (path_join cwd path) contents), w)
  | DeleteFile path =>
      let resolved := path_join cwd path in
      let '(r, w) := read_file_as_string resolved w in
      Some (match r with
            | inl e => inl (txt "Failed to read file: " ++ resolved ++ txt ", " ++ e)
            | inr original_content => inr (Delete resolved original_content)
            end, w)
  | UpdateFile path move_path chunks =>
      let resolved := path_join cwd path in
      let '(r, w) := read_file_as_string resolved w in
      match r with
      | inl e => Some (inl (txt "Failed to read file to update: " ++ resolved ++ txt ", " ++ e), w)
      | inr original_content =>
          derived ← derive_new_contents original_content resolved chunks;
          match derived with
          | inl (ComputeReplacements m) => Some (inl m, w)
          | inl other => Some (inl (apply_error_text other), w)
          | inr new_content =>
              Some (inr match move_path with
                        | Some dest =>
                            Move resolved (path_join cwd dest) original_content new_content
                        | None => Update resolved original_content new_content
                        end, w)
          end
      end
  end.

Fixpoint compute_all_changes (cwd : text) (hunks : list PatchHunk) (w : World)
    : option ((text + list FileChange) * World) :=
  match hunks with
  | [] => Some (inr [], w)
  | hunk :: rest =>
      '(r, w) ← compute_change cwd hunk w;
      match r with
      | inl e => Some (inl e, w)
      | inr change =>
          '(r, w) ← compute_all_changes cwd rest w;
          Some (match r with inl e => inl e | inr changes => inr (change :: changes) end, w)
      end
  end.

(** One change, with its notifications and its result. *)
Definition apply_change (change : FileChange) (w : World)
    : (text + ApplyPatchFileResult) * World :=
  match change with
  | Add path content =>
      let '(e, w) := ensure_parent_dirs path w in
      match e with
      | Some e => (inl e, w)
      | None =>
          let '(e, w) := write_file path content w in
          match e with
          | Some e => (inl (error_text e), w)
          | None =>
              (inr (mkResult path (txt "added") None content None),
               notify (mkWritten path content None true) w)
          end
      end
  | Delete path original_content =>
      let '(e, w) := delete_file path w in
      match e with
      | Some e => (inl (error_text e), w)
      | None =>
          (inr (mkResult path (txt "deleted") (Some original_content) [] None),
           notify (mkWritten path [] (Some original_content) false) w)
      end
  | Update path original_content new_content =>
      let '(e, w) := write_file path new_content w in
      match e with
      | Some e => (inl (error_text e), w)
      | None =>
          (inr (mkResult path (txt "modified") (Some original_content) new_content None),
           notify (mkWritten path new_content (Some original_content) false) w)
      end
  | Move source_path dest_path original_content new_content =>
      let '(e, w) := ensure_parent_dirs dest_path w in
      match e with
      | Some e => (inl e, w)
      | None =>
          let '(e, w) := write_file dest_path new_content w in
          match e with
          | Some e => (inl (error_text e), w)
          | None =>
              let '(e, w) := delete_file source_path w in
              match e with
              | Some e => (inl (error_text e), w)
              | None =>
                  (inr (mkResult source_path (txt "moved") (Some original_content) new_content
                          (Some dest_path)),
                   notify (mkWritten source_path [] (Some original_content) false)
                     (notify (mkWritten dest_path new_content None true) w))
              end
          end
      end
  end.

Fixpoint apply_changes (changes : list FileChange) (w : World)
    : (text + list ApplyPatchFileResult) * World :=
  match changes with
  | [] => (inr [], w)
  | change :: rest =>
      match apply_change change w with
      | (inl e, w) => (inl e, w)
      | (inr r, w) =>
          match apply_changes rest w with
          | (inl e, w) => (inl e, w)
          | (inr rs, w) => (inr (r :: rs), w)
          end
      end
  end.

Definition build_summary (results : list ApplyPatchFileResult) : text :=
  txtln "Success. Updated the following files:"
  ++ concat ((λ r,
       (if decide (r_action r = txt "added") then txt "A"
        else if decide (r_action r = txt "deleted") then txt "D" else txt "M")
       ++ txt " " ++ r_path r ++ [LF]) <$> results).

Definition parse_error_text (e : ParseError) : text :=
  match e with
  | InvalidPatchError m => txt "Invalid patch: " ++ m
  | InvalidHunkError message line_number =>
      txt "Invalid patch hunk on line " ++ show_Z (Z.of_nat line_number) ++ txt ": " ++ message
  end.

(** [ApplyPatchTool::run]. *)
Definition run_apply_patch (cwd input : text) (w : World)
    : option ((text + ApplyPatchOutput) * World) :=
  parsed ← parse_patch input;
  match parsed with
  | inl e => Some (inr (OutParseError (parse_error_text e)), w)
  | inr parsed =>
      match hunks parsed with
      | [] => Some (inr (EmptyPatch (txt "No files were modified.")), w)
      | hs =>
          '(r, w) ← compute_all_changes cwd hs w;
          match r with
          | inl e => Some (inr (ApplicationError e), w)
          | inr changes =>
              let '(r, w) := apply_changes changes w in
              Some (match r with
                    | inl e => inl e
                    | inr results => inr (Success results (build_summary results))
                    end, w)
          end
      end
  end.

End tool.
