(* ===== verification/ApplyPatchProps.v ===== *)
(** * The apply-patch tool: theorems

    The search for lines, the replacements and their simultaneous application, the
    totality of the parser and of the tool, and what a run does to the files. *)

From S2P Require Import Prelude Text ToolFs ApplyPatch.

Open Scope nat_scope.

(** ** Searching *)

Lemma find_seq_Some (p : nat → bool) a n k :
  find_b p (seq a n) = Some k → a <= k < a + n ∧ p k = true ∧ ∀ i, a <= i < k → p i = false.
Proof.
  revert a. induction n as [|n IH]; intros a; cbn; [done|]. destruct (p a) eqn:Ha.
  - intros [= <-]. split_and!; [lia..|done|]. intros; lia.
  - intros (Hk & Hp & Hn)%IH. split_and!; [lia..|done|]. intros i Hi.
    destruct (decide (i = a)) as [->|]; [done|]. apply Hn. lia.
Qed.

Lemma pass_Some f ls pat s i :
  pass f ls pat s = Some i →
  s <= i ∧ i <= length ls - length pat ∧ matches_at f ls pat i = true
  ∧ ∀ j, s <= j < i → matches_at f ls pat j = false.
Proof. unfold pass. intros (Hi & Hm & Hn)%find_seq_Some. split_and!; [lia|lia|done|done]. Qed.

Lemma pass_complete f ls pat s j :
  s <= j → j <= length ls - length pat → matches_at f ls pat j = true → is_Some (pass f ls pat s).
Proof.
  intros Hs Hj Hm. destruct (pass f ls pat s) as [i|] eqn:Hp; [done|].
  unfold pass in Hp. rewrite find_b_None in Hp. rewrite Hp in Hm; [done|].
  apply elem_of_seq. lia.
Qed.

Lemma first_pass_Some fs ls pat s i :
  first_pass fs ls pat s = Some i →
  s <= i ∧ i <= length ls - length pat ∧ ∃ f, f ∈ fs ∧ matches_at f ls pat i = true.
Proof.
  induction fs as [|f fs IH]; cbn; [done|]. destruct (pass f ls pat s) as [k|] eqn:Hp.
  - intros [= <-]. apply pass_Some in Hp as (? & ? & ? & _). split_and!; [done..|].
    exists f. split; [left|done].
  - intros (? & ? & g & ? & ?)%IH. split_and!; [done..|]. exists g. split; [by right|done].
Qed.

(** The lines at [i] are the pattern, up to one of the four comparisons. *)
Definition alike (ls pat : list text) (i : nat) : Prop :=
  i + length pat <= length ls
  ∧ ∃ f, f ∈ PASSES ∧ f <$> take (length pat) (drop i ls) = f <$> pat.

Lemma seek_Some ls pat start eof i :
  pat ≠ [] → seek_sequence ls pat start eof = Some i →
  alike ls pat i ∧ (eof = false → start <= i) ∧ (eof = true → i = length ls - length pat).
Proof.
  intros Hne. unfold seek_sequence. destruct pat as [|p pat]; [done|].
  destruct (length ls <? length (p :: pat)) eqn:Hl; [done|]. apply Nat.ltb_ge in Hl.
  intros (Hs & Hi & f & Hf & Hm)%first_pass_Some. apply bool_decide_eq_true in Hm.
  destruct eof; (split_and!; [split; [lia|by exists f]|done|intros; lia]).
Qed.

(** If the pattern occurs verbatim, its first occurrence is found. *)
Lemma seek_verbatim ls pat start j :
  pat ≠ [] → start <= j → take (length pat) (drop j ls) = pat →
  ∃ i, seek_sequence ls pat start false = Some i ∧ start <= i <= j
       ∧ take (length pat) (drop i ls) = pat.
Proof.
  intros Hne Hj Hm. destruct pat as [|p pat]; [done|]. set (q := p :: pat) in *.
  assert (j + length q <= length ls) as Hlen.
  { pose proof (f_equal length Hm) as Hl. rewrite length_take, length_drop in Hl.
    assert (0 < length q) by (unfold q; cbn; lia). lia. }
  assert (matches_at id ls q j = true) as Hj'.
  { apply bool_decide_eq_true. by rewrite !list_fmap_id. }
  unfold seek_sequence, q. rewrite (proj2 (Nat.ltb_ge _ _)) by (fold q; lia). fold q.
  cbn [first_pass PASSES]. destruct (pass_complete id ls q start j Hj ltac:(lia) Hj') as [i Hi].
  rewrite Hi. exists i. apply pass_Some in Hi as (Hs & Hb & Hmi & Hn).
  apply bool_decide_eq_true in Hmi. rewrite !list_fmap_id in Hmi.
  split_and!; [done|done| |done].
  destruct (decide (i <= j)); [done|]. rewrite Hn in Hj'; [done|lia].
Qed.

(** ** Replacements *)

(** The lines with every replaced segment exchanged, from [pos] on. *)
Fixpoint weave (ls : list text) (pos : nat) (rs : list replacement) : list text :=
  match rs with
  | [] => drop pos ls
  | r :: rs =>
      take (start_idx r - pos) (drop pos ls) ++ new_segment r
      ++ weave ls (start_idx r + old_len r) rs
  end.

(** The replaced segments follow each other between [pos] and [n]. *)
Fixpoint ordered (pos n : nat) (rs : list replacement) : Prop :=
  match rs with
  | [] => pos <= n
  | r :: rs => pos <= start_idx r ∧ ordered (start_idx r + old_len r) n rs
  end.

Lemma ordered_le pos n rs : ordered pos n rs → pos <= n.
Proof. revert pos. induction rs as [|r rs IH]; intros pos; cbn; [done|]. intros [? ?%IH]. lia. Qed.

Lemma ordered_weaken pos pos' n rs : pos' <= pos → ordered pos n rs → ordered pos' n rs.
Proof. destruct rs as [|r rs]; cbn; [lia|]. intros ? [? ?]. split; [lia|done]. Qed.

Lemma weave_split ls pos rs :
  ordered pos (length ls) rs → weave ls 0 rs = take pos ls ++ weave ls pos rs.
Proof.
  destruct rs as [|r rs]; cbn; [by rewrite drop_0, take_drop|].
  intros [Hp Ho]. rewrite (app_assoc (take pos ls)). f_equal. rewrite Nat.sub_0_r, drop_0.
  rewrite <- (take_drop pos (take (start_idx r) ls)) at 1.
  by rewrite take_take, Nat.min_l, skipn_firstn_comm by lia.
Qed.

Lemma iter_delete (ls : list text) s l :
  Nat.iter l (delete s) ls = take s ls ++ drop (s + l) ls.
Proof.
  induction l as [|l IH]; [by rewrite Nat.add_0_r, take_drop|].
  change (Nat.iter (S l) (delete s) ls) with (delete s (Nat.iter l (delete s) ls)). rewrite IH.
  destruct (decide (s <= length ls)) as [Hs|Hs].
  - rewrite delete_take_drop, take_app_le, take_take, Nat.min_id by (rewrite length_take; lia).
    f_equal. rewrite drop_app_ge by (rewrite length_take; lia).
    rewrite length_take, Nat.min_l, drop_drop by done. f_equal. lia.
  - rewrite (drop_ge ls (s + l)), (drop_ge ls (s + S l)), !app_nil_r by lia.
    rewrite delete_take_drop, take_take, Nat.min_id, drop_ge, app_nil_r; [done|]. rewrite length_take. lia.
Qed.

Lemma insert_lines_spec i seg a b :
  length a = i → insert_lines i seg (a ++ b) = Some (a ++ seg ++ b).
Proof.
  revert i a. induction seg as [|x seg IH]; intros i a Hi; cbn; [done|].
  unfold vec_insert. rewrite (proj2 (Nat.leb_le _ _)) by (rewrite length_app; lia). cbn.
  rewrite take_app_length', drop_app_length' by done.
  rewrite (cons_middle x a b), app_assoc, IH by (rewrite length_app; cbn; lia).
  by rewrite <- app_assoc.
Qed.

Lemma apply_replacements_cons ls r rs :
  apply_replacements ls (r :: rs) = apply_replacements ls rs ≫= apply_replacement r.
Proof. unfold apply_replacements. by rewrite reverse_cons, foldl_app. Qed.

Lemma apply_replacement_spec r ls :
  start_idx r <= length ls →
  apply_replacement r ls
  = Some (take (start_idx r) ls ++ new_segment r ++ drop (start_idx r + old_len r) ls).
Proof.
  intros Hs. unfold apply_replacement. rewrite iter_delete. apply insert_lines_spec.
  rewrite length_take. lia.
Qed.

(** Applying the replacements from the last to the first is exchanging all
    segments at once. *)
Lemma apply_weave ls rs :
  ordered 0 (length ls) rs → apply_replacements ls rs = Some (weave ls 0 rs).
Proof.
  induction rs as [|r rs IH]; [cbn; by rewrite drop_0|]. intros [_ Ho].
  rewrite apply_replacements_cons, IH by (eapply ordered_weaken; [|done]; lia). cbn.
  pose proof (ordered_le _ _ _ Ho) as Hle. rewrite (weave_split ls _ rs Ho).
  rewrite apply_replacement_spec by (rewrite length_app, length_take; lia).
  rewrite take_app_le, take_take, Nat.min_l by (rewrite ?length_take; lia).
  rewrite drop_app_length' by (rewrite length_take; lia).
  by rewrite Nat.sub_0_r, drop_0.
Qed.

(** Replacements in the order of their starts, which are all in range, never
    panic. *)
Lemma apply_total ls rs :
  StronglySorted (λ a b, start_idx a <= start_idx b) rs →
  Forall (λ r, start_idx r <= length ls) rs →
  ∃ out, apply_replacements ls rs = Some out
         ∧ ∀ s, s <= length ls → Forall (λ r, s <= start_idx r) rs → s <= length out.
Proof.
  induction 1 as [|r rs _ IH Hr]; intros Hb; [by exists ls|].
  apply Forall_cons in Hb as [Hb Hbs]. destruct (IH Hbs) as (out & Hout & Hlen).
  pose proof (Hlen (start_idx r) Hb Hr) as Hs.
  rewrite apply_replacements_cons, Hout. cbn. rewrite apply_replacement_spec by done.
  eexists. split; [done|]. intros s _ [Hle _]%Forall_cons.
  rewrite length_app, length_take. lia.
Qed.

Lemma seek_in_range ls pat start eof i :
  start <= length ls → seek_sequence ls pat start eof = Some i → i + length pat <= length ls.
Proof.
  intros Hs Hi. destruct (decide (pat = [])) as [->|Hne].
  - cbn in Hi. simplify_eq. cbn. lia.
  - by apply seek_Some in Hi as [[? _] _].
Qed.

Lemma context_in_range ls ctx li i : seek_sequence ls [ctx] li false = Some i → li < i + 1 <= length ls.
Proof.
  intros Hs. apply seek_Some in Hs as [[Hl _] [Hle _]]; [|done]. cbn in Hl. specialize (Hle eq_refl). lia.
Qed.

(** ** The place of a chunk *)

Definition drop_last (l : list text) : list text := take (length l - 1) l.

(** Where the search for a chunk starts: behind its context. *)
Definition from_context (ls : list text) (li : nat) (chunk : UpdateFileChunk) (start : nat) : Prop :=
  match change_context chunk with
  | None => start = li
  | Some ctx => ∃ i, seek_sequence ls [ctx] li false = Some i ∧ start = i + 1
  end.

(** The replacement of a chunk with old lines: the lines that were found, up to one
    of the comparisons, or the old lines less a blank one at the end. *)
Definition edit_of (ls : list text) (start : nat) (chunk : UpdateFileChunk) (r : replacement) : Prop :=
  (seek_sequence ls (old_lines chunk) start (is_end_of_file chunk) = Some (start_idx r)
   ∧ old_len r = length (old_lines chunk) ∧ new_segment r = new_lines chunk)
  ∨ (seek_sequence ls (old_lines chunk) start (is_end_of_file chunk) = None
     ∧ ends_empty (old_lines chunk) = true
     ∧ seek_sequence ls (drop_last (old_lines chunk)) start (is_end_of_file chunk) = Some (start_idx r)
     ∧ old_len r = length (drop_last (old_lines chunk))
     ∧ new_segment r =
         if ends_empty (new_lines chunk) then drop_last (new_lines chunk) else new_lines chunk).

Lemma place_chunk_spec ls path li chunk r li' :
  place_chunk ls path li chunk = inr (r, li') →
  ∃ start, from_context ls li chunk start
    ∧ ((old_lines chunk = []
        ∧ r = mkRep (if ends_empty ls then length ls - 1 else length ls) 0 (new_lines chunk)
        ∧ li' = start)
       ∨ (old_lines chunk ≠ [] ∧ edit_of ls start chunk r ∧ li' = start_idx r + old_len r)).
Proof.
  unfold place_chunk, from_context. intros Hp.
  assert (∃ start, from_context ls li chunk start ∧
    match old_lines chunk with
    | [] => r = mkRep (if ends_empty ls then length ls - 1 else length ls) 0 (new_lines chunk) ∧ li' = start
    | _ => edit_of ls start chunk r ∧ li' = start_idx r + old_len r
    end) as (start & Hf & Hrest).
  { unfold from_context.
    destruct (change_context chunk) as [ctx|];
      [destruct (seek_sequence ls [ctx] li false) as [i|] eqn:Hc; [|done]|];
      (eexists; split; [by eauto|]);
      unfold edit_of;
      (destruct (old_lines chunk) as [|o os] eqn:Ho; [by simplify_eq|]; rewrite <- Ho in *; clear Ho);
      (destruct (seek_sequence ls (old_lines chunk) _ (is_end_of_file chunk)) as [k|] eqn:Hs; cbn in Hp;
       [simplify_eq; eauto 10|]);
      (destruct (ends_empty (old_lines chunk)) eqn:He; [|done]);
      fold (drop_last (old_lines chunk)) in Hp; fold (drop_last (new_lines chunk)) in Hp;
      (destruct (seek_sequence ls (drop_last (old_lines chunk)) _ (is_end_of_file chunk)) as [k|] eqn:Hs';
       [|done]); simplify_eq; cbn; eauto 10. }
  exists start. split; [done|]. destruct (old_lines chunk) as [|o os]; [left|right]; naive_solver.
Qed.

Lemma edit_in_range ls start chunk r :
  start <= length ls → edit_of ls start chunk r → start_idx r + old_len r <= length ls.
Proof.
  intros Hs [(Hf & -> & _)|(_ & _ & Hf & -> & _)]; by eapply seek_in_range.
Qed.

Lemma from_context_range ls li chunk start :
  li <= length ls → from_context ls li chunk start → li <= start <= length ls.
Proof.
  unfold from_context. destruct (change_context chunk) as [ctx|]; [|lia].
  intros Hl (i & Hi%context_in_range & ->). lia.
Qed.

Lemma place_chunk_range ls path li chunk r li' :
  li <= length ls → place_chunk ls path li chunk = inr (r, li') →
  start_idx r <= length ls ∧ li' <= length ls.
Proof.
  intros Hl (start & Hf & Hc)%place_chunk_spec. apply from_context_range in Hf; [|done].
  destruct Hc as [(_ & -> & ->)|(_ & He & ->)].
  - cbn. case_match; lia.
  - apply edit_in_range in He; lia.
Qed.

Lemma place_chunks_range ls path li chunks rs :
  li <= length ls → place_chunks ls path li chunks = inr rs →
  Forall (λ r, start_idx r <= length ls) rs.
Proof.
  revert li rs. induction chunks as [|c chunks IH]; intros li rs Hl; cbn; [by intros [= <-]|].
  destruct (place_chunk ls path li c) as [|[r li']] eqn:Hp; [done|].
  apply place_chunk_range in Hp as [Hr Hli']; [|done].
  destruct (place_chunks ls path li' chunks) as [|rs'] eqn:Hps; [done|].
  intros [= <-]. constructor; [done|]. by eapply IH.
Qed.

(** [derive_new_contents] never panics. *)
Lemma derive_total original path chunks : is_Some (derive_new_contents original path chunks).
Proof.
  unfold derive_new_contents. set (ls := if ends_empty _ then _ else _). unfold compute_replacements.
  destruct (place_chunks ls path 0 chunks) as [e|rs] eqn:Hp; [done|].
  apply place_chunks_range in Hp; [|lia].
  destruct (apply_total ls (sort_by_key start_idx rs)) as (out & -> & _); [..|done].
  - apply sort_by_key_sorted.
  - by rewrite sort_by_key_Permutation.
Qed.

(** ** What a list of chunks does *)

(** The lines of a content, without the empty one behind the final line feed, and
    the content of lines. *)
Definition content_lines (original : text) : list text :=
  let ls := split_on LF original in if ends_empty ls then drop_last ls else ls.
Definition text_of (ls : list text) : text :=
  join_with [LF] (if ends_empty ls then ls else ls ++ [[]]).

(** A chunk starts to search behind a line like its context. *)
Definition behind_context (ls : list text) (li : nat) (chunk : UpdateFileChunk) (start : nat) : Prop :=
  match change_context chunk with
  | None => start = li
  | Some ctx => ∃ i, li <= i ∧ alike ls [ctx] i ∧ start = i + 1
  end.

(** The segment that a chunk replaces is like its old lines, or like them without
    a blank last line; it is the first verbatim occurrence if there is one. *)
Definition replaces (ls : list text) (start : nat) (chunk : UpdateFileChunk) (r : replacement) : Prop :=
  let old := old_lines chunk in
  let new := new_lines chunk in
  start <= start_idx r
  ∧ ((alike ls old (start_idx r) ∧ old_len r = length old ∧ new_segment r = new)
     ∨ (ends_empty old = true
        ∧ (alike ls (drop_last old) (start_idx r) ∨ (drop_last old = [] ∧ start_idx r = start))
        ∧ old_len r = length (drop_last old)
        ∧ new_segment r = if ends_empty new then drop_last new else new))
  ∧ (∀ j, start <= j → take (length old) (drop j ls) = old →
       start_idx r <= j ∧ take (length old) (drop (start_idx r) ls) = old).

(** The chunks in order: each edit behind the one before, additions at the end. *)
Inductive placed (ls : list text) : nat → list UpdateFileChunk → list replacement → Prop :=
| placed_nil li : placed ls li [] []
| placed_add li c cs start rs :
    behind_context ls li c start → old_lines c = [] → placed ls start cs rs →
    placed ls li (c :: cs) (mkRep (length ls) 0 (new_lines c) :: rs)
| placed_edit li c cs start r rs :
    behind_context ls li c start → old_lines c ≠ [] → replaces ls start c r →
    placed ls (start_idx r + old_len r) cs rs → placed ls li (c :: cs) (r :: rs).

Lemma behind_of_from ls li chunk start : from_context ls li chunk start → behind_context ls li chunk start.
Proof.
  unfold from_context, behind_context. destruct (change_context chunk) as [ctx|]; [|done].
  intros (i & Hi & ->). exists i. apply seek_Some in Hi as (Ha & Hs & _); [|done]. auto.
Qed.

Lemma replaces_of_edit ls start chunk r :
  is_end_of_file chunk = false → old_lines chunk ≠ [] → edit_of ls start chunk r →
  replaces ls start chunk r.
Proof.
  intros He Hne [(Hf & Hl & Hn)|(Hnone & Hb & Hf & Hl & Hn)]; rewrite He in *; unfold replaces.
  - pose proof (seek_Some _ _ _ _ _ Hne Hf) as (Ha & Hs & _). split_and!; [auto|left; auto|].
    intros j Hj Hm. destruct (seek_verbatim ls _ start j Hne Hj Hm) as (i & Hi & Hij & Hv).
    rewrite Hf in Hi. simplify_eq. split; [lia|done].
  - split_and!.
    + destruct (decide (drop_last (old_lines chunk) = [])) as [Hd|Hd].
      * rewrite Hd in Hf. cbn in Hf. simplify_eq. lia.
      * apply seek_Some in Hf as (_ & Hs & _); auto.
    + right. split_and!; [done| |done|done].
      destruct (decide (drop_last (old_lines chunk) = [])) as [Hd|Hd]; [right|left].
      * rewrite Hd in Hf. cbn in Hf. by simplify_eq.
      * by apply seek_Some in Hf as (Ha & _).
    + intros j Hj Hm. destruct (seek_verbatim ls _ start j Hne Hj Hm) as (i & Hi & _). congruence.
Qed.

Lemma placed_of_chunks ls path li chunks rs :
  ends_empty ls = false → Forall (λ c, is_end_of_file c = false) chunks →
  place_chunks ls path li chunks = inr rs → placed ls li chunks rs.
Proof.
  intros Hls. revert li rs. induction chunks as [|c chunks IH]; intros li rs; cbn.
  { intros _ [= <-]. constructor. }
  intros [He Hes]%Forall_cons. destruct (place_chunk ls path li c) as [|[r li']] eqn:Hp; [done|].
  destruct (place_chunks ls path li' chunks) as [|rs'] eqn:Hps; [done|]. intros [= <-].
  apply place_chunk_spec in Hp as (start & Hf & Hc). apply behind_of_from in Hf.
  destruct Hc as [(Ho & -> & ->)|(Ho & Hed & ->)].
  - rewrite Hls. eapply placed_add; eauto.
  - eapply placed_edit; eauto. by apply replaces_of_edit.
Qed.

Lemma alike_range ls pat i : alike ls pat i → i + length pat <= length ls.
Proof. by intros [? _]. Qed.

Lemma behind_range ls li chunk start :
  li <= length ls → behind_context ls li chunk start → li <= start <= length ls.
Proof.
  unfold behind_context. destruct (change_context chunk); [|lia].
  intros ? (i & ? & Ha%alike_range & ->). cbn in Ha. lia.
Qed.

(** Sorting an addition at the end into segments in order keeps them in order. *)
Lemma insert_addition pos n new rs :
  ordered pos n rs → ordered pos n (insert_by_asc start_idx (mkRep n 0 new) rs).
Proof.
  revert pos. induction rs as [|r rs IH]; intros pos; cbn; [lia|]. intros [Hp Ho].
  pose proof (ordered_le _ _ _ Ho) as Hle. destruct (n <=? start_idx r) eqn:E; breflect; cbn.
  - split_and!; [lia..|done].
  - split; [done|]. by apply IH.
Qed.

Lemma insert_first pos n r rs :
  pos <= start_idx r → ordered (start_idx r + old_len r) n rs →
  insert_by_asc start_idx r rs = r :: rs.
Proof.
  destruct rs as [|r' rs]; [done|]. cbn. intros _ [Hr _].
  destruct (start_idx r <=? start_idx r') eqn:E; breflect; [done|lia].
Qed.

Lemma replaces_range ls start chunk r :
  start <= length ls → replaces ls start chunk r →
  start <= start_idx r ∧ start_idx r + old_len r <= length ls.
Proof.
  intros Hs (Hle & [(Ha%alike_range & -> & _)|(_ & [Ha%alike_range|[Hd ?]] & -> & _)] & _);
    (split; [done|]); [lia..|]. rewrite Hd. cbn. lia.
Qed.

Lemma placed_ordered ls li chunks rs :
  li <= length ls → placed ls li chunks rs → ordered li (length ls) (sort_by_key start_idx rs).
Proof.
  intros Hl Hp. induction Hp as [li|li c cs start rs Hb Ho _ IH|li c cs start r rs Hb Ho Hr _ IH].
  - done.
  - apply behind_range in Hb; [|done]. unfold sort_by_key. cbn. apply insert_addition.
    eapply ordered_weaken; [|apply IH]; lia.
  - apply behind_range in Hb; [|done]. apply replaces_range in Hr; [|lia]. specialize (IH ltac:(lia)).
    unfold sort_by_key in *. cbn. rewrite (insert_first li (length ls)) by (done || lia).
    split; [lia|done].
Qed.

(** The old lines of the chunks occur verbatim one after the other, from [pos] on. *)
Fixpoint verbatim (ls : list text) (pos : nat) (chunks : list UpdateFileChunk) : Prop :=
  match chunks with
  | [] => True
  | c :: cs =>
      change_context c = None ∧ old_lines c ≠ [] ∧ is_end_of_file c = false
      ∧ ∃ j, pos <= j ∧ take (length (old_lines c)) (drop j ls) = old_lines c
             ∧ verbatim ls (j + length (old_lines c)) cs
  end.

Lemma verbatim_placed ls path li pos chunks :
  li <= pos → verbatim ls pos chunks → ∃ rs, place_chunks ls path li chunks = inr rs.
Proof.
  revert li pos. induction chunks as [|c cs IH]; intros li pos Hl; cbn; [by eexists|].
  intros (Hc & Ho & He & j & Hj & Hm & Hv).
  destruct (seek_verbatim ls _ li j Ho ltac:(lia) Hm) as (i & Hi & Hij & _).
  unfold place_chunk. rewrite Hc, He, Hi. destruct (old_lines c) as [|o os] eqn:Hol; [done|].
  cbn [bool_decide]. rewrite <- Hol in *.
  destruct (IH (i + length (old_lines c)) (j + length (old_lines c)) ltac:(lia) Hv) as [rs Hrs].
  cbn. rewrite Hrs. by eexists.
Qed.

(** C18: the new contents of a file that a patch updates: when the contents do not end in an
    empty line and no chunk is tied to the end of the file, they are the lines of the
    file with the new lines of every chunk in place of its old ones, where the chunks
    were found one behind the other, each behind its context line, up to blanks and
    typographic punctuation, and every other line is kept in its place; a chunk without
    old lines adds its lines at the end.  Chunks
    without a context line and an end-of-file mark with old lines that stand in the file
    one behind the other are always placed. *)
Theorem patch_derivation_exact (original path : text) (chunks : list UpdateFileChunk) :
  let ls := content_lines original in
  (∀ out, ends_empty ls = false → Forall (λ c, is_end_of_file c = false) chunks →
     derive_new_contents original path chunks = Some (inr out) →
     ∃ rs, placed ls 0 chunks rs ∧ ordered 0 (length ls) (sort_by_key start_idx rs)
           ∧ out = text_of (weave ls 0 (sort_by_key start_idx rs)))
  ∧ (verbatim ls 0 chunks → ∃ out, derive_new_contents original path chunks = Some (inr out)).
Proof.
  intros ls. split.
  - intros out Hls He. unfold derive_new_contents. fold (drop_last (split_on LF original)).
    fold (content_lines original). fold ls. unfold compute_replacements.
    destruct (place_chunks ls path 0 chunks) as [|rs] eqn:Hp; [done|].
    apply placed_of_chunks in Hp; [|done..]. pose proof (placed_ordered ls 0 chunks rs ltac:(lia) Hp) as Ho.
    rewrite (apply_weave ls _ Ho). cbn. intros [= <-]. by exists rs.
  - intros Hv. destruct (verbatim_placed ls path 0 0 chunks ltac:(lia) Hv) as [rs Hrs].
    destruct (derive_total original path chunks) as [r Hr]. revert Hr. unfold derive_new_contents.
    fold (drop_last (split_on LF original)). fold (content_lines original). fold ls.
    unfold compute_replacements. rewrite Hrs.
    destruct (apply_replacements _ _) as [o|]; cbn; [|done]. intros _. by eexists.
Qed.

(** ** The parser always answers *)

Lemma chunk_lines_progress n ls c k c' k' :
  chunk_lines n ls c k = inr (c', k') → k <= k' ∧ (ls ≠ [] → 1 <= k').
Proof.
  revert c k. induction ls as [|l ls IH]; intros c k; cbn [chunk_lines]; [by intros [= _ <-]|].
  destruct (decide (l = EOF_MARKER)).
  { destruct (k =? 0) eqn:Hk; breflect; [done|]. intros [= _ <-]. lia. }
  cbn zeta. destruct l as [|a s]; [intros [? _]%IH; lia|].
  repeat case_decide; try (intros [? _]%IH; lia).
  destruct (k =? 0) eqn:Hk; breflect; [done|]. intros [= _ <-]. lia.
Qed.

Lemma parse_chunk_progress ls n b c k : parse_update_file_chunk ls n b = inr (c, k) → 1 <= k.
Proof.
  unfold parse_update_file_chunk. destruct ls as [|l ls]; [done|].
  destruct (if decide (l = EMPTY_CHANGE_CONTEXT_MARKER) then _ else _) as [|[ctx start]]; [done|].
  destruct (length (l :: ls) <=? start) eqn:Hl; [done|]. apply Nat.leb_gt in Hl.
  destruct (chunk_lines _ _ _ _) as [|[c' k']] eqn:Hc; [done|].
  intros [= _ <-]. apply chunk_lines_progress in Hc as [_ Hc].
  destruct (decide (start = 0)) as [->|]; [|lia]. rewrite drop_0 in Hc. specialize (Hc ltac:(discriminate)). lia.
Qed.

Lemma parse_chunks_total fuel n ls chunks k :
  length ls <= fuel →
  ∃ r, parse_chunks fuel n ls chunks k = Some r ∧ ∀ cs k', r = inr (cs, k') → k <= k'.
Proof.
  revert ls chunks k. induction fuel as [|fuel IH]; intros [|l ls] chunks k Hl; cbn [parse_chunks];
    try (eexists; split; [done|]; intros ? ? [= _ <-]; lia); cbn [length] in Hl; [lia|].
  destruct (decide (trim l = [])).
  { destruct (IH ls chunks (S k)) as (r & -> & Hr); [lia|]. eexists. split; [done|].
    intros cs k' Hk. specialize (Hr cs k' Hk). lia. }
  destruct (starts_with (txt "***") l); [eexists; split; [done|]; intros ? ? [= _ <-]; lia|].
  destruct (parse_update_file_chunk (l :: ls) _ _) as [e|[c m]] eqn:Hp;
    [eexists; split; [done|]; by intros|].
  apply parse_chunk_progress in Hp.
  destruct (IH (drop m (l :: ls)) (chunks ++ [c]) (k + m)) as (r & -> & Hr).
  { rewrite length_drop. cbn. lia. }
  eexists. split; [done|]. intros cs k' Hk. specialize (Hr cs k' Hk). lia.
Qed.

Lemma parse_one_total ls n :
  ls ≠ [] → ∃ r, parse_one_hunk ls n = Some r ∧ ∀ h k, r = inr (h, k) → 1 <= k.
Proof.
  intros Hne. destruct ls as [|l rest]; [done|]. unfold parse_one_hunk.
  destruct (text_strip_prefix ADD_FILE_MARKER _).
  { destruct (added_lines rest) as [contents k]. eexists. split; [done|]. intros ? ? [= _ <-]. lia. }
  destruct (text_strip_prefix DELETE_FILE_MARKER _).
  { eexists. split; [done|]. intros ? ? [= _ <-]. lia. }
  destruct (text_strip_prefix UPDATE_FILE_MARKER _); [|eexists; split; [done|]; by intros].
  destruct (match head rest ≫= text_strip_prefix MOVE_TO_MARKER with
    Some _ => (drop 1 rest, 2) | None => (rest, 1) end) as [rem k] eqn:Hm.
  assert (1 <= k) by (destruct (head rest ≫= _); simplify_eq; lia).
  destruct (parse_chunks_total (length rem) n rem [] k) as (r & -> & Hr); [lia|].
  destruct r as [e|[[|c cs] k']]; eexists; (split; [done|]); intros ? ? [=]; subst.
  specialize (Hr _ _ eq_refl). lia.
Qed.

Lemma parse_hunks_total fuel ls n hs : length ls <= fuel → is_Some (parse_hunks fuel ls n hs).
Proof.
  revert ls n hs. induction fuel as [|fuel IH]; intros [|l ls] n hs Hl; cbn [parse_hunks]; try done;
    [cbn in Hl; lia|].
  destruct (parse_one_total (l :: ls) n) as (r & -> & Hr); [done|].
  destruct r as [e|[h k]]; [done|]. apply IH. specialize (Hr _ _ eq_refl).
  rewrite length_drop. cbn in *. lia.
Qed.

Lemma parse_total p : is_Some (parse_patch p).
Proof.
  unfold parse_patch. cbn zeta.
  destruct (match check_patch_boundaries_strict (lines (trim p)) with Some _ => _ | None => _ end)
    as [e|ls]; [done|].
  destruct (parse_hunks_total (length (take (length ls - 2) (drop 1 ls)))
    (take (length ls - 2) (drop 1 ls)) 2 []) as [[e|hs] ->]; [lia|done..].
Qed.

(** ** The tool *)

Section tool.
Context `{FsErrors}.

Lemma compute_change_total cwd h w :
  ∃ r w', compute_change cwd h w = Some (r, w') ∧ files w' = files w ∧ notified w' = notified w.
Proof.
  destruct h as [p c|p|p m cs]; unfold compute_change, read_file_as_string, read_file; [eauto..|].
  destruct (match fs_error _ _ with Some _ => _ | None => _ end) as [e|bytes]; [eauto|].
  destruct (derive_total (from_utf8_lossy bytes) (path_join cwd p) cs) as [[[]|] ->]; cbn; eauto 10.
Qed.

Lemma compute_all_total cwd hs w :
  ∃ r w', compute_all_changes cwd hs w = Some (r, w') ∧ files w' = files w ∧ notified w' = notified w.
Proof.
  revert w. induction hs as [|h hs IH]; intros w; cbn; [eauto|].
  destruct (compute_change_total cwd h w) as (r & w' & -> & Hf & Hn). cbn.
  destruct r as [e|c]; [eauto|]. destruct (IH w') as (r & w'' & -> & Hf' & Hn'). cbn.
  eexists _, _. split; [done|]. split; congruence.
Qed.

(** The answer says that nothing was written. *)
Definition is_refusal (out : text + ApplyPatchOutput) : bool :=
  match out with inr (Success _ _) | inl _ => false | inr _ => true end.

(** C19: a call of the patch tool answers for every text and every state of the files, and
    never panics; unless it reports success or an error of the file system, neither a
    file nor a notification has changed: one hunk that cannot be placed keeps the
    others from being written. *)
Theorem patch_all_or_nothing (cwd input : text) (w : World) :
  ∃ out w', run_apply_patch cwd input w = Some (out, w')
    ∧ (is_refusal out = true → files w' = files w ∧ notified w' = notified w).
Proof.
  unfold run_apply_patch. destruct (parse_total input) as [[e|parsed] ->];
    cbn [mbind option_bind]; [eauto|].
  destruct (ApplyPatch.hunks parsed) as [|h hs]; [eauto|].
  destruct (compute_all_total cwd (h :: hs) w) as (r & w' & -> & Hf & Hn).
  cbn [mbind option_bind]. destruct r as [e|changes]; [eauto|].
  destruct (apply_changes changes w') as [[e|rs] w'']; by eexists _, _.
Qed.

(** The files that a hunk touches, in the order of the notifications. *)
Definition targets (cwd : text) (h : PatchHunk) : list text :=
  match h with
  | AddFile p _ | DeleteFile p | UpdateFile p None _ => [path_join cwd p]
  | UpdateFile p (Some d) _ => [path_join cwd d; path_join cwd p]
  end.

(** What a hunk asks for, of the files before and after. *)
Definition hunk_done (cwd : text) (before after : gmap text text) (h : PatchHunk) : Prop :=
  match h with
  | AddFile p c => after !! path_join cwd p = Some c
  | DeleteFile p => is_Some (before !! path_join cwd p) ∧ after !! path_join cwd p = None
  | UpdateFile p m cs =>
      ∃ bytes new, before !! path_join cwd p = Some bytes
        ∧ derive_new_contents (from_utf8_lossy bytes) (path_join cwd p) cs = Some (inr new)
        ∧ match m with
          | None => after !! path_join cwd p = Some new
          | Some d => after !! path_join cwd d = Some new ∧ after !! path_join cwd p = None
          end
  end.

(** The change that was computed for a hunk. *)
Definition change_of (cwd : text) (before : gmap text text) (h : PatchHunk) (c : FileChange) : Prop :=
  match h with
  | AddFile p contents => c = Add (path_join cwd p) contents
  | DeleteFile p =>
      ∃ bytes, before !! path_join cwd p = Some bytes
               ∧ c = Delete (path_join cwd p) (from_utf8_lossy bytes)
  | UpdateFile p m cs =>
      ∃ bytes new, before !! path_join cwd p = Some bytes
        ∧ derive_new_contents (from_utf8_lossy bytes) (path_join cwd p) cs = Some (inr new)
        ∧ c = match m with
              | None => Update (path_join cwd p) (from_utf8_lossy bytes) new
              | Some d => Move (path_join cwd p) (path_join cwd d) (from_utf8_lossy bytes) new
              end
  end.

Lemma compute_change_inv cwd h w c w' :
  compute_change cwd h w = Some (inr c, w') →
  files w' = files w ∧ notified w' = notified w ∧ change_of cwd (files w) h c.
Proof.
  intros Hc. destruct (compute_change_total cwd h w) as (r & w1 & Hc' & Hf & Hn).
  rewrite Hc in Hc'. simplify_eq. split_and!; [done..|]. clear Hf Hn. revert Hc.
  destruct h as [p contents|p|p m cs]; unfold compute_change, read_file_as_string, read_file, change_of.
  - by intros [= <- _].
  - destruct (fs_error _ _); [done|]. destruct (files w !! _) as [bytes|]; [|done].
    intros [= <- _]. by exists bytes.
  - destruct (fs_error _ _); [done|]. destruct (files w !! _) as [bytes|]; [|done].
    destruct (derive_new_contents _ _ cs) as [[[]|new]|] eqn:Hd; cbn; try done.
    intros [= <- _]. exists bytes, new. by destruct m.
Qed.

Lemma compute_all_inv cwd hs w cs w' :
  compute_all_changes cwd hs w = Some (inr cs, w') →
  files w' = files w ∧ notified w' = notified w ∧ Forall2 (change_of cwd (files w)) hs cs.
Proof.
  revert w cs w'. induction hs as [|h hs IH]; intros w cs w'; cbn [compute_all_changes].
  { intros [= <- <-]. repeat constructor. }
  destruct (compute_change cwd h w) as [[[e|c] w1]|] eqn:Hc; cbn; [done| |done].
  apply compute_change_inv in Hc as (Hf & Hn & Hc).
  destruct (compute_all_changes cwd hs w1) as [[[e|cs'] w2]|] eqn:Hcs; cbn; [done| |done].
  apply IH in Hcs as (Hf' & Hn' & Hcs). intros [= <- <-]. rewrite Hf in Hf', Hcs. rewrite Hn in Hn'.
  split_and!; [done..|]. by constructor.
Qed.

(** What a change does to the files, and what is notified. *)
Definition effect (fs : gmap text text) (c : FileChange) : gmap text text :=
  match c with
  | Add p c => <[p := c]> fs
  | Delete p _ => delete p fs
  | Update p _ n => <[p := n]> fs
  | Move s d _ n => delete s (<[d := n]> fs)
  end.

Definition notes (c : FileChange) : list FileWritten :=
  match c with
  | Add p c => [mkWritten p c None true]
  | Delete p o => [mkWritten p [] (Some o) false]
  | Update p o n => [mkWritten p n (Some o) false]
  | Move s d o n => [mkWritten d n None true; mkWritten s [] (Some o) false]
  end.

Lemma apply_change_inv c w r w' :
  apply_change c w = (inr r, w') →
  files w' = effect (files w) c ∧ notified w' = notified w ++ notes c.
Proof.
  unfold apply_change, write_file, delete_file, ensure_parent_dirs. intros Hc.
  destruct c as [p c|p o|p o n|s d o n];
    repeat (case_match; simplify_eq/=); try done; rewrite <- ?app_assoc; done.
Qed.

Lemma apply_changes_inv cs w rs w' :
  apply_changes cs w = (inr rs, w') →
  files w' = foldl effect (files w) cs ∧ notified w' = notified w ++ (cs ≫= notes).
Proof.
  revert w rs w'. induction cs as [|c cs IH]; intros w rs w'; cbn [apply_changes].
  { intros [= _ <-]. by rewrite app_nil_r. }
  destruct (apply_change c w) as [[e|r] w1] eqn:Hc; [done|].
  destruct (apply_changes cs w1) as [[e|rs'] w2] eqn:Hcs; [done|]. intros [= _ <-].
  apply apply_change_inv in Hc as [Hf Hn]. apply IH in Hcs as [Hf' Hn']. split.
  - cbn. by rewrite Hf', Hf.
  - rewrite Hn', Hn. cbn. by rewrite app_assoc.
Qed.

Lemma notes_targets cwd before h c :
  change_of cwd before h c → absolute_path <$> notes c = targets cwd h.
Proof.
  destruct h as [p t|p|p m cs]; cbn; [by intros ->|by intros (? & _ & ->)|].
  intros (? & ? & _ & _ & ->). by destruct m.
Qed.

Lemma notes_targets_all cwd before hs cs :
  Forall2 (change_of cwd before) hs cs → absolute_path <$> (cs ≫= notes) = hs ≫= targets cwd.
Proof.
  induction 1 as [|h c hs cs Hc _ IH]; [done|]. cbn. rewrite fmap_app. f_equal; [|done].
  by eapply notes_targets.
Qed.

Lemma effect_other c fs p : p ∉ absolute_path <$> notes c → effect fs c !! p = fs !! p.
Proof.
  destruct c; cbn; intros Hp; rewrite ?lookup_delete_ne, ?lookup_insert_ne; set_solver.
Qed.

Lemma effects_other cs fs p : p ∉ absolute_path <$> (cs ≫= notes) → foldl effect fs cs !! p = fs !! p.
Proof.
  revert fs. induction cs as [|c cs IH]; intros fs; cbn; [done|]. rewrite fmap_app, not_elem_of_app.
  intros [Hc Hcs]. rewrite IH by done. by apply effect_other.
Qed.

(** One hunk, when the later changes leave its files alone. *)
Lemma effect_done cwd before fs after h c :
  change_of cwd before h c → NoDup (targets cwd h) →
  (∀ p, p ∈ targets cwd h → after !! p = effect fs c !! p) → hunk_done cwd before after h.
Proof.
  intros Hc Hnd Hafter. destruct h as [p t|p|p m cs]; cbn [change_of hunk_done targets] in *.
  - subst. rewrite Hafter by set_solver. apply lookup_insert_eq.
  - destruct Hc as (bytes & Hb & ->). split; [done|]. rewrite Hafter by set_solver.
    apply lookup_delete_eq.
  - destruct Hc as (bytes & new & Hb & Hd & ->). exists bytes, new. split_and!; [done..|].
    destruct m as [d|]; [|rewrite Hafter by set_solver; apply lookup_insert_eq].
    apply NoDup_cons in Hnd as [Hne _]. rewrite !Hafter by set_solver. cbn.
    rewrite lookup_delete_ne, lookup_insert_eq, lookup_delete_eq; [done|set_solver].
Qed.

Lemma effects_done cwd before fs hs cs :
  Forall2 (change_of cwd before) hs cs → NoDup (hs ≫= targets cwd) →
  ∀ h, h ∈ hs → hunk_done cwd before (foldl effect fs cs) h.
Proof.
  intros Hcs. revert fs. induction Hcs as [|h c hs cs Hc Hcs IH]; intros fs Hnd h' Hh'; [set_solver|].
  cbn in Hnd. apply NoDup_app in Hnd as (Hnd1 & Hdis & Hnd2).
  apply elem_of_cons in Hh' as [->|Hh']; [|by apply IH].
  eapply effect_done; [done..|]. intros p Hp. cbn. apply effects_other.
  rewrite (notes_targets_all _ _ _ _ Hcs). by apply Hdis.
Qed.

(** The file that a notification reports, once the later changes are made. *)
Lemma notes_exact cwd before fs hs cs :
  Forall2 (change_of cwd before) hs cs → NoDup (hs ≫= targets cwd) →
  ∀ n, n ∈ (cs ≫= notes) → default [] (foldl effect fs cs !! absolute_path n) = content n.
Proof.
  intros Hcs. revert fs. induction Hcs as [|h c hs cs Hc Hcs IH]; intros fs Hnd n; [set_solver|].
  cbn in Hnd |- *. apply NoDup_app in Hnd as (Hnd1 & Hdis & Hnd2).
  rewrite elem_of_app. intros [Hn|Hn]; [|by apply IH].
  rewrite <- (notes_targets _ _ _ _ Hc) in Hdis, Hnd1.
  rewrite effects_other.
  2:{ rewrite (notes_targets_all _ _ _ _ Hcs). apply Hdis. by apply list_elem_of_fmap_2. }
  destruct c as [p t|p o|p o new|src d o new]; cbn in *; rewrite ?elem_of_cons, elem_of_nil in Hn.
  - destruct Hn as [->|[]]. cbn. by rewrite lookup_insert_eq.
  - destruct Hn as [->|[]]. cbn. by rewrite lookup_delete_eq.
  - destruct Hn as [->|[]]. cbn. by rewrite lookup_insert_eq.
  - apply NoDup_cons in Hnd1 as [Hne _]. destruct Hn as [->|[->|[]]]; cbn.
    + rewrite lookup_delete_ne, lookup_insert_eq; [done|set_solver].
    + by rewrite lookup_delete_eq.
Qed.

(** C14: a patch whose hunks touch different files and that succeeds does what it says:
    every file that is added holds the text of the hunk, every deleted file was there
    and is gone, every updated file holds the contents derived from its own, at its new
    name when it moves; no other file changes; and the notifications name the touched
    files in the order of the hunks, with the contents they then have. *)
Theorem patch_applied (cwd input : text) (w w' : World) (parsed : ParsedPatch)
    (results : list ApplyPatchFileResult) (summary : text) :
  parse_patch input = Some (inr parsed) →
  NoDup (ApplyPatch.hunks parsed ≫= targets cwd) →
  run_apply_patch cwd input w = Some (inr (Success results summary), w') →
  (∀ h, h ∈ ApplyPatch.hunks parsed → hunk_done cwd (files w) (files w') h)
  ∧ (∀ p, p ∉ (ApplyPatch.hunks parsed ≫= targets cwd) → files w' !! p = files w !! p)
  ∧ ∃ sent, notified w' = notified w ++ sent
      ∧ absolute_path <$> sent = ApplyPatch.hunks parsed ≫= targets cwd
      ∧ ∀ n, n ∈ sent → default [] (files w' !! absolute_path n) = content n.
Proof.
  intros Hp Hnd. unfold run_apply_patch. rewrite Hp. cbn [mbind option_bind].
  destruct (ApplyPatch.hunks parsed) as [|h hs]; [done|]. set (all := h :: hs) in *.
  destruct (compute_all_changes cwd all w) as [[[e|cs] w1]|] eqn:Hc; cbn [mbind option_bind]; try done.
  apply compute_all_inv in Hc as (Hf & Hn & Hcs).
  destruct (apply_changes cs w1) as [[e|rs] w2] eqn:Ha; [done|]. intros [= _ _ <-].
  apply apply_changes_inv in Ha as [Hf' Hn']. rewrite Hf in Hf'. rewrite Hn in Hn'.
  rewrite Hf'. split_and!.
  - by apply effects_done.
  - intros p Hnp. apply effects_other. by rewrite (notes_targets_all _ _ _ _ Hcs).
  - exists (cs ≫= notes). split_and!; [done|by eapply notes_targets_all|].
    by eapply notes_exact.
Qed.

End tool.
