(* ===== verification/ApplyPatchText.v ===== *)
(** * Patches as text

    The patch format has a printer: every list of well-formed hunks is read back
    from its text.  At the end, runs in which the tool departs from its
    documentation or loses data. *)

From S2P Require Import Prelude Text TextProps ToolFs ApplyPatch ApplyPatchProps.

Open Scope nat_scope.

(** ** The printer *)

Definition marked (c : ascii) (ls : list text) : list text := (λ l, c :: l) <$> ls.

Definition print_context (ctx : option text) : text :=
  match ctx with
  | None => EMPTY_CHANGE_CONTEXT_MARKER
  | Some x => CHANGE_CONTEXT_MARKER ++ x
  end.

Definition print_chunk (c : UpdateFileChunk) : list text :=
  print_context (change_context c)
  :: marked "-"%char (old_lines c) ++ marked "+"%char (new_lines c)
  ++ (if is_end_of_file c then [EOF_MARKER] else []).

Definition print_hunk (h : PatchHunk) : list text :=
  match h with
  | AddFile p contents => (ADD_FILE_MARKER ++ p) :: marked "+"%char (lines contents)
  | DeleteFile p => [DELETE_FILE_MARKER ++ p]
  | UpdateFile p m chunks =>
      (UPDATE_FILE_MARKER ++ p)
      :: match m with Some d => [MOVE_TO_MARKER ++ d] | None => [] end
      ++ concat (print_chunk <$> chunks)
  end.

Definition print_patch (hs : list PatchHunk) : text :=
  join_with [LF] (BEGIN_PATCH_MARKER :: concat (print_hunk <$> hs) ++ [END_PATCH_MARKER]).

(** ** Well-formed patches *)

(** A path for a header: trimming does not change the header. *)
Definition header_path (marker p : text) : Prop := clean_line p ∧ trim (marker ++ p) = marker ++ p.

Definition chunk_wf (c : UpdateFileChunk) : Prop :=
  (old_lines c ≠ [] ∨ new_lines c ≠ [])
  ∧ Forall clean_line (old_lines c) ∧ Forall clean_line (new_lines c)
  ∧ match change_context c with Some x => clean_line x | None => True end.

Definition hunk_wf (h : PatchHunk) : Prop :=
  match h with
  | AddFile p contents => header_path ADD_FILE_MARKER p ∧ lf_text contents
  | DeleteFile p => header_path DELETE_FILE_MARKER p
  | UpdateFile p m chunks =>
      header_path UPDATE_FILE_MARKER p ∧ chunks ≠ [] ∧ Forall chunk_wf chunks
      ∧ match m with Some d => clean_line d | None => True end
  end.

#[export] Instance clean_line_dec l : Decision (clean_line l).
Proof. unfold clean_line. apply _. Defined.
#[export] Instance lf_text_dec s : Decision (lf_text s).
Proof. unfold lf_text. apply _. Defined.
#[export] Instance header_path_dec marker p : Decision (header_path marker p).
Proof. unfold header_path. apply _. Defined.
#[export] Instance chunk_wf_dec c : Decision (chunk_wf c).
Proof. unfold chunk_wf. destruct (change_context c); apply _. Defined.
#[export] Instance hunk_wf_dec h : Decision (hunk_wf h).
Proof. destruct h as [? ?|?|? [?|] [|? ?]]; cbn; apply _. Defined.

(** ** Reading a chunk *)

Definition is_header (l : text) : bool :=
  starts_with ADD_FILE_MARKER l || starts_with DELETE_FILE_MARKER l || starts_with UPDATE_FILE_MARKER l.

(** What may follow a hunk, and a chunk. *)
Definition hunk_end (rest : list text) : Prop :=
  match rest with [] => True | l :: _ => is_header l = true end.
Definition chunk_end (rest : list text) : Prop :=
  match rest with [] => True | l :: _ => is_header l = true ∨ starts_with EMPTY_CHANGE_CONTEXT_MARKER l = true end.

Lemma is_header_star l : is_header l = true → ∃ s, l = txt "*** " ++ s ∧ l ≠ EOF_MARKER.
Proof.
  unfold is_header. rewrite !orb_true_iff, !starts_with_app.
  intros [[[s ->]|[s ->]]|[s ->]]; eexists; (split; [by rewrite <- app_assoc || cbn|done]).
Qed.

Lemma chunk_end_break n rest c k : chunk_end rest → 0 < k → chunk_lines n rest c k = inr (c, k).
Proof.
  intros He Hk. destruct rest as [|l rest]; [done|]. cbn [chunk_lines].
  destruct He as [(s & -> & Hne)%is_header_star|[s ->]%starts_with_app].
  - rewrite decide_False by done. cbn. destruct (k =? 0) eqn:E; breflect; [lia|done].
  - rewrite decide_False by done. cbn. destruct (k =? 0) eqn:E; breflect; [lia|done].
Qed.

Lemma chunk_lines_old n old rest c k :
  chunk_lines n (marked "-"%char old ++ rest) c k =
    chunk_lines n rest
      (mkChunk (change_context c) (old_lines c ++ old) (new_lines c) (is_end_of_file c)) (k + length old).
Proof.
  revert c k. induction old as [|l old IH]; intros c k.
  - cbn. rewrite app_nil_r, Nat.add_0_r. by destruct c.
  - cbn [marked fmap list_fmap app chunk_lines]. repeat (case_decide; try discriminate); try done.
    fold (marked "-"%char old). rewrite IH. cbn. by rewrite app_nil_r, <- app_assoc, Nat.add_succ_r.
Qed.

Lemma chunk_lines_new n new rest c k :
  chunk_lines n (marked "+"%char new ++ rest) c k =
    chunk_lines n rest
      (mkChunk (change_context c) (old_lines c) (new_lines c ++ new) (is_end_of_file c)) (k + length new).
Proof.
  revert c k. induction new as [|l new IH]; intros c k.
  - cbn. rewrite app_nil_r, Nat.add_0_r. by destruct c.
  - cbn [marked fmap list_fmap app chunk_lines]. repeat (case_decide; try discriminate); try done.
    fold (marked "+"%char new). rewrite IH. cbn. by rewrite app_nil_r, <- app_assoc, Nat.add_succ_r.
Qed.

Lemma print_chunk_length c : length (print_chunk c) = S (length (old_lines c) + length (new_lines c)
  + if is_end_of_file c then 1 else 0).
Proof.
  unfold print_chunk, marked. cbn. rewrite !length_app, !length_fmap. by destruct (is_end_of_file c); cbn; lia.
Qed.

Lemma parse_print_chunk c rest n b :
  chunk_wf c → chunk_end rest →
  parse_update_file_chunk (print_chunk c ++ rest) n b = inr (c, length (print_chunk c)).
Proof.
  intros (Hne & _) He. set (body := marked "-"%char (old_lines c) ++ marked "+"%char (new_lines c)
    ++ (if is_end_of_file c then [EOF_MARKER] else []) ++ rest).
  assert (print_chunk c ++ rest = print_context (change_context c) :: body) as Heq.
  { unfold print_chunk, body. cbn. by rewrite <- !app_assoc. }
  assert (0 < length (old_lines c) + length (new_lines c)) as Hlen.
  { destruct Hne as [Hne|Hne]; [destruct (old_lines c)|destruct (new_lines c)]; cbn in *; done || lia. }
  assert (chunk_lines n body (mkChunk (change_context c) [] [] false) 0
    = inr (c, length (old_lines c) + length (new_lines c) + if is_end_of_file c then 1 else 0)) as Hbody.
  { unfold body. rewrite chunk_lines_old, chunk_lines_new. cbn [change_context old_lines new_lines
      is_end_of_file app]. rewrite Nat.add_0_l. destruct (is_end_of_file c) eqn:Heof; cbn [app].
    - cbn [chunk_lines]. rewrite decide_True by done.
      destruct (_ =? 0) eqn:E; breflect; [lia|]. cbn.
      rewrite Nat.add_1_r, <- Heof. by destruct c.
    - rewrite chunk_end_break by done. rewrite Nat.add_0_r, <- Heof. by destruct c. }
  assert (1 <= length body) as Hb.
  { unfold body, marked. rewrite !length_app, !length_fmap. lia. }
  rewrite Heq. unfold parse_update_file_chunk.
  assert ((if decide (print_context (change_context c) = EMPTY_CHANGE_CONTEXT_MARKER) then
             inr (None, 1)
           else match text_strip_prefix CHANGE_CONTEXT_MARKER (print_context (change_context c)) with
                | Some context => inr (Some context, 1)
                | None =>
                    if b then inr (None, 0)
                    else inl (InvalidHunkError
                      (txt "Expected update hunk to start with a @@ context marker, got: "
                       ++ in_quotes (print_context (change_context c))) n)
                end) = inr (change_context c, 1)) as ->.
  { unfold print_context. destruct (change_context c) as [x|]; [|done].
    rewrite decide_False by done. by rewrite text_strip_prefix_app. }
  cbn [length]. destruct (S (length body) <=? 1) eqn:E; breflect; [lia|]. cbn [drop].
  rewrite drop_0, Hbody, print_chunk_length. do 2 f_equal. lia.
Qed.

(** ** Reading a hunk *)

Lemma print_context_at ctx : ∃ s, print_context ctx = "@"%char :: "@"%char :: s.
Proof. destruct ctx; by eexists. Qed.

Lemma context_not_blank ctx : trim (print_context ctx) ≠ [].
Proof.
  destruct (print_context_at ctx) as [s ->]. apply trim_not_empty; [|done].
  intros c. rewrite chars_cons_new by done. by intros [= <-].
Qed.

Lemma chunks_end cs rest : hunk_end rest → chunk_end (concat (print_chunk <$> cs) ++ rest).
Proof.
  intros He. destruct cs as [|c cs].
  - destruct rest; [done|]. by left.
  - right. apply starts_with_app. destruct (print_context_at (change_context c)) as [s ->]. by eexists.
Qed.

Lemma parse_print_chunks cs rest fuel n acc k :
  Forall chunk_wf cs → hunk_end rest → length (concat (print_chunk <$> cs) ++ rest) <= fuel →
  parse_chunks fuel n (concat (print_chunk <$> cs) ++ rest) acc k
  = Some (inr (acc ++ cs, k + length (concat (print_chunk <$> cs)))).
Proof.
  intros Hwf He. revert fuel acc k. induction Hwf as [|c cs Hc Hcs IH]; intros fuel acc k Hf.
  - cbn in *. rewrite app_nil_r, Nat.add_0_r. destruct rest as [|l rest], fuel as [|fuel]; try done.
    { cbn in Hf. lia. }
    cbn [parse_chunks]. destruct (is_header_star l He) as (s & -> & _).
    rewrite decide_False; [done|]. apply trim_not_empty; [|done].
    intros x. cbn [txt String.list_ascii_of_string app]. rewrite chars_cons_new by done. by intros [= <-].
  - cbn [fmap list_fmap concat] in *. rewrite <- app_assoc in *.
    assert (∃ body, print_chunk c = print_context (change_context c) :: body) as [body Hb] by by eexists.
    destruct fuel as [|fuel]; [rewrite Hb in Hf; cbn in Hf; lia|].
    rewrite Hb at 1. cbn [app parse_chunks]. rewrite decide_False by apply context_not_blank.
    destruct (starts_with (txt "***") (print_context (change_context c))) eqn:Hs.
    { apply starts_with_app in Hs as [s Hs]. destruct (print_context_at (change_context c)) as [s' Hs'].
      rewrite Hs' in Hs. discriminate. }
    change (print_context (change_context c) :: body ++ ?x) with ((print_context (change_context c) :: body) ++ x).
    rewrite <- Hb, parse_print_chunk by (done || by apply chunks_end).
    rewrite drop_app_length, IH.
    + rewrite <- app_assoc, length_app, Nat.add_assoc. done.
    + rewrite length_app in Hf. rewrite Hb in Hf. cbn in Hf. lia.
Qed.

Lemma added_print ls rest :
  hunk_end rest → added_lines (marked "+"%char ls ++ rest) = (unlines ls, length ls).
Proof.
  intros He. induction ls as [|l ls IH].
  - destruct rest as [|l rest]; [done|]. cbn. destruct (is_header_star l He) as (s & -> & _). done.
  - cbn [marked fmap list_fmap app added_lines].
    assert (text_strip_prefix (txt "+") ("+"%char :: l) = Some l) as -> by done.
    fold (marked "+"%char ls). rewrite IH, unlines_cons. by rewrite <- app_assoc.
Qed.

Lemma parse_print_hunk h rest n :
  hunk_wf h → hunk_end rest →
  parse_one_hunk (print_hunk h ++ rest) n = Some (inr (h, length (print_hunk h))).
Proof.
  intros Hwf He. destruct h as [p contents|p|p m chunks]; cbn [hunk_wf] in Hwf.
  - destruct Hwf as [[_ Ht] Hlf]. cbn [print_hunk app parse_one_hunk].
    rewrite Ht, text_strip_prefix_app, added_print by done.
    destruct (lf_text_lines contents Hlf) as [_ ->]. cbn. unfold marked. by rewrite length_fmap.
  - destruct Hwf as [_ Ht]. cbn [print_hunk app parse_one_hunk]. rewrite Ht.
    assert (text_strip_prefix ADD_FILE_MARKER (DELETE_FILE_MARKER ++ p) = None) as -> by done.
    by rewrite text_strip_prefix_app.
  - destruct Hwf as ([_ Ht] & Hne & Hcs & _). cbn [print_hunk app parse_one_hunk]. rewrite Ht.
    assert (text_strip_prefix ADD_FILE_MARKER (UPDATE_FILE_MARKER ++ p) = None) as -> by done.
    assert (text_strip_prefix DELETE_FILE_MARKER (UPDATE_FILE_MARKER ++ p) = None) as -> by done.
    rewrite text_strip_prefix_app. destruct m as [d|]; cbn [app].
    + cbn [head mbind option_bind]. rewrite text_strip_prefix_app. cbn [drop]. rewrite drop_0.
      rewrite parse_print_chunks by (done || lia). cbn [app].
      destruct chunks as [|c cs]; [done|]. by rewrite length_cons.
    + assert (head (concat (print_chunk <$> chunks) ++ rest) ≫= text_strip_prefix MOVE_TO_MARKER = None) as ->.
      { destruct chunks as [|c cs]; [done|]. cbn. by destruct (change_context c). }
      rewrite parse_print_chunks by (done || lia). cbn [app].
      destruct chunks as [|c cs]; [done|]. done.
Qed.

Lemma print_hunk_header h rest : hunk_end (print_hunk h ++ rest).
Proof.
  destruct h as [p c|p|p m cs]; cbn [print_hunk app hunk_end]; unfold is_header;
    rewrite !orb_true_iff, !starts_with_app; eauto.
Qed.

Lemma hunks_end hs : hunk_end (concat (print_hunk <$> hs)).
Proof. destruct hs as [|h hs]; [done|]. apply print_hunk_header. Qed.

Lemma parse_print_hunks hs fuel n acc :
  Forall hunk_wf hs → length (concat (print_hunk <$> hs)) <= fuel →
  parse_hunks fuel (concat (print_hunk <$> hs)) n acc = Some (inr (acc ++ hs)).
Proof.
  intros Hwf. revert fuel n acc. induction Hwf as [|h hs Hh Hhs IH]; intros fuel n acc Hf.
  - cbn. rewrite app_nil_r. by destruct fuel.
  - cbn [fmap list_fmap concat] in *.
    assert (∃ l body, print_hunk h = l :: body) as (l & body & Hb) by (destruct h; by eexists _, _).
    destruct fuel as [|fuel]; [rewrite Hb in Hf; cbn in Hf; lia|].
    destruct (print_hunk h ++ concat (print_hunk <$> hs)) as [|x xs] eqn:Heq.
    { by rewrite Hb in Heq. }
    cbn [parse_hunks]. rewrite <- Heq, parse_print_hunk by (done || apply hunks_end).
    rewrite drop_app_length, IH.
    + by rewrite <- app_assoc.
    + rewrite <- Heq, length_app, Hb in Hf. cbn in Hf. lia.
Qed.

(** ** The whole patch *)

Lemma clean_app a b : clean_line a → clean_line b → clean_line (a ++ b).
Proof. unfold clean_line. set_solver. Qed.

(** A literal without line ends. *)
Lemma clean_literal s : bool_decide (LF ∉ s ∧ CR ∉ s) = true → clean_line s.
Proof. by rewrite bool_decide_eq_true. Qed.

Ltac clean_text := first [apply clean_literal; by vm_compute | apply clean_app; [clean_text|done]].

Lemma clean_marked c ls :
  c ≠ LF → c ≠ CR → Forall clean_line ls → Forall clean_line (marked c ls).
Proof.
  intros ? ? Hls. apply Forall_fmap. eapply Forall_impl; [done|]. unfold clean_line. set_solver.
Qed.

Lemma clean_chunk c : chunk_wf c → Forall clean_line (print_chunk c).
Proof.
  intros (_ & Ho & Hn & Hctx). unfold print_chunk. constructor.
  { unfold print_context. destruct (change_context c); clean_text. }
  rewrite !Forall_app. split_and!; [by apply clean_marked..|].
  destruct (is_end_of_file c); repeat constructor; clean_text.
Qed.

Lemma clean_concat {A} (f : A → list text) (P : A → Prop) l :
  (∀ x, P x → Forall clean_line (f x)) → Forall P l → Forall clean_line (concat (f <$> l)).
Proof. intros Hf. induction 1 as [|x l Hx _ IH]; cbn; [constructor|]. apply Forall_app. auto. Qed.

Lemma clean_hunk h : hunk_wf h → Forall clean_line (print_hunk h).
Proof.
  destruct h as [p c|p|p m cs]; cbn [hunk_wf print_hunk].
  - intros [[Hp _] Hlf]. constructor; [clean_text|]. apply clean_marked; [done..|].
    by apply lf_text_lines.
  - intros [Hp _]. constructor; [clean_text|constructor].
  - intros ([Hp _] & _ & Hcs & Hm). constructor; [clean_text|]. apply Forall_app. split.
    + destruct m; constructor; [clean_text|constructor].
    + by apply (clean_concat _ chunk_wf); [apply clean_chunk|].
Qed.

Lemma join_with_last sep ls c s :
  last ls = Some (s ++ [c]) → ∃ s', join_with sep ls = s' ++ [c].
Proof.
  induction ls as [|l ls IH]; [done|]. destruct ls as [|l' ls].
  - intros [= ->]. by exists s.
  - intros [s' Hs']%IH. exists (l ++ sep ++ s').
    change (join_with sep (l :: l' :: ls)) with (l ++ sep ++ join_with sep (l' :: ls)).
    by rewrite Hs', <- !app_assoc.
Qed.

(** C20: the parser of patches reads back every list of hunks from its text: paths that
    have no blank at an end, and chunks with a context line or none, at least one line,
    and lines of clean text. *)
Theorem patch_roundtrip (hs : list PatchHunk) :
  Forall hunk_wf hs → parse_patch (print_patch hs) = Some (inr (mkParsed hs (print_patch hs))).
Proof.
  intros Hwf. set (inner := concat (print_hunk <$> hs)).
  set (all := BEGIN_PATCH_MARKER :: inner ++ [END_PATCH_MARKER]).
  assert (last all = Some END_PATCH_MARKER) as Hlast by (unfold all; rewrite app_comm_cons; apply last_snoc).
  assert (lines (print_patch hs) = all) as Hlines.
  { apply lines_join; [|fold inner; fold all; by rewrite Hlast]. constructor; [clean_text|].
    apply Forall_app. split; [|repeat constructor; clean_text].
    by apply (clean_concat _ hunk_wf); [apply clean_hunk|]. }
  assert (trim (print_patch hs) = print_patch hs) as Htrim.
  { apply trim_solid.
    - intros c. unfold print_patch. fold inner.
      assert (∃ s, join_with [LF] (BEGIN_PATCH_MARKER :: inner ++ [END_PATCH_MARKER])
        = "*"%char :: "*"%char :: s) as [s ->].
      { destruct inner; cbn; eauto. }
      rewrite chars_cons_new by done. by intros [= <-].
    - intros c. destruct (join_with_last [LF] all "h"%char (txt "*** End Patc") Hlast) as [s Hs].
      unfold print_patch. fold inner all. rewrite Hs, chars_snoc, last_snoc by done. by intros [= <-]. }
  unfold parse_patch. rewrite Htrim, Hlines. cbn zeta.
  assert (check_patch_boundaries_strict all = None) as ->.
  { unfold check_patch_boundaries_strict. rewrite Hlast. by vm_compute. }
  assert (take (length all - 2) (drop 1 all) = inner) as ->.
  { unfold all. cbn [drop length]. rewrite drop_0, length_app. cbn [length].
    replace (S (length inner + 1) - 2) with (length inner) by lia. apply take_app_length. }
  unfold inner at 2. rewrite parse_print_hunks by done. done.
Qed.

Definition demo_chunk : UpdateFileChunk :=
  mkChunk (Some (txt "fn main() {")) [txt "    old();"] [txt "    new();"; []] false.
Definition demo_hunks : list PatchHunk :=
  [AddFile (txt "a.rs") (txtln "one" ++ txtln "two"); DeleteFile (txt "b.rs");
   UpdateFile (txt "c.rs") (Some (txt "d.rs")) [demo_chunk; mkChunk None [txt "x"] [] true]].

Lemma patch_roundtrip_witness :
  parse_patch (print_patch demo_hunks) = Some (inr (mkParsed demo_hunks (print_patch demo_hunks))).
Proof.
  apply patch_roundtrip. apply (bool_decide_unpack _). by vm_compute.
Defined.

(** ** Runs of the tool *)

(** A file system that never fails. *)
Definition demo_fs : FsErrors := {| fs_error := λ _ _, None; fs_partial _ _ := None; not_found := txt "not found" |}.

Definition demo_world : World :=
  mkWorld (list_to_map [(txt "/w/b.rs", txtln "gone");
                        (txt "/w/c.rs", txtln "fn main() {" ++ txtln "    old();" ++ txtln "x")]) 0 [].

Definition demo_run : option ((text + ApplyPatchOutput) * World) :=
  @run_apply_patch demo_fs (txt "/w") (print_patch demo_hunks) demo_world.

Definition demo_after : World := match demo_run with Some (_, w) => w | None => demo_world end.
Definition demo_results : list ApplyPatchFileResult :=
  match demo_run with Some (inr (Success rs _), _) => rs | _ => [] end.

Lemma patch_applied_witness :
  files demo_after !! txt "/w/a.rs" = Some (txtln "one" ++ txtln "two")
  ∧ files demo_after !! txt "/w/d.rs" = Some (txtln "fn main() {" ++ txtln "    new();")
  ∧ ∀ h, h ∈ demo_hunks → hunk_done (txt "/w") (files demo_world) (files demo_after) h.
Proof.
  split_and!; [by vm_compute..|].
  refine (proj1 (@patch_applied demo_fs (txt "/w") (print_patch demo_hunks) demo_world demo_after
    (mkParsed demo_hunks (print_patch demo_hunks)) demo_results (build_summary demo_results) _ _ _)).
  - by vm_compute.
  - apply (bool_decide_unpack _). by vm_compute.
  - by vm_compute.
Defined.

Lemma patch_derivation_exact_witness :
  ∃ out rs, derive_new_contents (txtln "a" ++ txtln "b" ++ txtln "c") (txt "f")
              [mkChunk None [txt "b "] [txt "B"] false; mkChunk None [] [txt "d"] false] = Some (inr out)
    ∧ rs = [mkRep 1 1 [txt "B"]; mkRep 3 0 [txt "d"]]
    ∧ ∃ rs', placed (content_lines (txtln "a" ++ txtln "b" ++ txtln "c")) 0
              [mkChunk None [txt "b "] [txt "B"] false; mkChunk None [] [txt "d"] false] rs'.
Proof.
  eexists _, _. split_and!; [by vm_compute|done|].
  destruct (proj1 (patch_derivation_exact (txtln "a" ++ txtln "b" ++ txtln "c") (txt "f")
    [mkChunk None [txt "b "] [txt "B"] false; mkChunk None [] [txt "d"] false])
    (txtln "a" ++ txtln "B" ++ txtln "c" ++ txtln "d")) as (rs & Hp & _).
  - by vm_compute.
  - by repeat constructor.
  - by vm_compute.
  - by exists rs.
Defined.

(** *** Departures *)

Definition one_file (c : text) : World := mkWorld {[ txt "/w/f" := c ]} 0 [].
Definition final_file (hs : list PatchHunk) (w : World) : option text :=
  match @run_apply_patch demo_fs (txt "/w") (print_patch hs) w with
  | Some (inr (Success _ _), w) => files w !! txt "/w/f"
  | _ => Some (txt "error")
  end.
Definition edit_chunk (o n : string) : UpdateFileChunk := mkChunk None [txt o] [txt n] false.

(** Every hunk is computed from the file before the patch: of two hunks for one
    file the first is lost, although the run reports success for both. *)
Example second_update_overwrites :
  final_file [UpdateFile (txt "f") None [edit_chunk "a" "A"]; UpdateFile (txt "f") None [edit_chunk "b" "B"]]
    (one_file (txtln "a" ++ txtln "b"))
  = Some (txtln "a" ++ txtln "B").
Proof. by vm_compute. Qed.

(** A file that is moved to its own path is written and then deleted. *)
Example move_onto_itself_deletes :
  final_file [UpdateFile (txt "f") (Some (txt "f")) [edit_chunk "a" "A"]] (one_file (txtln "a")) = None.
Proof. by vm_compute. Qed.

(** A blank line at the end of a file is lost by an edit elsewhere. *)
Example trailing_blank_line_lost :
  derive_new_contents (txtln "a" ++ txtln "b" ++ [LF]) (txt "f") [edit_chunk "a" "A"]
  = Some (inr (txtln "A" ++ txtln "b")).
Proof. by vm_compute. Qed.

(** Lines that are added before a blank last line are removed again by a chunk
    that replaces that line. *)
Example addition_removed_again :
  derive_new_contents (txtln "a" ++ [LF]) (txt "f")
    [mkChunk None [] [txt "x"] false; mkChunk None [txt "a"; []] [txt "b"] false]
  = Some (inr (txtln "b")).
Proof. by vm_compute. Qed.

(** A chunk for the end of the file is looked for nowhere else. *)
Example end_of_file_no_fallback :
  seek_sequence [txt "a"; txt "b"; txt "c"] [txt "a"] 0 true = None
  ∧ seek_sequence [txt "a"; txt "b"; txt "c"] [txt "a"] 0 false = Some 0.
Proof. by vm_compute. Qed.

(** A second context line is refused, and lines added below a context go to the
    end of the file. *)
Example contexts_do_not_nest :
  (∃ m n, parse_update_file_chunk [txt "@@ class A"; txt "@@ def f"; txt "-x"; txt "+y"] 3 true
          = inl (InvalidHunkError m n))
  ∧ derive_new_contents (txtln "a" ++ txtln "b") (txt "f") [mkChunk (Some (txt "a")) [] [txt "x"] false]
    = Some (inr (txtln "a" ++ txtln "b" ++ txtln "x")).
Proof. split; [by eexists _, _; vm_compute|by vm_compute]. Qed.

(** Adding a file that exists replaces it, and is reported as a new file. *)
Example added_file_overwrites :
  match @run_apply_patch demo_fs (txt "/w") (print_patch [AddFile (txt "f") (txtln "new")])
          (one_file (txtln "old")) with
  | Some (_, w) => files w !! txt "/w/f" = Some (txtln "new")
                   ∧ notified w = [mkWritten (txt "/w/f") (txtln "new") None true]
  | None => False
  end.
Proof. by vm_compute. Qed.
