(* ===== verification/SearchReplace.v ===== *)
(** * The search-and-replace tool

    [ds-tools/src/implementations/ds_build/search_replace]: the search for the text
    to replace, exactly or up to typographic characters, the replacement with the
    details of every edit ([helpers.rs], [util/unicode_confusables.rs]), and the tool
    itself ([mod.rs]).  A panic, an arithmetic underflow included, is [None].

    The path is resolved before; the names that the client gives to tools and
    parameters, the message for a missing file and the shell tools that are installed
    are parameters. *)

From S2P Require Import Prelude Text Utf8 Truncate ToolFs.

Open Scope nat_scope.

(** ** util/unicode_confusables.rs *)

Definition CONFUSABLE_MAP : list (N * text) :=
  [(8220, [ascii_of_nat 34]); (8221, [ascii_of_nat 34]); (8216, txt "'"); (8217, txt "'");
   (8212, txt "--"); (8211, txt "-"); (8230, txt "..."); (160, txt " ")]%N.

Definition lookup_confusable (c : text) : option text :=
  snd <$> find_b (λ p, N.eqb p.1 (code_point c)) CONFUSABLE_MAP.

Definition has_confusables (s : text) : bool :=
  any_b (λ c, bool_decide (is_Some (lookup_confusable c))) (chars s).

Definition normalize_char (c : text) : text := default c (lookup_confusable c).

Definition normalize_confusables (s : text) : text := concat (normalize_char <$> chars s).

(** The characters from offset [o] on: their normal form and, for each of its bytes
    and for its end, the offset it comes from. *)
Fixpoint offset_map_from (o : nat) (cs : list text) : text * list nat :=
  match cs with
  | [] => ([], [o])
  | c :: cs' =>
      let '(normalized, offset_map) := offset_map_from (o + length c) cs' in
      match lookup_confusable c with
      | Some replacement =>
          (replacement ++ normalized, replicate (length replacement) o ++ offset_map)
      | None => (c ++ normalized, seq o (length c) ++ offset_map)
      end
  end.

Record ConfusableHit := mkHit {
  byte_offset : nat;
  unicode_char : text;
  ascii_replacement : text;
  line_number : nat;
}.

(** The loop over the characters from byte [o] and line [line] on. *)
Fixpoint detect_from (o line : nat) (cs : list text) : list ConfusableHit :=
  match cs with
  | [] => []
  | c :: cs' =>
      let rest := detect_from (o + length c) (if decide (c = [LF]) then S line else line) cs' in
      match lookup_confusable c with
      | Some replacement => mkHit o c replacement line :: rest
      | None => rest
      end
  end.

Definition detect_confusables (s : text) : list ConfusableHit := detect_from 0 1 (chars s).

Definition build_offset_map (s : text) : text * list nat := offset_map_from 0 (chars s).

(** ** helpers.rs *)

Record LineRange := mkRange { start_line : nat; end_line : nat }.

Definition count_lf (s : text) : nat := length (filter_b (λ c, bool_decide (c = LF)) s).

Definition compute_line_range (t : text) (start_pos : nat) (inserted_text : text) : option LineRange :=
  before ← slice t 0 start_pos;
  let start_line := count_lf before in
  let lines_in_inserted := Nat.max (length (split_inclusive inserted_text)) 1 in
  Some (mkRange start_line (start_line + lines_in_inserted - 1)).

(** [&lines[a..b]], which panics out of range. *)
Definition list_slice {A} (l : list A) (a b : nat) : option (list A) :=
  if (a <=? b) && (b <=? length l) then Some (take (b - a) (drop a l)) else None.

Definition ARROW : text := [ascii_of_nat 226; ascii_of_nat 134; ascii_of_nat 146].

(** The snippet with its line numbers, and the lines before and after the edit. *)
Definition render_snippet (new_text new_string : text) (start_pos context_size : nat)
    : option (text * text * text) :=
  range ← compute_line_range new_text start_pos new_string;
  let lines := split_inclusive new_text in
  let snippet_start := start_line range - context_size in
  let snippet_end := Nat.min (end_line range + context_size) (length lines - 1) in
  before_context ←
    (if snippet_start <? start_line range
     then @concat ascii <$> list_slice lines snippet_start (start_line range) else Some []);
  after_context ←
    (if end_line range <? snippet_end
     then @concat ascii <$> list_slice lines (end_line range + 1) (snippet_end + 1) else Some []);
  if snippet_end <? snippet_start then None
  else
    let numbered := imap (λ i line, show_Z (Z.of_nat (i + 1)) ++ ARROW ++ line) lines in
    Some (concat (take (snippet_end - snippet_start + 1) (drop snippet_start numbered)),
          before_context, after_context).

(** The loop with the text so far and the end of the last occurrence. *)
Fixpoint replace_loop (t : text) (spans : list (nat * nat)) (new_string new_text : text)
    (last_end : nat) : option (text * list nat) :=
  match spans with
  | [] => rest ← slice t last_end (length t); Some (new_text ++ rest, [])
  | (pos, len) :: spans =>
      kept ← slice t last_end pos;
      let new_text := new_text ++ kept in
      '(out, positions) ← replace_loop t spans new_string (new_text ++ new_string) (pos + len);
      Some (out, length new_text :: positions)
  end.

Definition replace_using_positions (t : text) (match_positions : list nat)
    (old_string new_string : text) : option (text * list nat) :=
  replace_loop t ((λ p, (p, length old_string)) <$> match_positions) new_string [] 0.

Record NormalizedMatch := mkMatch { original_start : nat; original_len : nat }.

Inductive NormalizedMatchResult :=
| NoMatch
| Matches (ms : list NormalizedMatch)
| Ambiguous.

(** One candidate: its span in the text, if it is valid. *)
Definition validate_candidate (t norm_pattern : text) (offset_map : list nat) (norm_start : nat)
    : option (option NormalizedMatch) :=
  orig_start ← offset_map !! norm_start;
  orig_end ← offset_map !! (norm_start + length norm_pattern);
  if orig_end <=? orig_start then Some None
  else
    orig_slice ← slice t orig_start orig_end;
    if decide (normalize_confusables orig_slice = norm_pattern)
    then Some (Some (mkMatch orig_start (orig_end - orig_start)))
    else Some None.

(** Two neighbours overlap. *)
Fixpoint any_overlap (ms : list NormalizedMatch) : bool :=
  match ms with
  | a :: ((b :: _) as rest) =>
      (original_start b <? original_start a + original_len a) || any_overlap rest
  | _ => false
  end.

Definition find_normalized_match_positions (t pattern : text) : option NormalizedMatchResult :=
  let '(norm_text, offset_map) := build_offset_map t in
  let norm_pattern := normalize_confusables pattern in
  match norm_pattern with
  | [] => Some NoMatch
  | _ =>
      candidates ←
        mapM (validate_candidate t norm_pattern offset_map) (match_indices norm_pattern norm_text);
      let validated := omap id candidates in
      Some match validated with
           | [] => if bool_decide (candidates = []) then NoMatch else Ambiguous
           | _ => if any_overlap validated then Ambiguous else Matches validated
           end
  end.

Definition replace_normalized_matches (t : text) (matches : list NormalizedMatch) (new_string : text)
    : option (text * list nat) :=
  replace_loop t ((λ m, (original_start m, original_len m)) <$> matches) new_string [] 0.

Record SearchReplaceEditDetail := mkDetail {
  d_old_string : text;
  old_line : nat;
  d_new_string : text;
  new_line : nat;
  context_before : text;
  context_after : text;
  line_prefix : text;
}.

(** The offset behind the last line feed. *)
Fixpoint line_start_from (i start : nat) (s : text) : nat :=
  match s with
  | [] => start
  | c :: s' => line_start_from (S i) (if decide (c = LF) then S i else start) s'
  end.

Definition build_edit_detail (new_text old_string new_string : text) (context_lines start_pos : nat)
    : option SearchReplaceEditDetail :=
  '(_, context_before, context_after) ← render_snippet new_text new_string start_pos context_lines;
  line_range_new ← compute_line_range new_text start_pos new_string;
  before ← slice new_text 0 start_pos;
  line_prefix ← slice new_text (line_start_from 0 0 before) start_pos;
  Some (mkDetail old_string (start_line line_range_new + 1) new_string
          (start_line line_range_new + 1) context_before context_after line_prefix).

Definition build_edit_details (new_text old_string new_string : text) (new_positions : list nat)
    (context_lines : nat) : option (list SearchReplaceEditDetail) :=
  mapM (build_edit_detail new_text old_string new_string context_lines) new_positions.

(** ** mod.rs *)

Definition CONTEXT_LINES : nat := 3.
Definition NAME_MAX : nat := 255.

Record SearchReplaceInput := mkInput {
  file_path : text;
  old_string : text;
  new_string : text;
  replace_all : bool;
}.

Record SearchReplaceParams := mkParams {
  empty_old_string_does_not_override : bool;
  unicode_normalized_fallback : bool;
  include_user_edit_hint : bool;
}.

Record SearchReplaceEditsApplied := mkApplied {
  a_old_string : text;
  a_new_string : text;
  tool_output_for_prompt : text;
  tool_output_for_prompt_concise : option text;
  a_absolute_path : text;
  details : list SearchReplaceEditDetail;
  unicode_normalized : bool;
}.

Inductive SearchReplaceOutput :=
| EditsApplied (a : SearchReplaceEditsApplied)
| InvalidInput (m : text)
| FilenameTooLong (m : text)
| FileNotFound (m : text)
| FileAlreadyExists (m : text)
| NoMatchesFound (m path : text)
| MultipleMatchesFound (m : text).

(** The shell tools that were found on the path. *)
Record QueryTools := mkTools {
  jq : option text;
  python : option text;
  sed : option text;
  cut_tool : option text;
}.

(** The renderer of client-facing names, the message for a missing file, and the shell
    tools that the process detected. *)
Class EditEnv := {
  render : text → text + text;
  format_not_found_error : text → text;
  detected : QueryTools;
}.

Definition wrap_tools (tools : list (option text)) : list text :=
  (λ t, txt "`" ++ t ++ txt "`") <$> omap id tools.

Definition edit_tools (t : QueryTools) : list text := wrap_tools [python t; sed t].

Definition examples_clause (tools : list text) : text :=
  match tools with
  | [] => []
  | [a] => txt " (e.g. " ++ a ++ txt ")"
  | [a; b] => txt " (e.g. " ++ a ++ txt " or " ++ b ++ txt ")"
  | _ => txt " (e.g. " ++ join_with (txt ", ") (take (length tools - 1) tools) ++ txt ", or "
         ++ default [] (last tools) ++ txt ")"
  end.

(** The first line of the file with the longest word of the first line of the old
    string. *)
Definition build_nearest_match_hint (file old_string : text) : option text :=
  let keyword := default [] (max_by_key length (split_whitespace (default [] (head (lines old_string))))) in
  if decide (keyword = []) then Some []
  else
    match find_b (λ p, contains p.2 keyword) (imap pair (lines file)) with
    | Some (i, l) =>
        truncate_str_with_marker
          ([LF; LF] ++ txt "Nearest match: line " ++ show_Z (Z.of_nat (i + 1)) ++ txt ": " ++ trim_end l)
          (Z.to_nat 200)
    | None => Some []
    end.

Definition MAX_LISTED_LINES : nat := 8.

(** [Vec::dedup]. *)
Fixpoint dedup_nat (l : list nat) : list nat :=
  match l with
  | a :: ((b :: _) as rest) => if decide (a = b) then dedup_nat rest else a :: dedup_nat rest
  | _ => l
  end.

Definition listed_lines (affected_lines : list nat) : text :=
  let show := λ n, show_Z (Z.of_nat n) in
  if length affected_lines <=? MAX_LISTED_LINES then join_with (txt ", ") (show <$> affected_lines)
  else join_with (txt ", ") (show <$> take MAX_LISTED_LINES affected_lines)
       ++ txt " (and " ++ show (length affected_lines - MAX_LISTED_LINES) ++ txt " more)".

Definition confusable_message (tools : QueryTools) (affected_lines : list nat)
    (read_tool_name old_string_param execute_tool_name : text) : text :=
  let read_qualifier :=
    match read_tool_name with [] => [] | _ => txt " in " ++ read_tool_name ++ txt " output" end in
  let old_string_param := match old_string_param with [] => txt "old_string" | p => p end in
  let terminal_fallback :=
    match edit_tools tools, execute_tool_name with
    | [], _ | _, [] => []
    | tools, execute => txt ", or use " ++ execute ++ txt " with a short script" ++ examples_clause tools
                        ++ txt " to edit the file directly"
    end in
  [LF; LF] ++ txt "The nearest matching region contains Unicode typography characters (smart quotes, em-dashes, etc.) on lines "
  ++ listed_lines affected_lines ++ txt " that look identical to ASCII" ++ read_qualifier
  ++ txt " but differ at the byte level. Re-read the file and use a shorter " ++ old_string_param
  ++ txt " anchored on nearby ASCII-only context" ++ terminal_fallback ++ txt ".".

(** The hint, [Some None] without one. *)
Definition build_confusable_hint (file old_string : text) (tools : QueryTools)
    (read_tool_name old_string_param execute_tool_name : text) : option (option text) :=
  if negb (has_confusables file) then Some None
  else
    let '(norm_file, offset_map) := build_offset_map file in
    let norm_old := normalize_confusables old_string in
    match find_text norm_old norm_file with
    | None => Some None
    | Some norm_start =>
        orig_start ← offset_map !! norm_start;
        orig_end ← offset_map !! (norm_start + length norm_old);
        before ← slice file 0 orig_start;
        through ← slice file 0 orig_end;
        let match_start_line := count_lf before + 1 in
        let match_end_line := count_lf through + 1 in
        let affected_lines :=
          dedup_nat (line_number <$> filter_b (λ h, (match_start_line <=? line_number h)
            && (line_number h <=? match_end_line)) (detect_confusables file)) in
        Some (if bool_decide (affected_lines = []) then None
              else Some (confusable_message tools affected_lines read_tool_name old_string_param
                           execute_tool_name))
    end.

(** The names of a path: [Component::Normal]. *)
Definition path_names (p : text) : list text :=
  filter_b (λ c, negb (bool_decide (c ∈ [[]; txt "."; txt ".."]))) (split_on "/"%char p).

Definition validate_path_length (p : text) : option SearchReplaceOutput :=
  match find_b (λ name, NAME_MAX <? length name) (path_names p) with
  | Some name =>
      Some (FilenameTooLong
        (txt "Error: file name exceeds the 255-character limit (" ++ show_Z (Z.of_nat (length name))
         ++ txt " characters). Please use a shorter file name."))
  | None => None
  end.

(** Line ends of Windows. *)
Definition from_crlf (s : text) : text := replace_pair CR LF [LF] s.
Definition to_crlf (s : text) : text := replace_char LF [CR; LF] s.

Section tool.
Context `{FsErrors} `{EditEnv}.

(** A result of the tool, or the error of the runtime. *)
Definition outcome := ((text + SearchReplaceOutput) * World)%type.

(** The template, or the error of the renderer. *)
Definition with_name (template : string) (w : World) (k : text → SearchReplaceOutput) : outcome :=
  match render (txt template) with
  | inl e => (inl e, w)
  | inr name => (inr (k name), w)
  end.

Definition write_failed (creating : bool) (input : SearchReplaceInput) (e : ComputerError)
    : SearchReplaceOutput :=
  match io_error_kind e with
  | Some NotFound =>
      if creating then FileNotFound (format_not_found_error (file_path input))
      else InvalidInput (txt "Error: failed to write " ++ file_path input ++ txt ": " ++ error_text e)
  | Some AlreadyExists =>
      InvalidInput
        ((if creating then txt "Error: cannot create " else txt "Error: cannot write ") ++ file_path input
         ++ txt ". A component of the path already exists as a file where a directory is expected.")
  | Some InvalidFilename =>
      FilenameTooLong
        (txt "Error: file name exceeds the 255-character limit. Please use a shorter file name.")
  | _ => InvalidInput (txt "Error: failed to write " ++ file_path input ++ txt ": " ++ error_text e)
  end.

Definition handle_new_file_creation (input : SearchReplaceInput) (params : SearchReplaceParams)
    (path : text) (w : World) : outcome :=
  let '(r, w) := read_file path w in
  let file_exists := match r with inr bytes => negb (bool_decide (bytes = [])) | inl _ => false end in
  let '(r, w) := read_file path w in
  let old_text := match r with inr bytes => Some (from_utf8_lossy bytes) | inl _ => None end in
  if file_exists && empty_old_string_does_not_override params then
    with_name "${{ params.edit.old_string }}" w (λ name,
      FileAlreadyExists
        (name ++ txt " is empty, which is only allowed when creating a new file or when the file is empty."))
  else
    let '(e, w) := write_file path (new_string input) w in
    match e with
    | Some e => (inr (write_failed true input e), w)
    | None =>
        let w :=
          match old_text with
          | Some old =>
              if file_exists && empty_old_string_does_not_override params
              then notify (mkWritten path (new_string input) (Some old) false) w
              else notify (mkWritten path (new_string input) None true) w
          | None => notify (mkWritten path (new_string input) None true) w
          end in
        (inr (EditsApplied (mkApplied (old_string input) (new_string input)
           (txt "The file " ++ file_path input ++ txt " has been created successfully.")
           (Some (txt "The file " ++ file_path input ++ txt " has been created."))
           path [mkDetail (old_string input) 1 (new_string input) 1 [] [] []] false)), w)
    end.

Definition read_failed (input : SearchReplaceInput) (e : ComputerError) : text + SearchReplaceOutput :=
  match io_error_kind e with
  | Some NotFound => inr (FileNotFound (format_not_found_error (file_path input)))
  | Some IsADirectory =>
      inr (InvalidInput (txt "Error: " ++ file_path input ++ txt " is a directory, not a file."))
  | Some InvalidFilename =>
      inr (FilenameTooLong
        (txt "Error: file name exceeds the 255-character limit. Please use a shorter file name."))
  | Some PermissionDenied =>
      inr (InvalidInput (txt "Error: permission denied reading " ++ file_path input ++ txt "."))
  | _ => inl (error_text e)
  end.

(** The search: the positions, and whether the fallback found them, or the answer
    that ends the call. *)
Definition search (input : SearchReplaceInput) (params : SearchReplaceParams) (match_text : text)
    (w : World) : option (outcome + (list nat * bool)) :=
  match match_indices (old_string input) match_text with
  | [] =>
      if unicode_normalized_fallback params then
        r ← find_normalized_match_positions match_text (old_string input);
        Some match r with
             | Matches ms =>
                 if (1 <? length ms) && negb (replace_all input) then
                   inl (with_name "${{ params.edit.replace_all }}" w (λ name,
                     MultipleMatchesFound
                       (txt "The string to replace was found multiple times in the file (via Unicode normalization). Use "
                        ++ name ++ txt " to replace all occurrences, or include more context to only edit one occurrence.")))
                 else inr (original_start <$> ms, true)
             | Ambiguous =>
                 inl (with_name "${{ params.edit.old_string }}" w (λ name,
                   MultipleMatchesFound
                     (txt "The string to replace was found via Unicode normalization but the match is ambiguous (partial or overlapping). Use a more specific "
                      ++ name ++ txt " that avoids lines with Unicode typography characters.")))
             | NoMatch => inr ([], false)
             end
      else Some (inr ([], false))
  | positions => Some (inr (positions, false))
  end.

(** The answer when nothing was found: three names are rendered. *)
Definition no_match (input : SearchReplaceInput) (params : SearchReplaceParams) (is_legacy : bool)
    (match_text path : text) (w : World) : option outcome :=
  match render (txt "${{ tools.by_kind.read }}") with
  | inl e => Some (inl e, w)
  | inr read_name =>
      match render (txt "${{ params.edit.old_string }}") with
      | inl e => Some (inl e, w)
      | inr old_string_param =>
          match render (txt "${{ tools.by_kind.execute }}") with
          | inl e => Some (inl e, w)
          | inr execute_name =>
              hint ←
                (if is_legacy then Some [] else build_nearest_match_hint match_text (old_string input));
              confusable_hint ←
                (if is_legacy then Some []
                 else default [] <$> build_confusable_hint match_text (old_string input) detected
                        read_name old_string_param execute_name);
              Some (inr (NoMatchesFound
                 (txt "The string to replace was not found in the file, use the " ++ read_name
                  ++ txt " tool to see the correct string."
                  ++ (if include_user_edit_hint params
                      then txt " The user may have changed the file since you last read it." else [])
                  ++ hint ++ confusable_hint) path),
               w)
          end
      end
  end.

Definition replaced (input : SearchReplaceInput) (match_text : text) (positions : list nat)
    (used_normalized_fallback : bool) : option (option (text * list nat)) :=
  if used_normalized_fallback then
    r ← find_normalized_match_positions match_text (old_string input);
    match r with
    | Matches ms => Some <$> replace_normalized_matches match_text ms (new_string input)
    | _ => Some None
    end
  else Some <$> replace_using_positions match_text positions (old_string input) (new_string input).

Definition updated_text (input : SearchReplaceInput) (new_positions : list nat) : text * text :=
  if length new_positions =? 1 then
    (txt "The file " ++ file_path input ++ txt " has been updated successfully.",
     txt "The file " ++ file_path input ++ txt " has been updated.")
  else
    (txt "The file " ++ file_path input
     ++ txt " has been updated. All occurrences were successfully replaced.",
     txt "The file " ++ file_path input ++ txt " has been updated. All occurrences were replaced.").

(** The write with its notification and the answer. *)
Definition write_edit (input : SearchReplaceInput) (path old_text new_text write_text : text)
    (new_positions : list nat) (used_normalized_fallback : bool) (w : World) : option outcome :=
  let '(e, w) := write_file path write_text w in
  match e with
  | Some e => Some (inr (write_failed false input e), w)
  | None =>
      let w := notify (mkWritten path write_text (Some old_text) false) w in
      edits ← build_edit_details new_text (old_string input) (new_string input) new_positions CONTEXT_LINES;
      let '(long, short) := updated_text input new_positions in
      Some (inr (EditsApplied (mkApplied (old_string input) (new_string input) long (Some short) path
                   edits used_normalized_fallback)), w)
  end.

Definition handle_replacement (input : SearchReplaceInput) (params : SearchReplaceParams)
    (is_legacy : bool) (path : text) (w : World) : option outcome :=
  let '(r, w) := read_file path w in
  match r with
  | inl e => Some (read_failed input e, w)
  | inr bytes =>
      let old_text := from_utf8_lossy bytes in
      let has_crlf := contains old_text [CR; LF] in
      let match_text := if has_crlf then from_crlf old_text else old_text in
      found ← search input params match_text w;
      match found with
      | inl answer => Some answer
      | inr ([], _) => no_match input params is_legacy match_text path w
      | inr (positions, used_normalized_fallback) =>
          if (1 <? length positions) && negb (replace_all input) then
            Some (with_name "${{ params.edit.replace_all }}" w (λ name,
              MultipleMatchesFound
                (txt "The string to replace was found multiple times in the file. Use " ++ name
                 ++ txt " to replace all occurrences, or include more context to only edit one occurrence.")))
          else
            r ← replaced input match_text positions used_normalized_fallback;
            match r with
            | None =>
                Some (inr (NoMatchesFound
                  (txt "Internal error: normalized match disappeared on re-evaluation") path), w)
            | Some (new_text, new_positions) =>
                let write_text := if has_crlf then to_crlf (from_crlf new_text) else new_text in
                write_edit input path old_text new_text write_text new_positions
                  used_normalized_fallback w
            end
      end
  end.

(** [run_search_replace], with the path resolved: whether it is a directory, and
    whether the ignore rules apply and exclude it. *)
Definition run_search_replace (input : SearchReplaceInput) (params : SearchReplaceParams)
    (is_legacy is_dir ignored : bool) (path : text) (w : World) : option outcome :=
  match validate_path_length (file_path input) with
  | Some err => Some (inr err, w)
  | None =>
      if is_dir then Some (inr (InvalidInput (txt "File path is a directory")), w)
      else if negb is_legacy && ignored then
        Some (inr (InvalidInput
          (txt "Error: " ++ file_path input ++ txt " is ignored by .gitignore and cannot be edited.")), w)
      else if decide (old_string input = new_string input) then
        Some (inr (InvalidInput (txt "Old string and new string are the same")), w)
      else if decide (old_string input = []) then
        Some (handle_new_file_creation input params path w)
      else handle_replacement input params is_legacy path w
  end.

End tool.
