(* ===== verification/SearchReplaceProps.v ===== *)
(** * The search-and-replace tool: theorems

    Occurrences and replacement, the details of an edit, and the soundness of the matches
    up to typographic characters: the offset map leads back to whole characters. *)

From S2P Require Import Prelude Text TextProps Utf8 Truncate ToolFs SearchReplace.

Open Scope nat_scope.

(** ** Replacement *)

(** Where the new text starts in the result. *)
Fixpoint starts (n : nat) (new : text) (ps : list text) : list nat :=
  match ps with
  | p :: ((_ :: _) as rest) => (n + length p) :: starts (n + length p + length new) new rest
  | _ => []
  end.

Lemma replace_loop_pieces old new pre s ps acc :
  old ≠ [] → utf8_valid old = true → utf8_valid s = true → pieces old s ps →
  replace_loop (pre ++ s) ((λ p, (p, length old)) <$> match_indices_from old 0 (length pre) s) new acc
    (length pre)
  = Some (acc ++ join_with new ps, starts (length acc) new ps).
Proof.
  intros Hne Ho Hv Hp. revert pre acc Hv. induction Hp as [p Hc|p s ps Hf Hp IH]; intros pre acc Hv.
  - rewrite match_from_none by done. cbn.
    pose proof (slice_valid pre p [] Hv eq_refl) as Hs. rewrite app_nil_r, <- length_app in Hs.
    by rewrite Hs.
  - pose proof (valid_around p old s Hne Ho Hv) as [Hpv Hsv].
    rewrite match_from_step by done. cbn [fmap list_fmap replace_loop].
    rewrite (slice_valid pre p (old ++ s)) by (done || by apply valid_app).
    cbn [mbind option_bind]. specialize (IH (pre ++ p ++ old) ((acc ++ p) ++ new) Hsv).
    rewrite !length_app, <- !app_assoc, !Nat.add_assoc in IH. rewrite <- app_assoc, IH. cbn.
    apply pieces_join in Hp as [Hps _]. destruct ps as [|q ps]; [done|].
    by rewrite !length_app.
Qed.

Lemma replace_exact old new t ps :
  old ≠ [] → utf8_valid old = true → utf8_valid t = true → pieces old t ps →
  replace_using_positions t (match_indices old t) old new = Some (join_with new ps, starts 0 new ps).
Proof. intros. by apply (replace_loop_pieces old new [] t ps []). Qed.

(** The occurrences are between the pieces. *)
Lemma match_indices_starts old s ps i :
  old ≠ [] → pieces old s ps → match_indices_from old 0 i s = starts i old ps.
Proof.
  intros Hne Hp. revert i. induction Hp as [p Hc|p s ps Hf Hp IH]; intros i.
  - by rewrite match_from_none.
  - rewrite match_from_step by done. rewrite IH. apply pieces_join in Hp as [Hps _].
    by destruct ps.
Qed.

Lemma match_indices_length old s ps i :
  old ≠ [] → pieces old s ps → length (match_indices_from old 0 i s) = length ps - 1.
Proof.
  intros Hne Hp. revert i. induction Hp as [p Hc|p s ps Hf Hp IH]; intros i.
  - by rewrite match_from_none.
  - rewrite match_from_step by done. cbn. rewrite IH.
    apply pieces_join in Hp as [Hps _]. destruct ps; [done|]. cbn. lia.
Qed.

Lemma starts_split new ps n pos :
  utf8_valid new = true → Forall (λ p, utf8_valid p = true) ps → pos ∈ starts n new ps →
  ∃ a b, join_with new ps = a ++ b ∧ n + length a = pos ∧ utf8_valid a = true ∧ utf8_valid b = true.
Proof.
  intros Hn Hps. revert n. induction Hps as [|p ps Hp Hps IH]; intros n; [set_solver|].
  destruct ps as [|q ps]; [set_solver|]. rewrite join_cons by done. cbn [starts].
  rewrite elem_of_cons. intros [->|(a & b & -> & Hpos & Ha & Hb)%IH].
  - exists p, (new ++ join_with new (q :: ps)). split_and!; [done..|].
    apply valid_app; [done|]. by apply join_valid.
  - exists (p ++ new ++ a), b. rewrite <- !app_assoc, !length_app. split_and!; [done|lia| |done].
    by repeat apply valid_app.
Qed.

(** ** The details of an edit *)

Lemma count_lf_app a b : count_lf (a ++ b) = count_lf a + count_lf b.
Proof. unfold count_lf. by rewrite filter_b_app, length_app. Qed.

Lemma count_lf_lines s : count_lf s <= length (split_inclusive s).
Proof.
  induction s as [|c s IH]; [done|]. unfold count_lf, filter_b in *. cbn. case_decide as Hc.
  - rewrite bool_decide_eq_true_2 by done. cbn. lia.
  - rewrite bool_decide_eq_false_2 by done. destruct (split_inclusive s); cbn in *; lia.
Qed.

Lemma line_start_split i st s :
  ∃ x y, s = x ++ y ∧ ((x = [] ∧ line_start_from i st s = st)
    ∨ (∃ x', x = x' ++ [LF] ∧ line_start_from i st s = i + length x)).
Proof.
  revert i st. induction s as [|c s IH]; intros i st; [exists [], []; eauto|].
  cbn [line_start_from]. destruct (IH (S i) (if decide (c = LF) then S i else st)) as (x & y & -> & Hx).
  destruct Hx as [[-> Hx]|(x' & -> & Hx)].
  - rewrite Hx. case_decide as Hc.
    + subst. exists [LF], y. split; [done|]. right. exists []. split; [done|]. cbn. lia.
    + exists [], (c :: y). split; [done|]. by left.
  - exists (c :: x' ++ [LF]), y. split; [done|]. right. exists (c :: x'). split; [done|].
    rewrite Hx. cbn. rewrite length_app. cbn. lia.
Qed.

Lemma detail_total a b old new :
  utf8_valid a = true → utf8_valid b = true →
  is_Some (build_edit_detail (a ++ b) old new CONTEXT_LINES (length a)).
Proof.
  intros Ha Hb. unfold build_edit_detail, render_snippet, compute_line_range.
  rewrite slice_prefix by done. cbn [mbind option_bind start_line end_line].
  set (n := length (split_inclusive (a ++ b))).
  assert (count_lf a <= n) as Hn.
  { pose proof (count_lf_lines (a ++ b)) as Hl. rewrite count_lf_app in Hl. fold n in Hl. lia. }
  unfold CONTEXT_LINES, list_slice. fold n.
  set (m := Nat.max (length (split_inclusive new)) 1). assert (1 <= m) by lia.
  set (e := count_lf a + m - 1). assert (count_lf a <= e) by lia.
  assert (∃ r, (if count_lf a - 3 <? count_lf a then @concat ascii <$>
      (if (count_lf a - 3 <=? count_lf a) && (count_lf a <=? n)
       then Some (take (count_lf a - (count_lf a - 3)) (drop (count_lf a - 3) (split_inclusive (a ++ b))))
       else None) else Some []) = Some r) as [r1 ->].
  { rewrite (proj2 (Nat.leb_le _ _)), (proj2 (Nat.leb_le (count_lf a) n)) by lia. cbn. by case_match; eexists. }
  cbn [mbind option_bind].
  assert (∃ r, (if e <? Nat.min (e + 3) (n - 1) then @concat ascii <$>
      (if (e + 1 <=? Nat.min (e + 3) (n - 1) + 1) && (Nat.min (e + 3) (n - 1) + 1 <=? n)
       then Some (take (Nat.min (e + 3) (n - 1) + 1 - (e + 1)) (drop (e + 1) (split_inclusive (a ++ b))))
       else None) else Some []) = Some r) as [r2 ->].
  { destruct (e <? Nat.min (e + 3) (n - 1)) eqn:E; breflect; [|by eexists].
    rewrite (proj2 (Nat.leb_le _ _)), (proj2 (Nat.leb_le _ n)) by lia. by eexists. }
  cbn [mbind option_bind]. rewrite (proj2 (Nat.ltb_ge _ _)) by lia. cbn [mbind option_bind].
  destruct (line_start_split 0 0 a) as (x & y & -> & Hx).
  assert (slice ((x ++ y) ++ b) (line_start_from 0 0 (x ++ y)) (length (x ++ y)) = Some y) as ->; [|by eexists].
  rewrite length_app, <- app_assoc. destruct Hx as [[-> ->]|(x' & -> & ->)]; cbn [length Nat.add].
  - by apply (slice_valid [] y b).
  - apply slice_valid; [|done]. rewrite <- app_assoc in Ha.
    apply valid_split in Ha as [_ Ha]; done.
Qed.

Lemma details_total new_text old new positions :
  (∀ pos, pos ∈ positions → ∃ a b, new_text = a ++ b ∧ length a = pos
      ∧ utf8_valid a = true ∧ utf8_valid b = true) →
  is_Some (build_edit_details new_text old new positions CONTEXT_LINES).
Proof.
  unfold build_edit_details. intros Hp. apply mapM_is_Some_2, Forall_forall. intros pos Hpos.
  destruct (Hp pos Hpos) as (a & b & -> & <- & Ha & Hb). by apply detail_total.
Qed.

(** ** Characters and their normal forms *)

Lemma normalize_char_app ch rest :
  is_char ch → utf8_valid rest = true →
  normalize_confusables (ch ++ rest) = normalize_char ch ++ normalize_confusables rest.
Proof. intros Hc Hr. unfold normalize_confusables. by rewrite chars_char. Qed.

Lemma lookup_confusable_valid c r : lookup_confusable c = Some r → utf8_valid r = true.
Proof.
  assert (Forall (λ p, utf8_valid p.2 = true) CONFUSABLE_MAP) as Hm by (by repeat constructor).
  unfold lookup_confusable. destruct (find_b _ _) as [p|] eqn:E; [|done]. intros [= <-].
  apply find_b_Some in E as [Hp _]. by eapply Forall_forall in Hm.
Qed.

Lemma normalize_valid s : utf8_valid s = true → utf8_valid (normalize_confusables s) = true.
Proof.
  revert s. apply utf8_valid_ind; [done|]. intros ch rest Hc Hr IH. rewrite normalize_char_app by done.
  apply valid_app; [|done]. unfold normalize_char.
  destruct (lookup_confusable ch) as [r|] eqn:E; [by eapply lookup_confusable_valid|by apply is_char_valid].
Qed.

(** ** The offset map *)

(** [a] is whole characters at the start of the text. *)
Definition whole (t a : text) : Prop := ∃ b, t = a ++ b ∧ utf8_valid a = true ∧ utf8_valid b = true.

(** [a] is the text before the character that byte [k] of the normal form comes from:
    the longest part of whole characters whose normal form has at most [k] bytes. *)
Definition origin (t : text) (k : nat) (a : text) : Prop :=
  whole t a ∧ length (normalize_confusables a) <= k
  ∧ ∀ a', whole t a' → length (normalize_confusables a') <= k → length a' <= length a.

Lemma normalize_app a b :
  utf8_valid a = true → utf8_valid b = true →
  normalize_confusables (a ++ b) = normalize_confusables a ++ normalize_confusables b.
Proof.
  intros Ha Hb. revert Ha. revert a. apply utf8_valid_ind; [done|]. intros ch rest Hc Hr IH.
  rewrite <- app_assoc, (normalize_char_app ch (rest ++ b)), (normalize_char_app ch rest)
    by (done || by apply valid_app). by rewrite IH, app_assoc.
Qed.

(** The first character of whole characters is that of any text they start. *)
Lemma first_char ch rest d e :
  is_char ch → utf8_valid d = true → d ≠ [] → d ++ e = ch ++ rest → ∃ d', d = ch ++ d' ∧ utf8_valid d' = true.
Proof.
  intros (a & conts & -> & _ & _ & Hl & _) Hd Hne Heq.
  destruct (utf8_valid_char d Hd Hne) as (ch' & d' & -> & (a' & conts' & -> & _ & _ & Hl' & _) & Hd').
  exists d'. split; [|done]. f_equal. rewrite <- app_assoc in Heq. injection Heq as -> Heq. f_equal.
  assert (length conts' = length conts) as Hlen by (cbn in *; lia).
  by apply app_inj_1 in Heq as [-> _].
Qed.

(** A place that starts a character of the normal form comes from a place that
    starts a character of the text. *)
Lemma offset_map_at s :
  utf8_valid s = true → ∀ o,
  let '(norm, om) := offset_map_from o (chars s) in
  norm = normalize_confusables s
  ∧ ∀ k, k <= length norm → continues (drop k norm) = false →
    ∃ a b, s = a ++ b ∧ utf8_valid a = true ∧ utf8_valid b = true ∧ om !! k = Some (o + length a)
      ∧ length (normalize_confusables a) <= k
      ∧ (b = [] ∨ ∃ ch rest, b = ch ++ rest ∧ is_char ch
           ∧ k < length (normalize_confusables a) + length (normalize_char ch)).
Proof.
  intros Hv. pattern s. revert s Hv. apply utf8_valid_ind.
  { intros o. cbn. split; [done|]. intros k Hk _. exists [], []. assert (k = 0) as -> by lia.
    split_and!; [done..| |cbn; lia|by left]. cbn. f_equal. lia. }
  intros ch rest Hc Hr IH o. rewrite chars_char, normalize_char_app by done.
  cbn [offset_map_from]. specialize (IH (o + length ch)).
  destruct (offset_map_from (o + length ch) (chars rest)) as [norm om]. destruct IH as [-> IH].
  unfold normalize_char at 1.
  assert (utf8_valid (ch ++ rest) = true) as Hv by (apply valid_app; [by apply is_char_valid|done]).
  assert (∀ (r : text) (ks : list nat) k, length ks = length r → r = normalize_char ch →
    length r <= k → k <= length (r ++ normalize_confusables rest) →
    continues (drop k (r ++ normalize_confusables rest)) = false →
    ∃ a b, ch ++ rest = a ++ b ∧ utf8_valid a = true ∧ utf8_valid b = true
      ∧ (ks ++ om) !! k = Some (o + length a)
      ∧ length (normalize_confusables a) <= k
      ∧ (b = [] ∨ ∃ c s, b = c ++ s ∧ is_char c
           ∧ k < length (normalize_confusables a) + length (normalize_char c))) as Hlater.
  { intros r ks k Hks -> Hk Hl. rewrite drop_app_ge by lia. intros Hd. rewrite length_app in Hl.
    destruct (IH (k - length (normalize_char ch))) as (a & b & -> & Ha & Hb & Hom & Hle & Hn); [lia|done|].
    exists (ch ++ a), b. rewrite <- app_assoc, lookup_app_r by lia. rewrite Hks, Hom, length_app.
    rewrite normalize_char_app, length_app by done.
    split_and!; [done| |done|f_equal; lia|lia|]; [apply valid_app; [by apply is_char_valid|done]|].
    destruct Hn as [Hn|(c & s & Hn & Hcc & Hlt)]; [by left|right]. exists c, s. split_and!; [done..|]. lia. }
  assert (∀ k, k < length (normalize_char ch) → ch ++ rest = [] ∨ ∃ c s, ch ++ rest = c ++ s ∧ is_char c
      ∧ k < length (normalize_confusables []) + length (normalize_char c)) as Hfirst.
  { intros k Hk. right. by exists ch, rest. }
  assert (normalize_char ch = default ch (lookup_confusable ch)) as Hnc by done.
  destruct (lookup_confusable ch) as [r|]; cbn -[normalize_char]; (split; [done|]); intros k Hk Hd;
    rewrite Hnc in Hfirst.
  - destruct (decide (k < length r)) as [Hlt|Hge].
    + exists [], (ch ++ rest). split_and!; [done..| |cbn; lia|by apply Hfirst].
      rewrite lookup_app_l, lookup_replicate_2 by (rewrite ?length_replicate; done). f_equal. cbn. lia.
    + apply (Hlater r); [by rewrite length_replicate|done|lia|done..].
  - destruct (decide (k < length ch)) as [Hlt|Hge]; [|apply (Hlater ch); [by rewrite length_seq|done|lia|done..]].
    destruct k as [|k].
    + exists [], (ch ++ rest). split_and!; [done..| |cbn; lia|by apply Hfirst].
      rewrite lookup_app_l by (rewrite length_seq; done). rewrite lookup_seq_lt by done. done.
    + exfalso. destruct Hc as (a & conts & -> & _ & Hcs & _). cbn in Hlt, Hd.
      destruct (lookup_lt_is_Some_2 conts k) as [c Hk']; [lia|].
      rewrite drop_app_le in Hd by lia. rewrite (drop_S _ c) in Hd by done. cbn in Hd.
      rewrite (Forall_lookup_1 _ _ _ _ Hcs Hk') in Hd. done.
Qed.

Lemma match_indices_in old s k n i :
  i ∈ match_indices_from old k n s → ∃ x y, s = x ++ old ++ y ∧ i = n + length x.
Proof.
  revert k n. induction s as [|a s IH]; intros k n; cbn [match_indices_from]; [set_solver|].
  destruct k as [|k].
  - destruct (starts_with old (a :: s)) eqn:E.
    + rewrite elem_of_cons. intros [->|(x & y & -> & ->)%IH].
      * apply starts_with_app in E as [r ->]. exists [], r. split; [done|]. cbn. lia.
      * exists (a :: x), y. split; [done|]. cbn. lia.
    + intros (x & y & -> & ->)%IH. exists (a :: x), y. split; [done|]. cbn. lia.
  - intros (x & y & -> & ->)%IH. exists (a :: x), y. split; [done|]. cbn. lia.
Qed.

(** ** Sound matches *)

(** A span of the text, whole characters. *)
Definition span (t : text) (m : NormalizedMatch) : Prop :=
  ∃ a b c, t = a ++ b ++ c ∧ original_start m = length a ∧ original_len m = length b
    ∧ utf8_valid a = true ∧ utf8_valid b = true ∧ utf8_valid c = true ∧ b ≠ [].

(** The parts of the text that the occurrences of [pat] in the normal form at the offsets
    of the list come from: from the character in which the occurrence begins to that in
    which it ends; such a part counts when its own normal form is [pat]. *)
Inductive places (t pat : text) : list nat → list (nat * nat) → Prop :=
| places_nil : places t pat [] []
| places_taken i js ps a b :
    origin t i a → origin t (i + length pat) (a ++ b) → normalize_confusables b = pat →
    places t pat js ps → places t pat (i :: js) ((length a, length b) :: ps)
| places_passed i js ps a e :
    origin t i a → origin t (i + length pat) e → (∀ b, e = a ++ b → normalize_confusables b ≠ pat) →
    places t pat js ps → places t pat (i :: js) ps.

(** The pieces of a text, which starts at offset [n], around the spans. *)
Inductive cut : nat → text → list (nat * nat) → list text → Prop :=
| cut_last n p : cut n p [] [p]
| cut_step n p m s spans ps :
    cut (n + length p + length m) s spans ps →
    cut n (p ++ m ++ s) ((n + length p, length m) :: spans) (p :: ps).

Lemma origin_intro a b k :
  utf8_valid a = true → utf8_valid b = true → length (normalize_confusables a) <= k →
  (b = [] ∨ ∃ ch rest, b = ch ++ rest ∧ is_char ch
     ∧ k < length (normalize_confusables a) + length (normalize_char ch)) →
  origin (a ++ b) k a.
Proof.
  intros Ha Hb Hk Hn. split_and!; [by exists b|done|]. intros a' (b' & Heq & Ha' & Hb') Hk'.
  destruct (decide (length a' <= length a)) as [|Hlt]; [done|exfalso].
  apply app_eq_inv in Heq as [(d & -> & ->)|(d & -> & Hd)]; [rewrite length_app in Hlt; lia|].
  destruct (decide (d = [])) as [->|Hne]; [rewrite app_nil_r in Hlt; lia|].
  destruct Hn as [->|(ch & rest & -> & Hc & Hlt')]; [by destruct d|].
  rewrite utf8_valid_app in Ha' by done.
  destruct (first_char ch rest d b' Hc Ha' Hne (eq_sym Hd)) as (d' & -> & Hd').
  rewrite normalize_app, normalize_char_app, !length_app in Hk' by done. lia.
Qed.

(** Whole characters of the text with no shorter normal form are no shorter. *)
Lemma whole_order t a b :
  whole t a → whole t b → length a <= length b → ∃ d, b = a ++ d ∧ utf8_valid d = true.
Proof.
  intros (c & -> & Ha & Hc) (e & Heq & Hb & He) Hle.
  apply app_eq_inv in Heq as [(k & -> & ->)|(k & -> & ->)].
  - rewrite length_app in Hle. destruct k; [|cbn in Hle; lia]. exists []. by rewrite !app_nil_r.
  - exists k. by rewrite utf8_valid_app in Hb.
Qed.

Lemma candidate_sound t pat i :
  utf8_valid t = true → utf8_valid pat = true → pat ≠ [] →
  let '(norm, om) := build_offset_map t in
  i ∈ match_indices pat norm →
  ∃ a e r, validate_candidate t pat om i = Some r ∧ origin t i a ∧ origin t (i + length pat) e
    ∧ match r with
      | Some m => ∃ b, e = a ++ b ∧ normalize_confusables b = pat
          ∧ original_start m = length a ∧ original_len m = length b
      | None => ∀ b, e = a ++ b → normalize_confusables b ≠ pat
      end.
Proof.
  intros Ht Hp Hne. unfold build_offset_map. pose proof (offset_map_at t Ht 0) as Ho.
  destruct (offset_map_from 0 (chars t)) as [norm om]. destruct Ho as [-> Ho].
  intros (x & y & Hx & ->)%match_indices_in. pose proof (normalize_valid t Ht) as Hn. rewrite Hx in Hn, Ho.
  destruct (valid_around x pat y Hne Hp Hn) as [Hxv Hyv]. rewrite Nat.add_0_l.
  destruct (Ho (length x)) as (a & b & Hab & Ha & Hb & Hs & Hal & Haf); [rewrite length_app; lia| |].
  { rewrite drop_app_length. by apply valid_head, valid_app. }
  destruct (Ho (length x + length pat)) as (e & c & Hec & He & Hc & Hm & Hel & Hef); [rewrite !length_app; lia| |].
  { rewrite app_assoc, <- length_app, drop_app_length. by apply valid_head. }
  assert (origin t (length x) a) as Hoa by (rewrite Hab; by apply origin_intro).
  assert (origin t (length x + length pat) e) as Hoe by (rewrite Hec; by apply origin_intro).
  unfold validate_candidate. rewrite Hs, Hm. cbn [mbind option_bind Nat.add].
  assert (length a <= length e) as Hle by (apply Hoe; [apply Hoa|lia]).
  destruct (whole_order t a e) as (m & -> & Hmv); [apply Hoa|apply Hoe|done|].
  assert (b = m ++ c) as -> by (rewrite Hec, <- app_assoc in Hab; by apply app_inv_head in Hab).
  destruct (length (a ++ m) <=? length a) eqn:Hz; breflect.
  { exists a, (a ++ m). eexists. split_and!; [done..|]. intros b ->%app_inv_head.
    rewrite length_app in Hz. destruct b; [|cbn in Hz; lia]. by apply not_eq_sym. }
  assert (slice t (length a) (length (a ++ m)) = Some m) as ->
    by (rewrite Hab, length_app; by apply slice_valid).
  cbn [mbind option_bind].
  case_decide as Hd; exists a, (a ++ m); (eexists; split_and!; [done..|]).
  - exists m. split_and!; [done..|]. cbn [original_len]. rewrite length_app. lia.
  - by intros b ->%app_inv_head.
Qed.

(** A part that is taken is a span. *)
Lemma place_span t i j a b :
  origin t i a → origin t j (a ++ b) → b ≠ [] → ∀ m, original_start m = length a → original_len m = length b →
  span t m.
Proof.
  intros ((d & -> & Ha & Hd) & _) ((c & Heq & Hab & Hc) & _) Hne m Hs Hl.
  rewrite <- app_assoc in Heq. apply app_inv_head in Heq as ->. rewrite utf8_valid_app in Hab by done.
  exists a, b, c. by split_and!.
Qed.

Lemma candidates_total t pat :
  utf8_valid t = true → utf8_valid pat = true → pat ≠ [] →
  let '(norm, om) := build_offset_map t in
  ∃ cs, mapM (validate_candidate t pat om) (match_indices pat norm) = Some cs
    ∧ length cs = length (match_indices pat norm)
    ∧ Forall (span t) (omap id cs)
    ∧ places t pat (match_indices pat norm) ((λ m, (original_start m, original_len m)) <$> omap id cs).
Proof.
  intros Ht Hp Hne. pose proof (λ i, candidate_sound t pat i Ht Hp Hne) as Hc.
  destruct (build_offset_map t) as [norm om]. induction (match_indices pat norm) as [|i js IH].
  { exists []. split_and!; by constructor. }
  destruct IH as (cs & Hcs & Hl & Hsp & Hpl); [intros j Hj; apply Hc; by right|].
  destruct (Hc i) as (a & e & r & Hr & Ha & He & Hm); [by left|].
  exists (r :: cs). cbn [mapM]. rewrite Hr, Hcs. cbn [mbind option_bind]. cbn [length]. rewrite Hl.
  split; [done|]. split; [done|]. destruct r as [m|]; cbn.
  - destruct Hm as (b & -> & Hb & Hs & Hlen). split.
    + constructor; [|done]. eapply (place_span t i _ a b); [done|done| |done|done]. intros ->. by apply Hne.
    + rewrite Hs, Hlen. by econstructor.
  - split; [done|]. by eapply places_passed.
Qed.

(** Spans that follow each other from offset [n] on. *)
Fixpoint in_order (n : nat) (ms : list NormalizedMatch) : Prop :=
  match ms with
  | [] => True
  | m :: ms => n <= original_start m ∧ in_order (original_start m + original_len m) ms
  end.

Lemma no_overlap_in_order m ms :
  any_overlap (m :: ms) = false → in_order (original_start m + original_len m) ms.
Proof.
  revert m. induction ms as [|m' ms IH]; intros m; cbn [any_overlap]; [done|].
  intros [H1 H2]%orb_false_iff. breflect. split; [done|]. by apply IH.
Qed.

(** What the search up to typographic characters answers. *)
Lemma find_normalized_total t old :
  utf8_valid t = true → utf8_valid old = true →
  ∃ r, find_normalized_match_positions t old = Some r
    ∧ (r = NoMatch ↔ normalize_confusables old = []
         ∨ contains (normalize_confusables t) (normalize_confusables old) = false)
    ∧ ∀ ms, r = Matches ms →
        ms ≠ [] ∧ in_order 0 ms ∧ Forall (span t) ms
        ∧ normalize_confusables old ≠ []
        ∧ places t (normalize_confusables old)
            (match_indices (normalize_confusables old) (normalize_confusables t))
            ((λ m, (original_start m, original_len m)) <$> ms).
Proof.
  intros Ht Ho. unfold find_normalized_match_positions. set (pat := normalize_confusables old).
  assert (pat = [] ∨ pat ≠ []) as [->|Hne] by (destruct pat; auto).
  { destruct (build_offset_map t). eexists. split; [done|]. split; [naive_solver|done]. }
  pose proof (candidates_total t pat Ht (normalize_valid old Ho) Hne) as Hc.
  pose proof (offset_map_at t Ht 0) as Hn. fold (build_offset_map t) in Hn.
  destruct (build_offset_map t) as [norm om]. destruct Hn as [-> _]. destruct Hc as (cs & Hcs & Hl & Hf & Hpl).
  pose proof (match_indices_nil pat (normalize_confusables t) Hne) as Hnil. clearbody pat.
  destruct pat as [|x pat]; [done|]. rewrite Hcs. cbn [mbind option_bind]. eexists. split; [done|].
  rewrite <- Hnil.
  assert (match_indices (x :: pat) (normalize_confusables t) = [] ↔ cs = []) as ->.
  { rewrite <- !length_zero_iff_nil. by rewrite Hl. }
  destruct (omap id cs) as [|m ms] eqn:Hv.
  - case_bool_decide; split; naive_solver.
  - assert (cs ≠ []) by (by intros ->). destruct (any_overlap (m :: ms)) eqn:Ha; (split; [naive_solver|]); [done|].
    intros ? [= <-]. split_and!; [done| |done..]. split; [lia|]. by apply no_overlap_in_order.
Qed.

(** The replacement of spans in order. *)
Lemma replace_loop_spans new ms pre s acc :
  utf8_valid pre = true → utf8_valid s = true → Forall (span (pre ++ s)) ms → in_order (length pre) ms →
  ∃ ps, cut (length pre) s ((λ m, (original_start m, original_len m)) <$> ms) ps ∧ length ps = S (length ms) ∧ Forall (λ p, utf8_valid p = true) ps
    ∧ replace_loop (pre ++ s) ((λ m, (original_start m, original_len m)) <$> ms) new acc (length pre)
      = Some (acc ++ join_with new ps, starts (length acc) new ps).
Proof.
  revert pre s acc. induction ms as [|m ms IH]; intros pre s acc Hpre Hs Hsp Ho.
  - exists [s]. split_and!; [constructor|done|by constructor|]. cbn [fmap list_fmap replace_loop].
    pose proof (slice_valid pre s [] Hs eq_refl) as Hsl. rewrite app_nil_r, <- length_app in Hsl.
    by rewrite Hsl.
  - apply Forall_cons in Hsp as [(a & b & c & Heq & Hst & Hlen & Ha & Hb & Hc & Hne) Hms].
    destruct Ho as [Hle Ho]. rewrite Hst in Hle.
    assert (∃ p, a = pre ++ p ∧ s = p ++ b ++ c) as (p & -> & ->).
    { apply app_eq_inv in Heq as [(k & -> & ->)|(k & -> & ->)]; [|by exists k].
      rewrite length_app in Hle. destruct k; [|cbn in Hle; lia]. exists []. by rewrite !app_nil_r. }
    rewrite utf8_valid_app in Ha by done.
    destruct (IH (pre ++ p ++ b) c ((acc ++ p) ++ new)) as (ps & Hcut & Hl & Hv & Hr).
    { by repeat apply valid_app. } { done. } { by rewrite <- !app_assoc. }
    { rewrite Hst, Hlen, length_app in Ho. by rewrite !length_app, Nat.add_assoc. }
    exists (p :: ps). split_and!; [|cbn; lia|by constructor|].
    { rewrite fmap_cons, Hst, Hlen, length_app. constructor. by rewrite !length_app, Nat.add_assoc in Hcut. }
    cbn [fmap list_fmap replace_loop]. rewrite Hst, Hlen, length_app, slice_valid by (done || by apply valid_app).
    cbn [mbind option_bind].
    rewrite <- !app_assoc, !length_app, !Nat.add_assoc in Hr. rewrite <- app_assoc.
    change (list_fmap _ _ ?f ms) with (f <$> ms). rewrite Hr. cbn [mbind option_bind].
    destruct ps as [|q ps]; [done|]. rewrite (join_cons new p) by done. by rewrite !length_app.
Qed.
