(* ===== verification/SearchReplaceTool.v ===== *)
(** * The search-and-replace tool: what a call does

    Every call answers, only an applied edit changes a file, and an applied edit
    replaces occurrences of the old text, whole characters of it, and nothing else. *)

From S2P Require Import Prelude Text TextProps Utf8 Truncate ToolFs SearchReplace SearchReplaceProps.

Open Scope nat_scope.

(** ** Line ends *)

Lemma replace_pair_skip x s : x ≠ CR → from_crlf (x :: s) = x :: from_crlf s.
Proof.
  intros Hx. unfold from_crlf. cbn [replace_pair]. destruct s as [|y s]; [done|].
  rewrite decide_False by naive_solver. done.
Qed.

Lemma from_crlf_high conts s :
  Forall (λ c, is_cont c = true) conts → from_crlf (conts ++ s) = conts ++ from_crlf s.
Proof.
  induction 1 as [|c conts Hc _ IH]; [done|]. cbn [app]. rewrite replace_pair_skip, IH; [done|].
  by intros ->.
Qed.

Lemma from_crlf_valid s : utf8_valid s = true → utf8_valid (from_crlf s) = true.
Proof.
  remember (length s) as n eqn:Hn. revert s Hn. induction (lt_wf n) as [n _ IH]. intros s -> Hv.
  destruct (decide (s = [])) as [->|Hne]; [done|].
  destruct (utf8_valid_char s Hv Hne) as (ch & rest & -> & Hc & Hr).
  destruct Hc as (a & conts & -> & Ha & Hcs & _ & _ & Hch).
  assert (utf8_valid (from_crlf rest) = true) as Hrest.
  { eapply IH; [|done|done]. rewrite length_app. cbn. lia. }
  destruct (decide (a = CR)) as [->|Hcr].
  - destruct conts as [|c conts]; [|specialize (Hch []); apply Forall_cons in Hcs as [Hcont _]].
    + unfold from_crlf in *. destruct rest as [|y rest]; [done|]. cbn [app replace_pair].
      case_decide as Hd; [|done]. destruct Hd as [_ ->]. change (utf8_valid (from_crlf rest) = true).
      eapply IH; [|done|done]. cbn. lia.
    + exfalso. rewrite app_nil_r in Hch. change (utf8_valid (c :: conts) = true) in Hch.
      apply valid_head in Hch. cbn in Hch. congruence.
  - cbn [app]. rewrite replace_pair_skip, from_crlf_high by done.
    change (utf8_valid ((a :: conts) ++ from_crlf rest) = true). by rewrite Hch.
Qed.

(** The text that is searched. *)
Definition searched (bytes : text) : text :=
  let old_text := from_utf8_lossy bytes in
  if contains old_text [CR; LF] then from_crlf old_text else old_text.

(** The text that is written for a new text. *)
Definition written (bytes new_text : text) : text :=
  if contains (from_utf8_lossy bytes) [CR; LF] then to_crlf (from_crlf new_text) else new_text.

Lemma searched_valid bytes : utf8_valid (searched bytes) = true.
Proof.
  unfold searched. case_match; [apply from_crlf_valid|]; apply utf8_lossy_valid.
Qed.

(** ** The search *)

(** The pieces around the occurrences that a search found. *)
Definition found (input : SearchReplaceInput) (normalized : bool) (t : text) (ps : list text) : Prop :=
  if normalized then
    contains t (old_string input) = false
    ∧ ∃ qs spans,
        pieces (normalize_confusables (old_string input)) (normalize_confusables t) qs
        ∧ places t (normalize_confusables (old_string input))
            (starts 0 (normalize_confusables (old_string input)) qs) spans
        ∧ cut 0 t spans ps
  else pieces (old_string input) t ps.

Lemma starts_length n new ps : length (starts n new ps) = length ps - 1.
Proof.
  revert n. induction ps as [|p ps IH]; intros n; [done|]. destruct ps; [done|].
  cbn [starts length] in *. rewrite IH. lia.
Qed.

Section tool.
Context `{FsErrors} `{EditEnv}.

(** What the search answers: the end of the call, nothing, or positions that can be
    replaced and whose pieces are known. *)
Lemma search_total input params t w :
  old_string input ≠ [] → utf8_valid (old_string input) = true → utf8_valid (new_string input) = true →
  utf8_valid t = true →
  ∃ r, search input params t w = Some r ∧
    match r with
    | inl (answer, w') => w' = w ∧ ∀ a, answer ≠ inr (EditsApplied a)
    | inr (positions, normalized) =>
        positions ≠ [] →
        ∃ ps, found input normalized t ps ∧ length ps = S (length positions)
          ∧ Forall (λ p, utf8_valid p = true) ps
          ∧ replaced input t positions normalized
            = Some (Some (join_with (new_string input) ps, starts 0 (new_string input) ps))
    end.
Proof.
  intros Hne Ho Hn Ht. unfold search. destruct (match_indices (old_string input) t) as [|i more] eqn:Hm.
  - destruct (unicode_normalized_fallback params); [|eexists; split; [done|by intros []]].
    destruct (find_normalized_total t (old_string input) Ht Ho) as (r & Hr & _ & Hms). rewrite Hr.
    cbn [mbind option_bind]. eexists. split; [done|]. destruct r as [|ms|].
    + by intros [].
    + destruct (Hms ms eq_refl) as (Hne' & Hord & Hsp & Hpat & Hpl). destruct (_ && _).
      * unfold with_name. by destruct (render _).
      * intros _. destruct (replace_loop_spans (new_string input) ms [] t []
          eq_refl Ht Hsp Hord) as (ps & Hcut & Hl & Hv & Hrep).
        exists ps. rewrite length_fmap. split_and!; [|done..|].
        -- split; [by apply match_indices_nil|].
           destruct (pieces_exist _ (normalize_confusables t) Hpat) as [qs Hqs].
           exists qs, ((λ m, (original_start m, original_len m)) <$> ms). split_and!; [done| |done].
           unfold match_indices in Hpl. by rewrite (match_indices_starts _ _ qs) in Hpl.
        -- unfold replaced. rewrite Hr. cbn [mbind option_bind]. unfold replace_normalized_matches.
           cbn [length app] in Hrep. by rewrite Hrep.
    + unfold with_name. by destruct (render _).
  - eexists. split; [done|]. cbv beta iota. intros _. destruct (pieces_exist (old_string input) t Hne) as [ps Hps].
    exists ps. split_and!; [done| | |].
    + pose proof (match_indices_length _ t ps 0 Hne Hps) as Hl. fold (match_indices (old_string input) t) in Hl.
      rewrite Hm in Hl. apply pieces_join in Hps as [Hps _]. destruct ps; [done|]. cbn in *. lia.
    + by eapply pieces_valid.
    + unfold replaced. rewrite <- Hm. by rewrite (replace_exact _ _ t ps).
Qed.

(** A call notified nothing and changed nothing, but for what a failed write left. *)
Definition untouched (path : text) (w w' : World) : Prop :=
  notified w' = notified w ∧ (files w' = files w ∨ ∃ data, torn path data w w').

Lemma untouched_same path w w' : files w' = files w → notified w' = notified w → untouched path w w'.
Proof. split; [done|by left]. Qed.
#[local] Hint Resolve untouched_same : core.

Lemma untouched_torn path data w w0 e :
  files w = files w0 → notified w = notified w0 → fs_error (ops w) (WriteOp path) = Some e →
  untouched path w0 (count_op (torn_write path data w)).
Proof.
  intros Hf Hn He. destruct (torn_write_result path data w w0 e Hf He) as [Hn' Hc].
  split; [by rewrite <- Hn, <- Hn'|]. destruct Hc; [by left|right; by exists data].
Qed.

(** The write, after a search. *)
Lemma write_edit_total input path old_text ps written_text normalized w :
  utf8_valid (new_string input) = true → Forall (λ p, utf8_valid p = true) ps →
  ∃ r w', write_edit input path old_text (join_with (new_string input) ps) written_text
            (starts 0 (new_string input) ps) normalized w = Some (r, w') ∧
    match r with
    | inr (EditsApplied a) =>
        files w' = <[path := written_text]> (files w)
        ∧ notified w' = notified w ++ [mkWritten path written_text (Some old_text) false]
        ∧ unicode_normalized a = normalized ∧ length (details a) = length ps - 1
    | _ => untouched path w w'
    end.
Proof.
  intros Hn Hps. unfold write_edit, write_file. destruct (fs_error _ _) as [e|] eqn:He.
  { do 2 eexists. split; [done|]. unfold write_failed.
    destruct (io_error_kind _) as [[]|]; by eapply untouched_torn. }
  destruct (details_total (join_with (new_string input) ps) (old_string input) (new_string input)
    (starts 0 (new_string input) ps)) as [ds Hds].
  { intros pos Hpos. destruct (starts_split _ ps 0 pos Hn Hps Hpos) as (a & b & ? & ? & ? & ?).
    exists a, b. auto. }
  rewrite Hds. cbn [mbind option_bind]. destruct (updated_text _ _). do 2 eexists. split; [done|].
  split_and!; [done..|]. cbn. rewrite <- (length_mapM _ _ _ Hds). apply starts_length.
Qed.

(** The hints never panic. *)
Lemma nearest_hint_total file old : is_Some (build_nearest_match_hint file old).
Proof.
  unfold build_nearest_match_hint. case_decide; [by eexists|].
  destruct (find_b _ _) as [[i l]|]; [|by eexists]. by apply marker_total.
Qed.

Lemma confusable_hint_total file old tools a b c :
  utf8_valid file = true → utf8_valid old = true →
  is_Some (build_confusable_hint file old tools a b c).
Proof.
  intros Hf Ho. unfold build_confusable_hint. destruct (negb _); [by eexists|].
  pose proof (offset_map_at file Hf 0) as Hm. unfold build_offset_map.
  destruct (offset_map_from 0 (chars file)) as [norm om]. destruct Hm as [Hn Hm].
  set (pat := normalize_confusables old). assert (utf8_valid pat = true) as Hp by by apply normalize_valid.
  destruct (find_text pat norm) as [k|] eqn:Hk; [|by eexists].
  assert (k + length pat <= length norm ∧ continues (drop k norm) = false
    ∧ continues (drop (k + length pat) norm) = false) as (Hle & H1 & H2).
  { assert (utf8_valid norm = true) as Hv by (subst norm; by apply normalize_valid).
    destruct (decide (pat = [])) as [He|Hne].
    - rewrite He in Hk |- *. destruct norm; injection Hk as <-; (split; [cbn; lia|]);
        split; by apply valid_head.
    - apply find_text_Some in Hk as (Hle & Hs & _). apply starts_with_app in Hs as [y Hy].
      assert (norm = take k norm ++ pat ++ y) as Hsplit by (by rewrite <- Hy, take_drop).
      assert (length (take k norm) = k) as Hk by (rewrite length_take; lia).
      rewrite Hsplit in Hv. destruct (valid_around _ _ _ Hne Hp Hv) as [_ Hyv].
      split_and!.
      + rewrite Hsplit, !length_app, Hk. lia.
      + rewrite Hy. by apply valid_head, valid_app.
      + rewrite <- drop_drop, Hy, drop_app_length. by apply valid_head. }
  destruct (Hm k ltac:(lia) H1) as (a1 & b1 & Heq1 & Ha1 & Hb1 & -> & _).
  destruct (Hm _ Hle H2) as (a2 & b2 & Heq2 & Ha2 & Hb2 & -> & _). cbn [mbind option_bind Nat.add].
  rewrite Heq1 at 1. rewrite slice_prefix by done. cbn [mbind option_bind].
  rewrite Heq2 at 1. rewrite slice_prefix by done. cbn [mbind option_bind]. by eexists.
Qed.

Lemma no_match_untouched input params is_legacy t path w :
  utf8_valid t = true → utf8_valid (old_string input) = true →
  ∃ r, no_match input params is_legacy t path w = Some (r, w) ∧ ∀ a, r ≠ inr (EditsApplied a).
Proof.
  intros Ht Ho. unfold no_match.
  destruct (render _) as [e|read_name]; [by eexists|]. destruct (render _) as [e|name]; [by eexists|].
  destruct (render _) as [e|execute]; [by eexists|].
  destruct (nearest_hint_total t (old_string input)) as [h Hh].
  destruct (confusable_hint_total t (old_string input) detected read_name name execute Ht Ho) as [h' Hh'].
  rewrite Hh, Hh'. by destruct is_legacy; eexists.
Qed.

(** The replacement in a file, on every path. *)
Lemma handle_replacement_total input params is_legacy path w :
  old_string input ≠ [] → utf8_valid (old_string input) = true → utf8_valid (new_string input) = true →
  ∃ r w', handle_replacement input params is_legacy path w = Some (r, w') ∧
    match r with
    | inr (EditsApplied a) =>
        ∃ bytes ps, files w !! path = Some bytes
          ∧ found input (unicode_normalized a) (searched bytes) ps
          ∧ 2 <= length ps ∧ (replace_all input = false → length ps = 2)
          ∧ length (details a) = length ps - 1
          ∧ files w' = <[path := written bytes (join_with (new_string input) ps)]> (files w)
          ∧ notified w' = notified w
              ++ [mkWritten path (written bytes (join_with (new_string input) ps))
                    (Some (from_utf8_lossy bytes)) false]
    | _ => untouched path w w'
    end.
Proof.
  intros Hne Ho Hn. unfold handle_replacement, read_file.
  destruct (fs_error _ _) as [e|]; [|destruct (files w !! path) as [bytes|] eqn:Hf].
  1, 3: do 2 eexists; split; [done|]; unfold read_failed; destruct (io_error_kind _) as [[]|]; auto.
  fold (searched bytes).
  destruct (search_total input params (searched bytes) (count_op w) Hne Ho Hn (searched_valid bytes))
    as (r & -> & Hr). cbn [mbind option_bind].
  destruct r as [[answer w']|[positions normalized]].
  { do 2 eexists. split; [done|]. destruct Hr as [-> Hr]. destruct answer as [|[]]; auto. by destruct (Hr a). }
  destruct positions as [|i more].
  { destruct (no_match_untouched input params is_legacy (searched bytes) path (count_op w)
      (searched_valid bytes) Ho) as (answer & -> & Ha). do 2 eexists. split; [done|].
    destruct answer as [|[]]; auto. by destruct (Ha a). }
  destruct (Hr ltac:(done)) as (ps & Hfound & Hl & Hv & Hrep).
  destruct ((1 <? length (i :: more)) && negb (replace_all input)) eqn:Hmany.
  { unfold with_name. destruct (render _); (do 2 eexists; split; [done|]); by apply untouched_same. }
  rewrite Hrep. cbn [mbind option_bind]. fold (written bytes (join_with (new_string input) ps)).
  destruct (write_edit_total input path (from_utf8_lossy bytes) ps
    (written bytes (join_with (new_string input) ps)) normalized (count_op w) Hn Hv) as (r & w' & -> & Hw).
  do 2 eexists. split; [done|]. destruct r as [|[]]; try done. destruct Hw as (Hfs & Hnt & <- & Hd).
  exists bytes, ps. split_and!; try done.
  - rewrite Hl. cbn. lia.
  - intros Hall. rewrite Hall in Hmany. rewrite Hl. cbn [negb] in Hmany. rewrite andb_true_r in Hmany.
    breflect. cbn in *. lia.
Qed.

Lemma handle_new_file_total input params path w :
  let '(r, w') := handle_new_file_creation input params path w in
  match r with
  | inr (EditsApplied a) =>
      files w' = <[path := new_string input]> (files w)
      ∧ notified w' = notified w ++ [mkWritten path (new_string input) None true]
      ∧ (empty_old_string_does_not_override params = true →
         fs_error (ops w) (ReadOp path) = None → files w !! path = None ∨ files w !! path = Some [])
  | _ => untouched path w w'
  end.
Proof.
  unfold handle_new_file_creation, read_file, write_file. cbn [count_op ops files].
  set (ex := match _ with inl _ => false | inr b => _ end). destruct (ex && _) eqn:Hex.
  { unfold with_name. destruct (render _); by apply untouched_same. }
  destruct (fs_error _ (WriteOp path)) as [e|] eqn:He.
  { unfold write_failed. destruct (io_error_kind _) as [[]|]; by eapply untouched_torn. }
  split; [by case_match|]. split; [by case_match|].
  intros Hp Hr. rewrite Hp, andb_true_r in Hex. unfold ex in Hex. rewrite Hr in Hex.
  destruct (files w !! path) as [bytes|]; [|by left]. right. f_equal.
  apply negb_false_iff, bool_decide_eq_true in Hex. done.
Qed.

End tool.

(** ** The tool *)

Section theorems.
Context `{FsErrors} `{EditEnv}.

(** The guards before the work refuse a call or leave it as it is. *)
Lemma run_guards input params is_legacy is_dir ignored path w :
  (∃ r, run_search_replace input params is_legacy is_dir ignored path w = Some (inr r, w)
     ∧ ∀ a, r ≠ EditsApplied a)
  ∨ run_search_replace input params is_legacy is_dir ignored path w
    = (if decide (old_string input = []) then Some (handle_new_file_creation input params path w)
       else handle_replacement input params is_legacy path w).
Proof.
  unfold run_search_replace. destruct (validate_path_length _) as [err|] eqn:Hv.
  { left. exists err. split; [done|]. unfold validate_path_length in Hv. intros a ->. by case_match. }
  destruct is_dir; [left; by eexists|]. destruct (_ && _); [left; by eexists|].
  destruct (decide (old_string input = new_string input)); [left; by eexists|]. by right.
Qed.

(** Every call of the search-and-replace tool whose strings are well-formed answers
    without a panic, whatever bytes the file holds; unless the answer is that edits
    were applied, neither files nor notifications have changed, but that a write that
    failed may have left the file with the beginning of its new content; and no call
    touches another file. *)
Theorem edit_answers input params is_legacy is_dir ignored path w :
  utf8_valid (old_string input) = true → utf8_valid (new_string input) = true →
  ∃ r w', run_search_replace input params is_legacy is_dir ignored path w = Some (r, w')
    ∧ (untouched path w w' ∨ ∃ a, r = inr (EditsApplied a))
    ∧ ∀ q, q ≠ path → files w' !! q = files w !! q.
Proof.
  intros Ho Hn.
  assert (∀ r w', untouched path w w' ∨ (∃ a s, r = inr (EditsApplied a) ∧ files w' = <[path := s]> (files w)) →
    (untouched path w w' ∨ ∃ a, r = @inr text _ (EditsApplied a))
    ∧ ∀ q, q ≠ path → files w' !! q = files w !! q) as Hall.
  { intros r w' [Hu|(a & s & -> & Hf)].
    - split; [by left|]. intros q Hq. destruct Hu as [_ [-> |(data & i & e & n & _ & _ & ->)]]; [done|].
      by apply lookup_insert_ne.
    - split; [eauto|]. intros q Hq. rewrite Hf. by apply lookup_insert_ne. }
  destruct (run_guards input params is_legacy is_dir ignored path w) as [(r & -> & _)| ->].
  { do 2 eexists. split; [done|]. apply Hall. left. by apply untouched_same. }
  case_decide as Hnew.
  - pose proof (handle_new_file_total input params path w) as Ht.
    destruct (handle_new_file_creation _ _ _ _) as [r w']. exists r, w'. split; [done|]. apply Hall.
    destruct r as [|[]]; naive_solver.
  - destruct (handle_replacement_total input params is_legacy path w Hnew Ho Hn) as (r & w' & -> & Ht).
    exists r, w'. split; [done|]. apply Hall. destruct r as [|[]]; naive_solver.
Qed.

(** C15: when the search-and-replace tool reports applied edits for an old string that is
    not empty, the file was read as text, the new string stands for the places that were
    found and everything between them is kept.  The places are all exact occurrences,
    which do not overlap, from the left; or, when there is none, they come from the
    occurrences of the normal form of the old string in the normal form of the text, which do not
    overlap, from the left, each led back to the characters from the one in which it begins up to the
    one in which it ends: every such part whose own normal form is that of the old
    string is replaced, and the others are passed over.  There is one place unless
    all were to be replaced; each has its detail; the result, with the line ends of the
    file, is written and notified together with the text before. *)
Theorem edit_replaces_exactly input params is_legacy is_dir ignored path w a w' :
  old_string input ≠ [] → utf8_valid (old_string input) = true → utf8_valid (new_string input) = true →
  run_search_replace input params is_legacy is_dir ignored path w = Some (inr (EditsApplied a), w') →
  ∃ bytes ps,
    files w !! path = Some bytes
    ∧ (if unicode_normalized a
       then contains (searched bytes) (old_string input) = false
            ∧ ∃ qs spans,
                pieces (normalize_confusables (old_string input))
                  (normalize_confusables (searched bytes)) qs
                ∧ places (searched bytes) (normalize_confusables (old_string input))
                    (starts 0 (normalize_confusables (old_string input)) qs) spans
                ∧ cut 0 (searched bytes) spans ps
       else pieces (old_string input) (searched bytes) ps)
    ∧ 2 <= length ps ∧ (replace_all input = false → length ps = 2)
    ∧ length (details a) = length ps - 1
    ∧ files w' = <[path := written bytes (join_with (new_string input) ps)]> (files w)
    ∧ notified w' = notified w
        ++ [mkWritten path (written bytes (join_with (new_string input) ps))
              (Some (from_utf8_lossy bytes)) false].
Proof.
  intros Hne Ho Hn Hrun.
  destruct (run_guards input params is_legacy is_dir ignored path w) as [(r & Hr & Hno)|Hr].
  { rewrite Hr in Hrun. injection Hrun as -> _. by destruct (Hno a). }
  rewrite Hr, decide_False in Hrun by done.
  destruct (handle_replacement_total input params is_legacy path w Hne Ho Hn) as (r' & w'' & Heq & Ht).
  rewrite Heq in Hrun. injection Hrun as -> ->. exact Ht.
Qed.

(** A text without occurrences has one piece. *)
Lemma pieces_positions old t ps :
  old ≠ [] → pieces old t ps → length ps = S (length (match_indices old t)).
Proof.
  intros Hne Hps. unfold match_indices. rewrite (match_indices_length _ t ps) by done.
  apply pieces_join in Hps as [Hps _]. destruct ps; [done|]. cbn. lia.
Qed.

(** The tool applies an edit whenever it can: with a file that is read and written
    without an error, a path that is neither too long, a directory nor ignored, strings
    that differ, and an old string that occurs once, or more often when all occurrences
    are to be replaced. *)
Theorem edit_applies input params is_legacy ignored path w bytes ps :
  old_string input ≠ [] → utf8_valid (old_string input) = true → utf8_valid (new_string input) = true →
  old_string input ≠ new_string input →
  (∀ name, name ∈ path_names (file_path input) → length name <= NAME_MAX) →
  negb is_legacy && ignored = false →
  (∀ n o, fs_error n o = None) → files w !! path = Some bytes →
  pieces (old_string input) (searched bytes) ps →
  2 <= length ps → (length ps = 2 ∨ replace_all input = true) →
  ∃ a w', run_search_replace input params is_legacy false ignored path w = Some (inr (EditsApplied a), w')
    ∧ unicode_normalized a = false
    ∧ files w' = <[path := written bytes (join_with (new_string input) ps)]> (files w).
Proof.
  intros Hne Ho Hn Hdiff Hpath Hign Hfs Hf Hps Hlen Hone. unfold run_search_replace, validate_path_length.
  destruct (find_b _ _) as [name|] eqn:Hfind.
  { apply find_b_Some in Hfind as [Hin Hlong]. apply Hpath in Hin. breflect. lia. }
  rewrite Hign, !decide_False by done. unfold handle_replacement, read_file. rewrite Hfs, Hf. fold (searched bytes).
  pose proof (pieces_positions _ _ _ Hne Hps) as Hl. unfold search.
  destruct (match_indices (old_string input) (searched bytes)) as [|i more] eqn:Hm; [cbn in Hl; lia|].
  cbn [mbind option_bind].
  assert ((1 <? length (i :: more)) && negb (replace_all input) = false) as ->.
  { destruct Hone as [Hone| ->]; [|apply andb_false_r]. apply andb_false_iff. left. apply Nat.ltb_ge. lia. }
  unfold replaced. rewrite <- Hm, (replace_exact _ _ _ ps) by (done || apply searched_valid).
  cbn [mbind option_bind fmap option_fmap option_map].
  fold (written bytes (join_with (new_string input) ps)).
  destruct (write_edit_total input path (from_utf8_lossy bytes) ps
    (written bytes (join_with (new_string input) ps)) false (count_op w) Hn) as (r & w' & Hw & Hr).
  { eapply pieces_valid; [..|exact Hps]; [done..|apply searched_valid]. }
  rewrite Hw. unfold write_edit, write_file in Hw. rewrite Hfs in Hw.
  destruct (build_edit_details _ _ _ _ _); [|done]. cbn [mbind option_bind] in Hw.
  destruct (updated_text _ _). injection Hw as <- <-. do 2 eexists. split; [done|]. by destruct Hr as (? & _ & ? & _).
Qed.

End theorems.

(** ** Concrete calls *)

#[local] Instance quiet : FsErrors := {| fs_error := λ _ _, None; fs_partial _ _ := None; not_found := txt "no such file" |}.
#[local] Instance plain : EditEnv :=
  {| render := inr; format_not_found_error := λ p, txt "no such file: " ++ p;
     detected := mkTools None (Some (txt "python3")) (Some (txt "sed")) None |}.

Definition crlf (l : list string) : text := concat ((λ s, txt s ++ [CR; LF]) <$> l).

Definition demo_world (bytes : text) : World := mkWorld {[ txt "/w/a" := bytes ]} 0 [].
Definition demo_params : SearchReplaceParams := mkParams false true true.

(** The contents of the file after an edit of it. *)
Definition edited (bytes old new : text) : option (bool * option text) :=
  '(r, w) ← run_search_replace (mkInput (txt "a") old new false) demo_params false false false (txt "/w/a")
              (demo_world bytes);
  Some (match r with inr (EditsApplied a) => true | _ => false end, files w !! txt "/w/a").

Lemma edit_answers_witness :
  ∃ r w', run_search_replace (mkInput (txt "a") (txt "two") (txt "2") false) demo_params false false false
            (txt "/w/a") (demo_world (txt "one two")) = Some (r, w')
    ∧ (untouched (txt "/w/a") (demo_world (txt "one two")) w' ∨ ∃ a, r = inr (EditsApplied a))
    ∧ ∀ q, q ≠ txt "/w/a" → files w' !! q = files (demo_world (txt "one two")) !! q.
Proof. apply (edit_answers (mkInput (txt "a") (txt "two") (txt "2") false)); reflexivity. Defined.

Definition demo_applied : SearchReplaceEditsApplied :=
  mkApplied (txt "two") (txt "2") (txt "The file a has been updated successfully.")
    (Some (txt "The file a has been updated.")) (txt "/w/a")
    [mkDetail (txt "two") 1 (txt "2") 1 [] [] (txt "one ")] false.

Definition demo_after : World :=
  mkWorld {[ txt "/w/a" := txt "one 2" ]} 2
    [mkWritten (txt "/w/a") (txt "one 2") (Some (txt "one two")) false].

Lemma edit_replaces_exactly_witness :
  ∃ bytes ps,
    files (demo_world (txt "one two")) !! txt "/w/a" = Some bytes
    ∧ pieces (txt "two") (searched bytes) ps
    ∧ 2 <= length ps ∧ (false = false → length ps = 2)
    ∧ length (details demo_applied) = length ps - 1
    ∧ files demo_after = <[txt "/w/a" := written bytes (join_with (txt "2") ps)]>
                           (files (demo_world (txt "one two")))
    ∧ notified demo_after = [mkWritten (txt "/w/a") (written bytes (join_with (txt "2") ps))
              (Some (from_utf8_lossy bytes)) false].
Proof.
  apply (edit_replaces_exactly (mkInput (txt "a") (txt "two") (txt "2") false) demo_params false false
    false (txt "/w/a") (demo_world (txt "one two")) demo_applied demo_after).
  - discriminate.
  - reflexivity.
  - reflexivity.
  - vm_compute. reflexivity.
Defined.

Lemma edit_applies_witness :
  ∃ a w', run_search_replace (mkInput (txt "a") (txt "two") (txt "2") false) demo_params false false false
            (txt "/w/a") (demo_world (txt "one two")) = Some (inr (EditsApplied a), w')
    ∧ unicode_normalized a = false
    ∧ files w' = <[txt "/w/a" := txt "one 2"]> (files (demo_world (txt "one two"))).
Proof.
  apply (edit_applies (mkInput (txt "a") (txt "two") (txt "2") false) demo_params false false (txt "/w/a")
    (demo_world (txt "one two")) (txt "one two") [txt "one "; []]); try done.
  - intros name Hn. vm_compute in Hn. inversion Hn as [|? ? ? Hn']; subst; [cbn; unfold NAME_MAX; lia|inversion Hn'].
  - change (pieces (txt "two") (txt "one " ++ txt "two" ++ []) [txt "one "; []]). by repeat constructor.
  - by left.
Defined.

(** The contents of the file after an edit of all places. *)
Definition edited_all (bytes old new : text) : option (bool * option text) :=
  '(r, w) ← run_search_replace (mkInput (txt "a") old new true) demo_params false false false (txt "/w/a")
              (demo_world bytes);
  Some (match r with inr (EditsApplied a) => true | _ => false end, files w !! txt "/w/a").

Definition EN_DASH : text := [ascii_of_nat 226; ascii_of_nat 128; ascii_of_nat 147].
Definition EM_DASH : text := [ascii_of_nat 226; ascii_of_nat 128; ascii_of_nat 148].

(** An em dash that the occurrence to its left overlaps is passed over, although its
    normal form is the old string and all occurrences were to be replaced. *)
Example overlapped_dash_left :
  edited_all (EN_DASH ++ EM_DASH ++ txt " z " ++ EN_DASH ++ EN_DASH) (txt "--") (txt "+")
  = Some (true, Some (EN_DASH ++ EM_DASH ++ txt " z +")).
Proof. vm_compute. reflexivity. Qed.

(** An old string with the line ends of the file is not found in it. *)
Example crlf_old_string_not_found :
  edited (crlf ["one"; "two"]) (crlf ["one"; "two"]) (txt "x") = Some (false, Some (crlf ["one"; "two"])).
Proof. vm_compute. reflexivity. Qed.

(** Mixed line ends are all rewritten, also far from the edit. *)
Example mixed_line_ends_rewritten :
  edited (crlf ["one"] ++ unlines [txt "two"; txt "three"]) (txt "three") (txt "3")
  = Some (true, Some (crlf ["one"; "two"; "3"])).
Proof. vm_compute. reflexivity. Qed.

(** Bytes that are not well-formed are replaced in the whole file, not only where it
    is edited. *)
Example invalid_bytes_rewritten :
  edited ([ascii_of_nat 255] ++ txt " two") (txt "two") (txt "2")
  = Some (true, Some (REPLACEMENT_CHARACTER ++ txt " 2")).
Proof. vm_compute. reflexivity. Qed.

(** An empty old string overwrites an existing file, and the notification calls it
    new, without its previous content. *)
Example overwriting_notified_as_new :
  (λ '(_, w), (files w !! txt "/w/a", notified w))
  <$> run_search_replace (mkInput (txt "a") [] (txt "2") false) demo_params false false false (txt "/w/a")
        (demo_world (txt "one"))
  = Some (Some (txt "2"), [mkWritten (txt "/w/a") (txt "2") None true]).
Proof. vm_compute. reflexivity. Qed.

(** With several edits, the line of the old string is counted in the new text: the
    second occurrence is on line 3 of the file, and on line 5 after the first edit. *)
Example old_line_counted_in_new_text :
  (λ r, match r.1 with inr (EditsApplied a) => old_line <$> details a | _ => [] end)
  <$> run_search_replace (mkInput (txt "a") (txt "one") (unlines [txt "1"; txt "2"]) true) demo_params
        false false false (txt "/w/a") (demo_world (unlines [txt "one"; txt "x"; txt "one"]))
  = Some [1; 5].
Proof. vm_compute. reflexivity. Qed.
