(* ===== verification/Sampling.v ===== *)
(** * Sampler: errors, doom-loop signals, retry decisions

    The pure parts of the sampler, which sends requests to the model API:
    [ds-sampling-types/src/error.rs] (the errors and what is asked of them),
    [ds-sampling-types/src/doom_loop.rs] (the recovery policy and the labels of
    detected loops), [ds-sampler/src/doom_loop.rs] (the signals collected during
    one attempt) and [ds-sampler/src/retry.rs] (backoff and classification).

    A [reqwest::Error] is the record of what the code asks of it, and a
    [serde_json::Error] is its rendering.  [serde_json::from_str] is the parameter
    [from_str] of what reads JSON; the value of a hasher is an argument.  Durations are in milliseconds. *)

From S2P Require Import Prelude Text Json Conversation.
From stdpp Require Import pretty.

Open Scope Z_scope.

(** ** Errors *)

Record ReqwestError := mkReqwest {
  rq_is_timeout : bool;
  rq_is_connect : bool;
  rq_is_status : bool;
  rq_is_request : bool;
  rq_is_body : bool;
  rq_status : option Z;
  rq_text : text;
}.

Inductive EmptyReason := ReasoningOnly | NoVisibleContent.

Record EmptyResponseContext := mkEmptyContext {
  ec_reason : EmptyReason;
  ec_had_reasoning : bool;
  ec_content_len : nat;
  ec_tool_call_count : nat;
  ec_finish_reason : option text;
  ec_completion_tokens : option Z;
  ec_reasoning_tokens : option Z;
  ec_prompt_tokens : option Z;
  ec_model : text;
  ec_first_choice_seen : bool;
}.

Record ResponseModelMetadata := mkMetadata {
  context_window : option Z;
  max_completion_tokens : option Z;
  models_etag : option text;
}.

Inductive SamplingError :=
| Auth (msg : text)
| InvalidConfiguration (msg : text)
| Http (e : ReqwestError)
| Serialization (rendered : text)
| Api (status : Z) (message : text) (model_metadata : option ResponseModelMetadata)
    (retry_after_secs : option Z) (should_retry : option bool)
| EventStreamError (msg : text)
| StreamError (error_type message : text)
| IdleTimeout (elapsed_secs : Z)
| EmptyResponse (context : EmptyResponseContext)
| MaxTokensTruncation
| DoomLoopDetected (triggers : list text) (aborted_at_chunk : option Z).

Definition is_auth_error (e : SamplingError) : bool :=
  match e with Auth _ => true | Api s _ _ _ _ => s =? 401 | _ => false end.

Definition is_rate_limited (e : SamplingError) : bool :=
  match e with Api s _ _ _ _ => s =? 429 | _ => false end.

Definition is_payload_too_large (e : SamplingError) : bool :=
  match e with Api s _ _ _ _ => s =? 413 | _ => false end.

Definition is_likely_body_rejected (e : SamplingError) : bool :=
  match e with
  | Http err =>
      (rq_is_request err || rq_is_body err) && negb (rq_is_timeout err) && negb (rq_is_connect err)
  | _ => false
  end.

Definition is_encrypted_content_error (e : SamplingError) : bool :=
  match e with
  | Api s message _ _ _ => (s =? 400) && contains message (txt "encrypted_content")
  | _ => false
  end.

Definition is_unsupported_image_url_content_message (message : text) : bool :=
  let lower := to_ascii_lowercase message in
  let mentions_image_url :=
    contains lower (txt "image_url") || contains lower (quoted (txt "image_url")) in
  let unknown_variant := contains lower (txt "unknown variant") in
  let expects_text :=
    contains lower (txt "expected `text`") || contains lower (txt "expected 'text'")
    || contains lower (txt "expected " ++ quoted (txt "text")) || contains lower (txt "expected text") in
  (unknown_variant && mentions_image_url) || (mentions_image_url && expects_text).

Definition is_image_processing_error (e : SamplingError) : bool :=
  match e with
  | Api s message _ _ _ =>
      ((s =? 400) || (s =? 500))
      && (contains message (txt "Could not process image")
          || is_unsupported_image_url_content_message message)
  | _ => false
  end.

Definition is_retryable_reqwest (err : ReqwestError) : bool :=
  if rq_is_timeout err || rq_is_connect err then true
  else if rq_is_status err then
    match rq_status err with
    | Some status => ((500 <=? status) && (status <? 600)) || (status =? 429)
    | None => false
    end
  else rq_is_request err || rq_is_body err.

Definition is_retryable (e : SamplingError) : bool :=
  match e with
  | Auth _ | InvalidConfiguration _ | Serialization _ | IdleTimeout _ | MaxTokensTruncation => false
  | Http err => is_retryable_reqwest err
  | Api s _ _ _ _ =>
      (s =? 429) || (s =? 500) || (s =? 502) || (s =? 503) || (s =? 504) || (s =? 520)
  | EventStreamError _ | StreamError _ _ | EmptyResponse _ | DoomLoopDetected _ _ => true
  end.

Definition model_metadata (e : SamplingError) : option ResponseModelMetadata :=
  match e with Api _ _ m _ _ => m | _ => None end.

Definition retry_after (e : SamplingError) : option Z :=
  match e with Api _ _ _ r _ => r | _ => None end.

Definition should_retry_header (e : SamplingError) : option bool :=
  match e with Api _ _ _ _ r => r | _ => None end.

Definition context_length_message (message : text) : bool :=
  let m := to_ascii_lowercase message in
  contains m (txt "too long for this model") || contains m (txt "prompt is too long")
  || contains m (txt "maximum prompt length") || contains m (txt "maximum context length")
  || contains m (txt "context_length_exceeded").

Definition is_context_length_error (e : SamplingError) : bool :=
  match e with
  | Api _ message _ _ _ | StreamError _ message => context_length_message message
  | _ => false
  end.

Definition SERIALIZATION_DISPLAY_PREFIX : text := txt "serialization error: ".

(** [serialization_from_rendered]. *)
Definition serialization_from_rendered (rendered : text) : SamplingError :=
  Serialization (default rendered (text_strip_prefix SERIALIZATION_DISPLAY_PREFIX rendered)).

(** ** Doom loops: policy and labels *)

Record DoomLoopRecoveryPolicy := mkDoomPolicy {
  max_threshold : Z;
  doom_max_retries : Z;
}.

Definition clamp (lo hi v : Z) : Z := if v <? lo then lo else if hi <? v then hi else v.
Definition clamp_max_threshold (v : Z) : Z := clamp 2 64 v.
Definition clamp_max_retries (v : Z) : Z := clamp 0 5 v.
Definition default_doom_policy : DoomLoopRecoveryPolicy := mkDoomPolicy 8 2.

Inductive DoomLoopSignalKind :=
| TailRepetition (threshold : Z)
| LowLogprob
| UnknownKind (head : text).

Record DoomLoopSignal := mkSignal { kind : DoomLoopSignalKind; channel : text; raw : text }.

(** [DoomLoopSignal::parse]. *)
Definition parse_signal (raw : text) : DoomLoopSignal :=
  let '(head, channel) :=
    match split_once "@"%char raw with Some hc => hc | None => (raw, []) end in
  let kind :=
    match split_once ":"%char head with
    | Some (name, threshold) =>
        if decide (name = txt "tail_repetition") then
          match parse_uint u32_max threshold with
          | Some t => TailRepetition t
          | None => UnknownKind head
          end
        else UnknownKind head
    | None => if decide (head = txt "low_logprob") then LowLogprob else UnknownKind head
    end in
  mkSignal kind channel raw.

(** [DoomLoopSignal::tightest]: the loop over the labels. *)
Definition tightest_step (acc : option text * option (Z * text)) (r : text)
    : option text * option (Z * text) :=
  let '(first, best) := acc in
  let first := match first with None => Some r | Some _ => first end in
  let best :=
    match kind (parse_signal r) with
    | TailRepetition t =>
        match best with
        | Some (bt, _) => if t <? bt then Some (t, r) else best
        | None => Some (t, r)
        end
    | _ => best
    end in
  (first, best).

Definition tightest (raws : list text) : option text :=
  let '(first, best) := foldl tightest_step (None, None) raws in
  match best with Some (_, r) => Some r | None => first end.

Definition THINKING_CHANNEL : text := txt "thinking".

Definition is_confident (p : DoomLoopRecoveryPolicy) (s : DoomLoopSignal) : bool :=
  bool_decide (channel s = THINKING_CHANNEL)
  && match kind s with TailRepetition t => t <=? max_threshold p | _ => false end.

Definition confident_triggers (p : DoomLoopRecoveryPolicy) (signals : list DoomLoopSignal)
    : list text := raw <$> filter_b (is_confident p) signals.

(** ** Doom loops: looking into a payload *)

Definition parse_triggers (triggers : option Json) : list DoomLoopSignal :=
  match triggers ≫= as_array with
  | Some arr => parse_signal <$> omap as_str arr
  | None => []
  end.

Definition DOOM_LOOP_CHECK_EVENT_TYPE : text := txt "response.doom_loop_check".

(** [DoomLoopPeek], what the raw payload of an SSE frame says. *)
Inductive DoomLoopPeek :=
| CheckEvent (signals : list DoomLoopSignal)
| ResponseField (signals : list DoomLoopSignal)
| PeekNone.

Definition has_check_type (v : Json) : bool :=
  bool_decide (json_get (txt "type") v ≫= as_str = Some DOOM_LOOP_CHECK_EVENT_TYPE).

Definition peek_doom_loop (from_str : text → option Json) (data : text) : DoomLoopPeek :=
  if negb (contains data (txt "doom_loop_check")) then PeekNone
  else
    match from_str data with
    | None => PeekNone
    | Some value =>
        if has_check_type value then
          CheckEvent (parse_triggers (pointer [txt "doom_loop_check"; txt "triggers"] value))
        else
          match pointer [txt "response"; txt "doom_loop_check"; txt "triggers"] value with
          | Some triggers => ResponseField (parse_triggers (Some triggers))
          | None => PeekNone
          end
    end.

Definition is_check_event (from_str : text → option Json) (event_name data : text) : bool :=
  if decide (event_name = DOOM_LOOP_CHECK_EVENT_TYPE) then true
  else
    contains data DOOM_LOOP_CHECK_EVENT_TYPE
    && match from_str data with Some v => has_check_type v | None => false end.

(** ** Doom loops: the collector of one attempt *)

Record CollectorState := mkCollector {
  signals : list DoomLoopSignal;
  malformed_logged : bool;
  policy : DoomLoopRecoveryPolicy;
  abort_disarmed : bool;
}.

Definition collector_new (p : DoomLoopRecoveryPolicy) : CollectorState :=
  mkCollector [] false p false.

Definition disarm_abort (c : CollectorState) : CollectorState :=
  mkCollector (signals c) (malformed_logged c) (policy c) true.

Definition abort_triggers (c : CollectorState) : option (list text) :=
  if abort_disarmed c then None
  else
    match confident_triggers (policy c) (signals c) with
    | [] => None
    | confident => Some confident
    end.

Definition record_signal (l : list DoomLoopSignal) (s : DoomLoopSignal) : list DoomLoopSignal :=
  if any_b (λ x, bool_decide (raw x = raw s)) l then l else l ++ [s].

Definition record_signals (ss : list DoomLoopSignal) (c : CollectorState) : CollectorState :=
  mkCollector (foldl record_signal (signals c) ss) (malformed_logged c) (policy c)
    (abort_disarmed c).

Definition log_malformed_once (c : CollectorState) : CollectorState :=
  mkCollector (signals c) true (policy c) (abort_disarmed c).

Definition take_signals (c : CollectorState) : list DoomLoopSignal * CollectorState :=
  (signals c, mkCollector [] (malformed_logged c) (policy c) (abort_disarmed c)).

Definition absorb (from_str : text → option Json) (event_name data : text) (c : CollectorState)
    : CollectorState * bool :=
  let named := bool_decide (event_name = DOOM_LOOP_CHECK_EVENT_TYPE) in
  let keep ss := match ss with [] => log_malformed_once c | _ => record_signals ss c end in
  match peek_doom_loop from_str data with
  | CheckEvent ss => (keep ss, true)
  | ResponseField ss => (keep ss, named)
  | PeekNone => (if named then log_malformed_once c else c, named)
  end.

(** ** Retry decisions *)

Definition RATE_LIMIT_RETRY_THRESHOLD : Z := 2.
Definition DEFAULT_MAX_RETRIES : Z := 15.

Definition resolve_max_retries_with_env (env_override : option text)
    (model_max_retries : option Z) : Z :=
  match (env_override ≫= parse_uint u32_max) with
  | Some n => n
  | None => default DEFAULT_MAX_RETRIES model_max_retries
  end.

(** [hash] is the value of the hasher. *)
Definition doom_loop_backoff (hash : Z) : Z := hash mod 251.

(** [u64::checked_shl]: only the shift is checked. *)
Definition u64_checked_shl (a shift : Z) : option Z :=
  if shift <? 64 then Some (Z.shiftl a shift mod 2 ^ 64) else None.

Definition backoff_base (retry_count : Z) : Z :=
  let shift := u64_saturating_sub retry_count 1 in
  Z.min (default u64_max (u64_checked_shl 2000 shift)) 30000.

Definition retry_backoff_with_jitter (retry_count hash : Z) : Z :=
  let base_ms := backoff_base retry_count in
  let jitter_range := base_ms / 5 in
  let jitter := hash mod (jitter_range * 2 + 1) in
  base_ms - jitter_range + jitter.

Inductive RetryDecision :=
| Retry (backoff : Z)
| RetryWithBackoff (backoff : Z) (is_rate_limited : bool)
| RetryWithImageStrip
| RetryWithClientRebuild (backoff : Z)
| EmitToSession (e : SamplingError)
| Fatal (e : SamplingError).

Definition clone_error (err : SamplingError) : SamplingError :=
  match err with Http e => EventStreamError (rq_text e) | _ => err end.

Definition next_backoff (err : SamplingError) (next_attempt hash : Z) : Z :=
  match retry_after err with
  | Some secs => secs * 1000
  | None => retry_backoff_with_jitter next_attempt hash
  end.

Definition classify_error (err : SamplingError)
    (retry_count max_retries rate_limit_threshold hash : Z) : RetryDecision :=
  if is_auth_error err then EmitToSession (clone_error err)
  else if is_encrypted_content_error err then EmitToSession (clone_error err)
  else if is_payload_too_large err then RetryWithImageStrip
  else if is_image_processing_error err then RetryWithImageStrip
  else if bool_decide (should_retry_header err = Some false) then Fatal (clone_error err)
  else if is_context_length_error err then Fatal (clone_error err)
  else
    match err with
    | DoomLoopDetected _ _ => Retry (doom_loop_backoff hash)
    | _ =>
        let next_attempt := u32_add retry_count 1 in
        if is_rate_limited err then
          if Z.min max_retries rate_limit_threshold <=? next_attempt then Fatal (clone_error err)
          else RetryWithBackoff (next_backoff err next_attempt hash) true
        else if is_retryable err then
          if max_retries <=? next_attempt then Fatal (clone_error err)
          else if next_attempt =? 1 then
            RetryWithClientRebuild (next_backoff err next_attempt hash)
          else Retry (next_backoff err next_attempt hash)
        else Fatal (clone_error err)
    end.
