(* ===== verification/SamplingProps.v ===== *)
(** * Sampler: properties of the pure parts

    The backoff before a retry, the labels of detected loops and the collector
    of one attempt ([Sampling]). *)

From S2P Require Import Prelude Text Json Sampling.

Open Scope Z_scope.

(** ** Backoff *)

(** The base delay: two seconds, doubled at each retry, thirty at most. *)
Definition expected_base (retry_count : Z) : Z := Z.min (2000 * 2 ^ (retry_count - 1)) 30000.

Lemma base_table :
  forallb (λ n, backoff_base n =? expected_base n) (seqZ 1 60) = true ∧
  forallb (λ n, backoff_base n =? 0) (seqZ 61 4) = true.
Proof. by vm_compute. Qed.

Lemma backoff_base_expected n : 1 <= n <= 60 ∨ 65 <= n → backoff_base n = expected_base n.
Proof.
  intros [Hn|Hn].
  - pose proof (proj1 base_table) as H. rewrite forallb_forall in H.
    apply Z.eqb_eq, H, list_elem_of_In, elem_of_seqZ. lia.
  - unfold backoff_base, u64_checked_shl, u64_saturating_sub, expected_base.
    rewrite Z.max_l by lia. destruct (Z.ltb_spec (n - 1) 64); [lia|].
    assert (2 ^ 64 <= 2 ^ (n - 1)) by (apply Z.pow_le_mono_r; lia).
    unfold u64_max; simpl default. lia.
Qed.

Lemma backoff_base_lost n : 61 <= n <= 64 → backoff_base n = 0.
Proof.
  intros Hn. pose proof (proj2 base_table) as H. rewrite forallb_forall in H.
  apply Z.eqb_eq, H, list_elem_of_In, elem_of_seqZ. lia.
Qed.

Lemma jitter_bounds n hash :
  0 <= backoff_base n → 0 <= hash →
  backoff_base n - backoff_base n / 5 <= retry_backoff_with_jitter n hash
    <= backoff_base n + backoff_base n / 5.
Proof.
  intros Hb Hh. unfold retry_backoff_with_jitter.
  pose proof (Z.div_pos (backoff_base n) 5 Hb eq_refl).
  pose proof (Z.mod_pos_bound hash (backoff_base n / 5 * 2 + 1)). lia.
Qed.

Lemma expected_base_bounds n : 1 <= n → 2000 <= expected_base n <= 30000.
Proof.
  intros Hn. unfold expected_base. pose proof (Z.pow_pos_nonneg 2 (n - 1)). lia.
Qed.

(** The delay before retry [n].  It stays within a fifth of the base delay
    (two seconds, doubled at each retry, thirty seconds at most), so between 1.6
    and 36 seconds, whatever the hasher gives; except for the retries 61 to 64,
    where the shift loses every bit of the base and there is no delay at all. *)
Theorem backoff_bounds n hash :
  1 <= n <= u32_max → 0 <= hash →
  (n <= 60 ∨ 65 <= n →
    expected_base n - expected_base n / 5 <= retry_backoff_with_jitter n hash
      <= expected_base n + expected_base n / 5 ∧
    1600 <= retry_backoff_with_jitter n hash <= 36000) ∧
  (61 <= n <= 64 → retry_backoff_with_jitter n hash = 0).
Proof.
  intros Hn Hh. split.
  - intros Hr. pose proof (expected_base_bounds n). pose proof (jitter_bounds n hash) as Hj.
    rewrite backoff_base_expected in Hj by lia. specialize (Hj ltac:(lia) Hh).
    split; [exact Hj|]. Z.to_euclidean_division_equations. lia.
  - intros Hr. pose proof (jitter_bounds n hash) as Hj.
    rewrite backoff_base_lost in Hj by done. change (0 / 5) with 0 in Hj. lia.
Qed.

Lemma backoff_bounds_witness :
  (6400 <= retry_backoff_with_jitter 3 12345 <= 9600 ∧
   1600 <= retry_backoff_with_jitter 3 12345 <= 36000) ∧
  retry_backoff_with_jitter 61 12345 = 0.
Proof.
  split.
  - apply (proj1 (backoff_bounds 3 12345 ltac:(unfold u32_max; lia) ltac:(lia))). lia.
  - apply (proj2 (backoff_bounds 61 12345 ltac:(unfold u32_max; lia) ltac:(lia))). lia.
Defined.

(** ** Labels *)

Definition tail_threshold (r : text) : option Z :=
  match kind (parse_signal r) with TailRepetition t => Some t | _ => None end.

(** [best] is the first of the tightest labels of [l]. *)
Definition best_of (l : list text) (best : option (Z * text)) : Prop :=
  match best with
  | None => ∀ r, r ∈ l → tail_threshold r = None
  | Some (t, r) => ∃ k1 k2, l = k1 ++ r :: k2 ∧ tail_threshold r = Some t ∧
      (∀ r' t', r' ∈ k1 → tail_threshold r' = Some t' → t < t') ∧
      (∀ r' t', r' ∈ k2 → tail_threshold r' = Some t' → t <= t')
  end.

(** A label that is not tighter changes nothing. *)
Lemma best_of_keep l best r :
  best_of l best →
  (∀ t', tail_threshold r = Some t' → ∃ t b, best = Some (t, b) ∧ t <= t') →
  best_of (l ++ [r]) best.
Proof.
  intros Hb Hr. destruct best as [[t b]|]; simpl in *.
  - destruct Hb as (k1 & k2 & -> & Hb & H1 & H2). exists k1, (k2 ++ [r]).
    split_and!; try done; [by rewrite <-app_assoc|].
    intros r' t' [?| ->%list_elem_of_singleton]%elem_of_app Ht'; [eauto|].
    destruct (Hr _ Ht') as (? & ? & ? & ?). by simplify_eq.
  - intros r' [?| ->%list_elem_of_singleton]%elem_of_app; [eauto|].
    destruct (tail_threshold r) as [t'|]; [|done]. by destruct (Hr t') as (? & ? & ? & ?).
Qed.

(** A tighter one takes its place. *)
Lemma best_of_replace l best r t :
  best_of l best → tail_threshold r = Some t →
  (∀ bt b, best = Some (bt, b) → t < bt) →
  best_of (l ++ [r]) (Some (t, r)).
Proof.
  intros Hb Hr Hlt. exists l, []. split_and!; [done|done| |by intros ? ? ?%not_elem_of_nil].
  intros r' t' Hr' Ht'. destruct best as [[bt b]|]; simpl in Hb; [|by rewrite Hb in Ht'].
  destruct Hb as (k1 & k2 & -> & Hb & H1 & H2). specialize (Hlt _ _ eq_refl).
  apply elem_of_app in Hr' as [?|[->|?]%elem_of_cons];
    [specialize (H1 _ _ ltac:(done) Ht')|simplify_eq|specialize (H2 _ _ ltac:(done) Ht')]; lia.
Qed.

Lemma best_of_step l f best r :
  best_of l best → best_of (l ++ [r]) (tightest_step (f, best) r).2.
Proof.
  intros Hb. assert (Hr : tail_threshold r = match kind (parse_signal r) with
    TailRepetition t => Some t | _ => None end) by done. unfold tightest_step. simpl.
  destruct (kind (parse_signal r)) as [t| |h].
  2,3: apply best_of_keep; [done|]; intros t' Ht'; congruence.
  destruct best as [[bt b]|]; [destruct (Z.ltb_spec t bt)|].
  - apply (best_of_replace _ _ _ _ Hb Hr). intros ? ? [= <- <-]. lia.
  - apply best_of_keep; [done|]. intros t' Ht'. simplify_eq. eauto.
  - apply (best_of_replace _ _ _ _ Hb Hr). done.
Qed.

Lemma tightest_fold raws :
  (foldl tightest_step (None, None) raws).1 = head raws ∧
  best_of raws (foldl tightest_step (None, None) raws).2.
Proof.
  induction raws as [|r l [IH1 IH2]] using rev_ind; [split; [done|intros ? []%not_elem_of_nil]|].
  rewrite foldl_snoc. destruct (foldl tightest_step _ l) as [f b]; simpl in IH1, IH2.
  split; [|by apply best_of_step]. simpl. rewrite IH1. by destruct l.
Qed.

(** The label reported for a loop.  [tightest] gives nothing only for no
    labels; it gives the first of the [tail_repetition] labels with the lowest
    threshold, and the first label of all when there is no such label. *)
Theorem tightest_exact raws :
  match tightest raws with
  | None => raws = []
  | Some r =>
      (∃ t, best_of raws (Some (t, r))) ∨
      (∀ r', r' ∈ raws → tail_threshold r' = None) ∧ head raws = Some r
  end.
Proof.
  destruct (tightest_fold raws) as [Hf Hb]. unfold tightest.
  destruct (foldl tightest_step _ raws) as [f [[t r]|]]; simpl in *; subst; [eauto|].
  destruct raws; simpl; auto.
Qed.

(** ** The collector *)

Section collector.
Context (from_str : text → option Json).

Definition peek_signals (p : DoomLoopPeek) : list DoomLoopSignal :=
  match p with CheckEvent ss | ResponseField ss => ss | PeekNone => [] end.

(** What a frame reports. *)
Definition reported (frames : list (text * text)) : list DoomLoopSignal :=
  frames ≫= λ f, peek_signals (peek_doom_loop from_str f.2).

Definition absorb_all (frames : list (text * text)) (c : CollectorState) : CollectorState :=
  foldl (λ c f, (absorb from_str f.1 f.2 c).1) c frames.

Definition parsed (s : DoomLoopSignal) : Prop := s = parse_signal (raw s).

Lemma parse_signal_raw r : raw (parse_signal r) = r.
Proof. unfold parse_signal. by repeat case_match. Qed.

Lemma parse_triggers_parsed v : Forall parsed (parse_triggers v).
Proof.
  unfold parse_triggers. destruct (v ≫= as_array); [|constructor].
  apply Forall_forall. intros s (r & -> & _)%list_elem_of_fmap. unfold parsed.
  by rewrite parse_signal_raw.
Qed.

Lemma peek_parsed data : Forall parsed (peek_signals (peek_doom_loop from_str data)).
Proof.
  unfold peek_doom_loop. repeat case_match; simpl; auto using parse_triggers_parsed.
Qed.

(** Distinct parsed signals have distinct labels. *)
Record collected (ss : list DoomLoopSignal) (l : list DoomLoopSignal) : Prop := {
  collected_nodup : NoDup (raw <$> l);
  collected_parsed : Forall parsed l;
  collected_elem : ∀ s, s ∈ l ↔ s ∈ ss;
}.

Lemma record_signal_collected ss l s :
  collected ss l → parsed s → collected (ss ++ [s]) (record_signal l s).
Proof.
  intros [Hn Hp He] Hs. unfold record_signal. destruct (any_b _ l) eqn:Ea.
  - apply any_b_true in Ea as (x & Hx & Hraw). breflect.
    assert (x = s) as ->.
    { rewrite Forall_forall in Hp. by rewrite (Hp x Hx), Hraw, <-Hs. }
    split; [done|done|]. intros s'. rewrite He, elem_of_app, list_elem_of_singleton.
    split; [auto|intros [?| ->]; [done|by apply He]].
  - rewrite any_b_false in Ea. split.
    + rewrite fmap_app, NoDup_app. split_and!; [done| |apply NoDup_singleton].
      intros r (x & -> & Hx)%list_elem_of_fmap Hr%list_elem_of_singleton.
      specialize (Ea x Hx). simpl in Ea. by case_bool_decide.
    + apply Forall_app; auto.
    + intros s'. by rewrite !elem_of_app, He.
Qed.

Lemma record_signals_collected new ss l :
  collected ss l → Forall parsed new → collected (ss ++ new) (foldl record_signal l new).
Proof.
  revert ss l. induction new as [|s new IH]; intros ss l Hc Hp; simpl.
  - by rewrite app_nil_r.
  - apply Forall_cons in Hp as [??]. rewrite (cons_middle s ss new), app_assoc.
    apply IH; [|done]. by apply record_signal_collected.
Qed.

Lemma absorb_signals name data c :
  signals (absorb from_str name data c).1 =
    foldl record_signal (signals c) (peek_signals (peek_doom_loop from_str data)).
Proof.
  unfold absorb. destruct (peek_doom_loop from_str data) as [[|s ss]|[|s ss]|]; simpl; try done.
  by case_bool_decide.
Qed.

Lemma absorb_fields name data c :
  policy (absorb from_str name data c).1 = policy c ∧
  abort_disarmed (absorb from_str name data c).1 = abort_disarmed c.
Proof. unfold absorb. repeat case_match; done. Qed.

Lemma absorb_all_spec frames c ss :
  collected ss (signals c) →
  let c' := absorb_all frames c in
  collected (ss ++ reported frames) (signals c') ∧ policy c' = policy c ∧
  abort_disarmed c' = abort_disarmed c.
Proof.
  revert c ss. induction frames as [|f frames IH]; intros c ss Hc; simpl.
  - unfold reported. simpl. by rewrite app_nil_r.
  - destruct (absorb_fields f.1 f.2 c) as [Hp Ha].
    destruct (IH (absorb from_str f.1 f.2 c).1 (ss ++ peek_signals (peek_doom_loop from_str f.2)))
      as (H1 & H2 & H3).
    { rewrite absorb_signals. apply record_signals_collected; [done|apply peek_parsed]. }
    unfold reported in *; simpl. rewrite app_assoc.
    split_and!; [done|by rewrite <-Hp|by rewrite <-Ha].
Qed.

Lemma confident_triggers_nil p l :
  confident_triggers p l = [] ↔ ∀ s, s ∈ l → is_confident p s = false.
Proof.
  unfold confident_triggers. split.
  - intros H%fmap_nil_inv s Hs. apply not_true_iff_false. intros Hc.
    assert (Hin : s ∈ filter_b (is_confident p) l) by (by apply elem_of_filter_b).
    rewrite H in Hin. by apply not_elem_of_nil in Hin.
  - intros H. by rewrite filter_b_none.
Qed.

End collector.

(** The signals of an attempt.  Whatever frames arrive, every label they
    report is recorded once, parsed, and nothing else is; the attempt is to be
    aborted exactly when some reported signal is confident under the policy, with
    the labels of exactly those signals; once disarmed it is not; and every frame
    that is a check event is kept from the typed parser. *)
Theorem collector_exact from_str p frames :
  let c := absorb_all from_str frames (collector_new p) in
  NoDup (raw <$> signals c) ∧
  (∀ s, s ∈ signals c ↔ s ∈ reported from_str frames) ∧
  (∀ s, s ∈ signals c → s = parse_signal (raw s)) ∧
  (abort_triggers c = None ↔ ∀ s, s ∈ reported from_str frames → is_confident p s = false) ∧
  (∀ l r, abort_triggers c = Some l →
    r ∈ l ↔ ∃ s, s ∈ reported from_str frames ∧ is_confident p s = true ∧ raw s = r) ∧
  abort_triggers (disarm_abort c) = None ∧
  (∀ name data, is_check_event from_str name data = true → (absorb from_str name data c).2 = true).
Proof.
  intros c. destruct (absorb_all_spec from_str frames (collector_new p) []) as ([Hn Hp He] & Hpol & Ha).
  { split; [constructor|constructor|done]. }
  fold c in Hn, Hp, He, Hpol, Ha. simpl in Hpol, Ha, He. unfold abort_triggers. rewrite Ha, Hpol.
  split_and!; [done|done|by apply Forall_forall| | |done|].
  - setoid_rewrite <-He. rewrite <-confident_triggers_nil. by case_match.
  - intros l r Hl. assert (l = confident_triggers p (signals c)) as -> by (by case_match; simplify_eq).
    unfold confident_triggers. rewrite list_elem_of_fmap. setoid_rewrite elem_of_filter_b.
    setoid_rewrite He. naive_solver.
  - intros name data. unfold is_check_event, absorb, peek_doom_loop.
    case_decide as Hname; [rewrite bool_decide_true by done; by repeat case_match|].
    intros [Hc Ht]%andb_true_iff. apply contains_spec in Hc as (a & b & Hd).
    rewrite (proj2 (contains_spec data (txt "doom_loop_check"))); simpl.
    + destruct (from_str data) as [v|]; [|done]. by rewrite Ht.
    + exists (a ++ txt "response."), b. by rewrite Hd, <-!app_assoc.
Qed.
