(* ===== verification/SamplerTask.v ===== *)
(** * Sampler: the task of one request

    [ds-sampler/src/actor/request_task.rs] with the events of
    [ds-sampler/src/events.rs] and the response of the model: attempts, the decision
    after each, the budgets, the terminal event and the completion channel.

    What the network does in one attempt is an [AttemptWorld]: whether the task
    was cancelled before it or during it, the events of the stream transform
    with the first raw error the tee captured, the hasher's value and whether the
    client could be rebuilt.  The class [Network] gives the world of every
    attempt; what it promises is the class [NetworkLaws] of [SamplerProps].  The
    loop has fuel; [SamplerProps] shows how much is enough. *)

From S2P Require Import Prelude Text Json Conversation Sampling.
From stdpp Require Import pretty.

Open Scope Z_scope.

(** ** Responses *)

Record ConversationResponse := mkResponse {
  items : list ConversationItem;
  stop_reason : option StopReason;
  usage : option TokenUsage;
  doom_loop_signals : list DoomLoopSignal;
}.

(** [ConversationResponse::assistant]: the last one. *)
Definition assistant (r : ConversationResponse) : option AssistantItem :=
  last (omap (λ i, match i with Assistant a => Some a | _ => None end) (items r)).

Definition reasoning_items (r : ConversationResponse) : list ReasoningItem :=
  omap (λ i, match i with Reasoning x => Some x | _ => None end) (items r).

Definition has_reasoning (r : ConversationResponse) : bool :=
  any_b (λ x, negb (bool_decide (r_summary x = [])) || bool_decide (is_Some (r_content x))
              || bool_decide (is_Some (r_encrypted_content x))) (reasoning_items r).

Definition empty_reason (r : ConversationResponse) : option EmptyReason :=
  match assistant r with
  | None => Some NoVisibleContent
  | Some a =>
      if negb (bool_decide (content a = [])) || negb (bool_decide (tool_calls a = [])) then None
      else if has_reasoning r then Some ReasoningOnly else Some NoVisibleContent
  end.

Definition build_empty_context (reason : EmptyReason) (r : ConversationResponse)
    : EmptyResponseContext :=
  let '(content_len, tool_call_count, model, first_choice_seen) :=
    match assistant r with
    | Some a => (length (content a), length (tool_calls a), default [] (model_id a),
                 bool_decide (is_Some (model_id a)))
    | None => (0%nat, 0%nat, [], false)
    end in
  mkEmptyContext reason (has_reasoning r) content_len tool_call_count
    (stop_reason_str <$> stop_reason r) (completion_tokens <$> usage r)
    (reasoning_tokens <$> usage r) (prompt_tokens <$> usage r) model first_choice_seen.

(** ** Events *)

(** The latencies, which the task only passes on, are one field. *)
Record InferenceLatencyStats := mkStats { latencies : list Z; attempts : Z }.

Inductive SamplingErrorKind :=
| KAuth | KHttp | KApi | KSerialization | KIdleTimeout | KRateLimited | KEmptyResponse
| KMaxTokensTruncation | KDoomLoopDetected.

Record SamplingErrorInfo := mkInfo {
  info_kind : SamplingErrorKind;
  info_status_code : option Z;
  info_message : text;
  info_is_retryable : bool;
  info_retry_after_secs : option Z;
  info_model_metadata : option ResponseModelMetadata;
  info_empty_response_context : option EmptyResponseContext;
  info_doom_loop_triggers : option (list text);
  info_doom_loop_aborted_at_chunk : option Z;
}.

Inductive SamplingChannel := ChannelText | ChannelReasoning.

(** [SamplingEvent]; the request identifier, the same in all of them, is left
    out. *)
Inductive SamplingEvent :=
| StreamStarted (timestamp_ms : Z)
| FirstToken
| ChannelToken (channel : SamplingChannel) (t : text) (chunk_index : Z)
| ToolCallDelta (tool_index : Z) (id name arguments_delta : option text)
| Completed (response : ConversationResponse) (metrics : InferenceLatencyStats)
| Retrying (attempt max_retries : Z) (k : SamplingErrorKind) (reason : text)
    (doom_loop_triggers : option (list text)) (doom_loop_aborted_at_chunk : option Z)
| Failed (error : SamplingErrorInfo)
| ModelMetadata (metadata : ResponseModelMetadata)
| BackendToolCallStarted (call_id name : text)
| BackendToolCallCompleted (call_id name : text) (result : option text).

Definition empty_reason_str (r : EmptyReason) : text :=
  txt match r with ReasoningOnly => "reasoning_only" | NoVisibleContent => "no_visible_content" end.

Section display.
(** [Display] of [reqwest::StatusCode]. *)
Context (status_display : Z → text).

(** The [#[error]] templates of [SamplingError]. *)
Definition display_error (e : SamplingError) : text :=
  match e with
  | Auth msg => msg
  | InvalidConfiguration msg => txt "invalid client configuration: " ++ msg
  | Http err => txt "request error: " ++ rq_text err
  | Serialization r => SERIALIZATION_DISPLAY_PREFIX ++ r
  | Api s message _ _ _ =>
      txt "API error (status " ++ status_display s ++ txt "): " ++ message
  | EventStreamError msg => txt "reqwest error stream: " ++ msg
  | StreamError ty message => txt "stream error (" ++ ty ++ txt "): " ++ message
  | IdleTimeout n =>
      txt "inference idle timeout after " ++ txt (pretty n) ++ txt "s with no chunks"
  | EmptyResponse ctx =>
      txt "empty response from model (" ++ empty_reason_str (ec_reason ctx) ++ txt ")"
  | MaxTokensTruncation => txt "response truncated by max_tokens"
  | DoomLoopDetected triggers _ => txt "doom loop detected: " ++ join_with (txt ", ") triggers
  end.

(** [impl From<&SamplingError> for SamplingErrorInfo]. *)
Definition info_from (err : SamplingError) : SamplingErrorInfo :=
  let '(k, status_code, retry_after_secs, metadata) :=
    match err with
    | Auth _ => (KAuth, None, None, None)
    | InvalidConfiguration _ => (KApi, None, None, None)
    | Http _ => (KHttp, None, None, None)
    | Serialization _ => (KSerialization, None, None, None)
    | Api s _ m r _ => (if is_rate_limited err then KRateLimited else KApi, Some s, r, m)
    | EventStreamError _ => (KHttp, None, None, None)
    | StreamError _ _ => (KApi, None, None, None)
    | IdleTimeout _ => (KIdleTimeout, None, None, None)
    | EmptyResponse _ => (KEmptyResponse, None, None, None)
    | MaxTokensTruncation => (KMaxTokensTruncation, None, None, None)
    | DoomLoopDetected _ _ => (KDoomLoopDetected, None, None, None)
    end in
  let ctx := match err with EmptyResponse c => Some c | _ => None end in
  let '(triggers, chunk) :=
    match err with DoomLoopDetected t c => (Some t, c) | _ => (None, None) end in
  mkInfo k status_code (display_error err) (is_retryable err) retry_after_secs metadata ctx
    triggers chunk.

(** [synthesize_from_info]: the error behind an event the transform made up. *)
Definition elapsed_in (message : text) : Z :=
  default 0 (head (omap (λ tok, strip_last "s"%char tok ≫= parse_uint u64_max)
    (split_whitespace message))).

Definition status_from_u16 (c : Z) : option Z := if (100 <=? c) && (c <? 1000) then Some c else None.

Definition synthesize_from_info (info : SamplingErrorInfo) : SamplingError :=
  match info_kind info with
  | KIdleTimeout => IdleTimeout (elapsed_in (info_message info))
  | KAuth => Auth (info_message info)
  | KSerialization => serialization_from_rendered (info_message info)
  | KHttp => EventStreamError (info_message info)
  | KApi | KRateLimited =>
      Api (default 500 (info_status_code info ≫= status_from_u16)) (info_message info)
        (info_model_metadata info) (info_retry_after_secs info) None
  | KEmptyResponse =>
      match info_empty_response_context info with
      | Some ctx => EmptyResponse ctx
      | None => EventStreamError (info_message info)
      end
  | KMaxTokensTruncation => MaxTokensTruncation
  | KDoomLoopDetected =>
      DoomLoopDetected (default [] (info_doom_loop_triggers info))
        (info_doom_loop_aborted_at_chunk info)
  end.

(** ** One attempt *)

Inductive AttemptOutcome :=
| OutcomeCompleted (response : ConversationResponse) (metrics : InferenceLatencyStats)
| OutcomeEmpty (context : EmptyResponseContext)
| OutcomeFailed (error : SamplingError)
| OutcomeCancelled
| OutcomeInitFailed (error : SamplingError).

(** The outcome of a completed stream in [drive_l2]. *)
Definition completed_outcome (doom_check : option DoomLoopRecoveryPolicy)
    (response : ConversationResponse) (metrics : InferenceLatencyStats) : AttemptOutcome :=
  let triggers :=
    match doom_check with
    | Some p => confident_triggers p (doom_loop_signals response)
    | None => []
    end in
  match triggers with
  | _ :: _ => OutcomeFailed (DoomLoopDetected triggers None)
  | [] =>
      match stop_reason response, empty_reason response with
      | Some Length, _ => OutcomeFailed MaxTokensTruncation
      | Some ContentFilter, _ | _, None => OutcomeCompleted response metrics
      | _, Some reason => OutcomeEmpty (build_empty_context reason response)
      end
  end.

(** [drive_l2]: the events forwarded, and the outcome.  [cancel_at] is the
    number of stream events received before the token fires, if it does;
    [captured] is the error in the tee's cell. *)
Fixpoint drive_l2 (doom_check : option DoomLoopRecoveryPolicy) (captured : option SamplingError)
    (cancel_at : option nat) (l2 : list SamplingEvent) : list SamplingEvent * AttemptOutcome :=
  match cancel_at, l2 with
  | Some 0%nat, _ => ([], OutcomeCancelled)
  | _, [] =>
      ([], OutcomeFailed (EventStreamError (txt "stream dropped without terminal event")))
  | _, Completed response metrics :: _ => ([], completed_outcome doom_check response metrics)
  | _, Failed info :: _ => ([], OutcomeFailed (default (synthesize_from_info info) captured))
  | _, other :: l2' =>
      let '(forwarded, outcome) := drive_l2 doom_check captured (pred <$> cancel_at) l2' in
      (other :: forwarded, outcome)
  end.

(** What the client and the stream transform do. *)
Inductive L2Result :=
| InitError (e : SamplingError)
| L2Events (l2 : list SamplingEvent) (raw_error : option SamplingError).

Record AttemptWorld := mkWorld {
  aw_cancelled : bool;
  aw_result : L2Result;
  aw_cancel_at : option nat;
  aw_hash : Z;
  aw_rebuild_ok : bool;
}.

(** [run_one_attempt]; [tee_errors] captures a clone of the first raw error. *)
Definition run_one_attempt (backend : ApiBackend) (doom_check : option DoomLoopRecoveryPolicy)
    (w : AttemptWorld) : list SamplingEvent * AttemptOutcome :=
  match aw_result w with
  | InitError e => ([], OutcomeInitFailed e)
  | L2Events l2 raw_error =>
      let check := match backend with Responses => doom_check | _ => None end in
      drive_l2 check (clone_error <$> raw_error) (aw_cancel_at w) l2
  end.

(** ** The retry loop *)

Record RetryPolicy := mkRetryPolicy { max_retries : Z; rate_limit_retry_threshold : Z }.

(** The parts of [SamplerConfig] the task uses. *)
Record SamplerConfig := mkConfig {
  api_backend : ApiBackend;
  cfg_force_http1 : bool;
  cfg_max_retries : option Z;
  doom_loop_recovery : option DoomLoopRecoveryPolicy;
}.

Inductive CompletionResult :=
| CompletionOk (response : ConversationResponse) (metrics : InferenceLatencyStats)
| CompletionErr (e : SamplingError).

(** The variables of [run_request_task], what it sent, and the number of
    attempts made. *)
Record TaskState := mkTask {
  request : list ConversationItem;
  force_http1 : bool;
  retry_count : Z;
  doom_retry_count : Z;
  completion_tx : bool;
  sent : list SamplingEvent;
  completed : list CompletionResult;
  slept : list Z;
  made : nat;
}.

Definition emit (e : SamplingEvent) (t : TaskState) : TaskState :=
  mkTask (request t) (force_http1 t) (retry_count t) (doom_retry_count t) (completion_tx t)
    (sent t ++ [e]) (completed t) (slept t) (made t).
Definition forward (es : list SamplingEvent) (t : TaskState) : TaskState :=
  mkTask (request t) (force_http1 t) (retry_count t) (doom_retry_count t) (completion_tx t)
    (sent t ++ es) (completed t) (slept t) (S (made t)).
Definition set_request (r : list ConversationItem) (t : TaskState) : TaskState :=
  mkTask r (force_http1 t) (retry_count t) (doom_retry_count t) (completion_tx t)
    (sent t) (completed t) (slept t) (made t).
Definition set_http1 (b : bool) (t : TaskState) : TaskState :=
  mkTask (request t) b (retry_count t) (doom_retry_count t) (completion_tx t)
    (sent t) (completed t) (slept t) (made t).
Definition set_retry_count (n : Z) (t : TaskState) : TaskState :=
  mkTask (request t) (force_http1 t) n (doom_retry_count t) (completion_tx t)
    (sent t) (completed t) (slept t) (made t).
Definition set_doom_retry_count (n : Z) (t : TaskState) : TaskState :=
  mkTask (request t) (force_http1 t) (retry_count t) n (completion_tx t)
    (sent t) (completed t) (slept t) (made t).
Definition sleep (d : Z) (t : TaskState) : TaskState :=
  mkTask (request t) (force_http1 t) (retry_count t) (doom_retry_count t) (completion_tx t)
    (sent t) (completed t) (slept t ++ [d]) (made t).

Definition send_completion (r : CompletionResult) (t : TaskState) : TaskState :=
  if completion_tx t then
    mkTask (request t) (force_http1 t) (retry_count t) (doom_retry_count t) false
      (sent t) (completed t ++ [r]) (slept t) (made t)
  else t.

Definition emit_failed (err : SamplingError) (t : TaskState) : TaskState :=
  emit (Failed (info_from err)) t.

Definition emit_retrying (attempt max : Z) (err : SamplingError) (t : TaskState) : TaskState :=
  let info := info_from err in
  emit (Retrying attempt max (info_kind info) (display_error err) (info_doom_loop_triggers info)
          (info_doom_loop_aborted_at_chunk info)) t.

Definition handle_cancellation (t : TaskState) : TaskState :=
  send_completion (CompletionErr (Auth (txt "request cancelled")))
    (emit (Failed (mkInfo KApi None (txt "request cancelled") false None None None None None)) t).

(** [*retry_count += 1], the [Retrying] event and the sleep. *)
Definition count_retry (max : Z) (err : SamplingError) (t : TaskState) : TaskState :=
  let n := u32_add (retry_count t) 1 in emit_retrying n max err (set_retry_count n t).

Definition apply_retry_decision (policy : RetryPolicy) (max : Z) (w : AttemptWorld)
    (err : SamplingError) (t : TaskState) : TaskState * bool :=
  let rate_limit_threshold :=
    if rate_limit_retry_threshold policy =? 0 then RATE_LIMIT_RETRY_THRESHOLD
    else rate_limit_retry_threshold policy in
  let decision := classify_error err (retry_count t) max rate_limit_threshold (aw_hash w) in
  let t := if is_likely_body_rejected err then set_request (strip_images (request t)).1 t else t in
  match decision with
  | Retry backoff | RetryWithBackoff backoff _ => (sleep backoff (count_retry max err t), true)
  | RetryWithImageStrip =>
      let '(r, stripped) := strip_images (request t) in
      let t := set_request r t in
      if decide (stripped = 0%nat) then
        (send_completion (CompletionErr (clone_error err)) (emit_failed err t), false)
      else (count_retry max err t, true)
  | RetryWithClientRebuild backoff =>
      let t := sleep backoff (count_retry max err t) in
      (if aw_rebuild_ok w then set_http1 true t else t, true)
  | EmitToSession e | Fatal e =>
      (send_completion (CompletionErr e) (emit_failed e t), false)
  end.

(** What the model API and the network do at each attempt, as a function of its
    number, the request, the client and whether the abort is armed. *)
Class Network :=
  attempt_world : nat → list ConversationItem → bool → option DoomLoopRecoveryPolicy → AttemptWorld.

Context `{N : Network}.

Definition task_doom_max (config : SamplerConfig) : Z :=
  match doom_loop_recovery config with Some p => doom_max_retries p | None => 0 end.

(** [doom_check]: the policy, while the resample budget is not spent. *)
Definition task_doom_check (config : SamplerConfig) (t : TaskState)
    : option DoomLoopRecoveryPolicy :=
  match doom_loop_recovery config with
  | Some p => if doom_retry_count t <? task_doom_max config then Some p else None
  | None => None
  end.

(** One iteration of the loop: the state, and whether the loop goes on. *)
Definition loop_step (config : SamplerConfig) (policy : RetryPolicy) (max : Z) (t : TaskState)
    : TaskState * bool :=
  let doom_max := task_doom_max config in
  let doom_check := task_doom_check config t in
  let w := attempt_world (made t) (request t) (force_http1 t) doom_check in
  if aw_cancelled w then (handle_cancellation t, false)
  else
    let '(forwarded, outcome) := run_one_attempt (api_backend config) doom_check w in
    let t := forward forwarded t in
    match outcome with
    | OutcomeCompleted response metrics =>
        let metrics :=
          mkStats (latencies metrics) (u32_add (u32_add (retry_count t) (doom_retry_count t)) 1) in
        (send_completion (CompletionOk response metrics) (emit (Completed response metrics) t), false)
    | OutcomeEmpty context =>
        apply_retry_decision policy max w (EmptyResponse context) t
    | OutcomeFailed (DoomLoopDetected triggers chunk as error) =>
        let n := u32_add (doom_retry_count t) 1 in
        (sleep (doom_loop_backoff (aw_hash w))
           (emit_retrying n doom_max error (set_doom_retry_count n t)), true)
    | OutcomeFailed error | OutcomeInitFailed error => apply_retry_decision policy max w error t
    | OutcomeCancelled => (handle_cancellation t, false)
    end.

Fixpoint run_loop (fuel : nat) (config : SamplerConfig) (policy : RetryPolicy) (max : Z)
    (t : TaskState) : option TaskState :=
  match fuel with
  | 0%nat => None
  | S fuel =>
      let '(t, go) := loop_step config policy max t in
      if go : bool then run_loop fuel config policy max t else Some t
  end.

(** [max_retries] of the task. *)
Definition task_max_retries (env_override : option text) (config : SamplerConfig)
    (policy : RetryPolicy) : Z :=
  resolve_max_retries_with_env env_override
    (Some (default (max_retries policy) (cfg_max_retries config))).

(** [run_request_task]; [client] is the result of building the client. *)
Definition run_request_task (fuel : nat) (env_override : option text)
    (client : option SamplingError) (req : list ConversationItem) (config : SamplerConfig)
    (policy : RetryPolicy) (with_completion : bool) : option TaskState :=
  let max := task_max_retries env_override config policy in
  let t := mkTask req (cfg_force_http1 config) 0 0 with_completion [] [] [] 0 in
  match client with
  | Some err => Some (send_completion (CompletionErr err) (emit_failed err t))
  | None => run_loop fuel config policy max t
  end.

End display.
