(* ===== verification/SamplerProps.v ===== *)
(** * Sampler: properties of the task of one request

    The task ends within its budgets, with one terminal event that agrees with
    what the completion channel carries, and it accepts no response it should
    have resampled.  Each theorem follows from one description of an iteration
    of the loop, [loop_step_spec], and of the whole task,
    [run_request_task_finishes]. *)

From S2P Require Import Prelude Text Json Conversation Sampling SamplerTask.
From stdpp Require Import pretty.

Open Scope Z_scope.

(** ** Images *)

(** 1 when the request still has images to strip, 0 otherwise. *)
Definition strippable (r : list ConversationItem) : Z :=
  if decide ((strip_images r).2 = 0%nat) then 0 else 1.

Lemma strip_part_idem p : strip_part (strip_part p) = strip_part p.
Proof. by destruct p. Qed.

Lemma strip_part_no_image ps : filter_b is_image (strip_part <$> ps) = [].
Proof.
  apply filter_b_none. intros p (q & -> & _)%list_elem_of_fmap. by destruct q.
Qed.

Lemma strip_item_idem i : strip_item (strip_item i).1 = ((strip_item i).1, 0%nat).
Proof.
  destruct i; simpl; try done. rewrite strip_part_no_image. unfold set_user_content; simpl.
  rewrite <-list_fmap_compose. do 3 f_equal. apply list_fmap_ext. intros ? p _. apply strip_part_idem.
Qed.

Lemma strip_images_idem r :
  strip_images (strip_images r).1 = ((strip_images r).1, 0%nat).
Proof.
  unfold strip_images; simpl. induction r as [|i r IH]; [done|].
  cbn. rewrite strip_item_idem. injection IH as -> H0. cbn. f_equal. exact H0.
Qed.

Lemma strippable_stripped r : strippable (strip_images r).1 = 0.
Proof. unfold strippable. by rewrite strip_images_idem. Qed.

Lemma strippable_range r : 0 <= strippable r <= 1.
Proof. unfold strippable. case_decide; lia. Qed.

#[local] Opaque strip_images.
#[local] Arguments u32_add : simpl never.

(** ** The classifier *)

Definition is_doom (e : SamplingError) : bool :=
  match e with DoomLoopDetected _ _ => true | _ => false end.

Definition retry_budget (max : Z) : Z := Z.max 0 (max - 1).

(** A decision that retries with the same request only does so within the
    budget; every other one gives up with a clone of the error. *)
Definition decision_ok (err : SamplingError) (rc max : Z) (d : RetryDecision) : Prop :=
  match d with
  | Retry _ | RetryWithBackoff _ _ | RetryWithClientRebuild _ => u32_add rc 1 < max
  | RetryWithImageStrip => ∃ s m md ra sr, err = Api s m md ra sr
  | EmitToSession e | Fatal e => e = clone_error err
  end.

Lemma classify_error_ok err rc max thr hash :
  is_doom err = false → decision_ok err rc max (classify_error err rc max thr hash).
Proof.
  intros Hd. unfold classify_error.
  destruct err; simpl in *; try done; split_matches; simpl; breflect; eauto 10; lia.
Qed.

(** ** What an iteration does *)

Definition is_terminal (e : SamplingEvent) : bool :=
  match e with Completed _ _ | Failed _ => true | _ => false end.

Definition cancelled_info : SamplingErrorInfo :=
  mkInfo KApi None (txt "request cancelled") false None None None None None.

Section task.
Context (status_display : Z → text) `{N : Network}.

(** The request is cancelled before or in one of its attempts. *)
Definition may_cancel : Prop :=
  ∃ n r h c, let w := attempt_world n r h c in aw_cancelled w = true ∨ is_Some (aw_cancel_at w).

(** The terminal event and the result on the completion channel say the same; on
    cancellation the kinds of their errors differ. *)
Inductive agrees : SamplingEvent → CompletionResult → Prop :=
| agrees_ok r m : agrees (Completed r m) (CompletionOk r m)
| agrees_err e : agrees (Failed (info_from status_display e)) (CompletionErr e)
| agrees_cancelled :
    may_cancel → agrees (Failed cancelled_info) (CompletionErr (Auth (txt "request cancelled"))).

(** [t'] is [t] after the terminal event [e] and its completion. *)
Definition ended (e : SamplingEvent) (t t' : TaskState) : Prop :=
  ∃ r, agrees e r ∧ sent t' = sent t ++ [e] ∧
    completed t' = completed t ++ (if completion_tx t then [r] else []) ∧
    made t' = made t ∧ doom_retry_count t' = doom_retry_count t ∧
    (request t' = request t ∨ request t' = (strip_images (request t)).1).

Lemma ended_intro e r t q :
  agrees e r → q = request t ∨ q = (strip_images (request t)).1 →
  ended e t (send_completion r (emit e (set_request q t))).
Proof.
  intros Ha Hq. exists r. unfold send_completion; simpl.
  destruct (completion_tx t) eqn:E; simpl; rewrite ?app_nil_r; naive_solver.
Qed.

(** [t'] is [t] after a counted retry. *)
Record retried (max : Z) (t t' : TaskState) : Prop := {
  retried_rc : retry_count t' = u32_add (retry_count t) 1;
  retried_drc : doom_retry_count t' = doom_retry_count t;
  retried_tx : completion_tx t' = completion_tx t;
  retried_completed : completed t' = completed t;
  retried_made : made t' = made t;
  retried_sent : ∃ a k s dt dc, sent t' = sent t ++ [Retrying a max k s dt dc];
  retried_request : request t' = request t ∨ request t' = (strip_images (request t)).1;
  retried_budget :
    u32_add (retry_count t) 1 < max ∨
    strippable (request t) = 1 ∧ request t' = (strip_images (request t)).1;
}.

Lemma apply_retry_decision_spec policy max w err t :
  is_doom err = false →
  let '(t', go) := apply_retry_decision status_display policy max w err t in
  if go then retried max t t' else ∃ info, ended (Failed info) t t'.
Proof.
  intros Hd. unfold apply_retry_decision.
  set (thr := if rate_limit_retry_threshold policy =? 0 then _ else _).
  pose proof (classify_error_ok err (retry_count t) max thr (aw_hash w) Hd) as Hok.
  destruct (classify_error _ _ _ _ _) eqn:Ed; simpl in Hok.
  all: set (q := if is_likely_body_rejected err then (strip_images (request t)).1 else request t).
  all: assert (Hq : (if is_likely_body_rejected err
                     then set_request (strip_images (request t)).1 t else t) = set_request q t)
    by (unfold q; destruct t, (is_likely_body_rejected err); done).
  all: assert (Hq' : q = request t ∨ q = (strip_images (request t)).1)
    by (unfold q; destruct (is_likely_body_rejected err); auto).
  all: rewrite Hq.
  - split; simpl; eauto 10.
  - split; simpl; eauto 10.
  - destruct Hok as (s & m & md & ra & sr & ->). subst q. clear Hq. cbn [is_likely_body_rejected].
    change (request (set_request (request t) t)) with (request t).
    destruct (strip_images (request t)) as [r n] eqn:Es. case_decide as Hn.
    + eexists. refine (ended_intro _ _ t r _ _); [constructor|]. rewrite Es; auto.
    + split; simpl; rewrite ?Es; eauto 10. right. split; [|done].
      unfold strippable. rewrite Es; simpl. by case_decide.
  - destruct (aw_rebuild_ok w); split; simpl; eauto 10.
  - subst. eexists. by apply ended_intro; [constructor|].
  - subst. eexists. by apply ended_intro; [constructor|].
Qed.

(** ** One attempt *)

(** A completed response is accepted when it is neither truncated nor empty nor,
    under an armed check, a confident loop. *)
Definition acceptable (check : option DoomLoopRecoveryPolicy) (r : ConversationResponse) : Prop :=
  stop_reason r ≠ Some Length ∧
  (stop_reason r = Some ContentFilter ∨ empty_reason r = None) ∧
  ∀ p, check = Some p → confident_triggers p (doom_loop_signals r) = [].

Lemma completed_outcome_accepts check r m r' m' :
  completed_outcome check r m = OutcomeCompleted r' m' → r' = r ∧ acceptable check r.
Proof.
  unfold completed_outcome, acceptable. intros H.
  destruct check as [p|]; [destruct (confident_triggers p _) eqn:Et; [|done]|];
    destruct (stop_reason r) as [[]|] eqn:Es, (empty_reason r) eqn:Er; naive_solver.
Qed.

Lemma completed_outcome_doom check r m e :
  completed_outcome check r m = OutcomeFailed e → is_doom e = true → is_Some check.
Proof.
  unfold completed_outcome. intros H Hd. destruct check as [p|]; [eauto|].
  destruct (stop_reason r) as [[]|], (empty_reason r); naive_solver.
Qed.

(** Nothing in the result reports a doom loop. *)
Definition doom_free (res : L2Result) : Prop :=
  match res with
  | InitError e => is_doom e = false
  | L2Events l2 raw_error =>
      (∀ e, raw_error = Some e → is_doom e = false) ∧
      ∀ info, Failed info ∈ l2 → info_kind info ≠ KDoomLoopDetected
  end.

Lemma clone_error_doom e : is_doom (clone_error e) = is_doom e.
Proof. by destruct e. Qed.

Lemma synthesize_doom info :
  info_kind info ≠ KDoomLoopDetected → is_doom (synthesize_from_info info) = false.
Proof. unfold synthesize_from_info. intros. repeat case_match; done. Qed.

Record attempt_ok (check : option DoomLoopRecoveryPolicy) (free : Prop)
    (res : list SamplingEvent * AttemptOutcome) : Prop := {
  attempt_forwarded : Forall (λ e, is_terminal e = false) res.1;
  attempt_accepts : ∀ r m, res.2 = OutcomeCompleted r m → acceptable check r;
  attempt_doom : ∀ e, res.2 = OutcomeFailed e → is_doom e = true → free → is_Some check;
}.

Lemma drive_l2_other check captured cancel ev l2 :
  cancel ≠ Some 0%nat → is_terminal ev = false →
  drive_l2 check captured cancel (ev :: l2) =
    (ev :: (drive_l2 check captured (pred <$> cancel) l2).1,
     (drive_l2 check captured (pred <$> cancel) l2).2).
Proof. destruct cancel as [[|c]|], ev; simpl; intros; try done; by destruct (drive_l2 _ _ _ l2). Qed.

Lemma drive_l2_ok check raw_error cancel l2 :
  attempt_ok check (doom_free (L2Events l2 raw_error))
    (drive_l2 check (clone_error <$> raw_error) cancel l2).
Proof.
  revert cancel. induction l2 as [|ev l2 IH]; intros cancel.
  - destruct cancel as [[|c]|]; split; naive_solver.
  - destruct (decide (cancel = Some 0%nat)) as [->|Hc]; [split; naive_solver|].
    destruct (is_terminal ev) eqn:Et.
    + destruct ev as [| | | |r m| |info| | |]; try done.
      * assert (drive_l2 check (clone_error <$> raw_error) cancel (Completed r m :: l2) =
                ([], completed_outcome check r m)) as -> by by destruct cancel as [[|?]|].
        split; simpl; [constructor|intros ? ? [-> ?]%completed_outcome_accepts; done|].
        intros. by eapply completed_outcome_doom.
      * assert (drive_l2 check (clone_error <$> raw_error) cancel (Failed info :: l2) =
                ([], OutcomeFailed (default (synthesize_from_info info) (clone_error <$> raw_error))))
          as -> by by destruct cancel as [[|?]|].
        split; simpl; [constructor|done|]. intros e [= <-] Hd [Hraw Hinfo]. exfalso.
        destruct raw_error as [e|]; simpl in Hd.
        -- rewrite clone_error_doom, Hraw in Hd; done.
        -- rewrite synthesize_doom in Hd; [done|]. apply Hinfo. set_solver.
    + rewrite drive_l2_other by done. destruct (IH (pred <$> cancel)) as [H1 H2 H3].
      split; simpl; [by constructor|done|]. intros e He Hd [Hraw Hinfo].
      eapply H3; eauto. split; [done|]. intros i Hi. apply Hinfo. set_solver.
Qed.

Lemma run_one_attempt_ok backend check w :
  attempt_ok (match backend with Responses => check | _ => None end)
    (doom_free (aw_result w)) (run_one_attempt backend check w).
Proof.
  unfold run_one_attempt. destruct (aw_result w) as [e|l2 raw_error]; [split; naive_solver|].
  apply drive_l2_ok.
Qed.

Lemma run_one_attempt_init backend check w e :
  (run_one_attempt backend check w).2 = OutcomeInitFailed e → aw_result w = InitError e.
Proof.
  unfold run_one_attempt. destruct (aw_result w) as [e'|l2 raw_error]; [naive_solver|].
  generalize (aw_cancel_at w), (match backend with Responses => check | _ => None end).
  intros c k Ho. exfalso. revert c Ho. induction l2 as [|ev l2 IH]; intros c.
  - by destruct c as [[|?]|].
  - destruct (decide (c = Some 0%nat)) as [->|Hc]; [done|].
    destruct (is_terminal ev) eqn:Et; [|rewrite drive_l2_other by done; apply IH].
    destruct ev; try done; destruct c as [[|?]|]; try done; simpl;
      unfold completed_outcome; repeat case_match; done.
Qed.

Lemma drive_l2_cancelled check captured cancel l2 :
  (drive_l2 check captured cancel l2).2 = OutcomeCancelled → is_Some cancel.
Proof.
  revert cancel. induction l2 as [|ev l2 IH]; intros cancel.
  - by destruct cancel as [[|?]|].
  - destruct (decide (cancel = Some 0%nat)) as [->|Hc]; [done|].
    destruct (is_terminal ev) eqn:Et.
    + destruct ev; try done; destruct cancel as [[|?]|]; try done; simpl;
        unfold completed_outcome; repeat case_match; done.
    + rewrite drive_l2_other by done. intros H%IH. by destruct cancel.
Qed.

Lemma run_one_attempt_cancelled backend check w :
  (run_one_attempt backend check w).2 = OutcomeCancelled → is_Some (aw_cancel_at w).
Proof. unfold run_one_attempt. destruct (aw_result w); [done|]. apply drive_l2_cancelled. Qed.

(** ** The loop *)

(** What the client and the stream transforms promise: opening a stream never
    reports a doom loop, and neither does a stream whose abort is not armed. *)
Class NetworkLaws `{NN : Network} := {
  init_never_doom n r h c e :
    aw_result (attempt_world n r h c) = InitError e → is_doom e = false;
  unarmed_doom_free n r h : doom_free (aw_result (attempt_world n r h None));
}.

(** [t'] is [t] after a resample because of a doom loop. *)
Record resampled (config : SamplerConfig) (t t' : TaskState) : Prop := {
  resampled_budget : doom_retry_count t < task_doom_max config;
  resampled_drc : doom_retry_count t' = u32_add (doom_retry_count t) 1;
  resampled_rc : retry_count t' = retry_count t;
  resampled_tx : completion_tx t' = completion_tx t;
  resampled_completed : completed t' = completed t;
  resampled_made : made t' = made t;
  resampled_sent :
    ∃ a k s dt dc, sent t' = sent t ++ [Retrying a (task_doom_max config) k s dt dc];
  resampled_request : request t' = request t;
}.

(** The check an accepted response has passed. *)
Definition final_check (config : SamplerConfig) (t : TaskState) : option DoomLoopRecoveryPolicy :=
  match api_backend config with Responses => task_doom_check config t | _ => None end.

Inductive stepped (config : SamplerConfig) (max : Z) (t : TaskState) : TaskState * bool → Prop :=
| stepped_cancelled t' info : ended (Failed info) t t' → stepped config max t (t', false)
| stepped_failed fwd t' info :
    Forall (λ e, is_terminal e = false) fwd →
    ended (Failed info) (forward fwd t) t' → stepped config max t (t', false)
| stepped_completed fwd t' r m :
    Forall (λ e, is_terminal e = false) fwd →
    ended (Completed r m) (forward fwd t) t' →
    acceptable (final_check config t) r →
    attempts m = u32_add (u32_add (retry_count t) (doom_retry_count t)) 1 →
    stepped config max t (t', false)
| stepped_retried fwd t' :
    Forall (λ e, is_terminal e = false) fwd →
    retried max (forward fwd t) t' → stepped config max t (t', true)
| stepped_resampled fwd t' :
    Forall (λ e, is_terminal e = false) fwd →
    resampled config (forward fwd t) t' → stepped config max t (t', true).

Lemma stepped_decided config policy max w err fwd t :
  Forall (λ e, is_terminal e = false) fwd → is_doom err = false →
  stepped config max t (apply_retry_decision status_display policy max w err (forward fwd t)).
Proof.
  intros Hf Hd. pose proof (apply_retry_decision_spec policy max w err (forward fwd t) Hd) as H.
  destruct (apply_retry_decision _ _ _ _ _ _) as [t' []].
  - by econstructor 4.
  - destruct H as [info H]. by econstructor 2.
Qed.

Lemma ended_cancel t : may_cancel → ended (Failed cancelled_info) t (handle_cancellation t).
Proof.
  intros Hc. destruct t.
  refine (ended_intro _ _ (mkTask _ _ _ _ _ _ _ _ _) _ (agrees_cancelled Hc) (or_introl eq_refl)).
Qed.

Lemma task_doom_check_some config t :
  is_Some (task_doom_check config t) → doom_retry_count t < task_doom_max config.
Proof.
  unfold task_doom_check. intros [p H]. destruct (doom_loop_recovery config); [|done].
  split_matches; breflect; done.
Qed.

Context `{L : !NetworkLaws}.

Lemma loop_step_spec config policy max t :
  stepped config max t (loop_step status_display config policy max t).
Proof.
  unfold loop_step. set (check := task_doom_check config t).
  set (w := attempt_world _ _ _ _).
  destruct (aw_cancelled w) eqn:Hw; [eapply stepped_cancelled, ended_cancel; do 4 eexists; by left|].
  pose proof (run_one_attempt_ok (api_backend config) check w) as [Hf Ha Hd].
  pose proof (run_one_attempt_init (api_backend config) check w) as Hi.
  pose proof (run_one_attempt_cancelled (api_backend config) check w) as Hcan.
  destruct (run_one_attempt _ _ _) as [fwd []]; simpl in *.
  - set (m := mkStats _ _). eapply (stepped_completed _ _ _ fwd _ response m);
      [done| |by eapply Ha|reflexivity].
    refine (ended_intro _ _ (forward fwd t) _ (agrees_ok _ _) (or_introl eq_refl)).
  - by apply stepped_decided.
  - destruct (is_doom error) eqn:Ed; [|by destruct error; try apply stepped_decided].
    destruct error; try done. eapply stepped_resampled; [done|].
    split; simpl; eauto 10. apply task_doom_check_some. fold check.
    destruct check eqn:Ec; [eauto|]. exfalso.
    destruct (Hd _ eq_refl Ed (unarmed_doom_free _ _ _)) as [p Hp].
    by destruct (api_backend config).
  - eapply stepped_failed; [done|apply ended_cancel]. do 4 eexists. right. by apply Hcan.
  - apply stepped_decided; [done|]. by eapply init_never_doom, Hi.
Qed.

(** The state of the task between two iterations. *)
Record running (config : SamplerConfig) (max : Z) (req : list ConversationItem) (tx : bool)
    (t : TaskState) : Prop := {
  running_rc : 0 <= retry_count t;
  running_drc : 0 <= doom_retry_count t <= task_doom_max config;
  running_made : Z.of_nat (made t) = retry_count t + doom_retry_count t;
  running_budget : retry_count t + strippable (request t) <= retry_budget max + strippable req;
  running_tx : completion_tx t = tx;
  running_completed : completed t = [];
  running_sent : Forall (λ e, is_terminal e = false) (sent t);
  running_request : request t = req ∨ request t = (strip_images req).1;
}.

(** The state it ends in: [n] attempts at most, one terminal event, the last. *)
Record finished (config : SamplerConfig) (req : list ConversationItem) (tx : bool) (n : Z)
    (t : TaskState) : Prop := {
  finished_made : Z.of_nat (made t) <= n;
  finished_events : ∃ es e r, sent t = es ++ [e] ∧ Forall (λ e, is_terminal e = false) es ∧
    agrees e r ∧ completed t = (if tx then [r] else []) ∧
    ∀ resp m, e = Completed resp m →
      attempts m = Z.of_nat (made t) ∧ acceptable (final_check config t) resp;
  finished_request : request t = req ∨ request t = (strip_images req).1;
}.

(** The budgets fit their counters. *)
Definition budgets_fit (config : SamplerConfig) (max : Z) : Prop :=
  0 <= max ∧ 0 <= task_doom_max config ∧ max + task_doom_max config + 2 <= u32_max.

(** Attempts that always suffice: the retries, the one that strips the images,
    and the resamples. *)
Definition attempt_bound (config : SamplerConfig) (max : Z) (req : list ConversationItem) : Z :=
  Z.max 1 max + strippable req + task_doom_max config.

Lemma u32_add_small a b : 0 <= a → 0 <= b → a + b <= u32_max → u32_add a b = a + b.
Proof. unfold u32_add, u32_max. intros. apply Z.mod_small. lia. Qed.

Lemma stripped_request (req r r' : list ConversationItem) :
  r = req ∨ r = (strip_images req).1 → r' = r ∨ r' = (strip_images r).1 →
  r' = req ∨ r' = (strip_images req).1.
Proof. intros [->| ->] [->| ->]; auto. rewrite strip_images_idem; auto. Qed.

Lemma strippable_le (r r' : list ConversationItem) :
  r' = r ∨ r' = (strip_images r).1 → strippable r' <= strippable r.
Proof.
  pose proof (strippable_range r).
  intros [->| ->]; [lia|rewrite strippable_stripped; lia].
Qed.

Section steps.
Context (config : SamplerConfig) (max : Z) (req : list ConversationItem) (tx : bool).
Hypothesis fit : budgets_fit config max.

Lemma running_step t t' :
  running config max req tx t → stepped config max t (t', true) →
  running config max req tx t' ∧ made t' = S (made t).
Proof.
  intros [] Hs. pose proof (strippable_range (request t)). pose proof (strippable_range req).
  destruct fit as (? & ? & Hfit). unfold retry_budget in *.
  inversion Hs as [| | |fwd ? Hf [] |fwd ? Hf []]; subst; simpl in *.
  - rewrite u32_add_small in * by lia. split; [|done].
    destruct retried_sent0 as (? & ? & ? & ? & ? & Hsent).
    pose proof (strippable_le _ _ retried_request0).
    pose proof (strippable_le _ _ running_request0).
    split; unfold retry_budget; try congruence; try lia.
    + destruct retried_budget0 as [?|[? ->]]; [lia|]. rewrite strippable_stripped. lia.
    + rewrite Hsent, !Forall_app. eauto using Forall_singleton.
    + by eapply stripped_request.
  - rewrite u32_add_small in * by lia. split; [|done].
    destruct resampled_sent0 as (? & ? & ? & ? & ? & Hsent).
    split; unfold retry_budget; rewrite ?resampled_request0; try congruence; try lia.
    rewrite Hsent, !Forall_app. eauto using Forall_singleton.
Qed.

Lemma running_made_bound t :
  running config max req tx t → Z.of_nat (made t) < attempt_bound config max req.
Proof.
  intros []. unfold attempt_bound, retry_budget in *.
  pose proof (strippable_range (request t)). lia.
Qed.

Lemma running_end t t' :
  running config max req tx t → stepped config max t (t', false) →
  finished config req tx (attempt_bound config max req) t'.
Proof.
  intros Hr Hs. pose proof (running_made_bound t Hr). destruct Hr.
  pose proof (strippable_range (request t)). pose proof (strippable_range req).
  destruct fit as (? & ? & Hfit). unfold retry_budget in *.
  inversion Hs as [? info (r & ? & Hsent & Hc & Hm & Hd & Hq)
    |fwd ? info Hf (r & ? & Hsent & Hc & Hm & Hd & Hq)
    |fwd ? resp m Hf (r & ? & Hsent & Hc & Hm & Hd & Hq) Hacc Hatt| |]; subst; simpl in *.
  all: rewrite running_completed0 in Hc; simpl in Hc.
  all: split; [lia| |by eapply stripped_request].
  all: do 3 eexists; split_and!; [exact Hsent|by rewrite ?Forall_app|eassumption|exact Hc|].
  1-2: done.
  intros ? ? [= <- <-]. rewrite Hatt, (u32_add_small (retry_count t)) by lia.
  rewrite u32_add_small by lia. split; [lia|].
  assert (Hk : final_check config t' = final_check config t); [|by rewrite Hk].
  unfold final_check, task_doom_check. by rewrite Hd.
Qed.

Lemma run_loop_finishes policy fuel t :
  running config max req tx t →
  attempt_bound config max req - Z.of_nat (made t) <= Z.of_nat fuel →
  ∃ t', run_loop status_display fuel config policy max t = Some t' ∧
    finished config req tx (attempt_bound config max req) t'.
Proof.
  revert t. induction fuel as [|fuel IH]; intros t Hr Hfuel; simpl.
  { pose proof (running_made_bound t Hr). lia. }
  pose proof (loop_step_spec config policy max t) as Hs.
  destruct (loop_step _ _ _ _ _) as [t' []].
  - destruct (running_step t t' Hr Hs) as [Hr' Hm]. apply IH; [done|]. lia.
  - eauto using running_end.
Qed.

End steps.

Lemma running_init config max req tx h :
  budgets_fit config max → running config max req tx (mkTask req h 0 0 tx [] [] [] 0).
Proof.
  intros (? & ? & ?). pose proof (strippable_range req). unfold retry_budget.
  split; simpl; auto; unfold retry_budget; lia.
Qed.


Lemma finished_client_error config req tx n h err :
  0 <= n →
  finished config req tx n
    (send_completion (CompletionErr err)
       (emit_failed status_display err (mkTask req h 0 0 tx [] [] [] 0))).
Proof.
  intros Hn. unfold send_completion. destruct tx; (split; [simpl; lia| |by left]).
  all: exists [], (Failed (info_from status_display err)), (CompletionErr err).
  all: split_and!; try done; constructor.
Qed.

Lemma run_request_task_finishes env client req config policy tx fuel :
  let max := task_max_retries env config policy in
  budgets_fit config max → attempt_bound config max req <= Z.of_nat fuel →
  ∃ t, run_request_task status_display fuel env client req config policy tx = Some t ∧
    finished config req tx (attempt_bound config max req) t.
Proof.
  intros max Hfit Hfuel. unfold run_request_task. fold max. destruct client as [err|].
  - eexists; split; [done|]. apply finished_client_error.
    destruct Hfit as (? & ? & ?). unfold attempt_bound.
    pose proof (strippable_range req). lia.
  - apply run_loop_finishes; [done|by apply running_init|]. simpl. lia.
Qed.

End task.

#[local] Transparent strip_images.

(** ** A network for the witnesses: an overloaded server, then a looping
    stream as long as the abort is armed, then an answer. *)
Definition demo_answer : ConversationResponse :=
  mkResponse [Assistant (mkAssistant (txt "done") [] None None None)] (Some Stop) None [].

#[local] Instance demo_network : Network := λ n r h check,
  mkWorld false
    match n, check with
    | 0%nat, _ => InitError (Api 503 (txt "overloaded") None None None)
    | _, Some _ =>
        L2Events [StreamStarted 0;
                  Failed (mkInfo KDoomLoopDetected None [] true None None None
                            (Some [txt "tail_repetition:4@thinking"]) (Some 7))] None
    | _, None => L2Events [StreamStarted 0; Completed demo_answer (mkStats [] 1)] None
    end None 5 true.

#[local] Instance demo_network_laws : NetworkLaws.
Proof.
  split.
  - intros [|n] r h [c|] e; simpl; intros H; simplify_eq; done.
  - intros [|n] r h; simpl; [done|]. split; [done|]. intros info Hi. set_solver.
Qed.

Definition demo_config : SamplerConfig :=
  mkConfig Responses false (Some 3) (Some default_doom_policy).
Definition demo_policy : RetryPolicy := mkRetryPolicy 15 2.
Definition demo_status : Z → text := λ _, txt "503".

Lemma demo_fits : budgets_fit demo_config (task_max_retries None demo_config demo_policy).
Proof. unfold budgets_fit. vm_compute. intuition congruence. Qed.

(** The demo task makes four attempts: the failed one, two resampled ones, and
    the one whose answer is accepted. *)
Example demo_run :
  (λ t, (made t, retry_count t, doom_retry_count t, length (sent t), length (completed t))) <$>
    run_request_task demo_status 5 None None [user_text (txt "hi")] demo_config demo_policy
      true = Some (4%nat, 1, 2, 7%nat, 1%nat).
Proof. vm_compute. reflexivity. Qed.

(** C4: the task of a request always ends.  For every behaviour of the network
    within [NetworkLaws], [max_retries] attempts (one, when it is 0), one more if
    the request has images to strip, and one more per doom-loop resample are
    enough: with that much fuel [run_request_task] returns, having made no more
    attempts, and the request sent last is the original one or the original one
    without its images. *)
Theorem task_terminates status_display `{N : Network, !NetworkLaws} env client req config
    policy tx fuel :
  let max := task_max_retries env config policy in
  budgets_fit config max →
  Z.max 1 max + strippable req + task_doom_max config <= Z.of_nat fuel →
  ∃ t, run_request_task status_display fuel env client req config policy tx = Some t ∧
    Z.of_nat (made t) <= Z.max 1 max + strippable req + task_doom_max config ∧
    (request t = req ∨ request t = (strip_images req).1).
Proof.
  intros max Hfit Hfuel.
  destruct (run_request_task_finishes status_display env client req config policy tx fuel
    Hfit Hfuel) as (t & Ht & []). eauto.
Qed.

Lemma task_terminates_witness :
  ∃ t, run_request_task demo_status 5 None None [user_text (txt "hi")] demo_config
         demo_policy true = Some t ∧
    Z.of_nat (made t) <= 5 ∧
    (request t = [user_text (txt "hi")] ∨
     request t = (strip_images [user_text (txt "hi")]).1).
Proof.
  apply (task_terminates demo_status None None [user_text (txt "hi")] demo_config
    demo_policy true 5 demo_fits). vm_compute. congruence.
Defined.

(** C11: whatever happens (answer, error, retries exhausted, cancellation, a
    client that cannot be built), the caller is answered exactly once.  One
    terminal event is sent, after all the others; the completion channel, if the
    caller gave one, carries exactly one result; and the two agree: the same
    response and metrics, or the same error.  Only a cancellation is told twice in
    different words: the event is a failure of kind API without a status and the
    completion an authentication error, both with the text that the request was
    cancelled; that happens only to a request that is cancelled. *)
Theorem task_answers_once status_display `{N : Network, !NetworkLaws} env client req config
    policy tx fuel :
  let max := task_max_retries env config policy in
  budgets_fit config max → attempt_bound config max req <= Z.of_nat fuel →
  ∃ t es e r, run_request_task status_display fuel env client req config policy tx = Some t ∧
    sent t = es ++ [e] ∧ Forall (λ e, is_terminal e = false) es ∧
    ((∃ resp m, e = Completed resp m ∧ r = CompletionOk resp m)
     ∨ (∃ err, e = Failed (info_from status_display err) ∧ r = CompletionErr err)
     ∨ (may_cancel ∧ e = Failed (mkInfo KApi None (txt "request cancelled") false None None None None None)
        ∧ r = CompletionErr (Auth (txt "request cancelled"))))
    ∧ completed t = (if tx then [r] else []).
Proof.
  intros max Hfit Hfuel.
  destruct (run_request_task_finishes status_display env client req config policy tx fuel
    Hfit Hfuel) as (t & Ht & [_ (es & e & r & Hs & Hes & Ha & Hc & _) _]).
  exists t, es, e, r. split_and!; try done. destruct Ha; eauto 10.
Qed.

Lemma task_answers_once_witness :
  ∃ t es e r, run_request_task demo_status 5 None None [user_text (txt "hi")] demo_config
         demo_policy true = Some t ∧
    sent t = es ++ [e] ∧ Forall (λ e, is_terminal e = false) es ∧
    ((∃ resp m, e = Completed resp m ∧ r = CompletionOk resp m)
     ∨ (∃ err, e = Failed (info_from demo_status err) ∧ r = CompletionErr err)
     ∨ (may_cancel ∧ e = Failed (mkInfo KApi None (txt "request cancelled") false None None None None None)
        ∧ r = CompletionErr (Auth (txt "request cancelled"))))
    ∧ completed t = [r].
Proof.
  apply (task_answers_once demo_status None None [user_text (txt "hi")] demo_config
    demo_policy true 5 demo_fits). vm_compute. congruence.
Defined.

(** An answer the task accepts is one it should accept.  It was not cut off
    by the token limit; it has text or tool calls, unless the provider filtered
    it; with the Responses backend and resamples left, it carries no confident
    doom-loop signal; and its metrics count the attempts that were made. *)
Theorem accepted_response_sound status_display `{N : Network, !NetworkLaws} env client req config
    policy tx fuel :
  let max := task_max_retries env config policy in
  budgets_fit config max → attempt_bound config max req <= Z.of_nat fuel →
  ∃ t, run_request_task status_display fuel env client req config policy tx = Some t ∧
    ∀ es resp m, sent t = es ++ [Completed resp m] →
      stop_reason resp ≠ Some Length ∧
      (stop_reason resp = Some ContentFilter ∨ empty_reason resp = None) ∧
      (∀ p, api_backend config = Responses → doom_loop_recovery config = Some p →
        doom_retry_count t < doom_max_retries p →
        confident_triggers p (doom_loop_signals resp) = []) ∧
      attempts m = Z.of_nat (made t).
Proof.
  intros max Hfit Hfuel.
  destruct (run_request_task_finishes status_display env client req config policy tx fuel
    Hfit Hfuel) as (t & Ht & [_ (es & e & r & Hs & _ & _ & _ & Hok) _]).
  exists t. split; [done|]. intros es' resp m Hs'.
  rewrite Hs in Hs'. apply app_inj_tail in Hs' as [_ ->].
  destruct (Hok _ _ eq_refl) as [Hatt (H1 & H2 & H3)]. split_and!; auto.
  intros p Hb Hp Hlt. apply H3. unfold final_check, task_doom_check, task_doom_max.
  rewrite Hb, Hp. split_matches; breflect; done || lia.
Qed.

Lemma accepted_response_sound_witness :
  ∃ t, run_request_task demo_status 5 None None [user_text (txt "hi")] demo_config
         demo_policy true = Some t ∧
    ∀ es resp m, sent t = es ++ [Completed resp m] →
      stop_reason resp ≠ Some Length ∧
      (stop_reason resp = Some ContentFilter ∨ empty_reason resp = None) ∧
      (∀ p, api_backend demo_config = Responses → doom_loop_recovery demo_config = Some p →
        doom_retry_count t < doom_max_retries p →
        confident_triggers p (doom_loop_signals resp) = []) ∧
      attempts m = Z.of_nat (made t).
Proof.
  apply (accepted_response_sound demo_status None None [user_text (txt "hi")] demo_config
    demo_policy true 5 demo_fits). vm_compute. congruence.
Defined.
