(* ===== verification/SamplerActor.v ===== *)
(** * Sampler: the actor

    [ds-sampler/src/actor/mod.rs] and [actor/state.rs]: the requests in flight,
    their cancellation tokens and the tasks the actor spawned and has not joined
    yet.  A token is a number, given in order; [cancelled] holds the tokens that
    were cancelled.  What a task does is [SamplerTask]; here it runs until the
    join set reports it, as finished ([Joined]) or as panicked ([JoinFailed]). *)

From S2P Require Import Prelude Text Json Conversation Sampling SamplerTask.

Open Scope nat_scope.

Record RunningTask := mkRunning {
  task_id : string;
  task_token : nat;
  task_config : SamplerConfig;
  task_policy : RetryPolicy;
}.

Record ActorState := mkActorState {
  active_requests : gmap string nat;
  config : SamplerConfig;
  retry_policy : RetryPolicy;
}.

Record SamplerActor := mkActor {
  state : ActorState;
  tasks : list RunningTask;
  cancelled : gset nat;
  next_token : nat;
}.

Inductive SamplerCommand :=
| Submit (request_id : string) (override : option SamplerConfig)
| Cancel (request_id : string)
| UpdateConfig (c : SamplerConfig)
| IsActive (request_id : string)
| ActiveCount.

Inductive Reply := ReplyBool (b : bool) | ReplyCount (n : nat).

(** ** state.rs *)

Definition state_new (c : SamplerConfig) (p : RetryPolicy) : ActorState := mkActorState ∅ c p.

Definition register (id : string) (tok : nat) (s : ActorState) : ActorState * option nat :=
  (mkActorState (<[id := tok]> (active_requests s)) (config s) (retry_policy s),
   active_requests s !! id).

Definition remove (id : string) (s : ActorState) : ActorState * option nat :=
  (mkActorState (delete id (active_requests s)) (config s) (retry_policy s),
   active_requests s !! id).

Definition cancel_token (tok : option nat) (c : gset nat) : gset nat :=
  match tok with Some tok => {[tok]} ∪ c | None => c end.

Definition cancel (id : string) (s : ActorState) (c : gset nat) : ActorState * gset nat * bool :=
  match remove id s with
  | (s, Some tok) => (s, cancel_token (Some tok) c, true)
  | (s, None) => (s, c, false)
  end.

Definition update_config (c : SamplerConfig) (s : ActorState) : ActorState :=
  mkActorState (active_requests s) c (retry_policy s).

(** ** mod.rs *)

Definition actor_new (c : SamplerConfig) (p : RetryPolicy) : SamplerActor :=
  mkActor (state_new c p) [] ∅ 0.

Definition handle_command (cmd : SamplerCommand) (a : SamplerActor) : SamplerActor * option Reply :=
  match cmd with
  | Submit id override =>
      let tok := next_token a in
      let '(s, prev) := register id tok (state a) in
      let effective_config := default (config s) override in
      (mkActor s (tasks a ++ [mkRunning id tok effective_config (retry_policy s)])
         (cancel_token prev (cancelled a)) (S tok), None)
  | Cancel id =>
      let '(s, c, _) := cancel id (state a) (cancelled a) in
      (mkActor s (tasks a) c (next_token a), None)
  | UpdateConfig c =>
      (mkActor (update_config c (state a)) (tasks a) (cancelled a) (next_token a), None)
  | IsActive id => (a, Some (ReplyBool (bool_decide (is_Some (active_requests (state a) !! id)))))
  | ActiveCount => (a, Some (ReplyCount (size (active_requests (state a)))))
  end.

(** What the loop of [run] selects: a command, or the [i]-th task. *)
Inductive ActorEvent := Command (cmd : SamplerCommand) | Joined (i : nat) | JoinFailed (i : nat).

Definition actor_step (ev : ActorEvent) (a : SamplerActor) : option SamplerActor :=
  match ev with
  | Command cmd => Some (handle_command cmd a).1
  | Joined i =>
      t ← tasks a !! i;
      Some (mkActor (remove (task_id t) (state a)).1 (delete i (tasks a)) (cancelled a)
              (next_token a))
  | JoinFailed i =>
      _ ← tasks a !! i;
      Some (mkActor (state a) (delete i (tasks a)) (cancelled a) (next_token a))
  end.

(** The end of [run], when all handles are dropped. *)
Definition shutdown (a : SamplerActor) : SamplerActor :=
  mkActor (mkActorState ∅ (config (state a)) (retry_policy (state a))) []
    (list_to_set (map_to_list (active_requests (state a))).*2 ∪ cancelled a) (next_token a).

(** ** Runs in which identifiers are not reused and no task panics *)

Definition clean_event (ev : ActorEvent) (a : SamplerActor) : Prop :=
  match ev with
  | Command (Submit id _) => id ∉ task_id <$> tasks a
  | JoinFailed _ => False
  | _ => True
  end.

Inductive reach (c : SamplerConfig) (p : RetryPolicy) : SamplerActor → Prop :=
| reach_new : reach c p (actor_new c p)
| reach_step a ev a' :
    reach c p a → clean_event ev a → actor_step ev a = Some a' → reach c p a'.

Record actor_inv (a : SamplerActor) : Prop := {
  inv_active id tok : active_requests (state a) !! id = Some tok ↔
    ∃ t, t ∈ tasks a ∧ task_id t = id ∧ task_token t = tok ∧ tok ∉ cancelled a;
  inv_ids : NoDup (task_id <$> tasks a);
  inv_tokens : NoDup (task_token <$> tasks a);
  inv_task_lt t : t ∈ tasks a → task_token t < next_token a;
  inv_cancelled_lt tok : tok ∈ cancelled a → tok < next_token a;
}.

Lemma nodup_fmap_eq {A B} (f : A → B) (l : list A) x y :
  NoDup (f <$> l) → x ∈ l → y ∈ l → f x = f y → x = y.
Proof.
  induction l as [|z l IH]; simpl; [by intros _ ?%not_elem_of_nil|].
  intros [Hz Hl]%NoDup_cons [->|Hx]%elem_of_cons [->|Hy]%elem_of_cons Hf; try done.
  - destruct Hz. rewrite Hf. by apply list_elem_of_fmap_2.
  - destruct Hz. rewrite <-Hf. by apply list_elem_of_fmap_2.
  - by apply IH.
Qed.

(** The elements other than the [i]-th, when it has a key of its own. *)
Lemma elem_of_delete_key {A B} (f : A → B) (l : list A) i x y :
  NoDup (f <$> l) → l !! i = Some x → y ∈ delete i l ↔ y ∈ l ∧ f y ≠ f x.
Proof.
  revert i. induction l as [|z l IH]; intros i; [done|]. simpl.
  intros [Hz Hl]%NoDup_cons Hi. destruct i as [|i]; simpl in *.
  - simplify_eq. rewrite elem_of_cons. split.
    + intros Hy. split; [auto|]. intros Hf. destruct Hz. rewrite <-Hf.
      by apply list_elem_of_fmap_2.
    + intros [[->|?] ?]; done.
  - rewrite !elem_of_cons, IH by done. split; [|naive_solver].
    intros [->|[? ?]]; [|auto]. split; [auto|]. intros Hf. destruct Hz. rewrite Hf.
    apply list_elem_of_fmap_2. by eapply list_elem_of_lookup_2.
Qed.

Lemma nodup_delete_fmap {A B} (f : A → B) (l : list A) i :
  NoDup (f <$> l) → NoDup (f <$> delete i l).
Proof.
  intros H. eapply sublist_NoDup; [exact H|]. apply fmap_sublist, sublist_delete.
Qed.

Lemma inv_join i t a :
  actor_inv a → tasks a !! i = Some t →
  actor_inv (mkActor (remove (task_id t) (state a)).1 (delete i (tasks a)) (cancelled a)
               (next_token a)).
Proof.
  intros [Ha Hi Ht Hl Hc] Hlook.
  pose proof (λ y, elem_of_delete_key task_id _ _ _ y Hi Hlook) as Hdel.
  split; simpl; auto using nodup_delete_fmap.
  - intros id tok. rewrite lookup_delete_Some, Ha. setoid_rewrite Hdel. naive_solver.
  - intros t' [? _]%Hdel. auto.
Qed.

Lemma handle_cancel id a :
  (handle_command (Cancel id) a).1 =
    mkActor (remove id (state a)).1 (tasks a)
      (cancel_token (active_requests (state a) !! id) (cancelled a)) (next_token a).
Proof. simpl. unfold cancel, remove. by destruct (active_requests (state a) !! id). Qed.

Lemma inv_cancel id a : actor_inv a → actor_inv (handle_command (Cancel id) a).1.
Proof.
  intros [Ha Hi Ht Hl Hc]. rewrite handle_cancel. split; simpl; auto.
  - intros id' tok. rewrite lookup_delete_Some, Ha. unfold cancel_token.
    destruct (active_requests (state a) !! id) as [tk|] eqn:E.
    + apply Ha in E as (t & Hin & Hid & Htk & Hn). split.
      * intros (Hne & t' & ? & ? & ? & ?). exists t'. split_and!; try done.
        apply not_elem_of_union. split; [|done]. intros ->%elem_of_singleton.
        destruct Hne. subst. f_equal. eapply (nodup_fmap_eq task_token); eauto.
      * intros (t' & ? & ? & ? & [Hne ?]%not_elem_of_union). split; [|naive_solver].
        intros ->. destruct Hne. apply elem_of_singleton. subst. f_equal.
        eapply (nodup_fmap_eq task_id); eauto.
    + split; [naive_solver|]. intros Hx. split; [|done]. intros ->.
      apply Ha in Hx. congruence.
  - intros tok. unfold cancel_token. destruct (_ !! id) as [tk|] eqn:E; [|auto].
    apply Ha in E as (t & Hin & Hid & Htk & Hn).
    intros [->%elem_of_singleton|]%elem_of_union; [subst|]; auto.
Qed.

Lemma inv_submit id c a :
  actor_inv a → id ∉ task_id <$> tasks a → actor_inv (handle_command (Submit id c) a).1.
Proof.
  intros [Ha Hi Ht Hl Hc] Hfresh. simpl.
  assert (Hnone : active_requests (state a) !! id = None).
  { apply eq_None_not_Some. intros [tok (t & ? & <- & _)%Ha]. destruct Hfresh.
    by apply list_elem_of_fmap_2. }
  rewrite Hnone. split; simpl.
  - intros id' tok. setoid_rewrite elem_of_app. setoid_rewrite list_elem_of_singleton.
    rewrite lookup_insert_Some, Ha. split.
    + intros [[<- <-]|[_ (t & ? & ? & ? & ?)]]; [|by exists t; auto].
      eexists. split_and!; [by right|done|done|]. intros Hx%Hc. lia.
    + intros (t & [Hin| ->] & Hid & Htk & Hn); simpl in *; [right|by left].
      split; [|eauto]. intros ->. destruct Hfresh. subst. by apply list_elem_of_fmap_2.
  - rewrite fmap_app, NoDup_app. split_and!; [done| |apply NoDup_singleton].
    by intros x Hx ->%list_elem_of_singleton.
  - rewrite fmap_app, NoDup_app. split_and!; [done| |apply NoDup_singleton].
    intros x (t & -> & Hin)%list_elem_of_fmap Hx%list_elem_of_singleton. simpl in Hx.
    specialize (Hl t Hin). lia.
  - intros t [Hin| ->%list_elem_of_singleton]%elem_of_app; simpl; [|lia].
    specialize (Hl t Hin). lia.
  - intros tok Htok%Hc. lia.
Qed.

Lemma reach_inv c p a : reach c p a → actor_inv a.
Proof.
  induction 1 as [|a ev a' _ IH Hev Hstep].
  - split; simpl; try constructor; try set_solver.
  - destruct ev as [[]|i|i]; simpl in *; simplify_option_eq; try done.
    + by apply inv_submit.
    + by apply inv_cancel.
    + destruct IH. by split.
    + by apply inv_join.
Qed.

(** The requests in flight.  When identifiers are not reused while their
    task runs and no task panics, [active_requests] is exactly the tasks that run
    and were not cancelled, so [IsActive] and [ActiveCount] answer about them; and
    [Cancel] reaches the task of its request and no other. *)
Theorem active_is_running c p a :
  reach c p a →
  (∀ id tok, active_requests (state a) !! id = Some tok ↔
    ∃ t, t ∈ tasks a ∧ task_id t = id ∧ task_token t = tok ∧ tok ∉ cancelled a) ∧
  (∀ id t, t ∈ tasks a →
    let a' := (handle_command (Cancel id) a).1 in
    t ∈ tasks a' ∧
    (task_token t ∈ cancelled a' ↔ task_id t = id ∨ task_token t ∈ cancelled a)).
Proof.
  intros Hr. pose proof (reach_inv c p a Hr) as [Ha Hi Ht Hl Hc]. split; [done|].
  intros id t Hin. cbv zeta. rewrite handle_cancel. simpl. split; [done|]. unfold cancel_token.
  destruct (active_requests (state a) !! id) as [tok|] eqn:E.
  - apply Ha in E as (t' & Hin' & <- & <- & Hn). rewrite elem_of_union, elem_of_singleton.
    split; (intros [Heq|?]; [left|by right]).
    + f_equal. by eapply (nodup_fmap_eq task_token).
    + f_equal. by eapply (nodup_fmap_eq task_id).
  - split; [auto|]. intros [<-|?]; [|done]. destruct (decide (task_token t ∈ cancelled a)); [done|].
    assert (active_requests (state a) !! task_id t = Some (task_token t)); [|congruence].
    apply Ha. eauto.
Qed.

Definition demo_actor_config : SamplerConfig := mkConfig ChatCompletions false None None.
Definition demo_actor_policy : RetryPolicy := mkRetryPolicy 15 2.

(** The state after a sequence of events. *)
Definition actor_run (evs : list ActorEvent) (a : SamplerActor) : option SamplerActor :=
  foldl (λ oa ev, oa ≫= actor_step ev) (Some a) evs.

Definition demo_actor : SamplerActor :=
  default (actor_new demo_actor_config demo_actor_policy)
    (actor_run [Command (Submit "a" None); Command (Submit "b" None); Command (Cancel "a"); Joined 0]
       (actor_new demo_actor_config demo_actor_policy)).

Lemma demo_actor_reach : reach demo_actor_config demo_actor_policy demo_actor.
Proof.
  pose proof (reach_new demo_actor_config demo_actor_policy) as H0.
  pose proof (reach_step _ _ _ (Command (Submit "a" None)) _ H0 ltac:(set_solver) eq_refl) as H1.
  pose proof (reach_step _ _ _ (Command (Submit "b" None)) _ H1 ltac:(set_solver) eq_refl) as H2.
  pose proof (reach_step _ _ _ (Command (Cancel "a")) _ H2 I eq_refl) as H3.
  exact (reach_step _ _ _ (Joined 0) _ H3 I eq_refl).
Qed.

Lemma active_is_running_witness :
  active_requests (state demo_actor) !! "b" = Some 1 ↔
    ∃ t, t ∈ tasks demo_actor ∧ task_id t = "b" ∧ task_token t = 1 ∧ 1 ∉ cancelled demo_actor.
Proof.
  apply (proj1 (active_is_running demo_actor_config demo_actor_policy demo_actor
    demo_actor_reach)).
Defined.

(** A reused identifier: when the predecessor that [Submit] cancelled is joined,
    the entry of its successor is removed, and [Cancel] no longer reaches it. *)
Example reused_identifier_lost :
  let a := actor_run [Command (Submit "a" None); Command (Submit "a" None); Joined 0;
                      Command (Cancel "a")] (actor_new demo_actor_config demo_actor_policy) in
  (λ a, (task_token <$> tasks a, bool_decide (1 ∈ cancelled a))) <$> a = Some ([1], false).
Proof. reflexivity. Qed.
