(* ===== verification/HookData.v ===== *)
(** * Hooks: events, tool names and matchers

    [ds-hooks/src/event.rs]: the events with their names, and the payloads;
    [ds-tools/src/types/claude_alias.rs]: the table of tool names of other agents;
    [ds-hooks/src/matcher.rs]: the matchers of a hook.  The [regex] crate is a
    parameter, and so is the printer of JSON values.

    Then [ds-hooks/src/env_expand.rs] and the functions of [ds-hooks/src/runner/command.rs]
    that look for variables in a command: the references of a text, the masking of the
    forms with a modifier, the expansion, the variables that a command assigns itself
    and those that nothing sets.  The [shellexpand] crate, the environment of the
    process and the random generator are parameters. *)

From S2P Require Import Prelude Text TextProps Json.

Open Scope nat_scope.

(** ** event.rs *)

Inductive HookEventName :=
| SessionStart | SessionEnd | Stop | StopFailure
| PreToolUse | PostToolUse | PostToolUseFailure | PermissionDenied
| UserPromptSubmit | Notification
| SubagentStart | SubagentStop | SubagentEnd
| PreCompact | PostCompact.

#[export] Instance HookEventName_eq_dec : EqDecision HookEventName.
Proof. solve_decision. Defined.

(** [HookRegistry::ALL_EVENTS], in the order in which they are displayed. *)
Definition ALL_EVENTS : list HookEventName :=
  [SessionStart; UserPromptSubmit; PreToolUse; PostToolUse; PostToolUseFailure;
   PermissionDenied; Stop; StopFailure; Notification; SubagentStart; SubagentStop;
   SubagentEnd; PreCompact; PostCompact; SessionEnd].

#[export] Instance HookEventName_finite : finite.Finite HookEventName.
Proof.
  refine (finite.Build_Finite _ _ ALL_EVENTS _ _).
  - apply (bool_decide_unpack (NoDup ALL_EVENTS)). by vm_compute.
  - intros e. apply (bool_decide_unpack (e ∈ ALL_EVENTS)). by destruct e; vm_compute.
Defined.

#[export] Instance HookEventName_countable : Countable HookEventName.
Proof. apply finite.finite_countable. Defined.

(** The names that [Deserialize] accepts for each event. *)
Definition EVENT_NAMES : list (HookEventName * list text) :=
  [(SessionStart, txt <$> ["SessionStart"; "session_start"; "sessionStart"]%string);
   (PreToolUse, txt <$> ["PreToolUse"; "pre_tool_use"; "preToolUse"; "beforeShellExecution";
                         "beforeMCPExecution"; "beforeReadFile"]%string);
   (PostToolUse, txt <$> ["PostToolUse"; "post_tool_use"; "postToolUse"; "afterShellExecution";
                          "afterMCPExecution"; "afterFileEdit"; "afterAgentResponse";
                          "afterAgentThought"]%string);
   (PostToolUseFailure,
    txt <$> ["PostToolUseFailure"; "post_tool_use_failure"; "postToolUseFailure"]%string);
   (SessionEnd, txt <$> ["SessionEnd"; "session_end"; "sessionEnd"]%string);
   (Stop, txt <$> ["Stop"; "stop"]%string);
   (StopFailure, txt <$> ["StopFailure"; "stop_failure"; "stopFailure"]%string);
   (Notification, txt <$> ["Notification"; "notification"]%string);
   (UserPromptSubmit,
    txt <$> ["UserPromptSubmit"; "user_prompt_submit"; "beforeSubmitPrompt"]%string);
   (PermissionDenied,
    txt <$> ["PermissionDenied"; "permission_denied"; "permissionDenied"]%string);
   (SubagentStart, txt <$> ["SubagentStart"; "subagent_start"; "subagentStart"]%string);
   (SubagentStop, txt <$> ["SubagentStop"; "subagent_stop"; "subagentStop"]%string);
   (SubagentEnd, txt <$> ["SubagentEnd"; "subagent_end"; "subagentEnd"]%string);
   (PreCompact, txt <$> ["PreCompact"; "pre_compact"; "preCompact"]%string);
   (PostCompact, txt <$> ["PostCompact"; "post_compact"; "postCompact"]%string)].

(** [<HookEventName as Deserialize>::deserialize]; [None] is the error. *)
Definition event_of_name (s : text) : option HookEventName :=
  fst <$> find_b (λ '(_, names), bool_decide (s ∈ names)) EVENT_NAMES.

(** [Display]. *)
Definition show_event (e : HookEventName) : text :=
  txt (match e with
       | SessionStart => "session_start" | PreToolUse => "pre_tool_use"
       | PostToolUse => "post_tool_use" | PostToolUseFailure => "post_tool_use_failure"
       | SessionEnd => "session_end" | Stop => "stop" | StopFailure => "stop_failure"
       | Notification => "notification" | UserPromptSubmit => "user_prompt_submit"
       | PermissionDenied => "permission_denied" | SubagentStart => "subagent_start"
       | SubagentStop | SubagentEnd => "subagent_stop"
       | PreCompact => "pre_compact" | PostCompact => "post_compact"
       end).

(** [#[serde(rename_all = "snake_case")]] of [Serialize]. *)
Definition serialize_event (e : HookEventName) : text :=
  match e with SubagentEnd => txt "subagent_end" | _ => show_event e end.

Definition canonical (e : HookEventName) : HookEventName :=
  match e with SubagentEnd => SubagentStop | other => other end.

Definition is_blocking (e : HookEventName) : bool := bool_decide (e = PreToolUse).

Definition is_lifecycle (e : HookEventName) : bool :=
  match e with SessionStart | SessionEnd | Stop | UserPromptSubmit => true | _ => false end.

Inductive HookPayload :=
| SessionStartP (source : text) (model_id agent_type : option text)
| SessionEndP (reason : text) (turn_count tool_call_count : option Z)
| StopP (reason : text)
| StopFailureP (error : text)
| PreToolUseP (tool_name tool_use_id : text) (tool_input : Json) (tool_input_truncated : bool)
    (permission_mode subagent_type : option text)
| PostToolUseP (tool_name tool_use_id : text) (tool_input tool_result : Json)
    (tool_input_truncated tool_result_truncated : bool) (duration_ms : option Z)
    (is_backgrounded : bool) (subagent_type : option text)
| PostToolUseFailureP (tool_name tool_use_id : text) (tool_input : Json)
    (tool_input_truncated : bool) (error : text) (subagent_type : option text)
| PermissionDeniedP (tool_name tool_use_id : text) (tool_input : Json)
    (tool_input_truncated : bool)
| UserPromptSubmitP (prompt : option text)
| NotificationP (notification_type : text) (message title level : option text)
| SubagentStartP (subagent_id subagent_type : text) (description : option text)
| SubagentStopP (subagent_id subagent_type : text) (description : option text)
    (exit_code : option Z) (duration_ms : option Z)
| PreCompactP (source : text)
| PostCompactP (source : text).

Record HookEventEnvelope := mkEnvelope {
  hook_event_name : HookEventName;
  env_session_id : text;
  env_cwd : text;
  env_workspace_root : text;
  timestamp : text;
  transcript_path : option text;
  client_identifier : option text;
  prompt_id : option text;
  payload : HookPayload;
}.

Definition MAX_PAYLOAD_SIZE : Z := 128 * 1024.

(** [truncate_payload], given [serde_json::to_string] and the bound. *)
Definition truncate_payload_at (max : Z) (to_string : Json → text) (value : Json) : Json * bool :=
  let serialized := to_string value in
  if (len serialized <=? max)%Z then (value, false)
  else
    let end_ := floor_boundary serialized (Z.to_nat max) in
    (JString (take end_ serialized ++ txt " [truncated]"), true).
Definition truncate_payload (to_string : Json → text) (value : Json) : Json * bool :=
  truncate_payload_at MAX_PAYLOAD_SIZE to_string value.

(** [dispatcher.rs]: [extract_tool_name]. *)
Definition extract_tool_name (e : HookEventEnvelope) : option text :=
  match payload e with
  | PreToolUseP n _ _ _ _ _ | PostToolUseP n _ _ _ _ _ _ _ _
  | PostToolUseFailureP n _ _ _ _ _ | PermissionDeniedP n _ _ _ => Some n
  | NotificationP t _ _ _ => Some t
  | _ => None
  end.

(** [dispatcher.rs]: [hub_hook_kind]. *)
Definition hub_hook_kind (e : HookEventName) : option text :=
  if is_blocking e then None else Some (txt "hook." ++ show_event e).

(** ** claude_alias.rs *)

Inductive ToolKind :=
| Read | Edit | Delete | ListDir | Write | Move | Search | Lsp | Execute | Plan
| WebSearch | WebFetch | BackgroundTaskAction | WaitTasksAction | KillTaskAction
| List | Skill | MemorySearch | MemoryGet | Task | EnterPlan | ExitPlan | AskUser
| ImageGen | VideoGen | ImageToVideo | ReferenceToVideo | DeployApp
| SearchTool | UseTool | Monitor | GoalUpdate | Other.

Record ClaudeTool := mkTool { claude : text; tool_kind : option ToolKind; ds : list text }.

Definition k (n : string) (kd : ToolKind) (names : list string) : ClaudeTool :=
  mkTool (txt n) (Some kd) (txt <$> names).
Definition match_only (n : string) (names : list string) : ClaudeTool :=
  mkTool (txt n) None (txt <$> names).

Definition CLAUDE_TOOLS : list ClaudeTool :=
  [k "Read" Read ["read_file"; "hashline_read"];
   k "Write" Write ["write"; "search_replace"; "hashline_edit"];
   k "Edit" Edit ["search_replace"; "hashline_edit"];
   k "MultiEdit" Edit ["search_replace"; "hashline_edit"];
   k "NotebookEdit" Edit ["search_replace"; "hashline_edit"];
   k "Bash" Execute ["run_terminal_command"];
   k "PowerShell" Execute [];
   k "Grep" Search ["grep"; "hashline_grep"];
   k "Glob" List ["list_dir"];
   k "LS" List [];
   k "LSP" Lsp ["lsp"];
   k "WebSearch" WebSearch ["web_search"];
   k "WebFetch" WebFetch ["web_fetch"];
   k "DeployApp" DeployApp [];
   k "TodoWrite" Plan ["todo_write"];
   k "AskUserQuestion" AskUser ["ask_user_question"];
   k "TaskOutput" BackgroundTaskAction
     ["get_command_or_subagent_output"; "get_terminal_command_output"];
   k "BashOutput" BackgroundTaskAction
     ["get_command_or_subagent_output"; "get_terminal_command_output"];
   k "BashOutputTool" BackgroundTaskAction
     ["get_command_or_subagent_output"; "get_terminal_command_output"];
   k "AgentOutputTool" BackgroundTaskAction
     ["get_command_or_subagent_output"; "get_terminal_command_output"];
   k "TaskStop" KillTaskAction ["kill_command_or_subagent"; "kill_terminal_command"];
   k "KillShell" KillTaskAction ["kill_command_or_subagent"; "kill_terminal_command"];
   k "KillBash" KillTaskAction ["kill_command_or_subagent"; "kill_terminal_command"];
   k "Skill" Read ["skill"];
   k "ToolSearch" SearchTool ["search_tool"];
   match_only "Agent" ["spawn_subagent"];
   match_only "Task" ["spawn_subagent"];
   match_only "EnterPlanMode" ["enter_plan_mode"];
   match_only "ExitPlanMode" ["exit_plan_mode"];
   match_only "CronCreate" ["scheduler_create"];
   match_only "CronDelete" ["scheduler_delete"];
   match_only "CronList" ["scheduler_list"];
   match_only "ListMcpResourcesTool" ["ListMcpResources"]]%string.

Definition find_tool (name : text) : option ClaudeTool :=
  find_b (λ t, bool_decide (claude t = name)) CLAUDE_TOOLS.

Definition kind_for (name : text) : option ToolKind := find_tool name ≫= tool_kind.

Definition ds_names_for (name : text) : list text :=
  match find_tool name with Some t => ds t | None => [] end.

Definition claude_names_for (ds_name : text) : list text :=
  claude <$> filter_b (λ t, bool_decide (ds_name ∈ ds t)) CLAUDE_TOOLS.

(** The names that are not yet seen, [HashSet::insert] as the filter. *)
Fixpoint first_seen (seen : list text) (l : list text) : list text :=
  match l with
  | [] => []
  | x :: l => if decide (x ∈ seen) then first_seen seen l else x :: first_seen (x :: seen) l
  end.

Definition ds_names : list text := first_seen [] (CLAUDE_TOOLS ≫= ds).

(** ** matcher.rs *)

(** The [regex] crate: [Regex::new], with the text of its error, and
    [Regex::is_match]. *)
Class RegexCrate := {
  regex : Type;
  regex_new : text → text + regex;
  regex_is_match : regex → text → bool;
}.

Section matcher.
Context `{RegexCrate}.

Inductive MatcherKind :=
| All
| Never
| Exact (names : list text)
| Regex (r : regex).

Record HookMatcher := mkMatcher { kind : MatcherKind }.

Definition is_alnum (c : ascii) : bool :=
  byte_in 48 57 c || byte_in 65 90 c || byte_in 97 122 c.

Definition simple_byte (b : ascii) : bool :=
  is_alnum b || bool_decide (b = "_"%char) || bool_decide (b = "|"%char).

Definition is_simple_form (pattern : text) : bool :=
  negb (bool_decide (pattern = [])) && forallb simple_byte pattern.

(** The closure [push]. *)
Definition push_name (names : list text) (name : text) : list text :=
  if bool_decide (name ≠ []) && negb (any_b (λ n, bool_decide (n = name)) names)
  then names ++ [name] else names.

Definition push_term (names : list text) (term : text) : list text :=
  foldl push_name (push_name names term) (ds_names_for term).

Definition exact_names (pattern : text) : list text :=
  foldl push_term [] (split_on "|"%char pattern).

Definition matcher_new (pattern : text) : text + HookMatcher :=
  if bool_decide (pattern = []) || bool_decide (pattern = txt "*") then inr (mkMatcher All)
  else if is_simple_form pattern then inr (mkMatcher (Exact (exact_names pattern)))
  else match regex_new pattern with
       | inl e => inl e
       | inr r => inr (mkMatcher (Regex r))
       end.

Definition matcher_never : HookMatcher := mkMatcher Never.

Definition is_match (m : HookMatcher) (tool_name : text) : bool :=
  match kind m with
  | All => true
  | Never => false
  | Exact names => any_b (λ n, bool_decide (n = tool_name)) names
  | Regex r => regex_is_match r tool_name
               || any_b (λ alias, regex_is_match r alias) (claude_names_for tool_name)
  end.

End matcher.

Definition DOLLAR : ascii := "$"%char.
Definition LBRACE : ascii := "{"%char.
Definition RBRACE : ascii := "}"%char.

Definition is_alpha (c : ascii) : bool := byte_in 65 90 c || byte_in 97 122 c.
Definition is_ident_byte (c : ascii) : bool := is_alnum c || bool_decide (c = "_"%char).
Definition is_ident_start (c : ascii) : bool := is_alpha c || bool_decide (c = "_"%char).

(** The number of bytes, from the start of a text, that satisfy [p]. *)
Fixpoint run_length (p : ascii → bool) (s : text) : nat :=
  match s with [] => 0 | c :: s => if p c then S (run_length p s) else 0 end.

Definition ident_length (s : text) : nat := run_length is_ident_byte s.

(** ** env_expand.rs *)

Record EnvVarRef := mkRef {
  start : nat;
  end_ : nat;
  name : text;
  braced : bool;
  has_modifier : bool;
}.

(** [EnvVarRefIter::next], all of them: [rest] is the input from [pos] on. *)
Fixpoint refs_from (fuel pos : nat) (rest : text) : list EnvVarRef :=
  match fuel with
  | O => []
  | S fuel =>
      match rest with
      | [] => []
      | c :: after =>
          if negb (bool_decide (c = DOLLAR)) then refs_from fuel (S pos) after
          else match after with
          | [] => []
          | d :: body =>
              if bool_decide (d = LBRACE) then
                let n := ident_length body in
                let m := run_length (λ c, negb (bool_decide (c = RBRACE))) (drop n body) in
                match drop (n + m) body with
                | [] => refs_from fuel (S pos) after
                | _ :: tail =>
                    mkRef pos (pos + 2 + n + m + 1) (take n body) true
                          (negb (bool_decide (n = 0)) && (0 <? m))
                    :: refs_from fuel (pos + 2 + n + m + 1) tail
                end
              else if is_ident_start d then
                let n := ident_length after in
                mkRef pos (pos + 1 + n) (take n after) false false
                :: refs_from fuel (pos + 1 + n) (drop n after)
              else refs_from fuel (pos + 2) body
          end
      end
  end.

Definition iter_env_var_references (input : text) : list EnvVarRef :=
  refs_from (length input) 0 input.

(** The bytes [i..j] of a text. *)
Definition bytes_between (s : text) (i j : nat) : text := take (j - i) (drop i s).

Fixpoint mask_refs (input sentinel : text) (cursor : nat) (refs : list EnvVarRef) : text :=
  match refs with
  | [] => drop cursor input
  | r :: refs =>
      bytes_between input cursor (start r)
      ++ (if braced r && has_modifier r
          then sentinel ++ bytes_between input (start r + 2) (end_ r)
          else bytes_between input (start r) (end_ r))
      ++ mask_refs input sentinel (end_ r) refs
  end.

Definition mask_modifier_forms (input sentinel : text) : text :=
  mask_refs input sentinel 0 (iter_env_var_references input).

(** [{:016x}] of a [u64]. *)
Definition hex_digit (d : Z) : ascii :=
  ascii_of_nat (Z.to_nat (if (d <? 10)%Z then 48 + d else 87 + d)).
Fixpoint hex_digits (n : nat) (v : Z) : text :=
  match n with O => [] | S n => hex_digits n (v / 16) ++ [hex_digit (v mod 16)] end.

(** U+F8FF in UTF-8. *)
Definition PUA_CHAR : text := [ascii_of_nat 239; ascii_of_nat 163; ascii_of_nat 191].
Definition SENTINEL_PREFIX : text := PUA_CHAR ++ txt "__DS_HOOKS_MASK_".
Definition SENTINEL_SUFFIX : text := txt "__" ++ PUA_CHAR.

Definition make_sentinel (hi lo : Z) : text :=
  SENTINEL_PREFIX ++ hex_digits 16 hi ++ hex_digits 16 lo ++ SENTINEL_SUFFIX.

(** [std::env::var] with the variables that are not Unicode left out,
    [std::env::var_os] is some; [shellexpand::env_with_context_no_errors]; and the two
    numbers that [fastrand] draws when an input is expanded. *)
Class Environment := {
  env_var : text → option text;
  env_var_os : text → bool;
  shellexpand : text → (text → option text) → text;
  draw : text → Z * Z;
}.

Section expand.
Context `{Environment}.

(** The closure [context]. *)
Definition env_context (extra : gmap text text) (n : text) : option text :=
  match extra !! n with Some v => Some v | None => env_var n end.

Definition expand_env_vars_with_extra (input : text) (extra : gmap text text) : text :=
  let '(hi, lo) := draw input in
  let sentinel := make_sentinel hi lo in
  let masked := mask_modifier_forms input sentinel in
  let expanded := shellexpand masked (env_context extra) in
  if contains expanded sentinel then replace_all sentinel (txt "${") expanded else expanded.

End expand.

(** ** runner/command.rs: variables of a command *)

Definition RUNNER_ALWAYS_SET_ENV : list text :=
  txt <$> ["DS_HOOK_EVENT"; "DS_HOOK_NAME"; "DS_SESSION_ID"; "DS_WORKSPACE_ROOT";
           "CLAUDE_PROJECT_DIR"]%string.

Definition is_blank_byte (c : ascii) : bool := bool_decide (c = " "%char) || bool_decide (c = ascii_of_nat 9).

(** The closure [is_statement_start], of the bytes before the identifier. *)
Definition is_statement_start (before : text) : bool :=
  match drop_while is_blank_byte (reverse before) with
  | [] => true
  | c :: _ => bool_decide (c ∈ [";"%char; "&"%char; "|"%char; LF; "("%char; "{"%char])
  end.

(** The loop after the keyword [read]: the names it collects and where it stops. *)
Fixpoint read_names (fuel pos : nat) (rest : text) (names : gset text) : gset text * (nat * text) :=
  match fuel, rest with
  | O, _ | _, [] => (names, (pos, rest))
  | S fuel, c :: rest' =>
      if bool_decide (c ∈ [";"%char; "&"%char; "|"%char; LF; "<"%char; ">"%char])
      then (names, (pos, rest))
      else if is_blank_byte c then read_names fuel (S pos) rest' names
      else if bool_decide (c = "-"%char) then
        let n := run_length (λ c, negb (is_blank_byte c)) rest in
        read_names fuel (pos + n) (drop n rest) names
      else if is_ident_start c then
        let n := ident_length rest in
        read_names fuel (pos + n) (drop n rest) ({[take n rest]} ∪ names)
      else (names, (pos, rest))
  end.

(** The main loop; [rest] is the command from [pos] on. *)
Fixpoint assignments_from (command : text) (fuel pos : nat) (rest : text) (names : gset text)
    : gset text :=
  match fuel, rest with
  | O, _ | _, [] => names
  | S fuel, c :: rest' =>
      if negb (is_ident_start c) then assignments_from command fuel (S pos) rest' names
      else
        let n := ident_length rest in
        let ident := take n rest in
        let after := drop n rest in
        let statement := is_statement_start (take pos command) in
        if bool_decide (head after = Some "="%char) && statement
        then assignments_from command fuel (pos + n) after ({[ident]} ∪ names)
        else if bool_decide (ident = txt "read") && statement then
          let b := run_length is_blank_byte after in
          let '(names, (pos, rest)) := read_names fuel (pos + n + b) (drop b after) names in
          assignments_from command fuel pos rest names
        else assignments_from command fuel (pos + n) after names
  end.

Definition find_local_shell_assignments (command : text) : gset text :=
  assignments_from command (length command) 0 command ∅.

(** [Ord] of [str]: by the bytes. *)
Fixpoint text_leb (a b : text) : bool :=
  match a, b with
  | [], _ => true
  | _ :: _, [] => false
  | x :: a, y :: b =>
      if (byte_val x <? byte_val y)%N then true
      else if (byte_val y <? byte_val x)%N then false else text_leb a b
  end.

(** [slice::sort] of texts, written as insertion sort. *)
Fixpoint insert_text (x : text) (l : list text) : list text :=
  match l with
  | [] => [x]
  | y :: l => if text_leb x y then x :: y :: l else y :: insert_text x l
  end.
Definition sort_texts (l : list text) : list text := foldr insert_text [] l.

(** [Vec::dedup]. *)
Fixpoint dedup (l : list text) : list text :=
  match l with
  | [] => []
  | x :: l' =>
      match dedup l' with
      | [] => [x]
      | y :: l'' => if decide (x = y) then y :: l'' else x :: y :: l''
      end
  end.

Section unresolved.
Context `{Environment}.

(** The reference counts as unresolved: the [continue]s of the loop. *)
Definition unresolved (extra_env : gmap text text) (assigned : gset text) (r : EnvVarRef) : bool :=
  negb (bool_decide (name r = []) || has_modifier r
        || bool_decide (name r ∈ RUNNER_ALWAYS_SET_ENV)
        || bool_decide (is_Some (extra_env !! name r))
        || env_var_os (name r)
        || bool_decide (name r ∈ assigned)).

Definition find_unresolved_env_vars (command : text) (extra_env : gmap text text) : list text :=
  let locally_assigned := find_local_shell_assignments command in
  dedup (sort_texts
    (name <$> filter_b (unresolved extra_env locally_assigned) (iter_env_var_references command))).

End unresolved.
