(* ===== verification/HookLoad.v ===== *)
(** * Hooks: configuration, discovery and the list of disabled hooks

    [ds-hooks/src/config.rs]: the reading of a hook file; [ds-hooks/src/discovery.rs]:
    the registry and its loading from the sources; [ds-hooks/src/trust.rs]: the trusted
    projects and the disabled hooks.

    The decoding that [serde] derives for the structures of a hook file is written out;
    the texts of its errors, the parser of JSON, the order in which hash maps are
    iterated and what the file system answers are parameters. *)

From S2P Require Import Prelude Text TextProps Json HookData.

Open Scope nat_scope.

(** ** [std::path] on Unix *)

(** The components of a path, each with the offset of its end: empty pieces are skipped,
    and so is a dot that does not start a relative path. *)
Fixpoint components_from (pos : nat) (at_start : bool) (pieces : list text) : list (text * nat) :=
  match pieces with
  | [] => []
  | p :: pieces =>
      let rest := components_from (pos + length p + 1) false pieces in
      if bool_decide (p = []) then rest
      else if bool_decide (p = txt ".") && negb at_start then rest
      else (p, pos + length p) :: rest
  end.
Definition components (p : text) : list (text * nat) :=
  components_from 0 true (split_on "/"%char p).

Definition is_absolute (p : text) : bool := starts_with (txt "/") p.

(** [Path::join]. *)
Definition path_join (dir p : text) : text :=
  if is_absolute p then p
  else if bool_decide (dir = []) || ends_with "/"%char dir then dir ++ p
  else dir ++ txt "/" ++ p.

(** [Path::parent]. *)
Definition parent (p : text) : option text :=
  match reverse (components p) with
  | [] => None
  | [_] => Some (if is_absolute p then txt "/" else [])
  | _ :: (_, e) :: _ => Some (take e p)
  end.

(** [Path::file_name]. *)
Definition file_name (p : text) : option text :=
  match last (components p) with
  | Some (c, _) => if bool_decide (c = txt "." ∨ c = txt "..") then None else Some c
  | None => None
  end.

(** [rsplit_file_at_dot]: the parts before and after the last dot. *)
Definition split_extension (name : text) : text * option text :=
  if bool_decide (name = txt "..") then (name, None)
  else match rfind_text (txt ".") name with
       | None | Some 0 => (name, None)
       | Some i => (take i name, Some (drop (S i) name))
       end.

(** [Path::file_stem], [Path::extension]. *)
Definition file_stem (p : text) : option text := fst ∘ split_extension <$> file_name p.
Definition extension (p : text) : option text := file_name p ≫= snd ∘ split_extension.

(** ** error.rs *)

Inductive HookError :=
| ReadFile (path source : text)
| ParseFile (path detail : text)
| InvalidMatcher (err_name path source : text)
| LifecycleMatcherNotAllowed (err_name path event : text)
| Timeout (err_name : text) (elapsed_ms : Z)
| CommandFailed (err_name source : text)
| InvalidOutput (err_name detail : text)
| CommandNotFound (err_name path : text)
| InvalidConfig (err_name path detail : text)
| UnsupportedHandlerType (err_name path handler_type : text).

(** ** config.rs: the structures of a hook file *)

Record RawHandler := mkHandler {
  rh_type : text;
  rh_command : option text;
  rh_url : option text;
  rh_timeout : option Z;
  rh_env : gmap text text;
}.

Record MatcherGroup := mkGroup { mg_matcher : option text; mg_hooks : list RawHandler }.

(** [serde] on a value: a text; an optional value; an [Option<u64>]. *)
Definition de_text (v : Json) : option text := match v with JString t => Some t | _ => None end.
Definition de_option {A} (de : Json → option A) (v : Json) : option (option A) :=
  match v with JNull => Some None | _ => Some <$> de v end.
Definition de_u64 (v : Json) : option Z :=
  match v with JNumber repr => parse_uint u64_max repr | _ => None end.

(** A field that is not there: an [Option] is [None]. *)
Definition de_field {A} (de : Json → option A) (v : option Json) : option (option A) :=
  match v with None => Some None | Some v => de_option de v end.

(** [HashMap<String, String>]. *)
Definition de_entry (m : gmap text text) (f : text * Json) : option (gmap text text) :=
  v ← de_text (snd f); Some (<[fst f := v]> m).
Definition de_string_map (v : Json) : option (gmap text text) :=
  match v with
  | JObject fields => foldl (λ om f, m ← om; de_entry m f) (Some ∅) fields
  | _ => None
  end.

(** [deserialize_optional_string_map]. *)
Definition deserialize_optional_string_map (v : Json) : option (gmap text text) :=
  default ∅ <$> de_option de_string_map v.

(** The derived [Deserialize] of [RawHandler]: an object, or the sequence of its fields. *)
Definition de_handler (v : Json) : option RawHandler :=
  match v with
  | JObject fields =>
      ty ← assoc (txt "type") fields ≫= de_text;
      command ← de_field de_text (assoc (txt "command") fields);
      url ← de_field de_text (assoc (txt "url") fields);
      timeout ← de_field de_u64 (assoc (txt "timeout") fields);
      env ← match assoc (txt "env") fields with
            | None => Some ∅
            | Some v => deserialize_optional_string_map v
            end;
      Some (mkHandler ty command url timeout env)
  | JArray (t :: c :: u :: s :: tail) =>
      ty ← de_text t;
      command ← de_option de_text c;
      url ← de_option de_text u;
      timeout ← de_option de_u64 s;
      env ← match tail with
            | [] => Some ∅
            | [v] => deserialize_optional_string_map v
            | _ => None
            end;
      Some (mkHandler ty command url timeout env)
  | _ => None
  end.

Definition de_list {A} (de : Json → option A) (v : Json) : option (list A) :=
  match v with JArray l => mapM de l | _ => None end.

(** The derived [Deserialize] of [MatcherGroup]. *)
Definition de_group (v : Json) : option MatcherGroup :=
  match v with
  | JObject fields =>
      matcher ← de_field de_text (assoc (txt "matcher") fields);
      hooks ← assoc (txt "hooks") fields ≫= de_list de_handler;
      Some (mkGroup matcher hooks)
  | JArray [m; h] =>
      matcher ← de_option de_text m;
      hooks ← de_list de_handler h;
      Some (mkGroup matcher hooks)
  | _ => None
  end.

Definition de_groups (v : Json) : option (list MatcherGroup) := de_list de_group v.

Record HooksMap := mkHooksMap {
  events : gmap HookEventName (list MatcherGroup);
  skipped_events : list text;
}.

(** [serde_json::from_str] and [to_string], the messages of [from_value] for a value that
    is not an object and for one that is no list of groups, and the orders in which the
    two hash maps of the loader are iterated. *)
Class Serde := {
  json_from_str : text → text + Json;
  json_to_string : Json → text;
  map_error : Json → text;
  groups_error : Json → text;
  key_order : list (text * Json) → list (text * Json);
  event_order : list (HookEventName * list MatcherGroup) → list (HookEventName * list MatcherGroup);
}.

(** The iteration of a hash map yields its entries. *)
Class SerdeOrder `{Serde} := {
  key_order_perm l : key_order l ≡ₚ l;
  event_order_perm l : event_order l ≡ₚ l;
}.

Section hooks_map.
Context `{Serde}.

(** The loop of [HooksMap::from_value]. *)
Fixpoint read_events (entries : list (text * Json)) (hm : HooksMap) : text + HooksMap :=
  match entries with
  | [] => inr hm
  | (key, val) :: entries =>
      match event_of_name key with
      | None => read_events entries (mkHooksMap (events hm) (skipped_events hm ++ [key]))
      | Some event =>
          match de_groups val with
          | None => inl (txt "invalid matcher groups for event '" ++ key ++ txt "': "
                         ++ groups_error val)
          | Some groups =>
              read_events entries (mkHooksMap (<[event := groups]> (events hm)) (skipped_events hm))
          end
      end
  end.

Definition from_value (value : Json) : text + HooksMap :=
  match value with
  | JObject fields => read_events (key_order fields) (mkHooksMap ∅ [])
  | _ => inl (txt "invalid hooks structure: " ++ map_error value)
  end.

End hooks_map.

(** ** config.rs: the specifications *)

Definition DEFAULT_TIMEOUT_SECS : Z := 5.
Definition DEFAULT_TIMEOUT_MS : Z := DEFAULT_TIMEOUT_SECS * 1000.

Section spec.
Context `{RegexCrate}.

Record HookSpec := mkSpec {
  spec_name : text;
  spec_event : HookEventName;
  handler_type : text;
  configured_matcher : option text;
  matcher : option HookMatcher;
  enabled : bool;
  command : option text;
  command_raw : option text;
  url : option text;
  url_raw : option text;
  timeout_ms : Z;
  source_dir : text;
  extra_env : gmap text text;
}.

Definition set_name (n : text) (s : HookSpec) : HookSpec :=
  mkSpec n (spec_event s) (handler_type s) (configured_matcher s) (matcher s) (enabled s)
    (command s) (command_raw s) (url s) (url_raw s) (timeout_ms s) (source_dir s) (extra_env s).
Definition set_source_dir (d : text) (s : HookSpec) : HookSpec :=
  mkSpec (spec_name s) (spec_event s) (handler_type s) (configured_matcher s) (matcher s) (enabled s)
    (command s) (command_raw s) (url s) (url_raw s) (timeout_ms s) d (extra_env s).
Definition set_matcher (m : option HookMatcher) (s : HookSpec) : HookSpec :=
  mkSpec (spec_name s) (spec_event s) (handler_type s) (configured_matcher s) m (enabled s)
    (command s) (command_raw s) (url s) (url_raw s) (timeout_ms s) (source_dir s) (extra_env s).

(** [strip_reserved_env_keys]. *)
Definition strip_reserved_env_keys (m : gmap text text) : gmap text text :=
  foldl (λ m reserved, delete reserved m) m RUNNER_ALWAYS_SET_ENV.

Context `{Serde, Environment}.

(** [{file_stem}:{event}[{group_idx}]]. *)
Definition group_name (stem : text) (event : HookEventName) (group_idx : nat) : text :=
  stem ++ txt ":" ++ show_event event ++ txt "[" ++ show_Z (Z.of_nat group_idx) ++ txt "]".

(** The body of the loop over the handlers of a group. *)
Definition build_handler (file_path stem : text) (event : HookEventName) (group_idx : nat)
    (pattern : option text) (compiled : option HookMatcher) (hook_idx : nat) (h : RawHandler)
    : HookError + HookSpec :=
  let name := group_name stem event group_idx ++ txt ".hooks[" ++ show_Z (Z.of_nat hook_idx)
              ++ txt "]" in
  let timeout := match rh_timeout h with
                 | Some secs => as_u64 (secs * 1000)
                 | None => DEFAULT_TIMEOUT_MS
                 end in
  let dir := default (txt ".") (parent file_path) in
  let env := strip_reserved_env_keys (rh_env h) in
  if bool_decide (rh_type h = txt "command") then
    match rh_command h with
    | None => inl (InvalidConfig name file_path (txt "command handler requires a 'command' field"))
    | Some c =>
        inr (mkSpec name event (txt "command") pattern compiled true
               (Some (expand_env_vars_with_extra c env)) (Some c) None None timeout dir env)
    end
  else if bool_decide (rh_type h = txt "http") then
    match rh_url h with
    | None => inl (InvalidConfig name file_path (txt "http handler requires a 'url' field"))
    | Some u =>
        inr (mkSpec name event (txt "http") pattern compiled true
               None None (Some (expand_env_vars_with_extra u env)) (Some u) timeout dir env)
    end
  else inl (UnsupportedHandlerType name file_path (rh_type h)).

(** [Ok] values and errors, each in order. *)
Fixpoint collect {A B} (l : list (A + B)) : list B * list A :=
  match l with
  | [] => ([], [])
  | inl e :: l => let '(oks, errs) := collect l in (oks, e :: errs)
  | inr s :: l => let '(oks, errs) := collect l in (s :: oks, errs)
  end.

(** The body of the loop over the matcher groups of an event. *)
Definition build_group (file_path stem : text) (event : HookEventName) (group_idx : nat)
    (g : MatcherGroup) : list (HookError + HookSpec) :=
  let pattern := match mg_matcher g with Some [] => None | m => m end in
  let name := group_name stem event group_idx in
  if is_lifecycle event && bool_decide (is_Some pattern)
  then [inl (LifecycleMatcherNotAllowed name file_path (show_event event))]
  else match pattern with
       | Some p =>
           match matcher_new p with
           | inl e => [inl (InvalidMatcher name file_path e)]
           | inr m => imap (build_handler file_path stem event group_idx pattern (Some m)) (mg_hooks g)
           end
       | None => imap (build_handler file_path stem event group_idx None None) (mg_hooks g)
       end.

Definition build_event (file_path stem : text) (eg : HookEventName * list MatcherGroup)
    : list (HookError + HookSpec) :=
  concat (imap (build_group file_path stem (fst eg)) (snd eg)).

Definition parse_hook_file (content file_path : text) : list HookSpec * list HookError :=
  match json_from_str content with
  | inl e => ([], [ParseFile file_path e])
  | inr top_level =>
      match json_get (txt "hooks") top_level with
      | None => ([], [])
      | Some hooks_value =>
          match from_value hooks_value with
          | inl detail => ([], [ParseFile file_path detail])
          | inr hm =>
              let stem := default (txt "unknown") (file_stem file_path) in
              collect (event_order (map_to_list (events hm)) ≫= build_event file_path stem)
          end
      end
  end.

Definition parse_hooks_from_value_with_dir (hooks : Json) (source_name dir : text)
    : list HookSpec * list HookError :=
  let '(specs, errors) :=
    parse_hook_file (json_to_string (JObject [(txt "hooks", hooks)])) source_name in
  (set_source_dir dir <$> specs, errors).
Definition parse_hooks_from_value (hooks : Json) (source_name : text) : list HookSpec * list HookError :=
  parse_hooks_from_value_with_dir hooks source_name (txt ".").

(** ** discovery.rs: the registry *)

Record HookRegistry := mkRegistry { hooks : gmap HookEventName (list HookSpec) }.

Definition empty_registry : HookRegistry := mkRegistry ∅.

Definition hooks_for (r : HookRegistry) (event : HookEventName) : list HookSpec :=
  default [] (hooks r !! event).

Definition registry_is_empty (r : HookRegistry) : bool :=
  forallb (λ kv, bool_decide (snd kv = [])) (map_to_list (hooks r)).

Definition registry_len (r : HookRegistry) : nat :=
  foldr Nat.add 0 (length ∘ snd <$> map_to_list (hooks r)).

(** [entry(spec.event).or_default().push(spec)]. *)
Definition push_spec (r : HookRegistry) (spec : HookSpec) : HookRegistry :=
  mkRegistry (<[spec_event spec := hooks_for r (spec_event spec) ++ [spec]]> (hooks r)).

Definition append_specs (r : HookRegistry) (specs : list HookSpec) : HookRegistry :=
  foldl push_spec r specs.

Definition remove_by_prefix (prefix : text) (r : HookRegistry) : HookRegistry :=
  mkRegistry (filter_b (λ s, negb (starts_with prefix (spec_name s))) <$> hooks r).

Definition all_hooks (r : HookRegistry) : list HookSpec := ALL_EVENTS ≫= hooks_for r.

Definition recompile (s : HookSpec) : HookSpec :=
  match configured_matcher s with
  | None => s
  | Some pattern =>
      match matcher_new pattern with
      | inr m => set_matcher (Some m) s
      | inl _ => set_matcher (Some matcher_never) s
      end
  end.

Definition recompile_matchers (r : HookRegistry) : HookRegistry :=
  mkRegistry ((λ specs : list HookSpec, recompile <$> specs) <$> hooks r).

(** What [#[serde(skip)]] leaves of a registry that is written and read back. *)
Definition wire_spec (s : HookSpec) : HookSpec := set_matcher None s.
Definition wire_registry (r : HookRegistry) : HookRegistry := mkRegistry ((λ specs : list HookSpec, wire_spec <$> specs) <$> hooks r).

(** ** discovery.rs: loading *)

Inductive HookSource := SettingsFile (p : text) | Directory (p : text).

(** An I/O error: whether it is [NotFound], and its text. *)
Definition io_error : Type := bool * text.

Record HookFs := mkFs {
  read_to_string : text → io_error + text;
  read_dir : text → io_error + list (text + text);
  is_file : text → bool;
}.

Context (fs : HookFs).

Definition load_hooks_from_settings_file (path : text) : list HookSpec * list HookError :=
  match read_to_string fs path with
  | inl (true, _) => ([], [])
  | inl (false, e) => ([], [ReadFile path e])
  | inr content => parse_hook_file content path
  end.

Definition text_ends_with (s suffix : text) : bool := starts_with (reverse suffix) (reverse s).

Definition is_valid_hook_file (path : text) : bool :=
  match file_name path with
  | None => false
  | Some name =>
      if negb (bool_decide (extension path = Some (txt "json"))) then false
      else if starts_with (txt ".") name then false
      else if text_ends_with name (txt "~") || text_ends_with name (txt ".swp")
              || text_ends_with name (txt ".swo") then false
      else is_file fs path
  end.

Definition load_file (path : text) : list HookSpec * list HookError :=
  match read_to_string fs path with
  | inl (_, e) => ([], [ReadFile path e])
  | inr content => parse_hook_file content path
  end.

(** The results of several loads, in order. *)
Definition join_loads (l : list (list HookSpec * list HookError)) : list HookSpec * list HookError :=
  (concat (fst <$> l), concat (snd <$> l)).

Definition load_hooks_from_directory (dir : text) : list HookSpec * list HookError :=
  match read_dir fs dir with
  | inl (true, _) => ([], [])
  | inl (false, e) => ([], [ReadFile dir e])
  | inr entries =>
      let '(paths, bad) := collect entries in
      let json_files := sort_texts (filter_b is_valid_hook_file paths) in
      let '(specs, errors) := join_loads (load_file <$> json_files) in
      (specs, (ReadFile dir <$> bad) ++ errors)
  end.

Definition load_from_source (source : HookSource) : list HookSpec * list HookError :=
  match source with
  | SettingsFile path => load_hooks_from_settings_file path
  | Directory dir => load_hooks_from_directory dir
  end.

Definition load_scope (scope : text) (source : HookSource) : list HookSpec * list HookError :=
  let '(specs, errors) := load_from_source source in
  ((λ s, set_name (scope ++ txt "/" ++ spec_name s) s) <$> specs, errors).

Definition content_key : Type := HookEventName * text * text * text.
Definition spec_key (s : HookSpec) : content_key :=
  (spec_event s, default [] (command_raw s), default [] (url_raw s),
   default [] (configured_matcher s)).

(** The specifications whose key is new, [seen_content]. *)
Fixpoint first_of_key (seen : list content_key) (specs : list HookSpec) : list HookSpec :=
  match specs with
  | [] => []
  | s :: specs =>
      if decide (spec_key s ∈ seen) then first_of_key seen specs
      else s :: first_of_key (spec_key s :: seen) specs
  end.

Definition load_hooks_from_sources (global_sources project_sources : list HookSource)
    : HookRegistry * list HookError :=
  let '(specs, errors) :=
    join_loads ((load_scope (txt "global") <$> global_sources)
                ++ (load_scope (txt "project") <$> project_sources)) in
  (append_specs empty_registry (first_of_key [] specs), errors).

Definition load_hooks (global_dir project_dir : option text) : HookRegistry * list HookError :=
  load_hooks_from_sources (Directory <$> option_list global_dir) (Directory <$> option_list project_dir).

End spec.

(** ** trust.rs *)

(** [list_trusted_projects_with_file]. *)
Definition list_trusted_projects (file : io_error + text) : text + list text :=
  match file with
  | inl (true, _) => inr []
  | inl (false, e) => inl e
  | inr content =>
      inr (filter_b (λ l, negb (bool_decide (l = [])) && negb (starts_with (txt "#") l))
             (trim <$> lines content))
  end.

(** The line names the hook. *)
Definition names_hook (hook_name line : text) : bool :=
  negb (bool_decide (trim line = [])) && negb (starts_with (txt "#") (trim line))
  && bool_decide (trim line = hook_name).

(** [read_to_string] of the bytes of the file; [None] is a file that is missing. *)
Definition readable (file : option text) : option text :=
  content ← file; if utf8_valid content then Some content else None.

(** [is_hook_disabled_with_file]. *)
Definition is_hook_disabled_in (hook_name : text) (file : option text) : bool :=
  match readable file with
  | None => false
  | Some content => any_b (names_hook hook_name) (lines content)
  end.

(** [disable_hook_with_file], where appending succeeds: the file after it. *)
Definition disable_hook_in (hook_name : text) (file : option text) : option text :=
  if is_hook_disabled_in hook_name file then file
  else Some (default [] file ++ hook_name ++ [LF]).

(** [enable_hook_with_file], where writing succeeds: whether the hook was there ([None] is
    the error of a file that cannot be read), and the file after it. *)
Definition enable_hook_in (hook_name : text) (file : option text) : option bool * option text :=
  match file, readable file with
  | None, _ => (Some false, None)
  | Some _, None => (None, file)
  | Some _, Some content =>
      let new_lines := filter_b (λ l, negb (names_hook hook_name l)) (lines content) in
      if any_b (names_hook hook_name) (lines content)
      then (Some true, Some (unlines new_lines)) else (Some false, file)
  end.
