(* ===== verification/HookRun.v ===== *)
(** * Hooks: the runners and the dispatcher

    [ds-hooks/src/runner/command.rs], [runner/http.rs], [runner/mod.rs],
    [ds-hooks/src/dispatcher.rs] and [result.rs], with the gate of a tool call in the
    session ([ds-shell/src/session/acp_session/hooks.rs] and the part of
    [acp_session_impl/tool_calls.rs] that calls it).

    A run of a hook is the [i]-th run of the program: what the processes, the servers,
    the resolver of names and the clock answer to it are parameters.  The effects of a
    run (the process started, the request sent) are a list. *)

From S2P Require Import Prelude Text TextProps HookData HookLoad.

Open Scope nat_scope.

(** ** result.rs, runner/mod.rs *)

Inductive HookDecision :=
| Allow
| Deny (reason hook_name : text).

(** Durations are in milliseconds. *)
Record HttpInfo := mkHttpInfo {
  info_url : text;
  raw_url : option text;
  status : option Z;
  response_preview : option text;
}.

Inductive HookRunResult :=
| Success (hook_name : text) (elapsed : Z) (http_info : option HttpInfo)
| Skipped (hook_name : text)
| Failed (hook_name error : text) (elapsed : Z) (http_info : option HttpInfo).

Record RunContext := mkContext { session_id : text; workspace_root : text }.

Inductive HookRunnerResult :=
| RDecision (d : HookDecision)
| RSuccess
| RFailed (error : text).

Record HookRunOutput := mkOutput {
  result : HookRunnerResult;
  elapsed : Z;
  http_info : option HttpInfo;
}.

(** ** The world *)

(** What is started: a shell with a command, or a program; the variables set over those
    of the process, the directory and the standard input. *)
Inductive Program := Shell (command : text) | Executable (path : text).
Record Launch := mkLaunch {
  program : Program;
  launch_env : gmap text text;
  current_dir : text;
  stdin : text;
}.

Inductive Effect :=
| Spawned (l : Launch)
| Posted (url body : text) (timeout_ms : Z).

(** How a process ends: the exit code is missing after a signal. *)
Inductive ProcOutcome :=
| SpawnError (e : text)
| TimedOut
| WaitError (e : text)
| Exited (code : option Z) (out err : text).

Inductive IpAddr :=
| V4 (a b c d : Z)
| V6 (segments : list Z).

(** [url::Url]. *)
Record Url := mkUrl { scheme : text; host_str : option text; port_or_known_default : option Z }.

(** The response of [reqwest]: an error (whether it is a timeout, and its text without the
    URL), or the status with the body or the error of reading it. *)
Inductive HttpOutcome :=
| SendError (is_timeout : bool) (e : text)
| Response (status : Z) (body : text + text).

(** [HookOutput], [HttpHookOutput]: what a blocking hook prints. *)
Record HookOutput := mkHookOutput { decision : text; reason : option text }.

Class HookWorld := {
  envelope_json : HookEventEnvelope → text + text;
  parse_output : text → text + HookOutput;
  path_exists : nat → text → bool;
  process : nat → Launch → ProcOutcome;
  url_parse : text → text + Url;
  lookup_host : nat → text → text + list IpAddr;
  show_ip : IpAddr → text;
  http_send : nat → text → text → HttpOutcome;
  show_status : Z → text;
  run_elapsed : nat → Z;
}.

(** ** runner/command.rs *)

Definition MAX_OUTPUT_BYTES : Z := 64 * 1024.
Definition DENY_EXIT_CODE : Z := 2.

Definition truncate_output (bytes : text) : text :=
  if (len bytes <=? MAX_OUTPUT_BYTES)%Z then from_utf8_lossy bytes
  else from_utf8_lossy (take (Z.to_nat MAX_OUTPUT_BYTES) bytes) ++ txt " [truncated]".

Definition is_shell_command (command : text) : bool :=
  any_b (λ c, contains command (txt c)) [" "; "|"; "&"; ";"; ">"; "<"; "$"]%string
  || starts_with (txt "~") command.

Definition is_success (status : Z) : bool := ((200 <=? status) && (status <? 300))%Z.

Section runners.
Context `{RegexCrate, Environment, HookWorld}.

(** [parse_blocking_result], without the elapsed time it passes through. *)
Definition parse_blocking_result (stdout : text) (exit_code : Z) (hook_name : text) : HookRunnerResult :=
  let json_decision :=
    if bool_decide (trim stdout = []) then None
    else match parse_output (trim stdout) with inr o => Some o | inl _ => None end in
  match json_decision with
  | Some output =>
      if bool_decide (decision output = txt "deny") then
        RDecision (Deny (default (txt "denied by hook '" ++ hook_name ++ txt "'") (reason output))
                     hook_name)
      else if bool_decide (decision output = txt "allow") then RDecision Allow
      else RFailed (txt "unknown decision value '" ++ decision output ++ txt "' from hook '"
                    ++ hook_name ++ txt "'")
  | None =>
      if (exit_code =? 0)%Z then RDecision Allow
      else if (exit_code =? DENY_EXIT_CODE)%Z then
        RDecision (Deny (txt "denied by hook '" ++ hook_name ++ txt "' (exit code "
                         ++ show_Z DENY_EXIT_CODE ++ txt ")") hook_name)
      else RFailed (txt "hook '" ++ hook_name ++ txt "' failed with exit code " ++ show_Z exit_code)
  end.

(** The variables of the child: the extra ones first, those of the runner over them. *)
Definition spawn_env (spec : HookSpec) (e : HookEventEnvelope) (ctx : RunContext) : gmap text text :=
  <[txt "CLAUDE_PROJECT_DIR" := workspace_root ctx]>
  (<[txt "DS_WORKSPACE_ROOT" := workspace_root ctx]>
  (<[txt "DS_SESSION_ID" := session_id ctx]>
  (<[txt "DS_HOOK_NAME" := spec_name spec]>
  (<[txt "DS_HOOK_EVENT" := show_event (hook_event_name e)]> (extra_env spec))))).

(** The text of the missing variables. *)
Definition missing_list (vars : list text) : text :=
  join_with (txt ", ") ((λ v, txt "${" ++ v ++ txt "}") <$> vars).

(** What is started for a command, or why nothing is. *)
Definition prepare_command (i : nat) (spec : HookSpec) (cmd : text) : text + Program :=
  if is_shell_command cmd then
    match find_unresolved_env_vars cmd (extra_env spec) with
    | [] => inr (Shell cmd)
    | vars => inl (txt "hook not executed: required env var(s) not set: " ++ missing_list vars)
    end
  else
    let command_path := if is_absolute cmd then cmd else path_join (source_dir spec) cmd in
    if path_exists i command_path then inr (Executable command_path)
    else inl (txt "command not found: " ++ command_path).

(** The outcome of a process as the result of the run. *)
Definition judge_process (spec : HookSpec) (is_blocking : bool) (o : ProcOutcome) : HookRunnerResult :=
  match o with
  | SpawnError e => RFailed (txt "failed to spawn command: " ++ e)
  | TimedOut => RFailed (txt "timed out after " ++ show_Z (timeout_ms spec) ++ txt "ms")
  | WaitError e => RFailed (txt "command execution failed: " ++ e)
  | Exited code out _ =>
      let exit_code := default (-1)%Z code in
      if negb is_blocking then
        if (exit_code =? 0)%Z then RSuccess else RFailed (txt "exit code " ++ show_Z exit_code)
      else parse_blocking_result (truncate_output out) exit_code (spec_name spec)
  end.

Definition run_command_hook (i : nat) (spec : HookSpec) (e : HookEventEnvelope) (ctx : RunContext)
    (is_blocking : bool) : HookRunnerResult * list Effect :=
  match command spec with
  | None => (RFailed (txt "command hook has no 'command' field"), [])
  | Some cmd =>
      match envelope_json e with
      | inl err => (RFailed (txt "failed to serialize envelope: " ++ err), [])
      | inr stdin_json =>
          match prepare_command i spec cmd with
          | inl err => (RFailed err, [])
          | inr prog =>
              let l := mkLaunch prog (spawn_env spec e ctx) (workspace_root ctx) stdin_json in
              (judge_process spec is_blocking (process i l), [Spawned l])
          end
      end
  end.

Definition resolve_command_path (spec : HookSpec) : option text :=
  cmd ← command spec; Some (if is_absolute cmd then cmd else path_join (source_dir spec) cmd).

(** ** [std::net]: reading an address *)

Definition radix_digit (radix : Z) (c : ascii) : option Z :=
  let v := byte_val c in
  let d := if byte_in 48 57 c then Some (Z.of_N v - 48)%Z
           else if byte_in 97 122 c then Some (Z.of_N v - 87)%Z
           else if byte_in 65 90 c then Some (Z.of_N v - 55)%Z else None in
  d ← d; if (d <? radix)%Z then Some d else None.

(** The digits of a number that stays below [limit], at most [max_digits] of them. *)
Fixpoint read_digits (radix limit : Z) (max_digits count : nat) (acc : Z) (s : text)
    : option (Z * nat * text) :=
  match s with
  | [] => Some (acc, count, [])
  | c :: s' =>
      match radix_digit radix c with
      | None => Some (acc, count, s)
      | Some d =>
          let acc := (acc * radix + d)%Z in
          if (count <? max_digits) && (acc <? limit)%Z
          then read_digits radix limit max_digits (S count) acc s' else None
      end
  end.

(** [Parser::read_number]. *)
Definition read_number (radix limit : Z) (max_digits : nat) (allow_zero_prefix : bool) (s : text)
    : option (Z * text) :=
  '(v, count, rest) ← read_digits radix limit max_digits 0 0 s;
  if bool_decide (count = 0) then None
  else if negb allow_zero_prefix && bool_decide (head s = Some "0"%char) && (1 <? count) then None
  else Some (v, rest).

(** [Parser::read_separator] of the [index]-th part. *)
Definition read_separator {A} (sep : ascii) (index : nat) (inner : text → option (A * text)) (s : text)
    : option (A * text) :=
  if bool_decide (index = 0) then inner s
  else match s with
       | c :: s => if bool_decide (c = sep) then inner s else None
       | [] => None
       end.

Definition read_ipv4_addr (s : text) : option (Z * Z * Z * Z * text) :=
  let octet i := read_separator "."%char i (read_number 10 256 3 false) in
  '(a, s) ← octet 0 s; '(b, s) ← octet 1 s; '(c, s) ← octet 2 s; '(d, s) ← octet 3 s;
  Some (a, b, c, d, s).

(** [read_groups]: the groups up to the limit, whether an IPv4 address ends them. *)
Fixpoint read_groups (n i : nat) (s : text) : list Z * bool * text :=
  match n with
  | O => ([], false, s)
  | S n =>
      let v4 := if bool_decide (n = 0) then None
                else read_separator ":"%char i
                       (λ s, '(a, b, c, d, s) ← read_ipv4_addr s; Some ((a, b, c, d), s)) s in
      match v4 with
      | Some ((a, b, c, d), s) => ([a * 256 + b; c * 256 + d]%Z, true, s)
      | None =>
          match read_separator ":"%char i (read_number 16 65536 4 true) s with
          | None => ([], false, s)
          | Some (g, s) => let '(gs, ipv4, s) := read_groups n (S i) s in (g :: gs, ipv4, s)
          end
      end
  end.

Definition read_ipv6_addr (s : text) : option (list Z * text) :=
  let '(front, head_ipv4, s) := read_groups 8 0 s in
  if bool_decide (length front = 8) then Some (front, s)
  else if head_ipv4 then None
  else match text_strip_prefix (txt "::") s with
       | None => None
       | Some s =>
           let '(back, _, s) := read_groups (8 - (length front + 1)) 0 s in
           Some (front ++ replicate (8 - length front - length back) 0%Z ++ back, s)
       end.

(** [<IpAddr as FromStr>::from_str]. *)
Definition parse_ip (s : text) : option IpAddr :=
  match read_ipv4_addr s with
  | Some (a, b, c, d, rest) => if bool_decide (rest = []) then Some (V4 a b c d) else None
  | None => '(gs, rest) ← read_ipv6_addr s; if bool_decide (rest = []) then Some (V6 gs) else None
  end.

(** ** runner/http.rs *)

Definition RESPONSE_PREVIEW_MAX : nat := 200.

Definition is_blocked_v4 (a b c d : Z) : bool :=
  if (a =? 127)%Z then false
  else if (a =? 10)%Z then true
  else if ((a =? 172) && ((16 <=? b) && (b <=? 31)))%Z then true
  else if ((a =? 192) && (b =? 168))%Z then true
  else if ((a =? 169) && (b =? 254))%Z then true
  else if ((a =? 100) && ((64 <=? b) && (b <=? 127)))%Z then true
  else bool_decide ([a; b; c; d] = [0; 0; 0; 0]%Z).

(** [Ipv6Addr::to_ipv4_mapped]. *)
Definition to_ipv4_mapped (segments : list Z) : option (Z * Z * Z * Z) :=
  match segments with
  | [a; b; c; d; e; f; g; h] =>
      if bool_decide ([a; b; c; d; e; f] = [0; 0; 0; 0; 0; 65535]%Z)
      then Some (g / 256, g mod 256, h / 256, h mod 256)%Z else None
  | _ => None
  end.

Definition is_blocked_ip (ip : IpAddr) : bool :=
  match ip with
  | V4 a b c d => is_blocked_v4 a b c d
  | V6 segments =>
      if bool_decide (segments = [0; 0; 0; 0; 0; 0; 0; 1]%Z) then false
      else if bool_decide (segments = [0; 0; 0; 0; 0; 0; 0; 0]%Z) then true
      else match to_ipv4_mapped segments with
           | Some (a, b, c, d) => is_blocked_v4 a b c d
           | None =>
               let s0 := default 0%Z (head segments) in
               if (Z.land s0 0xffc0 =? 0xfe80)%Z then true
               else (Z.land s0 0xfe00 =? 0xfc00)%Z
           end
  end.

(** [validate_hook_url]; [None] is [Ok]. *)
Definition validate_hook_url (i : nat) (u : text) : option text :=
  match url_parse u with
  | inl e => Some (txt "invalid URL: " ++ e)
  | inr parsed =>
      if negb (bool_decide (scheme parsed = txt "https")) then
        Some (txt "only https:// URLs are allowed for HTTP hooks, got " ++ scheme parsed ++ txt "://")
      else match host_str parsed with
      | None => Some (txt "URL has no host")
      | Some host =>
          match parse_ip host with
          | Some ip =>
              if is_blocked_ip ip
              then Some (txt "URL resolves to blocked private/internal IP: " ++ show_ip ip) else None
          | None =>
              let port := default 443%Z (port_or_known_default parsed) in
              match lookup_host i (host ++ txt ":" ++ show_Z port) with
              | inl e => Some (txt "DNS resolution failed for " ++ host ++ txt ": " ++ e)
              | inr [] => Some (txt "DNS resolved no addresses for " ++ host)
              | inr addrs =>
                  match find_b is_blocked_ip addrs with
                  | Some ip => Some (txt "URL host " ++ host
                      ++ txt " resolves to blocked private/internal IP: " ++ show_ip ip)
                  | None => None
                  end
              end
          end
      end
  end.

Definition parse_http_blocking_result (response_text : text) (code : Z) (hook_name : text)
    : HookRunnerResult :=
  if bool_decide (trim response_text = []) then
    if is_success code then RDecision Allow
    else RFailed (txt "HTTP status " ++ show_status code ++ txt " with empty body")
  else match parse_output response_text with
  | inr output =>
      if bool_decide (decision output = txt "deny") then
        RDecision (Deny (default (txt "denied by hook '" ++ hook_name ++ txt "'") (reason output))
                     hook_name)
      else if bool_decide (decision output = txt "allow") then RDecision Allow
      else RFailed (txt "unknown decision value '" ++ decision output ++ txt "' from hook '"
                    ++ hook_name ++ txt "'")
  | inl e =>
      if is_success code then RDecision Allow
      else RFailed (txt "HTTP status " ++ show_status code ++ txt " and failed to parse response: " ++ e)
  end.

Definition truncate_preview (s : text) : text :=
  let trimmed := trim s in
  if length trimmed <=? RESPONSE_PREVIEW_MAX then trimmed
  else take (floor_boundary trimmed RESPONSE_PREVIEW_MAX) trimmed ++ txt "...".

(** What follows the response, of a blocking hook or of another. *)
Definition judge_response (spec : HookSpec) (u log_url : text) (is_blocking : bool) (code : Z)
    (body : text + text) : HookRunnerResult * HttpInfo :=
  let make_info := mkHttpInfo u (url_raw spec) in
  if negb is_blocking then
    (if is_success code then RSuccess else RFailed (txt "HTTP status " ++ show_status code),
     make_info (Some code) None)
  else match body with
  | inl e => (RFailed (txt "failed to read response body for " ++ log_url ++ txt ": " ++ e),
              make_info (Some code) None)
  | inr response_text =>
      let preview := if bool_decide (trim response_text = []) then None
                     else Some (truncate_preview response_text) in
      (parse_http_blocking_result response_text code (spec_name spec), make_info (Some code) preview)
  end.

Definition run_http_hook (i : nat) (spec : HookSpec) (e : HookEventEnvelope) (is_blocking : bool)
    : HookRunnerResult * option HttpInfo * list Effect :=
  match url spec with
  | None => (RFailed (txt "http hook has no 'url' field"), None, [])
  | Some raw =>
      let u := expand_env_vars_with_extra raw (extra_env spec) in
      let log_url := default u (url_raw spec) in
      let nothing := Some (mkHttpInfo u (url_raw spec) None None) in
      match validate_hook_url i u with
      | Some why => (RFailed (txt "blocked by SSRF protection: " ++ why), nothing, [])
      | None =>
          match envelope_json e with
          | inl err => (RFailed (txt "failed to serialize envelope: " ++ err), nothing, [])
          | inr body =>
              let sent := [Posted u body (timeout_ms spec)] in
              match http_send i u body with
              | SendError true _ =>
                  (RFailed (txt "timed out after " ++ show_Z (timeout_ms spec) ++ txt "ms"), nothing, sent)
              | SendError false err =>
                  (RFailed (txt "HTTP request failed for " ++ log_url ++ txt ": " ++ err), nothing, sent)
              | Response code text_result =>
                  let '(r, info) := judge_response spec u log_url is_blocking code text_result in
                  (r, Some info, sent)
              end
          end
      end
  end.

(** ** runner/mod.rs: [run_hook] *)

Definition run_hook (i : nat) (spec : HookSpec) (e : HookEventEnvelope) (ctx : RunContext)
    (is_blocking : bool) : HookRunOutput * list Effect :=
  if bool_decide (handler_type spec = txt "command") then
    let '(r, fx) := run_command_hook i spec e ctx is_blocking in (mkOutput r (run_elapsed i) None, fx)
  else if bool_decide (handler_type spec = txt "http") then
    let '(r, info, fx) := run_http_hook i spec e is_blocking in (mkOutput r (run_elapsed i) info, fx)
  else (mkOutput (RFailed (txt "unsupported handler type '" ++ handler_type spec ++ txt "'")) 0 None, []).

(** ** dispatcher.rs *)

(** The file of disabled hooks, [None] without a home or without the file. *)
Context (disabled_file : option text).

(** The hook is skipped, [Skipped]; the matcher lets it pass. *)
Definition is_disabled (spec : HookSpec) : bool :=
  negb (enabled spec) || is_hook_disabled_in (spec_name spec) disabled_file.
Definition matches_tool (spec : HookSpec) (tool_name : option text) : bool :=
  match matcher spec, tool_name with
  | Some m, Some n => is_match m n
  | _, _ => true
  end.

Record PreToolUseResult := mkPreResult {
  pre_decision : HookDecision;
  pre_results : list HookRunResult;
}.

(** The loop of [dispatch_pre_tool_use]: [i] runs were made before it. *)
Fixpoint pre_tool_use_loop (e : HookEventEnvelope) (ctx : RunContext) (tool_name : option text)
    (i : nat) (specs : list HookSpec) (run_results : list HookRunResult)
    : PreToolUseResult * list Effect :=
  match specs with
  | [] => (mkPreResult Allow run_results, [])
  | spec :: specs =>
      let hook := spec_name spec in
      if is_disabled spec then
        pre_tool_use_loop e ctx tool_name i specs (run_results ++ [Skipped hook])
      else if negb (matches_tool spec tool_name) then
        pre_tool_use_loop e ctx tool_name i specs run_results
      else
        let '(o, fx) := run_hook i spec e ctx true in
        match result o with
        | RDecision (Deny why _) =>
            (mkPreResult (Deny why hook)
               (run_results ++ [Failed hook (txt "denied: " ++ why) (elapsed o) (http_info o)]), fx)
        | RDecision Allow | RSuccess =>
            let '(r, fx') := pre_tool_use_loop e ctx tool_name (S i) specs
                               (run_results ++ [Success hook (elapsed o) (http_info o)]) in
            (r, fx ++ fx')
        | RFailed err =>
            let '(r, fx') := pre_tool_use_loop e ctx tool_name (S i) specs
                               (run_results ++ [Failed hook err (elapsed o) (http_info o)]) in
            (r, fx ++ fx')
        end
  end.

Definition dispatch_pre_tool_use (registry : HookRegistry) (e : HookEventEnvelope) (ctx : RunContext)
    (i : nat) : PreToolUseResult * list Effect :=
  pre_tool_use_loop e ctx (extract_tool_name e) i (hooks_for registry PreToolUse) [].

(** The loop of [dispatch_non_blocking]. *)
Fixpoint non_blocking_loop (e : HookEventEnvelope) (ctx : RunContext) (tool_name : option text)
    (i : nat) (specs : list HookSpec) : list HookRunResult * list Effect :=
  match specs with
  | [] => ([], [])
  | spec :: specs =>
      let hook := spec_name spec in
      if is_disabled spec then
        let '(rs, fx) := non_blocking_loop e ctx tool_name i specs in (Skipped hook :: rs, fx)
      else if negb (matches_tool spec tool_name) then non_blocking_loop e ctx tool_name i specs
      else
        let '(o, fx) := run_hook i spec e ctx false in
        let r := match result o with
                 | RSuccess | RDecision _ => Success hook (elapsed o) (http_info o)
                 | RFailed err => Failed hook err (elapsed o) (http_info o)
                 end in
        let '(rs, fx') := non_blocking_loop e ctx tool_name (S i) specs in (r :: rs, fx ++ fx')
  end.

Definition dispatch_non_blocking (registry : HookRegistry) (event : HookEventName)
    (e : HookEventEnvelope) (ctx : RunContext) (i : nat) : list HookRunResult * list Effect :=
  non_blocking_loop e ctx (extract_tool_name e) i (hooks_for registry event).

(** ** The hooks of the client *)

(** [ClientHookGroup]; the timeout of the group only bounds the wait for its replies. *)
Record ClientHookGroup := mkClientGroup {
  group_matcher : option HookMatcher;
  callback_ids : list text;
}.

Definition ClientHooks : Type := gmap HookEventName (list ClientHookGroup).

(** The keys of [parse_client_hooks]: groups are registered under the canonical event. *)
Definition register_client (event : HookEventName) (groups : list ClientHookGroup) (hs : ClientHooks)
    : ClientHooks :=
  match groups with
  | [] => hs
  | _ => <[canonical event := default [] (hs !! canonical event) ++ groups]> hs
  end.

Inductive ClientHookDecision := Continue | ClientDeny | ClientOther.

Record ClientHookResponse := mkReply {
  client_decision : ClientHookDecision;
  system_message : option text;
}.
Definition default_reply : ClientHookResponse := mkReply Continue None.

(** [ReverseOutcome]; the text of a reply is decoded by [serde_json]. *)
Inductive ReverseOutcome := Responded (raw : text + ClientHookResponse) | Transport | NoReply.

Definition classify (o : ReverseOutcome) : ClientHookResponse :=
  match o with
  | Responded (inr resp) => resp
  | Responded (inl _) | Transport | NoReply => default_reply
  end.

Definition group_matches (g : ClientHookGroup) (tool_name : option text) : bool :=
  match group_matcher g, tool_name with
  | Some m, Some n => is_match m n
  | _, _ => true
  end.

Definition matching_callback_ids (groups : list ClientHookGroup) (tool_name : option text) : list text :=
  filter_b (λ g, group_matches g tool_name) groups ≫= callback_ids.

(** The first deny among the replies, in the order in which they complete. *)
Fixpoint first_client_deny (replies : list (text * ClientHookResponse)) : option (text * text) :=
  match replies with
  | [] => None
  | (callback_id, resp) :: replies =>
      match client_decision resp with
      | ClientDeny => Some (txt "client:" ++ callback_id,
                            default (txt "blocked by client hook") (system_message resp))
      | _ => first_client_deny replies
      end
  end.

(** [run_pre_tool_use_client_hook]: [reply] is what comes back for a callback, [completion]
    the order in which the replies complete. *)
Definition run_pre_tool_use_client_hook (hs : ClientHooks) (function_name : text)
    (e : HookEventEnvelope) (reply : text → ReverseOutcome) (completion : list text → list text)
    : option (text * text) :=
  match hs !! PreToolUse with
  | None => None
  | Some groups =>
      let tool_name := default function_name (extract_tool_name e) in
      let pending := completion (matching_callback_ids groups (Some tool_name)) in
      first_client_deny ((λ id, (id, classify (reply id))) <$> pending)
  end.

(** [notify_client_hooks]: the callbacks that are told of the event. *)
Definition notify_client_hooks (hs : ClientHooks) (e : HookEventEnvelope) : list text :=
  match hs !! canonical (hook_event_name e) with
  | None => []
  | Some groups => matching_callback_ids groups (extract_tool_name e)
  end.

Definition hook_event_active (registry : option HookRegistry) (hs : ClientHooks) (event : HookEventName)
    : bool := bool_decide (is_Some registry) || bool_decide (is_Some (hs !! canonical event)).

(** The gate of a tool call: the name of the hook that denies it and the reason. *)
Definition gate_tool_call (registry : option HookRegistry) (hs : ClientHooks) (function_name : text)
    (e : HookEventEnvelope) (ctx : RunContext) (i : nat)
    (reply : text → ReverseOutcome) (completion : list text → list text) : option (text * text) :=
  if negb (hook_event_active registry hs PreToolUse) then None
  else
    let file_decision :=
      match registry with
      | Some r => pre_decision (fst (dispatch_pre_tool_use r e ctx i))
      | None => Allow
      end in
    match file_decision with
    | Deny why hook => Some (hook, why)
    | Allow => run_pre_tool_use_client_hook hs function_name e reply completion
    end.

End runners.
