(* ===== verification/HookRunProps.v ===== *)
(** * Hooks: what the dispatcher and the runners do

    Which hooks run and what denies a tool call.  First a concrete world, on which the
    theorems are tried: plain regular expressions, no variables, a few programs, servers
    and addresses. *)

From S2P Require Import Prelude Text TextProps Json HookData HookLoad HookRun.

Open Scope nat_scope.

(** ** A concrete world *)

(** A pattern matches the names that contain it; brackets are an error. *)
#[export] Instance demo_regex : RegexCrate := {|
  regex := text;
  regex_new p := if contains p (txt "[") then inl (txt "unclosed class") else inr p;
  regex_is_match r s := contains s r;
|}.

#[export] Instance demo_environment : Environment := {|
  env_var _ := None;
  env_var_os n := bool_decide (n = txt "HOME");
  shellexpand s _ := s;
  draw _ := (1, 2)%Z;
|}.

(** Any text is a file of hooks with one [PreToolUse] command. *)
Definition demo_handler : Json :=
  JObject [(txt "type", JString (txt "command")); (txt "command", JString (txt "./deny.sh"));
           (txt "timeout", JNumber (txt "2"))].
Definition demo_group (pattern : string) : Json :=
  JArray [JObject [(txt "matcher", JString (txt pattern)); (txt "hooks", JArray [demo_handler])]].
Definition demo_fields : list (text * Json) :=
  [(txt "PreToolUse", demo_group "Bash"); (txt "someday", JNull); (txt "stop", demo_group "")].

#[export] Instance demo_serde : Serde := {|
  json_from_str _ := inr (JObject [(txt "hooks", JObject demo_fields)]);
  json_to_string _ := [];
  map_error _ := [];
  groups_error _ := [];
  key_order l := l;
  event_order l := l;
|}.

#[export] Instance demo_order : SerdeOrder.
Proof. by split. Qed.

(** [./deny.sh] ends with the exit code 2; a shell times out; anything else prints JSON. *)
#[export] Instance demo_world : HookWorld := {|
  envelope_json e := inr (show_event (hook_event_name e));
  parse_output s := if bool_decide (s = txt "{decision:deny}")
                    then inr (mkHookOutput (txt "deny") (Some (txt "no"))) else inl (txt "expected value");
  path_exists _ p := bool_decide (p = txt "/w/hooks/deny.sh") || bool_decide (p = txt "/bin/json");
  process _ l := match program l with
                 | Shell _ => TimedOut
                 | Executable p => if bool_decide (p = txt "/bin/json")
                                   then Exited (Some 0%Z) (txt "{decision:deny}" ++ [LF]) []
                                   else Exited (Some 2%Z) (txt "plain text") []
                 end;
  url_parse u := match text_strip_prefix (txt "https://") u with
                 | Some host => inr (mkUrl (txt "https") (Some host) (Some 443%Z))
                 | None => inl (txt "relative URL without a base")
                 end;
  lookup_host _ h := if bool_decide (h = txt "hooks.test:443") then inr [V4 93 184 216 34]
                     else if bool_decide (h = txt "inner.test:443") then inr [V4 93 184 216 34; V4 10 0 0 7]
                     else inl (txt "no such host");
  show_ip _ := txt "ip";
  http_send _ _ _ := Response 200 (inr (txt "{decision:deny}"));
  show_status _ := txt "200 OK";
  run_elapsed i := Z.of_nat i;
|}.

Definition demo_spec (name ty : string) (cmd u : option text) (m : option HookMatcher) : HookSpec :=
  mkSpec (txt name) PreToolUse (txt ty) None m true cmd cmd u u 5000 (txt "/w/hooks")
    {[txt "TOKEN" := txt "t"; txt "DS_SESSION_ID" := txt "forged"]}.

Definition demo_envelope : HookEventEnvelope :=
  mkEnvelope PreToolUse (txt "s1") (txt "/w") (txt "/w") [] None None None
    (PreToolUseP (txt "run_terminal_command") (txt "c1") JNull false None None).

Definition demo_context : RunContext := mkContext (txt "s1") (txt "/w").

(** A hook that times out, one for another tool, and one that denies. *)
Definition demo_registry : HookRegistry :=
  append_specs empty_registry
    [demo_spec "slow" "command" (Some (txt "sleep 9")) None None;
     demo_spec "edits" "command" (Some (txt "/bin/json")) None (Some (mkMatcher (Exact (exact_names (txt "Edit")))));
     demo_spec "gate" "command" (Some (txt "/bin/json")) None (Some (mkMatcher (Exact (exact_names (txt "Bash")))));
     demo_spec "late" "command" (Some (txt "deny.sh")) None None].

Example demo_gate :
  gate_tool_call None (Some demo_registry) ∅ (txt "run_terminal_command") demo_envelope demo_context 0
    (λ _, NoReply) (λ l, l) = Some (txt "gate", txt "no").
Proof. by vm_compute. Qed.

Example demo_urls :
  (λ u, bool_decide (validate_hook_url 0 (txt u) = None)) <$>
    ["https://hooks.test"; "https://inner.test"; "https://10.1.2.3"; "https://127.0.0.1";
     "https://::ffff:192.168.0.1"; "https://fe80::1"; "http://hooks.test"]%string
  = [true; false; false; true; false; false; false].
Proof. by vm_compute. Qed.

(** ** What the dispatcher does *)


(** The reason of a denial. *)
Definition denial (r : HookRunnerResult) : option text :=
  match r with RDecision (Deny why _) => Some why | _ => None end.

Section dispatcher.
Context `{RegexCrate, Environment, HookWorld}.
Context (disabled_file : option text) (e : HookEventEnvelope) (ctx : RunContext).

(** The hooks that run: neither disabled nor kept out by their matcher. *)
Definition runs (s : HookSpec) : bool :=
  negb (is_disabled disabled_file s) && matches_tool s (extract_tool_name e).
Definition active (specs : list HookSpec) : list HookSpec := filter_b runs specs.

(** The [j]-th of them is the run [i + j] of the program. *)
Definition run_at (blocking : bool) (i j : nat) (s : HookSpec) : HookRunOutput * list Effect :=
  run_hook (i + j) s e ctx blocking.
Definition denied_at (i j : nat) (s : HookSpec) : option text :=
  denial (result (fst (run_at true i j s))).
Definition effects_of (blocking : bool) (i : nat) (specs : list HookSpec) : list Effect :=
  concat (imap (λ j s, snd (run_at blocking i j s)) specs).

(** ** What denies *)

(** The output of a process denies: its decision says so, or, when it is empty or no
    decision at all, the exit code does. *)
Definition output_denies (out : text) (code : option Z) (hook_name why : text) : Prop :=
  let t := trim (truncate_output out) in
  (∃ o, t ≠ [] ∧ parse_output t = inr o ∧ decision o = txt "deny"
     ∧ why = default (txt "denied by hook '" ++ hook_name ++ txt "'") (reason o))
  ∨ (t = [] ∨ ∃ m, parse_output t = inl m) ∧ code = Some DENY_EXIT_CODE
    ∧ why = txt "denied by hook '" ++ hook_name ++ txt "' (exit code " ++ show_Z DENY_EXIT_CODE ++ txt ")".

(** The [i]-th run of the program, whose effects are [fx], ended in an explicit denial: a
    process that was started and ended within the time denied by its output, or a server
    that was asked denied in its response. *)
Definition ended_in_denial (i : nat) (s : HookSpec) (fx : list Effect) (why : text) : Prop :=
  (handler_type s = txt "command"
   ∧ ∃ l code out err, fx = [Spawned l] ∧ process i l = Exited code out err
       ∧ output_denies out code (spec_name s) why)
  ∨ (handler_type s = txt "http"
     ∧ ∃ u body ms code response o, fx = [Posted u body ms] ∧ http_send i u body = Response code (inr response)
         ∧ trim response ≠ [] ∧ parse_output response = inr o ∧ decision o = txt "deny"
         ∧ why = default (txt "denied by hook '" ++ spec_name s ++ txt "'") (reason o)).

Lemma exit_code_denies code d h m why :
  denial (if (default (-1) code =? 0)%Z then RDecision Allow
          else if (default (-1) code =? DENY_EXIT_CODE)%Z then RDecision (Deny d h) else RFailed m) = Some why
  ↔ code = Some DENY_EXIT_CODE ∧ why = d.
Proof.
  unfold DENY_EXIT_CODE. destruct code as [c|]; cbn.
  - destruct (Z.eqb_spec c 0), (Z.eqb_spec c 2); subst; cbn; split; intros Hc; naive_solver.
  - naive_solver.
Qed.

Lemma parse_blocking_denies out code hook why :
  denial (parse_blocking_result (truncate_output out) (default (-1)%Z code) hook) = Some why
  ↔ output_denies out code hook why.
Proof.
  unfold parse_blocking_result, output_denies. case_bool_decide as Ht.
  { rewrite exit_code_denies. naive_solver. }
  destruct (parse_output _) as [m|o]; [rewrite exit_code_denies; naive_solver|].
  case_bool_decide as Hd; [cbn; naive_solver|].
  case_bool_decide; cbn; naive_solver.
Qed.

Lemma parse_http_denies response code hook why :
  denial (parse_http_blocking_result response code hook) = Some why
  ↔ ∃ o, trim response ≠ [] ∧ parse_output response = inr o ∧ decision o = txt "deny"
      ∧ why = default (txt "denied by hook '" ++ hook ++ txt "'") (reason o).
Proof.
  unfold parse_http_blocking_result. case_bool_decide as Ht; [destruct (is_success code); cbn; naive_solver|].
  destruct (parse_output _) as [m|o]; [destruct (is_success code); cbn; naive_solver|].
  case_bool_decide as Hd; [cbn; naive_solver|]. case_bool_decide; cbn; naive_solver.
Qed.

Lemma command_denies i s why :
  denial (fst (run_command_hook i s e ctx true)) = Some why
  ↔ ∃ l code out err, snd (run_command_hook i s e ctx true) = [Spawned l] ∧ process i l = Exited code out err
      ∧ output_denies out code (spec_name s) why.
Proof.
  assert (∀ x fx, (∀ l code out err, fx = [Spawned l] → process i l ≠ Exited code out err) →
    denial (fst (RFailed x, fx)) = Some why
    ↔ ∃ l code out err, snd (RFailed x, fx) = [Spawned l] ∧ process i l = Exited code out err
        ∧ output_denies out code (spec_name s) why) as Hfail.
  { intros x fx Hfx. cbn. split; [done|]. intros (l & code & out & err & Hl & Hp & _). by destruct (Hfx l code out err). }
  unfold run_command_hook. destruct (command s) as [cmd|]; [|by apply Hfail].
  destruct (envelope_json e) as [|stdin_json]; [by apply Hfail|].
  destruct (prepare_command i s cmd) as [|prog]; [by apply Hfail|].
  set (l := mkLaunch _ _ _ _). destruct (process i l) as [x| |x|code out err] eqn:Ep; cbn [judge_process negb].
  1-3: apply Hfail; intros ? ? ? ? [= <-]; by rewrite Ep.
  cbn [fst snd]. rewrite parse_blocking_denies. split; [intros; by exists l, code, out, err|].
  intros (? & ? & ? & ? & [= <-] & ? & ?). congruence.
Qed.

Lemma http_denies i s why :
  denial (fst (fst (run_http_hook i s e true))) = Some why
  ↔ ∃ u body ms code response o, snd (run_http_hook i s e true) = [Posted u body ms]
      ∧ http_send i u body = Response code (inr response)
      ∧ trim response ≠ [] ∧ parse_output response = inr o ∧ decision o = txt "deny"
      ∧ why = default (txt "denied by hook '" ++ spec_name s ++ txt "'") (reason o).
Proof.
  assert (∀ x info fx, (∀ u body ms code r, fx = [Posted u body ms] → http_send i u body ≠ Response code (inr r)) →
    denial (fst (fst (RFailed x, info, fx))) = Some why
    ↔ ∃ u body ms code response o, snd ((RFailed x, info, fx) : HookRunnerResult * option HttpInfo * list Effect) = [Posted u body ms]
        ∧ http_send i u body = Response code (inr response)
        ∧ trim response ≠ [] ∧ parse_output response = inr o ∧ decision o = txt "deny"
        ∧ why = default (txt "denied by hook '" ++ spec_name s ++ txt "'") (reason o)) as Hfail.
  { intros x info fx Hfx. cbn. split; [done|]. intros (u & body & ms & code & r & o & Hl & Hp & _).
    by destruct (Hfx u body ms code r). }
  unfold run_http_hook. destruct (url s) as [raw|]; [|by apply Hfail].
  cbv zeta. destruct (validate_hook_url i _); [by apply Hfail|].
  destruct (envelope_json e) as [|body]; [by apply Hfail|].
  destruct (http_send i _ body) as [[] x|code [x|r]] eqn:Ep; cbn [judge_response negb].
  1-3: apply Hfail; intros ? ? ? ? ? [= <- <-]; by rewrite Ep.
  cbn [fst snd]. rewrite parse_http_denies. split.
  - intros (o & ? & ? & ? & ?). by do 6 eexists.
  - intros (? & ? & ? & ? & ? & o & [= <- <- <-] & Hr & ?). rewrite Ep in Hr. injection Hr as -> ->. by exists o.
Qed.

(** A run denies exactly when it ended in an explicit denial. *)
Lemma denial_explicit i j s why :
  denied_at i j s = Some why ↔ ended_in_denial (i + j) s (snd (run_at true i j s)) why.
Proof.
  unfold denied_at, ended_in_denial, run_at, run_hook.
  assert (txt "command" ≠ txt "http") as Hne by by vm_compute.
  case_bool_decide as Hc; [|case_bool_decide as Hh].
  - pose proof (command_denies (i + j) s why) as Hd. destruct (run_command_hook _ _ _ _ _) as [r fx].
    cbn in Hd |- *. rewrite Hd. naive_solver congruence.
  - pose proof (http_denies (i + j) s why) as Hd. destruct (run_http_hook _ _ _ _) as [[r info] fx].
    cbn in Hd |- *. rewrite Hd. naive_solver congruence.
  - cbn. naive_solver.
Qed.

Lemma active_cons s specs :
  active (s :: specs) = if runs s then s :: active specs else active specs.
Proof. done. Qed.

Lemma runs_cases s :
  is_disabled disabled_file s = true ∧ runs s = false
  ∨ is_disabled disabled_file s = false ∧ runs s = matches_tool s (extract_tool_name e).
Proof. unfold runs. destruct (is_disabled disabled_file s); auto. Qed.

Lemma run_at_S b i j s : run_at b i (S j) s = run_at b (S i) j s.
Proof. unfold run_at. f_equal. lia. Qed.

Lemma effects_of_cons b i s specs :
  effects_of b i (s :: specs) = snd (run_at b i 0 s) ++ effects_of b (S i) specs.
Proof.
  unfold effects_of. cbn [imap concat]. f_equal. f_equal.
  apply imap_ext. intros j t _. cbn. by rewrite run_at_S.
Qed.

(** The decision and the effects of the loop, hook by hook: what follows is a denial of
    the first active hook, or the rest of the loop. *)
Definition exact_decision (i : nat) (act : list HookSpec) (d : HookDecision) (fx : list Effect) : Prop :=
  match d with
  | Deny why hook => ∃ j s,
      act !! j = Some s ∧ spec_name s = hook ∧ denied_at i j s = Some why
      ∧ (∀ j' t, j' < j → act !! j' = Some t → denied_at i j' t = None)
      ∧ fx = effects_of true i (take (S j) act)
  | Allow =>
      (∀ j t, act !! j = Some t → denied_at i j t = None) ∧ fx = effects_of true i act
  end.

Lemma denied_at_S i j s : denied_at i (S j) s = denied_at (S i) j s.
Proof. unfold denied_at. by rewrite run_at_S. Qed.

Lemma exact_decision_cons i s act d fx :
  denied_at i 0 s = None → exact_decision (S i) act d fx →
  exact_decision i (s :: act) d (snd (run_at true i 0 s) ++ fx).
Proof.
  intros Hs Hd. destruct d as [|why hook]; unfold exact_decision in *.
  - destruct Hd as [Hd ->]. split; [|by rewrite effects_of_cons].
    intros [|j] t Ht; [by simplify_eq/=|]. rewrite denied_at_S. by apply Hd.
  - destruct Hd as (j & t & Hj & Hn & Hw & Hb & ->).
    exists (S j), t. split_and!; [done|done|by rewrite denied_at_S| |].
    + intros [|j'] t' Hlt Ht'; [by simplify_eq/=|]. rewrite denied_at_S. apply (Hb j'); [lia|done].
    + change (take (S (S j)) (s :: act)) with (s :: take (S j) act). by rewrite effects_of_cons.
Qed.

Lemma pre_loop_exact specs : ∀ i rs,
  let '(r, fx) := pre_tool_use_loop disabled_file e ctx (extract_tool_name e) i specs rs in
  exact_decision i (active specs) (pre_decision r) fx.
Proof.
  induction specs as [|s specs IH]; intros i rs; cbn [pre_tool_use_loop]; [done|].
  rewrite active_cons. destruct (runs_cases s) as [[-> ->]|[-> ->]]; [apply IH|].
  destruct (matches_tool s (extract_tool_name e)); cbn [negb]; [|apply IH].
  pose proof (eq_refl : run_at true i 0 s = run_hook (i + 0) s e ctx true) as Hrun.
  rewrite Nat.add_0_r in Hrun. destruct (run_hook i s e ctx true) as [o fx] eqn:Eo.
  assert (denied_at i 0 s = denial (result o)) as Hden by (unfold denied_at; by rewrite Hrun).
  assert (∀ rs', denial (result o) = None →
    let '(r, fx') := pre_tool_use_loop disabled_file e ctx (extract_tool_name e) (S i) specs rs' in
    exact_decision i (s :: active specs) (pre_decision r) (fx ++ fx')) as Hstep.
  { intros rs' Hnone. specialize (IH (S i) rs').
    destruct (pre_tool_use_loop _ _ _ _ _ _ _) as [r fx'].
    change fx with (snd (o, fx)). rewrite <- Hrun. apply exact_decision_cons; [by rewrite Hden|done]. }
  destruct (result o) as [[|why h]| |err] eqn:Er.
  1, 3, 4:
    match goal with |- context [pre_tool_use_loop _ _ _ _ _ _ ?rs'] => specialize (Hstep rs' eq_refl) end;
    by destruct (pre_tool_use_loop _ _ _ _ _ _ _).
  exists 0, s. split_and!; [done|done|done| |].
  - intros j' t Hlt. lia.
  - change (take 1 (s :: active specs)) with [s]. rewrite effects_of_cons, Hrun. cbn. by rewrite app_nil_r.
Qed.

(** C22: a tool call is denied by the first active [PreToolUse] hook, in the order of the
    registry, whose run ends in an explicit denial, with its reason; the hooks before it
    have run, those after it have not.  The run of a hook ends in an explicit denial exactly when its
    process was started and ended within the time, and its output decides to deny or, being empty or no decision,
    comes with exit code 2; or when its server answered with a decision to deny.  So a hook that fails,
    times out or cannot be started never denies. *)
Theorem pre_tool_use_exact registry i :
  let act := active (hooks_for registry PreToolUse) in
  (let '(r, fx) := dispatch_pre_tool_use disabled_file registry e ctx i in
   exact_decision i act (pre_decision r) fx)
  ∧ ∀ j s why, denied_at i j s = Some why ↔ ended_in_denial (i + j) s (snd (run_at true i j s)) why.
Proof. split; [apply pre_loop_exact|]. intros j s why. apply denial_explicit. Qed.

(** A non-blocking event runs every active hook, and nothing else. *)
Theorem non_blocking_exact registry event i :
  snd (dispatch_non_blocking disabled_file registry event e ctx i)
  = effects_of false i (active (hooks_for registry event)).
Proof.
  unfold dispatch_non_blocking. revert i. generalize (hooks_for registry event) as specs.
  induction specs as [|s specs IH]; intros i; cbn [non_blocking_loop]; [done|].
  rewrite active_cons. destruct (runs_cases s) as [[-> ->]|[-> ->]].
  { specialize (IH i). by destruct (non_blocking_loop _ _ _ _ _ _). }
  destruct (matches_tool s (extract_tool_name e)); cbn [negb]; [|apply IH].
  rewrite effects_of_cons. unfold run_at at 1. rewrite Nat.add_0_r.
  destruct (run_hook i s e ctx false) as [o fx]. specialize (IH (S i)).
  destruct (non_blocking_loop _ _ _ _ _ _). cbn in *. by rewrite IH.
Qed.

(** ** The gate of a tool call *)

Definition client_denies (reply : text → ReverseOutcome) (id : text) : Prop :=
  client_decision (classify (reply id)) = ClientDeny.

Lemma first_client_deny_None reply ids :
  first_client_deny ((λ id, (id, classify (reply id))) <$> ids) = None
  ↔ ∀ id, id ∈ ids → ¬ client_denies reply id.
Proof.
  unfold client_denies. induction ids as [|id ids IH]; cbn.
  - split; [|done]. intros _ id H'. by apply not_elem_of_nil in H'.
  - destruct (client_decision (classify (reply id))) eqn:E.
    1, 3: rewrite IH; split; [intros Hall t [->|Ht]%elem_of_cons; [congruence|auto]
                             |intros Hall t Ht; apply Hall; by right].
    split; [done|]. intros Hall. destruct (Hall id); [by left|done].
Qed.

(** The callbacks of the client that a tool call awaits. *)
Definition awaited (hs : ClientHooks) (function_name : text) : list text :=
  match hs !! PreToolUse with
  | None => []
  | Some groups => matching_callback_ids groups (Some (default function_name (extract_tool_name e)))
  end.

Lemma client_gate_None hs fname reply completion :
  (∀ l, completion l ≡ₚ l) →
  run_pre_tool_use_client_hook hs fname e reply completion = None
  ↔ ∀ id, id ∈ awaited hs fname → ¬ client_denies reply id.
Proof.
  intros Hperm. unfold run_pre_tool_use_client_hook, awaited.
  destruct (hs !! PreToolUse) as [groups|].
  - rewrite first_client_deny_None. by setoid_rewrite Hperm.
  - split; [|done]. intros _ id H'. by apply not_elem_of_nil in H'.
Qed.

Lemma exact_allow i act d fx :
  exact_decision i act d fx →
  d = Allow ↔ ∀ j t, act !! j = Some t → denied_at i j t = None.
Proof.
  destruct d as [|why hook]; cbn.
  - by intros [? _].
  - intros (j & s & Hj & _ & Hw & _). split; [done|]. intros Hall. by rewrite (Hall j s Hj) in Hw.
Qed.

(** The active [PreToolUse] hooks of the session. *)
Definition gate_hooks (registry : option HookRegistry) : list HookSpec :=
  match registry with Some r => active (hooks_for r PreToolUse) | None => [] end.

(** C21: a tool call passes the gate exactly when no active hook of the files denies it and
    no callback of the client that its matcher selects replies with a denial, in whatever
    order the replies arrive. *)
Theorem hook_gate_exact registry hs fname i reply completion
    (Hperm : ∀ l, completion l ≡ₚ l) :
  gate_tool_call disabled_file registry hs fname e ctx i reply completion = None
  ↔ (∀ j t, gate_hooks registry !! j = Some t → denied_at i j t = None)
    ∧ (∀ id, id ∈ awaited hs fname → ¬ client_denies reply id).
Proof.
  unfold gate_tool_call, hook_event_active, gate_hooks.
  pose proof (client_gate_None hs fname reply completion Hperm) as Hc.
  destruct registry as [r|]; cbn [bool_decide negb orb].
  - rewrite bool_decide_true by done. cbn [orb negb].
    pose proof (pre_loop_exact (hooks_for r PreToolUse) i []) as Hx. unfold dispatch_pre_tool_use.
    destruct (pre_tool_use_loop _ _ _ _ _ _ _) as [res fx]. apply exact_allow in Hx. cbn [fst].
    destruct (pre_decision res) as [|why hook]; [by rewrite Hc; intuition|].
    split; [done|]. intros [Hall _]. by apply Hx in Hall.
  - rewrite bool_decide_false by (by intros [? ?]). cbn [orb].
    case_bool_decide as Hact; cbn [negb].
    + rewrite Hc. split; [|by intros [_ ?]]. by split.
    + split; [|done]. intros _. split; [done|]. intros id. unfold awaited.
      cbn in Hact. rewrite <- eq_None_not_Some in Hact. rewrite Hact. intros Hid. by apply not_elem_of_nil in Hid.
Qed.

End dispatcher.

(** Of four hooks, one times out, one is for another tool, and the third denies. *)
Lemma hook_gate_exact_witness :
  gate_hooks None demo_envelope (Some demo_registry) !! 1 = hooks_for demo_registry PreToolUse !! 2
  ∧ ¬ (∀ j t, gate_hooks None demo_envelope (Some demo_registry) !! j = Some t →
        denied_at demo_envelope demo_context 0 j t = None).
Proof.
  split; [by vm_compute|]. intros Hall.
  pose proof (proj2 (hook_gate_exact None demo_envelope demo_context (Some demo_registry) ∅
    (txt "run_terminal_command") 0 (λ _, NoReply) (λ l, l) (λ l, reflexivity l))) as Hpass.
  assert (gate_tool_call None (Some demo_registry) ∅ (txt "run_terminal_command") demo_envelope demo_context 0
    (λ _, NoReply) (λ l, l) = None) as H.
  { apply Hpass. split; [exact Hall|]. intros id _ H. by vm_compute in H. }
  by vm_compute in H.
Defined.
