(* ===== verification/HookNetProps.v ===== *)
(** * Hooks: processes and requests

    What a command hook is started with; the addresses to
    which a request may go, against the ranges of addresses as networks. *)

From S2P Require Import Prelude Text TextProps Utf8 Truncate Json HookData HookLoad HookRun HookRunProps.

Open Scope Z_scope.

(** ** Addresses and networks *)

Definition octet (a : Z) : Prop := 0 <= a < 256.
Definition segment (s : Z) : Prop := 0 <= s < 65536.
Definition ip_ok (ip : IpAddr) : Prop :=
  match ip with
  | V4 a b c d => octet a ∧ octet b ∧ octet c ∧ octet d
  | V6 ss => length ss = 8%nat ∧ Forall segment ss
  end.

(** The number of an address, and the networks: the first [bits] of [width] bits. *)
Definition v4_number (a b c d : Z) : Z := a * 2 ^ 24 + b * 2 ^ 16 + c * 2 ^ 8 + d.
Definition v6_number (ss : list Z) : Z := foldl (λ n s, n * 2 ^ 16 + s) 0 ss.
Definition in_network (width n : Z) (net : Z * Z) : Prop :=
  n / 2 ^ (width - snd net) = fst net / 2 ^ (width - snd net).

(** RFC 1918, the local link (RFC 3927), the shared range (RFC 6598), the unspecified
    address; the local link and the unique local addresses of IPv6. *)
Definition PRIVATE_V4 : list (Z * Z) :=
  [(v4_number 10 0 0 0, 8); (v4_number 172 16 0 0, 12); (v4_number 192 168 0 0, 16);
   (v4_number 169 254 0 0, 16); (v4_number 100 64 0 0, 10); (v4_number 0 0 0 0, 32)].
Definition PRIVATE_V6 : list (Z * Z) :=
  [(v6_number [0xfe80; 0; 0; 0; 0; 0; 0; 0], 10); (v6_number [0xfc00; 0; 0; 0; 0; 0; 0; 0], 7); (0, 128)].

Definition private_v4 (n : Z) : Prop := Exists (in_network 32 n) PRIVATE_V4.

(** An IPv4 address that is written in IPv6 counts as the IPv4 address. *)
Definition private (ip : IpAddr) : Prop :=
  match ip with
  | V4 a b c d => private_v4 (v4_number a b c d)
  | V6 ss =>
      let n := v6_number ss in
      if decide (n / 2 ^ 32 = 0xffff) then private_v4 (n mod 2 ^ 32)
      else Exists (in_network 128 n) PRIVATE_V6
  end.

Ltac eval_powers :=
  repeat match goal with
  | |- context [2 ^ ?k] => let v := eval compute in (2 ^ k) in progress change (2 ^ k) with v
  end.

Lemma v4_quotients a b c d :
  octet a → octet b → octet c → octet d →
  v4_number a b c d / 2 ^ 24 = a ∧ v4_number a b c d / 2 ^ 20 = a * 16 + b / 16
  ∧ v4_number a b c d / 2 ^ 16 = a * 256 + b ∧ v4_number a b c d / 2 ^ 22 = a * 4 + b / 64.
Proof.
  unfold octet, v4_number. intros. eval_powers. split_and!; symmetry.
  - apply (Z.div_unique _ _ _ (b * 65536 + c * 256 + d)); lia.
  - apply (Z.div_unique _ _ _ (b mod 16 * 65536 + c * 256 + d)); Z.div_mod_to_equations; lia.
  - apply (Z.div_unique _ _ _ (c * 256 + d)); lia.
  - apply (Z.div_unique _ _ _ (b mod 64 * 65536 + c * 256 + d)); Z.div_mod_to_equations; lia.
Qed.

Lemma blocked_v4_exact a b c d :
  octet a → octet b → octet c → octet d →
  is_blocked_v4 a b c d = true ↔ private_v4 (v4_number a b c d).
Proof.
  intros Ha Hb Hc Hd. destruct (v4_quotients a b c d Ha Hb Hc Hd) as (H24 & H20 & H16 & H22).
  unfold private_v4, PRIVATE_V4. rewrite !Exists_cons, Exists_nil. unfold in_network. cbn [fst snd].
  change (32 - 8) with 24. change (32 - 12) with 20. change (32 - 16) with 16. change (32 - 10) with 22.
  change (32 - 32) with 0. rewrite H24, H20, H16, H22. clear H24 H20 H16 H22.
  repeat match goal with |- context [v4_number ?p ?q ?r ?s / 2 ^ ?k] =>
    first [is_var p; fail 1
          |let v := eval compute in (v4_number p q r s / 2 ^ k) in
           change (v4_number p q r s / 2 ^ k) with v] end.
  assert (v4_number a b c d / 2 ^ 0 = 0 ↔ [a; b; c; d] = [0; 0; 0; 0]) as ->.
  { change (2 ^ 0) with 1. rewrite Z.div_1_r. unfold v4_number, octet in *. split.
    - intros. repeat f_equal; lia.
    - by intros [= -> -> -> ->]. }
  unfold is_blocked_v4, octet in *.
  destruct (Z.eqb_spec a 127) as [->|]; [split; [done|]; intros; destruct_or!; simplify_eq; Z.div_mod_to_equations; lia|].
  destruct (Z.eqb_spec a 10) as [->|]; [split; [by left|done]|].
  destruct (Z.eqb_spec a 172) as [->|]; cbn [andb].
  { destruct (Z.leb_spec 16 b), (Z.leb_spec b 31); cbn [andb].
    all: rewrite ?bool_decide_eq_true; cbn; split; intros; destruct_or?; simplify_eq; Z.div_mod_to_equations; lia. }
  destruct (Z.eqb_spec a 192) as [->|]; cbn [andb].
  { destruct (Z.eqb_spec b 168); cbn; rewrite ?bool_decide_eq_true; split; intros; destruct_or?; simplify_eq; Z.div_mod_to_equations; lia. }
  destruct (Z.eqb_spec a 169) as [->|]; cbn [andb].
  { destruct (Z.eqb_spec b 254); cbn; rewrite ?bool_decide_eq_true; split; intros; destruct_or?; simplify_eq; Z.div_mod_to_equations; lia. }
  destruct (Z.eqb_spec a 100) as [->|]; cbn [andb].
  { destruct (Z.leb_spec 64 b), (Z.leb_spec b 127); cbn [andb].
    all: rewrite ?bool_decide_eq_true; cbn; split; intros; destruct_or?; simplify_eq; Z.div_mod_to_equations; lia. }
  rewrite bool_decide_eq_true. split; [by auto 10|]. intros. destruct_or!; try (Z.div_mod_to_equations; lia); done.
Qed.

(** The first segment and the last two of an IPv6 address. *)
Lemma v6_quotients s0 s1 s2 s3 s4 s5 s6 s7 :
  Forall segment [s0; s1; s2; s3; s4; s5; s6; s7] →
  let n := v6_number [s0; s1; s2; s3; s4; s5; s6; s7] in
  n / 2 ^ 112 = s0
  ∧ n / 2 ^ 32 = s0 * 2 ^ 80 + s1 * 2 ^ 64 + s2 * 2 ^ 48 + s3 * 2 ^ 32 + s4 * 2 ^ 16 + s5
  ∧ n mod 2 ^ 32 = s6 * 2 ^ 16 + s7.
Proof.
  unfold segment, v6_number. intros Hs. cbn [foldl]. decompose_Forall_hyps. eval_powers.
  split_and!; symmetry.
  - apply (Z.div_unique _ _ _ (v6_number [s1; s2; s3; s4; s5; s6; s7])); unfold v6_number; cbn [foldl];
      change (2 ^ 16) with 65536; lia.
  - apply (Z.div_unique _ _ _ (s6 * 65536 + s7)); lia.
  - apply (Z.mod_unique _ _ (v6_number [s0; s1; s2; s3; s4; s5])); unfold v6_number; cbn [foldl];
      change (2 ^ 16) with 65536; lia.
Qed.

(** The first bits of a segment, as the source masks them. *)
Lemma segment_bits s :
  segment s →
  (Z.land s 0xffc0 = 0xfe80 ↔ s / 64 = 0xfe80 / 64) ∧ (Z.land s 0xfe00 = 0xfc00 ↔ s / 512 = 0xfc00 / 512).
Proof.
  unfold segment. intros Hs.
  assert (∀ k m, 0 <= k → m = Z.shiftl (Z.ones (16 - k)) k → 0 <= 16 - k →
            Z.land s m = s / 2 ^ k * 2 ^ k) as Hmask.
  { intros k m Hk -> H16. rewrite <- Z.shiftl_mul_pow2, <- Z.shiftr_div_pow2 by lia.
    apply Z.bits_inj'. intros n Hn. rewrite Z.land_spec, !Z.shiftl_spec by lia.
    destruct (Z.ltb_spec n k) as [Hlt|Hge].
    - rewrite !(Z.testbit_neg_r _ (n - k)) by lia. apply andb_false_r.
    - rewrite Z.shiftr_spec by lia. replace (n - k + k) with n by lia.
      rewrite Z.testbit_ones_nonneg by lia.
      destruct (Z.ltb_spec (n - k) (16 - k)) as [|Hbig]; [apply andb_true_r|].
      rewrite andb_false_r. symmetry. destruct (decide (s = 0)) as [->|]; [apply Z.bits_0|].
      apply Z.bits_above_log2; [lia|]. apply Z.log2_lt_pow2; [lia|].
      apply Z.lt_le_trans with (2 ^ 16); [lia|]. apply Z.pow_le_mono_r; lia. }
  rewrite (Hmask 6), (Hmask 9) by (done || lia). change (2 ^ 6) with 64. change (2 ^ 9) with 512.
  change (0xfe80 / 64) with 1018. change (0xfc00 / 512) with 126. lia.
Qed.

(** The networks of IPv6, by the first segment. *)
Lemma private_v6_segments s0 s1 s2 s3 s4 s5 s6 s7 :
  Forall segment [s0; s1; s2; s3; s4; s5; s6; s7] →
  Exists (in_network 128 (v6_number [s0; s1; s2; s3; s4; s5; s6; s7])) PRIVATE_V6
  ↔ Z.land s0 0xffc0 = 0xfe80 ∨ Z.land s0 0xfe00 = 0xfc00
    ∨ [s0; s1; s2; s3; s4; s5; s6; s7] = [0; 0; 0; 0; 0; 0; 0; 0].
Proof.
  intros Hss. destruct (v6_quotients _ _ _ _ _ _ _ _ Hss) as (H112 & _ & _).
  destruct (segment_bits s0) as [-> ->]; [by apply Forall_cons in Hss as [? _]|].
  unfold PRIVATE_V6. rewrite !Exists_cons, Exists_nil. unfold in_network. cbn [fst snd].
  assert (∀ k, 0 <= k → ∀ n, n / 2 ^ (112 + k) = n / 2 ^ 112 / 2 ^ k) as Hdd.
  { intros k Hk n. by rewrite Z.pow_add_r, Z.div_div by lia. }
  change (128 - 10) with (112 + 6). change (128 - 7) with (112 + 9). change (128 - 128) with 0.
  rewrite !(Hdd 6), !(Hdd 9), H112 by lia. change (0 / 2 ^ 0) with 0. change (2 ^ 0) with 1.
  rewrite Z.div_1_r.
  replace (v6_number [0xfe80; 0; 0; 0; 0; 0; 0; 0] / 2 ^ 112 / 2 ^ 6) with (0xfe80 / 64) by done.
  replace (v6_number [0xfc00; 0; 0; 0; 0; 0; 0; 0] / 2 ^ 112 / 2 ^ 9) with (0xfc00 / 512) by done.
  change (2 ^ 6) with 64. change (2 ^ 9) with 512.
  assert (v6_number [s0; s1; s2; s3; s4; s5; s6; s7] = 0
          ↔ [s0; s1; s2; s3; s4; s5; s6; s7] = [0; 0; 0; 0; 0; 0; 0; 0]) as ->; [|tauto].
  unfold v6_number, segment in *. cbn [foldl]. change (2 ^ 16) with 65536. decompose_Forall_hyps.
  split; [intros; repeat f_equal; lia|by intros [= -> -> -> -> -> -> -> ->]].
Qed.

Lemma blocked_exact ip : ip_ok ip → is_blocked_ip ip = true ↔ private ip.
Proof.
  destruct ip as [a b c d|ss]; [intros (? & ? & ? & ?); by apply blocked_v4_exact|].
  intros [Hlen Hss]. do 9 (destruct ss as [|? ss]; try discriminate Hlen). clear Hlen.
  destruct (v6_quotients _ _ _ _ _ _ _ _ Hss) as (_ & H32 & Hm).
  pose proof (private_v6_segments _ _ _ _ _ _ _ _ Hss) as Hnet.
  cbn [is_blocked_ip private head default to_ipv4_mapped]. rewrite H32, Hm.
  case_bool_decide as H1; [injection H1 as -> -> -> -> -> -> -> ->; rewrite decide_False by done;
    rewrite Hnet; split; [done|]; intros; destruct_or!; done|].
  case_bool_decide as H0; [injection H0 as -> -> -> -> -> -> -> ->; rewrite decide_False by done;
    rewrite Hnet; split; [by auto|done]|].
  unfold segment in Hss. decompose_Forall_hyps.
  case_bool_decide as Hmap.
  - injection Hmap as -> -> -> -> -> ->. rewrite decide_True by done.
    match goal with |- _ ↔ private_v4 (?g * _ + ?h) =>
      replace (g * 2 ^ 16 + h) with (v4_number (g / 256) (g mod 256) (h / 256) (h mod 256))
        by (unfold v4_number; eval_powers; Z.div_mod_to_equations; lia) end.
    apply blocked_v4_exact; unfold octet; Z.div_mod_to_equations; lia.
  - rewrite decide_False.
    + rewrite Hnet. match goal with |- (if ?c then true else ?d) = true ↔ _ =>
        assert ((if c then true else d) = true ↔ c = true ∨ d = true) as -> by (destruct c; intuition congruence) end.
      rewrite !Z.eqb_eq. tauto.
    + eval_powers. intros H'. apply Hmap. repeat f_equal; lia.
Qed.

(** ** Addresses as they are read *)

Lemma radix_digit_range radix c d : radix_digit radix c = Some d → 0 <= d.
Proof.
  unfold radix_digit. destruct (byte_in 48 57 c) eqn:E1, (byte_in 97 122 c) eqn:E2, (byte_in 65 90 c) eqn:E3;
    cbn; try done; case_match; intros; simplify_eq;
    unfold byte_in in *; rewrite ?andb_true_iff, ?N.leb_le in *; lia.
Qed.

Lemma read_digits_range radix limit max_digits s : ∀ count acc v n rest,
  0 < radix → 0 <= acc < limit →
  read_digits radix limit max_digits count acc s = Some (v, n, rest) → 0 <= v < limit.
Proof.
  induction s as [|c s IH]; intros count acc v n rest Hr Ha; cbn [read_digits]; [by intros; simplify_eq|].
  destruct (radix_digit radix c) as [d|] eqn:Ed; [|by intros; simplify_eq].
  apply radix_digit_range in Ed.
  destruct (Nat.ltb count max_digits), (Z.ltb_spec (acc * radix + d) limit); cbn; try done.
  apply IH; [done|]. nia.
Qed.

Lemma read_number_range radix limit max_digits zero s v rest :
  0 < radix → 0 < limit →
  read_number radix limit max_digits zero s = Some (v, rest) → 0 <= v < limit.
Proof.
  unfold read_number. intros Hr Hl.
  destruct (read_digits _ _ _ _ _ _) as [[[w n] rest']|] eqn:E; cbn; [|done].
  apply read_digits_range in E; [|done|lia]. by repeat case_match; intros; simplify_eq.
Qed.

Lemma read_separator_inner {A} (P : A → Prop) sep i inner s v rest :
  (∀ s v rest, inner s = Some (v, rest) → P v) →
  read_separator sep i inner s = Some (v, rest) → P v.
Proof. unfold read_separator. intros Hi. by repeat case_match; intros; simplify_eq; eauto. Qed.

Lemma read_ipv4_range s a b c d rest :
  read_ipv4_addr s = Some (a, b, c, d, rest) → octet a ∧ octet b ∧ octet c ∧ octet d.
Proof.
  unfold read_ipv4_addr. intros H.
  assert (∀ i s v r, read_separator "."%char i (read_number 10 256 3 false) s = Some (v, r) → octet v) as Ho.
  { intros i t v r. apply read_separator_inner. intros t' v' r'. by apply read_number_range. }
  apply bind_Some in H as ([v1 r1] & H1 & H). apply bind_Some in H as ([v2 r2] & H2 & H).
  apply bind_Some in H as ([v3 r3] & H3 & H). apply bind_Some in H as ([v4 r4] & H4 & H).
  simplify_eq. eauto 10.
Qed.

Lemma read_groups_range n : ∀ i s gs ipv4 rest,
  read_groups n i s = (gs, ipv4, rest) → Forall segment gs ∧ (length gs <= n)%nat.
Proof.
  induction n as [|n IH]; intros i s gs ipv4 rest H; cbn [read_groups] in H.
  { simplify_eq. split; [constructor|done]. }
  assert (∀ r, match read_separator ":"%char i (read_number 16 65536 4 true) s with
               | None => ([], false, s)
               | Some (g, s) => let '(gs, ipv4, s) := read_groups n (S i) s in (g :: gs, ipv4, s)
               end = r → Forall segment r.1.1 ∧ (length r.1.1 <= S n)%nat) as Hgroup.
  { clear H. intros r <-. destruct (read_separator _ _ _ _) as [[g s']|] eqn:Eg; [|cbn; split; [constructor|lia]].
    apply (read_separator_inner segment) in Eg; [|intros ? ? ?; by apply read_number_range].
    destruct (read_groups n (S i) s') as [[gs' v4'] s''] eqn:Er. apply IH in Er as [? ?].
    cbn. split; [by constructor|lia]. }
  match type of H with match ?x with _ => _ end = _ =>
    destruct x as [[[[[a b] c] d] s']|] eqn:E4 end; [|by apply Hgroup in H].
  match type of E4 with (if ?b then _ else _) = _ => destruct b eqn:Hn; [done|] end.
  apply bool_decide_eq_false in Hn.
  apply (read_separator_inner (λ '(a, b, c, d), octet a ∧ octet b ∧ octet c ∧ octet d)) in E4.
  - destruct E4 as (? & ? & ? & ?). simplify_eq. unfold octet, segment in *. cbn.
    split; [|lia]. repeat (apply Forall_cons_2; [lia|]). done.
  - intros t [[[a' b'] c'] d'] r Ht. apply bind_Some in Ht as ([[[[a'' b''] c''] d''] r'] & H4 & Ht).
    simplify_eq. by apply read_ipv4_range in H4.
Qed.

Lemma parse_ip_ok s ip : parse_ip s = Some ip → ip_ok ip.
Proof.
  unfold parse_ip. destruct (read_ipv4_addr s) as [[[[[a b] c] d] rest]|] eqn:E4.
  { apply read_ipv4_range in E4. by case_bool_decide; intros; simplify_eq. }
  intros ([gs rest] & H6 & H)%bind_Some. case_bool_decide; simplify_eq. unfold read_ipv6_addr in H6.
  destruct (read_groups 8 0 s) as [[front v4] s'] eqn:Ef. apply read_groups_range in Ef as [Hf Hl].
  case_bool_decide as H8; [by simplify_eq|]. destruct v4; [done|].
  destruct (text_strip_prefix (txt "::") s') as [s''|]; [|done].
  destruct (read_groups (8 - (length front + 1)) 0 s'') as [[back v4] r] eqn:Eb.
  apply read_groups_range in Eb as [Hb Hl']. simplify_eq. cbn. split.
  - rewrite !length_app, length_replicate. lia.
  - rewrite !Forall_app. split_and!; [done| |done].
    apply Forall_replicate. unfold segment. lia.
Qed.

(** ** What a run of a hook does *)

Section runs.
Context `{RegexCrate, Environment, HookWorld}.

(** The addresses that the resolver answers are addresses. *)
Definition resolver_ok : Prop :=
  ∀ i host addrs, lookup_host i host = inr addrs → Forall ip_ok addrs.

(** The URL may be requested: [https], and a host none of whose addresses is private. *)
Definition guarded (i : nat) (u : text) : Prop :=
  ∃ parsed host, url_parse u = inr parsed ∧ scheme parsed = txt "https" ∧ host_str parsed = Some host
  ∧ match parse_ip host with
    | Some ip => ¬ private ip
    | None => ∃ addrs,
        lookup_host i (host ++ txt ":" ++ show_Z (default 443 (port_or_known_default parsed))) = inr addrs
        ∧ addrs ≠ [] ∧ Forall (λ ip, ¬ private ip) addrs
    end.

Lemma not_blocked ip : ip_ok ip → is_blocked_ip ip = false → ¬ private ip.
Proof. intros Hok Hb Hp. by rewrite (proj2 (blocked_exact ip Hok) Hp) in Hb. Qed.

Lemma validate_guarded i u : resolver_ok → validate_hook_url i u = None → guarded i u.
Proof.
  intros Hres. unfold validate_hook_url, guarded.
  destruct (url_parse u) as [|parsed]; [done|]. case_bool_decide as Hs; [|done]. cbn [negb].
  destruct (host_str parsed) as [host|] eqn:Eh; [|done]. intros Hv. exists parsed, host.
  split_and!; try done. destruct (parse_ip host) as [ip|] eqn:Ep.
  - destruct (is_blocked_ip ip) eqn:Eb; [done|]. by apply not_blocked; [apply parse_ip_ok in Ep|].
  - destruct (lookup_host _ _) as [|addrs] eqn:El; [done|]. apply Hres in El.
    destruct addrs as [|ip addrs]; [done|]. exists (ip :: addrs).
    destruct (find_b is_blocked_ip (ip :: addrs)) eqn:Ef; [done|]. rewrite find_b_None in Ef.
    split_and!; [done|done|]. rewrite Forall_forall in *. intros x Hx. by apply not_blocked; [apply El|apply Ef].
Qed.

Lemma run_command_effects i spec e ctx b fx :
  fx ∈ snd (run_command_hook i spec e ctx b) →
  ∃ cmd stdin_json prog, command spec = Some cmd ∧ envelope_json e = inr stdin_json
    ∧ prepare_command i spec cmd = inr prog
    ∧ fx = Spawned (mkLaunch prog (spawn_env spec e ctx) (workspace_root ctx) stdin_json).
Proof.
  unfold run_command_hook. destruct (command spec) as [cmd|]; [|by intros ?%not_elem_of_nil].
  destruct (envelope_json e) as [|stdin_json]; [by intros ?%not_elem_of_nil|].
  destruct (prepare_command i spec cmd) as [|prog] eqn:Ep; [by intros ?%not_elem_of_nil|].
  intros ->%list_elem_of_singleton. exists cmd, stdin_json, prog. by split_and!.
Qed.

Lemma run_http_effects i spec e b fx :
  fx ∈ snd (run_http_hook i spec e b) →
  ∃ raw body, url spec = Some raw ∧ envelope_json e = inr body
    ∧ validate_hook_url i (expand_env_vars_with_extra raw (extra_env spec)) = None
    ∧ fx = Posted (expand_env_vars_with_extra raw (extra_env spec)) body (timeout_ms spec).
Proof.
  unfold run_http_hook. destruct (url spec) as [raw|] eqn:Eu; [|by intros ?%not_elem_of_nil].
  destruct (validate_hook_url _ _) eqn:Ev; [by intros ?%not_elem_of_nil|].
  destruct (envelope_json e) as [|body]; [by intros ?%not_elem_of_nil|]. intros Hfx.
  exists raw, body. split_and!; [done..|].
  destruct (http_send _ _ _) as [[] err|code body']; [by apply list_elem_of_singleton in Hfx..|].
  destruct (judge_response _ _ _ _ _ _). by apply list_elem_of_singleton in Hfx.
Qed.

Lemma run_hook_effects i spec e ctx b fx :
  fx ∈ snd (run_hook i spec e ctx b) →
  handler_type spec = txt "command" ∧ fx ∈ snd (run_command_hook i spec e ctx b)
  ∨ handler_type spec = txt "http" ∧ fx ∈ snd (run_http_hook i spec e b).
Proof.
  unfold run_hook. case_bool_decide; [left; split; [done|]; by destruct (run_command_hook _ _ _ _ _)|].
  case_bool_decide; [|by intros ?%not_elem_of_nil].
  right. split; [done|]. by destruct (run_http_hook _ _ _ _) as [[? ?] ?].
Qed.

(** C24: the only request that a hook of the kind [http] can send, blocking or not, goes to
    its URL after the expansion of the variables, and only if that is an [https] URL whose
    host is no private address and resolves to no private address: none in the networks of
    RFC 1918, RFC 3927 and RFC 6598, unspecified, or local to the link or to the site in
    IPv6, an IPv4 address written in IPv6 counting as the IPv4 address. *)
Theorem hook_request_guarded i spec e ctx b u body t
    (Hres : resolver_ok) (Hsent : Posted u body t ∈ snd (run_hook i spec e ctx b)) :
  guarded i u ∧ envelope_json e = inr body ∧ t = timeout_ms spec
  ∧ ∃ raw, url spec = Some raw ∧ u = expand_env_vars_with_extra raw (extra_env spec).
Proof.
  apply run_hook_effects in Hsent as [[_ Hs]|[_ Hs]].
  { apply run_command_effects in Hs as (? & ? & ? & _ & _ & _ & ?). done. }
  apply run_http_effects in Hs as (raw & body' & Hu & Hj & Hv & [= -> -> ->]).
  split_and!; [by apply validate_guarded|done|done|by exists raw].
Qed.

(** The variables that tell a hook what it runs for. *)
Definition identity_env (spec : HookSpec) (e : HookEventEnvelope) (ctx : RunContext) : gmap text text :=
  list_to_map
    [(txt "CLAUDE_PROJECT_DIR", workspace_root ctx); (txt "DS_WORKSPACE_ROOT", workspace_root ctx);
     (txt "DS_SESSION_ID", session_id ctx); (txt "DS_HOOK_NAME", spec_name spec);
     (txt "DS_HOOK_EVENT", show_event (hook_event_name e))].

Lemma spawn_env_identity spec e ctx :
  spawn_env spec e ctx = identity_env spec e ctx ∪ extra_env spec.
Proof.
  unfold spawn_env, identity_env. cbn [list_to_map foldr fst snd].
  by rewrite <- !insert_union_l, (left_id_L ∅ (∪)).
Qed.

(** The variables of a command that is given to a shell are all set by someone. *)
Definition variables_set (spec : HookSpec) (cmd : text) : Prop :=
  ∀ r, r ∈ iter_env_var_references cmd → name r ≠ [] → has_modifier r = false →
    name r ∈ RUNNER_ALWAYS_SET_ENV ∨ is_Some (extra_env spec !! name r) ∨ env_var_os (name r) = true
    ∨ name r ∈ find_local_shell_assignments cmd.

Lemma insert_text_perm x l : insert_text x l ≡ₚ x :: l.
Proof. induction l as [|y l IH]; cbn; [done|]. case_match; [done|]. rewrite IH. apply Permutation_swap. Qed.

Lemma sort_texts_perm l : sort_texts l ≡ₚ l.
Proof. induction l as [|x l IH]; cbn; [done|]. by rewrite insert_text_perm, IH. Qed.

Lemma elem_of_dedup x l : x ∈ dedup l ↔ x ∈ l.
Proof.
  induction l as [|y l IH]; cbn [dedup]; [done|].
  assert (x ∈ y :: dedup l ↔ x ∈ y :: l) as <- by (rewrite !elem_of_cons, IH; done).
  destruct (dedup l) as [|z l']; [done|]. case_decide; [|done]. subst. rewrite !elem_of_cons. tauto.
Qed.

(** The names that are reported: those of the references that nothing sets. *)
Lemma elem_of_unresolved cmd extra v :
  v ∈ find_unresolved_env_vars cmd extra ↔
  ∃ r, r ∈ iter_env_var_references cmd ∧ name r = v
       ∧ unresolved extra (find_local_shell_assignments cmd) r = true.
Proof.
  unfold find_unresolved_env_vars. rewrite elem_of_dedup, sort_texts_perm, list_elem_of_fmap.
  unfold filter_b. setoid_rewrite list_elem_of_In. setoid_rewrite filter_In.
  split; intros (r & ? & ?); exists r; naive_solver.
Qed.

Lemma none_unresolved spec cmd : find_unresolved_env_vars cmd (extra_env spec) = [] → variables_set spec cmd.
Proof.
  intros Hnil r Hr Hn Hm.
  destruct (unresolved (extra_env spec) (find_local_shell_assignments cmd) r) eqn:Eu.
  - assert (name r ∈ find_unresolved_env_vars cmd (extra_env spec)) as Hv by (apply elem_of_unresolved; eauto).
    rewrite Hnil in Hv. by apply not_elem_of_nil in Hv.
  - unfold unresolved in Eu. apply negb_false_iff in Eu. rewrite bool_decide_false, Hm in Eu by done.
    cbn [orb] in Eu. rewrite !orb_true_iff, !bool_decide_eq_true in Eu. tauto.
Qed.

(** A command hook is started in the root of the workspace with the envelope on its
    standard input; the five variables that say what it runs for have the values of the
    runner, whatever the configuration sets, and the other variables of the configuration
    are kept; a command with shell characters is run only if every plain reference to a
    variable in it is set by someone, and any other command is a path that exists, relative
    to the directory of the hook file. *)
Theorem spawn_identity i spec e ctx b l (Hfx : Spawned l ∈ snd (run_hook i spec e ctx b)) :
  current_dir l = workspace_root ctx ∧ envelope_json e = inr (stdin l)
  ∧ launch_env l = identity_env spec e ctx ∪ extra_env spec
  ∧ match program l with
    | Shell cmd => command spec = Some cmd ∧ is_shell_command cmd = true ∧ variables_set spec cmd
    | Executable p => resolve_command_path spec = Some p ∧ path_exists i p = true
    end.
Proof.
  apply run_hook_effects in Hfx as [[_ Hs]|[_ Hs]].
  2: { by apply run_http_effects in Hs as (? & ? & _ & _ & _ & ?). }
  apply run_command_effects in Hs as (cmd & stdin_json & prog & Hc & Hj & Hp & [= ->]).
  cbn. split_and!; [done|done|apply spawn_env_identity|].
  unfold prepare_command in Hp. destruct (is_shell_command cmd) eqn:Esh.
  - destruct (find_unresolved_env_vars cmd (extra_env spec)) eqn:Eu; [|done]. simplify_eq.
    split_and!; [done|done|by apply none_unresolved].
  - destruct (path_exists i _) eqn:Ee; [|done]. simplify_eq.
    unfold resolve_command_path. by rewrite Hc.
Qed.

End runs.

(** ** The texts that are cut *)

(** The texts that are cut stay well-formed UTF-8: the output of a process, whatever its
    bytes; the preview of a response, of at most 203 bytes; the payload of an event, which is
    kept as it is up to the limit, and otherwise replaced by the longest text between
    characters within the limit, and a mark. *)
Theorem hook_texts_valid bytes s max to_string value
    (Hs : utf8_valid s = true) (Hmax : 0 <= max) (Hj : utf8_valid (to_string value) = true) :
  utf8_valid (truncate_output bytes) = true
  ∧ utf8_valid (truncate_preview s) = true ∧ len (truncate_preview s) <= 203
  ∧ match truncate_payload_at max to_string value with
    | (v, false) => v = value ∧ len (to_string value) <= max
    | (v, true) => max < len (to_string value)
        ∧ ∃ p, v = JString (p ++ txt " [truncated]") ∧ p `prefix_of` to_string value
          ∧ utf8_valid (p ++ txt " [truncated]") = true ∧ max - 4 < len p <= max
    end.
Proof.
  split_and!.
  - unfold truncate_output. case_match; [apply utf8_lossy_valid|].
    rewrite utf8_valid_app; [done|apply utf8_lossy_valid].
  - unfold truncate_preview. pose proof (trim_valid s Hs) as Ht. case_match; [done|].
    destruct (floor_split (trim s) RESPONSE_PREVIEW_MAX Ht) as (p & r & -> & -> & _ & Hp & _).
    rewrite take_app_length. by rewrite utf8_valid_app.
  - unfold truncate_preview, len. pose proof (trim_valid s Hs) as Ht. case_match eqn:El.
    + apply Nat.leb_le in El. unfold RESPONSE_PREVIEW_MAX in El. lia.
    + destruct (floor_split (trim s) RESPONSE_PREVIEW_MAX Ht) as (p & r & -> & -> & _ & _ & _ & Hl & _).
      rewrite take_app_length, length_app. unfold RESPONSE_PREVIEW_MAX in Hl. cbn. lia.
  - unfold truncate_payload_at. destruct (Z.leb_spec (len (to_string value)) max) as [|Hbig]; [done|].
    destruct (floor_split (to_string value) (Z.to_nat max) Hj) as (p & r & Hsp & -> & _ & Hp & _ & Hl & Hr).
    rewrite Hsp in *.
    rewrite take_app_length. split; [done|]. exists p. unfold len in *. rewrite length_app in Hbig.
    split_and!; [done|by exists r|by rewrite utf8_valid_app|destruct Hr as [->|Hr]; cbn in *; lia|lia].
Qed.

(** ** At concrete inputs *)

Lemma demo_resolver_ok : resolver_ok.
Proof.
  intros i host addrs. cbn. case_bool_decide; [|case_bool_decide; [|done]];
    intros; simplify_eq; repeat constructor; cbn; unfold octet; lia.
Qed.

Definition demo_http : HookSpec := demo_spec "web" "http" None (Some (txt "https://hooks.test")) None.

Lemma hook_request_guarded_witness :
  snd (run_hook 0 demo_http demo_envelope demo_context true)
  = [Posted (txt "https://hooks.test") (txt "pre_tool_use") 5000]
  ∧ guarded 0 (txt "https://hooks.test").
Proof.
  assert (snd (run_hook 0 demo_http demo_envelope demo_context true)
    = [Posted (txt "https://hooks.test") (txt "pre_tool_use") 5000]) as Hs by (by vm_compute).
  split; [exact Hs|].
  apply (hook_request_guarded 0 demo_http demo_envelope demo_context true (txt "https://hooks.test")
    (txt "pre_tool_use") 5000 demo_resolver_ok).
  rewrite Hs. by left.
Defined.

Definition demo_command : HookSpec := demo_spec "gate" "command" (Some (txt "deny.sh")) None None.
Definition demo_launch : Launch :=
  mkLaunch (Executable (txt "/w/hooks/deny.sh")) (spawn_env demo_command demo_envelope demo_context)
    (txt "/w") (txt "pre_tool_use").

Lemma demo_spawned : snd (run_hook 0 demo_command demo_envelope demo_context true) = [Spawned demo_launch].
Proof. reflexivity. Qed.

(** The forged session identifier of the configuration does not reach the process. *)
Lemma spawn_identity_witness :
  extra_env demo_command !! txt "DS_SESSION_ID" = Some (txt "forged")
  ∧ launch_env demo_launch !! txt "DS_SESSION_ID" = Some (txt "s1")
  ∧ resolve_command_path demo_command = Some (txt "/w/hooks/deny.sh").
Proof.
  destruct (spawn_identity 0 demo_command demo_envelope demo_context true demo_launch) as (_ & _ & Henv & Hp).
  { rewrite demo_spawned. by left. }
  split; [by vm_compute|]. split; [rewrite Henv; by vm_compute|exact (proj1 Hp)].
Defined.

Lemma hook_texts_valid_witness :
  utf8_valid (truncate_output [ascii_of_nat 255]) = true
  ∧ truncate_payload_at 4 (λ _, txt "abc" ++ PUA_CHAR) JNull = (JString (txt "abc [truncated]"), true).
Proof.
  destruct (hook_texts_valid [ascii_of_nat 255] [] 4 (λ _, txt "abc" ++ PUA_CHAR) JNull) as (Ho & _ & _ & Hp);
    [done|done|by vm_compute|].
  split; [exact Ho|]. by vm_compute.
Defined.
