(* ===== verification/HookLoadProps.v ===== *)
(** * Hooks: what is loaded

    The tools a matcher selects; the scans for variables and their fuel; the
    specifications that a file yields, whatever the order in which its events are
    iterated; the registry that the sources yield; a registry that is sent and read back;
    disabling and enabling a hook. *)

From S2P Require Import Prelude Text TextProps Utf8 Json HookData HookLoad HookRun HookRunProps.

Open Scope nat_scope.

(** ** The table of tool names *)

(** Every name of another agent is in the table once, and every row says something. *)
Theorem claude_tools_distinct :
  NoDup (claude <$> CLAUDE_TOOLS)
  ∧ Forall (λ t, is_Some (tool_kind t) ∨ ds t ≠ []) CLAUDE_TOOLS.
Proof.
  split; [apply (bool_decide_unpack (NoDup (claude <$> CLAUDE_TOOLS))); by vm_compute|].
  by apply (bool_decide_unpack (Forall (λ t, is_Some (tool_kind t) ∨ ds t ≠ []) CLAUDE_TOOLS)); vm_compute.
Qed.

Lemma any_b_in {A} `{EqDecision A} (x : A) l : any_b (λ y, bool_decide (y = x)) l = true ↔ x ∈ l.
Proof.
  unfold any_b. rewrite existsb_exists. setoid_rewrite bool_decide_eq_true. setoid_rewrite <- list_elem_of_In.
  naive_solver.
Qed.

Lemma find_b_unique {A} (p : A → bool) l x :
  x ∈ l → p x = true → (∀ y, y ∈ l → p y = true → y = x) → find_b p l = Some x.
Proof.
  intros Hx Hp Hu. induction l as [|y l IH]; [by apply not_elem_of_nil in Hx|]. cbn.
  destruct (p y) eqn:E; [f_equal; apply Hu; [by left|done]|].
  apply IH; [|intros z Hz; apply Hu; by right].
  apply elem_of_cons in Hx as [->|]; [congruence|done].
Qed.

(** The two directions of the table agree. *)
Theorem claude_table_agrees name tool :
  tool ∈ ds_names_for name ↔ name ∈ claude_names_for tool.
Proof.
  unfold ds_names_for, claude_names_for, find_tool. rewrite list_elem_of_fmap.
  destruct claude_tools_distinct as [Hnd _].
  assert (∀ t t', t ∈ CLAUDE_TOOLS → t' ∈ CLAUDE_TOOLS → claude t = claude t' → t = t') as Huniq.
  { intros t t' (i & Hi)%list_elem_of_lookup (j & Hj)%list_elem_of_lookup Heq.
    assert (i = j) as <-; [|congruence]. eapply NoDup_lookup; [exact Hnd| |]; rewrite list_lookup_fmap.
    - by rewrite Hi.
    - rewrite Hj. cbn. by rewrite Heq. }
  setoid_rewrite elem_of_filter_b. setoid_rewrite bool_decide_eq_true. split.
  - destruct (find_b _ _) as [t|] eqn:Ef; [|by intros ?%not_elem_of_nil].
    apply find_b_Some in Ef as [Ht Hn]. apply bool_decide_eq_true in Hn. intros. by exists t.
  - intros (t & -> & Ht & Hd). rewrite (find_b_unique _ _ t); [done|done|by rewrite bool_decide_eq_true|].
    intros y Hy He. apply bool_decide_eq_true in He. by apply Huniq.
Qed.

(** ** Matchers *)

Section matcher_props.
Context `{RegexCrate}.

Lemma elem_of_push_name names n x : x ∈ push_name names n ↔ x ∈ names ∨ (x = n ∧ n ≠ []).
Proof.
  unfold push_name. case_bool_decide as Hn; cbn [andb].
  - destruct (any_b _ names) eqn:E; cbn [negb].
    + apply any_b_in in E. naive_solver.
    + rewrite elem_of_app, list_elem_of_singleton. naive_solver.
  - naive_solver.
Qed.

Lemma push_name_NoDup names n : NoDup names → NoDup (push_name names n).
Proof.
  unfold push_name. intros Hnd. case_match eqn:E; [|done]. apply andb_true_iff in E as [_ E].
  apply negb_true_iff in E. apply NoDup_app. split_and!; [done| |by apply NoDup_singleton].
  intros x Hx ->%list_elem_of_singleton. apply any_b_in in Hx. congruence.
Qed.

Lemma elem_of_push_all l : ∀ names x, x ∈ foldl push_name names l ↔ x ∈ names ∨ (x ∈ l ∧ x ≠ []).
Proof.
  induction l as [|n l IH]; intros names x; cbn [foldl].
  - rewrite elem_of_nil. naive_solver.
  - rewrite IH, elem_of_push_name, elem_of_cons. naive_solver.
Qed.

Lemma ds_names_non_empty name x : x ∈ ds_names_for name → x ≠ [].
Proof.
  unfold ds_names_for, find_tool. destruct (find_b _ _) as [t|] eqn:Ef; [|by intros ?%not_elem_of_nil].
  apply find_b_Some in Ef as [Ht _]. revert t Ht.
  assert (Forall (λ t, Forall (λ n, n ≠ []) (ds t)) CLAUDE_TOOLS) as Hall.
  { by apply (bool_decide_unpack (Forall (λ t, Forall (λ n, n ≠ []) (ds t)) CLAUDE_TOOLS)); vm_compute. }
  rewrite Forall_forall in Hall. intros t Ht Hx. specialize (Hall t Ht). rewrite Forall_forall in Hall. auto.
Qed.

Lemma elem_of_exact_names pattern x :
  x ∈ exact_names pattern ↔
  x ≠ [] ∧ ∃ term, term ∈ split_on "|"%char pattern ∧ (x = term ∨ x ∈ ds_names_for term).
Proof.
  unfold exact_names.
  assert (∀ terms names, x ∈ foldl push_term names terms ↔
    x ∈ names ∨ x ≠ [] ∧ ∃ term, term ∈ terms ∧ (x = term ∨ x ∈ ds_names_for term)) as Hf.
  { induction terms as [|t terms IH]; intros names; cbn [foldl].
    - setoid_rewrite elem_of_nil. naive_solver.
    - rewrite IH. unfold push_term. rewrite elem_of_push_all, elem_of_push_name.
      setoid_rewrite elem_of_cons. pose proof (ds_names_non_empty t x). naive_solver. }
  rewrite Hf, elem_of_nil. naive_solver.
Qed.

(** The empty pattern and the star select every tool; a pattern of letters, digits,
    underscores and bars selects exactly the tools whose name is one of its terms, and
    those that the table gives for a term; any other pattern is a regular expression, that
    selects the tools of which it matches the name or a name that the table gives; and only
    such a pattern can be refused. *)
Theorem matcher_exact pattern tool :
  match matcher_new pattern with
  | inl e => pattern ≠ [] ∧ pattern ≠ txt "*" ∧ is_simple_form pattern = false ∧ regex_new pattern = inl e
  | inr m =>
      is_match m tool = true ↔
      if decide (pattern = [] ∨ pattern = txt "*") then True
      else if is_simple_form pattern then
        tool ≠ [] ∧ ∃ term, term ∈ split_on "|"%char pattern ∧ (tool = term ∨ tool ∈ ds_names_for term)
      else ∃ r, regex_new pattern = inr r
        ∧ (regex_is_match r tool = true
           ∨ ∃ name, tool ∈ ds_names_for name ∧ regex_is_match r name = true)
  end.
Proof.
  unfold matcher_new. do 2 case_bool_decide; cbn [orb]; try (rewrite decide_True by auto; done).
  destruct (is_simple_form pattern) eqn:Es.
  - rewrite decide_False by tauto. cbn [is_match kind]. by rewrite any_b_in, elem_of_exact_names.
  - destruct (regex_new pattern) as [e|r] eqn:Er; [done|]. rewrite decide_False by tauto.
    cbn [is_match kind]. unfold any_b. rewrite orb_true_iff, existsb_exists.
    setoid_rewrite <- list_elem_of_In. setoid_rewrite claude_table_agrees. naive_solver.
Qed.

(** A matcher that is [Never] selects nothing. *)
Lemma never_matches tool : is_match matcher_never tool = false.
Proof. done. Qed.

End matcher_props.

(** ** Fuel: the readers of references and assignments never run out of it *)

Lemma run_length_le p s : run_length p s <= length s.
Proof. induction s as [|c s IH]; cbn; [done|]. case_match; lia. Qed.

Lemma ident_length_pos c s : is_ident_start c = true → 0 < ident_length (c :: s).
Proof.
  intros Hc. unfold ident_length. cbn. assert (is_ident_byte c = true) as ->; [|lia].
  unfold is_ident_start, is_ident_byte, is_alpha, is_alnum in *. rewrite !orb_true_iff in *. tauto.
Qed.

Theorem refs_fuel fuel : ∀ pos rest,
  length rest <= fuel → refs_from fuel pos rest = refs_from (length rest) pos rest.
Proof.
  induction fuel as [fuel IH] using lt_wf_ind. intros pos rest Hf.
  destruct rest as [|c after]; [by destruct fuel|]. destruct fuel as [|fuel]; [cbn in Hf; lia|].
  cbn [length] in Hf. cbn [length refs_from].
  assert (∀ g p r, length r <= fuel → length r <= g → g < S fuel → refs_from g p r = refs_from (length r) p r) as IHg.
  { intros g p r ? ? ?. by apply IH. }
  assert (∀ p r, length r <= length after → refs_from fuel p r = refs_from (length after) p r) as Hstep.
  { intros p r Hr. rewrite (IHg fuel), (IHg (length after)); [done|lia..]. }
  destruct (negb _); [by apply Hstep|]. destruct after as [|d body]; [done|].
  destruct (bool_decide (d = LBRACE)).
  - set (n := ident_length body). set (m := run_length _ (drop n body)).
    destruct (drop (n + m) body) as [|x tail] eqn:Et; [by apply Hstep|]. f_equal. apply Hstep.
    apply (f_equal length) in Et. rewrite length_drop in Et. cbn in *. lia.
  - case_match; [f_equal|]; apply Hstep; rewrite ?length_drop; cbn; lia.
Qed.

Lemma read_names_shrinks fuel : ∀ pos rest names,
  length (snd (snd (read_names fuel pos rest names))) <= length rest.
Proof.
  induction fuel as [|fuel IH]; intros pos rest names; [done|]. destruct rest as [|c rest]; [done|].
  cbn [read_names].
  case_match; [done|]. case_match; [etrans; [apply IH|cbn; lia]|].
  case_match; [etrans; [apply IH|rewrite length_drop; lia]|].
  case_match; [etrans; [apply IH|rewrite length_drop; lia]|done].
Qed.

(** The collector of [read] stops at the end or at a byte that is no name. *)
Lemma read_names_fuel fuel : ∀ fuel' pos rest names,
  length rest <= fuel → length rest <= fuel' →
  read_names fuel pos rest names = read_names fuel' pos rest names.
Proof.
  induction fuel as [|fuel IH]; intros fuel' pos rest names Hf Hf'.
  { destruct rest; [by destruct fuel'|cbn in Hf; lia]. }
  destruct rest as [|c rest]; [by destruct fuel'|]. destruct fuel' as [|fuel']; [cbn in Hf'; lia|].
  cbn [read_names]. cbn [length] in Hf, Hf'.
  destruct (bool_decide (c ∈ _)); [done|]. destruct (is_blank_byte c) eqn:Eb; [apply IH; lia|].
  case_bool_decide as Hdash; [|destruct (is_ident_start c) eqn:Hi; [|done]]; apply IH; rewrite length_drop; cbn [length].
  1, 2: cbn [run_length]; rewrite Eb; cbn; lia.
  all: pose proof (ident_length_pos c rest Hi); lia.
Qed.

Theorem assignments_fuel command fuel : ∀ fuel' pos rest names,
  length rest <= fuel → length rest <= fuel' →
  assignments_from command fuel pos rest names = assignments_from command fuel' pos rest names.
Proof.
  induction fuel as [|fuel IH]; intros fuel' pos rest names Hf Hf'.
  { destruct rest; [by destruct fuel'|cbn in Hf; lia]. }
  destruct rest as [|c rest]; [by destruct fuel'|]. destruct fuel' as [|fuel']; [cbn in Hf'; lia|].
  cbn [assignments_from]. cbn [length] in Hf, Hf'.
  case_match eqn:Hc; [apply IH; lia|]. apply negb_false_iff in Hc.
  pose proof (ident_length_pos c rest Hc) as Hn.
  set (n := ident_length (c :: rest)) in *. set (after := drop n (c :: rest)).
  assert (length after <= length rest) as Hafter by (unfold after; rewrite length_drop; cbn [length]; lia).
  clearbody after.
  case_match; [apply IH; lia|]. case_match; [|apply IH; lia].
  set (b := run_length is_blank_byte after). assert (length (drop b after) <= length rest) as Hb by (rewrite length_drop; lia).
  clearbody b n.
  rewrite (read_names_fuel fuel fuel') by lia.
  pose proof (read_names_shrinks fuel' (pos + n + b) (drop b after) names) as Hs.
  destruct (read_names fuel' _ _ _) as [names' [pos' rest']]. cbn in Hs. apply IH; lia.
Qed.

(** ** References that the scanners misread *)

(** The body of a form with a modifier is left to [shellexpand]: only its leading brace is
    hidden, so that a reference inside it is seen, and expanded, before the shell runs. *)
Theorem nested_reference_exposed hi lo :
  (name <$> iter_env_var_references (txt "${A:-$B}")) = [txt "A"]
  ∧ mask_modifier_forms (txt "${A:-$B}") (make_sentinel hi lo) = make_sentinel hi lo ++ txt "A:-$B}".
Proof.
  generalize (make_sentinel hi lo) as s. intros s. split; [by vm_compute|].
  rewrite <- (app_nil_r (s ++ _)). reflexivity.
Qed.

(** Text in single quotes, a positional parameter in braces and the variable of a loop are
    reported as variables that nothing sets. *)
Theorem shell_text_reported `{Environment} extra
    (Hos : ∀ n, env_var_os n = false) (Hex : extra = ∅) :
  find_unresolved_env_vars (txt "awk '{print $NF}' log") extra = [txt "NF"]
  ∧ find_unresolved_env_vars (txt "f() { echo ${1}; }; f x") extra = [txt "1"]
  ∧ find_unresolved_env_vars (txt "for i in a b; do echo $i; done") extra = [txt "i"].
Proof.
  subst extra.
  assert (∀ cmd vs, vs = dedup (sort_texts (name <$> filter_b (λ r,
      negb (bool_decide (name r = []) || has_modifier r || bool_decide (name r ∈ RUNNER_ALWAYS_SET_ENV)
            || bool_decide (name r ∈ find_local_shell_assignments cmd))) (iter_env_var_references cmd))) →
    find_unresolved_env_vars cmd ∅ = vs) as Hcmd.
  { intros cmd vs ->. unfold find_unresolved_env_vars. do 3 f_equal. unfold filter_b.
    apply List.filter_ext. intros r. unfold unresolved. rewrite Hos.
    rewrite (bool_decide_false (is_Some (_ !! _))) by (rewrite lookup_empty; by intros [? ?]).
    by rewrite !orb_false_r. }
  split_and!; apply Hcmd; by vm_compute.
Qed.


(** ** Lists *)

Section collect.
Context {A B : Type}.

Lemma collect_app (l1 l2 : list (A + B)) :
  collect (l1 ++ l2) = (fst (collect l1) ++ fst (collect l2), snd (collect l1) ++ snd (collect l2)).
Proof.
  induction l1 as [|[e|s] l1 IH]; cbn; [by destruct (collect l2)| |];
    rewrite IH; by destruct (collect l1), (collect l2).
Qed.

Lemma elem_of_collect (l : list (A + B)) x : x ∈ fst (collect l) ↔ inr x ∈ l.
Proof.
  induction l as [|[e|s] l IH]; cbn; [by rewrite !elem_of_nil| |];
    destruct (collect l) as [oks errs]; cbn in *; rewrite !elem_of_cons, IH; naive_solver.
Qed.
End collect.

(** ** The events of a file *)

Section files.
Context `{RegexCrate, Serde, Environment}.

(** The events that the keys name, with the groups under them. *)
Definition file_event (f : text * Json) : option (HookEventName * list MatcherGroup) :=
  ev ← event_of_name (fst f); gs ← de_groups (snd f); Some (ev, gs).
Definition file_events (fields : list (text * Json)) : list (HookEventName * list MatcherGroup) :=
  omap file_event fields.

(** The groups under every event can be read. *)
Definition readable_groups (fields : list (text * Json)) : Prop :=
  Forall (λ f, is_Some (event_of_name (fst f)) → is_Some (de_groups (snd f))) fields.

Definition insert_event (m : gmap HookEventName (list MatcherGroup))
    (eg : HookEventName * list MatcherGroup) := <[fst eg := snd eg]> m.

(** A later key of the same event replaces the groups of an earlier one. *)
Lemma read_events_foldl l : ∀ hm, readable_groups l →
  ∃ hm', read_events l hm = inr hm' ∧ events hm' = foldl insert_event (events hm) (file_events l).
Proof.
  induction l as [|[key val] l IH]; intros hm Hl; [by exists hm|].
  apply Forall_cons in Hl as [Hk Hl]. cbn [read_events]. unfold file_events. cbn [omap list_omap].
  unfold file_event at 1. cbn [fst snd] in *. destruct (event_of_name key) as [ev|]; cbn [mbind option_bind].
  - destruct (de_groups val) as [gs|]; [|by destruct Hk].
    by destruct (IH (mkHooksMap (<[ev := gs]> (events hm)) (skipped_events hm)) Hl) as (hm' & ? & ?); exists hm'.
  - by destruct (IH (mkHooksMap (events hm) (skipped_events hm ++ [key])) Hl) as (hm' & ? & ?); exists hm'.
Qed.

Lemma foldl_insert_lookup es : ∀ m ev gs,
  NoDup es.*1 →
  foldl insert_event m es !! ev = Some gs ↔ (ev, gs) ∈ es ∨ (ev ∉ es.*1 ∧ m !! ev = Some gs).
Proof.
  induction es as [|[e0 g0] es IH]; intros m ev gs Hnd; cbn [foldl].
  { rewrite elem_of_nil. set_solver. }
  apply NoDup_cons in Hnd as [Hn Hnd]. rewrite IH by done. unfold insert_event. cbn [fst snd].
  rewrite elem_of_cons. cbn [fmap list_fmap fst]. rewrite not_elem_of_cons.
  assert ((e0, gs) ∈ es → False) as Hno by (intros Hin; apply Hn; by apply (list_elem_of_fmap_2 fst) in Hin).
  destruct (decide (ev = e0)) as [->|Hne]; simplify_map_eq; [|naive_solver].
  split.
  - intros [?|[_ [= ->]]]; [naive_solver|]. by left; left.
  - intros [[[= ->]|?]|[[? _] _]]; [right; by split|naive_solver|done].
Qed.

(** ** The specifications of a file *)

Definition of_event (ev : HookEventName) (s : HookSpec) : bool := bool_decide (spec_event s = ev).

Lemma elem_of_imap_inv {A B} (f : nat → A → B) l y :
  y ∈ imap f l → ∃ i x, l !! i = Some x ∧ y = f i x.
Proof.
  intros (i & Hi)%list_elem_of_lookup. rewrite list_lookup_imap in Hi.
  destruct (l !! i) as [x|] eqn:E; cbn in Hi; simplify_eq. eauto.
Qed.

(** What every specification that is built satisfies. *)
Definition compiled (s : HookSpec) : Prop :=
  match configured_matcher s with
  | None => matcher s = None
  | Some p => ∃ m, matcher_new p = inr m ∧ matcher s = Some m
  end.

Lemma build_handler_spec path stem ev gi pattern cm hi h s :
  build_handler path stem ev gi pattern cm hi h = inr s →
  spec_event s = ev ∧ configured_matcher s = pattern ∧ matcher s = cm
  ∧ (∀ k, k ∈ RUNNER_ALWAYS_SET_ENV → extra_env s = strip_reserved_env_keys (rh_env h)).
Proof. unfold build_handler. by repeat case_match; intros; simplify_eq. Qed.

Lemma build_group_spec path stem ev gi g s :
  inr s ∈ build_group path stem ev gi g → spec_event s = ev ∧ compiled s.
Proof.
  unfold build_group, compiled.
  destruct (is_lifecycle ev && _); [by intros ?%list_elem_of_singleton|].
  destruct (match mg_matcher g with Some [] => None | m => m end) as [p|].
  - destruct (matcher_new p) as [|m] eqn:Em; [by intros ?%list_elem_of_singleton|].
    intros (i & h & _ & Hs)%elem_of_imap_inv. symmetry in Hs.
    apply build_handler_spec in Hs as (-> & -> & -> & _). eauto.
  - intros (i & h & _ & Hs)%elem_of_imap_inv. symmetry in Hs.
    by apply build_handler_spec in Hs as (-> & -> & -> & _).
Qed.

Lemma build_event_spec path stem eg s :
  s ∈ fst (collect (build_event path stem eg)) → spec_event s = fst eg ∧ compiled s.
Proof.
  rewrite elem_of_collect. unfold build_event. rewrite list_elem_of_In, in_concat.
  intros (l & Hl & Hs). apply list_elem_of_In in Hl, Hs. apply elem_of_imap_inv in Hl as (i & g & _ & ->).
  by apply build_group_spec in Hs.
Qed.

Lemma built_of_event path stem eg ev :
  filter_b (of_event ev) (fst (collect (build_event path stem eg)))
  = if decide (fst eg = ev) then fst (collect (build_event path stem eg)) else [].
Proof.
  case_decide as He; [apply filter_b_all|apply filter_b_none]; intros s Hs;
    apply build_event_spec in Hs as [Hs _]; unfold of_event.
  - by rewrite Hs, bool_decide_true.
  - by rewrite Hs, bool_decide_false.
Qed.

(** The specifications of an event among those of several, in any order of the events. *)
Lemma built_among path stem es ev :
  NoDup es.*1 →
  (∀ gs, (ev, gs) ∈ es → filter_b (of_event ev) (fst (collect (es ≫= build_event path stem)))
                         = fst (collect (build_event path stem (ev, gs))))
  ∧ (ev ∉ es.*1 → filter_b (of_event ev) (fst (collect (es ≫= build_event path stem))) = []).
Proof.
  induction es as [|[e0 g0] es IH]; intros Hnd.
  { split; [|done]. intros gs Hgs. by apply not_elem_of_nil in Hgs. }
  apply NoDup_cons in Hnd as [Hn Hnd]. destruct (IH Hnd) as [IHin IHout]. clear IH.
  cbn [mbind list_bind]. rewrite collect_app. cbn [fst]. rewrite filter_b_app, built_of_event. cbn [fst].
  split.
  - intros gs Hgs. apply elem_of_cons in Hgs as [[= -> ->]|Hgs].
    + rewrite decide_True, IHout by done. by rewrite app_nil_r.
    + rewrite decide_False; [by apply IHin|]. intros ->. apply Hn. by apply (list_elem_of_fmap_2 fst) in Hgs.
  - intros Hout. apply not_elem_of_cons in Hout as [Hne Hout]. rewrite decide_False by done. by apply IHout.
Qed.

(** A file whose keys name each event at most once, with groups that can be read, yields
    for each event exactly the specifications of the groups under its key, in the order in
    which they are written, and none for the other events, whatever the order in which the
    maps of the loader are iterated. *)
Theorem hook_file_exact content path top fields
    (Hord : SerdeOrder)
    (Hparse : json_from_str content = inr top) (Hhooks : json_get (txt "hooks") top = Some (JObject fields))
    (Hread : readable_groups fields) (Hnd : NoDup (file_events fields).*1) :
  let specs := fst (parse_hook_file content path) in
  let stem := default (txt "unknown") (file_stem path) in
  (∀ ev gs, (ev, gs) ∈ file_events fields →
     filter_b (of_event ev) specs = fst (collect (build_event path stem (ev, gs))))
  ∧ (∀ ev, ev ∉ (file_events fields).*1 → filter_b (of_event ev) specs = []).
Proof.
  cbn zeta. unfold parse_hook_file. rewrite Hparse, Hhooks. cbn [from_value].
  assert (readable_groups (key_order fields)) as Hread' by (unfold readable_groups; by rewrite key_order_perm).
  destruct (read_events_foldl _ (mkHooksMap ∅ []) Hread') as (hm & -> & Hev). cbn [events] in Hev.
  assert (file_events (key_order fields) ≡ₚ file_events fields) as Hperm by (unfold file_events; by rewrite key_order_perm).
  assert (∀ ev gs, events hm !! ev = Some gs ↔ (ev, gs) ∈ file_events fields) as Hlook.
  { intros ev gs. rewrite Hev, foldl_insert_lookup by (by rewrite Hperm). rewrite Hperm, lookup_empty. naive_solver. }
  set (es := event_order (map_to_list (events hm))).
  assert (∀ ev gs, (ev, gs) ∈ es ↔ (ev, gs) ∈ file_events fields) as Hes.
  { intros ev gs. unfold es. rewrite event_order_perm, elem_of_map_to_list. apply Hlook. }
  assert (NoDup es.*1) as Hnd' by (unfold es; rewrite event_order_perm; apply NoDup_fst_map_to_list).
  split.
  - intros ev gs Hgs. apply built_among; [done|]. by apply Hes.
  - intros ev Hout. apply built_among; [done|]. intros Hin. apply Hout.
    apply list_elem_of_fmap in Hin as ([e g] & -> & Hin). apply Hes in Hin. by apply (list_elem_of_fmap_2 fst) in Hin.
Qed.

(** Two keys of one event: the groups of the one that the iteration reaches first are lost. *)
Theorem aliased_events_lose k1 v1 g1 k2 v2 g2 ev
    (Hk1 : event_of_name k1 = Some ev) (Hk2 : event_of_name k2 = Some ev)
    (Hv1 : de_groups v1 = Some g1) (Hv2 : de_groups v2 = Some g2) :
  ∃ hm, read_events [(k1, v1); (k2, v2)] (mkHooksMap ∅ []) = inr hm ∧ events hm = {[ev := g2]}.
Proof.
  cbn [read_events]. rewrite Hk1, Hk2, Hv1, Hv2. eexists. split; [done|].
  cbn [events]. by rewrite insert_insert_eq, insert_empty.
Qed.

(** ** The registry *)

Lemma lookup_push r s ev :
  hooks_for (push_spec r s) ev = hooks_for r ev ++ (if decide (spec_event s = ev) then [s] else []).
Proof.
  unfold push_spec, hooks_for at 1. cbn [hooks]. case_decide as He.
  - subst ev. by rewrite lookup_insert_eq.
  - rewrite lookup_insert_ne by done. by rewrite app_nil_r.
Qed.

Lemma hooks_for_append specs : ∀ r ev,
  hooks_for (append_specs r specs) ev = hooks_for r ev ++ filter_b (of_event ev) specs.
Proof.
  induction specs as [|s specs IH]; intros r ev; cbn [append_specs foldl]; [by rewrite app_nil_r|].
  unfold append_specs in IH. rewrite IH, lookup_push, <- (assoc_L (++)). f_equal.
  unfold filter_b, of_event. cbn [List.filter]. case_decide as He.
  - by rewrite bool_decide_true.
  - by rewrite bool_decide_false.
Qed.

Lemma elem_of_first_of_key s specs : ∀ seen, s ∈ first_of_key seen specs → s ∈ specs ∧ spec_key s ∉ seen.
Proof.
  induction specs as [|t specs IH]; intros seen; cbn [first_of_key]; [by intros ?%not_elem_of_nil|].
  case_decide as Hs.
  - intros Hin. apply IH in Hin as [? ?]. split; [by right|done].
  - intros [->|Hin]%elem_of_cons; [split; [by left|done]|].
    apply IH in Hin as [? Hn]. apply not_elem_of_cons in Hn as [_ ?]. split; [by right|done].
Qed.

Lemma first_of_key_NoDup specs : ∀ seen, NoDup (spec_key <$> first_of_key seen specs).
Proof.
  induction specs as [|t specs IH]; intros seen; cbn [first_of_key]; [constructor|].
  case_decide as Hs; [apply IH|]. cbn [fmap list_fmap]. apply NoDup_cons. split; [|apply IH].
  intros (s & Hk & Hin)%list_elem_of_fmap. apply elem_of_first_of_key in Hin as [_ Hn].
  apply Hn. rewrite <- Hk. by left.
Qed.

Lemma first_of_key_covers specs : ∀ seen i s,
  specs !! i = Some s → spec_key s ∉ seen →
  (∀ j t, j < i → specs !! j = Some t → spec_key t ≠ spec_key s) → s ∈ first_of_key seen specs.
Proof.
  induction specs as [|t specs IH]; intros seen i s Hi Hs Hfirst; [done|]. cbn [first_of_key].
  destruct i as [|i]; cbn in Hi; simplify_eq.
  - rewrite decide_False by done. by left.
  - assert (spec_key t ≠ spec_key s) as Hne by (apply (Hfirst 0); [lia|done]).
    assert (∀ seen', spec_key s ∉ seen' → s ∈ first_of_key seen' specs) as Hrest.
    { intros seen' Hs'. apply (IH seen' i); [done|done|]. intros j u Hj. apply (Hfirst (S j)). lia. }
    case_decide; [by apply Hrest|]. right. apply Hrest. by apply not_elem_of_cons.
Qed.

Lemma first_of_key_sublist specs : ∀ seen, first_of_key seen specs `sublist_of` specs.
Proof.
  induction specs as [|t specs IH]; intros seen; cbn [first_of_key]; [done|].
  case_decide; [by apply sublist_cons|by apply sublist_skip].
Qed.

(** All the specifications of the sources, the global ones first. *)
Definition loaded (fs : HookFs) (globals projects : list HookSource) : list HookSpec :=
  concat (fst <$> ((load_scope fs (txt "global") <$> globals) ++ (load_scope fs (txt "project") <$> projects))).

Lemma load_registry fs globals projects :
  fst (load_hooks_from_sources fs globals projects)
  = append_specs empty_registry (first_of_key [] (loaded fs globals projects)).
Proof. done. Qed.

(** The registry has, for every event, the specifications of the sources for that event
    in the order of the sources, the global ones before those of the project; of those with
    the same event, command, URL and matcher, exactly the first. *)
Theorem hooks_load_exact fs globals projects :
  let specs := loaded fs globals projects in
  let kept := first_of_key [] specs in
  (∀ ev, hooks_for (fst (load_hooks_from_sources fs globals projects)) ev = filter_b (of_event ev) kept)
  ∧ kept `sublist_of` specs ∧ NoDup (spec_key <$> kept)
  ∧ ∀ i s, specs !! i = Some s →
      (∀ j t, j < i → specs !! j = Some t → spec_key t ≠ spec_key s) → s ∈ kept.
Proof.
  cbn zeta. split_and!.
  - intros ev. rewrite load_registry, hooks_for_append. unfold hooks_for, empty_registry. cbn [hooks].
    by rewrite lookup_empty.
  - apply first_of_key_sublist.
  - apply first_of_key_NoDup.
  - intros i s Hi Hf. apply (first_of_key_covers _ [] i); [done|apply not_elem_of_nil|done].
Qed.

(** A hook is only found under the event of its specification: the alias [SubagentEnd]
    and its canonical event are not the same key. *)
Theorem hooks_for_own_event fs globals projects ev s :
  s ∈ hooks_for (fst (load_hooks_from_sources fs globals projects)) ev → spec_event s = ev.
Proof.
  rewrite load_registry, hooks_for_append. unfold hooks_for, empty_registry. cbn [hooks].
  rewrite lookup_empty. cbn [default app]. rewrite elem_of_filter_b. unfold of_event.
  rewrite bool_decide_eq_true. by intros [_ ?].
Qed.

(** ** Matchers after a registry was sent *)

Lemma parse_compiled content path : Forall compiled (fst (parse_hook_file content path)).
Proof.
  unfold parse_hook_file. destruct (json_from_str content) as [|top]; [constructor|].
  destruct (json_get _ top) as [v|]; [|constructor]. destruct (from_value v) as [|hm]; [constructor|].
  apply Forall_forall. intros s. rewrite elem_of_collect, list_elem_of_bind.
  intros (eg & Hs & _). apply elem_of_collect in Hs. by apply build_event_spec in Hs as [_ ?].
Qed.

Lemma join_loads_Forall (P : HookSpec → Prop) l :
  Forall (λ x, Forall P (fst x)) l → Forall P (fst (join_loads l)).
Proof.
  unfold join_loads. cbn [fst]. induction 1 as [|x l Hx _ IH]; cbn; [constructor|]. by apply Forall_app.
Qed.

Lemma source_compiled fs source : Forall compiled (fst (load_from_source fs source)).
Proof.
  destruct source as [path|dir]; cbn [load_from_source].
  - unfold load_hooks_from_settings_file. destruct (read_to_string fs path) as [[[] ?]|content]; [constructor..|].
    apply parse_compiled.
  - unfold load_hooks_from_directory. destruct (read_dir fs dir) as [[[] ?]|es]; [constructor..|].
    destruct (collect es) as [paths bad]. set (files := sort_texts _).
    pose proof (join_loads_Forall compiled (load_file fs <$> files)) as Hj.
    destruct (join_loads _) as [specs errors]. apply Hj. apply Forall_fmap, Forall_true. intros p. cbn.
    unfold load_file. destruct (read_to_string fs p) as [[? ?]|content]; [constructor|apply parse_compiled].
Qed.

Lemma scope_compiled fs scope source : Forall compiled (fst (load_scope fs scope source)).
Proof.
  unfold load_scope. pose proof (source_compiled fs source) as Hs.
  destruct (load_from_source fs source) as [specs errors]. cbn in *. apply Forall_fmap.
  eapply Forall_impl; [exact Hs|]. by intros s.
Qed.

Lemma loaded_compiled fs globals projects : Forall compiled (loaded fs globals projects).
Proof.
  change (Forall compiled (fst (join_loads ((load_scope fs (txt "global") <$> globals)
    ++ (load_scope fs (txt "project") <$> projects))))).
  apply join_loads_Forall, Forall_app. split; apply Forall_fmap, Forall_true; intros s; apply scope_compiled.
Qed.

Lemma recompile_wire s : compiled s → recompile (wire_spec s) = s.
Proof.
  unfold compiled, recompile, wire_spec, set_matcher. destruct s as [n ev ty cm m en c cr u ur t d x]. cbn.
  destruct cm as [p|]; [intros (m' & -> & ->); done|by intros ->].
Qed.

(** A loaded registry that is written without its compiled matchers and read back is the
    same registry once the matchers are compiled again; before that, a pattern that was
    configured selects every tool. *)
Theorem hooks_wire_roundtrip fs globals projects :
  let r := fst (load_hooks_from_sources fs globals projects) in
  recompile_matchers (wire_registry r) = r
  ∧ ∀ ev s, s ∈ hooks_for (wire_registry r) ev → matcher s = None.
Proof.
  cbn zeta. set (r := fst _). split.
  - unfold recompile_matchers, wire_registry. destruct r as [hs] eqn:Er. cbn [hooks]. f_equal.
    apply map_eq. intros ev. rewrite !lookup_fmap. destruct (hs !! ev) as [specs|] eqn:El; [|done].
    cbn. f_equal. rewrite <- list_fmap_compose. rewrite <- (list_fmap_id specs) at 2.
    apply list_fmap_ext. intros i s Hi. apply recompile_wire.
    assert (s ∈ hooks_for r ev) as Hs.
    { rewrite Er. unfold hooks_for. cbn [hooks]. rewrite El. by apply list_elem_of_lookup_2 in Hi. }
    unfold r in Hs. rewrite load_registry, hooks_for_append in Hs.
    unfold hooks_for, empty_registry in Hs. cbn [hooks] in Hs. rewrite lookup_empty in Hs. cbn in Hs.
    apply elem_of_filter_b in Hs as [Hs _]. apply elem_of_first_of_key in Hs as [Hs _].
    pose proof (loaded_compiled fs globals projects) as Hall. rewrite Forall_forall in Hall. by apply Hall.
  - intros ev s. unfold hooks_for, wire_registry. cbn [hooks]. rewrite lookup_fmap.
    destruct (hooks r !! ev) as [specs|]; cbn; [|by intros ?%not_elem_of_nil].
    by intros (t & -> & _)%list_elem_of_fmap.
Qed.

(** The key of a hook does not tell the directory of its file: of two hooks with the same
    relative command in different directories, which name different programs, the second is
    dropped. *)
Theorem dedup_ignores_directory s d name :
  first_of_key [] [s; set_name name (set_source_dir d s)] = [s].
Proof.
  unfold first_of_key. rewrite decide_False by apply not_elem_of_nil.
  rewrite decide_True; [done|]. by left.
Qed.

End files.

(** ** Disabled hooks *)

(** A name that a line of the file can hold. *)
Definition hook_line (n : text) : Prop :=
  n ≠ [] ∧ clean_line n ∧ trim n = n ∧ starts_with (txt "#") n = false ∧ utf8_valid n = true.

(** A file that is missing, or a text whose lines are all ended. *)
Definition list_file (file : option text) : Prop :=
  match file with None => True | Some c => utf8_valid c = true ∧ lf_text c end.

Definition disabled_lines (file : option text) : list text := lines (default [] file).

Lemma list_file_readable file : list_file file → readable file = file.
Proof. destruct file as [c|]; [|done]. intros [Hv _]. cbn. by rewrite Hv. Qed.

Lemma disabled_in_lines m file :
  list_file file → is_hook_disabled_in m file = any_b (names_hook m) (disabled_lines file).
Proof. intros Hf. unfold is_hook_disabled_in. rewrite list_file_readable by done. by destruct file. Qed.

Lemma disabled_unlines m ls :
  Forall clean_line ls → utf8_valid (unlines ls) = true →
  is_hook_disabled_in m (Some (unlines ls)) = any_b (names_hook m) ls.
Proof.
  intros Hc Hv. rewrite disabled_in_lines by (split; [done|by apply unlines_lf_text]).
  unfold disabled_lines. change (default [] (Some (unlines ls))) with (unlines ls). by rewrite lines_unlines.
Qed.

Lemma names_hook_line m n : hook_line n → names_hook m n = bool_decide (n = m).
Proof.
  intros (Hne & _ & Ht & Hh & _). unfold names_hook. rewrite Ht, Hh.
  rewrite bool_decide_false by done. by cbn.
Qed.

Lemma unlines_valid ls : utf8_valid (unlines ls) = true ↔ Forall (λ l, utf8_valid l = true) ls.
Proof.
  induction ls as [|l ls IH]; [done|]. rewrite unlines_cons, Forall_cons, <- IH, <- (assoc_L (++)). split.
  - intros Hv. apply valid_split in Hv as [Hl Hv]; [|done]. by rewrite (utf8_valid_app [LF]) in Hv.
  - intros [? ?]. apply valid_app; [done|]. by apply (valid_app [LF]).
Qed.

Lemma any_b_filter_other m n ls :
  m ≠ n → any_b (names_hook m) (filter_b (λ l, negb (names_hook n l)) ls) = any_b (names_hook m) ls.
Proof.
  intros Hne. unfold any_b, filter_b. induction ls as [|l ls IH]; [done|]. cbn [List.filter existsb].
  destruct (names_hook n l) eqn:En; cbn [negb]; [|cbn [existsb]; by rewrite IH].
  assert (names_hook m l = false) as ->; [|exact IH].
  unfold names_hook in *. breflect. subst n. by rewrite (bool_decide_false (trim l = m)), andb_false_r.
Qed.

Lemma any_b_filter_same n ls : any_b (names_hook n) (filter_b (λ l, negb (names_hook n l)) ls) = false.
Proof. induction ls as [|l ls IH]; [done|]. cbn. destruct (names_hook n l) eqn:En; cbn; [|rewrite En]; exact IH. Qed.

Lemma filter_b_Forall {A} (P : A → Prop) p l : Forall P l → Forall P (filter_b p l).
Proof. rewrite !Forall_forall. setoid_rewrite elem_of_filter_b. naive_solver. Qed.

(** The files as their lines. *)
Lemma list_file_lines file :
  list_file file → default [] file = unlines (disabled_lines file) ∧ Forall clean_line (disabled_lines file)
  ∧ Forall (λ l, utf8_valid l = true) (disabled_lines file).
Proof.
  intros Hf. unfold disabled_lines. destruct file as [c|]; [|by cbn; split_and!].
  destruct Hf as [Hv Hl]. change (default [] (Some c)) with c. destruct (lf_text_lines c Hl) as [Hc Hu].
  split_and!; [done|done|]. apply unlines_valid. by rewrite Hu.
Qed.

Lemma disable_lines n file :
  hook_line n → list_file file →
  list_file (disable_hook_in n file)
  ∧ disabled_lines (disable_hook_in n file)
    = if is_hook_disabled_in n file then disabled_lines file else disabled_lines file ++ [n].
Proof.
  intros (Hne & Hc & Ht & Hh & Hv) Hf. unfold disable_hook_in.
  destruct (is_hook_disabled_in n file); [done|].
  destruct (list_file_lines file Hf) as (Hd & Hcl & Hvl).
  assert (default [] file ++ n ++ [LF] = unlines (disabled_lines file ++ [n])) as Heq.
  { rewrite unlines_app, <- Hd. f_equal. unfold unlines. cbn. by rewrite app_nil_r. }
  rewrite Heq. assert (Forall clean_line (disabled_lines file ++ [n])) as Hcl' by (apply Forall_app; by rewrite Forall_singleton).
  split; [split|].
  - apply unlines_valid, Forall_app. by rewrite Forall_singleton.
  - by apply unlines_lf_text.
  - unfold disabled_lines at 1. simpl default. by rewrite lines_unlines.
Qed.

(** Disabling a hook disables it and no other; enabling it then finds it, enables it and
    changes no other; in a file whose lines are all ended. *)
Theorem disabled_roundtrip n file (Hn : hook_line n) (Hf : list_file file) :
  let disabled := disable_hook_in n file in
  let '(found, enabled_again) := enable_hook_in n disabled in
  is_hook_disabled_in n disabled = true ∧ found = Some true
  ∧ is_hook_disabled_in n enabled_again = false
  ∧ ∀ m, m ≠ n → is_hook_disabled_in m disabled = is_hook_disabled_in m file
                 ∧ is_hook_disabled_in m enabled_again = is_hook_disabled_in m file.
Proof.
  cbn zeta. destruct (disable_lines n file Hn Hf) as [Hf' Hl].
  pose proof (λ m, disabled_in_lines m file Hf) as Hin. pose proof (λ m, disabled_in_lines m _ Hf') as Hin'.
  assert (is_hook_disabled_in n (disable_hook_in n file) = true) as Hdis.
  { rewrite Hin', Hl, Hin. destruct (any_b (names_hook n) (disabled_lines file)) eqn:E; [done|].
    unfold any_b in *. rewrite existsb_app. cbn. rewrite names_hook_line, bool_decide_true by done.
    by rewrite orb_true_r. }
  assert (∀ m, m ≠ n → is_hook_disabled_in m (disable_hook_in n file) = is_hook_disabled_in m file) as Hoth.
  { intros m Hm. rewrite Hin', Hl, (Hin m). destruct (is_hook_disabled_in n file); [done|].
    unfold any_b. rewrite existsb_app. cbn. rewrite names_hook_line, bool_decide_false by done.
    by rewrite orb_false_r. }
  destruct (list_file_lines _ Hf') as (Hd' & Hcl & Hvl).
  destruct (disable_hook_in n file) as [c|] eqn:Ec; [|done].
  assert (readable (Some c) = Some c) as Hr by (by apply list_file_readable).
  unfold enable_hook_in. rewrite Hr. change (lines c) with (disabled_lines (Some c)).
  rewrite <- Hin', Hdis.
  assert (∀ m, is_hook_disabled_in m (Some (unlines (filter_b (λ l, negb (names_hook n l)) (disabled_lines (Some c)))))
    = any_b (names_hook m) (filter_b (λ l, negb (names_hook n l)) (disabled_lines (Some c)))) as Hen.
  { intros m. apply disabled_unlines; [by apply filter_b_Forall|]. apply unlines_valid. by apply filter_b_Forall. }
  split_and!; [done|done| |].
  - rewrite Hen. apply any_b_filter_same.
  - intros m Hm. split; [by apply Hoth|]. rewrite Hen, any_b_filter_other, <- Hin' by done. by apply Hoth.
Qed.

(** A last line that is not ended swallows the name that is appended: neither hook is
    disabled any more. *)
Theorem disable_joins_lines :
  let file := Some (txt "global/a") in
  is_hook_disabled_in (txt "global/a") file = true
  ∧ disable_hook_in (txt "global/b") file = Some (txt "global/aglobal/b" ++ [LF])
  ∧ is_hook_disabled_in (txt "global/a") (disable_hook_in (txt "global/b") file) = false
  ∧ is_hook_disabled_in (txt "global/b") (disable_hook_in (txt "global/b") file) = false.
Proof. by vm_compute. Qed.

(** ** At concrete inputs *)

Lemma hook_file_exact_witness :
  (file_events demo_fields).*1 = [PreToolUse; Stop]
  ∧ length (filter_b (of_event PreToolUse) (fst (parse_hook_file [] (txt "/w/hooks/a.json")))) = 1
  ∧ filter_b (of_event SubagentStop) (fst (parse_hook_file [] (txt "/w/hooks/a.json"))) = [].
Proof.
  assert ((file_events demo_fields).*1 = [PreToolUse; Stop]) as Hev by (by vm_compute).
  destruct (hook_file_exact [] (txt "/w/hooks/a.json") (JObject [(txt "hooks", JObject demo_fields)])
    demo_fields demo_order eq_refl) as [Hin Hout].
  - reflexivity.
  - unfold readable_groups, demo_fields.
    repeat (apply Forall_cons_2; [intros Hk; first [by vm_compute in Hk; destruct Hk|by eexists]|]).
    apply Forall_nil_2.
  - rewrite Hev. by apply (bool_decide_unpack (NoDup [PreToolUse; Stop])).
  - split; [exact Hev|]. split.
    + erewrite Hin; [|left]. by vm_compute.
    + apply Hout. rewrite Hev. by apply (bool_decide_unpack (SubagentStop ∉ [PreToolUse; Stop])).
Defined.

Lemma disabled_roundtrip_witness :
  is_hook_disabled_in (txt "global/a:stop[0].hooks[0]")
    (disable_hook_in (txt "global/a:stop[0].hooks[0]") (Some (txtln "project/b"))) = true
  ∧ is_hook_disabled_in (txt "project/b")
      (disable_hook_in (txt "global/a:stop[0].hooks[0]") (Some (txtln "project/b"))) = true.
Proof.
  assert (hook_line (txt "global/a:stop[0].hooks[0]")) as Hn.
  { split_and!; [done|split; apply (bool_decide_unpack (_ ∉ _)); by vm_compute|by vm_compute..]. }
  assert (list_file (Some (txtln "project/b"))) as Hf.
  { split; [by vm_compute|]. split; [apply (bool_decide_unpack (_ ∉ _)); by vm_compute|right; by vm_compute]. }
  pose proof (disabled_roundtrip _ _ Hn Hf) as Hr. cbn zeta in Hr.
  destruct (enable_hook_in _ _) as [found again]. destruct Hr as (Hd & _ & _ & Ho).
  split; [exact Hd|]. rewrite (proj1 (Ho (txt "project/b") ltac:(done))). by vm_compute.
Defined.
