(* ===== verification/Paths.v ===== *)
(** * Paths

    [ds-paths/src/lib.rs]: absolute and relative UTF-8 paths, over [std::path] on Unix.
    A path is its text; [components] are the parts by which Rust compares, hashes and
    strips paths, and [path_text] is the text that a list of components is collected to.
    The components of a path in a file system without links lead from directory to
    directory ([walk]), which lexical normalisation respects. *)

From S2P Require Import Prelude Text TextProps.

Open Scope nat_scope.

(** ** [std::path] *)

(** The components of a path: the root is the component ["/"]. *)
Notation Components := (list text).

Definition SEP : ascii := "/"%char.
Definition ROOT : text := txt "/".
Definition CUR_DIR : text := txt ".".
Definition PARENT_DIR : text := txt "..".

Definition is_absolute (p : text) : bool := starts_with ROOT p.

(** A piece between slashes that is a component wherever it stands. *)
Definition is_piece (c : text) : bool := negb (bool_decide (c = [])) && negb (bool_decide (c = CUR_DIR)).

(** [Path::components]: a dot counts at the start of a relative path only. *)
Definition components (p : text) : Components :=
  if is_absolute p then ROOT :: filter_b is_piece (split_on SEP p)
  else match split_on SEP p with
       | [] => []
       | first :: rest =>
           (if bool_decide (first = CUR_DIR) then [first] else filter_b is_piece [first])
           ++ filter_b is_piece rest
       end.

(** Components collected into a [PathBuf]. *)
Definition path_text (cs : Components) : text :=
  match cs with
  | c :: cs' => if bool_decide (c = ROOT) then ROOT ++ join_with [SEP] cs' else join_with [SEP] cs
  | [] => []
  end.

(** [Path::join]. *)
Definition path_join (dir p : text) : text :=
  if is_absolute p then p
  else if bool_decide (dir = []) || ends_with SEP dir then dir ++ p
  else dir ++ [SEP] ++ p.

(** [Path::strip_prefix] and [Path::starts_with], on components. *)
Fixpoint strip_components (cs prefix : Components) : option Components :=
  match prefix, cs with
  | [], _ => Some cs
  | a :: prefix', b :: cs' => if decide (a = b) then strip_components cs' prefix' else None
  | _ :: _, [] => None
  end.

Definition path_starts_with (p prefix : text) : bool :=
  bool_decide (is_Some (strip_components (components p) (components prefix))).

(** ** lib.rs *)

(** [to_relative_path]. *)
Definition to_relative_path (root abs_path : text) : text :=
  match strip_components (components abs_path) (components root) with
  | Some cs => path_text cs
  | None => abs_path
  end.

(** [from_relative_path]. *)
Definition from_relative_path (root rel_path : text) : text :=
  if is_absolute rel_path then rel_path else path_join root rel_path.

(** [Component::Normal]. *)
Definition is_normal (c : text) : bool :=
  negb (bool_decide (c = ROOT)) && negb (bool_decide (c = CUR_DIR)) && negb (bool_decide (c = PARENT_DIR)).

(** The body of the loop of [normalize_lexically]; the components are kept in reverse. *)
Definition normalize_step (acc : Components) (c : text) : Components :=
  if bool_decide (c = CUR_DIR) then acc
  else if bool_decide (c = PARENT_DIR) then
    match acc with
    | l :: acc' => if is_normal l then acc' else if bool_decide (l = ROOT) then acc else c :: acc
    | [] => c :: acc
    end
  else c :: acc.

Definition normalize_components (cs : Components) : Components := reverse (foldl normalize_step [] cs).

Definition normalize_lexically (p : text) : text :=
  match normalize_components (components p) with
  | [] => CUR_DIR
  | cs => path_text cs
  end.

Inductive PathError := NotAbsolute (input : text) | NotRelative (input : text) | NotUtf8 (p : text).

(** [AbsPathBuf::new], [AbsPathBuf::contains_path]. *)
Definition AbsPathBuf_new (p : text) : PathError + text :=
  if negb (is_absolute p) then inl (NotAbsolute p)
  else if utf8_valid p then inr p else inl (NotUtf8 p).
Definition contains_path (self p : text) : bool := path_starts_with (normalize_lexically p) self.

(** [RelPathBuf::new]; a [RelPathBuf] is kept as its components. *)
Definition RelPathBuf_new (p : text) : PathError + Components :=
  if is_absolute p then inl (NotRelative p)
  else if utf8_valid p then inr (components p) else inl (NotUtf8 p).

(** [RelPathBuf::from_absolute], [RelPathBuf::to_absolute]. *)
Definition from_absolute (root abs_path : text) : PathError + Components :=
  match strip_components (components abs_path) (components root) with
  | None => inl (NotRelative abs_path)
  | Some cs => RelPathBuf_new (path_text cs)
  end.
Definition to_absolute (rel : Components) (root : text) : text := path_join root (path_text rel).

(** [ToAbsPath for &Path]. *)
Definition to_abs_path (p root : text) : text := if is_absolute p then p else path_join root p.

(** ** Components and texts *)

(** The components that a path can have. *)
Definition is_name (c : text) : Prop := c ≠ [] ∧ c ≠ CUR_DIR ∧ SEP ∉ c.
Definition is_path (cs : Components) : Prop :=
  Forall is_name cs ∨ ∃ c cs', cs = c :: cs' ∧ (c = ROOT ∨ c = CUR_DIR) ∧ Forall is_name cs'.

Lemma split_on_free c s p : p ∈ split_on c s → c ∉ p.
Proof.
  revert p. induction s as [|a s IH]; intros p; cbn [split_on].
  { intros ->%list_elem_of_singleton. apply not_elem_of_nil. }
  case_decide as Ha.
  - intros [->|Hp]%elem_of_cons; [apply not_elem_of_nil|by apply IH].
  - destruct (split_on c s) as [|q qs].
    { intros ->%list_elem_of_singleton [->|[]%elem_of_nil]%elem_of_cons. done. }
    intros [->|Hp]%elem_of_cons; [|apply IH; by right].
    intros [->|Hq]%elem_of_cons; [done|]. by apply (IH q); [left|].
Qed.

Lemma split_on_app c p s : c ∉ p → split_on c (p ++ c :: s) = p :: split_on c s.
Proof.
  induction p as [|a p IH]; intros Hp; cbn; [by rewrite decide_True|].
  apply not_elem_of_cons in Hp as [Ha Hp]. rewrite decide_False by done. by rewrite IH.
Qed.
Lemma split_on_one c p : c ∉ p → split_on c p = [p].
Proof.
  induction p as [|a p IH]; intros Hp; [done|]. apply not_elem_of_cons in Hp as [Ha Hp].
  cbn. rewrite decide_False by done. by rewrite IH.
Qed.

Lemma split_on_join c ps : ps ≠ [] → Forall (λ p, c ∉ p) ps → split_on c (join_with [c] ps) = ps.
Proof.
  intros Hne Hps. induction Hps as [|p ps Hp Hps IH]; [done|]. destruct ps as [|q ps].
  - by apply split_on_one.
  - change (join_with [c] (p :: q :: ps)) with (p ++ c :: join_with [c] (q :: ps)).
    rewrite split_on_app by done. by rewrite IH.
Qed.

Lemma is_piece_name c : SEP ∉ c → is_piece c = true ↔ is_name c.
Proof.
  intros Hc. unfold is_piece, is_name. rewrite andb_true_iff, !negb_true_iff, !bool_decide_eq_false. tauto.
Qed.

Lemma pieces_names (ps : list text) : Forall (λ p, SEP ∉ p) ps → Forall is_name (filter_b is_piece ps).
Proof.
  rewrite !Forall_forall. intros Hps c. rewrite elem_of_filter_b. intros [Hc Hp].
  by apply is_piece_name; [apply Hps|].
Qed.

Lemma split_free_parts p : Forall (λ q, SEP ∉ q) (split_on SEP p).
Proof. apply Forall_forall. intros q. apply split_on_free. Qed.

Lemma components_path p : is_path (components p).
Proof.
  unfold components. pose proof (split_free_parts p) as Hf. destruct (is_absolute p).
  { right. eexists _, _. split_and!; [done|by left|by apply pieces_names]. }
  destruct (split_on SEP p) as [|c rest]; [by left|]. apply Forall_cons in Hf as [Hc Hf].
  case_bool_decide as Hd.
  - right. eexists _, _. split_and!; [done|by right|by apply pieces_names].
  - left. apply Forall_app. split; apply pieces_names; [by constructor|done].
Qed.

Lemma names_kept ps : Forall is_name ps → filter_b is_piece ps = ps.
Proof.
  intros Hps. apply filter_b_all. intros c Hc. rewrite Forall_forall in Hps.
  apply is_piece_name; [apply Hps, Hc|by apply Hps].
Qed.
Lemma names_free ps : Forall is_name ps → Forall (λ p, SEP ∉ p) ps.
Proof. intros Hps. eapply Forall_impl; [exact Hps|]. by intros c (? & ? & ?). Qed.

Lemma name_relative c s : is_name c → is_absolute (c ++ s) = false.
Proof.
  intros (Hne & _ & Hs). destruct c as [|a c]; [done|]. cbn. rewrite bool_decide_eq_false_2; [done|].
  intros <-. apply Hs. by left.
Qed.

Lemma cons_relative c cs : is_name c ∨ c = CUR_DIR → is_absolute (join_with [SEP] (c :: cs)) = false.
Proof.
  intros Hc. destruct cs as [|d cs]; cbn [join_with].
  - rewrite <- (app_nil_r c). destruct Hc as [Hc| ->]; [by apply name_relative|done].
  - destruct Hc as [Hc| ->]; [by apply name_relative|done].
Qed.

Lemma name_not_root c : is_name c → c ≠ ROOT.
Proof. intros (_ & _ & Hs) ->. apply Hs. by left. Qed.

(** Rendering components and taking them again. *)
Lemma components_text cs : is_path cs → components (path_text cs) = cs.
Proof.
  intros [Hn|(c & cs' & -> & Hc & Hn)].
  - destruct cs as [|c cs]; [done|]. apply Forall_cons in Hn as [Hc Hn]. cbn [path_text].
    rewrite bool_decide_eq_false_2 by (by apply name_not_root). unfold components.
    rewrite cons_relative by (by left).
    rewrite split_on_join by (try done; apply names_free; by constructor).
    rewrite bool_decide_eq_false_2 by apply Hc. by rewrite <- filter_b_app, names_kept by (by constructor).
  - cbn [path_text]. destruct Hc as [-> | ->].
    + rewrite bool_decide_eq_true_2 by done. unfold components. cbn [app is_absolute ROOT starts_with txt].
      change (is_absolute (ROOT ++ join_with [SEP] cs')) with true. cbv iota. f_equal.
      change (ROOT ++ join_with [SEP] cs') with ([] ++ SEP :: join_with [SEP] cs').
      rewrite split_on_app by apply not_elem_of_nil.
      change (filter_b is_piece ([] :: ?l)) with (filter_b is_piece l).
      destruct cs' as [|d cs']; [done|].
      rewrite split_on_join by (try done; by apply names_free). by apply names_kept.
    + rewrite bool_decide_eq_false_2 by done. unfold components. rewrite cons_relative by (by right).
      rewrite split_on_join; [|done|constructor; [by intros [[=]|[]%elem_of_nil]%elem_of_cons|by apply names_free]].
      rewrite bool_decide_eq_true_2 by done. cbn. f_equal. by apply names_kept.
Qed.

(** ** Stripping and joining *)

Lemma strip_components_app pre cs : strip_components (pre ++ cs) pre = Some cs.
Proof. induction pre as [|a pre IH]; [by destruct cs|]. cbn. by rewrite decide_True. Qed.

Lemma strip_components_Some cs pre r : strip_components cs pre = Some r ↔ cs = pre ++ r.
Proof.
  split; [|intros ->; apply strip_components_app].
  revert cs. induction pre as [|a pre IH]; intros cs; [by destruct cs; intros H; simplify_eq/=|].
  destruct cs as [|b cs]; [done|]. cbn. case_decide; [|done]. subst. intros H. cbn. f_equal. by apply IH.
Qed.

(** Texts without redundant slashes and dots. *)
Definition clean (p : text) : bool := bool_decide (path_text (components p) = p).

Lemma join_with_app sep ps qs :
  ps ≠ [] → qs ≠ [] → join_with sep (ps ++ qs) = join_with sep ps ++ sep ++ join_with sep qs.
Proof.
  intros Hp Hq. induction ps as [|p ps IH]; [done|]. destruct ps as [|p' ps].
  - by destruct qs.
  - cbn [join_with app] in IH |- *. rewrite IH by done. by rewrite <- !app_assoc.
Qed.

Lemma join_last c ps : Forall is_name ps → ps ≠ [] → c = SEP → last (join_with [c] ps) ≠ Some c.
Proof.
  intros Hps Hne ->. destruct (exists_last Hne) as (qs & p & ->). apply Forall_app in Hps as [_ Hp].
  apply Forall_singleton in Hp as (Hp & _ & Hf).
  assert (last (join_with [SEP] (qs ++ [p])) = last p) as ->.
  { destruct qs as [|q qs]; [done|]. rewrite join_with_app by done. cbn [join_with].
    rewrite app_assoc, last_app. by destruct (last p) eqn:E; [|apply last_None in E]. }
  intros Hl. apply last_Some in Hl as [p' ->]. apply Hf. set_solver.
Qed.

Lemma join_relative cs : Forall is_name cs → is_absolute (join_with [SEP] cs) = false.
Proof.
  destruct cs as [|c cs]; [done|]. intros [Hc _]%Forall_cons. apply cons_relative. by left.
Qed.

Lemma path_text_names cs : Forall is_name cs → path_text cs = join_with [SEP] cs.
Proof.
  destruct cs as [|c cs]; [done|]. intros [Hc _]%Forall_cons. cbn [path_text].
  by rewrite bool_decide_eq_false_2 by (by apply name_not_root).
Qed.

Lemma join_names_nil cs : Forall is_name cs → cs ≠ [] → join_with [SEP] cs ≠ [].
Proof.
  intros Hcs Hne. destruct Hcs as [|c cs Hc Hcs]; [done|]. destruct cs; cbn; [by apply Hc|].
  destruct c; [by destruct Hc|done].
Qed.

(** Joining a root and the components under it. *)
Lemma join_components ns cs :
  Forall is_name ns → Forall is_name cs → cs ≠ [] →
  path_join (path_text (ROOT :: ns)) (path_text cs) = path_text (ROOT :: ns ++ cs).
Proof.
  intros Hns Hcs Hne. rewrite (path_text_names cs) by done. cbn [path_text].
  rewrite !bool_decide_eq_true_2 by done. unfold path_join. rewrite join_relative by done.
  destruct (decide (ns = [])) as [->|Hn]; [done|].
  rewrite bool_decide_eq_false_2 by (by destruct (join_with [SEP] ns)).
  cbn [orb].
  destruct (ends_with SEP _) eqn:He.
  { exfalso. apply ends_with_spec in He as [s' He]. apply (f_equal last) in He. rewrite last_snoc, last_app in He.
    destruct (last (join_with [SEP] ns)) eqn:El; [by simplify_eq; eapply (join_last SEP ns)|].
    apply last_None in El. by apply (join_names_nil ns). }
  rewrite join_with_app by done. by rewrite <- !app_assoc.
Qed.

(** An absolute path is the root with names. *)
Lemma components_absolute p :
  is_absolute p = true → ∃ ns, components p = ROOT :: ns ∧ Forall is_name ns.
Proof.
  intros Hp. unfold components. rewrite Hp. eexists. split; [done|]. apply pieces_names, split_free_parts.
Qed.

(** What a relative path under a root is. *)
Lemma from_absolute_inr root p rel :
  is_absolute root = true → from_absolute root p = inr rel →
  components p = components root ++ rel ∧ Forall is_name rel ∧ utf8_valid (path_text rel) = true.
Proof.
  intros Hr. unfold from_absolute, RelPathBuf_new.
  destruct (strip_components _ _) as [cs|] eqn:Hs; [|done]. apply strip_components_Some in Hs.
  destruct (components_absolute root Hr) as (ns & Hns & _).
  assert (Forall is_name cs) as Hcs.
  { pose proof (components_path p) as Hp. rewrite Hs, Hns in Hp.
    destruct Hp as [Hp|(c & cs' & Heq & _ & Hp)]; [|simplify_eq/=].
    - apply Forall_cons in Hp as [(_ & _ & Hp) _]. exfalso. apply Hp. by left.
    - by apply Forall_app in Hp as [_ Hp]. }
  rewrite (path_text_names cs), join_relative by done. destruct (utf8_valid _) eqn:Hu; [|done].
  intros [= <-]. rewrite <- path_text_names in Hu |- * by done.
  rewrite components_text by (by left). by rewrite Hs.
Qed.

(** Going to a relative path under a root and back. *)
Lemma from_to_absolute root p rel :
  is_absolute root = true → clean root = true → clean p = true → rel ≠ [] →
  from_absolute root p = inr rel → to_absolute rel root = p.
Proof.
  intros Hr Hcr Hcp Hne Hrel. apply from_absolute_inr in Hrel as (Hp & Hrel & _); [|done].
  destruct (components_absolute root Hr) as (ns & Hns & Hnames).
  apply bool_decide_eq_true in Hcr as Hroot. apply bool_decide_eq_true in Hcp.
  unfold to_absolute. rewrite <- Hroot, Hns, join_components by done.
  rewrite <- Hcp. by rewrite Hp, Hns.
Qed.

(** ** Lexical normalisation *)

(** The directory that a path leads to in a tree without links, as the names on the way
    to it from the last, starting in the directory [st]. *)
Definition walk_step (st : list text) (c : text) : list text :=
  if bool_decide (c = ROOT) then []
  else if bool_decide (c = CUR_DIR) then st
  else if bool_decide (c = PARENT_DIR) then tail st
  else c :: st.
Definition walk (st : list text) (cs : Components) : list text := foldl walk_step st cs.

Lemma name_normal c : is_name c → c ≠ PARENT_DIR → is_normal c = true.
Proof.
  intros Hc Hp. unfold is_normal. rewrite (bool_decide_eq_false_2 (c = ROOT)) by (by apply name_not_root).
  rewrite (bool_decide_eq_false_2 (c = CUR_DIR)) by apply Hc. by rewrite bool_decide_eq_false_2.
Qed.
Lemma walk_name st c : is_name c → c ≠ PARENT_DIR → walk_step st c = c :: st.
Proof.
  intros Hc Hp. unfold walk_step. rewrite (bool_decide_eq_false_2 (c = ROOT)) by (by apply name_not_root).
  rewrite (bool_decide_eq_false_2 (c = CUR_DIR)) by apply Hc. by rewrite bool_decide_eq_false_2.
Qed.

Lemma normalize_step_walk st acc c :
  walk st (reverse (normalize_step acc c)) = walk_step (walk st (reverse acc)) c.
Proof.
  assert (∀ l, walk st (reverse (l :: acc)) = walk_step (walk st (reverse acc)) l) as Hcons.
  { intros l. unfold walk. by rewrite reverse_cons, foldl_snoc. }
  unfold normalize_step. case_bool_decide as Hc; [by subst|]. case_bool_decide as Hp; [|apply Hcons].
  subst c. destruct acc as [|l acc']; [apply Hcons|].
  assert (walk st (reverse (l :: acc')) = walk_step (walk st (reverse acc')) l) as Hl.
  { unfold walk. by rewrite reverse_cons, foldl_snoc. }
  destruct (is_normal l) eqn:Hn.
  - rewrite Hl. unfold is_normal in Hn. breflect. unfold walk_step.
    by rewrite !(bool_decide_eq_false_2 (l = _)), !(bool_decide_eq_false_2 (PARENT_DIR = _)) by done.
  - case_bool_decide as Hroot; [|apply Hcons]. subst l. rewrite Hl. done.
Qed.

(** Normalisation keeps where a path leads, from every directory. *)
Theorem normalize_keeps_target st cs : walk st (normalize_components cs) = walk st cs.
Proof.
  unfold normalize_components. induction cs as [|c cs IH] using rev_ind; [done|].
  rewrite foldl_snoc, normalize_step_walk, IH. unfold walk. by rewrite foldl_snoc.
Qed.

Lemma normalize_absolute ns :
  Forall is_name ns →
  ∃ ms, normalize_components (ROOT :: ns) = ROOT :: ms ∧ Forall (λ c, is_name c ∧ c ≠ PARENT_DIR) ms.
Proof.
  intros Hns. unfold normalize_components.
  assert (∃ ms, foldl normalize_step [] (ROOT :: ns) = ms ++ [ROOT]
          ∧ Forall (λ c, is_name c ∧ c ≠ PARENT_DIR) ms) as (ms & -> & Hms).
  { induction ns as [|c ns IH] using rev_ind; [by exists []|].
    apply Forall_app in Hns as [Hns [Hc _]%Forall_cons]. destruct (IH Hns) as (ms & Hf & Hms).
    change (foldl normalize_step [] (ROOT :: ns ++ [c])) with (foldl normalize_step [] ((ROOT :: ns) ++ [c])).
    rewrite foldl_snoc, Hf. unfold normalize_step.
    rewrite (bool_decide_eq_false_2 (c = CUR_DIR)) by apply Hc.
    case_bool_decide as Hp; [|exists (c :: ms); split; [done|by constructor]].
    destruct ms as [|m ms]; [by exists []|]. apply Forall_cons in Hms as [[Hm Hmp] Hms].
    exists ms. split; [|done]. cbn [app]. by rewrite name_normal. }
  exists (reverse ms). rewrite reverse_snoc. split; [done|]. by apply Forall_reverse.
Qed.

(** A path that an absolute path contains leads to a place below it. *)
Theorem contains_path_sound (self p : text) :
  is_absolute self = true → is_absolute p = true → contains_path self p = true →
  ∃ below, walk [] (components p) = below ++ walk [] (components self).
Proof.
  intros Hs Hp. unfold contains_path, path_starts_with. rewrite bool_decide_eq_true. intros [r Hr].
  apply strip_components_Some in Hr. destruct (components_absolute p Hp) as (ns & Hns & Hnames).
  destruct (normalize_absolute ns Hnames) as (ms & Hn & Hms).
  assert (components (normalize_lexically p) = ROOT :: ms) as Hc.
  { unfold normalize_lexically. rewrite Hns, Hn. apply components_text. right. eexists _, _.
    split_and!; [done|by left|]. eapply Forall_impl; [exact Hms|]. by intros c []. }
  rewrite Hc in Hr. destruct (components_absolute self Hs) as (ss & Hss & _).
  rewrite Hss in Hr |- *. injection Hr as ->. apply Forall_app in Hms as [_ Hms].
  rewrite <- normalize_keeps_target, Hns, Hn. exists (reverse r). unfold walk.
  change (ROOT :: ss ++ r) with ((ROOT :: ss) ++ r). rewrite foldl_app.
  clear Hn Hc. generalize (foldl walk_step [] (ROOT :: ss)). intros st. induction r as [|c r IH] using rev_ind; [done|].
  apply Forall_app in Hms as [Hr [[Hc' Hpar] _]%Forall_cons]. rewrite foldl_snoc, IH by done.
  rewrite reverse_snoc. by apply walk_name.
Qed.

(** The components below a root. *)
Lemma components_to_absolute root rel :
  is_absolute root = true → clean root = true → Forall is_name rel → rel ≠ [] →
  components (to_absolute rel root) = components root ++ rel.
Proof.
  intros Hr Hc Hrel Hne. destruct (components_absolute root Hr) as (ns & Hns & Hnames).
  apply bool_decide_eq_true in Hc. unfold to_absolute. rewrite <- Hc, Hns, join_components by done.
  rewrite components_text; [|right; eexists _, _; split_and!; [done|by left|by apply Forall_app]].
  rewrite components_text; [done|]. right. eexists _, _. split_and!; [done|by left|done].
Qed.
