(* ===== verification/SessionLog.v ===== *)
(** * The log of a session

    The updates in [updates.jsonl], which is only appended to: a rewind adds a marker, a
    compaction adds a reference to a checkpoint file.  Its readers:
    [ds-shell/src/session/helpers/replay.rs] rebuilds the conversation at an earlier
    prompt; of [ds-shell/src/session/storage/mod.rs], the filter of undone updates, the
    cut at a prompt and the texts of the prompts.  Of
    [ds-sampling-types/src/conversation.rs], the cut of a conversation at a prompt.

    An update is what [serde_json] reads from a line, a line that it cannot read is
    [None].  The bytes of a checkpoint file and their meaning are the class
    [CheckpointFiles].  A slice that panics is [None]. *)

From S2P Require Import Prelude Text Conversation Paths.

Open Scope nat_scope.

(** ** conversation.rs: the cut of a conversation *)

Definition marked_index (item : ConversationItem) : option nat :=
  match item with User u => user_prompt_index u | _ => None end.

(** The index of an unmarked user item, and whether the preamble has been seen. *)
Definition unmarked_index (u : UserItem) (next : nat) (seen_preamble : bool) : option nat * bool :=
  match synthetic_reason u with
  | None => if seen_preamble then (Some next, true) else (None, true)
  | Some reason => (if starts_prompt_turn reason then Some next else None, seen_preamble)
  end.

Fixpoint truncate_markers_only (target i : nat) (items : list ConversationItem) : nat :=
  match items with
  | [] => i
  | item :: rest =>
      match marked_index item with
      | Some idx => if target <=? idx then i else truncate_markers_only target (S i) rest
      | None => truncate_markers_only target (S i) rest
      end
  end.

Fixpoint truncate_legacy (target next : nat) (seen_preamble : bool) (i : nat)
    (items : list ConversationItem) : nat :=
  match items with
  | [] => i
  | User u :: rest =>
      let '(effective, seen_preamble) := unmarked_index u next seen_preamble in
      match effective with
      | Some idx =>
          if target <=? idx then i else truncate_legacy target (S idx) seen_preamble (S i) rest
      | None => truncate_legacy target next seen_preamble (S i) rest
      end
  | _ :: rest => truncate_legacy target next seen_preamble (S i) rest
  end.

Fixpoint count_legacy_turns (turns : nat) (seen_preamble : bool) (items : list ConversationItem) : nat :=
  match items with
  | [] => turns
  | User u :: rest =>
      if bool_decide (is_Some (user_prompt_index u)) then turns
      else
        let '(effective, seen_preamble) := unmarked_index u turns seen_preamble in
        count_legacy_turns (if effective then S turns else turns) seen_preamble rest
  | _ :: rest => count_legacy_turns turns seen_preamble rest
  end.

Fixpoint truncate_progressive (target next : nat) (seen_preamble seen_marker : bool) (i : nat)
    (items : list ConversationItem) : nat :=
  match items with
  | [] => i
  | User u :: rest =>
      match user_prompt_index u with
      | Some idx =>
          if target <=? idx then i
          else truncate_progressive target next seen_preamble true (S i) rest
      | None =>
          if seen_marker then truncate_progressive target next seen_preamble true (S i) rest
          else
            let '(effective, seen_preamble) := unmarked_index u next seen_preamble in
            match effective with
            | Some idx =>
                if target <=? idx then i
                else truncate_progressive target (S idx) seen_preamble false (S i) rest
            | None => truncate_progressive target next seen_preamble false (S i) rest
            end
      end
  | _ :: rest => truncate_progressive target next seen_preamble seen_marker (S i) rest
  end.

Definition conversation_truncate_for_prompt (items : list ConversationItem) (target : nat) : nat :=
  match head (omap marked_index items) with
  | None => truncate_legacy target 0 false 0 items
  | Some first_marker =>
      if count_legacy_turns 0 false items =? first_marker
      then truncate_progressive target 0 false false 0 items
      else truncate_markers_only target 0 items
  end.

(** ** Updates *)

(** A block of text with [_meta.bashCommand], or something else. *)
Inductive ContentBlock := TextBlock (t : text) (bash_command : bool) | OtherBlock.

Record ContentChunk := mkChunk {
  chunk_content : ContentBlock;
  chunk_prompt_index : option nat;
}.

Record CompactionCheckpointInfo := mkCheckpointInfo {
  prompt_index_at_compaction : nat;
  checkpoint_file : text;
  auto_continue : option text;
}.

Inductive AcpUpdate :=
| UserMessageChunk (chunk : ContentChunk)
| AgentMessageChunk (chunk : ContentChunk)
| OtherAcp.

Inductive DsUpdate :=
| CheckpointUpdate (info : CompactionCheckpointInfo)
| RewindMarker (target : nat)
| OtherDs.

Inductive SessionUpdate := Acp (update : AcpUpdate) | Ds (update : DsUpdate).

Record CompactionCheckpointFile := mkCheckpointFile {
  compacted_history : list ConversationItem;
  schema_version : nat;
  file_original_user_info : option text;
}.

(** [std::fs::read]. *)
Inductive ReadResult := ReadBytes (bytes : text) | ReadNotFound | ReadFailed (error : text).

Class CheckpointFiles := {
  checkpoint_bytes : text → ReadResult;
  checkpoint_from_slice : text → text + CompactionCheckpointFile;
  is_valid_data_uri_image : text → bool;
}.

(** ** storage/mod.rs: turns of a log *)

Definition chunk_of (update : SessionUpdate) : option ContentChunk :=
  match update with Acp (UserMessageChunk chunk) => Some chunk | _ => None end.

Record UserRunTurnTracker := mkRuns {
  seen_marker : bool;
  in_user : bool;
  current_run_pi : option nat;
}.

Definition runs_new : UserRunTurnTracker := mkRuns false false None.

(** Whether a user chunk opens a new run. *)
Definition opens_run (pi : option nat) (seen_marker in_user : bool) (current_run_pi : option nat) : bool :=
  if negb in_user then true
  else if seen_marker || bool_decide (is_Some pi) then bool_decide (pi ≠ current_run_pi)
  else false.

Definition on_user_chunk (pi : option nat) (tr : UserRunTurnTracker) : bool * UserRunTurnTracker :=
  let seen := bool_decide (is_Some pi) || seen_marker tr in
  let counts := if seen then bool_decide (is_Some pi) else true in
  if opens_run pi seen (in_user tr) (current_run_pi tr) then (counts, mkRuns seen true pi)
  else (false, mkRuns seen true (current_run_pi tr)).

Definition on_non_user (tr : UserRunTurnTracker) : UserRunTurnTracker := mkRuns (seen_marker tr) false None.

(** Whether the update opens a turn, with the tracker after it. *)
Definition track (update : SessionUpdate) (tr : UserRunTurnTracker) : bool * UserRunTurnTracker :=
  match chunk_of update with
  | Some chunk => on_user_chunk (chunk_prompt_index chunk) tr
  | None => (false, on_non_user tr)
  end.

Fixpoint updates_truncate_loop (target count i : nat) (tr : UserRunTurnTracker)
    (updates : list SessionUpdate) : nat :=
  match updates with
  | [] => i
  | update :: rest =>
      let '(opens, tr) := track update tr in
      if opens then
        if target + 1 <? S count then i else updates_truncate_loop target (S count) (S i) tr rest
      else updates_truncate_loop target count (S i) tr rest
  end.

Definition updates_truncate_for_prompt (updates : list SessionUpdate) (target : nat) : nat :=
  updates_truncate_loop target 0 0 runs_new updates.

Fixpoint filter_rewind_loop (updates result : list SessionUpdate) (prompt_starts : list nat)
    (tr : UserRunTurnTracker) : list SessionUpdate :=
  match updates with
  | [] => result
  | Ds (RewindMarker target) :: rest =>
      let trunc := default (length result) (prompt_starts !! target) in
      filter_rewind_loop rest (take trunc result) (take target prompt_starts) (on_non_user tr)
  | update :: rest =>
      let '(opens, tr) := track update tr in
      filter_rewind_loop rest (result ++ [update])
        (if opens then prompt_starts ++ [length result] else prompt_starts) tr
  end.

Definition is_rewind (update : SessionUpdate) : bool :=
  match update with Ds (RewindMarker _) => true | _ => false end.

Definition filter_rewind_updates (updates : list SessionUpdate) : list SessionUpdate :=
  if any_b is_rewind updates then filter_rewind_loop updates [] [] runs_new else updates.

(** ** storage/mod.rs: the texts of the prompts *)

Inductive PromptExtractEvent :=
| UserTextChunk (t : text) (prompt_index : option nat)
| RewindTo (target : nat)
| NotUserMessage.

(** [parse_prompt_extract_event] on the line of an update. *)
Definition prompt_extract_event (update : SessionUpdate) : PromptExtractEvent :=
  match update with
  | Acp (UserMessageChunk (mkChunk (TextBlock t false) pi)) => UserTextChunk t pi
  | Ds (RewindMarker target) => RewindTo target
  | _ => NotUserMessage
  end.

Record Collector := mkCollector {
  prompts : list text;
  current : text;
  col_in_user : bool;
  col_run_pi : option nat;
  current_counts : bool;
  col_seen_marker : bool;
}.

Definition collector_new : Collector := mkCollector [] [] false None false false.

Definition flush_prompt (c : Collector) : Collector :=
  if col_in_user c then
    let trimmed := trim (current c) in
    let ps := if current_counts c && bool_decide (trimmed ≠ []) then prompts c ++ [trimmed] else prompts c in
    mkCollector ps [] false None false (col_seen_marker c)
  else c.

Definition collect_event (c : Collector) (e : PromptExtractEvent) : Collector :=
  match e with
  | UserTextChunk t pi =>
      let seen := bool_decide (is_Some pi) || col_seen_marker c in
      let counts := if seen then bool_decide (is_Some pi) else true in
      if opens_run pi seen (col_in_user c) (col_run_pi c) then
        let c := flush_prompt c in
        mkCollector (prompts c) (current c ++ t) true pi counts seen
      else
        let adopts := bool_decide (col_run_pi c = None) && bool_decide (is_Some pi) in
        mkCollector (prompts c) (current c ++ t) (col_in_user c)
          (if adopts then pi else col_run_pi c) (adopts || current_counts c) seen
  | RewindTo target =>
      let c := flush_prompt c in
      mkCollector (take target (prompts c)) (current c) (col_in_user c) (col_run_pi c)
        (current_counts c) (col_seen_marker c)
  | NotUserMessage => flush_prompt c
  end.

Definition collect_prompts_from_events (events : list PromptExtractEvent) : list text :=
  prompts (flush_prompt (foldl collect_event collector_new events)).

(** ** replay.rs *)

Record ReplayResult := mkReplayResult {
  replayed : list ConversationItem;
  prompt_index_reached : nat;
  result_user_info : option text;
  replay_marker : option nat;
}.

Inductive ReplayAction := Continue | StopReplay.

Record ReplayState := mkReplay {
  rs_conversation : list ConversationItem;
  prompt_counter : nat;
  in_user_message : bool;
  current_user_text : text;
  current_user_prompt_index : option nat;
  seen_prompt_index_marker : bool;
  current_agent_text : text;
  has_pending_agent : bool;
  checkpoint_active : bool;
  checkpoint_base_len : nat;
  checkpoint_prompt_index : nat;
  original_user_info : option text;
}.

Definition replay_new : ReplayState :=
  mkReplay [] 0 false [] None false [] false false 0 0 None.

Definition set_items (items : list ConversationItem) (counter : nat) (st : ReplayState) : ReplayState :=
  mkReplay items counter (in_user_message st) (current_user_text st) (current_user_prompt_index st)
    (seen_prompt_index_marker st) (current_agent_text st) (has_pending_agent st)
    (checkpoint_active st) (checkpoint_base_len st) (checkpoint_prompt_index st)
    (original_user_info st).
Definition set_user (inside : bool) (t : text) (pi : option nat) (st : ReplayState) : ReplayState :=
  mkReplay (rs_conversation st) (prompt_counter st) inside t pi
    (seen_prompt_index_marker st) (current_agent_text st) (has_pending_agent st)
    (checkpoint_active st) (checkpoint_base_len st) (checkpoint_prompt_index st)
    (original_user_info st).
Definition set_seen_marker (st : ReplayState) : ReplayState :=
  mkReplay (rs_conversation st) (prompt_counter st) (in_user_message st) (current_user_text st)
    (current_user_prompt_index st) true (current_agent_text st) (has_pending_agent st)
    (checkpoint_active st) (checkpoint_base_len st) (checkpoint_prompt_index st)
    (original_user_info st).
Definition set_agent (t : text) (pending : bool) (st : ReplayState) : ReplayState :=
  mkReplay (rs_conversation st) (prompt_counter st) (in_user_message st) (current_user_text st)
    (current_user_prompt_index st) (seen_prompt_index_marker st) t pending
    (checkpoint_active st) (checkpoint_base_len st) (checkpoint_prompt_index st)
    (original_user_info st).
Definition set_checkpoint (active : bool) (base_len index : nat) (st : ReplayState) : ReplayState :=
  mkReplay (rs_conversation st) (prompt_counter st) (in_user_message st) (current_user_text st)
    (current_user_prompt_index st) (seen_prompt_index_marker st) (current_agent_text st)
    (has_pending_agent st) active base_len index (original_user_info st).
Definition set_user_info (info : option text) (st : ReplayState) : ReplayState :=
  mkReplay (rs_conversation st) (prompt_counter st) (in_user_message st) (current_user_text st)
    (current_user_prompt_index st) (seen_prompt_index_marker st) (current_agent_text st)
    (has_pending_agent st) (checkpoint_active st) (checkpoint_base_len st)
    (checkpoint_prompt_index st) info.

(** [is_none()] guards the assignment. *)
Definition adopt_user_info (info : option text) (st : ReplayState) : ReplayState :=
  match original_user_info st with None => set_user_info info st | Some _ => st end.

(** [ConversationItem::user] with [set_prompt_index], and [ConversationItem::assistant]. *)
Definition marked_user (t : text) (pi : nat) : ConversationItem :=
  User (mkUser [TextPart t] None None (Some pi)).
Definition assistant (t : text) : ConversationItem := Assistant (mkAssistant t [] None None None).

Definition flush_pending_user (st : ReplayState) : ReplayState :=
  let t := current_user_text st in
  match t with
  | [] => set_user (in_user_message st) [] None st
  | _ =>
      let pi := current_user_prompt_index st in
      let st := set_user (in_user_message st) [] None st in
      match pi with
      | Some pi => set_items (rs_conversation st ++ [marked_user t pi]) (S (prompt_counter st)) st
      | None =>
          set_items (rs_conversation st ++ [user_text t])
            (if seen_prompt_index_marker st then prompt_counter st else S (prompt_counter st)) st
      end
  end.

Definition flush_pending_agent (st : ReplayState) : ReplayState :=
  if has_pending_agent st then
    let t := current_agent_text st in
    let st := set_agent [] false st in
    set_items (rs_conversation st ++ [assistant t]) (prompt_counter st) st
  else st.

Definition handle_user_chunk (chunk : ContentChunk) (st : ReplayState) : ReplayState :=
  let pi := chunk_prompt_index chunk in
  let st := if bool_decide (is_Some pi) then set_seen_marker st else st in
  let st :=
    if negb (in_user_message st) then set_user true [] pi (flush_pending_agent st)
    else if bool_decide (pi ≠ current_user_prompt_index st)
            && (bool_decide (is_Some pi) || bool_decide (is_Some (current_user_prompt_index st)))
    then set_user true [] pi (flush_pending_user st)
    else match current_user_prompt_index st with
         | None => set_user (in_user_message st) (current_user_text st) pi st
         | Some _ => st
         end in
  match chunk_content chunk with
  | TextBlock t _ =>
      set_user (in_user_message st) (current_user_text st ++ t) (current_user_prompt_index st) st
  | OtherBlock => st
  end.

Definition handle_agent_chunk (chunk : ContentChunk) (st : ReplayState) : ReplayState :=
  let st :=
    if in_user_message st then
      let st := flush_pending_user st in
      set_user false (current_user_text st) (current_user_prompt_index st) st
    else st in
  match chunk_content chunk with
  | TextBlock t _ => set_agent (current_agent_text st ++ t) true st
  | OtherBlock => st
  end.

Definition conversation_has_markers (st : ReplayState) : bool :=
  seen_prompt_index_marker st
  || any_b (λ i, bool_decide (is_Some (marked_index i))) (rs_conversation st).

Definition truncate_target (target : nat) (st : ReplayState) : nat :=
  if conversation_has_markers st then target else target - 1.

(** [counts_as_replay_turn_progressive]: whether the item counts, and the new flag. *)
Definition counts_as_replay_turn (item : ConversationItem) (seen_marker : bool) : bool * bool :=
  match item with
  | User u =>
      if bool_decide (is_Some (user_prompt_index u)) then (true, true) else (negb seen_marker, seen_marker)
  | _ => (false, seen_marker)
  end.

(** The position, from [i] on, of the turn after [turns_to_keep] turns, or the end. *)
Fixpoint cut_turns (turns_to_keep user_count : nat) (seen_marker : bool) (i : nat)
    (items : list ConversationItem) : nat :=
  match items with
  | [] => i
  | item :: rest =>
      let '(counts, seen_marker) := counts_as_replay_turn item seen_marker in
      if counts then
        if turns_to_keep <? S user_count then i
        else cut_turns turns_to_keep (S user_count) seen_marker (S i) rest
      else cut_turns turns_to_keep user_count seen_marker (S i) rest
  end.

(** The items behind the checkpoint are cut; the slice panics if there is no such place. *)
Definition cut_after_checkpoint (target : nat) (st : ReplayState) : option (list ConversationItem) :=
  let base := checkpoint_base_len st in
  let items := rs_conversation st in
  if base <=? length items then
    Some (take (cut_turns (target - checkpoint_prompt_index st) 0 false base (drop base items)) items)
  else None.

Definition cut_conversation (target : nat) (st : ReplayState) : list ConversationItem :=
  take (conversation_truncate_for_prompt (rs_conversation st) (truncate_target target st))
    (rs_conversation st).

Definition deactivate (st : ReplayState) : ReplayState :=
  set_checkpoint false (checkpoint_base_len st) (checkpoint_prompt_index st) st.

Definition handle_rewind_marker (target : nat) (st : ReplayState) : option ReplayState :=
  let st := set_user false [] None (set_agent [] false st) in
  if prompt_counter st <=? target then Some st
  else if checkpoint_active st && (checkpoint_prompt_index st <=? target) then
    items ← cut_after_checkpoint target st; Some (set_items items target st)
  else if target =? 0 then Some (deactivate (set_items [] target st))
  else
    let st := if checkpoint_active st then deactivate st else st in
    Some (set_items (cut_conversation target st) target st).

Section replay.
Context `{CheckpointFiles}.
Context (session_dir : text).

(** [storage/jsonl/mod.rs]: the images that the API would refuse. *)
Definition invalid_image (part : ContentPart) : bool :=
  match part with
  | ImagePart url => starts_with (txt "data:") url && negb (is_valid_data_uri_image url)
  | TextPart _ => false
  end.

Definition strip_invalid_item (item : ConversationItem) : ConversationItem * nat :=
  match item with
  | User u =>
      (User (set_user_content
               ((λ part, if invalid_image part then TextPart (txt "[image removed — invalid data]") else part)
                  <$> user_content u) u),
       length (filter_b invalid_image (user_content u)))
  | ToolResult t =>
      let kept := filter_b (λ part, negb (invalid_image part)) (tr_images t) in
      (ToolResult (mkToolResult (tool_call_id t) (tr_content t) kept), length (tr_images t) - length kept)
  | _ => (item, 0)
  end.

Definition strip_invalid_images (items : list ConversationItem) : list ConversationItem * nat :=
  ((strip_invalid_item <$> items).*1, sum_list (strip_invalid_item <$> items).*2).

(** The read and the parse of a checkpoint file; [inl] is the text of the error. *)
Definition read_checkpoint (info : CompactionCheckpointInfo) : text + CompactionCheckpointFile :=
  let path := path_join session_dir (checkpoint_file info) in
  match checkpoint_bytes path with
  | ReadNotFound =>
      inl (txt "Compaction checkpoint file missing: " ++ path
           ++ txt ". Cannot safely rewind past the compaction point.")
  | ReadFailed e => inl e
  | ReadBytes bytes =>
      match checkpoint_from_slice bytes with
      | inr file => inr file
      | inl _ =>
          inl (txt "Compaction checkpoint file corrupt: " ++ path
               ++ txt ". Cannot safely rewind past the compaction point.")
      end
  end.

Definition load_checkpoint (info : CompactionCheckpointInfo) (file : CompactionCheckpointFile)
    (st : ReplayState) : ReplayState :=
  let st := adopt_user_info (file_original_user_info file) st in
  let items := (strip_invalid_images (compacted_history file)).1 in
  let at_compaction := prompt_index_at_compaction info in
  let st := set_items items at_compaction st in
  let st := set_checkpoint true (length items) at_compaction st in
  let st := set_user false [] None (set_agent [] false st) in
  match auto_continue info with
  | Some prompt => set_items (rs_conversation st ++ [user_text prompt]) (prompt_counter st) st
  | None => st
  end.

Definition handle_checkpoint (target : nat) (info : CompactionCheckpointInfo) (st : ReplayState)
    : text + (ReplayAction * ReplayState) :=
  match read_checkpoint info with
  | inl e => inl e
  | inr file =>
      if target <? prompt_index_at_compaction info then
        inr (Continue, adopt_user_info (file_original_user_info file) st)
      else if 1 <? schema_version file then
        inl (txt "Unsupported checkpoint schema version " ++ show_Z (Z.of_nat (schema_version file))
             ++ txt ". Cannot safely rewind past the compaction point.")
      else
        let st := load_checkpoint info file st in
        inr (if target <? prompt_counter st then StopReplay else Continue, st)
  end.

(** [None] is a panic. *)
Definition process_update (target : nat) (update : SessionUpdate) (st : ReplayState)
    : option (text + (ReplayAction * ReplayState)) :=
  match update with
  | Ds (CheckpointUpdate info) => Some (handle_checkpoint target info st)
  | Ds (RewindMarker marker_target) =>
      st ← handle_rewind_marker marker_target st; Some (inr (Continue, st))
  | Ds OtherDs => Some (inr (Continue, st))
  | Acp (UserMessageChunk chunk) => Some (inr (Continue, handle_user_chunk chunk st))
  | Acp (AgentMessageChunk chunk) => Some (inr (Continue, handle_agent_chunk chunk st))
  | Acp OtherAcp => Some (inr (Continue, st))
  end.

(** The loop over the lines; a malformed line is skipped. *)
Fixpoint replay_loop (target : nat) (lines : list (option SessionUpdate)) (st : ReplayState)
    : option (text + ReplayState) :=
  match lines with
  | [] => Some (inr st)
  | None :: rest => replay_loop target rest st
  | Some update :: rest =>
      r ← process_update target update st;
      match r with
      | inl e => Some (inl e)
      | inr (StopReplay, st) => Some (inr st)
      | inr (Continue, st) => replay_loop target rest st
      end
  end.

(** The rest of [replay_to_prompt] after the loop. *)
Definition finish_replay (target : nat) (st : ReplayState) : option ReplayResult :=
  let st := flush_pending_agent (flush_pending_user st) in
  let result st :=
    mkReplayResult (rs_conversation st) (prompt_counter st) (original_user_info st)
      (if checkpoint_active st then Some (checkpoint_prompt_index st) else None) in
  if target <? prompt_counter st then
    items ← (if checkpoint_active st && (checkpoint_prompt_index st <=? target)
             then cut_after_checkpoint target st
             else if target =? 0 then Some []
             else Some (cut_conversation target st));
    Some (result (set_items items target st))
  else Some (result st).

(** [inl] is an error of opening the file, [inr None] a file that is not there. *)
Definition replay_to_prompt (log : text + option (list (option SessionUpdate))) (target : nat)
    : option (text + ReplayResult) :=
  match log with
  | inl e => Some (inl e)
  | inr None => Some (inr (mkReplayResult [] 0 None None))
  | inr (Some lines) =>
      r ← replay_loop target lines replay_new;
      match r with
      | inl e => Some (inl e)
      | inr st => r ← finish_replay target st; Some (inr r)
      end
  end.

End replay.
