(* ===== verification/SessionLogProps.v ===== *)
(** * The log of a session: theorems

    The cut of a conversation at a prompt keeps the turns before it.  The life of a
    session as events, the log that they write, and its timeline, in which a rewind drops
    turns and a compaction replaces them: the readers of the log, which only see updates
    that were appended, agree with the timeline. *)

From S2P Require Import Prelude Text TextProps Utf8 Conversation Paths SessionLog.

Open Scope nat_scope.

(** ** The cut of a conversation *)

Definition unmarked (items : list ConversationItem) : Prop := Forall (λ i, marked_index i = None) items.

(** The turns of consecutive prompts from [m] on, each opened by its marked item. *)
Fixpoint marked_turns (m : nat) (turns : list (list ConversationItem)) : Prop :=
  match turns with
  | [] => True
  | turn :: turns =>
      (∃ u rest, turn = User u :: rest ∧ user_prompt_index u = Some m ∧ unmarked rest)
      ∧ marked_turns (S m) turns
  end.

(** An unmarked item that opens a turn, and one that could be the preamble. *)
Definition starts_turn (i : ConversationItem) : bool :=
  match i with
  | User u => match synthetic_reason u with None => true | Some r => starts_prompt_turn r end
  | _ => false
  end.

(** Turns without markers. *)
Definition legacy_turn (turn : list ConversationItem) : Prop :=
  ∃ u rest, turn = User u :: rest ∧ starts_turn (User u) = true ∧ user_prompt_index u = None
            ∧ Forall (λ i, starts_turn i = false) rest ∧ unmarked rest.

(** What precedes the first turn: items that open no turn around the one user item with
    the user's environment. *)
Definition preamble (items : list ConversationItem) : Prop :=
  ∃ before u after, items = before ++ User u :: after ∧ synthetic_reason u = None
    ∧ user_prompt_index u = None
    ∧ Forall (λ i, starts_turn i = false) (before ++ after) ∧ unmarked (before ++ after).

Lemma markers_only_skip target i l l' :
  unmarked l → truncate_markers_only target i (l ++ l') = truncate_markers_only target (i + length l) l'.
Proof.
  intros H. revert i. induction H as [|x l Hx _ IH]; intros i; cbn; [by rewrite Nat.add_0_r|].
  rewrite Hx, IH. f_equal. lia.
Qed.

Lemma markers_only_turns target m i turns :
  marked_turns m turns → m <= target →
  truncate_markers_only target i (concat turns) = i + length (concat (take (target - m) turns)).
Proof.
  revert m i. induction turns as [|turn turns IH]; intros m i H Hm.
  { rewrite take_nil. cbn. lia. }
  destruct H as [(u & rest & -> & Hu & Hr) H]. cbn -[take].
  rewrite Hu. destruct (target <=? m) eqn:He; breflect.
  - replace (target - m) with 0 by lia. cbn. lia.
  - rewrite markers_only_skip by done. rewrite (IH (S m)) by (done || lia).
    destruct (target - m) as [|k] eqn:Hk; [lia|]. cbn. rewrite length_app.
    replace (target - S m) with k by lia. lia.
Qed.

(** Unmarked items open turns with indices below their number. *)
Lemma unmarked_index_bound u next seen idx seen' :
  unmarked_index u next seen = (Some idx, seen') → idx = next.
Proof. unfold unmarked_index. repeat case_match; naive_solver. Qed.

Lemma count_legacy_mono turns seen l : turns <= count_legacy_turns turns seen l.
Proof.
  revert turns seen. induction l as [|x l IH]; intros turns seen; cbn; [done|].
  destruct x as [|u| | | |]; try apply IH. case_bool_decide; [done|].
  destruct (unmarked_index u turns seen) as [[e|] s]; [|apply IH].
  pose proof (IH (S turns) s). lia.
Qed.

Lemma progressive_prefix target next seen i l l' :
  unmarked l → count_legacy_turns next seen l <= target →
  ∃ next' seen', truncate_progressive target next seen false i (l ++ l')
                 = truncate_progressive target next' seen' false (i + length l) l'.
Proof.
  intros H. revert next seen i. induction H as [|x l Hx _ IH]; intros next seen i Hc.
  { exists next, seen. by rewrite Nat.add_0_r. }
  replace (i + length (x :: l)) with (S i + length l) by (cbn; lia).
  destruct x as [|u| | | |]; cbn in *; try (by apply IH).
  rewrite Hx in Hc |- *. rewrite bool_decide_false in Hc by naive_solver.
  destruct (unmarked_index u next seen) as [[e|] s] eqn:Hu; [|by apply IH].
  pose proof (count_legacy_mono (S next) s l).
  apply unmarked_index_bound in Hu as ->.
  rewrite (proj2 (Nat.leb_gt _ _)) by lia. by apply IH.
Qed.

Lemma progressive_skip target next seen i l l' :
  unmarked l →
  truncate_progressive target next seen true i (l ++ l')
  = truncate_progressive target next seen true (i + length l) l'.
Proof.
  intros H. revert i. induction H as [|x l Hx _ IH]; intros i; cbn; [by rewrite Nat.add_0_r|].
  destruct x as [|u| | | |]; cbn in Hx; rewrite ?Hx, IH; f_equal; lia.
Qed.

Lemma progressive_turns target m next seen seen_marker i turns :
  marked_turns m turns → m <= target →
  truncate_progressive target next seen seen_marker i (concat turns)
  = i + length (concat (take (target - m) turns)).
Proof.
  revert m i seen_marker. induction turns as [|turn turns IH]; intros m i sm H Hm.
  { rewrite take_nil. cbn. lia. }
  destruct H as [(u & rest & -> & Hu & Hr) H]. cbn -[take].
  rewrite Hu. destruct (target <=? m) eqn:He; breflect.
  - replace (target - m) with 0 by lia. cbn. lia.
  - rewrite progressive_skip by done. rewrite (IH (S m)) by (done || lia).
    destruct (target - m) as [|k] eqn:Hk; [lia|]. cbn. rewrite length_app.
    replace (target - S m) with k by lia. lia.
Qed.

Lemma first_marker_prefix l l' : unmarked l → head (omap marked_index (l ++ l')) = head (omap marked_index l').
Proof. intros H. rewrite omap_app. induction H as [|x l Hx _ IH]; [done|]. by cbn; rewrite Hx. Qed.

Lemma count_legacy_prefix n seen l m turns :
  unmarked l → marked_turns m turns → turns ≠ [] →
  count_legacy_turns n seen (l ++ concat turns) = count_legacy_turns n seen l.
Proof.
  intros H Ht Hne. revert n seen. induction H as [|x l Hx _ IH]; intros n seen.
  - destruct turns as [|turn turns]; [done|]. destruct Ht as [(u & rest & -> & Hu & _) _].
    cbn. by rewrite Hu, bool_decide_true by eauto.
  - destruct x as [|u| | | |]; cbn in *; try apply IH.
    rewrite Hx, !bool_decide_false by naive_solver.
    destruct (unmarked_index u n seen) as [[e|] s]; apply IH.
Qed.

(** Items that open no turn and are no preamble are passed over. *)
Lemma unmarked_index_closed u next seen :
  starts_turn (User u) = false → unmarked_index u next seen = (None, seen).
Proof. unfold unmarked_index. cbn. repeat case_match; naive_solver. Qed.

Lemma unmarked_index_opens u next :
  starts_turn (User u) = true → unmarked_index u next true = (Some next, true).
Proof. unfold unmarked_index. cbn. repeat case_match; naive_solver. Qed.

Lemma legacy_skip target next seen i l l' :
  Forall (λ x, starts_turn x = false) l →
  truncate_legacy target next seen i (l ++ l') = truncate_legacy target next seen (i + length l) l'.
Proof.
  intros H. revert i. induction H as [|x l Hx _ IH]; intros i; cbn; [by rewrite Nat.add_0_r|].
  destruct x as [|u| | | |]; rewrite ?(unmarked_index_closed u), IH by done; f_equal; lia.
Qed.

Lemma legacy_preamble target i pre l :
  preamble pre → truncate_legacy target 0 false i (pre ++ l) = truncate_legacy target 0 true (i + length pre) l.
Proof.
  intros (b & u & a & -> & Hu & _ & [Hb Ha]%Forall_app & _). rewrite <- app_assoc.
  rewrite legacy_skip by done. cbn. unfold unmarked_index. rewrite Hu.
  rewrite legacy_skip by done. f_equal. rewrite length_app. cbn. lia.
Qed.

Lemma legacy_turns target next i turns :
  Forall legacy_turn turns →
  truncate_legacy target next true i (concat turns) = i + length (concat (take (target - next) turns)).
Proof.
  intros H. revert next i. induction H as [|turn turns (u & rest & -> & Hu & _ & Hr & _) _ IH]; intros next i.
  { rewrite take_nil. cbn. lia. }
  cbn -[take starts_turn]. rewrite unmarked_index_opens by done.
  destruct (target <=? next) eqn:He; breflect.
  - replace (target - next) with 0 by lia. cbn. lia.
  - rewrite legacy_skip, IH by done. destruct (target - next) as [|k] eqn:Hk; [lia|].
    cbn. rewrite length_app. replace (target - S next) with k by lia. lia.
Qed.

Lemma count_legacy_skip n seen l l' :
  Forall (λ x, starts_turn x = false) l → unmarked l →
  count_legacy_turns n seen (l ++ l') = count_legacy_turns n seen l'.
Proof.
  intros H Hm. induction l as [|x l IH]; [done|].
  apply Forall_cons in H as [Hx H], Hm as [Hxm Hm]. cbn.
  destruct x as [|u| | | |]; try (by apply IH).
  cbn in Hxm. rewrite Hxm, bool_decide_false, unmarked_index_closed by naive_solver. by apply IH.
Qed.

Lemma count_legacy_turns_are n turns :
  Forall legacy_turn turns → count_legacy_turns n true (concat turns) = n + length turns.
Proof.
  intros H. revert n. induction H as [|turn turns (u & rest & -> & Hu & Hm & Hr & Hrm) _ IH]; intros n.
  { cbn. lia. }
  cbn -[starts_turn]. rewrite Hm, bool_decide_false, unmarked_index_opens by naive_solver.
  rewrite count_legacy_skip, IH by done. lia.
Qed.

Lemma count_legacy_preamble pre turns :
  preamble pre → Forall legacy_turn turns →
  count_legacy_turns 0 false (pre ++ concat turns) = length turns.
Proof.
  intros (b & u & a & -> & Hu & Hm & [Hb Ha]%Forall_app & [Hbm Ham]%Forall_app) Ht.
  rewrite <- app_assoc, count_legacy_skip by done. cbn. unfold unmarked_index.
  rewrite Hu, Hm, bool_decide_false by naive_solver.
  by rewrite count_legacy_skip, count_legacy_turns_are by done.
Qed.

Lemma legacy_bounds target next seen i l :
  i <= truncate_legacy target next seen i l <= i + length l.
Proof.
  revert next seen i. induction l as [|x l IH]; intros next seen i; cbn; [lia|].
  destruct x as [|u| | | |]; cbn; try (pose proof (IH next seen (S i)); lia).
  destruct (unmarked_index u next seen) as [[e|] s].
  - case_match; [lia|]. pose proof (IH (S e) s (S i)). lia.
  - pose proof (IH next s (S i)). lia.
Qed.

(** A cut within the items without markers does not depend on what follows. *)
Lemma progressive_inside target next seen i l l' :
  unmarked l → truncate_legacy target next seen i l < i + length l →
  truncate_progressive target next seen false i (l ++ l') = truncate_legacy target next seen i l.
Proof.
  intros H. revert next seen i. induction H as [|x l Hx _ IH]; intros next seen i; cbn; [lia|].
  intros Hl. destruct x as [|u| | | |]; cbn in *; try (apply IH; lia).
  rewrite Hx. destruct (unmarked_index u next seen) as [[e|] s]; [|apply IH; lia].
  destruct (target <=? e); [done|]. apply IH. lia.
Qed.

Lemma legacy_turn_unmarked turns : Forall legacy_turn turns → unmarked (concat turns).
Proof.
  induction 1 as [|t ts (u & rest & -> & _ & Hm & _ & Hr) _ IH]; [by constructor|].
  apply Forall_app. split; [by constructor|done].
Qed.

Lemma preamble_unmarked pre : preamble pre → unmarked pre.
Proof. intros (b & u & a & -> & _ & Hm & _ & [Hb Ha]%Forall_app). apply Forall_app. split; [done|by constructor]. Qed.

Lemma legacy_turn_nonempty t : legacy_turn t → t ≠ [].
Proof. by intros (u & rest & -> & _). Qed.

Lemma concat_take_lt (ts : list (list ConversationItem)) k :
  Forall legacy_turn ts → k < length ts → length (concat (take k ts)) < length (concat ts).
Proof.
  intros H Hk. rewrite <- (take_drop k ts) at 2. rewrite concat_app, length_app.
  destruct (drop k ts) as [|t r] eqn:Hd; [apply (f_equal length) in Hd; rewrite length_drop in Hd; cbn in Hd; lia|].
  assert (t ≠ []) as Hne.
  { apply legacy_turn_nonempty. rewrite Forall_forall in H. apply H.
    rewrite <- (take_drop k ts), Hd. apply elem_of_app. right. by left. }
  destruct t; [done|]. cbn. lia.
Qed.

Lemma no_marker items : unmarked items → head (omap marked_index items) = None.
Proof. intros H. rewrite <- (app_nil_r items). by rewrite first_marker_prefix. Qed.

Lemma first_marker m turns : marked_turns m turns → turns ≠ [] → head (omap marked_index (concat turns)) = Some m.
Proof.
  destruct turns as [|t ts]; [done|]. intros [(u & rest & -> & Hu & _) _] _. cbn. by rewrite Hu.
Qed.

(** The turns of the prompts from [m] on have markers; before them is anything without. *)
Lemma cut_marked pre m turns target :
  unmarked pre → marked_turns m turns → turns ≠ [] → m <= target →
  conversation_truncate_for_prompt (pre ++ concat turns) target
  = length (pre ++ concat (take (target - m) turns)).
Proof.
  intros Hp Ht Hne Hm. unfold conversation_truncate_for_prompt.
  rewrite first_marker_prefix, (first_marker m), length_app by done.
  rewrite (count_legacy_prefix _ _ _ m) by done. case_match; breflect.
  - destruct (progressive_prefix target 0 false 0 pre (concat turns)) as (n & s & ->); [done|lia|].
    by rewrite (progressive_turns _ m).
  - by rewrite markers_only_skip, (markers_only_turns _ m).
Qed.

Lemma cut_legacy pre turns target :
  preamble pre → Forall legacy_turn turns →
  conversation_truncate_for_prompt (pre ++ concat turns) target = length (pre ++ concat (take target turns)).
Proof.
  intros Hp Ht. unfold conversation_truncate_for_prompt. rewrite no_marker.
  - rewrite legacy_preamble, legacy_turns, length_app, Nat.sub_0_r by done. lia.
  - apply Forall_app. split; [by apply preamble_unmarked|by apply legacy_turn_unmarked].
Qed.

(** C29: the cut of a conversation at a prompt is before the turn of that prompt, and the
    turns before it are kept whole.  First for the turns of prompts that carry their
    index, from any index [m] on, after anything without an index (a preamble, or what a
    compaction left); then for a conversation that began without indices and whose later
    turns carry them. *)
Theorem conversation_cut_exact (pre : list ConversationItem) (target : nat) :
  (∀ m turns, unmarked pre → marked_turns m turns → turns ≠ [] → m <= target →
     take (conversation_truncate_for_prompt (pre ++ concat turns) target) (pre ++ concat turns)
     = pre ++ concat (take (target - m) turns))
  ∧ (∀ old turns, preamble pre → Forall legacy_turn old → marked_turns (length old) turns →
     take (conversation_truncate_for_prompt (pre ++ concat (old ++ turns)) target)
       (pre ++ concat (old ++ turns))
     = pre ++ concat (take target (old ++ turns))).
Proof.
  assert (∀ p (l : list (list ConversationItem)) k,
    take (length (p ++ concat (take k l))) (p ++ concat l) = p ++ concat (take k l)) as Htake.
  { intros p l k. rewrite <- (take_drop k l) at 2. by rewrite concat_app, app_assoc, take_app_length. }
  split.
  - intros m turns Hp Ht Hne Hm. by rewrite (cut_marked _ m), Htake.
  - intros old turns Hp Ho Ht. destruct (decide (turns = [])) as [->|Hne].
    { rewrite app_nil_r. by rewrite cut_legacy, Htake. }
    destruct (decide (length old <= target)) as [Hl|Hl].
    { assert (unmarked (pre ++ concat old)).
      { apply Forall_app. split; [by apply preamble_unmarked|by apply legacy_turn_unmarked]. }
      rewrite concat_app, app_assoc. rewrite (cut_marked _ (length old)), Htake by done.
      by rewrite take_app_ge, concat_app, <- !app_assoc by done. }
    unfold conversation_truncate_for_prompt.
    rewrite concat_app, app_assoc.
    assert (unmarked (pre ++ concat old)).
    { apply Forall_app. split; [by apply preamble_unmarked|by apply legacy_turn_unmarked]. }
    rewrite first_marker_prefix, (first_marker (length old)) by done.
    rewrite (count_legacy_prefix _ _ _ (length old)), count_legacy_preamble, Nat.eqb_refl by done.
    pose proof (concat_take_lt old target Ho ltac:(lia)).
    assert (truncate_legacy target 0 false 0 (pre ++ concat old) = length (pre ++ concat (take target old))) as Hc.
    { rewrite legacy_preamble, legacy_turns, length_app, Nat.sub_0_r by done. lia. }
    rewrite progressive_inside by (done || (rewrite Hc, !length_app; lia)).
    rewrite Hc, <- app_assoc, <- concat_app.
    rewrite <- (take_app_le old turns target) by lia. apply Htake.
Qed.

(** ** Sessions and their timeline *)

(** What happens in a session.  A prompt is logged as one chunk for each of its blocks,
    with the number of prompts so far; an echo is text of the user in the middle of a
    turn, which has no index; a torn line is one that cannot be parsed. *)
Inductive SessionEvent :=
| PromptEvent (blocks : list ContentBlock)
| ReplyEvent (t : text)
| EchoEvent (t : text)
| OtherEvent (update : SessionUpdate)
| CompactEvent (info : CompactionCheckpointInfo)
| RewindEvent (target : nat)
| TornEvent.

Definition block_text (b : ContentBlock) : text := match b with TextBlock t _ => t | OtherBlock => [] end.
Definition prompt_text (bs : list ContentBlock) : text := concat (block_text <$> bs).
Definition user_chunk (b : ContentBlock) (pi : option nat) : SessionUpdate := Acp (UserMessageChunk (mkChunk b pi)).
Definition agent_chunk (t : text) : SessionUpdate := Acp (AgentMessageChunk (mkChunk (TextBlock t false) None)).
Definition neutral (u : SessionUpdate) : bool :=
  match u with Acp OtherAcp | Ds OtherDs => true | _ => false end.

(** The lines of an event when [n] prompts are on the timeline. *)
Definition logged (n : nat) (e : SessionEvent) : list (option SessionUpdate) :=
  match e with
  | PromptEvent bs => (λ b, Some (user_chunk b (Some n))) <$> bs
  | ReplyEvent t => [Some (agent_chunk t)]
  | EchoEvent t => [Some (user_chunk (TextBlock t false) None)]
  | OtherEvent u => [Some u]
  | CompactEvent info => [Some (Ds (CheckpointUpdate info))]
  | RewindEvent target => [Some (Ds (RewindMarker target))]
  | TornEvent => [None]
  end.

(** What is said and echoed in a turn, in one piece until the other begins. *)
Inductive Piece := Said (t : text) | Echoed (t : text).

Record Turn := mkTurn {
  turn_prompt : text;
  turn_pieces : list Piece;
  turn_updates : list SessionUpdate;
}.

(** The newest piece is first. *)
Definition push_piece (p : Piece) (ps : list Piece) : list Piece :=
  match p, ps with
  | Said t, Said u :: ps => Said (u ++ t) :: ps
  | Echoed t, Echoed u :: ps => Echoed (u ++ t) :: ps
  | _, _ => p :: ps
  end.

Definition add_update (u : SessionUpdate) (t : Turn) : Turn :=
  mkTurn (turn_prompt t) (turn_pieces t) (turn_updates t ++ [u]).
Definition add_piece (p : Piece) (t : Turn) : Turn :=
  mkTurn (turn_prompt t) (push_piece p (turn_pieces t)) (turn_updates t).

(** Where the session is: between turns, in a turn, or in a turn that was compacted, with
    what the agent has said since. *)
Inductive Part := Closed | OpenTurn (t : Turn) | Compacted (said : option text).

(** The turns that are not undone; the compacted history that stands for the first
    [base_index] of them; its length without what was said after it; the user info of the
    first checkpoint that has one. *)
Record Timeline := mkTimeline {
  prefix : list SessionUpdate;
  closed : list Turn;
  part : Part;
  base : option (list ConversationItem);
  base_len : nat;
  base_index : nat;
  user_info : option text;
  prompted : bool;
}.

Definition timeline_new : Timeline := mkTimeline [] [] Closed None 0 0 None false.

Definition open_turn (p : Part) : list Turn := match p with OpenTurn t => [t] | _ => [] end.
Definition all_turns (s : Timeline) : list Turn := closed s ++ open_turn (part s).

(** The compacted history with what was said in the rest of the turn. *)
Definition closed_base (s : Timeline) : option (list ConversationItem) :=
  match part s with
  | Compacted (Some t) => (λ items, items ++ [assistant t]) <$> base s
  | _ => base s
  end.

Definition set_parts (ts : list Turn) (p : Part) (b : option (list ConversationItem)) (s : Timeline) : Timeline :=
  mkTimeline (prefix s) ts p b (base_len s) (base_index s) (user_info s) (prompted s).

(** An update that is no part of the conversation. *)
Definition note (u : SessionUpdate) (s : Timeline) : Timeline :=
  match part s, closed s with
  | OpenTurn t, _ => set_parts (closed s) (OpenTurn (add_update u t)) (base s) s
  | _, [] =>
      mkTimeline (prefix s ++ [u]) [] (part s) (base s) (base_len s) (base_index s) (user_info s) (prompted s)
  | _, ts => set_parts (alter (add_update u) (pred (length ts)) ts) (part s) (base s) s
  end.

Section timeline.
Context `{CheckpointFiles}.
Context (session_dir : text) (target : nat).

Definition start_turn (bs : list ContentBlock) (s : Timeline) : Timeline :=
  let n := length (all_turns s) in
  let t := mkTurn (prompt_text bs) [] ((λ b, user_chunk b (Some n)) <$> bs) in
  mkTimeline (prefix s) (all_turns s) (OpenTurn t) (closed_base s) (base_len s) (base_index s)
    (user_info s) true.

Definition learn_user_info (info : option text) (s : Timeline) : Timeline :=
  mkTimeline (prefix s) (closed s) (part s) (base s) (base_len s) (base_index s)
    (match user_info s with Some i => Some i | None => info end) (prompted s).

(** A checkpoint at or before the target of the replay stands for the turns so far. *)
Definition compact (info : CompactionCheckpointInfo) (file : CompactionCheckpointFile) (s : Timeline) : Timeline :=
  let s := learn_user_info (file_original_user_info file) (note (Ds (CheckpointUpdate info)) s) in
  if target <? prompt_index_at_compaction info then s
  else
    let items := (strip_invalid_images (compacted_history file)).1 in
    mkTimeline (prefix s) (all_turns s) (Compacted None) (Some items) (length items)
      (prompt_index_at_compaction info) (user_info s) (prompted s).

(** [None] is an event that a session does not have at this point: a prompt without
    text, text in no turn, a rewind that is not to an earlier prompt, or to one from
    before the checkpoint that the replay starts from. *)
Definition timeline_step (s : Timeline) (e : SessionEvent) : option Timeline :=
  match e with
  | PromptEvent bs => if bool_decide (prompt_text bs = []) then None else Some (start_turn bs s)
  | ReplyEvent t =>
      match part s with
      | OpenTurn turn =>
          Some (set_parts (closed s) (OpenTurn (add_update (agent_chunk t) (add_piece (Said t) turn))) (base s) s)
      | Compacted said =>
          let s := note (agent_chunk t) s in
          Some (set_parts (closed s) (Compacted (Some (default [] said ++ t))) (base s) s)
      | Closed => None
      end
  | EchoEvent t =>
      match part s with
      | OpenTurn turn =>
          if bool_decide (t = []) then None
          else
            let u := user_chunk (TextBlock t false) None in
            Some (set_parts (closed s) (OpenTurn (add_update u (add_piece (Echoed t) turn))) (base s) s)
      | _ => None
      end
  | OtherEvent u => if neutral u then Some (note u s) else None
  | CompactEvent info =>
      if bool_decide (prompt_index_at_compaction info = length (all_turns s))
         && bool_decide (auto_continue info = None) then
        match read_checkpoint session_dir info with
        | inr file => if schema_version file <=? 1 then Some (compact info file s) else None
        | inl _ => None
        end
      else None
  | RewindEvent n =>
      if (n <? length (all_turns s)) && (base_index s <=? n) then
        Some (set_parts (take n (all_turns s)) Closed (closed_base s) s)
      else None
  | TornEvent => Some s
  end.

(** The timeline and the log of a session. *)
Fixpoint live (es : list SessionEvent) (s : Timeline) (log : list (option SessionUpdate))
    : option (Timeline * list (option SessionUpdate)) :=
  match es with
  | [] => Some (s, log)
  | e :: es =>
      match timeline_step s e with
      | Some s' => live es s' (log ++ logged (length (all_turns s)) e)
      | None => None
      end
  end.

Definition session_run (es : list SessionEvent) : option (Timeline * list (option SessionUpdate)) :=
  live es timeline_new [].

End timeline.

(** The conversation of a timeline: the items of its turns from the base on. *)
Definition piece_item (p : Piece) : ConversationItem :=
  match p with Said t => assistant t | Echoed t => user_text t end.

Definition turn_items (i : nat) (t : Turn) : list ConversationItem :=
  marked_user (turn_prompt t) i :: (piece_item <$> reverse (turn_pieces t)).

Fixpoint turns_items (i : nat) (ts : list Turn) : list (list ConversationItem) :=
  match ts with [] => [] | t :: ts => turn_items i t :: turns_items (S i) ts end.

Definition items_before (target : nat) (s : Timeline) : list ConversationItem :=
  default [] (closed_base s)
  ++ concat (take (target - base_index s) (turns_items (base_index s) (drop (base_index s) (all_turns s)))).

(** ** The replay follows the timeline *)

Lemma turns_items_app i ts ts' : turns_items i (ts ++ ts') = turns_items i ts ++ turns_items (i + length ts) ts'.
Proof.
  revert i. induction ts as [|t ts IH]; intros i; cbn; [by rewrite Nat.add_0_r|].
  rewrite IH. by replace (i + S (length ts)) with (S i + length ts) by lia.
Qed.

Lemma turns_items_length i ts : length (turns_items i ts) = length ts.
Proof. revert i. induction ts as [|t ts IH]; intros i; cbn; [done|]. by rewrite IH. Qed.

Lemma turns_items_take k i ts : turns_items i (take k ts) = take k (turns_items i ts).
Proof. revert i k. induction ts as [|t ts IH]; intros i [|k]; cbn; [done..|]. by rewrite IH. Qed.

Lemma piece_unmarked p : marked_index (piece_item p) = None.
Proof. by destruct p. Qed.

Lemma turns_items_marked i ts : marked_turns i (turns_items i ts).
Proof.
  revert i. induction ts as [|t ts IH]; intros i; cbn; [done|]. split; [|apply IH].
  eexists _, _. split_and!; [done..|]. apply Forall_fmap, Forall_true. intros p. apply piece_unmarked.
Qed.

Lemma turns_items_prompts i ts ts' :
  turn_pieces <$> ts = turn_pieces <$> ts' → turn_prompt <$> ts = turn_prompt <$> ts' →
  turns_items i ts = turns_items i ts'.
Proof.
  revert i ts'. induction ts as [|t ts IH]; intros i [|t' ts']; cbn; try done.
  intros [= H1 H2] [= H3 H4]. unfold turn_items. by rewrite H1, H3, (IH _ ts').
Qed.

(** Notes do not change the items of turns. *)
Lemma alter_note_items i k u ts : turns_items i (alter (add_update u) k ts) = turns_items i ts.
Proof.
  apply turns_items_prompts.
  all: revert k; induction ts as [|t ts IH]; intros [|k]; cbn; try done; f_equal; apply IH.
Qed.

Lemma drop_alter_note_items i j k u ts :
  turns_items i (drop j (alter (add_update u) k ts)) = turns_items i (drop j ts).
Proof.
  revert j k. induction ts as [|t ts IH]; intros [|j] k; rewrite ?drop_0; [done..| |].
  - apply alter_note_items.
  - destruct k; [done|]. apply IH.
Qed.

Section replay_timeline.
Context `{CheckpointFiles}.
Context (session_dir : text) (target : nat).

(** The items of the closed turns, and the prompt of the open one with the pieces that
    are complete. *)
Definition closed_items (s : Timeline) : list ConversationItem :=
  default [] (base s) ++ concat (turns_items (base_index s) (drop (base_index s) (closed s))).
Definition open_items (s : Timeline) (t : Turn) (ps : list Piece) : list ConversationItem :=
  closed_items s ++ marked_user (turn_prompt t) (length (closed s)) :: (piece_item <$> reverse ps).

(** The state of the replay at a point of the timeline. *)
Definition image (s : Timeline) : ReplayState :=
  let st items counter inside t pi agent pending :=
    mkReplay items counter inside t pi (prompted s) agent pending (bool_decide (is_Some (base s)))
      (base_len s) (base_index s) (user_info s) in
  let n := length (closed s) in
  match part s with
  | Closed | Compacted None => st (closed_items s) n false [] None [] false
  | Compacted (Some u) => st (closed_items s) n false [] None u true
  | OpenTurn t =>
      match turn_pieces t with
      | [] => st (closed_items s) n true (turn_prompt t) (Some n) [] false
      | Said u :: ps => st (open_items s t ps) (S n) false [] None u true
      | Echoed u :: ps => st (open_items s t ps) (S n) true u None [] false
      end
  end.

Definition piece_ok (p : Piece) : Prop := match p with Echoed t => t ≠ [] | Said _ => True end.

Record timeline_ok (s : Timeline) : Prop := {
  ok_base : base s = None → base_index s = 0 ∧ base_len s = 0;
  ok_compacted : ∀ said, part s = Compacted said → is_Some (base s) ∧ length (closed s) = base_index s;
  ok_index : base_index s <= length (closed s) ∧ base_index s <= target;
  ok_base_items : ∀ items, base s = Some items →
    ∃ said, length items = base_len s + length said
            ∧ drop (base_len s) items = said ∧ Forall (λ i, is_user i = false) said;
  ok_open : ∀ t, part s = OpenTurn t → turn_prompt t ≠ [] ∧ Forall piece_ok (turn_pieces t);
  ok_prompted : 0 < length (all_turns s) → prompted s = true;
}.

(** All items, with the text that is pending. *)
Definition all_items (s : Timeline) : list ConversationItem :=
  default [] (closed_base s) ++ concat (turns_items (base_index s) (drop (base_index s) (all_turns s))).

Lemma all_items_open s t :
  timeline_ok s → part s = OpenTurn t →
  all_items s = closed_items s ++ turn_items (length (closed s)) t.
Proof.
  intros Hok Hp. unfold all_items, closed_items, closed_base, all_turns. rewrite Hp. cbn [open_turn].
  destruct (ok_index s Hok) as [Hi _].
  rewrite drop_app_le by done. rewrite turns_items_app, concat_app, app_assoc. f_equal.
  rewrite length_drop. replace (base_index s + (length (closed s) - base_index s)) with (length (closed s)) by lia.
  cbn. by rewrite app_nil_r.
Qed.

Lemma all_items_closed s :
  part s = Closed → all_items s = closed_items s.
Proof. intros Hp. unfold all_items, closed_items, closed_base, all_turns. rewrite Hp. cbn. by rewrite app_nil_r. Qed.

Lemma all_items_compacted s said :
  timeline_ok s → part s = Compacted said →
  all_items s = closed_items s ++ option_list (assistant <$> said).
Proof.
  intros Hok Hp. destruct (ok_compacted s Hok said Hp) as [[items Hb] Hl].
  unfold all_items, closed_items, closed_base, all_turns. rewrite Hp. cbn [open_turn].
  rewrite app_nil_r, drop_ge by lia. cbn. rewrite !app_nil_r, Hb.
  destruct said; cbn; by rewrite ?app_nil_r.
Qed.

(** What the replay has once its pending texts are flushed. *)
Lemma flush_image s :
  timeline_ok s →
  flush_pending_agent (flush_pending_user (image s))
  = mkReplay (all_items s) (length (all_turns s)) (in_user_message (image s)) [] None (prompted s) [] false
      (bool_decide (is_Some (base s))) (base_len s) (base_index s) (user_info s).
Proof.
  intros Hok. unfold image, all_turns. destruct (part s) as [|t|said] eqn:Hp.
  - rewrite (all_items_closed s Hp). cbn. by rewrite app_nil_r.
  - rewrite (all_items_open s t Hok Hp). destruct (ok_open s Hok t Hp) as [Hne Hps].
    cbn [open_turn]. rewrite length_app. cbn [length]. unfold turn_items, open_items.
    destruct (turn_pieces t) as [|[u|u] ps]; unfold flush_pending_user, flush_pending_agent; cbn -[reverse].
    + destruct (turn_prompt t); [done|]. cbn. by rewrite Nat.add_1_r.
    + rewrite reverse_cons, fmap_app. cbn. by rewrite Nat.add_1_r, <- app_assoc.
    + apply Forall_cons in Hps as [Hu _]. cbn in Hu. rewrite reverse_cons, fmap_app. destruct u; [done|]. cbn.
      assert (prompted s = true) as ->.
      { apply (ok_prompted s Hok). unfold all_turns. rewrite Hp, length_app. cbn. lia. }
      by rewrite Nat.add_1_r, <- app_assoc.
  - rewrite (all_items_compacted s said Hok Hp). cbn. rewrite app_nil_r.
    destruct said; cbn; by rewrite ?app_nil_r.
Qed.

Lemma closed_base_some s : is_Some (closed_base s) ↔ is_Some (base s).
Proof. unfold closed_base. repeat case_match; rewrite ?fmap_is_Some; done. Qed.

(** In the middle of the blocks of a prompt. *)
Definition in_prompt (s : Timeline) (t : text) : ReplayState :=
  mkReplay (all_items s) (length (all_turns s)) true t (Some (length (all_turns s))) true [] false
    (bool_decide (is_Some (base s))) (base_len s) (base_index s) (user_info s).

Lemma first_block s b :
  timeline_ok s →
  handle_user_chunk (mkChunk b (Some (length (all_turns s)))) (image s) = in_prompt s (block_text b).
Proof.
  intros Hok. unfold in_prompt. pose proof (flush_image s Hok) as Hf. revert Hf.
  unfold image, all_turns. destruct (part s) as [|t|[said|]] eqn:Hp; cbn [open_turn].
  - intros [= -> ->]. unfold handle_user_chunk. destruct b; cbn; by rewrite ?app_nil_r.
  - destruct (ok_open s Hok t Hp) as [Hne Hps]. rewrite length_app. cbn [length].
    destruct (turn_pieces t) as [|[u|u] ps]; unfold handle_user_chunk; cbn -[all_items].
    + intros Hf. rewrite bool_decide_true by (intros [=]; lia). cbn -[all_items].
      unfold flush_pending_user in *. cbn -[all_items] in *. destruct (turn_prompt t); [done|].
      cbn -[all_items] in *. injection Hf as Hi Hl. rewrite Hi, Hl. by destruct b.
    + intros [= Hi Hl]. rewrite Hi, Hl. destruct b; cbn; by rewrite ?app_nil_r.
    + apply Forall_cons in Hps as [Hu _]. cbn in Hu. destruct u as [|c u]; [done|].
      assert (prompted s = true) as ->.
      { apply (ok_prompted s Hok). unfold all_turns. rewrite Hp, length_app. cbn. lia. }
      cbn -[all_items]. intros [= Hi Hl]. rewrite Hi, Hl. by destruct b.
  - intros [= Hi Hl]. unfold handle_user_chunk. cbn -[all_items closed_items]. rewrite Hi, Hl.
    destruct b; cbn; by rewrite ?app_nil_r.
  - intros [= -> ->]. unfold handle_user_chunk. destruct b; cbn; by rewrite ?app_nil_r.
Qed.

Lemma next_block s b t :
  handle_user_chunk (mkChunk b (Some (length (all_turns s)))) (in_prompt s t) = in_prompt s (t ++ block_text b).
Proof.
  unfold handle_user_chunk, in_prompt. cbn -[all_items]. rewrite bool_decide_false by naive_solver. cbn.
  destruct b; cbn; by rewrite ?app_nil_r.
Qed.

Lemma more_blocks s bs t :
  replay_loop session_dir target ((λ b, Some (user_chunk b (Some (length (all_turns s))))) <$> bs) (in_prompt s t)
  = Some (inr (in_prompt s (t ++ prompt_text bs))).
Proof.
  revert t. unfold prompt_text. induction bs as [|b bs IH]; intros t; cbn -[in_prompt].
  { by rewrite app_nil_r. }
  rewrite next_block, IH. by rewrite app_assoc.
Qed.

Lemma image_start_turn s bs :
  timeline_ok s → prompt_text bs ≠ [] →
  replay_loop session_dir target (logged (length (all_turns s)) (PromptEvent bs)) (image s)
  = Some (inr (image (start_turn bs s))).
Proof.
  intros Hok Hne. destruct bs as [|b bs]; [done|]. cbn [logged fmap list_fmap replay_loop process_update user_chunk].
  rewrite first_block by done. cbn [mbind option_bind].
  rewrite more_blocks. unfold image, start_turn, in_prompt. cbn -[all_items prompt_text].
  do 2 f_equal. unfold prompt_text. cbn -[all_items].
  f_equal. apply bool_decide_ext. symmetry. apply closed_base_some.
Qed.

(** Notes are nothing to the replay. *)
Lemma length_note u s : length (closed (note u s)) = length (closed s) ∧ length (all_turns (note u s)) = length (all_turns s).
Proof.
  unfold note, all_turns. destruct (part s); [destruct (closed s)| |destruct (closed s)]; cbn;
    rewrite ?length_app, ?length_alter; done.
Qed.

Lemma image_note u s : image (note u s) = image s.
Proof.
  assert (closed_items (note u s) = closed_items s) as Hc.
  { unfold note. destruct (part s) eqn:Hp; [destruct (closed s) eqn:Hc| |destruct (closed s) eqn:Hc]; try done;
      unfold closed_items; cbn -[drop turns_items]; rewrite ?Hc; try done; by rewrite drop_alter_note_items. }
  destruct (length_note u s) as [Hl _]. revert Hc Hl. unfold image, open_items. unfold note.
  destruct (part s) eqn:Hp; cbn -[closed_items].
  - destruct (closed s) eqn:Hs; cbn -[closed_items]; rewrite ?Hp; cbn -[closed_items].
    + intros ->. done.
    + intros ->. rewrite !length_alter. done.
  - intros ->. done.
  - destruct (closed s) eqn:Hs; cbn -[closed_items]; rewrite ?Hp; cbn -[closed_items].
    + intros ->. done.
    + intros ->. rewrite !length_alter. done.
Qed.

(** Cuts behind the base. *)
Lemma cut_turns_skip k uc sm i l l' :
  Forall (λ x, is_user x = false) l → cut_turns k uc sm i (l ++ l') = cut_turns k uc sm (i + length l) l'.
Proof.
  intros Hl. revert i. induction Hl as [|x l Hx _ IH]; intros i; cbn; [by rewrite Nat.add_0_r|].
  destruct x; try done; cbn; rewrite IH; f_equal; lia.
Qed.

Lemma cut_turns_rest k uc i l l' :
  unmarked l → cut_turns k uc true i (l ++ l') = cut_turns k uc true (i + length l) l'.
Proof.
  intros Hl. revert i. induction Hl as [|x l Hx _ IH]; intros i; cbn; [by rewrite Nat.add_0_r|].
  destruct x as [|u| | | |]; cbn in *; rewrite ?Hx; cbn; rewrite IH; f_equal; lia.
Qed.

Lemma cut_turns_exact k uc sm m i turns :
  marked_turns m turns → uc <= k →
  cut_turns k uc sm i (concat turns) = i + length (concat (take (k - uc) turns)).
Proof.
  revert m uc sm i. induction turns as [|turn turns IH]; intros m uc sm i Ht Hk.
  { rewrite take_nil. cbn. lia. }
  destruct Ht as [(u & rest & -> & Hu & Hr) Ht]. cbn -[take].
  rewrite Hu, bool_decide_true by eauto. destruct (k <=? uc) eqn:He; breflect.
  - replace (k - uc) with 0 by lia. cbn. lia.
  - rewrite cut_turns_rest by done. rewrite (IH (S m)) by (done || lia).
    destruct (k - uc) as [|j] eqn:Hj; [lia|]. cbn. rewrite length_app.
    replace (k - S uc) with j by lia. lia.
Qed.

Lemma cut_items s st tis n :
  timeline_ok s → rs_conversation st = default [] (base s) ++ concat tis →
  checkpoint_active st = bool_decide (is_Some (base s)) → SessionLog.checkpoint_base_len st = base_len s →
  checkpoint_prompt_index st = base_index s → seen_prompt_index_marker st = true →
  marked_turns (base_index s) tis → tis ≠ [] → base_index s <= n →
  (if checkpoint_active st && (checkpoint_prompt_index st <=? n) then cut_after_checkpoint n st
   else if n =? 0 then Some [] else Some (cut_conversation n st))
  = Some (default [] (base s) ++ concat (take (n - base_index s) tis)).
Proof.
  intros Hok Hc Ha Hl Hi Hs Hm Hne Hn. rewrite Ha, Hi, (proj2 (Nat.leb_le _ _) Hn), andb_true_r.
  destruct (base s) as [items|] eqn:Hb; cbn [default].
  - rewrite bool_decide_true by done.
    destruct (ok_base_items s Hok items Hb) as (said & Hlen & Hd & Hsaid).
    unfold cut_after_checkpoint. rewrite Hc, Hl, Hi. cbn [default from_option id].
    rewrite (proj2 (Nat.leb_le _ _)) by (rewrite length_app; lia). f_equal.
    rewrite drop_app_le, Hd, cut_turns_skip, (cut_turns_exact _ _ _ (base_index s)) by (done || lia).
    rewrite Nat.sub_0_r, take_app_ge by lia. f_equal.
    rewrite <- (take_drop (n - base_index s) tis) at 2. rewrite concat_app.
    replace (_ - _) with (length (concat (take (n - base_index s) tis))) by lia. apply take_app_length.
  - rewrite bool_decide_false by naive_solver. destruct (ok_base s Hok Hb) as [Hz _].
    rewrite Hz in *. rewrite Nat.sub_0_r. cbn [default from_option app] in *.
    case_match; breflect; [by subst|]. f_equal.
    unfold cut_conversation, truncate_target, conversation_has_markers. rewrite Hs, Hc. cbn.
    pose proof (cut_marked [] 0 tis n) as Hcut. cbn in Hcut. rewrite Hcut by (done || constructor || lia).
    rewrite Nat.sub_0_r. rewrite <- (take_drop n tis) at 2. by rewrite concat_app, take_app_length.
Qed.

Lemma turn_open_items s t ps :
  closed_items s ++ turn_items (length (closed s)) (mkTurn (turn_prompt t) ps []) = open_items s t ps.
Proof. done. Qed.

(** The text of an agent ends what the user was saying. *)
Lemma image_reply s t s' :
  timeline_ok s → timeline_step session_dir target s (ReplyEvent t) = Some s' →
  handle_agent_chunk (mkChunk (TextBlock t false) None) (image s) = image s'.
Proof.
  intros Hok. cbn [timeline_step]. destruct (part s) as [|turn|said] eqn:Hp; [done| |].
  - destruct (ok_open s Hok turn Hp) as [Hne Hps]. intros [= <-].
    assert (prompted s = true) as Hpr.
    { apply (ok_prompted s Hok). unfold all_turns. rewrite Hp, length_app. cbn. lia. }
    unfold image. rewrite Hp. cbn [part set_parts turn_pieces turn_prompt add_update add_piece].
    destruct (turn_pieces turn) as [|[u|u] ps]; cbn -[closed_items reverse]; unfold handle_agent_chunk, flush_pending_user;
      cbn -[closed_items reverse].
    + destruct (turn_prompt turn) eqn:Ht; [done|]. unfold open_items. cbn -[closed_items reverse]. by rewrite Ht.
    + done.
    + apply Forall_cons in Hps as [Hu _]. cbn in Hu. destruct u as [|c u]; [done|].
      cbn -[closed_items reverse]. rewrite Hpr. unfold open_items. cbn -[closed_items reverse].
      by rewrite reverse_cons, fmap_app, <- app_assoc.
  - intros [= <-]. rewrite <- (image_note (agent_chunk t) s). set (s1 := note _ s).
    assert (part s1 = Compacted said) as Hp1.
    { subst s1. unfold note. rewrite Hp. by destruct (closed s). }
    unfold image. rewrite Hp1. cbn. destruct said; done.
Qed.

Lemma image_echo s t s' :
  timeline_ok s → timeline_step session_dir target s (EchoEvent t) = Some s' →
  handle_user_chunk (mkChunk (TextBlock t false) None) (image s) = image s'.
Proof.
  intros Hok. cbn [timeline_step]. destruct (part s) as [|turn|said] eqn:Hp; [done| |done].
  case_bool_decide as Ht; [done|]. destruct (ok_open s Hok turn Hp) as [Hne Hps]. intros [= <-].
  assert (prompted s = true) as Hpr.
  { apply (ok_prompted s Hok). unfold all_turns. rewrite Hp, length_app. cbn. lia. }
  unfold image. rewrite Hp. cbn [part set_parts turn_pieces turn_prompt add_update add_piece].
  destruct (turn_pieces turn) as [|[u|u] ps]; cbn -[closed_items reverse]; unfold handle_user_chunk;
    cbn -[closed_items reverse].
  - unfold flush_pending_user. cbn -[closed_items reverse]. destruct (turn_prompt turn) eqn:Hpt; [done|].
    unfold open_items. cbn -[closed_items reverse]. by rewrite Hpt.
  - unfold open_items. cbn -[closed_items reverse]. by rewrite reverse_cons, fmap_app, <- app_assoc.
  - done.
Qed.

(** The items of the replay as turns from the base on, the last one perhaps in part. *)
Lemma image_turns s :
  timeline_ok s →
  ∃ tis, rs_conversation (image s) = default [] (base s) ++ concat tis
    ∧ marked_turns (base_index s) tis
    ∧ base_index s + length tis = prompt_counter (image s)
    ∧ (∀ n, n <= length (closed s) →
       take (n - base_index s) tis = turns_items (base_index s) (drop (base_index s) (take n (closed s)))).
Proof.
  intros Hok. destruct (ok_index s Hok) as [Hi _].
  set (ct := turns_items (base_index s) (drop (base_index s) (closed s))).
  assert (∀ tl, marked_turns (length (closed s)) tl →
    marked_turns (base_index s) (ct ++ tl)
    ∧ base_index s + length (ct ++ tl) = length (closed s) + length tl
    ∧ (∀ n, n <= length (closed s) →
       take (n - base_index s) (ct ++ tl) = turns_items (base_index s) (drop (base_index s) (take n (closed s)))))
    as Hct.
  { intros tl Htl. subst ct. split_and!.
    - assert (∀ ts i, marked_turns (i + length ts) tl → marked_turns i (turns_items i ts ++ tl)) as Hm.
      { intros ts. induction ts as [|t ts IH]; intros i; cbn; [by rewrite Nat.add_0_r|].
        intros Hm. split; [|apply IH; by replace (S i + length ts) with (i + S (length ts)) by lia].
        exact (proj1 (turns_items_marked i [t])). }
      apply Hm. rewrite length_drop. by replace (_ + _) with (length (closed s)) by lia.
    - rewrite length_app, turns_items_length, length_drop. lia.
    - intros n Hn. rewrite take_app_le by (rewrite turns_items_length, length_drop; lia).
      by rewrite <- turns_items_take, skipn_firstn_comm. }
  assert (closed_items s = default [] (base s) ++ concat ct) as Hc by done.
  assert (∀ t ps, ∃ x, open_items s t ps = default [] (base s) ++ concat (ct ++ [x])
                       ∧ marked_turns (length (closed s)) [x]) as Ho.
  { intros t ps. eexists (turn_items (length (closed s)) (mkTurn (turn_prompt t) ps [])).
    split; [|exact (turns_items_marked (length (closed s)) [mkTurn (turn_prompt t) ps []])].
    rewrite <- turn_open_items, Hc, concat_app, app_assoc. cbn [concat app]. by rewrite app_nil_r. }
  destruct (Hct [] I) as (Hm & Hl & Ht). rewrite app_nil_r in *. cbn in Hl.
  unfold image. destruct (part s) as [|t|[u|]]; cbn -[closed_items open_items].
  - exists ct. rewrite Hc. split_and!; [done..|lia|done].
  - destruct (turn_pieces t) as [|[u|u] ps]; cbn -[closed_items open_items].
    + exists ct. rewrite Hc. split_and!; [done..|lia|done].
    + destruct (Ho t ps) as (x & -> & Hx). destruct (Hct [x] Hx) as (Hm' & Hl' & Ht').
      exists (ct ++ [x]). split_and!; [done..|cbn in Hl'; lia|done].
    + destruct (Ho t ps) as (x & -> & Hx). destruct (Hct [x] Hx) as (Hm' & Hl' & Ht').
      exists (ct ++ [x]). split_and!; [done..|cbn in Hl'; lia|done].
  - exists ct. rewrite Hc. split_and!; [done..|lia|done].
  - exists ct. rewrite Hc. split_and!; [done..|lia|done].
Qed.

Lemma image_counter s :
  prompt_counter (image s) = length (closed s)
  ∨ (∃ t, part s = OpenTurn t) ∧ prompt_counter (image s) = S (length (closed s)).
Proof. unfold image. repeat case_match; subst; eauto. Qed.

Lemma image_rewind s n s' :
  timeline_ok s → timeline_step session_dir target s (RewindEvent n) = Some s' →
  handle_rewind_marker n (image s) = Some (image s').
Proof.
  intros Hok. cbn [timeline_step].
  destruct ((n <? length (all_turns s)) && (base_index s <=? n)) eqn:Hn; [|done].
  apply andb_true_iff in Hn as [Hn Hi]. breflect. intros [= <-].
  assert (closed_base s = base s) as Hcb.
  { unfold closed_base. destruct (part s) as [| |said] eqn:Hp; [done..|].
    destruct (ok_compacted s Hok _ Hp) as [_ Hl]. unfold all_turns in Hn. rewrite Hp, length_app in Hn.
    cbn in Hn. lia. }
  assert (n <= length (closed s)) as Hnc.
  { unfold all_turns in Hn. rewrite length_app in Hn. destruct (part s); cbn in Hn; lia. }
  assert (prompted s = true) as Hpr by (apply (ok_prompted s Hok); lia).
  assert (take n (all_turns s) = take n (closed s)) as Htk by (unfold all_turns; by rewrite take_app_le).
  rewrite Htk, Hcb.
  destruct (image_turns s Hok) as (tis & Hc & Hm & Hl & Ht).
  set (st := set_user false [] None (set_agent [] false (image s))).
  assert (st = mkReplay (rs_conversation (image s)) (prompt_counter (image s)) false [] None true [] false
                 (bool_decide (is_Some (base s))) (base_len s) (base_index s) (user_info s)) as Hst.
  { subst st. unfold image. repeat case_match; cbn; by rewrite Hpr. }
  unfold handle_rewind_marker. fold st. rewrite Hst. cbn -[image].
  assert (image (set_parts (take n (closed s)) Closed (base s) s)
          = mkReplay (default [] (base s) ++ concat (take (n - base_index s) tis)) n false [] None true [] false
              (bool_decide (is_Some (base s))) (base_len s) (base_index s) (user_info s)) as ->.
  { rewrite (Ht n Hnc). unfold image, closed_items. cbn. by rewrite Hpr, length_take_le. }
  destruct (prompt_counter (image s) <=? n) eqn:Hcn; breflect.
  - rewrite take_ge by lia. rewrite Hc.
    assert (prompt_counter (image s) = n) as -> by (destruct (image_counter s) as [E|[_ E]]; lia). done.
  - pose proof (cut_items s (mkReplay (rs_conversation (image s)) (prompt_counter (image s)) false [] None true [] false
                 (bool_decide (is_Some (base s))) (base_len s) (base_index s) (user_info s)) tis n Hok Hc
                 eq_refl eq_refl eq_refl eq_refl Hm) as Hcut.
    assert (tis ≠ []) as Hne by (intros ->; cbn in Hl; lia). specialize (Hcut Hne Hi).
    set (kept := default [] (base s) ++ concat (take (n - base_index s) tis)) in *.
    cbn -[image kept Nat.eqb] in Hcut.
    destruct (bool_decide (is_Some (base s)) && (base_index s <=? n)) eqn:Hb.
    + rewrite Hcut. done.
    + rewrite (proj2 (Nat.leb_le _ _) Hi), andb_true_r in Hb. rewrite Hb in *. destruct (n =? 0) eqn:Hz; breflect.
      * by injection Hcut as <-.
      * by injection Hcut as <-.
Qed.

Lemma adopt_image i s : adopt_user_info i (image s) = image (learn_user_info i s).
Proof.
  unfold adopt_user_info. assert (original_user_info (image s) = user_info s) as ->.
  { unfold image. by repeat case_match. }
  unfold learn_user_info, image, closed_items, open_items. cbn.
  destruct (user_info s) eqn:Hu; repeat case_match; cbn; by rewrite ?Hu.
Qed.

Lemma image_compact s info file :
  timeline_ok s → prompt_index_at_compaction info = length (all_turns s) → auto_continue info = None →
  read_checkpoint session_dir info = inr file → schema_version file <= 1 →
  handle_checkpoint session_dir target info (image s) = inr (Continue, image (compact target info file s)).
Proof.
  intros Hok Hi Ha Hr Hs. unfold handle_checkpoint, compact. rewrite Hr.
  set (s1 := note (Ds (CheckpointUpdate info)) s).
  assert (image s1 = image s) as Him by apply image_note. rewrite <- Him.
  assert (length (all_turns s1) = length (all_turns s)) as Hl by apply length_note.
  destruct (target <? prompt_index_at_compaction info) eqn:Ht; breflect.
  { by rewrite adopt_image. }
  rewrite (proj2 (Nat.ltb_ge _ _)) by lia.
  set (s2 := learn_user_info (file_original_user_info file) s1).
  assert (all_turns s2 = all_turns s1) as Ha2 by done.
  assert (load_checkpoint info file (image s1)
          = image (mkTimeline (prefix s2) (all_turns s2) (Compacted None)
                     (Some (strip_invalid_images (compacted_history file)).1)
                     (length (strip_invalid_images (compacted_history file)).1)
                     (prompt_index_at_compaction info) (user_info s2) (prompted s2))) as ->.
  { unfold load_checkpoint. rewrite Ha, adopt_image. fold s2.
    assert (seen_prompt_index_marker (image s2) = prompted s2 ∧ original_user_info (image s2) = user_info s2) as [Hs1 Hs2].
    { unfold image. by repeat case_match. }
    unfold set_items, set_checkpoint, set_user, set_agent.
    cbn -[image s2 all_turns strip_invalid_images]. rewrite Hs1, Hs2.
    unfold image at 1. unfold closed_items. cbn -[s2 all_turns strip_invalid_images].
    rewrite drop_ge by (rewrite Ha2, Hl; lia). cbn -[s2 all_turns strip_invalid_images].
    by rewrite app_nil_r, Ha2, Hl, Hi. }
  assert (∀ x, prompt_counter (image x) = length (closed x) → prompt_counter (image x) <= target →
    (if target <? prompt_counter (image x) then StopReplay else Continue) = Continue) as Hgo.
  { intros x _ Hx. by rewrite (proj2 (Nat.ltb_ge _ _)). }
  rewrite Hgo; [done|done|]. change (length (all_turns s2) <= target). rewrite Ha2, Hl. lia.
Qed.

(** Every event of a session keeps the timeline well formed. *)
Lemma note_ok u s : timeline_ok s → timeline_ok (note u s).
Proof.
  intros Hok. destruct (length_note u s) as [Hl Hla].
  assert (base (note u s) = base s ∧ base_len (note u s) = base_len s ∧ base_index (note u s) = base_index s
          ∧ prompted (note u s) = prompted s ∧ (∀ said, part (note u s) = Compacted said → part s = Compacted said)
          ∧ (∀ t, part (note u s) = OpenTurn t → ∃ t', part s = OpenTurn t' ∧ turn_prompt t = turn_prompt t'
                                                        ∧ turn_pieces t = turn_pieces t')) as (Hb & Hbl & Hbi & Hp & Hc & Ho).
  { unfold note. destruct (part s) eqn:Hp; [destruct (closed s)| |destruct (closed s)]; cbn; rewrite ?Hp;
      split_and!; try done; intros t'; intros [=]; subst; eauto. }
  split; rewrite ?Hb, ?Hbl, ?Hbi, ?Hp, ?Hla.
  - apply Hok.
  - intros said Hs. rewrite Hl. by apply (ok_compacted s Hok said), Hc.
  - rewrite Hl. apply Hok.
  - apply Hok.
  - intros t Ht. destruct (Ho t Ht) as (t' & Hs & -> & ->). by apply (ok_open s Hok).
  - apply Hok.
Qed.

Lemma learn_ok i s : timeline_ok s → timeline_ok (learn_user_info i s).
Proof. intros []. by split. Qed.

Lemma start_ok bs s : timeline_ok s → prompt_text bs ≠ [] → timeline_ok (start_turn bs s).
Proof.
  intros Hok Hne. destruct (ok_index s Hok) as [Hi Ht]. split; cbn.
  - intros Hb. apply (ok_base s Hok). apply eq_None_not_Some. rewrite <- closed_base_some. by apply eq_None_not_Some.
  - done.
  - unfold all_turns. rewrite length_app. lia.
  - intros items Hb. unfold closed_base in Hb. destruct (part s) as [| |[u|]] eqn:Hp.
    1, 2, 4: by apply (ok_base_items s Hok).
    apply fmap_Some in Hb as (items' & Hb & ->). destruct (ok_base_items s Hok _ Hb) as (said & Hl & Hd & Hs).
    exists (said ++ [assistant u]). rewrite !length_app. cbn. split_and!; [lia| |].
    + rewrite drop_app_le by lia. by rewrite Hd.
    + apply Forall_app. split; [done|by repeat constructor].
  - intros t [= <-]. by split; [|constructor].
  - done.
Qed.

Lemma set_open_ok s t t' :
  timeline_ok s → part s = OpenTurn t → turn_prompt t' = turn_prompt t → Forall piece_ok (turn_pieces t') →
  timeline_ok (set_parts (closed s) (OpenTurn t') (base s) s).
Proof.
  intros Hok Hp Ht Hf. destruct (ok_open s Hok t Hp) as [Hne _]. split; cbn; try apply Hok; [done| |].
  - intros ? [= <-]. by rewrite Ht.
  - intros _. apply (ok_prompted s Hok). unfold all_turns. rewrite Hp, length_app. cbn. lia.
Qed.

Lemma push_piece_ok p ps : piece_ok p → Forall piece_ok ps → Forall piece_ok (push_piece p ps).
Proof.
  intros Hp Hf. destruct p as [t|t], Hf as [|[u|u] ps Hu Hf]; cbn; repeat constructor; try done.
  cbn in *. by destruct u.
Qed.

Lemma step_ok s e s' : timeline_ok s → timeline_step session_dir target s e = Some s' → timeline_ok s'.
Proof.
  intros Hok. destruct e as [bs|t|t|u|info|n|]; cbn [timeline_step].
  - case_bool_decide; [done|]. intros [= <-]. by apply start_ok.
  - destruct (part s) as [|turn|said] eqn:Hp; [done| |]; intros [= <-].
    + eapply (set_open_ok s turn); try done.
      apply push_piece_ok; [done|by apply (ok_open s Hok)].
    + pose proof (note_ok (agent_chunk t) s Hok) as Hn. set (s1 := note _ s) in *.
      assert (part s1 = Compacted said) as Hp1 by (subst s1; unfold note; rewrite Hp; by destruct (closed s)).
      destruct (ok_compacted s1 Hn _ Hp1) as [Hb Hl].
      split; cbn; try apply Hn; try done. 
      intros Hlen. apply (ok_prompted s1 Hn). unfold all_turns. by rewrite Hp1.
  - destruct (part s) as [|turn|said] eqn:Hp; [done| |done]. case_bool_decide; [done|]. intros [= <-].
    eapply (set_open_ok s turn); try done.
      apply push_piece_ok; [done|by apply (ok_open s Hok)].
  - destruct (neutral u); [|done]. intros [= <-]. by apply note_ok.
  - destruct (bool_decide _ && bool_decide _) eqn:Hc; [|done].
    apply andb_true_iff in Hc as [Hi%bool_decide_eq_true_1 _].
    destruct (read_checkpoint session_dir info) as [|file]; [done|]. destruct (_ <=? _); [|done]. intros [= <-].
    unfold compact. pose proof (note_ok (Ds (CheckpointUpdate info)) s Hok) as Hn.
    pose proof (proj2 (length_note (Ds (CheckpointUpdate info)) s)) as Hl. set (s1 := note _ s) in *.
    pose proof (learn_ok (file_original_user_info file) s1 Hn) as Hn2. destruct (target <? _) eqn:Ht; breflect; [done|].
    set (s2 := learn_user_info _ s1) in *. assert (all_turns s2 = all_turns s1) as Ha by done.
    split; cbn -[all_turns s2]; rewrite ?Ha, ?Hl, ?Hi; try done.
    + split; [done|lia].
    + intros items [= <-]. exists []. rewrite drop_ge by done. cbn. rewrite Nat.add_0_r. by split_and!.
    + unfold all_turns at 1. cbn -[all_turns s2]. rewrite app_nil_r, Hl. intros Hlen.
      apply (ok_prompted s1 Hn). by rewrite Hl.
  - destruct (_ && _) eqn:Hn; [|done]. apply andb_true_iff in Hn as [Hn Hi]. breflect. intros [= <-].
    assert (closed_base s = base s) as Hcb.
    { unfold closed_base. destruct (part s) as [| |said] eqn:Hp; [done..|].
      destruct (ok_compacted s Hok _ Hp) as [_ Hl]. unfold all_turns in Hn. rewrite Hp, length_app in Hn.
      cbn in Hn. lia. }
    rewrite Hcb. split; cbn; try apply Hok; try done.
    + rewrite length_take_le by lia. split; [done|]. apply Hok.
    + intros _. apply (ok_prompted s Hok). lia.
  - by intros [= <-].
Qed.

Lemma new_ok : timeline_ok timeline_new.
Proof. split; cbn; try done; [lia|lia]. Qed.

(** One event: its lines take the image of the timeline to the image of the next. *)
Lemma replay_event s e s' :
  timeline_ok s → timeline_step session_dir target s e = Some s' →
  replay_loop session_dir target (logged (length (all_turns s)) e) (image s) = Some (inr (image s')).
Proof.
  intros Hok Hs. destruct e as [bs|t|t|u|info|n|].
  - cbn [timeline_step] in Hs. case_bool_decide; [done|]. injection Hs as <-. by apply image_start_turn.
  - cbn [logged replay_loop process_update agent_chunk user_chunk]. by rewrite (image_reply s t s').
  - cbn [logged replay_loop process_update agent_chunk user_chunk]. by rewrite (image_echo s t s').
  - cbn [timeline_step] in Hs. destruct (neutral u) eqn:Hu; [|done]. injection Hs as <-. rewrite image_note.
    by destruct u as [[]|[]].
  - cbn [timeline_step] in Hs. destruct (_ && _) eqn:Hc; [|done].
    apply andb_true_iff in Hc as [Hi%bool_decide_eq_true_1 Ha%bool_decide_eq_true_1].
    destruct (read_checkpoint session_dir info) as [|file] eqn:Hr; [done|].
    destruct (_ <=? _) eqn:Hv; [|done]. breflect. injection Hs as <-.
    cbn -[image handle_checkpoint]. by rewrite (image_compact s info file).
  - cbn [logged replay_loop process_update agent_chunk user_chunk]. by rewrite (image_rewind s n s').
  - by injection Hs as <-.
Qed.

(** Without a panic, an error or a stop, the loop composes. *)
Lemma process_goes_on u st r :
  process_update session_dir target u st = Some (inr r) → r.1 = Continue ∨ ∃ info, u = Ds (CheckpointUpdate info).
Proof.
  destruct u as [[]|[]]; cbn; try (intros [= <-]; by left); [eauto|].
  destruct (handle_rewind_marker _ st); [|done]. intros [= <-]. by left.
Qed.

Lemma checkpoint_goes_on info st r :
  handle_checkpoint session_dir target info st = inr r → r.1 = Continue.
Proof.
  unfold handle_checkpoint. destruct (read_checkpoint session_dir info) as [|file]; [done|].
  destruct (target <? prompt_index_at_compaction info) eqn:Ht; [by intros [= <-]|]. breflect.
  destruct (1 <? _); [done|]. intros [= <-]. cbn [fst].
  assert (prompt_counter (load_checkpoint info file st) = prompt_index_at_compaction info) as ->.
  { unfold load_checkpoint. by destruct (auto_continue info). }
  by rewrite (proj2 (Nat.ltb_ge _ _)).
Qed.

Lemma replay_loop_app l l' st st' :
  replay_loop session_dir target l st = Some (inr st') →
  replay_loop session_dir target (l ++ l') st = replay_loop session_dir target l' st'.
Proof.
  revert st. induction l as [|[u|] l IH]; intros st; cbn -[process_update].
  - by intros [= <-].
  - destruct (process_update session_dir target u st) as [[e|[a st1]]|] eqn:Hp; cbn -[process_update]; [done| |done].
    assert (a = Continue) as ->; [|apply IH].
    destruct (process_goes_on _ _ _ Hp) as [?|[info ->]]; [done|]. injection Hp as Hp.
    exact (checkpoint_goes_on _ _ _ Hp).
  - apply IH.
Qed.

Lemma live_run es s log s' log' :
  timeline_ok s → replay_loop session_dir target log replay_new = Some (inr (image s)) →
  live session_dir target es s log = Some (s', log') →
  timeline_ok s' ∧ replay_loop session_dir target log' replay_new = Some (inr (image s')).
Proof.
  revert s log. induction es as [|e es IH]; intros s log Hok Hr; cbn.
  { by intros [= <- <-]. }
  destruct (timeline_step session_dir target s e) as [s1|] eqn:Hs; [|done]. apply IH.
  - by eapply step_ok.
  - rewrite (replay_loop_app _ _ _ (image s)) by done. by apply replay_event.
Qed.

(** The end of the replay cuts the items at the target. *)
Lemma finish_image s :
  timeline_ok s →
  finish_replay target (image s)
  = Some (mkReplayResult (items_before target s) (min target (length (all_turns s))) (user_info s)
            ((λ _, base_index s) <$> base s)).
Proof.
  intros Hok. unfold finish_replay. rewrite (flush_image s Hok).
  set (tis := turns_items (base_index s) (drop (base_index s) (all_turns s))).
  assert (all_items s = default [] (closed_base s) ++ concat tis) as Hall by done.
  assert (items_before target s = default [] (closed_base s) ++ concat (take (target - base_index s) tis)) as Hib by done.
  assert ((if bool_decide (is_Some (base s)) then Some (base_index s) else None) = (λ _, base_index s) <$> base s) as Hm.
  { by destruct (base s). }
  destruct (ok_index s Hok) as [Hi Hit].
  assert (base_index s + length tis = length (all_turns s)) as Hlen.
  { subst tis. rewrite turns_items_length, length_drop. unfold all_turns. rewrite length_app. lia. }
  cbn -[all_items all_turns Nat.ltb Nat.leb Nat.eqb cut_after_checkpoint cut_conversation]. destruct (target <? length (all_turns s)) eqn:Ht; breflect.
  - assert (timeline_ok (set_parts (all_turns s) Closed (closed_base s) s)) as Hok'.
    { pose proof (start_ok [TextBlock (txt "x") false] s Hok ltac:(done)) as Hs. destruct Hs as [H1 H2 H3 H4 H5 H6].
      split; cbn in *; try done. intros Hl. apply (ok_prompted s Hok).
      unfold all_turns at 1 in Hl. cbn in Hl. by rewrite app_nil_r in Hl. }
    pose proof (cut_items (set_parts (all_turns s) Closed (closed_base s) s)
      (mkReplay (all_items s) (length (all_turns s)) (in_user_message (image s)) [] None (prompted s) [] false
        (bool_decide (is_Some (base s))) (base_len s) (base_index s) (user_info s)) tis target Hok') as Hcut.
    cbn -[all_items all_turns image cut_after_checkpoint cut_conversation Nat.eqb Nat.leb] in Hcut.
    rewrite Hcut; clear Hcut.
    + cbn -[all_turns Nat.min]. rewrite Hm, Nat.min_l by lia. done.
    + done.
    + apply bool_decide_ext. symmetry. apply closed_base_some.
    + done.
    + done.
    + apply (ok_prompted s Hok). lia.
    + apply turns_items_marked.
    + intros Hnil. rewrite Hnil in Hlen. cbn in Hlen. lia.
    + done.
  - rewrite Hm. f_equal. f_equal; [|lia]. rewrite Hib, take_ge by lia. done.
Qed.

Lemma image_new : image timeline_new = replay_new.
Proof. done. Qed.

(** C6: the replay of the log of a session answers the conversation of its timeline at
    the target: the turns that were not undone, in their order, each with its prompt and
    what was said in it; the turns before a compaction that the target does not precede
    are the history of its checkpoint; the index is that of the target or of the end.
    A session here is a course of events in which every prompt has text; every reply and every echo of
    the user's text is in a turn, an echo not in the rest of a turn that was compacted; a compaction
    does not continue by itself, names the number of turns so far, and its checkpoint file can be read; and
    a rewind goes back to an earlier prompt that is not from before the last checkpoint at or before
    the target. *)
Theorem replay_exact (es : list SessionEvent) (s : Timeline) (log : list (option SessionUpdate)) :
  session_run session_dir target es = Some (s, log) →
  replay_to_prompt session_dir (inr (Some log)) target
  = Some (inr (mkReplayResult (items_before target s) (min target (length (all_turns s))) (user_info s)
                 ((λ _, base_index s) <$> base s))).
Proof.
  intros Hl. unfold session_run in Hl.
  destruct (live_run es timeline_new [] s log new_ok ltac:(by rewrite image_new) Hl) as [Hok Hr].
  cbn [replay_to_prompt]. rewrite Hr. cbn [mbind option_bind]. by rewrite (finish_image s Hok).
Qed.

End replay_timeline.

(** ** The other readers of the log *)

Definition timeline_updates (s : Timeline) : list SessionUpdate :=
  prefix s ++ concat (turn_updates <$> all_turns s).

(** Where the updates of turns begin. *)
Fixpoint turn_starts (i : nat) (ts : list Turn) : list nat :=
  match ts with [] => [] | t :: ts => i :: turn_starts (i + length (turn_updates t)) ts end.

Lemma turn_starts_app i ts ts' :
  turn_starts i (ts ++ ts') = turn_starts i ts ++ turn_starts (i + length (concat (turn_updates <$> ts))) ts'.
Proof.
  revert i. induction ts as [|t ts IH]; intros i; cbn; [by rewrite Nat.add_0_r|].
  rewrite IH, length_app. do 3 f_equal. lia.
Qed.

Lemma turn_starts_take n i ts : take n (turn_starts i ts) = turn_starts i (take n ts).
Proof. revert n i. induction ts as [|t ts IH]; intros [|n] i; cbn; [done..|]. by rewrite IH. Qed.

Lemma turn_starts_lookup n i ts :
  n < length ts → turn_starts i ts !! n = Some (i + length (concat (turn_updates <$> take n ts))).
Proof.
  revert n i. induction ts as [|t ts IH]; intros n i; cbn; [lia|].
  destruct n as [|n]; cbn; intros Hn; [by rewrite Nat.add_0_r|].
  rewrite IH by lia. rewrite length_app. f_equal. lia.
Qed.

(** A note goes behind the last update. *)
Lemma alter_last_split (f : Turn → Turn) ts :
  ts ≠ [] → ∃ ts' t, ts = ts' ++ [t] ∧ alter f (pred (length ts)) ts = ts' ++ [f t].
Proof.
  intros Hne. destruct (exists_last Hne) as (ts' & t & ->). exists ts', t. split; [done|].
  rewrite length_app. cbn. replace (pred _) with (length ts' + 0) by lia.
  by rewrite alter_app_r.
Qed.

(** An update more in the last turn, or before the first one. *)
Definition grows (u : SessionUpdate) (s s' : Timeline) : Prop :=
  prompted s' = prompted s ∧
  ((all_turns s = [] ∧ all_turns s' = [] ∧ prefix s' = prefix s ++ [u])
   ∨ ∃ ts t t', all_turns s = ts ++ [t] ∧ all_turns s' = ts ++ [t'] ∧ turn_updates t' = turn_updates t ++ [u]
                ∧ turn_prompt t' = turn_prompt t ∧ prefix s' = prefix s).

Lemma note_grows u s : grows u s (note u s).
Proof.
  assert (∀ ts, ts ≠ [] → ∃ ts' t, ts = ts' ++ [t]
    ∧ alter (add_update u) (pred (length ts)) ts = ts' ++ [add_update u t]) as Hl by (intros; by apply alter_last_split).
  unfold note, grows, all_turns. destruct (part s) as [|t|said] eqn:Hp; [destruct (closed s) as [|c cl] eqn:Hc| |destruct (closed s) as [|c cl] eqn:Hc].
  - split; [done|]. by left.
  - split; [done|]. right. destruct (Hl (c :: cl) ltac:(done)) as (ts & t & -> & Ha). exists ts, t, (add_update u t).
    cbn [set_parts closed part open_turn]. by rewrite Ha, !app_nil_r.
  - split; [done|]. right. by exists (closed s), t, (add_update u t).
  - split; [done|]. by left.
  - split; [done|]. right. destruct (Hl (c :: cl) ltac:(done)) as (ts & t & -> & Ha). exists ts, t, (add_update u t).
    cbn [set_parts closed part open_turn]. by rewrite Ha, !app_nil_r.
Qed.

Lemma grows_spec u s s' :
  grows u s s' →
  timeline_updates s' = timeline_updates s ++ [u]
  ∧ turn_starts (length (prefix s')) (all_turns s') = turn_starts (length (prefix s)) (all_turns s)
  ∧ length (all_turns s') = length (all_turns s) ∧ prompted s' = prompted s
  ∧ turn_prompt <$> all_turns s' = turn_prompt <$> all_turns s.
Proof.
  unfold timeline_updates. intros [Hp [(H1 & H2 & H3)|(ts & t & t' & H1 & H2 & Hu & Ht & H3)]]; rewrite H1, H2, H3, Hp.
  - cbn. by rewrite !app_nil_r.
  - rewrite !fmap_app, !concat_app, !length_app, !turn_starts_app. cbn. rewrite Hu, Ht, !app_nil_r, !app_assoc. done.
Qed.

Section readers.
Context `{CheckpointFiles}.
Context (session_dir : text) (target : nat).

Notation step := (timeline_step session_dir target).

(** Every event but a prompt, a rewind and a torn line appends one update to the
    timeline and leaves its turns. *)
Definition appended (e : SessionEvent) : option SessionUpdate :=
  match e with
  | ReplyEvent t => Some (agent_chunk t)
  | EchoEvent t => Some (user_chunk (TextBlock t false) None)
  | OtherEvent u => Some u
  | CompactEvent info => Some (Ds (CheckpointUpdate info))
  | _ => None
  end.

Lemma appended_logged n e u : appended e = Some u → logged n e = [Some u].
Proof. destruct e; cbn; congruence. Qed.

Lemma step_grows s e u s' : step s e = Some s' → appended e = Some u → grows u s s'.
Proof.
  intros Hs. destruct e as [bs|t|t|v|info|n|]; cbn [appended timeline_step] in *; intros [= <-].
  - destruct (part s) as [|turn|said] eqn:Hp; [done| |]; injection Hs as <-.
    + unfold grows, all_turns. rewrite Hp. split; [done|]. right. by eexists _, _, _.
    + pose proof (note_grows (agent_chunk t) s) as Hg. set (s1 := note _ s) in *.
      assert (part s1 = Compacted said) as Hp1 by (subst s1; unfold note; rewrite Hp; by destruct (closed s)).
      unfold grows, all_turns in *. by rewrite Hp1 in Hg.
  - destruct (part s) as [|turn|said] eqn:Hp; [done| |done]. case_bool_decide; [done|]. injection Hs as <-.
    unfold grows, all_turns. rewrite Hp. split; [done|]. right. by eexists _, _, _.
  - destruct (neutral v); [|done]. injection Hs as <-. apply note_grows.
  - destruct (_ && _); [|done]. destruct (read_checkpoint session_dir info) as [|file]; [done|].
    destruct (_ <=? _); [|done]. injection Hs as <-. unfold compact.
    pose proof (note_grows (Ds (CheckpointUpdate info)) s) as Hg. set (s1 := note _ s) in *.
    destruct (target <? _); [done|]. unfold grows, all_turns in *. cbn in *. by rewrite app_nil_r.
Qed.

Lemma step_appended s e u s' :
  step s e = Some s' → appended e = Some u →
  timeline_updates s' = timeline_updates s ++ [u]
  ∧ turn_starts (length (prefix s')) (all_turns s') = turn_starts (length (prefix s)) (all_turns s)
  ∧ length (all_turns s') = length (all_turns s) ∧ prompted s' = prompted s
  ∧ turn_prompt <$> all_turns s' = turn_prompt <$> all_turns s.
Proof. intros Hs Ha. by eapply grows_spec, step_grows. Qed.

(** A tracker at a point of the timeline: the next prompt opens a run. *)
Definition tracked (s : Timeline) (tr : UserRunTurnTracker) : Prop :=
  seen_marker tr = prompted s ∧ (in_user tr = true → current_run_pi tr ≠ Some (length (all_turns s))).

Definition run_of (n : nat) : UserRunTurnTracker := mkRuns true true (Some n).

Lemma track_first s tr b :
  tracked s tr →
  track (user_chunk b (Some (length (all_turns s)))) tr = (true, run_of (length (all_turns s))).
Proof.
  intros [_ Hf]. cbn -[all_turns]. unfold on_user_chunk, opens_run. rewrite bool_decide_true by eauto.
  cbn -[all_turns]. destruct (in_user tr); cbn -[all_turns]; [|done].
  rewrite bool_decide_true by (intros Hc; by apply Hf). done.
Qed.

Lemma track_next b n : track (user_chunk b (Some n)) (run_of n) = (false, run_of n).
Proof. cbn. unfold on_user_chunk, opens_run. cbn. rewrite bool_decide_false by naive_solver. done. Qed.

Lemma track_appended s e u s' tr :
  step s e = Some s' → appended e = Some u → (∀ t, e = EchoEvent t → prompted s = true) → tracked s tr →
  is_rewind u = false ∧ ∃ tr', track u tr = (false, tr') ∧ tracked s' tr'.
Proof.
  intros Hs Ha He [Hseen Hf]. destruct (step_appended s e u s' Hs Ha) as (_ & _ & Hl & Hp & _).
  unfold tracked. rewrite Hl, Hp.
  assert (tracked s (on_non_user tr)) as Hnon by by split.
  destruct e; cbn in Ha; simplify_eq.
  - split; [done|]. eexists. by split; [|apply Hnon].
  - split; [done|]. rewrite (He t eq_refl) in *. cbn -[all_turns]. unfold on_user_chunk. cbn -[all_turns].
    rewrite Hseen. destruct (opens_run None true (in_user tr) (current_run_pi tr)) eqn:Ho; eexists; (split; [done|]); [done|].
    split; [done|]. intros _. cbn -[all_turns]. apply Hf. unfold opens_run in Ho. by destruct (in_user tr).
  - split; [|destruct (neutral u) eqn:Hn].
    + cbn in Hs. by destruct u as [|[]].
    + exists (on_non_user tr). split; [by destruct u as [[]|[]]|apply Hnon].
    + cbn in Hs. by rewrite Hn in Hs.
  - split; [done|]. eexists. by split; [|apply Hnon].
Qed.

Lemma echo_prompted s t s' : (0 < length (all_turns s) → prompted s = true) → step s (EchoEvent t) = Some s' → prompted s = true.
Proof.
  intros Hp. cbn. destruct (part s) as [|turn|] eqn:Hs; [done| |done]. intros _. apply Hp.
  unfold all_turns. rewrite Hs, length_app. cbn. lia.
Qed.

Lemma filter_blocks n bs rest result starts :
  filter_rewind_loop (((λ b, user_chunk b (Some n)) <$> bs) ++ rest) result starts (run_of n)
  = filter_rewind_loop rest (result ++ ((λ b, user_chunk b (Some n)) <$> bs)) starts (run_of n).
Proof.
  revert result. induction bs as [|b bs IH]; intros result.
  { by rewrite app_nil_r. }
  cbn [fmap list_fmap app filter_rewind_loop]. rewrite track_next. fold (run_of n).
  change (list_fmap _ _ ?f bs) with (f <$> bs). rewrite IH. by rewrite <- app_assoc.
Qed.

Lemma omap_id_fmap_Some {A B} (f : A → B) (l : list A) : omap id ((λ x, Some (f x)) <$> l) = f <$> l.
Proof. induction l as [|x l IH]; [done|]. cbn. by rewrite IH. Qed.

Lemma start_updates bs s :
  let n := length (all_turns s) in
  all_turns (start_turn bs s) = all_turns s ++ [mkTurn (prompt_text bs) [] ((λ b, user_chunk b (Some n)) <$> bs)]
  ∧ timeline_updates (start_turn bs s) = timeline_updates s ++ ((λ b, user_chunk b (Some n)) <$> bs)
  ∧ turn_starts (length (prefix (start_turn bs s))) (all_turns (start_turn bs s))
    = turn_starts (length (prefix s)) (all_turns s) ++ [length (timeline_updates s)].
Proof.
  intros n. set (t := mkTurn _ _ _).
  assert (all_turns (start_turn bs s) = all_turns s ++ [t]) as Ha by done.
  split_and!; [done| |]; unfold timeline_updates; rewrite Ha.
  - rewrite fmap_app, concat_app. cbn -[all_turns]. by rewrite app_nil_r, app_assoc.
  - rewrite turn_starts_app, length_app. done.
Qed.

Lemma start_tracked bs s : tracked (start_turn bs s) (run_of (length (all_turns s))).
Proof.
  split; [done|]. intros _. destruct (start_updates bs s) as [-> _]. rewrite length_app. cbn -[all_turns].
  intros [=]. lia.
Qed.

Lemma rewind_updates n s :
  n < length (all_turns s) →
  let s' := set_parts (take n (all_turns s)) Closed (closed_base s) s in
  default (length (timeline_updates s)) (turn_starts (length (prefix s)) (all_turns s) !! n)
    = length (timeline_updates s')
  ∧ take (length (timeline_updates s')) (timeline_updates s) = timeline_updates s'
  ∧ take n (turn_starts (length (prefix s)) (all_turns s)) = turn_starts (length (prefix s')) (all_turns s').
Proof.
  intros Hn s'. assert (all_turns s' = take n (all_turns s)) as Ha by (subst s'; unfold all_turns at 1; cbn -[all_turns]; by rewrite app_nil_r).
  unfold timeline_updates. rewrite Ha, turn_starts_lookup, turn_starts_take by done.
  change (prefix s') with (prefix s). cbn -[all_turns]. split_and!; [by rewrite length_app| |done].
  rewrite <- (take_drop n (all_turns s)) at 2. rewrite fmap_app, concat_app, app_assoc. apply take_app_length.
Qed.

(** The filter follows the timeline. *)
Lemma filter_event s e s' tr :
  timeline_ok target s → step s e = Some s' → tracked s tr →
  ∃ tr', tracked s' tr' ∧ ∀ rest,
    filter_rewind_loop (omap id (logged (length (all_turns s)) e) ++ rest) (timeline_updates s)
      (turn_starts (length (prefix s)) (all_turns s)) tr
    = filter_rewind_loop rest (timeline_updates s') (turn_starts (length (prefix s')) (all_turns s')) tr'.
Proof.
  intros Hok Hs Htr. destruct (appended e) as [u|] eqn:Ha.
  { destruct (track_appended s e u s' tr Hs Ha) as (Hu & tr' & Ht & Htr'); [|done|].
    { intros t ->. eapply echo_prompted; [apply Hok|done]. }
    destruct (step_appended s e u s' Hs Ha) as (Hup & Hst & _).
    exists tr'. split; [done|]. intros rest. rewrite (appended_logged _ e u Ha). cbn [omap list_omap id app].
    cbn [filter_rewind_loop]. rewrite Ht, Hup, Hst. destruct u as [|[]]; done. }
  destruct e as [bs|t|t|v|info|n|]; cbn [appended] in Ha; try done; cbn [timeline_step] in Hs.
  - case_bool_decide as Hne; [done|]. injection Hs as <-.
    exists (run_of (length (all_turns s))). split; [apply start_tracked|]. intros rest.
    destruct (start_updates bs s) as (_ & -> & ->). cbn [logged]. rewrite omap_id_fmap_Some.
    destruct bs as [|b bs]; [done|]. cbn [fmap list_fmap app filter_rewind_loop].
    rewrite track_first by done. change (list_fmap _ _ ?f bs) with (f <$> bs).
    rewrite filter_blocks. by rewrite <- app_assoc.
  - destruct (_ && _) eqn:Hn; [|done]. apply andb_true_iff in Hn as [Hn _]. breflect. injection Hs as <-.
    destruct (rewind_updates n s Hn) as (H1 & H2 & H3).
    exists (on_non_user tr). split; [by split; [apply Htr|]|]. intros rest.
    cbn [logged omap list_omap id app filter_rewind_loop]. by rewrite H1, H2, H3.
  - injection Hs as <-. exists tr. split; [done|]. done.
Qed.

Lemma live_filter es s log s' log' :
  timeline_ok target s → (∃ tr, tracked s tr ∧ ∀ rest,
    filter_rewind_loop (omap id log ++ rest) [] [] runs_new
    = filter_rewind_loop rest (timeline_updates s) (turn_starts (length (prefix s)) (all_turns s)) tr) →
  live session_dir target es s log = Some (s', log') →
  filter_rewind_loop (omap id log') [] [] runs_new = timeline_updates s'.
Proof.
  revert s log. induction es as [|e es IH]; intros s log Hok (tr & Htr & Hf); cbn.
  { intros [= <- <-]. pose proof (Hf []) as H0. rewrite app_nil_r in H0. by rewrite H0. }
  destruct (step s e) as [s1|] eqn:Hs; [|done]. apply IH.
  - by eapply step_ok.
  - destruct (filter_event s e s1 tr Hok Hs Htr) as (tr1 & Htr1 & Hf1). exists tr1. split; [done|].
    intros rest. rewrite omap_app, <- app_assoc. by rewrite Hf, Hf1.
Qed.

Lemma filter_no_rewind us result starts tr :
  any_b is_rewind us = false → filter_rewind_loop us result starts tr = result ++ us.
Proof.
  revert result starts tr. induction us as [|u us IH]; intros result starts tr; cbn [any_b existsb].
  { intros _. by rewrite app_nil_r. }
  intros [Hu Hus]%orb_false_iff. cbn [filter_rewind_loop].
  assert (∀ st tr, filter_rewind_loop us (result ++ [u]) st tr = result ++ u :: us) as Hgo.
  { intros st tr'. rewrite IH by done. by rewrite <- app_assoc. }
  destruct u as [|[]]; try done; destruct (track _ _); apply Hgo.
Qed.

Lemma filter_is_loop us : filter_rewind_updates us = filter_rewind_loop us [] [] runs_new.
Proof.
  unfold filter_rewind_updates. destruct (any_b is_rewind us) eqn:Ha; [done|]. by rewrite filter_no_rewind.
Qed.

Lemma filter_exact es s log :
  session_run session_dir target es = Some (s, log) →
  filter_rewind_updates (omap id log) = timeline_updates s.
Proof.
  intros Hl. rewrite filter_is_loop. eapply (live_filter es timeline_new []); [apply new_ok| |exact Hl].
  exists runs_new. by split.
Qed.

(** ** The cut of the updates *)

(** An update that opens no turn once there was a marker. *)
Definition quiet (u : SessionUpdate) : Prop := ∀ c, chunk_of u = Some c → chunk_prompt_index c = None.

(** Each turn is logged as the chunks of its prompt, and quiet updates. *)
Fixpoint logged_turns (k : nat) (ts : list Turn) : Prop :=
  match ts with
  | [] => True
  | t :: ts =>
      (∃ b bs rest, turn_updates t = ((λ b, user_chunk b (Some k)) <$> b :: bs) ++ rest ∧ Forall quiet rest)
      ∧ logged_turns (S k) ts
  end.

Definition well_logged (s : Timeline) : Prop :=
  Forall (λ u, chunk_of u = None) (prefix s) ∧ logged_turns 0 (all_turns s).

Lemma logged_turns_app k ts ts' :
  logged_turns k (ts ++ ts') ↔ logged_turns k ts ∧ logged_turns (k + length ts) ts'.
Proof.
  revert k. induction ts as [|t ts IH]; intros k; cbn; [rewrite Nat.add_0_r; naive_solver|].
  rewrite IH. replace (k + S (length ts)) with (S k + length ts) by lia. naive_solver.
Qed.

Lemma logged_turns_take n k ts : logged_turns k ts → logged_turns k (take n ts).
Proof. intros H0. rewrite <- (take_drop n ts) in H0. by apply logged_turns_app in H0 as [? _]. Qed.

Lemma grows_logged u s s' :
  grows u s s' → quiet u → (all_turns s = [] → chunk_of u = None) → well_logged s → well_logged s'.
Proof.
  unfold well_logged. intros [_ [(H1 & H2 & H3)|(ts & t & t' & H1 & H2 & Hu & _ & H3)]] Hq Hc [Hp Hl].
  - rewrite H2, H3. split; [|done]. apply Forall_app. split; [done|]. repeat constructor. by apply Hc.
  - rewrite H2, H3. split; [done|]. rewrite H1 in Hl. apply logged_turns_app in Hl as [Hl [(b & bs & rest & Ht & Hr) _]].
    apply logged_turns_app. split; [done|]. split; [|done]. exists b, bs, (rest ++ [u]).
    rewrite Hu, Ht, <- app_assoc. split; [done|]. apply Forall_app. by repeat constructor.
Qed.

Lemma step_logged s e s' : step s e = Some s' → well_logged s → well_logged s'.
Proof.
  intros Hs Hw. destruct (appended e) as [u|] eqn:Ha.
  { eapply grows_logged; [by eapply step_grows| | |done].
    - destruct e as [| | |v| | |]; cbn in Ha, Hs; simplify_eq; intros c; cbn; try done; [by intros [= <-]|].
      by destruct u as [[]|[]].
    - destruct e as [| |t|v| | |]; cbn [appended timeline_step] in Ha, Hs; simplify_eq; try done.
      + unfold all_turns. destruct (part s) as [|turn|]; [done| |done]. intros H0.
        by apply (f_equal length) in H0; rewrite length_app in H0; cbn in H0; lia.
      + by destruct u as [[]|[]]. }
  destruct Hw as [Hp Hl].
  destruct e as [bs|t|t|v|info|n|]; cbn [appended] in Ha; try done; cbn [timeline_step] in Hs.
  - case_bool_decide as Hne; [done|]. injection Hs as <-. split; [done|].
    destruct (start_updates bs s) as [-> _]. apply logged_turns_app. split; [done|]. split; [|done].
    destruct bs as [|b bs]; [done|]. exists b, bs, []. cbn -[fmap]. by rewrite app_nil_r.
  - destruct (_ && _) eqn:Hn; [|done]. injection Hs as <-. split; [done|].
    unfold all_turns at 1. cbn -[all_turns]. rewrite app_nil_r. by apply logged_turns_take.
  - by injection Hs as <-.
Qed.

Lemma truncate_skip_prefix k count i tr us rest :
  Forall (λ u, chunk_of u = None) us →
  ∃ tr', updates_truncate_loop k count i tr (us ++ rest) = updates_truncate_loop k count (i + length us) tr' rest
         ∧ (us ≠ [] → in_user tr' = false) ∧ (us = [] → tr' = tr).
Proof.
  intros Hu. revert i tr. induction Hu as [|u us Hu _ IH]; intros i tr; cbn.
  { exists tr. by rewrite Nat.add_0_r. }
  unfold track. rewrite Hu. destruct (IH (S i) (on_non_user tr)) as (tr' & -> & H1 & H2).
  exists tr'. split_and!; [f_equal; lia| |done]. intros _. destruct us; [by rewrite H2|by apply H1].
Qed.

(** The rest of a turn opens none. *)
Definition within (k : nat) (tr : UserRunTurnTracker) : Prop :=
  seen_marker tr = true ∧ (in_user tr = true → ∀ j, k < j → current_run_pi tr ≠ Some j).

Lemma truncate_skip_quiet k n count i tr us rest :
  Forall quiet us → within n tr →
  ∃ tr', updates_truncate_loop k count i tr (us ++ rest) = updates_truncate_loop k count (i + length us) tr' rest
         ∧ within n tr'.
Proof.
  intros Hu. revert i tr. induction Hu as [|u us Hu _ IH]; intros i tr Hw; cbn.
  { exists tr. by rewrite Nat.add_0_r. }
  assert (∃ tr', track u tr = (false, tr') ∧ within n tr') as (tr1 & -> & Hw1).
  { unfold track. destruct (chunk_of u) as [c|] eqn:Hc.
    - rewrite (Hu c Hc). destruct Hw as [Hs Hf]. unfold on_user_chunk. cbn. rewrite Hs.
      destruct (opens_run None true (in_user tr) (current_run_pi tr)) eqn:Ho; eexists; (split; [done|]); [done|].
      split; [done|]. intros _. cbn. apply Hf. unfold opens_run in Ho. by destruct (in_user tr).
    - eexists. split; [done|]. by split; [apply Hw|]. }
  destruct (IH (S i) tr1 Hw1) as (tr' & -> & Hw'). exists tr'. split; [f_equal; lia|done].
Qed.

Lemma truncate_skip_blocks k n count i bs rest :
  updates_truncate_loop k count i (run_of n) (((λ b, user_chunk b (Some n)) <$> bs) ++ rest)
  = updates_truncate_loop k count (i + length bs) (run_of n) rest.
Proof.
  revert i. induction bs as [|b bs IH]; intros i; [by rewrite Nat.add_0_r|].
  cbn [fmap list_fmap app updates_truncate_loop]. rewrite track_next.
  change (list_fmap _ _ ?f bs) with (f <$> bs). rewrite IH. f_equal. cbn. lia.
Qed.

Lemma truncate_turns k n i tr ts :
  logged_turns n ts → n <= k + 1 → (in_user tr = true → current_run_pi tr ≠ Some n) →
  updates_truncate_loop k n i tr (concat (turn_updates <$> ts))
  = i + length (concat (turn_updates <$> take (k + 1 - n) ts)).
Proof.
  revert n i tr. induction ts as [|t ts IH]; intros n i tr Hl Hn Hf.
  { rewrite take_nil. cbn. lia. }
  destruct Hl as [(b & bs & rest & Ht & Hr) Hl]. cbn [fmap list_fmap concat]. rewrite Ht.
  cbn [fmap list_fmap app updates_truncate_loop].
  assert (track (user_chunk b (Some n)) tr = (true, run_of n)) as ->.
  { cbn. unfold on_user_chunk, opens_run. cbn. destruct (in_user tr); cbn; [|done].
    rewrite bool_decide_true by (intros Hc; by apply Hf). done. }
  destruct (k + 1 <? S n) eqn:Hk; breflect.
  - replace (k + 1 - n) with 0 by lia. cbn. lia.
  - change (list_fmap _ _ ?f bs) with (f <$> bs). change (list_fmap _ _ ?f ts) with (f <$> ts).
    rewrite <- app_assoc, truncate_skip_blocks.
    destruct (truncate_skip_quiet k n (S n) (S i + length bs) (run_of n) rest (concat (turn_updates <$> ts)) Hr)
      as (tr' & -> & Hw).
    { split; [done|]. intros _ j Hj. cbn. intros [=]. lia. }
    rewrite (IH (S n)) by (done || lia || (intros Hi; apply Hw; [done|lia])).
    replace (k + 1 - n) with (S (k + 1 - S n)) by lia. cbn [take fmap list_fmap concat]. rewrite Ht.
    cbn [fmap list_fmap app]. change (list_fmap _ _ ?f (take (k + 1 - S n) ts)) with (f <$> take (k + 1 - S n) ts).
    cbn [length]. rewrite !length_app, length_fmap. lia.
Qed.

Lemma updates_cut_exact s k :
  well_logged s →
  take (updates_truncate_for_prompt (timeline_updates s) k) (timeline_updates s)
  = prefix s ++ concat (turn_updates <$> take (k + 1) (all_turns s)).
Proof.
  intros [Hp Hl]. unfold updates_truncate_for_prompt, timeline_updates.
  destruct (truncate_skip_prefix k 0 0 runs_new (prefix s) (concat (turn_updates <$> all_turns s)) Hp)
    as (tr & -> & H1 & H2).
  rewrite truncate_turns; [|done|lia|].
  - rewrite Nat.sub_0_r. cbn. rewrite take_app_ge by lia. f_equal.
    replace (_ - _) with (length (concat (turn_updates <$> take (k + 1) (all_turns s)))) by lia.
    rewrite <- (take_drop (k + 1) (all_turns s)) at 2. by rewrite fmap_app, concat_app, take_app_length.
  - intros Hi. destruct (decide (prefix s = [])) as [Hn|Hn]; [|by rewrite H1 in Hi]. by rewrite H2 in Hi.
Qed.

Lemma live_logged es s log s' log' :
  well_logged s → live session_dir target es s log = Some (s', log') → well_logged s'.
Proof.
  revert s log. induction es as [|e es IH]; intros s log Hw; cbn; [by intros [= <- _]|].
  destruct (step s e) as [s1|] eqn:Hs; [|done]. apply IH. by eapply step_logged.
Qed.

(** ** The texts of the prompts *)

(** The lines as the selective parser reads them. *)
Definition line_event (line : option SessionUpdate) : PromptExtractEvent :=
  match line with Some u => prompt_extract_event u | None => NotUserMessage end.

(** Prompts of text only, some of which is not white space. *)
Definition plain (e : SessionEvent) : Prop :=
  match e with
  | PromptEvent bs => Forall (λ b, ∃ t, b = TextBlock t false) bs ∧ trim (prompt_text bs) ≠ []
  | _ => True
  end.

Definition prompt_texts_of (s : Timeline) : list text := (λ t, trim (turn_prompt t)) <$> all_turns s.

(** The collector at a point of the timeline. *)
Record collected (s : Timeline) (c : Collector) : Prop := {
  co_prompts : prompts (flush_prompt c) = prompt_texts_of s;
  co_seen : col_seen_marker c = prompted s;
  co_run : col_in_user c = true → col_run_pi c ≠ Some (length (all_turns s));
  co_idle : col_in_user c = false → current c = [];
  co_echo : col_in_user c = true → col_run_pi c = None → prompted s = true → current_counts c = false;
}.

Lemma flush_flush c : flush_prompt (flush_prompt c) = flush_prompt c.
Proof. unfold flush_prompt. by destruct (col_in_user c) eqn:Hi; cbn; rewrite ?Hi. Qed.

Lemma flush_seen c : col_seen_marker (flush_prompt c) = col_seen_marker c.
Proof. unfold flush_prompt. by destruct (col_in_user c). Qed.

Lemma flush_idle c : (col_in_user c = false → current c = []) →
  col_in_user (flush_prompt c) = false ∧ current (flush_prompt c) = [].
Proof. unfold flush_prompt. destruct (col_in_user c) eqn:Hi; cbn; [done|]. intros H0. rewrite Hi. by rewrite H0. Qed.

Lemma collected_flush s s' c :
  collected s c → prompt_texts_of s' = prompt_texts_of s → prompted s' = prompted s →
  collected s' (flush_prompt c).
Proof.
  intros [H1 H2 H3 H4 H5] Hp Hpr. destruct (flush_idle c H4) as [Hi Hc].
  split; rewrite ?flush_flush, ?flush_seen, ?Hp, ?Hpr, ?Hi; done.
Qed.

Lemma prompt_blocks n ps t bs :
  Forall (λ b, ∃ t, b = TextBlock t false) bs →
  foldl collect_event (mkCollector ps t true (Some n) true true)
    ((λ b, line_event (Some (user_chunk b (Some n)))) <$> bs)
  = mkCollector ps (t ++ prompt_text bs) true (Some n) true true.
Proof.
  intros Hb. revert t. induction Hb as [|b bs [u ->] _ IH]; intros t; [by rewrite app_nil_r|].
  cbn [fmap list_fmap foldl]. change (list_fmap _ _ ?f bs) with (f <$> bs).
  assert (collect_event (mkCollector ps t true (Some n) true true) (line_event (Some (user_chunk (TextBlock u false) (Some n))))
          = mkCollector ps (t ++ u) true (Some n) true true) as ->.
  { cbn. unfold opens_run. cbn. by rewrite bool_decide_false by naive_solver. }
  rewrite IH. unfold prompt_text. cbn. by rewrite app_assoc.
Qed.

Lemma collect_step s e s' c :
  timeline_ok target s → step s e = Some s' → plain e → collected s c →
  collected s' (foldl collect_event c (line_event <$> logged (length (all_turns s)) e)).
Proof.
  intros Hok Hs Hpl Hc. destruct (appended e) as [u|] eqn:Ha.
  { destruct (step_appended s e u s' Hs Ha) as (_ & _ & Hl & Hp & Ht).
    assert (prompt_texts_of s' = prompt_texts_of s) as Htx.
    { unfold prompt_texts_of. change (λ t, trim (turn_prompt t)) with (trim ∘ turn_prompt).
      by rewrite !list_fmap_compose, Ht. }
    rewrite (appended_logged _ e u Ha). cbn [fmap list_fmap foldl line_event].
    assert ((∃ t, e = EchoEvent t) ∨ ∀ t, e ≠ EchoEvent t) as [[t ->]|Hne] by (destruct e; eauto).
    - injection Ha as <-. assert (prompted s = true) as Hpr by (eapply echo_prompted; [apply Hok|done]).
      destruct Hc as [H1 H2 H3 H4 H5]. destruct (flush_idle c H4) as [Hi Hcur].
      cbn -[flush_prompt]. rewrite H2, Hpr. cbn -[flush_prompt].
      destruct (opens_run None true (col_in_user c) (col_run_pi c)) eqn:Ho.
      + rewrite Hcur. split; cbn -[flush_prompt]; try done; [|by rewrite Hp].
        rewrite Htx, <- H1. done.
      + unfold opens_run in Ho. destruct (col_in_user c) eqn:Hu; [|done]. cbn in Ho. apply bool_decide_eq_false_1 in Ho.
        assert (col_run_pi c = None) as Hpi by (destruct (col_run_pi c); naive_solver).
        specialize (H5 eq_refl Hpi Hpr). rewrite Hpi. cbn.
        split; cbn; try done; [|by rewrite Hp]. unfold flush_prompt in *. cbn. rewrite H5 in *. cbn.
        rewrite Hu in H1. cbn in H1. by rewrite Htx, <- H1.
    - assert (prompt_extract_event u = NotUserMessage) as Hev.
      { destruct e as [| | |v| | |]; cbn in Ha, Hs; simplify_eq; try done; [naive_solver|]. by destruct u as [[]|[]]. }
      rewrite Hev. cbn [collect_event]. by apply (collected_flush s). }
  destruct e as [bs|t|t|v|info|n|]; cbn [appended] in Ha; try done; cbn [timeline_step] in Hs.
  - case_bool_decide as Hne; [done|]. injection Hs as <-. destruct Hpl as [Hb Htr].
    destruct Hc as [H1 H2 H3 H4 H5]. destruct (flush_idle c H4) as [Hi Hcur].
    destruct bs as [|b bs]; [done|]. apply Forall_cons in Hb as [[u ->] Hb].
    cbn [logged fmap list_fmap foldl]. change (list_fmap _ _ ?f bs) with (f <$> bs).
    assert (collect_event c (line_event (Some (user_chunk (TextBlock u false) (Some (length (all_turns s))))))
            = mkCollector (prompt_texts_of s) u true (Some (length (all_turns s))) true true) as ->.
    { cbn -[flush_prompt all_turns]. unfold opens_run.
      assert ((if negb (col_in_user c) then true
               else if true || bool_decide (is_Some (Some (length (all_turns s))))
                    then bool_decide (Some (length (all_turns s)) ≠ col_run_pi c) else false) = true) as Hop.
      { destruct (col_in_user c); cbn -[all_turns]; [|done]. apply bool_decide_true. intros Hc. by apply H3. }
      cbn -[all_turns flush_prompt] in *. rewrite Hop. by rewrite Hcur, H1. }
    rewrite <- list_fmap_compose. change (line_event ∘ _) with (λ b, line_event (Some (user_chunk b (Some (length (all_turns s)))))).
    rewrite prompt_blocks by done.
    destruct (start_updates (TextBlock u false :: bs) s) as [Hall _].
    split; cbn -[all_turns flush_prompt start_turn]; try done.
    + unfold prompt_texts_of at 2. rewrite Hall, fmap_app. unfold flush_prompt. cbn -[all_turns trim].
      unfold prompt_text in Htr |- *. cbn -[all_turns trim] in Htr |- *. by rewrite bool_decide_true.
    + intros _. rewrite Hall, length_app. cbn -[all_turns]. intros [=]. lia.
  - destruct (_ && _) eqn:Hn; [|done]. injection Hs as <-.
    cbn [logged fmap list_fmap foldl line_event prompt_extract_event collect_event].
    destruct Hc as [H1 H2 H3 H4 H5]. destruct (flush_idle c H4) as [Hi Hcur].
    assert (all_turns (set_parts (take n (all_turns s)) Closed (closed_base s) s) = take n (all_turns s)) as Hall.
    { unfold all_turns at 1. cbn -[all_turns]. by rewrite app_nil_r. }
    split; cbn -[flush_prompt all_turns]; rewrite ?Hi, ?flush_seen; try done.
    unfold prompt_texts_of. rewrite Hall, fmap_take. unfold flush_prompt at 1. cbn -[flush_prompt]. rewrite ?Hi.
    by rewrite H1.
  - injection Hs as <-. cbn. by apply (collected_flush s).
Qed.

Lemma live_collect es s log s' log' c :
  timeline_ok target s → collected s c → foldl collect_event collector_new (line_event <$> log) = c →
  Forall plain es → live session_dir target es s log = Some (s', log') →
  collected s' (foldl collect_event collector_new (line_event <$> log')).
Proof.
  revert s log c. induction es as [|e es IH]; intros s log c Hok Hc Hf Hpl; cbn [live].
  { intros [= <- <-]. by rewrite Hf. }
  apply Forall_cons in Hpl as [He Hpl].
  destruct (step s e) as [s1|] eqn:Hs; [|done]. intros Hl. refine (IH s1 _ _ _ _ eq_refl Hpl Hl); [by eapply step_ok|].
  rewrite fmap_app, foldl_app, Hf. by apply collect_step.
Qed.

(** An event that is not a rewind. *)
Definition goes_on (e : SessionEvent) : Prop := match e with RewindEvent _ => False | _ => True end.

Lemma live_no_marker es s log s' log' :
  Forall goes_on es → any_b is_rewind (omap id log) = false →
  live session_dir target es s log = Some (s', log') → any_b is_rewind (omap id log') = false.
Proof.
  revert s log. induction es as [|e es IH]; intros s log He Hlog; cbn [live]; [by intros [= _ <-]|].
  apply Forall_cons in He as [He Hes]. destruct (step s e) as [s1|] eqn:Hs; [|done].
  apply IH; [done|]. unfold any_b in *. rewrite omap_app, existsb_app, Hlog. cbn [orb].
  destruct e as [bs| | |u| | |]; try done.
  - cbn [logged]. generalize (length (all_turns s)). intros n. clear. induction bs as [|x bs IH]; [done|exact IH].
  - cbn in Hs |- *. destruct u as [[]|[]]; done.
Qed.

(** C13: the readers of a session's log agree with its timeline (a session as in C6).  The filter that the
    client's replay uses keeps the updates of the turns that were not undone.  The cut
    that a fork makes, in the updates as they were logged, keeps the turns up to and with its prompt if
    the session was never rewound.  The texts of the
    prompts that a resumed session starts from are those of the turns, so that its next
    prompt gets the index that the log expects, if every prompt was text only and not blank. *)
Theorem readers_agree (es : list SessionEvent) (s : Timeline) (log : list (option SessionUpdate)) :
  session_run session_dir target es = Some (s, log) →
  filter_rewind_updates (omap id log) = timeline_updates s
  ∧ (Forall goes_on es → ∀ k,
      take (updates_truncate_for_prompt (omap id log) k) (omap id log)
      = prefix s ++ concat (turn_updates <$> take (k + 1) (all_turns s)))
  ∧ (Forall plain es →
     collect_prompts_from_events (line_event <$> log) = prompt_texts_of s
     ∧ length (collect_prompts_from_events (line_event <$> log)) = length (all_turns s)).
Proof.
  intros Hl. pose proof (filter_exact es s log Hl) as Hf. split_and!; [done| |].
  - intros Hes k.
    assert (omap id log = timeline_updates s) as ->.
    { rewrite <- Hf. unfold filter_rewind_updates.
      by rewrite (live_no_marker es timeline_new [] s log Hes eq_refl Hl). }
    apply updates_cut_exact.
    eapply (live_logged es timeline_new []); [|exact Hl]. by split.
  - intros Hpl. assert (collect_prompts_from_events (line_event <$> log) = prompt_texts_of s) as ->.
    { unfold collect_prompts_from_events.
      eapply co_prompts, (live_collect es timeline_new [] s log collector_new); try done; apply new_ok. }
    split; [done|]. apply length_fmap.
Qed.

End readers.

(** ** Logs of any shape *)

Section any_log.
Context `{CheckpointFiles}.
Context (session_dir : text) (target : nat).

(** The items of the checkpoint are there as long as it is active. *)
Definition anchored (st : ReplayState) : Prop :=
  checkpoint_active st = true →
  checkpoint_base_len st <= length (rs_conversation st) ∧ checkpoint_prompt_index st <= target.

Lemma cut_turns_ge k uc sm i l : i <= cut_turns k uc sm i l.
Proof.
  revert uc sm i. induction l as [|x l IH]; intros uc sm i; cbn; [done|].
  destruct (counts_as_replay_turn x sm) as [[] sm']; [case_match; [done|]|];
    (etransitivity; [|apply IH]; lia).
Qed.

Lemma cut_after_anchored n st :
  checkpoint_base_len st <= length (rs_conversation st) →
  ∃ items, cut_after_checkpoint n st = Some items ∧ checkpoint_base_len st <= length items.
Proof.
  intros Hl. unfold cut_after_checkpoint. rewrite (proj2 (Nat.leb_le _ _)) by done. eexists. split; [done|].
  rewrite length_take. pose proof (cut_turns_ge (n - checkpoint_prompt_index st) 0 false (checkpoint_base_len st)
    (drop (checkpoint_base_len st) (rs_conversation st))). lia.
Qed.

Lemma flush_user_anchored st : anchored st → anchored (flush_pending_user st).
Proof.
  unfold anchored, flush_pending_user. intros Ha. destruct (current_user_text st); cbn; [done|].
  destruct (current_user_prompt_index st); cbn; rewrite length_app; intros Hc; specialize (Ha Hc); cbn; lia.
Qed.

Lemma flush_agent_anchored st : anchored st → anchored (flush_pending_agent st).
Proof.
  unfold anchored, flush_pending_agent. intros Ha. destruct (has_pending_agent st); cbn; [|done].
  rewrite length_app. intros Hc. specialize (Ha Hc). lia.
Qed.

Lemma user_chunk_anchored c st : anchored st → anchored (handle_user_chunk c st).
Proof.
  intros Ha. unfold handle_user_chunk.
  set (st1 := if bool_decide (is_Some (chunk_prompt_index c)) then set_seen_marker st else st).
  assert (anchored st1) as Ha1 by (subst st1; by case_bool_decide).
  assert (∀ st t, anchored st → anchored match chunk_content c with
    | TextBlock u _ => set_user (in_user_message st) (t ++ u) (current_user_prompt_index st) st
    | OtherBlock => st end) as Hend by (intros st' t Hst; destruct (chunk_content c); exact Hst).
  apply Hend. destruct (negb (in_user_message st1)).
  { by apply (flush_agent_anchored st1). }
  destruct (_ && _); [by apply (flush_user_anchored st1)|]. by destruct (current_user_prompt_index st1).
Qed.

Lemma agent_chunk_anchored c st : anchored st → anchored (handle_agent_chunk c st).
Proof.
  intros Ha. unfold handle_agent_chunk.
  set (st1 := if in_user_message st then _ else st).
  assert (anchored st1) as Ha1.
  { subst st1. destruct (in_user_message st); [|done]. by apply (flush_user_anchored st). }
  by destruct (chunk_content c).
Qed.

Lemma marker_anchored n st : anchored st → ∃ st', handle_rewind_marker n st = Some st' ∧ anchored st'.
Proof.
  intros Ha. unfold handle_rewind_marker.
  set (st1 := set_user false [] None (set_agent [] false st)). assert (anchored st1) as Ha1 by done.
  destruct (prompt_counter st1 <=? n); [eauto|].
  destruct (checkpoint_active st1) eqn:Hact; cbn [andb].
  - destruct (Ha1 Hact) as [Hl Hi]. destruct (checkpoint_prompt_index st1 <=? n).
    + destruct (cut_after_anchored n st1 Hl) as (items & -> & Hit). cbn [mbind option_bind]. eexists. split; [done|].
      intros _. by split.
    + destruct (n =? 0); eexists; by split.
  - destruct (n =? 0); eexists; (split; [done|]); [done|].
    intros Hc. change (checkpoint_active st1 = true) in Hc. congruence.
Qed.

Lemma checkpoint_anchored info st a st' :
  anchored st → handle_checkpoint session_dir target info st = inr (a, st') → anchored st'.
Proof.
  unfold handle_checkpoint. intros Ha. destruct (read_checkpoint session_dir info) as [|file]; [done|].
  destruct (target <? prompt_index_at_compaction info) eqn:Ht; breflect.
  { intros [= <- <-]. unfold adopt_user_info. by destruct (original_user_info st). }
  destruct (1 <? _); [done|]. intros [= _ <-]. unfold load_checkpoint.
  destruct (auto_continue info); intros _; cbn; rewrite ?length_app; lia.
Qed.

Lemma loop_anchored lines st :
  anchored st → ∃ r, replay_loop session_dir target lines st = Some r ∧ (∀ st', r = inr st' → anchored st').
Proof.
  revert st. induction lines as [|[u|] lines IH]; intros st Ha; cbn [replay_loop].
  { eexists. split; [done|]. by intros ? [= <-]. }
  2: by apply IH.
  assert (∃ r, process_update session_dir target u st = Some r
    ∧ (∀ a st', r = inr (a, st') → anchored st')) as (r & -> & Hr).
  { destruct u as [[c|c|]|[info|n|]]; cbn [process_update].
    - eexists. split; [done|]. intros ? ? [= <- <-]. by apply user_chunk_anchored.
    - eexists. split; [done|]. intros ? ? [= <- <-]. by apply agent_chunk_anchored.
    - eexists. split; [done|]. by intros ? ? [= <- <-].
    - eexists. split; [done|]. intros a st'. by apply checkpoint_anchored.
    - destruct (marker_anchored n st Ha) as (st' & -> & Hst). cbn. eexists. split; [done|]. by intros ? ? [= <- <-].
    - eexists. split; [done|]. by intros ? ? [= <- <-]. }
  cbn [mbind option_bind]. destruct r as [e|[[] st']].
  - eexists. by split.
  - apply IH. by eapply Hr.
  - eexists. split; [done|]. intros ? [= <-]. by eapply Hr.
Qed.

(** Whatever the log holds, and whatever the checkpoint files, the replay does not
    panic; when it answers, it is at the target or before it, and a checkpoint that it
    starts from is not from after the target. *)
Theorem replay_never_panics (log : text + option (list (option SessionUpdate))) :
  ∃ r, replay_to_prompt session_dir log target = Some r
    ∧ ∀ res, r = inr res →
      prompt_index_reached res <= target ∧ (∀ i, replay_marker res = Some i → i <= target).
Proof.
  destruct log as [e|[lines|]]; cbn [replay_to_prompt].
  { eexists. by split. }
  2: { eexists. split; [done|]. intros ? [= <-]. cbn. split; [lia|done]. }
  destruct (loop_anchored lines replay_new) as (r & -> & Hr); [done|]. cbn [mbind option_bind].
  destruct r as [e|st]; [eexists; by split|].
  pose proof (flush_agent_anchored _ (flush_user_anchored _ (Hr st eq_refl))) as Ha. unfold finish_replay.
  set (st1 := flush_pending_agent (flush_pending_user st)) in *.
  assert (∀ items n, ∀ i, replay_marker (mkReplayResult items n (original_user_info st1)
    (if checkpoint_active st1 then Some (checkpoint_prompt_index st1) else None)) = Some i → i <= target) as Hm.
  { intros items n i. cbn. destruct (checkpoint_active st1) eqn:Hc; [|done]. intros [= <-]. by apply Ha. }
  destruct (target <? prompt_counter st1) eqn:Ht; breflect; cbn [mbind option_bind].
  - assert (∃ items, (if checkpoint_active st1 && (checkpoint_prompt_index st1 <=? target) then cut_after_checkpoint target st1
             else if target =? 0 then Some [] else Some (cut_conversation target st1)) = Some items) as [items ->].
    { destruct (checkpoint_active st1) eqn:Hc; cbn [andb]; [|destruct (target =? 0); eauto].
      destruct (Ha Hc) as [Hl Hi]. rewrite (proj2 (Nat.leb_le _ _) Hi).
      destruct (cut_after_anchored target st1 Hl) as (items & -> & _). eauto. }
    cbn. eexists. split; [done|]. intros ? [= <-]. split; [done|]. exact (Hm items target).
  - cbn. eexists. split; [done|]. intros ? [= <-]. split; [done|]. exact (Hm _ _).
Qed.

End any_log.

(** ** Concrete logs *)

(** Every checkpoint file holds the summary of three turns. *)
Definition summary_item : ConversationItem := user_text (txt "summary of a b c").
Definition demo_files : CheckpointFiles :=
  {| checkpoint_bytes path := ReadBytes path;
     checkpoint_from_slice _ := inr (mkCheckpointFile [System (txt "sys"); summary_item] 1 (Some (txt "info")));
     is_valid_data_uri_image _ := true |}.
#[local] Existing Instance demo_files.

Definition ask (t : string) : SessionEvent := PromptEvent [TextBlock (txt t) false].
Definition answer (t : string) : SessionEvent := ReplyEvent (txt t).
Definition compaction (n : nat) : SessionEvent := CompactEvent (mkCheckpointInfo n (txt "c.json") None).

(** Two prompts, the second of which is undone and asked again; a compaction in the middle
    of the third turn; a fourth prompt with a torn line. *)
Definition demo_session : list SessionEvent :=
  [ask "a"; answer "1"; ask "b"; answer "2"; RewindEvent 1; ask "c"; answer "3"; EchoEvent (txt "!"); ask "d";
   compaction 3; answer "4"; answer "5"; ask "e"; TornEvent; answer "6"; ask "f"].

Definition demo_run (target : nat) : option (Timeline * list (option SessionUpdate)) :=
  session_run (txt "/s") target demo_session.

Definition demo_timeline (target : nat) : Timeline := (default (timeline_new, []) (demo_run target)).1.
Definition demo_log (target : nat) : list (option SessionUpdate) := (default (timeline_new, []) (demo_run target)).2.

Definition replay_texts (r : option (text + ReplayResult)) : option (list (option text)) :=
  match r with Some (inr res) => Some (text_content <$> replayed res) | _ => None end.

Definition log_of (es : list SessionEvent) : list (option SessionUpdate) :=
  match session_run (txt "/s") 0 es with Some (_, log) => log | None => [] end.

Example replayed_before_compaction :
  replay_texts (replay_to_prompt (txt "/s") (inr (Some (log_of demo_session))) 2)
  = Some [Some (txt "a"); Some (txt "1"); Some (txt "c"); Some (txt "3"); Some (txt "!")].
Proof. by vm_compute. Qed.

Lemma replay_exact_witness :
  ∃ s log, demo_run 4 = Some (s, log) ∧
    replay_to_prompt (txt "/s") (inr (Some log)) 4
    = Some (inr (mkReplayResult
        [System (txt "sys"); summary_item; assistant (txt "45"); marked_user (txt "e") 3; assistant (txt "6")]
        4 (Some (txt "info")) (Some 3))).
Proof.
  exists (demo_timeline 4), (demo_log 4). split; [by vm_compute|].
  refine (eq_trans (replay_exact (txt "/s") 4 demo_session (demo_timeline 4) (demo_log 4) _) _); by vm_compute.
Defined.

Lemma demo_plain : Forall plain demo_session.
Proof.
  unfold demo_session, ask, answer. repeat (apply Forall_cons; split; [first [exact I|split; [by repeat econstructor|by vm_compute]]|]).
  by apply Forall_nil.
Qed.

Lemma demo_run_0 : session_run (txt "/s") 0 demo_session = Some (demo_timeline 0, demo_log 0).
Proof. by vm_compute. Qed.

Lemma readers_agree_witness :
  ∃ s log, session_run (txt "/s") 0 demo_session = Some (s, log)
    ∧ filter_rewind_updates (omap id log) = timeline_updates s
    ∧ collect_prompts_from_events (line_event <$> log) = [txt "a"; txt "c"; txt "d"; txt "e"; txt "f"].
Proof.
  exists (demo_timeline 0), (demo_log 0).
  destruct (readers_agree (txt "/s") 0 demo_session _ _ demo_run_0) as (Hf & _ & Hp).
  split; [exact demo_run_0|]. split; [exact Hf|].
  refine (eq_trans (proj1 (Hp demo_plain)) _). by vm_compute.
Defined.

Definition preamble_item : ConversationItem := user_text (txt "user info").
Definition old_turn : list ConversationItem := [user_text (txt "a"); assistant (txt "1")].
Definition new_turn : list ConversationItem := [marked_user (txt "b") 1; assistant (txt "2")].

Lemma conversation_cut_exact_witness :
  conversation_truncate_for_prompt ([System (txt "sys"); preamble_item] ++ concat ([old_turn] ++ [new_turn])) 1 = 4
  ∧ take (conversation_truncate_for_prompt ([System (txt "sys"); preamble_item] ++ concat ([old_turn] ++ [new_turn])) 1)
      ([System (txt "sys"); preamble_item] ++ concat ([old_turn] ++ [new_turn]))
    = [System (txt "sys"); preamble_item] ++ concat (take 1 ([old_turn] ++ [new_turn])).
Proof.
  split; [by vm_compute|].
  apply (conversation_cut_exact [System (txt "sys"); preamble_item] 1).
  - exists [System (txt "sys")], (mkUser [TextPart (txt "user info")] None None None), [].
    split_and!; [done..|by repeat constructor|by repeat constructor].
  - constructor; [|constructor]. eexists _, _. by split_and!; [done..|repeat constructor|repeat constructor].
  - split; [|done]. eexists _, _. split_and!; [done..|by repeat constructor].
Defined.

Lemma replay_never_panics_witness :
  ∃ r, replay_to_prompt (txt "/s") (inr (Some [Some (Ds (RewindMarker 7)); None])) 3 = Some r
    ∧ ∀ res, r = inr res → prompt_index_reached res <= 3 ∧ (∀ i, replay_marker res = Some i → i <= 3).
Proof. exact (replay_never_panics (txt "/s") 3 (inr (Some [Some (Ds (RewindMarker 7)); None]))). Defined.

(** ** Where the readers do not agree *)

(** A rewind to before a compaction, new prompts and another compaction: the replay to a
    prompt between the two starts from the summary of the turns that were undone. *)
Example undone_summary_returns :
  let es := [ask "a"; answer "1"; ask "b"; ask "c"; compaction 3; ask "d"; RewindEvent 1;
             ask "b2"; ask "c2"; ask "d2"; compaction 4; ask "e2"] in
  replay_texts (replay_to_prompt (txt "/s") (inr (Some (log_of es))) 3)
  = Some [Some (txt "sys"); Some (txt "summary of a b c"); Some (txt "b2"); Some (txt "c2")].
Proof. by vm_compute. Qed.

(** An echo after a compaction in the middle of a turn counts as a turn: one prompt too
    many is cut. *)
Example echo_after_compaction_counted :
  let log := log_of [ask "a"] ++ [Some (Ds (CheckpointUpdate (mkCheckpointInfo 1 (txt "c.json") None)));
               Some (user_chunk (TextBlock (txt "!") false) None); Some (agent_chunk (txt "1"));
               Some (user_chunk (TextBlock (txt "b") false) (Some 1)); Some (agent_chunk (txt "2"));
               Some (user_chunk (TextBlock (txt "c") false) (Some 2))] in
  replay_texts (replay_to_prompt (txt "/s") (inr (Some log)) 2)
  = Some [Some (txt "sys"); Some (txt "summary of a b c"); Some (txt "!"); Some (txt "1")].
Proof. by vm_compute. Qed.

(** A session that began without indices: the replay to its first prompts keeps all of
    those without one. *)
Example old_turns_kept :
  let log := [Some (user_chunk (TextBlock (txt "a") false) None); Some (agent_chunk (txt "1"));
              Some (user_chunk (TextBlock (txt "b") false) None); Some (agent_chunk (txt "2"));
              Some (user_chunk (TextBlock (txt "c") false) (Some 2))] in
  replay_texts (replay_to_prompt (txt "/s") (inr (Some log)) 1)
  = Some [Some (txt "a"); Some (txt "1"); Some (txt "b"); Some (txt "2")].
Proof. by vm_compute. Qed.

(** An image between two texts of a prompt ends the prompt for the collector, and a prompt
    of an image alone is none: the next prompt of the resumed session gets an index that
    is not the one of the log. *)
Example image_splits_prompt :
  let prompt k bs := (λ b, Some (user_chunk b (Some k))) <$> bs in
  let log := prompt 0 [TextBlock (txt "a") false; OtherBlock; TextBlock (txt "b") false] in
  collect_prompts_from_events (line_event <$> log) = [txt "a"; txt "b"]
  ∧ collect_prompts_from_events (line_event <$> prompt 0 [OtherBlock]) = []
  ∧ (session_run (txt "/s") 0 [PromptEvent [TextBlock (txt "a") false; OtherBlock; TextBlock (txt "b") false]]
     ≫= λ r, Some (length (all_turns r.1))) = Some 1.
Proof. by vm_compute. Qed.

(** A fork cuts the updates behind the prompt and the conversation before it; and it
    counts the prompts that were undone. *)
Example fork_cuts_differently :
  let updates := omap id (log_of [ask "a"; ask "b"; ask "c"]) in
  let items := [System (txt "sys"); preamble_item; marked_user (txt "a") 0; marked_user (txt "b") 1; marked_user (txt "c") 2] in
  take (updates_truncate_for_prompt updates 1) updates = omap id (log_of [ask "a"; ask "b"])
  ∧ take (conversation_truncate_for_prompt items 1) items = [System (txt "sys"); preamble_item; marked_user (txt "a") 0].
Proof. by vm_compute. Qed.

Example fork_keeps_undone_prompt :
  let updates := omap id (log_of [ask "a"; RewindEvent 0; ask "b"; ask "c"]) in
  filter_rewind_updates (take (updates_truncate_for_prompt updates 1) updates) = omap id (log_of [ask "b"])
  ∧ (let kept := filter_rewind_updates updates in
     take (updates_truncate_for_prompt kept 1) kept) = omap id (log_of [ask "b"; ask "c"]).
Proof. by vm_compute. Qed.
