(* ===== verification/FileState.v ===== *)
(** * Rewind points

    [ds-workspace/src/session/file_state.rs]: the snapshots of the files that a prompt
    touched, the tracker that collects them and loads older ones from disk when a rewind
    needs them, and the rewind of the files; [ds-workspace/src/file_system/fs.rs] and
    [local_fs.rs]: the files.  A method of the tracker is a function on the record
    [FileStateTracker]; the files are those of [ToolFs.v].  The instant of a snapshot is
    an argument of the operation that takes it.  What [serde_json] and [chrono] read and
    write is the class [RewindSerde], the iteration order of hash maps [HashOrder]. *)

From S2P Require Import Prelude Text TextProps Json Paths ToolFs.

Open Scope nat_scope.

(** The order in which the entries of a hash map are visited. *)
Class HashOrder := { hash_order : ∀ {A : Type}, list A → list A }.
Class HashOrderPerm `{HashOrder} := { hash_order_perm : ∀ A (l : list A), hash_order l ≡ₚ l }.

(** ** file_system/fs.rs and local_fs.rs *)

(** [FsError]; [Other] stands for the message about bytes that are not UTF-8. *)
Inductive FsError := FsIo (e : text * ErrorKind) | FsOther (bytes : text).

Definition bytes_to_string (bytes : text) : FsError + text :=
  if utf8_valid bytes then inr bytes else inl (FsOther bytes).

(** [map(bytes_to_string).transpose()]. *)
Definition option_to_string (r : FsError + option text) : FsError + option text :=
  match r with
  | inr (Some bytes) => match bytes_to_string bytes with inl e => inl e | inr s => inr (Some s) end
  | r => r
  end.

(** [Result::unwrap_or]. *)
Definition unwrap_or {E A} (d : A) (r : E + A) : A := match r with inl _ => d | inr a => a end.

Section local_fs.
Context `{FsErrors}.

Definition fs_exists (p : text) (w : World) : (FsError + bool) * World :=
  (match fs_error (ops w) (StatOp p) with
   | Some e => inl (FsIo e)
   | None => inr (bool_decide (is_Some (files w !! p)))
   end, count_op w).

Definition fs_try_read (p : text) (w : World) : (FsError + option text) * World :=
  (match fs_error (ops w) (ReadOp p) with
   | Some (_, NotFound) => inr None
   | Some e => inl (FsIo e)
   | None => inr (files w !! p)
   end, count_op w).

(** [create_dir_all] of the parent, unless there is none, and [fs::write], which empties
    the file before it writes. *)
Definition fs_write (p data : text) (w : World) : option FsError * World :=
  let '(dir, w) :=
    match components p with
    | [] => (None, w)
    | [c] => if bool_decide (c = ROOT) then (None, w) else (fs_error (ops w) (MkdirOp p), count_op w)
    | _ => (fs_error (ops w) (MkdirOp p), count_op w)
    end in
  match dir with
  | Some e => (Some (FsIo e), w)
  | None =>
      match fs_error (ops w) (WriteOp p) with
      | Some e => (Some (FsIo e), count_op (torn_write p data w))
      | None => (None, count_op (set_files (<[p := data]> (files w)) w))
      end
  end.

Definition fs_delete (p : text) (w : World) : option FsError * World :=
  match fs_error (ops w) (DeleteOp p), files w !! p with
  | Some e, _ => (Some (FsIo e), count_op w)
  | None, None => (Some (FsIo (not_found, NotFound)), count_op w)
  | None, Some _ => (None, count_op (set_files (delete p (files w)) w))
  end.

End local_fs.

(** ** Paths *)

(** [FlexiblePath]: a [RelPathBuf] or a [PathBuf], compared by their components. *)
Inductive FlexiblePath := Relative (p : Components) | Absolute (p : Components).

#[global] Instance FlexiblePath_eq_dec : EqDecision FlexiblePath.
Proof. solve_decision. Defined.
#[global] Instance FlexiblePath_countable : Countable FlexiblePath.
Proof.
  apply (inj_countable' (λ p, match p with Relative p => (inl p : Components + Components) | Absolute p => inr p end)
           (λ s, match s with inl p => Relative p | inr p => Absolute p end)). by intros [].
Defined.

(** [FlexiblePath::to_absolute], which [to_abs_path] agrees with. *)
Definition flexible_to_absolute (root : text) (p : FlexiblePath) : text :=
  match p with Relative p => to_absolute p root | Absolute p => path_text p end.

Definition try_to_relative (root : text) (p : FlexiblePath) : FlexiblePath :=
  match p with
  | Relative p => Relative p
  | Absolute p =>
      match from_absolute root (path_text p) with inr rel => Relative rel | inl _ => Absolute p end
  end.

Definition is_relative (p : FlexiblePath) : bool := match p with Relative _ => true | Absolute _ => false end.

(** [as_str], the text in a file; the text of a path that is not UTF-8 is lost. *)
Definition flexible_as_str (p : FlexiblePath) : text :=
  match p with
  | Relative p => path_text p
  | Absolute p => if utf8_valid (path_text p) then path_text p else []
  end.

(** [Display]. *)
Definition flexible_display (p : FlexiblePath) : text :=
  match p with Relative p => path_text p | Absolute p => from_utf8_lossy (path_text p) end.

(** [flexible_path_serde::deserialize], from the text. *)
Definition flexible_from_str (s : text) : FlexiblePath :=
  match RelPathBuf_new s with inr rel => Relative rel | inl _ => Absolute (components s) end.

(** ** Snapshots and rewind points *)

Record FileSnapshot := mkFileSnapshot {
  snap_path : FlexiblePath;
  snap_content : option text;
  captured_at : Z;
}.

Definition snapshot_to_relative (root : text) (s : FileSnapshot) : FileSnapshot :=
  mkFileSnapshot (try_to_relative root (snap_path s)) (snap_content s) (captured_at s).

Notation Snapshots := (gmap FlexiblePath FileSnapshot).

Record RewindPoint := mkPoint {
  point_index : nat;
  created_at : Z;
  file_snapshots : Snapshots;
  after_snapshots : Snapshots;
}.

Definition RewindPoint_new (i : nat) (t : Z) : RewindPoint := mkPoint i t ∅ ∅.

Definition set_snapshots (before after : Snapshots) (p : RewindPoint) : RewindPoint :=
  mkPoint (point_index p) (created_at p) before after.

(** [entry(key).or_insert(value)]. *)
Definition or_insert {K A} `{Countable K} (k : K) (a : A) (m : gmap K A) : gmap K A :=
  match m !! k with Some _ => m | None => <[k := a]> m end.

Definition add_snapshot (s : FileSnapshot) (p : RewindPoint) : RewindPoint :=
  set_snapshots (or_insert (snap_path s) s (file_snapshots p)) (after_snapshots p) p.

Definition set_after_snapshot (s : FileSnapshot) (p : RewindPoint) : RewindPoint :=
  set_snapshots (file_snapshots p) (<[snap_path s := s]> (after_snapshots p)) p.

Definition get_snapshot (path : FlexiblePath) (p : RewindPoint) : option FileSnapshot :=
  file_snapshots p !! path.

(** The loop of [RewindPoint::normalize_to_relative] over the entries of one map. *)
Definition normalize_entry (root : text) (m : Snapshots) (e : FlexiblePath * FileSnapshot) : Snapshots :=
  let new_path := try_to_relative root e.1 in
  <[new_path := mkFileSnapshot new_path (snap_content e.2) (captured_at e.2)]> m.

Section points.
Context `{HashOrder}.

Definition normalize_snapshots (root : text) (m : Snapshots) : Snapshots :=
  foldl (normalize_entry root) ∅ (hash_order (map_to_list m)).

Definition point_to_relative (root : text) (p : RewindPoint) : RewindPoint :=
  set_snapshots (normalize_snapshots root (file_snapshots p))
    (normalize_snapshots root (after_snapshots p)) p.

End points.

(** ** Reading [rewind_points.jsonl] *)

(** [serde_json], as the tree of a text with the members of its objects in their order,
    and [chrono::DateTime<Utc>]. *)
Class RewindSerde := {
  from_str : text → option Json;
  to_string : Json → text;
  datetime_from_str : text → option Z;
  datetime_to_string : Z → text;
}.

(** The member of an object that a derived [Deserialize] reads: [None] if it is there
    twice, which is an error. *)
Definition member (k : text) (fields : list (text * Json)) : option (option Json) :=
  match filter_b (λ f, bool_decide (f.1 = k)) fields with
  | [] => Some None
  | [f] => Some (Some f.2)
  | _ => None
  end.

Definition required {A} (de : Json → option A) (v : option (option Json)) : option A :=
  v ← v; v ← v; de v.
Definition with_default {A} (d : A) (de : Json → option A) (v : option (option Json)) : option A :=
  v ← v; match v with None => Some d | Some v => de v end.

Definition de_usize (v : Json) : option nat :=
  match v with JNumber repr => Z.to_nat <$> parse_uint u64_max repr | _ => None end.
Definition de_string (v : Json) : option text := match v with JString t => Some t | _ => None end.
Definition de_optional {A} (de : Json → option A) (v : Json) : option (option A) :=
  match v with JNull => Some None | v => Some <$> de v end.

Section serde.
Context `{RewindSerde, HashOrder}.

Definition de_datetime (v : Json) : option Z := de_string v ≫= datetime_from_str.

(** [FileSnapshot]: an object, or the sequence of its fields. *)
Definition de_snapshot (v : Json) : option FileSnapshot :=
  match v with
  | JObject fields =>
      path ← required de_string (member (txt "path") fields);
      content ← with_default None (de_optional de_string) (member (txt "content") fields);
      at_ ← required de_datetime (member (txt "captured_at") fields);
      Some (mkFileSnapshot (flexible_from_str path) content at_)
  | JArray [p; c; a] =>
      path ← de_string p; content ← de_optional de_string c; at_ ← de_datetime a;
      Some (mkFileSnapshot (flexible_from_str path) content at_)
  | _ => None
  end.

(** [HashMap<String, FileSnapshot>]: of equal keys the last counts. *)
Definition de_entry (om : option (gmap text FileSnapshot)) (f : text * Json)
    : option (gmap text FileSnapshot) :=
  m ← om; s ← de_snapshot f.2; Some (<[f.1 := s]> m).

(** [flexible_path_map_serde::deserialize]. *)
Definition de_snapshots (v : Json) : option Snapshots :=
  match v with
  | JObject fields =>
      m ← foldl de_entry (Some ∅) fields;
      Some (foldl (λ r e, <[flexible_from_str e.1 := e.2]> r) (∅ : Snapshots) (hash_order (map_to_list m)))
  | _ => None
  end.

(** [RewindPoint]. *)
Definition de_point (v : Json) : option RewindPoint :=
  match v with
  | JObject fields =>
      i ← required de_usize (member (txt "prompt_index") fields);
      t ← required de_datetime (member (txt "created_at") fields);
      before ← required de_snapshots (member (txt "file_snapshots") fields);
      after ← with_default ∅ de_snapshots (member (txt "after_snapshots") fields);
      Some (mkPoint i t before after)
  | JArray (pi :: ca :: fs :: tail) =>
      i ← de_usize pi; t ← de_datetime ca; before ← de_snapshots fs;
      after ← match tail with [] => Some ∅ | [a] => de_snapshots a | _ => None end;
      Some (mkPoint i t before after)
  | _ => None
  end.

(** The other direction. *)
Definition ser_usize (n : nat) : Json := JNumber (show_Z (Z.of_nat n)).
Definition ser_optional (o : option text) : Json := match o with Some t => JString t | None => JNull end.
Definition ser_snapshot (s : FileSnapshot) : Json :=
  JObject [(txt "path", JString (flexible_as_str (snap_path s)));
           (txt "content", ser_optional (snap_content s));
           (txt "captured_at", JString (datetime_to_string (captured_at s)))].
Definition ser_snapshots (m : Snapshots) : Json :=
  JObject ((λ e, (flexible_as_str e.1, ser_snapshot e.2)) <$> hash_order (map_to_list m)).
Definition ser_point (p : RewindPoint) : Json :=
  JObject [(txt "prompt_index", ser_usize (point_index p));
           (txt "created_at", JString (datetime_to_string (created_at p)));
           (txt "file_snapshots", ser_snapshots (file_snapshots p));
           (txt "after_snapshots", ser_snapshots (after_snapshots p))].

Record RewindPointMeta := mkMeta {
  meta_index : nat;
  meta_created_at : Z;
  num_file_snapshots : nat;
}.

(** [MapEntryCount] and [MetaRow]. *)
Definition de_entry_count (v : Json) : option nat :=
  match v with JObject fields => Some (length fields) | _ => None end.
Definition de_meta (v : Json) : option RewindPointMeta :=
  match v with
  | JObject fields =>
      i ← required de_usize (member (txt "prompt_index") fields);
      t ← required de_datetime (member (txt "created_at") fields);
      n ← required de_entry_count (member (txt "file_snapshots") fields);
      Some (mkMeta i t n)
  | JArray [pi; ca; fs] =>
      i ← de_usize pi; t ← de_datetime ca; n ← de_entry_count fs; Some (mkMeta i t n)
  | _ => None
  end.

(** One line of [read_rewind_jsonl_lines]. *)
Definition read_line {T} (de : Json → option T) (line : text) : option T :=
  let trimmed := trim line in
  if bool_decide (trimmed = []) then None else from_str trimmed ≫= de.

Context `{FsErrors}.

(** [read_rewind_jsonl_lines]; [None] is an error. *)
Definition read_rewind_jsonl_lines {T} (de : Json → option T) (path : text) (w : World)
    : option (list T) * World :=
  (match fs_error (ops w) (ReadOp path) with
   | Some (_, NotFound) => Some []
   | Some _ => None
   | None =>
       match files w !! path with
       | None => Some []
       | Some bytes =>
           if utf8_valid bytes then Some (omap (read_line de) (split_inclusive bytes)) else None
       end
   end, count_op w).

Definition read_rewind_points_file : text → World → option (list RewindPoint) * World :=
  read_rewind_jsonl_lines de_point.
Definition scan_rewind_point_metas : text → World → option (list RewindPointMeta) * World :=
  read_rewind_jsonl_lines de_meta.

End serde.

(** ** Merging *)

(** [Vec::dedup_by_key]: of neighbours with equal keys the first stays. *)
Fixpoint dedup_by_key {A} (f : A → nat) (l : list A) : list A :=
  match l with
  | [] => []
  | x :: l' => x :: match dedup_by_key f l' with
                    | y :: l'' => if f y =? f x then l'' else y :: l''
                    | [] => []
                    end
  end.

(** [slice::partition_point]. *)
Fixpoint partition_point {A} (p : A → bool) (l : list A) : nat :=
  match l with [] => 0 | x :: l' => if p x then S (partition_point p l') else 0 end.

(** A merged point goes into the previous one: the earliest before-snapshots and the
    latest after-snapshots stay. *)
Definition absorb (previous merged : RewindPoint) : RewindPoint :=
  set_snapshots (file_snapshots previous ∪ file_snapshots merged)
    (after_snapshots merged ∪ after_snapshots previous) previous.

(** [iter_mut().find(..)] and its update. *)
Fixpoint update_first {A} (p : A → bool) (f : A → A) (l : list A) : list A :=
  match l with [] => [] | x :: l' => if p x then f x :: l' else x :: update_first p f l' end.

Definition merge_rewind_points_from (points : list RewindPoint) (target : nat) : list RewindPoint :=
  if target =? 0 then []
  else
    let points := dedup_by_key point_index (sort_by_key point_index points) in
    let split := partition_point (λ p, point_index p <? target) points in
    let to_merge := drop split points in
    update_first (λ p, point_index p =? target - 1) (λ previous, foldl absorb previous to_merge)
      (take split points).

(** ** The tracker *)

Record FileStateTracker := mkTracker {
  rewind_points : gmap nat RewindPoint;
  current_prompt_index : option nat;
  lazy_source : option text;
}.

Definition tracker_new : FileStateTracker := mkTracker ∅ None None.
Definition with_lazy_source (path : text) : FileStateTracker := mkTracker ∅ None (Some path).

Definition set_points (m : gmap nat RewindPoint) (tr : FileStateTracker) : FileStateTracker :=
  mkTracker m (current_prompt_index tr) (lazy_source tr).

(** [points.get_mut(&i)] with an update. *)
Definition update_point (i : nat) (f : RewindPoint → RewindPoint) (tr : FileStateTracker)
    : FileStateTracker := set_points (alter f i (rewind_points tr)) tr.

(** [begin_prompt] at the instant [t]. *)
Definition begin_prompt (i : nat) (t : Z) (tr : FileStateTracker) : FileStateTracker :=
  mkTracker (or_insert i (RewindPoint_new i t) (rewind_points tr)) (Some i) (lazy_source tr).

(** The values in the order of their index, as [sort_by_key] puts them. *)
Definition sorted_points (tr : FileStateTracker) : list RewindPoint :=
  sort_by_key point_index (map_to_list (rewind_points tr)).*2.

(** [add_before_snapshot_for_prompt]. *)
Definition add_before_snapshot_for_prompt (i : nat) (path cwd : text) (content : option text) (t : Z)
    (tr : FileStateTracker) : FileStateTracker :=
  match from_absolute cwd path with
  | inl _ => tr
  | inr rel =>
      let snapshot := mkFileSnapshot (Relative rel) content t in
      let m := or_insert i (RewindPoint_new i t) (rewind_points tr) in
      set_points (alter (add_snapshot snapshot) i m) tr
  end.

(** [Iterator::find_map]. *)
Fixpoint find_map {A B} (f : A → option B) (l : list A) : option B :=
  match l with
  | [] => None
  | x :: l' => match f x with Some y => Some y | None => find_map f l' end
  end.

Section tracker.
Context `{HashOrder, FsErrors}.

(** The loop of [end_prompt]; the file system has its root at [root], and [t] gives the
    instant of each snapshot. *)
Fixpoint capture_after (root : text) (i : nat) (t : nat → Z) (paths : list FlexiblePath)
    (tr : FileStateTracker) (w : World) : FileStateTracker * World :=
  match paths with
  | [] => (tr, w)
  | p :: paths =>
      let '(r, w) := fs_try_read (flexible_to_absolute root p) w in
      let content := unwrap_or None (option_to_string r) in
      let snapshot := mkFileSnapshot p content (t (ops w)) in
      capture_after root i t paths (update_point i (set_after_snapshot snapshot) tr) w
  end.

Definition end_prompt (root : text) (i : nat) (t : nat → Z) (tr : FileStateTracker) (w : World)
    : FileStateTracker * World :=
  let tr := mkTracker (rewind_points tr) None (lazy_source tr) in
  let paths :=
    match rewind_points tr !! i with
    | Some point => (hash_order (map_to_list (file_snapshots point))).*1
    | None => []
    end in
  capture_after root i t paths tr w.

(** [capture_file_state] and [capture_file_state_with_fs]; [inl] is an error. *)
Definition capture_file_state (root path cwd : text) (t : Z) (tr : FileStateTracker) (w : World)
    : (FsError + FileStateTracker) * World :=
  match from_absolute cwd path with
  | inl _ => (inr tr, w)
  | inr rel =>
      match current_prompt_index tr with
      | None => (inr tr, w)
      | Some i =>
          let '(r, w) := fs_try_read (to_abs_path path root) w in
          (match option_to_string r with
           | inl e => inl e
           | inr content =>
               inr (update_point i (add_snapshot (mkFileSnapshot (Relative rel) content t)) tr)
           end, w)
      end
  end.

Context `{RewindSerde}.

Definition ensure_historical_loaded (tr : FileStateTracker) (w : World) : FileStateTracker * World :=
  match lazy_source tr with
  | None => (tr, w)
  | Some path =>
      let '(r, w) := read_rewind_points_file path w in
      match r with
      | None => (tr, w)
      | Some loaded =>
          (mkTracker (foldl (λ m p, or_insert (point_index p) p m) (rewind_points tr) loaded)
             (current_prompt_index tr) None, w)
      end
  end.

Definition get_rewind_points (tr : FileStateTracker) (w : World)
    : list RewindPoint * FileStateTracker * World :=
  let '(tr, w) := ensure_historical_loaded tr w in (sorted_points tr, tr, w).

Definition point_meta (p : RewindPoint) : RewindPointMeta :=
  mkMeta (point_index p) (created_at p) (size (file_snapshots p)).

Definition memory_metas (tr : FileStateTracker) : gmap nat RewindPointMeta :=
  list_to_map ((λ x, (point_index x.2, point_meta x.2)) <$> map_to_list (rewind_points tr)).

(** [get_rewind_point_metas]; the source is not consumed. *)
Definition get_rewind_point_metas (tr : FileStateTracker) (w : World) : list RewindPointMeta * World :=
  let '(metas, w) :=
    match lazy_source tr with
    | None => (memory_metas tr, w)
    | Some path =>
        let '(r, w) := scan_rewind_point_metas path w in
        (match r with
         | Some scanned => foldl (λ m x, or_insert (meta_index x) x m) (memory_metas tr) scanned
         | None => memory_metas tr
         end, w)
    end in
  (sort_by_key meta_index (map_to_list metas).*2, w).

Definition get_rewind_point (i : nat) (tr : FileStateTracker) : option RewindPoint := rewind_points tr !! i.

(** [retain(|&idx, _| idx < i)]. *)
Definition retain_below {A} (i : nat) (m : gmap nat A) : gmap nat A := base.filter (λ x, x.1 < i) m.

Definition truncate_from (i : nat) (tr : FileStateTracker) (w : World) : FileStateTracker * World :=
  let '(tr, w) := ensure_historical_loaded tr w in
  (set_points (retain_below i (rewind_points tr)) tr, w).

Definition merge_and_remove_from (target : nat) (tr : FileStateTracker) (w : World)
    : FileStateTracker * World :=
  let '(tr, w) := ensure_historical_loaded tr w in
  let all := hash_order (map_to_list (rewind_points tr)).*2 in
  (set_points (foldl (λ m p, <[point_index p := p]> m) ∅ (merge_rewind_points_from all target)) tr, w).

Definition max_prompt_index (tr : FileStateTracker) (w : World)
    : option nat * FileStateTracker * World :=
  let '(tr, w) := ensure_historical_loaded tr w in
  (max_by_key id (map_to_list (rewind_points tr)).*1, tr, w).

Definition normalize_all_to_relative (root : text) (tr : FileStateTracker) (w : World)
    : FileStateTracker * World :=
  let '(tr, w) := ensure_historical_loaded tr w in
  (set_points (point_to_relative root <$> rewind_points tr) tr, w).

Definition get_rewind_points_normalized (root : text) (tr : FileStateTracker) (w : World)
    : list RewindPoint * FileStateTracker * World :=
  let '(tr, w) := ensure_historical_loaded tr w in
  (sort_by_key point_index (point_to_relative root <$> (map_to_list (rewind_points tr)).*2), tr, w).

(** ** rewind_files *)

Inductive ConflictType := DeletedExternally | CreatedExternally | ModifiedExternally.

Record FileRewindConflict := mkConflict { conflict_path : text; conflict_type : ConflictType }.

Record FileRewindResponse := mkResponse {
  success : bool;
  target_prompt_index : nat;
  reverted_files : list text;
  clean_files : list text;
  conflicts : list FileRewindConflict;
  error : option text;
}.

(** The earliest before-snapshot of each file from the points at and after the target. *)
Definition gather_point (m : gmap FlexiblePath (option text)) (p : RewindPoint)
    : gmap FlexiblePath (option text) :=
  foldl (λ m e, or_insert e.1 (snap_content e.2) m) m (hash_order (map_to_list (file_snapshots p))).
Definition files_to_revert (all_points : list RewindPoint) (target : nat)
    : gmap FlexiblePath (option text) :=
  foldl gather_point ∅ (filter_b (λ p, target <=? point_index p) all_points).

(** The content that the agent left last. *)
Definition after_content (all_points : list RewindPoint) (path : FlexiblePath) : option text :=
  (find_map (λ p, after_snapshots p !! path) (reverse all_points)) ≫= snap_content.

Definition classify_conflict (current after : option text) : ConflictType :=
  match current, after with
  | None, Some _ => DeletedExternally
  | Some _, None => CreatedExternally
  | _, _ => ModifiedExternally
  end.

(** The revert of one file: [true] when it succeeded. *)
Definition revert_file (root : text) (path : FlexiblePath) (content : option text) (w : World)
    : bool * World :=
  let p := flexible_to_absolute root path in
  match content with
  | Some data => let '(e, w) := fs_write p data w in (bool_decide (e = None), w)
  | None =>
      let '(ex, w) := fs_exists p w in
      if unwrap_or false ex then let '(e, w) := fs_delete p w in (bool_decide (e = None), w)
      else (true, w)
  end.

(** What the loop has collected: reverted and clean files, conflicts, errors. *)
Record RewindProgress := mkProgress {
  reverted : list text;
  clean_seen : list text;
  conflicts_seen : list FileRewindConflict;
  had_errors : bool;
}.

Definition rewind_one (root : text) (all_points : list RewindPoint) (path : FlexiblePath)
    (content : option text) (pr : RewindProgress) (w : World) : RewindProgress * World :=
  let '(r, w) := fs_try_read (flexible_to_absolute root path) w in
  let current := unwrap_or None (option_to_string r) in
  let after := after_content all_points path in
  let name := flexible_display path in
  let pr :=
    if bool_decide (current = after)
    then mkProgress (reverted pr) (clean_seen pr ++ [name]) (conflicts_seen pr) (had_errors pr)
    else mkProgress (reverted pr) (clean_seen pr)
           (conflicts_seen pr ++ [mkConflict name (classify_conflict current after)]) (had_errors pr) in
  let '(ok, w) := revert_file root path content w in
  (if ok then mkProgress (reverted pr ++ [name]) (clean_seen pr) (conflicts_seen pr) (had_errors pr)
   else mkProgress (reverted pr) (clean_seen pr) (conflicts_seen pr) true, w).

Fixpoint rewind_loop (root : text) (all_points : list RewindPoint)
    (entries : list (FlexiblePath * option text)) (pr : RewindProgress) (w : World)
    : RewindProgress * World :=
  match entries with
  | [] => (pr, w)
  | (path, content) :: entries =>
      let '(pr, w) := rewind_one root all_points path content pr w in
      rewind_loop root all_points entries pr w
  end.

Definition rewind_files (root : text) (target : nat) (tr : FileStateTracker) (w : World)
    : FileRewindResponse * FileStateTracker * World :=
  let '(all_points, tr, w) := get_rewind_points tr w in
  let entries := hash_order (map_to_list (files_to_revert all_points target)) in
  let '(pr, w) := rewind_loop root all_points entries (mkProgress [] [] [] false) w in
  let '(tr, w) := if had_errors pr then (tr, w) else truncate_from target tr w in
  (mkResponse (negb (had_errors pr)) target (reverted pr) (clean_seen pr) (conflicts_seen pr)
     (if had_errors pr then Some (txt "Some files could not be reverted") else None), tr, w).

End tracker.
