(* ===== verification/FileStateProps.v ===== *)
(** * Rewind points: theorems

    The tracker's maps as unions, what merging keeps, what loading the history later
    means.  Then what [rewind_files] does to each file, in a world in which operations may
    fail: the answer lists what happened, and the points are dropped only when all went
    well. *)

From S2P Require Import Prelude Text TextProps Utf8 Json Paths ToolFs FileState.

Open Scope nat_scope.

(** ** Maps filled entry by entry *)

Lemma or_insert_union `{Countable K} {A} (k : K) (a : A) (m : gmap K A) :
  or_insert k a m = m ∪ {[ k := a ]}.
Proof.
  unfold or_insert. apply map_eq. intros j. destruct (m !! k) as [b|] eqn:Hk.
  - destruct (decide (j = k)) as [->|Hj].
    + by rewrite Hk, lookup_union, Hk, lookup_singleton_eq.
    + rewrite lookup_union, lookup_singleton_ne by done. by destruct (m !! j).
  - rewrite lookup_union. destruct (decide (j = k)) as [->|Hj].
    + by rewrite lookup_insert_eq, Hk, lookup_singleton_eq.
    + rewrite lookup_insert_ne, lookup_singleton_ne by done. by destruct (m !! j).
Qed.

Lemma foldl_or_insert `{Countable K} {A B} (f : B → K * A) (l : list B) (m : gmap K A) :
  foldl (λ m b, or_insert (f b).1 (f b).2 m) m l = m ∪ list_to_map (f <$> l).
Proof.
  revert m. induction l as [|b l IH]; intros m; [symmetry; apply map_union_empty|].
  cbn [foldl]. rewrite fmap_cons, IH, or_insert_union, <- (assoc_L (∪)). f_equal.
  destruct (f b) as [k a]. by rewrite list_to_map_cons, insert_union_singleton_l.
Qed.

Lemma foldl_insert `{Countable K} {A B} (f : B → K * A) (l : list B) (m : gmap K A) :
  foldl (λ m b, <[(f b).1 := (f b).2]> m) m l = list_to_map (f <$> reverse l) ∪ m.
Proof.
  revert m. induction l as [|b l IH]; intros m; [symmetry; apply map_empty_union|].
  cbn [foldl].
  rewrite IH, reverse_cons, fmap_app, list_to_map_app, <- (assoc_L (∪)). f_equal.
  change (f <$> [b]) with [f b]. destruct (f b) as [k a].
  rewrite list_to_map_cons, list_to_map_nil, insert_empty. apply insert_union_singleton_l.
Qed.

Lemma list_to_map_perm `{Countable K} {A} (l : list (K * A)) (m : gmap K A) :
  l ≡ₚ map_to_list m → list_to_map l = m.
Proof.
  intros Hl. rewrite <- (list_to_map_to_list m). apply list_to_map_proper; [|done].
  rewrite Hl. apply NoDup_fst_map_to_list.
Qed.

Lemma find_map_app {A B} (f : A → option B) l k :
  find_map f (l ++ k) = match find_map f l with Some b => Some b | None => find_map f k end.
Proof. induction l as [|x l IH]; [done|]. cbn. by destruct (f x). Qed.

Section points.
Context `{HashOrder, !HashOrderPerm}.

Lemma gather_point_union m p : gather_point m p = m ∪ (snap_content <$> file_snapshots p).
Proof.
  unfold gather_point.
  rewrite (foldl_or_insert (λ e : FlexiblePath * FileSnapshot, (e.1, snap_content e.2))). f_equal.
  set (g := λ e : FlexiblePath * FileSnapshot, (e.1, snap_content e.2)).
  rewrite <- (list_to_map_to_list (file_snapshots p)) at 2. rewrite <- list_to_map_fmap.
  apply list_to_map_proper.
  - rewrite <- list_fmap_compose. rewrite hash_order_perm. apply NoDup_fst_map_to_list.
  - rewrite hash_order_perm. by apply Permutation_refl'.
Qed.

(** The snapshot that a rewind uses: the one of the first point that has one. *)
Definition earliest (points : list RewindPoint) (path : FlexiblePath) : option (option text) :=
  find_map (λ p, snap_content <$> file_snapshots p !! path) points.

Lemma foldl_gather m points path :
  foldl gather_point m points !! path
  = match m !! path with Some c => Some c | None => earliest points path end.
Proof.
  revert m. induction points as [|p points IH]; intros m; cbn; [by destruct (m !! path)|].
  rewrite IH, gather_point_union, lookup_union, lookup_fmap.
  destruct (m !! path); [by destruct (snap_content <$> _)|].
  by destruct (snap_content <$> file_snapshots p !! path).
Qed.

Lemma files_to_revert_lookup points target path :
  files_to_revert points target !! path = earliest (filter_b (λ p, target <=? point_index p) points) path.
Proof. unfold files_to_revert. rewrite foldl_gather. by rewrite lookup_empty. Qed.

Lemma earliest_app l k path :
  earliest (l ++ k) path = match earliest l path with Some c => Some c | None => earliest k path end.
Proof. induction l as [|p l IH]; [done|]. cbn. by destruct (snap_content <$> _). Qed.

End points.

(** ** The points of a tracker *)

(** Every point is filed under its index. *)
Definition filed (m : gmap nat RewindPoint) : Prop := ∀ i p, m !! i = Some p → point_index p = i.

Lemma sorted_points_elem tr p :
  filed (rewind_points tr) → p ∈ sorted_points tr ↔ rewind_points tr !! point_index p = Some p.
Proof.
  intros Hf. unfold sorted_points. rewrite sort_by_key_Permutation, list_elem_of_fmap. split.
  - intros ([i q] & -> & Hq%elem_of_map_to_list). cbn. by rewrite (Hf _ _ Hq).
  - intros Hp. exists (point_index p, p). split; [done|]. by apply elem_of_map_to_list.
Qed.

(** A list of points in increasing order of their indices. *)
Definition increasing (l : list RewindPoint) : Prop :=
  StronglySorted (λ a b, point_index a < point_index b) l.

Lemma sorted_lt_of_le (l : list RewindPoint) :
  StronglySorted (λ a b, point_index a <= point_index b) l → NoDup (point_index <$> l) → increasing l.
Proof.
  induction 1 as [|p l Hl IH Hp]; intros Hnd; [constructor|]. cbn in Hnd.
  apply NoDup_cons in Hnd as [Hnp Hnd]. constructor; [by apply IH|].
  rewrite Forall_forall in Hp |- *. intros q Hq. specialize (Hp q Hq).
  assert (point_index p ≠ point_index q); [|lia]. intros Heq. apply Hnp. rewrite Heq.
  by apply list_elem_of_fmap_2.
Qed.

Lemma sorted_points_increasing tr : filed (rewind_points tr) → increasing (sorted_points tr).
Proof.
  intros Hf. apply sorted_lt_of_le; [apply sort_by_key_sorted|]. unfold sorted_points.
  rewrite sort_by_key_Permutation. rewrite <- list_fmap_compose.
  assert ((point_index ∘ snd) <$> map_to_list (rewind_points tr) = (map_to_list (rewind_points tr)).*1) as ->;
    [|apply NoDup_fst_map_to_list].
  apply list_fmap_ext. intros i [j p] Hp. apply list_elem_of_lookup_2, elem_of_map_to_list in Hp.
  by apply Hf.
Qed.

(** Increasing lists are determined by their elements. *)
Lemma increasing_unique l k : increasing l → increasing k → (∀ p, p ∈ l ↔ p ∈ k) → l = k.
Proof.
  intros Hl. revert k. induction Hl as [|p l Hl IH Hp]; intros k Hk Heq.
  { destruct k as [|q k]; [done|]. exfalso. eapply elem_of_nil, Heq. by left. }
  destruct Hk as [|q k Hk Hq]; [exfalso; eapply elem_of_nil, Heq; by left|].
  rewrite Forall_forall in Hp, Hq.
  assert (p = q) as ->.
  { pose proof (proj1 (Heq p) ltac:(by left)) as [|Hpk]%elem_of_cons; [done|].
    pose proof (proj2 (Heq q) ltac:(by left)) as [|Hql]%elem_of_cons; [done|].
    specialize (Hp q Hql). specialize (Hq p Hpk). lia. }
  f_equal. apply IH; [done|]. intros r. split; intros Hr.
  - pose proof (proj1 (Heq r) ltac:(by right)) as [->|]%elem_of_cons; [|done].
    specialize (Hp q Hr). lia.
  - pose proof (proj2 (Heq r) ltac:(by right)) as [->|]%elem_of_cons; [|done].
    specialize (Hq q Hr). lia.
Qed.

Lemma filter_b_increasing p l : increasing l → increasing (filter_b p l).
Proof.
  intros Hl. eapply StronglySorted_sublist; [|exact Hl]. apply filter_b_sublist.
Qed.

(** ** The first snapshot at or after a prompt *)

(** The content that the point [i] has for a path. *)
Definition before (m : gmap nat RewindPoint) (i : nat) (path : FlexiblePath) : option (option text) :=
  m !! i ≫= λ p, snap_content <$> file_snapshots p !! path.

(** [c] is the content in the first point at or after [i] with a snapshot of [path]. *)
Definition first_snapshot (m : gmap nat RewindPoint) (i : nat) (path : FlexiblePath) (c : option text)
    : Prop :=
  ∃ j, i <= j ∧ before m j path = Some c ∧ ∀ k, i <= k < j → before m k path = None.

Definition no_snapshot (m : gmap nat RewindPoint) (i : nat) (path : FlexiblePath) : Prop :=
  ∀ j, i <= j → before m j path = None.

Lemma before_Some m i path c :
  before m i path = Some c ↔ ∃ p, m !! i = Some p ∧ snap_content <$> file_snapshots p !! path = Some c.
Proof. unfold before. apply bind_Some. Qed.

Lemma find_map_None {A B} (f : A → option B) l : find_map f l = None ↔ ∀ x, x ∈ l → f x = None.
Proof.
  induction l as [|x l IH]; cbn; [split; [intros _ x Hx; by apply elem_of_nil in Hx|done]|].
  destruct (f x) eqn:Hx.
  - split; [done|]. intros Hl. specialize (Hl x ltac:(by left)). congruence.
  - rewrite IH. split; [|intros Hl y Hy; apply Hl; by right].
    intros Hl y [->|Hy]%elem_of_cons; [done|by apply Hl].
Qed.

Lemma find_map_Some {A B} (f : A → option B) l b :
  find_map f l = Some b ↔ ∃ l1 x l2, l = l1 ++ x :: l2 ∧ f x = Some b ∧ ∀ y, y ∈ l1 → f y = None.
Proof.
  induction l as [|x l IH]; cbn.
  { split; [done|]. by intros ([|] & ? & ? & ? & _). }
  destruct (f x) as [b'|] eqn:Hx.
  - split.
    + intros [= ->]. exists [], x, l. split_and!; [done..|]. intros y Hy. by apply elem_of_nil in Hy.
    + intros ([|z l1] & y & l2 & Heq & Hy & Hl1); simplify_eq/=; [congruence|].
      specialize (Hl1 z ltac:(by left)). congruence.
  - rewrite IH. split.
    + intros (l1 & y & l2 & -> & Hy & Hl1). exists (x :: l1), y, l2. split_and!; [done..|].
      intros z [->|Hz]%elem_of_cons; [done|by apply Hl1].
    + intros ([|z l1] & y & l2 & Heq & Hy & Hl1); simplify_eq/=.
      exists l1, y, l2. split_and!; [done..|]. intros u Hu. apply Hl1. by right.
Qed.

(** Where the points of a list from an index on come from. *)
Definition from_index (i : nat) (tr : FileStateTracker) : list RewindPoint :=
  filter_b (λ p, i <=? point_index p) (sorted_points tr).

Lemma from_index_elem i tr p :
  filed (rewind_points tr) →
  p ∈ from_index i tr ↔ i <= point_index p ∧ rewind_points tr !! point_index p = Some p.
Proof.
  intros Hf. unfold from_index. rewrite elem_of_filter_b, sorted_points_elem by done.
  rewrite Nat.leb_le. tauto.
Qed.

Lemma earliest_None i tr path :
  filed (rewind_points tr) →
  earliest (from_index i tr) path = None ↔ no_snapshot (rewind_points tr) i path.
Proof.
  intros Hf. unfold earliest. rewrite find_map_None. split.
  - intros Hl j Hj. unfold before. destruct (rewind_points tr !! j) as [p|] eqn:Hp; [|done].
    apply (Hl p). apply from_index_elem; [done|]. by rewrite (Hf _ _ Hp).
  - intros Hn p [Hi Hp]%from_index_elem; [|done]. specialize (Hn _ Hi). unfold before in Hn.
    by rewrite Hp in Hn.
Qed.

Lemma increasing_before l1 x l2 : increasing (l1 ++ x :: l2) → ∀ y, y ∈ l1 → point_index y < point_index x.
Proof.
  intros Hs y Hy. induction l1 as [|z l1 IH]; [by apply elem_of_nil in Hy|].
  apply StronglySorted_inv in Hs as [Hs Hz]. apply elem_of_cons in Hy as [->|Hy]; [|by apply IH].
  rewrite Forall_forall in Hz. apply Hz. set_solver.
Qed.
Lemma increasing_after l1 x l2 : increasing (l1 ++ x :: l2) → ∀ y, y ∈ l2 → point_index x < point_index y.
Proof.
  intros Hs y Hy. induction l1 as [|z l1 IH].
  - apply StronglySorted_inv in Hs as [_ Hx]. rewrite Forall_forall in Hx. by apply Hx.
  - apply StronglySorted_inv in Hs as [Hs _]. by apply IH.
Qed.

Lemma earliest_Some i tr path c :
  filed (rewind_points tr) →
  earliest (from_index i tr) path = Some c ↔ first_snapshot (rewind_points tr) i path c.
Proof.
  intros Hf. unfold earliest. rewrite find_map_Some.
  assert (increasing (from_index i tr)) as Hinc by (by apply filter_b_increasing, sorted_points_increasing).
  split.
  - intros (l1 & p & l2 & Hl & Hp & Hl1). rewrite Hl in Hinc.
    assert (p ∈ from_index i tr) as [Hi Hp']%from_index_elem by (rewrite ?Hl; set_solver); [|done].
    exists (point_index p). split_and!; [done|by apply before_Some; eauto|]. intros k [Hk Hkj].
    unfold before. destruct (rewind_points tr !! k) as [q|] eqn:Hq; [|done]. cbn.
    assert (q ∈ from_index i tr) as Hin.
    { apply from_index_elem; [done|]. by rewrite (Hf _ _ Hq). }
    rewrite Hl in Hin. apply elem_of_app in Hin as [Hin|[->|Hin]%elem_of_cons].
    + by apply Hl1.
    + rewrite (Hf _ _ Hq) in Hkj. lia.
    + pose proof (increasing_after _ _ _ Hinc q Hin). rewrite (Hf _ _ Hq) in *. lia.
  - intros (j & Hi & (p & Hp & Hc)%before_Some & Hbefore). pose proof (Hf _ _ Hp) as Hj.
    assert (p ∈ from_index i tr) as Hin by (apply from_index_elem; [done|]; by rewrite Hj).
    apply list_elem_of_split in Hin as (l1 & l2 & Hl). rewrite Hl in Hinc.
    exists l1, p, l2. split_and!; [done..|]. intros q Hq.
    assert (q ∈ from_index i tr) as [Hiq Hq']%from_index_elem by (rewrite ?Hl; set_solver); [|done].
    pose proof (increasing_before _ _ _ Hinc q Hq) as Hlt. rewrite Hj in Hlt.
    specialize (Hbefore _ (conj Hiq Hlt)). unfold before in Hbefore. by rewrite Hq' in Hbefore.
Qed.

Lemma from_index_spec i tr path :
  filed (rewind_points tr) →
  match earliest (from_index i tr) path with
  | Some c => first_snapshot (rewind_points tr) i path c
  | None => no_snapshot (rewind_points tr) i path
  end.
Proof.
  intros Hf. destruct (earliest _ _) eqn:He; [by apply earliest_Some|by apply earliest_None].
Qed.

(** ** Merging *)

Lemma dedup_increasing l : increasing l → dedup_by_key point_index l = l.
Proof.
  induction 1 as [|p l Hl IH Hp]; [done|]. cbn. rewrite IH. destruct l as [|q l]; [done|].
  apply Forall_cons in Hp as [Hp _]. by rewrite (proj2 (Nat.eqb_neq _ _)) by lia.
Qed.

Lemma filter_b_cons {A} (p : A → bool) x l :
  filter_b p (x :: l) = if p x then x :: filter_b p l else filter_b p l.
Proof. done. Qed.

Lemma partition_increasing t l :
  increasing l →
  take (partition_point (λ p, point_index p <? t) l) l = filter_b (λ p, point_index p <? t) l
  ∧ drop (partition_point (λ p, point_index p <? t) l) l = filter_b (λ p, t <=? point_index p) l.
Proof.
  induction 1 as [|p l Hl [IH1 IH2] Hp]; [done|]. cbn [partition_point]. rewrite !filter_b_cons, Nat.leb_antisym.
  destruct (point_index p <? t) eqn:Ht; cbn [negb take drop]; [by rewrite IH1, IH2|].
  breflect. rewrite Forall_forall in Hp. rewrite filter_b_none, filter_b_all; [done| |].
  - intros q Hq. specialize (Hp q Hq). apply Nat.leb_le. lia.
  - intros q Hq. specialize (Hp q Hq). apply Nat.ltb_ge. lia.
Qed.

Lemma sort_perm_points (l k : list RewindPoint) :
  increasing k → l ≡ₚ k → sort_by_key point_index l = k.
Proof.
  intros Hk Hl. assert (NoDup (point_index <$> k)) as Hnd.
  { clear Hl l. induction Hk as [|p k Hk IH Hp]; [constructor|]. constructor; [|done].
    intros (q & Hq & Hin)%list_elem_of_fmap. rewrite Forall_forall in Hp. specialize (Hp q Hin). lia. }
  apply increasing_unique; [|done|].
  - apply sorted_lt_of_le; [apply sort_by_key_sorted|]. by rewrite sort_by_key_Permutation, Hl.
  - intros p. by rewrite sort_by_key_Permutation, Hl.
Qed.

Lemma sorted_points_perm tr : (map_to_list (rewind_points tr)).*2 ≡ₚ sorted_points tr.
Proof. symmetry. apply sort_by_key_Permutation. Qed.

(** The points that a merge folds into [previous]. *)
Definition absorbed (previous : RewindPoint) (merged : list RewindPoint) : RewindPoint :=
  foldl absorb previous merged.

Lemma absorbed_index previous merged : point_index (absorbed previous merged) = point_index previous.
Proof.
  unfold absorbed. revert previous. induction merged as [|p l IH]; intros q; [done|]. cbn. by rewrite IH.
Qed.

Lemma absorbed_before previous merged path :
  snap_content <$> file_snapshots (absorbed previous merged) !! path = earliest (previous :: merged) path.
Proof.
  unfold absorbed. revert previous. induction merged as [|p l IH]; intros q; cbn.
  { by destruct (snap_content <$> _). }
  rewrite IH. cbn. rewrite lookup_union. destruct (file_snapshots q !! path); cbn.
  - by destruct (file_snapshots p !! path).
  - by destruct (file_snapshots p !! path).
Qed.

Lemma absorbed_after previous merged path :
  after_snapshots (absorbed previous merged) !! path
  = find_map (λ p, after_snapshots p !! path) (reverse (previous :: merged)).
Proof.
  unfold absorbed. revert previous. induction merged as [|p l IH] using rev_ind; intros q.
  { cbn. by destruct (after_snapshots q !! path). }
  assert (reverse (q :: l ++ [p]) = p :: reverse (q :: l)) as ->
    by (by rewrite app_comm_cons, reverse_snoc).
  rewrite foldl_snoc. cbn [absorb set_snapshots after_snapshots find_map]. rewrite lookup_union, IH.
  destruct (after_snapshots p !! path); by destruct (find_map _ _).
Qed.

Lemma increasing_nodup l : increasing l → NoDup (point_index <$> l).
Proof.
  induction 1 as [|p l Hl IH Hp]; [constructor|]. constructor; [|done].
  intros (q & Hq & Hin)%list_elem_of_fmap. rewrite Forall_forall in Hp. specialize (Hp q Hin). lia.
Qed.

(** The map of a list of points. *)
Lemma points_map_lookup (l : list RewindPoint) j p :
  increasing l →
  (list_to_map ((λ p, (point_index p, p)) <$> reverse l) : gmap nat RewindPoint) !! j = Some p
  ↔ p ∈ l ∧ point_index p = j.
Proof.
  intros Hl. rewrite <- elem_of_list_to_map.
  - rewrite list_elem_of_fmap. setoid_rewrite elem_of_reverse. split.
    + by intros (q & [= -> ->] & Hq).
    + intros [Hp <-]. by exists p.
  - rewrite <- list_fmap_compose. change (fst ∘ _) with point_index.
    rewrite reverse_Permutation. by apply increasing_nodup.
Qed.

Lemma increasing_snoc l p : increasing l → (∀ q, q ∈ l → point_index q < point_index p) → increasing (l ++ [p]).
Proof.
  induction 1 as [|q l Hl IH Hq]; intros Hp; cbn; [by repeat constructor|]. constructor.
  - apply IH. intros r Hr. apply Hp. by right.
  - apply Forall_app. split; [done|]. constructor; [|constructor]. apply Hp. by left.
Qed.

Lemma update_first_last {A} (p : A → bool) f (l : list A) x :
  (∀ y, y ∈ l → p y = false) → p x = true → update_first p f (l ++ [x]) = l ++ [f x].
Proof.
  intros Hl Hx. induction l as [|y l IH]; cbn; [by rewrite Hx|].
  rewrite Hl by (by left). rewrite IH; [done|]. intros z Hz. apply Hl. by right.
Qed.

Section merge.
Context `{HashOrder, !HashOrderPerm, RewindSerde, FsErrors}.
Context (tr : FileStateTracker) (Hfiled : filed (rewind_points tr)).

Lemma merged_list target previous :
  target ≠ 0 → rewind_points tr !! (target - 1) = Some previous →
  merge_rewind_points_from (hash_order (map_to_list (rewind_points tr)).*2) target
  = filter_b (λ p, point_index p <? target - 1) (sorted_points tr)
    ++ [absorbed previous (from_index target tr)].
Proof.
  intros Ht Hprev. assert (increasing (sorted_points tr)) as Hinc by (by apply sorted_points_increasing).
  pose proof (Hfiled _ _ Hprev) as Hidx.
  assert (sort_by_key point_index (hash_order (map_to_list (rewind_points tr)).*2) = sorted_points tr) as Hsort.
  { apply sort_perm_points; [done|]. by rewrite hash_order_perm, sorted_points_perm. }
  destruct (partition_increasing target _ Hinc) as [Htake Hdrop].
  unfold merge_rewind_points_from. rewrite (proj2 (Nat.eqb_neq _ _)) by done.
  rewrite Hsort, dedup_increasing, Htake, Hdrop by done.
  assert (filter_b (λ p, point_index p <? target) (sorted_points tr)
          = filter_b (λ p, point_index p <? target - 1) (sorted_points tr) ++ [previous]) as ->.
  { apply increasing_unique; [by apply filter_b_increasing| |].
    - apply increasing_snoc; [by apply filter_b_increasing|].
      intros q [_ Hq]%elem_of_filter_b. breflect. lia.
    - intros q. rewrite elem_of_app, !elem_of_filter_b, list_elem_of_singleton, sorted_points_elem, !Nat.ltb_lt by done.
      split.
      + intros [Hq Hlt]. destruct (decide (point_index q = target - 1)) as [He|]; [|left; split; [done|lia]].
        right. rewrite He in Hq. congruence.
      + intros [[Hq Hlt]| ->]; split; [done|lia|by rewrite Hidx|lia]. }
  rewrite (update_first_last _ _ _ previous); [done| |by rewrite Hidx, Nat.eqb_refl].
  intros q [_ Hq]%elem_of_filter_b. breflect. apply Nat.eqb_neq. lia.
Qed.

(** With a predecessor of the target, the merged tracker holds the points before it, the
    last of them with what the dropped ones had. *)
Lemma merge_points target previous w tr' w' :
  lazy_source tr = None → target ≠ 0 → rewind_points tr !! (target - 1) = Some previous →
  merge_and_remove_from target tr w = (tr', w') →
  w' = w ∧ lazy_source tr' = None ∧ current_prompt_index tr' = current_prompt_index tr
  ∧ ∀ j, rewind_points tr' !! j
     = if decide (j < target - 1) then rewind_points tr !! j
       else if decide (j = target - 1) then Some (absorbed previous (from_index target tr)) else None.
Proof.
  intros Hlazy Ht Hprev. unfold merge_and_remove_from, ensure_historical_loaded. rewrite Hlazy.
  intros [= <- <-]. split_and!; [done..|]. intros j. cbn [rewind_points set_points].
  rewrite (foldl_insert (λ p, (point_index p, p))), map_union_empty, (merged_list _ previous) by done.
  pose proof (Hfiled _ _ Hprev) as Hidx. apply option_eq. intros p. rewrite points_map_lookup.
  - rewrite elem_of_app, elem_of_filter_b, list_elem_of_singleton, sorted_points_elem, Nat.ltb_lt by done.
    repeat case_decide.
    + split; [by intros [[[Hp _]| ->] <-]; [|rewrite absorbed_index in *; lia]|].
      intros Hp. pose proof (Hfiled _ _ Hp) as Hj. rewrite Hj. by auto.
    + split; [intros [[[_ Hlt]| ->] Hj]; [lia|done]|]. intros [= <-]. split; [by right|].
      by rewrite absorbed_index, Hidx.
    + split; [|done]. intros [[[_ Hlt]| ->] Hj]; [lia|]. rewrite absorbed_index in Hj. lia.
  - apply increasing_snoc; [by apply filter_b_increasing, sorted_points_increasing|].
    intros q [_ Hq]%elem_of_filter_b. rewrite absorbed_index. breflect. lia.
Qed.
Lemma merged_filed target previous w tr' w' :
  lazy_source tr = None → target ≠ 0 → rewind_points tr !! (target - 1) = Some previous →
  merge_and_remove_from target tr w = (tr', w') → filed (rewind_points tr').
Proof.
  intros Hlazy Ht Hprev Hm j p.
  destruct (merge_points _ _ _ _ _ Hlazy Ht Hprev Hm) as (_ & _ & _ & ->).
  repeat case_decide; [apply Hfiled|intros [= <-]|done].
  rewrite absorbed_index. subst. by apply Hfiled.
Qed.

Lemma split_at target previous :
  target ≠ 0 → rewind_points tr !! (target - 1) = Some previous →
  sorted_points tr = filter_b (λ p, point_index p <? target - 1) (sorted_points tr)
                     ++ previous :: from_index target tr.
Proof.
  intros Ht Hprev. pose proof (Hfiled _ _ Hprev) as Hidx.
  assert (increasing (sorted_points tr)) as Hinc by (by apply sorted_points_increasing).
  apply increasing_unique; [done| |].
  - rewrite cons_middle, app_assoc. assert (increasing (from_index target tr)) as Hfrom by (by apply filter_b_increasing).
    assert (∀ q, q ∈ from_index target tr → target <= point_index q) as Hge.
    { intros q Hq. by apply from_index_elem in Hq as [Hq _]. }
    assert (increasing (filter_b (λ p, point_index p <? target - 1) (sorted_points tr) ++ [previous])) as Hl.
    { apply increasing_snoc; [by apply filter_b_increasing|]. intros q [_ Hq]%elem_of_filter_b. breflect. lia. }
    revert Hl Hfrom Hge. generalize (from_index target tr). intros k Hl Hk Hge.
    apply StronglySorted_app_2; [|done..]. intros x y Hx Hy. specialize (Hge y Hy).
    apply elem_of_app in Hx as [[_ Hx]%elem_of_filter_b|Hx%list_elem_of_singleton]; [breflect; lia|subst; lia].
  - intros q. rewrite elem_of_app, elem_of_cons, elem_of_filter_b, from_index_elem, sorted_points_elem, Nat.ltb_lt by done.
    split; [|by intros [[Hq _]|[->|[_ Hq]]]; [|rewrite Hidx|]].
    intros Hq. destruct (decide (point_index q < target - 1)); [by left|]. right.
    destruct (decide (point_index q = target - 1)) as [He|]; [left|right; split; [lia|done]].
    rewrite He in Hq. congruence.
Qed.

(** C35: in a tracker whose points are loaded and that has a point for the prompt before [target],
    forgetting the prompts from [target] on, while their edits stay in the files, changes
    no rewind to an earlier prompt: it would revert the same files to the same contents,
    and compare them with the same last contents of the agent. *)
Theorem merge_keeps_plans target previous w tr' w' :
  lazy_source tr = None → target ≠ 0 → rewind_points tr !! (target - 1) = Some previous →
  merge_and_remove_from target tr w = (tr', w') →
  ∀ i, i < target →
    files_to_revert (sorted_points tr') i = files_to_revert (sorted_points tr) i
    ∧ ∀ path, after_content (sorted_points tr') path = after_content (sorted_points tr) path.
Proof.
  intros Hlazy Ht Hprev Hm i Hi. pose proof (merged_filed _ _ _ _ _ Hlazy Ht Hprev Hm) as Hfiled'.
  destruct (merge_points _ _ _ _ _ Hlazy Ht Hprev Hm) as (_ & _ & _ & Hpts).
  pose proof (Hfiled _ _ Hprev) as Hidx. set (l := filter_b (λ p, point_index p <? target - 1) (sorted_points tr)).
  assert (sorted_points tr' = l ++ [absorbed previous (from_index target tr)]) as Hsorted'.
  { apply increasing_unique; [by apply sorted_points_increasing| |].
    - apply increasing_snoc; [by apply filter_b_increasing, sorted_points_increasing|].
      intros q [_ Hq]%elem_of_filter_b. rewrite absorbed_index. breflect. lia.
    - intros q. unfold l. rewrite sorted_points_elem, Hpts, elem_of_app, list_elem_of_singleton, elem_of_filter_b,
        sorted_points_elem, Nat.ltb_lt by done. repeat case_decide.
      + split; [by auto|intros [[? _]| ->]; [done|rewrite absorbed_index in *; lia]].
      + split; [intros [= <-]; by right|intros [[_ ?]| ->]; [lia|done]].
      + split; [done|intros [[_ ?]| ->]; [lia|rewrite absorbed_index in *; lia]]. }
  pose proof (split_at _ _ Ht Hprev) as Hsorted. fold l in Hsorted. rewrite Hsorted', Hsorted. split.
  - apply map_eq. intros path. rewrite !files_to_revert_lookup, !filter_b_app, !earliest_app, !filter_b_cons.
    rewrite absorbed_index, Hidx, (proj2 (Nat.leb_le _ _)) by lia.
    rewrite (filter_b_all (λ p, i <=? point_index p) (from_index target tr)).
    + destruct (earliest _ path); [done|]. cbn [earliest find_map]. rewrite absorbed_before.
      unfold earliest. cbn. by destruct (snap_content <$> _); [|destruct (find_map _ _)].
    + intros q Hq. apply from_index_elem in Hq as [Hq _]; [|done]. apply Nat.leb_le. lia.
  - intros path. unfold after_content. rewrite !reverse_app, !find_map_app.
    change (reverse [?p]) with [p]. cbn [find_map]. rewrite absorbed_after.
    by destruct (find_map _ (reverse (previous :: _))).
Qed.

End merge.

(** ** One file *)

Section rewind.
Context `{HashOrder, !HashOrderPerm, FsErrors}.
Context (root : text).

#[local] Notation abs := (flexible_to_absolute root).

Lemma fs_write_result p data w e w' :
  fs_write p data w = (e, w') →
  notified w' = notified w
  ∧ if decide (e = None) then files w' = <[p := data]> (files w)
    else files w' = files w ∨ torn p data w w'.
Proof.
  assert (∀ w1, files w1 = files w → notified w1 = notified w →
    match fs_error (ops w1) (WriteOp p) with
    | Some e => (Some (FsIo e), count_op (torn_write p data w1))
    | None => (None, count_op (set_files (<[p := data]> (files w1)) w1))
    end = (e, w') →
    notified w' = notified w
    ∧ if decide (e = None) then files w' = <[p := data]> (files w)
      else files w' = files w ∨ torn p data w w') as Hw1.
  { intros w1 Hf Hn. destruct (fs_error _ _) as [er|] eqn:He; intros [= <- <-]; cbn; [|by rewrite Hf].
    destruct (torn_write_result p data w1 w er Hf He) as [Hn' Hc]. by rewrite Hn'. }
  assert (∀ w1, files w1 = files w → notified w1 = notified w → ∀ er, (Some (FsIo er), w1) = (e, w') →
    notified w' = notified w
    ∧ if decide (e = None) then files w' = <[p := data]> (files w)
      else files w' = files w ∨ torn p data w w') as Hdir.
  { intros w1 Hf Hn er [= <- <-]. by rewrite Hn, Hf, decide_False; auto. }
  unfold fs_write. destruct (components p) as [|c [|]]; [exact (Hw1 w eq_refl eq_refl)|case_bool_decide; [exact (Hw1 w eq_refl eq_refl)|]|].
  all: destruct (fs_error _ (MkdirOp _)) as [er|]; [exact (Hdir (count_op w) eq_refl eq_refl er)|exact (Hw1 (count_op w) eq_refl eq_refl)].
Qed.

(** The file at a path: its content, or no file. *)
Definition put (p : text) (c : option text) (fs : gmap text text) : gmap text text :=
  partial_alter (λ _, c) p fs.

Lemma put_eq p c fs : put p c fs !! p = c.
Proof. apply lookup_partial_alter_eq. Qed.
Lemma put_ne p q c fs : q ≠ p → put p c fs !! q = fs !! q.
Proof. intros. by apply lookup_partial_alter_ne. Qed.

(** A reverted file has the content of the snapshot, provided that the existence of a
    file to remove could be found out; a file that is not reverted stays as it is, or has
    the beginning of that content. *)
(** The file of an entry after its revert: with the content of the snapshot, if the revert
    succeeded — unless the file was to be removed and it could not be found out whether
    there is one —, else as before or, when the write failed after it had opened the
    file, with the beginning of that content. *)
Definition came_out (path : FlexiblePath) (content : option text) (ok : bool) (fs fs' : gmap text text) : Prop :=
  if ok then
    fs' !! abs path = content
    ∨ content = None ∧ fs' !! abs path = fs !! abs path ∧ ∃ i, is_Some (fs_error i (StatOp (abs path)))
  else
    fs' !! abs path = fs !! abs path
    ∨ ∃ data i n, content = Some data ∧ is_Some (fs_error i (WriteOp (abs path)))
        ∧ fs_partial i (abs path) = Some n ∧ fs' !! abs path = Some (take n data).

Lemma revert_file_result path content w ok w' :
  revert_file root path content w = (ok, w') →
  notified w' = notified w
  ∧ (∀ f, f ≠ abs path → files w' !! f = files w !! f)
  ∧ came_out path content ok (files w) (files w').
Proof.
  unfold revert_file, came_out. destruct content as [data|].
  - destruct (fs_write _ _ _) as [e w1] eqn:Hw. intros [= <- <-].
    apply fs_write_result in Hw as [Hn Hf]. split; [done|]. destruct e as [e|]; cbn in Hf |- *.
    + destruct Hf as [->|(i & er & n & He & Hp & ->)]; [by auto|].
      split; [intros f Hne; by apply lookup_insert_ne|right]. exists data, i, n.
      split_and!; [done|by rewrite He|done|by rewrite lookup_insert_eq].
    + rewrite Hf. split; [intros f Hne; by apply lookup_insert_ne|left]. by rewrite lookup_insert_eq.
  - destruct (fs_exists (abs path) w) as [ex w1] eqn:Hex. unfold fs_exists in Hex.
    injection Hex as <- <-. destruct (fs_error (ops w) (StatOp (abs path))) as [e|] eqn:He; cbn [unwrap_or].
    { intros [= <- <-]. split_and!; [done..|]. right. split_and!; [done..|]. exists (ops w). by rewrite He. }
    case_bool_decide as Hin.
    + unfold fs_delete. cbn [ops files count_op].
      destruct (fs_error (S (ops w)) _) as [e|]; cbn; [intros [= <- <-]; by auto|].
      destruct (files w !! abs path) as [c|] eqn:Hf; [|by destruct Hin].
      intros Heq; simplify_eq/=. split_and!; [done| |].
      * intros f Hne. by apply lookup_delete_ne.
      * left. apply lookup_delete_eq.
    + intros [= <- <-]. split_and!; [done..|]. left. cbn. by apply eq_None_not_Some.
Qed.

(** ** The loop *)

(** What became of an entry. *)
Notation Result := (FlexiblePath * option text * bool)%type.

Definition result_path (r : Result) : FlexiblePath := r.1.1.

Lemma rewind_one_result pts path content pr w pr' w' :
  rewind_one root pts path content pr w = (pr', w') →
  ∃ ok, revert_file root path content (count_op w) = (ok, w')
    ∧ had_errors pr' = had_errors pr || negb ok
    ∧ reverted pr' = reverted pr ++ (if ok then [flexible_display path] else [])
    ∧ let current := unwrap_or None (option_to_string (fs_try_read (abs path) w).1) in
      let after := after_content pts path in
      clean_seen pr' = clean_seen pr ++ (if bool_decide (current = after) then [flexible_display path] else [])
      ∧ conflicts_seen pr' = conflicts_seen pr
          ++ (if bool_decide (current = after) then []
              else [mkConflict (flexible_display path) (classify_conflict current after)]).
Proof.
  unfold rewind_one, fs_try_read. destruct (revert_file _ _ _ _) as [ok w1]. intros [= <- <-]. exists ok.
  cbn [fst]. split; [done|]. destruct ok; case_bool_decide; cbn;
    rewrite ?app_nil_r, ?orb_false_r, ?orb_true_r; split_and!; done.
Qed.

Lemma rewind_loop_result pts entries pr w pr' w' :
  rewind_loop root pts entries pr w = (pr', w') →
  ∃ results : list Result,
    results.*1 = entries
    ∧ had_errors pr' = had_errors pr || negb (forallb snd results)
    ∧ reverted pr' = reverted pr ++ (flexible_display ∘ result_path <$> filter_b snd results)
    ∧ (clean_seen pr' ++ (conflict_path <$> conflicts_seen pr')
       ≡ₚ clean_seen pr ++ (conflict_path <$> conflicts_seen pr) ++ (flexible_display <$> entries.*1))
    ∧ notified w' = notified w
    ∧ (∀ f, f ∉ abs <$> entries.*1 → files w' !! f = files w !! f)
    ∧ (NoDup (abs <$> entries.*1) → ∀ p c (ok : bool), (p, c, ok) ∈ results →
        came_out p c ok (files w) (files w')).
Proof.
  revert pr w. induction entries as [|[p c] entries IH]; intros pr w; cbn [rewind_loop].
  { intros [= <- <-]. exists []. cbn. rewrite orb_false_r, !app_nil_r. split_and!; try done.
    by intros _ p c ok Hp%elem_of_nil. }
  destruct (rewind_one root pts p c pr w) as [pr1 w1] eqn:Hone. intros Hloop.
  apply IH in Hloop as (results & Hres & Herr & Hrev & Hseen & Hnot & Hother & Hin).
  apply rewind_one_result in Hone as (ok & Hrevert & Herr1 & Hrev1 & Hcl & Hco).
  apply revert_file_result in Hrevert as (Hn1 & Hother1 & Hok1). cbn in Hn1, Hother1, Hok1.
  exists ((p, c, ok) :: results). cbn [fmap list_fmap]. split_and!.
  - by rewrite <- Hres.
  - rewrite Herr, Herr1. cbn. by destruct (had_errors pr), ok.
  - rewrite Hrev, Hrev1, <- app_assoc. f_equal. by destruct ok.
  - rewrite Hseen, Hcl, Hco, fmap_app. cbn [fst].
    case_bool_decide; cbn; rewrite <- ?app_assoc, ?app_nil_r; cbn.
    + apply Permutation_app_head. rewrite <- Permutation_middle. done.
    + do 2 apply Permutation_app_head. done.
  - by rewrite Hnot.
  - intros f Hf. apply not_elem_of_cons in Hf as [Hp Hf]. rewrite Hother by done. by apply Hother1.
  - intros Hnd. apply NoDup_cons in Hnd as [Hp Hnd]. intros q d ok' [[= -> -> ->]|Hr]%elem_of_cons.
    + unfold came_out in *. by rewrite Hother.
    + specialize (Hin Hnd q d ok' Hr). assert (abs q ≠ abs p) as Hqp.
      { intros Heq. apply Hp. cbn [fst]. rewrite <- Heq. apply list_elem_of_fmap_2.
        change q with ((q, d).1). apply list_elem_of_fmap_2. rewrite <- Hres.
        change (q, d) with ((q, d, ok').1). by apply list_elem_of_fmap_2. }
      unfold came_out in *. by rewrite <- (Hother1 (abs q) Hqp).
Qed.
Context `{RewindSerde}.

Lemma load_files tr w tr' w' :
  ensure_historical_loaded tr w = (tr', w') → files w' = files w ∧ notified w' = notified w.
Proof.
  unfold ensure_historical_loaded, read_rewind_points_file, read_rewind_jsonl_lines. intros Hl.
  by repeat (case_match; simplify_eq/=).
Qed.

Lemma truncate_files i tr w tr' w' :
  truncate_from i tr w = (tr', w') → files w' = files w ∧ notified w' = notified w.
Proof.
  unfold truncate_from. destruct (ensure_historical_loaded tr w) as [tr1 w1] eqn:Hl.
  intros [= <- <-]. by eapply load_files.
Qed.

(** A loaded tracker is not loaded again. *)
Lemma truncate_loaded i tr w :
  lazy_source tr = None → truncate_from i tr w = (set_points (retain_below i (rewind_points tr)) tr, w).
Proof. intros Hl. unfold truncate_from, ensure_historical_loaded. by rewrite Hl. Qed.

Lemma result_names (results : list Result) entries :
  results.*1 = entries → flexible_display ∘ result_path <$> results = flexible_display <$> entries.*1.
Proof. intros <-. by rewrite <- !list_fmap_compose. Qed.

(** What a rewind of the files answers and does, entry by entry of its plan. *)
Lemma rewind_files_result target tr w resp tr' w' pts tr1 w1 :
  get_rewind_points tr w = (pts, tr1, w1) →
  rewind_files root target tr w = (resp, tr', w') →
  ∃ results : list Result,
    results.*1 ≡ₚ map_to_list (files_to_revert pts target)
    ∧ success resp = forallb snd results ∧ (error resp = None ↔ success resp = true)
    ∧ reverted_files resp = flexible_display ∘ result_path <$> filter_b snd results
    ∧ clean_files resp ++ (conflict_path <$> conflicts resp) ≡ₚ flexible_display ∘ result_path <$> results
    ∧ (∀ f, f ∉ abs ∘ result_path <$> results → files w' !! f = files w !! f)
    ∧ (NoDup (abs ∘ result_path <$> results) → ∀ p c (ok : bool), (p, c, ok) ∈ results →
        came_out p c ok (files w) (files w'))
    ∧ (success resp = false → tr' = tr1)
    ∧ (success resp = true → lazy_source tr1 = None →
       tr' = set_points (retain_below target (rewind_points tr1)) tr1).
Proof.
  intros Hget. unfold rewind_files. rewrite Hget. unfold get_rewind_points in Hget.
  destruct (ensure_historical_loaded tr w) as [tr0 w0] eqn:Hload. injection Hget as _ <- <-.
  apply load_files in Hload as [Hf0 Hn0].
  destruct (rewind_loop _ _ _ _ _) as [pr w2] eqn:Hloop.
  apply rewind_loop_result in Hloop as (results & Hres & Herr & Hrev & Hseen & Hn2 & Hother & Hin).
  cbn in Herr, Hrev, Hseen.
  destruct (if had_errors pr then _ else _) as [tr3 w3] eqn:Hend. intros [= <- <- <-].
  assert (files w3 = files w2) as Hf3.
  { destruct (had_errors pr); [by injection Hend as <- <-|]. by eapply truncate_files. }
  exists results. cbn [success error reverted_files clean_files conflicts].
  assert (abs ∘ result_path <$> results = abs <$> (hash_order (map_to_list (files_to_revert pts target))).*1) as Habs.
  { rewrite <- Hres. by rewrite <- !list_fmap_compose. }
  split_and!.
  - rewrite Hres. apply hash_order_perm.
  - rewrite Herr. apply negb_involutive.
  - by destruct (had_errors pr).
  - done.
  - rewrite Hseen. by rewrite (result_names _ _ Hres).
  - rewrite Habs. intros f Hf. by rewrite Hf3, Hother, Hf0.
  - rewrite Habs. intros Hnd q c ok Hq. rewrite Hf3. specialize (Hin Hnd q c ok Hq).
    by rewrite <- Hf0.
  - intros Hs. destruct (had_errors pr); [by injection Hend as <- <-|done].
  - intros Hs Hlazy. destruct (had_errors pr); [done|]. rewrite truncate_loaded in Hend by done.
    by injection Hend as <- <-.
Qed.

(** C16: a rewind of the files visits exactly the files that a point at or after the target
    has a snapshot of, each path once, with the content of the first such snapshot.
    Exactly the files whose revert succeeded are reported reverted.
    If no two of the visited paths stand for one file, a reverted file holds that
    content (but a file that was to be removed is there as before if it could not be
    found out whether it exists), and a file whose revert failed is as it was or, when
    the write failed after it had opened the file, holds the beginning of that
    content.  Every file that was not visited is as it was.  Each visited file is
    reported as clean or as one conflict.  The answer is a success, without an error
    text, if no file failed; then, if the points on disk could be loaded, exactly the
    points before the target are kept; else the tracker keeps them all. *)
Theorem rewind_files_exact target tr w resp tr' w' pts tr1 w1 :
  get_rewind_points tr w = (pts, tr1, w1) →
  rewind_files root target tr w = (resp, tr', w') →
  filed (rewind_points tr1) →
  ∃ results : list Result,
    NoDup (result_path <$> results)
    ∧ (∀ path c, (path, c) ∈ results.*1 ↔ first_snapshot (rewind_points tr1) target path c)
    ∧ success resp = forallb snd results ∧ (error resp = None ↔ success resp = true)
    ∧ reverted_files resp = flexible_display ∘ result_path <$> filter_b snd results
    ∧ clean_files resp ++ (conflict_path <$> conflicts resp) ≡ₚ flexible_display ∘ result_path <$> results
    ∧ (∀ f, f ∉ abs ∘ result_path <$> results → files w' !! f = files w !! f)
    ∧ (NoDup (abs ∘ result_path <$> results) → ∀ p c (ok : bool), (p, c, ok) ∈ results →
        came_out p c ok (files w) (files w'))
    ∧ (success resp = false → tr' = tr1)
    ∧ (success resp = true → lazy_source tr1 = None →
       lazy_source tr' = None
       ∧ ∀ i p, rewind_points tr' !! i = Some p ↔ i < target ∧ rewind_points tr1 !! i = Some p).
Proof.
  intros Hget Hrw Hfiled.
  destruct (rewind_files_result target tr w resp tr' w' pts tr1 w1 Hget Hrw)
    as (results & Hres & Hs & He & Hrev & Hcl & Hother & Hin & Hfail & Hok).
  assert (pts = sorted_points tr1) as ->.
  { unfold get_rewind_points in Hget. by destruct (ensure_historical_loaded tr w); simplify_eq. }
  exists results. split_and!; try done.
  - assert (result_path <$> results = results.*1.*1) as -> by (by rewrite <- list_fmap_compose).
    rewrite Hres. apply NoDup_fst_map_to_list.
  - intros path c. rewrite Hres, elem_of_map_to_list, files_to_revert_lookup. by apply earliest_Some.
  - intros Hsu Hl. rewrite (Hok Hsu Hl). split; [done|]. intros i p. cbn.
    unfold retain_below. rewrite map_lookup_filter_Some. naive_solver.
Qed.

End rewind.
