(* ===== verification/RewindSerial.v ===== *)
(** * Rewind points on disk

    A rewind point read back from its JSON; the lines of [rewind_points.jsonl] read back;
    a tracker that loads its history when it needs it against one that has it from the
    start; and the list for the picker, which is made without loading.

    The writer of that file: the arms of the worker of
    [ds-shell/src/session/persistence.rs] for rewind points, over
    [storage/jsonl/mod.rs].  Every write comes with its outcome ([WriteOutcome]); a file
    that is rewritten is renamed into place, so that it is the old one or the new one.  The
    invariant [holds] relates the bytes to the points that the messages ask for. *)

From S2P Require Import Prelude Text TextProps Utf8 Json Paths ToolFs FileState FileStateProps.

Open Scope nat_scope.

(** ** Numbers *)

Lemma digit_pretty n : (n < 10)%N → digit_value (pretty_N_char n) = Some (Z.of_N n).
Proof.
  intros Hn. assert (n = 0 ∨ n = 1 ∨ n = 2 ∨ n = 3 ∨ n = 4 ∨ n = 5 ∨ n = 6 ∨ n = 7 ∨ n = 8 ∨ n = 9)%N as H by lia.
  by repeat destruct H as [-> | H]; [..|subst].
Qed.

Lemma parse_digits_pretty max n s :
  (Z.of_N n <= max)%Z →
  parse_digits max 0 (txt (pretty_N_go n s)) = parse_digits max (Z.of_N n) (txt s).
Proof.
  revert s. induction (N.lt_wf_0 n) as [n _ IH]; intros s Hn.
  destruct (decide (n = 0)%N) as [->|Hne]; [done|].
  rewrite pretty_N_go_step by lia.
  assert (n `div` 10 < n)%N as Hlt by (apply N.div_lt; lia).
  pose proof (N.div_mod n 10 ltac:(done)) as Hdm. pose proof (N.mod_lt n 10 ltac:(done)) as Hmod.
  rewrite IH by lia. cbn [txt String.list_ascii_of_string parse_digits].
  rewrite digit_pretty by done. cbn [mbind option_bind].
  replace (Z.of_N (n `div` 10) * 10 + Z.of_N (n `mod` 10))%Z with (Z.of_N n) by lia.
  by rewrite (proj2 (Z.ltb_ge _ _)).
Qed.

(** A text that is read as digits does not start with a sign. *)
Lemma parse_uint_digits max s n :
  s ≠ [] → parse_digits max 0 s = Some n → parse_uint max s = Some n.
Proof.
  intros Hs Hp. unfold parse_uint. destruct s as [|c s]; [done|]. case_decide as Hc; [|done].
  subst c. by cbn in Hp.
Qed.

Lemma parse_show n : (Z.of_nat n <= u64_max)%Z → parse_uint u64_max (show_Z (Z.of_nat n)) = Some (Z.of_nat n).
Proof.
  intros Hn. destruct n as [|n]; [done|].
  change (show_Z (Z.of_nat (S n))) with (txt (pretty_N_go (N.pos (Pos.of_succ_nat n)) "")).
  set (k := N.pos (Pos.of_succ_nat n)). assert (Z.of_N k = Z.of_nat (S n)) as Hk by (unfold k; lia).
  assert (parse_digits u64_max 0 (txt (pretty_N_go k "")) = Some (Z.of_N k)) as Hp by (by rewrite parse_digits_pretty by lia).
  apply parse_uint_digits; [|by rewrite Hp, Hk].
  intros Hnil. rewrite Hnil in Hp. injection Hp as Hz. lia.
Qed.

(** ** Members of objects *)

Lemma member_miss k k' v fields : k' ≠ k → member k ((k', v) :: fields) = member k fields.
Proof. intros Hk. unfold member, filter_b. cbn. by rewrite bool_decide_eq_false_2. Qed.

Lemma member_hit k v fields : k ∉ fields.*1 → member k ((k, v) :: fields) = Some (Some v).
Proof.
  intros Hk. unfold member, filter_b. cbn. rewrite bool_decide_eq_true_2 by done.
  assert (filter_b (λ f : text * Json, bool_decide (f.1 = k)) fields = []) as Hnone.
  { apply filter_b_none. intros f Hf. apply bool_decide_eq_false. intros <-. by apply Hk, list_elem_of_fmap_2. }
  unfold filter_b in Hnone. by rewrite Hnone.
Qed.

(** Reads the members of an object that lists its fields. *)
Ltac members := repeat (rewrite member_miss by done); rewrite member_hit by (by apply (bool_decide_unpack _)).

(** ** Paths *)

(** A path that its text names: relative or absolute as its constructor says, and UTF-8. *)
Definition storable (p : FlexiblePath) : Prop :=
  match p with
  | Relative cs => is_absolute (path_text cs) = false ∧ utf8_valid (path_text cs) = true ∧ components (path_text cs) = cs
  | Absolute cs => is_absolute (path_text cs) = true ∧ utf8_valid (path_text cs) = true ∧ components (path_text cs) = cs
  end.
#[export] Instance storable_dec p : Decision (storable p).
Proof. destruct p; apply _. Defined.

Lemma flexible_roundtrip p : storable p → flexible_from_str (flexible_as_str p) = p.
Proof.
  unfold flexible_from_str, flexible_as_str, RelPathBuf_new.
  destruct p; intros (Ha & Hu & Hc); by rewrite ?Hu, Ha, ?Hu, Hc.
Qed.

Lemma storable_inj p q : storable p → storable q → flexible_as_str p = flexible_as_str q → p = q.
Proof. intros Hp Hq Heq. by rewrite <- (flexible_roundtrip p), <- (flexible_roundtrip q), Heq. Qed.

(** The paths of the snapshots that the bridge takes. *)
Lemma tracked_storable root p rel :
  is_absolute root = true → from_absolute root p = inr rel → storable (Relative rel).
Proof.
  intros Hr Hrel. destruct (from_absolute_inr _ _ _ Hr Hrel) as (_ & Hn & Hu).
  split_and!; [by rewrite path_text_names, join_relative|done|]. by apply components_text; left.
Qed.

(** ** Snapshots and points *)

Class DateTimeLaws `{RewindSerde} :=
  datetime_roundtrip t : datetime_from_str (datetime_to_string t) = Some t.

Section roundtrip.
Context `{RewindSerde, !DateTimeLaws, HashOrder, !HashOrderPerm}.

Lemma de_datetime_string t : de_datetime (JString (datetime_to_string t)) = Some t.
Proof. apply datetime_roundtrip. Qed.

Lemma file_snapshot_roundtrip s : storable (snap_path s) → de_snapshot (ser_snapshot s) = Some s.
Proof.
  intros Hp. unfold ser_snapshot. cbn [de_snapshot]. members. members. members.
  cbn [required with_default mbind option_bind]. rewrite de_datetime_string.
  destruct s as [p c t]. cbn in *. destruct c; cbn; by rewrite flexible_roundtrip.
Qed.

(** The snapshots of a point, each under its path. *)
Definition storable_snapshots (m : Snapshots) : Prop :=
  ∀ p s, m !! p = Some s → storable p ∧ storable (snap_path s).

Lemma de_entries (l : list (FlexiblePath * FileSnapshot)) (m : gmap text FileSnapshot) :
  (∀ e, e ∈ l → storable (snap_path e.2)) →
  foldl de_entry (Some m) ((λ e, (flexible_as_str e.1, ser_snapshot e.2)) <$> l)
  = Some (foldl (λ m (e : FlexiblePath * FileSnapshot), <[flexible_as_str e.1 := e.2]> m) m l).
Proof.
  revert m. induction l as [|e l IH]; intros m Hl; [done|]. cbn [fmap list_fmap foldl].
  unfold de_entry at 2. cbn [fst snd mbind option_bind].
  rewrite file_snapshot_roundtrip by (apply Hl; by left). apply IH. intros e' He'. apply Hl. by right.
Qed.

Lemma snapshots_roundtrip m : storable_snapshots m → de_snapshots (ser_snapshots m) = Some m.
Proof.
  intros Hm. unfold ser_snapshots. cbn [de_snapshots]. set (l := hash_order (map_to_list m)).
  assert (l ≡ₚ map_to_list m) as Hl by apply hash_order_perm.
  assert (∀ e, e ∈ l → storable e.1 ∧ storable (snap_path e.2)) as Hst.
  { intros [p s]. rewrite Hl, elem_of_map_to_list. apply Hm. }
  rewrite de_entries by (intros e He; by apply Hst). cbn [mbind option_bind]. f_equal.
  rewrite (foldl_insert (λ e : FlexiblePath * FileSnapshot, (flexible_as_str e.1, e.2))), map_union_empty.
  set (texts := (λ e : FlexiblePath * FileSnapshot, (flexible_as_str e.1, e.2)) <$> reverse l).
  assert (NoDup texts.*1) as Hnd.
  { unfold texts. rewrite <- list_fmap_compose, reverse_Permutation.
    apply (NoDup_fmap_2_strong _ _); [|rewrite Hl; apply NoDup_map_to_list].
    intros [p s] [q r] Hp Hq Heq. cbn in Heq.
    assert (p = q) as -> by (apply storable_inj; [apply (Hst _ Hp)|apply (Hst _ Hq)|done]).
    rewrite Hl in Hp, Hq. apply elem_of_map_to_list in Hp, Hq. congruence. }
  rewrite (foldl_insert (λ e : text * FileSnapshot, (flexible_from_str e.1, e.2))), map_union_empty.
  apply list_to_map_perm. rewrite reverse_Permutation, hash_order_perm, map_to_list_to_map by done.
  unfold texts. rewrite <- list_fmap_compose, reverse_Permutation, Hl.
  rewrite <- (list_fmap_id (map_to_list m)) at 2. apply Permutation_refl'.
  apply list_fmap_ext. intros i [p s] Hin. apply list_elem_of_lookup_2, elem_of_map_to_list in Hin.
  cbn. by rewrite flexible_roundtrip by (by eapply Hm).
Qed.

(** A point whose index fits in 64 bits and whose paths have a text. *)
Definition storable_point (p : RewindPoint) : Prop :=
  (Z.of_nat (point_index p) <= u64_max)%Z
  ∧ storable_snapshots (file_snapshots p) ∧ storable_snapshots (after_snapshots p).

Lemma de_usize_roundtrip n : (Z.of_nat n <= u64_max)%Z → de_usize (ser_usize n) = Some n.
Proof. intros Hn. cbn. rewrite parse_show by done. cbn. by rewrite Nat2Z.id. Qed.

Lemma point_roundtrip p : storable_point p → de_point (ser_point p) = Some p.
Proof.
  intros (Hi & Hb & Ha). unfold ser_point. cbn [de_point]. members. members. members. members.
  cbn [required with_default mbind option_bind].
  rewrite de_usize_roundtrip, de_datetime_string by done. cbn [mbind option_bind].
  rewrite !snapshots_roundtrip by done. by destruct p.
Qed.

Lemma meta_of_point p : storable_point p → de_meta (ser_point p) = Some (point_meta p).
Proof.
  intros (Hi & Hb & Ha). unfold ser_point. cbn [de_meta]. members. members. members.
  cbn [required mbind option_bind].
  rewrite de_usize_roundtrip, de_datetime_string by done. cbn.
  by rewrite length_fmap, hash_order_perm, length_map_to_list.
Qed.

End roundtrip.

(** ** The file and the tracker *)

Section lazy.
Context `{RewindSerde, !DateTimeLaws, HashOrder, !HashOrderPerm, FsErrors}.

(** What [serde_json] promises for the line of a point: the text is one line without
    blanks at its ends, is UTF-8, and is read back. *)
Definition line_of (p : RewindPoint) : text := to_string (ser_point p).
Definition faithful_line (p : RewindPoint) : Prop :=
  clean_line (line_of p) ∧ line_of p ≠ [] ∧ trim (line_of p ++ [LF]) = line_of p
  ∧ from_str (line_of p) = Some (ser_point p).

(** The file that holds the points [ps], one to a line. *)
Definition stored (path : text) (ps : list RewindPoint) (w : World) : Prop :=
  files w !! path = Some (unlines (line_of <$> ps)) ∧ utf8_valid (unlines (line_of <$> ps)) = true
  ∧ fs_error (ops w) (ReadOp path) = None
  ∧ ∀ p, p ∈ ps → storable_point p ∧ faithful_line p.

Lemma read_stored {T} (de : Json → option T) (f : RewindPoint → T) path ps w :
  stored path ps w → (∀ p, p ∈ ps → de (ser_point p) = Some (f p)) →
  read_rewind_jsonl_lines de path w = (Some (f <$> ps), count_op w).
Proof.
  intros (Hfile & Hutf & Herr & Hps) Hde. unfold read_rewind_jsonl_lines. rewrite Herr, Hfile, Hutf.
  rewrite split_inclusive_unlines.
  - do 2 f_equal. clear Hfile Hutf. induction ps as [|p ps IH]; [done|].
    destruct (Hps p ltac:(by left)) as (_ & Hclean & Hne & Htrim & Hfrom). cbn.
    unfold read_line at 1. rewrite Htrim, bool_decide_eq_false_2 by done. unfold line_of at 1. fold (line_of p).
    rewrite Hfrom. cbn [mbind option_bind]. rewrite Hde by (by left).
    f_equal. apply IH; intros q Hq; [apply Hps|apply Hde]; by right.
  - apply Forall_forall. intros l (p & -> & Hp)%list_elem_of_fmap. by apply Hps.
Qed.

(** The tracker that has the points on disk from the start. *)
Definition loaded (ps : list RewindPoint) (tr : FileStateTracker) : FileStateTracker :=
  mkTracker (rewind_points tr ∪ list_to_map ((λ p, (point_index p, p)) <$> ps)) (current_prompt_index tr) None.

Lemma load_stored path ps tr w :
  lazy_source tr = Some path → stored path ps w →
  ensure_historical_loaded tr w = (loaded ps tr, count_op w).
Proof.
  intros Hl Hs. unfold ensure_historical_loaded, read_rewind_points_file.
  rewrite Hl, (read_stored de_point id path ps w Hs) by (intros p Hp; apply point_roundtrip; by apply Hs).
  rewrite list_fmap_id. unfold loaded. by rewrite (foldl_or_insert (λ p, (point_index p, p))).
Qed.

(** Sorting lists of distinct keys that are permutations of each other. *)
Lemma sort_by_key_unique {A} (f : A → nat) l k :
  l ≡ₚ k → NoDup (f <$> k) → sort_by_key f l = sort_by_key f k.
Proof.
  intros Hl Hnd. eapply StronglySorted_unique_strong; [|apply sort_by_key_sorted..|].
  - intros x y Hx Hy Hxy Hyx. rewrite sort_by_key_Permutation in Hx, Hy. rewrite Hl in Hx.
    apply list_elem_of_lookup in Hx as [i Hi]. apply list_elem_of_lookup in Hy as [j Hj].
    assert (i = j) as ->; [|congruence].
    eapply NoDup_lookup; [exact Hnd|by rewrite list_lookup_fmap, Hi|].
    rewrite list_lookup_fmap, Hj. cbn in *. f_equal. lia.
  - by rewrite !sort_by_key_Permutation.
Qed.

Lemma sort_by_key_fmap {A B} (g : A → B) (f : B → nat) l :
  NoDup (f ∘ g <$> l) → sort_by_key f (g <$> l) = g <$> sort_by_key (f ∘ g) l.
Proof.
  intros Hnd. eapply (StronglySorted_unique_strong (λ a b, f a <= f b)).
  - intros x y Hx Hy Hxy Hyx. rewrite sort_by_key_Permutation in Hx.
    rewrite sort_by_key_Permutation in Hy.
    apply list_elem_of_lookup in Hx as [i Hi]. apply list_elem_of_lookup in Hy as [j Hj].
    assert (i = j) as ->; [|congruence]. rewrite list_fmap_compose in Hnd.
    eapply NoDup_lookup; [exact Hnd|by rewrite list_lookup_fmap, Hi|].
    rewrite list_lookup_fmap, Hj. cbn in *. f_equal. lia.
  - apply sort_by_key_sorted.
  - pose proof (sort_by_key_sorted (f ∘ g) l) as Hs. induction Hs as [|x k Hs IH Hx]; [constructor|].
    cbn. constructor; [done|]. apply Forall_fmap. eapply Forall_impl; [exact Hx|]. done.
  - by rewrite !sort_by_key_Permutation.
Qed.

(** The metadata of a filed tracker. *)
Lemma memory_metas_fmap tr :
  filed (rewind_points tr) → memory_metas tr = point_meta <$> rewind_points tr.
Proof.
  intros Hf. unfold memory_metas. apply list_to_map_perm.
  rewrite map_to_list_fmap. apply Permutation_refl', list_fmap_ext. intros k [i p] Hp.
  apply list_elem_of_lookup_2, elem_of_map_to_list in Hp. cbn. by rewrite (Hf _ _ Hp).
Qed.

Lemma sorted_metas tr :
  filed (rewind_points tr) →
  sort_by_key meta_index (map_to_list (point_meta <$> rewind_points tr)).*2 = point_meta <$> sorted_points tr.
Proof.
  intros Hf. unfold sorted_points.
  assert (NoDup (point_index <$> (map_to_list (rewind_points tr)).*2)) as Hnd.
  { rewrite (sorted_points_perm tr). apply increasing_nodup. by apply sorted_points_increasing. }
  rewrite <- (sort_by_key_fmap point_meta meta_index) by done.
  apply sort_by_key_unique; [|by rewrite <- list_fmap_compose].
  rewrite map_to_list_fmap. by rewrite <- !list_fmap_compose.
Qed.

(** C23: a tracker that loads its history when it needs it is one that has had it from the
    start: the points in memory win over those on disk, and every rewind sees the same
    points.  The picker's list, made without loading, is the list of these points. *)
Theorem lazy_load_exact path ps tr w :
  lazy_source tr = Some path → filed (rewind_points tr) → stored path ps w →
  get_rewind_points tr w = (sorted_points (loaded ps tr), loaded ps tr, count_op w)
  ∧ get_rewind_point_metas tr w = (point_meta <$> sorted_points (loaded ps tr), count_op w)
  ∧ filed (rewind_points (loaded ps tr))
  ∧ (∀ i p, rewind_points tr !! i = Some p → rewind_points (loaded ps tr) !! i = Some p)
  ∧ (NoDup (point_index <$> ps) → ∀ p, p ∈ ps → rewind_points tr !! point_index p = None →
     rewind_points (loaded ps tr) !! point_index p = Some p).
Proof.
  intros Hl Hf Hs. set (disk := list_to_map ((λ p, (point_index p, p)) <$> ps) : gmap nat RewindPoint).
  assert (filed (rewind_points (loaded ps tr))) as Hf'.
  { intros i p [Hp|[_ Hp]]%lookup_union_Some_raw; [by apply Hf|].
    apply elem_of_list_to_map_2, list_elem_of_fmap in Hp as (q & [= -> ->] & _). done. }
  split_and!.
  - unfold get_rewind_points. by rewrite (load_stored _ _ _ _ Hl Hs).
  - unfold get_rewind_point_metas, scan_rewind_point_metas.
    rewrite Hl, (read_stored de_meta point_meta path ps w Hs) by (intros p Hp; apply meta_of_point; by apply Hs).
    rewrite (foldl_or_insert (λ x, (meta_index x, x))), memory_metas_fmap by done.
    rewrite <- sorted_metas by done. do 4 f_equal. cbn [rewind_points loaded].
    rewrite map_fmap_union. f_equal. rewrite <- list_to_map_fmap. f_equal. by rewrite <- !list_fmap_compose.
  - done.
  - intros i p Hp. by apply lookup_union_Some_l.
  - intros Hnd p Hp Hn. cbn. rewrite lookup_union_r by done. apply elem_of_list_to_map_1.
    + by rewrite <- list_fmap_compose.
    + apply list_elem_of_fmap. by exists p.
Qed.

End lazy.

(** ** The file of a session *)

(** The messages to the worker that owns [rewind_points.jsonl]; how a write ends: a write
    that is cut off after some bytes of its record, or before the first byte. *)
Inductive PersistenceMsg :=
| PersistRewindPoint (p : RewindPoint)
| TruncateRewindPoints (from_index : nat)
| MergeRewindPointsFrom (target : nat).

Inductive WriteOutcome := Written | TornAt (n : nat) | NotWritten.

(** The last byte of the file ends no line. *)
Definition heals (file : text) : bool :=
  match last file with Some c => negb (bool_decide (c = LF)) | None => false end.

(** A record is terminated if the one before it was cut off. *)
Definition append_jsonl_line (line : text) (o : WriteOutcome) (file : option text) : option text :=
  let old := default [] file in
  let start := if heals old then [LF] else [] in
  match o with
  | Written => Some (old ++ start ++ line)
  | TornAt n => Some (old ++ start ++ take n line)
  | NotWritten => file
  end.

Section storage.
Context `{RewindSerde, HashOrder}.

(** [append_jsonl]. *)
Definition append_rewind_point (p : RewindPoint) : WriteOutcome → option text → option text :=
  append_jsonl_line (to_string (ser_point p) ++ [LF]).

(** The new content goes to a temporary file that is renamed. *)
Definition write_jsonl (items : list RewindPoint) (o : WriteOutcome) (file : option text) : option text :=
  match o with
  | Written => Some (unlines ((λ p, to_string (ser_point p)) <$> items))
  | TornAt _ | NotWritten => file
  end.

(** [None] is an error: one line that is no point is one. *)
Definition read_jsonl (file : option text) : option (list RewindPoint) :=
  match file with
  | None => Some []
  | Some contents =>
      if utf8_valid contents
      then mapM (λ l, from_str l ≫= de_point) (filter_b (λ l, negb (bool_decide (trim l = []))) (lines contents))
      else None
  end.

Definition truncate_rewind_points_from (i : nat) (o : WriteOutcome) (file : option text) : option text :=
  match read_jsonl file with
  | Some points => write_jsonl (filter_b (λ p, point_index p <? i) points) o file
  | None => file
  end.

Definition merge_stored_points_from (target : nat) (o : WriteOutcome) (file : option text) : option text :=
  match read_jsonl file with
  | Some points => write_jsonl (merge_rewind_points_from points target) o file
  | None => file
  end.

(** The arms of the worker: an error is logged and the file stays. *)
Definition persist_rewind (m : PersistenceMsg) : WriteOutcome → option text → option text :=
  match m with
  | PersistRewindPoint p => append_rewind_point p
  | TruncateRewindPoints i => truncate_rewind_points_from i
  | MergeRewindPointsFrom target => merge_stored_points_from target
  end.

(** What the messages ask for, and what becomes of it: [torn] is a record that was cut
    off; the file is not rewritten after that. *)
Definition wanted (m : PersistenceMsg) (ps : list RewindPoint) : list RewindPoint :=
  match m with
  | PersistRewindPoint p => ps ++ [p]
  | TruncateRewindPoints i => filter_b (λ p, point_index p <? i) ps
  | MergeRewindPointsFrom target => merge_rewind_points_from ps target
  end.

Definition spec_persist (s : list RewindPoint * bool) (x : PersistenceMsg * WriteOutcome) : list RewindPoint * bool :=
  let '(ps, torn) := s in
  match x with
  | (m, Written) =>
      match m with
      | PersistRewindPoint _ => (wanted m ps, torn)
      | _ => if torn then s else (wanted m ps, false)
      end
  | (PersistRewindPoint p, TornAt n) =>
      if n =? 0 then s
      else if n <? length (line_of p) then (ps, true)
      else (ps ++ [p], torn)
  | _ => s
  end.

End storage.

(** ** What the readers find in the file *)

(** What [serde_json] promises for the lines of the points [good]: a line is read back,
    with or without its end; a proper part of it from its beginning is no JSON. *)
Class LineLaws `{RewindSerde, HashOrder} (good : RewindPoint → Prop) := {
  good_stored p : good p → storable_point p ∧ faithful_line p;
  good_bare p : good p → trim (line_of p) = line_of p ∧ utf8_valid (line_of p) = true;
  good_torn p n : good p → 0 < n < length (line_of p) →
    let t := take n (line_of p) in
    trim t ≠ [] ∧ from_str t = None ∧ from_str (trim t) = None ∧ from_str (trim (t ++ [LF])) = None;
  good_absorb p q : good p → good q → good (absorb p q);
}.

Section storage_readers.
Context `{RewindSerde, !DateTimeLaws, HashOrder, !HashOrderPerm, FsErrors}.
Context (good : RewindPoint → Prop) `{!LineLaws good}.

(** A line of the file: a record, or the beginning of one. *)
Inductive Entry := Whole (p : RewindPoint) | Part (p : RewindPoint) (n : nat).

Definition entry_text (e : Entry) : text :=
  match e with Whole p => line_of p | Part p n => take n (line_of p) end.
Definition entry_point (e : Entry) : option RewindPoint := match e with Whole p => Some p | Part _ _ => None end.
Definition is_part (e : Entry) : bool := match e with Whole _ => false | Part _ _ => true end.
Definition entry_ok (e : Entry) : Prop :=
  match e with
  | Whole p => good p
  | Part p n => good p ∧ 0 < n < length (line_of p) ∧ utf8_valid (take n (line_of p)) = true
  end.

Lemma entry_clean e : entry_ok e → clean_line (entry_text e).
Proof.
  assert (∀ p, good p → clean_line (line_of p)) as Hp by (intros p Hp; by apply (good_stored p Hp)).
  destruct e as [p|p n]; [apply Hp|]. intros (Hg & _). destruct (Hp p Hg) as [Hl Hc]. cbn.
  split; intros Hin; [apply Hl|apply Hc]; by eapply elem_of_take in Hin as (? & Hi & _); apply list_elem_of_lookup_2 in Hi.
Qed.

Lemma entry_valid e : entry_ok e → utf8_valid (entry_text e) = true.
Proof. destruct e as [p|p n]; cbn; [apply good_bare|tauto]. Qed.

Lemma entry_solid e : entry_ok e → trim (entry_text e) ≠ [].
Proof.
  destruct e as [p|p n]; cbn [entry_text entry_ok].
  - intros Hp. destruct (good_bare p Hp) as [-> _]. by apply (good_stored p Hp).
  - intros (Hp & Hn & _). by apply (good_torn p n Hp Hn).
Qed.

Lemma entry_read e :
  entry_ok e → read_line de_point (entry_text e) = entry_point e
    ∧ read_line de_point (entry_text e ++ [LF]) = entry_point e
    ∧ from_str (entry_text e) ≫= de_point = entry_point e.
Proof.
  intros He. unfold read_line. pose proof (entry_solid e He) as Hs. destruct e as [p|p n]; cbn [entry_text entry_ok entry_point] in *.
  - destruct (good_stored p He) as (Hst & _ & Hne & Hlf & Hfrom). destruct (good_bare p He) as [Hb _].
    rewrite Hb, Hlf, !bool_decide_eq_false_2 by done. rewrite Hfrom. cbn [mbind option_bind]. by rewrite point_roundtrip.
  - destruct He as (Hp & Hn & _). destruct (good_torn p n Hp Hn) as (_ & -> & -> & ->).
    split_and!; [by case_bool_decide..|done].
Qed.

(** The file: lines, and an entry behind them that has no end of line. *)
Definition content (es tail : list Entry) : text := unlines (entry_text <$> es) ++ concat (entry_text <$> tail).

Definition laid_out (es tail : list Entry) (ps : list RewindPoint) (torn : bool) : Prop :=
  length tail <= 1 ∧ Forall entry_ok (es ++ tail) ∧ ps = omap entry_point (es ++ tail)
  ∧ torn = existsb is_part (es ++ tail).

Definition holds (s : list RewindPoint * bool) (file : option text) : Prop :=
  (file = None ∧ s = ([], false))
  ∨ ∃ es tail, file = Some (content es tail) ∧ laid_out es tail s.1 s.2.

Lemma split_tail t : LF ∉ t → t ≠ [] → split_inclusive t = [t].
Proof.
  induction t as [|c t IH]; [done|]. intros Hl _. cbn. rewrite decide_False by set_solver.
  destruct t as [|d t]; [done|]. by rewrite IH by set_solver.
Qed.

Lemma split_content es tail :
  length tail <= 1 → Forall entry_ok (es ++ tail) →
  split_inclusive (content es tail) = ((λ e, entry_text e ++ [LF]) <$> es) ++ (entry_text <$> tail).
Proof.
  intros Hl (He & Ht)%Forall_app. unfold content.
  induction He as [|e es He _ IH].
  - destruct tail as [|e [|]]; [done| |cbn in Hl; lia]. apply Forall_cons in Ht as [Ht _].
    cbn [fmap list_fmap concat app unlines]. rewrite app_nil_r. apply split_tail; [by apply (entry_clean e Ht)|]. intros Hn. by destruct (entry_solid e Ht); rewrite Hn.
  - rewrite fmap_cons, unlines_cons, <- (assoc_L (++) (entry_text e ++ [LF])), split_inclusive_app_line, IH; [done|].
    by apply entry_clean.
Qed.

Lemma content_valid es tail : Forall entry_ok (es ++ tail) → utf8_valid (content es tail) = true.
Proof.
  intros (He & Ht)%Forall_app. unfold content. induction He as [|e es He _ IH].
  - induction Ht as [|e tail He _ IH]; [done|]. cbn. by rewrite utf8_valid_app by (by apply entry_valid).
  - rewrite fmap_cons, unlines_cons, <- !(assoc_L (++)). rewrite utf8_valid_app by (by apply entry_valid).
    by rewrite (utf8_valid_app [LF]).
Qed.

Lemma lenient_exact es tail ps torn path w :
  laid_out es tail ps torn → files w !! path = Some (content es tail) → fs_error (ops w) (ReadOp path) = None →
  read_rewind_points_file path w = (Some ps, count_op w).
Proof.
  intros (Hl & Hok & -> & _) Hf He. unfold read_rewind_points_file, read_rewind_jsonl_lines.
  rewrite He, Hf, content_valid, split_content by done. do 2 f_equal. rewrite !omap_app.
  apply Forall_app in Hok as [Hes Ht]. clear Hf Hl. f_equal.
  - induction Hes as [|e es He' _ IH]; [done|]. cbn. destruct (entry_read e He') as (_ & -> & _).
    by destruct (entry_point e); rewrite IH.
  - induction Ht as [|e tail He' _ IH]; [done|]. cbn. destruct (entry_read e He') as (-> & _).
    by destruct (entry_point e); rewrite IH.
Qed.

Lemma lines_content es tail :
  length tail <= 1 → Forall entry_ok (es ++ tail) → lines (content es tail) = entry_text <$> es ++ tail.
Proof.
  intros Hl Hok. unfold lines. rewrite split_content, !fmap_app by done. apply Forall_app in Hok as [Hes Ht]. f_equal.
  - induction Hes as [|e es He _ IH]; [done|]. cbn. by rewrite strip_eol_line, IH by (by apply entry_clean).
  - clear Hl. induction Ht as [|e tail He _ IH]; [done|]. cbn. rewrite IH. f_equal.
    unfold strip_eol. rewrite strip_last_not_elem; [done|]. by apply entry_clean.
Qed.

(** The strict reader refuses a file with a torn record. *)
Lemma strict_exact es tail ps torn :
  laid_out es tail ps torn → read_jsonl (Some (content es tail)) = if torn then None else Some ps.
Proof.
  intros (Hl & Hok & -> & ->). cbn [read_jsonl]. rewrite content_valid, lines_content by done.
  induction Hok as [|e l He _ IH]; [done|].
  cbn [fmap list_fmap]. rewrite filter_b_cons, bool_decide_eq_false_2 by (by apply entry_solid).
  cbn [negb mapM existsb omap list_omap]. destruct (entry_read e He) as (_ & _ & ->).
  destruct e as [p|p n]; cbn [entry_point is_part orb mbind option_bind]; [|done]. rewrite IH.
  by destruct (existsb is_part l).
Qed.

Lemma holds_strict s file : holds s file → read_jsonl file = if s.2 then None else Some s.1.
Proof. intros [[-> ->]|(es & tail & -> & Hl)]; [done|]. by eapply strict_exact. Qed.

Lemma holds_lenient s file path w :
  holds s file → files w !! path = file → fs_error (ops w) (ReadOp path) = None →
  read_rewind_points_file path w = (Some s.1, count_op w).
Proof.
  intros [[-> ->]|(es & tail & -> & Hl)] Hf He; [|by eapply lenient_exact].
  unfold read_rewind_points_file, read_rewind_jsonl_lines. by rewrite He, Hf.
Qed.

(** ** Every write keeps the file readable *)

Lemma heals_content es tail :
  length tail <= 1 → Forall entry_ok (es ++ tail) → heals (content es tail) = negb (bool_decide (tail = [])).
Proof.
  intros Hl (_ & Ht)%Forall_app. unfold heals, content. destruct tail as [|e [|]]; [| |cbn in Hl; lia].
  - cbn [fmap list_fmap concat]. rewrite app_nil_r. destruct es as [|e es _] using rev_ind; [done|].
    rewrite fmap_app, unlines_app. change (unlines (entry_text <$> [e])) with ((entry_text e ++ [LF]) ++ []).
    rewrite app_nil_r, app_assoc, last_snoc. by rewrite !bool_decide_eq_true_2.
  - apply Forall_cons in Ht as [He _]. cbn [fmap list_fmap concat]. rewrite app_nil_r.
    pose proof (entry_solid e He) as Hs. destruct (entry_clean e He) as [Hlf _].
    destruct (entry_text e) as [|c t _] using rev_ind; [done|].
    rewrite app_assoc, last_snoc. rewrite bool_decide_eq_false_2 by set_solver. by rewrite bool_decide_eq_false_2.
Qed.

Definition of_file (s : list RewindPoint * bool) (file : option text) : Prop :=
  ∃ es tail, default [] file = content es tail ∧ laid_out es tail s.1 s.2.

Lemma holds_laid_out s file : holds s file → of_file s file.
Proof.
  intros [[-> ->]|(es & tail & -> & Hl)]; [|by exists es, tail].
  exists [], []. split; [done|]. split_and!; [cbn; lia|done..].
Qed.

(** Where an append begins: all lines are ended. *)
Lemma append_start es tail :
  length tail <= 1 → Forall entry_ok (es ++ tail) →
  content es tail ++ (if heals (content es tail) then [LF] else []) = content (es ++ tail) [].
Proof.
  intros Hl Hok. rewrite heals_content by done. unfold content.
  destruct tail as [|e [|]]; [| |cbn in Hl; lia]; cbn [fmap list_fmap concat]; rewrite ?app_nil_r.
  - done.
  - rewrite fmap_app, unlines_app. cbn. by rewrite app_nil_r, <- app_assoc.
Qed.

Lemma content_snoc es e : content es [] ++ entry_text e ++ [LF] = content (es ++ [e]) [].
Proof. unfold content. rewrite fmap_app, unlines_app. cbn. by rewrite !app_nil_r. Qed.

Lemma content_tail es e : content es [] ++ entry_text e = content es [e].
Proof. unfold content. cbn. by rewrite !app_nil_r. Qed.

Lemma laid_snoc es tail ps torn e :
  laid_out es tail ps torn → entry_ok e →
  laid_out ((es ++ tail) ++ [e]) [] (ps ++ option_list (entry_point e)) (torn || is_part e)
  ∧ laid_out (es ++ tail) [e] (ps ++ option_list (entry_point e)) (torn || is_part e).
Proof.
  intros (Hl & Hok & -> & ->) He.
  assert (Forall entry_ok ((es ++ tail) ++ [e])) as Hok' by (apply Forall_app; split; [done|by apply Forall_singleton]).
  assert (omap entry_point (es ++ tail) ++ option_list (entry_point e) = omap entry_point ((es ++ tail) ++ [e])) as ->.
  { rewrite (omap_app _ (es ++ tail)). cbn. by destruct (entry_point e). }
  assert (existsb is_part (es ++ tail) || is_part e = existsb is_part ((es ++ tail) ++ [e])) as ->.
  { rewrite (existsb_app _ (es ++ tail)). cbn. by rewrite orb_false_r. }
  split; split_and!; rewrite ?app_nil_r; try done; cbn; lia.
Qed.

Lemma laid_ended es tail ps torn : laid_out es tail ps torn → laid_out (es ++ tail) [] ps torn.
Proof. intros (Hl & Hok & -> & ->). split_and!; rewrite ?app_nil_r; try done; cbn; lia. Qed.

(** The records that the theorems are about, and where they are cut off: between two
    characters. *)
Definition step_ok (x : PersistenceMsg * WriteOutcome) : Prop :=
  match x with
  | (PersistRewindPoint p, TornAt n) => good p ∧ utf8_valid (take n (line_of p)) = true
  | (PersistRewindPoint p, _) => good p
  | _ => True
  end.

Lemma append_holds s file p o :
  of_file s file → step_ok (PersistRewindPoint p, o) → o ≠ NotWritten →
  holds (spec_persist s (PersistRewindPoint p, o)) (append_rewind_point p o file).
Proof.
  intros (es & tail & Hf & Hlaid) Hok Hw. pose proof Hlaid as (Hl & Hes & _). destruct s as [ps torn].
  assert (good p) as Hp by (destruct o; [done|by destruct Hok|done]).
  destruct (laid_snoc es tail ps torn (Whole p) Hlaid Hp) as [Hwhole Hbare]. cbn in Hwhole, Hbare. rewrite orb_false_r in Hwhole, Hbare.
  unfold append_rewind_point, append_jsonl_line. rewrite Hf. fold (line_of p). right.
  destruct o as [|n|]; [| |done].
  - exists ((es ++ tail) ++ [Whole p]), []. split; [|done].
    by rewrite app_assoc, append_start, <- content_snoc.
  - cbn [spec_persist]. rewrite app_assoc, append_start by done. destruct (n =? 0) eqn:Hn0; breflect.
    { subst n. exists (es ++ tail), []. split; [by rewrite app_nil_r|by apply laid_ended]. }
    destruct (n <? length (line_of p)) eqn:Hn; breflect.
    + exists (es ++ tail), [Part p n]. split; [|].
      * rewrite <- content_tail. cbn. by rewrite take_app_le by lia.
      * destruct Hok as [_ Hu]. destruct (laid_snoc es tail ps torn (Part p n) Hlaid) as [_ Hpart]; [by split_and!; [|lia|lia|]|].
        cbn in Hpart. by rewrite app_nil_r, orb_true_r in Hpart.
    + destruct (decide (n = length (line_of p))) as [->|Hne].
      * exists (es ++ tail), [Whole p]. split; [|done]. rewrite <- content_tail. cbn. by rewrite take_app_length.
      * exists ((es ++ tail) ++ [Whole p]), []. split; [|done]. rewrite <- content_snoc. do 2 f_equal.
        apply take_ge. rewrite length_app. cbn in *. lia.
Qed.

Lemma dedup_subset (l : list RewindPoint) p : p ∈ dedup_by_key point_index l → p ∈ l.
Proof.
  induction l as [|q l IH]; [done|]. cbn. rewrite !elem_of_cons. intros [->|Hp]; [by left|]. right. apply IH.
  destruct (dedup_by_key point_index l) as [|r k]; [done|]. case_match; [by right|done].
Qed.

Lemma absorb_all_good q ps : good q → Forall good ps → good (foldl absorb q ps).
Proof. intros Hq Hps. revert q Hq. induction Hps as [|p ps Hp _ IH]; intros q Hq; [done|]. cbn. by apply IH, good_absorb. Qed.

Lemma merge_good ps target : Forall good ps → Forall good (merge_rewind_points_from ps target).
Proof.
  intros Hps. unfold merge_rewind_points_from. case_match; [done|].
  set (l := dedup_by_key _ _). assert (Forall good l) as Hl.
  { apply Forall_forall. intros p Hp%dedup_subset. rewrite sort_by_key_Permutation in Hp. by eapply Forall_forall in Hps. }
  set (k := partition_point _ _). assert (Forall good (take k l) ∧ Forall good (drop k l)) as [Ht Hd].
  { split; [by apply Forall_take|by apply Forall_drop]. }
  induction Ht as [|q m Hq Hm IH]; [done|]. cbn. destruct (point_index q =? target - 1); constructor; [by apply absorb_all_good|done..].
Qed.

Lemma wanted_good m ps : (∀ p, m = PersistRewindPoint p → good p) → Forall good ps → Forall good (wanted m ps).
Proof.
  intros Hm Hps. destruct m as [p|i|t]; cbn.
  - apply Forall_app. split; [done|]. apply Forall_singleton. by apply Hm.
  - apply Forall_forall. intros p [Hp _]%elem_of_filter_b. by eapply Forall_forall in Hps.
  - by apply merge_good.
Qed.

Lemma laid_good es tail ps torn : laid_out es tail ps torn → Forall good ps.
Proof.
  intros (_ & Hok & -> & _). induction Hok as [|e l He _ IH]; [constructor|].
  destruct e as [p|p n]; cbn; [by constructor|done].
Qed.

Lemma holds_good s file : holds s file → Forall good s.1.
Proof. intros [[_ ->]|(es & tail & _ & Hl)]; [constructor|by eapply laid_good]. Qed.

(** A file that is written anew holds whole records. *)
Lemma write_holds ps file : Forall good ps → holds (ps, false) (write_jsonl ps Written file).
Proof.
  intros Hps. right. exists (Whole <$> ps), []. split.
  - cbn. unfold content. cbn. rewrite app_nil_r. by rewrite <- list_fmap_compose.
  - split_and!; rewrite ?app_nil_r.
    + cbn. lia.
    + by apply Forall_fmap.
    + cbn. induction ps as [|p ps IH]; [done|]. apply Forall_cons in Hps as [_ Hps]. cbn. by rewrite <- IH.
    + cbn. induction ps as [|p ps IH]; [done|]. apply Forall_cons in Hps as [_ Hps]. cbn. by rewrite <- IH.
Qed.

Lemma rewrite_holds s file m o :
  holds s file → (∀ p, m ≠ PersistRewindPoint p) → holds (spec_persist s (m, o)) (persist_rewind m o file).
Proof.
  intros Hh Hm. pose proof (holds_strict _ _ Hh) as Hr. pose proof (holds_good _ _ Hh) as Hg. destruct s as [ps torn].
  assert (∀ f : list RewindPoint → list RewindPoint, Forall good (f ps) →
    holds (match o with Written => if torn then (ps, torn) else (f ps, false) | _ => (ps, torn) end)
      (match read_jsonl file with Some points => write_jsonl (f points) o file | None => file end)) as Hrewrite.
  { intros f Hf. rewrite Hr. cbn [fst snd]. destruct torn; [by destruct o|]. destruct o; [by apply write_holds|done..]. }
  destruct m as [p|i|t]; [by destruct (Hm p)| |]; cbn [persist_rewind spec_persist].
  - destruct o; exact (Hrewrite (wanted (TruncateRewindPoints i)) (wanted_good (TruncateRewindPoints i) ps ltac:(done) Hg)).
  - destruct o; exact (Hrewrite (wanted (MergeRewindPointsFrom t)) (wanted_good (MergeRewindPointsFrom t) ps ltac:(done) Hg)).
Qed.

Lemma persist_holds s file x :
  holds s file → step_ok x → holds (spec_persist s x) (persist_rewind x.1 x.2 file).
Proof.
  intros Hh Hok. destruct x as [[p|i|t] o]; cbn [fst snd persist_rewind].
  - destruct o as [|n|]; [by apply append_holds; [apply holds_laid_out| |]..|]. by destruct s.
  - by apply (rewrite_holds s file (TruncateRewindPoints i)).
  - by apply (rewrite_holds s file (MergeRewindPointsFrom t)).
Qed.

Lemma run_holds s file steps :
  holds s file → Forall step_ok steps →
  holds (foldl spec_persist s steps) (foldl (λ f x, persist_rewind x.1 x.2 f) file steps).
Proof.
  intros Hh Hok. revert s file Hh. induction Hok as [|x steps Hx _ IH]; intros s file Hh; [done|].
  cbn. by apply IH, persist_holds.
Qed.

(** C33: what the file of the rewind points holds after any messages to its worker, with any
    outcome of the writes that leaves it UTF-8.  The reader that loads the history finds
    the points that the messages ask for; a record that was cut off costs itself, and the
    records behind it are read.  The reader that the rewrites use answers the same points,
    but an error once a record was cut off; from then on a rewind drops and merges no
    point of the file. *)
Theorem points_file_exact (steps : list (PersistenceMsg * WriteOutcome)) :
  Forall step_ok steps →
  let s := foldl spec_persist ([], false) steps in
  let file := foldl (λ f x, persist_rewind x.1 x.2 f) None steps in
  read_jsonl file = (if s.2 then None else Some s.1)
  ∧ (∀ path w, files w !! path = file → fs_error (ops w) (ReadOp path) = None →
     read_rewind_points_file path w = (Some s.1, count_op w))
  ∧ (Forall (λ x, x.2 = Written) steps → s = (foldl (λ ps m, wanted m ps) [] steps.*1, false)).
Proof.
  intros Hok s file. assert (holds s file) as Hh by (apply run_holds; [by left|done]).
  split_and!; [by apply holds_strict|intros path w; by apply holds_lenient|].
  intros Hw. subst s. clear file Hh Hok. generalize ([] : list RewindPoint).
  induction Hw as [|[m o] steps Ho _ IH]; intros ps; [done|]. cbn in Ho. subst o. cbn. rewrite <- IH. by destruct m.
Qed.

(** ** The file and the tracker *)

(** The points of a tracker, in any order. *)
Definition mirrors (tr : FileStateTracker) (ps : list RewindPoint) : Prop :=
  lazy_source tr = None ∧ filed (rewind_points tr) ∧ (map_to_list (rewind_points tr)).*2 ≡ₚ ps.

Lemma mirrors_nodup tr ps : mirrors tr ps → NoDup (point_index <$> ps).
Proof.
  intros (_ & Hf & Hp). rewrite <- Hp, sorted_points_perm. by apply increasing_nodup, sorted_points_increasing.
Qed.

Lemma mirrors_elem tr ps p : mirrors tr ps → p ∈ ps ↔ rewind_points tr !! point_index p = Some p.
Proof. intros (_ & Hf & Hp). rewrite <- Hp, sorted_points_perm. by apply sorted_points_elem. Qed.

Lemma mirrors_intro tr ps :
  lazy_source tr = None → filed (rewind_points tr) → NoDup (point_index <$> ps) →
  (∀ p, p ∈ ps ↔ rewind_points tr !! point_index p = Some p) → mirrors tr ps.
Proof.
  intros Hl Hf Hnd Hel. split_and!; [done..|]. apply NoDup_Permutation.
  - apply (NoDup_fmap_1 point_index). rewrite sorted_points_perm. by apply increasing_nodup, sorted_points_increasing.
  - by apply (NoDup_fmap_1 point_index).
  - intros p. rewrite Hel, sorted_points_perm. by apply sorted_points_elem.
Qed.

Lemma mirrors_truncate tr ps i :
  mirrors tr ps →
  mirrors (set_points (retain_below i (rewind_points tr)) tr) (wanted (TruncateRewindPoints i) ps).
Proof.
  intros Hm. pose proof (mirrors_nodup _ _ Hm) as Hnd. pose proof Hm as (Hl & Hf & _). apply mirrors_intro; [done|..].
  - intros j p Hp. cbn in Hp. by apply map_lookup_filter_Some in Hp as [Hp _]; apply Hf.
  - cbn [wanted]. clear -Hnd. induction ps as [|p ps IH]; [done|]. apply NoDup_cons in Hnd as [Hp Hnd].
    rewrite filter_b_cons. destruct (point_index p <? i); [|by apply IH]. apply NoDup_cons. split; [|by apply IH].
    intros (q & Hq & [Hin _]%elem_of_filter_b)%list_elem_of_fmap. apply Hp. rewrite Hq. by apply list_elem_of_fmap_2.
  - intros p. cbn [wanted rewind_points set_points]. rewrite elem_of_filter_b, (mirrors_elem tr ps) by done.
    unfold retain_below. by rewrite map_lookup_filter_Some, Nat.ltb_lt.
Qed.

Lemma increasing_update (p : RewindPoint → bool) f l :
  (∀ x, point_index (f x) = point_index x) → increasing l → increasing (update_first p f l).
Proof.
  intros Hf. assert (∀ i l, Forall (λ x, i < point_index x) l → Forall (λ x, i < point_index x) (update_first p f l)) as Hall.
  { intros i k. induction 1 as [|x k Hx Hk IH]; [constructor|]. cbn. destruct (p x); constructor; rewrite ?Hf; done. }
  induction 1 as [|x l Hl IH Hx]; [constructor|]. cbn. destruct (p x); constructor; rewrite ?Hf; try done. by apply Hall.
Qed.

Lemma merge_increasing ps target : NoDup (point_index <$> ps) → increasing (merge_rewind_points_from ps target).
Proof.
  intros Hnd. unfold merge_rewind_points_from. destruct (target =? 0); [constructor|].
  assert (increasing (sort_by_key point_index ps)) as Hs.
  { apply sorted_lt_of_le; [apply sort_by_key_sorted|]. by rewrite sort_by_key_Permutation. }
  rewrite dedup_increasing by done. apply increasing_update; [intros x; apply absorbed_index|].
  destruct (partition_increasing target _ Hs) as [-> _]. by apply filter_b_increasing.
Qed.

Lemma merge_perm l ps target :
  l ≡ₚ ps → NoDup (point_index <$> ps) → merge_rewind_points_from l target = merge_rewind_points_from ps target.
Proof. intros Hp Hnd. unfold merge_rewind_points_from. by rewrite (sort_by_key_unique point_index l ps). Qed.

Lemma mirrors_merge tr ps target w :
  mirrors tr ps →
  mirrors (fst (merge_and_remove_from target tr w)) (wanted (MergeRewindPointsFrom target) ps).
Proof.
  intros Hm. pose proof (mirrors_nodup _ _ Hm) as Hnd. pose proof Hm as (Hl & Hf & Hp).
  unfold merge_and_remove_from, ensure_historical_loaded. rewrite Hl. cbn [fst wanted].
  rewrite (merge_perm _ ps) by (done || by rewrite hash_order_perm).
  pose proof (merge_increasing ps target Hnd) as Hinc. set (qs := merge_rewind_points_from ps target) in *.
  assert (∀ j p, foldl (λ m p, <[point_index p := p]> m) (∅ : gmap nat RewindPoint) qs !! j = Some p ↔ p ∈ qs ∧ point_index p = j) as Hlook.
  { intros j p. rewrite (foldl_insert (λ p, (point_index p, p))), map_union_empty. by apply points_map_lookup. }
  apply mirrors_intro; cbn; [done| |by apply increasing_nodup|].
  - intros j p Hj. by apply Hlook in Hj as [_ <-].
  - intros p. rewrite Hlook. tauto.
Qed.

(** A tracker of a new process that finds these points on disk. *)
Lemma restart_points qs tr file path w :
  holds (qs, false) file → mirrors tr qs → files w !! path = file → fs_error (ops w) (ReadOp path) = None →
  fst (fst (get_rewind_points (with_lazy_source path) w)) = sorted_points tr.
Proof.
  intros Hh Hm Hf He. pose proof (mirrors_nodup _ _ Hm) as Hnd. destruct Hm as (_ & _ & Hp).
  unfold get_rewind_points, ensure_historical_loaded. cbn [lazy_source with_lazy_source].
  rewrite (holds_lenient _ _ _ _ Hh Hf He). cbn [fst]. unfold sorted_points.
  rewrite (sort_by_key_unique _ _ _ Hp Hnd). apply sort_by_key_unique; [|done].
  cbn [rewind_points with_lazy_source]. rewrite (foldl_or_insert (λ p, (point_index p, p))), map_empty_union.
  rewrite map_to_list_to_map by (by rewrite <- list_fmap_compose).
  rewrite <- list_fmap_compose. by rewrite list_fmap_id.
Qed.

End storage_readers.

(** ** A concrete file *)

(** Instants as strokes, and two lines. *)
Definition strokes (t : Z) : text := (if (t <? 0)%Z then "-"%char else "+"%char) :: replicate (Z.abs_nat t) "|"%char.
Definition read_strokes (s : text) : option Z :=
  match s with
  | c :: s => Some (if decide (c = "-"%char) then - Z.of_nat (length s) else Z.of_nat (length s))%Z
  | [] => None
  end.

Definition dated (read : text → option Json) (print : Json → text) : RewindSerde :=
  {| from_str := read; to_string := print; datetime_from_str := read_strokes; datetime_to_string := strokes |}.
Definition as_listed : HashOrder := {| hash_order A l := l |}.

Lemma dated_laws read print : @DateTimeLaws (dated read print).
Proof.
  intros t. cbn. unfold strokes. rewrite length_replicate, Zabs2Nat.id_abs.
  destruct (Z.ltb_spec t 0); cbn; f_equal; [rewrite decide_True by done|rewrite decide_False by done]; lia.
Qed.

Definition stored_points : list RewindPoint :=
  [ add_snapshot (mkFileSnapshot (Relative [txt "a"]) (Some (txt "old")) 1) (RewindPoint_new 0 0);
    add_snapshot (mkFileSnapshot (Absolute [ROOT; txt "x"]) None 3) (RewindPoint_new 1 2) ].
Definition listed_json (p : RewindPoint) : Json := @ser_point (dated (λ _, None) (λ _, [])) as_listed p.

#[local] Instance listed : RewindSerde :=
  dated (λ s, if decide (s = txt "{0}") then listed_json <$> stored_points !! 0
              else if decide (s = txt "{1}") then listed_json <$> stored_points !! 1 else None)
        (λ v, match v with JObject ((_, JNumber n) :: _) => txt "{" ++ n ++ txt "}" | _ => [] end).
#[local] Instance listed_laws : DateTimeLaws.
Proof. apply dated_laws. Qed.
#[local] Instance as_listed_order : HashOrder := as_listed.
#[local] Instance as_listed_perm : HashOrderPerm.
Proof. split. done. Qed.
#[local] Instance no_failures : FsErrors := {| fs_error _ _ := None; fs_partial _ _ := None; not_found := txt "no such file" |}.

Definition stored_world : World := mkWorld {[ txt "/s/points" := txtln "{0}" ++ txtln "{1}" ]} 0 [].
Definition live_tracker : FileStateTracker := mkTracker {[ 1 := RewindPoint_new 1 9 ]} (Some 1) (Some (txt "/s/points")).

Lemma one_snapshot_storable p s : storable p → storable (snap_path s) → storable_snapshots {[ p := s ]}.
Proof. intros Hp Hs q r [<- <-]%lookup_singleton_Some. done. Qed.

Lemma stored_world_stored : stored (txt "/s/points") stored_points stored_world.
Proof.
  split_and!; [by vm_compute..|].
  intros p [->|[->|[]%elem_of_nil]%elem_of_cons]%elem_of_cons.
  - split; [split_and!; [done|by apply one_snapshot_storable; apply (bool_decide_unpack _)|done]|].
    split_and!; [split; by apply (bool_decide_unpack _)|done|done|by vm_compute].
  - split; [split_and!; [done|by apply one_snapshot_storable; apply (bool_decide_unpack _)|done]|].
    split_and!; [split; by apply (bool_decide_unpack _)|done|done|by vm_compute].
Qed.

(** Of the two points on disk the first is loaded; the second is in memory already. *)
Lemma lazy_load_exact_witness :
  (get_rewind_point_metas live_tracker stored_world).1
  = point_meta <$> (get_rewind_points live_tracker stored_world).1.1
  ∧ (created_at <$> (get_rewind_points live_tracker stored_world).1.1) = [0; 9]%Z.
Proof.
  assert (filed (rewind_points live_tracker)) as Hf.
  { intros i p Hp. change (({[ 1 := RewindPoint_new 1 9 ]} : gmap nat RewindPoint) !! i = Some p) in Hp.
    by apply lookup_singleton_Some in Hp as [<- <-]. }
  destruct (lazy_load_exact (txt "/s/points") stored_points live_tracker stored_world eq_refl Hf
    stored_world_stored) as (Hget & Hmetas & _).
  split; [by rewrite Hget, Hmetas|by vm_compute].
Defined.

(** ** A concrete run of the worker *)

Definition known_snapshot : FileSnapshot := mkFileSnapshot (Relative [txt "a"]) (Some (txt "old")) 1.
Definition first_point : RewindPoint := add_snapshot known_snapshot (RewindPoint_new 0 0).
Definition second_point : RewindPoint := add_snapshot known_snapshot (RewindPoint_new 1 2).

#[local] Instance known : RewindSerde :=
  dated (λ s, if decide (s = txt "{0}") then Some (listed_json first_point)
              else if decide (s = txt "{1}") then Some (listed_json second_point) else None)
        (λ v, match v with JObject ((_, JNumber n) :: _) => txt "{" ++ n ++ txt "}" | _ => [] end).
#[local] Instance known_dates : @DateTimeLaws known.
Proof. apply dated_laws. Qed.

Definition is_known (p : RewindPoint) : Prop := p = first_point ∨ p = second_point.

Lemma known_storable p : is_known p → storable_point p.
Proof.
  intros [->| ->]; (split_and!; [done|by apply one_snapshot_storable; apply (bool_decide_unpack _)|done]).
Qed.

Lemma known_line p :
  is_known p → (line_of p = txt "{0}" ∨ line_of p = txt "{1}") ∧ from_str (line_of p) = Some (ser_point p).
Proof.
  intros [->| ->]; (split; [|vm_compute; reflexivity]); [left|right]; vm_compute; reflexivity.
Qed.

#[local] Instance known_laws : @LineLaws known as_listed_order is_known.
Proof.
  split.
  - intros p Hp. split; [by apply known_storable|]. destruct (known_line p Hp) as [Ht Hf].
    unfold faithful_line. rewrite Hf. destruct Ht as [->| ->];
      (split_and!; [split; by apply (bool_decide_unpack _)|done|by vm_compute|done]).
  - intros p Hp. destruct (known_line p Hp) as [[->| ->] _]; split; by vm_compute.
  - intros p n Hp. destruct (known_line p Hp) as [[->| ->] _]; intros Hn; cbn in Hn;
      do 3 (destruct n as [|n]; [first [lia|split_and!; vm_compute; done]|]); lia.
  - intros p q [->| ->] [->| ->]; [by left|by left|by right|by right].
Qed.

(** A record is cut off, appended again, and the prompt is undone. *)
Definition torn_run : list (PersistenceMsg * WriteOutcome) :=
  [(PersistRewindPoint first_point, Written); (PersistRewindPoint second_point, TornAt 2);
   (PersistRewindPoint second_point, Written); (TruncateRewindPoints 1, Written)].
Definition torn_file : option text := foldl (λ f x, persist_rewind x.1 x.2 f) None torn_run.

(** The undone point is still read. *)
Lemma points_file_exact_witness :
  torn_file = Some (txtln "{0}" ++ txtln "{1" ++ txtln "{1}") ∧ read_jsonl torn_file = None
  ∧ read_rewind_points_file (txt "/s") (mkWorld (partial_alter (λ _, torn_file) (txt "/s") ∅) 0 [])
    = (Some [first_point; second_point], mkWorld (partial_alter (λ _, torn_file) (txt "/s") ∅) 1 []).
Proof.
  split; [by vm_compute|].
  destruct (@points_file_exact known known_dates as_listed_order as_listed_perm no_failures is_known known_laws torn_run)
    as (Hs & Hl & _).
  - repeat constructor; first [by left|by right|by vm_compute].
  - split; [exact Hs|].
    refine (eq_trans (Hl (txt "/s") (mkWorld (partial_alter (λ _, torn_file) (txt "/s") ∅) 0 [])
      (lookup_partial_alter_eq _ _ _) eq_refl) _).
    vm_compute. reflexivity.
Defined.

(** A record that is cut off inside a character makes the whole file unreadable, for good. *)
Example torn_character_loses_history :
  let file := persist_rewind (PersistRewindPoint second_point) Written
    (append_jsonl_line [ascii_of_nat 195; ascii_of_nat 169; LF] (TornAt 1) (Some (txtln "{0}"))) in
  file = Some (txtln "{0}" ++ [ascii_of_nat 195; LF] ++ txtln "{1}") ∧ read_jsonl file = None
  ∧ fst (read_rewind_points_file (txt "/s") (mkWorld (partial_alter (λ _, file) (txt "/s") ∅) 0 [])) = None.
Proof. split_and!; by vm_compute. Qed.
