(* ===== verification/CheckpointStore.v ===== *)
(** * The checkpoint store

    [ds-workspace/src/session/checkpoint_store.rs]: checkpoints in memory and as files in a
    directory of the session, at most [cap] of them.  The disk is a map from directories to
    their files; any operation may fail, from some point on all of them when the process
    dies.  What [serde_json] writes and reads is the class [CheckpointSerde].  Theorems:
    the store is a map that keeps its newest entries; the files agree with it, whatever
    fails; the directory of a session stays below the root of the store. *)

From S2P Require Import HookData.
From S2P Require Import Prelude Text TextProps Utf8 Json HunkTypes Paths ToolFs FileState FileStateProps RewindSerial.

Open Scope nat_scope.

(** ** Checkpoints *)

Record RewindCheckpoint := mkCheckpoint {
  cp_prompt_index : nat;
  cp_fs : RewindPoint;
  cp_hunks : option HunkTurnDelta;
}.

Class CheckpointSerde := {
  to_vec : RewindCheckpoint → option text;
  from_slice : text → option RewindCheckpoint;
}.

(** ** The disk *)

Notation Directory := (gmap text text).

Inductive DiskOp :=
| CreateDirAll (d : text) | TryExists (d n : text) | WriteWhole (d n : text) | CreateFile (d n : text)
| WriteAll (d n : text) | SyncAll (d n : text) | RenameFile (d n m : text) | SyncDir (d : text)
| ReadDir (d : text) | NextEntry (d n : text) | ReadFile (d n : text) | RemoveFile (d n : text).

(** The failures: the kind with which the n-th operation fails, if it does; and what a
    failed write leaves of the data. *)
Class DiskErrors := {
  disk_error : nat → DiskOp → option ErrorKind;
  written_part : nat → text → text;
}.

(** The directories with their files, the number of operations so far, and the counter of
    temporary files of the process. *)
Record Disk := mkDisk {
  directories : gmap text Directory;
  disk_ops : nat;
  tmp_write_seq : Z;
}.

Definition set_directories (ds : gmap text Directory) (d : Disk) : Disk :=
  mkDisk ds (disk_ops d) (tmp_write_seq d).
Definition count_disk_op (d : Disk) : Disk := mkDisk (directories d) (S (disk_ops d)) (tmp_write_seq d).

(** A file of a directory; a change of the files of a directory. *)
Definition file_in (dir n : text) (d : Disk) : option text := m ← directories d !! dir; m !! n.
Definition in_directory (dir : text) (f : Directory → Directory) (d : Disk) : Disk :=
  set_directories (alter f dir (directories d)) d.

(** ** Names *)

Definition STORE_SUBDIR : text := txt "rewind-checkpoints".
Definition DEFAULT_CHECKPOINT_CAP : nat := 64.
Definition CHECKPOINT_PREFIX : text := txt "checkpoint-".
Definition JSON_SUFFIX : text := txt ".json".

(** The name of the file of [checkpoint_file_path]. *)
Definition checkpoint_file_name (i : nat) : text :=
  CHECKPOINT_PREFIX ++ show_Z (Z.of_nat i) ++ JSON_SUFFIX.

(** [str::strip_suffix]. *)
Definition text_strip_suffix (p s : text) : option text :=
  reverse <$> text_strip_prefix (reverse p) (reverse s).

Definition parse_checkpoint_index (file_name : text) : option nat :=
  if utf8_valid file_name then
    s ← text_strip_prefix CHECKPOINT_PREFIX file_name;
    s ← text_strip_suffix JSON_SUFFIX s;
    Z.to_nat <$> parse_uint u64_max s
  else None.

Definition is_orphan_checkpoint_tmp (file_name : text) : bool :=
  utf8_valid file_name && starts_with CHECKPOINT_PREFIX file_name && contains file_name (txt ".json.tmp").

Definition fnv1a_64 (bytes : text) : Z :=
  foldl (λ hash b, (Z.lxor hash (Z.of_nat (nat_of_ascii b)) * 1099511628211) mod 2 ^ 64)%Z
    14695981039346656037%Z bytes.

Definition PREFIX_MAX : nat := 48.

(** A character of the readable part: every other one becomes an underscore. *)
Definition safe_char (c : text) : ascii :=
  match c with
  | [b] => if is_alnum b || bool_decide (b = "-"%char) || bool_decide (b = "_"%char) then b else "_"%char
  | _ => "_"%char
  end.

Definition session_store_dir_name (session_id : text) : text :=
  take PREFIX_MAX (safe_char <$> chars session_id) ++ txt "-" ++ hex_digits 16 (fnv1a_64 session_id).

(** ** The store *)

Record CheckpointStore := mkStore {
  store_root : text;
  store_dir : text;
  cap : nat;
  cache : gmap nat RewindCheckpoint;
}.

Definition set_cache (m : gmap nat RewindCheckpoint) (s : CheckpointStore) : CheckpointStore :=
  mkStore (store_root s) (store_dir s) (cap s) m.

(** [BTreeMap::keys().next()], and the loop that pops the first entry while there are too
    many. *)
Definition first_key {A} (m : gmap nat A) : option nat := min_by_key id (map_to_list m).*1.
Fixpoint pop_while (fuel cap : nat) {A} (m : gmap nat A) : list nat * gmap nat A :=
  match fuel, first_key m with
  | S fuel, Some oldest =>
      if cap <? size m
      then let '(evicted, m) := pop_while fuel cap (delete oldest m) in (oldest :: evicted, m)
      else ([], m)
  | _, _ => ([], m)
  end.
Definition evict (cap : nat) {A} (m : gmap nat A) : list nat * gmap nat A := pop_while (size m) cap m.

(** The check before a write: the checkpoint would be evicted at once. *)
Definition below_window (i : nat) (s : CheckpointStore) : bool :=
  (cap s <=? size (cache s)) && negb (bool_decide (is_Some (cache s !! i)))
  && match first_key (cache s) with Some oldest => i <? oldest | None => false end.

Section store.
Context `{CheckpointSerde, DiskErrors, HashOrder}.
Context (pid : Z).

(** A simple operation: it happens or fails and changes nothing. *)
Definition attempt (o : DiskOp) (act : Disk → Disk) (d : Disk) : bool * Disk :=
  match disk_error (disk_ops d) o with
  | Some _ => (false, count_disk_op d)
  | None => (true, count_disk_op (act d))
  end.

(** A write that may stop on the way. *)
Definition attempt_write (o : DiskOp) (dir n data : text) (d : Disk) : bool * Disk :=
  match disk_error (disk_ops d) o with
  | Some _ => (false, count_disk_op (in_directory dir <[n := written_part (disk_ops d) data]> d))
  | None => (true, count_disk_op (in_directory dir <[n := data]> d))
  end.

Definition ensure_store_dir (s : CheckpointStore) (d : Disk) : bool * Disk :=
  let '(ok, d) := attempt (CreateDirAll (store_dir s))
                    (λ d, set_directories (or_insert (store_dir s) ∅ (or_insert (store_root s) ∅ (directories d))) d) d in
  if ok then
    let gitignore := txt ".gitignore" in
    let '(known, d) := attempt (TryExists (store_root s) gitignore) id d in
    if known && bool_decide (is_Some (file_in (store_root s) gitignore d)) then (true, d)
    else attempt_write (WriteWhole (store_root s) gitignore) (store_root s) gitignore (txt "*" ++ [LF]) d
  else (false, d).

(** [format!("checkpoint-{}.json.tmp.{}.{}")]. *)
Definition tmp_file_name (i : nat) (unique : Z) : text :=
  checkpoint_file_name i ++ txt ".tmp." ++ show_Z pid ++ txt "." ++ show_Z unique.

(** [TMP_WRITE_SEQ.fetch_add(1)]. *)
Definition next_tmp_seq (d : Disk) : Disk :=
  mkDisk (directories d) (disk_ops d) ((tmp_write_seq d + 1) mod 2 ^ 64).

(** [tokio::fs::rename], which replaces the target. *)
Definition rename_in (dir n m : text) (d : Disk) : Disk :=
  match file_in dir n d with
  | Some data => in_directory dir (λ fs, <[m := data]> (delete n fs)) d
  | None => d
  end.

Definition write_checkpoint_file (c : RewindCheckpoint) (s : CheckpointStore) (d : Disk) : bool * Disk :=
  match to_vec c with
  | None => (false, d)
  | Some json =>
      let dir := store_dir s in
      let final := checkpoint_file_name (cp_prompt_index c) in
      let tmp := tmp_file_name (cp_prompt_index c) (tmp_write_seq d) in
      let d := next_tmp_seq d in
      let '(ok, d) := attempt (CreateFile dir tmp) (in_directory dir <[tmp := []]>) d in
      if negb ok then (false, d) else
      let '(ok, d) := attempt_write (WriteAll dir tmp) dir tmp json d in
      if negb ok then (false, d) else
      let '(ok, d) := attempt (SyncAll dir tmp) id d in
      if negb ok then (false, d) else
      let '(ok, d) := attempt (RenameFile dir tmp final) (rename_in dir tmp final) d in
      if negb ok then (false, d) else
      let '(_, d) := attempt (SyncDir dir) id d in
      (true, d)
  end.

Definition remove_checkpoint (dir : text) (d : Disk) (i : nat) : Disk :=
  let n := checkpoint_file_name i in (attempt (RemoveFile dir n) (in_directory dir (delete n)) d).2.

Definition persist (c : RewindCheckpoint) (s : CheckpointStore) (d : Disk) : CheckpointStore * Disk :=
  if below_window (cp_prompt_index c) s then (s, d)
  else
    let '(ok, d) := ensure_store_dir s d in
    if negb ok then (s, d)
    else
      let '(ok, d) := write_checkpoint_file c s d in
      if negb ok then (s, d)
      else
        let '(evicted, cache) := evict (cap s) (<[cp_prompt_index c := c]> (cache s)) in
        (set_cache cache s, foldl (remove_checkpoint (store_dir s)) d evicted).

(** The names in a directory, in the order of [read_dir]. *)
Definition names_in (dir : text) (d : Disk) : list text :=
  hash_order (map_to_list (default ∅ (directories d !! dir))).*1.

(** One step of the scan of [truncate_from]; an entry that cannot be read is passed over. *)
Definition truncate_entry (dir : text) (target : nat) (d : Disk) (n : text) : Disk :=
  let '(seen, d) := attempt (NextEntry dir n) id d in
  match parse_checkpoint_index n with
  | Some i =>
      if seen && (target <=? i) then (attempt (RemoveFile dir n) (in_directory dir (delete n)) d).2 else d
  | None => d
  end.

Definition truncate_store (target : nat) (s : CheckpointStore) (d : Disk) : CheckpointStore * Disk :=
  match directories d !! store_dir s, disk_error (disk_ops d) (ReadDir (store_dir s)) with
  | None, None | _, Some NotFound => (set_cache (retain_below target (cache s)) s, count_disk_op d)
  | _, Some _ => (s, count_disk_op d)
  | Some _, None =>
      let d := count_disk_op d in
      (set_cache (retain_below target (cache s)) s,
       foldl (truncate_entry (store_dir s) target) d (names_in (store_dir s) d))
  end.

(** One entry of the scan of [load_capped_from_disk]. *)
Definition load_entry (dir : text) (acc : gmap nat RewindCheckpoint * Disk) (n : text)
    : gmap nat RewindCheckpoint * Disk :=
  let '(loaded, d) := acc in
  let '(seen, d) := attempt (NextEntry dir n) id d in
  if negb seen then (loaded, d)
  else match parse_checkpoint_index n with
       | None =>
           (loaded, if is_orphan_checkpoint_tmp n
                    then (attempt (RemoveFile dir n) (in_directory dir (delete n)) d).2 else d)
       | Some i =>
           let '(ok, d) := attempt (ReadFile dir n) id d in
           (match (if ok then file_in dir n d else None) ≫= from_slice with
            | Some c => <[i := c]> loaded
            | None => loaded
            end, d)
       end.

Definition load_capped_from_disk (dir : text) (cap : nat) (d : Disk) : gmap nat RewindCheckpoint * Disk :=
  match directories d !! dir, disk_error (disk_ops d) (ReadDir dir) with
  | Some _, None =>
      let d := count_disk_op d in
      let '(loaded, d) := foldl (load_entry dir) (∅, d) (names_in dir d) in
      let '(evicted, loaded) := evict cap loaded in
      (loaded, foldl (remove_checkpoint dir) d evicted)
  | _, _ => (∅, count_disk_op d)
  end.

(** [CheckpointStore::with_cap] and [new]; [durable] is [rewind_durable_enabled]. *)
Definition with_cap (durable : bool) (cwd session_id : text) (cap : nat) (d : Disk) : CheckpointStore * Disk :=
  let root := path_join (path_join cwd (txt ".ds")) STORE_SUBDIR in
  let dir := path_join root (session_store_dir_name session_id) in
  let cap := Nat.max cap 1 in
  let '(cache, d) := if durable then load_capped_from_disk dir cap d else (∅, d) in
  (mkStore root dir cap cache, d).
Definition store_new (durable : bool) (cwd session_id : text) : Disk → CheckpointStore * Disk :=
  with_cap durable cwd session_id DEFAULT_CHECKPOINT_CAP.

End store.

(** ** Names: lemmas *)

Definition is_digit (c : ascii) : Prop := is_Some (digit_value c).

Lemma parse_digits_all max acc s n : parse_digits max acc s = Some n → Forall is_digit s.
Proof.
  revert acc. induction s as [|c s IH]; intros acc; cbn; [constructor|].
  destruct (digit_value c) as [d|] eqn:Hd; [|done]. cbn. destruct (_ <? _)%Z; [done|].
  intros Hs. constructor; [by eexists|]. by eapply IH.
Qed.

Lemma digit_byte c : is_digit c → (48 <= byte_val c <= 57)%N.
Proof.
  intros [d Hd]. unfold digit_value in Hd. destruct (_ && _) eqn:Hb; [|done].
  apply andb_true_iff in Hb as [H1%Z.leb_le H2%Z.leb_le]. unfold byte_val, nat_of_ascii in *. lia.
Qed.

(** A number in a name: digits, and at least one. *)
Lemma show_digits n : (0 <= n)%Z → Forall is_digit (show_Z n) ∧ show_Z n ≠ [].
Proof.
  intros Hn. destruct n as [|p|p]; [|..|lia].
  { split; [|done]. repeat constructor. by eexists. }
  change (show_Z (Z.pos p)) with (txt (pretty_N_go (N.pos p) "")).
  assert (parse_digits (Z.pos p) 0 (txt (pretty_N_go (N.pos p) "")) = Some (Z.pos p)) as Hp
    by (by rewrite parse_digits_pretty by lia).
  split; [by eapply parse_digits_all|]. intros Hnil. by rewrite Hnil in Hp.
Qed.

Lemma digits_valid s : Forall is_digit s → utf8_valid s = true.
Proof.
  induction 1 as [|c s Hc _ IH]; [done|]. apply digit_byte in Hc.
  change (c :: s) with ([c] ++ s). rewrite utf8_valid_app; [done|]. cbn.
  rewrite (proj2 (byte_in_true 0 127 c)) by lia. done.
Qed.

Lemma text_strip_suffix_app p s : text_strip_suffix p (s ++ p) = Some s.
Proof. unfold text_strip_suffix. rewrite reverse_app, text_strip_prefix_app. cbn. by rewrite reverse_involutive. Qed.

(** A text whose last byte is not the last byte of the suffix. *)
Lemma text_strip_suffix_last p c s d : c ≠ d → text_strip_suffix (p ++ [c]) (s ++ [d]) = None.
Proof. intros Hc. unfold text_strip_suffix. rewrite !reverse_app. cbn. by rewrite decide_False. Qed.

Lemma parse_checkpoint_name i :
  (Z.of_nat i <= u64_max)%Z → parse_checkpoint_index (checkpoint_file_name i) = Some i.
Proof.
  intros Hi. destruct (show_digits (Z.of_nat i)) as [Hd _]; [lia|].
  unfold parse_checkpoint_index, checkpoint_file_name.
  rewrite utf8_valid_app by done. rewrite utf8_valid_app by (by apply digits_valid). cbn [utf8_valid JSON_SUFFIX].
  rewrite text_strip_prefix_app. cbn [mbind option_bind]. rewrite text_strip_suffix_app. cbn [mbind option_bind].
  rewrite parse_show by done. cbn. by rewrite Nat2Z.id.
Qed.

Lemma txt_inj s t : txt s = txt t → s = t.
Proof.
  intros Heq%(f_equal String.string_of_list_ascii). unfold txt in Heq.
  by rewrite !String.string_of_list_ascii_of_string in Heq.
Qed.

Lemma checkpoint_name_inj i j : checkpoint_file_name i = checkpoint_file_name j → i = j.
Proof.
  unfold checkpoint_file_name. intros Heq%app_inv_head%app_inv_tail. unfold show_Z in Heq.
  apply txt_inj, (inj pretty) in Heq. lia.
Qed.

Lemma parse_tmp_name pid i u : (0 <= u)%Z → parse_checkpoint_index (tmp_file_name pid i u) = None.
Proof.
  intros Hu. destruct (show_digits u Hu) as [Hd Hne]. unfold parse_checkpoint_index.
  destruct (utf8_valid _); [|done]. unfold tmp_file_name, checkpoint_file_name.
  rewrite <- (app_assoc CHECKPOINT_PREFIX), text_strip_prefix_app. cbn [mbind option_bind].
  destruct (exists_last Hne) as (ds & d & Hds). rewrite Hds, !app_assoc.
  change JSON_SUFFIX with (txt ".jso" ++ ["n"%char]) at 1. rewrite text_strip_suffix_last; [done|].
  intros <-. rewrite Hds in Hd. apply Forall_app in Hd as [_ [[v Hv] _]%Forall_cons]. by vm_compute in Hv.
Qed.

(** A temporary file is swept when the store is loaded. *)
Lemma tmp_name_orphan pid i u :
  (0 <= pid)%Z → (0 <= u)%Z → is_orphan_checkpoint_tmp (tmp_file_name pid i u) = true.
Proof.
  intros Hp Hu. destruct (show_digits u Hu) as [Hd _]. destruct (show_digits pid Hp) as [Hpd _].
  destruct (show_digits (Z.of_nat i)) as [Hid _]; [lia|].
  unfold is_orphan_checkpoint_tmp, tmp_file_name, checkpoint_file_name. rewrite !andb_true_iff. split_and!.
  - repeat apply valid_app; (done || by apply digits_valid).
  - apply starts_with_app. eexists. by rewrite <- !app_assoc.
  - apply contains_spec. exists (CHECKPOINT_PREFIX ++ show_Z (Z.of_nat i)), (txt "." ++ show_Z pid ++ txt "." ++ show_Z u).
    change (txt ".json.tmp") with (JSON_SUFFIX ++ txt ".tmp"). change (txt ".tmp.") with (txt ".tmp" ++ txt ".").
    by rewrite <- !app_assoc.
Qed.

Lemma parse_gitignore : parse_checkpoint_index (txt ".gitignore") = None.
Proof. by vm_compute. Qed.

(** ** The newest entries *)

(** The number of greater keys, and the entries with fewer than [cap] greater ones. *)
Definition rank {A} (m : gmap nat A) (k : nat) : nat := size (base.filter (λ x, k < x.1) m).
Definition newest (cap : nat) {A} (m : gmap nat A) : gmap nat A := base.filter (λ x, rank m x.1 < cap) m.

Section newest.
Context {A : Type}.
Implicit Types m : gmap nat A.

Lemma rank_below m k : is_Some (m !! k) → rank m k < size m.
Proof.
  intros [a Ha]. unfold rank. apply map_subset_size. apply map_subset_alt. split; [apply map_filter_subseteq|].
  exists k. split; [|by eexists]. apply map_lookup_filter_None. right. cbn. lia.
Qed.

Lemma newest_all cap m : size m <= cap → newest cap m = m.
Proof.
  intros Hs. apply map_filter_id. intros k a Ha. cbn.
  pose proof (rank_below m k ltac:(by eexists)). lia.
Qed.

Lemma first_key_Some m k : first_key m = Some k → is_Some (m !! k) ∧ ∀ j, is_Some (m !! j) → k <= j.
Proof.
  unfold first_key. intros (Hk & Hmin)%min_by_key_spec. split.
  - apply list_elem_of_fmap in Hk as ([k' a] & -> & Hk%elem_of_map_to_list). by eexists.
  - intros j [a Ha]. apply (Hmin j). apply list_elem_of_fmap. exists (j, a).
    split; [done|]. by apply elem_of_map_to_list.
Qed.

Lemma first_key_None m : first_key m = None ↔ m = ∅.
Proof.
  unfold first_key. rewrite min_by_key_None, <- (map_to_list_empty_iff m). by destruct (map_to_list m).
Qed.

(** The first key has the greatest rank. *)
Lemma rank_first m k : first_key m = Some k → rank m k = size m - 1.
Proof.
  intros (Hk & Hmin)%first_key_Some. unfold rank.
  replace (base.filter (λ x, k < x.1) m) with (delete k m).
  - rewrite map_size_delete. destruct Hk as [a ->]. lia.
  - apply map_eq. intros j. destruct (decide (j = k)) as [->|Hne].
    + rewrite lookup_delete_eq. symmetry. apply map_lookup_filter_None. right. cbn. lia.
    + rewrite lookup_delete_ne by done. symmetry. destruct (m !! j) as [a|] eqn:Hj.
      * apply map_lookup_filter_Some. split; [done|]. cbn. specialize (Hmin j ltac:(by eexists)). lia.
      * apply map_lookup_filter_None. by left.
Qed.

Lemma rank_delete m k j : k <= j → rank (delete k m) j = rank m j.
Proof.
  intros Hk. unfold rank. rewrite map_filter_delete, delete_id; [done|].
  apply map_lookup_filter_None. right. cbn. lia.
Qed.

Lemma newest_drop_first cap m k :
  cap < size m → first_key m = Some k → newest cap (delete k m) = newest cap m.
Proof.
  intros Hs Hk. pose proof (rank_first _ _ Hk) as Hr. apply first_key_Some in Hk as [Hk Hmin].
  apply map_eq. intros j. unfold newest. destruct (decide (j = k)) as [->|Hne].
  - rewrite !(proj2 (map_lookup_filter_None _ _ _)); [done|..]; [right; cbn; lia|left; apply lookup_delete_eq].
  - destruct (m !! j) as [a|] eqn:Hj.
    + specialize (Hmin j ltac:(by eexists)). apply option_eq. intros b.
      rewrite !map_lookup_filter_Some, lookup_delete_ne by done. cbn. by rewrite rank_delete by done.
    + rewrite !(proj2 (map_lookup_filter_None _ _ _)); [done|left; done|left; by rewrite lookup_delete_ne].
Qed.

Lemma size_newest cap m : size (newest cap m) <= cap.
Proof.
  remember (size m) as n eqn:Hn. revert m Hn. induction n as [|n IH]; intros m Hn.
  - rewrite newest_all; lia.
  - destruct (decide (size m <= cap)) as [Hs|Hs]; [rewrite newest_all; lia|].
    destruct (first_key m) as [k|] eqn:Hk.
    + rewrite <- (newest_drop_first cap m k) by (lia || done). apply IH.
      apply first_key_Some in Hk as [[a Ha] _]. rewrite map_size_delete, Ha. cbn. lia.
    + apply first_key_None in Hk as ->. rewrite map_size_empty in Hn. lia.
Qed.

(** The popping loop keeps the newest entries and returns the others. *)
Lemma pop_while_exact fuel cap m evicted m' :
  size m <= fuel → pop_while fuel cap m = (evicted, m') →
  m' = newest cap m ∧ ∀ j, is_Some (m !! j) → j ∈ evicted ↔ m' !! j = None.
Proof.
  revert m evicted m'. induction fuel as [|fuel IH]; intros m evicted m' Hs.
  - cbn. intros [= <- <-]. assert (m = ∅) as -> by (apply map_size_empty_iff; lia).
    rewrite newest_all by (rewrite map_size_empty; lia). split; [done|]. intros j [a Ha]. by rewrite lookup_empty in Ha.
  - cbn [pop_while]. destruct (first_key m) as [k|] eqn:Hk.
    + destruct (Nat.ltb_spec cap (size m)) as [Hc|Hc].
      * destruct (pop_while fuel cap (delete k m)) as [ev m1] eqn:Hp. intros [= <- <-].
        pose proof (first_key_Some _ _ Hk) as [[a Ha] _].
        apply IH in Hp as [-> Hev]; [|rewrite map_size_delete, Ha; cbn; lia].
        rewrite (newest_drop_first cap m k) in * by done. split; [done|]. intros j Hj.
        destruct (decide (j = k)) as [->|Hne].
        -- rewrite <- (newest_drop_first cap m k) by done. split; [intros _|intros _; by left].
           apply map_lookup_filter_None. left. apply lookup_delete_eq.
        -- rewrite elem_of_cons, Hev by (by rewrite lookup_delete_ne). naive_solver.
      * intros [= <- <-]. rewrite newest_all by done. split; [done|]. intros j [b Hb].
        rewrite Hb. split; [by intros []%elem_of_nil|done].
    + intros [= <- <-]. apply first_key_None in Hk as ->.
      rewrite newest_all by (rewrite map_size_empty; lia). split; [done|]. intros j [a Ha]. by rewrite lookup_empty in Ha.
Qed.

Lemma evict_exact cap m evicted m' :
  evict cap m = (evicted, m') →
  m' = newest cap m ∧ ∀ j, is_Some (m !! j) → j ∈ evicted ↔ m' !! j = None.
Proof. by apply pop_while_exact. Qed.

Lemma newest_subseteq cap m : newest cap m ⊆ m.
Proof. apply map_filter_subseteq. Qed.

End newest.

(** A checkpoint below the window would not be kept. *)
Lemma below_window_newest i c s :
  size (cache s) <= cap s → below_window i s = true → newest (cap s) (<[i := c]> (cache s)) = cache s.
Proof.
  intros Hs. unfold below_window. rewrite !andb_true_iff, negb_true_iff, bool_decide_eq_false, Nat.leb_le.
  intros [[Hc Hi] Hf]. destruct (first_key (cache s)) as [k|] eqn:Hk; [|done]. apply Nat.ltb_lt in Hf.
  apply first_key_Some in Hk as [_ Hmin]. assert (cache s !! i = None) as Hn by by apply eq_None_not_Some.
  assert (first_key (<[i := c]> (cache s)) = Some i) as Hfirst.
  { destruct (first_key _) as [k'|] eqn:Hk'.
    - apply first_key_Some in Hk' as [Hk' Hmin']. f_equal. specialize (Hmin' i ltac:(rewrite lookup_insert_eq; by eexists)).
      destruct (decide (k' = i)) as [|Hne]; [done|]. rewrite lookup_insert_ne in Hk' by done.
      specialize (Hmin k' Hk'). lia.
    - apply first_key_None in Hk'. by apply insert_non_empty in Hk'. }
  rewrite <- (newest_drop_first _ _ i); [|rewrite map_size_insert, Hn; cbn; lia|done].
  rewrite delete_insert_id by done. by apply newest_all.
Qed.

(** ** Files *)

Section disk.
Context `{CheckpointSerde, DiskErrors, HashOrder, !HashOrderPerm}.
Context (pid : Z).

Lemma file_in_insert dir n m v d :
  file_in dir n (in_directory dir <[m := v]> d)
  = if decide (n = m ∧ is_Some (directories d !! dir)) then Some v else file_in dir n d.
Proof.
  unfold file_in, in_directory. cbn. rewrite lookup_alter_eq. destruct (directories d !! dir) as [fs|] eqn:Hd; cbn.
  - destruct (decide (n = m)) as [->|Hne].
    + by rewrite decide_True, lookup_insert_eq by (split; [done|by eexists]).
    + by rewrite decide_False, lookup_insert_ne by (done || naive_solver).
  - rewrite decide_False; [done|]. by intros [_ [? ?]].
Qed.

Lemma file_in_delete dir n m d :
  file_in dir n (in_directory dir (delete m) d) = if decide (n = m) then None else file_in dir n d.
Proof.
  unfold file_in, in_directory. cbn. rewrite lookup_alter_eq. destruct (directories d !! dir) as [fs|]; cbn.
  - destruct (decide (n = m)) as [->|Hne]; [by rewrite lookup_delete_eq|by rewrite lookup_delete_ne].
  - by case_decide.
Qed.

Lemma file_in_elsewhere dir dir' n f d :
  dir ≠ dir' → file_in dir n (in_directory dir' f d) = file_in dir n d.
Proof. intros Hne. unfold file_in, in_directory. cbn. by rewrite lookup_alter_ne. Qed.

Lemma file_in_count dir n d : file_in dir n (count_disk_op d) = file_in dir n d.
Proof. done. Qed.

Lemma directory_kept dir dir' f d :
  is_Some (directories (in_directory dir' f d) !! dir) ↔ is_Some (directories d !! dir).
Proof.
  unfold in_directory. cbn. destruct (decide (dir = dir')) as [->|Hne].
  - by rewrite lookup_alter_eq, fmap_is_Some.
  - by rewrite lookup_alter_ne.
Qed.

(** The files of [dir] that are checkpoints are as before; no directory goes away. *)
Definition quiet (dir : text) (d d' : Disk) : Prop :=
  (∀ n, is_Some (parse_checkpoint_index n) → file_in dir n d' = file_in dir n d)
  ∧ (is_Some (directories d !! dir) → is_Some (directories d' !! dir)).

#[export] Instance quiet_preorder dir : PreOrder (quiet dir).
Proof.
  split; [by split|]. intros a b c [Hab Hab'] [Hbc Hbc']. split; [|auto]. intros n Hn. by rewrite Hbc, Hab.
Qed.

Lemma quiet_id dir o d : quiet dir d (attempt o id d).2.
Proof. unfold attempt. by case_match. Qed.

Lemma quiet_update (dir dir' n : text) (f : Directory → Directory) (d : Disk) :
  parse_checkpoint_index n = None → (∀ m fs, m ≠ n → f fs !! m = fs !! m) → quiet dir d (in_directory dir' f d).
Proof.
  intros Hn Hf. split; [|apply directory_kept]. intros m Hm. destruct (decide (dir = dir')) as [->|Hne].
  - unfold file_in, in_directory. cbn. rewrite lookup_alter_eq. destruct (directories d !! dir'); cbn; [|done].
    apply Hf. intros ->. by destruct Hm; congruence.
  - by apply file_in_elsewhere.
Qed.

Lemma quiet_insert dir dir' n v d :
  parse_checkpoint_index n = None → quiet dir d (in_directory dir' <[n := v]> d).
Proof. intros Hn. eapply quiet_update; [done|]. intros m fs Hm. by rewrite lookup_insert_ne. Qed.
Lemma quiet_delete dir dir' n d :
  parse_checkpoint_index n = None → quiet dir d (in_directory dir' (delete n) d).
Proof. intros Hn. eapply quiet_update; [done|]. intros m fs Hm. by rewrite lookup_delete_ne. Qed.

(** A new directory has no files. *)
Lemma or_insert_no_files (ds : gmap text Directory) (k dir n : text) :
  (m ← or_insert k ∅ ds !! dir; m !! n) = (m ← ds !! dir; m !! n).
Proof.
  unfold or_insert. destruct (ds !! k) eqn:Hk; [done|]. destruct (decide (dir = k)) as [->|Hne].
  - rewrite lookup_insert_eq, Hk. cbn. apply lookup_empty.
  - by rewrite lookup_insert_ne.
Qed.

Lemma ensure_result s d ok d' :
  ensure_store_dir s d = (ok, d') →
  quiet (store_dir s) d d' ∧ (ok = true → is_Some (directories d' !! store_dir s))
  ∧ ((∀ n o, disk_error n o = None) → ok = true) ∧ tmp_write_seq d' = tmp_write_seq d.
Proof.
  unfold ensure_store_dir, attempt at 1. destruct (disk_error _ (CreateDirAll _)) as [e|] eqn:He.
  { intros [= <- <-]. split_and!; [done..|intros Hno; by rewrite Hno in He|done]. }
  set (d1 := count_disk_op _). assert (is_Some (directories d1 !! store_dir s)) as Hdir.
  { cbn. unfold or_insert at 1. destruct (or_insert _ _ _ !! store_dir s) as [fs|] eqn:Hs; [by rewrite Hs|].
    rewrite lookup_insert_eq. by eexists. }
  assert (quiet (store_dir s) d d1) as Hq.
  { split; [|done]. intros n _. unfold d1, file_in. cbn. by rewrite !or_insert_no_files. }
  destruct (attempt (TryExists _ _) id d1) as [known d2] eqn:Ht.
  assert (d2 = count_disk_op d1) as -> by (unfold attempt in Ht; by case_match; simplify_eq).
  case_match.
  - intros [= <- <-]. by split_and!.
  - unfold attempt_write. set (o := WriteWhole _ _). destruct (disk_error _ o) as [e|] eqn:He2; intros [= <- <-]; cbn [fst snd].
    + split_and!; [|done|intros Hno; by rewrite Hno in He2|done].
      etrans; [exact Hq|]. apply (quiet_insert _ _ _ _ (count_disk_op d1)), parse_gitignore.
    + split_and!; [|intros _; by apply directory_kept|done|done].
      etrans; [exact Hq|]. apply (quiet_insert _ _ _ _ (count_disk_op d1)), parse_gitignore.
Qed.

(** The file of a checkpoint is replaced by the whole new text or stays as it is. *)
Lemma write_result c s d ok d' :
  (0 <= tmp_write_seq d)%Z → (Z.of_nat (cp_prompt_index c) <= u64_max)%Z → is_Some (directories d !! store_dir s) →
  write_checkpoint_file pid c s d = (ok, d') →
  (0 <= tmp_write_seq d')%Z ∧ is_Some (directories d' !! store_dir s)
  ∧ ((∀ n o, disk_error n o = None) → ok = bool_decide (is_Some (to_vec c)))
  ∧ if ok then ∃ v, to_vec c = Some v
                 ∧ ∀ n, is_Some (parse_checkpoint_index n) →
                   file_in (store_dir s) n d'
                   = if decide (n = checkpoint_file_name (cp_prompt_index c)) then Some v else file_in (store_dir s) n d
    else quiet (store_dir s) d d'.
Proof.
  intros Hseq Hi Hdir. unfold write_checkpoint_file. destruct (to_vec c) as [v|] eqn:Hv.
  2: { intros [= <- <-]. by split_and!. }
  set (dir := store_dir s) in *. set (final := checkpoint_file_name _). set (tmp := tmp_file_name _ _ _).
  assert (parse_checkpoint_index tmp = None) as Htmp by by apply parse_tmp_name.
  set (d0 := next_tmp_seq d). assert (0 <= tmp_write_seq d0)%Z as Hseq0 by (cbn; apply Z.mod_pos_bound; lia).
  assert (quiet dir d d0) as Hq0 by done.
  unfold attempt at 1. destruct (disk_error _ (CreateFile _ _)) as [e|] eqn:He1.
  { intros [= <- <-]. split_and!; [done..|intros Hno; by rewrite Hno in He1|done]. }
  cbn [negb]. set (d1 := count_disk_op _).
  assert (quiet dir d d1) as Hq1 by (etrans; [exact Hq0|]; by apply (quiet_insert dir dir tmp [] d0)).
  assert (is_Some (directories d1 !! dir)) as Hdir1 by by apply Hq1.
  unfold attempt_write. destruct (disk_error _ (WriteAll _ _)) as [e|] eqn:He2; cbn [negb].
  { intros [= <- <-]. assert (quiet dir d (count_disk_op (in_directory dir <[tmp := written_part (disk_ops d1) v]> d1))) as Hq.
    { etrans; [exact Hq1|]. by apply (quiet_insert dir dir tmp _ d1). }
    split_and!; [done|by apply Hq|intros Hno; by rewrite Hno in He2|exact Hq]. }
  set (d2 := count_disk_op (in_directory dir <[tmp := v]> d1)).
  assert (quiet dir d d2) as Hq2 by (etrans; [exact Hq1|]; by apply (quiet_insert dir dir tmp v d1)).
  assert (file_in dir tmp d2 = Some v) as Hfile2.
  { unfold d2. rewrite file_in_count, file_in_insert. by rewrite decide_True. }
  unfold attempt at 1. destruct (disk_error _ (SyncAll _ _)) as [e|] eqn:He3; cbn [negb].
  { intros [= <- <-]. split_and!; [done|by apply Hq2|intros Hno; by rewrite Hno in He3|exact Hq2]. }
  unfold attempt at 1. destruct (disk_error _ (RenameFile _ _ _)) as [e|] eqn:He4; cbn [negb].
  { intros [= <- <-]. split_and!; [done|by apply Hq2|intros Hno; by rewrite Hno in He4|exact Hq2]. }
  assert (rename_in dir tmp final (count_disk_op (id d2))
    = in_directory dir (λ fs, <[final := v]> (delete tmp fs)) (count_disk_op d2)) as ->.
  { unfold rename_in. change (file_in dir tmp (count_disk_op (id d2))) with (file_in dir tmp d2). by rewrite Hfile2. }
  set (d4 := count_disk_op (in_directory dir _ (count_disk_op d2))).
  assert (∀ n, is_Some (parse_checkpoint_index n) →
            file_in dir n d4 = if decide (n = final) then Some v else file_in dir n d) as Hfile4.
  { intros n Hn. unfold d4, d2, d1, d0, file_in. cbn [directories in_directory set_directories count_disk_op next_tmp_seq].
    rewrite !lookup_alter_eq. destruct Hdir as [fs Hfs]. rewrite Hfs. cbn [fmap option_fmap option_map mbind option_bind]. destruct (decide (n = final)) as [->|Hne].
    - by rewrite lookup_insert_eq.
    - assert (n ≠ tmp) by (intros ->; rewrite Htmp in Hn; by destruct Hn).
      by rewrite lookup_insert_ne, lookup_delete_ne, !lookup_insert_ne. }
  assert (is_Some (directories d4 !! dir)) as Hdir4 by (apply directory_kept; by apply Hq2).
  destruct (attempt (SyncDir dir) id d4) as [b d5] eqn:Hd5. intros [= <- <-].
  assert (d5 = count_disk_op d4) as -> by (unfold attempt in Hd5; by case_match; simplify_eq).
  split_and!; [done..|]. by exists v.
Qed.

(** ** Removals *)

(** From [d] to [d'] the directory has lost some of the files in [gone], and nothing else
    has changed in it. *)
Record shrinks (dir : text) (gone : text → Prop) (d d' : Disk) : Prop := {
  shrinks_files n : file_in dir n d' = file_in dir n d ∨ gone n ∧ file_in dir n d' = None;
  shrinks_dir : is_Some (directories d !! dir) ↔ is_Some (directories d' !! dir);
  shrinks_seq : tmp_write_seq d' = tmp_write_seq d;
}.

#[export] Instance shrinks_preorder dir gone : PreOrder (shrinks dir gone).
Proof.
  split; [split; [by left|done|done]|]. intros a b c [Hf Hd Hs] [Hf' Hd' Hs']. split.
  - intros n. destruct (Hf' n) as [->|?]; [apply Hf|by right].
  - by rewrite Hd.
  - congruence.
Qed.

Lemma shrinks_none dir gone d d' n : shrinks dir gone d d' → file_in dir n d = None → file_in dir n d' = None.
Proof. intros Hs Hn. destruct (shrinks_files _ _ _ _ Hs n) as [->|[_ ?]]; done. Qed.

Lemma shrinks_id dir gone o d : shrinks dir gone d (attempt o id d).2.
Proof. unfold attempt. case_match; split; (by left) || done. Qed.

Lemma shrinks_remove dir (gone : text → Prop) n d :
  gone n → shrinks dir gone d (attempt (RemoveFile dir n) (in_directory dir (delete n)) d).2
  ∧ ((∀ k o, disk_error k o = None) →
     file_in dir n (attempt (RemoveFile dir n) (in_directory dir (delete n)) d).2 = None).
Proof.
  intros Hn. unfold attempt. destruct (disk_error _ _) as [e|] eqn:He; cbn [snd].
  - split; [by split; (by left) || done|]. intros Hno. by rewrite Hno in He.
  - split; [split|].
    + intros m. rewrite file_in_count, file_in_delete. case_decide as Hm; [subst; by right|by left].
    + symmetry. apply (directory_kept dir dir).
    + done.
    + intros _. rewrite file_in_count, file_in_delete. by rewrite decide_True.
Qed.

(** A fold of removals: what each step removes stays away. *)
Lemma foldl_shrinks {A} dir gone (f : Disk → A → Disk) (target : A → option text) l d :
  (∀ d x, x ∈ l → shrinks dir gone d (f d x)) →
  (∀ d x n, x ∈ l → target x = Some n → file_in dir n (f d x) = None) →
  shrinks dir gone d (foldl f d l)
  ∧ ∀ x n, x ∈ l → target x = Some n → file_in dir n (foldl f d l) = None.
Proof.
  revert d. induction l as [|x l IH]; intros d Hsh Hgone; cbn [foldl].
  { split; [done|]. by intros x n Hx%elem_of_nil. }
  destruct (IH (f d x)) as [Hs Hn]; [intros; apply Hsh; by right|intros; eapply Hgone; [by right|done]|].
  split; [etrans; [apply Hsh; by left|done]|].
  intros y n [->|Hy]%elem_of_cons Ht; [|by eapply Hn]. eapply shrinks_none; [done|].
  eapply Hgone; [by left|done].
Qed.

Lemma foldl_shrinks_only {A} dir gone (f : Disk → A → Disk) l d :
  (∀ d x, x ∈ l → shrinks dir gone d (f d x)) → shrinks dir gone d (foldl f d l).
Proof. intros Hsh. by apply (foldl_shrinks dir gone f (λ _, None)). Qed.

Lemma remove_result dir gone d :
  let d' := foldl (remove_checkpoint dir) d gone in
  shrinks dir (λ n, ∃ j, j ∈ gone ∧ n = checkpoint_file_name j) d d'
  ∧ ((∀ k o, disk_error k o = None) → ∀ j, j ∈ gone → file_in dir (checkpoint_file_name j) d' = None).
Proof.
  intros d'. split.
  - apply foldl_shrinks_only. intros e j Hj. by apply shrinks_remove; exists j.
  - intros Hno j Hj. eapply (foldl_shrinks dir (λ n, ∃ j, j ∈ gone ∧ n = checkpoint_file_name j)
      _ (λ j, Some (checkpoint_file_name j))); [..|exact Hj|done].
    + intros e k Hk. by apply shrinks_remove; exists k.
    + intros e k n Hk [= <-]. by apply (shrinks_remove dir (λ _, True)).
Qed.

Lemma elem_of_names dir n d : n ∈ names_in dir d ↔ is_Some (file_in dir n d).
Proof.
  unfold names_in, file_in. rewrite hash_order_perm, list_elem_of_fmap.
  destruct (directories d !! dir) as [fs|]; cbn.
  - split.
    + intros ([m v] & -> & Hm%elem_of_map_to_list). by eexists.
    + intros [v Hv]. exists (n, v). split; [done|]. by apply elem_of_map_to_list.
  - rewrite map_to_list_empty. split; [by intros (? & _ & ?%elem_of_nil)|by intros [? ?]].
Qed.

Lemma truncate_entry_result dir target d n :
  shrinks dir (λ n, ∃ i, parse_checkpoint_index n = Some i ∧ target <= i) d (truncate_entry dir target d n)
  ∧ ((∀ k o, disk_error k o = None) → (∃ i, parse_checkpoint_index n = Some i ∧ target <= i) →
     file_in dir n (truncate_entry dir target d n) = None).
Proof.
  unfold truncate_entry. destruct (attempt (NextEntry dir n) id d) as [seen d1] eqn:Hd1.
  assert (shrinks dir (λ n, ∃ i, parse_checkpoint_index n = Some i ∧ target <= i) d d1) as Hs.
  { change d1 with (seen, d1).2. rewrite <- Hd1. apply shrinks_id. }
  assert ((∀ k o, disk_error k o = None) → seen = true) as Hseen.
  { intros Hno. unfold attempt in Hd1. rewrite Hno in Hd1. by injection Hd1 as <- _. }
  destruct (parse_checkpoint_index n) as [i|] eqn:Hp; [|split; [done|by intros _ (? & ? & _)]].
  destruct (seen && (target <=? i)) eqn:Hg.
  - apply andb_true_iff in Hg as [_ Hle%Nat.leb_le]. split.
    + etrans; [done|]. by apply shrinks_remove; eauto.
    + intros Hno _. by apply (shrinks_remove dir (λ _, True)).
  - split; [done|]. intros Hno (j & [= <-] & Hle). rewrite Hseen in Hg by done. cbn in Hg.
    apply Nat.leb_gt in Hg. lia.
Qed.

(** ** Loading *)

(** What the scan has read is in the files; if nothing fails it has read them all. *)
Lemma load_entries dir names m0 d m d' :
  foldl (load_entry dir) (m0, d) names = (m, d') →
  shrinks dir (λ n, parse_checkpoint_index n = None) d d'
  ∧ (∀ i c, m !! i = Some c → m0 !! i = Some c ∨
       ∃ n v, parse_checkpoint_index n = Some i ∧ file_in dir n d = Some v ∧ from_slice v = Some c)
  ∧ (∀ i, is_Some (m0 !! i) → is_Some (m !! i))
  ∧ ((∀ k o, disk_error k o = None) → ∀ n i v, n ∈ names → parse_checkpoint_index n = Some i →
       file_in dir n d = Some v → is_Some (from_slice v) → is_Some (m !! i)).
Proof.
  revert m0 d. induction names as [|n names IH]; intros m0 d; cbn [foldl].
  { intros [= <- <-]. split_and!; [done|by left|done|]. by intros _ n i v Hn%elem_of_nil. }
  destruct (load_entry dir (m0, d) n) as [m1 d1] eqn:Hone. intros Hfold.
  assert (shrinks dir (λ n, parse_checkpoint_index n = None) d d1
    ∧ (∀ i c, m1 !! i = Some c → m0 !! i = Some c ∨
         ∃ n v, parse_checkpoint_index n = Some i ∧ file_in dir n d = Some v ∧ from_slice v = Some c)
    ∧ (∀ i, is_Some (m0 !! i) → is_Some (m1 !! i))
    ∧ ((∀ k o, disk_error k o = None) → ∀ i v, parse_checkpoint_index n = Some i →
         file_in dir n d = Some v → is_Some (from_slice v) → is_Some (m1 !! i))) as (Hs & Hsound & Hmono & Hall).
  { revert Hone. unfold load_entry. destruct (attempt (NextEntry dir n) id d) as [seen d2] eqn:Hd2.
    assert (d2 = count_disk_op d ∧ ((∀ k o, disk_error k o = None) → seen = true)) as [-> Hseen].
    { unfold attempt in Hd2. destruct (disk_error _ _) eqn:He; injection Hd2 as <- <-; split; try done.
      intros Hno. by rewrite Hno in He. }
    destruct seen; cbn [negb].
    2: { intros [= <- <-]. split_and!; [split; (by left) || done|by left|done|]. intros Hno. by specialize (Hseen Hno). }
    destruct (parse_checkpoint_index n) as [i|] eqn:Hp.
    - destruct (attempt (ReadFile dir n) id _) as [ok d3] eqn:Hd3.
      assert (d3 = count_disk_op (count_disk_op d) ∧ ((∀ k o, disk_error k o = None) → ok = true)) as [-> Hok].
      { unfold attempt in Hd3. destruct (disk_error _ _) eqn:He; injection Hd3 as <- <-; split; try done.
        intros Hno. by rewrite Hno in He. }
      intros [= <- <-]. split_and!; [split; (by left) || done|..].
      + intros j c. destruct (_ ≫= from_slice) as [c'|] eqn:Hc'; [|by left].
        destruct (decide (j = i)) as [->|Hne]; [|rewrite lookup_insert_ne by done; by left].
        rewrite lookup_insert_eq. intros [= <-]. right. apply bind_Some in Hc' as (v & Hv & Hc').
        destruct ok; [|done]. eauto.
      + intros j Hj. destruct (_ ≫= from_slice) as [c'|]; [|done].
        destruct (decide (j = i)) as [->|Hne]; [by rewrite lookup_insert_eq|by rewrite lookup_insert_ne].
      + intros Hno j v [= <-] Hv [c Hc]. rewrite Hok by done.
        change (file_in dir n (count_disk_op (count_disk_op d))) with (file_in dir n d).
        rewrite Hv. cbn. by rewrite Hc, lookup_insert_eq.
    - intros [= <- <-]. split_and!; [|by left|done|done].
      destruct (is_orphan_checkpoint_tmp n); [|split; (by left) || done].
      etrans; [|by apply shrinks_remove]. split; (by left) || done. }
  apply IH in Hfold as (Hs' & Hsound' & Hmono' & Hall').
  assert (∀ n i, parse_checkpoint_index n = Some i → file_in dir n d1 = file_in dir n d) as Hkept.
  { intros k i Hk. destruct (shrinks_files _ _ _ _ Hs k) as [->|[Hn _]]; [done|congruence]. }
  split_and!.
  - by etrans.
  - intros i c [Hm|(k & v & Hk & Hv & Hc)]%Hsound'; [by apply Hsound|]. right. exists k, v.
    by rewrite <- (Hkept k i).
  - auto.
  - intros Hno k i v [->|Hk]%elem_of_cons Hp Hv Hc; [apply Hmono'; by eapply Hall|].
    eapply Hall'; [done..| |done]. by rewrite (Hkept _ _ Hp).
Qed.

(** ** The store and its files *)

Section invariant.
Context (P : RewindCheckpoint → Prop).
Context (Hbound : ∀ c, P c → (Z.of_nat (cp_prompt_index c) <= u64_max)%Z).
Context (Hread : ∀ c v, P c → to_vec c = Some v → from_slice v = Some c).

(** Every file with the name of a checkpoint is the whole text of one; every cached
    checkpoint has its file. *)
Record sound (s : CheckpointStore) (d : Disk) : Prop := {
  sound_files n i v : parse_checkpoint_index n = Some i → file_in (store_dir s) n d = Some v →
    n = checkpoint_file_name i ∧ ∃ c, P c ∧ cp_prompt_index c = i ∧ to_vec c = Some v;
  sound_cache i c : cache s !! i = Some c →
    P c ∧ cp_prompt_index c = i ∧ ∃ v, to_vec c = Some v ∧ file_in (store_dir s) (checkpoint_file_name i) d = Some v;
  sound_cap : size (cache s) <= cap s;
  sound_seq : (0 <= tmp_write_seq d)%Z;
}.

(** Every file with the name of a checkpoint is cached. *)
Definition complete (s : CheckpointStore) (d : Disk) : Prop :=
  ∀ n i, parse_checkpoint_index n = Some i → is_Some (file_in (store_dir s) n d) → is_Some (cache s !! i).

Lemma parse_name c : P c → parse_checkpoint_index (checkpoint_file_name (cp_prompt_index c)) = Some (cp_prompt_index c).
Proof. intros Hc. by apply parse_checkpoint_name, Hbound. Qed.

Lemma sound_quiet s d d' :
  sound s d → quiet (store_dir s) d d' → (0 <= tmp_write_seq d')%Z → sound s d'.
Proof.
  intros Hs [Hq _] Hseq. split; [..|apply Hs|done].
  - intros n i v Hn Hv. eapply (sound_files _ _ Hs); [done|]. by rewrite <- Hq by (by eexists).
  - intros i c Hc. destruct (sound_cache _ _ Hs i c Hc) as (HP & Hi & Hv). split_and!; [done..|].
    rewrite Hq; [done|]. rewrite <- Hi, parse_name by done. by eexists.
Qed.

Lemma complete_quiet s d d' : complete s d → quiet (store_dir s) d d' → complete s d'.
Proof. intros Hc [Hq _] n i Hn. rewrite Hq by (by eexists). by apply Hc. Qed.

(** Files go away, and the cache keeps only what still has its file. *)
Lemma sound_shrinks s m gone d d' :
  sound s d → shrinks (store_dir s) gone d d' → size m <= cap s →
  (∀ i c, m !! i = Some c → cache s !! i = Some c ∧ ¬ gone (checkpoint_file_name i)) →
  sound (set_cache m s) d'.
Proof.
  intros Hs Hsh Hsize Hm. split; cbn [store_root store_dir cap cache set_cache]; [..|done|rewrite (shrinks_seq _ _ _ _ Hsh); apply Hs].
  - intros n i v Hn Hv. eapply (sound_files _ _ Hs); [done|].
    destruct (shrinks_files _ _ _ _ Hsh n) as [<-|[_ Hno]]; [done|congruence].
  - intros i c [Hc Hg]%Hm. destruct (sound_cache _ _ Hs i c Hc) as (HP & Hi & Hv). split_and!; [done..|].
    by destruct (shrinks_files _ _ _ _ Hsh (checkpoint_file_name i)) as [->|[? _]].
Qed.

Lemma persist_sound c s d s' d' :
  P c → sound s d → persist pid c s d = (s', d') →
  sound s' d' ∧ store_dir s' = store_dir s ∧ cap s' = cap s.
Proof.
  intros HP Hs. unfold persist. destruct (below_window _ _); [by intros [= <- <-]|].
  destruct (ensure_store_dir s d) as [ok d1] eqn:He.
  apply ensure_result in He as (Hq1 & Hdir & _ & Hseq1).
  assert (sound s d1) as Hs1 by (eapply sound_quiet; [done..|rewrite Hseq1; apply Hs]).
  destruct ok; cbn [negb]; [|by intros [= <- <-]].
  destruct (write_checkpoint_file pid c s d1) as [ok d2] eqn:Hw.
  apply write_result in Hw as (Hseq2 & _ & _ & Hw); [|apply Hs1|by apply Hbound|by apply Hdir].
  destruct ok; cbn [negb]; [|intros [= <- <-]; split; [by eapply sound_quiet|done]].
  destruct Hw as (v & Hv & Hfile). set (i := cp_prompt_index c) in *.
  destruct (evict _ _) as [evicted m] eqn:Hev. intros [= <- <-]. split; [|done].
  apply evict_exact in Hev as [-> Hev].
  pose proof (remove_result (store_dir s) evicted d2) as [Hsh _].
  assert (∀ j, cache s !! j ≠ None → j ≠ i → file_in (store_dir s) (checkpoint_file_name j) d2
            = file_in (store_dir s) (checkpoint_file_name j) d1) as Hother.
  { intros j Hj Hne. destruct (cache s !! j) as [c'|] eqn:Hc'; [|done].
    destruct (sound_cache _ _ Hs1 j c' Hc') as (HP' & Hj' & _). rewrite Hfile.
    - rewrite decide_False; [done|]. by intros ?%checkpoint_name_inj.
    - rewrite <- Hj', parse_name by done. by eexists. }
  assert (sound (mkStore (store_root s) (store_dir s) (size (<[i := c]> (cache s))) (<[i := c]> (cache s))) d2) as Hs2.
  { split; cbn [store_root store_dir cap cache set_cache]; [..|done|done].
    - intros n j w Hn. rewrite Hfile by (by eexists). case_decide as Hni.
      + intros [= <-]. rewrite Hni in Hn |- *. unfold i in Hn. rewrite parse_name in Hn by done. injection Hn as <-.
        split; [done|]. by exists c.
      + by apply Hs1.
    - intros j c'. destruct (decide (j = i)) as [->|Hne].
      + rewrite lookup_insert_eq. intros [= <-]. split_and!; [done..|]. exists v. split; [done|].
        rewrite Hfile by (unfold i; rewrite parse_name by done; by eexists). by rewrite decide_True.
      + rewrite lookup_insert_ne by done. intros Hc'. destruct (sound_cache _ _ Hs1 j c' Hc') as (? & ? & w & ? & ?).
        split_and!; [done..|]. exists w. split; [done|]. by rewrite Hother by (congruence || done). }
  apply (sound_shrinks _ (newest (cap s) (<[i := c]> (cache s))) _ _ _ Hs2) in Hsh.
  - destruct Hsh as [Ha Hb _ Hd]. split; [exact Ha|exact Hb|apply size_newest|exact Hd].
  - apply map_subseteq_size, newest_subseteq.
  - intros j c' Hj. pose proof (lookup_weaken _ _ _ _ Hj (newest_subseteq _ _)) as Hj'. split; [done|].
    intros (k & Hk & <-%checkpoint_name_inj). apply (Hev j) in Hk; [congruence|]. by eexists.
Qed.

Lemma truncate_sound target s d s' d' :
  sound s d → truncate_store target s d = (s', d') →
  sound s' d' ∧ store_dir s' = store_dir s ∧ cap s' = cap s.
Proof.
  intros Hs. set (gone := λ n, ∃ i, parse_checkpoint_index n = Some i ∧ target <= i).
  assert (∀ d', shrinks (store_dir s) gone d d' → sound (set_cache (retain_below target (cache s)) s) d') as Hret.
  { intros d2 Hsh. apply (sound_shrinks _ _ _ _ _ Hs Hsh).
    - etrans; [|apply Hs]. apply map_subseteq_size, map_filter_subseteq.
    - intros i c [Hc Hi]%map_lookup_filter_Some. split; [done|]. intros (j & Hj & Hle).
      destruct (sound_cache _ _ Hs i c Hc) as (HP & <- & _). rewrite parse_name in Hj by done. cbn in Hi.
      injection Hj as <-. lia. }
  unfold truncate_store. assert (shrinks (store_dir s) gone d (count_disk_op d)) as Hcount by (split; (by left) || done).
  assert (sound s (count_disk_op d)) as Hsame by (destruct Hs; by split).
  destruct (directories d !! store_dir s), (disk_error _ _) as [[]|];
    intros [= <- <-]; (split; [|done]); auto.
  apply Hret. etrans; [exact Hcount|]. apply foldl_shrinks_only. intros e n _. apply truncate_entry_result.
Qed.

(** What a load finds in the files of a sound store. *)
Lemma load_sound s d m d' :
  sound s d → load_capped_from_disk (store_dir s) (cap s) d = (m, d') → sound (set_cache m s) d'.
Proof.
  intros Hs. unfold load_capped_from_disk.
  assert (sound (set_cache ∅ s) (count_disk_op d)) as Hempty.
  { destruct Hs as [Hf Hc Hcap Hseq]. split; cbn [store_root store_dir cap cache set_cache]; [exact Hf| |rewrite map_size_empty; lia|exact Hseq].
    by intros i c Hi%lookup_empty_Some. }
  destruct (directories d !! store_dir s); [|by intros [= <- <-]].
  destruct (disk_error _ _); [by intros [= <- <-]|].
  destruct (foldl _ _ _) as [loaded d1] eqn:Hf. apply load_entries in Hf as (Hsh & Hin & _ & _).
  destruct (evict (cap s) loaded) as [evicted m'] eqn:Hev. intros [= <- <-].
  apply evict_exact in Hev as [-> Hev].
  pose proof (remove_result (store_dir s) evicted d1) as [Hrm _].
  assert (sound (mkStore (store_root s) (store_dir s) (size loaded) loaded) d1) as Hs1.
  { assert (∀ n i, parse_checkpoint_index n = Some i → file_in (store_dir s) n d1 = file_in (store_dir s) n d) as Hkept.
    { intros n i Hn. destruct (shrinks_files _ _ _ _ Hsh n) as [->|[Hno _]]; [done|congruence]. }
    split; cbn [store_root store_dir cap cache set_cache]; [..|done|rewrite (shrinks_seq _ _ _ _ Hsh); apply Hs].
    - intros n i v Hn. rewrite (Hkept _ _ Hn). by apply Hs.
    - intros i c [Hno%lookup_empty_Some|(n & v & Hn & Hv & Hc)]%Hin; [done|].
      change (file_in (store_dir s) n (count_disk_op d)) with (file_in (store_dir s) n d) in Hv.
      destruct (sound_files _ _ Hs n i v Hn Hv) as (-> & c' & HP & Hi & Hv').
      pose proof (Hread _ _ HP Hv'). simplify_eq. split_and!; [done..|]. exists v. split; [done|].
      by rewrite (Hkept _ _ Hn). }
  apply (sound_shrinks _ (newest (cap s) loaded) _ _ _ Hs1) in Hrm.
  - destruct Hrm as [Ha Hb _ Hd]. split; [exact Ha|exact Hb|apply size_newest|exact Hd].
  - apply map_subseteq_size, newest_subseteq.
  - intros j c' Hj. pose proof (lookup_weaken _ _ _ _ Hj (newest_subseteq _ _)) as Hj'. split; [done|].
    intros (k & Hk & <-%checkpoint_name_inj). apply (Hev j) in Hk; [congruence|]. by eexists.
Qed.

(** ** Without failures *)

Section quiet_disk.
Context (Hquiet : ∀ k o, disk_error k o = None).
Context (Hwritten : ∀ c, P c → is_Some (to_vec c)).

Lemma complete_none s d n i :
  sound s d → complete s d → parse_checkpoint_index n = Some i → cache s !! i = None → file_in (store_dir s) n d = None.
Proof.
  intros Hs Hc Hn Hi. apply eq_None_not_Some. intros Hf. specialize (Hc n i Hn Hf). rewrite Hi in Hc. by destruct Hc.
Qed.

Lemma persist_exact c s d s' d' :
  P c → sound s d → complete s d → persist pid c s d = (s', d') →
  cache s' = newest (cap s) (<[cp_prompt_index c := c]> (cache s)) ∧ complete s' d'.
Proof.
  intros HP Hs Hcomp. unfold persist. destruct (below_window _ _) eqn:Hb.
  { intros [= <- <-]. split; [|done]. symmetry. apply below_window_newest; [apply Hs|done]. }
  destruct (ensure_store_dir s d) as [ok d1] eqn:He.
  apply ensure_result in He as (Hq1 & Hdir & Hok & Hseq1). rewrite Hok in * by done. cbn [negb].
  destruct (write_checkpoint_file pid c s d1) as [ok2 d2] eqn:Hw.
  apply write_result in Hw as (_ & _ & Hok2 & Hw); [|rewrite Hseq1; apply Hs|by apply Hbound|by apply Hdir].
  rewrite Hok2, bool_decide_eq_true_2 in * by (done || by apply Hwritten). cbn [negb].
  destruct Hw as (v & Hv & Hfile). set (i := cp_prompt_index c) in *.
  destruct (evict _ _) as [evicted m] eqn:Hev. intros [= <- <-].
  apply evict_exact in Hev as [-> Hev]. split; [done|].
  pose proof (remove_result (store_dir s) evicted d2) as [Hsh Hgone].
  intros n j Hn Hf. cbn [cache set_cache store_dir] in *.
  assert (is_Some (file_in (store_dir s) n d2)) as Hf2.
  { destruct (shrinks_files _ _ _ _ Hsh n) as [<-|[_ Hno]]; [done|]. rewrite Hno in Hf. by destruct Hf. }
  assert (is_Some (<[i := c]> (cache s) !! j) ∧ n = checkpoint_file_name j) as [Hj ->].
  { rewrite Hfile in Hf2 by (by eexists). case_decide as Hni.
    - rewrite Hni in Hn. unfold i in Hn. rewrite parse_name in Hn by done. injection Hn as <-.
      by rewrite lookup_insert_eq.
    - rewrite (proj1 Hq1) in Hf2 by (by eexists). split.
      + destruct (decide (j = i)) as [->|Hne]; [by rewrite lookup_insert_eq|rewrite lookup_insert_ne by done].
        by eapply Hcomp.
      + destruct Hf2 as [w Hw]. by eapply (sound_files _ _ Hs). }
  destruct (newest _ _ !! j) as [c'|] eqn:Hnew; [by eexists|]. apply (Hev j Hj) in Hnew.
  rewrite (Hgone Hquiet j Hnew) in Hf. by destruct Hf.
Qed.

Lemma truncate_exact target s d s' d' :
  sound s d → complete s d → truncate_store target s d = (s', d') →
  cache s' = retain_below target (cache s) ∧ complete s' d'.
Proof.
  intros Hs Hcomp. unfold truncate_store. rewrite Hquiet.
  destruct (directories d !! store_dir s) as [fs|] eqn:Hfs; intros [= <- <-]; (split; [done|]);
    intros n i Hn Hf; cbn [cache set_cache store_dir] in *.
  - set (d1 := count_disk_op d) in *.
    pose proof (foldl_shrinks (store_dir s) (λ n, ∃ i, parse_checkpoint_index n = Some i ∧ target <= i)
      (truncate_entry (store_dir s) target)
      (λ n, match parse_checkpoint_index n with Some i => if target <=? i then Some n else None | None => None end)
      (names_in (store_dir s) d1) d1) as [Hsh Hgone].
    { intros e k _. apply truncate_entry_result. }
    { intros e k k' _ Hk. destruct (parse_checkpoint_index k) as [j|] eqn:Hj; [|done].
      destruct (Nat.leb_spec target j); [|done]. injection Hk as <-. apply truncate_entry_result; eauto. }
    assert (file_in (store_dir s) n (foldl (truncate_entry (store_dir s) target) d1 (names_in (store_dir s) d1))
      = file_in (store_dir s) n d) as Hsame.
    { destruct (shrinks_files _ _ _ _ Hsh n) as [->|[_ Hno]]; [done|]. rewrite Hno in Hf. by destruct Hf. }
    rewrite Hsame in Hf. destruct (Hcomp n i Hn Hf) as [c Hc]. exists c. apply map_lookup_filter_Some.
    split; [done|]. cbn. destruct (Nat.le_gt_cases target i) as [Hle|]; [|done].
    rewrite (Hgone n n) in Hsame.
    + rewrite <- Hsame in Hf. by destruct Hf.
    + by apply elem_of_names.
    + rewrite Hn. by rewrite (proj2 (Nat.leb_le _ _)).
  - unfold file_in in Hf. cbn in Hf. rewrite Hfs in Hf. by destruct Hf.
Qed.

Lemma load_exact s d m d' :
  sound s d → complete s d → load_capped_from_disk (store_dir s) (cap s) d = (m, d') →
  m = cache s ∧ complete (set_cache m s) d'.
Proof.
  intros Hs Hcomp Hload. pose proof (load_sound s d m d' Hs Hload) as Hs'. revert Hload.
  unfold load_capped_from_disk. rewrite Hquiet.
  destruct (directories d !! store_dir s) as [fs|] eqn:Hfs.
  2: { assert (∀ n, file_in (store_dir s) n d = None) as Hno by (intros n; unfold file_in; by rewrite Hfs).
    intros [= <- <-]. split.
    - apply map_eq. intros i. rewrite lookup_empty. symmetry. apply eq_None_not_Some. intros [c Hc].
      destruct (sound_cache _ _ Hs i c Hc) as (_ & _ & v & _ & Hv). congruence.
    - intros n i _ [v Hv]. cbn [store_dir set_cache] in Hv.
      change (file_in (store_dir s) n (count_disk_op d)) with (file_in (store_dir s) n d) in Hv. congruence. }
  destruct (foldl _ _ _) as [loaded d1] eqn:Hf. apply load_entries in Hf as (Hsh & Hin & _ & Hall).
  assert (loaded = cache s) as ->.
  { apply map_eq. intros i. apply option_eq. intros c. split.
    - intros [Hno%lookup_empty_Some|(n & v & Hn & Hv & Hc)]%Hin; [done|].
      change (file_in (store_dir s) n (count_disk_op d)) with (file_in (store_dir s) n d) in Hv.
      destruct (sound_files _ _ Hs n i v Hn Hv) as (-> & c' & HP & Hi & Hv').
      pose proof (Hread _ _ HP Hv'). simplify_eq.
      destruct (Hcomp _ _ Hn ltac:(by eexists)) as [c'' Hc''].
      destruct (sound_cache _ _ Hs _ c'' Hc'') as (HP'' & Hi'' & w & Hw & Hw').
      rewrite Hw' in Hv. simplify_eq. pose proof (Hread _ _ HP'' Hw). congruence.
    - intros Hc. destruct (sound_cache _ _ Hs i c Hc) as (HP & <- & v & Hv & Hfile).
      pose proof (parse_name c HP) as Hn.
      assert (is_Some (loaded !! cp_prompt_index c)) as [c' Hc'].
      { eapply (Hall Hquiet); [by apply elem_of_names; eexists|exact Hn|exact Hfile|]. by rewrite (Hread _ _ HP Hv). }
      rewrite Hc'. apply Hin in Hc' as [Hno%lookup_empty_Some|(n & w & Hn' & Hw & Hc')]; [done|].
      change (file_in (store_dir s) n (count_disk_op d)) with (file_in (store_dir s) n d) in Hw.
      destruct (sound_files _ _ Hs n _ w Hn' Hw) as (-> & _). rewrite Hfile in Hw. simplify_eq.
      pose proof (Hread _ _ HP Hv). congruence. }
  destruct (evict (cap s) (cache s)) as [evicted m'] eqn:Hev. intros [= <- <-].
  apply evict_exact in Hev as [-> Hev]. rewrite newest_all in * by apply Hs. split; [done|].
  intros n i Hn Hf. cbn [cache set_cache store_dir] in *.
  pose proof (remove_result (store_dir s) evicted d1) as [Hrm _]. eapply Hcomp; [done|].
  destruct (shrinks_files _ _ _ _ Hrm n) as [Heq|[_ Hno]]; [|rewrite Hno in Hf; by destruct Hf].
  rewrite Heq in Hf. destruct (shrinks_files _ _ _ _ Hsh n) as [Hsame|[Hno _]]; [|congruence].
  rewrite Hsame in Hf. exact Hf.
Qed.

End quiet_disk.

End invariant.

(** ** The life of a store *)

(** A checkpoint is written, a rewind drops checkpoints, the store is opened again by a new
    process. *)
Inductive StoreEvent := PersistEvent (c : RewindCheckpoint) | TruncateEvent (target : nat) | ReopenEvent.

Definition store_step (sd : CheckpointStore * Disk) (e : StoreEvent) : CheckpointStore * Disk :=
  let '(s, d) := sd in
  match e with
  | PersistEvent c => persist pid c s d
  | TruncateEvent target => truncate_store target s d
  | ReopenEvent =>
      let d := mkDisk (directories d) (disk_ops d) 0 in
      let '(m, d) := load_capped_from_disk (store_dir s) (cap s) d in (set_cache m s, d)
  end.
Definition store_run (es : list StoreEvent) (sd : CheckpointStore * Disk) : CheckpointStore * Disk :=
  foldl store_step sd es.

(** A store over a directory without checkpoints. *)
Definition fresh (s : CheckpointStore) (d : Disk) : Prop :=
  cache s = ∅ ∧ (0 <= tmp_write_seq d)%Z
  ∧ ∀ n i, parse_checkpoint_index n = Some i → file_in (store_dir s) n d = None.

(** What is asked of the checkpoints: their index fits in 64 bits, and what [serde_json]
    writes of them it reads back. *)
Definition readable (es : list StoreEvent) : Prop :=
  ∀ c, PersistEvent c ∈ es → (Z.of_nat (cp_prompt_index c) <= u64_max)%Z
    ∧ ∀ v, to_vec c = Some v → from_slice v = Some c.

(** The specification: a map that keeps the newest entries. *)
Definition spec_store_step (cap : nat) (m : gmap nat RewindCheckpoint) (e : StoreEvent)
    : gmap nat RewindCheckpoint :=
  match e with
  | PersistEvent c => newest cap (<[cp_prompt_index c := c]> m)
  | TruncateEvent target => retain_below target m
  | ReopenEvent => m
  end.

Lemma fresh_sound P s d : fresh s d → sound P s d ∧ complete s d.
Proof.
  intros (Hc & Hseq & Hf). split.
  - split; rewrite ?Hc; [|by intros i c Hi%lookup_empty_Some|rewrite map_size_empty; lia|done].
    intros n i v Hn Hv. rewrite (Hf n i Hn) in Hv. done.
  - intros n i Hn Hv. rewrite (Hf n i Hn) in Hv. by destruct Hv.
Qed.

Section life.
Context (all : list StoreEvent) (Hall : readable all).

#[local] Notation P := (λ c, PersistEvent c ∈ all).

Lemma all_bound c : P c → (Z.of_nat (cp_prompt_index c) <= u64_max)%Z.
Proof. intros Hc. by apply Hall. Qed.
Lemma all_read c v : P c → to_vec c = Some v → from_slice v = Some c.
Proof. intros Hc. by apply Hall. Qed.

Lemma reset_sound s d : sound P s d → sound P s (mkDisk (directories d) (disk_ops d) 0).
Proof. intros Hs. eapply sound_quiet; [apply all_bound|done|done|done]. Qed.

Lemma step_sound e s d s' d' :
  e ∈ all → sound P s d → store_step (s, d) e = (s', d') →
  sound P s' d' ∧ store_dir s' = store_dir s ∧ cap s' = cap s.
Proof.
  intros He Hs. destruct e as [c|target|]; cbn [store_step].
  - by apply persist_sound; [apply all_bound|..].
  - by apply (truncate_sound P all_bound).
  - destruct (load_capped_from_disk _ _ _) as [m d1] eqn:Hl. intros [= <- <-]. split; [|done].
    eapply (load_sound P all_read); [apply reset_sound, Hs|exact Hl].
Qed.

Lemma run_sound es s d :
  (∀ e, e ∈ es → e ∈ all) → sound P s d →
  let '(s', d') := store_run es (s, d) in sound P s' d' ∧ store_dir s' = store_dir s ∧ cap s' = cap s.
Proof.
  revert s d. induction es as [|e es IH]; intros s d Hes Hs; [done|]. cbn [store_run foldl].
  destruct (store_step (s, d) e) as [s1 d1] eqn:He.
  destruct (step_sound e s d s1 d1) as (Hs1 & Hdir & Hcap); [apply Hes; by left|done..|].
  specialize (IH s1 d1 ltac:(intros; apply Hes; by right) Hs1). unfold store_run in IH.
  destruct (foldl store_step (s1, d1) es) as [s2 d2]. by rewrite <- Hdir, <- Hcap.
Qed.

Lemma run_exact es s d :
  (∀ k o, disk_error k o = None) → (∀ c, P c → is_Some (to_vec c)) →
  (∀ e, e ∈ es → e ∈ all) → sound P s d → complete s d →
  let '(s', d') := store_run es (s, d) in
  cache s' = foldl (spec_store_step (cap s)) (cache s) es ∧ complete s' d'.
Proof.
  intros Hno Hw. revert s d. induction es as [|e es IH]; intros s d Hes Hs Hc; [done|]. cbn [store_run foldl].
  destruct (store_step (s, d) e) as [s1 d1] eqn:He.
  assert (e ∈ all) as Hin by (apply Hes; by left).
  destruct (step_sound e s d s1 d1 Hin Hs He) as (Hs1 & _ & Hcap).
  assert (cache s1 = spec_store_step (cap s) (cache s) e ∧ complete s1 d1) as [Hcache Hc1].
  { destruct e as [c|target|]; cbn [store_step spec_store_step] in *.
    - eapply (persist_exact _ all_bound); done.
    - eapply (truncate_exact P); done.
    - destruct (load_capped_from_disk _ _ _) as [m d2] eqn:Hl. injection He as <- <-.
      eapply (load_exact _ all_bound all_read) in Hl as [-> Hl]; [|done|by apply reset_sound|done].
      by destruct s. }
  specialize (IH s1 d1 ltac:(intros; apply Hes; by right) Hs1 Hc1). unfold store_run in IH.
  rewrite Hcache, Hcap in IH. exact IH.
Qed.

End life.

(** C9: whatever operations fail, all of them from some point on included, as when the process
    dies: a file with the name of a checkpoint is the whole text of a checkpoint that was
    written under this index, never a part of one; every checkpoint in memory has its file;
    and there are never more than the cap. *)
Theorem store_survives_failures es s d s' d' :
  fresh s d → readable es → store_run es (s, d) = (s', d') →
  (∀ n i v, parse_checkpoint_index n = Some i → file_in (store_dir s) n d' = Some v →
     n = checkpoint_file_name i ∧ ∃ c, PersistEvent c ∈ es ∧ cp_prompt_index c = i ∧ to_vec c = Some v)
  ∧ (∀ i c, cache s' !! i = Some c →
     cp_prompt_index c = i ∧ ∃ v, to_vec c = Some v ∧ file_in (store_dir s) (checkpoint_file_name i) d' = Some v)
  ∧ size (cache s') <= cap s.
Proof.
  intros Hf Hes Hrun. pose proof (run_sound es Hes es s d ltac:(done) (proj1 (fresh_sound _ _ _ Hf))) as Hs.
  rewrite Hrun in Hs. destruct Hs as (Hs & Hdir & Hcap). rewrite <- Hdir, <- Hcap. split_and!.
  - intros n i v Hn Hv. destruct (sound_files _ _ _ Hs n i v Hn Hv) as (-> & c & Hc). eauto.
  - intros i c Hc. destruct (sound_cache _ _ _ Hs i c Hc) as (_ & Hi & Hv). eauto.
  - apply Hs.
Qed.

(** Without failures the store is the map that keeps the newest entries: after every
    course of events the memory holds what the specification holds, the files are those of
    the entries, and a process that opens the store again finds the same entries. *)
Theorem store_refines es s d s' d' :
  (∀ k o, disk_error k o = None) → fresh s d → readable es →
  (∀ c, PersistEvent c ∈ es → is_Some (to_vec c)) → store_run es (s, d) = (s', d') →
  let m := foldl (spec_store_step (cap s)) ∅ es in
  cache s' = m
  ∧ (∀ i, (Z.of_nat i <= u64_max)%Z → file_in (store_dir s) (checkpoint_file_name i) d' = m !! i ≫= to_vec)
  ∧ (load_capped_from_disk (store_dir s) (cap s) d').1 = m.
Proof.
  intros Hno Hf Hes Hw Hrun m. destruct (fresh_sound (λ c, PersistEvent c ∈ es) _ _ Hf) as [Hs0 Hc0].
  pose proof (run_sound es Hes es s d ltac:(done) Hs0) as Hs.
  pose proof (run_exact es Hes es s d Hno Hw ltac:(done) Hs0 Hc0) as Hx.
  rewrite Hrun in Hs, Hx. destruct Hs as (Hs & Hdir & Hcap). destruct Hx as [Hcache Hc].
  rewrite (proj1 Hf) in Hcache. fold m in Hcache. split_and!; [done|..].
  - intros i Hi. rewrite <- Hcache, <- Hdir. destruct (cache s' !! i) as [c|] eqn:Hci; cbn [mbind option_bind].
    + destruct (sound_cache _ _ _ Hs i c Hci) as (_ & _ & v & -> & ->). done.
    + eapply complete_none; [done..|by apply parse_checkpoint_name|done].
  - rewrite <- Hdir, <- Hcap. destruct (load_capped_from_disk _ _ d') as [m' d2] eqn:Hl. cbn.
    eapply (load_exact _ (all_bound _ Hes) (all_read _ Hes)) in Hl as [-> _]; done.
Qed.

End disk.

(** ** The directory of a session *)

(** A byte that cannot lead out of a directory. *)
Definition harmless (c : ascii) : Prop := is_alnum c = true ∨ c = "-"%char ∨ c = "_"%char.

Lemma harmless_not_sep c : harmless c → c ≠ SEP ∧ c ≠ "."%char.
Proof. by intros [Hc|[->| ->]]; [split; intros ->|..]. Qed.

Lemma safe_char_harmless c : harmless (safe_char c).
Proof.
  destruct c as [|b [|]]; cbn; try by right; right. destruct (_ || _) eqn:Hb; [|by right; right].
  apply orb_true_iff in Hb as [[Hb|Hb%bool_decide_eq_true]%orb_true_iff|Hb%bool_decide_eq_true]; unfold harmless; auto.
Qed.

Lemma hex_digits_harmless n v : Forall harmless (hex_digits n v) ∧ length (hex_digits n v) = n.
Proof.
  revert v. induction n as [|n IH]; intros v; cbn; [done|]. destruct (IH (v / 16)%Z) as [Hd Hl].
  split; [|rewrite length_app, Hl; cbn; lia]. apply Forall_app. split; [done|]. constructor; [|done].
  left. assert (0 <= v mod 16 < 16)%Z as Hb by (apply Z.mod_pos_bound; lia).
  generalize dependent (v mod 16)%Z. intros d Hb.
  assert (d = 0 ∨ d = 1 ∨ d = 2 ∨ d = 3 ∨ d = 4 ∨ d = 5 ∨ d = 6 ∨ d = 7 ∨ d = 8 ∨ d = 9 ∨ d = 10 ∨ d = 11
    ∨ d = 12 ∨ d = 13 ∨ d = 14 ∨ d = 15)%Z as Hd' by lia.
  by repeat destruct Hd' as [-> | Hd']; [..|subst].
Qed.

(** Whatever text a client names its session by, the store is one directory directly under
    the root, with a name of at most 65 bytes: no identifier leads to another place. *)
Theorem session_dir_confined root session_id :
  is_absolute root = true → clean root = true →
  let name := session_store_dir_name session_id in
  components (path_join root name) = components root ++ [name]
  ∧ name ≠ PARENT_DIR ∧ length name <= 65.
Proof.
  intros Hr Hc name.
  assert (Forall harmless name) as Hname.
  { unfold name, session_store_dir_name. rewrite !Forall_app. split_and!.
    - apply Forall_take, Forall_fmap, Forall_forall. intros c _. apply safe_char_harmless.
    - by repeat constructor; right; left.
    - apply hex_digits_harmless. }
  assert (name ≠ [] ∧ "-"%char ∈ name) as [Hne Hdash].
  { unfold name, session_store_dir_name. split; [by destruct (take _ _)|]. rewrite !elem_of_app. right. left. by left. }
  assert (is_name name) as Hn.
  { split_and!; [done|intros Heq; rewrite Heq in Hname; apply Forall_cons in Hname as [Hh _]|].
    - by apply harmless_not_sep in Hh as [_ Hh].
    - intros Hsep. rewrite Forall_forall in Hname. by apply Hname, harmless_not_sep in Hsep as [? _]. }
  split_and!.
  - pose proof (components_to_absolute root [name] Hr Hc ltac:(by constructor) ltac:(done)) as Hcomp.
    unfold to_absolute in Hcomp. rewrite path_text_names in Hcomp by (by constructor). exact Hcomp.
  - intros Heq. rewrite Heq in Hname. apply Forall_cons in Hname as [Hh _]. by apply harmless_not_sep in Hh as [_ Hh].
  - unfold name, session_store_dir_name. rewrite !length_app, length_take.
    rewrite (proj2 (hex_digits_harmless _ _)). cbn [length txt String.list_ascii_of_string]. unfold PREFIX_MAX. lia.
Qed.

Lemma session_dir_confined_witness :
  components (path_join (txt "/w/store") (session_store_dir_name (txt "../../etc")))
  = [ROOT; txt "w"; txt "store"; session_store_dir_name (txt "../../etc")]
  ∧ length (session_store_dir_name (txt "../../etc")) <= 65.
Proof.
  destruct (session_dir_confined (txt "/w/store") (txt "../../etc") eq_refl eq_refl) as (Hc & _ & Hl).
  split; [exact Hc|exact Hl].
Defined.

(** ** Concrete stores *)

Definition demo_point (i : nat) : RewindCheckpoint := mkCheckpoint i (RewindPoint_new i 0) None.

#[local] Instance braces : CheckpointSerde :=
  {| to_vec c := Some (txt "{" ++ show_Z (Z.of_nat (cp_prompt_index c)) ++ txt "}");
     from_slice v := s ← text_strip_prefix (txt "{") v; s ← text_strip_suffix (txt "}") s;
                     n ← parse_uint u64_max s; Some (demo_point (Z.to_nat n)) |}.
#[local] Instance listed_order : HashOrder := {| hash_order A l := l |}.
#[local] Instance listed_order_perm : HashOrderPerm.
Proof. split. done. Qed.
Definition sound_disk : DiskErrors := {| disk_error _ _ := None; written_part _ s := s |}.

(** From the k-th operation on everything fails, and a write leaves one byte. *)
Definition dying (k : nat) : DiskErrors :=
  {| disk_error n _ := if n <? k then None else Some OtherKind; written_part _ s := take 1 s |}.

Definition demo_store : CheckpointStore := mkStore (txt "/w/store") (txt "/w/store/s") 2 ∅.
Definition demo_disk : Disk := mkDisk ∅ 0 0.
Definition demo_events : list StoreEvent :=
  [PersistEvent (demo_point 5); PersistEvent (demo_point 10); PersistEvent (demo_point 3);
   PersistEvent (demo_point 11); TruncateEvent 11; ReopenEvent; PersistEvent (demo_point 7)].

Lemma demo_fresh : fresh demo_store demo_disk.
Proof. split_and!; [done..|]. intros n i _. unfold file_in. cbn. by rewrite lookup_empty. Qed.

Lemma demo_readable (indices : list nat) es :
  (∀ c, PersistEvent c ∈ es → ∃ i, c = demo_point i ∧ i ∈ indices) → Forall (λ i, (Z.of_nat i <= u64_max)%Z) indices →
  readable es.
Proof.
  intros Hes Hall c Hc. destruct (Hes c Hc) as (i & -> & Hi). rewrite Forall_forall in Hall. specialize (Hall i Hi).
  split; [done|]. intros v [= <-]. cbn [from_slice braces].
  change (text_strip_prefix _ _) with (Some (show_Z (Z.of_nat i) ++ txt "}")). cbn [mbind option_bind].
  rewrite (text_strip_suffix_app (txt "}")). cbn [mbind option_bind cp_prompt_index demo_point].
  rewrite parse_show by done. cbn. by rewrite Nat2Z.id.
Qed.

Lemma demo_events_readable : readable demo_events.
Proof.
  apply (demo_readable [5; 10; 3; 11; 7]); [|by repeat constructor].
  intros c Hc. unfold demo_events in Hc.
  repeat (apply elem_of_cons in Hc as [Heq|Hc]; [first [discriminate Heq|injection Heq as ->; eexists; split; [reflexivity|repeat constructor]]|]).
  by apply elem_of_nil in Hc.
Qed.

(** The store keeps two: 3 is below the window, 5 gives way to 11, the rewind drops 11. *)
Lemma store_refines_witness :
  let '(s, d) := store_run (H0 := sound_disk) 4242 demo_events (demo_store, demo_disk) in
  (map_to_list (cache s)).*1 = [10; 7]
  ∧ (load_capped_from_disk (H0 := sound_disk) (txt "/w/store/s") 2 d).1 = cache s.
Proof.
  destruct (store_run (H0 := sound_disk) 4242 demo_events (demo_store, demo_disk)) as [s d] eqn:Hrun.
  destruct (store_refines (H0 := sound_disk) 4242 demo_events demo_store demo_disk s d) as (Hc & _ & Hl);
    [done|apply demo_fresh|apply demo_events_readable|intros c _; by eexists|exact Hrun|].
  split; [|by rewrite Hc]. rewrite Hc. by vm_compute.
Defined.

(** The process dies while it writes the temporary file of the second checkpoint: the
    next one finds the first whole. *)
Lemma store_survives_failures_witness :
  let '(s, d) := store_run (H0 := dying 11) 4242 [PersistEvent (demo_point 5); PersistEvent (demo_point 6)]
                   (demo_store, demo_disk) in
  (∀ n i v, parse_checkpoint_index n = Some i → file_in (txt "/w/store/s") n d = Some v →
     n = checkpoint_file_name i ∧ ∃ c, cp_prompt_index c = i ∧ to_vec c = Some v)
  ∧ file_in (txt "/w/store/s") (txt "checkpoint-6.json.tmp.4242.1") d = Some (txt "{")
  ∧ (map_to_list (load_capped_from_disk (H0 := sound_disk) (txt "/w/store/s") 2 d).1).*1 = [5].
Proof.
  destruct (store_run (H0 := dying 11) 4242 [PersistEvent (demo_point 5); PersistEvent (demo_point 6)]
    (demo_store, demo_disk)) as [s d] eqn:Hrun.
  destruct (store_survives_failures (H0 := dying 11) 4242 [PersistEvent (demo_point 5); PersistEvent (demo_point 6)]
    demo_store demo_disk s d demo_fresh) as (Hfiles & _); [|exact Hrun|].
  - apply (demo_readable [5; 6]); [|by repeat constructor].
    intros c Hc. repeat (apply elem_of_cons in Hc as [Heq|Hc]; [injection Heq as ->; eexists; split; [reflexivity|repeat constructor]|]).
    destruct (proj1 (elem_of_nil _) Hc).
  - split_and!.
    + intros n i v Hn Hv. destruct (Hfiles n i v Hn Hv) as (Hname & c & _ & Hc). eauto.
    + change d with (s, d).2. rewrite <- Hrun. by vm_compute.
    + change d with (s, d).2. rewrite <- Hrun. by vm_compute.
Defined.
