(* ===== verification/Checkpoints.v ===== *)
(** * Checkpoints of a session

    [ds-workspace/src/session/checkpoint.rs]: what the beginning and the end of a prompt
    and a rewind do to the rewind points, the hunk tracker, the git state and the
    checkpoint store of a session; of [ds-workspace/src/session/git.rs] the git state and
    its soft restore.  The git program is the class [Git]; a function that runs commands
    is in a state monad over the repository, the files and the commands so far.  The hunk
    tracker handles the commands that it is sent before anything else happens. *)

From S2P Require Import HunkTypes HunkDiff Tracker TrackerActions TrackerQueries TrackerTheorems.
From S2P Require Import Prelude Text TextProps Utf8 Json Paths ToolFs FileState FileStateProps RewindSerial CheckpointStore.

Open Scope nat_scope.

(** ** git.rs: commands *)

(** What a process leaves: whether it succeeded, and its two outputs. *)
Record GitOutput := mkOutput { status_success : bool; stdout : text; stderr : text }.

(** The git program over a repository; the errors of starting it; the library that reads
    the commit of HEAD; whether a path exists; the text of the time. *)
Class Git := {
  Repo : Type;
  git_run : text → list text → Repo → World → (text + GitOutput) * Repo * World;
  head_commit : text → Repo → World → option text;
  git_dir_has : text → text → Repo → World → bool;
  utc_now : text;
}.

Section git.
Context `{Git}.

(** The state: the repository, the files, and the arguments of the commands that have run
    with their success. *)
Record GitState := mkGitState { repo : Repo; git_world : World; commands : list (list text * bool) }.

Definition GitM (A : Type) : Type := GitState → A * GitState.
#[export] Instance GitM_ret : MRet GitM := λ A a s, (a, s).
#[export] Instance GitM_bind : MBind GitM := λ A B f m s, let '(a, s) := m s in f a s.

(** [git_cli]: the trimmed output or the message of the failure. *)
Definition git_cli (cwd : text) (args : list text) : GitM (text + text) := λ s,
  let '(r, repo, w) := git_run cwd args (repo s) (git_world s) in
  let result :=
    match r with
    | inl e => inl e
    | inr o =>
        if status_success o then inr (trim (from_utf8_lossy (stdout o)))
        else let err := trim (from_utf8_lossy (stderr o)) in
             inl (if bool_decide (err = []) then txt "git command failed" else err)
    end in
  (result, mkGitState repo w (commands s ++ [(args, match result with inr _ => true | inl _ => false end)])).

Definition is_ok {E A} (r : E + A) : bool := match r with inr _ => true | inl _ => false end.

(** ** git.rs: the git state of a prompt *)

Record GitStateRef := mkGitRef { head : text; staged : list text }.

Definition resolve_git_root (cwd : text) : GitM (option text) :=
  out ← git_cli cwd [txt "rev-parse"; txt "--show-toplevel"];
  mret (match out with
        | inl _ => None
        | inr out => let root := trim out in if bool_decide (root = []) then None else Some root
        end).

Definition NUL : ascii := "000"%char.

Definition staged_paths (git_root : text) : GitM (option (list text)) :=
  out ← git_cli git_root [txt "diff"; txt "--cached"; txt "--name-only"; txt "-z"];
  mret (match out with
        | inl _ => None
        | inr out => Some (filter_b (λ s, negb (bool_decide (s = []))) (split_on NUL out))
        end).

Definition get_current_commit (git_root : text) : GitM (option text) := λ s,
  (head_commit git_root (repo s) (git_world s), s).

Definition capture_git_state (cwd : text) : GitM (option GitStateRef) :=
  root ← resolve_git_root cwd;
  match root with
  | None => mret None
  | Some root =>
      head ← get_current_commit root;
      match head with
      | None => mret None
      | Some head =>
          staged ← staged_paths root;
          mret (match staged with None => None | Some staged => Some (mkGitRef head staged) end)
      end
  end.

(** ** git.rs: the soft restore *)

Inductive StashOutcome := Clean | Stashed (stash_ref : text) | Skipped (reason : text).

Definition IN_PROGRESS_STATE_FILES : list text :=
  [txt "MERGE_HEAD"; txt "CHERRY_PICK_HEAD"; txt "REVERT_HEAD"; txt "REBASE_HEAD"; txt "BISECT_LOG"].

Definition in_progress_state_reason (git_root : text) : GitM (option text) := λ s,
  ((λ name, txt "in-progress " ++ name ++ txt " — refusing to stash to preserve operation state")
   <$> find_b (λ name, git_dir_has git_root name (repo s) (git_world s)) IN_PROGRESS_STATE_FILES, s).

Definition stash_before_destructive_op (git_root label session_id : text) : GitM StashOutcome :=
  dirty ← git_cli git_root [txt "status"; txt "--porcelain"];
  let dirty := match dirty with inr out => out | inl _ => [] end in
  if bool_decide (trim dirty = []) then mret Clean
  else
    reason ← in_progress_state_reason git_root;
    match reason with
    | Some reason => mret (Skipped reason)
    | None =>
        let message := txt "ds: pre-" ++ label ++ txt " " ++ session_id ++ txt " " ++ utc_now in
        pushed ← git_cli git_root [txt "stash"; txt "push"; txt "--include-untracked"; txt "-m"; message];
        match pushed with
        | inl e => mret (Skipped (txt "git stash failed: " ++ e))
        | inr _ =>
            sha ← git_cli git_root [txt "rev-parse"; txt "stash@{0}"];
            mret (match sha with
                  | inr s => if bool_decide (trim s = [])
                             then Skipped (txt "git rev-parse stash@{0} returned empty or failed")
                             else Stashed (trim s)
                  | inl _ => Skipped (txt "git rev-parse stash@{0} returned empty or failed")
                  end)
        end
    end.

Record GitRestoreOutcome := mkOutcome {
  restored : bool;
  index_reset : bool;
  aborted_reason : option text;
  stash_ref : option text;
}.

Definition soft_restore_git_state (cwd : text) (git_ref : GitStateRef) (session_id : text) : GitM GitRestoreOutcome :=
  root ← resolve_git_root cwd;
  match root with
  | None => mret (mkOutcome false false (Some (txt "could not resolve git repo root")) None)
  | Some git_root =>
      stash ← stash_before_destructive_op git_root (txt "rewind-git") session_id;
      match stash with
      | Skipped reason => mret (mkOutcome false false (Some reason) None)
      | _ =>
          let stash_ref := match stash with Stashed r => Some r | _ => None end in
          reset ← git_cli git_root [txt "reset"; txt "--soft"; head git_ref];
          match reset with
          | inl e =>
              stash_ref ← match stash_ref with
                          | None => mret None
                          | Some stash =>
                              popped ← git_cli git_root [txt "stash"; txt "pop"];
                              mret (if is_ok popped then None else Some stash)
                          end;
              mret (mkOutcome false false (Some (txt "reset --soft failed: " ++ e)) stash_ref)
          | inr _ =>
              unstaged ← git_cli git_root [txt "reset"; txt "--quiet"; txt "--"; txt "."];
              mret (mkOutcome true (is_ok unstaged) None stash_ref)
          end
      end
  end.

(** The loop of [restage_git_paths]: how many paths could not be added. *)
Fixpoint add_each (git_root : text) (paths : list text) : GitM nat :=
  match paths with
  | [] => mret 0
  | p :: paths =>
      added ← git_cli git_root [txt "add"; txt "--"; from_utf8_lossy p];
      failed ← add_each git_root paths;
      mret (if is_ok added then failed else S failed)
  end.

Definition restage_git_paths (cwd : text) (git_ref : GitStateRef) : GitM bool :=
  if bool_decide (staged git_ref = []) then mret true
  else
    root ← resolve_git_root cwd;
    match root with
    | None => mret false
    | Some git_root =>
        all ← git_cli git_root (txt "add" :: txt "--" :: (from_utf8_lossy <$> staged git_ref));
        if is_ok all then mret true
        else failed ← add_each git_root (staged git_ref); mret (failed =? 0)
    end.

End git.

(** [GitCheckpointStore]. *)
Record GitCheckpointStore := mkGitStore {
  by_prompt : gmap nat GitStateRef;
  attempted : gset nat;
}.

Definition git_record (i : nat) (state : GitStateRef) (st : GitCheckpointStore) : GitCheckpointStore :=
  mkGitStore (or_insert i state (by_prompt st)) (attempted st).
Definition claim_attempt (i : nat) (st : GitCheckpointStore) : bool * GitCheckpointStore :=
  (bool_decide (i ∉ attempted st), mkGitStore (by_prompt st) ({[i]} ∪ attempted st)).
Definition get_at_or_before (target : nat) (st : GitCheckpointStore) : option (nat * GitStateRef) :=
  max_by_key fst (filter_b (λ x, x.1 <=? target) (map_to_list (by_prompt st))).
Definition git_truncate_from (i : nat) (st : GitCheckpointStore) : GitCheckpointStore :=
  mkGitStore (retain_below i (by_prompt st)) (base.filter (λ j, j < i) (attempted st)).

(** ** checkpoint.rs: the session *)

(** The flags from the environment and the configuration of the workspace. *)
Record Flags := mkFlags {
  git_rewind_enabled : bool;
  rewind_hunks_enabled : bool;
  rewind_durable_enabled : bool;
  workspace_rewind_all_outcomes : bool;
}.

Record WorkspaceSession := mkSession {
  session_cwd : text;
  file_state_tracker : FileStateTracker;
  hunk_tracker : Actor;
  hunk_checkpoints : gmap nat HunkTurnDelta;
  git_checkpoints : GitCheckpointStore;
  checkpoint_store : CheckpointStore;
}.

Definition set_tracker (tr : FileStateTracker) (s : WorkspaceSession) : WorkspaceSession :=
  mkSession (session_cwd s) tr (hunk_tracker s) (hunk_checkpoints s) (git_checkpoints s) (checkpoint_store s).
Definition set_hunks (a : Actor) (m : gmap nat HunkTurnDelta) (s : WorkspaceSession) : WorkspaceSession :=
  mkSession (session_cwd s) (file_state_tracker s) a m (git_checkpoints s) (checkpoint_store s).
Definition set_git (g : GitCheckpointStore) (s : WorkspaceSession) : WorkspaceSession :=
  mkSession (session_cwd s) (file_state_tracker s) (hunk_tracker s) (hunk_checkpoints s) g (checkpoint_store s).
Definition set_store (c : CheckpointStore) (s : WorkspaceSession) : WorkspaceSession :=
  mkSession (session_cwd s) (file_state_tracker s) (hunk_tracker s) (hunk_checkpoints s) (git_checkpoints s) c.

(** [capture_hunk_delta]: whether a delta was stored. *)
Definition capture_hunk_delta (i : nat) (s : WorkspaceSession) : bool * WorkspaceSession :=
  let delta := take_turn_delta (hunk_tracker s) i in
  if bool_decide (delta_file_states delta = ∅) then (false, s)
  else (true, set_hunks (hunk_tracker s) (<[i := delta]> (hunk_checkpoints s)) s).

(** The deltas of the prompts in order: the last state of each file, and the hunks of each
    turn. *)
Definition compose_step (store : gmap nat HunkTurnDelta)
    (acc : gmap Path FileHunkStateSnapshot * gmap nat (gset HunkId)) (i : nat)
    : gmap Path FileHunkStateSnapshot * gmap nat (gset HunkId) :=
  match store !! i with
  | Some delta => (delta_file_states delta ∪ acc.1, <[i := delta_hunk_ids delta]> acc.2)
  | None => acc
  end.

(** The identifiers of the hunks in the states of the files. *)
Definition present_ids (m : gmap Path FileHunkStateSnapshot) : gset HunkId :=
  list_to_set (hunk_id <$> ((map_to_list m).*2 ≫= snap_hunks)).

(** [turn_index.retain(..)]. *)
Definition retain_present (present : gset HunkId) (ti : gmap nat (gset HunkId)) : gmap nat (gset HunkId) :=
  base.filter (λ x, x.2 ≠ ∅) ((λ ids, ids ∩ present) <$> ti).

Definition restore_hunk_checkpoints (target : nat) (s : WorkspaceSession) : WorkspaceSession :=
  let store := hunk_checkpoints s in
  if bool_decide (store = ∅) then s
  else
    let prompts := sort_by_key id (filter_b (λ i, i <? target) (map_to_list store).*1) in
    if bool_decide (prompts = []) && (0 <? target) then s
    else
      let '(file_states, turn_index) := foldl (compose_step store) (∅, ∅) prompts in
      let turn_index := retain_present (present_ids file_states) turn_index in
      let stats := sum_stats (compute_session_summary (hunk_tracker s)) in
      set_hunks (restore_snapshot (mkSnapshot file_states turn_index stats) (hunk_tracker s))
        (retain_below target store) s.

Definition get_checkpoint (i : nat) (s : WorkspaceSession) : option RewindCheckpoint :=
  fs ← get_rewind_point i (file_state_tracker s);
  Some (mkCheckpoint i fs (hunk_checkpoints s !! i)).

(** What a step of a session works on: the repository with the files, and the disk of the
    checkpoint store. *)
Section turns.
Context `{Git, FsErrors, RewindSerde, CheckpointSerde, DiskErrors, HashOrder}.
Context (flags : Flags) (fs_root : text) (pid : Z).

Record Machine := mkMachine { machine_git : GitState; machine_disk : Disk }.

Definition set_world (w : World) (m : Machine) : Machine :=
  mkMachine (mkGitState (repo (machine_git m)) w (commands (machine_git m))) (machine_disk m).
Definition machine_world (m : Machine) : World := git_world (machine_git m).

Definition persist_checkpoint (i : nat) (s : WorkspaceSession) (d : Disk) : WorkspaceSession * Disk :=
  match get_checkpoint i s with
  | None => (s, d)
  | Some c => let '(store, d) := persist pid c (checkpoint_store s) d in (set_store store s, d)
  end.

(** The arms of [on_turn_boundary]: the RPCs at the beginning and the end of a prompt, and
    the hook at the end of a turn with whether its outcome was [Completed].  [t] and [ts]
    are the instants of the point and of its snapshots. *)
Inductive TurnBoundary :=
| RewindBegin (i : nat) (t : Z)
| RewindFinalize (i : nat) (ts : nat → Z)
| TurnHookStart
| TurnHookEnd (completed : bool) (ts : nat → Z).

Definition begin_boundary (i : nat) (t : Z) (s : WorkspaceSession) (m : Machine) : WorkspaceSession * Machine :=
  let s := set_tracker (begin_prompt i t (file_state_tracker s)) s in
  if git_rewind_enabled flags then
    let '(state, g) := capture_git_state (session_cwd s) (machine_git m) in
    (match state with
     | Some state => set_git (git_record i state (git_checkpoints s)) s
     | None => s
     end, mkMachine g (machine_disk m))
  else (s, m).

Definition finalize (i : nat) (ts : nat → Z) (s : WorkspaceSession) (m : Machine) : WorkspaceSession * Machine :=
  let '(tr, w) := end_prompt fs_root i ts (file_state_tracker s) (machine_world m) in
  let s := set_tracker tr s in
  let m := set_world w m in
  let s := if rewind_hunks_enabled flags then (capture_hunk_delta i s).2 else s in
  if rewind_durable_enabled flags then
    let '(s, d) := persist_checkpoint i s (machine_disk m) in (s, mkMachine (machine_git m) d)
  else (s, m).

Definition on_turn_boundary (b : TurnBoundary) (s : WorkspaceSession) (m : Machine) : WorkspaceSession * Machine :=
  match b with
  | RewindBegin i t => begin_boundary i t s m
  | RewindFinalize i ts => finalize i ts s m
  | TurnHookStart => (s, m)
  | TurnHookEnd completed ts =>
      if workspace_rewind_all_outcomes flags && negb completed then
        match current_prompt_index (file_state_tracker s) with
        | Some i => finalize i ts s m
        | None => (s, m)
        end
      else (s, m)
  end.

(** [restore_git_checkpoint]. *)
Definition restore_git_checkpoint (session_id : text) (target : nat) (s : WorkspaceSession) (m : Machine)
    : option (GitRestoreOutcome * GitStateRef) * Machine :=
  if git_rewind_enabled flags then
    match get_at_or_before target (git_checkpoints s) with
    | None => (None, m)
    | Some (_, state) =>
        let '(outcome, g) := soft_restore_git_state (session_cwd s) state session_id (machine_git m) in
        (Some (outcome, state), mkMachine g (machine_disk m))
    end
  else (None, m).

(** The response for a session that does not exist. *)
Definition session_not_found (session_id : text) (target : nat) : FileRewindResponse :=
  mkResponse false target [] [] [] (Some (txt "workspace session not found: " ++ session_id)).

(** After the files have been reverted. *)
Definition rewind_domains (target : nat) (git_restore : option (GitRestoreOutcome * GitStateRef))
    (s : WorkspaceSession) (m : Machine) : WorkspaceSession * Machine :=
  let '(s, m) :=
    match git_restore with
    | Some (outcome, state) =>
        if restored outcome then
          let '(_, g) := restage_git_paths (session_cwd s) state (machine_git m) in
          (set_git (git_truncate_from target (git_checkpoints s)) s, mkMachine g (machine_disk m))
        else (s, m)
    | None => (s, m)
    end in
  (if rewind_hunks_enabled flags then restore_hunk_checkpoints target s else s, m).

Definition rewind_to (session_id : text) (target : nat) (session : option WorkspaceSession) (m : Machine)
    : FileRewindResponse * option WorkspaceSession * Machine :=
  match session with
  | None => (session_not_found session_id target, None, m)
  | Some s =>
      let '(git_restore, m) := restore_git_checkpoint session_id target s m in
      let '(response, tr, w) := rewind_files fs_root target (file_state_tracker s) (machine_world m) in
      let s := set_tracker tr s in
      let m := set_world w m in
      let '(s, m) := if success response then rewind_domains target git_restore s m else (s, m) in
      let '(s, m) :=
        if success response && rewind_durable_enabled flags then
          let '(store, d) := truncate_store target (checkpoint_store s) (machine_disk m) in
          (set_store store s, mkMachine (machine_git m) d)
        else (s, m) in
      (response, Some s, m)
  end.

End turns.

(** ** Hunks *)

(** The prompts of which there is a delta, in order: those of the first [target] numbers. *)
Lemma stored_prompts (store : gmap nat HunkTurnDelta) target :
  sort_by_key id (filter_b (λ i, i <? target) (map_to_list store).*1)
  = filter_b (λ i, bool_decide (is_Some (store !! i))) (seq 0 target).
Proof.
  assert (∀ i, i ∈ (map_to_list store).*1 ↔ is_Some (store !! i)) as Hkeys.
  { intros i. rewrite list_elem_of_fmap. split.
    - intros ([j d] & -> & Hj%elem_of_map_to_list). by eexists.
    - intros [d Hd]. exists (i, d). split; [done|]. by apply elem_of_map_to_list. }
  eapply (StronglySorted_unique (≤)).
  - exact (sort_by_key_sorted id (filter_b (λ i, i <? target) (map_to_list store).*1)).
  - unfold filter_b. generalize 0. induction target as [|n IH]; intros k; [constructor|]. cbn.
    case_bool_decide; [|apply IH]. constructor; [apply IH|].
    apply Forall_forall. intros j [Hj%elem_of_seq _]%elem_of_filter_b. lia.
  - rewrite sort_by_key_Permutation. apply NoDup_Permutation.
    + apply (sublist_NoDup _ _ (NoDup_fst_map_to_list store)), filter_b_sublist.
    + apply (sublist_NoDup _ _ (NoDup_seq 0 target)), filter_b_sublist.
    + intros i. rewrite !elem_of_filter_b, Hkeys, elem_of_seq, Nat.ltb_lt, bool_decide_eq_true.
      split; intros [? ?]; split; done || lia.
Qed.

Lemma compose_stored store l acc :
  foldl (compose_step store) acc (filter_b (λ i, bool_decide (is_Some (store !! i))) l)
  = foldl (compose_step store) acc l.
Proof.
  revert acc. induction l as [|i l IH]; intros acc; [done|]. cbn. case_bool_decide as Hi; [apply IH|].
  rewrite IH. f_equal. unfold compose_step. by apply eq_None_not_Some in Hi as ->.
Qed.

(** The files that have hunks of a turn, as the delta of the turn has them. *)
Lemma delta_lookup a i p snap :
  delta_file_states (take_turn_delta a i) !! p = Some snap →
  ∃ st, file_states a !! p = Some st ∧ snap = snapshot_file_state st.
Proof.
  unfold take_turn_delta. cbn [delta_file_states]. rewrite lookup_fmap. intros (st & Hst & ->)%fmap_Some.
  apply map_lookup_filter_Some in Hst as [Hst _]. eauto.
Qed.

Lemma restore_snapshot_state st : restore_file_state (snapshot_file_state st) = st.
Proof. by destruct st. Qed.

(** The trackers at the ends of the prompts, of which the store has the deltas: outside the
    files with hunks of its own turn each prompt left the tracker as it was. *)
Definition states_before (a : nat → Actor) (i : nat) : gmap Path FileHunkState :=
  match i with 0 => ∅ | S j => file_states (a j) end.

Definition recorded (a : nat → Actor) (n : nat) (store : gmap nat HunkTurnDelta) : Prop :=
  ∀ i, i < n →
    let delta := take_turn_delta (a i) i in
    store !! i = (if bool_decide (delta_file_states delta = ∅) then None else Some delta)
    ∧ ∀ p, delta_file_states delta !! p = None → file_states (a i) !! p = states_before a i !! p.

Lemma composed_states a n store :
  recorded a n store →
  restore_file_state <$> (foldl (compose_step store) (∅, ∅) (seq 0 n)).1 = states_before a n.
Proof.
  induction n as [|n IH]; intros Hrec; [apply fmap_empty|].
  rewrite seq_S, foldl_app. cbn [foldl]. destruct (foldl _ _ (seq 0 n)) as [fs ti] eqn:Hfold.
  cbn [fst] in IH. specialize (IH ltac:(intros i Hi; apply Hrec; lia)).
  destruct (Hrec n ltac:(lia)) as [Hstore Hframe]. unfold compose_step. cbn [states_before Nat.add].
  rewrite Hstore. case_bool_decide as Hempty.
  - cbn [fst]. rewrite IH. apply map_eq. intros p. symmetry. apply Hframe. by rewrite Hempty, lookup_empty.
  - cbn [fst]. apply map_eq. intros p. rewrite lookup_fmap, lookup_union.
    destruct (delta_file_states (take_turn_delta (a n) n) !! p) as [snap|] eqn:Hd.
    + destruct (delta_lookup _ _ _ _ Hd) as (st & -> & ->).
      rewrite union_Some_l. cbn. by rewrite restore_snapshot_state.
    + rewrite (left_id_L None (∪)), <- lookup_fmap, IH. symmetry. by apply Hframe.
Qed.

Lemma present_id m h : h ∈ present_ids m ↔ ∃ p snap, m !! p = Some snap ∧ h ∈ hunk_id <$> snap_hunks snap.
Proof.
  unfold present_ids. rewrite elem_of_list_to_set, list_elem_of_fmap. split.
  - intros (k & -> & (snap & Hk & Hs)%list_elem_of_bind). apply list_elem_of_fmap in Hs as ([p snap'] & -> & Hp%elem_of_map_to_list).
    exists p, snap'. split; [done|]. by apply list_elem_of_fmap_2.
  - intros (p & snap & Hp & (k & -> & Hk)%list_elem_of_fmap). exists k. split; [done|].
    apply list_elem_of_bind. exists snap. split; [done|]. apply list_elem_of_fmap. exists (p, snap).
    split; [done|]. by apply elem_of_map_to_list.
Qed.


(** ** Commands *)

Section commands.
Context `{Git}.

(** A command of git with its directory, its arguments and its result. *)
Notation Ran := (text * list text * (text + text))%type.

(** The commands that lead from one state to another, with the results that git gave. *)
Inductive performed : GitState → list Ran → GitState → Prop :=
| performed_nil g : performed g [] g
| performed_cons g dir args r g1 ran g2 :
    git_cli dir args g = (r, g1) → performed g1 ran g2 → performed g ((dir, args, r) :: ran) g2.

Lemma performed_commands g ran g' :
  performed g ran g' → commands g' = commands g ++ ((λ c : Ran, (c.1.2, is_ok c.2)) <$> ran).
Proof.
  induction 1 as [|g dir args r g1 ran g2 Hc _ ->]; [by rewrite app_nil_r|].
  unfold git_cli in Hc. destruct (git_run _ _ _ _) as [[o rp] w]. injection Hc as <- <-. cbn.
  by rewrite <- app_assoc.
Qed.

Definition SHOW_ROOT : list text := [txt "rev-parse"; txt "--show-toplevel"].
Definition STATUS : list text := [txt "status"; txt "--porcelain"].
Definition PUSH (message : text) : list text :=
  [txt "stash"; txt "push"; txt "--include-untracked"; txt "-m"; message].
Definition NAME_STASH : list text := [txt "rev-parse"; txt "stash@{0}"].
Definition MOVE (commit : text) : list text := [txt "reset"; txt "--soft"; commit].
Definition UNSTAGE : list text := [txt "reset"; txt "--quiet"; txt "--"; txt "."].
Definition POP : list text := [txt "stash"; txt "pop"].

(** A command that failed or printed nothing. *)
Definition says_nothing (r : text + text) : Prop := ∀ out, r = inr out → trim out = [].

(** The courses that a soft restore to [commit] takes, with their outcomes. *)
Inductive soft_restore (cwd commit : text) : list Ran → GitRestoreOutcome → Prop :=
| no_root r why : says_nothing r →
    soft_restore cwd commit [(cwd, SHOW_ROOT, r)] (mkOutcome false false (Some why) None)
| refused out dirty why : trim out ≠ [] → trim dirty ≠ [] →
    let root := trim out in
    soft_restore cwd commit [(cwd, SHOW_ROOT, inr out); (root, STATUS, inr dirty)]
      (mkOutcome false false (Some why) None)
| not_stashed out dirty message e why : trim out ≠ [] → trim dirty ≠ [] →
    let root := trim out in
    soft_restore cwd commit [(cwd, SHOW_ROOT, inr out); (root, STATUS, inr dirty); (root, PUSH message, inl e)]
      (mkOutcome false false (Some why) None)
| stash_lost out dirty message pushed r why : trim out ≠ [] → trim dirty ≠ [] → says_nothing r →
    let root := trim out in
    soft_restore cwd commit
      [(cwd, SHOW_ROOT, inr out); (root, STATUS, inr dirty); (root, PUSH message, inr pushed); (root, NAME_STASH, r)]
      (mkOutcome false false (Some why) None)
| clean_kept out r e why : trim out ≠ [] → says_nothing r →
    let root := trim out in
    soft_restore cwd commit [(cwd, SHOW_ROOT, inr out); (root, STATUS, r); (root, MOVE commit, inl e)]
      (mkOutcome false false (Some why) None)
| clean_moved out r moved unstaged : trim out ≠ [] → says_nothing r →
    let root := trim out in
    soft_restore cwd commit
      [(cwd, SHOW_ROOT, inr out); (root, STATUS, r); (root, MOVE commit, inr moved); (root, UNSTAGE, unstaged)]
      (mkOutcome true (is_ok unstaged) None None)
| stashed_kept out dirty message pushed name e popped why :
    trim out ≠ [] → trim dirty ≠ [] → trim name ≠ [] →
    let root := trim out in
    soft_restore cwd commit
      [(cwd, SHOW_ROOT, inr out); (root, STATUS, inr dirty); (root, PUSH message, inr pushed);
       (root, NAME_STASH, inr name); (root, MOVE commit, inl e); (root, POP, popped)]
      (mkOutcome false false (Some why) (if is_ok popped then None else Some (trim name)))
| stashed_moved out dirty message pushed name moved unstaged :
    trim out ≠ [] → trim dirty ≠ [] → trim name ≠ [] →
    let root := trim out in
    soft_restore cwd commit
      [(cwd, SHOW_ROOT, inr out); (root, STATUS, inr dirty); (root, PUSH message, inr pushed);
       (root, NAME_STASH, inr name); (root, MOVE commit, inr moved); (root, UNSTAGE, unstaged)]
      (mkOutcome true (is_ok unstaged) None (Some (trim name))).

(** The end of the restore, behind the stash: [pre] has run. *)
Lemma moves_run cwd git_ref root stash_ref g0 pre g o g' :
  performed g0 pre g →
  (∀ e popped why, soft_restore cwd (head git_ref)
     (pre ++ (root, MOVE (head git_ref), inl e) ::
        match stash_ref with Some _ => [(root, POP, popped)] | None => [] end)
     (mkOutcome false false (Some why)
        match stash_ref with Some st => if is_ok popped then None else Some st | None => None end)) →
  (∀ moved unstaged, soft_restore cwd (head git_ref)
     (pre ++ [(root, MOVE (head git_ref), inr moved); (root, UNSTAGE, unstaged)])
     (mkOutcome true (is_ok unstaged) None stash_ref)) →
  (reset ← git_cli root [txt "reset"; txt "--soft"; head git_ref];
   match reset with
   | inl e =>
       stash_ref ← match stash_ref with
                   | None => mret None
                   | Some stash => popped ← git_cli root [txt "stash"; txt "pop"];
                                   mret (if is_ok popped then None else Some stash)
                   end;
       mret (mkOutcome false false (Some (txt "reset --soft failed: " ++ e)) stash_ref)
   | inr _ => unstaged ← git_cli root [txt "reset"; txt "--quiet"; txt "--"; txt "."];
              mret (mkOutcome true (is_ok unstaged) None stash_ref)
   end) g = (o, g') →
  ∃ ran, performed g0 ran g' ∧ soft_restore cwd (head git_ref) ran o.
Proof.
  intros Hpre Hkept Hmoved. unfold mbind, GitM_bind, mret, GitM_ret.
  assert (∀ l g2, performed g l g2 → performed g0 (pre ++ l) g2) as Happ.
  { clear -Hpre. intros l g2 Hl. induction Hpre as [|g0 dir args r g1 ran g3 Hc _ IH]; [done|].
    econstructor; [done|]. by apply IH. }
  destruct (git_cli root [txt "reset"; txt "--soft"; head git_ref] g) as [[e|moved] g1] eqn:Hm.
  - destruct stash_ref as [st|].
    + destruct (git_cli root [txt "stash"; txt "pop"] g1) as [popped g2] eqn:Hp. intros [= <- <-].
      eexists. split; [|by apply (Hkept e popped)]. apply Happ. repeat (econstructor; [done|]). constructor.
    + intros [= <- <-]. eexists. split; [|by apply (Hkept e (inl []))]. apply Happ.
      repeat (econstructor; [done|]). constructor.
  - destruct (git_cli root [txt "reset"; txt "--quiet"; txt "--"; txt "."] g1) as [unstaged g2] eqn:Hu.
    intros [= <- <-]. eexists. split; [|by apply (Hmoved moved unstaged)]. apply Happ.
    repeat (econstructor; [done|]). constructor.
Qed.

Ltac performs := repeat (eapply performed_cons; [eassumption|]); constructor.

Lemma soft_restore_course cwd git_ref session_id g o g' :
  soft_restore_git_state cwd git_ref session_id g = (o, g') →
  ∃ ran, performed g ran g' ∧ soft_restore cwd (head git_ref) ran o.
Proof.
  unfold soft_restore_git_state, resolve_git_root, stash_before_destructive_op, in_progress_state_reason.
  cbv [mbind GitM_bind mret GitM_ret].
  destruct (git_cli cwd [txt "rev-parse"; txt "--show-toplevel"] g) as [top g1] eqn:Htop.
  assert (∀ w, says_nothing top → (mkOutcome false false (Some w) None, g1) = (o, g') →
    ∃ ran, performed g ran g' ∧ soft_restore cwd (head git_ref) ran o) as Hno.
  { intros w Hs [= <- <-]. eexists. split; [performs|]. by constructor. }
  destruct top as [e|out]; [by apply Hno|]. case_bool_decide as Hout; [apply Hno; by intros ? [= <-]|]. clear Hno.
  set (root := trim out) in *.
  destruct (git_cli root [txt "status"; txt "--porcelain"] g1) as [st g2] eqn:Hst.
  assert (says_nothing st ∨ ∃ dirty, st = inr dirty ∧ trim dirty ≠ []) as [Hclean|(dirty & -> & Hd)].
  { destruct st as [e|d]; [by left|]. destruct (decide (trim d = [])); [left; by intros ? [= <-]|right; eauto]. }
  { rewrite bool_decide_true by (destruct st as [|d]; [done|by apply Hclean]).
    apply (moves_run cwd git_ref root None g [(cwd, SHOW_ROOT, inr out); (root, STATUS, st)]).
    - performs.
    - intros e _ why. by apply clean_kept.
    - intros moved u. by apply clean_moved. }
  rewrite bool_decide_false by done. destruct (find_b _ IN_PROGRESS_STATE_FILES) as [name|]; cbn [fmap option_fmap option_map].
  { intros [= <- <-]. eexists. split; [performs|]. by apply refused. }
  match goal with |- context [git_cli root [txt "stash"; txt "push"; txt "--include-untracked"; txt "-m"; ?m] g2] =>
    destruct (git_cli root [txt "stash"; txt "push"; txt "--include-untracked"; txt "-m"; m] g2) as [[e|pushed] g3] eqn:Hpush end.
  { intros [= <- <-]. eexists. split; [performs|]. by apply not_stashed. }
  destruct (git_cli root [txt "rev-parse"; txt "stash@{0}"] g3) as [nm g4] eqn:Hname.
  assert (∀ w, says_nothing nm → (mkOutcome false false (Some w) None, g4) = (o, g') →
    ∃ ran, performed g ran g' ∧ soft_restore cwd (head git_ref) ran o) as Hlost.
  { intros w Hs [= <- <-]. eexists. split; [performs|]. by apply stash_lost. }
  destruct nm as [e|sha]; [by apply Hlost|]. case_bool_decide as Hsha; [apply Hlost; by intros ? [= <-]|]. clear Hlost.
  eapply (moves_run cwd git_ref root (Some (trim sha)) g
    [(cwd, SHOW_ROOT, inr out); (root, STATUS, inr dirty); (root, PUSH _, inr pushed); (root, NAME_STASH, inr sha)]).
  - performs.
  - intros e popped why. by apply stashed_kept.
  - intros moved u. by apply stashed_moved.
Qed.

(** No command of a soft restore moves HEAD but one. *)
Definition leaves_head (args : list text) : Prop :=
  args = SHOW_ROOT ∨ args = STATUS ∨ args = NAME_STASH ∨ args = UNSTAGE ∨ args = POP ∨ ∃ message, args = PUSH message.


End commands.

(** ** Rewinds of all domains *)

Section rewind_to.
Context `{Git, FsErrors, RewindSerde, CheckpointSerde, DiskErrors, HashOrder}.
Context (flags : Flags) (fs_root : text).

Lemma truncate_cache target s d s' d' :
  truncate_store target s d = (s', d') →
  s' = set_cache (retain_below target (cache s)) s
  ∨ s' = s ∧ is_Some (disk_error (disk_ops d) (ReadDir (store_dir s))).
Proof.
  unfold truncate_store. destruct (directories d !! store_dir s), (disk_error _ _) as [[]|];
    intros [= <- <-]; auto; right; split; (done || by eexists).
Qed.

Lemma truncate_below i tr w tr' w' :
  truncate_from i tr w = (tr', w') → ∀ j, is_Some (rewind_points tr' !! j) → j < i.
Proof.
  unfold truncate_from. destruct (ensure_historical_loaded tr w). intros [= <- <-] j [p Hp].
  by apply map_lookup_filter_Some in Hp as [_ Hp].
Qed.

(** C30: a rewind of all domains, once the git state has been restored or not: the files are
    reverted by [rewind_files].  If that fails, every domain keeps its checkpoints for
    another attempt.  If it succeeds, no rewind point from the target on is left; the
    git checkpoints from the target on are dropped exactly if the git state was restored;
    the hunk tracker is restored if this is enabled; and the store drops the checkpoints,
    unless its directory cannot be read. *)
Theorem rewind_to_exact session_id target s m resp s' m' :
  rewind_to flags fs_root session_id target (Some s) m = (resp, Some s', m') →
  let '(git_restore, m1) := restore_git_checkpoint flags session_id target s m in
  ∃ tr w, rewind_files fs_root target (file_state_tracker s) (machine_world m1) = (resp, tr, w)
  ∧ file_state_tracker s' = tr
  ∧ if success resp
    then (∀ i, is_Some (rewind_points tr !! i) → i < target)
         ∧ git_checkpoints s' = match git_restore with
                                | Some (o, _) => if restored o then git_truncate_from target (git_checkpoints s) else git_checkpoints s
                                | None => git_checkpoints s
                                end
         ∧ (let h := restore_hunk_checkpoints target s in
            if rewind_hunks_enabled flags
            then hunk_tracker s' = hunk_tracker h ∧ hunk_checkpoints s' = hunk_checkpoints h
            else hunk_tracker s' = hunk_tracker s ∧ hunk_checkpoints s' = hunk_checkpoints s)
         ∧ (if rewind_durable_enabled flags
            then cache (checkpoint_store s') = retain_below target (cache (checkpoint_store s))
                 ∨ ∃ n, is_Some (disk_error n (ReadDir (store_dir (checkpoint_store s))))
            else checkpoint_store s' = checkpoint_store s)
    else hunk_tracker s' = hunk_tracker s ∧ hunk_checkpoints s' = hunk_checkpoints s
         ∧ git_checkpoints s' = git_checkpoints s ∧ checkpoint_store s' = checkpoint_store s
         ∧ machine_disk m' = machine_disk m.
Proof.
  unfold rewind_to. destruct (restore_git_checkpoint _ _ _ _ _) as [git_restore m1] eqn:Hg.
  assert (machine_disk m1 = machine_disk m) as Hdisk.
  { unfold restore_git_checkpoint in Hg. repeat (case_match; simplify_eq/=); done. }
  destruct (rewind_files _ _ _ _) as [[resp1 tr] w] eqn:Hrw. intros Hto. exists tr, w.
  destruct (success resp1) eqn:Hok; cbn [andb] in Hto.
  2: { injection Hto as <- <- <-. cbn. rewrite Hok. by split_and!. }
  destruct (rewind_domains _ _ _ _ _) as [s2 m2] eqn:Hd.
  set (s1 := set_tracker tr s) in *.
  assert (file_state_tracker s2 = tr ∧ checkpoint_store s2 = checkpoint_store s
    ∧ git_checkpoints s2 = match git_restore with
                           | Some (o, _) => if restored o then git_truncate_from target (git_checkpoints s) else git_checkpoints s
                           | None => git_checkpoints s
                           end
    ∧ let h := restore_hunk_checkpoints target s in
      if rewind_hunks_enabled flags
      then hunk_tracker s2 = hunk_tracker h ∧ hunk_checkpoints s2 = hunk_checkpoints h
      else hunk_tracker s2 = hunk_tracker s ∧ hunk_checkpoints s2 = hunk_checkpoints s) as (Ht & Hst & Hgc & Hh).
  { assert (∀ s0, hunk_tracker s0 = hunk_tracker s → hunk_checkpoints s0 = hunk_checkpoints s →
      let h := restore_hunk_checkpoints target s0 in
      file_state_tracker h = file_state_tracker s0 ∧ checkpoint_store h = checkpoint_store s0
      ∧ git_checkpoints h = git_checkpoints s0
      ∧ hunk_tracker h = hunk_tracker (restore_hunk_checkpoints target s)
      ∧ hunk_checkpoints h = hunk_checkpoints (restore_hunk_checkpoints target s)) as Hres.
    { intros s0 Ha Hc. unfold restore_hunk_checkpoints. rewrite Ha, Hc.
      repeat case_match; cbn; rewrite ?Ha, ?Hc; done. }
    unfold rewind_domains in Hd. destruct git_restore as [[o st]|]; [destruct (restored o) eqn:Ho|].
    1: destruct (restage_git_paths _ _ _) as [b g].
    all: injection Hd as <- _; destruct (rewind_hunks_enabled flags); [|done].
    - destruct (Hres (set_git (git_truncate_from target (git_checkpoints s1)) s1) eq_refl eq_refl) as (E1 & E2 & E3 & E4 & E5).
      split_and!; [exact E1|exact E2|exact E3|exact (conj E4 E5)].
    - destruct (Hres s1 eq_refl eq_refl) as (E1 & E2 & E3 & E4 & E5).
      split_and!; [exact E1|exact E2|exact E3|exact (conj E4 E5)].
    - destruct (Hres s1 eq_refl eq_refl) as (E1 & E2 & E3 & E4 & E5).
      split_and!; [exact E1|exact E2|exact E3|exact (conj E4 E5)]. }
  assert (∀ j, is_Some (rewind_points tr !! j) → j < target) as Hpts.
  { unfold rewind_files in Hrw. destruct (get_rewind_points _ _) as [[pts tr0] w0].
    destruct (rewind_loop _ _ _ _ _) as [pr w3]. destruct (had_errors pr) eqn:He.
    - injection Hrw as <- _ _. by cbn in Hok.
    - destruct (truncate_from target tr0 w3) as [tr2 w2] eqn:Htr. injection Hrw as _ <- _. by eapply truncate_below. }
  destruct (rewind_durable_enabled flags) eqn:Hdur.
  - destruct (truncate_store target (checkpoint_store s2) (machine_disk m2)) as [store d] eqn:Hts.
    injection Hto as <- <- <-. rewrite Hok. split_and!; [done|by cbn|done|by cbn|by cbn|].
    rewrite Hst in Hts. apply truncate_cache in Hts as [->|[-> Herr]]; [by left|]. right. by eexists.
  - injection Hto as <- <- <-. rewrite Hok. by split_and!.
Qed.

End rewind_to.

(** ** Concrete sessions *)

(** A git program that answers by its arguments and changes nothing. *)
Definition scripted (answer : list text → text + GitOutput) : Git :=
  {| Repo := unit; git_run _ args r w := (answer args, r, w);
     head_commit _ _ _ := Some (txt "c1"); git_dir_has _ _ _ _ := false; utc_now := txt "now" |}.
Definition printed (s : string) : text + GitOutput := inr (mkOutput true (txt s) []).
Definition failed_with (s : string) : text + GitOutput := inr (mkOutput false [] (txt s)).

(** The answers of a repository with uncommitted work or without; [bad] are the commands
    that fail. *)
Definition answers (dirty : bool) (bad : list text → bool) (args : list text) : text + GitOutput :=
  if bad args then failed_with "fatal: no" else
  match args with
  | [a; b] => if decide (b = txt "--show-toplevel") then printed "/w"
              else if decide (b = txt "--porcelain") then printed (if dirty then " M f" else "")
              else if decide (a = txt "rev-parse") then printed "s1" else printed ""
  | _ => printed ""
  end.

Definition no_world : World := mkWorld ∅ 0 [].
Definition head_ref : GitStateRef := mkGitRef (txt "c0") [txt "f"].

(** HEAD is moved, but the index cannot be reset. *)
Definition index_fails : Git := scripted (answers true (λ args, bool_decide (length args = 4 ∧ list.head args = Some (txt "reset")))).


(** The work has been put into a stash, and only the name of the stash cannot be found
    out: the restore reports that nothing was stashed, and does not bring the work back. *)
Definition stash_unnamed : Git := scripted (answers true (λ args, bool_decide (args = [txt "rev-parse"; txt "stash@{0}"]))).

Example stashed_work_left_behind :
  let '(o, g) := @soft_restore_git_state stash_unnamed (txt "/w") head_ref (txt "s")
                   (@mkGitState stash_unnamed tt no_world []) in
  restored o = false ∧ stash_ref o = None
  ∧ any_b (λ c, bool_decide (take 2 c.1 = [txt "stash"; txt "push"]) && c.2) (commands g) = true
  ∧ any_b (λ c, bool_decide (c.1 = [txt "stash"; txt "pop"])) (commands g) = false.
Proof. by vm_compute. Qed.

(** The output of git is trimmed before it is split at the zero bytes: a blank at the
    beginning of the first path is lost. *)
Definition blank_staged : Git :=
  scripted (λ _, inr (mkOutput true (txt " a" ++ [NUL] ++ txt " b" ++ [NUL]) [])).

Example staged_blank_lost :
  (@staged_paths blank_staged (txt "/w") (@mkGitState blank_staged tt no_world [])).1 = Some [txt "a"; txt " b"].
Proof. by vm_compute. Qed.

(** The begin of a prompt is delivered again after the first capture has failed: what is
    recorded is the state in the middle of the turn, although the store could tell that
    the capture was attempted. *)
Definition plain_fs : FsErrors := {| fs_error _ _ := None; fs_partial _ _ := None; not_found := txt "no such file" |}.
Definition listed_entries : HashOrder := {| hash_order A l := l |}.
Definition no_points : RewindSerde :=
  {| from_str _ := None; to_string _ := []; datetime_from_str _ := None; datetime_to_string _ := [] |}.
Definition no_checkpoints : CheckpointSerde := {| to_vec _ := Some []; from_slice _ := None |}.
Definition whole_disk : DiskErrors := {| disk_error _ _ := None; written_part _ s := s |}.

Definition session_of (a : Actor) : WorkspaceSession :=
  mkSession (txt "/w") tracker_new a ∅ (mkGitStore ∅ ∅) (mkStore (txt "/r") (txt "/r/s") 2 ∅).
Definition machine_of (G : Git) (r : @Repo G) : @Machine G :=
  @mkMachine G (@mkGitState G r no_world []) (mkDisk ∅ 0 0).

(** The repository is the number of commands that have run: the first fails. *)
Definition first_fails : Git :=
  {| Repo := nat;
     git_run _ args r w := (if r =? 0 then failed_with "fatal: no" else answers false (λ _, false) args, S r, w);
     head_commit _ _ _ := Some (txt "mid-turn"); git_dir_has _ _ _ _ := false; utc_now := txt "now" |}.

Example second_begin_records_mid_turn :
  let flags := mkFlags true false false false in
  let begin := @on_turn_boundary first_fails plain_fs no_checkpoints whole_disk listed_entries flags (txt "/w") 0
                 (RewindBegin 0 0) in
  let '(s, m) := begin (session_of demo_start) (machine_of first_fails 0) in
  by_prompt (git_checkpoints s) !! 0 = None
  ∧ head <$> by_prompt (git_checkpoints (begin s m).1) !! 0 = Some (txt "mid-turn").
Proof. by vm_compute. Qed.

(** The index could not be reset and no path could be staged again: the git checkpoints are
    dropped all the same, so that there is no other attempt. *)
Definition index_and_add_fail : Git :=
  scripted (answers true (λ args, bool_decide (length args = 4 ∧ list.head args = Some (txt "reset"))
                                  || bool_decide (list.head args = Some (txt "add")))).
Definition with_git_checkpoint (a : Actor) : WorkspaceSession :=
  set_git (mkGitStore {[ 0 := head_ref ]} {[ 0 ]}) (session_of a).

Example git_checkpoints_dropped_after_partial_restore :
  let G := index_and_add_fail in
  let '(resp, s, m) := @rewind_to G plain_fs no_points whole_disk listed_entries (mkFlags true false false false)
                         (txt "/w") (txt "s") 0 (Some (with_git_checkpoint demo_start)) (machine_of G tt) in
  success resp = true
  ∧ (λ s, size (by_prompt (git_checkpoints s))) <$> s = Some 0
  ∧ any_b (λ c, bool_decide (list.head c.1 = Some (txt "add")) && negb c.2) (commands (machine_git m)) = true
  ∧ bool_decide (([txt "reset"; txt "--quiet"; txt "--"; txt "."], false) ∈ commands (machine_git m)) = true.
Proof. by vm_compute. Qed.

(** A hunk that the user has accepted after the end of its turn is pending again after the
    rewind to the next one: the deltas are those of the ends of the turns. *)
Definition captured : WorkspaceSession := (capture_hunk_delta 1 (session_of demo_actor1)).2.
#[local] Existing Instance greedy_engine.
Definition accepted : WorkspaceSession :=
  set_hunks (apply_all_action (demo_env true) Accept demo_actor1).1 (hunk_checkpoints captured) captured.

Example accepted_hunk_returns :
  length (get_all_hunks (hunk_tracker accepted)) = 0
  ∧ length (get_all_hunks (hunk_tracker (restore_hunk_checkpoints 2 accepted))) = 1.
Proof. by vm_compute. Qed.

(** Deltas from a target on stay if none lies before it, and a later turn without edits
    does not replace them: its checkpoint holds the hunks of the turn that was undone. *)
Definition with_stale (d : HunkTurnDelta) : WorkspaceSession :=
  set_tracker (begin_prompt 3 0 tracker_new) (set_hunks demo_start {[ 3 := d ]} (session_of demo_start)).

Example stale_delta_bundled :
  let d := take_turn_delta demo_actor1 1 in
  let s := restore_hunk_checkpoints 2 (with_stale d) in
  let s := (capture_hunk_delta 3 s).2 in
  (λ c, (λ d, size (delta_file_states d)) <$> cp_hunks c) <$> get_checkpoint 3 s = Some (Some 1)
  ∧ length (get_all_hunks (hunk_tracker s)) = 0.
Proof. by vm_compute. Qed.

(** ** Witnesses *)

(** Nobody works at the end of prompt 0; the agent writes a file in prompt 1. *)
Definition demo_actors (i : nat) : Actor := match i with 0 => demo_start | _ => demo_actor1 end.
Definition demo_session : WorkspaceSession :=
  set_hunks demo_actor2 {[ 1 := take_turn_delta demo_actor1 1 ]} (session_of demo_start).

(** Every file of [a] is in the delta. *)
Lemma covered a i :
  forallb (λ x, bool_decide (is_Some (delta_file_states (take_turn_delta a i) !! x.1))) (map_to_list (file_states a)) = true →
  ∀ p, delta_file_states (take_turn_delta a i) !! p = None → file_states a !! p = None.
Proof.
  rewrite forallb_forall. intros Hall p Hp. apply eq_None_not_Some. intros [st Hst].
  assert (In (p, st) (map_to_list (file_states a))) as Hin by (apply list_elem_of_In; by apply elem_of_map_to_list).
  specialize (Hall _ Hin). apply bool_decide_eq_true in Hall as [d Hd]. cbn [fst] in Hd. congruence.
Qed.

Lemma demo_recorded : recorded demo_actors 2 (hunk_checkpoints demo_session).
Proof.
  intros i Hi. destruct i as [|[|i]]; [..|lia].
  - split; [by vm_compute|]. intros p _. cbn [states_before demo_actors].
    assert (map_to_list (file_states demo_start) = []) as Hnil by by vm_compute.
    apply map_to_list_empty_iff in Hnil. by rewrite Hnil, !lookup_empty.
  - assert (bool_decide (delta_file_states (take_turn_delta demo_actor1 1) = ∅) = false) as Hne.
    { apply bool_decide_eq_false. intros Heq. apply (f_equal size) in Heq. by vm_compute in Heq. }
    cbn [demo_actors states_before]. split.
    + rewrite Hne. apply lookup_singleton_eq.
    + intros p Hp. rewrite (covered demo_actor1 1) by (done || by vm_compute).
      assert (map_to_list (file_states demo_start) = []) as Hnil by by vm_compute.
      apply map_to_list_empty_iff in Hnil. by rewrite Hnil, lookup_empty.
Qed.


Definition all_flags : Flags := mkFlags true true true true.
Definition clean_git : Git := scripted (answers false (λ _, false)).
Definition full_session : WorkspaceSession :=
  set_tracker (begin_prompt 2 0 (begin_prompt 1 0 tracker_new))
    (set_git (mkGitStore {[ 1 := head_ref; 2 := head_ref ]} {[ 1; 2 ]}) demo_session).

(** Every domain has dropped what belongs to prompt 2. *)
Lemma rewind_to_exact_witness :
  let '(resp, s, _) := @rewind_to clean_git plain_fs no_points whole_disk listed_entries all_flags (txt "/w") (txt "s") 2
                         (Some full_session) (machine_of clean_git tt) in
  success resp = true
  ∧ ∃ s', s = Some s' ∧ git_checkpoints s' = git_truncate_from 2 (git_checkpoints full_session)
    ∧ hunk_tracker s' = hunk_tracker (restore_hunk_checkpoints 2 full_session).
Proof.
  destruct (@rewind_to clean_git plain_fs no_points whole_disk listed_entries all_flags (txt "/w") (txt "s") 2
    (Some full_session) (machine_of clean_git tt)) as [[resp s] m'] eqn:Hto.
  assert (success resp = true) as Hok.
  { pose proof (f_equal (λ x, success x.1.1) Hto) as Heq. cbn [fst snd] in Heq. rewrite <- Heq. by vm_compute. }
  destruct s as [s'|]; [|apply (f_equal (λ x, bool_decide (is_Some x.1.2))) in Hto; by vm_compute in Hto].
  pose proof (@rewind_to_exact clean_git plain_fs no_points whole_disk listed_entries all_flags (txt "/w") (txt "s") 2
    full_session (machine_of clean_git tt) resp s' m' Hto) as H.
  destruct (restore_git_checkpoint _ _ _ _ _) as [g m1] eqn:Hg. destruct H as (tr & w & _ & _ & H).
  rewrite Hok in H. destruct H as (_ & Hgit & [Hh _] & _).
  assert (restored <$> (fst <$> g) = Some true) as Hr.
  { change g with (g, m1).1. rewrite <- Hg. by vm_compute. }
  split; [exact Hok|]. exists s'. split; [reflexivity|]. split; [|exact Hh].
  destruct g as [[o st]|]; [|discriminate Hr]. injection Hr as Hr. by rewrite Hr in Hgit.
Defined.
