(* ===== verification/SessionRewind.v ===== *)
(** * A session and its rewinds

    The bridge from the notifications of the tools to the tracker
    ([ds-shell/src/tools/notification_bridge.rs], the arm of [FileWritten]), the life of a
    session over the tracker of [FileState.v], and what it promises: a rewind to a prompt
    brings back the files as they were when the prompt began, but for changes that were
    not the agent's.  The specification keeps a copy of the disk for every prompt; the
    tracker, which keeps single snapshots, refines it. *)

From S2P Require Import Prelude Text TextProps Utf8 Json Paths ToolFs FileState FileStateProps.

Open Scope nat_scope.

(** ** The bridge *)

(** What the bridge sends to the hunk tracker. *)
Record AgentWrite := mkAgentWrite {
  write_path : text;
  write_content : text;
  write_prompt_index : nat;
  write_previous : option text;
}.

Definition handle_file_written (i : nat) (cwd : text) (n : FileWritten) (t : Z) (tr : FileStateTracker)
    : AgentWrite * FileStateTracker :=
  (mkAgentWrite (absolute_path n) (content n) i (previous_content n),
   if bool_decide (is_Some (previous_content n)) || is_new_file n
   then add_before_snapshot_for_prompt i (absolute_path n) cwd (previous_content n) t tr
   else tr).

(** ** The life of a session *)

(** What happens: a prompt begins or ends; a tool has changed a file, to [new] or away, and
    its notification is handled; somebody else changes a file; the user rewinds files and
    conversation, or the conversation only. *)
Inductive Event :=
| BeginPrompt (i : nat) (t : Z)
| EndPrompt (i : nat) (t : nat → Z)
| ToolEdit (n : FileWritten) (new : option text) (t : Z)
| ExternalEdit (p : text) (new : option text)
| RewindFiles (target : nat)
| ForgetPrompts (target : nat).

(** The tracker, the files, and the prompt index of the tool context, which the start of
    a turn sets. *)
Record Session := mkSession {
  tracker : FileStateTracker;
  world : World;
  tool_prompt_index : nat;
}.

Definition put_file (p : text) (c : option text) (w : World) : World := set_files (put p c (files w)) w.

Section session.
Context `{HashOrder, FsErrors, RewindSerde}.
Context (root : text).

Definition session_step (e : Event) (s : Session) : Session :=
  let '(mkSession tr w i) := s in
  match e with
  | BeginPrompt j t => mkSession (begin_prompt j t tr) w j
  | EndPrompt j t => let '(tr, w) := end_prompt root j t tr w in mkSession tr w i
  | ToolEdit n new t =>
      mkSession (handle_file_written i root n t tr).2 (put_file (absolute_path n) new w) i
  | ExternalEdit p new => mkSession tr (put_file p new w) i
  | RewindFiles target => let '(_, tr, w) := rewind_files root target tr w in mkSession tr w i
  | ForgetPrompts target => let '(tr, w) := merge_and_remove_from target tr w in mkSession tr w i
  end.

Definition session_run (es : list Event) (s : Session) : Session := foldl (λ s e, session_step e s) s es.

(** ** The specification *)

(** The copy of the disk that belongs to a prompt, and the files that tools changed during
    the prompt. *)
Record Mark := mkMark { saved : gmap text text; edited : gset text }.

Record Spec := mkSpec { disk : gmap text text; marks : gmap nat Mark }.

(** The rewind tracks the files below the root. *)
Definition tracked (p : text) : bool := match from_absolute root p with inr _ => true | inl _ => false end.

(** A tool changed [p] since prompt [i] began. *)
Definition edited_since (i : nat) (p : text) (m : gmap nat Mark) : bool :=
  any_b (λ x, (i <=? x.1) && bool_decide (p ∈ edited x.2)) (map_to_list m).

(** A change that no rewind takes back: it goes into the copies, unless a tool changed the
    file before, so that the rewind brings the older content back. *)
Definition external (p : text) (new : option text) (m : gmap nat Mark) : gmap nat Mark :=
  map_imap (λ i x, Some (if edited_since i p m then x else mkMark (put p new (saved x)) (edited x))) m.

Definition add_edited (ps : gset text) (x : Mark) : Mark := mkMark (saved x) (ps ∪ edited x).

Definition spec_step (i : nat) (e : Event) (s : Spec) : Spec :=
  let '(mkSpec d m) := s in
  match e with
  | BeginPrompt j _ => mkSpec d (or_insert j (mkMark d ∅) m)
  | EndPrompt _ _ => s
  | ToolEdit n new _ =>
      let p := absolute_path n in
      if tracked p then mkSpec (put p new d) (alter (add_edited {[p]}) i m)
      else mkSpec (put p new d) (external p new m)
  | ExternalEdit p new => mkSpec (put p new d) (external p new m)
  | RewindFiles target =>
      match m !! target with
      | Some x => mkSpec (saved x) (retain_below target m)
      | None => s
      end
  | ForgetPrompts target =>
      let forgotten := ⋃ ((λ x, edited x.2) <$> map_to_list (base.filter (λ x, target <= x.1) m)) in
      mkSpec d (alter (add_edited forgotten) (target - 1) (retain_below target m))
  end.

(** The prompt index that an event leaves in the tool context. *)
Definition next_index (i : nat) (e : Event) : nat := match e with BeginPrompt j _ => j | _ => i end.

Fixpoint spec_run (i : nat) (es : list Event) (s : Spec) : Spec :=
  match es with
  | [] => s
  | e :: es => spec_run (next_index i e) es (spec_step i e s)
  end.

(** The order of events in a session: prompts are numbered upwards; tools work during the
    last prompt, on a file that the notification describes truthfully; a rewind goes to a
    prompt that is there, and the conversation keeps at least one. *)
Definition allowed (i : nat) (e : Event) (s : Spec) : Prop :=
  match e with
  | BeginPrompt j _ => ∀ k, is_Some (marks s !! k) → k < j
  | EndPrompt _ _ => True
  | ToolEdit n new _ =>
      is_Some (marks s !! i) ∧ (∀ k, is_Some (marks s !! k) → k <= i)
      ∧ is_absolute (absolute_path n) = true ∧ clean (absolute_path n) = true ∧ absolute_path n ≠ root
      ∧ previous_content n = disk s !! absolute_path n
      ∧ (previous_content n = None → is_new_file n = true)
  | ExternalEdit _ _ => True
  | RewindFiles target => is_Some (marks s !! target)
  | ForgetPrompts target => target ≠ 0 ∧ is_Some (marks s !! (target - 1))
  end.

Fixpoint all_allowed (i : nat) (es : list Event) (s : Spec) : Prop :=
  match es with
  | [] => True
  | e :: es => allowed i e s ∧ all_allowed (next_index i e) es (spec_step i e s)
  end.

End session.

(** ** The tracker and the copies *)

Section refinement.
Context `{HashOrder, !HashOrderPerm, FsErrors, RewindSerde}.
Context (root : text) (Habsolute : is_absolute root = true) (Hclean : clean root = true).

#[local] Notation abs := (flexible_to_absolute root).

(** A relative path that names a file. *)
Definition good (rel : Components) : Prop := Forall is_name rel ∧ rel ≠ [].

Lemma abs_inj rel rel' : good rel → good rel' → abs (Relative rel) = abs (Relative rel') → rel = rel'.
Proof.
  intros [Hn Hne] [Hn' Hne'] Heq. cbn in Heq. apply (f_equal components) in Heq.
  rewrite !components_to_absolute in Heq by done. by apply app_inv_head in Heq.
Qed.

Lemma tracked_good p :
  clean p = true → p ≠ root → tracked root p = true →
  ∃ rel, from_absolute root p = inr rel ∧ good rel ∧ abs (Relative rel) = p.
Proof.
  intros Hc Hne. unfold tracked. destruct (from_absolute root p) as [|rel] eqn:Hrel; [done|]. intros _.
  destruct (from_absolute_inr _ _ _ Habsolute Hrel) as (Hp & Hn & _). exists rel.
  assert (rel ≠ []) as Hr.
  { intros ->. rewrite app_nil_r in Hp. apply Hne. apply bool_decide_eq_true in Hc as Hc'.
    apply bool_decide_eq_true in Hclean as Hr'. by rewrite <- Hc', <- Hr', Hp. }
  split_and!; [done|by split|]. by apply from_to_absolute.
Qed.

(** The points of a tracker and the copies of the specification. *)
Record related (m : gmap nat RewindPoint) (d : gmap text text) (ms : gmap nat Mark) : Prop := {
  rel_filed : filed m;
  rel_dom j : is_Some (m !! j) ↔ is_Some (ms !! j);
  rel_keys j path : is_Some (before m j path) → ∃ rel, path = Relative rel ∧ good rel;
  rel_edited j x f : ms !! j = Some x →
    f ∈ edited x ↔ ∃ path, abs path = f ∧ is_Some (before m j path);
  rel_first i x path c : ms !! i = Some x → first_snapshot m i path c → saved x !! abs path = c;
  rel_rest i x f : ms !! i = Some x → (∀ path, abs path = f → no_snapshot m i path) →
    saved x !! f = d !! f;
}.

Lemma edited_since_true i f (ms : gmap nat Mark) :
  edited_since i f ms = true ↔ ∃ j x, i <= j ∧ ms !! j = Some x ∧ f ∈ edited x.
Proof.
  unfold edited_since. rewrite any_b_true. split.
  - intros ([j x] & Hx%elem_of_map_to_list & [Hj Hf]%andb_true_iff). cbn in *.
    apply Nat.leb_le in Hj. apply bool_decide_eq_true in Hf. eauto.
  - intros (j & x & Hj & Hx & Hf). exists (j, x). split; [by apply elem_of_map_to_list|].
    cbn. rewrite andb_true_iff, Nat.leb_le, bool_decide_eq_true. done.
Qed.

Lemma edited_since_related m d ms i f :
  related m d ms →
  if edited_since i f ms then ∃ path, abs path = f ∧ ∃ j, i <= j ∧ is_Some (before m j path)
  else ∀ path, abs path = f → no_snapshot m i path.
Proof.
  intros R. destruct (edited_since i f ms) eqn:He.
  - apply edited_since_true in He as (j & x & Hj & Hx & Hf).
    apply (rel_edited _ _ _ R j x f Hx) in Hf as (path & Hp & Hs). eauto 10.
  - intros path Hp j Hj. apply eq_None_not_Some. intros Hs.
    assert (is_Some (ms !! j)) as [x Hx].
    { apply (rel_dom _ _ _ R). destruct Hs as [c (p & Hm & _)%before_Some]. eauto. }
    assert (f ∈ edited x) as Hin by (apply (rel_edited _ _ _ R j x f Hx); eauto).
    assert (edited_since i f ms = true) by (apply edited_since_true; eauto). congruence.
Qed.

(** The first snapshot is found whenever there is one. *)
Lemma first_of_some m i j path : i <= j → is_Some (before m j path) → ∃ c, first_snapshot m i path c.
Proof.
  intros Hij [c Hc]. revert c Hc. induction (lt_wf j) as [j _ IH]. intros c Hc.
  destruct (decide (Exists (λ k, is_Some (before m k path)) (seq i (j - i)))) as [Hex|Hno].
  { apply Exists_exists in Hex as (k & Hk & [c' Hc']). apply elem_of_seq in Hk.
    eapply (IH k); [lia..|done]. }
  exists c, j. split_and!; [done..|]. intros k Hk. apply eq_None_not_Some. intros Hs. apply Hno.
  apply Exists_exists. exists k. rewrite elem_of_seq. split; [lia|done].
Qed.

(** Only the contents of the before-snapshots matter. *)
Lemma related_same m m' d ms :
  related m d ms → filed m' → (∀ j, is_Some (m' !! j) ↔ is_Some (m !! j)) →
  (∀ j path, before m' j path = before m j path) → related m' d ms.
Proof.
  intros R Hf Hd Hb. assert (∀ i path, no_snapshot m' i path → no_snapshot m i path) as Hno.
  { intros i path Hn j Hj. rewrite <- Hb. by apply Hn. }
  split.
  - done.
  - intros j. by rewrite Hd, (rel_dom _ _ _ R).
  - intros j path. rewrite Hb. apply (rel_keys _ _ _ R).
  - intros j x f Hx. setoid_rewrite Hb. by apply (rel_edited _ _ _ R).
  - intros i x path c Hx (j & Hj & Hc & Hk). eapply (rel_first _ _ _ R); [done|].
    exists j. rewrite <- Hb. split_and!; [done..|]. intros k Hk'. rewrite <- Hb. by apply Hk.
  - intros i x f Hx Hall. eapply (rel_rest _ _ _ R); [done|]. intros path Hp. by apply Hno, Hall.
Qed.

(** ** Each event *)

Lemma related_external m d ms f new :
  related m d ms → related m (put f new d) (external f new ms).
Proof.
  intros R. unfold external.
  assert (∀ j x, map_imap (λ i x, Some (if edited_since i f ms then x else mkMark (put f new (saved x)) (edited x))) ms
            !! j = Some x → ∃ y, ms !! j = Some y ∧ edited x = edited y
              ∧ saved x = if edited_since j f ms then saved y else put f new (saved y)) as Hlook.
  { intros j x. rewrite map_lookup_imap. intros (y & Hy & [= <-])%bind_Some. exists y.
    split; [done|]. by destruct (edited_since j f ms). }
  split.
  - apply R.
  - intros j. rewrite (rel_dom _ _ _ R), map_lookup_imap. destruct (ms !! j); cbn; [|done]. split; eauto.
  - apply R.
  - intros j x g (y & Hy & -> & _)%Hlook. by apply (rel_edited _ _ _ R).
  - intros i x path c (y & Hy & _ & ->)%Hlook Hfirst.
    pose proof (rel_first _ _ _ R i y path c Hy Hfirst) as Hs.
    pose proof (edited_since_related m d ms i f R) as He. destruct (edited_since i f ms); [done|].
    rewrite put_ne; [done|]. intros Heq. destruct Hfirst as (j & Hj & Hc & _).
    specialize (He path Heq j Hj). congruence.
  - intros i x g (y & Hy & _ & ->)%Hlook Hall.
    pose proof (edited_since_related m d ms i f R) as He.
    destruct (decide (g = f)) as [->|Hne].
    + destruct (edited_since i f ms); [|by rewrite !put_eq]. exfalso.
      destruct He as (path & Hp & j & Hj & Hs). rewrite (Hall path Hp j Hj) in Hs. by destruct Hs.
    + rewrite (put_ne _ _ _ d) by done. destruct (edited_since i f ms); rewrite ?put_ne by done;
        by apply (rel_rest _ _ _ R i y).
Qed.

Lemma related_begin m d ms i t :
  related m d ms → (∀ k, is_Some (ms !! k) → k < i) →
  related (or_insert i (RewindPoint_new i t) m) d (or_insert i (mkMark d ∅) ms).
Proof.
  intros R Hi. assert (m !! i = None) as Hm.
  { apply eq_None_not_Some. intros Hs%(rel_dom _ _ _ R). apply Hi in Hs. lia. }
  assert (ms !! i = None) as Hms by (apply eq_None_not_Some; intros Hs%Hi; lia).
  unfold or_insert. rewrite Hm, Hms.
  assert (∀ j path, before (<[i := RewindPoint_new i t]> m) j path = before m j path) as Hb.
  { intros j path. unfold before. destruct (decide (j = i)) as [->|Hne].
    - by rewrite lookup_insert_eq, Hm.
    - by rewrite lookup_insert_ne. }
  assert (∀ j path, i <= j → before m j path = None) as Hnone.
  { intros j path Hj. unfold before. destruct (m !! j) eqn:Hp; [|done].
    assert (is_Some (ms !! j)) as Hs by (apply (rel_dom _ _ _ R); eauto). apply Hi in Hs. lia. }
  split.
  - intros j p. destruct (decide (j = i)) as [->|Hne].
    + rewrite lookup_insert_eq. by intros [= <-].
    + rewrite lookup_insert_ne by done. apply R.
  - intros j. destruct (decide (j = i)) as [->|Hne].
    + rewrite !lookup_insert_eq. split; eauto.
    + rewrite !lookup_insert_ne by done. apply R.
  - intros j path. rewrite Hb. apply R.
  - intros j x f. setoid_rewrite Hb. destruct (decide (j = i)) as [->|Hne].
    + rewrite lookup_insert_eq. intros [= <-]. split; [set_solver|].
      intros (path & _ & Hs). rewrite Hnone in Hs by done. by destruct Hs.
    + rewrite lookup_insert_ne by done. apply R.
  - intros k x path c Hx (j & Hj & Hc & Hk). rewrite Hb in Hc.
    destruct (decide (k = i)) as [->|Hne]; [by rewrite Hnone in Hc|].
    rewrite lookup_insert_ne in Hx by done. eapply (rel_first _ _ _ R); [done|].
    exists j. split_and!; [done..|]. intros l Hl. rewrite <- Hb. by apply Hk.
  - intros k x f Hx Hall. destruct (decide (k = i)) as [->|Hne].
    + rewrite lookup_insert_eq in Hx. by injection Hx as <-.
    + rewrite lookup_insert_ne in Hx by done. eapply (rel_rest _ _ _ R); [done|].
      intros path Hp j Hj. rewrite <- Hb. by apply Hall.
Qed.

Lemma before_alter_or_insert m i t s p :
  m !! i = Some p →
  ∀ j path, before (alter (add_snapshot s) i (or_insert i (RewindPoint_new i t) m)) j path
    = if decide (j = i ∧ path = snap_path s)
      then Some (default (snap_content s) (before m i path)) else before m j path.
Proof.
  intros Hp j path. unfold or_insert. rewrite Hp. unfold before.
  destruct (decide (j = i)) as [->|Hne].
  - rewrite lookup_alter_eq, Hp. cbn. rewrite or_insert_union, lookup_union.
    destruct (decide (path = snap_path s)) as [->|Hpath].
    + rewrite decide_True, lookup_singleton_eq by done. by destruct (file_snapshots p !! snap_path s).
    + rewrite decide_False, lookup_singleton_ne by naive_solver. by destruct (file_snapshots p !! path).
  - rewrite lookup_alter_ne, decide_False by naive_solver. done.
Qed.

Lemma related_edit m d ms i rel new t :
  related m d ms → is_Some (ms !! i) → (∀ k, is_Some (ms !! k) → k <= i) → good rel →
  let p := abs (Relative rel) in
  related (alter (add_snapshot (mkFileSnapshot (Relative rel) (d !! p) t)) i
             (or_insert i (RewindPoint_new i t) m))
    (put p new d) (alter (add_edited {[p]}) i ms).
Proof.
  intros R Hi Hmax Hgood p. destruct (proj2 (rel_dom _ _ _ R i) Hi) as [pt Hpt].
  pose proof (before_alter_or_insert m i t (mkFileSnapshot (Relative rel) (d !! p) t) pt Hpt) as Hb.
  set (m' := alter _ i _) in *. cbn [snap_path snap_content] in Hb.
  assert (∀ j path, is_Some (before m j path) → is_Some (before m' j path)) as Hmono.
  { intros j path Hs. rewrite Hb. by case_decide. }
  assert (∀ path, abs path = p → ∀ j, is_Some (before m j path) → path = Relative rel) as Hkey.
  { intros path Heq j Hs. destruct (rel_keys _ _ _ R _ _ Hs) as (rel' & -> & Hg').
    f_equal. by apply abs_inj. }
  assert (∀ j, m' !! j = if decide (j = i) then add_snapshot (mkFileSnapshot (Relative rel) (d !! p) t) <$> m !! j
                         else m !! j) as Hm'.
  { intros j. unfold m', or_insert. rewrite Hpt. case_decide; subst;
      [by rewrite lookup_alter_eq|by rewrite lookup_alter_ne]. }
  assert (∀ j x, alter (add_edited {[p]}) i ms !! j = Some x →
          ∃ y, ms !! j = Some y ∧ saved x = saved y
            ∧ ∀ f, f ∈ edited x ↔ f ∈ edited y ∨ (f = p ∧ j = i)) as Hms.
  { intros j x. destruct (decide (j = i)) as [->|Hne].
    - rewrite lookup_alter_eq. intros (y & -> & ->)%fmap_Some. exists y. split_and!; [done..|].
      intros f. cbn. set_solver.
    - rewrite lookup_alter_ne by done. intros Hx. exists x. split_and!; [done..|]. intros f. naive_solver. }
  split.
  - intros j q. rewrite Hm'. case_decide; [|apply R]. intros (q' & Hq & ->)%fmap_Some. cbn.
    by apply (rel_filed _ _ _ R).
  - intros j. rewrite Hm'. destruct (decide (j = i)) as [->|Hne].
    + rewrite lookup_alter_eq, !fmap_is_Some. apply R.
    + rewrite lookup_alter_ne by done. apply R.
  - intros j path. rewrite Hb. case_decide as Hc; [|apply R]. destruct Hc as [-> ->]. eauto.
  - intros j x f (y & Hy & _ & Hed)%Hms. rewrite Hed, (rel_edited _ _ _ R j y f Hy). split.
    + intros [(path & Heq & Hs)|[-> ->]]; [eauto|]. exists (Relative rel). split; [done|].
      rewrite Hb, decide_True by done. eauto.
    + intros (path & Heq & Hs). rewrite Hb in Hs. case_decide as Hc; [|left; eauto].
      destruct Hc as [-> ->]. by right.
  - intros k x path c (y & Hy & Hsv & _)%Hms (j & Hj & Hc & Hbefore). rewrite Hsv.
    rewrite Hb in Hc. assert (∀ l, k <= l < j → before m l path = None) as Hnone.
    { intros l Hl. specialize (Hbefore l Hl). apply eq_None_not_Some. intros Hs%Hmono.
      rewrite Hbefore in Hs. by destruct Hs. }
    case_decide as Hd; [destruct Hd as [-> ->]|eapply (rel_first _ _ _ R); [done|by exists j]].
    destruct (before m i (Relative rel)) as [c'|] eqn:Hc'; cbn in Hc; injection Hc as <-.
    { eapply (rel_first _ _ _ R); [done|by exists i]. }
    apply (rel_rest _ _ _ R k y _ Hy). intros path Heq l Hl. apply eq_None_not_Some. intros Hs.
    pose proof (Hkey path Heq l Hs) as ->. destruct (decide (l = i)) as [->|Hne].
    { rewrite Hc' in Hs. by destruct Hs. }
    assert (l <= i).
    { apply Hmax, (rel_dom _ _ _ R). destruct Hs as [? (q & Hq & _)%before_Some]. eauto. }
    rewrite Hnone in Hs by lia. by destruct Hs.
  - intros k x f (y & Hy & -> & _)%Hms Hall. assert (f ≠ p) as Hne.
    { intros ->. specialize (Hall (Relative rel) eq_refl i ltac:(apply Hmax; eauto)).
      rewrite Hb, decide_True in Hall by done. done. }
    rewrite put_ne by done. apply (rel_rest _ _ _ R k y _ Hy). intros path Heq j Hj.
    apply eq_None_not_Some. intros Hs%Hmono. rewrite (Hall path Heq j Hj) in Hs. by destruct Hs.
Qed.

Lemma retain_below_lookup {A} (t j : nat) (m : gmap nat A) :
  retain_below t m !! j = if decide (j < t) then m !! j else None.
Proof.
  unfold retain_below. destruct (m !! j) as [a|] eqn:Ha.
  - case_decide as Hj.
    + by apply map_lookup_filter_Some.
    + apply map_lookup_filter_None. right. intros x _. cbn. done.
  - rewrite (proj2 (map_lookup_filter_None _ _ _)) by auto. by case_decide.
Qed.

Lemma before_retain m t j path :
  before (retain_below t m) j path = if decide (j < t) then before m j path else None.
Proof. unfold before. rewrite retain_below_lookup. by case_decide. Qed.

Lemma related_rewind m d ms target x :
  related m d ms → ms !! target = Some x →
  related (retain_below target m) (saved x) (retain_below target ms).
Proof.
  intros R Hx. split.
  - intros j p. rewrite retain_below_lookup. case_decide; [apply R|done].
  - intros j. rewrite !retain_below_lookup. case_decide; [apply R|done].
  - intros j path. rewrite before_retain. case_decide; [apply R|by intros [? ?]].
  - intros j y f. rewrite retain_below_lookup. setoid_rewrite before_retain.
    case_decide; [apply R|done].
  - intros i y path c. rewrite retain_below_lookup. case_decide as Hi; [|done].
    intros Hy (j & Hj & Hc & Hbefore). rewrite before_retain in Hc. case_decide; [|done].
    eapply (rel_first _ _ _ R); [done|]. exists j. split_and!; [done..|]. intros k Hk.
    rewrite <- (Hbefore k Hk), before_retain. by rewrite decide_True by lia.
  - intros i y f. rewrite retain_below_lookup. case_decide as Hi; [|done]. intros Hy Hall.
    assert (∀ path, abs path = f → ∀ k, i <= k < target → before m k path = None) as Hlow.
    { intros path Hp k Hk. rewrite <- (Hall path Hp k) by lia. by rewrite before_retain, decide_True by lia. }
    pose proof (edited_since_related m d ms target f R) as He. destruct (edited_since target f ms).
    + destruct He as (path & Hp & j & Hj & Hs). destruct (first_of_some m target j path Hj Hs) as [c Hc].
      rewrite <- Hp, (rel_first _ _ _ R target x path c Hx Hc). apply (rel_first _ _ _ R i y path c Hy).
      destruct Hc as (l & Hl & Hc & Hbefore). exists l. split_and!; [lia|done|]. intros k Hk.
      destruct (decide (k < target)); [apply Hlow; [done|lia]|apply Hbefore; lia].
    + rewrite (rel_rest _ _ _ R target x f Hx He). apply (rel_rest _ _ _ R i y f Hy).
      intros path Hp k Hk. destruct (decide (k < target)); [apply Hlow; [done|lia]|apply He; [done|lia]].
Qed.

Definition forgotten (target : nat) (ms : gmap nat Mark) : gset text :=
  ⋃ ((λ x, edited x.2) <$> map_to_list (base.filter (λ x, target <= x.1) ms)).

Lemma elem_of_forgotten target ms f :
  f ∈ forgotten target ms ↔ ∃ j x, target <= j ∧ ms !! j = Some x ∧ f ∈ edited x.
Proof.
  unfold forgotten. rewrite elem_of_union_list. setoid_rewrite list_elem_of_fmap. split.
  - intros (X & ([j x] & -> & Hx) & Hf). apply elem_of_map_to_list, map_lookup_filter_Some in Hx as [Hx Hj].
    cbn in *. eauto.
  - intros (j & x & Hj & Hx & Hf). exists (edited x). split; [|done]. exists (j, x). split; [done|].
    by apply elem_of_map_to_list, map_lookup_filter_Some.
Qed.

Lemma related_forget tr d ms target w tr' w' :
  related (rewind_points tr) d ms → lazy_source tr = None →
  target ≠ 0 → is_Some (ms !! (target - 1)) → merge_and_remove_from target tr w = (tr', w') →
  related (rewind_points tr') d (alter (add_edited (forgotten target ms)) (target - 1) (retain_below target ms)).
Proof.
  intros R Hlazy Ht Hs Hm. destruct (proj2 (rel_dom _ _ _ R _) Hs) as [previous Hprev].
  pose proof (rel_filed _ _ _ R) as Hfiled.
  destruct (merge_points tr Hfiled target previous w tr' w' Hlazy Ht Hprev Hm) as (_ & _ & _ & Hpts).
  set (m := rewind_points tr) in *. set (m' := rewind_points tr') in *.
  assert (∀ j path, before m' j path
    = if decide (j < target - 1) then before m j path
      else if decide (j = target - 1) then
        match before m (target - 1) path with
        | Some c => Some c
        | None => earliest (from_index target tr) path
        end
      else None) as Hb.
  { intros j path. unfold before. rewrite Hpts. repeat case_decide; [done| |done].
    cbn. rewrite absorbed_before, Hprev. cbn. by destruct (snap_content <$> _). }
  assert (∀ path, match earliest (from_index target tr) path with
                  | Some c => first_snapshot m target path c
                  | None => no_snapshot m target path end) as Hlate.
  { intros path. by apply from_index_spec. }
  assert (∀ j x, alter (add_edited (forgotten target ms)) (target - 1) (retain_below target ms) !! j = Some x →
          ∃ y, j < target ∧ ms !! j = Some y ∧ saved x = saved y
            ∧ ∀ f, f ∈ edited x ↔ f ∈ edited y ∨ (j = target - 1 ∧ f ∈ forgotten target ms)) as Hms.
  { intros j x. destruct (decide (j = target - 1)) as [->|Hne].
    - rewrite lookup_alter_eq, retain_below_lookup, decide_True by lia.
      intros (y & -> & ->)%fmap_Some. exists y. split_and!; [lia|done..|]. intros f. cbn. set_solver.
    - rewrite lookup_alter_ne, retain_below_lookup by done. case_decide; [|done].
      intros Hx. exists x. split_and!; [done..|]. intros f. naive_solver. }
  assert (∀ i path, i < target → no_snapshot m' i path → no_snapshot m i path) as Hno.
  { intros i path Hi Hn j Hj. pose proof (Hn (target - 1) ltac:(lia)) as Hlast.
    rewrite Hb, decide_False, decide_True in Hlast by lia.
    destruct (before m (target - 1) path) eqn:Hp; [done|]. specialize (Hlate path). rewrite Hlast in Hlate.
    destruct (decide (j < target - 1)) as [Hlt|]; [|destruct (decide (j = target - 1)) as [->|]; [done|apply Hlate; lia]].
    specialize (Hn j Hj). by rewrite Hb, decide_True in Hn. }
  split.
  - intros j p. unfold m'. rewrite Hpts. repeat case_decide; [apply Hfiled|intros [= <-]|done].
    subst. rewrite absorbed_index. by apply Hfiled.
  - intros j. unfold m'. rewrite Hpts. destruct (decide (j = target - 1)) as [->|Hne].
    + rewrite lookup_alter_eq, retain_below_lookup. repeat case_decide; try lia.
      rewrite fmap_is_Some. split; [done|by eauto].
    + rewrite lookup_alter_ne, retain_below_lookup by done.
      repeat case_decide; try lia; [apply R|done].
  - intros j path. rewrite Hb. repeat case_decide; [apply R| |by intros [? ?]].
    destruct (before m (target - 1) path) eqn:Hp; [intros _; apply (rel_keys _ _ _ R (target - 1)); by rewrite Hp|].
    specialize (Hlate path). destruct (earliest _ path) as [c|]; [|by intros [? ?]]. intros _.
    destruct Hlate as (l & _ & Hc & _). apply (rel_keys _ _ _ R l). by rewrite Hc.
  - intros j x f (y & Hj & Hy & _ & Hed)%Hms. rewrite Hed, (rel_edited _ _ _ R j y f Hy), elem_of_forgotten.
    destruct (decide (j < target - 1)) as [Hlt|Hge].
    + assert (∀ path, before m' j path = before m j path) as Heq
        by (intros path; by rewrite Hb, decide_True).
      setoid_rewrite Heq. split; [intros [?|[-> _]]; [done|lia]|by left].
    + assert (j = target - 1) as -> by lia.
      assert (∀ path, before m' (target - 1) path
                = match before m (target - 1) path with Some c => Some c
                  | None => earliest (from_index target tr) path end) as Heq
        by (intros path; rewrite Hb; by repeat (case_decide; try lia)).
      setoid_rewrite Heq. split.
      * intros [(path & Hp & [c Hc])|(_ & k & z & Hk & Hz & (path & Hp & Hsk)%(rel_edited _ _ _ R k z f Hz))].
        { exists path. rewrite Hc. eauto. }
        exists path. split; [done|]. destruct (before m (target - 1) path); [eauto|].
        specialize (Hlate path). destruct (earliest _ path); [eauto|].
        rewrite (Hlate k Hk) in Hsk. by destruct Hsk.
      * intros (path & Hp & Hsk). destruct (before m (target - 1) path) as [c|] eqn:Hc.
        { left. exists path. rewrite Hc. eauto. }
        right. split; [done|]. specialize (Hlate path). destruct (earliest _ path); [|by destruct Hsk].
        destruct Hlate as (l & Hl & Hcl & _).
        assert (is_Some (ms !! l)) as [z Hz].
        { apply (rel_dom _ _ _ R). apply before_Some in Hcl as (q & Hq & _). eauto. }
        exists l, z. split_and!; [done..|]. apply (rel_edited _ _ _ R l z f Hz). exists path.
        rewrite Hcl. eauto.
  - intros i x path c (y & Hi & Hy & -> & _)%Hms (j & Hj & Hc & Hbefore).
    apply (rel_first _ _ _ R i y path c Hy). rewrite Hb in Hc.
    assert (∀ k, i <= k < j → k < target - 1 → before m k path = None) as Hnone.
    { intros k Hk Hlt. rewrite <- (Hbefore k Hk), Hb. by rewrite decide_True. }
    destruct (decide (j < target - 1)) as [Hlt|Hge].
    { exists j. split_and!; [done..|]. intros k Hk. apply Hnone; [done|lia]. }
    case_decide; [|done]. subst j. destruct (before m (target - 1) path) as [c'|] eqn:Hp.
    { injection Hc as <-. exists (target - 1). split_and!; [done..|]. intros k Hk. apply Hnone; [done|lia]. }
    specialize (Hlate path). rewrite Hc in Hlate. destruct Hlate as (l & Hl & Hcl & Hbl).
    exists l. split_and!; [lia|done|]. intros k Hk. destruct (decide (k < target - 1)); [apply Hnone; lia|].
    destruct (decide (k = target - 1)) as [->|]; [done|]. apply Hbl. lia.
  - intros i x f (y & Hi & Hy & -> & _)%Hms Hall. apply (rel_rest _ _ _ R i y f Hy).
    intros path Hp. apply Hno; [done|by apply Hall].
Qed.

(** ** The end of a prompt and the rewind *)

Lemma capture_after_same i t paths tr w tr' w' :
  capture_after root i t paths tr w = (tr', w') →
  files w' = files w ∧ lazy_source tr' = lazy_source tr
  ∧ (filed (rewind_points tr) → filed (rewind_points tr'))
  ∧ (∀ j, is_Some (rewind_points tr' !! j) ↔ is_Some (rewind_points tr !! j))
  ∧ (∀ j path, before (rewind_points tr') j path = before (rewind_points tr) j path).
Proof.
  revert tr w. induction paths as [|p paths IH]; intros tr w; cbn [capture_after].
  { by intros [= <- <-]. }
  unfold fs_try_read. intros Hc. apply IH in Hc as (Hf & Hl & Hfl & Hd & Hb). clear IH.
  set (s := mkFileSnapshot _ _ _) in *. cbn [update_point set_points rewind_points lazy_source] in *.
  assert (∀ j, alter (set_after_snapshot s) i (rewind_points tr) !! j
          = (if decide (j = i) then set_after_snapshot s else id) <$> rewind_points tr !! j) as Hlook.
  { intros j. case_decide; [subst; by rewrite lookup_alter_eq|].
    rewrite lookup_alter_ne by done. by destruct (rewind_points tr !! j). }
  split_and!.
  - by rewrite Hf.
  - by rewrite Hl.
  - intros Hfiled. apply Hfl. intros j q. rewrite Hlook. intros (q' & Hq & ->)%fmap_Some.
    rewrite <- (Hfiled _ _ Hq). by case_decide.
  - intros j. by rewrite Hd, Hlook, fmap_is_Some.
  - intros j path. rewrite Hb. unfold before. rewrite Hlook. destruct (rewind_points tr !! j); [|done].
    cbn. by case_decide.
Qed.

Lemma revert_quiet path c w :
  (∀ n o, fs_error n o = None) → (revert_file root path c w).1 = true.
Proof.
  intros Hq. unfold revert_file, fs_write, fs_exists, fs_delete. destruct c as [data|].
  - destruct (components _) as [|c' [|]]; [|destruct (bool_decide (c' = ROOT))|]; by rewrite !Hq.
  - rewrite Hq. cbn [unwrap_or ops files count_op]. case_bool_decide as Hex; [|done]. rewrite Hq.
    by destruct (files w !! _); [|destruct Hex].
Qed.

Lemma rewind_quiet target tr w resp tr' w' :
  (∀ n o, fs_error n o = None) → rewind_files root target tr w = (resp, tr', w') → success resp = true.
Proof.
  intros Hq. unfold rewind_files. destruct (get_rewind_points tr w) as [[pts tr1] w1].
  assert (∀ entries pr w, had_errors (rewind_loop root pts entries pr w).1 = had_errors pr) as Hloop.
  { clear w w' tr tr' tr1 w1 resp. induction entries as [|[p c] entries IH]; intros pr w; [done|].
    cbn [rewind_loop]. destruct (rewind_one root pts p c pr w) as [pr1 w1] eqn:Hone. rewrite IH.
    apply rewind_one_result in Hone as (ok & Hrev & -> & _).
    pose proof (revert_quiet p c (count_op w) Hq) as Hok. rewrite Hrev in Hok. cbn in Hok. subst.
    apply orb_false_r. }
  destruct (rewind_loop _ _ _ _ _) as [pr w2] eqn:Hl.
  specialize (Hloop (hash_order (map_to_list (files_to_revert pts target))) (mkProgress [] [] [] false) w1).
  rewrite Hl in Hloop. cbn in Hloop. rewrite Hloop.
  destruct (truncate_from target tr1 w2). by intros [= <- <- <-].
Qed.

Context (Hquiet : ∀ n o, fs_error n o = None).

Lemma plan_lookup tr target path c :
  filed (rewind_points tr) →
  files_to_revert (sorted_points tr) target !! path = Some c ↔ first_snapshot (rewind_points tr) target path c.
Proof. intros Hf. rewrite files_to_revert_lookup. by apply earliest_Some. Qed.

(** Without failures the rewind to a prompt brings back its copy of the disk. *)
Lemma rewind_restores tr w d ms target x resp tr' w' :
  related (rewind_points tr) d ms → lazy_source tr = None → files w = d → ms !! target = Some x →
  rewind_files root target tr w = (resp, tr', w') →
  success resp = true ∧ files w' = saved x
  ∧ tr' = set_points (retain_below target (rewind_points tr)) tr.
Proof.
  intros R Hlazy Hd Hx Hrw. pose proof (rewind_quiet _ _ _ _ _ _ Hquiet Hrw) as Hok.
  pose proof (rel_filed _ _ _ R) as Hfiled.
  assert (get_rewind_points tr w = (sorted_points tr, tr, w)) as Hget.
  { unfold get_rewind_points, ensure_historical_loaded. by rewrite Hlazy. }
  destruct (rewind_files_result root target tr w resp tr' w' _ _ _ Hget Hrw)
    as (results & Hres & Hs & _ & _ & _ & Hother & Hin & _ & Htr).
  split_and!; [done| |by apply Htr].
  assert (∀ p c (ok : bool), (p, c, ok) ∈ results → first_snapshot (rewind_points tr) target p c) as Hplan.
  { intros p c ok Hr. apply plan_lookup; [done|]. apply elem_of_map_to_list. rewrite <- Hres.
    change (p, c) with ((p, c, ok).1). by apply list_elem_of_fmap_2. }
  assert (∀ p c, first_snapshot (rewind_points tr) target p c → ∃ ok : bool, (p, c, ok) ∈ results) as Hplan'.
  { intros p c Hf. apply plan_lookup, elem_of_map_to_list in Hf; [|done]. rewrite <- Hres in Hf.
    apply list_elem_of_fmap in Hf as ([[q e] ok] & [= -> ->] & Hr). eauto. }
  assert (∀ p, p ∈ result_path <$> results → ∃ rel, p = Relative rel ∧ good rel) as Hgood.
  { intros p ([[q c] ok] & -> & Hr)%list_elem_of_fmap. cbn. destruct (Hplan _ _ _ Hr) as (j & _ & Hb & _).
    apply (rel_keys _ _ _ R j). rewrite Hb. eauto. }
  assert (NoDup (abs ∘ result_path <$> results)) as Hnd.
  { rewrite list_fmap_compose. apply NoDup_fmap_2_strong.
    - intros p q Hp Hq. destruct (Hgood p Hp) as (r & -> & Hr). destruct (Hgood q Hq) as (r' & -> & Hr').
      intros Heq. f_equal. by apply abs_inj.
    - assert (result_path <$> results = results.*1.*1) as -> by (by rewrite <- list_fmap_compose).
      rewrite Hres. apply NoDup_fst_map_to_list. }
  apply map_eq. intros f. destruct (decide (f ∈ abs ∘ result_path <$> results)) as [Hf|Hf].
  - apply list_elem_of_fmap in Hf as ([[p c] ok] & -> & Hr). cbn. specialize (Hin Hnd p c ok Hr).
    assert (ok = true) as ->.
    { rewrite Hok in Hs. symmetry in Hs. rewrite forallb_forall in Hs. apply (Hs (p, c, ok)).
      by apply list_elem_of_In. }
    destruct Hin as [->|(_ & _ & i & [e He])]; [symmetry|by rewrite Hquiet in He].
    apply (rel_first _ _ _ R target x p c Hx). by eapply Hplan.
  - rewrite Hother by done. rewrite Hd. symmetry. apply (rel_rest _ _ _ R target x f Hx).
    intros path Hp j Hj. apply eq_None_not_Some. intros Hsome.
    destruct (first_of_some _ _ _ _ Hj Hsome) as [c Hc]. destruct (Hplan' _ _ Hc) as [ok Hr].
    apply Hf. rewrite <- Hp. by apply (list_elem_of_fmap_2 (abs ∘ result_path) _ _ Hr).
Qed.

Lemma related_empty d : related ∅ d ∅.
Proof.
  split.
  - by intros j p Hp%lookup_empty_Some.
  - intros j. by rewrite !lookup_empty.
  - intros j path [c Hc]. unfold before in Hc. by rewrite lookup_empty in Hc.
  - by intros j x f Hx%lookup_empty_Some.
  - by intros j x path c Hx%lookup_empty_Some.
  - by intros j x f Hx%lookup_empty_Some.
Qed.

(** The state of the session against that of the specification. *)
Definition sim (s : Session) (sp : Spec) : Prop :=
  files (world s) = disk sp ∧ lazy_source (tracker s) = None
  ∧ related (rewind_points (tracker s)) (disk sp) (marks sp).

Lemma sim_step e s sp :
  sim s sp → allowed root (tool_prompt_index s) e sp →
  sim (session_step root e s) (spec_step root (tool_prompt_index s) e sp)
  ∧ tool_prompt_index (session_step root e s) = next_index (tool_prompt_index s) e.
Proof.
  destruct s as [tr w i], sp as [d ms]. intros (Hd & Hlazy & R) Hall. cbn in Hd, Hlazy, R.
  destruct e as [j t|j t|n new t|p new|target|target]; cbn [session_step spec_step tool_prompt_index next_index].
  - split; [|done]. split_and!; [done..|]. by apply related_begin.
  - unfold end_prompt. destruct (capture_after _ _ _ _ _ _) as [tr' w'] eqn:Hc. split; [|done].
    apply capture_after_same in Hc as (Hf & Hl & Hfl & Hdom & Hb). split_and!; cbn in *.
    + by rewrite Hf.
    + by rewrite Hl.
    + eapply related_same; [done|by apply Hfl, R|done|done].
  - destruct Hall as (Hi & Hmax & Habs & Hcl & Hne & Hprev & Hnew). cbn in Hi, Hmax, Hprev. split; [|done].
    set (p := absolute_path n) in *.
    assert (bool_decide (is_Some (previous_content n)) || is_new_file n = true) as Hguard.
    { destruct (previous_content n); [done|]. rewrite Hnew by done. by rewrite orb_true_r. }
    unfold handle_file_written. rewrite Hguard. cbn [snd]. unfold add_before_snapshot_for_prompt. fold p.
    destruct (tracked root p) eqn:Ht.
    + destruct (tracked_good p Hcl Hne Ht) as (rel & Hrel & Hg & Hp). rewrite Hrel.
      split_and!; [by cbn; rewrite Hd|done|]. cbn [tracker rewind_points set_points disk marks].
      rewrite Hprev, <- Hp. by apply related_edit.
    + unfold tracked in Ht. destruct (from_absolute root p); [|done].
      split_and!; [by cbn; rewrite Hd|done|]. by apply related_external.
  - split; [|done]. split_and!; [by cbn; rewrite Hd|done|]. by apply related_external.
  - destruct Hall as [x Hx]. cbn in Hx. rewrite Hx.
    destruct (rewind_files root target tr w) as [[resp tr'] w'] eqn:Hrw. split; [|done].
    destruct (rewind_restores _ _ _ _ _ _ _ _ _ R Hlazy Hd Hx Hrw) as (_ & Hf & ->).
    split_and!; [done..|]. by apply (related_rewind _ d).
  - destruct Hall as [Ht Hs]. cbn in Hs. destruct (merge_and_remove_from target tr w) as [tr' w'] eqn:Hm.
    split; [|done]. destruct (proj2 (rel_dom _ _ _ R _) Hs) as [previous Hprev].
    destruct (merge_points tr (rel_filed _ _ _ R) target previous w tr' w' Hlazy Ht Hprev Hm) as (-> & Hl & _ & _).
    split_and!; [done..|]. by eapply related_forget.
Qed.

Lemma sim_run es s sp :
  sim s sp → all_allowed root (tool_prompt_index s) es sp →
  sim (session_run root es s) (spec_run root (tool_prompt_index s) es sp).
Proof.
  revert s sp. induction es as [|e es IH]; intros s sp Hsim; [done|]. intros [Hall Hes].
  destruct (sim_step e s sp Hsim Hall) as [Hstep Hi]. cbn [session_run foldl spec_run].
  rewrite <- Hi in Hes |- *. by apply IH.
Qed.


End refinement.
