(* ===== verification/RewindTools.v ===== *)
(** * Edits of the tools, undone

    A successful patch and a successful search-and-replace, the notifications they send,
    the bridge and the rewind, composed: the files are as before the call.  The cases in
    which they are not are shown by concrete runs. *)

From S2P Require Import Prelude Text TextProps Utf8 Json Paths ToolFs ApplyPatch ApplyPatchProps ApplyPatchText SearchReplace SearchReplaceProps SearchReplaceTool.
From S2P Require Import FileState FileStateProps SessionRewind.

Open Scope nat_scope.

(** ** Notifications as edits of a session *)

(** Each notification with what it leaves at its path. *)
Notation Edits := (list (FileWritten * option text)).

Definition edit_events (l : Edits) (t : Z) : list Event := (λ x, ToolEdit x.1 x.2 t) <$> l.
Definition edited_files (l : Edits) (d : gmap text text) : gmap text text :=
  foldl (λ d x, put (absolute_path x.1) x.2 d) d l.

(** The bridge handles the notifications in their order. *)
Definition handle_all (i : nat) (root : text) (ns : list FileWritten) (t : Z) (tr : FileStateTracker)
    : FileStateTracker := foldl (λ tr n, (handle_file_written i root n t tr).2) tr ns.

(** A file that the rewind tracks. *)
Definition trackable (root p : text) : Prop :=
  is_absolute p = true ∧ clean p = true ∧ p ≠ root ∧ tracked root p = true.

(** The notification tells what the file was. *)
Definition truthful (d : gmap text text) (n : FileWritten) : Prop :=
  previous_content n = d !! absolute_path n ∧ (previous_content n = None → is_new_file n = true).

Section edits.
Context `{HashOrder, !HashOrderPerm, FsErrors, RewindSerde}.
Context (root : text) (Habsolute : is_absolute root = true) (Hclean : clean root = true).
Context (Hquiet : ∀ n o, fs_error n o = None).

Lemma edits_session (l : Edits) t tr w i :
  let s := session_run root (edit_events l t) (mkSession tr w i) in
  tracker s = handle_all i root l.*1 t tr ∧ files (world s) = edited_files l (files w)
  ∧ tool_prompt_index s = i.
Proof.
  revert tr w. induction l as [|[n new] l IH]; intros tr w; [done|]. apply IH.
Qed.

Lemma edits_allowed (l : Edits) t i d ms x :
  NoDup (absolute_path <$> l.*1) →
  (∀ n new, (n, new) ∈ l → trackable root (absolute_path n) ∧ truthful d n) →
  ms !! i = Some x → (∀ k, is_Some (ms !! k) → k <= i) →
  all_allowed root i (edit_events l t) (mkSpec d ms)
  ∧ ∃ y, marks (spec_run root i (edit_events l t) (mkSpec d ms)) !! i = Some y ∧ saved y = saved x.
Proof.
  revert d ms x. induction l as [|[n new] l IH]; intros d ms x Hnd Hl Hx Hmax; [split; [done|by exists x]|].
  apply NoDup_cons in Hnd as [Hn Hnd].
  destruct (Hl n new ltac:(by left)) as [(Ha & Hc & Hne & Ht) [Hp Hnew]].
  cbn [edit_events fmap list_fmap all_allowed spec_run next_index fst snd].
  fold (edit_events l t). cbn [spec_step]. rewrite Ht.
  destruct (IH (put (absolute_path n) new d) (alter (add_edited {[absolute_path n]}) i ms)
              (add_edited {[absolute_path n]} x)) as [Hall (y & Hy & Hs)].
  - done.
  - intros m new' Hm. destruct (Hl m new' ltac:(by right)) as [Htr [Hpm Hnm]]. split; [done|].
    split; [|done]. rewrite put_ne; [done|]. intros Heq. apply Hn. cbn. rewrite <- Heq.
    apply list_elem_of_fmap_2. change m with ((m, new').1). by apply list_elem_of_fmap_2.
  - by rewrite lookup_alter_eq, Hx.
  - intros k. destruct (decide (k = i)) as [->|Hk]; [done|]. rewrite lookup_alter_ne by done. apply Hmax.
  - split; [|by eauto]. split; [|done]. split_and!; [by eauto|done..].
Qed.

Lemma all_allowed_app i es es' sp :
  all_allowed root i (es ++ es') sp ↔
  all_allowed root i es sp ∧ all_allowed root (foldl next_index i es) es' (spec_run root i es sp).
Proof. revert i sp. induction es as [|e es IH]; intros i sp; cbn; [tauto|]. rewrite IH. tauto. Qed.

Lemma spec_run_app i es es' sp :
  spec_run root i (es ++ es') sp = spec_run root (foldl next_index i es) es' (spec_run root i es sp).
Proof. revert i sp. induction es as [|e es IH]; intros i sp; cbn; [done|]. apply IH. Qed.

Lemma start_sim w i : sim root (mkSession tracker_new w i) (mkSpec (files w) ∅).
Proof. split_and!; [done..|]. apply related_empty. Qed.

(** Truthful notifications about different tracked files, handled after a session in which
    the prompt [i] was the last to begin: the rewind to it undoes them. *)
Lemma edits_rewound es w0 i0 i t t' (l : Edits) w' :
  all_allowed root i0 (es ++ [BeginPrompt i t]) (mkSpec (files w0) ∅) →
  let s := session_run root (es ++ [BeginPrompt i t]) (mkSession tracker_new w0 i0) in
  NoDup (absolute_path <$> l.*1) →
  (∀ n new, (n, new) ∈ l → trackable root (absolute_path n) ∧ truthful (files (world s)) n) →
  files w' = edited_files l (files (world s)) →
  let '(resp, _, w'') := rewind_files root i (handle_all i root l.*1 t' (tracker s)) w' in
  success resp = true ∧ files w'' = files (world s).
Proof.
  intros Hall s Hnd Hl Hw'. set (sp0 := mkSpec (files w0) ∅) in *.
  assert (sim root s (spec_run root i0 (es ++ [BeginPrompt i t]) sp0)) as Hsim.
  { by apply (sim_run root Habsolute Hclean Hquiet _ (mkSession tracker_new w0 i0)); [apply start_sim|]. }
  assert (tool_prompt_index s = i) as Hi.
  { unfold s, session_run. rewrite foldl_snoc. by destruct (foldl _ _ es). }
  apply all_allowed_app in Hall as [_ [Hbegin _]]. rewrite spec_run_app in Hsim.
  destruct (spec_run root i0 es sp0) as [d m] eqn:Hsp. cbn [spec_run spec_step] in Hsim. cbn in Hbegin.
  assert (m !! i = None) as Hm by (apply eq_None_not_Some; intros Hs; specialize (Hbegin _ Hs); lia).
  unfold or_insert in Hsim. rewrite Hm in Hsim. set (ms := <[i := mkMark d ∅]> m) in *.
  assert (∀ k, is_Some (ms !! k) → k <= i) as Hmax.
  { intros k. destruct (decide (k = i)) as [->|Hne]; [done|]. unfold ms. rewrite lookup_insert_ne by done.
    intros Hk%Hbegin. lia. }
  destruct Hsim as (Hd & Hlazy & R). cbn [disk marks] in Hd, R.
  destruct (edits_allowed l t' i d ms (mkMark d ∅) Hnd) as [Hedits (y & Hy & Hsy)].
  { intros n new Hn. rewrite <- Hd. by apply (Hl n new). }
  { apply lookup_insert_eq. }
  { done. }
  destruct s as [tr w j]. cbn [tool_prompt_index world tracker] in *. subst j.
  assert (sim root (mkSession tr w i) (mkSpec d ms)) as Hsim by done.
  pose proof (sim_run root Habsolute Hclean Hquiet _ _ _ Hsim Hedits) as (Hd' & Hlazy' & R').
  destruct (edits_session l t' tr w i) as (Htr & Hf & _). rewrite Htr in Hlazy', R'.
  destruct (rewind_files root i _ w') as [[resp tr'] w''] eqn:Hrw.
  destruct (rewind_restores root Habsolute Hclean Hquiet _ _ _ _ _ _ _ _ _ R' Hlazy'
    ltac:(rewrite Hw', <- Hf; exact Hd') Hy Hrw) as (Hok & Hfiles & _).
  split; [done|]. rewrite Hfiles, Hsy. cbn. by rewrite Hd.
Qed.

(** ** Patches *)

(** The files that a hunk makes: they must not be there before. *)
Definition new_targets (cwd : text) (h : PatchHunk) : list text :=
  match h with
  | AddFile p _ => [ApplyPatch.path_join cwd p]
  | UpdateFile _ (Some d) _ => [ApplyPatch.path_join cwd d]
  | _ => []
  end.

Definition change_edits (c : FileChange) : Edits :=
  match c with
  | Add p c => [(mkWritten p c None true, Some c)]
  | Delete p o => [(mkWritten p [] (Some o) false, None)]
  | Update p o n => [(mkWritten p n (Some o) false, Some n)]
  | Move s d o n => [(mkWritten d n None true, Some n); (mkWritten s [] (Some o) false, None)]
  end.

Lemma change_edits_notes cs : (cs ≫= change_edits).*1 = cs ≫= notes.
Proof. induction cs as [|c cs IH]; [done|]. cbn. rewrite fmap_app, IH. by destruct c. Qed.

Lemma change_edits_effect cs fs : edited_files (cs ≫= change_edits) fs = foldl effect fs cs.
Proof.
  revert fs. induction cs as [|c cs IH]; intros fs; [done|]. cbn. unfold edited_files in *.
  rewrite foldl_app, IH. by destruct c.
Qed.

Lemma change_truthful cwd before h c n new :
  change_of cwd before h c →
  (∀ p bytes, p ∈ targets cwd h → before !! p = Some bytes → utf8_valid bytes = true) →
  (∀ p, p ∈ new_targets cwd h → before !! p = None) →
  (n, new) ∈ change_edits c → absolute_path n ∈ targets cwd h ∧ truthful before n.
Proof.
  intros Hc Hutf Hnew Hn. unfold truthful.
  destruct h as [p t|p|p m chunks]; cbn [change_of targets new_targets] in *.
  - subst c. cbn in Hn. apply list_elem_of_singleton in Hn as [= -> ->]. cbn.
    rewrite Hnew by set_solver. split; [set_solver|done].
  - destruct Hc as (bytes & Hb & ->). assert (from_utf8_lossy bytes = bytes) as Hlossy.
    { apply from_utf8_lossy_valid. eapply Hutf; [|done]. set_solver. }
    rewrite Hlossy in Hn. apply list_elem_of_singleton in Hn as [= -> ->]. cbn. rewrite Hb.
    split; [set_solver|done].
  - destruct Hc as (bytes & nw & Hb & _ & ->). assert (from_utf8_lossy bytes = bytes) as Hlossy.
    { apply from_utf8_lossy_valid. eapply Hutf; [|done]. destruct m; set_solver. }
    rewrite Hlossy in Hn. destruct m as [dst|]; cbn in Hn.
    + apply elem_of_cons in Hn as [[= -> ->]|[= -> ->]%list_elem_of_singleton]; cbn.
      * rewrite Hnew by set_solver. split; [set_solver|done].
      * rewrite Hb. split; [set_solver|done].
    + apply list_elem_of_singleton in Hn as [= -> ->]. cbn. rewrite Hb. split; [set_solver|done].
Qed.

(** C17: as long as no file operation fails, a successful patch is undone by the rewind to
    its prompt, after any session with allowed events: the files are what they were before the call.  The hunks touch different files, which hold text
    and are tracked; the files that the patch makes were not there. *)
Theorem patch_rewound es w0 i0 i t t' cwd input parsed results summary w' :
  all_allowed root i0 (es ++ [BeginPrompt i t]) (mkSpec (files w0) ∅) →
  let s := session_run root (es ++ [BeginPrompt i t]) (mkSession tracker_new w0 i0) in
  parse_patch input = Some (inr parsed) →
  NoDup (ApplyPatch.hunks parsed ≫= targets cwd) →
  (∀ p, p ∈ ApplyPatch.hunks parsed ≫= targets cwd → trackable root p
        ∧ ∀ bytes, files (world s) !! p = Some bytes → utf8_valid bytes = true) →
  (∀ p, p ∈ ApplyPatch.hunks parsed ≫= new_targets cwd → files (world s) !! p = None) →
  run_apply_patch cwd input (world s) = Some (inr (Success results summary), w') →
  ∃ sent, notified w' = notified (world s) ++ sent
    ∧ let '(resp, _, w'') := rewind_files root i (handle_all i root sent t' (tracker s)) w' in
      success resp = true ∧ files w'' = files (world s).
Proof.
  intros Hall s Hp Hnd Htargets Hfresh Hrun. unfold run_apply_patch in Hrun. rewrite Hp in Hrun.
  cbn [mbind option_bind] in Hrun. destruct (ApplyPatch.hunks parsed) as [|h hs]; [done|].
  set (all := h :: hs) in *.
  destruct (compute_all_changes cwd all (world s)) as [[[e|cs] w1]|] eqn:Hc; cbn [mbind option_bind] in Hrun; try done.
  apply compute_all_inv in Hc as (Hf & Hn & Hcs).
  destruct (apply_changes cs w1) as [[e|rs] w2] eqn:Ha; [done|]. injection Hrun as _ _ <-.
  apply apply_changes_inv in Ha as [Hf' Hn']. rewrite Hf in Hf'. rewrite Hn in Hn'.
  exists (cs ≫= notes). split; [done|]. rewrite <- change_edits_notes.
  apply (edits_rewound es w0 i0 i t t' (cs ≫= change_edits) w2 Hall).
  - rewrite change_edits_notes. by rewrite (notes_targets_all _ _ _ _ Hcs).
  - intros n new (c & Hnc & Hc)%list_elem_of_bind. fold s.
    apply list_elem_of_lookup in Hc as [k Hk].
    destruct (Forall2_lookup_r _ _ _ _ _ Hcs Hk) as (h' & Hh' & Hof).
    apply list_elem_of_lookup_2 in Hh'.
    destruct (change_truthful cwd _ h' c n new Hof) as [Hin Htr]; [| |done|].
    + intros p bytes Hpt. apply Htargets. apply list_elem_of_bind. eauto.
    + intros p Hpt. apply Hfresh. apply list_elem_of_bind. eauto.
    + split; [|done]. apply Htargets. apply list_elem_of_bind. eauto.
  - rewrite change_edits_effect. done.
Qed.

(** The same for edits that the search-and-replace tool applied to a text. *)
Theorem edit_rewound `{EditEnv} es w0 i0 i t t' input params is_legacy is_dir ignored path a w' :
  all_allowed root i0 (es ++ [BeginPrompt i t]) (mkSpec (files w0) ∅) →
  let s := session_run root (es ++ [BeginPrompt i t]) (mkSession tracker_new w0 i0) in
  old_string input ≠ [] → utf8_valid (old_string input) = true → utf8_valid (new_string input) = true →
  trackable root path → (∀ bytes, files (world s) !! path = Some bytes → utf8_valid bytes = true) →
  run_search_replace input params is_legacy is_dir ignored path (world s) = Some (inr (EditsApplied a), w') →
  ∃ sent, notified w' = notified (world s) ++ sent
    ∧ let '(resp, _, w'') := rewind_files root i (handle_all i root sent t' (tracker s)) w' in
      success resp = true ∧ files w'' = files (world s).
Proof.
  intros Hall s Hne Ho Hn Htr Hutf Hrun.
  destruct (run_guards input params is_legacy is_dir ignored path (world s)) as [(r & Hr & Hno)|Hr].
  { rewrite Hr in Hrun. injection Hrun as -> _. by destruct (Hno a). }
  rewrite Hr, decide_False in Hrun by done.
  destruct (handle_replacement_total input params is_legacy path (world s) Hne Ho Hn) as (r' & w'' & Heq & Ht).
  rewrite Heq in Hrun. injection Hrun as -> ->.
  destruct Ht as (bytes & ps & Hb & _ & _ & _ & _ & Hf & Hnt).
  rewrite from_utf8_lossy_valid in Hnt by by apply Hutf. eexists. split; [exact Hnt|].
  set (n := mkWritten _ _ _ _). apply (edits_rewound es w0 i0 i t t' [(n, Some (content n))] w' Hall).
  - apply NoDup_singleton.
  - intros m new [= -> ->]%list_elem_of_singleton. split; [done|]. split; [|done].
    symmetry. exact Hb.
  - done.
Qed.

End edits.

(** ** Concrete sessions *)

#[local] Instance plain_order : HashOrder := {| hash_order A l := l |}.
#[local] Instance plain_order_perm : HashOrderPerm.
Proof. split. done. Qed.
#[local] Instance no_errors : FsErrors := {| fs_error _ _ := None; fs_partial _ _ := None; not_found := txt "no such file" |}.
#[local] Instance no_history : RewindSerde :=
  {| from_str _ := None; to_string _ := []; datetime_from_str _ := None; datetime_to_string _ := [] |}.

Lemma no_error n o : @fs_error no_errors n o = None.
Proof. done. Qed.

Definition W : text := txt "/w".
Definition one_text (s : string) : World := mkWorld {[ txt "/w/f" := txt s ]} 0 [].

(** The file after the bridge has handled the notifications of a call during prompt 0 and
    the prompt is rewound. *)
Definition rewound (w w' : World) : option text :=
  let s := session_run W [BeginPrompt 0 0] (mkSession tracker_new w 0) in
  let '(_, _, w'') := rewind_files W 0 (handle_all 0 W (notified w') 0 (tracker s)) w' in
  files w'' !! txt "/w/f".

(** A patch that adds a file over an existing one reports no content before: the rewind
    removes the file, and what it held is gone. *)
Example added_over_existing_lost :
  match run_apply_patch W (txt "*** Begin Patch" ++ [LF] ++ txt "*** Add File: f" ++ [LF]
          ++ txt "+new" ++ [LF] ++ txt "*** End Patch") (one_text "old") with
  | Some (inr (Success _ _), w') =>
      files w' !! txt "/w/f" = Some (txtln "new") ∧ rewound (one_text "old") w' = None
  | _ => False
  end.
Proof. by vm_compute. Qed.

(** The keys of a map, checked one by one. *)
Lemma keys_all {A} (f : nat → bool) (m : gmap nat A) :
  forallb (λ x, f x.1) (map_to_list m) = true → ∀ k, is_Some (m !! k) → f k = true.
Proof.
  rewrite forallb_forall. intros Hf k [a Ha]. apply (Hf (k, a)), list_elem_of_In. by apply elem_of_map_to_list.
Qed.

(** The order of events, decided. *)
Definition last_prompt (m : gmap nat Mark) (f : nat → bool) : bool := forallb (λ x, f x.1) (map_to_list m).
Definition allowed_b (root : text) (i : nat) (e : Event) (s : Spec) : bool :=
  match e with
  | BeginPrompt j _ => last_prompt (marks s) (λ k, k <? j)
  | EndPrompt _ _ | ExternalEdit _ _ => true
  | ToolEdit n new _ =>
      bool_decide (is_Some (marks s !! i)) && last_prompt (marks s) (λ k, k <=? i)
      && is_absolute (absolute_path n) && clean (absolute_path n) && bool_decide (absolute_path n ≠ root)
      && bool_decide (previous_content n = disk s !! absolute_path n)
      && (bool_decide (is_Some (previous_content n)) || is_new_file n)
  | RewindFiles target => bool_decide (is_Some (marks s !! target))
  | ForgetPrompts target => bool_decide (target ≠ 0) && bool_decide (is_Some (marks s !! (target - 1)))
  end.
Fixpoint all_allowed_b (root : text) (i : nat) (es : list Event) (s : Spec) : bool :=
  match es with
  | [] => true
  | e :: es => allowed_b root i e s && all_allowed_b root (next_index i e) es (spec_step root i e s)
  end.

Lemma allowed_b_sound root i e s : allowed_b root i e s = true → allowed root i e s.
Proof.
  destruct e; cbn [allowed_b allowed]; intros Hb; repeat (apply andb_true_iff in Hb as [Hb ?]);
    repeat match goal with
    | Hk : last_prompt _ _ = true |- _ => pose proof (keys_all _ _ Hk); clear Hk
    | Hk : bool_decide _ = true |- _ => apply bool_decide_eq_true in Hk
    end; try done.
  - intros k Hk. by apply Nat.ltb_lt; auto.
  - split_and!; try done; [intros k Hk; by apply Nat.leb_le; auto|].
    intros Hn. destruct (previous_content n); [done|]. by destruct (is_new_file n).
Qed.

Lemma all_allowed_b_sound root i es s : all_allowed_b root i es s = true → all_allowed root i es s.
Proof.
  revert i s. induction es as [|e es IH]; intros i s; cbn; [done|].
  intros [He%allowed_b_sound Hes]%andb_true_iff. auto.
Qed.

Definition f_path : text := txt "/w/f".
Definition g_path : text := txt "/w/g".

(** Two prompts, a change from outside between edits, and the second prompt forgotten. *)
Definition two_prompts : list Event :=
  [ BeginPrompt 0 0;
    ToolEdit (mkWritten f_path (txt "new") (Some (txt "old")) false) (Some (txt "new")) 1;
    EndPrompt 0 (λ _, 2%Z);
    ExternalEdit (txt "/w/h") (Some (txt "theirs"));
    BeginPrompt 1 3;
    ToolEdit (mkWritten f_path (txt "newer") (Some (txt "new")) false) (Some (txt "newer")) 4;
    ToolEdit (mkWritten g_path (txt "made") None true) (Some (txt "made")) 5;
    ExternalEdit g_path (Some (txt "changed"));
    ForgetPrompts 1 ].

Lemma two_prompts_allowed : all_allowed W 0 two_prompts (mkSpec (files (one_text "old")) ∅).
Proof. apply all_allowed_b_sound. by vm_compute. Qed.

Definition s_two : Session := session_run W two_prompts (mkSession tracker_new (one_text "old") 0).


(** Forgetting the second prompt, from the tracker that has both. *)
Definition s_both : Session := session_run W (take 8 two_prompts) (mkSession tracker_new (one_text "old") 0).

Lemma s_both_filed : filed (rewind_points (tracker s_both)).
Proof.
  intros j p Hp%elem_of_map_to_list.
  assert (forallb (λ x, point_index x.2 =? x.1) (map_to_list (rewind_points (tracker s_both))) = true) as Hall
    by by vm_compute.
  rewrite forallb_forall in Hall. apply Nat.eqb_eq, (Hall (j, p)). by apply list_elem_of_In.
Qed.

Lemma merge_keeps_plans_witness :
  let '(tr', _) := merge_and_remove_from 1 (tracker s_both) (world s_both) in
  let plan := files_to_revert (sorted_points tr') 0 in
  plan !! Relative [txt "f"] = Some (Some (txt "old")) ∧ plan !! Relative [txt "g"] = Some None.
Proof.
  destruct (merge_and_remove_from 1 (tracker s_both) (world s_both)) as [tr' w'] eqn:Hm.
  assert (rewind_points (tracker s_both) !! (1 - 1)
    = Some (default (RewindPoint_new 0 0) (rewind_points (tracker s_both) !! 0))) as Hp by by vm_compute.
  assert (lazy_source (tracker s_both) = None) as Hlazy by by vm_compute.
  destruct (merge_keeps_plans (tracker s_both) s_both_filed 1 _ (world s_both) tr' w' Hlazy
    (Nat.neq_succ_0 0) Hp Hm 0 Nat.lt_0_1) as [Heq _].
  rewrite Heq. by split; vm_compute.
Defined.

(** A patch of three files in a third prompt, and its rewind. *)
Definition third_hunks : list PatchHunk :=
  [ UpdateFile (txt "f") None [mkChunk None [txt "old"] [txt "patched"] false];
    AddFile (txt "n") (txtln "one"); DeleteFile (txt "h") ].
Definition one_prompt : list Event := take 4 two_prompts ++ [RewindFiles 0].
Definition s_third : Session :=
  session_run W (one_prompt ++ [BeginPrompt 2 6]) (mkSession tracker_new (one_text "old") 0).
Definition third_run := run_apply_patch W (print_patch third_hunks) (world s_third).
Definition third_world : World := match third_run with Some (_, w) => w | None => world s_third end.
Definition third_results : list ApplyPatchFileResult :=
  match third_run with Some (inr (Success rs _), _) => rs | _ => [] end.

Definition trackable_b (root p : text) : bool :=
  is_absolute p && clean p && bool_decide (p ≠ root) && tracked root p.
Lemma trackable_b_sound root p : trackable_b root p = true → trackable root p.
Proof.
  unfold trackable_b, trackable. rewrite !andb_true_iff. by intros [[[? ?] ?%bool_decide_eq_true] ?].
Qed.

(** Every target of the hunks is tracked and holds text. *)
Lemma third_targets p :
  p ∈ third_hunks ≫= targets W →
  trackable W p ∧ ∀ bytes, files (world s_third) !! p = Some bytes → utf8_valid bytes = true.
Proof.
  intros Hp. assert (forallb (λ p, trackable_b W p
    && match files (world s_third) !! p with Some bytes => utf8_valid bytes | None => true end)
    (third_hunks ≫= targets W) = true) as Hall by by vm_compute.
  rewrite forallb_forall in Hall. apply list_elem_of_In, Hall, andb_true_iff in Hp as [Ht Hb].
  split; [by apply trackable_b_sound|]. intros bytes Hf. by rewrite Hf in Hb.
Qed.

Lemma one_prompt_allowed : all_allowed W 0 (one_prompt ++ [BeginPrompt 2 6]) (mkSpec (files (one_text "old")) ∅).
Proof. apply all_allowed_b_sound. by vm_compute. Qed.

Lemma patch_rewound_witness :
  files third_world !! f_path = Some (txtln "patched") ∧ files third_world !! txt "/w/h" = None
  ∧ let '(resp, _, w) := rewind_files W 2 (handle_all 2 W (notified third_world) 7 (tracker s_third)) third_world in
    success resp = true ∧ files w = files (world s_third).
Proof.
  split_and!; [by vm_compute..|].
  destruct (patch_rewound W eq_refl eq_refl no_error one_prompt (one_text "old") 0 2 6 7 W
    (print_patch third_hunks) (mkParsed third_hunks (print_patch third_hunks)) third_results
    (build_summary third_results) third_world one_prompt_allowed) as (sent & Hsent & Hres).
  - by vm_compute.
  - apply (bool_decide_unpack _). by vm_compute.
  - apply third_targets.
  - intros p Hp. vm_compute in Hp. inversion Hp as [|? ? ? Hp']; subst; [by vm_compute|inversion Hp'].
  - by vm_compute.
  - fold s_third in Hsent, Hres. assert (notified (world s_third) = []) as Hnil by by vm_compute.
    rewrite Hnil in Hsent. cbn in Hsent. by rewrite Hsent.
Defined.

#[local] Instance plain_edits : EditEnv :=
  {| render := inr; format_not_found_error := λ p, txt "no such file: " ++ p;
     detected := mkTools None None None None |}.
Definition third_input : SearchReplaceInput := mkInput (txt "f") (txt "l") (txt "x") false.
Definition edit_run := run_search_replace third_input (mkParams false true true) false false false f_path (world s_third).
Definition edit_world : World := match edit_run with Some (_, w) => w | None => world s_third end.

Lemma edit_rewound_witness :
  files edit_world !! f_path = Some (txt "oxd")
  ∧ let '(resp, _, w) := rewind_files W 2 (handle_all 2 W (notified edit_world) 7 (tracker s_third)) edit_world in
    success resp = true ∧ files w = files (world s_third).
Proof.
  split; [by vm_compute|].
  assert (∃ a, edit_run = Some (inr (EditsApplied a), edit_world)) as [a Hrun] by (eexists; by vm_compute).
  destruct (edit_rewound W eq_refl eq_refl no_error one_prompt (one_text "old") 0 2 6 7
    third_input (mkParams false true true) false false false f_path a edit_world one_prompt_allowed)
    as (sent & Hsent & Hres).
  - done.
  - done.
  - done.
  - by apply trackable_b_sound.
  - intros bytes Hb. vm_compute in Hb. by injection Hb as <-.
  - exact Hrun.
  - fold s_third in Hsent, Hres. assert (notified (world s_third) = []) as Hnil by by vm_compute.
    rewrite Hnil in Hsent. cbn in Hsent. by rewrite Hsent.
Defined.

(** ** Failures *)

(** The write of [g_path] fails. *)
Definition locked : FsErrors :=
  {| fs_error _ o := match o with
                     | WriteOp p => if bool_decide (p = g_path) then Some (txt "locked", OtherKind) else None
                     | _ => None
                     end;
     fs_partial _ _ := None; not_found := txt "no such file" |}.

Definition locked_tracker : FileStateTracker :=
  handle_all 0 W [mkWritten f_path (txt "1") (Some (txt "0")) false; mkWritten g_path (txt "1") (Some (txt "0")) false]
    0 (begin_prompt 0 0 tracker_new).
Definition locked_world : World := mkWorld {[ f_path := txt "1"; g_path := txt "1" ]} 0 [].
Definition locked_rewind := @rewind_files plain_order locked no_history W 0 locked_tracker locked_world.

Lemma locked_loaded :
  get_rewind_points (H0 := locked) (H1 := no_history) locked_tracker locked_world
  = (sorted_points locked_tracker, locked_tracker, locked_world).
Proof.
  assert (lazy_source locked_tracker = None) as Hl by by vm_compute.
  unfold get_rewind_points, ensure_historical_loaded. by rewrite Hl.
Qed.

Lemma locked_filed : filed (rewind_points locked_tracker).
Proof.
  change (map_Forall (λ i p, point_index p = i) (rewind_points locked_tracker)).
  apply (bool_decide_unpack _). by vm_compute.
Qed.

(** One file fails: the other is reverted, the answer is an error, the points stay. *)
Lemma rewind_files_exact_witness :
  success locked_rewind.1.1 = false ∧ reverted_files locked_rewind.1.1 = [txt "f"]
  ∧ locked_rewind.1.2 = locked_tracker
  ∧ ∃ results : list (FlexiblePath * option text * bool),
      (∀ path c, (path, c) ∈ results.*1 ↔ first_snapshot (rewind_points locked_tracker) 0 path c)
      ∧ forallb snd results = false.
Proof.
  destruct locked_rewind as [[resp tr'] w'] eqn:Hrun. cbn [fst snd].
  assert (success resp = false ∧ reverted_files resp = [txt "f"]) as [Hs Hr].
  { pose proof (f_equal (λ x, (success x.1.1, reverted_files x.1.1)) Hrun) as Heq. cbn [fst snd] in Heq.
    assert ((success locked_rewind.1.1, reverted_files locked_rewind.1.1) = (false, [txt "f"])) as Hv by by vm_compute.
    rewrite Hv in Heq. injection Heq as <- <-. split; reflexivity. }
  destruct (rewind_files_exact (H := plain_order) (H1 := locked) (H2 := no_history) W 0 locked_tracker
    locked_world resp tr' w' (sorted_points locked_tracker) locked_tracker locked_world)
    as (results & _ & Hplan & Hok & _ & _ & _ & _ & _ & Hfail & _); [exact locked_loaded|exact Hrun|exact locked_filed|].
  split; [exact Hs|split; [exact Hr|split; [exact (Hfail Hs)|]]].
  exists results. split; [exact Hplan|]. rewrite <- Hok. exact Hs.
Defined.

(** ** Where a rewind does not bring back what was *)

(** The bridge files a notification under the prompt that is current when it handles it:
    an edit of prompt 0 whose notification is handled after prompt 1 has begun is undone
    by the rewind to prompt 1, at whose beginning it was in the file. *)
Example late_notification_undone :
  let tr := handle_all 1 W [mkWritten f_path (txt "new") (Some (txt "old")) false] 2
              (begin_prompt 1 1 (begin_prompt 0 0 tracker_new)) in
  let '(resp, _, w) := rewind_files W 1 tr (one_text "new") in
  success resp = true ∧ files w !! f_path = Some (txt "old").
Proof. by vm_compute. Qed.

(** [n] operations fail for a moment. *)
Definition flaky (bad : nat → FsOp → bool) : FsErrors :=
  {| fs_error n o := if bad n o then Some (txt "Input/output error", OtherKind) else None;
     fs_partial _ _ := None; not_found := txt "no such file" |}.

(** When the existence of a file that is to be removed cannot be found out, the file is
    reported as reverted and stays. *)
Example unknown_existence_reported_reverted :
  let tr := handle_all 0 W [mkWritten f_path (txt "made") None true] 1 (begin_prompt 0 0 tracker_new) in
  let '(resp, tr, w) := rewind_files (H0 := flaky (λ _ o, match o with StatOp _ => true | _ => false end))
                          W 0 tr (one_text "made") in
  success resp = true ∧ reverted_files resp = [txt "f"] ∧ files w !! f_path = Some (txt "made")
  ∧ size (rewind_points tr) = 0.
Proof. by vm_compute. Qed.

(** Rewind points on disk: the one of prompt 0, which saw [f_path], and a line whose
    snapshot is [null]. *)
Definition snapshot_json : Json :=
  JObject [(txt "path", JString (txt "f")); (txt "content", JString (txt "old"));
           (txt "captured_at", JString (txt "then"))].
Definition line_json (snapshot : Json) : Json :=
  JObject [(txt "prompt_index", JNumber (txt "0")); (txt "created_at", JString (txt "then"));
           (txt "file_snapshots", JObject [(txt "f", snapshot)])].
Definition one_line : RewindSerde :=
  {| from_str t := if bool_decide (t = txt "point") then Some (line_json snapshot_json)
                   else if bool_decide (t = txt "null") then Some (line_json JNull) else None;
     to_string _ := []; datetime_from_str _ := Some 0%Z; datetime_to_string _ := txt "then" |}.
Definition jsonl : text := txt "/s/rewind_points.jsonl".
Definition on_disk (line : string) : World := mkWorld {[ jsonl := txtln line; f_path := txt "new" ]} 0 [].

(** The first load fails and the second succeeds: the rewind to prompt 0 works with the
    points in memory only, reverts nothing, answers a success, and then drops the point
    that has been loaded in the meantime. *)
Example partial_set_rewound :
  let once := flaky (λ n o, bool_decide (n = 0)) in
  let '(resp, tr, w) := rewind_files (H0 := once) (H1 := one_line) W 0 (with_lazy_source jsonl) (on_disk "point") in
  success resp = true ∧ reverted_files resp = [] ∧ files w !! f_path = Some (txt "new")
  ∧ size (rewind_points tr) = 0 ∧ lazy_source tr = None.
Proof. by vm_compute. Qed.

(** Without the failure the file is brought back. *)
Example full_set_rewound :
  let '(resp, tr, w) := rewind_files (H1 := one_line) W 0 (with_lazy_source jsonl) (on_disk "point") in
  success resp = true ∧ files w !! f_path = Some (txt "old").
Proof. by vm_compute. Qed.

(** The scan for the picker does not look into the snapshots: it offers a prompt whose
    line the load refuses. *)
Example picker_offers_refused_line :
  (meta_index <$> (@get_rewind_point_metas no_errors one_line (with_lazy_source jsonl) (on_disk "null")).1) = [0]
  ∧ length (get_rewind_points (H1 := one_line) (with_lazy_source jsonl) (on_disk "null")).1.1 = 0.
Proof. by vm_compute. Qed.

(** A file that an old point knows by its absolute path and a newer one by its relative
    path is reverted to both contents, in the order of the hash map. *)
Definition both_keys : FileStateTracker :=
  mkTracker (list_to_map [
    (0, add_snapshot (mkFileSnapshot (Absolute (components f_path)) (Some (txt "first")) 0) (RewindPoint_new 0 0));
    (1, add_snapshot (mkFileSnapshot (Relative [txt "f"]) (Some (txt "second")) 0) (RewindPoint_new 1 0))])
    None None.
Definition reverse_order : HashOrder := {| hash_order A l := reverse l |}.

Example two_keys_depend_on_the_order :
  let '(_, _, w) := rewind_files W 0 both_keys (one_text "new") in
  let '(_, _, w') := rewind_files (H := reverse_order) W 0 both_keys (one_text "new") in
  files w !! f_path ≠ files w' !! f_path.
Proof. by vm_compute. Qed.

(** Forgetting prompts whose predecessor has no point forgets their edits, too. *)
Example merge_without_predecessor :
  let tr := handle_all 2 W [mkWritten f_path (txt "new") (Some (txt "old")) false] 0
              (begin_prompt 2 0 (begin_prompt 0 0 tracker_new)) in
  let '(tr, _) := merge_and_remove_from 2 tr (one_text "new") in
  let '(resp, _, w) := rewind_files W 0 tr (one_text "new") in
  success resp = true ∧ files w !! f_path = Some (txt "new").
Proof. by vm_compute. Qed.
