(* ===== verification/RewindHandler.v ===== *)
(** * The rewind of a session

    [ds-shell/src/session/acp_session_impl/rewind.rs]: a request to go back to a prompt
    shows what it would do, or reverts the files, cuts or replays the conversation of the
    chat state and tells the log and the persistence.  It is composed of the chat state
    actor ([ChatState.v]), the tracker of the files ([FileState.v]) and the replay of the
    log ([SessionLog.v]).  A panic of the chat state actor is [None].

    [session_rewound] composes the three with the timelines of [SessionLogProps.v]: what is
    in memory, what the persistence is told and what the log tells are one conversation.
    [rewind_reaches_disk] adds the worker of [RewindSerial.v].
    [handle_rewind_exact] says of every end of a request what it has changed and what it
    has left alone. *)

From S2P Require Import HeadroomProps ChatUsage ChatRequest CompactionUtils ChatState ChatStateProps.
From S2P Require Import Prelude Text TextProps Utf8 Conversation TokenEstimation ToolPairing Headroom Json Paths ToolFs FileState FileStateProps RewindSerial.
From S2P Require Import SessionLog SessionLogProps.

Open Scope nat_scope.

(** ** Data *)

Inductive RewindMode := RewindAll | ConversationOnly | FilesOnly.

Record RewindRequest := mkRequest {
  rq_target : nat;
  rq_force : bool;
  rq_mode : RewindMode;
}.

Record RewindResponse := mkRewindResponse {
  rewind_success : bool;
  rewind_target : nat;
  rewind_mode : RewindMode;
  rewind_reverted : list text;
  rewind_clean : list text;
  rewind_conflicts : list FileRewindConflict;
  rewind_prompt_text : option text;
  rewind_error : option text;
}.

(** [SUPPRESS_*] of [compaction_config.rs]. *)
Inductive Suppression := SuppressNone | SuppressTurn | SuppressSticky | SuppressUntilSuccess.

Record SessionActor := mkSessionActor {
  chat : ChatState.Actor;
  file_state_tracker : FileStateTracker;
  session_files : World;
  updates_log : list (option SessionUpdate);
  rewind_pending_prompt : option text;
  auto_compact_suppressed : Suppression;
  persistence_tx : list PersistenceMsg;
}.

Definition set_files_state (tr : FileStateTracker) (w : World) (s : SessionActor) : SessionActor :=
  mkSessionActor (chat s) tr w (updates_log s) (rewind_pending_prompt s) (auto_compact_suppressed s)
    (persistence_tx s).
Definition set_pending (p : option text) (s : SessionActor) : SessionActor :=
  mkSessionActor (chat s) (file_state_tracker s) (session_files s) (updates_log s) p
    (auto_compact_suppressed s) (persistence_tx s).
Definition send_persistence (m : PersistenceMsg) (s : SessionActor) : SessionActor :=
  mkSessionActor (chat s) (file_state_tracker s) (session_files s) (updates_log s) (rewind_pending_prompt s)
    (auto_compact_suppressed s) (persistence_tx s ++ [m]).

Definition wants_file_revert (m : RewindMode) : bool :=
  match m with RewindAll | FilesOnly => true | ConversationOnly => false end.
Definition wants_conversation_rewind (m : RewindMode) : bool :=
  match m with RewindAll | ConversationOnly => true | FilesOnly => false end.

Definition is_files_only (m : RewindMode) : bool := match m with FilesOnly => true | _ => false end.

Section handler.
Context `{HeadroomEnv} `{JsonLengths} `{HashOrder, FsErrors, RewindSerde, CheckpointFiles}.
(** The root of the file system, the directory of the session, and the error with which
    [updates.jsonl] cannot be opened, if it cannot. *)
Context (root session_dir : text) (log_error : option text).

(** ** The files *)

(** The loop that builds the preview; it only reads. *)
Fixpoint preview_loop (all_points : list RewindPoint) (paths : list FlexiblePath)
    (clean : list text) (conflicts : list FileRewindConflict) (w : World)
    : list text * list FileRewindConflict * World :=
  match paths with
  | [] => (clean, conflicts, w)
  | path :: paths =>
      let '(r, w) := fs_try_read (flexible_to_absolute root path) w in
      let current := unwrap_or None (option_to_string r) in
      let after := after_content all_points path in
      let name := flexible_display path in
      if bool_decide (current = after)
      then preview_loop all_points paths (clean ++ [name]) conflicts w
      else preview_loop all_points paths clean (conflicts ++ [mkConflict name (classify_conflict current after)]) w
  end.

(** The loop that reverts the files: a file that cannot be written is skipped, one that
    cannot be deleted is reported all the same. *)
Fixpoint revert_loop (entries : list (FlexiblePath * option text)) (reverted : list text) (w : World)
    : list text * World :=
  match entries with
  | [] => (reverted, w)
  | (path, content) :: entries =>
      let p := flexible_to_absolute root path in
      let name := flexible_display path in
      match content with
      | Some data =>
          let '(e, w) := fs_write p data w in
          match e with
          | Some _ => revert_loop entries reverted w
          | None => revert_loop entries (reverted ++ [name]) w
          end
      | None =>
          let '(ex, w) := fs_exists p w in
          let w := if unwrap_or false ex then snd (fs_delete p w) else w in
          revert_loop entries (reverted ++ [name]) w
      end
  end.

(** ** The conversation *)

Definition needs_compaction_replay (s : ChatState) : bool :=
  bool_decide (is_Some (last_compaction_prompt_index s)).

(** What the replay yields, behind the preamble if it has none of its own. *)
Definition rebuild (items : list ConversationItem) (replayed : list ConversationItem)
    (user_info : option text) : list ConversationItem :=
  match replayed with
  | System _ :: _ => replayed
  | _ =>
      match user_info with
      | Some ui0 => take 1 items ++ [user_text ui0] ++ replayed
      | None => take 2 items ++ replayed
      end
  end.

(** The new conversation and, after a replay, the new marker; [inl] is the text of the
    error.  The task of the replay does not panic ([replay_never_panics]). *)
Definition rewound_conversation (target : nat) (s : SessionActor)
    : text + (list ConversationItem * option (option nat)) :=
  let items := conv (chat s) in
  if needs_compaction_replay (state (chat s)) then
    let log := match log_error with Some e => inl e | None => inr (Some (updates_log s)) end in
    match replay_to_prompt session_dir log target with
    | None => inl (txt "spawn_blocking panicked")
    | Some (inl e) => inl e
    | Some (inr r) => inr (rebuild items (replayed r) (result_user_info r), Some (replay_marker r))
    end
  else inr (take (conversation_truncate_for_prompt items target) items, None).

Definition set_snapshot_prompts (target : nat) (marker : option (option nat)) (snap : ChatStateSnapshot)
    : ChatStateSnapshot :=
  mkSnapshot (snap_conversation snap) (snap_sampling_config snap) target (snap_total_tokens snap)
    (snap_estimate_at_last_response snap) (snap_agent_edited_paths snap)
    (take target (snap_prompt_texts snap)) (snap_stream_start_ms snap) (snap_turn_start_ms snap)
    (default (snap_last_compaction_prompt_index snap) marker) (snap_credentials snap).

(** [replace_conversation], and the snapshot restored with the fields of the target. *)
Definition commit_conversation (target : nat) (items : list ConversationItem) (marker : option (option nat))
    (a : ChatState.Actor) : option ChatState.Actor :=
  a ← fst <$> handle_command (ReplaceConversation items false) a;
  let snap := set_snapshot_prompts target marker (snapshot (state a)) in
  fst <$> handle_command (RestoreSnapshot snap) a.

Definition clear_suppression (x : Suppression) : Suppression :=
  match x with SuppressUntilSuccess => SuppressUntilSuccess | _ => SuppressNone end.

Definition rewind_conversation (target : nat) (s : SessionActor) : option (text + SessionActor) :=
  let s := set_pending (prompt_texts (state (chat s)) !! target) s in
  match rewound_conversation target s with
  | inl e => Some (inl e)
  | inr (items, marker) =>
      a ← commit_conversation target items marker (chat s);
      Some (inr (mkSessionActor a (file_state_tracker s) (session_files s)
                   (updates_log s ++ [Some (Ds (RewindMarker target))]) (rewind_pending_prompt s)
                   (clear_suppression (auto_compact_suppressed s)) (persistence_tx s)))
  end.

(** [merge_rewind_tracker_from]. *)
Definition merge_rewind_tracker_from (target : nat) (s : SessionActor) : SessionActor :=
  let '(tr, w) := merge_and_remove_from target (file_state_tracker s) (session_files s) in
  send_persistence (MergeRewindPointsFrom target) (set_files_state tr w s).

Definition truncate_tracker_from (target : nat) (s : SessionActor) : SessionActor :=
  let '(tr, w) := truncate_from target (file_state_tracker s) (session_files s) in
  send_persistence (TruncateRewindPoints target) (set_files_state tr w s).

(** ** The handler *)

Definition cannot_rewind (target current : nat) : text :=
  txt "Cannot rewind to prompt #" ++ show_Z (Z.of_nat target) ++ txt " — current prompt index is "
  ++ show_Z (Z.of_nat current) ++ txt ". Valid targets: 0.." ++ show_Z (Z.of_nat (current - 1)).

Definition replay_failed (target : nat) (e : text) : text :=
  txt "Cannot rewind to prompt #" ++ show_Z (Z.of_nat target)
  ++ txt " — compaction checkpoint data is unavailable (" ++ e
  ++ txt "). Try rewinding to a prompt after the compaction point instead.".

(** The part behind the preview: the request is carried out. *)
Definition commit_rewind (req : RewindRequest) (entries : list (FlexiblePath * option text))
    (conflicts : list FileRewindConflict) (s : SessionActor) : option (RewindResponse * SessionActor) :=
  let target := rq_target req in
  let mode := rq_mode req in
  let '(reverted, w) := revert_loop entries [] (session_files s) in
  let s := set_files_state (file_state_tracker s) w s in
  let rewound (s : SessionActor) (prompt : option text) : option (RewindResponse * SessionActor) :=
    let s := if wants_file_revert mode then truncate_tracker_from target s
             else if wants_conversation_rewind mode then merge_rewind_tracker_from target s else s in
    Some (mkRewindResponse true target mode reverted [] conflicts prompt None, s) in
  if wants_conversation_rewind mode then
    r ← rewind_conversation target s;
    match r with
    | inl e =>
        Some (mkRewindResponse false target mode [] [] [] None (Some (replay_failed target e)),
              set_pending (prompt_texts (state (chat s)) !! target) s)
    | inr s' => rewound s' (prompt_texts (state (chat s)) !! target)
    end
  else rewound s None.

Definition handle_rewind (req : RewindRequest) (s : SessionActor) : option (RewindResponse * SessionActor) :=
  let target := rq_target req in
  let mode := rq_mode req in
  let current := prompt_index (state (chat s)) in
  if negb (is_files_only mode) && (current <=? target) then
    Some (mkRewindResponse false target mode [] [] [] None (Some (cannot_rewind target current)), s)
  else
    let '(entries, clean, conflicts, s) :=
      if wants_file_revert mode then
        let '(all_points, tr, w) := get_rewind_points (file_state_tracker s) (session_files s) in
        let entries := hash_order (map_to_list (files_to_revert all_points target)) in
        let '(clean, conflicts, w) := preview_loop all_points entries.*1 [] [] w in
        (entries, clean, conflicts, set_files_state tr w s)
      else ([], [], [], s) in
    if negb (rq_force req) then
      let error :=
        if bool_decide (conflicts ≠ [])
        then Some (txt "External modifications detected. Confirm to revert anyway.") else None in
      Some (mkRewindResponse false target mode [] clean conflicts None error, s)
    else commit_rewind req entries conflicts s.

(** ** The files of a request *)

#[local] Notation abs := (flexible_to_absolute root).

Lemma preview_reads all_points paths clean conflicts w clean' conflicts' w' :
  preview_loop all_points paths clean conflicts w = (clean', conflicts', w') →
  files w' = files w
  ∧ (clean' ++ (conflict_path <$> conflicts')
     ≡ₚ clean ++ (conflict_path <$> conflicts) ++ (flexible_display <$> paths)).
Proof.
  revert clean conflicts w. induction paths as [|p paths IH]; intros clean conflicts w; cbn [preview_loop].
  { intros [= <- <- <-]. by rewrite app_nil_r. }
  unfold fs_try_read. case_bool_decide; intros Hl; apply IH in Hl as [Hf Hp]; split; try done; rewrite Hp.
  - rewrite <- app_assoc. apply Permutation_app_head. cbn. by rewrite <- Permutation_middle.
  - rewrite fmap_app, <- app_assoc. done.
Qed.

(** An entry with whether its revert succeeded. *)
Notation Outcome := (FlexiblePath * option text * bool)%type.

(** The loop reports a file to be removed whether it was removed or not. *)
Definition is_reported (r : Outcome) : bool := snd r || bool_decide (snd (fst r) = None).

Lemma revert_loop_step p c entries rv w :
  revert_loop ((p, c) :: entries) rv w
  = let '(ok, w') := revert_file root p c w in
    revert_loop entries (rv ++ if is_reported (p, c, ok) then [flexible_display p] else []) w'.
Proof.
  cbn [revert_loop]. unfold revert_file. destruct c as [data|].
  - destruct (fs_write (abs p) data w) as [[e|] w1]; unfold is_reported; cbn [fst snd orb].
    + by rewrite bool_decide_false, app_nil_r.
    + by rewrite bool_decide_true.
  - assert (∀ ok : bool, is_reported (p, None, ok) = true) as Hr.
    { intros ok. unfold is_reported. cbn [fst snd]. by rewrite bool_decide_true, orb_true_r. }
    destruct (fs_exists (abs p) w) as [ex w1]. destruct (unwrap_or false ex); [|by rewrite Hr].
    destruct (fs_delete (abs p) w1) as [e w2]. by rewrite Hr.
Qed.

Lemma revert_loop_result entries rv w rv' w' :
  revert_loop entries rv w = (rv', w') →
  ∃ results : list Outcome,
    results.*1 = entries
    ∧ rv' = rv ++ (flexible_display ∘ result_path <$> filter_b is_reported results)
    ∧ (∀ f, f ∉ abs <$> entries.*1 → files w' !! f = files w !! f)
    ∧ (NoDup (abs <$> entries.*1) → ∀ p c (ok : bool), (p, c, ok) ∈ results →
        came_out root p c ok (files w) (files w')).
Proof.
  revert rv w. induction entries as [|[p c] entries IH]; intros rv w.
  { intros [= <- <-]. exists []. cbn. rewrite app_nil_r. split_and!; try done. by intros _ p c ok Hp%elem_of_nil. }
  rewrite revert_loop_step. destruct (revert_file root p c w) as [ok w1] eqn:Hrevert. intros Hl.
  apply IH in Hl as (results & Hres & Hrev & Hother & Hin).
  apply revert_file_result in Hrevert as (_ & Hother1 & Hok1).
  exists ((p, c, ok) :: results). cbn [fmap list_fmap]. split_and!.
  - by rewrite <- Hres.
  - rewrite Hrev, <- app_assoc. f_equal. rewrite filter_b_cons. by destruct (is_reported _).
  - intros f Hf. apply not_elem_of_cons in Hf as [Hp Hf]. rewrite Hother by done. by apply Hother1.
  - intros Hnd. apply NoDup_cons in Hnd as [Hp Hnd]. intros q d ok' [[= -> -> ->]|Hr]%elem_of_cons.
    + unfold came_out in *. by rewrite Hother.
    + specialize (Hin Hnd q d ok' Hr). assert (abs q ≠ abs p) as Hqp.
      { intros Heq. apply Hp. cbn [fst]. rewrite <- Heq. apply list_elem_of_fmap_2.
        apply (list_elem_of_fmap_2 fst _ (q, d)). rewrite <- Hres. by apply (list_elem_of_fmap_2 fst _ (q, d, ok')). }
      unfold came_out in *. by rewrite <- (Hother1 (abs q) Hqp).
Qed.

(** ** The conversation of a request *)

Lemma replaced items a a' :
  fst <$> handle_command (ReplaceConversation items false) a = Some a' →
  conv a' = items
  ∧ prompt_texts (state a') = prompt_texts (state a)
  ∧ last_compaction_prompt_index (state a') = last_compaction_prompt_index (state a)
  ∧ persistence a' = persistence a ++ [ReplaceHistory items]
  ∧ session_usage (state a') = session_usage (state a).
Proof.
  cbn [handle_command]. unfold mutate_opt, replace_conversation.
  destruct (estimate_conversation_tokens items) as [base|]; [|done]. cbn [mbind option_bind fmap option_fmap option_map].
  intros [= <-]. unfold conv, rebase_turn_capture_offset, snapshot_turn_slice. cbn.
  destruct (turn_capture (state a)) eqn:Hc; cbn; rewrite ?Hc; cbn; split_and!; done.
Qed.

Lemma restored snap a a' :
  fst <$> handle_command (RestoreSnapshot snap) a = Some a' →
  snapshot (state a') = mkSnapshot (snap_conversation snap) (snap_sampling_config snap) (snap_prompt_index snap)
    (snap_total_tokens snap) (estimate_at_last_response (state a')) (snap_agent_edited_paths snap)
    (snap_prompt_texts snap) (snap_stream_start_ms snap) (snap_turn_start_ms snap)
    (snap_last_compaction_prompt_index snap) (snap_credentials snap)
  ∧ persistence a' = persistence a
  ∧ session_usage (state a') = session_usage (state a).
Proof.
  cbn [handle_command]. unfold mutate_opt, restore_snapshot.
  match goal with |- context [mbind _ ?o] => destruct o as [at_last|] end; [|done].
  cbn [mbind option_bind fmap option_fmap option_map].
  intros [= <-]. unfold snapshot, rebase_turn_capture_offset, snapshot_turn_slice. cbn.
  destruct (turn_capture (state a)) eqn:Hc; cbn; rewrite ?Hc; cbn; split_and!; done.
Qed.

Lemma commit_conversation_result target items marker a a' :
  commit_conversation target items marker a = Some a' →
  conv a' = items
  ∧ prompt_index (state a') = target
  ∧ prompt_texts (state a') = take target (prompt_texts (state a))
  ∧ last_compaction_prompt_index (state a') = default (last_compaction_prompt_index (state a)) marker
  ∧ persistence a' = persistence a ++ [ReplaceHistory items]
  ∧ session_usage (state a') = session_usage (state a).
Proof.
  unfold commit_conversation. intros (a1 & Hr & Ha)%bind_Some.
  apply replaced in Hr as (Hc & Ht & Hm & Hp & Hu). apply restored in Ha as (Hs & Hp' & Hu').
  unfold snapshot, set_snapshot_prompts in Hs. cbn in Hs. injection Hs as Hs1 _ Hs2 _ _ Hs3 _ _ Hs4 _.
  unfold conv in *. rewrite Hs1, Hs2, Hs3, Hs4, Hp', Hu', Hc, Ht, Hm. by split_and!.
Qed.

Lemma replace_answers items a :
  is_Some (estimate_conversation_tokens items) → is_Some (fst <$> handle_command (ReplaceConversation items false) a).
Proof.
  intros [n Hn]. cbn [handle_command]. unfold mutate_opt, replace_conversation. rewrite Hn.
  cbn [mbind option_bind fmap option_fmap option_map]. by eexists.
Qed.

Lemma restore_answers snap a :
  is_Some (estimate_conversation_tokens (snap_conversation snap)) →
  is_Some (fst <$> handle_command (RestoreSnapshot snap) a).
Proof.
  intros [n Hn]. cbn [handle_command]. unfold mutate_opt, restore_snapshot.
  match goal with |- context [mbind _ ?o] => assert (is_Some o) as [at_last ->] end.
  { case_match; [by eexists|].
    match goal with |- is_Some (estimate_conversation_tokens ?c) => assert (c = snap_conversation snap) as -> end; [|by eexists].
    unfold conv, rebase_turn_capture_offset, snapshot_turn_slice. cbn.
    destruct (turn_capture (state a)) eqn:Hc; cbn; by rewrite ?Hc. }
  cbn [mbind option_bind fmap option_fmap option_map]. by eexists.
Qed.

(** The conversation can be committed if its tokens can be estimated. *)
Lemma commit_conversation_answers target items marker a :
  is_Some (estimate_conversation_tokens items) → is_Some (commit_conversation target items marker a).
Proof.
  intros Hn. unfold commit_conversation. destruct (replace_answers items a Hn) as [a1 Ha1].
  rewrite Ha1. cbn [mbind option_bind]. apply restore_answers.
  apply replaced in Ha1 as (Hc & _). cbn. unfold conv in Hc. by rewrite Hc.
Qed.

(** ** The request *)

(** A request that is not refused for its target. *)
Definition accepted (req : RewindRequest) (s : SessionActor) : bool :=
  is_files_only (rq_mode req) || (rq_target req <? prompt_index (state (chat s))).

Definition planned (req : RewindRequest) (pts : list RewindPoint) : list (FlexiblePath * option text) :=
  if wants_file_revert (rq_mode req) then hash_order (map_to_list (files_to_revert pts (rq_target req))) else [].

Lemma set_files_state_same s : set_files_state (file_state_tracker s) (session_files s) s = s.
Proof. by destruct s. Qed.

Lemma handle_refused req s :
  accepted req s = false →
  handle_rewind req s
  = Some (mkRewindResponse false (rq_target req) (rq_mode req) [] [] [] None
            (Some (cannot_rewind (rq_target req) (prompt_index (state (chat s))))), s).
Proof.
  unfold accepted, handle_rewind. destruct (is_files_only _); [done|]. cbn [orb negb andb]. intros Ha. breflect.
  by rewrite (proj2 (Nat.leb_le _ _) Ha).
Qed.

(** A request that is accepted looks at the files first. *)
Lemma handle_accepted req s pts tr1 w1 :
  accepted req s = true →
  get_rewind_points (file_state_tracker s) (session_files s) = (pts, tr1, w1) →
  ∃ tr w clean conflicts,
    files w = files (session_files s)
    ∧ tr = (if wants_file_revert (rq_mode req) then tr1 else file_state_tracker s)
    ∧ (wants_file_revert (rq_mode req) = false → w = session_files s)
    ∧ clean ++ (conflict_path <$> conflicts) ≡ₚ flexible_display <$> (planned req pts).*1
    ∧ handle_rewind req s
      = if rq_force req then commit_rewind req (planned req pts) conflicts (set_files_state tr w s)
        else Some (mkRewindResponse false (rq_target req) (rq_mode req) [] clean conflicts None
                     (if bool_decide (conflicts ≠ [])
                      then Some (txt "External modifications detected. Confirm to revert anyway.") else None),
                   set_files_state tr w s).
Proof.
  unfold accepted, handle_rewind, planned. intros Ha Hget.
  assert (negb (is_files_only (rq_mode req)) && (prompt_index (state (chat s)) <=? rq_target req) = false) as ->.
  { destruct (is_files_only _); [done|]. cbn in Ha |- *. apply Nat.ltb_lt in Ha. apply Nat.leb_gt. lia. }
  destruct (wants_file_revert (rq_mode req)) eqn:Hw.
  - rewrite Hget. destruct (preview_loop _ _ _ _ _) as [[clean conflicts] w] eqn:Hl.
    apply preview_reads in Hl as [Hf Hp]. unfold get_rewind_points in Hget.
    destruct (ensure_historical_loaded _ _) as [tr0 w0] eqn:Hload. injection Hget as _ <- <-.
    apply load_files in Hload as [Hf0 _]. exists tr0, w, clean, conflicts. rewrite Hf.
    split_and!; [done|done|done|exact Hp|]. by destruct (rq_force req).
  - exists (file_state_tracker s), (session_files s), [], []. rewrite set_files_state_same.
    split_and!; [done..|]. by destruct (rq_force req).
Qed.

Lemma merge_files target tr w tr' w' :
  merge_and_remove_from target tr w = (tr', w') → files w' = files w.
Proof.
  unfold merge_and_remove_from. destruct (ensure_historical_loaded tr w) as [tr1 w1] eqn:Hl.
  intros [= <- <-]. by eapply load_files.
Qed.

Lemma truncate_tracker_result target s :
  let s' := truncate_tracker_from target s in
  chat s' = chat s ∧ updates_log s' = updates_log s ∧ files (session_files s') = files (session_files s)
  ∧ rewind_pending_prompt s' = rewind_pending_prompt s
  ∧ persistence_tx s' = persistence_tx s ++ [TruncateRewindPoints target]
  ∧ file_state_tracker s' = fst (truncate_from target (file_state_tracker s) (session_files s)).
Proof.
  unfold truncate_tracker_from. destruct (truncate_from _ _ _) as [tr w] eqn:Ht. cbn.
  apply truncate_files in Ht as [Hf _]. by split_and!.
Qed.

Lemma merge_tracker_result target s :
  let s' := merge_rewind_tracker_from target s in
  chat s' = chat s ∧ updates_log s' = updates_log s ∧ files (session_files s') = files (session_files s)
  ∧ rewind_pending_prompt s' = rewind_pending_prompt s
  ∧ persistence_tx s' = persistence_tx s ++ [MergeRewindPointsFrom target]
  ∧ file_state_tracker s' = fst (merge_and_remove_from target (file_state_tracker s) (session_files s)).
Proof.
  unfold merge_rewind_tracker_from. destruct (merge_and_remove_from _ _ _) as [tr w] eqn:Ht. cbn.
  apply merge_files in Ht. by split_and!.
Qed.

(** The bookkeeping behind a rewind that was carried out. *)
Definition settle (req : RewindRequest) (s : SessionActor) : SessionActor :=
  if wants_file_revert (rq_mode req) then truncate_tracker_from (rq_target req) s
  else merge_rewind_tracker_from (rq_target req) s.

Lemma settle_result req s :
  chat (settle req s) = chat s ∧ updates_log (settle req s) = updates_log s
  ∧ files (session_files (settle req s)) = files (session_files s)
  ∧ rewind_pending_prompt (settle req s) = rewind_pending_prompt s
  ∧ persistence_tx (settle req s)
    = persistence_tx s ++ [if wants_file_revert (rq_mode req) then TruncateRewindPoints (rq_target req)
                           else MergeRewindPointsFrom (rq_target req)]
  ∧ file_state_tracker (settle req s)
    = fst ((if wants_file_revert (rq_mode req) then truncate_from else merge_and_remove_from)
             (rq_target req) (file_state_tracker s) (session_files s)).
Proof. unfold settle. destruct (wants_file_revert _); [apply truncate_tracker_result|apply merge_tracker_result]. Qed.

(** The three ends of a request that is carried out. *)
Lemma commit_rewind_files req entries conflicts s reverted w :
  wants_conversation_rewind (rq_mode req) = false →
  revert_loop entries [] (session_files s) = (reverted, w) →
  commit_rewind req entries conflicts s
  = Some (mkRewindResponse true (rq_target req) (rq_mode req) reverted [] conflicts None None,
          settle req (set_files_state (file_state_tracker s) w s)).
Proof. unfold commit_rewind, settle. intros Hc ->. rewrite Hc. by destruct (rq_mode req). Qed.

Lemma commit_rewind_failed req entries conflicts s reverted w e :
  let prompt := prompt_texts (state (chat s)) !! rq_target req in
  wants_conversation_rewind (rq_mode req) = true →
  revert_loop entries [] (session_files s) = (reverted, w) →
  rewound_conversation (rq_target req) s = inl e →
  commit_rewind req entries conflicts s
  = Some (mkRewindResponse false (rq_target req) (rq_mode req) [] [] [] None (Some (replay_failed (rq_target req) e)),
          set_pending prompt (set_files_state (file_state_tracker s) w s)).
Proof.
  intros prompt Hc Hl Hr. unfold commit_rewind. rewrite Hl, Hc. unfold rewind_conversation.
  match goal with |- context [rewound_conversation _ ?s1] => change (rewound_conversation (rq_target req) s1) with (rewound_conversation (rq_target req) s) end.
  by rewrite Hr.
Qed.

(** The session after the conversation was committed. *)
Definition with_conversation (target : nat) (a : ChatState.Actor) (w : World) (s : SessionActor) : SessionActor :=
  mkSessionActor a (file_state_tracker s) w (updates_log s ++ [Some (Ds (RewindMarker target))])
    (prompt_texts (state (chat s)) !! target) (clear_suppression (auto_compact_suppressed s)) (persistence_tx s).

Lemma commit_rewind_done req entries conflicts s reverted w items marker :
  wants_conversation_rewind (rq_mode req) = true →
  revert_loop entries [] (session_files s) = (reverted, w) →
  rewound_conversation (rq_target req) s = inr (items, marker) →
  commit_rewind req entries conflicts s
  = (a ← commit_conversation (rq_target req) items marker (chat s);
     Some (mkRewindResponse true (rq_target req) (rq_mode req) reverted [] conflicts
             (prompt_texts (state (chat s)) !! rq_target req) None,
           settle req (with_conversation (rq_target req) a w s))).
Proof.
  intros Hc Hl Hr. unfold commit_rewind. rewrite Hl, Hc. unfold rewind_conversation.
  match goal with |- context [rewound_conversation _ ?s1] => change (rewound_conversation (rq_target req) s1) with (rewound_conversation (rq_target req) s) end.
  rewrite Hr. cbn [chat set_pending set_files_state].
  destruct (commit_conversation _ _ _ _) as [a|]; cbn; [|done]. unfold settle, with_conversation.
  by destruct (rq_mode req).
Qed.

(** ** The log and the timeline of the session *)

Lemma live_app target es es' s log :
  live session_dir target (es ++ es') s log
  = (live session_dir target es s log ≫= λ r, live session_dir target es' r.1 r.2).
Proof.
  revert s log. induction es as [|e es IH]; intros s log; cbn; [done|].
  destruct (timeline_step session_dir target s e); [apply IH|done].
Qed.

Definition cut_timeline (target : nat) (tl : Timeline) : Timeline :=
  set_parts (take target (all_turns tl)) Closed (closed_base tl) tl.

Lemma session_ok es target tl log :
  session_run session_dir target es = Some (tl, log) →
  timeline_ok target tl ∧ replay_loop session_dir target log replay_new = Some (inr (image tl)).
Proof. apply live_run; [apply new_ok|by rewrite image_new]. Qed.

(** The marker of the rewind makes the log that of the session that went back. *)
Lemma marker_appended es target tl log :
  session_run session_dir target es = Some (tl, log) → target < length (all_turns tl) →
  session_run session_dir target (es ++ [RewindEvent target])
  = Some (cut_timeline target tl, log ++ [Some (Ds (RewindMarker target))]).
Proof.
  intros Hr Ht. destruct (session_ok _ _ _ _ Hr) as [Hok _]. destruct (ok_index _ _ Hok) as [_ Hi].
  unfold session_run in *. rewrite live_app, Hr. cbn [mbind option_bind live timeline_step fst snd].
  by rewrite (proj2 (Nat.ltb_lt _ _) Ht), (proj2 (Nat.leb_le _ _) Hi).
Qed.

Lemma cut_turns_all target tl : all_turns (cut_timeline target tl) = take target (all_turns tl).
Proof. unfold cut_timeline, all_turns at 1. cbn. apply app_nil_r. Qed.

Lemma cut_items_before target tl : items_before target (cut_timeline target tl) = items_before target tl.
Proof.
  unfold items_before. rewrite cut_turns_all. change (base_index (cut_timeline target tl)) with (base_index tl).
  f_equal. f_equal. rewrite <- !turns_items_take. f_equal.
  destruct (decide (base_index tl <= target)) as [Hl|Hl].
  - rewrite !take_drop_commute. replace (target - base_index tl + base_index tl) with target by lia.
    replace (base_index tl + (target - base_index tl)) with target by lia. by rewrite take_take, Nat.min_id.
  - by replace (target - base_index tl) with 0 by lia.
Qed.

(** What becomes of the conversation of a session that is at its log's end. *)
Lemma rewound_compacted es target tl s :
  log_error = None → session_run session_dir target es = Some (tl, updates_log s) →
  is_Some (last_compaction_prompt_index (state (chat s))) →
  rewound_conversation target s
  = inr (rebuild (conv (chat s)) (items_before target tl) (user_info tl), Some ((λ _, base_index tl) <$> base tl)).
Proof.
  intros He Hr Hm. destruct (session_ok _ _ _ _ Hr) as [Hok Hloop].
  unfold rewound_conversation, needs_compaction_replay. rewrite bool_decide_true, He by done.
  cbn [replay_to_prompt]. rewrite Hloop. cbn [mbind option_bind].
  by rewrite (finish_image _ tl Hok).
Qed.

Lemma rewound_truncated target s :
  last_compaction_prompt_index (state (chat s)) = None →
  rewound_conversation target s
  = inr (take (conversation_truncate_for_prompt (conv (chat s)) target) (conv (chat s)), None).
Proof. intros Hm. unfold rewound_conversation, needs_compaction_replay. by rewrite Hm, bool_decide_false by by intros []. Qed.

Lemma truncated_turns pre turns target :
  unmarked pre → marked_turns 0 turns → turns ≠ [] →
  take (conversation_truncate_for_prompt (pre ++ concat turns) target) (pre ++ concat turns)
  = pre ++ concat (take target turns).
Proof.
  intros Hp Ht Hne. rewrite (cut_marked _ 0), Nat.sub_0_r by (done || lia).
  rewrite <- (take_drop target turns) at 2. by rewrite concat_app, app_assoc, take_app_length.
Qed.

(** What stands before the replayed items [said]: nothing if they begin with a system
    message of their own; else the first item of the conversation in memory with the
    user information of the compaction or, if it has none, the first two items. *)
Inductive preamble (tl : Timeline) (memory said : list ConversationItem) : list ConversationItem → Prop :=
| preamble_own i rest : said = System i :: rest → preamble tl memory said []
| preamble_info ui0 : (∀ i rest, said ≠ System i :: rest) → user_info tl = Some ui0 →
    preamble tl memory said (take 1 memory ++ [user_text ui0])
| preamble_memory : (∀ i rest, said ≠ System i :: rest) → user_info tl = None →
    preamble tl memory said (take 2 memory).

Lemma rebuild_preamble tl memory said :
  ∃ pre, preamble tl memory said pre ∧ rebuild memory said (user_info tl) = pre ++ said.
Proof.
  assert ((∃ i rest, said = System i :: rest) ∨ ∀ i rest, said ≠ System i :: rest) as [(i & rest & ->)|Hno].
  { destruct said as [|[] said]; [by right|left; by do 2 eexists|by right..]. }
  { exists []. split; [by eapply preamble_own|done]. }
  destruct (user_info tl) as [ui0|] eqn:Hu.
  - exists (take 1 memory ++ [user_text ui0]). split; [by eapply preamble_info|]. unfold rebuild.
    destruct said as [|[y| | | | | ] said]; rewrite <- app_assoc; try done. by destruct (Hno y said).
  - exists (take 2 memory). split; [by eapply preamble_memory|]. unfold rebuild.
    destruct said as [|[y| | | | | ] said]; try done. by destruct (Hno y said).
Qed.

(** The conversation and the marker of the last compaction that a rewind of a session
    with this timeline should leave. *)
Definition expected_conversation (target : nat) (tl : Timeline) (s : SessionActor)
    (items : list ConversationItem) (marker : option nat) : Prop :=
  match last_compaction_prompt_index (state (chat s)) with
  | Some _ =>
      (∃ pre, preamble tl (conv (chat s)) (items_before target tl) pre
         ∧ items = pre ++ items_before target tl)
      ∧ marker = (λ _, base_index tl) <$> base tl
  | None =>
      marker = None
      ∧ ∀ pre turns, unmarked pre → marked_turns 0 turns → length turns = length (all_turns tl) →
          conv (chat s) = pre ++ concat turns → items = pre ++ concat (take target turns)
  end.

Lemma rewound_as_expected es target tl s :
  log_error = None → session_run session_dir target es = Some (tl, updates_log s) →
  target < length (all_turns tl) →
  ∃ items marker,
    rewound_conversation target s = inr (items, marker)
    ∧ expected_conversation target tl s items (default (last_compaction_prompt_index (state (chat s))) marker).
Proof.
  intros He Hr Ht. unfold expected_conversation.
  destruct (last_compaction_prompt_index (state (chat s))) as [m|] eqn:Hm.
  - rewrite (rewound_compacted es _ tl) by (done || by rewrite Hm). do 2 eexists. split; [done|].
    split; [|done]. apply rebuild_preamble.
  - rewrite rewound_truncated by done. do 2 eexists. split; [done|]. split; [done|].
    intros pre turns Hp Hturns Hl Hc. rewrite Hc. apply truncated_turns; [done..|].
    intros ->. cbn in Hl. lia.
Qed.

(** C12: a forced rewind of the conversation of a session whose log tells its timeline
    (a timeline as in C6) and can be read succeeds, provided that the tokens of the new
    conversation can be estimated.  The new conversation is what was said before the
    target.  Without a compaction that is the beginning and the turns in memory before the
    target, where the turns are marked with their numbers and as many as the log tells.  After
    one it is the replayed items: as they are, if they begin with a system message, else
    behind the first item in memory and the user information of the compaction or, if it
    has none, behind the first two items in memory.  The new conversation is what the persistence
    is told last.  The prompts are those before the target, that of the target is answered
    and is pending.  The log is then that of the session that went back: its timeline ends
    at the target and says the same of it, and it has as many turns as the index says. *)
Theorem session_rewound (es : list SessionEvent) (tl : Timeline) (req : RewindRequest) (s : SessionActor) :
  let target := rq_target req in
  log_error = None →
  session_run session_dir target es = Some (tl, updates_log s) →
  prompt_index (state (chat s)) = length (all_turns tl) → target < length (all_turns tl) →
  rq_force req = true → wants_conversation_rewind (rq_mode req) = true →
  ∃ items marker,
    expected_conversation target tl s items marker
    ∧ (is_Some (estimate_conversation_tokens items) →
       ∃ resp s', handle_rewind req s = Some (resp, s')
         ∧ rewind_success resp = true
         ∧ rewind_prompt_text resp = prompt_texts (state (chat s)) !! target
         ∧ rewind_pending_prompt s' = rewind_prompt_text resp
         ∧ conv (chat s') = items
         ∧ last_compaction_prompt_index (state (chat s')) = marker
         ∧ prompt_texts (state (chat s')) = take target (prompt_texts (state (chat s)))
         ∧ persistence (chat s') = persistence (chat s) ++ [ReplaceHistory (conv (chat s'))]
         ∧ ∃ tl', session_run session_dir target (es ++ [RewindEvent target]) = Some (tl', updates_log s')
             ∧ all_turns tl' = take target (all_turns tl)
             ∧ items_before target tl' = items_before target tl
             ∧ prompt_index (state (chat s')) = length (all_turns tl')).
Proof.
  intros target He Hr Hn Ht Hforce Hc.
  destruct (rewound_as_expected es target tl s He Hr Ht) as (items & marker & Hrw & Hexp).
  exists items, (default (last_compaction_prompt_index (state (chat s))) marker). split; [done|]. intros Htok.
  destruct (get_rewind_points (file_state_tracker s) (session_files s)) as [[pts tr1] w1] eqn:Hget.
  assert (accepted req s = true) as Ha.
  { unfold accepted. rewrite Hn. apply orb_true_iff. right. by apply Nat.ltb_lt. }
  destruct (handle_accepted req s pts tr1 w1 Ha Hget) as (tr & w & clean & conflicts & _ & _ & _ & _ & Hh).
  rewrite Hforce in Hh. destruct (revert_loop (planned req pts) [] w) as [rv w2] eqn:Hl.
  rewrite (commit_rewind_done req _ _ (set_files_state tr w s) rv w2 items marker Hc Hl) in Hh by done.
  cbn [chat set_files_state] in Hh.
  destruct (commit_conversation_answers target items marker (chat s) Htok) as [a Hcommit].
  subst target. rewrite Hcommit in Hh. cbn [mbind option_bind] in Hh.
  apply commit_conversation_result in Hcommit as (C1 & C2 & C3 & C4 & C5 & _).
  destruct (settle_result req (with_conversation (rq_target req) a w2 (set_files_state tr w s))) as (S1 & S2 & _ & S3 & _).
  eexists _, _. split; [exact Hh|]. cbn [rewind_success rewind_prompt_text]. rewrite S1, S2, S3. cbn.
  rewrite C1, C2, C3, C4, C5. split_and!; try done.
  exists (cut_timeline (rq_target req) tl). split_and!.
  - by apply marker_appended.
  - apply cut_turns_all.
  - apply cut_items_before.
  - rewrite cut_turns_all, length_take. lia.
Qed.

Context `{!HashOrderPerm}.

(** The files of a request are reverted. *)
Definition reverts (req : RewindRequest) (s : SessionActor) : bool :=
  rq_force req && wants_file_revert (rq_mode req) && accepted req s.

(** What is left alone when a rewind has no success: everything but the files and, if the
    request was forced, the prompt that the next one is compared with. *)
Definition kept (req : RewindRequest) (tr1 : FileStateTracker) (s s' : SessionActor) : Prop :=
  chat s' = chat s ∧ updates_log s' = updates_log s ∧ persistence_tx s' = persistence_tx s
  ∧ auto_compact_suppressed s' = auto_compact_suppressed s
  ∧ (file_state_tracker s' = file_state_tracker s ∨ file_state_tracker s' = tr1)
  ∧ rewind_pending_prompt s'
    = (if rq_force req && accepted req s then prompt_texts (state (chat s)) !! rq_target req
       else rewind_pending_prompt s).

(** What a success has done. *)
Definition carried_out (req : RewindRequest) (tr1 : FileStateTracker) (resp : RewindResponse) (s s' : SessionActor)
    : Prop :=
  rq_force req = true ∧ accepted req s = true ∧ rewind_error resp = None
  ∧ (if wants_conversation_rewind (rq_mode req)
     then prompt_index (state (chat s')) = rq_target req
          ∧ session_usage (state (chat s')) = session_usage (state (chat s))
          ∧ updates_log s' = updates_log s ++ [Some (Ds (RewindMarker (rq_target req)))]
     else chat s' = chat s ∧ updates_log s' = updates_log s)
  ∧ persistence_tx s' = persistence_tx s
      ++ [if wants_file_revert (rq_mode req) then TruncateRewindPoints (rq_target req)
          else MergeRewindPointsFrom (rq_target req)]
  ∧ (if wants_file_revert (rq_mode req)
     then lazy_source tr1 = None →
          file_state_tracker s' = set_points (retain_below (rq_target req) (rewind_points tr1)) tr1
     else file_state_tracker s' = fst (merge_and_remove_from (rq_target req) (file_state_tracker s) (session_files s))).

Definition files_reverted (req : RewindRequest) (tr1 : FileStateTracker) (resp : RewindResponse) (s s' : SessionActor)
    : Prop :=
  ∃ results : list Outcome,
    NoDup (result_path <$> results)
    ∧ (filed (rewind_points tr1) → ∀ path c,
         (path, c) ∈ results.*1 ↔ first_snapshot (rewind_points tr1) (rq_target req) path c)
    ∧ rewind_reverted resp
      = (if rewind_success resp then flexible_display ∘ result_path <$> filter_b is_reported results else [])
    ∧ (∀ f, f ∉ abs ∘ result_path <$> results → files (session_files s') !! f = files (session_files s) !! f)
    ∧ (NoDup (abs ∘ result_path <$> results) → ∀ p c (ok : bool), (p, c, ok) ∈ results →
        came_out root p c ok (files (session_files s)) (files (session_files s'))).

(** The commit of an accepted request, whose preview has only read files. *)
Lemma commit_rewind_exact req pts conflicts tr tr1 w s resp s' :
  rq_force req = true → accepted req s = true →
  tr = (if wants_file_revert (rq_mode req) then tr1 else file_state_tracker s) →
  (wants_file_revert (rq_mode req) = false → w = session_files s) →
  commit_rewind req (planned req pts) conflicts (set_files_state tr w s) = Some (resp, s') →
  ∃ rv w2, revert_loop (planned req pts) [] w = (rv, w2)
    ∧ files (session_files s') = files w2
    ∧ rewind_target resp = rq_target req ∧ rewind_mode resp = rq_mode req
    ∧ (if rewind_success resp then rewind_reverted resp = rv ∧ carried_out req tr1 resp s s'
       else rewind_reverted resp = [] ∧ kept req tr s s').
Proof.
  intros Hf Ha Htr Hw Hcommit. destruct (revert_loop (planned req pts) [] w) as [rv w2] eqn:Hl.
  exists rv, w2. split; [done|].
  assert (if wants_file_revert (rq_mode req)
          then lazy_source tr1 = None → fst (truncate_from (rq_target req) tr w2)
                 = set_points (retain_below (rq_target req) (rewind_points tr1)) tr1
          else fst (merge_and_remove_from (rq_target req) tr w2)
               = fst (merge_and_remove_from (rq_target req) (file_state_tracker s) (session_files s))) as Htracker.
  { unfold planned in Hl. destruct (wants_file_revert _); rewrite Htr.
    - intros Hlazy. by rewrite truncate_loaded.
    - injection Hl as _ <-. by rewrite Hw. }
  destruct (wants_conversation_rewind (rq_mode req)) eqn:Hc.
  - destruct (rewound_conversation (rq_target req) (set_files_state tr w s)) as [e|[items marker]] eqn:Hr.
    + rewrite (commit_rewind_failed _ _ _ _ rv w2 e) in Hcommit by done. injection Hcommit as <- <-. cbn.
      split_and!; try done. unfold kept. rewrite Hf, Ha. cbn. split_and!; auto.
    + rewrite (commit_rewind_done _ _ _ _ rv w2 items marker) in Hcommit by done. cbn [chat set_files_state] in Hcommit.
      destruct (commit_conversation _ _ _ _) as [a|] eqn:Ha'; [|done]. cbn in Hcommit. injection Hcommit as <- <-.
      apply commit_conversation_result in Ha' as (C1 & C2 & _ & _ & _ & C3).
      match goal with |- context [settle req ?s2] => destruct (settle_result req s2) as (S1 & S2 & S3 & _ & S4 & S5) end.
      rewrite S3. cbn. split_and!; try done. unfold carried_out. rewrite Hc, S1, S2, S4, S5. cbn.
      split_and!; try done. by destruct (wants_file_revert _).
  - rewrite (commit_rewind_files _ _ _ _ rv w2) in Hcommit by done. injection Hcommit as <- <-.
    match goal with |- context [settle req ?s2] => destruct (settle_result req s2) as (S1 & S2 & S3 & _ & S4 & S5) end.
    rewrite S3. cbn. split_and!; try done. unfold carried_out. rewrite Hc, S1, S2, S4, S5. cbn.
    split_and!; try done. by destruct (wants_file_revert _).
Qed.

Lemma loop_reverts req pts tr1 resp s s' rv w w2 :
  pts = sorted_points tr1 → wants_file_revert (rq_mode req) = true →
  revert_loop (planned req pts) [] w = (rv, w2) → files w = files (session_files s) →
  files (session_files s') = files w2 → rewind_reverted resp = (if rewind_success resp then rv else []) →
  files_reverted req tr1 resp s s'.
Proof.
  intros -> Hw Hl Hfw Hfiles Hresp.
  apply revert_loop_result in Hl as (results & Hres & Hrev & Hother & Hin). rewrite app_nil_l in Hrev.
  unfold planned in *. rewrite Hw in *.
  set (plan := map_to_list (files_to_revert (sorted_points tr1) (rq_target req))) in *.
  assert (results.*1 ≡ₚ plan) as Hperm by (rewrite Hres; apply hash_order_perm).
  assert (abs ∘ result_path <$> results = abs <$> (hash_order plan).*1) as Habs.
  { rewrite <- Hres. by rewrite <- !list_fmap_compose. }
  exists results. rewrite Habs, Hfiles, <- Hfw, Hresp, Hrev. split_and!; [| |done..].
  - assert (result_path <$> results = results.*1.*1) as -> by (by rewrite <- list_fmap_compose).
    rewrite Hperm. apply NoDup_fst_map_to_list.
  - intros Hf path c. rewrite Hperm. subst plan. rewrite elem_of_map_to_list, files_to_revert_lookup.
    by apply earliest_Some.
Qed.

(** C31: every end of a rewind request.  One whose target is not before the end of the
    conversation is refused, unless it asks for the files only; one that is accepted but
    not forced lists what it would revert; these change nothing but which rewind points
    are loaded.  A forced request without a success (the replay of the log failed) leaves
    the conversation, the log, the points and the persistence alone and has only set the
    pending prompt to that of its target, besides its files.  A success was
    forced; it has moved the prompt index to its target, kept what was used, and added one
    marker to the log if the conversation was to be rewound, and told the persistence to
    drop the points from the target on if the files were, to merge them if not.  The files
    with a snapshot at or after the target are reverted, each path once and to the first
    such snapshot, and no others, and only when that was asked for; as in C16, if no two
    paths stand for one file, each of them holds its snapshot or its revert failed. *)
Theorem handle_rewind_exact (req : RewindRequest) (s : SessionActor) pts tr1 w1 :
  get_rewind_points (file_state_tracker s) (session_files s) = (pts, tr1, w1) →
  match handle_rewind req s with
  | None => rq_force req && wants_conversation_rewind (rq_mode req) && accepted req s = true
  | Some (resp, s') =>
      rewind_target resp = rq_target req ∧ rewind_mode resp = rq_mode req
      ∧ (if rewind_success resp then carried_out req tr1 resp s s' else rewind_reverted resp = [] ∧ kept req tr1 s s')
      ∧ (accepted req s = true → rq_force req = false →
         rewind_clean resp ++ (conflict_path <$> rewind_conflicts resp)
         ≡ₚ flexible_display <$> (planned req pts).*1)
      ∧ (if reverts req s then files_reverted req tr1 resp s s'
         else files (session_files s') = files (session_files s))
  end.
Proof.
  intros Hget. unfold reverts. destruct (accepted req s) eqn:Ha.
  2: { rewrite handle_refused, andb_false_r by done. cbn. split_and!; try done. unfold kept.
       rewrite Ha, andb_false_r. split_and!; auto. }
  destruct (handle_accepted req s pts tr1 w1 Ha Hget) as (tr & w & clean & conflicts & Hfw & Htr & Hw & Hp & Hh).
  assert (tr = file_state_tracker s ∨ tr = tr1) as Htr1 by (destruct (wants_file_revert _); auto).
  rewrite Hh, !andb_true_r. destruct (rq_force req) eqn:Hf.
  2: { cbn. split_and!; try done. unfold kept. rewrite Hf. by split_and!. }
  destruct (commit_rewind _ _ _ _) as [[resp s']|] eqn:Hc; cbn [andb].
  - apply (commit_rewind_exact req pts conflicts tr tr1) in Hc as (rv & w2 & Hl & Hfiles & -> & -> & Hend); [|done..].
    split_and!; try done.
    + destruct (rewind_success resp); [apply Hend|]. destruct Hend as [-> (K1 & K2 & K3 & K4 & K5 & K6)].
      split; [done|]. unfold kept. rewrite K1, K2, K3, K4, K6. split_and!; try done.
      destruct Htr1, K5; [left..|right]; congruence.
    + destruct (wants_file_revert (rq_mode req)) eqn:Hwr.
      * eapply loop_reverts; try done; [unfold get_rewind_points in Hget; by destruct (ensure_historical_loaded _ _); simplify_eq|]. destruct (rewind_success resp); apply Hend.
      * unfold planned in Hl. rewrite Hwr in Hl. cbn in Hl. injection Hl as _ <-. by rewrite Hfiles.
  - destruct (wants_conversation_rewind (rq_mode req)) eqn:Hcv; [done|].
    destruct (revert_loop (planned req pts) [] w) as [rv w2] eqn:Hl.
    by rewrite (commit_rewind_files req _ _ (set_files_state tr w s) rv w2) in Hc.
Qed.

(** What a success has done, without a look at the files. *)
Lemma success_done req s resp s' pts tr1 w1 :
  get_rewind_points (file_state_tracker s) (session_files s) = (pts, tr1, w1) →
  handle_rewind req s = Some (resp, s') → rewind_success resp = true → carried_out req tr1 resp s s'.
Proof.
  intros Hget Hh Hs. destruct (accepted req s) eqn:Ha.
  2: { rewrite handle_refused in Hh by done. by injection Hh as <- <-. }
  destruct (handle_accepted req s pts tr1 w1 Ha Hget) as (tr & w & clean & conflicts & _ & Htr & Hw & _ & Hh').
  rewrite Hh' in Hh. destruct (rq_force req) eqn:Hf; [|by injection Hh as <- <-].
  apply (commit_rewind_exact req pts conflicts tr tr1) in Hh as (rv & w2 & _ & _ & _ & _ & Hend); [|done..].
  rewrite Hs in Hend. apply Hend.
Qed.

(** C32: a rewind reaches the disk.  The worker's file holds the points of the tracker; then
    the message that a success sends makes it hold those of the tracker after the rewind:
    a process that loads its history from the file later answers the same points. *)
Theorem rewind_reaches_disk `{!DateTimeLaws} (good : RewindPoint → Prop) `{!LineLaws good}
    (req : RewindRequest) (s : SessionActor) resp s' ps file :
  mirrors (file_state_tracker s) ps → holds good (ps, false) file →
  handle_rewind req s = Some (resp, s') → rewind_success resp = true →
  ∃ m, persistence_tx s' = persistence_tx s ++ [m]
    ∧ mirrors (file_state_tracker s') (wanted m ps)
    ∧ holds good (wanted m ps, false) (persist_rewind m Written file)
    ∧ ∀ path w, files w !! path = persist_rewind m Written file → fs_error (ops w) (ReadOp path) = None →
        fst (fst (get_rewind_points (with_lazy_source path) w)) = sorted_points (file_state_tracker s').
Proof.
  intros Hm Hfile Hh Hs. pose proof Hm as (Hlazy & _).
  assert (get_rewind_points (file_state_tracker s) (session_files s)
          = (sorted_points (file_state_tracker s), file_state_tracker s, session_files s)) as Hget.
  { unfold get_rewind_points, ensure_historical_loaded. by rewrite Hlazy. }
  destruct (success_done _ _ _ _ _ _ _ Hget Hh Hs) as (_ & _ & _ & _ & Hmsg & Htracker).
  set (m := if wants_file_revert (rq_mode req) then TruncateRewindPoints (rq_target req)
            else MergeRewindPointsFrom (rq_target req)) in Hmsg.
  assert (mirrors (file_state_tracker s') (wanted m ps)) as Hm'.
  { subst m. destruct (wants_file_revert _); [rewrite (Htracker Hlazy)|rewrite Htracker];
      [by apply mirrors_truncate|by apply mirrors_merge]. }
  assert (holds good (wanted m ps, false) (persist_rewind m Written file)) as Hh'.
  { replace (wanted m ps, false) with (spec_persist (ps, false) (m, Written)) by (subst m; by destruct (wants_file_revert _)).
    apply rewrite_holds; [done..|]. intros p. subst m. by destruct (wants_file_revert _). }
  exists m. do 3 (split; [done|]). intros path w. by apply (restart_points good (wanted m ps)).
Qed.

End handler.

(** ** A concrete session *)

#[local] Existing Instances demo_env demo_json demo_files.
#[local] Instance table_order : HashOrder := {| hash_order A l := l |}.
#[local] Instance table_order_perm : HashOrderPerm.
Proof. split. done. Qed.
#[local] Instance loaded_history : RewindSerde :=
  {| from_str _ := None; to_string _ := []; datetime_from_str _ := None; datetime_to_string _ := [] |}.
Definition no_write : FsErrors :=
  {| fs_error _ o := match o with WriteOp _ => Some (txt "read-only", PermissionDenied) | _ => None end; fs_partial _ _ := None; not_found := txt "no such file" |}.
Definition all_writes : FsErrors := {| fs_error _ _ := None; fs_partial _ _ := None; not_found := txt "no such file" |}.

Definition demo_snapshot (c : string) : FileSnapshot := mkFileSnapshot (Relative [txt "f"]) (Some (txt c)) 0.
Definition demo_point : RewindPoint :=
  mkPoint 4 0 {[ Relative [txt "f"] := demo_snapshot "old" ]} {[ Relative [txt "f"] := demo_snapshot "new" ]}.

(** A session after the events of [demo_session], which was compacted; its fifth prompt
    wrote a file. *)
Definition demo_chat : ChatState.Actor :=
  mkActor
    (mkChat [System (txt "sys"); summary_item; assistant (txt "45"); marked_user (txt "e") 3; assistant (txt "6");
             marked_user (txt "f") 4]
       demo_config 5 [txt "a"; txt "c"; txt "d"; txt "e"; txt "f"] 500 None None ∅ (Some 3)
       Credentials_default 0 100 None None UsageLedger_default None [] [])
    (mkPruning false 3 4000 1500 1500 1) [] [] demo_process.
Definition demo_actor4 : SessionActor :=
  mkSessionActor demo_chat (mkTracker {[ 4 := demo_point ]} None None) (mkWorld {[ txt "/w/f" := txt "new" ]} 0 [])
    (demo_log 4) None SuppressSticky [].

Definition demo_rewind (E : FsErrors) (log_error : option text) (req : RewindRequest) (s : SessionActor)
    : RewindResponse * SessionActor :=
  default (mkRewindResponse false 0 RewindAll [] [] [] None None, s)
    (@handle_rewind demo_env demo_json table_order E loaded_history demo_files (txt "/w") (txt "/s") log_error req s).

Lemma session_rewound_witness :
  ∃ resp s', demo_rewind all_writes None (mkRequest 4 true RewindAll) demo_actor4 = (resp, s')
    ∧ rewind_success resp = true ∧ rewind_pending_prompt s' = Some (txt "f")
    ∧ conv (chat s') = [System (txt "sys"); summary_item; assistant (txt "45"); marked_user (txt "e") 3; assistant (txt "6")]
    ∧ last_compaction_prompt_index (state (chat s')) = Some 3
    ∧ files (session_files s') !! txt "/w/f" = Some (txt "old").
Proof.
  destruct (@session_rewound demo_env demo_json table_order all_writes loaded_history demo_files (txt "/w") (txt "/s")
    None demo_session (demo_timeline 4) (mkRequest 4 true RewindAll) demo_actor4 eq_refl
    ltac:(by vm_compute) ltac:(by vm_compute) ltac:(apply Nat.ltb_lt; by vm_compute) eq_refl eq_refl) as (items & marker & [(pre & Hpre & Hi) Hm] & H).
  assert (items = [System (txt "sys"); summary_item; assistant (txt "45"); marked_user (txt "e") 3; assistant (txt "6")]) as Hitems.
  { rewrite Hi. inversion Hpre as [i rest Hown|ui0 Hno Hui|Hno Hui]; subst pre.
    - by vm_compute.
    - by edestruct Hno; vm_compute.
    - by edestruct Hno; vm_compute. }
  destruct H as (resp & s' & Hh & H1 & H2 & H3 & H4 & H5 & _).
  { rewrite Hitems. by eexists. }
  exists resp, s'. split; [unfold demo_rewind; by rewrite Hh|]. rewrite H3, H2, H4, H5, Hitems, Hm.
  split_and!; [done|by vm_compute|done|by vm_compute|].
  assert (s' = (demo_rewind all_writes None (mkRequest 4 true RewindAll) demo_actor4).2) as -> by (unfold demo_rewind; by rewrite Hh).
  by vm_compute.
Defined.

Lemma handle_rewind_exact_witness :
  ∃ resp s', demo_rewind all_writes None (mkRequest 4 false RewindAll) demo_actor4 = (resp, s')
    ∧ rewind_success resp = false ∧ kept (mkRequest 4 false RewindAll) (file_state_tracker demo_actor4) demo_actor4 s'
    ∧ rewind_clean resp ++ (conflict_path <$> rewind_conflicts resp) ≡ₚ [txt "f"]
    ∧ files (session_files s') = files (session_files demo_actor4).
Proof.
  pose proof (@handle_rewind_exact demo_env demo_json table_order all_writes loaded_history demo_files (txt "/w") (txt "/s")
    None table_order_perm (mkRequest 4 false RewindAll) demo_actor4 [demo_point] (file_state_tracker demo_actor4)
    (session_files demo_actor4) ltac:(by vm_compute)) as H.
  unfold demo_rewind. destruct (handle_rewind _ _ _ _ _) as [[resp s']|] eqn:Hh; [|done].
  destruct H as (_ & _ & H1 & H2 & H3). exists resp, s'. split; [done|].
  destruct (rewind_success resp); [by destruct H1 as [? _]|]. destruct H1 as [_ H1].
  split_and!; [done|done| |done]. exact (H2 eq_refl eq_refl).
Defined.

(** A file that cannot be written is left as it is; the answer is a success that does not
    name it, and the content to go back to is dropped. *)
Example failed_write_loses_content :
  let '(resp, s') := demo_rewind no_write None (mkRequest 4 true FilesOnly) demo_actor4 in
  rewind_success resp = true ∧ rewind_error resp = None ∧ rewind_reverted resp = []
  ∧ files (session_files s') !! txt "/w/f" = Some (txt "new")
  ∧ size (rewind_points (file_state_tracker s')) = 0
  ∧ persistence_tx s' = [TruncateRewindPoints 4].
Proof. by vm_compute. Qed.

(** A replay that fails aborts a rewind whose files are reverted already; the answer names
    none of them. *)
Example aborted_after_revert :
  let '(resp, s') := demo_rewind all_writes (Some (txt "denied")) (mkRequest 4 true RewindAll) demo_actor4 in
  rewind_success resp = false ∧ rewind_reverted resp = []
  ∧ files (session_files s') !! txt "/w/f" = Some (txt "old")
  ∧ conv (chat s') = conv demo_chat.
Proof. by vm_compute. Qed.

(** Two prompts whose points are on disk; the files of the second are reverted. *)
Definition known_tracker : FileStateTracker :=
  mkTracker (<[0 := first_point]> {[ 1 := second_point ]}) None None.
Definition known_actor : SessionActor :=
  mkSessionActor demo_chat known_tracker (mkWorld {[ txt "/w/a" := txt "new" ]} 0 []) [] None SuppressNone [].
Definition known_file : option text := @write_jsonl known as_listed_order [first_point; second_point] Written None.
Definition known_rewind : option (RewindResponse * SessionActor) :=
  @handle_rewind demo_env demo_json as_listed_order all_writes known demo_files (txt "/w") (txt "/s") None
    (mkRequest 1 true FilesOnly) known_actor.

Lemma rewind_reaches_disk_witness :
  ∃ resp s', known_rewind = Some (resp, s') ∧ rewind_reverted resp = [txt "a"]
    ∧ ∃ m, persistence_tx s' = [m]
        ∧ @persist_rewind known as_listed_order m Written known_file = Some (txtln "{0}")
        ∧ mirrors (file_state_tracker s') [first_point].
Proof.
  assert (mirrors known_tracker [first_point; second_point]) as Hm.
  { split_and!; [done| |vm_compute; constructor]. intros i p Hp.
    change ((<[0 := first_point]> {[ 1 := second_point ]} : gmap nat RewindPoint) !! i = Some p) in Hp.
    by apply lookup_insert_Some in Hp as [[<- <-]|[_ [<- <-]%lookup_singleton_Some]]. }
  assert (@holds known as_listed_order is_known ([first_point; second_point], false) known_file) as Hf.
  { apply (@write_holds known as_listed_order is_known). constructor; [by left|]. constructor; [by right|]. constructor. }
  assert ((λ r, (rewind_success r.1, rewind_reverted r.1, persistence_tx r.2)) <$> known_rewind
          = Some (true, [txt "a"], [TruncateRewindPoints 1])) as Hrun by (vm_compute; reflexivity).
  destruct known_rewind as [[resp s']|] eqn:Hh; [|done]. injection Hrun as Hs Hr Ht. cbn [fst snd] in Hs, Hr, Ht.
  destruct (@rewind_reaches_disk demo_env demo_json as_listed_order all_writes known demo_files (txt "/w") (txt "/s") None
    as_listed_perm known_dates is_known known_laws (mkRequest 1 true FilesOnly) known_actor resp s'
    [first_point; second_point] known_file Hm Hf Hh Hs) as (m & Hmsg & Hmir & _).
  exists resp, s'. split_and!; [done|done|]. exists m. split; [exact Hmsg|].
  assert (m = TruncateRewindPoints 1) as -> by (rewrite Ht in Hmsg; by injection Hmsg as <-).
  split; [by vm_compute|exact Hmir].
Defined.
